(* ===== verification/_CoqProject ===== *)
-Q . S2P
Prelude.v
Utf8.v
Errors.v
Time.v
Messages.v
Wire.v
Codec.v
EnvelopeCodec.v
EnvelopeLimits.v
Capacity.v
Claim.v
Reliability.v
Retention.v
Heap.v
BTree.v
Search.v
Ids.v
Breaker.v
Flows.v
FlowExec.v
Suspension.v
SuspendedFlows.v
Scheduler.v
FlowRuntime.v
FlowSaga.v
DueService.v
Outbox.v
Inbox.v
EventStore.v
Snapshots.v
Aggregates.v
Upgrades.v
CatchUp.v
Projections.v
Subscriptions.v
RaftStorage.v
RaftPipeline.v
RaftApply.v
RaftPending.v
RaftOwner.v
Dsl.v
DslProgress.v
DslCheckpoint.v
DslResume.v
DslFaults.v
Tasks.v
Security.v
Mediator.v
Behaviors.v
Leases.v
Delivery.v
StateMachines.v
Resilience.v
Lifecycle.v
Transports.v
OutboxProcessor.v
Consumers.v
Routing.v
Batching.v
ReadModels.v
Decimals.v
Kv.v
NatsMachines.v
NatsLeases.v
NatsInbox.v
NatsProgress.v
