(* ===== verification/Prelude.v ===== *)
(** * catga-rs: a verification of its messaging, storage, workflow and wire core

    catga-rs is a framework for CQRS, event sourcing and durable workflows.  Its
    core crate, [src/crates/catga-core], defines the contracts (messages, errors,
    stores, codecs) and an in-memory implementation of each store; the other crates
    bind the contracts to brokers, databases and a consensus library.  This
    development translates the core crate's deterministic logic into functions on
    explicit states and proves the properties its users rely on.

    ** Conventions

    A fallible function returns [CatgaResult]; a method that changes a store
    returns its result together with the new store, also when it fails.  Machine
    integers are [Z] with their range and the operation the source uses on them
    ([checked], [saturating], [wrapping]; this file).  Strings are the UTF-8 bytes
    of a Rocq [string].  A function that reads the clock, or may fail to allocate,
    takes the reading or the outcome as an argument, one per read.  A [HashMap] is
    a [gmap]; where the code iterates over one, the order is that of an instance of
    [MapIter], of which only that it enumerates the entries is known.  User code
    (aggregates, projections, handlers, upgraders) and library code (the UTF-8
    validator, type erasure) are parameters with the documented laws as
    hypotheses; each has a concrete instance in the witnesses.

    ** Files, sources and what is shown

    Foundations.
    - [Prelude]: results, machine integers, [MapIter], list and map lemmas, tactics.
    - [Utf8]: the bytes of a [str], character boundaries, the truncation loop.
    - [Errors] ([error.rs]): error codes with their wire codes, bounded details.
    - [Time] ([time.rs]): conversions between clock readings and milliseconds.
    - [Messages] ([message.rs], [store.rs]): metadata, envelopes, headers.
    - [Reliability] ([reliability.rs], [memory/dead_letter.rs]): budgets, claims,
      dead letters.
    - [Heap]: the bounded [BinaryHeap] scan of three stores; it returns the first
      elements of the sorted input in whatever order it meets them.
    - [BTree]: a [BTreeMap] as a finite map with its entries in key order; [Search]: the binary
      searches of the standard library.
    - [Ids] ([distributed_id.rs]): time-ordered identifiers.  Any number of
      generators' threads over one state word never hand out the same identifier
      twice, identifiers grow, and [parse] recovers the parts.
    - [Breaker] ([behaviors/circuit_breaker.rs]): the circuit breaker as a state
      machine over its outcome window; what each state admits, when it opens, and
      that one probe runs at a time, for calls that overlap but whose accesses to the breaker
      (a permit, a completion, a drop) do not.  [breaker_races] shows what interleaved atomic
      accesses can do instead.

    Wire format.
    - [Wire] ([codec/memorypack/writer.rs], [reader.rs], [varint.rs], [limits.rs],
      [error.rs]): writer and bounded reader as state transformers.
    - [Codec] ([codec/memorypack/traits/], [serializer.rs], [codec.rs]): codecs as
      pairs of transformers; the class [CodecLaws] is what a codec promises to the
      codecs built on it (the bytes it writes, that it reads them back within a
      stated budget, that it is safe on any input), with an instance per modelled
      type.
    - [EnvelopeCodec] ([codec/memorypack/envelope.rs], [api.rs]): envelopes,
      errors and RPC responses on the wire, with validation on decode.
    - [EnvelopeLimits]: the envelope codec without any assumption on a codec.  An envelope whose
      sizes are within the stated limits comes back as it was sent; decoding arbitrary bytes
      stays inside the frame and the allocation budget.

    Reliable delivery.
    - [Capacity] ([memory/capacity.rs]) and [Claim] ([memory/claim.rs]): the
      lock-free counters and claim records, each given twice: run alone, and as a
      step relation that interleaves the atomic accesses of any number of threads.
      The sequential reading refines the concurrent one; the capacity bound, unique
      generations and final completion hold in every interleaving.
    - [Retention]: the cleanup and admission code the bounded stores share.
    - [Outbox] ([store.rs], [memory/outbox.rs]): the life of a message and the
      store.  Claims are exclusive, oldest first, fenced by tokens; no message is
      lost.
    - [Inbox] ([memory/inbox.rs], [memory/idempotency.rs]): claims with leases and
      generations; a completed message is processed once.

    Dispatch.
    - [Tasks]: asynchronous tasks, as values that are polled, dropped, timed out and joined; pools
      of them that run at once while the world changes under them; a rely-guarantee logic ([rg]).
    - [Security] ([security.rs]): identities with bounded claims, roles, requirements.
    - [Mediator] ([registry.rs], [pipeline.rs], [mediator.rs], [cancellation.rs]): handlers behind
      erased types, pipelines, dispatch, publication, batches.  A message reaches the handlers
      that were registered for its type and no others, through exactly the stages of the pipeline.
    - [Behaviors] ([behaviors/], [retry_jitter.rs], [validation/]): the stages that the library
      ships, over classes of stores.
    - [Delivery]: the inbox and idempotency stages over the in-memory stores, with any number of
      deliveries at once; the classes [InboxLaws] and [IdempotencyLaws].  All deliveries of a
      message that succeed within the retention give the same response.  An idempotency key whose
      delivery was dropped stays claimed for ever.
    - [Batching] ([behaviors/auto_batching.rs]): requests that are collected into batches by key.
      Every request is answered once, in every interleaving and also when the runner is dropped;
      the limits hold; the runner ends after a shutdown.
    - [Leases] ([lease.rs], [memory/lease.rs], [behaviors/distributed_lock.rs]): leases are
      exclusive until they run out; a request under a lock never reports success after it lost
      the lease.
    - [Resilience] ([resilience.rs]): admission, attempts and the circuit of an executor that many
      calls share.  The limits hold in every interleaving; two kinds of dropped calls shut the
      executor for good.

    Transport.
    - [Lifecycle] ([lifecycle.rs]): operations that drain before a shutdown, with no lost wake-up,
      and recovery sweeps, of which one at most is at work.
    - [Transports] ([transport.rs], [memory/transport.rs]): deliveries, batches, the in-memory
      transport.
    - [Routing] ([routing.rs], [message_type.rs], [hash.rs]): route tables, names of message types,
      and the framed bytes of storage keys, which tell different keys apart.
    - [OutboxProcessor] ([outbox_processor.rs]): any number of processors on one outbox deliver at
      least once, over any transport with [PublishLaws].
    - [Consumers] ([consumer.rs]): deliveries are acknowledged after their work.

    JetStream.
    - [Kv] ([catga-nats/src/kv.rs], [catga-nats/src/record.rs]): the key-value buckets as an
      interface with the laws of their documentation ([KeyValueLaws]), where answers are lost, reads
      lag and writes come true late; record envelopes.  A single server is an instance.
    - [NatsMachines] ([catga-nats/src/state_machine.rs]): the store of state machines keeps the
      contract [MachineStoreLaws] that the executor is proved against, over any such service.
      Two executors whose writes have equal bytes can both report theirs
      ([equal_writes_both_reported]).
    - [NatsLeases] ([catga-nats/src/lease.rs]): leases pass from one owner to another only when
      they are released or over, with one clock for all clients and the service; what the calls
      that succeed wrote.
    - [NatsInbox] ([catga-nats/src/inbox.rs], [catga-nats/src/idempotency.rs]): the records keep the
      contracts [InboxLaws] and [IdempotencyLaws] of the behaviors.  [Decimals] has numbers in text.
    - [NatsProgress] ([catga-nats/src/dsl_progress.rs]): the history of a DSL step: one creation,
      updates in the order of their versions, at most one deletion.

    Event sourcing.
    - [EventStore] ([event_store.rs], [memory/event_store.rs]): streams, appends
      with an expected version, pages.  The class [EventStoreLaws] is the contract
      that the clients below are proved against.
    - [Snapshots] ([snapshot.rs], [memory/snapshot.rs],
      [memory/enhanced_snapshot.rs], [auto_snapshot.rs]): both snapshot stores, the
      strategies; the classes [SnapshotLaws] and [HistoryLaws].
    - [Aggregates] ([aggregate.rs], [time_travel.rs]): loading is replay, saving
      then loading is the identity, stale saves are refused, time travel agrees with
      replay.
    - [Upgrades] ([event_version.rs], [upgrading_event_store.rs]): schema upgrades.
    - [ReadModels] ([read_model.rs], [memory/read_model.rs]): changes that wait until a read model
      has them.  No tracked change is lost, whatever runs at once; the scheduled strategy runs one
      action at a time, and none any more after a dropped one.
    - [CatchUp], [Projections] ([projection.rs], [memory/projection.rs]) and
      [Subscriptions] ([subscription.rs], [memory/subscription.rs]): the page loop
      of the runners, once, and exact resumable progress for each of them.

    Durable flows.
    - [Flows] ([flow/state.rs], [flow/store.rs], [memory/flow.rs]): the state of a
      flow and its store; the class [FlowStoreLaws].
    - [FlowExec] ([flow/executor.rs]): one unit of work per flow.  Any number of
      executors agree on one outcome, and recovery reaches every abandoned flow.
    - [Suspension] ([flow/suspension.rs], [flow/runtime_wait.rs],
      [flow/suspension_store.rs]): continuations, waits for child results and child
      launches; every wait that the operations produce from a valid one is well formed, and
      [new], which checks nothing, gives a valid one exactly for a correlation and 1 to 1,024
      children.
    - [SuspendedFlows] ([memory/suspended_flow.rs],
      [memory/suspended_flow_timeout.rs]): the store of continuations with its
      correlation and deadline indexes; the class [SuspendedStoreLaws].
    - [Scheduler] ([flow/scheduler.rs]): registered wake-ups with claims and leases.  A wake-up
      goes exactly when it is cancelled, acknowledged by the owner of its claim or taken when due,
      and the call that ends it says so ([ends], [removal_reported]).
    - [FlowRuntime] ([flow/runtime.rs], [flow/definition.rs], [flow/tag_policy.rs],
      [flow/completion.rs]): the operations of the runtime as programs in a state and
      error monad, against any store with [SuspendedStoreLaws].  Before each access
      of a program the environment may change the store; a small program logic
      ([triple]) assumes of the environment what it shows of the programs, so its
      theorem, [runtime_safe], holds for any number of runtimes on one store.
    - [FlowSaga]: the runtime alone on the in-memory store.  A flow runs its steps
      in order and ends as done, or undoes the completed ones in reverse until a rollback
      action fails, if one does.
    - [DueService] ([flow/due_service.rs], [flow/timeout.rs]): the two workers that
      resume due and expired flows, over runtime, store and scheduler.  A sweep works on what
      [claim_due] returned, in order; it acknowledges what it resumed, and releases the rest of
      its batch when it stops on an error or a cancellation.  Two runs show a wake-up that is lost
      and a rollback that nobody owns.
    - [StateMachines] ([flow/state_machine/], [memory/state_machine.rs]): event-driven machines, the
      executor that stores each outcome at the next version, the router and the durable frames.
      Any number of executors on one store apply events one after the other.
    - [Dsl] ([flow/dsl.rs], [flow/dsl_step.rs], [flow/dsl_lifecycle.rs]): flows built step by
      step, with branches, retries, races, parallel branches, item loops and compensation, as
      an interpreter over the nested syntax of steps.  Rollback undoes exactly the completed
      compensable steps of the flow itself, latest first, when a step fails; a failed success hook
      stops the flow without rollback; parallel branches do not see one another.
    - [DslProgress] ([flow/dsl_progress.rs], [flow/dsl_checkpoint.rs], [flow/memorypack.rs],
      [memory/dsl_progress.rs]): progress records, their store and the bytes of a checkpoint.
    - [DslCheckpoint] ([flow/dsl.rs], [flow/dsl_recovery.rs], [flow/dsl_parallel_recovery.rs],
      [flow/dsl_when_any.rs]): the checkpointed interpreter over any progress store, in a state
      and error monad.
    - [DslResume]: recovery.  A process may stop at any store operation, any number of times;
      flows within stated bounds still end with the result of the in-memory run.
    - [DslFaults]: an instance, and flows outside these bounds that do not recover.

    Consensus ([src/crates/catga-raft/src], around the raft library and its log engine,
    which are the classes [RaftMessages] and [RaftEngine] with their documented laws).
    - [RaftStorage] ([storage/engine.rs]): the log storage with its overlay of entries that
      are readable but not yet durable.  It refines a plain log in the interleavings of the
      owner and of the parts of a drain in which no snapshot is applied during a drain and no
      compaction or marker reaches the entries it writes; [late_drain_reopens_log] shows a log
      that such a step corrupts.  A restart recovers the drained entries when the
      companion file was written, and hides them when it was not.
    - [RaftPipeline] ([pipeline.rs], [config.rs]): batching of proposals; none is lost or
      reordered and the in-flight counter is exact.
    - [RaftApply] ([apply.rs]): the apply worker with its snapshot epoch computes what
      applying in place would.
    - [RaftPending] ([owner.rs]): waiting reads, proposals and membership changes; every
      request has one answer.
    - [RaftOwner] ([owner.rs], [coordinator.rs], [runtime.rs]): persist worker and owner;
      acknowledgements come in order, and an acknowledged batch with a hard state is durable.

    ** Histories

    Store-wide properties quantify over every history: an inductive step relation
    has one constructor per public operation, with any arguments and clock readings,
    and the invariant is proved by rule induction over the reachable states.  The
    outbox, inbox and claim histories bound the number of operations by the range of
    the 64-bit counters where the code's counters wrap or run out.

    ** Fuel

    Loops that follow cursors ([follow_pages], [follow_ids], [drain]) take fuel and
    return [None] when it runs out.  Every theorem about them gives a bound on the
    fuel that is enough, at most the length of the stream plus one (each page but the
    last advances the cursor), so it also states termination.  The compare-exchange
    loops are steps of a relation, one per attempt.  The upgrade loop has the
    source's own bound of 100 steps, and the child-launch loops theirs of 8 attempts.
    [drive] takes one unit of fuel per step of a flow, because a flow may go back to
    an earlier step for ever; [saga_exact] gives the number of steps as enough.  A
    program that runs out returns no result, and [runtime_safe] holds for it as well.
    The rollback loop runs once per recorded step.

    ** What the theorems do not cover

    SQL stores, broker backends other than these stores on JetStream, HTTP, telemetry and derive
    macros are I/O, scheduling or glue around other libraries.  The memory order of the atomics is taken as sequentially
    consistent.  Operations of a store other than the claim record and the capacity
    counter are atomic, as under their shard locks.  A handler of a
    flow runs between its heartbeats; how many fall due and whether its deadline passes
    first is given by the environment, as is what an interrupted handler leaves behind.
    Not modelled yet: the wire form of flow states, and the codecs of sets, dates, large
    numbers and multi-dimensional arrays. *)

From Stdlib Require Export ZArith Lia.
From stdpp Require Export base tactics numbers list gmap strings sorting fin_maps.

(** ** Notation scope of the development *)

Declare Scope catga_scope.
Delimit Scope catga_scope with catga.
Open Scope catga_scope.
Open Scope Z_scope.

(** ** Rust's [Result] *)

Inductive result (E A : Type) : Type :=
| Ok (a : A)
| Err (e : E).
Arguments Ok {E A} a.
Arguments Err {E A} e.

#[global] Instance result_eq_dec `{EqDecision E, EqDecision A} : EqDecision (result E A).
Proof. solve_decision. Defined.

Definition rbind {E A B} (r : result E A) (k : A -> result E B) : result E B :=
  match r with Ok a => k a | Err e => Err e end.

Definition rmap {E A B} (f : A -> B) (r : result E A) : result E B :=
  match r with Ok a => Ok (f a) | Err e => Err e end.

Definition map_err {E F A} (f : E -> F) (r : result E A) : result F A :=
  match r with Ok a => Ok a | Err e => Err (f e) end.

Definition ok_or {E A} (o : option A) (e : E) : result E A :=
  match o with Some a => Ok a | None => Err e end.

Definition is_ok {E A} (r : result E A) : bool :=
  match r with Ok _ => true | Err _ => false end.

(** [let? x := r in k] is the source's [let x = r?; k]. *)
Notation "'let?' x ':=' r 'in' k" := (rbind r (fun x => k))
  (at level 10, x name, r at level 100, k at level 200) : catga_scope.
Notation "'let?' ' p ':=' r 'in' k" := (rbind r (fun p => k))
  (at level 10, p strict pattern, r at level 100, k at level 200)
  : catga_scope.

Lemma rbind_ok_inv {E A B} (r : result E A) (k : A -> result E B) b :
  rbind r k = Ok b -> exists a, r = Ok a /\ k a = Ok b.
Proof. destruct r; simpl; [eauto | discriminate]. Qed.

Lemma rmap_ok_inv {E A B} (f : A -> B) (r : result E A) b :
  rmap f r = Ok b -> exists a, r = Ok a /\ b = f a.
Proof. destruct r; simpl; [naive_solver | discriminate]. Qed.

(** ** Machine integers

    A w-bit integer is a [Z] together with the range its type allows; every
    operation of the source that can leave the range says what it does there
    ([checked_*], [saturating_*], [wrapping_*] or an [as] cast). *)

Record int_ty := IntTy { int_signed : bool; int_bits : Z }.

Definition int_min (t : int_ty) : Z := if int_signed t then - 2 ^ (int_bits t - 1) else 0.
Definition int_max (t : int_ty) : Z :=
  if int_signed t then 2 ^ (int_bits t - 1) - 1 else 2 ^ int_bits t - 1.

Definition u8 := IntTy false 8.
Definition u16 := IntTy false 16.
Definition u32 := IntTy false 32.
Definition u64 := IntTy false 64.
Definition u128 := IntTy false 128.
Definition i8 := IntTy true 8.
Definition i16 := IntTy true 16.
Definition i32 := IntTy true 32.
Definition i64 := IntTy true 64.
Definition i128 := IntTy true 128.
(** The targets the crate supports are 64-bit. *)
Definition usize := IntTy false 64.

Definition fits (t : int_ty) (x : Z) : bool := (int_min t <=? x) && (x <=? int_max t).

(** [T::try_from(x).ok()], and the result of every [checked_*] operation. *)
Definition checked (t : int_ty) (x : Z) : option Z := if fits t x then Some x else None.

Definition saturating (t : int_ty) (x : Z) : Z := Z.max (int_min t) (Z.min (int_max t) x).

(** The value of [x as T] and of the wrapping operations. *)
Definition wrapping (t : int_ty) (x : Z) : Z :=
  let m := x mod 2 ^ int_bits t in
  if int_signed t && (2 ^ (int_bits t - 1) <=? m) then m - 2 ^ int_bits t else m.

Lemma fits_spec t x : fits t x = true <-> int_min t <= x <= int_max t.
Proof. unfold fits. rewrite andb_true_iff, !Z.leb_le. done. Qed.

Lemma checked_Some t x y : checked t x = Some y <-> y = x /\ int_min t <= x <= int_max t.
Proof.
  unfold checked. destruct (fits t x) eqn:E.
  - apply fits_spec in E. naive_solver.
  - split; [done |]. intros [_ H]. apply fits_spec in H. congruence.
Qed.

Lemma checked_None t x : checked t x = None <-> (x < int_min t \/ int_max t < x).
Proof.
  unfold checked. destruct (fits t x) eqn:E.
  - apply fits_spec in E. split; [done | lia].
  - split; [|done]. intros _. destruct (decide (int_min t <= x <= int_max t)) as [H|H]; [|lia].
    apply fits_spec in H. congruence.
Qed.

Lemma checked_fits t x : int_min t <= x <= int_max t -> checked t x = Some x.
Proof. intros H. by apply checked_Some. Qed.

Lemma saturating_id t x : int_min t <= x <= int_max t -> saturating t x = x.
Proof. unfold saturating. lia. Qed.

Lemma saturating_bounds t x :
  int_min t <= int_max t -> int_min t <= saturating t x <= int_max t.
Proof. unfold saturating. lia. Qed.

Lemma wrapping_id t x : 0 < int_bits t -> int_min t <= x <= int_max t -> wrapping t x = x.
Proof.
  unfold wrapping, int_min, int_max. intros Hb Hx.
  assert (2 ^ int_bits t = 2 * 2 ^ (int_bits t - 1)) as Hp.
  { rewrite <-Z.pow_succ_r by lia. f_equal. lia. }
  assert (0 < 2 ^ (int_bits t - 1)) by (apply Z.pow_pos_nonneg; lia).
  destruct (int_signed t); simpl.
  - destruct (decide (0 <= x)).
    + rewrite Z.mod_small by lia. destruct (Z.leb_spec (2 ^ (int_bits t - 1)) x); lia.
    + assert (x mod 2 ^ int_bits t = x + 2 ^ int_bits t) as ->.
      { symmetry. apply (Z.mod_unique _ _ (-1)); lia. }
      destruct (Z.leb_spec (2 ^ (int_bits t - 1)) (x + 2 ^ int_bits t)); lia.
  - apply Z.mod_small. lia.
Qed.

Lemma wrapping_bounds t x :
  0 < int_bits t -> int_min t <= wrapping t x <= int_max t.
Proof.
  unfold wrapping, int_min, int_max. intros Hb.
  assert (2 ^ int_bits t = 2 * 2 ^ (int_bits t - 1)) as Hp.
  { rewrite <-Z.pow_succ_r by lia. f_equal. lia. }
  assert (0 < 2 ^ (int_bits t - 1)) by (apply Z.pow_pos_nonneg; lia).
  pose proof (Z.mod_pos_bound x (2 ^ int_bits t)).
  destruct (int_signed t); simpl;
    [destruct (Z.leb_spec (2 ^ (int_bits t - 1)) (x mod 2 ^ int_bits t)) |]; lia.
Qed.

(** Disjoint bit fields: [or] is addition. *)
Lemma lor_shiftl_add q m k :
  0 <= k -> 0 <= m < 2 ^ k -> Z.lor (Z.shiftl q k) m = q * 2 ^ k + m.
Proof.
  intros Hk Hm. rewrite <-(Z.shiftl_mul_pow2 q k) by done.
  assert (Z.land (Z.shiftl q k) m = 0) as Hland.
  { apply Z.bits_inj'. intros n Hn. rewrite Z.land_spec, Z.bits_0.
    destruct (decide (n < k)).
    - rewrite Z.shiftl_spec_low by lia. done.
    - rewrite <-(Z.mod_small m (2 ^ k)), Z.mod_pow2_bits_high by lia. apply andb_false_r. }
  by rewrite <-Z.lxor_lor, <-Z.add_nocarry_lxor.
Qed.

(** Concrete bounds, for [lia]. *)
Ltac int_bounds :=
  repeat match goal with
  | H : context [int_min ?t] |- _ =>
      let v := eval vm_compute in (int_min t) in change (int_min t) with v in H
  | H : context [int_max ?t] |- _ =>
      let v := eval vm_compute in (int_max t) in change (int_max t) with v in H
  | |- context [int_min ?t] =>
      let v := eval vm_compute in (int_min t) in change (int_min t) with v
  | |- context [int_max ?t] =>
      let v := eval vm_compute in (int_max t) in change (int_max t) with v
  end.

(** ** Sums over lists *)

Definition sumZ {A} (f : A -> Z) (l : list A) : Z := foldr (fun a n => f a + n) 0 l.

Section sumZ.
Context {A : Type} (f : A -> Z).

Lemma sumZ_insert l i p q :
  l !! i = Some p -> sumZ f (<[i := q]> l) = sumZ f l - f p + f q.
Proof.
  revert i. induction l as [|x l IH]; intros [|i] Hi; simpl in *; simplify_eq; [lia |].
  rewrite (IH i Hi). lia.
Qed.

Lemma sumZ_app l l' : sumZ f (l ++ l') = sumZ f l + sumZ f l'.
Proof. induction l; simpl; lia. Qed.

Lemma sumZ_zero l : Forall (fun a => f a = 0) l -> sumZ f l = 0.
Proof. induction 1; simpl; lia. Qed.

Hypothesis f_nonneg : forall a, 0 <= f a.

Lemma sumZ_nonneg l : 0 <= sumZ f l.
Proof. induction l as [|x l IH]; simpl; [done |]. specialize (f_nonneg x). lia. Qed.

Lemma sumZ_lookup_le l i p : l !! i = Some p -> f p <= sumZ f l.
Proof.
  revert i. induction l as [|x l IH]; intros [|i] Hi; simpl in *; simplify_eq.
  - pose proof (sumZ_nonneg l). lia.
  - specialize (IH i Hi). specialize (f_nonneg x). lia.
Qed.

(** Two different positions *)
Lemma sumZ_lookup2_le l i j p q :
  l !! i = Some p -> l !! j = Some q -> i <> j -> f p + f q <= sumZ f l.
Proof.
  revert i j. induction l as [|x l IH]; intros [|i] [|j] Hi Hj Hne; simpl in *; simplify_eq.
  - pose proof (sumZ_lookup_le l j q Hj). lia.
  - pose proof (sumZ_lookup_le l i p Hi). lia.
  - specialize (IH i j Hi Hj). specialize (f_nonneg x). lia.
Qed.
End sumZ.

Lemma sumZ_length {A} (l : list A) : sumZ (fun _ => 1) l = Z.of_nat (length l).
Proof. induction l; simpl; lia. Qed.

(** ** Lengths as integers *)

Definition lenZ {A} (l : list A) : Z := Z.of_nat (length l).

Lemma lenZ_app {A} (a b : list A) : lenZ (a ++ b) = lenZ a + lenZ b.
Proof. unfold lenZ. rewrite length_app. lia. Qed.

Lemma lenZ_nonneg {A} (l : list A) : 0 <= lenZ l.
Proof. unfold lenZ. lia. Qed.

Lemma lenZ_pos {A} (l : list A) : l <> [] -> 0 < lenZ l.
Proof. destruct l; [done |]. unfold lenZ. simpl. lia. Qed.

Lemma lenZ_zero {A} (l : list A) : lenZ l <= 0 -> l = [].
Proof. destruct l; [done |]. unfold lenZ. simpl. lia. Qed.

(** ** Filters *)

Section filter.
Context {A : Type} (P : A -> Prop) `{!forall x, Decision (P x)}.

Lemma filter_none (l : list A) : (forall x, x ∈ l -> ~ P x) -> filter P l = [].
Proof.
  induction l as [|x l IH]; intros Hl; [done |]. rewrite filter_cons_False.
  - apply IH. intros y Hy. apply Hl. by right.
  - apply Hl. by left.
Qed.

Lemma filter_all (l : list A) : (forall x, x ∈ l -> P x) -> filter P l = l.
Proof.
  induction l as [|x l IH]; intros Hl; [done |]. rewrite filter_cons_True.
  - f_equal. apply IH. intros y Hy. apply Hl. by right.
  - apply Hl. by left.
Qed.
End filter.

Lemma filter_ext_in {A} (P Q : A -> Prop) `{!forall x, Decision (P x), !forall x, Decision (Q x)}
    (l : list A) :
  (forall x, x ∈ l -> P x <-> Q x) -> filter P l = filter Q l.
Proof.
  induction l as [|x l IH]; intros Hl; [done |]. rewrite !filter_cons, IH by set_solver.
  pose proof (Hl x ltac:(by left)). do 2 case_decide; tauto.
Qed.

Lemma sublist_sorted {A} (R : relation A) (l l' : list A) :
  l `sublist_of` l' -> StronglySorted R l' -> StronglySorted R l.
Proof.
  induction 1 as [|x l l' Hl IH|x l l' Hl IH]; [done | |]; inversion 1 as [|? ? Hs Hf]; subst; [| by auto].
  constructor; [by auto |]. rewrite Forall_forall in *. intros y Hy. apply Hf. by eapply elem_of_sublist.
Qed.

(** ** Hash maps

    The order in which a [HashMap] or [DashMap] yields its entries is an
    interface: some enumeration of the entries, which one is not known. *)

Class MapIter K `{Countable K} := {
  iter : forall {V}, gmap K V -> list (K * V);
  iter_perm : forall {V} (m : gmap K V), iter m ≡ₚ map_to_list m
}.

#[export] Instance map_to_list_iter K `{Countable K} : MapIter K := {|
  iter V m := map_to_list m;
  iter_perm V m := reflexivity _
|}.

Section iter.
Context {K V : Type} `{MapIter K}.
Implicit Types m : gmap K V.

Lemma elem_of_iter m k v : (k, v) ∈ iter m <-> m !! k = Some v.
Proof. by rewrite iter_perm, elem_of_map_to_list. Qed.

Lemma iter_nodup m : NoDup (iter m).*1.
Proof. rewrite iter_perm. apply NoDup_fst_map_to_list. Qed.

Lemma iter_length m : length (iter m) = size m.
Proof. by rewrite iter_perm, length_map_to_list. Qed.
End iter.

(** ** Automation *)

Lemma omap_lookup_seq {X} (l : list X) : omap (l !!.) (seq 0 (length l)) = l.
Proof.
  induction l as [|x l IH]; [done |]. simpl. f_equal. rewrite <-IH at 2. rewrite <-fmap_S_seq.
  generalize (seq 0 (length l)) as ks. clear IH. induction ks as [|i ks IHk]; simpl; [done |].
  destruct (l !! i); [f_equal |]; exact IHk.
Qed.

Create HintDb catga.
Create Rewrite HintDb catga_rw.

#[export] Hint Resolve checked_fits saturating_id wrapping_id : catga.

(** Splits every [match] and [if] of the goal and simplifies. *)
Ltac case_all := repeat (case_match; simplify_eq/=); try done.

(** Inverts a chain of [let?] that returned [Ok]. *)
Ltac inv_ok H :=
  let a := fresh "a" in let Ha := fresh "Hr" in let Hk := fresh "Hk" in
  apply rbind_ok_inv in H as (a & Ha & Hk).

(** Turns boolean comparisons of the code into propositions. *)
Ltac bool_prop :=
  repeat match goal with
  | H : _ && _ = true |- _ => apply andb_true_iff in H as [? ?]
  | H : _ || _ = false |- _ => apply orb_false_iff in H as [? ?]
  | H : _ && _ = false |- _ => apply andb_false_iff in H
  | H : _ || _ = true |- _ => apply orb_true_iff in H
  | H : negb _ = true |- _ => apply negb_true_iff in H
  | H : negb _ = false |- _ => apply negb_false_iff in H
  | H : (_ <=? _) = true |- _ => apply Z.leb_le in H
  | H : (_ <=? _) = false |- _ => apply Z.leb_gt in H
  | H : (_ <? _) = true |- _ => apply Z.ltb_lt in H
  | H : (_ <? _) = false |- _ => apply Z.ltb_ge in H
  | H : (_ =? _) = true |- _ => apply Z.eqb_eq in H
  | H : (_ =? _) = false |- _ => apply Z.eqb_neq in H
  | H : bool_decide _ = true |- _ => apply bool_decide_eq_true_1 in H
  | H : bool_decide _ = false |- _ => apply bool_decide_eq_false_1 in H
  end.
