(* ===== verification/Utf8.v ===== *)
(** * UTF-8: the representation of Rust's [str]

    A [str] is modelled by a Rocq [string], that is, by its UTF-8 bytes.  This
    file gives the bytes of a string, the scalar values a valid byte sequence
    encodes, [str::is_char_boundary], and the truncation loop that
    [error.rs], [store.rs] and [reliability.rs] all run before they retain an
    untrusted text. *)

From Stdlib Require Import Ascii.
From S2P Require Import Prelude.

Definition is_byte (b : Z) : bool := (0 <=? b) && (b <? 256).
Definition is_continuation (b : Z) : bool := (128 <=? b) && (b <=? 191).
(** The values of Rust's [char]. *)
Definition is_scalar (c : Z) : bool :=
  ((0 <=? c) && (c <? 55296)) || ((57344 <=? c) && (c <=? 1114111)).

Definition byte_of_ascii (a : ascii) : Z := Z.of_N (N_of_ascii a).
Definition ascii_of_byte (b : Z) : ascii := ascii_of_N (Z.to_N b).

(** [str::as_bytes] *)
Fixpoint bytes_of_string (s : string) : list Z :=
  match s with
  | EmptyString => []
  | String a s => byte_of_ascii a :: bytes_of_string s
  end.

Fixpoint string_of_bytes (bs : list Z) : string :=
  match bs with
  | [] => EmptyString
  | b :: bs => String (ascii_of_byte b) (string_of_bytes bs)
  end.

(** [char::encode_utf8] *)
Definition encode_utf8 (c : Z) : list Z :=
  if c <? 128 then [c]
  else if c <? 2048 then [192 + c / 64; 128 + c mod 64]
  else if c <? 65536 then [224 + c / 4096; 128 + c / 64 mod 64; 128 + c mod 64]
  else [240 + c / 262144; 128 + c / 4096 mod 64; 128 + c / 64 mod 64; 128 + c mod 64].

Definition utf8_encode (cs : list Z) : list Z := cs ≫= encode_utf8.

(** The scalar values of a well-formed UTF-8 sequence, [None] for any other
    (overlong forms, surrogates, values above U+10FFFF, missing bytes). *)
Fixpoint utf8_decode (bs : list Z) : option (list Z) :=
  match bs with
  | [] => Some []
  | b0 :: r0 =>
    if (0 <=? b0) && (b0 <? 128) then (b0 ::.) <$> utf8_decode r0
    else if (194 <=? b0) && (b0 <? 224) then
      match r0 with
      | b1 :: r1 =>
        if is_continuation b1
        then ((b0 - 192) * 64 + (b1 - 128) ::.) <$> utf8_decode r1 else None
      | _ => None
      end
    else if (224 <=? b0) && (b0 <? 240) then
      match r0 with
      | b1 :: b2 :: r2 =>
        let c := (b0 - 224) * 4096 + (b1 - 128) * 64 + (b2 - 128) in
        if is_continuation b1 && is_continuation b2 && (2048 <=? c) && is_scalar c
        then (c ::.) <$> utf8_decode r2 else None
      | _ => None
      end
    else if (240 <=? b0) && (b0 <? 248) then
      match r0 with
      | b1 :: b2 :: b3 :: r3 =>
        let c := (b0 - 240) * 262144 + (b1 - 128) * 4096 + (b2 - 128) * 64 + (b3 - 128) in
        if is_continuation b1 && is_continuation b2 && is_continuation b3
           && (65536 <=? c) && is_scalar c
        then (c ::.) <$> utf8_decode r3 else None
      | _ => None
      end
    else None
  end.

Definition utf8_valid (bs : list Z) : bool :=
  match utf8_decode bs with Some _ => true | None => false end.

(** [str::is_char_boundary], on the bytes of the string *)
Definition is_char_boundary (bs : list Z) (i : nat) : bool :=
  match i with
  | O => true
  | _ =>
    if Nat.eqb i (length bs) then true
    else match bs !! i with Some b => negb (is_continuation b) | None => false end
  end.

(** [while !s.is_char_boundary(end) { end -= 1 }]: the loop stops at 0 at the
    latest, because 0 is a boundary of every string. *)
Fixpoint floor_char_boundary (bs : list Z) (end_ : nat) : nat :=
  if is_char_boundary bs end_ then end_
  else match end_ with O => O | S e => floor_char_boundary bs e end.

(** ** Strings and bytes *)

Lemma byte_of_ascii_byte a : is_byte (byte_of_ascii a) = true.
Proof.
  unfold is_byte, byte_of_ascii. pose proof (N_ascii_bounded a).
  rewrite andb_true_iff, Z.leb_le, Z.ltb_lt. lia.
Qed.

Lemma ascii_of_byte_of_ascii a : ascii_of_byte (byte_of_ascii a) = a.
Proof. unfold ascii_of_byte, byte_of_ascii. by rewrite N2Z.id, ascii_N_embedding. Qed.

Lemma byte_of_ascii_of_byte b : is_byte b = true -> byte_of_ascii (ascii_of_byte b) = b.
Proof.
  unfold is_byte, ascii_of_byte, byte_of_ascii. intros H. bool_prop.
  rewrite N_ascii_embedding by lia. lia.
Qed.

Lemma string_of_bytes_of_string s : string_of_bytes (bytes_of_string s) = s.
Proof. induction s; simpl; [done |]. by rewrite ascii_of_byte_of_ascii, IHs. Qed.

Lemma bytes_of_string_of_bytes bs :
  Forall (fun b => is_byte b = true) bs -> bytes_of_string (string_of_bytes bs) = bs.
Proof. induction 1; simpl; [done |]. by rewrite byte_of_ascii_of_byte, IHForall. Qed.

Lemma bytes_of_string_bytes s : Forall (fun b => is_byte b = true) (bytes_of_string s).
Proof. induction s; simpl; constructor; auto using byte_of_ascii_byte. Qed.

Lemma length_bytes_of_string s : length (bytes_of_string s) = String.length s.
Proof. induction s; simpl; congruence. Qed.

#[global] Instance bytes_of_string_inj : Inj (=) (=) bytes_of_string.
Proof. intros s t H. rewrite <-(string_of_bytes_of_string s), H. apply string_of_bytes_of_string. Qed.

#[export] Hint Resolve bytes_of_string_bytes : catga.

(** ** Decoding inverts encoding *)

Ltac div_mod_lia := Z.to_euclidean_division_equations; lia.

Lemma utf8_decode_encode_cons c bs :
  is_scalar c = true ->
  utf8_decode (encode_utf8 c ++ bs) = (c ::.) <$> utf8_decode bs.
Proof.
  unfold is_scalar. intros Hc.
  assert (0 <= c <= 1114111 /\ (c < 55296 \/ 57344 <= c)) as [Hr Hs].
  { bool_prop. destruct Hc; bool_prop; lia. }
  unfold encode_utf8.
  destruct (Z.ltb_spec c 128).
  { simpl. rewrite (proj2 (Z.leb_le 0 c)), (proj2 (Z.ltb_lt c 128)) by lia. done. }
  assert (is_scalar c = true) as Hsc.
  { unfold is_scalar. rewrite orb_true_iff, !andb_true_iff, !Z.leb_le, Z.ltb_lt. lia. }
  assert (forall x, is_continuation (128 + x mod 64) = true) as Hcont.
  { intros x. unfold is_continuation. pose proof (Z.mod_pos_bound x 64).
    rewrite andb_true_iff, !Z.leb_le. lia. }
  destruct (Z.ltb_spec c 2048); [| destruct (Z.ltb_spec c 65536)]; cbn [app utf8_decode].
  - assert (2 <= c / 64 < 32) by div_mod_lia.
    rewrite (proj2 (Z.ltb_ge (192 + c / 64) 128)), andb_false_r by lia.
    rewrite (proj2 (Z.leb_le 194 _)), (proj2 (Z.ltb_lt _ 224)), Hcont by lia.
    cbn [andb]. by replace ((192 + c / 64 - 192) * 64 + (128 + c mod 64 - 128)) with c by div_mod_lia.
  - assert (0 <= c / 4096 < 16) by div_mod_lia.
    rewrite (proj2 (Z.ltb_ge (224 + c / 4096) 128)), andb_false_r by lia.
    rewrite (proj2 (Z.ltb_ge (224 + c / 4096) 224)), andb_false_r by lia.
    rewrite (proj2 (Z.leb_le 224 _)), (proj2 (Z.ltb_lt _ 240)), !Hcont by lia.
    cbn [andb].
    replace ((224 + c / 4096 - 224) * 4096 + (128 + c / 64 mod 64 - 128) * 64
             + (128 + c mod 64 - 128)) with c by div_mod_lia.
    by rewrite Hsc, (proj2 (Z.leb_le 2048 c)) by lia.
  - assert (0 <= c / 262144 < 8) by div_mod_lia.
    rewrite (proj2 (Z.ltb_ge (240 + c / 262144) 128)), andb_false_r by lia.
    rewrite (proj2 (Z.ltb_ge (240 + c / 262144) 224)), andb_false_r by lia.
    rewrite (proj2 (Z.ltb_ge (240 + c / 262144) 240)), andb_false_r by lia.
    rewrite (proj2 (Z.leb_le 240 _)), (proj2 (Z.ltb_lt _ 248)), !Hcont by lia.
    cbn [andb].
    replace ((240 + c / 262144 - 240) * 262144 + (128 + c / 4096 mod 64 - 128) * 4096
             + (128 + c / 64 mod 64 - 128) * 64 + (128 + c mod 64 - 128)) with c by div_mod_lia.
    by rewrite Hsc, (proj2 (Z.leb_le 65536 c)) by lia.
Qed.

Lemma utf8_decode_encode cs :
  Forall (fun c => is_scalar c = true) cs -> utf8_decode (utf8_encode cs) = Some cs.
Proof.
  induction 1 as [|c cs Hc _ IH]; [done |].
  unfold utf8_encode in *. cbn [mbind list_bind].
  rewrite utf8_decode_encode_cons by done. by rewrite IH.
Qed.

Lemma encode_utf8_bytes c :
  is_scalar c = true -> Forall (fun b => is_byte b = true) (encode_utf8 c).
Proof.
  unfold is_scalar. intros Hc.
  assert (0 <= c <= 1114111) as Hr. { bool_prop. destruct Hc; bool_prop; lia. }
  unfold encode_utf8, is_byte.
  repeat case_match; bool_prop; repeat constructor;
    rewrite andb_true_iff, Z.leb_le, Z.ltb_lt; div_mod_lia.
Qed.

(** Encoding inverts decoding: a decoded sequence is the concatenation of the
    encodings of its scalars. *)
Lemma utf8_encode_decode bs : forall cs,
  utf8_decode bs = Some cs -> utf8_encode cs = bs /\ Forall (fun c => is_scalar c = true) cs.
Proof.
  induction bs as [bs IH] using (induction_ltof1 _ (@length Z)); unfold ltof in IH.
  destruct bs as [|b0 r0]; intros cs; [naive_solver |].
  cbn [utf8_decode]. unfold is_continuation, is_scalar.
  repeat case_match; intros Hd; simplify_eq; try done;
    apply fmap_Some in Hd as (cs' & Hd & ->);
    apply IH in Hd as [<- Hcs]; simpl; try lia; bool_prop.
  all: unfold utf8_encode; cbn [mbind list_bind]; unfold encode_utf8.
  all: split; [| constructor; [| done]].
  all: try (unfold is_scalar; rewrite orb_true_iff, !andb_true_iff, !Z.leb_le, Z.ltb_lt; lia).
  - rewrite (proj2 (Z.ltb_lt b0 128)) by lia. done.
  - repeat case_match; bool_prop; try lia.
    cbn [app]. repeat f_equal; div_mod_lia.
  - repeat case_match; bool_prop; try lia. cbn [app]. repeat f_equal; div_mod_lia.
  - repeat case_match; bool_prop; try lia. cbn [app]. repeat f_equal; div_mod_lia.
Qed.

(** ** Character boundaries *)

Lemma encode_utf8_length c : (1 <= length (encode_utf8 c) <= 4)%nat.
Proof. unfold encode_utf8. case_all; simpl; lia. Qed.

(** Every byte of an encoded scalar after the first is a continuation byte,
    and the first one is not. *)
Lemma encode_utf8_tail c i b :
  is_scalar c = true -> encode_utf8 c !! S i = Some b -> is_continuation b = true.
Proof.
  intros _. unfold encode_utf8.
  assert (forall x, is_continuation (128 + x mod 64) = true) as Hcont.
  { intros x. unfold is_continuation. pose proof (Z.mod_pos_bound x 64).
    rewrite andb_true_iff, !Z.leb_le. lia. }
  case_all; destruct i as [|[|[|i]]]; simpl; naive_solver.
Qed.

Lemma is_char_boundary_app_l bs1 bs2 i :
  (0 < i < length bs1)%nat ->
  is_char_boundary (bs1 ++ bs2) i =
    match bs1 !! i with Some b => negb (is_continuation b) | None => false end.
Proof.
  intros Hi. unfold is_char_boundary. destruct i as [|i]; [lia |].
  rewrite length_app. destruct (Nat.eqb_spec (S i) (length bs1 + length bs2)); [lia |].
  by rewrite lookup_app_l by lia.
Qed.

Lemma is_char_boundary_app_r bs1 bs2 i :
  (length bs1 < i)%nat ->
  is_char_boundary (bs1 ++ bs2) i = is_char_boundary bs2 (i - length bs1).
Proof.
  intros Hi. unfold is_char_boundary.
  destruct i as [|i]; [lia |]. destruct (S i - length bs1)%nat as [|k] eqn:Hk; [lia |].
  rewrite length_app, lookup_app_r by lia. rewrite Hk.
  destruct (Nat.eqb_spec (S i) (length bs1 + length bs2)), (Nat.eqb_spec (S k) (length bs2));
    try lia; done.
Qed.

(** Cutting a well-formed string at a boundary leaves whole scalars. *)
Lemma take_boundary cs : forall i,
  Forall (fun c => is_scalar c = true) cs ->
  (i <= length (utf8_encode cs))%nat ->
  is_char_boundary (utf8_encode cs) i = true ->
  exists k, take i (utf8_encode cs) = utf8_encode (take k cs).
Proof.
  induction cs as [|c cs IH]; intros i Hcs Hi Hb.
  { exists 0%nat. simpl in *. by replace i with 0%nat by lia. }
  apply Forall_cons in Hcs as [Hc Hcs].
  change (utf8_encode (c :: cs)) with (encode_utf8 c ++ utf8_encode cs) in *.
  destruct (decide (i = 0%nat)) as [->|]; [by exists 0%nat |].
  destruct (decide (i < length (encode_utf8 c))%nat) as [Hlt|Hge].
  { rewrite is_char_boundary_app_l in Hb by lia.
    destruct i as [|i]; [lia |].
    destruct (encode_utf8 c !! S i) as [b|] eqn:Hl; [|done].
    apply encode_utf8_tail in Hl; [| done]. by rewrite Hl in Hb. }
  rewrite length_app in Hi.
  destruct (decide (i = length (encode_utf8 c))) as [->|].
  { exists 1%nat. rewrite take_app_length. unfold utf8_encode. simpl. by rewrite app_nil_r. }
  rewrite is_char_boundary_app_r in Hb by lia.
  destruct (IH (i - length (encode_utf8 c))%nat) as [k Hk]; [done | lia | done |].
  exists (S k). rewrite take_app_ge, Hk by lia. done.
Qed.

(** A boundary is at most three bytes below any position. *)
Lemma boundary_near cs : forall i,
  Forall (fun c => is_scalar c = true) cs ->
  (i <= length (utf8_encode cs))%nat ->
  exists j, (j <= i)%nat /\ (i <= j + 3)%nat /\ is_char_boundary (utf8_encode cs) j = true.
Proof.
  induction cs as [|c cs IH]; intros i Hcs Hi.
  { exists i. simpl in *. replace i with 0%nat by lia. repeat split; [lia | lia]. }
  apply Forall_cons in Hcs as [Hc Hcs].
  change (utf8_encode (c :: cs)) with (encode_utf8 c ++ utf8_encode cs) in *.
  pose proof (encode_utf8_length c). rewrite length_app in Hi.
  destruct (decide (i < length (encode_utf8 c))%nat).
  { exists 0%nat. repeat split; lia. }
  destruct (IH (i - length (encode_utf8 c))%nat) as (j & ? & ? & Hj); [done | lia |].
  destruct (decide (j = 0%nat)) as [->|].
  - exists (length (encode_utf8 c)). repeat split; [lia | lia |].
    destruct cs as [|c' cs'].
    + unfold is_char_boundary. simpl. rewrite app_nil_r, Nat.eqb_refl.
      destruct (length (encode_utf8 c)) eqn:?; done.
    + unfold is_char_boundary.
      destruct (length (encode_utf8 c)) as [|k] eqn:Hlen; [lia |]. case_match; [done |].
      rewrite lookup_app_r by lia. rewrite Hlen, Nat.sub_diag.
      apply Forall_cons in Hcs as [Hc' _].
      change (utf8_encode (c' :: cs')) with (encode_utf8 c' ++ utf8_encode cs').
      pose proof (encode_utf8_length c').
      rewrite lookup_app_l by lia.
      unfold is_scalar in Hc'. bool_prop.
      unfold encode_utf8, is_continuation.
      repeat case_match; simplify_eq/=; bool_prop; destruct Hc'; bool_prop;
        rewrite negb_true_iff, andb_false_iff, !Z.leb_gt; div_mod_lia.
  - exists (j + length (encode_utf8 c))%nat. repeat split; [lia | lia |].
    rewrite is_char_boundary_app_r by lia. by rewrite Nat.add_sub.
Qed.

Lemma floor_char_boundary_le bs e : (floor_char_boundary bs e <= e)%nat.
Proof. induction e; simpl; case_all; lia. Qed.

Lemma floor_char_boundary_boundary bs e :
  is_char_boundary bs (floor_char_boundary bs e) = true.
Proof. induction e; cbn [floor_char_boundary]; case_match; done. Qed.

Lemma floor_char_boundary_greatest bs e j :
  (j <= e)%nat -> is_char_boundary bs j = true -> (j <= floor_char_boundary bs e)%nat.
Proof.
  induction e; cbn [floor_char_boundary]; case_match; intros; try lia.
  destruct (decide (j = S e)) as [->|]; [congruence |]. apply IHe; [lia | done].
Qed.

(** What the truncation loop guarantees on a well-formed string. *)
Lemma truncate_spec bs e :
  utf8_valid bs = true -> (e <= length bs)%nat ->
  let n := floor_char_boundary bs e in
  utf8_valid (take n bs) = true /\ (n <= e)%nat /\ (e <= n + 3)%nat.
Proof.
  intros Hv He n. subst n. unfold utf8_valid in *. set (n := floor_char_boundary bs e).
  destruct (utf8_decode bs) as [cs|] eqn:Hd; [|done].
  apply utf8_encode_decode in Hd as [<- Hcs].
  destruct (take_boundary cs n Hcs) as [k Hk].
  { pose proof (floor_char_boundary_le (utf8_encode cs) e). lia. }
  { apply floor_char_boundary_boundary. }
  rewrite Hk, utf8_decode_encode by (by apply Forall_take).
  destruct (boundary_near cs e Hcs He) as (j & Hje & ? & Hj).
  pose proof (floor_char_boundary_greatest _ _ _ Hje Hj).
  split; [done |]. split; [apply floor_char_boundary_le | lia].
Qed.

(** The contract shared by the three truncation helpers of the source: a
    prefix of the text, cut between characters, within the budget, and short
    of it by at most three bytes. *)
Record truncation_of (max : nat) (s t : string) : Prop := {
  trunc_prefix : bytes_of_string t `prefix_of` bytes_of_string s;
  trunc_bound : (String.length t <= max)%nat;
  trunc_valid : utf8_valid (bytes_of_string t) = true;
  trunc_short : (String.length s <= max)%nat -> t = s;
  trunc_tight : (max < String.length s)%nat -> (max <= String.length t + 3)%nat
}.

Lemma truncation_of_refl max s :
  utf8_valid (bytes_of_string s) = true -> (String.length s <= max)%nat ->
  truncation_of max s s.
Proof. intros. split; [done | done | done | done | lia]. Qed.

Lemma truncation_of_floor max s :
  utf8_valid (bytes_of_string s) = true -> (max <= String.length s)%nat ->
  truncation_of max s
    (string_of_bytes (take (floor_char_boundary (bytes_of_string s) max) (bytes_of_string s))).
Proof.
  intros Hv Hmax. rewrite <-length_bytes_of_string in Hmax.
  destruct (truncate_spec _ _ Hv Hmax) as (Hval & Hle & Hge).
  set (n := floor_char_boundary _ _) in *.
  assert (bytes_of_string (string_of_bytes (take n (bytes_of_string s)))
          = take n (bytes_of_string s)) as Hb.
  { apply bytes_of_string_of_bytes, Forall_take, bytes_of_string_bytes. }
  assert (String.length (string_of_bytes (take n (bytes_of_string s))) = n) as Hl.
  { rewrite <-length_bytes_of_string, Hb, length_take. lia. }
  split.
  - rewrite Hb. exists (drop n (bytes_of_string s)). by rewrite take_drop.
  - lia.
  - by rewrite Hb.
  - rewrite <-length_bytes_of_string. intros Hs. apply (inj bytes_of_string).
    assert (n = length (bytes_of_string s)) as Hn.
    { apply Nat.le_antisymm; [lia |]. unfold n. apply floor_char_boundary_greatest; [done |].
      unfold is_char_boundary. destruct (length (bytes_of_string s)) eqn:?; [done |].
      by rewrite Nat.eqb_refl. }
    rewrite Hb. apply take_ge. lia.
  - lia.
Qed.
