(* ===== verification/Errors.v ===== *)
(** * Error categories and the failure value ([error.rs])

    [ErrorCode], its stable names, retryability, HTTP mapping and wire codes,
    and [CatgaError] with its bounded diagnostic details.  Every later file
    returns [CatgaResult]. *)

From S2P Require Import Prelude Utf8.

(** ** [ErrorCode] *)

Inductive ErrorCode : Type :=
| Validation | HandlerFailed | HandlerNotFound | PipelineFailed | PersistenceFailed
| LockFailed | TransportFailed | SerializationFailed | NotFound | Conflict
| Unauthorized | Forbidden | Cancelled | Timeout | FlowFailed | FlowCancelled
| FlowTimeout | FlowCompensating | Unsupported | Transient | Unavailable | Internal.

#[global] Instance ErrorCode_eq_dec : EqDecision ErrorCode.
Proof. solve_decision. Defined.

Definition as_stable_str (c : ErrorCode) : string :=
  match c with
  | Validation => "validation"
  | HandlerFailed => "handler_failed"
  | HandlerNotFound => "handler_not_found"
  | PipelineFailed => "pipeline_failed"
  | PersistenceFailed => "persistence_failed"
  | LockFailed => "lock_failed"
  | TransportFailed => "transport_failed"
  | SerializationFailed => "serialization_failed"
  | NotFound => "not_found"
  | Conflict => "conflict"
  | Unauthorized => "unauthorized"
  | Forbidden => "forbidden"
  | Cancelled => "cancelled"
  | Timeout => "timeout"
  | FlowFailed => "flow_failed"
  | FlowCancelled => "flow_cancelled"
  | FlowTimeout => "flow_timeout"
  | FlowCompensating => "flow_compensating"
  | Unsupported => "unsupported"
  | Transient => "transient"
  | Unavailable => "unavailable"
  | Internal => "internal"
  end.

(** The upstream C# names [from_stable_str] also accepts. *)
Definition upstream_names : list (string * ErrorCode) :=
  [ ("VALIDATION_FAILED", Validation); ("HANDLER_FAILED", HandlerFailed);
    ("HANDLER_NOT_FOUND", HandlerNotFound); ("PIPELINE_FAILED", PipelineFailed);
    ("PERSISTENCE_FAILED", PersistenceFailed); ("LOCK_FAILED", LockFailed);
    ("TRANSPORT_FAILED", TransportFailed); ("SERIALIZATION_FAILED", SerializationFailed);
    ("TIMEOUT", Timeout); ("CANCELLED", Cancelled); ("INTERNAL_ERROR", Internal);
    ("NOT_FOUND", NotFound); ("CONFLICT", Conflict); ("UNAUTHORIZED", Unauthorized);
    ("FORBIDDEN", Forbidden); ("FLOW_FAILED", FlowFailed);
    ("FLOW_CANCELLED", FlowCancelled); ("FLOW_TIMEOUT", FlowTimeout);
    ("FLOW_COMPENSATING", FlowCompensating) ]%string.

Definition stable_names : list (string * ErrorCode) :=
  [ ("validation", Validation); ("handler_failed", HandlerFailed);
    ("handler_not_found", HandlerNotFound); ("pipeline_failed", PipelineFailed);
    ("persistence_failed", PersistenceFailed); ("lock_failed", LockFailed);
    ("transport_failed", TransportFailed); ("serialization_failed", SerializationFailed);
    ("not_found", NotFound); ("conflict", Conflict); ("unauthorized", Unauthorized);
    ("forbidden", Forbidden); ("cancelled", Cancelled); ("timeout", Timeout);
    ("flow_failed", FlowFailed); ("flow_cancelled", FlowCancelled);
    ("flow_timeout", FlowTimeout); ("flow_compensating", FlowCompensating);
    ("unsupported", Unsupported); ("transient", Transient);
    ("unavailable", Unavailable); ("internal", Internal) ]%string.

Fixpoint match_name (value : string) (arms : list (string * ErrorCode)) : option ErrorCode :=
  match arms with
  | [] => None
  | (name, code) :: arms => if String.eqb value name then Some code else match_name value arms
  end.

Definition from_stable_str (value : string) : option ErrorCode :=
  match_name value (stable_names ++ upstream_names).

Definition code_is_retryable (c : ErrorCode) : bool :=
  match c with
  | TransportFailed | Timeout | FlowTimeout | Transient | Unavailable => true
  | _ => false
  end.

Definition http_status_u16 (c : ErrorCode) : Z :=
  match c with
  | Validation => 422
  | HandlerFailed | PipelineFailed | SerializationFailed | FlowFailed | FlowCompensating => 400
  | HandlerNotFound | NotFound => 404
  | PersistenceFailed | LockFailed | TransportFailed => 503
  | Conflict => 409
  | Unauthorized => 401
  | Forbidden => 403
  | Cancelled | Timeout | FlowCancelled | FlowTimeout => 408
  | Unsupported => 501
  | Transient | Unavailable => 503
  | Internal => 500
  end.

(** ** Wire codes *)

Definition encode_error_code (c : ErrorCode) : Z :=
  match c with
  | Validation => 0 | NotFound => 1 | Conflict => 2 | Unauthorized => 3 | Forbidden => 4
  | Cancelled => 5 | Timeout => 6 | Unsupported => 7 | Transient => 8 | Unavailable => 9
  | Internal => 10 | HandlerFailed => 11 | HandlerNotFound => 12 | PipelineFailed => 13
  | PersistenceFailed => 14 | LockFailed => 15 | TransportFailed => 16
  | SerializationFailed => 17 | FlowFailed => 18 | FlowCancelled => 19 | FlowTimeout => 20
  | FlowCompensating => 21
  end.

(** [None] stands for the [DeserializationError] arm. *)
Definition decode_error_code (value : Z) : option ErrorCode :=
  match value with
  | 0 => Some Validation | 1 => Some NotFound | 2 => Some Conflict | 3 => Some Unauthorized
  | 4 => Some Forbidden | 5 => Some Cancelled | 6 => Some Timeout | 7 => Some Unsupported
  | 8 => Some Transient | 9 => Some Unavailable | 10 => Some Internal
  | 11 => Some HandlerFailed | 12 => Some HandlerNotFound | 13 => Some PipelineFailed
  | 14 => Some PersistenceFailed | 15 => Some LockFailed | 16 => Some TransportFailed
  | 17 => Some SerializationFailed | 18 => Some FlowFailed | 19 => Some FlowCancelled
  | 20 => Some FlowTimeout | 21 => Some FlowCompensating
  | _ => None
  end.

(** ** [CatgaError]

    The process-local causal [source] is not modelled: equality ignores it and
    no codec transmits it. *)

Record CatgaError := mkCatgaError {
  code : ErrorCode;
  message : string;
  details : option string;
  retryable : option bool
}.

#[global] Instance CatgaError_eq_dec : EqDecision CatgaError.
Proof. solve_decision. Defined.

Abbreviation CatgaResult := (result CatgaError).

Definition MAX_ERROR_DETAILS_BYTES : nat := 1024.

Definition CatgaError_new (c : ErrorCode) (msg : string) : CatgaError :=
  mkCatgaError c msg None (Some (code_is_retryable c)).

(** [Err(CatgaError::new(code, message))] *)
Definition fail {A} (c : ErrorCode) (msg : string) : CatgaResult A := Err (CatgaError_new c msg).

Definition is_retryable (e : CatgaError) : bool :=
  match retryable e with Some r => r | None => code_is_retryable (code e) end.

Definition bounded_details (details : string) : string :=
  let bs := bytes_of_string details in
  let end_ := floor_char_boundary bs (Nat.min (length bs) MAX_ERROR_DETAILS_BYTES) in
  string_of_bytes (take end_ bs).

Definition with_details (e : CatgaError) (details : string) : CatgaError :=
  mkCatgaError (code e) (message e) (Some (bounded_details details)) (retryable e).

(** The error category of a result, for statements about error paths. *)
Definition err_code {A} (r : CatgaResult A) : option ErrorCode :=
  match r with Ok _ => None | Err e => Some (code e) end.

(** ** Properties *)

Definition all_codes : list ErrorCode := snd <$> stable_names.

Lemma all_codes_complete c : c ∈ all_codes.
Proof. destruct c; vm_compute; repeat constructor. Qed.

(** Stable names round-trip, and no other string parses to a code under two
    different names of the same convention. *)
Theorem stable_str_roundtrip c : from_stable_str (as_stable_str c) = Some c.
Proof. by destruct c. Qed.

#[global] Instance as_stable_str_inj : Inj (=) (=) as_stable_str.
Proof.
  intros c d H. apply (f_equal from_stable_str) in H. rewrite !stable_str_roundtrip in H.
  congruence.
Qed.

Lemma match_name_Some v arms c : match_name v arms = Some c -> (v, c) ∈ arms.
Proof.
  induction arms as [|[n d] arms IH]; simpl; [done |].
  destruct (String.eqb_spec v n) as [->|]; intros; simplify_eq; [left | right]; auto.
Qed.

(** A parsed name is either the stable name of the code or one of the
    upstream aliases listed for it. *)
Lemma from_stable_str_sound v c :
  from_stable_str v = Some c -> v = as_stable_str c \/ (v, c) ∈ upstream_names.
Proof.
  intros H. apply match_name_Some, elem_of_app in H as [H|H]; [left | by right].
  unfold stable_names in H.
  repeat (apply elem_of_cons in H as [H|H]; [by simplify_eq |]). by apply elem_of_nil in H.
Qed.

Lemma decode_encode_error_code c : decode_error_code (encode_error_code c) = Some c.
Proof. by destruct c. Qed.

Lemma encode_decode_error_code v c :
  decode_error_code v = Some c -> encode_error_code c = v.
Proof.
  unfold decode_error_code. intros H.
  repeat (case_match; try done); simplify_eq; done.
Qed.

Lemma encode_error_code_range c : 0 <= encode_error_code c <= 21.
Proof. destruct c; simpl; lia. Qed.

#[export] Hint Resolve encode_error_code_range : catga.
#[export] Hint Rewrite decode_encode_error_code : catga_rw.

Lemma bounded_details_ok s :
  utf8_valid (bytes_of_string s) = true ->
  truncation_of MAX_ERROR_DETAILS_BYTES s (bounded_details s).
Proof.
  intros Hv. unfold bounded_details. rewrite length_bytes_of_string.
  destruct (decide (String.length s <= MAX_ERROR_DETAILS_BYTES)%nat).
  - rewrite Nat.min_l by lia.
    pose proof (truncation_of_floor (String.length s) s Hv (le_n _)) as Ht.
    rewrite (trunc_short _ _ _ Ht (le_n _)). by apply truncation_of_refl.
  - rewrite Nat.min_r by lia. apply truncation_of_floor; [done | lia].
Qed.
