(* ===== verification/Time.v ===== *)
(** * Wall-clock time ([time.rs])

    [Duration] is a number of nanoseconds, [SystemTime] a signed number of
    nanoseconds since the Unix epoch with the range of the platform
    representation (an [i64] second count).  A definition that reads the clock
    takes the instant it reads as an argument. *)

From S2P Require Import Prelude Errors.

Definition NANOS_PER_MILLI : Z := 1000000.
Definition NANOS_PER_SEC : Z := 1000000000.

Abbreviation Duration := Z (only parsing).
Abbreviation SystemTime := Z (only parsing).

Definition from_secs (s : Z) : Duration := s * NANOS_PER_SEC.
Definition from_millis (ms : Z) : Duration := ms * NANOS_PER_MILLI.
Definition as_millis (d : Duration) : Z := d / NANOS_PER_MILLI.
Definition as_secs (d : Duration) : Z := d / NANOS_PER_SEC.
Definition subsec_nanos (d : Duration) : Z := d mod NANOS_PER_SEC.
Definition duration_ok (d : Duration) : bool :=
  (0 <=? d) && (d <? 2 ^ 64 * NANOS_PER_SEC).

Definition system_time_ok (t : SystemTime) : bool :=
  (- 2 ^ 63 * NANOS_PER_SEC <=? t) && (t <? 2 ^ 63 * NANOS_PER_SEC).

(** [t.duration_since(UNIX_EPOCH)]; the error carries the distance. *)
Definition duration_since_epoch (t : SystemTime) : result Duration Duration :=
  if 0 <=? t then Ok t else Err (- t).

(** [later.duration_since(earlier)] *)
Definition duration_since (later earlier : SystemTime) : option Duration :=
  if earlier <=? later then Some (later - earlier) else None.

Definition time_checked_add (t : SystemTime) (d : Duration) : option SystemTime :=
  if system_time_ok (t + d) then Some (t + d) else None.
Definition time_checked_sub (t : SystemTime) (d : Duration) : option SystemTime :=
  if system_time_ok (t - d) then Some (t - d) else None.

(** [u64::try_from(x).unwrap_or(u64::MAX)] *)
Definition u64_or_max (x : Z) : Z :=
  match checked u64 x with Some y => y | None => int_max u64 end.

(** ** Conversions of [time.rs] *)

Definition now_unix_millis_or (default : Z) (now : SystemTime) : Z :=
  match duration_since_epoch now with
  | Ok elapsed => u64_or_max (as_millis elapsed)
  | Err _ => default
  end.

Definition now_unix_millis (now : SystemTime) : Z := now_unix_millis_or 0 now.

Inductive UnixMillisError := BeforeEpoch | ExceedsRange.

Definition checked_unix_millis (time : SystemTime) : result UnixMillisError Z :=
  match duration_since_epoch time with
  | Err _ => Err BeforeEpoch
  | Ok elapsed => ok_or (checked u64 (as_millis elapsed)) ExceedsRange
  end.

(** [time.duration_since(UNIX_EPOCH).unwrap_or(Duration::ZERO)] *)
Definition elapsed_or_zero (time : SystemTime) : Duration :=
  match duration_since_epoch time with Ok d => d | Err _ => 0 end.

Definition saturating_unix_millis (time : SystemTime) : Z :=
  u64_or_max (as_millis (elapsed_or_zero time)).

Definition signed_unix_millis (value : SystemTime) : option Z :=
  match duration_since_epoch value with
  | Ok d => checked i64 (as_millis d)
  | Err d =>
    match checked i64 (as_millis d) with
    | Some ms => checked i64 (- ms)
    | None => None
    end
  end.

(** ** Properties *)

Lemma as_millis_nonneg d : 0 <= d -> 0 <= as_millis d.
Proof. intros. unfold as_millis. by apply Z.div_pos. Qed.

Lemma as_millis_mono d e : d <= e -> as_millis d <= as_millis e.
Proof. intros. unfold as_millis. by apply Z.div_le_mono. Qed.

Lemma u64_or_max_saturates x : 0 <= x -> u64_or_max x = saturating u64 x.
Proof.
  intros Hx. unfold u64_or_max. destruct (checked u64 x) eqn:E.
  - apply checked_Some in E as [-> ?]. by rewrite saturating_id.
  - apply checked_None in E. unfold saturating. int_bounds. lia.
Qed.

Lemma elapsed_or_zero_max t : elapsed_or_zero t = Z.max 0 t.
Proof. unfold elapsed_or_zero, duration_since_epoch. destruct (Z.leb_spec 0 t); lia. Qed.

Lemma saturating_unix_millis_eq t :
  saturating_unix_millis t = saturating u64 (Z.max 0 t / NANOS_PER_MILLI).
Proof.
  unfold saturating_unix_millis. rewrite elapsed_or_zero_max.
  rewrite u64_or_max_saturates; [done |]. apply as_millis_nonneg. lia.
Qed.

Lemma saturating_unix_millis_range t : 0 <= saturating_unix_millis t <= int_max u64.
Proof. rewrite saturating_unix_millis_eq. unfold saturating. int_bounds. lia. Qed.

(** The saturating conversion is total and monotone, and it agrees with the
    checked one wherever the checked one succeeds. *)
Lemma saturating_unix_millis_mono t u :
  t <= u -> saturating_unix_millis t <= saturating_unix_millis u.
Proof.
  intros Htu. rewrite !saturating_unix_millis_eq.
  assert (Z.max 0 t / NANOS_PER_MILLI <= Z.max 0 u / NANOS_PER_MILLI)
    by (apply Z.div_le_mono; [done | lia]).
  unfold saturating. lia.
Qed.

Lemma signed_unix_millis_range t ms : signed_unix_millis t = Some ms -> - int_max i64 <= ms <= int_max i64.
Proof.
  unfold signed_unix_millis, duration_since_epoch. destruct (Z.leb_spec 0 t).
  - intros H1%checked_Some. destruct H1 as [-> H1]. assert (0 <= as_millis t) by (by apply as_millis_nonneg). int_bounds. lia.
  - assert (0 <= as_millis (- t)) by (apply as_millis_nonneg; lia).
    destruct (checked i64 (as_millis (- t))) eqn:E; [|done]. apply checked_Some in E as [-> E].
    intros H1%checked_Some. destruct H1 as [-> H1]. int_bounds. lia.
Qed.

Lemma checked_unix_millis_ok t ms :
  checked_unix_millis t = Ok ms ->
  0 <= t /\ ms = t / NANOS_PER_MILLI /\ saturating_unix_millis t = ms
  /\ now_unix_millis t = ms.
Proof.
  unfold checked_unix_millis, saturating_unix_millis, now_unix_millis, now_unix_millis_or,
    elapsed_or_zero, duration_since_epoch, u64_or_max.
  destruct (Z.leb_spec 0 t); [|done]. unfold ok_or.
  destruct (checked u64 (as_millis t)) eqn:E; [|done].
  intros. simplify_eq. apply checked_Some in E as [-> ?]. done.
Qed.
