(* ===== verification/Messages.v ===== *)
(** * Messages, envelopes and headers ([message.rs], [store.rs])

    Delivery metadata, the bounded application headers of an envelope, and the
    envelope itself. *)

From S2P Require Import Prelude Utf8 Errors Time.

(** ** Delivery metadata *)

Inductive QualityOfService := AtMostOnce | AtLeastOnce | ExactlyOnce.
Inductive DeliveryMode := WaitForResult | AsyncRetry.
Inductive MessagePriority := Low | Normal | High | Critical.

#[global] Instance QualityOfService_eq_dec : EqDecision QualityOfService.
Proof. solve_decision. Defined.
#[global] Instance DeliveryMode_eq_dec : EqDecision DeliveryMode.
Proof. solve_decision. Defined.
#[global] Instance MessagePriority_eq_dec : EqDecision MessagePriority.
Proof. solve_decision. Defined.

Definition requires_ack (q : QualityOfService) : bool :=
  match q with AtLeastOnce | ExactlyOnce => true | _ => false end.
Definition requires_deduplication (q : QualityOfService) : bool :=
  match q with ExactlyOnce => true | _ => false end.

Record MessageMetadata := mkMetadata {
  message_id : Z;
  correlation_id : option Z;
  quality_of_service : QualityOfService;
  delivery_mode : DeliveryMode;
  priority : MessagePriority;
  not_before_unix_ms : option Z
}.

#[global] Instance MessageMetadata_eq_dec : EqDecision MessageMetadata.
Proof. solve_decision. Defined.

Definition MessageMetadata_new (message_id : Z) (correlation_id : option Z) : MessageMetadata :=
  mkMetadata message_id correlation_id AtLeastOnce WaitForResult Normal None.

Definition with_quality_of_service (m : MessageMetadata) q : MessageMetadata :=
  mkMetadata (message_id m) (correlation_id m) q (delivery_mode m) (priority m)
    (not_before_unix_ms m).
Definition with_delivery_mode (m : MessageMetadata) d : MessageMetadata :=
  mkMetadata (message_id m) (correlation_id m) (quality_of_service m) d (priority m)
    (not_before_unix_ms m).
Definition with_priority (m : MessageMetadata) p : MessageMetadata :=
  mkMetadata (message_id m) (correlation_id m) (quality_of_service m) (delivery_mode m) p
    (not_before_unix_ms m).
Definition with_not_before_unix_ms (m : MessageMetadata) nb : MessageMetadata :=
  mkMetadata (message_id m) (correlation_id m) (quality_of_service m) (delivery_mode m)
    (priority m) nb.

Definition with_not_before (m : MessageMetadata) (not_before : SystemTime)
  : CatgaResult MessageMetadata :=
  match duration_since_epoch not_before with
  | Err _ => fail Validation "scheduled delivery time precedes the Unix epoch"
  | Ok elapsed =>
    match checked u64 (as_millis elapsed) with
    | None => fail Validation "scheduled delivery time exceeds the supported range"
    | Some ms => Ok (with_not_before_unix_ms m (Some ms))
    end
  end.

(** [MessageMetadata::is_due_at] *)
Definition metadata_is_due_at (m : MessageMetadata) (now : SystemTime) : bool :=
  match not_before_unix_ms m with
  | None => true
  | Some not_before =>
    match duration_since_epoch now with
    | Err _ => false
    | Ok elapsed =>
      match checked u64 (as_millis elapsed) with
      | Some ms => not_before <=? ms
      | None => false
      end
    end
  end.

(** [DelayedMessage::deliver_at]: an absolute boundary wins over a delay. *)
Definition deliver_at (scheduled_at : option SystemTime) (delay : option Duration)
    (now : SystemTime) : CatgaResult SystemTime :=
  let? deliver_at :=
    match scheduled_at with
    | Some t => Ok t
    | None =>
      match delay with
      | Some d =>
        ok_or (time_checked_add now d)
          (CatgaError_new Validation "delayed message deadline exceeds the system time range")
      | None => Ok now
      end
    end in
  match duration_since_epoch deliver_at with
  | Err _ => fail Validation "delayed message deadline precedes the Unix epoch"
  | Ok elapsed =>
    match checked u64 (as_millis elapsed) with
    | None => fail Validation "delayed message deadline exceeds the supported millisecond range"
    | Some _ => Ok deliver_at
    end
  end.

(** ** Envelope headers *)

Definition MAX_ENVELOPE_HEADERS : nat := 64.
Definition MAX_ENVELOPE_HEADER_BYTES : Z := 8 * 1024.

Record EnvelopeHeader := mkHeader { hkey : string; hvalue : string }.

#[global] Instance EnvelopeHeader_eq_dec : EqDecision EnvelopeHeader.
Proof. solve_decision. Defined.

Definition EnvelopeHeaders := list EnvelopeHeader.

(** [char::is_whitespace] (the Unicode [White_Space] property) *)
Definition is_whitespace (c : Z) : bool :=
  ((9 <=? c) && (c <=? 13)) || (c =? 32) || (c =? 133) || (c =? 160) || (c =? 5760)
  || ((8192 <=? c) && (c <=? 8202)) || (c =? 8232) || (c =? 8233) || (c =? 8239)
  || (c =? 8287) || (c =? 12288).

(** [s.trim().is_empty()] *)
Definition trim_is_empty (s : string) : bool :=
  match utf8_decode (bytes_of_string s) with
  | Some cs => forallb is_whitespace cs
  | None => false
  end.

Definition str_len (s : string) : Z := Z.of_nat (String.length s).

Definition header_bytes_error {A} : CatgaResult A :=
  fail Validation "envelope header bytes exceed the configured limit".

(** The loop of [EnvelopeHeaders::try_new]; [entries] and [total_bytes] are
    its mutable locals. *)
Fixpoint try_new_loop (headers : list (string * string)) (entries : list EnvelopeHeader)
    (total_bytes : Z) : CatgaResult EnvelopeHeaders :=
  match headers with
  | [] => Ok entries
  | (key, value) :: headers =>
    if Nat.eqb (length entries) MAX_ENVELOPE_HEADERS
    then fail Validation "envelope header count exceeds the configured limit"
    else if trim_is_empty key
    then fail Validation "envelope header key must not be empty or whitespace-only"
    else if existsb (fun header => String.eqb (hkey header) key) entries
    then fail Validation "envelope header keys must be unique"
    else
      match checked usize (str_len key + str_len value) with
      | None => header_bytes_error
      | Some entry_bytes =>
        match checked usize (total_bytes + entry_bytes) with
        | None => header_bytes_error
        | Some total_bytes =>
          if MAX_ENVELOPE_HEADER_BYTES <? total_bytes then header_bytes_error
          else try_new_loop headers (entries ++ [mkHeader key value]) total_bytes
        end
      end
  end.

Definition headers_try_new (headers : list (string * string)) : CatgaResult EnvelopeHeaders :=
  try_new_loop headers [] 0.

Fixpoint headers_get (headers : EnvelopeHeaders) (key : string) : option string :=
  match headers with
  | [] => None
  | h :: headers => if String.eqb (hkey h) key then Some (hvalue h) else headers_get headers key
  end.

(** One iteration of the merge loop: replace the first entry with the same
    key, or push. *)
Fixpoint merge_one (entries : list EnvelopeHeader) (override : EnvelopeHeader)
  : list EnvelopeHeader :=
  match entries with
  | [] => [override]
  | h :: entries =>
    if String.eqb (hkey h) (hkey override) then override :: entries
    else h :: merge_one entries override
  end.

Definition merge_overrides (self overrides : EnvelopeHeaders) : CatgaResult EnvelopeHeaders :=
  match self, overrides with
  | [], _ => Ok overrides
  | _, [] => Ok self
  | _, _ =>
    headers_try_new
      (map (fun h => (hkey h, hvalue h)) (foldl merge_one self overrides))
  end.

(** ** Envelope *)

Record Envelope := mkEnvelope {
  env_id : Z;
  message_type : string;
  payload : list Z;
  metadata : MessageMetadata;
  sent_at_unix_ms : option Z;
  schema_version : Z;
  reply_to : option string;
  headers : option EnvelopeHeaders
}.

#[global] Instance Envelope_eq_dec : EqDecision Envelope.
Proof. solve_decision. Defined.

(** [store.rs]'s [current_unix_ms] *)
Definition current_unix_ms_opt (now : SystemTime) : option Z :=
  match duration_since_epoch now with
  | Ok elapsed => checked u64 (as_millis elapsed)
  | Err _ => None
  end.

Definition Envelope_versioned (id : Z) (mt : string) (pl : list Z) (md : MessageMetadata)
    (sv : Z) (now : SystemTime) : Envelope :=
  mkEnvelope id mt pl md (current_unix_ms_opt now) sv None None.

Definition Envelope_new id mt pl md now : Envelope := Envelope_versioned id mt pl md 1 now.

Definition with_reply_to (e : Envelope) (r : string) : Envelope :=
  mkEnvelope (env_id e) (message_type e) (payload e) (metadata e) (sent_at_unix_ms e)
    (schema_version e) (Some r) (headers e).

Definition with_headers (e : Envelope) (hs : EnvelopeHeaders) : Envelope :=
  mkEnvelope (env_id e) (message_type e) (payload e) (metadata e) (sent_at_unix_ms e)
    (schema_version e) (reply_to e) (match hs with [] => None | _ => Some hs end).

Definition with_sent_at_unix_ms (e : Envelope) (ms : option Z) : Envelope :=
  mkEnvelope (env_id e) (message_type e) (payload e) (metadata e) ms (schema_version e)
    (reply_to e) (headers e).

Definition with_sent_at (e : Envelope) (sent_at : SystemTime) : CatgaResult Envelope :=
  match duration_since_epoch sent_at with
  | Err _ => fail Validation "envelope sent timestamp precedes the Unix epoch"
  | Ok elapsed =>
    match checked u64 (as_millis elapsed) with
    | None => fail Validation "envelope sent timestamp exceeds the supported range"
    | Some ms => Ok (with_sent_at_unix_ms e (Some ms))
    end
  end.

Definition with_metadata (e : Envelope) (md : MessageMetadata) : Envelope :=
  mkEnvelope (env_id e) (message_type e) (payload e) md (sent_at_unix_ms e)
    (schema_version e) (reply_to e) (headers e).

(** [Envelope::header] *)
Definition envelope_header (e : Envelope) (key : string) : option string :=
  match headers e with Some hs => headers_get hs key | None => None end.

(** [Envelope::headers] as the sequence it iterates *)
Definition envelope_headers (e : Envelope) : EnvelopeHeaders :=
  match headers e with Some hs => hs | None => [] end.

(** ** Properties of headers *)

Definition header_bytes (hs : EnvelopeHeaders) : Z :=
  foldr (fun h acc => str_len (hkey h) + str_len (hvalue h) + acc) 0 hs.

Record valid_headers (hs : EnvelopeHeaders) : Prop := {
  vh_count : (length hs <= MAX_ENVELOPE_HEADERS)%nat;
  vh_keys : Forall (fun h => trim_is_empty (hkey h) = false) hs;
  vh_nodup : NoDup (hkey <$> hs);
  vh_bytes : header_bytes hs <= MAX_ENVELOPE_HEADER_BYTES
}.

#[global] Instance valid_headers_dec hs : Decision (valid_headers hs).
Proof.
  destruct (decide ((length hs <= MAX_ENVELOPE_HEADERS)%nat
    /\ Forall (fun h => trim_is_empty (hkey h) = false) hs
    /\ NoDup (hkey <$> hs) /\ header_bytes hs <= MAX_ENVELOPE_HEADER_BYTES)) as [H|H].
  - left. by destruct H as (? & ? & ? & ?).
  - right. intros [????]. by apply H.
Defined.

Lemma str_len_nonneg s : 0 <= str_len s.
Proof. unfold str_len. lia. Qed.

Lemma header_bytes_app hs hs' : header_bytes (hs ++ hs') = header_bytes hs + header_bytes hs'.
Proof. induction hs; simpl; lia. Qed.

Lemma header_bytes_nonneg hs : 0 <= header_bytes hs.
Proof.
  induction hs as [|h hs IH]; simpl; [done |].
  pose proof (str_len_nonneg (hkey h)). pose proof (str_len_nonneg (hvalue h)). lia.
Qed.

Lemma valid_headers_app_l hs hs' : valid_headers (hs ++ hs') -> valid_headers hs.
Proof.
  intros [H1 H2 H3 H4]. pose proof (header_bytes_nonneg hs').
  rewrite length_app in H1. rewrite header_bytes_app in H4.
  apply Forall_app in H2 as [??]. rewrite fmap_app in H3. apply NoDup_app in H3 as (? & _ & _).
  split; [lia | done | done | lia].
Qed.

Lemma existsb_key_iff key hs :
  existsb (fun h => String.eqb (hkey h) key) hs = true <-> key ∈ (hkey <$> hs).
Proof.
  rewrite existsb_exists, list_elem_of_fmap. split.
  - intros (h & Hin & Heq%String.eqb_eq). exists h. split; [done |]. by apply list_elem_of_In.
  - intros (h & -> & Hin). exists h. split; [by apply list_elem_of_In | by apply String.eqb_eq].
Qed.

Definition mk_headers (hs : list (string * string)) : EnvelopeHeaders :=
  (fun p => mkHeader p.1 p.2) <$> hs.

(** What the loop checks before it pushes one more entry. *)
Definition admits (entries : EnvelopeHeaders) (key value : string) : Prop :=
  length entries <> MAX_ENVELOPE_HEADERS /\ trim_is_empty key = false
  /\ existsb (fun h => String.eqb (hkey h) key) entries = false
  /\ header_bytes entries + (str_len key + str_len value) <= MAX_ENVELOPE_HEADER_BYTES.

#[local] Instance admits_dec entries key value : Decision (admits entries key value).
Proof. unfold admits. apply _. Defined.

Lemma valid_headers_snoc entries key value :
  valid_headers entries ->
  valid_headers (entries ++ [mkHeader key value]) <-> admits entries key value.
Proof.
  intros [V1 V2 V3 V4]. unfold admits.
  rewrite <-(not_true_iff_false (existsb _ _)), existsb_key_iff. split.
  - intros [W1 W2 W3 W4]. rewrite length_app in W1. simpl in W1.
    rewrite header_bytes_app in W4. simpl in W4.
    apply Forall_app in W2 as [_ W2]. apply Forall_cons in W2 as [W2 _].
    rewrite fmap_app in W3. apply NoDup_app in W3 as (_ & W3 & _).
    repeat split; [lia | done | | lia]. intros Hin. apply (W3 _ Hin). by left.
  - intros (W1 & W2 & W3 & W4). split.
    + rewrite length_app. simpl. lia.
    + apply Forall_app. by repeat constructor.
    + rewrite fmap_app. apply NoDup_app. split; [done |]. split; [|apply NoDup_singleton].
      intros k Hk ->%list_elem_of_singleton. done.
    + rewrite header_bytes_app. simpl. lia.
Qed.

Lemma try_new_loop_admits entries key value hs :
  admits entries key value ->
  try_new_loop ((key, value) :: hs) entries (header_bytes entries)
  = try_new_loop hs (entries ++ [mkHeader key value])
      (header_bytes (entries ++ [mkHeader key value])).
Proof.
  intros (S1 & S2 & S3 & S4). cbn [try_new_loop].
  pose proof (str_len_nonneg key). pose proof (str_len_nonneg value).
  pose proof (header_bytes_nonneg entries).
  destruct (Nat.eqb_spec (length entries) MAX_ENVELOPE_HEADERS); [done |].
  assert (MAX_ENVELOPE_HEADER_BYTES = 8192) as HM by done. rewrite HM in *.
  rewrite S2, S3, !checked_fits by (int_bounds; lia).
  rewrite (proj2 (Z.ltb_ge 8192 _)) by lia.
  rewrite header_bytes_app. cbn [header_bytes foldr hkey hvalue]. f_equal. lia.
Qed.

Lemma try_new_loop_rejects entries key value hs :
  ~ admits entries key value ->
  err_code (try_new_loop ((key, value) :: hs) entries (header_bytes entries)) = Some Validation.
Proof.
  intros Hno. cbn [try_new_loop]. unfold admits in Hno.
  destruct (Nat.eqb_spec (length entries) MAX_ENVELOPE_HEADERS); [done |].
  destruct (trim_is_empty key); [done |].
  destruct (existsb _ entries) eqn:?; [done |].
  destruct (checked usize (str_len key + str_len value)) eqn:E1; [|done].
  apply checked_Some in E1 as [-> _].
  destruct (checked usize (header_bytes entries + _)) eqn:E2; [|done].
  apply checked_Some in E2 as [-> _].
  destruct (Z.ltb_spec MAX_ENVELOPE_HEADER_BYTES
    (header_bytes entries + (str_len key + str_len value))); [done |].
  exfalso. by apply Hno.
Qed.

(** The loop accepts exactly the sequences that are valid as a whole, keeps
    their order, and rejects every other one with [Validation]. *)
Lemma try_new_loop_spec hs : forall entries,
  valid_headers entries ->
  (valid_headers (entries ++ mk_headers hs) ->
     try_new_loop hs entries (header_bytes entries) = Ok (entries ++ mk_headers hs))
  /\ (~ valid_headers (entries ++ mk_headers hs) ->
     err_code (try_new_loop hs entries (header_bytes entries)) = Some Validation).
Proof.
  induction hs as [|[key value] hs IH]; intros entries Hv.
  { cbn. rewrite app_nil_r. done. }
  assert (entries ++ mk_headers ((key, value) :: hs)
          = (entries ++ [mkHeader key value]) ++ mk_headers hs) as ->.
  { by rewrite <-app_assoc. }
  pose proof (valid_headers_snoc entries key value Hv) as Hstep.
  destruct (decide (admits entries key value)) as [Hok|Hno].
  - rewrite try_new_loop_admits by done. apply IH. by apply Hstep.
  - split; intros Hall; [|by apply try_new_loop_rejects].
    exfalso. apply Hno, Hstep. by eapply valid_headers_app_l.
Qed.

Lemma valid_headers_nil : valid_headers [].
Proof. split; [vm_compute; lia | constructor | constructor | vm_compute; congruence]. Qed.
#[export] Hint Resolve valid_headers_nil : catga.

Lemma headers_try_new_valid hs :
  valid_headers (mk_headers hs) -> headers_try_new hs = Ok (mk_headers hs).
Proof. intros Hv. by apply (try_new_loop_spec hs [] valid_headers_nil). Qed.

Lemma headers_try_new_ok hs es :
  headers_try_new hs = Ok es -> es = mk_headers hs /\ valid_headers es.
Proof.
  intros H. destruct (try_new_loop_spec hs [] valid_headers_nil) as [_ Hbad].
  unfold headers_try_new in H. change (header_bytes []) with 0 in Hbad.
  destruct (decide (valid_headers (mk_headers hs))) as [Hv|Hv];
    [| rewrite H in Hbad; by specialize (Hbad Hv)].
  pose proof (headers_try_new_valid hs Hv) as H'. unfold headers_try_new in H'.
  split; congruence.
Qed.

(** ** Properties of the merge *)

Lemma headers_get_None hs k : headers_get hs k = None <-> k ∉ (hkey <$> hs).
Proof.
  induction hs as [|h hs IH]; simpl; [split; [by intros _ ?%elem_of_nil | done] |].
  destruct (String.eqb_spec (hkey h) k) as [<-|Hne].
  - split; [done |]. intros Hn. exfalso. apply Hn. by left.
  - rewrite IH, not_elem_of_cons. naive_solver.
Qed.

Lemma merge_one_get es o k :
  headers_get (merge_one es o) k
  = if String.eqb (hkey o) k then Some (hvalue o) else headers_get es k.
Proof.
  induction es as [|h es IH]; simpl; [done |].
  destruct (String.eqb_spec (hkey h) (hkey o)) as [Heq|Hne]; simpl.
  - rewrite Heq. by destruct (String.eqb (hkey o) k).
  - rewrite IH. destruct (String.eqb_spec (hkey h) k), (String.eqb_spec (hkey o) k);
      congruence.
Qed.

Lemma merge_one_keys es o :
  hkey <$> merge_one es o
  = if decide (hkey o ∈ (hkey <$> es)) then hkey <$> es else (hkey <$> es) ++ [hkey o].
Proof.
  induction es as [|h es IH]; cbn [merge_one].
  { case_decide as Hd; [by apply elem_of_nil in Hd | done]. }
  destruct (String.eqb_spec (hkey h) (hkey o)) as [Heq|Hne]; rewrite !fmap_cons.
  - clear IH. case_decide as Hd; [by rewrite Heq |]. exfalso. apply Hd. rewrite Heq. by left.
  - rewrite IH. clear IH. case_decide as Hd; case_decide as Hd'; try done.
    + exfalso. apply Hd'. by right.
    + exfalso. apply elem_of_cons in Hd' as [|]; congruence.
Qed.

Lemma merge_one_nodup es o : NoDup (hkey <$> es) -> NoDup (hkey <$> merge_one es o).
Proof.
  intros Hn. rewrite merge_one_keys. case_decide; [done |].
  apply NoDup_app. split; [done |]. split; [| apply NoDup_singleton].
  intros x Hx ->%list_elem_of_singleton. done.
Qed.

Lemma merge_one_blank es o :
  trim_is_empty (hkey o) = false ->
  Forall (fun h => trim_is_empty (hkey h) = false) es ->
  Forall (fun h => trim_is_empty (hkey h) = false) (merge_one es o).
Proof.
  intros Ho. induction 1; cbn [merge_one]; [by constructor |].
  case_match; by constructor.
Qed.

Lemma merge_fold_inv os : forall es,
  Forall (fun h => trim_is_empty (hkey h) = false) os ->
  Forall (fun h => trim_is_empty (hkey h) = false) es -> NoDup (hkey <$> es) ->
  let m := foldl merge_one es os in
  Forall (fun h => trim_is_empty (hkey h) = false) m /\ NoDup (hkey <$> m)
  /\ (hkey <$> es) `prefix_of` (hkey <$> m).
Proof.
  induction os as [|o os IH]; intros es Ho He Hn; [done |].
  apply Forall_cons in Ho as [Ho Hos]. cbn [foldl].
  destruct (IH (merge_one es o)) as (H1 & H2 & H3);
    [done | by apply merge_one_blank | by apply merge_one_nodup |].
  split; [done |]. split; [done |].
  etrans; [|done]. rewrite merge_one_keys. case_decide; [done | by eexists].
Qed.

Lemma merge_fold_get os : forall es k,
  NoDup (hkey <$> os) ->
  headers_get (foldl merge_one es os) k
  = match headers_get os k with Some v => Some v | None => headers_get es k end.
Proof.
  induction os as [|o os IH]; intros es k Hn; [done |].
  rewrite fmap_cons in Hn. apply NoDup_cons in Hn as [Hno Hn].
  cbn [foldl headers_get]. rewrite IH, merge_one_get by done.
  destruct (String.eqb_spec (hkey o) k) as [<-|]; [|done].
  by apply headers_get_None in Hno as ->.
Qed.

Lemma mk_headers_id hs : mk_headers (map (fun h => (hkey h, hvalue h)) hs) = hs.
Proof. induction hs as [|[] hs IH]; simpl; [done |]. by rewrite <-IH at 2. Qed.

(** Merging two valid header sets never panics or drops a header: it either
    returns a valid set in which overrides win, inherited keys keep their
    positions and new keys follow, or reports [Validation] because the
    combined set exceeds a budget. *)
Lemma merge_overrides_correct self overrides :
  valid_headers self -> valid_headers overrides ->
  match merge_overrides self overrides with
  | Ok m =>
    valid_headers m
    /\ (forall k, headers_get m k =
          match headers_get overrides k with Some v => Some v | None => headers_get self k end)
    /\ (hkey <$> self) `prefix_of` (hkey <$> m)
  | Err e =>
    code e = Validation
    /\ ((MAX_ENVELOPE_HEADERS < length (foldl merge_one self overrides))%nat
        \/ MAX_ENVELOPE_HEADER_BYTES < header_bytes (foldl merge_one self overrides))
  end.
Proof.
  intros Hs Ho. unfold merge_overrides.
  destruct self as [|h self]; [split; [done |]; split; [| apply prefix_nil];
    intros k; by destruct (headers_get overrides k) |].
  destruct overrides as [|o os]; [done |].
  set (self' := h :: self) in *. set (os' := o :: os) in *.
  destruct (merge_fold_inv os' self') as (H1 & H2 & H3);
    [apply Ho | apply Hs | apply Hs |].
  set (m := foldl merge_one self' os') in *.
  destruct (headers_try_new (map _ m)) as [es|e] eqn:E.
  - apply headers_try_new_ok in E as [-> Hv]. rewrite mk_headers_id in *.
    split; [done |]. split; [|done]. intros k. apply merge_fold_get, Ho.
  - destruct (try_new_loop_spec (map (fun h => (hkey h, hvalue h)) m) [] valid_headers_nil)
      as [Hgood Hbad].
    rewrite mk_headers_id in *. unfold headers_try_new in E.
    change (header_bytes []) with 0 in *.
    assert (~ valid_headers ([] ++ m)) as Hnv.
    { intros Hv. rewrite (Hgood Hv) in E. done. }
    specialize (Hbad Hnv). rewrite E in Hbad. simpl in Hbad. split; [congruence |].
    destruct (decide ((length m <= MAX_ENVELOPE_HEADERS)%nat)), 
      (decide (header_bytes m <= MAX_ENVELOPE_HEADER_BYTES)); try lia.
    exfalso. apply Hnv. by split.
Qed.
