(* ===== verification/Wire.v ===== *)
(** * MemoryPack frames: writer, reader and compact integers
    ([codec/memorypack/writer.rs], [reader.rs], [varint.rs], [limits.rs],
    [error.rs])

    Both the writer and the reader are mutable objects; an operation is a state
    transformer that also keeps the state it reached when it fails.  The
    UTF-8 validator ([simdutf8]) is an interface: the development uses only
    what its documentation promises. *)

From S2P Require Import Prelude Utf8.

(** ** Errors *)

Inductive MemoryPackError :=
| LimitExceeded (resource : string) (limit : Z)
| InvalidLimit (message : string)
| TrailingBytes
| Io
| Utf8Error
| InvalidUtf8
| InvalidLength (length : Z)
| SerializationError (message : string)
| DeserializationError (message : string)
| BufferTooSmall
| InvalidCodePoint
| UnexpectedEnd
| UnexpectedEndOfBuffer
| Utf16NotSupportedForZeroCopy.

#[global] Instance MemoryPackError_eq_dec : EqDecision MemoryPackError.
Proof. solve_decision. Defined.

Abbreviation MPResult := (result MemoryPackError).

(** ** State transformers that can fail *)

Definition M (S A : Type) : Type := S -> MPResult A * S.

Definition st_ret {S A} (a : A) : M S A := fun s => (Ok a, s).
Definition st_throw {S A} (e : MemoryPackError) : M S A := fun s => (Err e, s).
Definition st_bind {S A B} (c : M S A) (k : A -> M S B) : M S B := fun s =>
  match c s with
  | (Ok a, s) => k a s
  | (Err e, s) => (Err e, s)
  end.
(** A fallible pure computation, [e?] *)
Definition st_lift {S A} (r : MPResult A) : M S A := fun s => (r, s).

Notation "'let!' x ':=' c 'in' k" := (st_bind c (fun x => k))
  (at level 10, x name, c at level 100, k at level 200) : catga_scope.
Notation "c ';;;' k" := (st_bind c (fun _ => k)) (at level 100, k at level 200,
  right associativity) : catga_scope.

Lemma st_bind_ok {S A B} (c : M S A) (k : A -> M S B) s a s' :
  c s = (Ok a, s') -> st_bind c k s = k a s'.
Proof. unfold st_bind. by intros ->. Qed.

(** ** Little-endian bytes *)

Fixpoint le_bytes (n : nat) (v : Z) : list Z :=
  match n with
  | O => []
  | S n => v mod 256 :: le_bytes n (v / 256)
  end.

Fixpoint le_value (bs : list Z) : Z :=
  match bs with
  | [] => 0
  | b :: bs => b + 256 * le_value bs
  end.

Definition int_bytes (t : int_ty) : nat := Z.to_nat (int_bits t / 8).

(** ** Decode limits *)

Record MemoryPackDecodeLimits := mkLimits {
  max_frame_bytes : Z;
  max_allocation_bytes : Z;
  max_string_bytes : Z;
  max_collection_items : Z;
  max_nesting_depth : Z
}.

Definition Limits_new (f a s c n : Z) : MPResult MemoryPackDecodeLimits :=
  if existsb (Z.eqb 0) [f; a; s; c; n]
  then Err (InvalidLimit "MemoryPack decode limits must be non-zero")
  else if a <? s
  then Err (InvalidLimit "MemoryPack string limit exceeds the allocation limit")
  else Ok (mkLimits f a s c n).

Definition Limits_default : MemoryPackDecodeLimits :=
  mkLimits (1024 * 1024) (1024 * 1024) (256 * 1024) 65536 32.

(** ** Writer

    The state of [MemoryPackWriter] is its buffer; the optional object table
    of reference-preserving schemas is unused by every schema modelled here. *)

Definition Writer := list Z.

Definition extend (bs : list Z) : M Writer unit := fun buffer => (Ok tt, buffer ++ bs).

Definition write_int (t : int_ty) (v : Z) : M Writer unit := extend (le_bytes (int_bytes t) v).
Definition write_i8 := write_int i8.
Definition write_u8 := write_int u8.
Definition write_i16 := write_int i16.
Definition write_u16 := write_int u16.
Definition write_i32 := write_int i32.
Definition write_u32 := write_int u32.
Definition write_i64 := write_int i64.
Definition write_u64 := write_int u64.
Definition write_i128 := write_int i128.
Definition write_u128 := write_int u128.
(** Floats are written as their IEEE-754 bit patterns. *)
Definition write_f32 := write_int u32.
Definition write_f64 := write_int u64.
Definition write_bool (v : bool) : M Writer unit := extend [if v then 1 else 0].

Definition checked_i32_length (length : Z) : MPResult Z :=
  ok_or (checked i32 length) (SerializationError "MemoryPack wire length exceeds i32::MAX").

(** [value.chars().map(|c| c.len_utf16()).sum()] *)
Definition len_utf16 (c : Z) : Z := if c <? 65536 then 1 else 2.
Definition utf16_len (bs : list Z) : Z :=
  match utf8_decode bs with
  | Some cs => foldr (fun c acc => len_utf16 c + acc) 0 cs
  | None => 0
  end.

Definition write_string (value : string) : M Writer unit :=
  match value with
  | EmptyString => write_i32 0
  | _ =>
    let bytes := bytes_of_string value in
    let! byte_length := st_lift (checked_i32_length (Z.of_nat (length bytes))) in
    let! utf16_length := st_lift (checked_i32_length (utf16_len bytes)) in
    write_i32 (Z.lnot byte_length) ;;; write_i32 utf16_length ;;; extend bytes
  end.

Definition write_string_option (value : option string) : M Writer unit :=
  match value with
  | Some s => write_string s
  | None => write_i32 (-1)
  end.

Definition write_char (value : Z) : M Writer unit :=
  if value <=? 65535 then write_u16 value
  else
    let adjusted := value - 65536 in
    let high_surrogate := wrapping u16 (Z.shiftr adjusted 10) + 55296 in
    let low_surrogate := Z.land (wrapping u16 adjusted) 1023 + 56320 in
    write_u16 high_surrogate ;;; write_u16 low_surrogate.

(** ** Reader *)

Record Reader := mkReader {
  frame : list Z;
  pos : nat;
  limits : option MemoryPackDecodeLimits;
  allocated_bytes : Z;
  nesting_depth : Z
}.

Definition set_pos (r : Reader) (p : nat) : Reader :=
  mkReader (frame r) p (limits r) (allocated_bytes r) (nesting_depth r).
Definition set_allocated (r : Reader) (a : Z) : Reader :=
  mkReader (frame r) (pos r) (limits r) a (nesting_depth r).
Definition set_depth (r : Reader) (d : Z) : Reader :=
  mkReader (frame r) (pos r) (limits r) (allocated_bytes r) d.

Definition new_bounded (data : list Z) (l : MemoryPackDecodeLimits) : MPResult Reader :=
  if max_frame_bytes l <? Z.of_nat (length data)
  then Err (LimitExceeded "frame bytes" (max_frame_bytes l))
  else Ok (mkReader data 0 (Some l) 0 0).

Definition validate_collection_len (size : Z) : M Reader (option Z) := fun r =>
  if (size =? -1) || (size =? 0) then (Ok None, r)
  else if size <? 0 then (Err (InvalidLength size), r)
  else
    match limits r with
    | Some l =>
      if max_collection_items l <? size
      then (Err (LimitExceeded "collection items" (max_collection_items l)), r)
      else (Ok (Some size), r)
    | None => (Ok (Some size), r)
    end.

Definition reserve_allocation (bytes : Z) : M Reader unit := fun r =>
  match limits r with
  | None => (Ok tt, r)
  | Some l =>
    let exceeded := LimitExceeded "cumulative allocation bytes" (max_allocation_bytes l) in
    match checked usize (allocated_bytes r + bytes) with
    | None => (Err exceeded, r)
    | Some next =>
      if max_allocation_bytes l <? next then (Err exceeded, r)
      else (Ok tt, set_allocated r next)
    end
  end.

Definition enter_object : M Reader unit := fun r =>
  let limit := match limits r with Some l => max_nesting_depth l | None => int_max usize end in
  match checked usize (nesting_depth r + 1) with
  | None => (Err (LimitExceeded "nesting depth" limit), r)
  | Some next =>
    match limits r with
    | Some l =>
      if max_nesting_depth l <? next
      then (Err (LimitExceeded "nesting depth" (max_nesting_depth l)), r)
      else (Ok tt, set_depth r next)
    | None => (Ok tt, set_depth r next)
    end
  end.

Definition leave_object : M Reader unit := fun r =>
  (Ok tt, set_depth r (Z.max 0 (nesting_depth r - 1))).

(** [Cursor::read_exact]: short input is an I/O error and leaves the cursor at
    the end of the frame. *)
Definition read_exact (n : nat) : M Reader (list Z) := fun r =>
  let bs := take n (drop (pos r) (frame r)) in
  if Nat.eqb (length bs) n then (Ok bs, set_pos r (pos r + n))
  else (Err Io, set_pos r (length (frame r))).

Definition read_int (t : int_ty) : M Reader Z :=
  let! bs := read_exact (int_bytes t) in st_ret (wrapping t (le_value bs)).
Definition read_i8 := read_int i8.
Definition read_u8 := read_int u8.
Definition read_i16 := read_int i16.
Definition read_u16 := read_int u16.
Definition read_i32 := read_int i32.
Definition read_u32 := read_int u32.
Definition read_i64 := read_int i64.
Definition read_u64 := read_int u64.
Definition read_i128 := read_int i128.
Definition read_u128 := read_int u128.
Definition read_f32 := read_int u32.
Definition read_f64 := read_int u64.

Definition read_bool : M Reader bool :=
  let! b := read_u8 in
  if b =? 0 then st_ret false
  else if b =? 1 then st_ret true
  else st_throw (DeserializationError "invalid boolean wire value").

Definition read_bytes (length_ : Z) : M Reader (list Z) := fun r =>
  match checked usize (Z.of_nat (pos r) + length_) with
  | Some end_ =>
    if end_ <=? Z.of_nat (length (frame r))
    then (Ok (take (Z.to_nat length_) (drop (pos r) (frame r))), set_pos r (Z.to_nat end_))
    else (Err UnexpectedEndOfBuffer, r)
  | None => (Err UnexpectedEndOfBuffer, r)
  end.

Definition read_bytes_vec (length_ : Z) : M Reader (list Z) :=
  reserve_allocation length_ ;;; read_bytes length_.

Definition validate_string_bytes (bytes : Z) : M Reader unit := fun r =>
  match limits r with
  | Some l =>
    if max_string_bytes l <? bytes
    then (Err (LimitExceeded "string bytes" (max_string_bytes l)), r)
    else reserve_allocation bytes r
  | None => reserve_allocation bytes r
  end.

Definition skip (n : Z) : M Reader unit := fun r =>
  match checked usize (Z.of_nat (pos r) + n) with
  | Some next =>
    if next <=? Z.of_nat (length (frame r)) then (Ok tt, set_pos r (Z.to_nat next))
    else (Err UnexpectedEndOfBuffer, r)
  | None => (Err UnexpectedEndOfBuffer, r)
  end.

Definition rewind (n : nat) : M Reader unit := fun r =>
  if (n <=? pos r)%nat then (Ok tt, set_pos r (pos r - n)) else (Err UnexpectedEndOfBuffer, r).

(** [char::from_u32] *)
Definition char_from_u32 (c : Z) : option Z := if is_scalar c then Some c else None.

Definition is_surrogate (u : Z) : bool := (55296 <=? u) && (u <=? 57343).
Definition is_high_surrogate (u : Z) : bool := (55296 <=? u) && (u <=? 56319).
Definition is_low_surrogate (u : Z) : bool := (56320 <=? u) && (u <=? 57343).

Definition read_char : M Reader Z :=
  let! code_unit := read_u16 in
  if negb (is_surrogate code_unit) then st_lift (ok_or (char_from_u32 code_unit) InvalidCodePoint)
  else if negb (is_high_surrogate code_unit)
  then st_throw (DeserializationError "UTF-16 low surrogate must follow a high surrogate")
  else
    let! low_surrogate := read_u16 in
    if negb (is_low_surrogate low_surrogate)
    then st_throw (DeserializationError "UTF-16 high surrogate is not followed by a low surrogate")
    else
      let code_point :=
        65536 + Z.lor (Z.shiftl (code_unit - 55296) 10) (low_surrogate - 56320) in
      st_lift (ok_or (char_from_u32 code_point) InvalidCodePoint).

(** The little-endian 16-bit units of a byte slice of even length *)
Fixpoint u16_units (slice : list Z) : list Z :=
  match slice with
  | lo :: hi :: rest => (lo + 256 * hi) :: u16_units rest
  | _ => []
  end.

(** The [while i < byte_count] loop of [read_utf16_string] on the code units,
    with the bytes of the result string pushed so far. *)
Fixpoint utf16_loop (units : list Z) (acc : list Z) : MPResult (list Z) :=
  match units with
  | [] => Ok acc
  | u :: units =>
    if negb (is_surrogate u) then
      match char_from_u32 u with
      | Some c => utf16_loop units (acc ++ encode_utf8 c)
      | None => Err InvalidUtf8
      end
    else if is_high_surrogate u then
      match units with
      | [] => Err InvalidUtf8
      | low :: units =>
        if negb (is_low_surrogate low) then Err InvalidUtf8
        else
          match char_from_u32 (65536 + Z.shiftl (u - 55296) 10 + (low - 56320)) with
          | Some c => utf16_loop units (acc ++ encode_utf8 c)
          | None => Err InvalidUtf8
          end
      end
    else Err InvalidUtf8
  end.

Definition read_utf16_string (char_count : Z) : M Reader string := fun r =>
  let string_limit :=
    match limits r with Some l => max_string_bytes l | None => int_max usize end in
  let alloc_limit :=
    match limits r with Some l => max_allocation_bytes l | None => int_max usize end in
  (let! byte_count :=
     st_lift (ok_or (checked usize (char_count * 2)) (LimitExceeded "string bytes" string_limit)) in
   validate_string_bytes byte_count ;;;
   let! allocation :=
     st_lift (ok_or (checked usize (char_count * 3))
       (LimitExceeded "cumulative allocation bytes" alloc_limit)) in
   reserve_allocation allocation ;;;
   let! slice := read_bytes byte_count in
   let! bs := st_lift (utf16_loop (u16_units slice) []) in
   st_ret (string_of_bytes bs)) r.

(** The validator the reader calls ([simdutf8::basic::from_utf8]): it returns
    the bytes as a string exactly when they are well-formed UTF-8. *)
Class Utf8Validator := {
  from_utf8 : list Z -> option string;
  from_utf8_spec : forall bs,
    Forall (fun b => is_byte b = true) bs ->
    from_utf8 bs = if utf8_valid bs then Some (string_of_bytes bs) else None
}.

#[export] Instance scalar_utf8_validator : Utf8Validator := {|
  from_utf8 bs := if utf8_valid bs then Some (string_of_bytes bs) else None;
  from_utf8_spec _ _ := eq_refl
|}.

Definition read_utf8_string `{Utf8Validator} (byte_count : Z) : M Reader string :=
  validate_string_bytes byte_count ;;;
  let! _char_length := read_i32 in
  let! slice := read_bytes byte_count in
  st_lift (ok_or (from_utf8 slice) InvalidUtf8).

Definition read_string `{Utf8Validator} : M Reader string :=
  let! length_or_marker := read_i32 in
  if length_or_marker =? -1 then st_ret ""%string
  else if length_or_marker <? 0 then read_utf8_string (Z.lnot length_or_marker)
  else if length_or_marker =? 0 then st_ret ""%string
  else read_utf16_string length_or_marker.

(** The zero-copy variant rejects UTF-16 values instead of decoding them. *)
Definition read_str `{Utf8Validator} : M Reader string :=
  let! length_or_marker := read_i32 in
  if (length_or_marker =? -1) || (length_or_marker =? 0) then st_ret ""%string
  else if length_or_marker <? 0 then read_utf8_string (Z.lnot length_or_marker)
  else st_throw Utf16NotSupportedForZeroCopy.

(** ** Compact integers ([varint.rs]) *)

Definition MAX_SINGLE_VALUE : Z := 127.
Definition MIN_SINGLE_VALUE : Z := -120.
Definition code_BYTE : Z := -121.
Definition code_SBYTE : Z := -122.
Definition code_UINT16 : Z := -123.
Definition code_INT16 : Z := -124.
Definition code_UINT32 : Z := -125.
Definition code_INT32 : Z := -126.
Definition code_UINT64 : Z := -127.
Definition code_INT64 : Z := -128.

Definition write_varint (value : Z) : M Writer unit :=
  if 0 <=? value then
    if value <=? MAX_SINGLE_VALUE then write_i8 value
    else if value <=? int_max i16 then write_i8 code_INT16 ;;; write_i16 value
    else if value <=? int_max i32 then write_i8 code_INT32 ;;; write_i32 value
    else write_i8 code_INT64 ;;; write_i64 value
  else if MIN_SINGLE_VALUE <=? value then write_i8 value
  else if int_min i8 <=? value then write_i8 code_SBYTE ;;; write_i8 value
  else if int_min i16 <=? value then write_i8 code_INT16 ;;; write_i16 value
  else if int_min i32 <=? value then write_i8 code_INT32 ;;; write_i32 value
  else write_i8 code_INT64 ;;; write_i64 value.

Definition read_varint : M Reader Z :=
  let! type_code := read_i8 in
  if type_code =? code_BYTE then read_u8
  else if type_code =? code_SBYTE then read_i8
  else if type_code =? code_UINT16 then read_u16
  else if type_code =? code_INT16 then read_i16
  else if type_code =? code_UINT32 then read_u32
  else if type_code =? code_INT32 then read_i32
  else if type_code =? code_UINT64 then let! v := read_u64 in st_ret (wrapping i64 v)
  else if type_code =? code_INT64 then read_i64
  else st_ret type_code.

(** [MemoryPackWriter::write_object_reference_id] *)
Definition write_object_reference_id (reference_id : Z) : M Writer unit :=
  write_u8 250 ;;; write_varint reference_id.

(** ** Little-endian round trip *)

Lemma length_le_bytes n v : length (le_bytes n v) = n.
Proof. revert v. induction n; simpl; auto. Qed.

Lemma le_bytes_bytes n v : Forall (fun b => is_byte b = true) (le_bytes n v).
Proof.
  revert v. induction n; intros v; simpl; constructor; [|done].
  unfold is_byte. rewrite andb_true_iff, Z.leb_le, Z.ltb_lt.
  pose proof (Z.mod_pos_bound v 256). lia.
Qed.

Lemma le_value_le_bytes n v : le_value (le_bytes n v) = v mod 256 ^ Z.of_nat n.
Proof.
  revert v. induction n as [|n IH]; intros v.
  { simpl. by rewrite Z.mod_1_r. }
  cbn [le_bytes le_value]. rewrite IH, Nat2Z.inj_succ, Z.pow_succ_r by lia.
  rewrite Z.rem_mul_r by (try apply Z.pow_nonzero; lia). lia.
Qed.

(** [u64::to_be_bytes] and [u64::from_be_bytes] *)
Definition be_bytes (n : nat) (v : Z) : list Z := rev (le_bytes n v).
Definition be_value (bs : list Z) : Z := le_value (rev bs).

Lemma be_value_be_bytes v : int_min u64 <= v <= int_max u64 -> be_value (be_bytes 8 v) = v.
Proof.
  intros Hv. unfold be_value, be_bytes. rewrite rev_involutive, le_value_le_bytes.
  apply Z.mod_small. int_bounds. simpl. lia.
Qed.

(** The integer types of the wire format. *)
Class WireInt (t : int_ty) : Prop := {
  wire_bits : int_bits t = 8 * Z.of_nat (int_bytes t);
  wire_pos : 0 < int_bits t
}.
#[global] Instance WireInt_u8 : WireInt u8. Proof. by split. Qed.
#[global] Instance WireInt_u16 : WireInt u16. Proof. by split. Qed.
#[global] Instance WireInt_u32 : WireInt u32. Proof. by split. Qed.
#[global] Instance WireInt_u64 : WireInt u64. Proof. by split. Qed.
#[global] Instance WireInt_u128 : WireInt u128. Proof. by split. Qed.
#[global] Instance WireInt_i8 : WireInt i8. Proof. by split. Qed.
#[global] Instance WireInt_i16 : WireInt i16. Proof. by split. Qed.
#[global] Instance WireInt_i32 : WireInt i32. Proof. by split. Qed.
#[global] Instance WireInt_i64 : WireInt i64. Proof. by split. Qed.
#[global] Instance WireInt_i128 : WireInt i128. Proof. by split. Qed.

Lemma wrapping_mod t x : 0 < int_bits t -> wrapping t (x mod 2 ^ int_bits t) = wrapping t x.
Proof.
  intros Hb. unfold wrapping. rewrite Z.mod_mod; [done |].
  apply Z.pow_nonzero; lia.
Qed.

Lemma wire_int_value `{WireInt t} v :
  int_min t <= v <= int_max t -> wrapping t (le_value (le_bytes (int_bytes t) v)) = v.
Proof.
  intros Hv. rewrite le_value_le_bytes.
  replace (256 ^ Z.of_nat (int_bytes t)) with (2 ^ int_bits t).
  - rewrite wrapping_mod by apply wire_pos. by apply wrapping_id; [apply wire_pos |].
  - rewrite wire_bits. change 256 with (2 ^ 8). rewrite <-Z.pow_mul_r by lia. done.
Qed.

(** ** What a write appends and what a read consumes *)

Definition writes (c : M Writer unit) (bs : list Z) : Prop :=
  forall buffer, c buffer = (Ok tt, buffer ++ bs).

(** The receive budgets a value needs. *)
Record Need := mkNeed { n_alloc : Z; n_str : Z; n_items : Z; n_depth : Z }.
Definition need0 : Need := mkNeed 0 0 0 0.
Definition need_seq (m n : Need) : Need :=
  mkNeed (n_alloc m + n_alloc n) (Z.max (n_str m) (n_str n))
    (Z.max (n_items m) (n_items n)) (Z.max (n_depth m) (n_depth n)).
Definition need_alloc (b : Z) : Need := mkNeed b 0 0 0.

Definition remaining (r : Reader) : list Z := drop (pos r) (frame r).

Definition consume (r : Reader) (n : nat) (alloc : Z) : Reader :=
  mkReader (frame r) (pos r + n) (limits r) (allocated_bytes r + alloc) (nesting_depth r).

(** The budgets left in [r] cover [n]. *)
Definition within (r : Reader) (n : Need) : Prop :=
  exists l, limits r = Some l
  /\ 0 <= allocated_bytes r /\ allocated_bytes r + n_alloc n <= max_allocation_bytes l
  /\ max_allocation_bytes l <= int_max usize
  /\ n_str n <= max_string_bytes l /\ n_items n <= max_collection_items l
  /\ 0 <= nesting_depth r /\ nesting_depth r + n_depth n <= max_nesting_depth l
  /\ max_nesting_depth l <= int_max usize
  /\ (pos r <= length (frame r))%nat /\ Z.of_nat (length (frame r)) <= int_max usize.

Definition reads {A} (c : M Reader A) (bs : list Z) (n : Need) (a : A) : Prop :=
  0 <= n_alloc n /\
  forall r rest, remaining r = bs ++ rest -> within r n ->
    c r = (Ok a, consume r (length bs) (n_alloc n)).

Lemma remaining_consume r bs rest al :
  remaining r = bs ++ rest -> remaining (consume r (length bs) al) = rest.
Proof.
  unfold remaining, consume. simpl. intros H. rewrite <-drop_drop, H. apply drop_app_length.
Qed.

Lemma consume_consume r m n a b : consume (consume r m a) n b = consume r (m + n) (a + b).
Proof. unfold consume. simpl. f_equal; lia. Qed.

Lemma consume_0 r : consume r 0 0 = r.
Proof. destruct r. unfold consume. simpl. f_equal; lia. Qed.

Lemma remaining_length r bs rest :
  remaining r = bs ++ rest -> (pos r <= length (frame r))%nat ->
  length (frame r) = (pos r + length bs + length rest)%nat.
Proof.
  intros Hr Hp. pose proof (f_equal length Hr) as Hl. unfold remaining in Hl.
  rewrite length_drop, length_app in Hl. lia.
Qed.

Lemma within_seq r m n bs rest :
  remaining r = bs ++ rest ->
  0 <= n_alloc m -> 0 <= n_alloc n -> within r (need_seq m n) ->
  within r m /\ within (consume r (length bs) (n_alloc m)) n.
Proof.
  intros Hr Hm Hn (l & Hl & Hw). simpl in Hw.
  assert (length (frame r) = (pos r + length bs + length rest)%nat)
    by (apply remaining_length; [done | lia]).
  split; exists l; (split; [done |]); simpl; lia.
Qed.

Lemma writes_bind c k bs1 bs2 :
  writes c bs1 -> writes k bs2 -> writes (st_bind c (fun _ => k)) (bs1 ++ bs2).
Proof.
  intros H1 H2 buffer. unfold st_bind. by rewrite H1, H2, <-app_assoc.
Qed.

Lemma writes_extend bs : writes (extend bs) bs.
Proof. done. Qed.

Lemma writes_lift {A} (r : MPResult A) a k bs :
  r = Ok a -> writes (k a) bs -> writes (st_bind (st_lift r) k) bs.
Proof. intros -> H buffer. apply H. Qed.

Lemma reads_bind {A B} (c : M Reader A) (k : A -> M Reader B) bs1 bs2 m n a b :
  reads c bs1 m a -> reads (k a) bs2 n b ->
  reads (st_bind c k) (bs1 ++ bs2) (need_seq m n) b.
Proof.
  intros [Hm H1] [Hn H2]. split; [simpl; lia |].
  intros r rest Hr Hw. rewrite <-app_assoc in Hr.
  destruct (within_seq r m n bs1 (bs2 ++ rest) Hr Hm Hn Hw) as [Hw1 Hw2].
  unfold st_bind. rewrite (H1 r _ Hr Hw1).
  rewrite (H2 _ rest); [| by eapply remaining_consume | done].
  by rewrite consume_consume, length_app.
Qed.

(** A check that consumes no input, then a read. *)
Lemma reads_check {A B} (c : M Reader A) (k : A -> M Reader B) bs m n a b :
  reads c [] m a -> reads (k a) bs n b -> reads (st_bind c k) bs (need_seq m n) b.
Proof. intros. by eapply (reads_bind c k [] bs). Qed.

Lemma reads_ret {A} (a : A) : reads (st_ret a) [] need0 a.
Proof. split; [done |]. intros r rest _ _. by rewrite consume_0. Qed.

(** A read followed by a pure continuation. *)
Lemma reads_bind_ret {A B} (c : M Reader A) (k : A -> M Reader B) bs n a b :
  reads c bs n a -> (forall r, k a r = (Ok b, r)) -> reads (st_bind c k) bs n b.
Proof.
  intros [Hn Hc] Hk. split; [done |]. intros r rest Hr Hw.
  unfold st_bind. by rewrite (Hc _ _ Hr Hw), Hk.
Qed.

Lemma reads_need {A} (c : M Reader A) bs m n a :
  reads c bs m a -> m = n -> reads c bs n a.
Proof. by intros ? <-. Qed.

Lemma reads_ext {A} (c d : M Reader A) bs n a :
  (forall r, d r = c r) -> reads c bs n a -> reads d bs n a.
Proof. intros He [Hn Hc]. split; [done |]. intros r rest Hr Hw. rewrite He. by eapply Hc. Qed.

Lemma reads_lift {A B} (x : A) (k : A -> M Reader B) bs n b :
  reads (k x) bs n b -> reads (st_bind (st_lift (Ok x)) k) bs n b.
Proof. by intros. Qed.

Lemma read_exact_reads bs : reads (read_exact (length bs)) bs need0 bs.
Proof.
  split; [done |]. intros r rest Hr _. unfold read_exact.
  change (drop (pos r) (frame r)) with (remaining r). rewrite Hr, take_app_length, Nat.eqb_refl.
  unfold consume, set_pos. simpl. do 2 f_equal. lia.
Qed.

Lemma read_int_reads `{WireInt t} v :
  int_min t <= v <= int_max t ->
  reads (read_int t) (le_bytes (int_bytes t) v) need0 v.
Proof.
  intros Hv. unfold read_int. rewrite <-(length_le_bytes (int_bytes t) v) at 1.
  eapply reads_bind_ret; [apply read_exact_reads |].
  intros r. unfold st_ret. by rewrite wire_int_value.
Qed.

Lemma write_int_writes t v : writes (write_int t v) (le_bytes (int_bytes t) v).
Proof. done. Qed.

Lemma reserve_reads b : 0 <= b -> reads (reserve_allocation b) [] (need_alloc b) tt.
Proof.
  intros Hb. split; [done |]. intros r rest _ (l & Hl & Hw). simpl in Hw.
  unfold reserve_allocation. rewrite Hl, checked_fits by (int_bounds; lia).
  destruct (Z.ltb_spec (max_allocation_bytes l) (allocated_bytes r + b)); [lia |].
  unfold consume, set_allocated. simpl. by rewrite Nat.add_0_r.
Qed.

Lemma validate_collection_reads n :
  0 < n -> reads (validate_collection_len n) [] (mkNeed 0 0 n 0) (Some n).
Proof.
  intros Hn. split; [done |]. intros r rest _ (l & Hl & Hw). simpl in Hw.
  unfold validate_collection_len. rewrite Hl.
  destruct (Z.eqb_spec n (-1)), (Z.eqb_spec n 0), (Z.ltb_spec n 0),
    (Z.ltb_spec (max_collection_items l) n); try lia.
  simpl. by rewrite consume_0.
Qed.

Lemma validate_string_reads b :
  0 <= b -> reads (validate_string_bytes b) [] (mkNeed b b 0 0) tt.
Proof.
  intros Hb. split; [done |]. intros r rest Hr (l & Hl & Hw). simpl in Hw.
  unfold validate_string_bytes. rewrite Hl.
  destruct (Z.ltb_spec (max_string_bytes l) b); [lia |].
  apply (proj2 (reserve_reads b Hb) r rest Hr).
  exists l. split; [done |]. simpl. lia.
Qed.

Lemma read_bytes_reads bs n :
  n = Z.of_nat (length bs) -> reads (read_bytes n) bs need0 bs.
Proof.
  intros ->. split; [done |]. intros r rest Hr (l & Hl & Hw).
  assert (length (frame r) = (pos r + length bs + length rest)%nat)
    by (apply remaining_length; [done | lia]).
  unfold read_bytes. rewrite checked_fits by (int_bounds; lia).
  destruct (Z.leb_spec (Z.of_nat (pos r) + Z.of_nat (length bs))
    (Z.of_nat (length (frame r)))); [|lia].
  change (drop (pos r) (frame r)) with (remaining r). rewrite Hr, Nat2Z.id, take_app_length.
  unfold consume, set_pos. simpl. do 2 f_equal; lia.
Qed.

(** ** Compact integers round-trip *)

(** The bytes [write_varint] emits. *)
Definition varint_bytes (v : Z) : list Z :=
  if (MIN_SINGLE_VALUE <=? v) && (v <=? MAX_SINGLE_VALUE) then le_bytes 1 v
  else if (int_min i8 <=? v) && (v <? 0) then le_bytes 1 code_SBYTE ++ le_bytes 1 v
  else if (int_min i16 <=? v) && (v <=? int_max i16) then le_bytes 1 code_INT16 ++ le_bytes 2 v
  else if (int_min i32 <=? v) && (v <=? int_max i32) then le_bytes 1 code_INT32 ++ le_bytes 4 v
  else le_bytes 1 code_INT64 ++ le_bytes 8 v.

Lemma write_varint_writes v : writes (write_varint v) (varint_bytes v).
Proof.
  unfold write_varint, varint_bytes. unfold MIN_SINGLE_VALUE, MAX_SINGLE_VALUE. int_bounds.
  repeat match goal with
  | |- context [?a <=? ?b] => destruct (Z.leb_spec a b)
  | |- context [?a <? ?b] => destruct (Z.ltb_spec a b)
  end; simpl andb; cbv iota; try lia; try apply writes_bind; apply write_int_writes.
Qed.

Lemma read_i8_code c : -128 <= c <= 127 -> reads read_i8 (le_bytes 1 c) need0 c.
Proof. intros. apply (@read_int_reads i8 _). by int_bounds. Qed.

Lemma need_seq_0 : need_seq need0 need0 = need0.
Proof. done. Qed.

Lemma read_varint_reads v :
  int_min i64 <= v <= int_max i64 -> reads read_varint (varint_bytes v) need0 v.
Proof.
  intros Hv. unfold varint_bytes, read_varint.
  assert (forall c (k : Z -> M Reader Z) bs, -128 <= c <= 127 ->
    reads (k c) bs need0 v -> reads (st_bind read_i8 k) (le_bytes 1 c ++ bs) need0 v) as Hcode.
  { intros c k bs Hc Hk. rewrite <-need_seq_0. eapply reads_bind; [by apply read_i8_code | done]. }
  destruct ((MIN_SINGLE_VALUE <=? v) && (v <=? MAX_SINGLE_VALUE)) eqn:E1.
  { apply andb_true_iff in E1 as [?%Z.leb_le ?%Z.leb_le].
    unfold MIN_SINGLE_VALUE, MAX_SINGLE_VALUE in *.
    eapply reads_bind_ret; [apply read_i8_code; lia |]. intros r.
    unfold code_BYTE, code_SBYTE, code_UINT16, code_INT16, code_UINT32, code_INT32,
      code_UINT64, code_INT64.
    repeat match goal with
    | |- context [v =? ?b] => destruct (Z.eqb_spec v b); [lia |]
    end. done. }
  destruct ((int_min i8 <=? v) && (v <? 0)) eqn:E2; bool_prop.
  { apply Hcode; [done |]. apply (@read_int_reads i8 _). int_bounds. lia. }
  destruct ((int_min i16 <=? v) && (v <=? int_max i16)) eqn:E3; bool_prop.
  { apply Hcode; [done |]. by apply (@read_int_reads i16 _). }
  destruct ((int_min i32 <=? v) && (v <=? int_max i32)) eqn:E4; bool_prop.
  { apply Hcode; [done |]. by apply (@read_int_reads i32 _). }
  apply Hcode; [done |]. by apply (@read_int_reads i64 _).
Qed.

(** ** Characters and strings round-trip *)

(** The UTF-16 code units of a scalar. *)
Definition encode_utf16 (c : Z) : list Z :=
  if c <=? 65535 then [c]
  else [(c - 65536) / 1024 + 55296; (c - 65536) mod 1024 + 56320].

Definition unit_bytes (us : list Z) : list Z := us ≫= le_bytes 2.

Lemma is_scalar_range c :
  is_scalar c = true <-> 0 <= c < 55296 \/ 57344 <= c <= 1114111.
Proof. unfold is_scalar. rewrite orb_true_iff, !andb_true_iff, !Z.leb_le, Z.ltb_lt. lia. Qed.

Lemma scalar_not_surrogate c : is_scalar c = true -> is_surrogate c = false.
Proof.
  rewrite is_scalar_range. intros. unfold is_surrogate.
  apply andb_false_iff. rewrite !Z.leb_gt. lia.
Qed.

Lemma high_surrogate_ok q :
  0 <= q < 1024 -> is_surrogate (q + 55296) = true /\ is_high_surrogate (q + 55296) = true.
Proof.
  intros. unfold is_surrogate, is_high_surrogate. rewrite !andb_true_iff, !Z.leb_le. lia.
Qed.

Lemma low_surrogate_ok m : 0 <= m < 1024 -> is_low_surrogate (m + 56320) = true.
Proof. intros. unfold is_low_surrogate. rewrite andb_true_iff, !Z.leb_le. lia. Qed.

Lemma surrogate_fields c :
  is_scalar c = true -> 65535 < c ->
  wrapping u16 (Z.shiftr (c - 65536) 10) = (c - 65536) / 1024
  /\ Z.land (wrapping u16 (c - 65536)) 1023 = (c - 65536) mod 1024.
Proof.
  rewrite is_scalar_range. intros Hc Hgt. split.
  - rewrite Z.shiftr_div_pow2 by lia. change (2 ^ 10) with 1024.
    apply wrapping_id; [done |]. int_bounds. div_mod_lia.
  - change 1023 with (Z.ones 10). rewrite Z.land_ones by lia.
    change (2 ^ 10) with 1024. unfold wrapping. cbn [int_signed u16 andb int_bits].
    change (2 ^ 16) with 65536. div_mod_lia.
Qed.

Lemma write_char_writes c :
  is_scalar c = true -> writes (write_char c) (unit_bytes (encode_utf16 c)).
Proof.
  intros Hc. unfold write_char, encode_utf16, unit_bytes. destruct (Z.leb_spec c 65535).
  - apply write_int_writes.
  - destruct (surrogate_fields c Hc) as [-> ->]; [lia |].
    cbn [mbind list_bind]. rewrite app_nil_r.
    apply writes_bind; apply write_int_writes.
Qed.

Lemma read_char_reads c :
  is_scalar c = true -> reads read_char (unit_bytes (encode_utf16 c)) need0 c.
Proof.
  intros Hc. pose proof Hc as Hr. rewrite is_scalar_range in Hr.
  unfold read_char, encode_utf16, unit_bytes. destruct (Z.leb_spec c 65535).
  - cbn [mbind list_bind]. rewrite app_nil_r.
    eapply reads_bind_ret; [apply (@read_int_reads u16 _); int_bounds; lia |]. intros r.
    rewrite scalar_not_surrogate by done. cbn [negb]. unfold char_from_u32. by rewrite Hc.
  - cbn [mbind list_bind]. rewrite app_nil_r.
    assert (0 <= (c - 65536) / 1024 < 1024) by div_mod_lia.
    assert (0 <= (c - 65536) mod 1024 < 1024) by div_mod_lia.
    rewrite <-need_seq_0.
    eapply reads_bind; [apply (@read_int_reads u16 _); int_bounds; lia |].
    destruct (high_surrogate_ok ((c - 65536) / 1024)) as [-> ->]; [lia |]. cbn [negb].
    eapply reads_bind_ret; [apply (@read_int_reads u16 _); int_bounds; lia |]. intros r.
    rewrite low_surrogate_ok by lia. cbn [negb].
    replace ((c - 65536) / 1024 + 55296 - 55296) with ((c - 65536) / 1024) by lia.
    replace ((c - 65536) mod 1024 + 56320 - 56320) with ((c - 65536) mod 1024) by lia.
    rewrite lor_shiftl_add by (change (2 ^ 10) with 1024; lia). change (2 ^ 10) with 1024.
    replace (65536 + ((c - 65536) / 1024 * 1024 + (c - 65536) mod 1024)) with c by div_mod_lia.
    unfold char_from_u32. by rewrite Hc.
Qed.

Definition string_bytes (s : string) : list Z :=
  match s with
  | EmptyString => le_bytes 4 0
  | _ => le_bytes 4 (Z.lnot (Z.of_nat (String.length s)))
         ++ le_bytes 4 (utf16_len (bytes_of_string s)) ++ bytes_of_string s
  end.

(** A string the wire format can carry. *)
Definition wire_str (s : string) : Prop :=
  utf8_valid (bytes_of_string s) = true /\ Z.of_nat (String.length s) <= int_max i32.

Definition need_str (s : string) : Need :=
  mkNeed (Z.of_nat (String.length s)) (Z.of_nat (String.length s)) 0 0.

Lemma utf16_len_bound bs :
  utf8_valid bs = true -> 0 <= utf16_len bs <= Z.of_nat (length bs).
Proof.
  unfold utf8_valid, utf16_len. destruct (utf8_decode bs) as [cs|] eqn:E; [|done]. intros _.
  apply utf8_encode_decode in E as [<- _].
  induction cs as [|c cs IH]; [done |].
  change (utf8_encode (c :: cs)) with (encode_utf8 c ++ utf8_encode cs).
  assert (0 <= len_utf16 c <= Z.of_nat (length (encode_utf8 c))).
  { unfold len_utf16, encode_utf8.
    destruct (Z.ltb_spec c 65536), (Z.ltb_spec c 128), (Z.ltb_spec c 2048); simpl length; lia. }
  rewrite length_app. cbn [foldr]. lia.
Qed.

Lemma write_string_writes s : wire_str s -> writes (write_string s) (string_bytes s).
Proof.
  intros [Hv Hl]. destruct s as [|a s']; [apply write_int_writes |].
  unfold write_string, string_bytes. set (s := String a s') in *.
  pose proof (utf16_len_bound _ Hv) as Hu. rewrite !length_bytes_of_string in *.
  unfold checked_i32_length.
  eapply writes_lift; [rewrite checked_fits; [done | int_bounds; lia] |].
  eapply writes_lift; [rewrite checked_fits; [done | int_bounds; lia] |].
  repeat apply writes_bind; apply write_int_writes || apply writes_extend.
Qed.

Lemma read_utf8_string_reads `{Utf8Validator} s :
  wire_str s ->
  reads (read_utf8_string (Z.of_nat (String.length s)))
    (le_bytes 4 (utf16_len (bytes_of_string s)) ++ bytes_of_string s) (need_str s) s.
Proof.
  intros [Hv Hl]. unfold read_utf8_string.
  pose proof (utf16_len_bound _ Hv) as Hu. rewrite length_bytes_of_string in Hu.
  eapply reads_need; [eapply reads_check |].
  - apply validate_string_reads. lia.
  - eapply reads_bind; [apply (@read_int_reads i32 _); int_bounds; lia |].
    eapply reads_bind_ret.
    + apply read_bytes_reads. by rewrite length_bytes_of_string.
    + intros r. rewrite from_utf8_spec by auto with catga. rewrite Hv.
      cbn [ok_or st_lift]. by rewrite string_of_bytes_of_string.
  - unfold need_str, need_seq. simpl. f_equal; lia.
Qed.

Lemma read_string_reads `{Utf8Validator} s :
  wire_str s -> reads read_string (string_bytes s) (need_str s) s.
Proof.
  intros Hw. pose proof Hw as [Hv Hl]. destruct s as [|a s'].
  { eapply reads_bind_ret; [by apply (@read_int_reads i32 _) | done]. }
  unfold read_string, string_bytes. set (s := String a s') in *.
  assert (0 < Z.of_nat (String.length s)) by (simpl; lia).
  eapply reads_need; [eapply reads_bind |].
  - apply (@read_int_reads i32 _). unfold Z.lnot. int_bounds. lia.
  - assert (Z.lnot (Z.of_nat (String.length s)) < -1) by (unfold Z.lnot; lia).
    destruct (Z.eqb_spec (Z.lnot (Z.of_nat (String.length s))) (-1)); [lia |].
    destruct (Z.ltb_spec (Z.lnot (Z.of_nat (String.length s))) 0); [|lia].
    rewrite Z.lnot_involutive. by apply read_utf8_string_reads.
  - unfold need_str, need_seq. simpl. f_equal; lia.
Qed.

(** ** UTF-16 payloads *)

Lemma u16_units_unit_bytes us :
  Forall (fun u => 0 <= u < 65536) us -> u16_units (unit_bytes us) = us.
Proof.
  induction 1 as [|u us Hu _ IH]; [done |].
  change (unit_bytes (u :: us)) with (le_bytes 2 u ++ unit_bytes us).
  cbn [le_bytes app u16_units]. rewrite IH.
  f_equal. div_mod_lia.
Qed.

Lemma encode_utf16_units c :
  is_scalar c = true -> Forall (fun u => 0 <= u < 65536) (encode_utf16 c).
Proof.
  rewrite is_scalar_range. intros Hc. unfold encode_utf16.
  destruct (Z.leb_spec c 65535); repeat constructor; try lia; div_mod_lia.
Qed.

(** Decoding the UTF-16 form of a text yields its UTF-8 form. *)
Lemma utf16_loop_encode cs : forall acc,
  Forall (fun c => is_scalar c = true) cs ->
  utf16_loop (cs ≫= encode_utf16) acc = Ok (acc ++ utf8_encode cs).
Proof.
  induction cs as [|c cs IH]; intros acc Hcs; [by rewrite app_nil_r |].
  apply Forall_cons in Hcs as [Hc Hcs]. pose proof Hc as Hr. rewrite is_scalar_range in Hr.
  change (utf8_encode (c :: cs)) with (encode_utf8 c ++ utf8_encode cs).
  change ((c :: cs) ≫= encode_utf16) with (encode_utf16 c ++ (cs ≫= encode_utf16)).
  unfold encode_utf16 at 1. rewrite app_assoc.
  destruct (Z.leb_spec c 65535); cbn [app utf16_loop].
  - rewrite scalar_not_surrogate by done. cbn [negb]. unfold char_from_u32. rewrite Hc. by apply IH.
  - assert (0 <= (c - 65536) / 1024 < 1024) by div_mod_lia.
    assert (0 <= (c - 65536) mod 1024 < 1024) by div_mod_lia.
    destruct (high_surrogate_ok ((c - 65536) / 1024)) as [-> ->]; [lia |].
    rewrite low_surrogate_ok by lia. cbn [negb].
    replace (65536 + Z.shiftl ((c - 65536) / 1024 + 55296 - 55296) 10
      + ((c - 65536) mod 1024 + 56320 - 56320)) with c.
    2: { rewrite Z.shiftl_mul_pow2 by lia. change (2 ^ 10) with 1024. div_mod_lia. }
    unfold char_from_u32. rewrite Hc. by apply IH.
Qed.

(** Whatever the code units are, the loop only ever builds well-formed text. *)
Lemma utf16_loop_sound us : forall acc bs,
  utf16_loop us acc = Ok bs ->
  exists cs, bs = acc ++ utf8_encode cs /\ Forall (fun c => is_scalar c = true) cs
             /\ (length cs <= length us)%nat.
Proof.
  induction us as [us IH] using (induction_ltof1 _ (@length Z)); unfold ltof in IH.
  intros acc bs. destruct us as [|u us]; cbn [utf16_loop].
  { intros. simplify_eq. exists []. by rewrite app_nil_r. }
  assert (forall c us', (length us' <= length us)%nat ->
    utf16_loop us' (acc ++ encode_utf8 c) = Ok bs -> is_scalar c = true ->
    exists cs, bs = acc ++ utf8_encode cs /\ Forall (fun c => is_scalar c = true) cs
               /\ (length cs <= length (u :: us))%nat) as Hstep.
  { intros c us' Hlt Hl Hc. apply IH in Hl as (cs & -> & Hcs & ?); [| simpl; lia].
    exists (c :: cs). split; [by rewrite <-app_assoc |]. split; [by constructor | simpl; lia]. }
  unfold char_from_u32.
  destruct (negb (is_surrogate u)).
  - destruct (is_scalar u) eqn:Hc; [|done]. intros. by eapply Hstep.
  - destruct (is_high_surrogate u); [|done]. destruct us as [|low us']; [done |].
    destruct (negb (is_low_surrogate low)); [done |].
    destruct (is_scalar _) eqn:Hc; [|done]. intros. eapply Hstep; [| done | done]. simpl. lia.
Qed.

(** ** Safety on arbitrary frames

    Whatever the received bytes are, a read keeps the cursor inside the frame
    and the cumulative allocation and nesting within their budgets, success or
    not. *)

Record reader_inv (r : Reader) : Prop := {
  ri_pos : (pos r <= length (frame r))%nat;
  ri_limits : exists l, limits r = Some l
    /\ 0 <= allocated_bytes r <= max_allocation_bytes l
    /\ 0 <= nesting_depth r <= max_nesting_depth l
}.

Record preserved (r r' : Reader) : Prop := {
  pr_inv : reader_inv r';
  pr_frame : frame r' = frame r;
  pr_limits : limits r' = limits r;
  pr_depth : nesting_depth r' = nesting_depth r;
  pr_alloc : allocated_bytes r <= allocated_bytes r'
}.

Definition safe {A} (c : M Reader A) : Prop :=
  forall r, reader_inv r -> preserved r (snd (c r)).

#[global] Instance preserved_trans : Transitive preserved.
Proof.
  intros r1 r2 r3 [I2 F2 L2 D2 A2] [I3 F3 L3 D3 A3].
  split; [done | congruence | congruence | congruence | lia].
Qed.

Lemma preserved_refl r : reader_inv r -> preserved r r.
Proof. intros. by split. Qed.

Lemma safe_bind {A B} (c : M Reader A) (k : A -> M Reader B) :
  safe c -> (forall a, safe (k a)) -> safe (st_bind c k).
Proof.
  intros Hc Hk r Hr. unfold st_bind. pose proof (Hc r Hr) as Hp.
  destruct (c r) as [[a|e] r']; simpl in *; [|done].
  etrans; [done |]. apply Hk. apply Hp.
Qed.

Lemma safe_ret {A} (a : A) : safe (st_ret a).
Proof. intros r Hr. by apply preserved_refl. Qed.

Lemma safe_throw {A} e : safe (st_throw (A := A) e).
Proof. intros r Hr. by apply preserved_refl. Qed.

Lemma safe_lift {A} (x : MPResult A) : safe (st_lift x).
Proof. intros r Hr. by apply preserved_refl. Qed.

Lemma safe_if {A} (b : bool) (c d : M Reader A) : safe c -> safe d -> safe (if b then c else d).
Proof. by destruct b. Qed.

Lemma preserved_set_pos r p :
  reader_inv r -> (p <= length (frame r))%nat -> preserved r (set_pos r p).
Proof. intros [Hp Hl] H. by split. Qed.

Lemma safe_read_exact n : safe (read_exact n).
Proof.
  intros r Hr. unfold read_exact.
  destruct (Nat.eqb_spec (length (take n (drop (pos r) (frame r)))) n) as [E|E]; simpl.
  - apply preserved_set_pos; [done |]. destruct Hr.
    rewrite length_take, length_drop in E. lia.
  - by apply preserved_set_pos.
Qed.

Lemma safe_read_int t : safe (read_int t).
Proof. apply safe_bind; [apply safe_read_exact | intros; apply safe_ret]. Qed.

Lemma safe_read_bytes n : 0 <= n -> safe (read_bytes n).
Proof.
  intros Hn r Hr. unfold read_bytes. destruct (checked usize _) as [e|] eqn:E.
  - apply checked_Some in E as [-> _].
    destruct (Z.leb_spec (Z.of_nat (pos r) + n) (Z.of_nat (length (frame r)))); simpl.
    + apply preserved_set_pos; [done | lia].
    + by apply preserved_refl.
  - by apply preserved_refl.
Qed.

Lemma safe_skip n : 0 <= n -> safe (skip n).
Proof.
  intros Hn r Hr. unfold skip. destruct (checked usize _) as [e|] eqn:E.
  - apply checked_Some in E as [-> _].
    destruct (Z.leb_spec (Z.of_nat (pos r) + n) (Z.of_nat (length (frame r)))); simpl.
    + apply preserved_set_pos; [done | lia].
    + by apply preserved_refl.
  - by apply preserved_refl.
Qed.

Lemma safe_rewind n : safe (rewind n).
Proof.
  intros r Hr. unfold rewind. destruct (Nat.leb_spec n (pos r)); simpl.
  - apply preserved_set_pos; [done |]. destruct Hr. lia.
  - by apply preserved_refl.
Qed.

Lemma safe_reserve b : 0 <= b -> safe (reserve_allocation b).
Proof.
  intros Hb r Hr. pose proof Hr as [Hp (l & Hl & Ha & Hd)].
  unfold reserve_allocation. rewrite Hl. destruct (checked usize _) as [n|] eqn:E.
  - apply checked_Some in E as [-> _].
    destruct (Z.ltb_spec (max_allocation_bytes l) (allocated_bytes r + b)); simpl.
    + by apply preserved_refl.
    + split; [split; [done |]; exists l; split; [done |]; simpl; lia | done | done | done |].
      simpl. lia.
  - by apply preserved_refl.
Qed.

Lemma safe_validate_collection_len n : safe (validate_collection_len n).
Proof.
  intros r Hr. unfold validate_collection_len.
  repeat case_match; simpl; by apply preserved_refl.
Qed.

Lemma safe_validate_string b : 0 <= b -> safe (validate_string_bytes b).
Proof.
  intros Hb r Hr. unfold validate_string_bytes. repeat case_match; simpl;
    try (by apply preserved_refl); by apply safe_reserve.
Qed.

#[export] Hint Resolve safe_ret safe_throw safe_lift safe_if safe_read_exact safe_read_int
  safe_read_bytes safe_skip safe_rewind safe_reserve safe_validate_collection_len
  safe_validate_string : catga.

(** Proves [safe] for a composition of safe reads. *)
Ltac safe_tac :=
  repeat (first [solve [eauto 2 with catga] | apply safe_bind; [| intros ?] | apply safe_if]);
  eauto 2 with catga.

Lemma safe_read_bool : safe read_bool.
Proof. unfold read_bool, read_u8. safe_tac. Qed.

Lemma safe_read_char : safe read_char.
Proof. unfold read_char, read_u16. safe_tac. Qed.

Lemma safe_read_varint : safe read_varint.
Proof.
  unfold read_varint, read_u8, read_i8, read_u16, read_i16, read_u32, read_i32, read_u64,
    read_i64. safe_tac.
Qed.

Lemma checked_nonneg x y : checked usize x = Some y -> 0 <= y.
Proof. intros [-> ?]%checked_Some. int_bounds. lia. Qed.

Lemma safe_lift_bind {A B} (x : MPResult A) (k : A -> M Reader B) :
  (forall a, x = Ok a -> safe (k a)) -> safe (st_bind (st_lift x) k).
Proof.
  intros Hk. destruct x as [a|e]; [by apply (Hk a) |].
  intros r Hr. by apply preserved_refl.
Qed.

Lemma ok_or_checked_nonneg x (e : MemoryPackError) y :
  ok_or (checked usize x) e = Ok y -> 0 <= y.
Proof. destruct (checked usize x) eqn:E; simpl; intros ?; simplify_eq. by eapply checked_nonneg. Qed.

Lemma safe_read_utf16_string n : safe (read_utf16_string n).
Proof.
  intros r. unfold read_utf16_string.
  match goal with |- _ -> preserved _ (snd (?c r)) => assert (safe c) as Hs; [| by apply Hs] end.
  apply safe_lift_bind. intros b Hb%ok_or_checked_nonneg.
  apply safe_bind; [by apply safe_validate_string | intros _].
  apply safe_lift_bind. intros al Hal%ok_or_checked_nonneg. safe_tac.
Qed.

Lemma safe_read_utf8_string `{Utf8Validator} n : 0 <= n -> safe (read_utf8_string n).
Proof. intros. unfold read_utf8_string, read_i32. safe_tac. Qed.

(** A branch on a comparison: the branch may use it. *)
Lemma safe_case {A} (b : bool) (c d : M Reader A) :
  (b = true -> safe c) -> (b = false -> safe d) -> safe (if b then c else d).
Proof. destruct b; auto. Qed.

Lemma lnot_nonneg x : x < 0 -> 0 <= Z.lnot x.
Proof. unfold Z.lnot. lia. Qed.

Lemma safe_read_string `{Utf8Validator} : safe read_string.
Proof.
  apply safe_bind; [apply safe_read_int | intros n].
  repeat (apply safe_case; intros); auto using safe_read_utf16_string with catga.
  apply safe_read_utf8_string, lnot_nonneg. by apply Z.ltb_lt.
Qed.

Lemma safe_read_str `{Utf8Validator} : safe read_str.
Proof.
  apply safe_bind; [apply safe_read_int | intros n].
  repeat (apply safe_case; intros); auto with catga.
  apply safe_read_utf8_string, lnot_nonneg. by apply Z.ltb_lt.
Qed.

Lemma safe_read_bytes_vec n : 0 <= n -> safe (read_bytes_vec n).
Proof. intros. unfold read_bytes_vec. safe_tac. Qed.

#[export] Hint Resolve safe_read_bool safe_read_char safe_read_varint safe_read_string
  safe_read_str safe_read_bytes_vec : catga.

(** ** Text in UTF-16 frames *)

(** The budget a UTF-16 string of [n] code units takes. *)
Definition need_utf16 (n : Z) : Need := mkNeed (2 * n + 3 * n) (2 * n) 0 0.

Lemma length_unit_bytes us : length (unit_bytes us) = (2 * length us)%nat.
Proof.
  induction us as [|u us IH]; [done |].
  change (unit_bytes (u :: us)) with (le_bytes 2 u ++ unit_bytes us).
  rewrite length_app, IH, length_le_bytes. simpl length. lia.
Qed.

Lemma encode_utf16_all cs :
  Forall (fun c => is_scalar c = true) cs ->
  Forall (fun u => 0 <= u < 65536) (cs ≫= encode_utf16).
Proof. intros. apply Forall_bind. eapply Forall_impl; [done |]. apply encode_utf16_units. Qed.

Lemma read_utf16_string_reads cs n :
  Forall (fun c => is_scalar c = true) cs ->
  n = Z.of_nat (length (cs ≫= encode_utf16)) -> n <= int_max i32 ->
  reads (read_utf16_string n) (unit_bytes (cs ≫= encode_utf16)) (need_utf16 n)
    (string_of_bytes (utf8_encode cs)).
Proof.
  intros Hcs Hn Hmax. unfold read_utf16_string.
  split; [simpl; lia |]. intros r rest Hr Hw.
  rewrite !checked_fits by (int_bounds; lia). cbn [ok_or].
  match goal with |- ?c r = _ => assert (reads c (unit_bytes (cs ≫= encode_utf16))
    (need_utf16 n) (string_of_bytes (utf8_encode cs))) as [_ Hc]; [| by apply (Hc r rest)] end.
  eapply reads_need; [| shelve].
  apply reads_lift. eapply reads_check; [apply validate_string_reads; lia |].
  apply reads_lift. eapply reads_check; [apply reserve_reads; lia |].
  eapply reads_bind_ret; [apply read_bytes_reads; rewrite length_unit_bytes; lia |].
  intros r'. rewrite u16_units_unit_bytes by by apply encode_utf16_all.
  by rewrite utf16_loop_encode.
  Unshelve. unfold need_seq, need_utf16, need0, need_alloc. simpl. f_equal; lia.
Qed.

(** ** Properties *)

(** A compact integer reads back as written: for every 64-bit value, the
    bytes [write_varint] appends are at most nine, and [read_varint] on them
    returns the value and stops right after them. *)
Theorem varint_roundtrip v :
  int_min i64 <= v <= int_max i64 ->
  exists bs, write_varint v [] = (Ok tt, bs) /\ (length bs <= 9)%nat
    /\ forall rest l, Z.of_nat (length (bs ++ rest)) <= max_frame_bytes l <= int_max usize ->
         0 <= max_allocation_bytes l <= int_max usize ->
         0 <= max_string_bytes l -> 0 <= max_collection_items l ->
         0 <= max_nesting_depth l <= int_max usize ->
         read_varint (mkReader (bs ++ rest) 0 (Some l) 0 0)
         = (Ok v, mkReader (bs ++ rest) (length bs) (Some l) 0 0).
Proof.
  intros Hv. exists (varint_bytes v). split; [apply (write_varint_writes v []) |]. split.
  { unfold varint_bytes. repeat case_match; rewrite ?length_app, ?length_le_bytes; lia. }
  intros rest l Hf Ha Hs Hi Hd. rewrite (proj2 (read_varint_reads v Hv) _ rest); [done | done |].
  exists l. split; [done |]. simpl. lia.
Qed.

(** A reader accepts the UTF-16 form of a string and returns the same text:
    for every sequence of Unicode scalars, [read_string] on its code-unit count
    followed by its UTF-16 code units yields the UTF-8 string of those scalars,
    whatever follows in the frame. *)
Theorem read_string_utf16 `{Utf8Validator} cs rest l :
  let us := cs ≫= encode_utf16 in
  let n := Z.of_nat (length us) in
  let data := le_bytes 4 n ++ unit_bytes us ++ rest in
  Forall (fun c => is_scalar c = true) cs -> cs <> [] -> n <= int_max i32 ->
  2 * n <= max_string_bytes l -> 5 * n <= max_allocation_bytes l <= int_max usize ->
  0 <= max_collection_items l -> 0 <= max_nesting_depth l <= int_max usize ->
  Z.of_nat (length data) <= int_max usize ->
  read_string (mkReader data 0 (Some l) 0 0)
  = (Ok (string_of_bytes (utf8_encode cs)),
     mkReader data (4 + 2 * length us) (Some l) (5 * n) 0).
Proof.
  intros us n data Hcs Hne Hn Hs Ha Hi Hd Hf.
  assert (0 < n) as Hpos.
  { subst n us. destruct cs as [|c cs]; [done |].
    change ((c :: cs) ≫= encode_utf16) with (encode_utf16 c ++ (cs ≫= encode_utf16)).
    rewrite length_app. unfold encode_utf16 at 1. case_match; simpl; lia. }
  assert (reads read_string (le_bytes 4 n ++ unit_bytes us) (need_seq need0 (need_utf16 n))
    (string_of_bytes (utf8_encode cs))) as [_ Hr].
  { eapply reads_bind; [apply (@read_int_reads i32 _); int_bounds; lia |].
    destruct (Z.eqb_spec n (-1)), (Z.ltb_spec n 0), (Z.eqb_spec n 0); try lia.
    by apply read_utf16_string_reads. }
  rewrite (Hr _ rest).
  - unfold consume. simpl. rewrite length_unit_bytes. do 2 f_equal; lia.
  - unfold remaining. by rewrite <-app_assoc.
  - exists l. split; [done |]. simpl. simpl in *. lia.
Qed.

Lemma varint_roundtrip_witness :
  exists bs, write_varint (-30000) [] = (Ok tt, bs) /\ (length bs <= 9)%nat
    /\ read_varint (mkReader (bs ++ [7]) 0 (Some Limits_default) 0 0)
       = (Ok (-30000), mkReader (bs ++ [7]) (length bs) (Some Limits_default) 0 0).
Proof.
  destruct (varint_roundtrip (-30000)) as (bs & Hw & Hl & Hr); [by split |].
  exists bs. split; [done |]. split; [done |].
  apply Hr; vm_compute in Hw; simplify_eq; split || idtac; vm_compute; congruence.
Defined.

Lemma read_string_utf16_witness :
  let us := [104; 128512] ≫= encode_utf16 in
  let data := le_bytes 4 (Z.of_nat (length us)) ++ unit_bytes us ++ [9] in
  data = [3; 0; 0; 0; 104; 0; 61; 216; 0; 222; 9]
  /\ read_string (mkReader data 0 (Some Limits_default) 0 0)
     = (Ok (string_of_bytes (utf8_encode [104; 128512])),
        mkReader data (4 + 2 * length us) (Some Limits_default) (5 * Z.of_nat (length us)) 0).
Proof.
  intros us data. split; [reflexivity |].
  apply (read_string_utf16 [104; 128512] [9] Limits_default); [repeat constructor | ..];
    vm_compute; (split; congruence) || congruence.
Defined.
