(* ===== verification/Codec.v ===== *)
(** * MemoryPack codecs ([codec/memorypack/traits/], [serializer.rs],
    [codec.rs], and the code [catga-memorypack-derive/src/regular.rs] emits)

    A [Codec] is the pair of trait implementations [MemoryPackSerialize] and
    [MemoryPackDeserialize] of a type.  [CodecLaws] is what one codec promises
    to the codecs built on it: the bytes it writes, that it reads them back
    within a known budget, and that it is safe on arbitrary input. *)

From stdpp Require Import pretty.
From S2P Require Import Prelude Utf8 Errors Wire.

Record Codec (A : Type) := mkCodec {
  serialize : A -> M Writer unit;
  deserialize : M Reader A;
  (** [size_of::<A>()] *)
  size_of : Z
}.
Arguments mkCodec {A}.
Arguments serialize {A}.
Arguments deserialize {A}.
Arguments size_of {A}.

(** ** Primitive values ([primitives.rs], [strings.rs]) *)

Definition unit_codec : Codec unit :=
  mkCodec (fun _ => st_ret tt) (st_ret tt) 0.
Definition bool_codec : Codec bool := mkCodec write_bool read_bool 1.
Definition int_codec (t : int_ty) : Codec Z :=
  mkCodec (write_int t) (read_int t) (Z.of_nat (int_bytes t)).
Definition char_codec : Codec Z := mkCodec write_char read_char 4.
(** [String] is three words. *)
Definition string_codec `{Utf8Validator} : Codec string := mkCodec write_string read_string 24.

(** ** Options ([options.rs]) *)

Definition serialize_option_generic {A} (c : Codec A) (dflt : A) (opt : option A)
    : M Writer unit :=
  match opt with
  | Some value => write_i32 1 ;;; serialize c value
  | None => write_i32 0 ;;; serialize c dflt
  end.

Definition deserialize_option_generic {A} (c : Codec A) : M Reader (option A) :=
  let! has_value := read_i32 in
  if has_value =? 0 then deserialize c ;;; st_ret None
  else if has_value =? 1 then let! value := deserialize c in st_ret (Some value)
  else st_throw (DeserializationError "invalid generic Option presence flag").

(** [size_of::<Option<A>>()] depends on the layout the compiler picks; it is an
    argument of the codec. *)
Definition option_codec {A} (c : Codec A) (dflt : A) (sz : Z) : Codec (option A) :=
  mkCodec (serialize_option_generic c dflt) (deserialize_option_generic c) sz.

Definition serialize_nullable_string (opt : option string) : M Writer unit :=
  match opt with Some value => write_string value | None => write_i32 (-1) end.

Definition deserialize_nullable_string `{Utf8Validator} : M Reader (option string) :=
  let! len := read_i32 in
  if len =? -1 then st_ret None
  else rewind 4 ;;; let! value := read_string in st_ret (Some value).

Definition nullable_string_codec `{Utf8Validator} : Codec (option string) :=
  mkCodec serialize_nullable_string deserialize_nullable_string 24.

(** ** Collections ([collections.rs]) *)

Definition reserve_collection {A} (c : Codec A) (capacity : Z) : M Reader unit :=
  let! bytes := st_lift (ok_or (checked usize (capacity * size_of c))
    (LimitExceeded "cumulative allocation bytes" (int_max usize))) in
  reserve_allocation bytes.

Definition write_collection_header (len : nat) : M Writer unit :=
  let! n := st_lift (checked_i32_length (Z.of_nat len)) in write_i32 n.

(** [for item in self.iter() { item.serialize(writer)?; }] *)
Fixpoint serialize_items {A} (c : Codec A) (items : list A) : M Writer unit :=
  match items with
  | [] => st_ret tt
  | item :: items => serialize c item ;;; serialize_items c items
  end.

(** [for _ in 0..n { result.push(T::deserialize(reader)?); }] *)
Fixpoint deserialize_items {A} (c : Codec A) (n : nat) : M Reader (list A) :=
  match n with
  | O => st_ret []
  | S n => let! item := deserialize c in
           let! items := deserialize_items c n in st_ret (item :: items)
  end.

Definition serialize_vec {A} (c : Codec A) (items : list A) : M Writer unit :=
  write_collection_header (length items) ;;; serialize_items c items.

Definition deserialize_vec {A} (c : Codec A) : M Reader (list A) :=
  let! size := read_i32 in
  let! capacity := validate_collection_len size in
  match capacity with
  | None => st_ret []
  | Some capacity =>
    reserve_collection c capacity ;;; deserialize_items c (Z.to_nat capacity)
  end.

(** [Vec<T>] *)
Definition vec_codec {A} (c : Codec A) : Codec (list A) :=
  mkCodec (serialize_vec c) (deserialize_vec c) 24.

(** [LinkedList<T>]: as a vector, but no storage is reserved up front. *)
Definition deserialize_linked_list {A} (c : Codec A) : M Reader (list A) :=
  let! size := read_i32 in
  let! capacity := validate_collection_len size in
  match capacity with
  | None => st_ret []
  | Some capacity => deserialize_items c (Z.to_nat capacity)
  end.

Definition linked_list_codec {A} (c : Codec A) : Codec (list A) :=
  mkCodec (serialize_vec c) (deserialize_linked_list c) 24.

(** [NullableVec<T>] ([options.rs]) *)
Definition serialize_nullable_vec {A} (c : Codec A) (opt : option (list A)) : M Writer unit :=
  match opt with
  | Some vec => serialize_vec c vec
  | None => write_i32 (-1)
  end.

Definition deserialize_nullable_vec {A} (c : Codec A) : M Reader (option (list A)) :=
  let! size := read_i32 in
  if size =? -1 then st_ret None
  else if size <? 0 then st_throw (InvalidLength size)
  else
    let! capacity := validate_collection_len size in
    reserve_collection c (default 0 capacity) ;;;
    let! result := deserialize_items c (Z.to_nat size) in st_ret (Some result).

Definition nullable_vec_codec {A} (c : Codec A) : Codec (option (list A)) :=
  mkCodec (serialize_nullable_vec c) (deserialize_nullable_vec c) 24.

(** [[T; N]] *)
Definition array_mismatch : MemoryPackError :=
  DeserializationError "fixed array wire length does not match the target length".

Definition serialize_array {A} (c : Codec A) (items : list A) : M Writer unit :=
  let! length := st_lift (ok_or (checked i32 (Z.of_nat (length items)))
    (SerializationError "fixed array length exceeds i32::MAX")) in
  write_i32 length ;;; serialize_items c items.

Definition deserialize_array {A} (c : Codec A) (N : nat) : M Reader (list A) :=
  let! length := read_i32 in
  let! valid := validate_collection_len length in
  match valid with
  | None => st_throw array_mismatch
  | Some length =>
    if negb (length =? Z.of_nat N) then st_throw array_mismatch
    else reserve_collection c (Z.of_nat N) ;;; deserialize_items c N
  end.

Definition array_codec {A} (c : Codec A) (N : nat) : Codec (list A) :=
  mkCodec (serialize_array c) (deserialize_array c N) (Z.of_nat N * size_of c).

(** Tuples ([tuples.rs]): the components in order, with no header. *)
Definition pair_codec {A B} (c : Codec A) (d : Codec B) : Codec (A * B) :=
  mkCodec
    (fun p => serialize c (fst p) ;;; serialize d (snd p))
    (let! a := deserialize c in let! b := deserialize d in st_ret (a, b))
    (size_of c + size_of d).

(** [HashMap<K, V>] and, with the sorted enumeration, [BTreeMap<K, V>]. *)
Definition serialize_map `{MapIter K} {V} (c : Codec K) (d : Codec V) (m : gmap K V)
    : M Writer unit :=
  write_collection_header (size m) ;;; serialize_items (pair_codec c d) (iter m).

(** [map.insert] for each entry read; a later entry replaces an earlier one. *)
Fixpoint insert_all `{Countable K} {V} (entries : list (K * V)) (m : gmap K V) : gmap K V :=
  match entries with
  | [] => m
  | (k, v) :: entries => insert_all entries (<[k := v]> m)
  end.

Definition deserialize_map `{Countable K} {V} (c : Codec K) (d : Codec V)
    : M Reader (gmap K V) :=
  let! count := read_i32 in
  let! valid := validate_collection_len count in
  match valid with
  | None => st_ret ∅
  | Some capacity =>
    reserve_collection (pair_codec c d) capacity ;;;
    let! entries := deserialize_items (pair_codec c d) (Z.to_nat capacity) in
    st_ret (insert_all entries ∅)
  end.

Definition map_codec `{MapIter K} {V} (c : Codec K) (d : Codec V) : Codec (gmap K V) :=
  mkCodec (serialize_map c d) (deserialize_map c d) 48.

(** ** Derived objects ([regular.rs]): a field count, then the fields; the
    reader leaves the object whether or not its fields decode. *)

Definition field_count_mismatch (expected received : Z) : MemoryPackError :=
  DeserializationError ("MemoryPack object field count mismatch: expected "
    +:+ pretty expected +:+ ", received " +:+ pretty received).

Definition serialize_object {A} (count : Z) (fields : Codec A) (a : A) : M Writer unit :=
  write_u8 count ;;; serialize fields a.

Definition object_body {A} (count : Z) (fields : Codec A) : M Reader A :=
  let! received_field_count := read_u8 in
  if negb (received_field_count =? count)
  then st_throw (field_count_mismatch count received_field_count)
  else deserialize fields.

Definition deserialize_object {A} (count : Z) (fields : Codec A) : M Reader A :=
  enter_object ;;;
  (fun r =>
     match object_body count fields r with
     | (result, r) => (result, snd (leave_object r))
     end).

(** The fields of an object as the nested tuple of their codecs, converted to
    and from the struct. *)
Definition object_codec {A F} (count : Z) (fields : Codec F) (fields_of : A -> F)
    (of_fields : F -> A) (sz : Z) : Codec A :=
  mkCodec (fun a => serialize_object count fields (fields_of a))
    (let! f := deserialize_object count fields in st_ret (of_fields f)) sz.

(** A fieldless enum stored as one byte; [name] is the noun of the error. *)
Definition deserialize_enum {A} (of_u8 : Z -> option A) (name : string) : M Reader A :=
  let! value := read_u8 in
  match of_u8 value with
  | Some a => st_ret a
  | None => st_throw (DeserializationError ("invalid " +:+ name +:+ ": " +:+ pretty value))
  end.

Definition enum_codec {A} (as_u8 : A -> Z) (of_u8 : Z -> option A) (name : string) : Codec A :=
  mkCodec (fun a => write_u8 (as_u8 a)) (deserialize_enum of_u8 name) 1.

(** ** Frames ([serializer.rs]) *)

Definition serialize_frame {A} (c : Codec A) (value : A) : MPResult (list Z) :=
  match serialize c value [] with
  | (Ok _, buffer) => Ok buffer
  | (Err e, _) => Err e
  end.

(** [MemoryPackWriter::from_reusable_buffer] *)
Definition from_reusable_buffer (buffer : list Z) : Writer := take 0 buffer.

(** [serialize_into]: the caller's buffer is cleared, filled, and emptied again
    when the value cannot be encoded. *)
Definition serialize_into {A} (c : Codec A) (value : A) (output : list Z)
    : MPResult unit * list Z :=
  match serialize c value (from_reusable_buffer output) with
  | (Ok _, buffer) => (Ok tt, buffer)
  | (Err e, _) => (Err e, [])
  end.

Definition deserialize_bounded {A} (c : Codec A) (data : list Z) (l : MemoryPackDecodeLimits)
    : MPResult A :=
  let? reader := new_bounded data l in
  match deserialize c reader with
  | (Err e, _) => Err e
  | (Ok value, reader) =>
    if negb (pos reader =? length data)%nat then Err TrailingBytes else Ok value
  end.

Definition deserialize_frame {A} (c : Codec A) (data : list Z) : MPResult A :=
  deserialize_bounded c data Limits_default.

(** ** [MemoryPackCodec] ([codec.rs]) *)

(** [error.to_string()] *)
Definition mp_error_to_string (e : MemoryPackError) : string :=
  match e with
  | LimitExceeded resource limit =>
      "MemoryPack receive limit exceeded for " +:+ resource +:+ ": maximum is " +:+ pretty limit
  | InvalidLimit m => "invalid MemoryPack decode limit: " +:+ m
  | TrailingBytes => "trailing bytes remain after decoding a MemoryPack frame"
  | Io => "failed to fill whole buffer"
  | Utf8Error => "invalid utf-8 sequence"
  | InvalidUtf8 => "Invalid UTF-8 or UTF-16 string data"
  | InvalidLength n => "Invalid length: " +:+ pretty n
  | SerializationError m => "Serialization error: " +:+ m
  | DeserializationError m => "Deserialization error: " +:+ m
  | BufferTooSmall => "Buffer too small"
  | InvalidCodePoint => "Invalid Unicode code point"
  | UnexpectedEnd => "Unexpected end of data"
  | UnexpectedEndOfBuffer => "Unexpected end of buffer"
  | Utf16NotSupportedForZeroCopy =>
      "UTF-16 strings are not supported for zero-copy deserialization"
  end.

Definition map_memorypack_error (e : MemoryPackError) : CatgaError :=
  CatgaError_new Validation (mp_error_to_string e).

Definition encode_payload {A} (c : Codec A) (decode_limits : MemoryPackDecodeLimits) (value : A)
    : CatgaResult (list Z) :=
  let? bytes := map_err map_memorypack_error (serialize_frame c value) in
  if max_frame_bytes decode_limits <? Z.of_nat (length bytes)
  then fail Validation "MemoryPack payload exceeds the configured frame limit"
  else Ok bytes.

Definition decode_payload {A} (c : Codec A) (decode_limits : MemoryPackDecodeLimits)
    (bytes : list Z) : CatgaResult A :=
  map_err map_memorypack_error (deserialize_bounded c bytes decode_limits).

(** ** What a codec promises *)

Class CodecLaws {A} (c : Codec A) := {
  (** the values the wire format can carry *)
  wf : A -> Prop;
  (** the bytes of a value, and the receive budget decoding them takes *)
  enc : A -> list Z;
  need : A -> Need;
  serialize_writes : forall a, wf a -> writes (serialize c a) (enc a);
  deserialize_reads : forall a, wf a -> reads (deserialize c) (enc a) (need a) a;
  deserialize_safe : safe (deserialize c);
  size_of_nonneg : 0 <= size_of c
}.
Arguments wf {A} c {_}.
Arguments enc {A} c {_}.
Arguments need {A} c {_}.

Lemma writes_nil_l c k bs : writes c [] -> writes k bs -> writes (st_bind c (fun _ => k)) bs.
Proof. intros. by apply (writes_bind c k [] bs). Qed.

Lemma writes_ret : writes (st_ret tt) [].
Proof. intros buffer. by rewrite app_nil_r. Qed.

Lemma writes_bind_ret c bs : writes c bs -> writes (c ;;; st_ret tt) bs.
Proof. intros H. rewrite <-(app_nil_r bs). apply writes_bind; [done | apply writes_ret]. Qed.

Lemma need_alloc_nonneg `{CodecLaws A c} a : wf c a -> 0 <= n_alloc (need c a).
Proof. intros Ha. apply (deserialize_reads a Ha). Qed.

#[export] Program Instance unit_laws : CodecLaws unit_codec := {|
  wf _ := True; enc _ := []; need _ := need0
|}.
Next Obligation. intros. apply writes_ret. Qed.
Next Obligation. intros [] _. apply reads_ret. Qed.
Next Obligation. apply safe_ret. Qed.
Next Obligation. done. Qed.

#[export] Program Instance bool_laws : CodecLaws bool_codec := {|
  wf _ := True; enc b := [if b then 1 else 0]; need _ := need0
|}.
Next Obligation. intros. apply writes_extend. Qed.
Next Obligation.
  intros b _. unfold bool_codec, read_bool. simpl.
  replace [if b then 1 else 0] with (le_bytes 1 (if b then 1 else 0)) by by destruct b.
  eapply reads_bind_ret; [apply (@read_int_reads u8 _); by destruct b | by destruct b].
Qed.
Next Obligation. apply safe_read_bool. Qed.
Next Obligation. done. Qed.

#[export] Program Instance int_laws `{WireInt t} : CodecLaws (int_codec t) := {|
  wf v := int_min t <= v <= int_max t; enc v := le_bytes (int_bytes t) v; need _ := need0
|}.
Next Obligation. intros. apply write_int_writes. Qed.
Next Obligation. intros. by apply read_int_reads. Qed.
Next Obligation. intros. apply safe_read_int. Qed.
Next Obligation. intros. simpl. lia. Qed.

#[export] Program Instance char_laws : CodecLaws char_codec := {|
  wf c := is_scalar c = true; enc c := unit_bytes (encode_utf16 c); need _ := need0
|}.
Next Obligation. intros. by apply write_char_writes. Qed.
Next Obligation. intros. by apply read_char_reads. Qed.
Next Obligation. apply safe_read_char. Qed.
Next Obligation. done. Qed.

#[export] Program Instance string_laws `{Utf8Validator} : CodecLaws string_codec := {|
  wf := wire_str; enc := string_bytes; need := need_str
|}.
Next Obligation. intros. by apply write_string_writes. Qed.
Next Obligation. intros. by apply read_string_reads. Qed.
Next Obligation. intros. apply safe_read_string. Qed.
Next Obligation. done. Qed.

(** *** Options *)

Lemma need_seq_0_l n :
  0 <= n_str n -> 0 <= n_items n -> 0 <= n_depth n -> need_seq need0 n = n.
Proof. destruct n. unfold need_seq. simpl. intros. f_equal; lia. Qed.

Definition enc_option {A} (c : Codec A) `{CodecLaws A c} (d : A) (o : option A) : list Z :=
  le_bytes 4 (match o with Some _ => 1 | None => 0 end) ++ enc c (default d o).

#[export] Program Instance option_laws {A} (c : Codec A) `{CodecLaws A c} d sz
    (Hd : wf c d) (Hsz : 0 <= sz) : CodecLaws (option_codec c d sz) := {|
  wf o := from_option (wf c) True o;
  enc := enc_option c d;
  need o := need_seq need0 (need c (default d o))
|}.
Next Obligation.
  intros A c H d sz Hd Hsz [a|] Hw;
    (apply writes_bind; [apply write_int_writes | by apply serialize_writes]).
Qed.
Next Obligation.
  intros A c H d sz Hd Hsz o Hw. eapply reads_bind; [by apply (@read_int_reads i32 _); destruct o |].
  destruct o as [a|]; simpl; eapply reads_bind_ret; by try apply deserialize_reads.
Qed.
Next Obligation.
  intros. apply safe_bind; [apply safe_read_int | intros v].
  repeat apply safe_if; auto with catga;
    (apply safe_bind; [apply deserialize_safe | auto with catga]).
Qed.
Next Obligation. done. Qed.

Lemma string_bytes_head s :
  wire_str s -> exists x rest, string_bytes s = le_bytes 4 x ++ rest
    /\ int_min i32 <= x <= int_max i32 /\ x <> -1.
Proof.
  intros [_ Hl]. destruct s as [|a s].
  - exists 0, []. by rewrite app_nil_r.
  - unfold string_bytes. eexists _, _. split; [done |].
    unfold Z.lnot. cbn [String.length] in *. int_bounds. lia.
Qed.

Lemma reads_peek_string `{Utf8Validator} s :
  wire_str s ->
  reads (deserialize_nullable_string) (string_bytes s) (need_str s) (Some s).
Proof.
  intros Hs. destruct (string_bytes_head s Hs) as (x & tl & E & Hx & Hne).
  destruct (read_string_reads s Hs) as [Hn Hread]. split; [done |].
  intros r rest Hr Hw. rewrite E, <-app_assoc in Hr. unfold deserialize_nullable_string.
  assert (within r need0) as Hw0.
  { destruct Hw as (l & ? & Hw). exists l. split; [done |]. simpl in *. lia. }
  erewrite st_bind_ok by (apply (proj2 (@read_int_reads i32 _ x Hx) r _ Hr Hw0)).
  destruct (Z.eqb_spec x (-1)); [done |].
  assert (rewind 4 (consume r (length (le_bytes (int_bytes i32) x)) (n_alloc need0)) = (Ok tt, r)).
  { unfold rewind, consume, set_pos. rewrite length_le_bytes. destruct r as [f p l al dp].
    cbn [pos frame limits allocated_bytes nesting_depth].
    change (int_bytes i32) with 4%nat. destruct (Nat.leb_spec 4 (p + 4)); [| lia].
    do 2 f_equal; simpl; lia. }
  erewrite st_bind_ok by done. erewrite st_bind_ok; [done |].
  apply (Hread r rest); [by rewrite E, <-app_assoc | done].
Qed.

#[export] Program Instance nullable_string_laws `{Utf8Validator} :
    CodecLaws nullable_string_codec := {|
  wf o := from_option wire_str True o;
  enc o := from_option string_bytes (le_bytes 4 (-1)) o;
  need o := from_option need_str need0 o
|}.
Next Obligation. intros ? [s|] Hs; [by apply write_string_writes | apply write_int_writes]. Qed.
Next Obligation.
  intros ? [s|] Hs; [by apply reads_peek_string |].
  eapply reads_bind_ret; [by apply (@read_int_reads i32 _) | done].
Qed.
Next Obligation.
  intros. unfold nullable_string_codec, deserialize_nullable_string, read_i32. simpl. safe_tac.
Qed.
Next Obligation. done. Qed.

(** *** Collections *)

Definition need_items {A} (c : Codec A) `{CodecLaws A c} (l : list A) : Need :=
  foldr (fun a n => need_seq (need c a) n) need0 l.

Definition enc_items {A} (c : Codec A) `{CodecLaws A c} (l : list A) : list Z := l ≫= enc c.

(** The budget of a collection header: the item count and the bytes reserved. *)
Definition need_header (bytes items : Z) : Need :=
  need_seq need0 (need_seq (mkNeed 0 0 items 0) (need_alloc bytes)).

Section items.
Context {A} (c : Codec A) `{CodecLaws A c}.

Lemma serialize_items_writes l :
  Forall (wf c) l -> writes (serialize_items c l) (enc_items c l).
Proof.
  induction 1 as [|a l Ha _ IH]; [apply writes_ret |].
  apply writes_bind; [by apply serialize_writes | done].
Qed.

Lemma deserialize_items_reads l :
  Forall (wf c) l ->
  reads (deserialize_items c (length l)) (enc_items c l) (need_items c l) l.
Proof.
  induction 1 as [|a l Ha _ IH]; [apply reads_ret |].
  eapply reads_bind; [by apply deserialize_reads |].
  by eapply reads_bind_ret.
Qed.

Lemma safe_deserialize_items n : safe (deserialize_items c n).
Proof.
  induction n; simpl; [apply safe_ret |].
  apply safe_bind; [apply deserialize_safe | intros a].
  apply safe_bind; [done | auto with catga].
Qed.

Lemma header_writes n :
  Z.of_nat n <= int_max i32 -> writes (write_collection_header n) (le_bytes 4 (Z.of_nat n)).
Proof.
  intros Hn. eapply writes_lift; [| apply write_int_writes].
  unfold checked_i32_length. rewrite checked_fits; [done | int_bounds; lia].
Qed.

Lemma reserve_collection_reads n :
  0 <= n -> n * size_of c <= int_max usize ->
  reads (reserve_collection c n) [] (need_alloc (n * size_of c)) tt.
Proof.
  intros Hn Hb. pose proof (size_of_nonneg (c := c)). unfold reserve_collection.
  rewrite checked_fits by (int_bounds; nia).
  eapply reads_ext; [| apply reserve_reads; nia]. done.
Qed.

Lemma safe_reserve_collection n : safe (reserve_collection c n).
Proof.
  apply safe_lift_bind. intros b Hb%ok_or_checked_nonneg. by apply safe_reserve.
Qed.

Lemma serialize_vec_writes l :
  Z.of_nat (length l) <= int_max i32 -> Forall (wf c) l ->
  writes (serialize_vec c l) (le_bytes 4 (Z.of_nat (length l)) ++ enc_items c l).
Proof.
  intros. apply writes_bind; [by apply header_writes | by apply serialize_items_writes].
Qed.

(** Reading a header and then continuing with a positive item count. *)
Lemma header_reads {B} n (k : Z -> M Reader B) (z : M Reader B) bs m b :
  0 < n <= int_max i32 -> reads (k n) bs m b ->
  reads (let! size := read_i32 in
         let! capacity := validate_collection_len size in
         match capacity with None => z | Some capacity => k capacity end)
    (le_bytes 4 n ++ bs) (need_seq need0 (need_seq (mkNeed 0 0 n 0) m)) b.
Proof.
  intros Hn Hk. eapply reads_bind; [apply (@read_int_reads i32 _); int_bounds; lia |].
  eapply reads_check; [apply validate_collection_reads; lia | done].
Qed.

Lemma empty_header_reads {B} (k : Z -> M Reader B) (b : B) :
  reads (let! size := read_i32 in
         let! capacity := validate_collection_len size in
         match capacity with None => st_ret b | Some capacity => k capacity end)
    (le_bytes 4 0) need0 b.
Proof. eapply reads_bind_ret; [by apply (@read_int_reads i32 _) | done]. Qed.

Lemma safe_header {B} (k : Z -> M Reader B) (z : M Reader B) :
  (forall n, safe (k n)) -> safe z ->
  safe (let! size := read_i32 in
        let! capacity := validate_collection_len size in
        match capacity with None => z | Some capacity => k capacity end).
Proof.
  intros Hk Hz. apply safe_bind; [apply safe_read_int | intros n].
  apply safe_bind; [apply safe_validate_collection_len | intros [m|]]; auto.
Qed.

(** [i32] counts and item sizes that fit in memory. *)
Definition wf_vec (l : list A) : Prop :=
  Z.of_nat (length l) <= int_max i32 /\ Z.of_nat (length l) * size_of c <= int_max usize
  /\ Forall (wf c) l.

Definition need_vec (l : list A) : Need :=
  match l with
  | [] => need0
  | _ => need_seq need0 (need_seq (mkNeed 0 0 (Z.of_nat (length l)) 0)
           (need_seq (need_alloc (Z.of_nat (length l) * size_of c)) (need_items c l)))
  end.

#[export] Program Instance vec_laws : CodecLaws (vec_codec c) := {|
  wf := wf_vec;
  enc l := le_bytes 4 (Z.of_nat (length l)) ++ enc_items c l;
  need := need_vec
|}.
Next Obligation. intros l (? & _ & ?). by apply serialize_vec_writes. Qed.
Next Obligation.
  intros l (Hl & Hb & Hw). destruct l as [|a l]; [apply empty_header_reads |].
  set (al := a :: l) in *. assert (0 < Z.of_nat (length al)) by (simpl; lia).
  apply (header_reads (Z.of_nat (length al))); [lia |].
  eapply reads_check; [apply reserve_collection_reads; lia |].
  rewrite Nat2Z.id. by apply deserialize_items_reads.
Qed.
Next Obligation.
  apply safe_header; [intros n | apply safe_ret].
  apply safe_bind; [apply safe_reserve_collection | intros; apply safe_deserialize_items].
Qed.
Next Obligation. done. Qed.

Definition need_linked_list (l : list A) : Need :=
  match l with
  | [] => need0
  | _ => need_seq need0 (need_seq (mkNeed 0 0 (Z.of_nat (length l)) 0) (need_items c l))
  end.

#[export] Program Instance linked_list_laws : CodecLaws (linked_list_codec c) := {|
  wf l := Z.of_nat (length l) <= int_max i32 /\ Forall (wf c) l;
  enc l := le_bytes 4 (Z.of_nat (length l)) ++ enc_items c l;
  need := need_linked_list
|}.
Next Obligation. intros l [? ?]. by apply serialize_vec_writes. Qed.
Next Obligation.
  intros l (Hl & Hw). destruct l as [|a l]; [apply empty_header_reads |].
  set (al := a :: l) in *. assert (0 < Z.of_nat (length al)) by (simpl; lia).
  apply (header_reads (Z.of_nat (length al)) (fun n => deserialize_items c (Z.to_nat n))); [lia |].
  rewrite Nat2Z.id. by apply deserialize_items_reads.
Qed.
Next Obligation.
  apply (safe_header (fun n => deserialize_items c (Z.to_nat n)));
    [intros n; apply safe_deserialize_items | apply safe_ret].
Qed.
Next Obligation. done. Qed.

(** A fixed array of positive length; the empty array is not readable back. *)
#[export] Program Instance array_laws N (HN : (0 < N)%nat) : CodecLaws (array_codec c N) := {|
  wf l := length l = N /\ wf_vec l;
  enc l := le_bytes 4 (Z.of_nat (length l)) ++ enc_items c l;
  need l := need_seq need0 (need_seq (mkNeed 0 0 (Z.of_nat (length l)) 0)
              (need_seq (need_alloc (Z.of_nat (length l) * size_of c)) (need_items c l)))
|}.
Next Obligation.
  intros N HN l (HlN & Hl & _ & Hw). eapply writes_lift.
  - rewrite checked_fits; [done | int_bounds; lia].
  - apply writes_bind; [apply write_int_writes | by apply serialize_items_writes].
Qed.
Next Obligation.
  intros N HN l (HlN & Hl & Hb & Hw).
  apply (header_reads (Z.of_nat (length l))); [lia |].
  rewrite HlN, Z.eqb_refl. cbn [negb].
  eapply reads_check; [apply reserve_collection_reads; rewrite HlN in *; lia |].
  rewrite <-HlN. by apply deserialize_items_reads.
Qed.
Next Obligation.
  intros N HN. apply safe_header; [intros n | apply safe_throw].
  apply safe_if; [apply safe_throw |].
  apply safe_bind; [apply safe_reserve_collection | intros; apply safe_deserialize_items].
Qed.
Next Obligation. intros. simpl. pose proof (size_of_nonneg (c := c)). nia. Qed.
End items.

Section nullable_vec.
Context {A} (c : Codec A) `{CodecLaws A c}.

Definition need_nullable_vec (o : option (list A)) : Need :=
  match o with
  | None => need0
  | Some l =>
    need_seq need0 (need_seq (mkNeed 0 0 (Z.of_nat (length l)) 0)
      (need_seq (need_alloc (Z.of_nat (length l) * size_of c)) (need_items c l)))
  end.

Lemma validate_collection_any n :
  0 <= n -> exists cap, reads (validate_collection_len n) [] (mkNeed 0 0 n 0) cap
    /\ default 0 cap = n.
Proof.
  intros Hn. destruct (decide (n = 0)) as [->|].
  - exists None. split; [| done]. split; [done |]. intros. simpl. by rewrite consume_0.
  - exists (Some n). split; [apply validate_collection_reads; lia | done].
Qed.

Lemma deserialize_nullable_vec_reads l :
  wf_vec c l ->
  reads (deserialize_nullable_vec c)
    (le_bytes 4 (Z.of_nat (length l)) ++ enc_items c l) (need_nullable_vec (Some l)) (Some l).
Proof.
  intros (Hl & Hb & Hw).
  eapply reads_bind; [apply (@read_int_reads i32 _); int_bounds; lia |].
  destruct (Z.eqb_spec (Z.of_nat (length l)) (-1)); [lia |].
  destruct (Z.ltb_spec (Z.of_nat (length l)) 0); [lia |].
  destruct (validate_collection_any (Z.of_nat (length l))) as (cap & Hcap & Hd); [lia |].
  eapply reads_check; [done |]. rewrite Hd.
  eapply reads_check; [apply (reserve_collection_reads _); lia |].
  eapply reads_bind_ret; [| done]. rewrite Nat2Z.id. by apply deserialize_items_reads.
Qed.

#[export] Program Instance nullable_vec_laws : CodecLaws (nullable_vec_codec c) := {|
  wf o := from_option (wf_vec c) True o;
  enc o := from_option (fun l => le_bytes 4 (Z.of_nat (length l)) ++ enc_items c l)
             (le_bytes 4 (-1)) o;
  need := need_nullable_vec
|}.
Next Obligation.
  intros [l|]; [intros (? & _ & ?); by apply serialize_vec_writes |].
  intros _. apply write_int_writes.
Qed.
Next Obligation.
  intros [l|]; [by apply deserialize_nullable_vec_reads |].
  intros _. eapply reads_bind_ret; [by apply (@read_int_reads i32 _) | done].
Qed.
Next Obligation.
  apply safe_bind; [apply safe_read_int | intros n]. repeat apply safe_if; auto with catga.
  apply safe_bind; [apply safe_validate_collection_len | intros cap].
  apply safe_bind; [apply (safe_reserve_collection _) | intros _].
  apply safe_bind; [apply (safe_deserialize_items _) | auto with catga].
Qed.
Next Obligation. done. Qed.
End nullable_vec.

(** *** Tuples and maps *)

#[export] Program Instance pair_laws {A B} (c : Codec A) (d : Codec B) `{CodecLaws A c}
    `{CodecLaws B d} : CodecLaws (pair_codec c d) := {|
  wf p := wf c (fst p) /\ wf d (snd p);
  enc p := enc c (fst p) ++ enc d (snd p);
  need p := need_seq (need c (fst p)) (need d (snd p))
|}.
Next Obligation.
  intros A B c d Hc Hd [a b] [? ?]. apply writes_bind; by apply serialize_writes.
Qed.
Next Obligation.
  intros A B c d Hc Hd [a b] [? ?].
  eapply reads_bind; [by apply deserialize_reads |].
  eapply reads_bind_ret; [by apply deserialize_reads | done].
Qed.
Next Obligation.
  intros. apply safe_bind; [apply deserialize_safe | intros a].
  apply safe_bind; [apply deserialize_safe | auto with catga].
Qed.
Next Obligation.
  intros A B c d Hc Hd. simpl.
  pose proof (size_of_nonneg (c := c)). pose proof (size_of_nonneg (c := d)). lia.
Qed.

Section maps.
Context {K V} `{MapIter K} (c : Codec K) (d : Codec V) `{CodecLaws K c} `{CodecLaws V d}.

Lemma insert_all_list_to_map (l : list (K * V)) m :
  NoDup l.*1 -> insert_all l m = list_to_map l ∪ m.
Proof.
  revert m. induction l as [|[k v] l IH]; intros m Hnd; cbn [insert_all list_to_map foldr].
  - by rewrite (left_id_L ∅ (∪)).
  - apply NoDup_cons in Hnd as [Hk Hnd]. rewrite (IH _ Hnd). simpl.
    by rewrite <-insert_union_l, insert_union_r by (by apply not_elem_of_list_to_map_1).
Qed.

(** Whatever order the map yields its entries in, inserting them back gives the map. *)
Lemma insert_all_iter (m : gmap K V) : insert_all (iter m) ∅ = m.
Proof.
  rewrite insert_all_list_to_map by apply iter_nodup. rewrite (right_id_L ∅ (∪)).
  rewrite <-(list_to_map_to_list m) at 2.
  apply list_to_map_proper; [apply iter_nodup | apply iter_perm].
Qed.

Definition wf_map (m : gmap K V) : Prop := wf_vec (pair_codec c d) (iter m).

#[export] Program Instance map_laws : CodecLaws (map_codec c d) := {|
  wf := wf_map;
  enc m := le_bytes 4 (Z.of_nat (size m)) ++ enc_items (pair_codec c d) (iter m);
  need m := need_vec (pair_codec c d) (iter m)
|}.
Next Obligation.
  intros m Hm. unfold map_codec, serialize_map. cbn [serialize].
  rewrite <-iter_length. destruct Hm as (? & _ & ?). by apply serialize_vec_writes.
Qed.
Next Obligation.
  intros m (Hl & Hb & Hw). rewrite <-iter_length. rewrite <-(insert_all_iter m) at 4.
  destruct (iter m) as [|e l]; [apply empty_header_reads |].
  set (al := e :: l) in *. assert (0 < Z.of_nat (length al)) by (simpl; lia).
  apply (header_reads (Z.of_nat (length al))); [lia |].
  eapply reads_check; [apply (reserve_collection_reads _); lia |].
  eapply reads_bind_ret; [| done]. rewrite Nat2Z.id. by apply deserialize_items_reads.
Qed.
Next Obligation.
  apply safe_header; [intros n | apply safe_ret].
  apply safe_bind; [apply (safe_reserve_collection _) | intros].
  apply safe_bind; [apply (safe_deserialize_items _) | auto with catga].
Qed.
Next Obligation. done. Qed.
End maps.

(** *** Objects and enums *)

(** The budget inside an object, plus one level of nesting. *)
Definition need_object (n : Need) : Need :=
  mkNeed (n_alloc n) (n_str n) (n_items n) (1 + n_depth n).

Section objects.
Context {F} (count : Z) (fields : Codec F) `{CodecLaws F fields}.
Hypothesis Hcount : 0 <= count <= 255.

Lemma object_body_reads f :
  wf fields f ->
  reads (object_body count fields) (le_bytes 1 count ++ enc fields f)
    (need_seq need0 (need fields f)) f.
Proof.
  intros Hf. eapply reads_bind; [apply (@read_int_reads u8 _); by int_bounds |].
  rewrite Z.eqb_refl. by apply deserialize_reads.
Qed.

Lemma deserialize_object_reads f :
  wf fields f ->
  reads (deserialize_object count fields) (le_bytes 1 count ++ enc fields f)
    (need_object (need_seq need0 (need fields f))) f.
Proof.
  intros Hf. destruct (object_body_reads f Hf) as [Hn Hb]. split; [done |].
  intros r rest Hr (l & Hl & Hw). simpl in Hw. unfold deserialize_object, enter_object.
  unfold st_bind. rewrite Hl, checked_fits by (int_bounds; lia).
  destruct (Z.ltb_spec (max_nesting_depth l) (nesting_depth r + 1)); [lia |].
  rewrite (Hb (set_depth r (nesting_depth r + 1)) rest Hr).
  - unfold leave_object, consume, set_depth. simpl. do 2 f_equal. lia.
  - exists l. split; [done |]. simpl. lia.
Qed.

Lemma safe_deserialize_object : safe (deserialize_object count fields).
Proof.
  intros r Hr. pose proof Hr as [Hp (l & Hl & Ha & Hd)].
  unfold deserialize_object, enter_object, st_bind. rewrite Hl.
  destruct (checked usize _) as [n|] eqn:E; [| by apply preserved_refl].
  apply checked_Some in E as [-> _].
  destruct (Z.ltb_spec (max_nesting_depth l) (nesting_depth r + 1)); [by apply preserved_refl |].
  assert (safe (object_body count fields)) as Hs.
  { apply safe_bind; [apply safe_read_int | intros n].
    apply safe_if; [apply safe_throw | apply deserialize_safe]. }
  assert (reader_inv (set_depth r (nesting_depth r + 1))) as Hi.
  { split; [done |]. exists l. simpl. repeat split; [done | lia..]. }
  specialize (Hs _ Hi). destruct (object_body _ _ _) as [res r'].
  destruct Hs as [[Hp' (l' & Hl' & Ha' & Hd')] Hf' Hlm' Hdp' Hal']. simpl in *.
  split; simpl; [| done | done | lia | done].
  split; [done |]. exists l'. simpl. repeat split; [done | lia..].
Qed.

(** An object's laws, for conversions [fields_of]/[of_fields] that undo each other on
    well-formed values. *)
Program Definition object_laws {A} (fields_of : A -> F) (of_fields : F -> A) sz
    (Hsz : 0 <= sz) (Hinv : forall a, of_fields (fields_of a) = a)
    : CodecLaws (object_codec count fields fields_of of_fields sz) := {|
  wf a := wf fields (fields_of a);
  enc a := le_bytes 1 count ++ enc fields (fields_of a);
  need a := need_object (need_seq need0 (need fields (fields_of a)))
|}.
Next Obligation.
  intros A fo off sz Hsz Hinv a Ha.
  apply writes_bind; [apply write_int_writes | by apply serialize_writes].
Qed.
Next Obligation.
  intros A fo off sz Hsz Hinv a Ha.
  eapply reads_bind_ret; [by apply deserialize_object_reads |]. intros r. by rewrite Hinv.
Qed.
Next Obligation.
  intros. apply safe_bind; [apply safe_deserialize_object | auto with catga].
Qed.
Next Obligation. done. Qed.
End objects.

Program Definition enum_laws {A} (as_u8 : A -> Z) (of_u8 : Z -> option A) name
    (Hinv : forall a, of_u8 (as_u8 a) = Some a /\ 0 <= as_u8 a <= 255)
    : CodecLaws (enum_codec as_u8 of_u8 name) := {|
  wf _ := True; enc a := le_bytes 1 (as_u8 a); need _ := need0
|}.
Next Obligation. intros. apply write_int_writes. Qed.
Next Obligation.
  intros A as_u8 of_u8 name Hinv a _. destruct (Hinv a) as [Ha Hb].
  eapply reads_bind_ret; [apply (@read_int_reads u8 _); by int_bounds |].
  intros r. by rewrite Ha.
Qed.
Next Obligation.
  intros. apply safe_bind; [apply safe_read_int | intros v]. case_match; auto with catga.
Qed.
Next Obligation. done. Qed.

(** ** Whole frames *)

(** The limits [l] admit a frame of [bytes] whose value needs [n]. *)
Record covers (l : MemoryPackDecodeLimits) (bytes : nat) (n : Need) : Prop := {
  cov_frame : Z.of_nat bytes <= max_frame_bytes l;
  cov_frame_word : max_frame_bytes l <= int_max usize;
  cov_alloc : n_alloc n <= max_allocation_bytes l;
  cov_alloc_word : max_allocation_bytes l <= int_max usize;
  cov_str : n_str n <= max_string_bytes l;
  cov_items : n_items n <= max_collection_items l;
  cov_depth : n_depth n <= max_nesting_depth l;
  cov_depth_word : max_nesting_depth l <= int_max usize
}.

#[global] Instance covers_dec l b n : Decision (covers l b n).
Proof.
  refine (cast_if (decide (Z.of_nat b <= max_frame_bytes l /\ max_frame_bytes l <= int_max usize
    /\ n_alloc n <= max_allocation_bytes l /\ max_allocation_bytes l <= int_max usize
    /\ n_str n <= max_string_bytes l /\ n_items n <= max_collection_items l
    /\ n_depth n <= max_nesting_depth l /\ max_nesting_depth l <= int_max usize)));
    abstract (split || intros []; intuition).
Defined.

Section frames.
Context {A} (c : Codec A) `{CodecLaws A c}.

Lemma serialize_frame_enc a : wf c a -> serialize_frame c a = Ok (enc c a).
Proof. intros Ha. unfold serialize_frame. by rewrite (serialize_writes a Ha []). Qed.

(** Decoding a frame that starts with a value stops right after it. *)
Lemma deserialize_prefix a rest l :
  wf c a -> covers l (length (enc c a ++ rest)) (need c a) ->
  new_bounded (enc c a ++ rest) l = Ok (mkReader (enc c a ++ rest) 0 (Some l) 0 0)
  /\ deserialize c (mkReader (enc c a ++ rest) 0 (Some l) 0 0)
     = (Ok a, mkReader (enc c a ++ rest) (length (enc c a)) (Some l) (n_alloc (need c a)) 0).
Proof.
  intros Ha Hc. split.
  - unfold new_bounded. destruct (Z.ltb_spec (max_frame_bytes l)
      (Z.of_nat (length (enc c a ++ rest)))); [destruct Hc; lia | done].
  - rewrite (proj2 (deserialize_reads a Ha) _ rest); [done | done |].
    destruct Hc. exists l. split; [done |]. simpl. lia.
Qed.

Lemma deserialize_bounded_enc a l :
  wf c a -> covers l (length (enc c a)) (need c a) ->
  deserialize_bounded c (enc c a) l = Ok a.
Proof.
  intros Ha Hc. destruct (deserialize_prefix a [] l Ha) as [Hn Hd];
    rewrite ?app_nil_r in *; [done |].
  unfold deserialize_bounded. rewrite Hn. cbn [rbind]. rewrite Hd. cbn [pos].
  by rewrite Nat.eqb_refl.
Qed.

Lemma deserialize_bounded_trailing a x rest l :
  wf c a -> covers l (length (enc c a ++ x :: rest)) (need c a) ->
  deserialize_bounded c (enc c a ++ x :: rest) l = Err TrailingBytes.
Proof.
  intros Ha Hc. destruct (deserialize_prefix a _ l Ha Hc) as [Hn Hd].
  unfold deserialize_bounded. rewrite Hn. cbn [rbind]. rewrite Hd. cbn [pos].
  destruct (Nat.eqb_spec (length (enc c a)) (length (enc c a ++ x :: rest))) as [E|]; [|done].
  rewrite length_app in E. simpl in E. lia.
Qed.

Lemma new_bounded_inv data l r :
  0 <= max_allocation_bytes l -> 0 <= max_nesting_depth l ->
  new_bounded data l = Ok r -> reader_inv r /\ frame r = data /\ limits r = Some l.
Proof.
  intros Ha Hd. unfold new_bounded. case_match; [done |]. intros. simplify_eq/=.
  repeat split; [simpl; lia | eexists; simpl; split; [done |]; lia].
Qed.

Lemma serialize_into_frame a output :
  serialize_into c a output
  = match serialize_frame c a with Ok b => (Ok tt, b) | Err e => (Err e, []) end.
Proof.
  unfold serialize_into, serialize_frame, from_reusable_buffer. rewrite take_0.
  by destruct (serialize c a []) as [[[]|e] b].
Qed.
End frames.

(** ** Rejected frames *)

(** Under the limits [l], input that starts with [bs] makes [c] fail with [e]. *)
Definition rejects {A} (l : MemoryPackDecodeLimits) (c : M Reader A) (bs : list Z) (n : Need)
    (e : MemoryPackError) : Prop :=
  0 <= n_alloc n /\
  forall r rest, remaining r = bs ++ rest -> within r n -> limits r = Some l ->
    fst (c r) = Err e.

Lemma rejects_first {A B} l (c : M Reader A) (k : A -> M Reader B) bs n e :
  rejects l c bs n e -> rejects l (st_bind c k) bs n e.
Proof.
  intros [Hn Hc]. split; [done |]. intros r rest Hr Hw Hl. specialize (Hc r rest Hr Hw Hl).
  unfold st_bind. destruct (c r) as [[a|e'] r']; simpl in *; congruence.
Qed.

Lemma rejects_then {A B} l (c : M Reader A) (k : A -> M Reader B) bs1 bs2 m n a e :
  reads c bs1 m a -> rejects l (k a) bs2 n e ->
  rejects l (st_bind c k) (bs1 ++ bs2) (need_seq m n) e.
Proof.
  intros [Hm Hc] [Hn Hk]. split; [simpl; lia |]. intros r rest Hr Hw Hl.
  rewrite <-app_assoc in Hr.
  destruct (within_seq r m n bs1 (bs2 ++ rest) Hr Hm Hn Hw) as [Hw1 Hw2].
  unfold st_bind. rewrite (Hc r _ Hr Hw1).
  apply (Hk _ rest); [by eapply remaining_consume | done | done].
Qed.

Lemma rejects_object {F} l count (fields : Codec F) bs n e :
  0 <= count <= 255 -> rejects l (deserialize fields) bs n e ->
  rejects l (deserialize_object count fields) (le_bytes 1 count ++ bs)
    (need_object (need_seq need0 n)) e.
Proof.
  intros Hcount Hf.
  assert (rejects l (object_body count fields) (le_bytes 1 count ++ bs) (need_seq need0 n) e)
    as [Hn Hb].
  { eapply rejects_then; [apply (@read_int_reads u8 _); by int_bounds |]. by rewrite Z.eqb_refl. }
  split; [done |]. intros r rest Hr (l0 & Hl0 & Hw) Hl. replace l0 with l in * by congruence. simpl in Hw.
  unfold deserialize_object, enter_object, st_bind. rewrite Hl, checked_fits by (int_bounds; lia).
  destruct (Z.ltb_spec (max_nesting_depth l) (nesting_depth r + 1)); [lia |].
  specialize (Hb (set_depth r (nesting_depth r + 1)) rest Hr).
  destruct (object_body _ _ _) as [res r']. simpl in *. apply Hb; [| done].
  exists l. split; [done |]. simpl. lia.
Qed.

Lemma vec_too_many {A} (c : Codec A) l n rest :
  0 <= max_collection_items l < n -> n <= int_max i32 ->
  rejects l (deserialize (vec_codec c)) (le_bytes 4 n ++ rest) need0
    (LimitExceeded "collection items" (max_collection_items l)).
Proof.
  intros Hn Hi. apply rejects_then with (m := need0) (n := need0) (a := n);
    [apply (@read_int_reads i32 _); int_bounds; lia |].
  split; [done |]. intros r rest' _ _ Hl. unfold st_bind, validate_collection_len. rewrite Hl.
  destruct (Z.eqb_spec n (-1)), (Z.eqb_spec n 0), (Z.ltb_spec n 0),
    (Z.ltb_spec (max_collection_items l) n); try lia. done.
Qed.

(** A frame whose bytes are rejected does not decode. *)
Lemma decode_rejected {A} (c : Codec A) l data n e :
  rejects l (deserialize c) data n e -> covers l (length data) n -> deserialize_bounded c data l = Err e.
Proof.
  intros [_ Hrej] Hc. unfold deserialize_bounded, new_bounded.
  destruct (Z.ltb_spec (max_frame_bytes l) (Z.of_nat (length data))); [destruct Hc; lia |].
  cbn [rbind]. set (r0 := mkReader data 0 (Some l) 0 0). specialize (Hrej r0 []).
  destruct (deserialize c r0) as [res r']. cbn [fst] in Hrej.
  rewrite Hrej; [done | by rewrite app_nil_r | | done].
  destruct Hc. exists l. split; [done |]. simpl in *. lia.
Qed.

(** ** Properties *)

(** A frame round-trips: for every codec that satisfies the laws and every
    value the wire format can carry, encoding succeeds, and decoding the frame
    under any limits that cover the value returns the value. *)
Theorem frame_roundtrip {A} (c : Codec A) `{CodecLaws A c} a l :
  wf c a -> covers l (length (enc c a)) (need c a) ->
  exists bytes, serialize_frame c a = Ok bytes /\ deserialize_bounded c bytes l = Ok a.
Proof.
  intros Ha Hc. exists (enc c a).
  by split; [apply serialize_frame_enc | apply deserialize_bounded_enc].
Qed.

(** A frame is decoded exactly: a valid frame with any extra bytes after it
    is refused with [TrailingBytes]. *)
Theorem frame_trailing {A} (c : Codec A) `{CodecLaws A c} a x rest l :
  wf c a -> covers l (length (enc c a ++ x :: rest)) (need c a) ->
  exists bytes, serialize_frame c a = Ok bytes
    /\ deserialize_bounded c (bytes ++ x :: rest) l = Err TrailingBytes.
Proof.
  intros Ha Hc. exists (enc c a).
  by split; [apply serialize_frame_enc | apply deserialize_bounded_trailing].
Qed.

(** Decoding is safe on arbitrary bytes: whatever a peer sends, every codec
    that satisfies the laws keeps its cursor inside the frame, reserves no more
    than the allocation budget in total, and leaves every object it entered,
    whether decoding succeeds or fails. *)
Theorem decode_safe {A} (c : Codec A) `{CodecLaws A c} data l r :
  0 <= max_allocation_bytes l -> 0 <= max_nesting_depth l -> new_bounded data l = Ok r ->
  let r' := snd (deserialize c r) in
  frame r' = data /\ (pos r' <= length data)%nat
  /\ 0 <= allocated_bytes r' <= max_allocation_bytes l /\ nesting_depth r' = 0.
Proof.
  intros Ha Hd Hn. pose proof (new_bounded_inv data l r Ha Hd Hn) as (Hi & Hf & Hl).
  destruct (deserialize_safe (c := c) r Hi) as [[Hp (l' & Hl' & Ha' & _)] Hf' Hlm Hdp _].
  assert (l' = l) as -> by congruence.
  assert (nesting_depth r = 0) as Hz.
  { unfold new_bounded in Hn. destruct (max_frame_bytes l <? _); by inversion Hn. }
  cbv zeta. rewrite Hf', Hdp, Hz. rewrite Hf', Hf in Hp. by rewrite Hf.
Qed.

(** A hash map round-trips whatever order its entries are enumerated in:
    the sender and the receiver may use different enumerations. *)
Theorem hash_map_roundtrip {K V} `{Countable K} (send recv : MapIter K)
    (c : Codec K) (d : Codec V) `{CodecLaws K c} `{CodecLaws V d} (m : gmap K V) l :
  wf_map (H0 := send) c d m ->
  covers l (length (enc (map_codec (H0 := send) c d) m)) (need (map_codec (H0 := send) c d) m) ->
  exists bytes, serialize_frame (map_codec (H0 := send) c d) m = Ok bytes
    /\ deserialize_bounded (map_codec (H0 := recv) c d) bytes l = Ok m.
Proof.
  intros Hm Hc. exists (enc (map_codec (H0 := send) c d) m).
  split; [by apply serialize_frame_enc |].
  change (deserialize_bounded (map_codec (H0 := recv) c d))
    with (deserialize_bounded (map_codec (H0 := send) c d)).
  by apply (deserialize_bounded_enc (map_codec (H0 := send) c d)).
Qed.

(** [serialize_into] returns what a fresh frame would hold whatever the
    reused buffer held before, and an empty buffer when encoding fails, so no
    partial frame survives an error. *)
Theorem serialize_into_spec {A} (c : Codec A) a output :
  match serialize_frame c a with
  | Ok bytes => serialize_into c a output = (Ok tt, bytes)
  | Err e => serialize_into c a output = (Err e, [])
  end.
Proof. rewrite serialize_into_frame. by destruct (serialize_frame c a). Qed.

Definition demo_codec := pair_codec (vec_codec string_codec) (nullable_vec_codec (int_codec u16)).
Definition demo_value : list string * option (list Z) := (["a"; "bc"], Some [1; 65535])%string.

Lemma demo_wf : wf demo_codec demo_value.
Proof.
  split; cbn.
  - split; [vm_compute; congruence |]. split; [vm_compute; congruence |].
    repeat constructor; vm_compute; congruence.
  - split; [vm_compute; congruence |]. split; [vm_compute; congruence |].
    repeat constructor; vm_compute; congruence.
Defined.

Lemma frame_roundtrip_witness :
  exists bytes, serialize_frame demo_codec demo_value = Ok bytes
    /\ deserialize_bounded demo_codec bytes Limits_default = Ok demo_value.
Proof.
  apply (frame_roundtrip demo_codec); [exact demo_wf |].
  apply (bool_decide_unpack _). vm_compute. exact I.
Defined.

Lemma frame_trailing_witness :
  exists bytes, serialize_frame demo_codec demo_value = Ok bytes
    /\ deserialize_bounded demo_codec (bytes ++ [0]) Limits_default = Err TrailingBytes.
Proof.
  apply (frame_trailing demo_codec demo_value 0 []); [exact demo_wf |].
  apply (bool_decide_unpack _). vm_compute. exact I.
Defined.

Lemma decode_safe_witness :
  let r := mkReader [255; 255; 255; 127] 0 (Some Limits_default) 0 0 in
  let r' := snd (deserialize demo_codec r) in
  frame r' = [255; 255; 255; 127] /\ (pos r' <= 4)%nat
  /\ 0 <= allocated_bytes r' <= 1048576 /\ nesting_depth r' = 0.
Proof.
  apply (decode_safe demo_codec [255; 255; 255; 127] Limits_default);
    [vm_compute; congruence | vm_compute; congruence | reflexivity].
Defined.

Lemma hash_map_roundtrip_witness :
  let rev_iter : MapIter string := {| iter V m := reverse (map_to_list m);
    iter_perm V m := reverse_Permutation _ |} in
  let m := <["k"%string := 5]> (<["q"%string := 6]> ∅) in
  exists bytes,
    serialize_frame (map_codec (H0 := rev_iter) string_codec (int_codec i32)) m = Ok bytes
    /\ deserialize_bounded (map_codec string_codec (int_codec i32)) bytes Limits_default = Ok m.
Proof.
  intros rev_iter m.
  apply (hash_map_roundtrip rev_iter (map_to_list_iter string) string_codec (int_codec i32) m).
  - split; [vm_compute; congruence |]. split; [vm_compute; congruence |].
    repeat constructor; vm_compute; congruence.
  - apply (bool_decide_unpack _). vm_compute. exact I.
Defined.
