(* ===== verification/EnvelopeCodec.v ===== *)
(** * The envelope and error wire records ([codec/memorypack/envelope.rs],
    [codec/memorypack/api.rs], [error.rs])

    Transport envelopes and remote failures as MemoryPack frames: the wire
    records, their conversions to and from the domain types, and the codec a
    transport uses. *)

From stdpp Require Import pretty.
From S2P Require Import Prelude Utf8 Errors Time Messages Wire Codec.

(** A typed RPC payload: a value or a structured remote failure. *)
Inductive MemoryPackRpcResponse (T : Type) :=
| Success (value : T)
| Failure (error : CatgaError).
Arguments Success {T} value.
Arguments Failure {T} error.

Section wire.
Context `{Utf8Validator}.

(** ** Enumerations *)

Definition qos_as_u8 (q : QualityOfService) : Z :=
  match q with AtMostOnce => 0 | AtLeastOnce => 1 | ExactlyOnce => 2 end.
Definition qos_of_u8 (v : Z) : option QualityOfService :=
  match v with
  | 0 => Some AtMostOnce | 1 => Some AtLeastOnce | 2 => Some ExactlyOnce | _ => None
  end.
Definition qos_codec := enum_codec qos_as_u8 qos_of_u8 "quality of service".

Definition mode_as_u8 (d : DeliveryMode) : Z :=
  match d with WaitForResult => 0 | AsyncRetry => 1 end.
Definition mode_of_u8 (v : Z) : option DeliveryMode :=
  match v with 0 => Some WaitForResult | 1 => Some AsyncRetry | _ => None end.
Definition mode_codec := enum_codec mode_as_u8 mode_of_u8 "delivery mode".

Definition priority_as_u8 (p : MessagePriority) : Z :=
  match p with Low => 0 | Normal => 1 | High => 2 | Critical => 3 end.
Definition priority_of_u8 (v : Z) : option MessagePriority :=
  match v with
  | 0 => Some Low | 1 => Some Normal | 2 => Some High | 3 => Some Critical | _ => None
  end.
Definition priority_codec := enum_codec priority_as_u8 priority_of_u8 "message priority".

(** ** Wire records *)

Record HeaderWire := mkHeaderWire { hw_key : string; hw_value : string }.

Record EnvelopeWire := mkEnvelopeWire {
  w_id : Z;
  w_message_type : string;
  w_payload : list Z;
  w_message_id : Z;
  w_correlation_id : option Z;
  w_quality_of_service : QualityOfService;
  w_delivery_mode : DeliveryMode;
  w_priority : MessagePriority;
  w_not_before_unix_ms : option Z;
  w_schema_version : Z;
  w_reply_to : option string;
  w_headers : list HeaderWire;
  w_sent_at_unix_ms : option Z
}.

Definition header_wire_codec : Codec HeaderWire :=
  object_codec 2 (pair_codec string_codec string_codec)
    (fun h => (hw_key h, hw_value h)) (fun p => mkHeaderWire (fst p) (snd p)) 48.

Definition opt_u64_codec : Codec (option Z) := option_codec (int_codec u64) 0 16.
Definition opt_string_codec : Codec (option string) := option_codec string_codec EmptyString 24.

(** The thirteen fields in declaration order. *)
Definition envelope_fields :=
  pair_codec (int_codec u64)
 (pair_codec string_codec
 (pair_codec (vec_codec (int_codec u8))
 (pair_codec (int_codec u64)
 (pair_codec opt_u64_codec
 (pair_codec qos_codec
 (pair_codec mode_codec
 (pair_codec priority_codec
 (pair_codec opt_u64_codec
 (pair_codec (int_codec u32)
 (pair_codec opt_string_codec
 (pair_codec (vec_codec header_wire_codec)
   opt_u64_codec))))))))))).

Definition envelope_wire_fields (w : EnvelopeWire) :=
  (w_id w, (w_message_type w, (w_payload w, (w_message_id w, (w_correlation_id w,
  (w_quality_of_service w, (w_delivery_mode w, (w_priority w, (w_not_before_unix_ms w,
  (w_schema_version w, (w_reply_to w, (w_headers w, w_sent_at_unix_ms w)))))))))))).

Definition envelope_wire_of_fields
  (f : Z * (string * (list Z * (Z * (option Z * (QualityOfService * (DeliveryMode *
       (MessagePriority * (option Z * (Z * (option string * (list HeaderWire * option Z))))))))))))
  : EnvelopeWire :=
  let '(i, (mt, (pl, (mi, (ci, (q, (d, (p, (nb, (sv, (rt, (hs, sa)))))))))))) := f in
  mkEnvelopeWire i mt pl mi ci q d p nb sv rt hs sa.

Definition envelope_wire_codec : Codec EnvelopeWire :=
  object_codec 13 envelope_fields envelope_wire_fields envelope_wire_of_fields 208.

(** [impl From<&Envelope> for EnvelopeWire] *)
Definition EnvelopeWire_from (e : Envelope) : EnvelopeWire :=
  mkEnvelopeWire (env_id e) (message_type e) (payload e) (message_id (metadata e))
    (correlation_id (metadata e)) (quality_of_service (metadata e))
    (delivery_mode (metadata e)) (priority (metadata e)) (not_before_unix_ms (metadata e))
    (schema_version e) (reply_to e)
    (map (fun h => mkHeaderWire (hkey h) (hvalue h)) (envelope_headers e))
    (sent_at_unix_ms e).

(** [impl TryFrom<EnvelopeWire> for Envelope]; [now] is the clock reading
    [Envelope::versioned] takes before the wire timestamp replaces it. *)
Definition Envelope_try_from (wire : EnvelopeWire) (now : SystemTime) : CatgaResult Envelope :=
  let? hs := headers_try_new (map (fun h => (hw_key h, hw_value h)) (w_headers wire)) in
  let metadata :=
    with_not_before_unix_ms
      (with_priority
        (with_delivery_mode
          (with_quality_of_service
            (MessageMetadata_new (w_message_id wire) (w_correlation_id wire))
            (w_quality_of_service wire))
          (w_delivery_mode wire))
        (w_priority wire))
      (w_not_before_unix_ms wire) in
  let envelope :=
    with_sent_at_unix_ms
      (Envelope_versioned (w_id wire) (w_message_type wire) (w_payload wire) metadata
        (w_schema_version wire) now)
      (w_sent_at_unix_ms wire) in
  Ok (with_headers
        (match w_reply_to wire with
         | Some r => with_reply_to envelope r
         | None => envelope
         end) hs).

(** [impl EnvelopeCodec for MemoryPackCodec] *)
Definition envelope_encode (decode_limits : MemoryPackDecodeLimits) (e : Envelope)
    : CatgaResult (list Z) :=
  let? bytes := map_err map_memorypack_error
                  (serialize_frame envelope_wire_codec (EnvelopeWire_from e)) in
  if max_frame_bytes decode_limits <? Z.of_nat (length bytes)
  then fail Validation "MemoryPack envelope exceeds the configured frame limit"
  else Ok bytes.

Definition envelope_decode (decode_limits : MemoryPackDecodeLimits) (bytes : list Z)
    (now : SystemTime) : CatgaResult Envelope :=
  let? wire := map_err map_memorypack_error
                 (deserialize_bounded envelope_wire_codec bytes decode_limits) in
  Envelope_try_from wire now.

(** ** Remote failures *)

Record CatgaErrorWire := mkErrorWire {
  ew_code : Z;
  ew_message : string;
  ew_details : option string;
  ew_retryable : bool
}.

Definition error_wire_codec : Codec CatgaErrorWire :=
  object_codec 4
    (pair_codec (int_codec u8) (pair_codec string_codec (pair_codec opt_string_codec bool_codec)))
    (fun w => (ew_code w, (ew_message w, (ew_details w, ew_retryable w))))
    (fun f => mkErrorWire (fst f) (fst (snd f)) (fst (snd (snd f))) (snd (snd (snd f)))) 56.

Definition CatgaErrorWire_from (e : CatgaError) : CatgaErrorWire :=
  mkErrorWire (encode_error_code (code e)) (message e) (details e) (is_retryable e).

Definition CatgaError_try_from (wire : CatgaErrorWire) : MPResult CatgaError :=
  let? code := ok_or (decode_error_code (ew_code wire))
    (DeserializationError ("invalid Catga error code: " +:+ pretty (ew_code wire))) in
  if negb (Bool.eqb (ew_retryable wire) (code_is_retryable code))
  then Err (DeserializationError "error retryability does not match its error code")
  else
    let error := CatgaError_new code (ew_message wire) in
    Ok (match ew_details wire with
        | Some d => with_details error d
        | None => error
        end).

Definition rpc_response_codec {T} (c : Codec T) (sz : Z) : Codec (MemoryPackRpcResponse T) :=
  mkCodec
    (fun self =>
       match self with
       | Success value => write_u8 0 ;;; serialize c value
       | Failure error =>
           write_u8 1 ;;; serialize error_wire_codec (CatgaErrorWire_from error)
       end)
    (let! tag := read_u8 in
     if tag =? 0 then let! v := deserialize c in st_ret (Success v)
     else if tag =? 1 then
       let! wire := deserialize error_wire_codec in
       let! error := st_lift (CatgaError_try_from wire) in st_ret (Failure error)
     else st_throw (DeserializationError
       ("invalid MemoryPack RPC response tag: " +:+ pretty tag)))
    sz.

(** ** Laws of the wire records *)

#[export] Instance qos_laws : CodecLaws qos_codec.
Proof. apply enum_laws. intros []; simpl; split; (done || lia). Defined.
#[export] Instance mode_laws : CodecLaws mode_codec.
Proof. apply enum_laws. intros []; simpl; split; (done || lia). Defined.
#[export] Instance priority_laws : CodecLaws priority_codec.
Proof. apply enum_laws. intros []; simpl; split; (done || lia). Defined.

#[export] Instance header_wire_laws : CodecLaws header_wire_codec.
Proof. apply object_laws; [apply _ | done | done | by intros []]. Defined.

#[export] Instance opt_u64_laws : CodecLaws opt_u64_codec.
Proof. apply (option_laws (int_codec u64)); done. Defined.
#[export] Instance opt_string_laws : CodecLaws opt_string_codec.
Proof. by apply (option_laws string_codec). Defined.

#[export] Instance envelope_fields_laws : CodecLaws envelope_fields.
Proof. unfold envelope_fields. apply _. Defined.

#[export] Instance envelope_wire_laws : CodecLaws envelope_wire_codec.
Proof. apply object_laws; [apply _ | done | done | by intros []]. Defined.

#[export] Instance error_wire_laws : CodecLaws error_wire_codec.
Proof. apply object_laws; [apply _ | done | done | by intros []]. Defined.

(** ** Envelopes *)

Definition wf_u64 (v : Z) : Prop := int_min u64 <= v <= int_max u64.
Abbreviation wf_opt P := (from_option P True).

(** The envelopes the public constructors can build out of well-typed parts. *)
Record wf_envelope (e : Envelope) : Prop := {
  we_id : wf_u64 (env_id e);
  we_type : wire_str (message_type e);
  we_payload : Z.of_nat (length (payload e)) <= int_max i32
    /\ Forall (fun b => 0 <= b <= 255) (payload e);
  we_message_id : wf_u64 (message_id (metadata e));
  we_correlation : wf_opt wf_u64 (correlation_id (metadata e));
  we_not_before : wf_opt wf_u64 (not_before_unix_ms (metadata e));
  we_version : int_min u32 <= schema_version e <= int_max u32;
  we_reply : wf_opt wire_str (reply_to e);
  we_headers : valid_headers (envelope_headers e)
    /\ Forall (fun h => wire_str (hkey h) /\ wire_str (hvalue h)) (envelope_headers e)
    /\ headers e <> Some [];
  we_sent : wf_opt wf_u64 (sent_at_unix_ms e)
}.

Lemma EnvelopeWire_from_wf e : wf_envelope e -> wf envelope_wire_codec (EnvelopeWire_from e).
Proof.
  intros [Hid Hty [Hpl Hb] Hmi Hci Hnb Hsv Hrt (Hv & Hh & _) Hsa].
  destruct Hv as [Hc _ _ _].
  repeat split; simpl; try done; try apply Hid; try apply Hmi; try apply Hsv; try apply Hty.
  - change (Z.of_nat (int_bytes u8)) with 1. int_bounds. lia.
  - rewrite length_map. unfold MAX_ENVELOPE_HEADERS in Hc. int_bounds. lia.
  - rewrite length_map. unfold MAX_ENVELOPE_HEADERS in Hc. int_bounds. lia.
  - apply Forall_map. by eapply Forall_impl; [exact Hh |].
Qed.

Lemma header_wire_roundtrip hs :
  mk_headers (map (fun h => (hw_key h, hw_value h))
    (map (fun h => mkHeaderWire (hkey h) (hvalue h)) hs)) = hs.
Proof. rewrite map_map. simpl. apply mk_headers_id. Qed.

Lemma Envelope_try_from_from e now :
  wf_envelope e -> Envelope_try_from (EnvelopeWire_from e) now = Ok e.
Proof.
  intros He. destruct (we_headers e He) as (Hv & _ & Hne). unfold Envelope_try_from.
  rewrite headers_try_new_valid; simpl; rewrite header_wire_roundtrip; [| done].
  destruct e as [i mt pl [mi ci q d p nb] sa sv rt [[|h hs]|]]; by destruct rt.
Qed.

Lemma envelope_encode_enc l e :
  wf_envelope e ->
  Z.of_nat (length (enc envelope_wire_codec (EnvelopeWire_from e))) <= max_frame_bytes l ->
  envelope_encode l e = Ok (enc envelope_wire_codec (EnvelopeWire_from e)).
Proof.
  intros He Hl. unfold envelope_encode. rewrite (serialize_frame_enc envelope_wire_codec) by by apply EnvelopeWire_from_wf.
  cbn [map_err rbind]. destruct (Z.ltb_spec (max_frame_bytes l)
    (Z.of_nat (length (enc envelope_wire_codec (EnvelopeWire_from e))))); [lia | done].
Qed.

Lemma envelope_roundtrip_raw l e now :
  wf_envelope e ->
  covers l (length (enc envelope_wire_codec (EnvelopeWire_from e)))
    (need envelope_wire_codec (EnvelopeWire_from e)) ->
  exists bytes, envelope_encode l e = Ok bytes /\ envelope_decode l bytes now = Ok e.
Proof.
  intros He Hc. eexists. split; [apply envelope_encode_enc; [done | apply Hc] |].
  unfold envelope_decode. rewrite (deserialize_bounded_enc envelope_wire_codec);
    [| by apply EnvelopeWire_from_wf | done].
  by apply Envelope_try_from_from.
Qed.

(** Whatever the bytes are, an envelope that decodes carries headers within every limit. *)
Lemma envelope_decode_headers l bytes now e :
  envelope_decode l bytes now = Ok e -> valid_headers (envelope_headers e).
Proof.
  unfold envelope_decode. intros H1. inv_ok H1. unfold Envelope_try_from in Hk. inv_ok Hk.
  apply headers_try_new_ok in Hr0 as [_ Hv]. simplify_eq.
  destruct (w_reply_to a), a0; done.
Qed.

(** *** Rejected frames *)

(** The budget the fields before the payload take. *)
Definition need_before_payload (e : Envelope) : Need :=
  need_object (need_seq need0 (need_seq need0 (need_seq (need_str (message_type e)) need0))).

Lemma oversized_payload_decode l e now :
  wf_envelope e ->
  covers l (length (enc envelope_wire_codec (EnvelopeWire_from e))) (need_before_payload e) ->
  0 <= max_collection_items l < Z.of_nat (length (payload e)) ->
  exists bytes, envelope_encode l e = Ok bytes
    /\ envelope_decode l bytes now
       = Err (map_memorypack_error (LimitExceeded "collection items" (max_collection_items l))).
Proof.
  intros He Hc Hpl. eexists. split; [apply envelope_encode_enc; [done | apply Hc] |].
  unfold envelope_decode. erewrite decode_rejected; [done | | exact Hc].
  apply rejects_first, rejects_object; [done |]. unfold envelope_fields.
  eapply rejects_then; [apply (@read_int_reads u64 _), He |].
  apply rejects_first. eapply rejects_then; [apply read_string_reads, He |].
  apply rejects_first, rejects_first.
  cbn [enc pair_laws vec_laws fst snd envelope_wire_fields EnvelopeWire_from w_payload].
  rewrite <-app_assoc. apply vec_too_many; [done | apply He].
Qed.

(** ** Failures *)

(** Errors built by [CatgaError::new] and [with_details] from valid text. *)
Record wf_error (e : CatgaError) : Prop := {
  wfe_message : wire_str (message e);
  wfe_details : wf_opt (fun d => wire_str d
    /\ (String.length d <= MAX_ERROR_DETAILS_BYTES)%nat) (details e);
  wfe_retryable : retryable e = Some (code_is_retryable (code e))
}.

Lemma bounded_details_short d :
  wire_str d -> (String.length d <= MAX_ERROR_DETAILS_BYTES)%nat -> bounded_details d = d.
Proof. intros [Hv _] Hl. by apply (trunc_short _ _ _ (bounded_details_ok d Hv)). Qed.

Lemma CatgaErrorWire_from_wf e : wf_error e -> wf error_wire_codec (CatgaErrorWire_from e).
Proof.
  intros [Hm Hd _]. pose proof (encode_error_code_range (code e)).
  repeat split; simpl; try apply Hm; try (int_bounds; lia).
  destruct (details e) as [d|]; [apply Hd | done].
Qed.

Lemma CatgaError_roundtrip e :
  wf_error e -> CatgaError_try_from (CatgaErrorWire_from e) = Ok e.
Proof.
  intros [Hm Hd Hr]. unfold CatgaError_try_from, CatgaErrorWire_from, is_retryable.
  cbn [ew_code ew_retryable ew_message ew_details].
  rewrite decode_encode_error_code, Hr. cbn [ok_or rbind].
  rewrite Bool.eqb_reflx. cbn [negb]. f_equal. destruct e as [c m [d|] r]; simpl in *; subst; [| done].
  unfold with_details. simpl. destruct Hd. by rewrite bounded_details_short.
Qed.

(** A retryability override is not carried: the record is refused. *)
Lemma CatgaError_override_rejected e :
  is_retryable e <> code_is_retryable (code e) ->
  CatgaError_try_from (CatgaErrorWire_from e)
  = Err (DeserializationError "error retryability does not match its error code").
Proof.
  intros Hne. unfold CatgaError_try_from. simpl. rewrite decode_encode_error_code. simpl.
  by rewrite (proj2 (Bool.eqb_false_iff _ _) Hne).
Qed.

Definition rpc_wf {T} (c : Codec T) `{CodecLaws T c} (x : MemoryPackRpcResponse T) : Prop :=
  match x with Success v => wf c v | Failure e => wf_error e end.
Definition rpc_enc {T} (c : Codec T) `{CodecLaws T c} (x : MemoryPackRpcResponse T) : list Z :=
  match x with
  | Success v => le_bytes 1 0 ++ enc c v
  | Failure e => le_bytes 1 1 ++ enc error_wire_codec (CatgaErrorWire_from e)
  end.
Definition rpc_need {T} (c : Codec T) `{CodecLaws T c} (x : MemoryPackRpcResponse T) : Need :=
  match x with
  | Success v => need_seq need0 (need c v)
  | Failure e => need_seq need0 (need error_wire_codec (CatgaErrorWire_from e))
  end.

#[export] Program Instance rpc_laws {T} (c : Codec T) `{CodecLaws T c} sz (Hsz : 0 <= sz) :
    CodecLaws (rpc_response_codec c sz) := {|
  wf := rpc_wf c; enc := rpc_enc c; need := rpc_need c
|}.
Next Obligation.
  intros T c Hc sz Hsz [v|e] Hw; (apply writes_bind; [apply write_int_writes |]).
  - by apply serialize_writes.
  - apply serialize_writes. by apply CatgaErrorWire_from_wf.
Qed.
Next Obligation.
  intros T c Hc sz Hsz [v|e] Hw;
    (eapply reads_bind; [by apply (@read_int_reads u8 _) |]).
  - eapply reads_bind_ret; [by apply deserialize_reads | done].
  - change (1 =? 0) with false. change (1 =? 1) with true. cbv iota.
    eapply reads_bind_ret; [by apply deserialize_reads, CatgaErrorWire_from_wf |].
    intros r. unfold st_bind, st_lift. by rewrite CatgaError_roundtrip.
Qed.
Next Obligation.
  intros. apply safe_bind; [apply safe_read_int | intros tag]. repeat apply safe_if.
  - apply safe_bind; [apply deserialize_safe | auto with catga].
  - apply safe_bind; [apply deserialize_safe | intros wire]. safe_tac.
  - auto with catga.
Qed.
Next Obligation. done. Qed.

End wire.

(** ** Properties *)

(** An envelope round-trips through the transport codec: every well-formed
    envelope whose budget the limits cover encodes, and the frame decodes to
    the same envelope (identifier, type, payload, metadata, schema version,
    reply address, headers in order and send time), whenever it is decoded. *)
Theorem envelope_roundtrip `{Utf8Validator} l e now :
  wf_envelope e ->
  covers l (length (enc envelope_wire_codec (EnvelopeWire_from e)))
    (need envelope_wire_codec (EnvelopeWire_from e)) ->
  exists bytes, envelope_encode l e = Ok bytes /\ envelope_decode l bytes now = Ok e.
Proof. apply envelope_roundtrip_raw. Qed.

(** An envelope decoded from arbitrary bytes carries at most 64 headers of
    8 KiB in total, with unique keys none of which is blank. *)
Theorem decoded_headers_valid `{Utf8Validator} l bytes now e :
  envelope_decode l bytes now = Ok e -> valid_headers (envelope_headers e).
Proof. apply envelope_decode_headers. Qed.

(** The outbound frame check does not imply that a peer with the same limits
    accepts the frame: an envelope whose payload has more bytes than the
    collection budget encodes, and is refused on decode. *)
Theorem oversized_payload_refused `{Utf8Validator} l e now :
  wf_envelope e ->
  covers l (length (enc envelope_wire_codec (EnvelopeWire_from e))) (need_before_payload e) ->
  0 <= max_collection_items l < Z.of_nat (length (payload e)) ->
  exists bytes, envelope_encode l e = Ok bytes
    /\ err_code (envelope_decode l bytes now) = Some Validation.
Proof.
  intros He Hc Hp. destruct (oversized_payload_decode l e now He Hc Hp) as (b & ? & Hd).
  exists b. by rewrite Hd.
Qed.

(** A failure round-trips through a typed RPC response: code, message,
    bounded details and retryability all survive; a success carries its value. *)
Theorem rpc_response_roundtrip `{Utf8Validator} {T} (c : Codec T) `{CodecLaws T c} sz
    (Hsz : 0 <= sz) (x : MemoryPackRpcResponse T) l :
  rpc_wf c x -> covers l (length (rpc_enc c x)) (rpc_need c x) ->
  exists bytes, serialize_frame (rpc_response_codec c sz) x = Ok bytes
    /\ deserialize_bounded (rpc_response_codec c sz) bytes l = Ok x.
Proof.
  intros Hw Hc. pose (L := rpc_laws c sz Hsz). exists (rpc_enc c x).
  split; [exact (serialize_frame_enc _ (H := L) x Hw) |].
  exact (deserialize_bounded_enc _ (H := L) x l Hw Hc).
Qed.

(** A failure whose retryability was overridden against its code is encoded,
    but its wire record is refused on arrival. *)
Theorem retry_override_refused e :
  is_retryable e <> code_is_retryable (code e) ->
  CatgaError_try_from (CatgaErrorWire_from e)
  = Err (DeserializationError "error retryability does not match its error code").
Proof. apply CatgaError_override_rejected. Qed.

Definition demo_envelope : Envelope :=
  mkEnvelope 7 "order.placed" [1; 2; 255]
    (mkMetadata 8 (Some 9) ExactlyOnce AsyncRetry High None)
    (Some 1700000000000) 2 (Some "replies"%string)
    (Some [mkHeader "tenant" "acme"; mkHeader "trace" ""]).

Lemma demo_envelope_wf : wf_envelope demo_envelope.
Proof.
  split.
  1-2: split; vm_compute; congruence.
  1: split; [vm_compute; congruence |]; repeat constructor; lia.
  1-5: vm_compute; split; congruence || exact I.
  2: vm_compute; split; congruence.
  - split; [apply (bool_decide_unpack _); vm_compute; exact I |].
    split; [| done]. repeat constructor; vm_compute; congruence.
Defined.

Lemma envelope_roundtrip_witness :
  exists bytes, envelope_encode Limits_default demo_envelope = Ok bytes
    /\ envelope_decode Limits_default bytes 0 = Ok demo_envelope.
Proof.
  apply envelope_roundtrip; [exact demo_envelope_wf |].
  apply (bool_decide_unpack _). vm_compute. exact I.
Defined.

Lemma decoded_headers_valid_witness :
  exists bytes e, envelope_decode Limits_default bytes 0 = Ok e
    /\ valid_headers (envelope_headers e) /\ length (envelope_headers e) = 2%nat.
Proof.
  exists (enc envelope_wire_codec (EnvelopeWire_from demo_envelope)), demo_envelope.
  assert (envelope_decode Limits_default
    (enc envelope_wire_codec (EnvelopeWire_from demo_envelope)) 0 = Ok demo_envelope) as E
    by (vm_compute; reflexivity).
  split; [exact E |]. split; [exact (decoded_headers_valid _ _ _ _ E) | reflexivity].
Defined.

Definition tight_limits : MemoryPackDecodeLimits := mkLimits 4096 4096 1024 2 8.

Lemma oversized_payload_refused_witness :
  exists bytes, envelope_encode tight_limits demo_envelope = Ok bytes
    /\ err_code (envelope_decode tight_limits bytes 0) = Some Validation.
Proof.
  apply oversized_payload_refused; [exact demo_envelope_wf | | vm_compute; split; congruence].
  apply (bool_decide_unpack _). vm_compute. exact I.
Defined.

Lemma rpc_response_roundtrip_witness :
  let x := Failure (with_details (CatgaError_new Timeout "slow") "after 3s") in
  exists bytes, serialize_frame (rpc_response_codec bool_codec 80) x = Ok bytes
    /\ deserialize_bounded (rpc_response_codec bool_codec 80) bytes Limits_default = Ok x.
Proof.
  intros x. apply (rpc_response_roundtrip bool_codec 80); [lia | |].
  - split; vm_compute; repeat split; congruence || lia.
  - apply (bool_decide_unpack _). vm_compute. exact I.
Defined.

Lemma retry_override_refused_witness :
  let e := mkCatgaError Validation "bad" None (Some true) in
  CatgaError_try_from (CatgaErrorWire_from e)
  = Err (DeserializationError "error retryability does not match its error code").
Proof. apply retry_override_refused. discriminate. Defined.
