(* ===== verification/EnvelopeLimits.v ===== *)
(** * Envelopes within the limits of a transport ([codec/memorypack/envelope.rs],
    [codec/memorypack/codec.rs], [codec/memorypack/reader.rs])

    What the codec of [EnvelopeCodec] promises in the terms of envelopes and limits alone: a
    frame decodes to the envelope it was made from whenever the parts of the envelope are
    within the receiver's limits, and a frame of arbitrary bytes cannot make the decoder keep
    more than its allocation budget.  [spends] follows the budget through a decoder, the way
    [reads] and [safe] follow its result and its cursor. *)

From S2P Require Import Prelude Utf8 Errors Time Messages Wire Codec EnvelopeCodec.

(** ** What a decoder has reserved

    [spends m Q]: when [m] returns [a], it has reserved [n] bytes with [Q a n]. *)

Definition on_bytes (r : Reader) : Prop :=
  is_Some (limits r) /\ Forall (fun b => is_byte b = true) (frame r).

Definition spends {A} (m : M Reader A) (Q : A -> Z -> Prop) : Prop :=
  forall r a r', on_bytes r -> m r = (Ok a, r') ->
    on_bytes r' /\ Q a (allocated_bytes r' - allocated_bytes r).

Lemma spends_weaken {A} (m : M Reader A) (Q Q' : A -> Z -> Prop) :
  spends m Q -> (forall a n, Q a n -> Q' a n) -> spends m Q'.
Proof. intros Hm Hq r a r' Hr E. destruct (Hm r a r' Hr E). eauto. Qed.

Lemma spends_ret {A} (a : A) (Q : A -> Z -> Prop) : Q a 0 -> spends (st_ret a) Q.
Proof. intros Hq r a' r' Hr [= <- <-]. split; [done |]. by rewrite Z.sub_diag. Qed.

Lemma spends_throw {A} e (Q : A -> Z -> Prop) : spends (st_throw e) Q.
Proof. intros r a r' _ [=]. Qed.

Lemma spends_lift {A} (x : MPResult A) (Q : A -> Z -> Prop) : (forall a, x = Ok a -> Q a 0) -> spends (st_lift x) Q.
Proof. intros Hq r a r' Hr [= -> <-]. split; [done |]. rewrite Z.sub_diag. auto. Qed.

Lemma spends_bind {A B} (m : M Reader A) (k : A -> M Reader B) (Q : A -> Z -> Prop) (Q' : B -> Z -> Prop) :
  spends m Q -> (forall a n, Q a n -> spends (k a) (fun b n' => Q' b (n + n'))) -> spends (st_bind m k) Q'.
Proof.
  intros Hm Hk r b r' Hr. unfold st_bind. destruct (m r) as [[a|e] r1] eqn:E; [| done]. intros Ek.
  destruct (Hm r a r1 Hr E) as [Hr1 Hq]. destruct (Hk a _ Hq r1 b r' Hr1 Ek) as [Hr' Hq']. split; [done |].
  by replace (allocated_bytes r' - allocated_bytes r)
    with (allocated_bytes r1 - allocated_bytes r + (allocated_bytes r' - allocated_bytes r1)) by lia.
Qed.

(** Nothing is reserved. *)
Definition free {A} (_ : A) (n : Z) : Prop := n = 0.

Lemma spends_free {A B} (m : M Reader A) (k : A -> M Reader B) (Q : B -> Z -> Prop) :
  spends m free -> (forall a, spends (k a) Q) -> spends (st_bind m k) Q.
Proof. intros Hm Hk. eapply spends_bind; [exact Hm |]. intros a n ->. eapply spends_weaken; [apply Hk | done]. Qed.

Lemma spends_read_int t : spends (read_int t) free.
Proof.
  unfold read_int. eapply (spends_bind _ _ free).
  - intros r bs r' [Hl Hb]. unfold read_exact. destruct (Nat.eqb _ _); [| done]. intros [= <- <-].
    split; [by split | unfold free; simpl; lia].
  - intros bs n ->. by apply spends_ret.
Qed.

Lemma spends_reserve n : spends (reserve_allocation n) (fun _ m => m = n).
Proof.
  intros r [] r' [[l Hl] Hb]. unfold reserve_allocation. rewrite Hl.
  destruct (checked usize _) as [next|] eqn:Ec; [| done]. apply checked_Some in Ec as [-> _].
  destruct (_ <? _); [done |]. intros [= <-]. split; [split; [by exists l | done] | simpl; lia].
Qed.

Lemma spends_validate_string n : spends (validate_string_bytes n) (fun _ m => m = n).
Proof.
  intros r a r' Hr. unfold validate_string_bytes. destruct (limits r); [| by apply spends_reserve].
  destruct (_ <? _); [done |]. by apply spends_reserve.
Qed.

Lemma spends_read_bytes n :
  0 <= n -> spends (read_bytes n) (fun bs m => m = 0 /\ Z.of_nat (length bs) = n /\ Forall (fun b => is_byte b = true) bs).
Proof.
  intros Hn r bs r' [Hl Hb]. unfold read_bytes. destruct (checked usize _) as [e|] eqn:Ec; [| done].
  apply checked_Some in Ec as [-> _]. destruct (Z.leb_spec (Z.of_nat (pos r) + n) (Z.of_nat (length (frame r)))); [| done].
  intros [= <- <-]. split; [by split |]. simpl. split_and!; [lia | rewrite length_take, length_drop; lia |].
  by apply Forall_take, Forall_drop.
Qed.

(** A sequence of 16-bit units is at most three times as many bytes of text. *)
Lemma utf16_loop_length units acc bs :
  Forall (fun u => u < 65536) units -> utf16_loop units acc = Ok bs ->
  (length bs <= length acc + 3 * length units)%nat.
Proof.
  enough (forall n units acc bs, (length units <= n)%nat -> Forall (fun u => u < 65536) units ->
    utf16_loop units acc = Ok bs -> (length bs <= length acc + 3 * length units)%nat) as H by eauto.
  clear. induction n as [|n IH]; intros [|u units] acc bs Hn Hu; simpl in *; try lia; [intros [= <-]; lia.. |].
  apply Forall_cons in Hu as [Hu Hus]. destruct (is_surrogate u); simpl.
  - destruct (is_high_surrogate u); [| done]. destruct units as [|low units]; [done |]. simpl in *.
    destruct (is_low_surrogate low); simpl; [| done]. destruct (char_from_u32 _) as [c|]; [| done].
    intros E%IH; [| lia | by apply Forall_cons in Hus as [_ ?]]. rewrite length_app in E.
    pose proof (encode_utf8_length c). lia.
  - unfold char_from_u32. destruct (is_scalar u); [| done]. intros E%IH; [| lia | done]. rewrite length_app in E.
    assert (length (encode_utf8 u) <= 3)%nat; [| lia]. unfold encode_utf8.
    destruct (u <? 128), (u <? 2048); simpl; try lia. rewrite (proj2 (Z.ltb_lt u 65536)) by lia. simpl. lia.
Qed.

Lemma u16_units_spec bs :
  Forall (fun b => is_byte b = true) bs ->
  (2 * length (u16_units bs) <= length bs)%nat /\ Forall (fun u => u < 65536) (u16_units bs).
Proof.
  enough (forall n bs, (length bs <= n)%nat -> Forall (fun b => is_byte b = true) bs ->
    (2 * length (u16_units bs) <= length bs)%nat /\ Forall (fun u => u < 65536) (u16_units bs)) as H by eauto.
  clear. induction n as [|n IH]; intros [|lo [|hi bs]] Hn Hb; simpl in *; try (split; [lia | apply Forall_nil_2]); [lia |].
  apply Forall_cons in Hb as [Hlo [Hhi Hb]%Forall_cons]. unfold is_byte in Hlo, Hhi. bool_prop.
  destruct (IH bs ltac:(lia) Hb). split; [lia |]. constructor; [lia | done].
Qed.

Lemma string_of_bytes_length bs : String.length (string_of_bytes bs) = length bs.
Proof. induction bs as [|b bs IH]; simpl; [done |]. by rewrite IH. Qed.

Section decoding.
Context `{Utf8Validator}.

(** A string has reserved at least its own length. *)
Lemma spends_string : spends read_string (fun s n => str_len s <= n).
Proof.
  apply spends_free; [apply spends_read_int |]. intros marker.
  destruct (marker =? -1); [by apply spends_ret |]. destruct (Z.ltb_spec marker 0) as [Hneg|Hpos].
  - assert (0 <= Z.lnot marker) as Hn by (unfold Z.lnot; lia). unfold read_utf8_string.
    eapply spends_bind; [apply spends_validate_string |]. intros _ n ->.
    apply spends_free; [apply spends_read_int |]. intros _. eapply spends_bind; [by apply spends_read_bytes |].
    intros bs n (-> & Hlen & Hb). apply spends_lift. intros s. rewrite (from_utf8_spec bs Hb).
    destruct (utf8_valid bs); [| done]. intros [= <-]. unfold str_len. rewrite string_of_bytes_length. lia.
  - destruct (marker =? 0); [by apply spends_ret |].
    assert (forall string_error alloc_error, spends
      (let! byte_count := st_lift (ok_or (checked usize (marker * 2)) string_error) in
       validate_string_bytes byte_count ;;;
       let! allocation := st_lift (ok_or (checked usize (marker * 3)) alloc_error) in
       reserve_allocation allocation ;;;
       let! slice := read_bytes byte_count in
       let! bs := st_lift (utf16_loop (u16_units slice) []) in
       st_ret (string_of_bytes bs)) (fun s n => str_len s <= n)) as Hbody; [| intros r a r'; apply Hbody].
    intros string_error alloc_error. eapply spends_bind; [apply (spends_lift _ (fun n m => m = 0 /\ n = marker * 2)) |].
    { intros n. destruct (checked usize _) eqn:Ec; [| done]. apply checked_Some in Ec as [-> _]. by intros [= <-]. }
    intros ? ? [-> ->]. eapply spends_bind; [apply spends_validate_string |]. intros _ n ->.
    eapply spends_bind; [apply (spends_lift _ (fun n m => m = 0 /\ n = marker * 3)) |].
    { intros n. destruct (checked usize _) eqn:Ec; [| done]. apply checked_Some in Ec as [-> _]. by intros [= <-]. }
    intros ? ? [-> ->]. eapply spends_bind; [apply spends_reserve |]. intros _ n ->.
    eapply spends_bind; [apply spends_read_bytes; lia |]. intros slice n (-> & Hlen & [Hu Hs]%u16_units_spec).
    eapply spends_bind; [apply (spends_lift _ (fun bs m => m = 0 /\ (length bs <= 3 * length (u16_units slice))%nat)) |].
    { intros bs E%utf16_loop_length; [| done]. done. }
    intros bs n [-> Hl]. apply spends_ret. unfold str_len. rewrite string_of_bytes_length. lia.
Qed.

(** ** Compound values *)

Lemma spends_pair {A B} (c : Codec A) (d : Codec B) Q Q' :
  spends (deserialize c) Q -> spends (deserialize d) Q' ->
  spends (deserialize (pair_codec c d)) (fun p n => exists m m', Q (fst p) m /\ Q' (snd p) m' /\ n = m + m').
Proof.
  intros Hc Hd. eapply spends_bind; [exact Hc |]. intros a m Ha. eapply spends_bind; [exact Hd |]. intros b m' Hb.
  apply spends_ret. exists m, m'. split_and!; [done | done | lia].
Qed.

Lemma spends_items {A} (c : Codec A) (f : A -> Z) n :
  spends (deserialize c) (fun a m => f a <= m) ->
  spends (deserialize_items c n) (fun l m => length l = n /\ sumZ f l <= m).
Proof.
  intros Hc. induction n as [|n IH]; [by apply spends_ret |]. cbn [deserialize_items].
  eapply spends_bind; [exact Hc |]. intros a m Ha. eapply spends_bind; [exact IH |]. intros l m' [Hl Hs].
  apply spends_ret. simpl in *. split; [by rewrite Hl | lia].
Qed.

(** A vector has reserved room for its items besides what they need themselves. *)
Lemma spends_vec {A} (c : Codec A) (f : A -> Z) :
  0 <= size_of c -> spends (deserialize c) (fun a m => f a <= m) ->
  spends (deserialize (vec_codec c)) (fun l m => Z.of_nat (length l) * size_of c + sumZ f l <= m).
Proof.
  intros Hsz Hc. apply spends_free; [apply spends_read_int |]. intros size.
  eapply (spends_bind _ _ (fun capacity m => m = 0 /\ from_option (fun n => n = size /\ 0 < size) True capacity)).
  { intros r a r' Hr. unfold validate_collection_len. destruct (Z.eqb_spec size (-1)), (Z.eqb_spec size 0); simpl;
      try (intros [= <- <-]; split; [done | split; [lia | done]]).
    destruct (Z.ltb_spec size 0); [done |]. destruct (limits r) as [l|]; [destruct (_ <? _); [done |] |];
      intros [= <- <-]; (split; [done | split; [lia | simpl; lia]]). }
  intros [n|] ? [-> Hn]; [destruct Hn as [-> Hpos] | by apply spends_ret].
  eapply (spends_bind _ _ (fun _ m => m = size * size_of c)).
  - eapply (spends_bind _ _ (fun bytes m => m = 0 /\ bytes = size * size_of c)).
    + apply spends_lift. intros bytes. destruct (checked usize _) eqn:Ec; [| done]. apply checked_Some in Ec as [-> _].
      by intros [= <-].
    + intros bytes m [-> ->]. apply spends_reserve.
  - intros _ m ->. eapply spends_weaken; [by apply (spends_items c f) |]. intros l m [Hl Hs]. rewrite Hl. lia.
Qed.

Lemma spends_option {A} (c : Codec A) d sz (f : A -> Z) :
  (forall a, 0 <= f a) -> spends (deserialize c) (fun a m => f a <= m) ->
  spends (deserialize (option_codec c d sz)) (fun o m => from_option f 0 o <= m).
Proof.
  intros Hf Hc. apply spends_free; [apply spends_read_int |]. intros flag.
  destruct (flag =? 0).
  { eapply spends_bind; [exact Hc |]. intros a m Ha. apply spends_ret. simpl in *. specialize (Hf a). lia. }
  destruct (flag =? 1); [| apply spends_throw]. eapply spends_bind; [exact Hc |]. intros a m Ha. apply spends_ret. simpl in *. lia.
Qed.

Lemma spends_object {A F} count (fields : Codec F) (fields_of : A -> F) of_fields sz Q :
  spends (deserialize fields) (fun x n => Q (of_fields x) n) ->
  spends (deserialize (object_codec count fields fields_of of_fields sz)) Q.
Proof.
  intros Hf. eapply (spends_bind _ _ (fun x n => Q (of_fields x) n)); [| intros x n Hq; apply spends_ret; by rewrite Z.add_0_r].
  unfold deserialize_object. eapply spends_free.
  { intros r a r' [[l Hl] Hb]. unfold enter_object. rewrite Hl. destruct (checked usize _); [| done].
    destruct (_ <? _); [done |]. intros [= <- <-]. split; [split; [by exists l | done] | unfold free; simpl; lia]. }
  intros _ r x r' Hr. destruct (object_body count fields r) as [y r1] eqn:E. intros [= -> <-].
  assert (spends (object_body count fields) (fun x n => Q (of_fields x) n)) as Hbody.
  { apply spends_free; [apply spends_read_int |]. intros received. destruct (negb _); [apply spends_throw | exact Hf]. }
  destruct (Hbody r x r1 Hr E) as [[Hl Hb] Hq]. split; [by split | exact Hq].
Qed.

Lemma spends_enum {A} (as_u8 : A -> Z) of_u8 name : spends (deserialize (enum_codec as_u8 of_u8 name)) free.
Proof.
  apply spends_free; [apply spends_read_int |]. intros v. destruct (of_u8 v); [by apply spends_ret | apply spends_throw].
Qed.
End decoding.

(** ** Envelopes *)

Section envelopes.
Context `{Utf8Validator}.

(** The text and payload bytes of an envelope *)
Definition envelope_size (e : Envelope) : Z :=
  str_len (message_type e) + Z.of_nat (length (payload e)) + from_option str_len 0 (reply_to e)
  + header_bytes (envelope_headers e).

Definition header_wire_size (h : HeaderWire) : Z := str_len (hw_key h) + str_len (hw_value h).

Definition wire_size (w : EnvelopeWire) : Z :=
  str_len (w_message_type w) + Z.of_nat (length (w_payload w)) + from_option str_len 0 (w_reply_to w)
  + sumZ header_wire_size (w_headers w).

Lemma spends_sum {A B} (c : Codec A) (d : Codec B) (f : A -> Z) (g : B -> Z) :
  spends (deserialize c) (fun a m => f a <= m) -> spends (deserialize d) (fun b m => g b <= m) ->
  spends (deserialize (pair_codec c d)) (fun p m => f (fst p) + g (snd p) <= m).
Proof.
  intros Hc Hd. eapply spends_weaken; [by apply spends_pair |]. intros p n (m & m' & H1 & H2 & ->). simpl in *. lia.
Qed.

Lemma spends_zero {A} (m : M Reader A) : spends m free -> spends m (fun _ n => 0 <= n).
Proof. intros Hm. eapply spends_weaken; [exact Hm |]. unfold free. intros. lia. Qed.

Lemma spends_text : spends (deserialize string_codec) (fun s n => str_len s <= n).
Proof. exact spends_string. Qed.

Lemma spends_header : spends (deserialize header_wire_codec) (fun h n => header_wire_size h <= n).
Proof.
  apply spends_object. eapply spends_weaken; [exact (spends_sum _ _ _ _ spends_text spends_text) |].
  intros [k v] n. done.
Qed.

Lemma spends_envelope : spends (deserialize envelope_wire_codec) (fun w n => wire_size w <= n).
Proof.
  assert (forall t, spends (deserialize (int_codec t)) (fun _ n => 0 <= n)) as Hint
    by (intros t; apply spends_zero, spends_read_int).
  assert (spends (deserialize opt_u64_codec) (fun _ n => 0 <= n)) as Hopt.
  { eapply spends_weaken; [by apply (spends_option (int_codec u64) 0 16 (fun _ => 0)) |]. intros [?|] n; done. }
  pose proof (spends_option string_codec EmptyString 24 str_len str_len_nonneg spends_text) as Hreply.
  pose proof (spends_vec (int_codec u8) (fun _ => 0) ltac:(done) (Hint u8)) as Hpayload.
  pose proof (spends_vec header_wire_codec header_wire_size ltac:(done) spends_header) as Hheaders.
  apply spends_object. eapply spends_weaken.
  - exact (spends_sum _ _ _ _ (Hint u64) (spends_sum _ _ _ _ spends_text (spends_sum _ _ _ _ Hpayload
      (spends_sum _ _ _ _ (Hint u64) (spends_sum _ _ _ _ Hopt (spends_sum _ _ _ _ (spends_zero _ (spends_enum _ _ _))
      (spends_sum _ _ _ _ (spends_zero _ (spends_enum _ _ _)) (spends_sum _ _ _ _ (spends_zero _ (spends_enum _ _ _))
      (spends_sum _ _ _ _ Hopt (spends_sum _ _ _ _ (Hint u32) (spends_sum _ _ _ _ Hreply
      (spends_sum _ _ _ _ Hheaders Hopt)))))))))))).
  - intros (i & mt & pl & mi & ci & q & d & p & nb & sv & rt & hs & sa) n. cbn [fst snd]. intros Hn.
    pose proof (sumZ_nonneg (fun _ : Z => 0) ltac:(done) pl). unfold wire_size. cbn [envelope_wire_of_fields w_message_type w_payload w_reply_to w_headers].
    change (size_of (int_codec u8)) with 1 in Hn. change (size_of header_wire_codec) with 48 in Hn. lia.
Qed.

Lemma sent_size wire now e :
  Envelope_try_from wire now = Ok e -> envelope_size e = wire_size wire /\ valid_headers (envelope_headers e).
Proof.
  unfold Envelope_try_from. intros He. inv_ok He. apply headers_try_new_ok in Hr as [-> Hv].
  assert (header_bytes (mk_headers (map (fun h => (hw_key h, hw_value h)) (w_headers wire)))
    = sumZ header_wire_size (w_headers wire)) as Hh.
  { clear. induction (w_headers wire) as [|h hs IH]; simpl; [done |]. rewrite IH. unfold header_wire_size. done. }
  simplify_eq. unfold envelope_size, wire_size. rewrite <- Hh.
  destruct (w_reply_to wire), (mk_headers _); simpl; done.
Qed.

(** C36: Decoding is safe on arbitrary bytes: whatever a peer sends, the reader of an envelope
    stays inside the frame, reserves no more than the allocation budget, and has left every
    object it entered, whether decoding succeeds or fails; a frame over the frame limit is
    refused unread.  An envelope that does decode took the whole frame; its message type,
    payload, reply address and headers together have at most as many bytes as were reserved,
    so at most the budget; and it has at most 64 headers of at most 8 KiB, with unique keys of
    which none is blank.  The limits are those a limits object can hold. *)
Theorem envelope_decode_safe l data now :
  Forall (fun b => is_byte b = true) data -> 0 <= max_allocation_bytes l -> 0 <= max_nesting_depth l ->
  let r' := snd (deserialize envelope_wire_codec (mkReader data 0 (Some l) 0 0)) in
  frame r' = data /\ (pos r' <= length data)%nat
  /\ 0 <= allocated_bytes r' <= max_allocation_bytes l /\ nesting_depth r' = 0
  /\ (max_frame_bytes l < Z.of_nat (length data) -> err_code (envelope_decode l data now) = Some Validation)
  /\ forall e, envelope_decode l data now = Ok e ->
       pos r' = length data /\ envelope_size e <= allocated_bytes r' /\ valid_headers (envelope_headers e).
Proof.
  intros Hb Ha Hd. set (r := mkReader data 0 (Some l) 0 0). cbv zeta.
  destruct (deserialize_safe (c := envelope_wire_codec) r) as [[Hp (l' & Hl' & Ha' & _)] Hf Hlm Hdp _].
  { split; simpl; [lia |]. exists l. simpl. split; [done | lia]. }
  rewrite Hlm in Hl'. injection Hl' as <-. rewrite Hf in Hp |- *. rewrite Hdp. cbn [r frame nesting_depth] in *.
  split_and!; try (done || lia).
  - intros Hlong. unfold envelope_decode, deserialize_bounded, new_bounded. by rewrite (proj2 (Z.ltb_lt _ _) Hlong).
  - intros e He. unfold envelope_decode, deserialize_bounded, new_bounded in He.
    destruct (max_frame_bytes l <? Z.of_nat (length data)); [done |]. cbn [rbind] in He. fold r in He.
    destruct (deserialize envelope_wire_codec r) as [[wire|err] r'] eqn:E; [| done]. simpl in *.
    destruct (Nat.eqb_spec (pos r') (length data)) as [Hpos|]; [| done]. simpl in He.
    destruct (spends_envelope r wire r') as [_ Hs]; [by split; [exists l |] | done |]. simpl in Hs.
    apply sent_size in He as [-> Hv]. split_and!; [done | lia | done].
Qed.
(** ** Envelopes that fit

    What the codec reserves for an envelope, and how long its frame can be *)
Definition envelope_reserved (e : Envelope) : Z :=
  envelope_size e + 48 * Z.of_nat (length (envelope_headers e)).

Definition envelope_frame_bound (e : Envelope) : Z :=
  envelope_size e + 17 * Z.of_nat (length (envelope_headers e)) + 88.

Definition envelope_texts (e : Envelope) : list string :=
  message_type e :: option_list (reply_to e)
  ++ (hkey <$> envelope_headers e) ++ (hvalue <$> envelope_headers e).

(** The envelope is within the limits, and these are machine words. *)
Record fits_limits (l : MemoryPackDecodeLimits) (e : Envelope) : Prop := {
  fl_frame : envelope_frame_bound e <= max_frame_bytes l <= int_max usize;
  fl_reserved : envelope_reserved e <= max_allocation_bytes l <= int_max usize;
  fl_texts : Forall (fun s => str_len s <= max_string_bytes l) (envelope_texts e);
  fl_payload : Z.of_nat (length (payload e)) <= max_collection_items l;
  fl_headers : Z.of_nat (length (envelope_headers e)) <= max_collection_items l;
  fl_depth : 2 <= max_nesting_depth l <= int_max usize
}.

Lemma string_bytes_length s : (length (string_bytes s) <= 8 + String.length s)%nat.
Proof.
  unfold string_bytes. destruct s as [|a s]; [rewrite length_le_bytes; lia |].
  rewrite !length_app, !length_le_bytes, length_bytes_of_string. lia.
Qed.

Abbreviation wire_headers e := (map (fun h => mkHeaderWire (hkey h) (hvalue h)) (envelope_headers e)).

Lemma payload_need p : need_items (int_codec u8) p = need0.
Proof. induction p as [|b p IH]; simpl; [done |]. by rewrite IH. Qed.

Lemma headers_need l hs :
  Forall (fun s => str_len s <= l) ((hkey <$> hs) ++ (hvalue <$> hs)) -> 0 <= l ->
  let n := need_items header_wire_codec (map (fun h => mkHeaderWire (hkey h) (hvalue h)) hs) in
  n_alloc n = header_bytes hs /\ 0 <= n_str n <= l /\ n_items n = 0 /\ 0 <= n_depth n <= 1.
Proof.
  intros [Hk Hv]%Forall_app Hl. induction hs as [|h hs IH]; simpl; [lia |].
  apply Forall_cons in Hk as [Hk Hks]. apply Forall_cons in Hv as [Hv Hvs]. specialize (IH Hks Hvs). simpl in IH.
  unfold str_len in *. lia.
Qed.

Lemma headers_length hs :
  Z.of_nat (length (enc_items header_wire_codec (map (fun h => mkHeaderWire (hkey h) (hvalue h)) hs)))
  <= 17 * Z.of_nat (length hs) + header_bytes hs.
Proof.
  induction hs as [|h hs IH]; [done |]. rewrite map_cons.
  change (enc_items header_wire_codec (?x :: ?l)) with (enc header_wire_codec x ++ enc_items header_wire_codec l).
  rewrite length_app. change (header_bytes (h :: hs)) with (str_len (hkey h) + str_len (hvalue h) + header_bytes hs).
  change (enc header_wire_codec (mkHeaderWire (hkey h) (hvalue h)))
    with (le_bytes 1 2 ++ string_bytes (hkey h) ++ string_bytes (hvalue h)).
  rewrite !length_app, length_le_bytes. cbn [length]. unfold str_len.
  pose proof (string_bytes_length (hkey h)). pose proof (string_bytes_length (hvalue h)). lia.
Qed.

Lemma opt_u64_length o : (length (enc opt_u64_codec o) = 12)%nat.
Proof. by destruct o. Qed.

Lemma bytes_length p : length (enc_items (int_codec u8) p) = length p.
Proof.
  induction p as [|b p IH]; [done |].
  change (enc_items (int_codec u8) (b :: p)) with (le_bytes 1 b ++ enc_items (int_codec u8) p).
  rewrite length_app, length_le_bytes, IH. done.
Qed.

Lemma frame_length e :
  Z.of_nat (length (enc envelope_wire_codec (EnvelopeWire_from e))) <= envelope_frame_bound e.
Proof.
  pose proof (headers_length (envelope_headers e)) as Hh. pose proof (string_bytes_length (message_type e)) as Hm.
  assert (Z.of_nat (length (enc opt_string_codec (reply_to e))) <= 12 + from_option str_len 0 (reply_to e)) as Hr.
  { destruct (reply_to e) as [s|]; [| done].
    change (enc opt_string_codec (Some s)) with (le_bytes 4 1 ++ string_bytes s). rewrite length_app, length_le_bytes.
    pose proof (string_bytes_length s). simpl. unfold str_len. lia. }
  set (md := metadata e).
  change (enc envelope_wire_codec (EnvelopeWire_from e)) with
    (le_bytes 1 13 ++ le_bytes 8 (env_id e) ++ string_bytes (message_type e)
     ++ (le_bytes 4 (Z.of_nat (length (payload e))) ++ enc_items (int_codec u8) (payload e))
     ++ le_bytes 8 (message_id md) ++ enc opt_u64_codec (correlation_id md)
     ++ le_bytes 1 (qos_as_u8 (quality_of_service md)) ++ le_bytes 1 (mode_as_u8 (delivery_mode md))
     ++ le_bytes 1 (priority_as_u8 (priority md)) ++ enc opt_u64_codec (not_before_unix_ms md)
     ++ le_bytes 4 (schema_version e) ++ enc opt_string_codec (reply_to e)
     ++ (le_bytes 4 (Z.of_nat (length (wire_headers e))) ++ enc_items header_wire_codec (wire_headers e))
     ++ enc opt_u64_codec (sent_at_unix_ms e)).
  rewrite !length_app, !length_le_bytes, !opt_u64_length, bytes_length.
  unfold envelope_frame_bound, envelope_size, str_len in *. lia.
Qed.

Lemma limits_cover l e :
  fits_limits l e ->
  covers l (length (enc envelope_wire_codec (EnvelopeWire_from e))) (need envelope_wire_codec (EnvelopeWire_from e)).
Proof.
  intros [[Hf1 Hf2] [Ha1 Ha2] Ht Hp Hh [Hd1 Hd2]]. pose proof (frame_length e) as Hlen.
  apply Forall_cons in Ht as [Hmt Ht]. apply Forall_app in Ht as [Hrt Hhs].
  assert (0 <= max_string_bytes l) as Hs0 by (pose proof (str_len_nonneg (message_type e)); lia).
  destruct (headers_need (max_string_bytes l) (envelope_headers e) Hhs Hs0) as (H1 & H2 & H3 & H4).
  set (hn := need_items header_wire_codec (wire_headers e)) in *.
  assert (exists n, need (vec_codec header_wire_codec) (wire_headers e) = n
    /\ n_alloc n = 48 * Z.of_nat (length (envelope_headers e)) + header_bytes (envelope_headers e)
    /\ 0 <= n_str n <= max_string_bytes l /\ 0 <= n_items n <= max_collection_items l /\ 0 <= n_depth n <= 1)
    as (vn & Hvn & Hv1 & Hv2 & Hv3 & Hv4).
  { eexists. split; [done |]. change (need (vec_codec header_wire_codec)) with (need_vec header_wire_codec).
    unfold need_vec. destruct (wire_headers e) as [|w ws] eqn:Ew.
    - destruct (envelope_headers e); [simpl; lia | done].
    - fold hn. assert (length (w :: ws) = length (envelope_headers e)) as Hl by (rewrite <- Ew; apply length_map).
      rewrite Hl. cbn [n_alloc n_str n_items n_depth need_seq need0 need_alloc]. change (size_of header_wire_codec) with 48. lia. }
  assert (exists n, need (vec_codec (int_codec u8)) (payload e) = n
    /\ n_alloc n = Z.of_nat (length (payload e)) /\ n_str n = 0 /\ 0 <= n_items n <= max_collection_items l /\ n_depth n = 0)
    as (pn & Hpn & Hp1 & Hp2 & Hp3 & Hp4).
  { eexists. split; [done |]. change (need (vec_codec (int_codec u8))) with (need_vec (int_codec u8)).
    unfold need_vec. rewrite payload_need. destruct (payload e) as [|b p]; [simpl in *; lia |].
    cbn [n_alloc n_str n_items n_depth need_seq need0 need_alloc]. change (size_of (int_codec u8)) with 1. lia. }
  assert (from_option str_len 0 (reply_to e) = str_len (default EmptyString (reply_to e))
    /\ str_len (default EmptyString (reply_to e)) <= max_string_bytes l) as [Hr1 Hr2].
  { destruct (reply_to e) as [s|]; simpl in *; [by apply Forall_cons in Hrt as [? _] | split; [done | exact Hs0]]. }
  set (u := need_seq need0 need0).
  assert (need envelope_wire_codec (EnvelopeWire_from e) = need_object (need_seq need0 (need_seq need0
    (need_seq (need_str (message_type e)) (need_seq (need (vec_codec (int_codec u8)) (payload e))
    (need_seq need0 (need_seq u (need_seq need0 (need_seq need0 (need_seq need0 (need_seq u (need_seq need0
    (need_seq (need_seq need0 (need_str (default EmptyString (reply_to e))))
    (need_seq (need (vec_codec header_wire_codec) (wire_headers e)) u)))))))))))))) as -> by done.
  rewrite Hvn, Hpn. pose proof (str_len_nonneg (message_type e)). unfold envelope_reserved, envelope_size in Ha1.
  unfold u. split; cbn [n_alloc n_str n_items n_depth need_seq need0 need_object need_str]; fold (str_len (message_type e));
    fold (str_len (default EmptyString (reply_to e))); lia.
Qed.

(** C35: An envelope that is within the receiver's limits round-trips: the transport codec encodes
    it, and the frame decodes, whenever that is, to the same envelope, with its identifier, type,
    payload, metadata, schema version, reply address, headers in order and send time.  Within
    the limits means: its texts, payload and headers, with 88 bytes for the frame and 17 for
    each header, are within the frame limit, and with 48 bytes for each header within the
    allocation budget; each text is within the string limit, the payload's length and the number
    of headers within the collection limit; and two levels of nesting are allowed.  Its parts are
    well formed: integers of their widths, valid UTF-8 with lengths of an [i32], headers that
    [EnvelopeHeaders] accepts. *)
Theorem envelope_fits_roundtrip l e now :
  wf_envelope e -> fits_limits l e ->
  exists bytes, envelope_encode l e = Ok bytes /\ envelope_decode l bytes now = Ok e.
Proof. intros He Hl. apply envelope_roundtrip_raw; [done | by apply limits_cover]. Qed.
End envelopes.

(** ** Witnesses *)

Lemma envelope_fits_roundtrip_witness :
  exists bytes, envelope_encode Limits_default demo_envelope = Ok bytes
    /\ envelope_decode Limits_default bytes 0 = Ok demo_envelope.
Proof.
  apply (envelope_fits_roundtrip Limits_default demo_envelope 0 demo_envelope_wf).
  split; try (vm_compute; (split; discriminate) || discriminate).
  repeat (apply Forall_cons; split; [vm_compute; discriminate |]). apply Forall_nil_2.
Defined.

(** A frame that announces 16,777,215 bytes of payload and ends there *)
Definition greedy_frame : list Z := [13; 7; 0; 0; 0; 0; 0; 0; 0; 0; 0; 0; 0; 255; 255; 255; 0].

Lemma envelope_decode_safe_witness :
  let r' := snd (deserialize envelope_wire_codec (mkReader greedy_frame 0 (Some Limits_default) 0 0)) in
  frame r' = greedy_frame /\ (pos r' <= length greedy_frame)%nat /\ 0 <= allocated_bytes r' <= 1048576
  /\ err_code (envelope_decode Limits_default greedy_frame 0) = Some Validation.
Proof.
  assert (Forall (fun b => is_byte b = true) greedy_frame) as Hb by (repeat (apply Forall_cons; split; [done |]); apply Forall_nil_2).
  destruct (envelope_decode_safe Limits_default greedy_frame 0 Hb) as (H1 & H2 & H3 & _); [done | done |].
  split; [exact H1 |]. split; [exact H2 |]. split; [exact H3 | vm_compute; reflexivity].
Defined.
