(* ===== verification/Capacity.v ===== *)
(** * Record admission of the in-memory stores ([memory/capacity.rs])

    [RecordSequence] hands out record identities and [RecordCapacity] bounds the
    number of retained records.  [reserve] and [release] are compare-exchange
    loops; the file gives their sequential behaviour, which the stores use, and
    the step relation of any number of threads running them, in which the bound
    is proved. *)

From S2P Require Import Prelude Utf8 Errors.

Definition DEFAULT_MEMORY_RECORD_CAPACITY : Z := 65536.
Definition OPPORTUNISTIC_CLEANUP_LIMIT : nat := 64.

(** ** Identities *)

Definition RecordSequence := Z.
Definition sequence_new : RecordSequence := 1.

(** [fetch_update] returns the previous value. *)
Definition sequence_next (next : RecordSequence) : CatgaResult Z * RecordSequence :=
  match checked u64 (next + 1) with
  | Some next' => (Ok next, next')
  | None => (fail Internal "memory record identity space is exhausted", next)
  end.

(** ** Capacity, run by one thread *)

Record RecordCapacity := mkCapacity { limit : Z; used : Z }.

Definition capacity_fixed (limit : Z) : RecordCapacity := mkCapacity limit 0.

Definition capacity_new (limit : Z) : CatgaResult RecordCapacity :=
  if limit =? 0
  then fail Validation "memory store record capacity must be greater than zero"
  else Ok (capacity_fixed limit).

Definition reserve (c : RecordCapacity) : bool * RecordCapacity :=
  if limit c <=? used c then (false, c) else (true, mkCapacity (limit c) (used c + 1)).

Definition release (c : RecordCapacity) : RecordCapacity :=
  if used c =? 0 then c else mkCapacity (limit c) (used c - 1).

(** ** Capacity, run by many threads

    A thread that called [reserve] or [release] is at the head of its loop with
    the value of [used] it observed last. *)

Inductive pc :=
| Idle
| Reserving (observed : Z)
| Releasing (observed : Z).

(** [held] counts the reservations granted and not yet being released; the
    stores only release what they reserved. *)
Record Shared := mkShared { sh_used : Z; sh_held : Z; sh_threads : list pc }.

Inductive cstep (lim : Z) : Shared -> Shared -> Prop :=
| reserve_load u h ts i :
    ts !! i = Some Idle ->
    cstep lim (mkShared u h ts) (mkShared u h (<[i := Reserving u]> ts))
| reserve_full u h ts i o :
    ts !! i = Some (Reserving o) -> lim <= o ->
    cstep lim (mkShared u h ts) (mkShared u h (<[i := Idle]> ts))
| reserve_cas u h ts i :
    ts !! i = Some (Reserving u) -> u < lim ->
    cstep lim (mkShared u h ts) (mkShared (u + 1) (h + 1) (<[i := Idle]> ts))
| reserve_retry u h ts i o :
    (* the weak exchange may fail even when the value matches *)
    ts !! i = Some (Reserving o) -> o < lim ->
    cstep lim (mkShared u h ts) (mkShared u h (<[i := Reserving u]> ts))
| release_load u h ts i :
    ts !! i = Some Idle -> 0 < h ->
    cstep lim (mkShared u h ts) (mkShared u (h - 1) (<[i := Releasing u]> ts))
| release_empty u h ts i :
    ts !! i = Some (Releasing 0) ->
    cstep lim (mkShared u h ts) (mkShared u h (<[i := Idle]> ts))
| release_cas u h ts i :
    ts !! i = Some (Releasing u) -> u <> 0 ->
    cstep lim (mkShared u h ts) (mkShared (u - 1) h (<[i := Idle]> ts))
| release_retry u h ts i o :
    ts !! i = Some (Releasing o) -> o <> 0 ->
    cstep lim (mkShared u h ts) (mkShared u h (<[i := Releasing u]> ts)).

(** Threads inside [release] *)
Definition releasing (p : pc) : Z := match p with Releasing _ => 1 | _ => 0 end.
Definition releasing_all (ts : list pc) : Z := sumZ releasing ts.

Record cinv (lim : Z) (s : Shared) : Prop := {
  ci_held : 0 <= sh_held s;
  ci_used : sh_used s = sh_held s + releasing_all (sh_threads s);
  ci_limit : sh_used s <= lim;
  ci_observed : Forall (fun p => match p with Releasing o => 0 < o | _ => True end) (sh_threads s)
}.

Lemma releasing_nonneg p : 0 <= releasing p.
Proof. by destruct p. Qed.

Lemma releasing_all_nonneg ts : 0 <= releasing_all ts.
Proof. apply sumZ_nonneg, releasing_nonneg. Qed.

Lemma releasing_all_pos ts i o : ts !! i = Some (Releasing o) -> 1 <= releasing_all ts.
Proof. apply (sumZ_lookup_le releasing releasing_nonneg). Qed.

Lemma cinv_step lim s s' : cinv lim s -> cstep lim s s' -> cinv lim s'.
Proof.
  intros [Hh Hu Hl Ho] Hs. destruct Hs as [u h ts i Hi|u h ts i o Hi ?|u h ts i Hi ?
    |u h ts i o Hi ?|u h ts i Hi ?|u h ts i Hi|u h ts i Hi ?|u h ts i o Hi ?]; simpl in *;
    (split; simpl;
     [ lia
     | unfold releasing_all in *; rewrite (sumZ_insert releasing _ _ _ _ Hi); simpl; try lia
     | lia
     | apply Forall_insert; [done |]; try done ]).
  - pose proof (releasing_all_nonneg ts). lia.
  - exfalso. rewrite Forall_lookup in Ho. specialize (Ho i _ Hi). simpl in Ho. lia.
  - pose proof (releasing_all_pos _ _ _ Hi). lia.
Qed.

Lemma sequence_next_spec n :
  1 <= n <= int_max u64 ->
  match sequence_next n with
  | (Ok id, n') => id = n /\ n' = n + 1 /\ n < int_max u64
  | (Err e, n') => n' = n /\ n = int_max u64 /\ code e = Internal
  end.
Proof.
  intros Hn. unfold sequence_next. destruct (checked u64 (n + 1)) as [m|] eqn:E.
  - apply checked_Some in E as [-> ?]. split_and!; [done | done | lia].
  - apply checked_None in E. split; [done |]. split; [int_bounds; lia | done].
Qed.

Lemma reserve_spec c b c' :
  reserve c = (b, c') -> used c <= limit c ->
  limit c' = limit c /\ used c' <= limit c
  /\ used c' = used c + (if b then 1 else 0) /\ (b = true <-> used c < limit c).
Proof.
  unfold reserve. destruct (Z.leb_spec (limit c) (used c)); intros; simplify_eq/=.
  - repeat split; [lia.. | done | lia].
  - repeat split; lia.
Qed.

Lemma release_pos c : 0 < used c -> release c = mkCapacity (limit c) (used c - 1).
Proof. intros. unfold release. destruct (Z.eqb_spec (used c) 0); [lia | done]. Qed.

(** ** Properties *)

(** However many threads reserve and release concurrently, the number of
    records admitted never exceeds the limit, it equals the reservations
    outstanding, and no release is lost: in every reachable state [used] is the
    number of granted reservations whose release has not taken effect. *)
Theorem capacity_bound lim n s :
  0 <= lim ->
  rtc (cstep lim) (mkShared 0 0 (replicate n Idle)) s ->
  0 <= sh_used s <= lim /\ sh_used s = sh_held s + releasing_all (sh_threads s)
  /\ forall i o, sh_threads s !! i = Some (Releasing o) -> o <> 0.
Proof.
  intros Hlim Hr.
  assert (cinv lim s) as [Hh Hu Hl Ho].
  { revert Hr. generalize (eq_refl (mkShared 0 0 (replicate n Idle))).
    generalize (mkShared 0 0 (replicate n Idle)) at 1 3. intros s0 E Hr.
    assert (cinv lim s0) as H0.
    { subst s0. split; simpl; [done | | done |].
      - unfold releasing_all. rewrite sumZ_zero; [done |]. by apply Forall_replicate.
      - apply Forall_replicate. done. }
    clear E. induction Hr as [|s1 s2 s3 Hs _ IH]; [done |]. eauto using cinv_step. }
  pose proof (releasing_all_nonneg (sh_threads s)).
  split; [lia |]. split; [done |]. intros i o Hi.
  rewrite Forall_lookup in Ho. specialize (Ho i _ Hi). simpl in Ho. lia.
Qed.

(** Two threads race for the last slot of a one-record store: one wins, the
    other observes the full store. *)
Lemma capacity_bound_witness :
  let s := mkShared 1 1 [Idle; Reserving 0] in
  rtc (cstep 1) (mkShared 0 0 (replicate 2 Idle)) s
  /\ (0 <= sh_used s <= 1 /\ sh_used s = sh_held s + releasing_all (sh_threads s)
      /\ forall i o, sh_threads s !! i = Some (Releasing o) -> o <> 0).
Proof.
  intros s.
  assert (rtc (cstep 1) (mkShared 0 0 (replicate 2 Idle)) s) as Hr.
  { eapply rtc_l; [apply (reserve_load 1 0 0 _ 0); reflexivity |].
    eapply rtc_l; [apply (reserve_load 1 0 0 _ 1); reflexivity |].
    eapply rtc_l; [apply (reserve_cas 1 0 0 _ 0); [reflexivity | lia] |].
    apply rtc_refl. }
  split; [exact Hr |]. apply (capacity_bound 1 2 s); [lia | exact Hr].
Defined.
