(* ===== verification/Claim.v ===== *)
(** * Atomic claim records ([memory/claim.rs])

    A [ClaimRecord] is a handful of atomics; its methods are short lock-free
    protocols.  [Seq] gives each method's effect when it runs alone, which is
    what the stores are proved against; the step relation [mstep] splits every
    method into its atomic accesses and interleaves any number of threads. *)

From S2P Require Import Prelude Utf8 Errors.

(** [reliability.rs] *)
Inductive ProcessingState := Pending | Claimed | Completed | Failed.

#[global] Instance ProcessingState_eq_dec : EqDecision ProcessingState.
Proof. solve_decision. Defined.

(** The values of the [state] byte. *)
Inductive claim_state := PENDING | CLAIMED | COMPLETED | FAILED | COMPLETING | CLAIMING.

#[global] Instance claim_state_eq_dec : EqDecision claim_state.
Proof. solve_decision. Defined.

(** A completed operation's optional result bytes. *)
Definition Payload := option (list Z).

Record ClaimRecord := mkClaim {
  identity : Z;
  cstate : claim_state;
  expires_at_millis : Z;
  generation : Z;
  cresult : option Payload
}.

Definition set_state (r : ClaimRecord) (s : claim_state) : ClaimRecord :=
  mkClaim (identity r) s (expires_at_millis r) (generation r) (cresult r).
Definition set_expires (r : ClaimRecord) (e : Z) : ClaimRecord :=
  mkClaim (identity r) (cstate r) e (generation r) (cresult r).
Definition set_generation (r : ClaimRecord) (g : Z) : ClaimRecord :=
  mkClaim (identity r) (cstate r) (expires_at_millis r) g (cresult r).
(** [OnceLock::set]: the first value wins. *)
Definition set_result (r : ClaimRecord) (v : Payload) : bool * ClaimRecord :=
  match cresult r with
  | Some _ => (false, r)
  | None => (true, mkClaim (identity r) (cstate r) (expires_at_millis r) (generation r) (Some v))
  end.

Definition claimed (identity : Z) : ClaimRecord := mkClaim identity CLAIMED 0 0 None.

(** ** Each method run alone *)

Definition reclaimable_state (s : claim_state) : bool :=
  match s with PENDING | FAILED => true | _ => false end.

Definition is_claimed (s : claim_state) : bool :=
  match s with CLAIMED => true | _ => false end.

Definition try_claim_generation_until (r : ClaimRecord) (expires now_millis : Z)
    : option Z * ClaimRecord :=
  let reclaimable :=
    reclaimable_state (cstate r)
    || (is_claimed (cstate r) && (expires_at_millis r <=? now_millis)) in
  if negb reclaimable then (None, r)
  else
    let r := set_state r CLAIMING in
    match checked u64 (generation r + 1) with
    | None => (None, set_state r FAILED)
    | Some g => (Some g, set_state (set_expires (set_generation r g) expires) CLAIMED)
    end.

Definition try_claim_inner (r : ClaimRecord) (lease : option (Z * Z)) : bool * ClaimRecord :=
  let reclaimable :=
    reclaimable_state (cstate r)
    || (is_claimed (cstate r)
        && match lease with Some (_, now) => expires_at_millis r <=? now | None => false end) in
  if negb reclaimable then (false, r)
  else
    let expires := match lease with Some (expires_at, _) => expires_at | None => 0 end in
    (true, set_state (set_expires (set_state r CLAIMING) expires) CLAIMED).

Definition try_claim (r : ClaimRecord) : bool * ClaimRecord := try_claim_inner r None.

(** The part [complete] and [complete_for] share after winning the exchange. *)
Definition finish_complete (r : ClaimRecord) (result : Payload) : bool * ClaimRecord :=
  match set_result (set_state r COMPLETING) result with
  | (false, r) => (false, set_state r FAILED)
  | (true, r) => (true, set_state r COMPLETED)
  end.

Definition complete (r : ClaimRecord) (result : Payload) : bool * ClaimRecord :=
  if negb (is_claimed (cstate r)) then (false, r) else finish_complete r result.

Definition complete_for (r : ClaimRecord) (g : Z) (result : Payload) : bool * ClaimRecord :=
  if negb (generation r =? g) || negb (is_claimed (cstate r)) then (false, r)
  else finish_complete r result.

Definition claim_fail (r : ClaimRecord) : bool * ClaimRecord :=
  if is_claimed (cstate r) then (true, set_state r FAILED) else (false, r).

Definition fail_for (r : ClaimRecord) (g : Z) : bool * ClaimRecord :=
  if generation r =? g then claim_fail r else (false, r).

Definition claim_result (r : ClaimRecord) : Payload :=
  match cstate r with
  | COMPLETED => match cresult r with Some v => v | None => None end
  | _ => None
  end.

Definition claim_state_of (r : ClaimRecord) : ProcessingState :=
  match cstate r with
  | PENDING => Pending
  | CLAIMED => Claimed
  | COMPLETED => Completed
  | FAILED => Failed
  | COMPLETING | CLAIMING => Claimed
  end.

(** ** Interleavings

    A program counter per thread, one constructor between two atomic accesses. *)

Inductive tpc :=
| TIdle
  (* try_claim_generation_until(expires, now) *)
| TClaimHead (expires now : Z)                (* at the head of its loop *)
| TClaimCheck (expires now : Z)               (* loaded CLAIMED, expiry not yet read *)
| TClaimCas (seen : claim_state) (expires now : Z)
| TClaimLoadGen (expires : Z)                 (* won the exchange to CLAIMING *)
| TClaimStoreGen (expires g : Z)
| TClaimStoreExp (expires g : Z)
| TClaimPublish (g : Z)
| TClaimOverflow                              (* generation space exhausted *)
  (* complete_for(g, result) *)
| TCompleteLoad (g : Z) (v : Payload)
| TCompleteCas (g : Z) (v : Payload)          (* the generation matched when loaded *)
| TCompleteSet (g : Z) (v : Payload)          (* won the exchange to COMPLETING *)
| TCompletePublish (g : Z) (ok : bool)
  (* fail_for(g) *)
| TFailLoad (g : Z)
| TFailCas (g : Z).

(** The shared record, the threads, and what the methods returned so far:
    generations granted and generations whose completion returned [true]. *)
Record Machine := mkMachine {
  rec : ClaimRecord;
  threads : list tpc;
  granted : list Z;
  completed_by : list Z
}.

(** One atomic access of a thread: the record and the thread's counter before
    and after it, and the generation it is granted or reports complete, if any. *)
Inductive tstep : ClaimRecord -> tpc -> ClaimRecord -> tpc -> option Z -> option Z -> Prop :=
| ts_call_claim r e n : tstep r TIdle r (TClaimHead e n) None None
| ts_call_complete r g v : tstep r TIdle r (TCompleteLoad g v) None None
| ts_call_fail r g : tstep r TIdle r (TFailLoad g) None None
| ts_claim_load r e n :
    reclaimable_state (cstate r) = true ->
    tstep r (TClaimHead e n) r (TClaimCas (cstate r) e n) None None
| ts_claim_load_claimed r e n :
    cstate r = CLAIMED -> tstep r (TClaimHead e n) r (TClaimCheck e n) None None
| ts_claim_none r e n :
    reclaimable_state (cstate r) = false -> cstate r <> CLAIMED ->
    tstep r (TClaimHead e n) r TIdle None None
| ts_claim_expired r e n :
    expires_at_millis r <= n ->
    tstep r (TClaimCheck e n) r (TClaimCas CLAIMED e n) None None
| ts_claim_live r e n :
    n < expires_at_millis r -> tstep r (TClaimCheck e n) r TIdle None None
| ts_claim_cas r e n :
    tstep r (TClaimCas (cstate r) e n) (set_state r CLAIMING) (TClaimLoadGen e) None None
| ts_claim_retry r seen e n :
    cstate r <> seen -> tstep r (TClaimCas seen e n) r (TClaimHead e n) None None
| ts_claim_gen r e :
    generation r < int_max u64 ->
    tstep r (TClaimLoadGen e) r (TClaimStoreGen e (generation r + 1)) None None
| ts_claim_overflow r e :
    int_max u64 <= generation r -> tstep r (TClaimLoadGen e) r TClaimOverflow None None
| ts_claim_abandon r :
    tstep r TClaimOverflow (set_state r FAILED) TIdle None None
| ts_claim_store_gen r e g :
    tstep r (TClaimStoreGen e g) (set_generation r g) (TClaimStoreExp e g) None None
| ts_claim_store_exp r e g :
    tstep r (TClaimStoreExp e g) (set_expires r e) (TClaimPublish g) None None
| ts_claim_publish r g :
    tstep r (TClaimPublish g) (set_state r CLAIMED) TIdle (Some g) None
| ts_complete_load r v :
    tstep r (TCompleteLoad (generation r) v) r (TCompleteCas (generation r) v) None None
| ts_complete_stale r g v :
    generation r <> g -> tstep r (TCompleteLoad g v) r TIdle None None
| ts_complete_cas r g v :
    cstate r = CLAIMED ->
    tstep r (TCompleteCas g v) (set_state r COMPLETING) (TCompleteSet g v) None None
| ts_complete_lost r g v :
    cstate r <> CLAIMED -> tstep r (TCompleteCas g v) r TIdle None None
| ts_complete_set r g v ok r' :
    set_result r v = (ok, r') ->
    tstep r (TCompleteSet g v) r' (TCompletePublish g ok) None None
| ts_complete_publish r g :
    tstep r (TCompletePublish g true) (set_state r COMPLETED) TIdle None (Some g)
| ts_complete_failed r g :
    tstep r (TCompletePublish g false) (set_state r FAILED) TIdle None None
| ts_fail_load r :
    tstep r (TFailLoad (generation r)) r (TFailCas (generation r)) None None
| ts_fail_stale r g :
    generation r <> g -> tstep r (TFailLoad g) r TIdle None None
| ts_fail_cas r g :
    cstate r = CLAIMED -> tstep r (TFailCas g) (set_state r FAILED) TIdle None None
| ts_fail_lost r g :
    cstate r <> CLAIMED -> tstep r (TFailCas g) r TIdle None None.

Definition record_opt (o : option Z) (l : list Z) : list Z :=
  match o with Some g => g :: l | None => l end.

Inductive mstep : Machine -> Machine -> Prop :=
| mstep_thread m i p r' p' og oc :
    threads m !! i = Some p ->
    tstep (rec m) p r' p' og oc ->
    mstep m (mkMachine r' (<[i := p']> (threads m)) (record_opt og (granted m))
               (record_opt oc (completed_by m))).

Definition machine_init (id : Z) (n : nat) : Machine :=
  mkMachine (claimed id) (replicate n TIdle) [] [].

(** ** Invariant of the interleavings *)

(** Threads between winning an exchange and publishing the next state. *)
Definition critical (p : tpc) : Z :=
  match p with
  | TClaimLoadGen _ | TClaimStoreGen _ _ | TClaimStoreExp _ _ | TClaimPublish _
  | TClaimOverflow | TCompleteSet _ _ | TCompletePublish _ _ => 1
  | _ => 0
  end.

Definition busy (s : claim_state) : Z :=
  match s with COMPLETING | CLAIMING => 1 | _ => 0 end.

(** The states a claim may start from. *)
Definition claimable (s : claim_state) : bool := reclaimable_state s || is_claimed s.

(** What a thread knows between its accesses. *)
Definition tinv (r : ClaimRecord) (gr : list Z) (p : tpc) : Prop :=
  match p with
  | TClaimCas seen _ _ => claimable seen = true
  | TClaimLoadGen _ | TClaimOverflow => cstate r = CLAIMING
  | TClaimStoreGen _ g => cstate r = CLAIMING /\ g = generation r + 1
  | TClaimStoreExp _ g | TClaimPublish g =>
      cstate r = CLAIMING /\ g = generation r /\ Forall (fun x => x < g) gr
  | TCompleteSet _ _ => cstate r = COMPLETING /\ cresult r = None
  | TCompletePublish _ ok => cstate r = COMPLETING /\ ok = true /\ cresult r <> None
  | _ => True
  end.

Record minv (m : Machine) : Prop := {
  mi_critical : sumZ critical (threads m) = busy (cstate (rec m));
  mi_threads : forall i p, threads m !! i = Some p -> tinv (rec m) (granted m) p;
  mi_granted : NoDup (granted m) /\ Forall (fun g => g <= generation (rec m)) (granted m);
  mi_result : cresult (rec m) <> None ->
    cstate (rec m) = COMPLETING \/ cstate (rec m) = COMPLETED;
  mi_completed : match cstate (rec m) with
    | COMPLETED => length (completed_by m) = 1%nat /\ cresult (rec m) <> None
    | _ => completed_by m = []
    end
}.

Lemma critical_nonneg p : 0 <= critical p.
Proof. by destruct p. Qed.

Lemma tinv_noncritical r gr r' gr' p : critical p = 0 -> tinv r gr p -> tinv r' gr' p.
Proof. by destruct p. Qed.

Lemma critical_bool p : critical p = 0 \/ critical p = 1.
Proof. destruct p; auto. Qed.

(** While one thread is critical, or no state is claimed by one, the others are not. *)
Lemma others_noncritical m i p j q :
  minv m -> threads m !! i = Some p -> threads m !! j = Some q -> i <> j ->
  critical p = 1 \/ busy (cstate (rec m)) = 0 -> critical q = 0.
Proof.
  intros [Hc _ _ _ _] Hi Hj Hne Hor.
  pose proof (sumZ_lookup2_le critical critical_nonneg _ _ _ _ _ Hi Hj Hne).
  pose proof (critical_nonneg p). destruct (critical_bool q); [done |].
  destruct (cstate (rec m)); simpl in *; lia.
Qed.

Lemma claimable_not_busy s : claimable s = true -> busy s = 0 /\ s <> COMPLETED.
Proof. by destruct s. Qed.

(** A step changes the record only inside a critical section or from a free state. *)
Lemma tstep_changes r gr p r' p' og oc :
  tstep r p r' p' og oc -> tinv r gr p ->
  (r' = r /\ og = None) \/ critical p = 1 \/ busy (cstate r) = 0.
Proof.
  intros Hs Hi. destruct Hs; auto; right.
  - right. by apply claimable_not_busy.
  - right. by rewrite H.
  - right. by rewrite H.
Qed.

(** The stepping thread's own part of the invariant. *)
Lemma tstep_tinv r gr p r' p' og oc :
  tstep r p r' p' og oc -> tinv r gr p -> Forall (fun g => g <= generation r) gr ->
  (cresult r <> None -> cstate r = COMPLETING \/ cstate r = COMPLETED) ->
  tinv r' (record_opt og gr) p'.
Proof.
  intros Hs Hi Hg Hr. destruct Hs; simpl in *; try done.
  - unfold claimable. by rewrite H.
  - destruct Hi as [? ->]. split; [done |]. split; [done |].
    eapply Forall_impl; [exact Hg |]. simpl. lia.
  - split; [done |]. destruct (cresult r) as [v'|]; [| done].
    destruct Hr as [E|E]; [done | congruence..].
  - destruct Hi as [Hst Hnone]. unfold set_result in H. rewrite Hnone in H. simplify_eq/=.
    naive_solver.
Qed.

(** What a step does to the rest of the invariant. *)
Lemma tstep_shared r gr cs p r' p' og oc :
  tstep r p r' p' og oc -> tinv r gr p ->
  NoDup gr /\ Forall (fun g => g <= generation r) gr ->
  (cresult r <> None -> cstate r = COMPLETING \/ cstate r = COMPLETED) ->
  match cstate r with
  | COMPLETED => length cs = 1%nat /\ cresult r <> None
  | _ => cs = []
  end ->
  critical p' - critical p = busy (cstate r') - busy (cstate r)
  /\ (NoDup (record_opt og gr) /\ Forall (fun g => g <= generation r') (record_opt og gr))
  /\ (cresult r' <> None -> cstate r' = COMPLETING \/ cstate r' = COMPLETED)
  /\ match cstate r' with
     | COMPLETED => length (record_opt oc cs) = 1%nat /\ cresult r' <> None
     | _ => record_opt oc cs = []
     end.
Proof.
  intros Hs Hi [Hnd Hg] Hr Hc. destruct Hs; simpl in *;
    try (split; [lia | done]).
  - by destruct (cstate r); repeat split; naive_solver.
  - rewrite Hi in *. repeat split; naive_solver.
  - destruct Hi as [Hst ->]. split; [lia |]. split; [split; [done |] | done].
    eapply Forall_impl; [exact Hg |]. simpl. lia.
  - destruct Hi as (Hst & -> & Hlt). rewrite Hst in *.
    split; [simpl; lia |]. split; [split |]; [| | naive_solver].
    + constructor; [| done]. intros Hin. rewrite Forall_forall in Hlt.
      specialize (Hlt _ Hin). lia.
    + by constructor.
  - rewrite H in *. repeat split; naive_solver.
  - destruct Hi as [Hst Hnone]. unfold set_result in H. rewrite Hnone in H. simplify_eq/=.
    rewrite Hst in *. repeat split; naive_solver.
  - destruct Hi as (Hst & _ & Hres). rewrite Hst in *. subst cs. repeat split; naive_solver.
  - naive_solver.
  - rewrite H in *. repeat split; naive_solver.
Qed.

Lemma minv_step m m' : minv m -> mstep m m' -> minv m'.
Proof.
  intros Hm Hs. destruct Hs as [m i p r' p' og oc Hi Hs]. pose proof Hm as [Hc Ht Hg Hr Hd].
  pose proof (Ht i p Hi) as Hp.
  destruct (tstep_shared _ _ _ _ _ _ _ _ Hs Hp Hg Hr Hd) as (Hc' & Hg' & Hr' & Hd').
  split; cbn [rec threads granted completed_by]; [| | done | done | done].
  - rewrite (sumZ_insert critical _ _ _ _ Hi). lia.
  - intros j q [(-> & <- & _)|[Hne Hj]]%list_lookup_insert_Some.
    + eapply tstep_tinv; [done | done | apply Hg | done].
    + destruct (tstep_changes _ _ _ _ _ _ _ Hs Hp) as [[-> ->]|Hor]; [by apply (Ht j) |].
      apply (tinv_noncritical (rec m) (granted m)); [| by apply (Ht j)].
      exact (others_noncritical m i p j q Hm Hi Hj Hne Hor).
Qed.

Lemma minv_init id n : minv (machine_init id n).
Proof.
  split; simpl.
  - apply sumZ_zero. by apply Forall_replicate.
  - intros i p [-> _]%lookup_replicate. done.
  - by split; constructor.
  - done.
  - done.
Qed.

Lemma minv_reachable id n m : rtc mstep (machine_init id n) m -> minv m.
Proof.
  intros Hr. pose proof (minv_init id n) as H0. revert H0.
  induction Hr; [done |]. eauto using minv_step.
Qed.

(** [COMPLETED] is final: no access leaves it. *)
Lemma tstep_completed r gr p r' p' og oc :
  tstep r p r' p' og oc -> tinv r gr p -> cstate r = COMPLETED -> r' = r /\ oc = None.
Proof.
  intros Hs Hi Hst. destruct Hs; simpl in *; try (by split); try congruence;
    try (destruct Hi; congruence). by rewrite Hst in Hi.
Qed.

Lemma completed_stable m m' :
  minv m -> rtc mstep m m' -> cstate (rec m) = COMPLETED ->
  rec m' = rec m /\ completed_by m' = completed_by m.
Proof.
  intros Hm Hr. induction Hr as [|m1 m2 m3 Hs _ IH]; [done |]. intros Hst.
  pose proof (minv_step _ _ Hm Hs) as Hm2. destruct Hs as [m1 i p r' p' og oc Hi Hs].
  destruct (tstep_completed _ _ _ _ _ _ _ Hs (mi_threads _ Hm _ _ Hi) Hst) as [-> ->].
  destruct (IH Hm2) as [? ?]; [done |]. done.
Qed.

(** ** A method run alone is the sequential method

    [run] executes one thread's accesses without interference, from the head of
    a method until it returns. *)

Inductive alone : ClaimRecord -> tpc -> ClaimRecord -> option Z -> option Z -> Prop :=
| alone_done r : alone r TIdle r None None
| alone_step r p r1 p1 og oc r2 og2 oc2 :
    p <> TIdle -> tstep r p r1 p1 og oc -> alone r1 p1 r2 og2 oc2 ->
    alone r p r2 (match og with Some _ => og | None => og2 end)
      (match oc with Some _ => oc | None => oc2 end).

Lemma alone_step' r p r1 p1 r2 og oc :
  p <> TIdle -> tstep r p r1 p1 None None -> alone r1 p1 r2 og oc -> alone r p r2 og oc.
Proof. intros Hp Hs Ha. exact (alone_step r p r1 p1 None None r2 og oc Hp Hs Ha). Qed.

Lemma alone_grant r g : alone r (TClaimPublish g) (set_state r CLAIMED) (Some g) None.
Proof.
  refine (alone_step r _ _ _ (Some g) None _ None None _ (ts_claim_publish r g) (alone_done _)).
  done.
Qed.

Lemma alone_publish r g :
  alone r (TCompletePublish g true) (set_state r COMPLETED) None (Some g).
Proof.
  refine (alone_step r _ _ _ None (Some g) _ None None _ (ts_complete_publish r g) (alone_done _)).
  done.
Qed.

Lemma alone_claimed_section r e :
  cstate r = CLAIMING -> 0 <= generation r <= int_max u64 ->
  match checked u64 (generation r + 1) with
  | None => alone r (TClaimLoadGen e) (set_state r FAILED) None None
  | Some g => alone r (TClaimLoadGen e)
                (set_state (set_expires (set_generation r g) e) CLAIMED) (Some g) None
  end.
Proof.
  intros Hst Hg. destruct (checked u64 (generation r + 1)) as [g|] eqn:E.
  - apply checked_Some in E as [-> [_ Hg']].
    eapply alone_step'; [done | apply ts_claim_gen; lia |].
    eapply alone_step'; [done | apply ts_claim_store_gen |].
    eapply alone_step'; [done | apply ts_claim_store_exp |].
    apply alone_grant.
  - apply checked_None in E. eapply alone_step'; [done | apply ts_claim_overflow |].
    { destruct E as [E|E]; [exfalso |]; int_bounds; lia. }
    eapply alone_step'; [done | apply ts_claim_abandon | apply alone_done].
Qed.

Lemma claim_alone r e n :
  0 <= generation r <= int_max u64 ->
  alone r (TClaimHead e n) (snd (try_claim_generation_until r e n))
    (fst (try_claim_generation_until r e n)) None.
Proof.
  intros Hg. unfold try_claim_generation_until.
  pose proof (alone_claimed_section (set_state r CLAIMING) e eq_refl Hg) as Hcs.
  assert (alone r (TClaimCas (cstate r) e n)
    (snd (match checked u64 (generation (set_state r CLAIMING) + 1) with
     | None => (None, set_state (set_state r CLAIMING) FAILED)
     | Some g => (Some g, set_state (set_expires (set_generation (set_state r CLAIMING) g) e) CLAIMED)
     end))
    (fst (match checked u64 (generation (set_state r CLAIMING) + 1) with
     | None => (None, set_state (set_state r CLAIMING) FAILED)
     | Some g => (Some g, set_state (set_expires (set_generation (set_state r CLAIMING) g) e) CLAIMED)
     end)) None) as Hcas.
  { eapply alone_step'; [done | apply ts_claim_cas |]. by case_match. }
  destruct (reclaimable_state (cstate r)) eqn:Er; simpl orb.
  - cbn [negb]. by eapply alone_step'; [done | apply ts_claim_load |].
  - destruct (cstate r) eqn:Es; try done;
      try (eapply alone_step'; [done | apply ts_claim_none; congruence || by rewrite Es |
        apply alone_done]).
    cbn [is_claimed andb]. eapply alone_step'; [done | by apply ts_claim_load_claimed |].
    destruct (Z.leb_spec (expires_at_millis r) n); cbn [negb].
    + eapply alone_step'; [done | by apply ts_claim_expired | done].
    + eapply alone_step'; [done | by apply ts_claim_live | apply alone_done].
Qed.

Lemma complete_alone r g v :
  alone r (TCompleteLoad g v) (snd (complete_for r g v)) None
    (if fst (complete_for r g v) then Some g else None).
Proof.
  unfold complete_for, finish_complete. destruct (Z.eqb_spec (generation r) g) as [<-|Hne]; simpl.
  2: { eapply alone_step'; [done | by apply ts_complete_stale | apply alone_done]. }
  eapply alone_step'; [done | apply ts_complete_load |].
  destruct (is_claimed (cstate r)) eqn:Ec; simpl.
  2: { eapply alone_step'; [done | apply ts_complete_lost; intros E; by rewrite E in Ec |
       apply alone_done]. }
  eapply alone_step'; [done | apply ts_complete_cas; by destruct (cstate r) |].
  destruct (set_result (set_state r COMPLETING) v) as [ok r'] eqn:E.
  eapply alone_step'; [done | by apply ts_complete_set |]. destruct ok; simpl.
  - apply alone_publish.
  - eapply alone_step'; [done | apply ts_complete_failed | apply alone_done].
Qed.

Lemma fail_alone r g : alone r (TFailLoad g) (snd (fail_for r g)) None None.
Proof.
  unfold fail_for, claim_fail. destruct (Z.eqb_spec (generation r) g) as [<-|Hne].
  2: { eapply alone_step'; [done | by apply ts_fail_stale | apply alone_done]. }
  eapply alone_step'; [done | apply ts_fail_load |].
  destruct (is_claimed (cstate r)) eqn:Ec; simpl.
  - eapply alone_step'; [done | apply ts_fail_cas; by destruct (cstate r) | apply alone_done].
  - eapply alone_step'; [done | apply ts_fail_lost; intros E; by rewrite E in Ec |
      apply alone_done].
Qed.

(** ** An interleaving of two owners *)

(** Runs thread [i] through one access. *)
Tactic Notation "access" constr(i) uconstr(c) := eapply rtc_l;
  [ eapply (mstep_thread _ i); [reflexivity | eapply c; try reflexivity; cbn; try done; lia] |];
  cbn.

(** Thread 0 is granted generation 1 until 10 and starts to complete it; at 10
    thread 1 is granted generation 2; then thread 0 goes on. *)
Definition two_owners : Machine :=
  mkMachine (mkClaim 1 COMPLETED 20 2 (Some (Some [7]))) [TIdle; TIdle] [2; 1] [1].

Lemma two_owners_reachable : rtc mstep (machine_init 1 2) two_owners.
Proof.
  access 0%nat (ts_call_claim _ 10 0). access 0%nat ts_claim_load_claimed.
  access 0%nat ts_claim_expired. access 0%nat ts_claim_cas. access 0%nat ts_claim_gen.
  access 0%nat ts_claim_store_gen. access 0%nat ts_claim_store_exp. access 0%nat ts_claim_publish.
  access 0%nat (ts_call_complete _ 1 (Some [7])). access 0%nat ts_complete_load.
  access 1%nat (ts_call_claim _ 20 10). access 1%nat ts_claim_load_claimed.
  access 1%nat ts_claim_expired. access 1%nat ts_claim_cas. access 1%nat ts_claim_gen.
  access 1%nat ts_claim_store_gen. access 1%nat ts_claim_store_exp. access 1%nat ts_claim_publish.
  access 0%nat ts_complete_cas. access 0%nat ts_complete_set. access 0%nat ts_complete_publish.
  apply rtc_refl.
Qed.

(** ** Sequential behaviour *)

(** A grant needs a free or expired record and hands out the next generation. *)
Lemma try_claim_generation_granted r e n g r' :
  try_claim_generation_until r e n = (Some g, r') ->
  claimable (cstate r) = true /\ (cstate r = CLAIMED -> expires_at_millis r <= n)
  /\ g = generation r + 1 /\ g <= int_max u64
  /\ r' = mkClaim (identity r) CLAIMED e g (cresult r).
Proof.
  unfold try_claim_generation_until. destruct (negb _) eqn:E; [done |].
  apply negb_false_iff in E. cbn [generation set_state].
  destruct (checked u64 (generation r + 1)) as [g'|] eqn:Ec; [|done].
  apply checked_Some in Ec as [-> [_ Hg]]. intros. simplify_eq. split_and!; try done.
  - unfold claimable. destruct (cstate r); simpl in *; done.
  - intros Hst. rewrite Hst in E. simpl in E. by apply Z.leb_le.
Qed.

(** ** Properties *)

(** Whatever the interleaving of claims, completions and failures on one
    record, no generation is ever granted twice, and at most one thread at a
    time is between winning the record and publishing its next state. *)
Theorem claim_generations_unique id n m :
  rtc mstep (machine_init id n) m ->
  NoDup (granted m) /\ Forall (fun g => g <= generation (rec m)) (granted m)
  /\ sumZ critical (threads m) <= 1.
Proof.
  intros Hm%minv_reachable. destruct Hm as [Hc _ [Hnd Hg] _ _].
  split; [done |]. split; [done |]. rewrite Hc. by destruct (cstate (rec m)).
Qed.

(** Completion is final: once a record is completed, whatever the threads do
    afterwards, it keeps its state and its result, and exactly one completion
    has reported success. *)
Theorem completion_final id n m m' :
  rtc mstep (machine_init id n) m -> rtc mstep m m' -> cstate (rec m) = COMPLETED ->
  rec m' = rec m /\ length (completed_by m') = 1%nat /\ cresult (rec m') <> None.
Proof.
  intros Hm%minv_reachable Hr Hst. destruct (completed_stable m m' Hm Hr Hst) as [-> ->].
  pose proof (mi_completed _ Hm) as Hd. rewrite Hst in Hd. done.
Qed.

(** Run without interference, each protocol does exactly what its sequential
    definition says: the record reached, the generation granted and the outcome
    reported agree. *)
Theorem claim_methods_refine r e n g v :
  0 <= generation r <= int_max u64 ->
  alone r (TClaimHead e n) (snd (try_claim_generation_until r e n))
    (fst (try_claim_generation_until r e n)) None
  /\ alone r (TCompleteLoad g v) (snd (complete_for r g v)) None
       (if fst (complete_for r g v) then Some g else None)
  /\ alone r (TFailLoad g) (snd (fail_for r g)) None None.
Proof.
  intros Hg. split; [by apply claim_alone |]. split; [apply complete_alone | apply fail_alone].
Qed.

(** The generation check of [complete_for] does not protect the claim: there
    is an interleaving in which the lease of generation 1 expires, generation 2
    is granted to another thread, and the completion of the generation-1 owner
    still succeeds and publishes its result over the live generation-2 claim. *)
Theorem stale_owner_completes :
  exists m, rtc mstep (machine_init 1 2) m
    /\ granted m = [2; 1] /\ generation (rec m) = 2
    /\ completed_by m = [1] /\ cstate (rec m) = COMPLETED
    /\ claim_result (rec m) = Some [7].
Proof. exists two_owners. split; [apply two_owners_reachable | done]. Qed.

Lemma claim_generations_unique_witness :
  NoDup (granted two_owners) /\ Forall (fun g => g <= 2) (granted two_owners)
  /\ sumZ critical (threads two_owners) <= 1.
Proof. apply (claim_generations_unique 1 2 two_owners). exact two_owners_reachable. Defined.

Lemma completion_final_witness :
  let m' := mkMachine (rec two_owners) [TIdle; TFailLoad 2] [2; 1] [1] in
  rec m' = rec two_owners /\ length (completed_by m') = 1%nat /\ cresult (rec m') <> None.
Proof.
  apply (completion_final 1 2 two_owners); [exact two_owners_reachable | | reflexivity].
  apply rtc_once. apply (mstep_thread two_owners 1 TIdle (rec two_owners) (TFailLoad 2) None None);
    [reflexivity | constructor].
Defined.

Lemma claim_methods_refine_witness :
  alone (claimed 4) (TClaimHead 50 20) (mkClaim 4 CLAIMED 50 1 None) (Some 1) None
  /\ alone (claimed 4) (TCompleteLoad 0 None) (mkClaim 4 COMPLETED 0 0 (Some None)) None (Some 0)
  /\ alone (claimed 4) (TFailLoad 0) (mkClaim 4 FAILED 0 0 None) None None.
Proof. apply (claim_methods_refine (claimed 4) 50 20 0 None). vm_compute; split; congruence. Defined.
