(* ===== verification/Reliability.v ===== *)
(** * Reliability contracts ([reliability.rs], [memory/dead_letter.rs])

    Validation of leases, retention and cleanup budgets shared by the stores,
    inbox claims, and dead letters with their bounded diagnostics. *)

From S2P Require Import Prelude Utf8 Errors Time Messages.

(** ** Budgets *)

Definition DEFAULT_INBOX_CLAIM_LEASE : Duration := from_secs (5 * 60).
Definition DEFAULT_IDEMPOTENCY_RETENTION : Duration := from_secs (24 * 60 * 60).
Definition MAX_RETENTION_CLEANUP_LIMIT : nat := 1024.
Definition MAX_DEAD_LETTER_DESCRIPTION_BYTES : nat := 1024.
Definition MAX_DEAD_LETTER_STAGE_BYTES : nat := 64.

Definition validate_completed_retention (retention : Duration) : CatgaResult unit :=
  if retention =? 0
  then fail Validation "completed record retention must be greater than zero"
  else Ok tt.

Definition validate_retention_cleanup_limit (limit : nat) : CatgaResult unit :=
  if (MAX_RETENTION_CLEANUP_LIMIT <? limit)%nat
  then fail Validation "retention cleanup limit exceeds the configured memory budget"
  else Ok tt.

Definition validate_inbox_claim_lease (lease : Duration) : CatgaResult unit :=
  if lease =? 0 then fail Validation "inbox claim lease must be greater than zero" else Ok tt.

(** [SystemTime::now().duration_since(UNIX_EPOCH)] as [u64] milliseconds, with the
    two failures of the reliability helpers. *)
Definition clock_unix_ms (now : SystemTime) : CatgaResult Z :=
  match duration_since_epoch now with
  | Err _ => fail Internal "system clock precedes the Unix epoch"
  | Ok elapsed =>
    match checked u64 (as_millis elapsed) with
    | None => fail Internal "system clock exceeds the supported millisecond range"
    | Some ms => Ok ms
    end
  end.

Definition inbox_claim_expires_at (lease : Duration) (clock : SystemTime) : CatgaResult Z :=
  let? _ := validate_inbox_claim_lease lease in
  let? now := clock_unix_ms clock in
  let? lease := ok_or (checked u64 (as_millis lease)) (CatgaError_new Validation
    "inbox claim lease exceeds the supported millisecond range") in
  ok_or (checked u64 (now + lease)) (CatgaError_new Validation
    "inbox claim deadline exceeds the supported millisecond range").

(** ** Inbox claims *)

Record InboxClaim := mkInboxClaim { claim_message_id : Z; claim_generation : Z }.

Definition InboxClaim_new (message_id generation : Z) : option InboxClaim :=
  if generation =? 0 then None else Some (mkInboxClaim message_id generation).

(** ** Dead letters *)

Record DeadLetterDiagnostics := mkDiagnostics {
  failed_at_unix_ms : Z;
  error_code : ErrorCode;
  stage : string
}.

Record DeadLetter := mkDeadLetter {
  dl_envelope : Envelope;
  reason : string;
  attempts : Z;
  diagnostics : DeadLetterDiagnostics
}.

(** [u8::is_ascii_alphanumeric] or one of [. _ -] *)
Definition stage_byte (b : Z) : bool :=
  ((48 <=? b) && (b <=? 57)) || ((65 <=? b) && (b <=? 90)) || ((97 <=? b) && (b <=? 122))
  || (b =? 46) || (b =? 95) || (b =? 45).

Definition diagnostics_try_at (failed_at : Z) (c : ErrorCode) (stage : string)
    : CatgaResult DeadLetterDiagnostics :=
  let bs := bytes_of_string stage in
  if (length bs =? 0)%nat || (MAX_DEAD_LETTER_STAGE_BYTES <? length bs)%nat
     || negb (forallb stage_byte bs)
  then fail Validation "dead-letter stage must be a bounded ASCII identifier"
  else Ok (mkDiagnostics failed_at c stage).

Definition diagnostics_new (c : ErrorCode) (stage : string) (now : SystemTime)
    : CatgaResult DeadLetterDiagnostics :=
  let? failed_at := clock_unix_ms now in
  diagnostics_try_at failed_at c stage.

(** The truncation loop shared by dead letters and outbox failures: back up from
    [max] to a character boundary. *)
Definition truncate_to (max : nat) (reason : string) : string :=
  let bs := bytes_of_string reason in
  if (length bs <=? max)%nat then reason
  else string_of_bytes (take (floor_char_boundary bs max) bs).

Definition truncate_description : string -> string := truncate_to MAX_DEAD_LETTER_DESCRIPTION_BYTES.

Definition DeadLetter_new (e : Envelope) (reason : string) (attempts : Z) : DeadLetter :=
  mkDeadLetter e (truncate_description reason) attempts (mkDiagnostics 0 Internal "legacy").

Definition try_with_diagnostics (e : Envelope) (reason : string) (attempts : Z)
    (d : DeadLetterDiagnostics) : CatgaResult DeadLetter :=
  if (MAX_DEAD_LETTER_DESCRIPTION_BYTES <? String.length reason)%nat
  then fail Validation "dead-letter error description exceeds the configured memory budget"
  else Ok (mkDeadLetter e reason attempts d).

Definition from_failure (e : Envelope) (error : CatgaError) (attempts : Z) (stage : string)
    (now : SystemTime) : CatgaResult DeadLetter :=
  let? d := diagnostics_new (code error) stage now in
  Ok (mkDeadLetter e (truncate_description (message error)) attempts d).

(** ** Lemmas *)

Lemma truncate_to_ok max s :
  utf8_valid (bytes_of_string s) = true -> truncation_of max s (truncate_to max s).
Proof.
  intros Hv. unfold truncate_to. rewrite length_bytes_of_string.
  destruct (Nat.leb_spec (String.length s) max); [by apply truncation_of_refl |].
  apply truncation_of_floor; [done | lia].
Qed.

Lemma clock_unix_ms_ok now ms :
  clock_unix_ms now = Ok ms -> 0 <= now /\ ms = as_millis now /\ 0 <= ms <= int_max u64.
Proof.
  unfold clock_unix_ms, duration_since_epoch. destruct (Z.leb_spec 0 now); [|done].
  destruct (checked u64 (as_millis now)) eqn:E; [|done]. intros. simplify_eq.
  apply checked_Some in E as [-> ?]. int_bounds. lia.
Qed.

Lemma clock_unix_ms_err now e : clock_unix_ms now = Err e -> code e = Internal.
Proof.
  unfold clock_unix_ms, fail. destruct (duration_since_epoch now); [destruct (checked u64 _) |];
    intros; simplify_eq; done.
Qed.

Lemma inbox_claim_expires_at_ok lease clock e :
  inbox_claim_expires_at lease clock = Ok e ->
  lease <> 0 /\ e = as_millis clock + as_millis lease /\ 0 <= e <= int_max u64.
Proof.
  unfold inbox_claim_expires_at, validate_inbox_claim_lease.
  destruct (Z.eqb_spec lease 0); [done |]. cbn [rbind]. intros Hx. inv_ok Hx.
  apply clock_unix_ms_ok in Hr as (_ & -> & _). inv_ok Hk.
  destruct (checked u64 (as_millis lease)) eqn:E; simplify_eq/=.
  apply checked_Some in E as [-> _].
  destruct (checked u64 (as_millis clock + as_millis lease)) eqn:E2; simplify_eq/=.
  apply checked_Some in E2 as [-> ?]. int_bounds. lia.
Qed.
