(* ===== verification/Retention.v ===== *)
(** * Bounded record tables with retention (shared by [memory/inbox.rs],
    [memory/idempotency.rs] and [memory/outbox.rs])

    The three stores keep the same three things: the records, an index of the
    finished ones with the time they finished and the identity of the record
    they refer to, and a capacity.  Their cleanup loops and their admission
    code are the same text over different record types; this file has both
    once, over a record type with an identity and a "finished" test. *)

From S2P Require Import Prelude Utf8 Errors Time Reliability Capacity.

(** [CompletedRecord] / [PublishedRecord] *)
Record Stamp := mkStamp { finished_at : Z; record_identity : Z }.

#[global] Instance Stamp_eq_dec : EqDecision Stamp.
Proof. solve_decision. Defined.

(** [a.saturating_sub(b)] on [u64] *)
Definition saturating_sub (a b : Z) : Z := Z.max 0 (a - b).

Section table.
Context {K R : Type} `{MapIter K}.
(** [record.identity] and whether the record is completed or published *)
Context (rid : R -> Z) (finished : R -> bool).

Record Table := mkTable {
  records : gmap K R;
  index : gmap K Stamp;
  capacity : RecordCapacity;
  record_sequence : RecordSequence
}.

Definition set_records (t : Table) (m : gmap K R) : Table :=
  mkTable m (index t) (capacity t) (record_sequence t).
Definition set_index (t : Table) (m : gmap K Stamp) : Table :=
  mkTable (records t) m (capacity t) (record_sequence t).
Definition set_capacity (t : Table) (c : RecordCapacity) : Table :=
  mkTable (records t) (index t) c (record_sequence t).

Definition table_new (c : RecordCapacity) : Table := mkTable ∅ ∅ c sequence_new.

(** ** Cleanup *)

(** The snapshot: the first [limit] index entries, filtered by age. *)
Definition candidates (t : Table) (now retention : Z) (limit : nat) : list (K * Stamp) :=
  filter (fun e => retention <= saturating_sub now (finished_at (snd e)))
    (take limit (iter (index t))).

(** [records.remove_if(&id, |_, r| r.identity == candidate.identity && finished)] *)
Definition remove_record (removed : nat) (t : Table) (id : K) (candidate : Stamp)
    : nat * Table :=
  match records t !! id with
  | Some r =>
    if (rid r =? record_identity candidate) && finished r
    then (S removed, set_capacity (set_records t (delete id (records t))) (release (capacity t)))
    else (removed, t)
  | None => (removed, t)
  end.

(** [index.remove_if(&id, |_, current| *current == candidate)] *)
Definition remove_stamp (t : Table) (id : K) (candidate : Stamp) : Table :=
  match index t !! id with
  | Some current => if decide (current = candidate) then set_index t (delete id (index t)) else t
  | None => t
  end.

Definition cleanup_one (acc : nat * Table) (e : K * Stamp) : nat * Table :=
  let '(removed, t) := acc in
  let '(id, candidate) := e in
  let '(removed, t) := remove_record removed t id candidate in
  (removed, remove_stamp t id candidate).

Definition cleanup_loop (t : Table) (cs : list (K * Stamp)) : nat * Table :=
  foldl cleanup_one (0%nat, t) cs.

(** The whole operation; [now] is the clock reading in milliseconds and
    [too_long] the store's message for an unrepresentable retention. *)
Definition cleanup (t : Table) (retention : Duration) (limit : nat)
    (now : CatgaResult Z) (too_long : string) : CatgaResult nat * Table :=
  match
    (let? _ := validate_retention_cleanup_limit limit in
     let? retention := ok_or (checked u64 (as_millis retention))
       (CatgaError_new Validation too_long) in
     let? now := now in
     Ok (now, retention))
  with
  | Err e => (Err e, t)
  | Ok (now, retention) =>
    let '(removed, t) := cleanup_loop t (candidates t now retention limit) in
    (Ok removed, t)
  end.

(** ** Admission: reserve a slot, cleaning up once under pressure *)

Definition admit_record (t : Table) (retention : Duration) (now : CatgaResult Z)
    (too_long exhausted : string) : CatgaResult unit * Table :=
  match reserve (capacity t) with
  | (true, c) => (Ok tt, set_capacity t c)
  | (false, c) =>
    match cleanup (set_capacity t c) retention OPPORTUNISTIC_CLEANUP_LIMIT now too_long with
    | (Err e, t) => (Err e, t)
    | (Ok _, t) =>
      match reserve (capacity t) with
      | (true, c) => (Ok tt, set_capacity t c)
      | (false, c) => (fail Unavailable exhausted, set_capacity t c)
      end
    end
  end.

(** [Entry::Vacant] after a reservation: take an identity and insert, or give the
    slot back. *)
Definition insert_reserved (t : Table) (k : K) (mk : Z -> R) : CatgaResult unit * Table :=
  match sequence_next (record_sequence t) with
  | (Ok id, seq) =>
    (Ok tt, mkTable (<[k := mk id]> (records t)) (index t) (capacity t) seq)
  | (Err e, seq) =>
    (Err e, mkTable (records t) (index t) (release (capacity t)) seq)
  end.

(** ** Invariant

    [slack] counts reservations whose record is not inserted yet. *)

Record table_inv (slack : Z) (t : Table) : Prop := {
  ti_used : used (capacity t) = Z.of_nat (size (records t)) + slack;
  ti_limit : used (capacity t) <= limit (capacity t);
  ti_seq : 1 <= record_sequence t <= int_max u64;
  ti_ids : forall k r, records t !! k = Some r -> 1 <= rid r < record_sequence t;
  ti_unique : forall k k' r r', records t !! k = Some r -> records t !! k' = Some r' ->
    rid r = rid r' -> k = k';
  ti_index : forall k s, index t !! k = Some s -> record_identity s < record_sequence t
}.

Lemma table_inv_new lim : 0 <= lim -> table_inv 0 (table_new (capacity_fixed lim)).
Proof.
  intros. split; simpl; try done; intros; by rewrite lookup_empty in *.
Qed.

(** *** Cleanup *)

(** [t'] is [t] with some finished records whose stamp satisfies [P], and some
    index entries, removed. *)
Record swept (P : Stamp -> Prop) (t t' : Table) : Prop := {
  sw_records : forall k r, records t' !! k = Some r -> records t !! k = Some r;
  sw_index : forall k s, index t' !! k = Some s -> index t !! k = Some s;
  sw_finished : forall k r, records t !! k = Some r -> records t' !! k = None ->
    finished r = true /\ exists s, index t !! k = Some s /\ record_identity s = rid r /\ P s;
  sw_seq : record_sequence t' = record_sequence t;
  sw_limit : limit (capacity t') = limit (capacity t)
}.

(** The slots in use beyond the records stored. *)
Definition surplus (t : Table) : Z := used (capacity t) - Z.of_nat (size (records t)).

Lemma swept_refl P t : swept P t t.
Proof. split; try done. intros. congruence. Qed.

Lemma swept_size P t t' : swept P t t' -> (size (records t') <= size (records t))%nat.
Proof. intros [Hr _ _ _ _]. apply map_subseteq_size, map_subseteq_spec, Hr. Qed.

Lemma swept_inv P slack slack' t t' :
  table_inv slack t -> swept P t t' -> surplus t' = slack' ->
  used (capacity t') <= limit (capacity t') -> table_inv slack' t'.
Proof.
  intros [Hu Hl Hq Hi Hun Hx] [Hr Hix _ Hsq Hlm] Hsur Hle. unfold surplus in Hsur.
  split; rewrite ?Hsq; eauto. lia.
Qed.

Section sweep.
Context (P : Stamp -> Prop).

Lemma remove_stamp_swept t0 t id c :
  swept P t0 t -> swept P t0 (remove_stamp t id c)
  /\ records (remove_stamp t id c) = records t /\ capacity (remove_stamp t id c) = capacity t.
Proof.
  intros Hsw. unfold remove_stamp. destruct (index t !! id); [| done]. case_decide; [| done].
  split; [| done]. destruct Hsw as [S1 S2 S3 S4 S5]. split; simpl; try done.
  intros k st. rewrite lookup_delete_Some. intros [_ ?]. eauto.
Qed.

Lemma remove_record_swept t0 t n id c :
  0 <= surplus t -> swept P t0 t -> index t0 !! id = Some c -> P c ->
  let '(n', t') := remove_record n t id c in
  swept P t0 t' /\ (n' + size (records t') = n + size (records t))%nat /\ (n' <= S n)%nat
  /\ surplus t' = surplus t.
Proof.
  intros Hs Hsw Hid HP. unfold remove_record.
  destruct (records t !! id) as [r|] eqn:Er; [| split_and!; [done | lia..]].
  destruct ((rid r =? _) && finished r) eqn:Ed; [| split_and!; [done | lia..]].
  apply andb_true_iff in Ed as [Eid%Z.eqb_eq Efin].
  assert (size (records t) = S (size (delete id (records t)))) as Hsz.
  { rewrite <-(insert_delete_id (records t) id r Er) at 1.
    by rewrite map_size_insert_None by apply lookup_delete_eq. }
  unfold surplus in *. assert (0 < used (capacity t)) as Hpos by lia.
  split_and!; simpl; rewrite ?release_pos by done; simpl; try lia.
  destruct Hsw as [S1 S2 S3 S4 S5]. split; simpl; rewrite ?release_pos by done; try done.
  - intros k r'. rewrite lookup_delete_Some. intros [_ ?]. eauto.
  - intros k r' Hk0 Hk. destruct (decide (k = id)) as [->|Hne].
    + pose proof (S1 _ _ Er). simplify_eq. eauto.
    + rewrite lookup_delete_ne in Hk by done. eauto.
Qed.

Lemma cleanup_loop_swept t0 cs :
  Forall (fun e => index t0 !! fst e = Some (snd e) /\ P (snd e)) cs ->
  forall n t, 0 <= surplus t -> swept P t0 t ->
  let '(n', t') := foldl cleanup_one (n, t) cs in
  swept P t0 t' /\ (n' + size (records t') = n + size (records t))%nat
  /\ (n' <= n + length cs)%nat /\ surplus t' = surplus t.
Proof.
  intros Hcs. induction Hcs as [|[id c] cs [Hc HP] _ IH]; intros n t Hs Hsw; simpl.
  { split_and!; [done | lia..]. }
  pose proof (remove_record_swept t0 t n id c Hs Hsw Hc HP) as Hrem.
  destruct (remove_record n t id c) as [n1 t1]. destruct Hrem as (Hsw1 & Hn1 & Hle1 & Hs1).
  destruct (remove_stamp_swept t0 t1 id c Hsw1) as (Hsw2 & Heq & Heqc).
  assert (surplus (remove_stamp t1 id c) = surplus t1) as Hs2
    by (unfold surplus; by rewrite Heq, Heqc).
  specialize (IH n1 (remove_stamp t1 id c) ltac:(lia) Hsw2).
  destruct (foldl cleanup_one _ cs) as [n2 t2].
  destruct IH as (? & ? & ? & ?). rewrite Heq in *. split_and!; [done | lia..].
Qed.
End sweep.

Lemma candidates_indexed t now retention lim :
  Forall (fun e => index t !! fst e = Some (snd e)
    /\ retention <= saturating_sub now (finished_at (snd e))) (candidates t now retention lim).
Proof.
  apply Forall_forall. intros [k s] [Hage Hin]%list_elem_of_filter. split; [| done].
  apply elem_of_iter. rewrite <-(take_drop lim (iter (index t))). set_solver.
Qed.

Lemma candidates_length t now retention lim :
  (length (candidates t now retention lim) <= lim)%nat.
Proof.
  unfold candidates. etrans; [apply length_filter |]. rewrite length_take. lia.
Qed.

(** Records finished at least [retention] before [now]. *)
Definition aged (retention : Duration) (now : CatgaResult Z) (s : Stamp) : Prop :=
  exists ms, now = Ok ms /\ as_millis retention <= saturating_sub ms (finished_at s).

(** A cleanup removes at most [limit] records, all finished and old enough, and
    gives back exactly their slots; a refused cleanup changes nothing. *)
Lemma cleanup_spec slack t retention lim now msg :
  0 <= slack -> table_inv slack t ->
  match cleanup t retention lim now msg with
  | (Ok n, t') => swept (aged retention now) t t' /\ table_inv slack t'
      /\ (n + size (records t') = size (records t))%nat /\ (n <= lim)%nat
  | (Err e, t') => t' = t
  end.
Proof.
  intros Hs Hinv. unfold cleanup, validate_retention_cleanup_limit.
  destruct (_ <? lim)%nat; [done |]. cbn [rbind].
  destruct (checked u64 (as_millis retention)) as [ret|] eqn:Er; [|done].
  apply checked_Some in Er as [-> _]. cbn [ok_or rbind].
  destruct now as [ms|e]; [|done]. cbn [rbind]. unfold cleanup_loop.
  pose proof (candidates_indexed t ms (as_millis retention) lim) as Hc.
  pose proof (candidates_length t ms (as_millis retention) lim) as Hl.
  assert (surplus t = slack) as Hsur by (destruct Hinv; unfold surplus; lia).
  pose proof (cleanup_loop_swept (aged retention (Ok ms)) t
    (candidates t ms (as_millis retention) lim)) as Hloop.
  specialize (Hloop ltac:(eapply Forall_impl; [exact Hc |]; intros [k s] [? ?]; split; [done |];
    by exists ms) 0%nat t ltac:(lia) (swept_refl _ t)).
  destruct (foldl cleanup_one (0%nat, t) _) as [n t']. destruct Hloop as (Hsw & Hn & Hle & Hsur').
  split_and!; [done | | lia | lia].
  apply (swept_inv (aged retention (Ok ms)) slack slack t t' Hinv Hsw); [lia |].
  pose proof (swept_size _ _ _ Hsw). destruct Hsw. destruct Hinv. unfold surplus in *. lia.
Qed.

Lemma reserve_inv slack t c :
  0 <= slack -> table_inv slack t -> reserve (capacity t) = (true, c) ->
  table_inv (slack + 1) (set_capacity t c).
Proof.
  intros Hs [Hu Hl Hq Hi Hun Hx] Hr.
  apply reserve_spec in Hr as (Hlim & Hle & Hu' & _); [| done].
  split; simpl; eauto; lia.
Qed.

(** Admission either secures one slot, sweeping only under pressure, or fails
    leaving the table swept. *)
Lemma admit_spec slack t retention now m1 m2 :
  0 <= slack -> table_inv slack t ->
  match admit_record t retention now m1 m2 with
  | (Ok _, t') => table_inv (slack + 1) t' /\ swept (aged retention now) t t'
      /\ (used (capacity t) < limit (capacity t) -> records t' = records t)
  | (Err e, t') => table_inv slack t' /\ swept (aged retention now) t t'
  end.
Proof.
  intros Hs Hinv. unfold admit_record. destruct (reserve (capacity t)) as [[] c] eqn:Er.
  { split; [by eapply reserve_inv |]. split; [| done].
    apply reserve_spec in Er as (? & _); [| apply Hinv]. split; simpl; try done. congruence. }
  assert (c = capacity t /\ ~ used (capacity t) < limit (capacity t)) as [-> Hfull].
  { unfold reserve in Er. destruct (Z.leb_spec (limit (capacity t)) (used (capacity t)));
      simplify_eq. split; [done | lia]. }
  replace (set_capacity t (capacity t)) with t by by destruct t.
  pose proof (cleanup_spec slack t retention OPPORTUNISTIC_CLEANUP_LIMIT now m1 Hs Hinv) as Hc.
  destruct (cleanup t retention _ now m1) as [[n|e] t'].
  2: { subst t'. split; [done | apply swept_refl]. }
  destruct Hc as (Hsw & Hinv' & _). destruct (reserve (capacity t')) as [[] c'] eqn:Er'.
  - split; [by eapply reserve_inv |]. split; [| done].
    apply reserve_spec in Er' as (Hlim & _); [| apply Hinv']. destruct Hsw.
    split; simpl; try done. congruence.
  - apply reserve_spec in Er' as (Hlim & ? & Hu & _); [| apply Hinv'].
    split.
    + destruct Hinv'. split; simpl; eauto; lia.
    + destruct Hsw. split; simpl; try done. congruence.
Qed.

Lemma insert_reserved_spec t k mk :
  table_inv 1 t -> records t !! k = None -> (forall id, rid (mk id) = id) ->
  match insert_reserved t k mk with
  | (Ok _, t') => table_inv 0 t'
      /\ records t' = <[k := mk (record_sequence t)]> (records t) /\ index t' = index t
  | (Err e, t') => table_inv 0 t' /\ records t' = records t /\ index t' = index t
      /\ record_sequence t = int_max u64
  end.
Proof.
  intros [Hu Hl Hq Hi Hun Hx] Hk Hmk. unfold insert_reserved.
  pose proof (sequence_next_spec _ Hq) as Hn.
  destruct (sequence_next (record_sequence t)) as [[id|e] q].
  - destruct Hn as (-> & -> & Hmax). split; [| done]. split; simpl.
    + rewrite map_size_insert_None by done. lia.
    + done.
    + lia.
    + intros k' r. rewrite lookup_insert_Some. intros [[<- <-]|[_ Hr]]; [rewrite Hmk; lia |].
      specialize (Hi _ _ Hr). lia.
    + intros k1 k2 r1 r2. rewrite !lookup_insert_Some.
      intros [[<- <-]|[_ H1]] [[<- <-]|[_ H2]]; rewrite ?Hmk; intros Heq; try done.
      * specialize (Hi _ _ H2). lia.
      * specialize (Hi _ _ H1). lia.
      * by eapply Hun.
    + intros k' s Hs. specialize (Hx _ _ Hs). lia.
  - destruct Hn as (-> & Hmax & _). split; [| done].
    assert (0 < used (capacity t)) by lia. rewrite release_pos by done.
    split; simpl; eauto; lia.
Qed.

Lemma cleanup_error t retention lim now msg e t' :
  cleanup t retention lim now msg = (Err e, t') -> code e = Validation \/ now = Err e.
Proof.
  unfold cleanup, validate_retention_cleanup_limit, fail.
  destruct (_ <? lim)%nat; cbn [rbind]; [intros; simplify_eq; by left |].
  destruct (checked u64 _); cbn [ok_or rbind]; [| intros; simplify_eq; by left].
  destruct now; cbn [rbind]; [| intros; simplify_eq; by right].
  destruct (cleanup_loop t _). intros. simplify_eq.
Qed.

Lemma admit_error t retention now m1 m2 e t' :
  admit_record t retention now m1 m2 = (Err e, t') ->
  code e = Unavailable \/ code e = Validation \/ now = Err e.
Proof.
  unfold admit_record, fail. destruct (reserve (capacity t)) as [[] c]; [done |].
  destruct (cleanup _ _ _ _ _) as [[n|e'] t1] eqn:Ec.
  - destruct (reserve (capacity t1)) as [[] c']; intros; simplify_eq. by left.
  - intros. simplify_eq. right. by eapply cleanup_error.
Qed.

(** *** Records and stamps go together *)

(** Every stamp refers to the finished record it was written for. *)
Definition coherent (t : Table) : Prop :=
  forall k s, index t !! k = Some s ->
    exists r, records t !! k = Some r /\ rid r = record_identity s /\ finished r = true.

(** [t'] is [t] with some keys gone from both maps. *)
Definition synced (t t' : Table) : Prop :=
  forall k, (records t' !! k = records t !! k /\ index t' !! k = index t !! k)
            \/ (records t' !! k = None /\ index t' !! k = None).

Lemma synced_refl t : synced t t.
Proof. intros k. by left. Qed.

Lemma synced_trans t1 t2 t3 : synced t1 t2 -> synced t2 t3 -> synced t1 t3.
Proof.
  intros H12 H23 k. destruct (H12 k) as [[E1 E2]|[E1 E2]], (H23 k) as [[F1 F2]|[F1 F2]];
    rewrite ?F1, ?F2, ?E1, ?E2; auto.
Qed.

Lemma synced_coherent t t' : coherent t -> synced t t' -> coherent t'.
Proof.
  intros Hc Hs k s Hk. destruct (Hs k) as [[E1 E2]|[E1 E2]]; [| congruence].
  rewrite E2 in Hk. rewrite E1. by apply Hc.
Qed.

Lemma cleanup_one_synced t n id c :
  coherent t -> index t !! id = Some c ->
  synced t (snd (cleanup_one (n, t) (id, c)))
  /\ fst (cleanup_one (n, t) (id, c)) = S n
  /\ records (snd (cleanup_one (n, t) (id, c))) !! id = None
  /\ (forall k, k <> id -> index (snd (cleanup_one (n, t) (id, c))) !! k = index t !! k).
Proof.
  intros Hc Hid. destruct (Hc _ _ Hid) as (r & Hr & Hrid & Hfin).
  unfold cleanup_one, remove_record, remove_stamp. rewrite Hr, Hrid, Z.eqb_refl, Hfin. cbn.
  rewrite Hid, decide_True by done. cbn. split_and!; [| done | apply lookup_delete_eq |].
  - intros k. cbn. destruct (decide (k = id)) as [->|Hne].
    + right. by rewrite !lookup_delete_eq.
    + left. by rewrite !lookup_delete_ne.
  - intros k Hne. by rewrite lookup_delete_ne.
Qed.

Lemma cleanup_loop_synced cs :
  NoDup cs.*1 -> forall t n, coherent t ->
  Forall (fun e => index t !! fst e = Some (snd e)) cs ->
  synced t (snd (foldl cleanup_one (n, t) cs))
  /\ fst (foldl cleanup_one (n, t) cs) = (n + length cs)%nat
  /\ Forall (fun e => records (snd (foldl cleanup_one (n, t) cs)) !! fst e = None) cs.
Proof.
  induction cs as [|[id c] cs IH]; intros Hnd t n Hc Hcs.
  { split_and!; [apply synced_refl | simpl; lia | done]. }
  apply NoDup_cons in Hnd as [Hni Hnd]. apply Forall_cons in Hcs as [Hid Hcs]. cbn [fst snd] in Hid.
  destruct (cleanup_one_synced t n id c Hc Hid) as (Hs1 & Hn1 & Hgone & Hidx).
  cbn [foldl]. destruct (cleanup_one (n, t) (id, c)) as [n1 t1]. cbn [fst snd] in *.
  destruct (IH Hnd t1 n1) as (Hs2 & Hn2 & Hall).
  - by eapply synced_coherent.
  - apply Forall_forall. intros [k s] Hin. cbn [fst snd]. rewrite Hidx.
    + rewrite Forall_forall in Hcs. exact (Hcs _ Hin).
    + intros ->. apply Hni. apply list_elem_of_fmap. exists (id, s). done.
  - split_and!; [by eapply synced_trans | simpl; lia |]. constructor; [| done]. cbn [fst].
    destruct (Hs2 id) as [[E _]|[E _]]; congruence.
Qed.

Lemma candidates_nodup t now retention lim : NoDup (candidates t now retention lim).*1.
Proof.
  unfold candidates. eapply sublist_NoDup; [apply (iter_nodup (index t)) |].
  apply fmap_sublist. etrans; [apply sublist_filter | apply sublist_take].
Qed.

(** On a coherent table a cleanup removes exactly the aged entries among the
    first [limit] of the index, records and stamps together. *)
Lemma cleanup_synced t retention lim now msg :
  coherent t ->
  synced t (snd (cleanup t retention lim now msg))
  /\ match fst (cleanup t retention lim now msg) with
     | Ok n => exists ms, now = Ok ms
         /\ n = length (candidates t ms (as_millis retention) lim)
         /\ Forall (fun e => records (snd (cleanup t retention lim now msg)) !! fst e = None)
              (candidates t ms (as_millis retention) lim)
     | Err _ => True
     end.
Proof.
  intros Hc. unfold cleanup, validate_retention_cleanup_limit.
  destruct (_ <? lim)%nat; [split; [apply synced_refl | done] |]. cbn [rbind].
  destruct (checked u64 (as_millis retention)) as [ret|] eqn:Er;
    [| split; [apply synced_refl | done]].
  apply checked_Some in Er as [-> _]. cbn [ok_or rbind].
  destruct now as [ms|e]; [| split; [apply synced_refl | done]]. cbn [rbind]. unfold cleanup_loop.
  destruct (cleanup_loop_synced _ (candidates_nodup t ms (as_millis retention) lim) t 0 Hc)
    as (Hs & Hn & Hall).
  { eapply Forall_impl; [apply candidates_indexed |]. intros e' [? _]. done. }
  destruct (foldl cleanup_one _ _) as [n t']. cbn [fst snd] in *. split; [done |]. eauto.
Qed.

Lemma cleanup_one_other n t id c k :
  k <> id -> records (snd (cleanup_one (n, t) (id, c))) !! k = records t !! k.
Proof.
  intros Hne. unfold cleanup_one, remove_record, remove_stamp.
  destruct (records t !! id) as [r|]; [destruct (_ && _) |]; cbn;
    (destruct (index t !! id); [case_decide |]); cbn; by rewrite ?lookup_delete_ne.
Qed.

Lemma cleanup_loop_other cs k : k ∉ cs.*1 ->
  forall n t, records (snd (foldl cleanup_one (n, t) cs)) !! k = records t !! k.
Proof.
  induction cs as [|[id c] cs IH]; intros Hk n t; [done |]. cbn [foldl].
  apply not_elem_of_cons in Hk as [Hne Hk].
  pose proof (cleanup_one_other n t id c k Hne) as E.
  destruct (cleanup_one (n, t) (id, c)) as [n1 t1]. cbn [snd] in E. by rewrite IH.
Qed.

(** Only the candidates' records can go. *)
Lemma cleanup_touches t retention lim now msg ms k :
  now = Ok ms -> k ∉ (candidates t ms (as_millis retention) lim).*1 ->
  records (snd (cleanup t retention lim now msg)) !! k = records t !! k.
Proof.
  intros -> Hk. unfold cleanup. destruct (validate_retention_cleanup_limit lim); [| done].
  cbn [rbind]. destruct (checked u64 (as_millis retention)) as [ret|] eqn:Er; [| done].
  apply checked_Some in Er as [-> _]. cbn [ok_or rbind].
  pose proof (cleanup_loop_other _ k Hk 0 t) as E. unfold cleanup_loop.
  by destruct (foldl cleanup_one _ _) as [n t'].
Qed.

Lemma admit_synced t retention now m1 m2 :
  coherent t -> synced t (snd (admit_record t retention now m1 m2)).
Proof.
  intros Hc. unfold admit_record. destruct (reserve (capacity t)) as [[] c]; [by left |].
  assert (coherent (set_capacity t c)) as Hc' by done.
  pose proof (proj1 (cleanup_synced (set_capacity t c) retention OPPORTUNISTIC_CLEANUP_LIMIT
    now m1 Hc')) as Hs.
  destruct (cleanup _ _ _ _ _) as [[n|e] t']; [| done]. cbn [fst snd] in *.
  by destruct (reserve (capacity t')) as [[] c'].
Qed.
End table.

Arguments Table K R {_ _}.
Arguments mkTable {K R _ _}.
Arguments records {K R _ _}.
Arguments index {K R _ _}.
Arguments capacity {K R _ _}.
Arguments record_sequence {K R _ _}.
