(* ===== verification/Heap.v ===== *)
(** * Bounded selection with a binary heap

    Three scans of the program keep the [limit] smallest elements they have seen
    in a [BinaryHeap]: the outbox's claim, the stream identifiers of the event
    store, and the due flows.  A [BinaryHeap] is modelled as the ascending list
    of its elements: [push] inserts in order, [peek] and [pop] see the last
    element, [into_sorted_vec] is the list.  The file shows that the scan returns
    the first [limit] elements of the sorted input, whatever the order in which
    it met them. *)

From S2P Require Import Prelude.

Section heap.
Context {A : Type} (R : relation A) `{!RelDecision R}.

Fixpoint heap_push (x : A) (h : list A) : list A :=
  match h with
  | [] => [x]
  | y :: h => if decide (R x y) then x :: y :: h else y :: heap_push x h
  end.

Definition heap_peek (h : list A) : option A := last h.
Definition heap_pop (h : list A) : list A := take (length h - 1) h.

(** [x < y] *)
Definition heap_lt (x y : A) : bool := bool_decide (R x y) && negb (bool_decide (R y x)).

(** One iteration of the scan: keep the [limit] smallest elements seen. *)
Definition select_one (limit : nat) (h : list A) (x : A) : list A :=
  if (length h <? limit)%nat then heap_push x h
  else
    match heap_peek h with
    | Some largest => if heap_lt x largest then heap_push x (heap_pop h) else h
    | None => h
    end.

(** The reference: sort everything, then cut. *)
Definition smallest (limit : nat) (l : list A) : list A := take limit (merge_sort R l).

Context `{!Reflexive R, !Transitive R, !AntiSymm (=) R, !Total R}.

Lemma heap_lt_spec a b : heap_lt a b = true <-> R a b /\ ~ R b a.
Proof.
  unfold heap_lt. rewrite andb_true_iff, negb_true_iff, bool_decide_eq_true, bool_decide_eq_false.
  done.
Qed.

Lemma heap_push_perm x h : heap_push x h ≡ₚ x :: h.
Proof.
  induction h as [|y h IH]; simpl; [done |]. destruct (decide (R x y)); [done |].
  rewrite IH. apply Permutation_swap.
Qed.

Lemma heap_push_sorted x h : StronglySorted R h -> StronglySorted R (heap_push x h).
Proof.
  induction 1 as [|y h Hh IH Hy]; simpl; [repeat constructor |].
  destruct (decide (R x y)) as [E|E].
  - constructor; [by constructor |]. constructor; [done |].
    eapply Forall_impl; [exact Hy |]. intros z. by transitivity y.
  - constructor; [done |]. rewrite heap_push_perm. constructor; [| done].
    by destruct (total R x y).
Qed.

Lemma sorted_unique_perm l l' :
  StronglySorted R l -> StronglySorted R l' -> l ≡ₚ l' -> l = l'.
Proof. apply StronglySorted_unique. apply _. Qed.

Lemma heap_push_take x s n : take n (heap_push x s) = take n (heap_push x (take n s)).
Proof.
  revert n. induction s as [|y s IH]; intros [|n]; simpl; try done.
  destruct (decide (R x y)); cbn [take]; [| by rewrite IH].
  f_equal. destruct n; [done |]. cbn [take]. by rewrite take_take, Nat.min_l by lia.
Qed.

(** Appending an element that is at least as large as all others. *)
Lemma heap_push_last x h :
  StronglySorted R h -> (forall y, y ∈ h -> R y x) -> heap_push x h = h ++ [x].
Proof.
  intros Hs Hle. apply sorted_unique_perm; [by apply heap_push_sorted | |].
  - apply StronglySorted_app. split_and!; [| done | repeat constructor].
    intros a b Ha ->%list_elem_of_singleton. auto.
  - by rewrite heap_push_perm, Permutation_cons_append.
Qed.

Lemma heap_push_init x h m :
  StronglySorted R (h ++ [m]) -> R x m -> heap_push x (h ++ [m]) = heap_push x h ++ [m].
Proof.
  intros Hs Hxm. pose proof Hs as Hs'. apply StronglySorted_app in Hs' as (Hall & Hs' & _).
  apply sorted_unique_perm.
  - by apply heap_push_sorted.
  - apply StronglySorted_app. split_and!; [| by apply heap_push_sorted | repeat constructor].
    intros a b Ha Hb. rewrite heap_push_perm in Ha. set_solver.
  - by rewrite !heap_push_perm.
Qed.

(** When the heap is full, comparing with its largest element decides. *)
Lemma heap_replace x h :
  StronglySorted R h -> h <> [] ->
  take (length h) (heap_push x h)
  = match heap_peek h with
    | Some largest => if heap_lt x largest then heap_push x (heap_pop h) else h
    | None => h
    end.
Proof.
  intros Hs Hne. destruct h as [|m h'] using rev_ind; [done |]. clear IHh'.
  unfold heap_peek, heap_pop. rewrite last_snoc.
  replace (length (h' ++ [m]) - 1)%nat with (length h') by (rewrite length_app; simpl; lia).
  rewrite take_app_length. destruct (heap_lt x m) eqn:E.
  - apply heap_lt_spec in E as [Hxm _]. rewrite heap_push_init by done.
    apply take_app_length'. rewrite heap_push_perm, length_app. simpl. lia.
  - assert (R m x) as Hmx.
    { destruct (decide (R m x)); [done |]. exfalso.
      assert (heap_lt x m = true); [| congruence]. apply heap_lt_spec. split; [| done].
      by destruct (total R x m). }
    rewrite heap_push_last; [apply take_app_length | done |].
    apply StronglySorted_app in Hs as (Hall & _ & _).
    intros y [Hy| ->%list_elem_of_singleton]%elem_of_app; [| done].
    transitivity m; [| done]. apply Hall; [done | set_solver].
Qed.

Lemma sorted_take n l : StronglySorted R l -> StronglySorted R (take n l).
Proof. intros Hs. rewrite <-(take_drop n l) in Hs. by eapply StronglySorted_app_1_l. Qed.

Lemma select_one_take n s x :
  (0 < n)%nat -> StronglySorted R s ->
  select_one n (take n s) x = take n (heap_push x s).
Proof.
  intros Hn Hs. rewrite heap_push_take. unfold select_one.
  destruct (Nat.ltb_spec (length (take n s)) n) as [Hlt|Hge].
  - symmetry. apply take_ge. rewrite heap_push_perm. simpl. lia.
  - assert (length (take n s) = n) as Hlen by (rewrite length_take in *; lia).
    rewrite <-heap_replace; [by rewrite Hlen | by apply sorted_take |].
    intros E. rewrite E in Hlen. simpl in *. lia.
Qed.

Lemma select_fold n l : (0 < n)%nat ->
  forall s, StronglySorted R s ->
  foldl (select_one n) (take n s) l = take n (foldl (flip heap_push) s l).
Proof.
  intros Hn. induction l as [|x l IH]; intros s Hs; simpl; [done |].
  rewrite select_one_take by done. apply IH. by apply heap_push_sorted.
Qed.

Lemma push_fold l : forall s, StronglySorted R s ->
  StronglySorted R (foldl (flip heap_push) s l) /\ foldl (flip heap_push) s l ≡ₚ l ++ s.
Proof.
  induction l as [|x l IH]; intros s Hs; simpl; [done |].
  destruct (IH (heap_push x s)) as [H1 H2]; [by apply heap_push_sorted |]. split; [done |].
  change (flip heap_push s x) with (heap_push x s).
  rewrite H2, heap_push_perm. by rewrite <-Permutation_middle.
Qed.

Lemma select_smallest n l : (0 < n)%nat -> foldl (select_one n) [] l = smallest n l.
Proof.
  intros Hn. pose proof (select_fold n l Hn [] (SSorted_nil _)) as E.
  rewrite take_nil in E. rewrite E. unfold smallest. f_equal.
  destruct (push_fold l [] (SSorted_nil _)) as [Hs Hp]. rewrite app_nil_r in Hp.
  apply sorted_unique_perm; [done | apply (StronglySorted_merge_sort _) |].
  by rewrite Hp, merge_sort_Permutation.
Qed.

Lemma smallest_perm n l l' : l ≡ₚ l' -> smallest n l = smallest n l'.
Proof.
  intros Hp. unfold smallest. f_equal.
  apply sorted_unique_perm; [apply (StronglySorted_merge_sort _) .. |].
  by rewrite !merge_sort_Permutation.
Qed.

Lemma smallest_elem n l x : x ∈ smallest n l -> x ∈ l.
Proof.
  intros Hx. rewrite <-(merge_sort_Permutation R l).
  rewrite <-(take_drop n (merge_sort R l)). apply elem_of_app. by left.
Qed.

Lemma smallest_length n l : length (smallest n l) = Nat.min n (length l).
Proof. unfold smallest. by rewrite length_take, merge_sort_Permutation. Qed.

Lemma smallest_sorted n l : StronglySorted R (smallest n l).
Proof. apply sorted_take, StronglySorted_merge_sort; apply _. Qed.

(** Nothing left out is smaller than anything selected. *)
Lemma smallest_least n l x y : x ∈ smallest n l -> y ∈ l -> y ∉ smallest n l -> R x y.
Proof.
  intros Hx Hy Hny. rewrite <-(merge_sort_Permutation R l) in Hy.
  pose proof (StronglySorted_merge_sort R l) as Hs.
  rewrite <-(take_drop n (merge_sort R l)) in Hy, Hs.
  apply elem_of_app in Hy as [Hy|Hy]; [done |].
  by eapply StronglySorted_app_1_elem_of.
Qed.
End heap.
