(* ===== verification/BTree.v ===== *)
(** * Ordered maps

    A [BTreeMap] is a [gmap] with a total order on its keys; iteration is over the entries
    sorted by key, and [first_key_value] is the first of them. *)

From S2P Require Import Prelude.

Section btree.
Context {K : Type} `{Countable K} (R : relation K) `{!RelDecision R}.

Definition entry_le {V} (a b : K * V) : Prop := R a.1 b.1.

#[global] Instance entry_le_dec V : RelDecision (@entry_le V).
Proof. intros a b. unfold entry_le. apply _. Defined.

Definition entries {V} (m : gmap K V) : list (K * V) := merge_sort entry_le (map_to_list m).

Definition first_key_value {V} (m : gmap K V) : option (K * V) := head (entries m).

Context `{!Reflexive R, !Transitive R, !AntiSymm (=) R, !Total R}.
Context {V : Type}.
Implicit Types m : gmap K V.

#[local] Instance entry_le_trans : Transitive (@entry_le V).
Proof. intros a b c. unfold entry_le. by transitivity b.1. Qed.
#[local] Instance entry_le_total : Total (@entry_le V).
Proof. intros a b. unfold entry_le. apply (total R). Qed.

Lemma entries_perm m : entries m ≡ₚ map_to_list m.
Proof. apply merge_sort_Permutation. Qed.

Lemma entries_sorted m : StronglySorted entry_le (entries m).
Proof. apply (StronglySorted_merge_sort _). Qed.

Lemma elem_of_entries m k v : (k, v) ∈ entries m <-> m !! k = Some v.
Proof. by rewrite entries_perm, elem_of_map_to_list. Qed.

Lemma entries_nodup m : NoDup (entries m).*1.
Proof. rewrite entries_perm. apply NoDup_fst_map_to_list. Qed.

Lemma entries_length m : length (entries m) = size m.
Proof. by rewrite entries_perm, length_map_to_list. Qed.

(** A sorted enumeration of a map is its [entries]. *)
Lemma entries_unique m l : StronglySorted entry_le l -> l ≡ₚ map_to_list m -> l = entries m.
Proof.
  intros Hs Hp. apply (StronglySorted_unique_strong entry_le); [| done | apply entries_sorted |].
  - intros [k v] [k' v'] H1 H2 Hle Hge. rewrite Hp, elem_of_map_to_list in H1.
    rewrite elem_of_entries in H2. assert (k = k') as -> by by apply (anti_symm R).
    congruence.
  - by rewrite entries_perm.
Qed.

Lemma entries_delete_first m k v l : entries m = (k, v) :: l -> entries (delete k m) = l.
Proof.
  intros E. symmetry. apply entries_unique.
  - pose proof (entries_sorted m) as Hs. rewrite E in Hs. by inversion Hs.
  - apply (Permutation_cons_inv (a := (k, v))). rewrite <-E, entries_perm.
    symmetry. apply map_to_list_delete. apply elem_of_entries. rewrite E. by left.
Qed.

Lemma entries_nil m : entries m = [] <-> m = ∅.
Proof.
  rewrite <-length_zero_iff_nil, entries_length. apply map_size_empty_iff.
Qed.

Lemma first_key_value_Some m k v :
  first_key_value m = Some (k, v) ->
  m !! k = Some v /\ entries m = (k, v) :: entries (delete k m)
  /\ forall k', is_Some (m !! k') -> R k k'.
Proof.
  unfold first_key_value. destruct (entries m) as [|e l] eqn:E; [done |]. intros [= ->].
  rewrite (entries_delete_first _ _ _ _ E). split_and!; [| done |].
  - apply elem_of_entries. rewrite E. by left.
  - intros k' [v' Hk]. apply elem_of_entries in Hk. rewrite E in Hk.
    apply elem_of_cons in Hk as [[= -> ->]|Hk]; [done |].
    pose proof (entries_sorted m) as Hs. rewrite E in Hs. inversion Hs as [|? ? _ Hf]; subst.
    rewrite Forall_forall in Hf. by apply (Hf (k', v')).
Qed.

Lemma first_key_value_None m : first_key_value m = None -> m = ∅.
Proof. unfold first_key_value. rewrite <-entries_nil. by destruct (entries m). Qed.
End btree.

(** ** Keys ordered by a time and then a string (derived [Ord] of a struct) *)

Abbreviation tkey := (Z * string)%type.

Definition tle (a b : tkey) : Prop := a.1 < b.1 \/ (a.1 = b.1 /\ String.le a.2 b.2).

#[global] Instance tle_dec : RelDecision tle.
Proof. intros a b. unfold tle. apply _. Defined.
#[global] Instance tle_refl : Reflexive tle.
Proof. intros a. right. by split. Qed.
#[global] Instance tle_trans : Transitive tle.
Proof.
  intros a b c [?|[? H1]] [?|[? H2]]; try (left; lia). right. split; [lia | by transitivity b.2].
Qed.
#[global] Instance tle_antisymm : AntiSymm (=) tle.
Proof.
  intros [a1 a2] [b1 b2] [?|[? H1]] [?|[? H2]]; simpl in *; try lia. subst.
  f_equal. by apply (anti_symm String.le).
Qed.
#[global] Instance tle_total : Total tle.
Proof.
  intros [a1 a2] [b1 b2]. unfold tle. simpl. destruct (Z.lt_trichotomy a1 b1) as [?|[->|?]].
  - left. by left.
  - destruct (total String.le a2 b2); [left | right]; right; done.
  - right. by left.
Qed.
