(* ===== verification/Search.v ===== *)
(** * The binary search of slices

    The loop of [slice::binary_search_by], with which [partition_point] and the lookups of sorted
    vectors are written. *)

From S2P Require Import Prelude.

(** [partition_point]: the branch-free binary search of [slice::binary_search_by].  [fuel]
    bounds the halvings; the length is enough. *)
Fixpoint search_loop {A} (pred : A -> bool) (l : list A) (fuel base size : nat) : nat :=
  match fuel with
  | O => base
  | S fuel =>
    if (size <=? 1)%nat then base
    else
      let half := (size / 2)%nat in
      let mid := (base + half)%nat in
      let base := if default false (pred <$> l !! mid) then mid else base in
      search_loop pred l fuel base (size - half)
  end.

Definition partition_point {A} (pred : A -> bool) (l : list A) : nat :=
  match l with
  | [] => 0%nat
  | _ => let base := search_loop pred l (length l) 0 (length l) in
         if default false (pred <$> l !! base) then S base else base
  end.

(** [binary_search_by(|x| cmp x)] followed by [.ok()] *)
Definition binary_search_by {A} (cmp : A -> comparison) (l : list A) : option nat :=
  match l with
  | [] => None
  | _ =>
    let base := search_loop (fun x => match cmp x with Gt => false | _ => true end) l (length l) 0 (length l) in
    match cmp <$> l !! base with Some Eq => Some base | _ => None end
  end.

Section search.
Context {A : Type}.
Implicit Types (pred : A -> bool) (l : list A).

(** The search ends within the vector and, on a vector with the predicate true on a prefix
    only, at the end of that prefix. *)
Lemma search_loop_spec pred l k fuel base size :
  (forall i x, l !! i = Some x -> pred x = true <-> (i < k)%nat) -> (0 < size <= fuel)%nat -> (base + size <= length l)%nat ->
  (base < k \/ base = 0)%nat -> (k <= base + size)%nat ->
  let b := search_loop pred l fuel base size in (b < length l)%nat /\ (b < k \/ b = 0)%nat /\ (k <= S b)%nat.
Proof.
  intros Hk. revert base size. induction fuel as [|fuel IH]; intros base size Hs Hb Hbase Hend; [lia |]. cbn [search_loop].
  destruct (Nat.leb_spec size 1); [lia |].
  assert (1 <= size / 2 /\ 2 * (size / 2) <= size)%nat as [H1 H2].
  { split; [by apply Nat.div_le_lower_bound; lia | apply Nat.Div0.mul_div_le]. }
  revert H1 H2. generalize (size / 2)%nat. intros half H1 H2.
  destruct (lookup_lt_is_Some_2 l (base + half)%nat ltac:(lia)) as [x Hx]. rewrite Hx. specialize (Hk _ _ Hx). simpl.
  destruct (pred x); simpl; apply IH; try lia.
Qed.

Lemma search_loop_range pred l fuel base size :
  (0 < size)%nat -> (base + size <= length l)%nat -> (search_loop pred l fuel base size < length l)%nat.
Proof.
  revert base size. induction fuel as [|fuel IH]; intros base size Hs Hb; cbn [search_loop]; [lia |]. destruct (Nat.leb_spec size 1); [lia |].
  pose proof (Nat.div_lt size 2 ltac:(lia) ltac:(lia)). destruct (default false _); apply IH; lia.
Qed.

Lemma partition_point_range pred l : (partition_point pred l <= length l)%nat.
Proof.
  unfold partition_point. destruct l as [|x l]; [done |]. pose proof (search_loop_range pred (x :: l) (length (x :: l)) 0 (length (x :: l))).
  destruct (default false _); simpl in *; lia.
Qed.

Lemma partition_point_app pred a b :
  Forall (fun x => pred x = true) a -> Forall (fun x => pred x = false) b -> partition_point pred (a ++ b) = length a.
Proof.
  intros Ha Hb. unfold partition_point. destruct (a ++ b) as [|z l] eqn:El; [by apply app_eq_nil in El as [-> _] |]. rewrite <- El.
  assert (forall i x, (a ++ b) !! i = Some x -> pred x = true <-> (i < length a)%nat) as Hk.
  { intros i x Hi. apply lookup_app_Some in Hi as [Hi|[Hge Hi]].
    - rewrite Forall_forall in Ha. split; [by intros _; apply lookup_lt_Some in Hi |]. intros _. apply Ha. by eapply list_elem_of_lookup_2.
    - rewrite Forall_forall in Hb. rewrite (Hb x) by (by eapply list_elem_of_lookup_2). split; [done | lia]. }
  assert (0 < length (a ++ b))%nat by (rewrite El; simpl; lia).
  destruct (search_loop_spec pred (a ++ b) (length a) (length (a ++ b)) 0 (length (a ++ b)) Hk) as (H1 & H2 & H3);
    [lia | lia | by right | rewrite length_app; lia |].
  set (base := search_loop _ _ _ _ _) in *. destruct (lookup_lt_is_Some_2 (a ++ b) base H1) as [x Hx]. rewrite Hx. simpl.
  specialize (Hk base x Hx). destruct (pred x).
  - assert (base < length a)%nat by (by apply Hk). lia.
  - destruct H2 as [H2|H2]; [apply Hk in H2; done |]. destruct (Nat.lt_ge_cases base (length a)) as [Hlt|]; [apply Hk in Hlt; done | lia].
Qed.

(** In a vector in the order of [cmp], less first, with at most one equal element, the search finds
    that element. *)
Lemma binary_search_found cmp l1 x l2 :
  Forall (fun y => cmp y = Lt) l1 -> cmp x = Eq -> Forall (fun y => cmp y = Gt) l2 ->
  binary_search_by cmp (l1 ++ x :: l2) = Some (length l1).
Proof.
  intros H1 Hx H2. unfold binary_search_by.
  set (pred := fun y => match cmp y with Gt => false | _ => true end). set (l := l1 ++ x :: l2).
  assert (forall i y, l !! i = Some y -> pred y = true <-> (i < S (length l1))%nat) as Hk.
  { intros i y Hi. unfold l in Hi. apply lookup_app_Some in Hi as [Hi|[Hge Hi]].
    - rewrite Forall_lookup in H1. unfold pred. rewrite (H1 _ _ Hi). apply lookup_lt_Some in Hi. split; [lia | done].
    - destruct (i - length l1)%nat as [|j] eqn:E; simpl in Hi.
      + simplify_eq. unfold pred. rewrite Hx. split; [lia | done].
      + rewrite Forall_lookup in H2. unfold pred. rewrite (H2 _ _ Hi). split; [done | lia]. }
  assert (length l = length l1 + S (length l2))%nat as Hlen by (unfold l; by rewrite length_app).
  destruct (search_loop_spec pred l (S (length l1)) (length l) 0 (length l) Hk) as (Hb1 & Hb2 & Hb3); [lia | lia | lia | lia |].
  assert (search_loop pred l (length l) 0 (length l) = length l1) as E by lia.
  destruct l as [|z l'] eqn:El; [simpl in Hlen; lia |]. rewrite E, <-El. unfold l.
  rewrite list_lookup_middle by done. simpl. by rewrite Hx.
Qed.

Lemma binary_search_sound cmp l i : binary_search_by cmp l = Some i -> exists x, l !! i = Some x /\ cmp x = Eq.
Proof.
  unfold binary_search_by. destruct l as [|z l]; [done |]. intros H.
  destruct ((z :: l) !! _) as [x|] eqn:E; simpl in H; [| done]. destruct (cmp x) eqn:Ex; simplify_eq. eauto.
Qed.
End search.
