(* ===== verification/Ids.v ===== *)
(** * Distributed identifiers ([distributed_id.rs])

    A [SnowflakeIdGenerator] packs milliseconds since its epoch, a worker number and
    a sequence number into 63 bits.  Its only state is one atomic word that holds the
    last timestamp and sequence handed out.  [fill] is given as it runs alone, with
    the readings of the clock as a list it consumes; [gstep] interleaves the load and
    the exchange of [reserve_at] in any number of threads. *)

From S2P Require Import Prelude Utf8 Errors Time.

Definition INITIALIZED : Z := Z.shiftl 1 63.
Definition DEFAULT_EPOCH_MILLIS : Z := 1704067200000.

(** ** Layouts *)

Record SnowflakeLayout := mkLayout {
  timestamp_bits : Z;
  worker_id_bits : Z;
  sequence_bits : Z;
  epoch_millis : Z
}.

Definition max_worker_id (l : SnowflakeLayout) : Z :=
  wrapping u32 (Z.shiftl 1 (worker_id_bits l) - 1).
Definition max_sequence (l : SnowflakeLayout) : Z := Z.shiftl 1 (sequence_bits l) - 1.
Definition timestamp_shift (l : SnowflakeLayout) : Z := worker_id_bits l + sequence_bits l.
Definition worker_id_shift (l : SnowflakeLayout) : Z := sequence_bits l.

Definition layout_validate (l : SnowflakeLayout) : CatgaResult unit :=
  if negb (timestamp_bits l + worker_id_bits l + sequence_bits l =? 63)
  then fail Validation "Snowflake timestamp, worker, and sequence bits must total 63"
  else if negb ((30 <=? timestamp_bits l) && (timestamp_bits l <=? 50))
          || (20 <? worker_id_bits l) || (20 <? sequence_bits l)
  then fail Validation "Snowflake bit allocation is outside the supported ranges"
  else Ok tt.

Definition layout_new (timestamp_bits worker_id_bits sequence_bits epoch_millis : Z)
    : CatgaResult SnowflakeLayout :=
  let layout := mkLayout timestamp_bits worker_id_bits sequence_bits epoch_millis in
  let? _ := layout_validate layout in
  Ok layout.

Definition layout_default : SnowflakeLayout := mkLayout 44 8 11 DEFAULT_EPOCH_MILLIS.

(** ** The generator *)

Record IdMetadata := mkIdMetadata {
  timestamp_millis : Z;
  id_worker : Z;
  id_sequence : Z
}.

Record SnowflakeIdGenerator := mkGenerator {
  worker_id : Z;
  layout : SnowflakeLayout;
  id_state : Z
}.

Definition set_id_state (g : SnowflakeIdGenerator) (s : Z) : SnowflakeIdGenerator :=
  mkGenerator (worker_id g) (layout g) s.

Record IdReservation := mkReservation {
  timestamp_offset : Z;
  start_sequence : Z;
  res_count : nat
}.

Definition generator_new (worker_id : Z) (l : SnowflakeLayout) : CatgaResult SnowflakeIdGenerator :=
  let? _ := layout_validate l in
  if max_worker_id l <? worker_id
  then fail Validation "Snowflake worker identifier exceeds the configured layout"
  else Ok (mkGenerator worker_id l 0).

Definition now_offset (l : SnowflakeLayout) (clock : SystemTime) : CatgaResult Z :=
  let? elapsed := map_err (fun _ => CatgaError_new Internal "system time predates Unix epoch")
    (duration_since_epoch clock) in
  let? now := ok_or (checked u64 (as_millis elapsed))
    (CatgaError_new Internal "system milliseconds overflow u64") in
  ok_or (checked u64 (now - epoch_millis l))
    (CatgaError_new Transient "Snowflake clock precedes the configured epoch").

(** The body of the loop of [reserve_at] up to the exchange: what to reserve and the
    word to store, given the word that was loaded. *)
Definition plan (l : SnowflakeLayout) (current offset : Z) (requested : nat)
    : CatgaResult (option (IdReservation * Z)) :=
  let? start :=
    if Z.land current INITIALIZED =? 0 then Ok (Some (offset, 0))
    else
      let packed := Z.land current (Z.lnot INITIALIZED) in
      let last_timestamp := Z.shiftr packed (sequence_bits l) in
      let last_sequence := Z.land packed (max_sequence l) in
      if offset <? last_timestamp then fail Transient "Snowflake clock moved backwards"
      else if last_timestamp <? offset then Ok (Some (offset, 0))
      else if last_sequence <? max_sequence l then Ok (Some (last_timestamp, last_sequence + 1))
      else Ok None in
  match start with
  | None => Ok None
  | Some (reserved_timestamp, start_sequence) =>
    let available := max_sequence l - start_sequence + 1 in
    let count := Nat.min requested (Z.to_nat available) in
    let end_sequence := start_sequence + Z.of_nat count - 1 in
    let next := Z.lor (Z.lor INITIALIZED
                  (wrapping u64 (Z.shiftl reserved_timestamp (sequence_bits l)))) end_sequence in
    Ok (Some (mkReservation reserved_timestamp start_sequence count, next))
  end.

(** The checks of [reserve_at] before its loop: [Some] is its early return. *)
Definition reserve_guard (l : SnowflakeLayout) (offset : Z) (requested : nat)
    : option (CatgaResult (option IdReservation)) :=
  if (requested =? 0)%nat then Some (Ok None)
  else if Z.shiftl 1 (timestamp_bits l) <=? offset
  then Some (fail Validation "Snowflake timestamp exceeds the configured layout lifetime")
  else None.

(** Run alone, the exchange succeeds at the first attempt. *)
Definition reserve_at (g : SnowflakeIdGenerator) (offset : Z) (requested : nat)
    : CatgaResult (option IdReservation) * SnowflakeIdGenerator :=
  match reserve_guard (layout g) offset requested with
  | Some r => (r, g)
  | None =>
    match plan (layout g) (id_state g) offset requested with
    | Err e => (Err e, g)
    | Ok None => (Ok None, g)
    | Ok (Some (r, next)) => (Ok (Some r), set_id_state g next)
    end
  end.

(** The identifiers of a reservation, as [fill] writes them *)
Definition reservation_ids (l : SnowflakeLayout) (worker : Z) (r : IdReservation) : list Z :=
  let base := Z.lor (wrapping u64 (Z.shiftl (timestamp_offset r) (timestamp_shift l)))
                    (wrapping u64 (Z.shiftl worker (worker_id_shift l))) in
  (fun offset => Z.lor base (start_sequence r + Z.of_nat offset)) <$> seq 0 (res_count r).

(** [wait_for_next_millis] reads the clock until it passes [last_offset]; the result
    comes with the readings left, [None] when the list has no further one. *)
Fixpoint wait_for_next_millis (l : SnowflakeLayout) (last_offset : Z) (clocks : list SystemTime)
    : option (CatgaResult Z * list SystemTime) :=
  match clocks with
  | [] => None
  | clock :: clocks =>
    match now_offset l clock with
    | Err e => Some (Err e, clocks)
    | Ok offset =>
      if last_offset <? offset then Some (Ok offset, clocks)
      else wait_for_next_millis l last_offset clocks
    end
  end.

(** The loop of [fill] over its buffer; each round reads the clock, so the number of
    readings bounds the rounds.  [None]: the loop is still waiting for the clock. *)
Fixpoint fill_loop (fuel : nat) (g : SnowflakeIdGenerator) (offset : Z) (destination : list Z)
    (written : nat) (clocks : list SystemTime)
    : option (CatgaResult unit * list Z * SnowflakeIdGenerator) :=
  if (written <? length destination)%nat then
    match fuel with
    | O => None
    | S fuel =>
      let remaining := (length destination - written)%nat in
      match reserve_at g offset remaining with
      | (Err e, g) => Some (Err e, destination, g)
      | (Ok None, g) =>
        match wait_for_next_millis (layout g) offset clocks with
        | None => None
        | Some (Err e, _) => Some (Err e, destination, g)
        | Some (Ok offset, clocks) => fill_loop fuel g offset destination written clocks
        end
      | (Ok (Some r), g) =>
        let destination := take written destination
                           ++ reservation_ids (layout g) (worker_id g) r
                           ++ drop (written + res_count r) destination in
        let written := (written + res_count r)%nat in
        match clocks with
        | [] => None
        | clock :: clocks =>
          match now_offset (layout g) clock with
          | Err e => Some (Err e, destination, g)
          | Ok offset => fill_loop fuel g offset destination written clocks
          end
        end
      end
    end
  else Some (Ok tt, destination, g).

Definition fill (g : SnowflakeIdGenerator) (destination : list Z) (clocks : list SystemTime)
    : option (CatgaResult unit * list Z * SnowflakeIdGenerator) :=
  match clocks with
  | [] => None
  | clock :: clocks =>
    match now_offset (layout g) clock with
    | Err e => Some (Err e, destination, g)
    | Ok offset => fill_loop (S (length clocks)) g offset destination 0 clocks
    end
  end.

Definition next_id (g : SnowflakeIdGenerator) (clocks : list SystemTime)
    : option (CatgaResult Z * SnowflakeIdGenerator) :=
  (fun '(r, destination, g) => (rmap (fun _ => default 0 (head destination)) r, g))
  <$> fill g [0] clocks.

(** [+] wraps in a release build. *)
Definition parse_id (l : SnowflakeLayout) (id : Z) : IdMetadata :=
  mkIdMetadata (wrapping u64 (Z.shiftr id (timestamp_shift l) + epoch_millis l))
    (wrapping u32 (Z.land (Z.shiftr id (worker_id_shift l)) (max_worker_id l)))
    (Z.land id (max_sequence l)).

(** ** Decimal output *)

(** [while remaining >= 10]: a [u64] has at most twenty digits. *)
Fixpoint count_digits (fuel : nat) (remaining : Z) (digits : nat) : nat :=
  match fuel with
  | O => digits
  | S fuel => if 10 <=? remaining then count_digits fuel (remaining / 10) (S digits) else digits
  end.

(** [for index in (0..digits).rev()] *)
Fixpoint write_digits (digits : nat) (value : Z) (destination : list Z) : list Z :=
  match digits with
  | O => destination
  | S index => write_digits index (value / 10) (<[index := 48 + value mod 10]> destination)
  end.

Definition write_decimal_u64 (value : Z) (destination : list Z) : option nat * list Z :=
  let digits := count_digits 20 value 1 in
  if (length destination <? digits)%nat then (None, destination)
  else (Some digits, write_digits digits value destination).

Definition try_write_next_id (g : SnowflakeIdGenerator) (destination : list Z)
    (clocks : list SystemTime)
    : option (CatgaResult (option nat) * list Z * SnowflakeIdGenerator) :=
  match next_id g clocks with
  | None => None
  | Some (Err e, g) => Some (Err e, destination, g)
  | Some (Ok id, g) =>
    let '(n, destination) := write_decimal_u64 id destination in
    Some (Ok n, destination, g)
  end.

(** ** Many threads over one generator

    A thread reads the clock, then runs the loop of [reserve_at]: load the word, plan,
    exchange.  [g_readings] lists the offsets in the order they were read and
    [issued] the identifiers in the order of the exchanges that reserved them. *)

Inductive gpc :=
| GIdle
| GCalled (offset : Z) (requested : nat)
| GLoaded (offset : Z) (requested : nat) (current : Z).

Record GMachine := mkGMachine {
  g_word : Z;
  issued : list Z;
  g_readings : list Z;
  g_threads : list gpc
}.

Inductive gstep (l : SnowflakeLayout) (w : Z) : GMachine -> GMachine -> Prop :=
| gs_call s out rd ts i offset n :
    ts !! i = Some GIdle -> 0 <= offset ->
    gstep l w (mkGMachine s out rd ts)
      (mkGMachine s out (rd ++ [offset]) (<[i := GCalled offset n]> ts))
| gs_refused s out rd ts i offset n r :
    ts !! i = Some (GCalled offset n) -> reserve_guard l offset n = Some r ->
    gstep l w (mkGMachine s out rd ts) (mkGMachine s out rd (<[i := GIdle]> ts))
| gs_load s out rd ts i offset n :
    ts !! i = Some (GCalled offset n) -> reserve_guard l offset n = None ->
    gstep l w (mkGMachine s out rd ts) (mkGMachine s out rd (<[i := GLoaded offset n s]> ts))
| gs_error s out rd ts i offset n c e :
    ts !! i = Some (GLoaded offset n c) -> plan l c offset n = Err e ->
    gstep l w (mkGMachine s out rd ts) (mkGMachine s out rd (<[i := GIdle]> ts))
| gs_exhausted s out rd ts i offset n c :
    ts !! i = Some (GLoaded offset n c) -> plan l c offset n = Ok None ->
    gstep l w (mkGMachine s out rd ts) (mkGMachine s out rd (<[i := GIdle]> ts))
| gs_exchange s out rd ts i offset n r next :
    ts !! i = Some (GLoaded offset n s) -> plan l s offset n = Ok (Some (r, next)) ->
    gstep l w (mkGMachine s out rd ts)
      (mkGMachine next (out ++ reservation_ids l w r) rd (<[i := GIdle]> ts))
| gs_retry s out rd ts i offset n c r next :
    ts !! i = Some (GLoaded offset n c) -> plan l c offset n = Ok (Some (r, next)) -> c <> s ->
    gstep l w (mkGMachine s out rd ts) (mkGMachine s out rd (<[i := GLoaded offset n s]> ts)).

Definition ginit (n : nat) : GMachine := mkGMachine 0 [] [] (replicate n GIdle).

(** ** What the word and an identifier stand for *)

Record layout_ok (l : SnowflakeLayout) : Prop := {
  lo_t : 30 <= timestamp_bits l <= 50;
  lo_w : 0 <= worker_id_bits l <= 20;
  lo_s : 0 <= sequence_bits l <= 20;
  lo_sum : timestamp_bits l + worker_id_bits l + sequence_bits l = 63
}.

(** Bit counts are [u8]. *)
Definition u8_bits (l : SnowflakeLayout) : Prop :=
  0 <= timestamp_bits l /\ 0 <= worker_id_bits l /\ 0 <= sequence_bits l.

Lemma layout_validate_ok l : u8_bits l -> layout_validate l = Ok tt <-> layout_ok l.
Proof.
  intros (Ht & Hw & Hs). unfold layout_validate.
  destruct (Z.eqb_spec (timestamp_bits l + worker_id_bits l + sequence_bits l) 63); simpl.
  - destruct (Z.leb_spec 30 (timestamp_bits l)), (Z.leb_spec (timestamp_bits l) 50),
      (Z.ltb_spec 20 (worker_id_bits l)), (Z.ltb_spec 20 (sequence_bits l)); simpl;
      (split; [intros; first [done | split; lia] | intros [? ? ? ?]; first [done | lia]]).
  - split; [done | intros []; lia].
Qed.

(** A position: the timestamp and sequence of an identifier *)
Abbreviation position := (Z * Z)%type.

Record pos_ok (l : SnowflakeLayout) (p : position) : Prop := {
  po_t : 0 <= fst p < 2 ^ timestamp_bits l;
  po_s : 0 <= snd p < 2 ^ sequence_bits l
}.

Definition word_of (l : SnowflakeLayout) (last : option position) : Z :=
  match last with
  | None => 0
  | Some (t, q) => INITIALIZED + (t * 2 ^ sequence_bits l + q)
  end.

Definition id_of (l : SnowflakeLayout) (w : Z) (p : position) : Z :=
  (fst p * 2 ^ worker_id_bits l + w) * 2 ^ sequence_bits l + snd p.

(** The identifier handed out last, [-1] for none *)
Definition last_id (l : SnowflakeLayout) (w : Z) (last : option position) : Z :=
  match last with Some p => id_of l w p | None => -1 end.

(** *** Bit fields *)

Lemma shiftl_1 b : 0 <= b -> Z.shiftl 1 b = 2 ^ b.
Proof. intros. rewrite Z.shiftl_mul_pow2 by done. lia. Qed.

Lemma land_mask x b : 0 <= b -> Z.land x (2 ^ b - 1) = x mod 2 ^ b.
Proof. intros. rewrite <-Z.land_ones by done. f_equal. rewrite Z.ones_equiv. lia. Qed.

Lemma initialized_bits x :
  0 <= x < 2 ^ 63 ->
  Z.land (INITIALIZED + x) INITIALIZED = INITIALIZED
  /\ Z.land (INITIALIZED + x) (Z.lnot INITIALIZED) = x
  /\ Z.lor INITIALIZED x = INITIALIZED + x.
Proof.
  intros Hx. assert (Z.lor INITIALIZED x = INITIALIZED + x) as E.
  { unfold INITIALIZED. rewrite lor_shiftl_add by lia. rewrite shiftl_1; lia. }
  assert (Z.land INITIALIZED x = 0) as D.
  { pose proof (Z.add_lor_land INITIALIZED x). lia. }
  rewrite <-E, !Z.land_lor_distr_l, Z.land_diag, Z.land_lnot_diag, (Z.land_comm x INITIALIZED), D.
  rewrite Z.lor_0_r, Z.lor_0_l, <-Z.sub_lor_l_same_l. split_and!; [done | lia | lia].
Qed.

Section layout.
Context (l : SnowflakeLayout) (Hl : layout_ok l).

Lemma max_sequence_eq : max_sequence l = 2 ^ sequence_bits l - 1.
Proof. destruct Hl. unfold max_sequence. by rewrite shiftl_1 by lia. Qed.

Lemma max_worker_eq : max_worker_id l = 2 ^ worker_id_bits l - 1.
Proof.
  destruct Hl. unfold max_worker_id. rewrite shiftl_1 by lia. apply wrapping_id; [done |].
  pose proof (Z.pow_le_mono_r 2 (worker_id_bits l) 20 ltac:(lia) ltac:(lia)).
  pose proof (Z.pow_pos_nonneg 2 (worker_id_bits l)). int_bounds. lia.
Qed.

(** The widths multiply to the 63 bits of an identifier. *)
Lemma widths_pos :
  0 < 2 ^ timestamp_bits l /\ 0 < 2 ^ worker_id_bits l /\ 0 < 2 ^ sequence_bits l
  /\ 2 ^ timestamp_bits l * 2 ^ worker_id_bits l * 2 ^ sequence_bits l = 2 ^ 63.
Proof.
  destruct Hl as [? ? ? Hsum]. split_and!; [apply Z.pow_pos_nonneg; lia.. |].
  by rewrite <-!Z.pow_add_r, Hsum by lia.
Qed.

Lemma packed_bounds p :
  pos_ok l p -> 0 <= fst p * 2 ^ sequence_bits l + snd p < 2 ^ 63.
Proof.
  intros [Ht Hq]. pose proof widths_pos as (? & ? & ? & E). split; [lia |]. rewrite <-E.
  assert (fst p + 1 <= 2 ^ timestamp_bits l * 2 ^ worker_id_bits l) by nia. nia.
Qed.

Lemma id_bounds w p :
  0 <= w <= max_worker_id l -> pos_ok l p -> 0 <= id_of l w p < 2 ^ 63.
Proof.
  rewrite max_worker_eq. intros Hw [Ht Hq]. pose proof widths_pos as (? & ? & ? & E). unfold id_of.
  assert (0 <= fst p * 2 ^ worker_id_bits l + w < 2 ^ timestamp_bits l * 2 ^ worker_id_bits l) by nia.
  split; [nia |]. rewrite <-E. nia.
Qed.

(** Identifiers are ordered as their positions. *)
Definition pos_lt (p p' : position) : Prop := fst p < fst p' \/ (fst p = fst p' /\ snd p < snd p').

Lemma id_of_lt w p p' :
  0 <= w <= max_worker_id l -> pos_ok l p -> pos_ok l p' -> pos_lt p p' ->
  id_of l w p < id_of l w p'.
Proof.
  rewrite max_worker_eq. intros Hw [Ht Hq] [Ht' Hq'] [H|[E H]]; unfold id_of.
  - pose proof widths_pos as (? & ? & ? & _).
    assert (fst p * 2 ^ worker_id_bits l + w < fst p' * 2 ^ worker_id_bits l + w) by nia. nia.
  - rewrite E. lia.
Qed.

(** [parse] recovers the parts. *)
Lemma parse_id_of w p :
  0 <= w <= max_worker_id l -> pos_ok l p ->
  parse_id l (id_of l w p)
  = mkIdMetadata (wrapping u64 (fst p + epoch_millis l)) w (snd p).
Proof.
  intros Hw Hp. pose proof Hl as [? ? ? ?]. pose proof Hp as [Ht Hq].
  pose proof widths_pos as (? & ? & ? & _). unfold parse_id.
  rewrite max_worker_eq, max_sequence_eq, !land_mask by lia.
  rewrite max_worker_eq in Hw.
  unfold timestamp_shift, worker_id_shift. rewrite (Z.add_comm (worker_id_bits l)), <-Z.shiftr_shiftr by lia.
  rewrite !Z.shiftr_div_pow2 by lia. unfold id_of. rewrite Z.div_add_l, (Z.div_small (snd p)) by lia.
  rewrite Z.add_0_r, Z.div_add_l, (Z.div_small w), Z.add_0_r by lia.
  f_equal.
  - rewrite Z.add_comm, Z.mod_add, Z.mod_small by lia. apply wrapping_id; [done |].
    pose proof (Z.pow_le_mono_r 2 (worker_id_bits l) 20 ltac:(lia) ltac:(lia)). int_bounds. lia.
  - by rewrite Z.add_comm, Z.mod_add, Z.mod_small by lia.
Qed.

(** *** What a reservation does *)

Definition last_ok (last : option position) : Prop := forall p, last = Some p -> pos_ok l p.

(** Where the next reservation starts, in terms of positions *)
Definition next_start (last : option position) (offset : Z) : CatgaResult (option position) :=
  match last with
  | None => Ok (Some (offset, 0))
  | Some (t, q) =>
    if offset <? t then fail Transient "Snowflake clock moved backwards"
    else if t <? offset then Ok (Some (offset, 0))
    else if q <? 2 ^ sequence_bits l - 1 then Ok (Some (t, q + 1))
    else Ok None
  end.

Lemma word_unpack t q :
  pos_ok l (t, q) ->
  Z.land (word_of l (Some (t, q))) INITIALIZED = INITIALIZED
  /\ Z.shiftr (Z.land (word_of l (Some (t, q))) (Z.lnot INITIALIZED)) (sequence_bits l) = t
  /\ Z.land (Z.land (word_of l (Some (t, q))) (Z.lnot INITIALIZED)) (max_sequence l) = q.
Proof.
  intros Hp. pose proof (packed_bounds (t, q) Hp) as Hb. cbn [fst snd] in Hb.
  destruct (initialized_bits _ Hb) as (E1 & E2 & _). unfold word_of. rewrite E1, E2.
  pose proof Hl as [_ _ ? _]. pose proof widths_pos as (_ & _ & ? & _). destruct Hp as [_ Hq]. simpl in Hq.
  rewrite max_sequence_eq, land_mask, Z.shiftr_div_pow2 by lia.
  rewrite Z.div_add_l, Z.div_small by lia.
  split_and!; [done | lia | by rewrite Z.add_comm, Z.mod_add, Z.mod_small by lia].
Qed.

Lemma word_pack t q :
  pos_ok l (t, q) ->
  Z.lor (Z.lor INITIALIZED (wrapping u64 (Z.shiftl t (sequence_bits l)))) q
  = word_of l (Some (t, q)).
Proof.
  intros Hp. pose proof (packed_bounds (t, q) Hp) as Hb. cbn [fst snd] in Hb.
  pose proof Hl as [_ _ ? _]. destruct Hp as [Ht Hq]. simpl in Ht, Hq.
  assert (0 <= Z.shiftl t (sequence_bits l) <= int_max u64).
  { rewrite Z.shiftl_mul_pow2 by lia. int_bounds. lia. }
  rewrite wrapping_id by done. rewrite <-Z.lor_assoc, lor_shiftl_add by lia.
  by apply initialized_bits.
Qed.

Record reserves (w : Z) (last : option position) (offset : Z) (n : nat) (r : IdReservation)
    (p : position) : Prop := {
  rv_time : fst p = offset;
  rv_ok : pos_ok l p;
  rv_count : (0 < res_count r <= n)%nat;
  rv_length : length (reservation_ids l w r) = res_count r;
  rv_sorted : StronglySorted Z.lt (reservation_ids l w r);
  rv_range : forall id, id ∈ reservation_ids l w r ->
    last_id l w last < id <= id_of l w p
    /\ exists q, pos_ok l (offset, q) /\ id = id_of l w (offset, q)
}.

Lemma reservation_ids_eq w r :
  0 <= w <= max_worker_id l ->
  (forall i, (i < res_count r)%nat -> pos_ok l (timestamp_offset r, start_sequence r + Z.of_nat i)) ->
  reservation_ids l w r
  = (fun i => id_of l w (timestamp_offset r, start_sequence r + Z.of_nat i)) <$> seq 0 (res_count r).
Proof.
  intros Hw Hp. unfold reservation_ids. apply list_fmap_ext. intros k i Hi.
  apply lookup_seq in Hi as [-> Hk]. specialize (Hp _ Hk). simpl.
  pose proof (id_bounds w _ Hw Hp) as Hb. unfold id_of in *. cbn [fst snd] in *.
  pose proof Hp as [Ht Hq]. cbn [fst snd] in *. pose proof Hl as [_ ? ? _].
  rewrite max_worker_eq in Hw. pose proof widths_pos as (_ & ? & ? & _).
  assert (Z.shiftl (timestamp_offset r) (timestamp_shift l)
          = Z.shiftl (Z.shiftl (timestamp_offset r) (worker_id_bits l)) (sequence_bits l)) as E.
  { unfold timestamp_shift. rewrite Z.shiftl_shiftl by lia. done. }
  rewrite E. unfold worker_id_shift.
  assert (0 <= Z.shiftl (Z.shiftl (timestamp_offset r) (worker_id_bits l)) (sequence_bits l)
          <= int_max u64) as B1.
  { rewrite !Z.shiftl_mul_pow2 by lia. int_bounds. nia. }
  assert (0 <= Z.shiftl w (sequence_bits l) <= int_max u64) as B2.
  { rewrite !Z.shiftl_mul_pow2 by lia. int_bounds. nia. }
  rewrite !wrapping_id by done.
  rewrite <-Z.shiftl_lor, (lor_shiftl_add _ w), lor_shiftl_add by lia. done.
Qed.

Lemma sorted_seq_map (f : nat -> Z) n a :
  (forall i j, (i < j < a + n)%nat -> f i < f j) -> StronglySorted Z.lt (f <$> seq a n).
Proof.
  revert a. induction n as [|n IH]; intros a Hf; simpl; constructor.
  - apply IH. intros. apply Hf. lia.
  - apply Forall_fmap, Forall_forall. intros j Hj. apply elem_of_seq in Hj. simpl. apply Hf. lia.
Qed.

Lemma reserve_from w last offset q n :
  0 <= w <= max_worker_id l -> n <> 0%nat -> pos_ok l (offset, q) ->
  last_id l w last < id_of l w (offset, q) ->
  let c := Nat.min n (Z.to_nat (max_sequence l - q + 1)) in
  reserves w last offset n (mkReservation offset q c) (offset, q + Z.of_nat c - 1).
Proof.
  intros Hw Hn [Ht Hq] Hlast c. cbn [fst snd] in *.
  assert ((0 < c <= n)%nat /\ q + Z.of_nat c <= 2 ^ sequence_bits l) as [Hc Hcq].
  { subst c. rewrite max_sequence_eq. lia. }
  assert (forall i, (i < c)%nat -> pos_ok l (offset, q + Z.of_nat i)) as Hp.
  { intros i Hi. split; simpl; lia. }
  pose proof (reservation_ids_eq w (mkReservation offset q c) Hw Hp) as E.
  cbn [timestamp_offset start_sequence res_count] in E.
  split; [done | split; simpl; lia | done | | |].
  - by rewrite E, length_fmap, length_seq.
  - rewrite E. apply sorted_seq_map. intros i j Hij.
    apply id_of_lt; [done | apply Hp; lia.. |]. right. simpl. lia.
  - intros id. rewrite E. intros (i & -> & Hi)%list_elem_of_fmap. apply elem_of_seq in Hi.
    split; [| exists (q + Z.of_nat i); split; [apply Hp; lia | done]].
    unfold id_of in *. cbn [fst snd] in *. lia.
Qed.

Lemma plan_spec w last offset n :
  0 <= w <= max_worker_id l -> last_ok last -> 0 <= offset < 2 ^ timestamp_bits l -> n <> 0%nat ->
  match plan l (word_of l last) offset n with
  | Err e => e = CatgaError_new Transient "Snowflake clock moved backwards"
             /\ exists p, last = Some p /\ offset < fst p
  | Ok None => last = Some (offset, max_sequence l)
  | Ok (Some (r, next)) => exists p, next = word_of l (Some p) /\ reserves w last offset n r p
  end.
Proof.
  intros Hw Hok Ho Hn. pose proof widths_pos as (_ & _ & Hs & _).
  assert (forall q, pos_ok l (offset, q) -> last_id l w last < id_of l w (offset, q) ->
    let c := Nat.min n (Z.to_nat (max_sequence l - q + 1)) in
    exists p, Z.lor (Z.lor INITIALIZED (wrapping u64 (Z.shiftl offset (sequence_bits l))))
                (q + Z.of_nat c - 1) = word_of l (Some p)
      /\ reserves w last offset n (mkReservation offset q c) p) as Hgo.
  { intros q Hp Hlt c. pose proof (reserve_from w last offset q n Hw Hn Hp Hlt) as Hr.
    exists (offset, q + Z.of_nat c - 1). split; [| exact Hr]. apply word_pack. exact (rv_ok _ _ _ _ _ _ Hr). }
  assert (pos_ok l (offset, 0)) as H0 by (split; simpl; lia).
  unfold plan. destruct last as [[t q]|].
  - specialize (Hok _ eq_refl) as Hp. destruct (word_unpack t q Hp) as (E1 & E2 & E3).
    rewrite E1, E2, E3. change (INITIALIZED =? 0) with false. cbn [rbind].
    pose proof Hp as [_ Hq]. cbn [snd] in Hq.
    destruct (Z.ltb_spec offset t); [split; [done | by exists (t, q)] |]. destruct (Z.ltb_spec t offset); cbn [rbind].
    + apply Hgo; [done |]. apply id_of_lt; [done.. |]. by left.
    + assert (t = offset) as -> by lia. rewrite max_sequence_eq.
      destruct (Z.ltb_spec q (2 ^ sequence_bits l - 1)); cbn [rbind].
      * rewrite <-max_sequence_eq. apply Hgo; [split; simpl; lia |].
        unfold last_id, id_of. simpl. lia.
      * do 2 f_equal. lia.
  - change (Z.land (word_of l None) INITIALIZED =? 0) with true. cbn [rbind]. apply Hgo; [done |].
    pose proof (id_bounds w _ Hw H0). simpl. lia.
Qed.
End layout.

(** ** The interleaved generator *)

Record ginv (l : SnowflakeLayout) (w : Z) (m : GMachine) (last : option position) : Prop := {
  gi_word : g_word m = word_of l last;
  gi_last : last_ok l last;
  gi_sorted : StronglySorted Z.lt (issued m);
  gi_issued : Forall (fun id => id <= last_id l w last
                /\ exists p, pos_ok l p /\ id = id_of l w p) (issued m);
  gi_threads : Forall (fun p => match p with
                 | GIdle => True
                 | GCalled offset _ => 0 <= offset
                 | GLoaded offset n _ => 0 <= offset < 2 ^ timestamp_bits l /\ n <> 0%nat
                 end) (g_threads m)
}.

Lemma reserve_guard_None l offset n :
  layout_ok l -> reserve_guard l offset n = None ->
  offset < 2 ^ timestamp_bits l /\ n <> 0%nat.
Proof.
  intros [? _ _ _]. unfold reserve_guard. destruct (Nat.eqb_spec n 0); [done |].
  rewrite shiftl_1 by lia. destruct (Z.leb_spec (2 ^ timestamp_bits l) offset); [done | lia].
Qed.

(** Appending the identifiers of a reservation to those issued before *)
Lemma issued_extend l w last offset n r p out :
  reserves l w last offset n r p -> StronglySorted Z.lt out ->
  Forall (fun id => id <= last_id l w last /\ exists p, pos_ok l p /\ id = id_of l w p) out ->
  StronglySorted Z.lt (out ++ reservation_ids l w r)
  /\ Forall (fun id => id <= last_id l w (Some p) /\ exists p, pos_ok l p /\ id = id_of l w p)
       (out ++ reservation_ids l w r).
Proof.
  intros [_ _ Hc Hlen Hs Hr] Hout Hf. rewrite Forall_forall in Hf. split.
  - apply StronglySorted_app. split_and!; [| done..]. intros x y Hx Hy.
    destruct (Hf _ Hx) as [? _]. destruct (Hr _ Hy) as [? _]. lia.
  - apply Forall_app. split; apply Forall_forall; intros x Hx.
    + destruct (Hf _ Hx) as [Hle ?]. split; [| done].
      destruct (reservation_ids l w r) as [|y ys] eqn:E; [simpl in Hlen; lia |].
      destruct (Hr y) as [? _]; [by left |]. simpl. lia.
    + destruct (Hr _ Hx) as [? (q & ? & ?)]. split; [simpl; lia | eauto].
Qed.

Lemma ginv_step l w m m' last :
  layout_ok l -> 0 <= w <= max_worker_id l ->
  ginv l w m last -> gstep l w m m' -> exists last', ginv l w m' last'.
Proof.
  intros Hl Hw [Hword Hlast Hs Hi Ht] Hstep.
  destruct Hstep as [s out rd ts i offset n Hth ?|s out rd ts i offset n r Hth Hg
    |s out rd ts i offset n Hth Hg|s out rd ts i offset n c e Hth Hp|s out rd ts i offset n c Hth Hp
    |s out rd ts i offset n r next Hth Hp|s out rd ts i offset n c r next Hth Hp ?]; simpl in *;
    pose proof (Forall_lookup_1 _ _ _ _ Ht Hth) as Hi'; simpl in Hi'.
  6: { subst s. destruct Hi' as [Hoff Hn]. pose proof (plan_spec l Hl w last offset n Hw Hlast Hoff Hn) as Hsp.
       rewrite Hp in Hsp. destruct Hsp as (p & -> & Hr).
       destruct (issued_extend l w last offset n r p out Hr Hs Hi) as [Hs' Hi''].
       exists (Some p). split; simpl; [done | | done | done | by apply Forall_insert].
       intros q [= <-]. exact (rv_ok _ _ _ _ _ _ _ Hr). }
  all: exists last; split; simpl; try done; apply Forall_insert; try done.
  destruct (reserve_guard_None _ _ _ Hl Hg). lia.
Qed.

Lemma ginv_reachable l w n m :
  layout_ok l -> 0 <= w <= max_worker_id l ->
  rtc (gstep l w) (ginit n) m -> exists last, ginv l w m last.
Proof.
  intros Hl Hw Hr. apply (rtc_ind_r (R := gstep l w) (fun m => exists last, ginv l w m last) (ginit n)); [| | done].
  - exists None. split; simpl; [done | done | constructor | constructor |].
    apply Forall_replicate. done.
  - intros m1 m2 _ Hs [last Hi]. eauto using ginv_step.
Qed.

Lemma sorted_lt_NoDup (ids : list Z) : StronglySorted Z.lt ids -> NoDup ids.
Proof.
  induction 1 as [|x ids _ IH Hx]; constructor; [| done].
  intros Hin. rewrite Forall_forall in Hx. specialize (Hx _ Hin). lia.
Qed.

Lemma generator_new_ok w l g :
  u8_bits l -> generator_new w l = Ok g ->
  layout_ok l /\ w <= max_worker_id l /\ g = mkGenerator w l 0.
Proof.
  intros Hu. unfold generator_new. intros H. apply rbind_ok_inv in H as ([] & Hv & H).
  apply layout_validate_ok in Hv; [| done].
  destruct (Z.ltb_spec (max_worker_id l) w); [done |]. by simplify_eq.
Qed.

(** C37: However many threads share a generator, whatever the clock does and however the
    loads and exchanges interleave, the identifiers come out strictly increasing (so
    none is handed out twice), they fit in 63 bits and name their worker, and no
    generator with another worker number of the same layout issues any of them. *)
Theorem snowflake_unique l w w' g g' n n' s s' :
  u8_bits l -> 0 <= w -> 0 <= w' -> w <> w' ->
  generator_new w l = Ok g -> generator_new w' l = Ok g' ->
  rtc (gstep l w) (ginit n) s -> rtc (gstep l w') (ginit n') s' ->
  StronglySorted Z.lt (issued s) /\ NoDup (issued s)
  /\ Forall (fun id => 0 <= id < 2 ^ 63 /\ id_worker (parse_id l id) = w) (issued s)
  /\ (forall id, id ∈ issued s -> id ∉ issued s').
Proof.
  intros Hu Hw0 Hw0' Hne Hg Hg' Hr Hr'.
  apply generator_new_ok in Hg as (Hl & Hw & _); [| done].
  apply generator_new_ok in Hg' as (_ & Hw' & _); [| done].
  destruct (ginv_reachable l w n s Hl (conj Hw0 Hw) Hr) as [last [_ _ Hs Hi _]].
  destruct (ginv_reachable l w' n' s' Hl (conj Hw0' Hw') Hr') as [last' [_ _ _ Hi' _]].
  rewrite Forall_forall in Hi, Hi'.
  assert (forall id, id ∈ issued s -> id_worker (parse_id l id) = w) as Hworker.
  { intros id Hid. destruct (Hi _ Hid) as [_ (p & Hp & ->)]. by rewrite parse_id_of. }
  split_and!; [done | | |].
  - by apply sorted_lt_NoDup.
  - apply Forall_forall. intros id Hid. split; [| by apply Hworker].
    destruct (Hi _ Hid) as [_ (p & Hp & ->)]. by apply id_bounds.
  - intros id Hid Hid'. apply Hne. rewrite <-(Hworker id Hid).
    destruct (Hi' _ Hid') as [_ (p & Hp & ->)]. by rewrite parse_id_of.
Qed.

(** The sequential reading: [reserve_at] run alone is one pass of the loop. *)
Lemma reserve_at_runs g offset n ts i out rd r g' :
  reserve_at g offset n = (Ok (Some r), g') -> ts !! i = Some GIdle -> 0 <= offset ->
  rtc (gstep (layout g) (worker_id g)) (mkGMachine (id_state g) out rd ts)
    (mkGMachine (id_state g') (out ++ reservation_ids (layout g) (worker_id g) r)
       (rd ++ [offset]) ts).
Proof.
  intros Hr Hi Ho. unfold reserve_at in Hr.
  destruct (reserve_guard (layout g) offset n) eqn:Eg.
  { simplify_eq. unfold reserve_guard in Eg. case_all. }
  destruct (plan (layout g) (id_state g) offset n) as [[[r' next]|]|] eqn:Ep; simplify_eq/=.
  assert (i < length ts)%nat by eauto using lookup_lt_Some.
  eapply rtc_l; [by apply (gs_call _ _ _ _ _ _ i offset n) |].
  eapply rtc_l; [apply (gs_load _ _ _ _ _ _ i offset n); [by rewrite list_lookup_insert_eq | done] |].
  eapply rtc_l; [eapply (gs_exchange _ _ _ _ _ _ i offset n); [by rewrite list_lookup_insert_eq by (by rewrite length_insert) | done] |].
  rewrite !list_insert_insert_eq, list_insert_id by done. apply rtc_refl.
Qed.

(** ** [fill] run alone *)

Record gen_wf (g : SnowflakeIdGenerator) (last : option position) : Prop := {
  gw_layout : layout_ok (layout g);
  gw_worker : 0 <= worker_id g <= max_worker_id (layout g);
  gw_word : id_state g = word_of (layout g) last;
  gw_last : last_ok (layout g) last
}.

Lemma now_offset_ok l clock offset :
  now_offset l clock = Ok offset ->
  0 <= offset /\ offset + epoch_millis l = as_millis clock
  /\ 0 <= as_millis clock <= int_max u64.
Proof.
  unfold now_offset, duration_since_epoch. destruct (Z.leb_spec 0 clock) as [Hc|]; simpl; [| done].
  intros H. apply rbind_ok_inv in H as (now & Hn & H). unfold ok_or in *.
  destruct (checked u64 (as_millis clock)) eqn:E; simplify_eq. apply checked_Some in E as [-> E].
  destruct (checked u64 (as_millis clock - epoch_millis l)) eqn:E'; simplify_eq.
  apply checked_Some in E' as [-> E']. int_bounds. lia.
Qed.

(** One call of [reserve_at] *)
Lemma reserve_at_spec g last offset n :
  gen_wf g last -> 0 <= offset -> n <> 0%nat ->
  match reserve_at g offset n with
  | (Ok (Some r), g') =>
      exists p, reserves (layout g) (worker_id g) last offset n r p
        /\ layout g' = layout g /\ worker_id g' = worker_id g /\ gen_wf g' (Some p)
  | (Ok None, g') => g' = g /\ last = Some (offset, max_sequence (layout g))
  | (Err e, g') => g' = g /\ (2 ^ timestamp_bits (layout g) <= offset
                             \/ exists p, last = Some p /\ offset < fst p)
  end.
Proof.
  intros [Hl Hw Hword Hlast] Ho Hn. unfold reserve_at.
  destruct (reserve_guard (layout g) offset n) as [r|] eqn:Eg.
  - unfold reserve_guard in Eg. destruct (Nat.eqb_spec n 0); [done |].
    rewrite shiftl_1 in Eg by (destruct Hl; lia).
    destruct (Z.leb_spec (2 ^ timestamp_bits (layout g)) offset); simplify_eq.
    split; [done | by left].
  - apply reserve_guard_None in Eg as [Hlt _]; [| done].
    pose proof (plan_spec _ Hl (worker_id g) last offset n Hw Hlast (conj Ho Hlt) Hn) as Hp.
    rewrite Hword. destruct (plan _ _ offset n) as [[[r next]|]|e]; [| done | naive_solver].
    destruct Hp as (p & -> & Hr). exists p. split_and!; [done.. |].
    split; simpl; [done | done | done |]. intros q [= <-]. exact (rv_ok _ _ _ _ _ _ _ Hr).
Qed.

(** [ids] were issued between two positions, at offsets in [T] *)
Record advance (l : SnowflakeLayout) (w : Z) (last last' : option position) (T : Z -> Prop)
    (ids : list Z) : Prop := {
  ad_le : last_id l w last <= last_id l w last';
  ad_sorted : StronglySorted Z.lt ids;
  ad_range : forall id, id ∈ ids -> last_id l w last < id <= last_id l w last'
    /\ exists o q, T o /\ pos_ok l (o, q) /\ id = id_of l w (o, q)
}.

Lemma advance_nil l w last T : advance l w last last T [].
Proof. split; [lia | constructor | set_solver]. Qed.

Lemma advance_app l w last1 last2 last3 T ids1 ids2 :
  advance l w last1 last2 T ids1 -> advance l w last2 last3 T ids2 ->
  advance l w last1 last3 T (ids1 ++ ids2).
Proof.
  intros [L1 S1 R1] [L2 S2 R2]. split; [lia | |].
  - apply StronglySorted_app. split_and!; [| done..]. intros x y Hx Hy.
    destruct (R1 _ Hx) as [? _], (R2 _ Hy) as [? _]. lia.
  - intros id [Hid|Hid]%elem_of_app.
    + destruct (R1 _ Hid) as [? ?]. split; [lia | done].
    + destruct (R2 _ Hid) as [? ?]. split; [lia | done].
Qed.

Lemma advance_weaken l w last last' (T T' : Z -> Prop) ids :
  (forall o, T o -> T' o) -> advance l w last last' T ids -> advance l w last last' T' ids.
Proof. intros HT [? ? Hr]. split; [done | done | naive_solver]. Qed.

Lemma advance_reserves l w last offset n r p (T : Z -> Prop) :
  reserves l w last offset n r p -> T offset ->
  advance l w last (Some p) T (reservation_ids l w r).
Proof.
  intros [_ _ Hc Hlen Hs Hr] HT. split; [| done |].
  - destruct (reservation_ids l w r) as [|y ys] eqn:E; [simpl in Hlen; lia |].
    destruct (Hr y) as [? _]; [by left |]. simpl. lia.
  - intros id Hid. destruct (Hr _ Hid) as (? & q & ? & ?). split; [simpl; lia | eauto].
Qed.

Definition read_in (l : SnowflakeLayout) (clocks : list SystemTime) (o : Z) : Prop :=
  exists clock, clock ∈ clocks /\ now_offset l clock = Ok o.

Lemma wait_spec l last_offset clocks r rest :
  wait_for_next_millis l last_offset clocks = Some (r, rest) ->
  (exists seen, clocks = seen ++ rest)
  /\ match r with Ok o => last_offset < o /\ read_in l clocks o | Err _ => True end.
Proof.
  induction clocks as [|c clocks IH]; simpl; [done |].
  destruct (now_offset l c) as [o|e] eqn:E.
  - destruct (Z.ltb_spec last_offset o); intros H0.
    + simplify_eq. split; [by exists [c] |]. split; [done |]. exists c. split; [by left | done].
    + destruct (IH H0) as ([seen ->] & Hr). split; [by exists (c :: seen) |].
      destruct r as [o'|]; [| done]. destruct Hr as [? (c' & ? & ?)]. split; [done |].
      exists c'. split; [by right | done].
  - intros. simplify_eq. split; [by exists [c] | done].
Qed.

(** The buffer after [ids] were written at [written] *)
Definition overwrite (destination : list Z) (written : nat) (ids : list Z) : list Z :=
  take written destination ++ ids ++ drop (written + length ids) destination.

Lemma overwrite_app d k ids1 ids2 :
  (k + length ids1 <= length d)%nat ->
  overwrite (overwrite d k ids1) (k + length ids1) ids2 = overwrite d k (ids1 ++ ids2).
Proof.
  intros Hk. unfold overwrite.
  assert (length (take k d ++ ids1) = k + length ids1)%nat as Hlen by (rewrite length_app, length_take; lia).
  rewrite (app_assoc (take k d)). rewrite take_app_length' by lia.
  rewrite drop_app_ge, Hlen, drop_drop by lia. rewrite length_app, <-!app_assoc.
  do 4 f_equal. lia.
Qed.

Lemma length_overwrite d k ids : (k + length ids <= length d)%nat -> length (overwrite d k ids) = length d.
Proof. intros. unfold overwrite. rewrite !length_app, length_take, length_drop. lia. Qed.

Lemma overwrite_nil d k : overwrite d k [] = d.
Proof. unfold overwrite. simpl. by rewrite Nat.add_0_r, take_drop. Qed.

(** What [fill_loop] leaves behind when it returns *)
Record filled (g : SnowflakeIdGenerator) (last : option position) (T : Z -> Prop)
    (d : list Z) (k : nat) (r : CatgaResult unit) (d' : list Z) (g' : SnowflakeIdGenerator)
    (ids : list Z) (last' : option position) : Prop := {
  fl_dest : d' = overwrite d k ids;
  fl_room : (k + length ids <= length d)%nat;
  fl_done : r = Ok tt -> (k + length ids = length d)%nat;
  fl_layout : layout g' = layout g;
  fl_worker : worker_id g' = worker_id g;
  fl_wf : gen_wf g' last';
  fl_ids : advance (layout g) (worker_id g) last last' T ids
}.

Lemma filled_stop g last T d k r :
  gen_wf g last -> (k <= length d)%nat -> (r = Ok tt -> k = length d) ->
  filled g last T d k r d g [] last.
Proof.
  intros Hg Hk Hr. split; simpl; rewrite ?Nat.add_0_r; [by rewrite overwrite_nil | done | done
    | done | done | done | apply advance_nil].
Qed.

Lemma filled_weaken g last (T T' : Z -> Prop) d k r d' g' ids last' :
  (forall o, T o -> T' o) ->
  filled g last T d k r d' g' ids last' -> filled g last T' d k r d' g' ids last'.
Proof. intros HT [? ? ? ? ? ? ?]. split; eauto using advance_weaken. Qed.

(** A reservation followed by the rest of the loop *)
Lemma filled_reserve g last offset n r p (T : Z -> Prop) d k g1 res d' g' ids last' :
  reserves (layout g) (worker_id g) last offset n r p -> T offset ->
  layout g1 = layout g -> worker_id g1 = worker_id g -> (k + n <= length d)%nat ->
  let ids0 := reservation_ids (layout g) (worker_id g) r in
  filled g1 (Some p) T (overwrite d k ids0) (k + res_count r) res d' g' ids last' ->
  filled g last T d k res d' g' (ids0 ++ ids) last'.
Proof.
  intros Hr HT El Ew Hk ids0 [Hd Hroom Hdone Hl Hw Hwf Hids].
  pose proof (rv_length _ _ _ _ _ _ _ Hr) as Hlen. pose proof (rv_count _ _ _ _ _ _ _ Hr) as Hc.
  fold ids0 in Hlen. rewrite length_overwrite in Hroom, Hdone by lia. rewrite <-Hlen in *.
  split.
  - by rewrite Hd, overwrite_app by lia.
  - rewrite length_app. lia.
  - intros E. rewrite length_app. specialize (Hdone E). lia.
  - congruence.
  - congruence.
  - done.
  - rewrite El, Ew in Hids. apply (advance_app _ _ _ (Some p)); [| done]. by eapply advance_reserves.
Qed.

Lemma fill_loop_spec fuel g last offset d k clocks r d' g' :
  gen_wf g last -> 0 <= offset -> (k <= length d)%nat ->
  fill_loop fuel g offset d k clocks = Some (r, d', g') ->
  exists ids last',
    filled g last (fun o => o = offset \/ read_in (layout g) clocks o) d k r d' g' ids last'.
Proof.
  revert g last offset d k clocks. induction fuel as [|fuel IH]; intros g last offset d k clocks Hg Ho Hk;
    simpl; destruct (Nat.ltb_spec k (length d)) as [Hlt|Hge].
  - done.
  - intros. simplify_eq. exists [], last. by apply filled_stop; [| | lia].
  - pose proof (reserve_at_spec g last offset (length d - k) Hg Ho ltac:(lia)) as Hs.
    destruct (reserve_at g offset (length d - k)) as [[[res|]|e] g1].
    + destruct Hs as (p & Hr & El & Ew & Hg1). rewrite El, Ew.
      pose proof (rv_length _ _ _ _ _ _ _ Hr) as Hlen. pose proof (rv_count _ _ _ _ _ _ _ Hr) as Hc.
      destruct clocks as [|c clocks]; [done |].
      rewrite <-Hlen. fold (overwrite d k (reservation_ids (layout g) (worker_id g) res)). rewrite Hlen.
      set (d1 := overwrite d k (reservation_ids (layout g) (worker_id g) res)).
      assert (length d1 = length d) as Hd1 by (apply length_overwrite; lia).
      destruct (now_offset (layout g) c) as [o|e] eqn:Eo; intros E.
      * pose proof (now_offset_ok _ _ _ Eo) as (Ho' & _).
        destruct (IH g1 (Some p) o d1 (k + res_count res)%nat clocks Hg1 Ho' ltac:(lia) E) as (ids & last' & Hf).
        exists (reservation_ids (layout g) (worker_id g) res ++ ids), last'.
        eapply (filled_reserve g last offset); [done | by left | done | done | | fold d1]; [lia |].
        eapply filled_weaken; [| exact Hf]. rewrite El. intros o' [->|(c' & ? & ?)]; right.
        -- exists c. split; [by left | done].
        -- exists c'. split; [by right | done].
      * injection E as <- <- <-. exists (reservation_ids (layout g) (worker_id g) res ++ []), (Some p).
        eapply (filled_reserve g last offset); [done | by left | done | done | | fold d1]; [lia |].
        apply filled_stop; [done | lia | done].
    + destruct Hs as [-> Hlast]. destruct (wait_for_next_millis (layout g) offset clocks)
        as [[[o|e] rest]|] eqn:Ew; [| | done]; intros E.
      * apply wait_spec in Ew as ([seen ->] & Hlt' & Hread).
        destruct (IH g last o d k rest Hg ltac:(lia) Hk E) as (ids & last' & Hf).
        exists ids, last'. eapply filled_weaken; [| exact Hf].
        intros o' [->|(c' & ? & ?)]; right; [done |]. exists c'. split; [set_solver | done].
      * injection E as <- <- <-. exists [], last. by apply filled_stop.
    + destruct Hs as [-> _]. intros [= <- <- <-]. exists [], last. apply filled_stop; [done | lia | done].
  - intros. simplify_eq. exists [], last. apply filled_stop; [done | done | lia].
Qed.

(** Every offset [fill] uses was read from the clock by this call. *)
Lemma fill_filled g last destination clocks r destination' g' :
  gen_wf g last -> fill g destination clocks = Some (r, destination', g') ->
  exists ids last',
    filled g last (read_in (layout g) clocks) destination 0 r destination' g' ids last'.
Proof.
  intros Hg. unfold fill. destruct clocks as [|c clocks]; [done |].
  destruct (now_offset (layout g) c) as [o|e] eqn:Eo; intros E; cycle 1.
  { injection E as <- <- <-. exists [], last. apply filled_stop; [done | lia | done]. }
  pose proof (now_offset_ok _ _ _ Eo) as (Ho & _).
  destruct (fill_loop_spec _ g last o _ 0 clocks _ _ _ Hg Ho ltac:(lia) E) as (ids & last' & Hf).
  exists ids, last'. eapply filled_weaken; [| exact Hf].
  intros o' [->|(c' & ? & ?)]; [exists c | exists c']; split; [by left | done | by right | done].
Qed.

(** [fill] hands out new identifiers, whatever the clock does: the part of the buffer
    it has written when it returns, all of it on success, holds strictly increasing
    identifiers that follow every identifier issued before and precede every one
    issued later; each decodes to this worker and to the millisecond of a clock
    reading of the call; the rest of the buffer is untouched. *)
Theorem fill_exact g last destination clocks r destination' g' :
  gen_wf g last -> fill g destination clocks = Some (r, destination', g') ->
  exists ids last',
    destination' = ids ++ drop (length ids) destination
    /\ (length ids <= length destination)%nat
    /\ (r = Ok tt -> length ids = length destination)
    /\ gen_wf g' last'
    /\ StronglySorted Z.lt ids
    /\ Forall (fun id =>
         last_id (layout g) (worker_id g) last < id <= last_id (layout g) (worker_id g) last'
         /\ exists clock q, clock ∈ clocks
            /\ parse_id (layout g) id = mkIdMetadata (as_millis clock) (worker_id g) q) ids.
Proof.
  intros Hg E. destruct (fill_filled _ _ _ _ _ _ _ Hg E)
    as (ids & last' & [Hd Hroom Hdone _ _ Hwf [_ Hs Hr]]).
  exists ids, last'. split_and!; [done | done | done | done | done |].
  apply Forall_forall. intros id Hid. destruct (Hr _ Hid) as (Hrange & o & q & (c & Hc & Eo) & Hp & ->).
  split; [done |]. exists c, q. split; [done |]. destruct Hg as [Hl Hw _ _]. rewrite parse_id_of by done.
  apply now_offset_ok in Eo as (? & Em & Hms). cbn [fst snd]. rewrite Em, wrapping_id; [done.. |].
  int_bounds. lia.
Qed.

(** A clock whose readings give these offsets, all within the layout's lifetime *)
Definition ticking (l : SnowflakeLayout) (clocks : list SystemTime) (os : list Z) : Prop :=
  Forall2 (fun clock o => now_offset l clock = Ok o) clocks os
  /\ StronglySorted Z.lt os /\ Forall (fun o => o < 2 ^ timestamp_bits l) os.

Lemma ticking_cons l c clocks os :
  ticking l (c :: clocks) os ->
  exists o os', os = o :: os' /\ now_offset l c = Ok o /\ 0 <= o < 2 ^ timestamp_bits l
    /\ Forall (Z.lt o) os' /\ ticking l clocks os'.
Proof.
  intros (H2 & Hs & Hf). apply Forall2_cons_inv_l in H2 as (o & os' & Ho & H2 & ->).
  apply StronglySorted_cons in Hs as [Hlt Hs]. apply Forall_cons in Hf as [? Hf].
  pose proof (now_offset_ok _ _ _ Ho) as (? & _).
  exists o, os'. split_and!; done.
Qed.

Definition before (last : option position) (offset : Z) : Prop :=
  match last with Some p => fst p < offset | None => True end.

(** Once the clock has passed the last identifier, every round writes some. *)
Lemma fill_loop_returns fuel g last offset os d k clocks :
  gen_wf g last -> 0 <= offset < 2 ^ timestamp_bits (layout g) -> before last offset ->
  ticking (layout g) clocks os -> Forall (Z.lt offset) os ->
  (k <= length d)%nat -> (length d - k <= length clocks)%nat -> (length clocks < fuel)%nat ->
  exists d' g', fill_loop fuel g offset d k clocks = Some (Ok tt, d', g').
Proof.
  revert fuel g last offset os d k. induction clocks as [|c clocks IH];
    intros [|fuel] g last offset os d k Hg Ho Hb Ht Hlt Hk Hc Hfuel; simpl in Hc, Hfuel; try lia;
    simpl; destruct (Nat.ltb_spec k (length d)) as [Hkd|]; try lia; try by eauto.
  pose proof (reserve_at_spec g last offset (length d - k) Hg ltac:(lia) ltac:(lia)) as Hs.
  destruct (reserve_at g offset (length d - k)) as [[[res|]|e] g1].
  - destruct Hs as (p & Hr & El & Ew & Hg1). rewrite El, Ew.
    pose proof (rv_length _ _ _ _ _ _ _ Hr) as Hlen. pose proof (rv_count _ _ _ _ _ _ _ Hr) as Hcount.
    apply ticking_cons in Ht as (o & os' & -> & -> & Ho' & Hlt' & Ht').
    apply Forall_cons in Hlt as [Hoo _].
    apply (IH fuel g1 (Some p) o os'); rewrite ?El; try done; simpl;
      rewrite ?(rv_time _ _ _ _ _ _ _ Hr), ?length_app, ?length_take, ?length_drop; lia.
  - destruct Hs as [_ ->]. simpl in Hb. lia.
  - destruct Hs as [_ [?|(p & -> & ?)]]; [lia |]. simpl in Hb. lia.
Qed.

(** The first round when the clock still shows the millisecond of the last identifier *)
Lemma fill_loop_same_millis fuel g q o os d clocks :
  gen_wf g (Some (o, q)) -> 0 <= o < 2 ^ timestamp_bits (layout g) ->
  ticking (layout g) clocks os -> Forall (Z.lt o) os ->
  (length d < length clocks)%nat -> (length clocks < fuel)%nat ->
  exists d' g', fill_loop fuel g o d 0 clocks = Some (Ok tt, d', g').
Proof.
  intros Hg Ho Ht Hlt Hlen Hfuel. destruct fuel as [|fuel]; [lia |].
  destruct clocks as [|c clocks]; [simpl in Hlen; lia |]. simpl in Hlen, Hfuel.
  apply ticking_cons in Ht as (o1 & os1 & -> & E1 & Ho1 & Hlt1 & Ht).
  apply Forall_cons in Hlt as [Hoo1 _]. simpl.
  destruct (Nat.ltb_spec 0 (length d)) as [Hd|]; [| by eauto].
  pose proof (reserve_at_spec g _ o (length d - 0) Hg ltac:(lia) ltac:(lia)) as Hs.
  destruct (reserve_at g o (length d - 0)) as [[[res|]|e] g1].
  - destruct Hs as (p & Hr & El & Ew & Hg1). rewrite El, Ew, E1.
    pose proof (rv_length _ _ _ _ _ _ _ Hr) as Hl'. pose proof (rv_count _ _ _ _ _ _ _ Hr) as Hc.
    apply (fill_loop_returns _ g1 (Some p) o1 os1); rewrite ?El; try done; simpl;
      rewrite ?(rv_time _ _ _ _ _ _ _ Hr), ?length_app, ?length_drop; lia.
  - destruct Hs as [-> _]. rewrite E1. destruct (Z.ltb_spec o o1); [| lia].
    eapply fill_loop_returns; try done; simpl; lia.
  - destruct Hs as [_ [?|(p & [= <-] & ?)]]; simpl in *; lia.
Qed.

(** [fill] returns: if the clock advances between readings, has not fallen behind the
    last identifier and stays within the layout's lifetime, a call that may read it
    [length destination + 2] times fills the whole buffer. *)
Theorem fill_returns g last destination clocks os :
  gen_wf g last -> ticking (layout g) clocks os ->
  (forall p, last = Some p -> Forall (Z.le (fst p)) os) ->
  (length destination + 2 <= length clocks)%nat ->
  exists ids g', fill g destination clocks = Some (Ok tt, ids, g')
    /\ length ids = length destination.
Proof.
  intros Hg Ht Hlast Hlen.
  assert (exists d' g', fill g destination clocks = Some (Ok tt, d', g')) as (d' & g' & E).
  { destruct clocks as [|c clocks]; [simpl in Hlen; lia |]. unfold fill. simpl in Hlen.
    apply ticking_cons in Ht as (o & os' & -> & -> & Ho & Hlt & Ht).
    destruct last as [[t q]|]; [| eapply fill_loop_returns; try done; lia].
    specialize (Hlast _ eq_refl). apply Forall_cons in Hlast as [Hto _]. simpl in Hto.
    destruct (decide (t < o)); [eapply fill_loop_returns; try done; lia |].
    assert (t = o) as -> by lia. eapply fill_loop_same_millis; try done; lia. }
  exists d', g'. split; [done |].
  destruct (fill_filled _ _ _ _ _ _ _ Hg E) as (ids & last' & [-> Hroom _ _ _ _ _]).
  by apply length_overwrite.
Qed.

(** ** Decimal output *)

Lemma count_digits_spec fuel v n :
  0 <= v < 10 ^ Z.of_nat (S fuel) -> (1 <= n)%nat ->
  let k := count_digits fuel v n in
  (n <= k)%nat /\ v < 10 ^ Z.of_nat (k - n + 1) /\ (k = n \/ 10 ^ Z.of_nat (k - n) <= v).
Proof.
  revert v n. induction fuel as [|fuel IH]; intros v n Hv Hn; simpl.
  { rewrite Nat.sub_diag. simpl. lia. }
  destruct (Z.leb_spec 10 v) as [H10|H10]; [| rewrite Nat.sub_diag; simpl; lia].
  rewrite Nat2Z.inj_succ, Z.pow_succ_r in Hv by lia.
  assert (0 <= v / 10 < 10 ^ Z.of_nat (S fuel)) as Hd.
  { split; [apply Z.div_pos; lia | apply Z.div_lt_upper_bound; lia]. }
  destruct (IH (v / 10) (S n) Hd ltac:(lia)) as (Hle & Hlt & Hge).
  set (k := count_digits fuel (v / 10) (S n)) in *.
  replace (k - n + 1)%nat with (S (k - S n + 1)) by lia.
  replace (k - n)%nat with (S (k - S n)) by lia.
  rewrite !Nat2Z.inj_succ, !Z.pow_succ_r by lia.
  pose proof (Z.div_mod v 10 ltac:(lia)). pose proof (Z.mod_pos_bound v 10 ltac:(lia)).
  split_and!; [lia | lia |]. right. destruct Hge as [->|Hge]; [| lia].
  rewrite Nat.sub_diag. simpl. lia.
Qed.

(** The digits, most significant first *)
Fixpoint digits_of (n : nat) (v : Z) : list Z :=
  match n with
  | O => []
  | S n => digits_of n (v / 10) ++ [48 + v mod 10]
  end.

(** What a reader makes of ASCII digits *)
Definition decimal_value (bytes : list Z) : Z := foldl (fun a b => 10 * a + (b - 48)) 0 bytes.

Lemma digits_of_spec n v :
  0 <= v < 10 ^ Z.of_nat n ->
  length (digits_of n v) = n /\ decimal_value (digits_of n v) = v
  /\ Forall (fun b => 48 <= b <= 57) (digits_of n v).
Proof.
  revert v. induction n as [|n IH]; intros v Hv.
  { change (10 ^ Z.of_nat 0) with 1 in Hv. split_and!; [done | cbn; lia | constructor]. }
  rewrite Nat2Z.inj_succ, Z.pow_succ_r in Hv by lia.
  pose proof (Z.div_mod v 10 ltac:(lia)). pose proof (Z.mod_pos_bound v 10 ltac:(lia)).
  destruct (IH (v / 10)) as (Hlen & Hval & Hall); [lia |]. simpl. split_and!.
  - rewrite length_app, Hlen. simpl. lia.
  - unfold decimal_value in *. rewrite foldl_app, Hval. simpl. lia.
  - apply Forall_app. split; [done |]. repeat constructor; lia.
Qed.

Lemma write_digits_spec n v d :
  (n <= length d)%nat -> write_digits n v d = digits_of n v ++ drop n d.
Proof.
  revert v d. induction n as [|n IH]; intros v d Hn; simpl; [by rewrite drop_0 |].
  rewrite IH by (rewrite length_insert; lia). rewrite <-app_assoc. f_equal.
  rewrite (drop_S _ (48 + v mod 10)) by (apply list_lookup_insert_eq; lia).
  by rewrite drop_insert_lt by lia.
Qed.

(** [write_decimal_u64] writes a number as a reader expects it: when the buffer is long
    enough, exactly the ASCII digits of the value, as few as it needs, and nothing
    after them; otherwise nothing, and then the value has more digits than fit. *)
Theorem decimal_roundtrip v destination :
  0 <= v <= int_max u64 ->
  match write_decimal_u64 v destination with
  | (Some n, destination') =>
      exists digits, destination' = digits ++ drop n destination /\ length digits = n
        /\ decimal_value digits = v /\ Forall (fun b => 48 <= b <= 57) digits
        /\ (n = 1%nat \/ 10 ^ Z.of_nat (n - 1) <= v)
  | (None, destination') =>
      destination' = destination /\ (destination = [] \/ 10 ^ Z.of_nat (length destination) <= v)
  end.
Proof.
  intros Hv. unfold write_decimal_u64. int_bounds.
  destruct (count_digits_spec 20 v 1) as (H1 & Hlt & Hmin); [change (10 ^ Z.of_nat 21) with 1000000000000000000000; lia | lia |].
  set (n := count_digits 20 v 1) in *. replace (n - 1 + 1)%nat with n in Hlt by lia.
  destruct (Nat.ltb_spec (length destination) n) as [Hshort|Hfits].
  - split; [done |]. destruct (decide (n = 1%nat)) as [E|E].
    + left. destruct destination; [done |]. simpl in Hshort. lia.
    + right. destruct Hmin as [?|Hmin]; [done |].
      etrans; [| exact Hmin]. apply Z.pow_le_mono_r; lia.
  - destruct (digits_of_spec n v) as (Hlen & Hval & Hall); [lia |].
    exists (digits_of n v). rewrite write_digits_spec by done. split_and!; try done.
Qed.

(** ** A slow thread is told that the clock moved back *)

(** The clock never goes back, and still a reservation is refused with "Snowflake clock
    moved backwards": a thread reads the clock, another one reads a later millisecond
    and reserves first, and the first thread's reading is then in the past. *)
Theorem late_reader_refused :
  exists m c,
    rtc (gstep layout_default 7) (ginit 2) m
    /\ g_readings m = [100; 101] /\ StronglySorted Z.le (g_readings m)
    /\ g_threads m !! 0%nat = Some (GLoaded 100 1 c)
    /\ plan layout_default c 100 1 = fail Transient "Snowflake clock moved backwards".
Proof.
  set (w1 := word_of layout_default (Some (101, 0))).
  exists (mkGMachine w1 [id_of layout_default 7 (101, 0)] [100; 101] [GLoaded 100 1 w1; GIdle]), w1.
  split_and!; [| done | | done | done].
  - eapply rtc_l; [apply (gs_call _ _ _ _ _ _ 0 100 1); done |].
    eapply rtc_l; [apply (gs_call _ _ _ _ _ _ 1 101 1); done |].
    eapply rtc_l; [apply (gs_load _ _ _ _ _ _ 1 101 1); done |].
    eapply rtc_l; [apply (gs_exchange _ _ _ _ _ _ 1 101 1 (mkReservation 101 0 1) w1); done |].
    eapply rtc_l; [apply (gs_load _ _ _ _ _ _ 0 100 1); done |]. apply rtc_refl.
  - repeat constructor. lia.
Qed.

(** The documentation calls identifiers positive; at its epoch, worker 0 issues 0. *)
Lemma first_id_is_zero :
  next_id (mkGenerator 0 layout_default 0)
    [from_millis DEFAULT_EPOCH_MILLIS; from_millis DEFAULT_EPOCH_MILLIS]
  = Some (Ok 0, mkGenerator 0 layout_default INITIALIZED).
Proof. reflexivity. Qed.

(** ** Concrete instances of the theorems *)

Definition demo_generator : SnowflakeIdGenerator := mkGenerator 7 layout_default 0.
Definition demo_clock (ms : Z) : SystemTime := from_millis (DEFAULT_EPOCH_MILLIS + ms).

Lemma demo_generator_wf : gen_wf demo_generator None.
Proof. split; [split; simpl; lia | by vm_compute | done | done]. Qed.

Lemma demo_layout_u8 : u8_bits layout_default.
Proof. split_and!; simpl; lia. Qed.

(** One thread reserves two identifiers in millisecond 5. *)
Lemma demo_machine :
  rtc (gstep layout_default 7) (ginit 1)
    (mkGMachine (word_of layout_default (Some (5, 1)))
       [id_of layout_default 7 (5, 0); id_of layout_default 7 (5, 1)] [5] [GIdle]).
Proof.
  apply (reserve_at_runs demo_generator 5 2 [GIdle] 0 [] [] (mkReservation 5 0 2)
           (mkGenerator 7 layout_default (word_of layout_default (Some (5, 1))))); done.
Qed.

Lemma snowflake_unique_witness :
  NoDup [id_of layout_default 7 (5, 0); id_of layout_default 7 (5, 1)].
Proof.
  apply (snowflake_unique layout_default 7 8 demo_generator (mkGenerator 8 layout_default 0) 1 1
           _ (ginit 1) demo_layout_u8 ltac:(done) ltac:(done) ltac:(done) eq_refl eq_refl
           demo_machine (rtc_refl _ _)).
Defined.

Lemma fill_exact_witness :
  fill demo_generator [0; 0] [demo_clock 5; demo_clock 6]
  = Some (Ok tt, [id_of layout_default 7 (5, 0); id_of layout_default 7 (5, 1)],
          mkGenerator 7 layout_default (word_of layout_default (Some (5, 1))))
  /\ exists ids last', [id_of layout_default 7 (5, 0); id_of layout_default 7 (5, 1)]
       = ids ++ drop (length ids) [0; 0]
     /\ gen_wf (mkGenerator 7 layout_default (word_of layout_default (Some (5, 1)))) last'.
Proof.
  assert (fill demo_generator [0; 0] [demo_clock 5; demo_clock 6]
  = Some (Ok tt, [id_of layout_default 7 (5, 0); id_of layout_default 7 (5, 1)],
          mkGenerator 7 layout_default (word_of layout_default (Some (5, 1))))) as E by reflexivity.
  split; [exact E |].
  destruct (fill_exact demo_generator None _ _ _ _ _ demo_generator_wf E) as (ids & last' & Hd & _ & _ & Hg & _).
  exists ids, last'. split; [exact Hd | exact Hg].
Defined.

Lemma fill_returns_witness :
  exists ids g', fill demo_generator [0; 0] (demo_clock <$> [5; 6; 7; 8]) = Some (Ok tt, ids, g')
    /\ length ids = 2%nat.
Proof.
  apply (fill_returns demo_generator None [0; 0] _ [5; 6; 7; 8] demo_generator_wf).
  - split_and!; [repeat constructor | repeat constructor; lia | repeat constructor; simpl; lia].
  - done.
  - simpl. lia.
Defined.

Lemma decimal_roundtrip_witness :
  write_decimal_u64 9071 [0; 0; 0; 0; 0] = (Some 4%nat, [57; 48; 55; 49; 0])
  /\ exists digits, [57; 48; 55; 49; 0] = digits ++ drop 4 [0; 0; 0; 0; 0]
       /\ decimal_value digits = 9071.
Proof.
  split; [reflexivity |].
  pose proof (decimal_roundtrip 9071 [0; 0; 0; 0; 0] ltac:(int_bounds; lia)) as H.
  change (write_decimal_u64 9071 [0; 0; 0; 0; 0]) with (Some 4%nat, [57; 48; 55; 49; 0]) in H.
  destruct H as (ds & E & _ & V & _). exists ds. split; [exact E | exact V].
Defined.
