(* ===== verification/Breaker.v ===== *)
(** * The circuit breaker ([behaviors/circuit_breaker.rs])

    [CircuitBreakerBehavior] lets requests through while it is closed, refuses them
    while it is open, and after a cooldown lets one through as a probe.  The first part
    gives every method as it runs alone, as one step, and histories of calls in which the
    methods do not overlap, though the calls may; the second part splits the methods into
    their atomic accesses, proves that without interference they do what the first part says
    ([methods_refine]), and shows what goes wrong when they interleave ([breaker_races]).

    Times are nanoseconds since [started_at]; a method takes the reading it uses. *)

From S2P Require Import Prelude Utf8 Errors Time.

Definition MAX_SAMPLING_WINDOW : Z := 10000.

(** ** Options *)

Record CircuitBreakerOptions := mkBreakerOptions {
  failure_threshold : Z;
  reset_timeout : Duration;
  sampling_window : Z;
  minimum_throughput : Z;
  failure_ratio_numerator : Z;
  failure_ratio_denominator : Z
}.

(** [CircuitBreakerOptionsBuilder] has the same fields. *)
Definition options_builder (failure_threshold : Z) (reset_timeout : Duration)
    : CircuitBreakerOptions :=
  mkBreakerOptions failure_threshold reset_timeout failure_threshold failure_threshold 1 1.

Definition with_sampling_window (o : CircuitBreakerOptions) (n : Z) : CircuitBreakerOptions :=
  mkBreakerOptions (failure_threshold o) (reset_timeout o) n (minimum_throughput o)
    (failure_ratio_numerator o) (failure_ratio_denominator o).

Definition with_minimum_throughput (o : CircuitBreakerOptions) (n : Z) : CircuitBreakerOptions :=
  mkBreakerOptions (failure_threshold o) (reset_timeout o) (sampling_window o) n
    (failure_ratio_numerator o) (failure_ratio_denominator o).

Definition with_failure_ratio (o : CircuitBreakerOptions) (numerator denominator : Z)
    : CircuitBreakerOptions :=
  mkBreakerOptions (failure_threshold o) (reset_timeout o) (sampling_window o)
    (minimum_throughput o) numerator denominator.

Definition options_build (o : CircuitBreakerOptions) : CatgaResult CircuitBreakerOptions :=
  if failure_threshold o =? 0
  then fail Validation "circuit breaker failure threshold must be greater than zero"
  else if reset_timeout o =? 0
  then fail Validation "circuit breaker reset timeout must be greater than zero"
  else if (sampling_window o =? 0) || (MAX_SAMPLING_WINDOW <? sampling_window o)
  then fail Validation "circuit breaker sampling window must be between one and 10000"
  else if (minimum_throughput o =? 0) || (sampling_window o <? minimum_throughput o)
  then fail Validation "circuit breaker minimum throughput must fit within the sampling window"
  else if (failure_ratio_numerator o =? 0) || (failure_ratio_denominator o =? 0)
          || (failure_ratio_denominator o <? failure_ratio_numerator o)
  then fail Validation
         "circuit breaker failure ratio must be a positive fraction no greater than one"
  else Ok o.

(** ** The window of outcomes *)

Record OutcomeWindow := mkWindow {
  outcomes : list bool;
  w_failures : Z;
  w_limit : Z
}.

Definition window_new (limit : Z) : OutcomeWindow := mkWindow [] 0 limit.

Definition window_clear (w : OutcomeWindow) : OutcomeWindow := mkWindow [] 0 (w_limit w).

Definition window_len (w : OutcomeWindow) : Z := Z.of_nat (length (outcomes w)).

Definition window_push (w : OutcomeWindow) (success : bool) : OutcomeWindow :=
  let '(kept, failures) :=
    if window_len w =? w_limit w then
      match outcomes w with
      | false :: rest => (rest, saturating usize (w_failures w - 1))
      | _ :: rest => (rest, w_failures w)
      | [] => ([], w_failures w)
      end
    else (outcomes w, w_failures w) in
  let failures := if success then failures else saturating usize (failures + 1) in
  mkWindow (kept ++ [success]) failures (w_limit w).

(** ** The breaker *)

(** The values of the state byte; no other is ever stored. *)
Inductive breaker_state := CLOSED | OPEN | HALF_OPEN.

#[global] Instance breaker_state_eq_dec : EqDecision breaker_state.
Proof. solve_decision. Defined.

Record CircuitBreaker := mkBreaker {
  window : OutcomeWindow;
  bstate : breaker_state;
  opened_at_ns : Z;
  half_open_probe : bool;
  options : CircuitBreakerOptions
}.

Definition set_window (b : CircuitBreaker) (w : OutcomeWindow) : CircuitBreaker :=
  mkBreaker w (bstate b) (opened_at_ns b) (half_open_probe b) (options b).
Definition set_bstate (b : CircuitBreaker) (s : breaker_state) : CircuitBreaker :=
  mkBreaker (window b) s (opened_at_ns b) (half_open_probe b) (options b).
Definition set_opened_at (b : CircuitBreaker) (ns : Z) : CircuitBreaker :=
  mkBreaker (window b) (bstate b) ns (half_open_probe b) (options b).
Definition set_probe (b : CircuitBreaker) (p : bool) : CircuitBreaker :=
  mkBreaker (window b) (bstate b) (opened_at_ns b) p (options b).

Definition with_options (o : CircuitBreakerOptions) : CircuitBreaker :=
  mkBreaker (window_new (sampling_window o)) CLOSED 0 false o.

Definition breaker_new (failure_threshold : Z) (reset_timeout : Duration)
    : CatgaResult CircuitBreaker :=
  let? options := options_build (options_builder failure_threshold reset_timeout) in
  Ok (with_options options).

Definition circuit_open_error : CatgaError := CatgaError_new Transient "circuit breaker is open".

(** [elapsed] is what [started_at.elapsed()] returned. *)
Definition elapsed_ns (elapsed : Duration) : Z := Z.min elapsed (int_max u64).

Definition elapsed_since_open (b : CircuitBreaker) (elapsed : Duration) : Duration :=
  Z.max 0 (elapsed_ns elapsed - opened_at_ns b).

(** The branch [HALF_OPEN] of [permit] *)
Definition permit_half_open (b : CircuitBreaker) : CatgaResult bool * CircuitBreaker :=
  if half_open_probe b then (Err circuit_open_error, b) else (Ok true, set_probe b true).

(** [permit] without interference from the other methods: then its exchange succeeds and its
    second round is half open.  Its separate accesses are [PLoad] to [PTake] below. *)
Definition permit (b : CircuitBreaker) (elapsed : Duration) : CatgaResult bool * CircuitBreaker :=
  match bstate b with
  | CLOSED => (Ok false, b)
  | OPEN =>
    if elapsed_since_open b elapsed <? reset_timeout (options b) then (Err circuit_open_error, b)
    else permit_half_open (set_probe (set_bstate b HALF_OPEN) false)
  | HALF_OPEN => permit_half_open b
  end.

Definition record_success (b : CircuitBreaker) (probe : bool) : CircuitBreaker :=
  if probe
  then set_bstate (set_probe (set_window b (window_clear (window b))) false) CLOSED
  else set_window b (window_push (window b) true).

Definition open (b : CircuitBreaker) (elapsed : Duration) : CircuitBreaker :=
  match bstate b with
  | OPEN => b
  | _ => set_probe (set_opened_at (set_bstate b OPEN) (elapsed_ns elapsed)) false
  end.

(** [outcomes.len() >= minimum_throughput && failures * denominator >= len * numerator] *)
Definition trips (o : CircuitBreakerOptions) (w : OutcomeWindow) : bool :=
  (minimum_throughput o <=? window_len w)
  && (saturating u128 (window_len w * failure_ratio_numerator o)
      <=? saturating u128 (w_failures w * failure_ratio_denominator o)).

Definition breaker_record_failure (b : CircuitBreaker) (probe : bool) (elapsed : Duration)
    : CircuitBreaker :=
  if probe then open b elapsed
  else
    let b := set_window b (window_push (window b) false) in
    if trips (options b) (window b) then open b elapsed else b.

(** [ProbeGuard::complete] *)
Definition guard_complete {A} (b : CircuitBreaker) (probe : bool) (result : CatgaResult A)
    (elapsed : Duration) : CircuitBreaker :=
  match result with
  | Ok _ => record_success b probe
  | Err error =>
    if negb (bool_decide (code error = Cancelled)) && is_retryable error
    then breaker_record_failure b probe elapsed
    else if probe then record_success b true else b
  end.

(** [ProbeGuard::drop] of a call that was abandoned before it completed *)
Definition guard_drop (b : CircuitBreaker) (probe : bool) (elapsed : Duration) : CircuitBreaker :=
  if probe then open b elapsed else b.

(** [handle] up to the call of the next behavior, and from its return on; [None] when
    the future is dropped while it waits. *)
Definition handle_start (b : CircuitBreaker) (elapsed : Duration) := permit b elapsed.

Definition handle_end {A} (b : CircuitBreaker) (probe : bool) (result : option (CatgaResult A))
    (elapsed : Duration) : option (CatgaResult A) * CircuitBreaker :=
  match result with
  | Some r => (Some r, guard_complete b probe r elapsed)
  | None => (None, guard_drop b probe elapsed)
  end.

(** ** Histories of calls

    [flights] lists the calls that were admitted and have not ended, with their probe
    flag.  Each step is one method of the breaker, run to its end; the calls between their
    two methods overlap in any way. *)

Record Calls := mkCalls { c_breaker : CircuitBreaker; flights : list bool }.

Inductive bstep : Calls -> Calls -> Prop :=
| bs_admitted b fs t probe b' :
    handle_start b t = (Ok probe, b') -> bstep (mkCalls b fs) (mkCalls b' (fs ++ [probe]))
| bs_refused b fs t e b' :
    handle_start b t = (Err e, b') -> bstep (mkCalls b fs) (mkCalls b' fs)
| bs_ended b fs t i probe (result : option (CatgaResult unit)) :
    fs !! i = Some probe -> 0 <= t ->
    bstep (mkCalls b fs) (mkCalls (snd (handle_end b probe result t)) (delete i fs)).

(** ** The window *)

Definition failures_of (l : list bool) : Z := sumZ (fun s : bool => if s then 0 else 1) l.

(** The last [n] elements *)
Definition recent {A} (n : nat) (l : list A) : list A := drop (length l - n) l.

Lemma recent_length {A} n (l : list A) : length (recent n l) = Nat.min n (length l).
Proof. unfold recent. rewrite length_drop. lia. Qed.

Lemma recent_snoc {A} n (l : list A) x :
  n <> 0%nat ->
  recent n (l ++ [x])
  = (if decide (length (recent n l) = n) then drop 1 (recent n l) else recent n l) ++ [x].
Proof.
  intros Hn. rewrite recent_length. unfold recent. rewrite length_app. simpl. case_decide.
  - rewrite drop_drop, drop_app_le by lia. do 2 f_equal. lia.
  - rewrite drop_app_le by lia. do 2 f_equal. lia.
Qed.

Lemma failures_of_bounds l : 0 <= failures_of l <= Z.of_nat (length l).
Proof. unfold failures_of. induction l as [|[] l IH]; simpl; lia. Qed.

(** The window holds the last outcomes of [h] and their failures. *)
Record window_of (n : Z) (h : list bool) (w : OutcomeWindow) : Prop := {
  wo_limit : w_limit w = n;
  wo_outcomes : outcomes w = recent (Z.to_nat n) h;
  wo_failures : w_failures w = failures_of (outcomes w)
}.

Lemma window_of_len n h w : 1 <= n -> window_of n h w -> 0 <= window_len w <= n.
Proof.
  intros Hn [_ Ho _]. unfold window_len. rewrite Ho, recent_length. lia.
Qed.

Lemma window_of_clear n h w : window_of n h w -> window_of n [] (window_clear w).
Proof. intros [Hl _ _]. split; simpl; [done | unfold recent; by rewrite drop_nil | done]. Qed.

Lemma window_of_push n h w s :
  1 <= n <= MAX_SAMPLING_WINDOW -> window_of n h w -> window_of n (h ++ [s]) (window_push w s).
Proof.
  intros Hn Hw. pose proof (window_of_len n h w ltac:(lia) Hw) as Hlen.
  destruct Hw as [Hl Ho Hf]. unfold window_push. rewrite Hl.
  unfold MAX_SAMPLING_WINDOW in Hn. unfold window_len in *.
  pose proof (failures_of_bounds (outcomes w)) as Hb. rewrite <-Hf in Hb.
  assert (forall kept f, f = failures_of kept -> Z.of_nat (length kept) <= 10000 ->
    kept ++ [s] = recent (Z.to_nat n) (h ++ [s]) ->
    window_of n (h ++ [s]) (mkWindow (kept ++ [s]) (if s then f else saturating usize (f + 1)) n))
    as Hgo.
  { intros kept f Hkf Hk E. split; simpl; [done | done |]. unfold failures_of in *.
    rewrite sumZ_app. simpl. pose proof (failures_of_bounds kept). unfold failures_of in *.
    destruct s; [lia |]. rewrite saturating_id; [lia | int_bounds; lia]. }
  rewrite recent_snoc, <-Ho in Hgo by lia.
  destruct (Z.eqb_spec (Z.of_nat (length (outcomes w))) n) as [E|E].
  - rewrite decide_True in Hgo by lia.
    destruct (outcomes w) as [|[] rest] eqn:Eo; simpl in *; [lia | ..]; apply Hgo; try done; try lia.
    all: rewrite Hf; unfold failures_of; simpl; try lia.
    pose proof (failures_of_bounds rest). unfold failures_of in *.
    rewrite saturating_id by (int_bounds; lia). lia.
  - rewrite decide_False in Hgo by lia. apply Hgo; [done | lia | done].
Qed.

(** ** When it opens *)

Record options_ok (o : CircuitBreakerOptions) : Prop := {
  ok_window : 1 <= sampling_window o <= MAX_SAMPLING_WINDOW;
  ok_throughput : 1 <= minimum_throughput o <= sampling_window o;
  ok_ratio : 1 <= failure_ratio_numerator o <= failure_ratio_denominator o;
  ok_width : failure_ratio_denominator o <= int_max u32;
  ok_timeout : 1 <= reset_timeout o
}.

(** The fields are unsigned: [usize], [Duration] and [u32]. *)
Definition unsigned_options (o : CircuitBreakerOptions) : Prop :=
  0 <= failure_threshold o /\ 0 <= reset_timeout o /\ 0 <= sampling_window o
  /\ 0 <= minimum_throughput o /\ 0 <= failure_ratio_numerator o
  /\ 0 <= failure_ratio_denominator o <= int_max u32.

Lemma options_build_ok o o' :
  unsigned_options o -> options_build o = Ok o' -> o' = o /\ options_ok o.
Proof.
  intros (? & ? & ? & ? & ? & ?). unfold options_build.
  destruct (Z.eqb_spec (failure_threshold o) 0); [done |].
  destruct (Z.eqb_spec (reset_timeout o) 0); [done |].
  destruct (Z.eqb_spec (sampling_window o) 0), (Z.ltb_spec MAX_SAMPLING_WINDOW (sampling_window o));
    try done. simpl.
  destruct (Z.eqb_spec (minimum_throughput o) 0),
    (Z.ltb_spec (sampling_window o) (minimum_throughput o)); try done. simpl.
  destruct (Z.eqb_spec (failure_ratio_numerator o) 0), (Z.eqb_spec (failure_ratio_denominator o) 0),
    (Z.ltb_spec (failure_ratio_denominator o) (failure_ratio_numerator o)); try done.
  intros [= <-]. split; [done |]. split; lia.
Qed.

(** Enough outcomes, and enough of them failures *)
Definition too_many_failures (o : CircuitBreakerOptions) (l : list bool) : Prop :=
  minimum_throughput o <= Z.of_nat (length l)
  /\ Z.of_nat (length l) * failure_ratio_numerator o <= failures_of l * failure_ratio_denominator o.

Lemma trips_spec o h w :
  options_ok o -> window_of (sampling_window o) h w ->
  trips o w = true <-> too_many_failures o (recent (Z.to_nat (sampling_window o)) h).
Proof.
  intros [Hn _ Hr Hd _] Hw.
  pose proof (window_of_len (sampling_window o) _ _ ltac:(lia) Hw) as Hlen.
  destruct Hw as [_ Ho Hf]. unfold trips, too_many_failures, window_len in *. rewrite Ho in *.
  pose proof (failures_of_bounds (recent (Z.to_nat (sampling_window o)) h)) as Hb.
  rewrite <-Hf in *. unfold MAX_SAMPLING_WINDOW in Hn. int_bounds.
  assert (forall a b, 0 <= a <= 10000 -> 0 <= b <= 4294967295 -> 0 <= a * b <= 42949672950000) as Hmul.
  { intros a b Ha Hb'. split; [lia |]. apply (Z.mul_le_mono_nonneg a 10000 b 4294967295); lia. }
  assert (forall a b, 0 <= a <= 10000 -> 0 <= b <= 4294967295 -> saturating u128 (a * b) = a * b) as Hs.
  { intros a b Ha Hb'. specialize (Hmul a b Ha Hb'). apply saturating_id. int_bounds. lia. }
  rewrite !Hs by lia. rewrite andb_true_iff, !Z.leb_le. done.
Qed.

(** The report of an ordinary call: whether it succeeded, and when *)
Definition report (b : CircuitBreaker) (r : bool * Duration) : CircuitBreaker :=
  if fst r then record_success b false else breaker_record_failure b false (snd r).

Lemma split_snoc {A} (Q : list A -> A -> Prop) l x :
  (exists pre y post, l ++ [x] = pre ++ y :: post /\ Q pre y)
  <-> (exists pre y post, l = pre ++ y :: post /\ Q pre y) \/ Q l x.
Proof.
  split.
  - intros (pre & y & post & E & HQ). destruct post as [|z post _] using rev_ind.
    + apply app_inj_tail in E as [-> ->]. by right.
    + rewrite app_comm_cons, app_assoc in E. apply app_inj_tail in E as [-> _]. left. eauto.
  - intros [(pre & y & post & -> & HQ)|HQ].
    + exists pre, y, (post ++ [x]). by rewrite <-app_assoc.
    + exists l, x, []. done.
Qed.

(** A failure with which the window has too many *)
Definition tripping (o : CircuitBreakerOptions) (pre : list (bool * Duration)) (r : bool * Duration)
    : Prop :=
  fst r = false /\ too_many_failures o (recent (Z.to_nat (sampling_window o)) (pre ++ [r]).*1).

Lemma reports_spec o hs :
  options_ok o ->
  let b := foldl report (with_options o) hs in
  options b = o /\ window_of (sampling_window o) hs.*1 (window b)
  /\ (bstate b = OPEN \/ bstate b = CLOSED)
  /\ (bstate b = OPEN <-> exists pre r post, hs = pre ++ r :: post /\ tripping o pre r).
Proof.
  intros Ho. induction hs as [|[s t] hs IH] using rev_ind; simpl.
  - split_and!; [done | | by right |].
    + split; simpl; [done | unfold recent; by rewrite drop_nil | done].
    + split; [done |]. intros (pre & t & post & E & _). by destruct pre.
  - rewrite foldl_app, fmap_app, split_snoc. simpl. set (b := foldl report (with_options o) hs) in *.
    destruct IH as (Hopt & Hw & Hst & Hopen). rewrite <-Hopen.
    pose proof (window_of_push _ _ _ s (ok_window _ Ho) Hw) as Hw'.
    unfold report, tripping. rewrite fmap_app. cbn [fst snd fmap list_fmap].
    destruct s; cbn [record_success breaker_record_failure].
    + split_and!; [done | done | done |]. simpl. split; [by left | by intros [?|[? _]]].
    + cbn zeta. pose proof (trips_spec o _ _ Ho Hw') as Htr. cbn [options window set_window].
      rewrite Hopt. unfold open. destruct (trips o (window_push (window b) false)) eqn:Et.
      * assert (too_many_failures o (recent (Z.to_nat (sampling_window o)) (hs.*1 ++ [false]))) by by apply Htr.
        destruct Hst as [E|E]; cbn [bstate set_window]; rewrite E; simpl; split_and!; tauto.
      * split_and!; [done | done | done |]. cbn [bstate set_window]. split; [by left |].
        intros [?|[_ Ht]]; [done |]. apply Htr in Ht. congruence.
Qed.

(** The breaker opens exactly when it should: after any outcomes of ordinary calls a
    breaker with validated options is open if one of them was a failure with which the
    retained window (the last [sampling_window] outcomes) held at least
    [minimum_throughput] outcomes and at least the configured fraction of failures,
    and otherwise closed, admitting calls. *)
Theorem breaker_opens_exact o o' hs :
  unsigned_options o -> options_build o = Ok o' ->
  let b := foldl report (with_options o') hs in
  (bstate b = OPEN <-> exists pre r post, hs = pre ++ r :: post /\ fst r = false
     /\ too_many_failures o (recent (Z.to_nat (sampling_window o)) (pre ++ [r]).*1))
  /\ (bstate b <> OPEN -> bstate b = CLOSED /\ forall t, permit b t = (Ok false, b))
  /\ outcomes (window b) = recent (Z.to_nat (sampling_window o)) hs.*1
  /\ w_failures (window b) = failures_of (outcomes (window b)).
Proof.
  intros Hu Hb b. apply options_build_ok in Hb as [-> Ho]; [| done].
  destruct (reports_spec o hs Ho) as (_ & [_ Hw Hf] & Hst & Hopen). fold b in Hw, Hf, Hst, Hopen.
  split_and!; [exact Hopen | | done | done]. intros Hn. destruct Hst as [?|E]; [done |].
  split; [done |]. intros t. unfold permit. by rewrite E.
Qed.

Lemma failures_all l : failures_of l = Z.of_nat (length l) -> l = replicate (length l) false.
Proof.
  unfold failures_of. induction l as [|[] l IH]; simpl; intros E; [done | | f_equal; apply IH; lia].
  pose proof (failures_of_bounds l). unfold failures_of in *. lia.
Qed.

Lemma failures_replicate n : failures_of (replicate n false) = Z.of_nat n.
Proof. unfold failures_of. induction n; cbn [replicate sumZ foldr] in *; [done |]. unfold sumZ in *. lia. Qed.

Lemma recent_app {A} n (l l' : list A) : length l' = n -> recent n (l ++ l') = l'.
Proof.
  intros E. unfold recent. rewrite length_app, E, drop_app_length'; [done | lia].
Qed.

(** The compatibility constructor counts consecutive failures: a breaker built with
    [new] is open if and only if [failure_threshold] failures followed each other
    without a success in between. *)
Theorem breaker_consecutive k timeout b0 hs :
  0 <= k -> 0 <= timeout -> breaker_new k timeout = Ok b0 ->
  bstate (foldl report b0 hs) = OPEN
  <-> exists pre post, hs.*1 = pre ++ replicate (Z.to_nat k) false ++ post.
Proof.
  intros Hk Ht Hb. unfold breaker_new in Hb. apply rbind_ok_inv in Hb as (o & Hb & [= <-]).
  apply options_build_ok in Hb as [-> Ho].
  2: { unfold unsigned_options. simpl. int_bounds. lia. }
  destruct (reports_spec _ hs Ho) as (_ & _ & _ & ->). unfold tripping, too_many_failures. simpl.
  pose proof (ok_window _ Ho) as Hw. simpl in Hw. setoid_rewrite Z.mul_1_r. split.
  - intros (pre & r & post & -> & _ & Hlen & Hf). set (l := recent (Z.to_nat k) (pre ++ [r]).*1) in *.
    assert (l = replicate (Z.to_nat k) false) as El.
    { pose proof (failures_of_bounds l). rewrite (failures_all l) by lia. f_equal.
      pose proof (recent_length (Z.to_nat k) (pre ++ [r]).*1). fold l in H0. lia. }
    exists (take (length (pre ++ [r]).*1 - Z.to_nat k) (pre ++ [r]).*1), post.*1.
    rewrite <-El. subst l. unfold recent. rewrite app_assoc, take_drop, <-fmap_app. f_equal.
    by rewrite <-app_assoc.
  - intros (pre & post & E).
    apply fmap_app_inv in E as (hpre & rest & -> & E & ->).
    symmetry in E. apply fmap_app_inv in E as (fs & hpost & Efs & -> & ->).
    destruct fs as [|r fs _] using rev_ind.
    { destruct (Z.to_nat k) eqn:Ek; [lia | done]. }
    exists (hpre ++ fs), r, hpost. rewrite <-!app_assoc. split; [done |]. simpl.
    assert (recent (Z.to_nat k) ((hpre ++ fs) ++ [r]).*1 = replicate (Z.to_nat k) false) as Er.
    { rewrite <-app_assoc, fmap_app, <-Efs. apply recent_app. by rewrite length_replicate. }
    rewrite <-app_assoc in Er. split.
    + rewrite fmap_app in Efs. simpl in Efs.
      assert (fst r ∈ replicate (Z.to_nat k) false) as Hin by (rewrite Efs; set_solver).
      by apply elem_of_replicate_inv in Hin.
    + rewrite Er, length_replicate, failures_replicate. lia.
Qed.

(** ** Every history of calls *)

Record binv (o : CircuitBreakerOptions) (c : Calls) : Prop := {
  bi_options : options (c_breaker c) = o;
  bi_window : exists h, window_of (sampling_window o) h (window (c_breaker c));
  bi_opened : 0 <= opened_at_ns (c_breaker c) <= int_max u64;
  bi_probe : half_open_probe (c_breaker c) = true <-> bstate (c_breaker c) = HALF_OPEN;
  bi_flight : bstate (c_breaker c) = HALF_OPEN -> true ∈ flights c
}.

Lemma binv_new o : binv o (mkCalls (with_options o) []).
Proof.
  split; simpl; [done | | int_bounds; lia | done | done].
  exists []. split; simpl; [done | unfold recent; by rewrite drop_nil | done].
Qed.

Lemma elapsed_ns_bounds t : 0 <= t -> 0 <= elapsed_ns t <= int_max u64.
Proof. unfold elapsed_ns. int_bounds. lia. Qed.

(** Opening leaves the invariant in place, whatever is still in flight. *)
Lemma binv_open o b fs fs' t :
  0 <= t -> binv o (mkCalls b fs) -> binv o (mkCalls (open b t) fs').
Proof.
  intros Ht [Ho Hw Ha Hp Hf]. pose proof (elapsed_ns_bounds t Ht). unfold open. simpl in *.
  destruct (bstate b) eqn:E; split; simpl; try done; rewrite E; try done.
Qed.

Lemma binv_window o b fs h w :
  binv o (mkCalls b fs) -> window_of (sampling_window o) h w -> binv o (mkCalls (set_window b w) fs).
Proof. intros [Ho Hw Ha Hp Hf] Hn. split; simpl in *; eauto. Qed.

Lemma binv_closed o b fs fs' :
  binv o (mkCalls b fs) -> binv o (mkCalls (record_success b true) fs').
Proof.
  intros [Ho [h Hw] Ha Hp Hf]. split; simpl in *; try done.
  exists []. by eapply window_of_clear.
Qed.

(** Ending an ordinary call keeps the probe in flight. *)
Lemma flight_kept (fs : list bool) (i : nat) : fs !! i = Some false -> true ∈ fs -> true ∈ delete i fs.
Proof.
  intros Hi Ht. rewrite (delete_Permutation fs i false Hi) in Ht.
  by apply elem_of_cons in Ht as [?|?].
Qed.

Lemma binv_ended o b fs i :
  fs !! i = Some false -> binv o (mkCalls b fs) -> binv o (mkCalls b (delete i fs)).
Proof.
  intros Hi [Ho Hw Ha Hp Hf]. split; simpl in *; try done. eauto using flight_kept.
Qed.

Lemma binv_step o c c' : options_ok o -> binv o c -> bstep c c' -> binv o c'.
Proof.
  intros Ho Hc Hs. destruct Hs as [b fs t probe b' Hh|b fs t e b' Hh|b fs t i probe r Hi Ht].
  - unfold handle_start, permit, permit_half_open in Hh. destruct Hc as [Hopt Hw Ha Hp Hf]. simpl in *.
    destruct (bstate b) eqn:E; case_all.
    + injection Hh as <- <-. split; simpl; rewrite ?E; done.
    + split; simpl; try done. intros _. set_solver.
    + by apply proj2 in Hp; specialize (Hp eq_refl).
  - unfold handle_start, permit, permit_half_open in Hh. case_all.
  - destruct probe.
    + destruct r as [[[]|e]|]; simpl; unfold guard_complete; simpl; repeat case_match;
        eauto using binv_open, binv_closed.
    + apply (binv_ended o b fs i Hi) in Hc. pose proof (bi_window _ _ Hc) as [h Hw]. simpl in Hw.
      pose proof (window_of_push _ _ _ true (ok_window _ Ho) Hw).
      pose proof (window_of_push _ _ _ false (ok_window _ Ho) Hw).
      destruct r as [[[]|e]|]; simpl; unfold guard_complete, breaker_record_failure; simpl;
        repeat case_match; eauto using binv_open, binv_window.
Qed.

Lemma binv_reachable o c :
  options_ok o -> rtc bstep (mkCalls (with_options o) []) c -> binv o c.
Proof.
  intros Ho. apply (rtc_ind_r (R := bstep) (binv o)); [apply binv_new |]. eauto using binv_step.
Qed.

(** A retryable failure, other than a cancellation *)
Definition counts_as_failure (e : CatgaError) : Prop := code e <> Cancelled /\ is_retryable e = true.

(** C39: What the breaker promises when its methods do not overlap: admission, completion and
    drop of a call each run to their end before the next begins, while the calls themselves
    overlap and end in any order.  Closed, it admits every call; open, it refuses every call
    until [reset_timeout] after it opened and then admits one as a probe; half open, a probe is
    in flight and every other call is refused.  A probe that succeeds closes it with an empty
    window; one that ends with a retryable failure other than a cancellation, or is abandoned,
    opens it, and for another [reset_timeout] every call is refused.  The condition is needed:
    the methods make several atomic accesses, and when these interleave two probes can run and
    the cooldown can be skipped ([breaker_races]). *)
Theorem breaker_contract o c :
  options_ok o -> rtc bstep (mkCalls (with_options o) []) c ->
  let b := c_breaker c in
  (bstate b = CLOSED -> forall t, permit b t = (Ok false, b))
  /\ (bstate b = OPEN -> forall t,
        (t - opened_at_ns b < reset_timeout o -> permit b t = (Err circuit_open_error, b))
        /\ (t <= int_max u64 -> reset_timeout o <= t - opened_at_ns b -> exists b',
              permit b t = (Ok true, b')
              /\ forall t', permit b' t' = (Err circuit_open_error, b')))
  /\ (bstate b = HALF_OPEN ->
        true ∈ flights c /\ forall t, permit b t = (Err circuit_open_error, b))
  /\ (forall t, bstate (guard_complete b true (Ok tt) t) = CLOSED
        /\ outcomes (window (guard_complete b true (Ok tt) t)) = [])
  /\ (bstate b = HALF_OPEN -> forall b' t t' e, 0 <= t -> counts_as_failure e ->
        b' = guard_complete (A := unit) b true (Err e) t \/ b' = guard_drop b true t ->
        bstate b' = OPEN
        /\ (t' - t < reset_timeout o -> t <= int_max u64 ->
            permit b' t' = (Err circuit_open_error, b'))).
Proof.
  intros Ho Hr b. pose proof (binv_reachable o c Ho Hr) as [Hopt _ Ha Hp Hf]. fold b in Hopt, Ha, Hp, Hf.
  pose proof (ok_timeout _ Ho) as Hto.
  unfold permit, permit_half_open, elapsed_since_open, elapsed_ns. split_and!.
  - by intros ->.
  - intros Es t. rewrite Es, Hopt. split.
    + intros Hlt. destruct (Z.ltb_spec (Z.max 0 (Z.min t (int_max u64) - opened_at_ns b)) (reset_timeout o)); [done | lia].
    + intros Hmax Hge. destruct (Z.ltb_spec (Z.max 0 (Z.min t (int_max u64) - opened_at_ns b)) (reset_timeout o)); [lia |].
      eexists. split; done.
  - intros Es. rewrite Es. split; [by apply Hf |]. intros _. by rewrite (proj2 Hp Es).
  - intros t. done.
  - intros Es b' t t' e Ht [Hc Hre] Hb'. assert (b' = open b t) as ->.
    { destruct Hb' as [-> | ->]; [| done]. unfold guard_complete. by rewrite bool_decide_false, Hre. }
    unfold open. rewrite Es. simpl. split; [done |]. intros Hlt Hmax. rewrite Hopt. unfold elapsed_ns.
    destruct (Z.ltb_spec (Z.max 0 (Z.min t' (int_max u64) - Z.min t (int_max u64))) (reset_timeout o)); [done | lia].
Qed.

(** ** The atomic accesses

    A thread runs [permit], [record_failure] of an ordinary call, or [record_success] of
    a probe; every state of [bpc] is followed by one access to the shared words.  The
    window is protected by a mutex, so a change of it is one step. *)

Inductive bpc :=
| PLoad | PElapsed | PExchange | PReset | PTake
| Permitted (probe : bool) | Refused
| RFailure | OSwap | OStamp | OReset
| SClear | SProbe | SClose
| Reported.

(** The access of a thread at time [now], and where it goes on *)
Definition baccess (now : Duration) (p : bpc) (b : CircuitBreaker) : bpc * CircuitBreaker :=
  match p with
  | PLoad =>
    (match bstate b with CLOSED => Permitted false | OPEN => PElapsed | HALF_OPEN => PTake end, b)
  | PElapsed =>
    (if elapsed_since_open b now <? reset_timeout (options b) then Refused else PExchange, b)
  | PExchange => if decide (bstate b = OPEN) then (PReset, set_bstate b HALF_OPEN) else (PLoad, b)
  | PReset => (PLoad, set_probe b false)
  | PTake => if half_open_probe b then (Refused, b) else (Permitted true, set_probe b true)
  | RFailure =>
    let b := set_window b (window_push (window b) false) in
    (if trips (options b) (window b) then OSwap else Reported, b)
  | OSwap => (if decide (bstate b = OPEN) then Reported else OStamp, set_bstate b OPEN)
  | OStamp => (OReset, set_opened_at b (elapsed_ns now))
  | OReset => (Reported, set_probe b false)
  | SClear => (SProbe, set_window b (window_clear (window b)))
  | SProbe => (SClose, set_probe b false)
  | SClose => (Reported, set_bstate b CLOSED)
  | Permitted _ | Refused | Reported => (p, b)
  end.

Record BMachine := mkBMachine { bm_breaker : CircuitBreaker; bm_now : Duration; bm_threads : list bpc }.

Inductive bmstep : BMachine -> BMachine -> Prop :=
| bm_access b now ts i p now' p' b' :
    ts !! i = Some p -> now <= now' -> baccess now' p b = (p', b') ->
    bmstep (mkBMachine b now ts) (mkBMachine b' now' (<[i := p']> ts)).

(** Run to its end without interference, each method does what its definition says. *)
Fixpoint balone (n : nat) (now : Duration) (p : bpc) (b : CircuitBreaker) : bpc * CircuitBreaker :=
  match n with
  | O => (p, b)
  | S n => let '(p, b) := baccess now p b in balone n now p b
  end.

Lemma set_bstate_same b : set_bstate b (bstate b) = b.
Proof. by destruct b. Qed.

Lemma methods_refine b t :
  (exists n, balone n t PLoad b
     = (match fst (permit b t) with Ok probe => Permitted probe | Err _ => Refused end, snd (permit b t)))
  /\ (exists n, balone n t RFailure b = (Reported, breaker_record_failure b false t))
  /\ (exists n, balone n t SClear b = (Reported, record_success b true))
  /\ (exists n, balone n t OSwap b = (Reported, open b t)).
Proof.
  assert (forall b, exists n, balone n t OSwap b = (Reported, open b t)) as Hopen.
  { intros b0. exists 3%nat. simpl. unfold open. destruct (bstate b0) eqn:E; simpl; try done.
    by rewrite <-E, set_bstate_same. }
  split_and!; [| | | by apply Hopen].
  - exists 6%nat. unfold permit, permit_half_open. destruct (bstate b) eqn:E; simpl; rewrite E; simpl.
    + done.
    + destruct (elapsed_since_open b t <? reset_timeout (options b)); simpl; [done |].
      rewrite E. simpl. done.
    + by destruct (half_open_probe b).
  - unfold breaker_record_failure. cbn zeta.
    set (b1 := set_window b (window_push (window b) false)).
    assert (forall n, balone (S n) t RFailure b
      = balone n t (if trips (options b1) (window b1) then OSwap else Reported) b1) as E by done.
    destruct (Hopen b1) as [n Hn]. destruct (trips (options b1) (window b1)).
    + exists (S n). by rewrite E.
    + exists 1%nat. by rewrite E.
  - exists 3%nat. done.
Qed.

(** Runs the threads in the order of a schedule, without time passing. *)
Fixpoint brun (schedule : list nat) (m : BMachine) : BMachine :=
  match schedule with
  | [] => m
  | i :: schedule =>
    match bm_threads m !! i with
    | None => brun schedule m
    | Some p =>
      let '(p, b) := baccess (bm_now m) p (bm_breaker m) in
      brun schedule (mkBMachine b (bm_now m) (<[i := p]> (bm_threads m)))
    end
  end.

Lemma brun_steps schedule m : rtc bmstep m (brun schedule m).
Proof.
  revert m. induction schedule as [|i schedule IH]; intros [b now ts]; simpl; [apply rtc_refl |].
  destruct (ts !! i) as [p|] eqn:Ei; [| apply IH].
  destruct (baccess now p b) as [p' b'] eqn:Ea. eapply rtc_l; [| apply IH].
  by apply (bm_access b now ts i p now).
Qed.

(** The single probe and the cooldown are lost when the accesses interleave.  First, on a
    breaker whose cooldown has passed: one thread makes it half open, a second one takes
    the probe, the first one then clears the probe flag and takes it again, so two
    probes run.  Second, on a breaker that has been closed for longer than the
    cooldown: the failing thread has set the state to open but not yet the time, so
    two probes are admitted in the very instant in which the breaker opens. *)
Theorem breaker_races :
  let o := options_builder 1 100 in
  (exists m, rtc bmstep (mkBMachine (open (with_options o) 0) 100 [PLoad; PLoad]) m
     /\ bm_threads m = [Permitted true; Permitted true])
  /\ (exists m, rtc bmstep (mkBMachine (with_options o) 1000 [RFailure; PLoad; PLoad]) m
        /\ bm_now m = 1000 /\ opened_at_ns (bm_breaker m) = 1000
        /\ bm_threads m = [Reported; Permitted true; Permitted true]).
Proof.
  intros o. split.
  - eexists. split; [apply (brun_steps [0; 0; 0; 1; 1; 0; 0; 0]%nat) | done].
  - eexists. split; [apply (brun_steps [0; 0; 1; 1; 1; 1; 1; 1; 0; 0; 2; 2]%nat) | done].
Qed.

(** ** Concrete instances of the theorems *)

Definition demo_options : CircuitBreakerOptions :=
  with_failure_ratio (with_minimum_throughput (with_sampling_window (options_builder 1 100) 4) 2) 1 2.

Lemma demo_unsigned : unsigned_options demo_options.
Proof. unfold unsigned_options. simpl. int_bounds. lia. Qed.

Lemma demo_options_ok : options_ok demo_options.
Proof. by destruct (options_build_ok demo_options demo_options demo_unsigned eq_refl). Qed.

Lemma breaker_opens_exact_witness :
  bstate (foldl report (with_options demo_options) [(true, 1); (false, 2)]) = OPEN
  /\ outcomes (window (foldl report (with_options demo_options) [(true, 1); (false, 2)]))
     = recent 4 [true; false].
Proof.
  split; [reflexivity |].
  destruct (breaker_opens_exact demo_options demo_options [(true, 1); (false, 2)] demo_unsigned eq_refl)
    as (_ & _ & H & _). exact H.
Defined.

Lemma breaker_consecutive_witness :
  bstate (foldl report (with_options (options_builder 2 100)) [(false, 1); (true, 2); (false, 3)])
    = CLOSED
  /\ ~ exists pre post : list bool, [false; true; false] = pre ++ replicate 2 false ++ post.
Proof.
  split; [reflexivity |]. intros H.
  pose proof (proj2 (breaker_consecutive 2 100 (with_options (options_builder 2 100))
    [(false, 1); (true, 2); (false, 3)] ltac:(lia) ltac:(lia) eq_refl) H) as E. discriminate E.
Defined.

(** A failing call opens the breaker; after the cooldown a probe is in flight. *)
Definition demo_failed : CircuitBreaker :=
  guard_complete (A := unit) (with_options (options_builder 1 100)) false
    (Err (CatgaError_new Transient "down")) 50.
Definition demo_probing : Calls := mkCalls (snd (permit demo_failed 200)) [true].

Lemma breaker_demo_history : rtc bstep (mkCalls (with_options (options_builder 1 100)) []) demo_probing.
Proof.
  eapply rtc_l; [by apply (bs_admitted _ [] 40 false) |].
  eapply rtc_l; [by apply (bs_ended _ [false] 50 0 false (Some (Err (CatgaError_new Transient "down")))) |].
  eapply rtc_l; [by apply (bs_admitted demo_failed [] 200 true) |]. apply rtc_refl.
Qed.

Lemma demo_single_ok : options_ok (options_builder 1 100).
Proof. split; simpl; unfold MAX_SAMPLING_WINDOW; int_bounds; lia. Qed.

Lemma breaker_contract_witness :
  bstate (c_breaker demo_probing) = HALF_OPEN
  /\ forall t, permit (c_breaker demo_probing) t = (Err circuit_open_error, c_breaker demo_probing).
Proof.
  split; [reflexivity |].
  destruct (breaker_contract (options_builder 1 100) demo_probing demo_single_ok breaker_demo_history)
    as (_ & _ & H & _). apply (H eq_refl).
Defined.
