(* ===== verification/Flows.v ===== *)
(** * Durable flow state and its store ([flow/state.rs], [flow/store.rs],
    [memory/flow.rs])

    [FlowState] is the versioned record of one durable flow.  [FlowStoreLaws] is what a
    flow store promises to the executor, also when it may fail; [MemoryFlows] is an
    instance of it. *)

From S2P Require Import Prelude Utf8 Errors Time.

Definition MAX_FLOW_DATA_BYTES : Z := 1024 * 1024.
Definition MAX_FLOW_STORE_BATCH : Z := 1024.

Inductive FlowStatus := Running | Compensating | Suspended | Done | Failed | Cancelled.

#[global] Instance FlowStatus_eq_dec : EqDecision FlowStatus.
Proof. solve_decision. Defined.

Definition is_terminal (s : FlowStatus) : bool :=
  match s with Done | Failed | Cancelled => true | _ => false end.

Record FlowState := mkFlowState {
  f_id : string;
  f_type : string;
  f_status : FlowStatus;
  f_step : Z;
  f_version : Z;
  f_owner : option string;
  f_heartbeat : SystemTime;
  f_data : list Z;
  f_error : option CatgaError
}.

Definition FlowState_new (id flow_type : string) (data : list Z) (owner : string)
    (clock : SystemTime) : FlowState :=
  mkFlowState id flow_type Running 0 0 (Some owner) clock data None.

Definition flow_validate (s : FlowState) : CatgaResult unit :=
  if MAX_FLOW_DATA_BYTES <? Z.of_nat (length (f_data s))
  then fail Validation "flow input payload exceeds 1048576 bytes"
  else Ok tt.

Definition claimed_by (s : FlowState) (owner : string) (clock : SystemTime) : FlowState :=
  mkFlowState (f_id s) (f_type s) (f_status s) (f_step s) (f_version s) (Some owner) clock
    (f_data s) (f_error s).

Definition heartbeated_at (s : FlowState) (heartbeat : SystemTime) : FlowState :=
  mkFlowState (f_id s) (f_type s) (f_status s) (f_step s) (f_version s) (f_owner s) heartbeat
    (f_data s) (f_error s).

Definition at_step (s : FlowState) (step : Z) : FlowState :=
  mkFlowState (f_id s) (f_type s) (f_status s) step (f_version s) (f_owner s) (f_heartbeat s)
    (f_data s) (f_error s).

Definition compensating (s : FlowState) : FlowState :=
  mkFlowState (f_id s) (f_type s) Compensating (f_step s) (f_version s) (f_owner s)
    (f_heartbeat s) (f_data s) (f_error s).

Definition with_error (s : FlowState) (error : CatgaError) : FlowState :=
  mkFlowState (f_id s) (f_type s) (f_status s) (f_step s) (f_version s) (f_owner s)
    (f_heartbeat s) (f_data s) (Some error).

Definition suspended (s : FlowState) : FlowState :=
  mkFlowState (f_id s) (f_type s) Suspended (f_step s) (f_version s) None (f_heartbeat s)
    (f_data s) (f_error s).

Definition running (s : FlowState) : FlowState :=
  mkFlowState (f_id s) (f_type s) Running (f_step s) (f_version s) (f_owner s) (f_heartbeat s)
    (f_data s) (f_error s).

Definition done (s : FlowState) (step : Z) : FlowState :=
  mkFlowState (f_id s) (f_type s) Done step (f_version s) None (f_heartbeat s) (f_data s) None.

Definition failed (s : FlowState) (error : CatgaError) : FlowState :=
  mkFlowState (f_id s) (f_type s) Failed (f_step s) (f_version s) None (f_heartbeat s) (f_data s)
    (Some error).

Definition cancelled (s : FlowState) : FlowState :=
  mkFlowState (f_id s) (f_type s) Cancelled (f_step s) (f_version s) None (f_heartbeat s)
    (f_data s) None.

Definition next_version (s : FlowState) : CatgaResult FlowState :=
  let? version := ok_or (checked i64 (f_version s + 1))
    (CatgaError_new Conflict "flow state version cannot advance beyond i64::MAX") in
  Ok (mkFlowState (f_id s) (f_type s) (f_status s) (f_step s) version (f_owner s)
        (f_heartbeat s) (f_data s) (f_error s)).

Definition is_next_version (expected next : Z) : bool :=
  match checked i64 (expected + 1) with Some candidate => candidate =? next | None => false end.

Definition validate_flow_batch_size (count : nat) : CatgaResult unit :=
  if MAX_FLOW_STORE_BATCH <? Z.of_nat count
  then fail Validation "flow batch size exceeds the supported maximum" else Ok tt.

(** [now.duration_since(heartbeat).is_ok_and(|elapsed| elapsed >= stale_after)] *)
Definition is_stale (heartbeat now : SystemTime) (stale_after : Duration) : bool :=
  match duration_since now heartbeat with Some elapsed => stale_after <=? elapsed | None => false end.

(** ** The store interface

    [fs_lookup] is what is stored; an operation that fails has changed nothing. *)

Class FlowStoreLaws (S : Type) := {
  fs_wf : S -> Prop;
  fs_lookup : S -> string -> option FlowState;
  fs_create : S -> FlowState -> CatgaResult bool * S;
  fs_update : S -> Z -> FlowState -> CatgaResult bool * S;
  fs_get : S -> string -> CatgaResult (option FlowState);
  fs_try_claim : S -> string -> string -> Duration -> SystemTime -> SystemTime ->
    CatgaResult (option FlowState) * S;
  fs_heartbeat : S -> string -> string -> Z -> SystemTime -> CatgaResult bool * S;
  fs_lookup_id s id st : fs_wf s -> fs_lookup s id = Some st -> f_id st = id;
  fs_get_law s id o : fs_get s id = Ok o -> o = fs_lookup s id;
  fs_create_law s st : fs_wf s ->
    let '(r, s') := fs_create s st in fs_wf s' /\
    if decide (r = Ok true)
    then fs_lookup s (f_id st) = None
         /\ forall id, fs_lookup s' id = if decide (id = f_id st) then Some st else fs_lookup s id
    else forall id, fs_lookup s' id = fs_lookup s id;
  fs_update_law s expected next : fs_wf s ->
    let '(r, s') := fs_update s expected next in fs_wf s' /\
    if decide (r = Ok true)
    then f_version next = expected + 1
         /\ (exists cur, fs_lookup s (f_id next) = Some cur /\ f_version cur = expected)
         /\ forall id, fs_lookup s' id = if decide (id = f_id next) then Some next else fs_lookup s id
    else forall id, fs_lookup s' id = fs_lookup s id;
  fs_try_claim_law s flow_type owner stale_after now clock : fs_wf s ->
    let '(r, s') := fs_try_claim s flow_type owner stale_after now clock in fs_wf s' /\
    match r with
    | Ok (Some claimed) => exists cur, fs_lookup s (f_id cur) = Some cur
        /\ f_type cur = flow_type /\ f_status cur = Running
        /\ is_stale (f_heartbeat cur) now stale_after = true
        /\ next_version (claimed_by cur owner clock) = Ok claimed
        /\ forall id, fs_lookup s' id = if decide (id = f_id cur) then Some claimed else fs_lookup s id
    | _ => forall id, fs_lookup s' id = fs_lookup s id
    end;
  fs_heartbeat_law s id owner version clock : fs_wf s ->
    let '(r, s') := fs_heartbeat s id owner version clock in fs_wf s' /\
    if decide (r = Ok true)
    then exists cur, fs_lookup s id = Some cur /\ f_owner cur = Some owner
         /\ f_version cur = version
         /\ forall j, fs_lookup s' j
                      = if decide (j = id) then Some (heartbeated_at cur clock) else fs_lookup s j
    else forall j, fs_lookup s' j = fs_lookup s j
}.

(** [FlowStore::create_batch]: the default implementation *)
Fixpoint create_batch_loop {S} `{!FlowStoreLaws S} (s : S) (states : list FlowState)
    (created : list bool) : CatgaResult (list bool) * S :=
  match states with
  | [] => (Ok created, s)
  | state :: states =>
    match fs_create s state with
    | (Ok b, s) => create_batch_loop s states (created ++ [b])
    | (Err e, s) => (Err e, s)
    end
  end.

Definition create_batch {S} `{!FlowStoreLaws S} (s : S) (states : list FlowState)
    : CatgaResult (list bool) * S :=
  match validate_flow_batch_size (length states) with
  | Err e => (Err e, s)
  | Ok _ => create_batch_loop s states []
  end.

(** ** [MemoryFlows]

    A slot is replaced by a compare-and-swap against the state that was read; run alone,
    the swap succeeds. *)

Section memory.
Context `{!MapIter string}.

Record MemoryFlows := mkMemoryFlows { flows : gmap string FlowState }.

Definition flows_default : MemoryFlows := mkMemoryFlows ∅.

Definition put_flow (s : MemoryFlows) (id : string) (st : FlowState) : MemoryFlows :=
  mkMemoryFlows (<[id := st]> (flows s)).

Definition flow_create (s : MemoryFlows) (state : FlowState) : CatgaResult bool * MemoryFlows :=
  match flow_validate state with
  | Err e => (Err e, s)
  | Ok _ =>
    match flows s !! f_id state with
    | None => (Ok true, put_flow s (f_id state) state)
    | Some _ => (Ok false, s)
    end
  end.

Definition flow_update (s : MemoryFlows) (expected_version : Z) (next : FlowState)
    : CatgaResult bool * MemoryFlows :=
  match flow_validate next with
  | Err e => (Err e, s)
  | Ok _ =>
    if negb (is_next_version expected_version (f_version next)) then (Ok false, s)
    else
      match flows s !! f_id next with
      | None => (Ok false, s)
      | Some current =>
        if negb (f_version current =? expected_version) then (Ok false, s)
        else (Ok true, put_flow s (f_id next) next)
      end
  end.

Definition flow_get (s : MemoryFlows) (id : string) : CatgaResult (option FlowState) :=
  match flows s !! id with
  | None => Ok None
  | Some state => let? _ := flow_validate state in Ok (Some state)
  end.

(** The loop of [try_claim] over the slots; the slot's key is the flow's identity. *)
Fixpoint claim_scan (s : MemoryFlows) (slots : list (string * FlowState)) (flow_type owner : string)
    (stale_after : Duration) (now clock : SystemTime)
    : CatgaResult (option FlowState) * MemoryFlows :=
  match slots with
  | [] => (Ok None, s)
  | (id, current) :: slots =>
    match flow_validate current with
    | Err e => (Err e, s)
    | Ok _ =>
      if negb (bool_decide (f_type current = flow_type))
         || negb (bool_decide (f_status current = Running))
         || negb (is_stale (f_heartbeat current) now stale_after)
      then claim_scan s slots flow_type owner stale_after now clock
      else
        match next_version (claimed_by current owner clock) with
        | Err e => (Err e, s)
        | Ok next => (Ok (Some next), put_flow s id next)
        end
    end
  end.

Definition flow_try_claim (s : MemoryFlows) (flow_type owner : string) (stale_after : Duration)
    (now clock : SystemTime) : CatgaResult (option FlowState) * MemoryFlows :=
  claim_scan s (iter (flows s)) flow_type owner stale_after now clock.

Definition flow_heartbeat (s : MemoryFlows) (id owner : string) (version : Z) (clock : SystemTime)
    : CatgaResult bool * MemoryFlows :=
  match flows s !! id with
  | None => (Ok false, s)
  | Some current =>
    if negb (bool_decide (f_owner current = Some owner)) || negb (f_version current =? version)
    then (Ok false, s)
    else (Ok true, put_flow s id (heartbeated_at current clock))
  end.

(** *** It keeps the laws *)

(** Every flow is stored under its own identity. *)
Definition flows_wf (s : MemoryFlows) : Prop := forall id st, flows s !! id = Some st -> f_id st = id.

Lemma put_flow_wf s id st : flows_wf s -> f_id st = id -> flows_wf (put_flow s id st).
Proof.
  intros Hs Hid j x. simpl. rewrite lookup_insert_Some. intros [[<- <-]|[_ ?]]; [done | eauto].
Qed.

Lemma put_flow_lookup s id st j :
  flows (put_flow s id st) !! j = if decide (j = id) then Some st else flows s !! j.
Proof.
  simpl. case_decide as E; [subst; apply lookup_insert_eq | by apply lookup_insert_ne].
Qed.

Lemma next_version_ok s s' :
  next_version s = Ok s' ->
  f_version s' = f_version s + 1 /\ int_min i64 <= f_version s + 1 <= int_max i64
  /\ f_id s' = f_id s /\ f_type s' = f_type s /\ f_status s' = f_status s /\ f_step s' = f_step s
  /\ f_owner s' = f_owner s /\ f_heartbeat s' = f_heartbeat s /\ f_data s' = f_data s
  /\ f_error s' = f_error s.
Proof.
  unfold next_version. intros H. apply rbind_ok_inv in H as (v & Hv & [= <-]). unfold ok_or in Hv.
  destruct (checked i64 (f_version s + 1)) eqn:E; simplify_eq. apply checked_Some in E as [-> ?].
  simpl. split_and!; try done; lia.
Qed.

Lemma is_next_version_spec e n :
  is_next_version e n = true <-> n = e + 1 /\ int_min i64 <= e + 1 <= int_max i64.
Proof.
  unfold is_next_version. destruct (checked i64 (e + 1)) eqn:E.
  - apply checked_Some in E as [-> ?]. rewrite Z.eqb_eq. naive_solver.
  - apply checked_None in E. split; [done | lia].
Qed.

Lemma claim_scan_spec s slots flow_type owner stale_after now clock :
  flows_wf s -> (forall id st, (id, st) ∈ slots -> flows s !! id = Some st) ->
  match claim_scan s slots flow_type owner stale_after now clock with
  | (Ok (Some claimed), s') => exists cur, (f_id cur, cur) ∈ slots /\ f_type cur = flow_type
      /\ f_status cur = Running /\ is_stale (f_heartbeat cur) now stale_after = true
      /\ next_version (claimed_by cur owner clock) = Ok claimed /\ s' = put_flow s (f_id cur) claimed
  | (Ok None, s') => s' = s /\ forall id st, (id, st) ∈ slots ->
      ~ (f_type st = flow_type /\ f_status st = Running
         /\ is_stale (f_heartbeat st) now stale_after = true)
  | (Err _, s') => s' = s
  end.
Proof.
  intros Hwf. induction slots as [|[id st] slots IH]; intros Hsl; simpl.
  { split; [done |]. intros id st Hin. by apply elem_of_nil in Hin. }
  destruct (flow_validate st); [| done].
  destruct (_ || _) eqn:E.
  - assert (~ (f_type st = flow_type /\ f_status st = Running
      /\ is_stale (f_heartbeat st) now stale_after = true)) as Hno.
    { intros (E1 & E2 & E3). by rewrite !bool_decide_true, E3 in E by done. }
    specialize (IH ltac:(set_solver)).
    destruct (claim_scan s slots flow_type owner stale_after now clock) as [[[c|]|e] s']; [| | done].
    + destruct IH as (cur & Hin & ?). exists cur. split; [by right | done].
    + destruct IH as [-> Hn]. split; [done |]. intros id' st' [[= -> ->]|Hin]%elem_of_cons; eauto.
  - apply orb_false_iff in E as [E E3]. apply orb_false_iff in E as [E1 E2]. bool_prop.
    destruct (next_version (claimed_by st owner clock)) eqn:En; [| done].
    assert (f_id st = id) as <- by (apply Hwf, Hsl; by left).
    exists st. split_and!; try done. by left.
Qed.

#[export] Instance memory_flows_laws : FlowStoreLaws MemoryFlows.
Proof.
  refine {| fs_wf := flows_wf; fs_lookup s id := flows s !! id; fs_create := flow_create;
    fs_update := flow_update; fs_get := flow_get; fs_try_claim := flow_try_claim;
    fs_heartbeat := flow_heartbeat |}.
  - intros s id st Hs Hl. by apply Hs.
  - intros s id o. unfold flow_get. destruct (flows s !! id) as [st|]; [| by intros [= <-]].
    destruct (flow_validate st); simpl; by intros [= <-].
  - intros s st Hs. unfold flow_create. destruct (flow_validate st); [| done].
    destruct (flows s !! f_id st) eqn:E; [done |]. split; [by apply put_flow_wf |].
    rewrite decide_True by done. split; [done |]. intros. apply put_flow_lookup.
  - intros s e next Hs. unfold flow_update. destruct (flow_validate next); [| done].
    destruct (is_next_version e (f_version next)) eqn:En; simpl; [| done].
    apply is_next_version_spec in En as [En _].
    destruct (flows s !! f_id next) as [cur|] eqn:E; [| done].
    destruct (Z.eqb_spec (f_version cur) e) as [Ev|]; simpl; [| done].
    split; [by apply put_flow_wf |].
    split_and!; [done | by eauto | intros; apply put_flow_lookup].
  - intros s ft owner stale now clock Hs. unfold flow_try_claim.
    pose proof (claim_scan_spec s (iter (flows s)) ft owner stale now clock Hs) as Hc.
    destruct (claim_scan _ _ _ _ _ _ _) as [[[c|]|e] s'].
    + destruct Hc as (cur & Hin & ? & ? & ? & Hn & ->); [intros; by apply elem_of_iter |].
      apply elem_of_iter in Hin. pose proof (next_version_ok _ _ Hn) as (_ & _ & Hid & _).
      split; [by apply put_flow_wf |]. exists cur. split_and!; try done. intros. apply put_flow_lookup.
    + destruct Hc as [-> _]; [intros; by apply elem_of_iter | done].
    + rewrite Hc; [done |]. intros; by apply elem_of_iter.
  - intros s id owner v clock Hs. unfold flow_heartbeat.
    destruct (flows s !! id) as [cur|] eqn:E; [| done].
    destruct (negb _ || _) eqn:Eb; [done |]. apply orb_false_iff in Eb as [E1 E2]. bool_prop.
    split; [by apply put_flow_wf, (Hs id cur) |]. rewrite ?decide_True by done.
    exists cur. split_and!; try done. intros. apply put_flow_lookup.
Defined.
End memory.
