(* ===== verification/FlowExec.v ===== *)
(** * The flow executor ([flow/executor.rs])

    [FlowExecutor] runs a durable flow at least once and records its outcome with
    optimistic concurrency.  The first part gives its operations as they run alone over
    any store that keeps [FlowStoreLaws]; the second part interleaves the store accesses
    of any number of executors, which may stop at any point. *)

From S2P Require Import Prelude Utf8 Errors Time Flows.

(** [flow/dsl.rs] *)
Inductive FlowResult :=
| FlowOk (steps : Z) (elapsed : Duration)
| FlowErr (steps : Z) (error : CatgaError) (elapsed : Duration).

Definition completed_steps (r : FlowResult) : Z :=
  match r with FlowOk n _ | FlowErr n _ _ => n end.
Definition result_error (r : FlowResult) : option CatgaError :=
  match r with FlowOk _ _ => None | FlowErr _ e _ => Some e end.
Definition flow_success (steps : Z) : FlowResult := FlowOk steps 0.
Definition flow_failure (steps : Z) (error : CatgaError) : FlowResult := FlowErr steps error 0.

Record FlowHeartbeatOptions := mkHeartbeatOptions { hb_interval : Duration }.

Definition FlowHeartbeatOptions_new (interval : Duration) : CatgaResult FlowHeartbeatOptions :=
  if interval =? 0 then fail Validation "flow heartbeat interval must be greater than zero"
  else Ok (mkHeartbeatOptions interval).

Record FlowRecoveryOptions := mkRecoveryOptions { max_claims : nat; poll_interval : Duration }.

Definition FlowRecoveryOptions_new (max_claims : nat) (poll_interval : Duration)
    : CatgaResult FlowRecoveryOptions :=
  if (max_claims =? 0)%nat then fail Validation "flow recovery max_claims must be greater than zero"
  else if poll_interval =? 0
  then fail Validation "flow recovery poll_interval must be greater than zero"
  else Ok (mkRecoveryOptions max_claims poll_interval).

Inductive ExistingFlow := Run (st : FlowState) | Complete (r : FlowResult).

Definition terminal_state (state : FlowState) (result : FlowResult) : CatgaResult FlowState :=
  match result_error result with
  | Some error => next_version (failed (at_step state (completed_steps result)) error)
  | None => next_version (done state (completed_steps result))
  end.

Definition terminal_result (state : FlowState) : option (CatgaResult FlowResult) :=
  match f_status state with
  | Done => Some (Ok (flow_success (f_step state)))
  | Failed => Some (match f_error state with
                    | Some error => Ok (flow_failure (f_step state) error)
                    | None => fail Internal "a failed flow has no stored error"
                    end)
  | Cancelled => Some (Ok (flow_failure (f_step state)
                             (CatgaError_new Errors.Cancelled "flow was cancelled")))
  | Running | Compensating | Suspended => None
  end.

Record FlowExecutor := mkExecutor { ex_owner : string; ex_stale_after : Duration }.

(** [claim_or_load] between its first read and its update: an answer, or the state to
    store as the claim *)
Definition consider (ex : FlowExecutor) (expected current : FlowState) (now clock : SystemTime)
    : CatgaResult ExistingFlow + FlowState :=
  match flow_validate current with
  | Err e => inl (Err e)
  | Ok _ =>
    if negb (bool_decide (f_type current = f_type expected))
    then inl (fail Conflict "a flow with this identity has a different type")
    else
      match (if is_terminal (f_status current) then terminal_result current else None) with
      | Some result => inl (rmap Complete result)
      | None =>
        if negb (is_stale (f_heartbeat current) now (ex_stale_after ex))
        then inl (fail Transient "flow is already running on another owner")
        else
          match next_version (claimed_by current (ex_owner ex) clock) with
          | Err e => inl (Err e)
          | Ok claimed => inr claimed
          end
      end
  end.

(** [load_running_or_terminal] after its read *)
Definition loaded (current : FlowState) : CatgaResult ExistingFlow :=
  let? _ := flow_validate current in
  match (if is_terminal (f_status current) then terminal_result current else None) with
  | Some result => rmap Complete result
  | None => fail Transient "flow ownership changed before execution began"
  end.

(** [persist_result] after a refused update and a read: an answer, or the state to retry
    from *)
Definition reconsider (ex : FlowExecutor) (version : Z) (observed : FlowState)
    : CatgaResult FlowResult + FlowState :=
  match flow_validate observed with
  | Err e => inl (Err e)
  | Ok _ =>
    if is_terminal (f_status observed) then
      inl (match terminal_result observed with
           | Some terminal => terminal
           | None => fail Internal "terminal flow state has no result"
           end)
    else if bool_decide (f_status observed = Running)
            && bool_decide (f_owner observed = Some (ex_owner ex))
            && (f_version observed =? version)
    then inr observed
    else inl (fail Transient "flow ownership changed before its result was saved")
  end.

(** [run_work]: an error of the work is its failed result. *)
Definition work_result (state : FlowState) (r : CatgaResult FlowResult) : FlowResult :=
  match r with Ok result => result | Err error => flow_failure (f_step state) error end.

Definition disappeared {A} (what : string) : CatgaResult A := fail Transient what.

Section executor.
Context {S : Type} `{!FlowStoreLaws S} (ex : FlowExecutor).

Definition load_running_or_terminal (s : S) (id : string) : CatgaResult ExistingFlow :=
  let? o := fs_get s id in
  match o with
  | None => disappeared "flow disappeared while ownership was changing"
  | Some current => loaded current
  end.

Definition claim_or_load (s : S) (expected : FlowState) (now clock : SystemTime)
    : CatgaResult ExistingFlow * S :=
  match fs_get s (f_id expected) with
  | Err e => (Err e, s)
  | Ok None => (disappeared "flow disappeared before it could be loaded", s)
  | Ok (Some current) =>
    match consider ex expected current now clock with
    | inl r => (r, s)
    | inr claimed =>
      match fs_update s (f_version current) claimed with
      | (Err e, s) => (Err e, s)
      | (Ok true, s) => (Ok (Run claimed), s)
      | (Ok false, s) => (load_running_or_terminal s (f_id expected), s)
      end
    end
  end.

Fixpoint persist_loop (fuel : nat) (s : S) (version : Z) (current : FlowState) (result : FlowResult)
    : option (CatgaResult FlowResult * S) :=
  match fuel with
  | O => None
  | Datatypes.S fuel =>
    match terminal_state current result with
    | Err e => Some (Err e, s)
    | Ok next =>
      match fs_update s version next with
      | (Err e, s) => Some (Err e, s)
      | (Ok true, s) => Some (Ok result, s)
      | (Ok false, s) =>
        match fs_get s (f_id current) with
        | Err e => Some (Err e, s)
        | Ok None => Some (disappeared "flow disappeared while saving its result", s)
        | Ok (Some observed) =>
          match reconsider ex version observed with
          | inl r => Some (r, s)
          | inr current => persist_loop fuel s version current result
          end
        end
      end
    end
  end.

Definition persist_result (fuel : nat) (s : S) (state : FlowState) (result : FlowResult) :=
  persist_loop fuel s (f_version state) state result.

Definition exec_heartbeat (s : S) (id : string) (version : Z) (clock : SystemTime) :=
  fs_heartbeat s id (ex_owner ex) version clock.

(** The work is user code over a state [W]. *)
Context {W : Type} (run : W -> FlowState -> CatgaResult FlowResult * W).

(** The part of [execute] that finds the state to run *)
Definition acquire (s : S) (initial : FlowState) (now clock : SystemTime)
    : CatgaResult ExistingFlow * S :=
  match flow_validate initial with
  | Err e => (Err e, s)
  | Ok _ =>
    match fs_create s initial with
    | (Err e, s) => (Err e, s)
    | (Ok true, s) => (Ok (Run initial), s)
    | (Ok false, s) => claim_or_load s initial now clock
    end
  end.

Definition execute (fuel : nat) (s : S) (w : W) (id flow_type : string) (data : list Z)
    (clock0 now clock : SystemTime) : option (CatgaResult FlowResult * S * W) :=
  let initial := FlowState_new id flow_type data (ex_owner ex) clock0 in
  match acquire s initial now clock with
  | (Err e, s) => Some (Err e, s, w)
  | (Ok (Complete result), s) => Some (Ok result, s, w)
  | (Ok (Run state), s) =>
    let '(r, w) := run w state in
    (fun '(r, s) => (r, s, w)) <$> persist_result fuel s state (work_result state r)
  end.

(** [recover_stale]; the [n]-th claim reads the clock twice. *)
Fixpoint recover_loop (fuel : nat) (s : S) (w : W) (flow_type : string) (claims : nat)
    (clocks : nat -> SystemTime * SystemTime) (recovered : nat)
    : option (CatgaResult nat * S * W) :=
  match claims with
  | O => Some (Ok recovered, s, w)
  | Datatypes.S claims =>
    let '(now, clock) := clocks recovered in
    match fs_try_claim s flow_type (ex_owner ex) (ex_stale_after ex) now clock with
    | (Err e, s) => Some (Err e, s, w)
    | (Ok None, s) => Some (Ok recovered, s, w)
    | (Ok (Some state), s) =>
      match flow_validate state with
      | Err e => Some (Err e, s, w)
      | Ok _ =>
        let '(r, w) := run w state in
        match persist_result fuel s state (work_result state r) with
        | None => None
        | Some (Err e, s) => Some (Err e, s, w)
        | Some (Ok _, s) =>
          recover_loop fuel s w flow_type claims clocks (Datatypes.S recovered)
        end
      end
    end
  end.

Definition recover_stale (fuel : nat) (s : S) (w : W) (flow_type : string)
    (options : FlowRecoveryOptions) (clocks : nat -> SystemTime * SystemTime) :=
  recover_loop fuel s w flow_type (max_claims options) clocks 0.
End executor.

(** ** Many executors over one store

    Every state of a call to [execute] (or of one claim of [recover_stale]) is followed
    by one access to the store, except [XWork], where user code runs. *)

Inductive xpc :=
| XIdle
| XExists (initial : FlowState)
| XClaim (current claimed : FlowState)
| XLost (id : string)
| XWork (st : FlowState)
| XPersist (st current : FlowState) (r : FlowResult)
| XReload (st current : FlowState) (r : FlowResult)
| XReturned (id : string) (r : CatgaResult FlowResult).

Definition answered (id : string) (r : CatgaResult ExistingFlow) : xpc :=
  match r with
  | Ok (Run st) => XWork st
  | Ok (Complete result) => XReturned id (Ok result)
  | Err e => XReturned id (Err e)
  end.

Section machine.
Context {S : Type} `{!FlowStoreLaws S}.

Definition xaccess (ex : FlowExecutor) (now clock : SystemTime) (p : xpc) (s : S) : xpc * S :=
  match p with
  | XExists initial =>
    (match fs_get s (f_id initial) with
     | Err e => XReturned (f_id initial) (Err e)
     | Ok None => XReturned (f_id initial) (disappeared "flow disappeared before it could be loaded")
     | Ok (Some current) =>
       match consider ex initial current now clock with
       | inl r => answered (f_id initial) r
       | inr claimed => XClaim current claimed
       end
     end, s)
  | XClaim current claimed =>
    let '(r, s) := fs_update s (f_version current) claimed in
    (match r with
     | Err e => XReturned (f_id current) (Err e)
     | Ok true => XWork claimed
     | Ok false => XLost (f_id current)
     end, s)
  | XLost id =>
    (answered id (load_running_or_terminal s id), s)
  | XPersist st current r =>
    match terminal_state current r with
    | Err e => (XReturned (f_id st) (Err e), s)
    | Ok next =>
      let '(ok, s) := fs_update s (f_version st) next in
      (match ok with
       | Err e => XReturned (f_id st) (Err e)
       | Ok true => XReturned (f_id st) (Ok r)
       | Ok false => XReload st current r
       end, s)
    end
  | XReload st current r =>
    (match fs_get s (f_id current) with
     | Err e => XReturned (f_id st) (Err e)
     | Ok None => XReturned (f_id st) (disappeared "flow disappeared while saving its result")
     | Ok (Some observed) =>
       match reconsider ex (f_version st) observed with
       | inl answer => XReturned (f_id st) answer
       | inr observed => XPersist st observed r
       end
     end, s)
  | _ => (p, s)
  end.

Record XMachine := mkXMachine { xm_store : S; xm_threads : list (FlowExecutor * xpc) }.

Inductive xstep : XMachine -> XMachine -> Prop :=
| xs_create s ts i ex id flow_type data clock r s' :
    ts !! i = Some (ex, XIdle) ->
    let initial := FlowState_new id flow_type data (ex_owner ex) clock in
    fs_create s initial = (r, s') ->
    xstep (mkXMachine s ts)
      (mkXMachine s' (<[i := (ex, match r with
                                  | Err e => XReturned id (Err e)
                                  | Ok true => XWork initial
                                  | Ok false => XExists initial
                                  end)]> ts))
| xs_recover s ts i ex flow_type now clock st s' :
    ts !! i = Some (ex, XIdle) ->
    fs_try_claim s flow_type (ex_owner ex) (ex_stale_after ex) now clock = (Ok (Some st), s') ->
    xstep (mkXMachine s ts) (mkXMachine s' (<[i := (ex, XWork st)]> ts))
| xs_nothing s ts i ex flow_type now clock r s' :
    ts !! i = Some (ex, XIdle) ->
    fs_try_claim s flow_type (ex_owner ex) (ex_stale_after ex) now clock = (r, s') ->
    r = Ok None \/ (exists e, r = Err e) ->
    xstep (mkXMachine s ts) (mkXMachine s' ts)
| xs_heartbeat s ts owner id version clock r s' :
    fs_heartbeat s id owner version clock = (r, s') ->
    xstep (mkXMachine s ts) (mkXMachine s' ts)
| xs_worked s ts i ex st (r : CatgaResult FlowResult) :
    ts !! i = Some (ex, XWork st) ->
    xstep (mkXMachine s ts) (mkXMachine s (<[i := (ex, XPersist st st (work_result st r))]> ts))
| xs_access s ts i ex p now clock p' s' :
    ts !! i = Some (ex, p) -> xaccess ex now clock p s = (p', s') ->
    xstep (mkXMachine s ts) (mkXMachine s' (<[i := (ex, p')]> ts)).

(** *** What a store may become, and what a thread knows *)

Definition evolves (s s' : S) : Prop :=
  forall id st, fs_lookup s id = Some st -> exists st', fs_lookup s' id = Some st'
    /\ ((f_version st' = f_version st /\ f_status st' = f_status st
         /\ terminal_result st' = terminal_result st)
        \/ (f_version st < f_version st' /\ is_terminal (f_status st) = false)).

(** The flow is at the version of [st] and not finished, or past it. *)
Definition holds (s : S) (st : FlowState) : Prop :=
  exists st', fs_lookup s (f_id st) = Some st'
    /\ (f_version st < f_version st'
        \/ (f_version st' = f_version st /\ is_terminal (f_status st') = false)).

Definition outcome (r : FlowResult) : Z * option CatgaError := (completed_steps r, result_error r).

Definition recorded (s : S) (id : string) (r : FlowResult) : Prop :=
  exists st r', fs_lookup s id = Some st /\ terminal_result st = Some (Ok r')
    /\ outcome r' = outcome r.

Definition pc_ok (s : S) (p : xpc) : Prop :=
  match p with
  | XClaim current claimed => holds s current /\ f_id claimed = f_id current
      /\ f_version claimed = f_version current + 1 /\ is_terminal (f_status claimed) = false
  | XWork st => holds s st
  | XPersist st current _ | XReload st current _ =>
      holds s st /\ f_id current = f_id st /\ f_version current = f_version st
  | XReturned id (Ok r) => recorded s id r
  | _ => True
  end.

(** The claim a thread works under *)
Definition grant (p : xpc) : option (string * Z) :=
  match p with
  | XWork st | XPersist st _ _ | XReload st _ _ => Some (f_id st, f_version st)
  | _ => None
  end.

(** A version no one has been granted yet *)
Definition fresh_grant (s : S) (g : option (string * Z)) : Prop :=
  match g with
  | None => True
  | Some (id, v) => forall st, fs_lookup s id = Some st -> f_version st < v
  end.

Record xinv (m : XMachine) : Prop := {
  xi_wf : fs_wf (xm_store m);
  xi_pc : forall i ex p, xm_threads m !! i = Some (ex, p) -> pc_ok (xm_store m) p;
  xi_grants : forall i j ex p ex' p' g, xm_threads m !! i = Some (ex, p) ->
    xm_threads m !! j = Some (ex', p') -> grant p = Some g -> grant p' = Some g -> i = j
}.

Lemma terminal_result_terminal st : is_Some (terminal_result st) <-> is_terminal (f_status st) = true.
Proof. unfold terminal_result, is_Some. destruct (f_status st); simpl; naive_solver. Qed.

Lemma evolves_refl s s' : (forall id, fs_lookup s' id = fs_lookup s id) -> evolves s s'.
Proof. intros E id st Hl. exists st. rewrite E. split; [done | by left]. Qed.

Lemma holds_evolves s s' st : evolves s s' -> holds s st -> holds s' st.
Proof.
  intros He (st1 & Hl & Hv). destruct (He _ _ Hl) as (st2 & Hl2 & Hv2). exists st2. split; [done |].
  destruct Hv2 as [(E1 & E2 & _)|[Hlt _]].
  - rewrite E1, E2. done.
  - left. destruct Hv as [?|[? _]]; lia.
Qed.

Lemma recorded_evolves s s' id r : evolves s s' -> recorded s id r -> recorded s' id r.
Proof.
  intros He (st & r' & Hl & Ht & Ho). destruct (He _ _ Hl) as (st2 & Hl2 & [(_ & _ & E)|[_ Hn]]).
  - exists st2, r'. by rewrite E.
  - assert (is_terminal (f_status st) = true) by (apply terminal_result_terminal; eauto). congruence.
Qed.

Lemma pc_ok_evolves s s' p : evolves s s' -> pc_ok s p -> pc_ok s' p.
Proof.
  intros He. destruct p as [| | | | | | |id [r|]]; simpl; try done.
  all: try (intros (? & ?); split; [by eapply holds_evolves | done]).
  - by apply holds_evolves.
  - by apply recorded_evolves.
Qed.

(** Storing the next version of an unfinished flow *)
Lemma evolves_update s s' cur next :
  fs_lookup s (f_id next) = Some cur -> f_version next = f_version cur + 1 ->
  is_terminal (f_status cur) = false ->
  (forall id, fs_lookup s' id = if decide (id = f_id next) then Some next else fs_lookup s id) ->
  evolves s s'.
Proof.
  intros Hc Hv Hn Hs id st Hl. rewrite Hs. case_decide as E.
  - subst. simplify_eq. exists next. split; [done |]. right. split; [lia | done].
  - exists st. split; [done | by left].
Qed.

Lemma holds_version s st cur :
  holds s st -> fs_lookup s (f_id st) = Some cur -> f_version cur = f_version st ->
  is_terminal (f_status cur) = false.
Proof. intros (st' & Hl & Hv) Hc E. simplify_eq. destruct Hv as [?|[_ ?]]; [lia | done]. Qed.

(** *** One step of one thread *)

Record moves (s : S) (p : xpc) (s' : S) (p' : xpc) : Prop := {
  mv_wf : fs_wf s';
  mv_evolves : evolves s s';
  mv_pc : pc_ok s' p';
  mv_grant : grant p' = grant p \/ fresh_grant s (grant p')
}.

Lemma moves_read s p p' :
  fs_wf s -> pc_ok s p' -> grant p' = grant p \/ grant p' = None -> moves s p s p'.
Proof.
  intros Hs Hp Hg. split; [done | by apply evolves_refl | done |].
  destruct Hg as [?|E]; [by left | right; by rewrite E].
Qed.

(** A granted version is at most the stored one. *)
Lemma grant_bound s p id v :
  pc_ok s p -> grant p = Some (id, v) -> exists st, fs_lookup s id = Some st /\ v <= f_version st.
Proof.
  assert (forall st, holds s st -> exists st', fs_lookup s (f_id st) = Some st' /\ f_version st <= f_version st') as H.
  { intros st (st' & Hl & Hv). exists st'. split; [done | lia]. }
  destruct p; simpl; try done; intros Hp [= <- <-]; apply H; naive_solver.
Qed.

Lemma moves_inv s ts i ex p s' p' :
  xinv (mkXMachine s ts) -> ts !! i = Some (ex, p) -> moves s p s' p' ->
  xinv (mkXMachine s' (<[i := (ex, p')]> ts)) /\ evolves s s'.
Proof.
  intros [Hwf Hpc Hgr] Hi [Hwf' Hev Hp' Hg]. simpl in *. split; [| done].
  assert (forall j exj pj g, ts !! j = Some (exj, pj) -> i <> j -> grant p' = Some g -> grant pj = Some g -> False) as Hnew.
  { intros j exj pj [id v] Hj Hne Eg Egj. destruct Hg as [E|Hf].
    - apply Hne. rewrite E in Eg. eauto.
    - rewrite Eg in Hf. destruct (grant_bound s pj id v (Hpc _ _ _ Hj) Egj) as (st & Hl & ?).
      specialize (Hf _ Hl). lia. }
  split; simpl; [done | |].
  - intros j exj pj. rewrite list_lookup_insert_Some. intros [(<- & [= <- <-] & _)|[_ Hj]]; [done |].
    eapply pc_ok_evolves; eauto.
  - intros j k exj pj exk pk g. rewrite !list_lookup_insert_Some.
    intros [(<- & [= <- <-] & _)|[Hij Hj]] [(<- & [= <- <-] & _)|[Hik Hk]] Gj Gk;
      [done | exfalso; eauto.. | eauto].
Qed.

Lemma consider_inl ex expected current now clock r :
  consider ex expected current now clock = inl (Ok r) ->
  exists result, r = Complete result /\ terminal_result current = Some (Ok result).
Proof.
  unfold consider. destruct (flow_validate current); [| done]. case_match; [done |].
  destruct (is_terminal (f_status current)) eqn:Et.
  - destruct (terminal_result current) as [[result|e]|] eqn:E; simpl.
    + intros [= <-]. eauto.
    + done.
    + exfalso. assert (is_Some (terminal_result current)) as [? ?] by by apply terminal_result_terminal.
      congruence.
  - case_match; [done |]. by case_match.
Qed.

Lemma consider_inr ex expected current now clock claimed :
  consider ex expected current now clock = inr claimed ->
  f_id claimed = f_id current /\ f_version claimed = f_version current + 1
  /\ is_terminal (f_status current) = false /\ f_status claimed = f_status current
  /\ f_type current = f_type expected /\ is_stale (f_heartbeat current) now (ex_stale_after ex) = true
  /\ f_owner claimed = Some (ex_owner ex).
Proof.
  unfold consider. destruct (flow_validate current); [| done].
  destruct (bool_decide (f_type current = f_type expected)) eqn:Et; simpl; [| done]. bool_prop.
  destruct (is_terminal (f_status current)) eqn:Ett.
  { assert (is_Some (terminal_result current)) as [? ->] by by apply terminal_result_terminal. done. }
  destruct (is_stale _ _ _) eqn:Es; simpl; [| done].
  destruct (next_version _) as [c|] eqn:En; [| done]. intros [= <-].
  apply next_version_ok in En as (? & _ & ? & _ & ? & _ & ? & _). simpl in *. done.
Qed.

Lemma loaded_ok current r :
  loaded current = Ok r -> exists result, r = Complete result /\ terminal_result current = Some (Ok result).
Proof.
  unfold loaded. intros H. apply rbind_ok_inv in H as (_ & _ & H).
  destruct (is_terminal (f_status current)); [| done].
  destruct (terminal_result current) as [[result|]|]; simplify_eq/=. eauto.
Qed.

Lemma terminal_state_ok current r next :
  terminal_state current r = Ok next ->
  f_id next = f_id current /\ is_next_version (f_version current) (f_version next) = true
  /\ exists r', terminal_result next = Some (Ok r') /\ outcome r' = outcome r.
Proof.
  unfold terminal_state, outcome. destruct (result_error r) as [e|] eqn:E; intros H;
    apply next_version_ok in H as (Hv & Hb & Hid & _ & Hst & Hstep & _ & _ & _ & Herr);
    simpl in *; (split_and!; [done | by apply is_next_version_spec |]);
    unfold terminal_result; rewrite Hst, Hstep.
  - rewrite Herr. eexists. split; [done |]. done.
  - eexists. split; [done |]. done.
Qed.

Lemma reconsider_inl ex version observed r :
  reconsider ex version observed = inl (Ok r) -> terminal_result observed = Some (Ok r).
Proof.
  unfold reconsider. destruct (flow_validate observed); [| done].
  destruct (is_terminal (f_status observed)).
  - destruct (terminal_result observed); [by intros [= ->] | done].
  - by case_match.
Qed.

Lemma reconsider_inr ex version observed current :
  reconsider ex version observed = inr current ->
  current = observed /\ f_version observed = version /\ f_status observed = Running
  /\ f_owner observed = Some (ex_owner ex).
Proof.
  unfold reconsider. destruct (flow_validate observed); [| done].
  destruct (is_terminal (f_status observed)); [done |].
  destruct (bool_decide (f_status observed = Running)) eqn:E1; simpl; [| done].
  destruct (bool_decide (f_owner observed = Some (ex_owner ex))) eqn:E2; simpl; [| done].
  destruct (Z.eqb_spec (f_version observed) version); [| done]. bool_prop. by intros [= ->].
Qed.

(** An update by a thread that holds the version it expects *)
Lemma update_spec s st next r s' :
  fs_wf s -> holds s st -> f_id next = f_id st -> fs_update s (f_version st) next = (r, s') ->
  fs_wf s' /\ evolves s s'
  /\ (r = Ok true -> fs_lookup s' (f_id st) = Some next /\ f_version next = f_version st + 1
      /\ forall cur, fs_lookup s (f_id st) = Some cur -> f_version cur = f_version st).
Proof.
  intros Hwf Hh Hid E. pose proof (fs_update_law s (f_version st) next Hwf) as Hl. rewrite E in Hl.
  destruct Hl as [Hwf' Hl]. split; [done |]. destruct (decide (r = Ok true)) as [->|Hr].
  - destruct Hl as (Hv & (cur & Hc & Ev) & Hs). rewrite Hid in *. split.
    + eapply (evolves_update s s' cur next); rewrite ?Hid; [done | lia | by eapply holds_version | done].
    + intros _. split_and!; [| done | intros cur' ?; by simplify_eq].
      by rewrite Hs, decide_True.
  - split; [by apply evolves_refl | done].
Qed.

Lemma recorded_lookup s id st r :
  fs_lookup s id = Some st -> terminal_result st = Some (Ok r) -> recorded s id r.
Proof. intros. exists st, r. done. Qed.

Lemma access_moves s ex now clock p p' s' :
  fs_wf s -> pc_ok s p -> xaccess ex now clock p s = (p', s') -> moves s p s' p'.
Proof.
  intros Hwf Hp. destruct p as [|initial|cur claimed|id|st|st cur r|st cur r|id r]; simpl.
  - intros [= <- <-]. by apply moves_read; [| | left].
  - intros [= <- <-]. destruct (fs_get s (f_id initial)) as [[cur|]|e] eqn:Eg;
      [| by apply moves_read; [| | right]..]. apply fs_get_law in Eg. symmetry in Eg.
    destruct (consider ex initial cur now clock) as [[r|e]|claimed] eqn:Ec.
    + apply consider_inl in Ec as (result & -> & Ht). simpl. apply moves_read; [done | | by right].
      by eapply recorded_lookup.
    + by apply moves_read; [| | right].
    + apply consider_inr in Ec as (Hid & Hv & Hn & Hst & _). apply moves_read; [done | | by right].
      pose proof (fs_lookup_id _ _ _ Hwf Eg) as Ei. simpl. rewrite Hst. split_and!; try done.
      exists cur. rewrite Ei. split; [done | by right].
  - destruct Hp as (Hh & Hid & Hv & Hn). destruct (fs_update s (f_version cur) claimed) as [r s1] eqn:Eu.
    intros [= <- <-]. destruct (update_spec _ _ _ _ _ Hwf Hh Hid Eu) as (Hwf' & Hev & Hok).
    destruct r as [[]|e]; split; simpl; try done; try (by right).
    + destruct (Hok eq_refl) as (Hl & _). exists claimed. rewrite Hid. split; [done | by right].
    + right. rewrite Hid. destruct (Hok eq_refl) as (_ & Hv' & Hc). intros st Hl.
      specialize (Hc _ Hl). lia.
  - intros [= <- <-]. unfold load_running_or_terminal.
    destruct (fs_get s id) as [[cur|]|e] eqn:Eg; [| by apply moves_read; [| | right]..].
    apply fs_get_law in Eg. symmetry in Eg. simpl.
    destruct (loaded cur) as [r|e] eqn:El; [| by apply moves_read; [| | right]].
    apply loaded_ok in El as (result & -> & Ht). simpl. apply moves_read; [done | | by right].
    by eapply recorded_lookup.
  - intros [= <- <-]. by apply moves_read; [| | left].
  - destruct Hp as (Hh & Hid & Hv). destruct (terminal_state cur r) as [next|e] eqn:Et.
    2: { intros [= <- <-]. by apply moves_read; [| | right]. }
    apply terminal_state_ok in Et as (Hidn & _ & r' & Htr & Ho).
    destruct (fs_update s (f_version st) next) as [ok s1] eqn:Eu. intros [= <- <-].
    destruct (update_spec s st next ok s1 Hwf Hh ltac:(congruence) Eu) as (Hwf' & Hev & Hok).
    destruct ok as [[]|e]; split; simpl; try done; try (by right).
    + destruct (Hok eq_refl) as (Hl & _). exists next, r'. done.
    + split_and!; try done. by eapply holds_evolves.
    + by left.
  - destruct Hp as (Hh & Hid & Hv). intros [= <- <-].
    destruct (fs_get s (f_id cur)) as [[obs|]|e] eqn:Eg; [| by apply moves_read; [| | right]..].
    apply fs_get_law in Eg. symmetry in Eg. rewrite Hid in Eg.
    destruct (reconsider ex (f_version st) obs) as [[result|e]|cur'] eqn:Er.
    + apply reconsider_inl in Er. apply moves_read; [done | | by right]. by eapply recorded_lookup.
    + by apply moves_read; [| | right].
    + apply reconsider_inr in Er as (-> & Ev & _). apply moves_read; [done | | by left].
      simpl. split_and!; try done. by eapply fs_lookup_id.
  - intros [= <- <-]. by apply moves_read; [| | left].
Qed.

Lemma xinv_store s s' ts :
  xinv (mkXMachine s ts) -> fs_wf s' -> evolves s s' -> xinv (mkXMachine s' ts) /\ evolves s s'.
Proof.
  intros [_ Hpc Hg] Hwf Hev. split; [| done]. split; simpl in *; [done | | done].
  intros i ex p Hi. eapply pc_ok_evolves; eauto.
Qed.

Lemma xinv_step m m' :
  xinv m -> xstep m m' -> xinv m' /\ evolves (xm_store m) (xm_store m').
Proof.
  intros Hm Hs. pose proof (xi_wf _ Hm) as Hwf. pose proof (xi_pc _ Hm) as Hpc.
  destruct Hs as [s ts i ex id ft data clock r s' Hi initial Ec|s ts i ex ft now clock st s' Hi Ec
    |s ts i ex ft now clock r s' Hi Ec Hr|s ts owner id v clock r s' Ec|s ts i ex st r Hi
    |s ts i ex p now clock p' s' Hi Ea]; simpl in *.
  - apply (moves_inv s ts i ex XIdle); [done | done |].
    pose proof (fs_create_law s initial Hwf) as Hl. rewrite Ec in Hl. destruct Hl as [Hwf' Hl].
    destruct (decide (r = Ok true)) as [->|Hne].
    + destruct Hl as [Hn Hl]. split; [done | | |].
      * intros j st Hj. exists st. rewrite Hl. case_decide; [congruence |]. split; [done | by left].
      * exists initial. rewrite Hl, decide_True by done. split; [done | by right].
      * right. simpl. intros st. simpl in Hn. by rewrite Hn.
    + split; [done | by apply evolves_refl | |]; destruct r as [[]|]; simpl; auto; done.
  - apply (moves_inv s ts i ex XIdle); [done | done |].
    pose proof (fs_try_claim_law s ft (ex_owner ex) (ex_stale_after ex) now clock Hwf) as Hl.
    rewrite Ec in Hl. destruct Hl as [Hwf' (cur & Hc & _ & Hst & _ & Hn & Hl)].
    apply next_version_ok in Hn as (Hv & _ & Hid & _ & Hs & _). simpl in *.
    assert (is_terminal (f_status cur) = false) as Ht by by rewrite Hst.
    split; [done | | |].
    + apply (evolves_update s s' cur st); rewrite ?Hid; done.
    + exists st. rewrite Hl, decide_True by done. split; [done |]. right. by rewrite Hs.
    + right. simpl. rewrite Hid. intros st0 ?. simplify_eq. lia.
  - pose proof (fs_try_claim_law s ft (ex_owner ex) (ex_stale_after ex) now clock Hwf) as Hl.
    rewrite Ec in Hl. destruct Hl as [Hwf' Hl].
    eapply xinv_store; [done | done |]. apply evolves_refl. by destruct Hr as [->|[e ->]].
  - pose proof (fs_heartbeat_law s id owner v clock Hwf) as Hl. rewrite Ec in Hl.
    destruct Hl as [Hwf' Hl]. eapply xinv_store; [done | done |].
    destruct (decide (r = Ok true)); [| by apply evolves_refl].
    destruct Hl as (cur & Hc & _ & _ & Hl). intros j st Hj. rewrite Hl. case_decide.
    + subst. simplify_eq. exists (heartbeated_at cur clock). split; [done | by left].
    + exists st. split; [done | by left].
  - apply (moves_inv s ts i ex (XWork st)); [done | done |]. specialize (Hpc _ _ _ Hi).
    apply moves_read; [done | | by left]. done.
  - apply (moves_inv s ts i ex p); [done | done |]. eauto using access_moves.
Qed.

Lemma evolves_trans s1 s2 s3 : evolves s1 s2 -> evolves s2 s3 -> evolves s1 s3.
Proof.
  intros H1 H2 id st Hl. destruct (H1 _ _ Hl) as (st2 & Hl2 & C2).
  destruct (H2 _ _ Hl2) as (st3 & Hl3 & C3). exists st3. split; [done |].
  destruct C2 as [(V2 & S2 & T2)|[V2 N2]], C3 as [(V3 & S3 & T3)|[V3 N3]].
  - left. split_and!; congruence.
  - right. split; [lia | congruence].
  - right. split; [lia | done].
  - right. split; [lia | done].
Qed.

Lemma xinv_steps m m' : xinv m -> rtc xstep m m' -> xinv m' /\ evolves (xm_store m) (xm_store m').
Proof.
  intros Hm Hr. induction Hr as [m|m1 m2 m3 Hs Hr IH]; [split; [done | by apply evolves_refl] |].
  destruct (xinv_step _ _ Hm Hs) as [Hm2 E1]. destruct (IH Hm2) as [Hm3 E2].
  eauto using evolves_trans.
Qed.

(** Executors that have not started *)
Definition executors_idle (s : S) (exs : list FlowExecutor) : XMachine :=
  mkXMachine s ((fun ex => (ex, XIdle)) <$> exs).

Lemma xinv_idle s exs : fs_wf s -> xinv (executors_idle s exs).
Proof.
  intros Hs. split; simpl; [done | |].
  - intros i ex p. rewrite list_lookup_fmap. destruct (exs !! i); by intros [= <- <-].
  - intros i j ex p ex' p' g. rewrite list_lookup_fmap. destruct (exs !! i); by intros [= <- <-].
Qed.

(** C31: A flow has one outcome, however many executors run it, whatever their work returns,
    whenever heartbeats arrive or executors stop: any two calls that report an outcome
    of the same flow report the same completed steps and the same error; what a call
    reported is in the store from then on; and a flow that has finished never changes
    its outcome again. *)
Theorem flow_outcome_agreed s0 exs m m' :
  fs_wf s0 -> rtc xstep (executors_idle s0 exs) m -> rtc xstep m m' ->
  (forall i j ex ex' id r r', xm_threads m !! i = Some (ex, XReturned id (Ok r)) ->
     xm_threads m !! j = Some (ex', XReturned id (Ok r')) -> outcome r = outcome r')
  /\ (forall i ex id r, xm_threads m !! i = Some (ex, XReturned id (Ok r)) ->
        recorded (xm_store m') id r)
  /\ (forall id st, fs_lookup (xm_store m) id = Some st -> is_terminal (f_status st) = true ->
        exists st', fs_lookup (xm_store m') id = Some st' /\ terminal_result st' = terminal_result st).
Proof.
  intros Hs Hr Hr'. destruct (xinv_steps _ _ (xinv_idle s0 exs Hs) Hr) as [Hm _].
  destruct (xinv_steps _ _ Hm Hr') as [_ Hev]. split_and!.
  - intros i j ex ex' id r r' Hi Hj. apply (xi_pc _ Hm) in Hi as (st & r1 & Hl & Ht & Ho).
    apply (xi_pc _ Hm) in Hj as (st' & r2 & Hl' & Ht' & Ho'). congruence.
  - intros i ex id r Hi. eapply recorded_evolves; [done |]. by apply (xi_pc _ Hm) in Hi.
  - intros id st Hl Ht. destruct (Hev _ _ Hl) as (st' & Hl' & [(_ & _ & E)|[_ Hn]]); [by eauto | congruence].
Qed.

(** Claims fence each other: two executors working on the same flow work under different
    versions, and an executor whose version is no longer the stored one cannot store
    its result. *)
Theorem flow_claims_fenced s0 exs m :
  fs_wf s0 -> rtc xstep (executors_idle s0 exs) m ->
  (forall i j ex ex' st st', i <> j -> xm_threads m !! i = Some (ex, XWork st) ->
     xm_threads m !! j = Some (ex', XWork st') -> f_id st = f_id st' -> f_version st <> f_version st')
  /\ (forall i ex st cur r next stored, xm_threads m !! i = Some (ex, XPersist st cur r) ->
        fs_lookup (xm_store m) (f_id st) = Some stored -> f_version stored <> f_version st ->
        terminal_state cur r = Ok next -> fst (fs_update (xm_store m) (f_version st) next) <> Ok true).
Proof.
  intros Hs Hr. destruct (xinv_steps _ _ (xinv_idle s0 exs Hs) Hr) as [Hm _]. split.
  - intros i j ex ex' st st' Hne Hi Hj Hid Hv. apply Hne.
    eapply (xi_grants _ Hm); [exact Hi | exact Hj | done |]. simpl. by rewrite Hid, Hv.
  - intros i ex st cur r next stored Hi Hl Hne Ht. pose proof (xi_pc _ Hm _ _ _ Hi) as (Hh & Hid & Hv).
    apply terminal_state_ok in Ht as (Hidn & _).
    destruct (fs_update (xm_store m) (f_version st) next) as [ok s'] eqn:Eu. simpl. intros ->.
    destruct (update_spec _ st next _ _ (xi_wf _ Hm) Hh ltac:(congruence) Eu) as (_ & _ & Hok).
    destruct (Hok eq_refl) as (_ & _ & Hc). by apply Hne, Hc.
Qed.
End machine.

(** ** One executor alone

    A call of [execute] is a run of the machine. *)

Section alone.
Context {S : Type} `{!FlowStoreLaws S} (ex : FlowExecutor).
Context {W : Type} (run : W -> FlowState -> CatgaResult FlowResult * W).

Lemma access_alone s p now clock p' s' :
  xaccess ex now clock p s = (p', s') ->
  xstep (mkXMachine s [(ex, p)]) (mkXMachine s' [(ex, p')]).
Proof. intros E. by apply (xs_access s [(ex, p)] 0 ex p now clock p' s'). Qed.

Lemma persist_runs fuel s st cur result r s' :
  f_id cur = f_id st -> fs_wf s ->
  persist_loop ex fuel s (f_version st) cur result = Some (r, s') ->
  rtc xstep (mkXMachine s [(ex, XPersist st cur result)]) (mkXMachine s' [(ex, XReturned (f_id st) r)]).
Proof.
  revert s cur. induction fuel as [|fuel IH]; intros s cur Hid Hwf; simpl; [done |].
  destruct (terminal_state cur result) as [next|e] eqn:Et.
  2: { intros [= <- <-]. apply rtc_once, (access_alone _ _ 0 0). simpl. by rewrite Et. }
  pose proof (fs_update_law s (f_version st) next Hwf) as Hl.
  destruct (fs_update s (f_version st) next) as [[[]|e] s1] eqn:Eu; destruct Hl as [Hwf1 _].
  - intros [= <- <-]. apply rtc_once, (access_alone _ _ 0 0). simpl. by rewrite Et, Eu.
  - intros E. eapply rtc_l; [apply (access_alone _ _ 0 0 (XReload st cur result) s1); simpl; by rewrite Et, Eu |].
    destruct (fs_get s1 (f_id cur)) as [[obs|]|e] eqn:Eg.
    + destruct (reconsider ex (f_version st) obs) as [a|cur'] eqn:Er.
      * injection E as <- <-. apply rtc_once, (access_alone _ _ 0 0). simpl. by rewrite Eg, Er.
      * eapply rtc_l; [apply (access_alone _ _ 0 0 (XPersist st cur' result) s1); simpl; by rewrite Eg, Er |].
        apply IH; [| done | done]. apply reconsider_inr in Er as (-> & _).
        rewrite <-Hid. apply fs_get_law in Eg. by eapply fs_lookup_id.
    + injection E as <- <-. apply rtc_once, (access_alone _ _ 0 0). simpl. by rewrite Eg.
    + injection E as <- <-. apply rtc_once, (access_alone _ _ 0 0). simpl. by rewrite Eg.
  - intros [= <- <-]. apply rtc_once, (access_alone _ _ 0 0). simpl. by rewrite Et, Eu.
Qed.

(** [claim_or_load] from the refused creation to its answer *)
Lemma claim_runs s initial now clock r s' :
  fs_wf s -> claim_or_load ex s initial now clock = (r, s') ->
  fs_wf s' /\ (forall st, r = Ok (Run st) -> f_id st = f_id initial)
  /\ rtc xstep (mkXMachine s [(ex, XExists initial)])
       (mkXMachine s' [(ex, answered (f_id initial) r)]).
Proof.
  intros Hwf. unfold claim_or_load. destruct (fs_get s (f_id initial)) as [[cur|]|e] eqn:Eg.
  2, 3: intros [= <- <-]; split_and!; [done | done |];
    apply rtc_once, (access_alone _ _ now clock); simpl; by rewrite Eg.
  pose proof (fs_get_law _ _ _ Eg) as Hl. symmetry in Hl. pose proof (fs_lookup_id _ _ _ Hwf Hl) as Hid.
  destruct (consider ex initial cur now clock) as [a|claimed] eqn:Ec.
  { intros [= <- <-]. split_and!; [done | |].
    - intros st ->. apply consider_inl in Ec as (? & ? & _). done.
    - apply rtc_once, (access_alone _ _ now clock). simpl. by rewrite Eg, Ec. }
  assert (xstep (mkXMachine s [(ex, XExists initial)]) (mkXMachine s [(ex, XClaim cur claimed)])) as S1.
  { apply (access_alone _ _ now clock). simpl. by rewrite Eg, Ec. }
  apply consider_inr in Ec as (Hidc & _).
  pose proof (fs_update_law s (f_version cur) claimed Hwf) as Hu.
  destruct (fs_update s (f_version cur) claimed) as [ok s1] eqn:Eu. destruct Hu as [Hwf1 _].
  destruct ok as [[]|e]; intros [= <- <-]; (split_and!; [done | | eapply rtc_l; [exact S1 |]]).
  - intros st [= <-]. congruence.
  - apply rtc_once, (access_alone _ _ 0 0). simpl. by rewrite Eu.
  - unfold load_running_or_terminal. intros st H. apply rbind_ok_inv in H as ([c|] & _ & H); [| done].
    by apply loaded_ok in H as (? & ? & _).
  - eapply rtc_l; [apply (access_alone _ _ 0 0 (XLost (f_id cur)) s1); simpl; by rewrite Eu |].
    apply rtc_once, (access_alone _ _ 0 0). simpl. by rewrite Hid.
  - done.
  - apply rtc_once, (access_alone _ _ 0 0). simpl. by rewrite Eu, Hid.
Qed.

(** Every answer of [execute] is the end of a run of the machine. *)
Lemma execute_runs fuel s w id ft data clock0 now clock r s' w' :
  fs_wf s -> flow_validate (FlowState_new id ft data (ex_owner ex) clock0) = Ok tt ->
  execute ex run fuel s w id ft data clock0 now clock = Some (r, s', w') ->
  rtc xstep (mkXMachine s [(ex, XIdle)]) (mkXMachine s' [(ex, XReturned id r)]).
Proof.
  intros Hwf Hd. unfold execute, acquire. rewrite Hd. set (initial := FlowState_new id ft data (ex_owner ex) clock0).
  pose proof (fs_create_law s initial Hwf) as Hc.
  assert (forall st s1, f_id st = id -> fs_wf s1 ->
    (let '(r0, w0) := run w st in
     (fun '(r1, s2) => (r1, s2, w0)) <$> persist_result ex fuel s1 st (work_result st r0)) = Some (r, s', w') ->
    rtc xstep (mkXMachine s1 [(ex, XWork st)]) (mkXMachine s' [(ex, XReturned id r)])) as Hwork.
  { intros st s1 <- Hs1. destruct (run w st) as [r0 w0]. unfold persist_result.
    destruct (persist_loop _ _ _ _ _ _) as [[r1 s2]|] eqn:Ep; [| done]. intros [= <- <- <-].
    eapply rtc_l; [apply (xs_worked s1 [(ex, XWork st)] 0 ex st r0); done |].
    by eapply persist_runs. }
  destruct (fs_create s initial) as [rc s1] eqn:Ec. destruct Hc as [Hwf1 _].
  pose proof (xs_create s [(ex, XIdle)] 0 ex id ft data clock0 rc s1 eq_refl Ec) as S1. simpl in S1.
  destruct rc as [[]|e].
  - intros E. eapply rtc_l; [exact S1 | by apply Hwork].
  - destruct (claim_or_load ex s1 initial now clock) as [a s2] eqn:Ea.
    apply claim_runs in Ea as (Hwf2 & Hid & Hr); [| done].
    destruct a as [[st|result]|e]; intros E; (eapply rtc_l; [exact S1 |]); (etrans; [exact Hr |]).
    + apply Hwork; [by apply Hid | done | done].
    + injection E as <- <- <-. apply rtc_refl.
    + injection E as <- <- <-. apply rtc_refl.
  - intros [= <- <- <-]. by apply rtc_once.
Qed.
End alone.

(** ** Over the in-memory store *)

Section memory_exec.
Context `{!MapIter string} (ex : FlowExecutor).
Context {W : Type} (run : W -> FlowState -> CatgaResult FlowResult * W).

(** The stored flow holds this outcome at this version. *)
Definition finished_with (st : FlowState) (version : Z) (r : FlowResult) : Prop :=
  f_version st = version /\ f_owner st = None
  /\ exists r', terminal_result st = Some (Ok r') /\ outcome r' = outcome r.

Lemma terminal_state_total st r :
  f_version st < int_max i64 -> int_min i64 <= f_version st -> flow_validate st = Ok tt ->
  exists next, terminal_state st r = Ok next /\ f_id next = f_id st
    /\ flow_validate next = Ok tt /\ finished_with next (f_version st + 1) r.
Proof.
  intros Hv Hm Hd.
  assert (exists next, terminal_state st r = Ok next /\ f_owner next = None /\ f_data next = f_data st) as (next & E & Ho & Hdat).
  { unfold terminal_state, next_version. destruct (result_error r); simpl;
      rewrite checked_fits by lia; simpl; eauto. }
  exists next. pose proof (terminal_state_ok _ _ _ E) as (Hid & Hver & Hr).
  apply is_next_version_spec in Hver as [Hver _].
  split_and!; [done | done | | by unfold finished_with]. unfold flow_validate in *. by rewrite Hdat.
Qed.

(** Storing a result over the state it was computed from *)
Lemma persist_memory fuel s st r :
  flows s !! f_id st = Some st -> f_version st < int_max i64 -> int_min i64 <= f_version st ->
  flow_validate st = Ok tt ->
  exists next, persist_result ex (Datatypes.S fuel) s st r = Some (Ok r, put_flow s (f_id st) next)
    /\ f_id next = f_id st /\ finished_with next (f_version st + 1) r.
Proof.
  intros Hl Hv Hm Hd. destruct (terminal_state_total st r Hv Hm Hd) as (next & E & Hid & Hd' & Hf).
  exists next. split_and!; [| done | done]. unfold persist_result. simpl. rewrite E.
  unfold flow_update. rewrite Hd'. destruct Hf as (Hver & _).
  assert (is_next_version (f_version st) (f_version next) = true) as ->
    by (apply is_next_version_spec; lia).
  simpl. by rewrite Hid, Hl, Z.eqb_refl.
Qed.

(** Flows as the store accepts them *)
Definition flows_valid (s : MemoryFlows) : Prop :=
  forall id st, flows s !! id = Some st -> flow_validate st = Ok tt /\ int_min i64 <= f_version st.

Lemma put_flow_twice s id st st' : put_flow (put_flow s id st) id st' = put_flow s id st'.
Proof. unfold put_flow. simpl. by rewrite insert_insert_eq. Qed.

(** Running the work of an acquired flow and storing its result *)
Lemma work_stored fuel s w st id :
  flows s !! id = Some st -> f_id st = id -> f_version st < int_max i64 ->
  int_min i64 <= f_version st -> flow_validate st = Ok tt ->
  let result := work_result st (fst (run w st)) in
  exists next, (let '(r, w') := run w st in
     (fun '(r1, s2) => (r1, s2, w')) <$> persist_result ex (Datatypes.S fuel) s st (work_result st r))
     = Some (Ok result, put_flow s id next, snd (run w st))
   /\ finished_with next (f_version st + 1) result.
Proof.
  intros Hl Hid Hv Hm Hd result. subst id. destruct (run w st) as [r w'] eqn:Er.
  destruct (persist_memory fuel s st (work_result st r) Hl Hv Hm Hd) as (next & E & _ & Hf).
  exists next. split; [by rewrite E | done].
Qed.

(** [execute] over an in-memory store that no one else uses, on every branch: a new flow
    is created, run once and finished at version 1; a finished flow answers with its
    stored outcome, and an unfinished one with a fresh heartbeat or another type is
    refused, without running the work or changing the store; an unfinished flow whose
    heartbeat is stale is claimed, run once and finished two versions later. *)
Theorem execute_exact fuel s w id ft data clock0 now clock :
  flows_wf s -> flows_valid s ->
  let initial := FlowState_new id ft data (ex_owner ex) clock0 in
  flow_validate initial = Ok tt ->
  let call := execute ex run (Datatypes.S fuel) s w id ft data clock0 now clock in
  let runs_once st version :=
    let result := work_result st (fst (run w st)) in
    exists next, call = Some (Ok result, put_flow s id next, snd (run w st))
      /\ finished_with next version result in
  match flows s !! id with
  | None => runs_once initial 1
  | Some cur =>
    if decide (f_type cur = ft) then
      if is_terminal (f_status cur) then
        exists answer, terminal_result cur = Some answer /\ call = Some (answer, s, w)
      else if is_stale (f_heartbeat cur) now (ex_stale_after ex) then
        f_version cur + 2 <= int_max i64 ->
        exists claimed, next_version (claimed_by cur (ex_owner ex) clock) = Ok claimed
          /\ runs_once claimed (f_version cur + 2)
      else call = Some (fail Transient "flow is already running on another owner", s, w)
    else call = Some (fail Conflict "a flow with this identity has a different type", s, w)
  end.
Proof.
  intros Hwf Hval initial Hd call runs_once. subst call runs_once. unfold execute, acquire.
  fold initial. rewrite Hd. cbn [fs_create memory_flows_laws]. unfold flow_create. rewrite Hd.
  change (f_id initial) with id. destruct (flows s !! id) as [cur|] eqn:El.
  - unfold claim_or_load. cbn [fs_get fs_update memory_flows_laws]. change (f_id initial) with id.
    unfold flow_get. rewrite El. destruct (Hval _ _ El) as [Hdc Hmin]. rewrite Hdc. cbn [rbind].
    unfold consider. rewrite Hdc. change (f_type initial) with ft.
    destruct (decide (f_type cur = ft)) as [Et|Et]; [| by rewrite bool_decide_false].
    rewrite bool_decide_true by done. cbn [negb].
    destruct (is_terminal (f_status cur)) eqn:Ett.
    { pose proof Ett as Hs. apply terminal_result_terminal in Hs as [answer Ha]. rewrite Ha.
      exists answer. split; [done |]. by destruct answer. }
    destruct (is_stale (f_heartbeat cur) now (ex_stale_after ex)) eqn:Es; cbn [negb]; [| done].
    intros Hmax. destruct (next_version (claimed_by cur (ex_owner ex) clock)) as [claimed|] eqn:En.
    2: { unfold next_version in En. simpl in En. by rewrite checked_fits in En by lia. }
    exists claimed. split; [done |]. apply next_version_ok in En as (Hv & _ & Hid & _ & _ & _ & _ & _ & Hdat & _).
    simpl in Hv, Hid, Hdat. pose proof (Hwf _ _ El) as Hidc.
    assert (flow_validate claimed = Ok tt) as Hdcl by (unfold flow_validate in *; by rewrite Hdat).
    unfold flow_update. rewrite Hdcl.
    assert (is_next_version (f_version cur) (f_version claimed) = true) as ->
      by (apply is_next_version_spec; lia).
    cbn [negb]. rewrite Hid, Hidc, El, Z.eqb_refl. cbn [negb].
    destruct (work_stored fuel (put_flow s id claimed) w claimed id) as (next & E & Hf);
      [by rewrite put_flow_lookup, decide_True | congruence | lia | lia | done |].
    exists next. rewrite E, put_flow_twice. split; [done |]. by replace (f_version cur + 2) with (f_version claimed + 1) by lia.
  - destruct (work_stored fuel (put_flow s id initial) w initial id) as (next & E & Hf);
      [by rewrite put_flow_lookup, decide_True | done | done | done | done |].
    exists next. rewrite E, put_flow_twice. split; done.
Qed.

(** One round of [persist_result] is enough: the memory store refuses an update only
    when the version has changed. *)
Lemma persist_total fuel s st r :
  flows_wf s -> exists a s', persist_result ex (Datatypes.S fuel) s st r = Some (a, s') /\ flows_wf s'.
Proof.
  intros Hwf. unfold persist_result. simpl. destruct (terminal_state st r) as [next|e] eqn:Et; [| eauto].
  apply terminal_state_ok in Et as (Hid & Hv & _).
  pose proof (fs_update_law s (f_version st) next Hwf) as Hl. cbn [fs_update memory_flows_laws] in Hl.
  destruct (flow_update s (f_version st) next) as [[[]|e] s1] eqn:Eu; destruct Hl as [Hwf1 _]; [by eauto | | by eauto].
  unfold flow_get. destruct (flows s1 !! f_id st) as [obs|] eqn:El; [| by eauto].
  destruct (flow_validate obs) as [[]|e] eqn:Ed; simpl; [| by eauto].
  destruct (reconsider ex (f_version st) obs) as [a|cur] eqn:Er; [by eauto |].
  apply reconsider_inr in Er as (-> & Ev & _). exfalso. unfold flow_update in Eu.
  destruct (flow_validate next); [| done]. rewrite Hv, Hid in Eu. simpl in Eu.
  destruct (flows s !! f_id st) as [cur|] eqn:Ec; [| simplify_eq; congruence].
  destruct (Z.eqb_spec (f_version cur) (f_version st)); simpl in Eu; simplify_eq.
Qed.

(** A flow that a recovery sweep at [now] would claim *)
Definition recoverable (ft : string) (now : SystemTime) (st : FlowState) : Prop :=
  f_type st = ft /\ f_status st = Running
  /\ is_stale (f_heartbeat st) now (ex_stale_after ex) = true.

Lemma recover_loop_spec fuel s w ft claims clocks n :
  flows_wf s ->
  exists r s' w', recover_loop ex run (Datatypes.S fuel) s w ft claims clocks n = Some (r, s', w')
    /\ match r with
       | Ok k => (n <= k <= n + claims)%nat /\ ((k < n + claims)%nat ->
           forall id st, flows s' !! id = Some st -> ~ recoverable ft (fst (clocks k)) st)
       | Err _ => True
       end.
Proof.
  revert s w n. induction claims as [|claims IH]; intros s w n Hwf.
  { exists (Ok n), s, w. split; [done |]. split; [lia |]. intros. lia. }
  cbn [recover_loop]. destruct (clocks n) as [now clock] eqn:Eck.
  pose proof (fs_try_claim_law s ft (ex_owner ex) (ex_stale_after ex) now clock Hwf) as Hl.
  cbn [fs_try_claim memory_flows_laws] in Hl |- *.
  destruct (flow_try_claim s ft (ex_owner ex) (ex_stale_after ex) now clock) as [[[st|]|e] s1] eqn:Ec;
    destruct Hl as [Hwf1 _]; [| | by do 3 eexists; split].
  - destruct (flow_validate st); [| by do 3 eexists; split]. destruct (run w st) as [r w1].
    destruct (persist_total fuel s1 st (work_result st r) Hwf1) as (answer & s2 & -> & Hwf2).
    destruct answer as [answer|e]; [| by do 3 eexists; split].
    destruct (IH s2 w1 (Datatypes.S n) Hwf2) as (r' & s' & w' & E & Hr). exists r', s', w'.
    split; [exact E |]. destruct r' as [k|]; [| done]. destruct Hr as [Hk Hn]. split; [lia |].
    intros. eapply Hn; [lia | done].
  - exists (Ok n), s1, w. split; [done |]. split; [lia |]. intros _ id st Hst. rewrite Eck. simpl.
    unfold flow_try_claim in Ec.
    pose proof (claim_scan_spec s (iter (flows s)) ft (ex_owner ex) (ex_stale_after ex) now clock Hwf) as Hc.
    rewrite Ec in Hc. destruct Hc as [-> Hc]; [intros; by apply elem_of_iter |].
    apply (Hc id). by apply elem_of_iter.
Qed.

(** C32: A recovery sweep terminates and is complete: it claims at most [max_claims] flows, and
    when it reports fewer, no flow of the type is left that is running under a stale
    heartbeat. *)
Theorem recover_complete fuel s w ft opts clocks :
  flows_wf s ->
  exists r s' w', recover_stale ex run (Datatypes.S fuel) s w ft opts clocks = Some (r, s', w')
    /\ match r with
       | Ok n => (n <= max_claims opts)%nat /\ ((n < max_claims opts)%nat ->
           forall id st, flows s' !! id = Some st -> ~ recoverable ft (fst (clocks n)) st)
       | Err _ => True
       end.
Proof.
  intros Hwf. destruct (recover_loop_spec fuel s w ft (max_claims opts) clocks 0 Hwf) as (r & s' & w' & E & Hr).
  exists r, s', w'. split; [exact E |]. destruct r; [| done]. destruct Hr as [? Hn]. split; [lia |]. exact Hn.
Qed.
End memory_exec.

(** ** Concrete instances of the theorems *)

Definition demo_ex (owner : string) : FlowExecutor := mkExecutor owner (from_secs 30).
Definition demo_run (calls : Z) (st : FlowState) : CatgaResult FlowResult * Z :=
  (Ok (flow_success 2), calls + 1).
Definition demo_initial : FlowState := FlowState_new "f" "t" [1] "a" 0.
(** Executor [a] created the flow and works; [b] claimed it after [a]'s heartbeat. *)
Definition demo_claimed_state : FlowState :=
  mkFlowState "f" "t" Running 0 1 (Some "b") (from_secs 60) [1] None.
Definition demo_flow_machine : XMachine (S := MemoryFlows) :=
  mkXMachine (mkMemoryFlows {[ "f" := demo_claimed_state ]})
    [(demo_ex "a", XWork demo_initial); (demo_ex "b", XWork demo_claimed_state)].

Lemma demo_flow_run :
  rtc xstep (executors_idle flows_default [demo_ex "a"; demo_ex "b"]) demo_flow_machine.
Proof.
  eapply rtc_l; [by apply (xs_create _ _ 0 (demo_ex "a") "f" "t" [1] 0) |].
  eapply rtc_l; [by eapply (xs_create _ _ 1 (demo_ex "b") "f" "t" [1] (from_secs 60)) |].
  eapply rtc_l; [by eapply (xs_access _ _ 1 (demo_ex "b") _ (from_secs 60) (from_secs 60)) |].
  eapply rtc_l; [by eapply (xs_access _ _ 1 (demo_ex "b") _ 0 0) |]. apply rtc_refl.
Qed.

Lemma flows_default_wf : flows_wf flows_default.
Proof. intros id st. simpl. by rewrite lookup_empty. Qed.

Lemma flow_outcome_agreed_witness :
  rtc xstep (executors_idle flows_default [demo_ex "a"; demo_ex "b"]) demo_flow_machine
  /\ forall id st, fs_lookup (xm_store demo_flow_machine) id = Some st ->
    is_terminal (f_status st) = true ->
    exists st', fs_lookup (xm_store demo_flow_machine) id = Some st'
      /\ terminal_result st' = terminal_result st.
Proof.
  split; [exact demo_flow_run |].
  apply (@flow_outcome_agreed _ memory_flows_laws flows_default [demo_ex "a"; demo_ex "b"] demo_flow_machine
    demo_flow_machine flows_default_wf demo_flow_run (rtc_refl _ _)).
Defined.

Lemma flow_claims_fenced_witness : f_version demo_initial <> f_version demo_claimed_state.
Proof.
  apply (proj1 (@flow_claims_fenced _ memory_flows_laws flows_default [demo_ex "a"; demo_ex "b"] demo_flow_machine
    flows_default_wf demo_flow_run) 0%nat 1%nat (demo_ex "a") (demo_ex "b")); [lia | reflexivity..].
Defined.

Lemma flows_default_valid : flows_valid flows_default.
Proof. intros id st. simpl. by rewrite lookup_empty. Qed.

Lemma execute_exact_witness :
  exists next, execute (demo_ex "a") demo_run 1 flows_default 0 "f" "t" [1] 0 0 0
    = Some (Ok (flow_success 2), put_flow flows_default "f" next, 1)
    /\ finished_with next 1 (flow_success 2).
Proof.
  pose proof (execute_exact (demo_ex "a") demo_run 0 flows_default 0 "f" "t" [1] 0 0 0
    flows_default_wf flows_default_valid) as H. cbn zeta in H. specialize (H eq_refl). exact H.
Defined.

Lemma recover_complete_witness :
  exists r s' w', recover_stale (demo_ex "c") demo_run 1 (xm_store demo_flow_machine) 0 "t"
      (mkRecoveryOptions 4 1) (fun _ => (from_secs 120, from_secs 120)) = Some (r, s', w')
    /\ r = Ok 1%nat.
Proof.
  destruct (recover_complete (demo_ex "c") demo_run 0 (xm_store demo_flow_machine) 0 "t"
    (mkRecoveryOptions 4 1) (fun _ => (from_secs 120, from_secs 120))) as (r & s' & w' & E & _).
  { intros id st. simpl. rewrite lookup_singleton_Some. by intros [<- <-]. }
  exists r, s', w'. split; [exact E |]. vm_compute in E. by injection E as <- _ _.
Defined.
