(* ===== verification/Suspension.v ===== *)
(** * Suspended flows: wait conditions and continuations ([flow/suspension.rs],
    [flow/runtime_wait.rs], [flow/suspension_store.rs], [flow/timeout.rs])

    A suspended flow is a [FlowContinuation]: its state, the step to run next, and what it
    waits for.  A [WaitCondition] collects the results of children; [evaluate_wait] decides
    when it is over.  The properties are about every history of a condition: which results
    it holds, who may launch a child, and what the verdict says about the children. *)

From S2P Require Import Prelude Utf8 Errors Time Flows.

Definition MAX_WAIT_CHILDREN : Z := 1024.
Definition MAX_WAIT_RESULT_BYTES : Z := 64 * 1024.
Definition MAX_FLOW_COMPENSATIONS : Z := 1024.

Inductive WaitPolicy := WaitAll | WaitAny.

Inductive FlowChildLaunchState :=
| ChildPending
| ChildClaimed (owner : string) (expires_at : SystemTime)
| ChildLaunched.

Record FlowChildLaunch := mkChild { c_id : string; c_state : FlowChildLaunchState }.

Record WaitResult := mkWaitResult {
  r_child : string;
  r_payload : option (list Z);
  r_error : option CatgaError
}.

Definition wait_success (child_id : string) (payload : list Z) : WaitResult :=
  mkWaitResult child_id (Some payload) None.
Definition wait_failure (child_id : string) (error : CatgaError) : WaitResult :=
  mkWaitResult child_id None (Some error).
Definition is_success (r : WaitResult) : bool :=
  match r_error r with None => true | Some _ => false end.

Record WaitCondition := mkWait {
  w_correlation : string;
  w_policy : WaitPolicy;
  w_expected : Z;
  w_results : list WaitResult;
  w_created : SystemTime;
  w_timeout : Duration;
  w_children : list FlowChildLaunch
}.

#[global] Instance WaitPolicy_eq_dec : EqDecision WaitPolicy.
Proof. solve_decision. Defined.
#[global] Instance FlowChildLaunchState_eq_dec : EqDecision FlowChildLaunchState.
Proof. solve_decision. Defined.
#[global] Instance FlowChildLaunch_eq_dec : EqDecision FlowChildLaunch.
Proof. solve_decision. Defined.
#[global] Instance WaitResult_eq_dec : EqDecision WaitResult.
Proof. solve_decision. Defined.
#[global] Instance WaitCondition_eq_dec : EqDecision WaitCondition.
Proof. solve_decision. Defined.

(** [u32::try_from(len).unwrap_or(u32::MAX)] *)
Definition u32_or_max (x : Z) : Z :=
  match checked u32 x with Some y => y | None => int_max u32 end.

Definition WaitCondition_new (correlation_id : string) (policy : WaitPolicy) (expected_count : Z)
    (created_at : SystemTime) (timeout : Duration) : WaitCondition :=
  mkWait correlation_id policy expected_count [] created_at timeout [].

(** The loop of [for_children] over the identities *)
Fixpoint for_children_loop (children : list FlowChildLaunch) (child_ids : list string)
    : CatgaResult (list FlowChildLaunch) :=
  match child_ids with
  | [] => Ok children
  | child_id :: child_ids =>
    if bool_decide (child_id = EmptyString)
       || existsb (fun child => bool_decide (c_id child = child_id)) children
    then fail Validation "flow child identities must be non-empty and unique"
    else if lenZ children =? MAX_WAIT_CHILDREN
    then fail Validation "flow child wait exceeds the supported child limit"
    else for_children_loop (children ++ [mkChild child_id ChildPending]) child_ids
  end.

Definition for_children (correlation_id : string) (policy : WaitPolicy) (child_ids : list string)
    (created_at : SystemTime) (timeout : Duration) : CatgaResult WaitCondition :=
  let? children := for_children_loop [] child_ids in
  if (length children =? 0)%nat
  then fail Validation "a durable child wait requires at least one child identity"
  else Ok (mkWait correlation_id policy (u32_or_max (lenZ children)) [] created_at timeout children).

Definition completed_count (w : WaitCondition) : Z := u32_or_max (lenZ (w_results w)).

Definition is_expired_at (w : WaitCondition) (now : SystemTime) : bool :=
  match duration_since now (w_created w) with
  | Some elapsed => w_timeout w <=? elapsed
  | None => false
  end.

Definition accepts_child (w : WaitCondition) (child_id : string) : bool :=
  (length (w_children w) =? 0)%nat
  || existsb (fun child => bool_decide (c_id child = child_id)) (w_children w).

Definition accepts_payload_len (payload_len : Z) : bool := payload_len <=? MAX_WAIT_RESULT_BYTES.

Definition with_results (w : WaitCondition) (results : list WaitResult) : WaitCondition :=
  mkWait (w_correlation w) (w_policy w) (w_expected w) results (w_created w) (w_timeout w)
    (w_children w).

Definition with_children (w : WaitCondition) (children : list FlowChildLaunch) : WaitCondition :=
  mkWait (w_correlation w) (w_policy w) (w_expected w) (w_results w) (w_created w) (w_timeout w)
    children.

Definition record_success (w : WaitCondition) (child_id : string) (payload : list Z)
    : WaitCondition :=
  if (MAX_WAIT_RESULT_BYTES <? lenZ payload)
     || (MAX_WAIT_CHILDREN <=? lenZ (w_results w))
     || (w_expected w <=? lenZ (w_results w))
     || negb (accepts_child w child_id)
     || existsb (fun result => bool_decide (r_child result = child_id)) (w_results w)
  then w
  else with_results w (w_results w ++ [wait_success child_id payload]).

Definition record_failure (w : WaitCondition) (child_id : string) (error : CatgaError)
    : WaitCondition :=
  if (MAX_WAIT_CHILDREN <=? lenZ (w_results w))
     || (w_expected w <=? lenZ (w_results w))
     || negb (accepts_child w child_id)
     || existsb (fun result => bool_decide (r_child result = child_id)) (w_results w)
  then w
  else with_results w (w_results w ++ [wait_failure child_id error]).

(** [iter().position(p)] *)
Fixpoint position {A} (p : A -> bool) (l : list A) : option nat :=
  match l with
  | [] => None
  | x :: l => if p x then Some 0%nat else S <$> position p l
  end.

Definition set_child_state (children : list FlowChildLaunch) (index : nat)
    (state : FlowChildLaunchState) : list FlowChildLaunch :=
  alter (fun child => mkChild (c_id child) state) index children.

Definition claimable (now : SystemTime) (child : FlowChildLaunch) : bool :=
  match c_state child with
  | ChildPending => true
  | ChildClaimed _ expires_at => expires_at <=? now
  | ChildLaunched => false
  end.

Definition claim_next_child (w : WaitCondition) (owner : string) (now : SystemTime)
    (claim_for : Duration) : option (string * WaitCondition) :=
  match time_checked_add now claim_for with
  | None => None
  | Some expires_at =>
    match position (claimable now) (w_children w) with
    | None => None
    | Some index =>
      match w_children w !! index with
      | None => None
      | Some child => Some (c_id child, with_children w
          (set_child_state (w_children w) index (ChildClaimed owner expires_at)))
      end
    end
  end.

Definition claimed_child (child_id owner : string) (child : FlowChildLaunch) : bool :=
  bool_decide (c_id child = child_id)
  && match c_state child with
     | ChildClaimed claim_owner _ => bool_decide (claim_owner = owner)
     | _ => false
     end.

Definition mark_child_launched (w : WaitCondition) (child_id owner : string)
    : option WaitCondition :=
  match position (claimed_child child_id owner) (w_children w) with
  | None => None
  | Some index => Some (with_children w (set_child_state (w_children w) index ChildLaunched))
  end.

Definition release_child_claim (w : WaitCondition) (child_id owner : string)
    : option WaitCondition :=
  match position (claimed_child child_id owner) (w_children w) with
  | None => None
  | Some index => Some (with_children w (set_child_state (w_children w) index ChildPending))
  end.

Fixpoint repeated_id (seen : list FlowChildLaunch) (children : list FlowChildLaunch) : bool :=
  match children with
  | [] => false
  | child :: children =>
    existsb (fun previous => bool_decide (c_id previous = c_id child)) seen
    || repeated_id (seen ++ [child]) children
  end.

Definition wait_validate (w : WaitCondition) : CatgaResult unit :=
  if bool_decide (w_correlation w = EmptyString)
     || (w_expected w =? 0)
     || (MAX_WAIT_CHILDREN <? w_expected w)
     || (MAX_WAIT_CHILDREN <? lenZ (w_results w))
     || (w_expected w <? lenZ (w_results w))
     || existsb (fun result => match r_payload result with
                               | Some payload => MAX_WAIT_RESULT_BYTES <? lenZ payload
                               | None => false
                               end) (w_results w)
  then fail Validation
    "flow wait condition requires a correlation, at least one expected child, and supported bounds"
  else if negb (length (w_children w) =? 0)%nat
       && ((MAX_WAIT_CHILDREN <? lenZ (w_children w))
           || negb (lenZ (w_children w) =? w_expected w)
           || existsb (fun child => bool_decide (c_id child = EmptyString)) (w_children w)
           || repeated_id [] (w_children w))
  then fail Validation "flow child launch intents are invalid"
  else Ok tt.

(** ** [flow/runtime_wait.rs] *)

Inductive WaitEvaluation := WaitPending | WaitReady | WaitFailed (error : CatgaError).

Fixpoint find_error (results : list WaitResult) : option CatgaError :=
  match results with
  | [] => None
  | r :: results => match r_error r with Some e => Some e | None => find_error results end
  end.

Definition evaluate_wait (w : WaitCondition) (now : SystemTime) : WaitEvaluation :=
  if is_expired_at w now
  then WaitFailed (CatgaError_new Timeout "flow wait condition timed out")
  else
    match w_policy w with
    | WaitAll =>
      match find_error (w_results w) with
      | Some error => WaitFailed error
      | None => if w_expected w <=? completed_count w then WaitReady else WaitPending
      end
    | WaitAny =>
      if existsb is_success (w_results w) then WaitReady
      else if w_expected w <=? completed_count w then
        WaitFailed (match match last (w_results w) with Some r => r_error r | None => None end with
                    | Some error => error
                    | None => CatgaError_new Transient "all flow wait children failed"
                    end)
      else WaitPending
    end.

(** ** [FlowContinuation] *)

Record FlowContinuation := mkContinuation {
  k_state : FlowState;
  k_step : string;
  k_wait : option WaitCondition;
  k_resume_at : option SystemTime;
  k_schedule : option string;
  k_compensations : list string;
  k_created : SystemTime;
  k_updated : SystemTime
}.

#[global] Instance FlowState_eq_dec : EqDecision FlowState.
Proof. solve_decision. Defined.
#[global] Instance FlowContinuation_eq_dec : EqDecision FlowContinuation.
Proof. solve_decision. Defined.

Definition FlowContinuation_new (state : FlowState) (step_name : string) (clock : SystemTime)
    : FlowContinuation :=
  mkContinuation state step_name None None None [] clock clock.

Definition waiting (state : FlowState) (step_name : string) (wait : WaitCondition)
    (clock : SystemTime) : FlowContinuation :=
  mkContinuation state step_name (Some wait) None None [] clock clock.

Definition continuation_validate (c : FlowContinuation) : CatgaResult unit :=
  let? _ := flow_validate (k_state c) in
  match k_wait c with
  | Some wait => wait_validate wait
  | None => Ok tt
  end.

Definition touch (c : FlowContinuation) (clock : SystemTime) : FlowContinuation :=
  mkContinuation (k_state c) (k_step c) (k_wait c) (k_resume_at c) (k_schedule c)
    (k_compensations c) (k_created c) clock.

Definition delayed_until (c : FlowContinuation) (resume_at : SystemTime) (clock : SystemTime)
    : FlowContinuation :=
  let t := touch c clock in
  mkContinuation (k_state t) (k_step t) None (Some resume_at) None (k_compensations t)
    (k_created t) (k_updated t).

Definition with_schedule_id (c : FlowContinuation) (schedule_id : string) (clock : SystemTime)
    : FlowContinuation :=
  let t := touch c clock in
  mkContinuation (k_state t) (k_step t) (k_wait t) (k_resume_at t) (Some schedule_id)
    (k_compensations t) (k_created t) (k_updated t).

Definition with_wait (c : FlowContinuation) (wait : WaitCondition) (clock : SystemTime)
    : FlowContinuation :=
  let t := touch c clock in
  mkContinuation (k_state t) (k_step t) (Some wait) None None (k_compensations t)
    (k_created t) (k_updated t).

Definition continuation_at_step (c : FlowContinuation) (step_name : string) (clock : SystemTime)
    : FlowContinuation :=
  let t := touch c clock in
  mkContinuation (k_state t) step_name None None None (k_compensations t) (k_created t)
    (k_updated t).

Definition ready (c : FlowContinuation) (clock : SystemTime) : FlowContinuation :=
  let t := touch c clock in
  mkContinuation (k_state t) (k_step t) None None None (k_compensations t) (k_created t)
    (k_updated t).

Definition with_state (c : FlowContinuation) (state : FlowState) (clock : SystemTime)
    : FlowContinuation :=
  let t := touch c clock in
  mkContinuation state (k_step t) (k_wait t) (k_resume_at t) (k_schedule t)
    (k_compensations t) (k_created t) (k_updated t).

Definition with_compensations (c : FlowContinuation) (compensations : list string)
    (clock : SystemTime) : FlowContinuation :=
  let t := touch c clock in
  mkContinuation (k_state t) (k_step t) (k_wait t) (k_resume_at t) (k_schedule t)
    compensations (k_created t) (k_updated t).

Definition record_compensation (c : FlowContinuation) (step_name : string) (clock : SystemTime)
    : CatgaResult FlowContinuation :=
  if lenZ (k_compensations c) =? MAX_FLOW_COMPENSATIONS
  then fail Validation "flow compensation stack exceeds the supported bound"
  else Ok (with_compensations c (k_compensations c ++ [step_name]) clock).

Definition next_compensation (c : FlowContinuation) : option string := last (k_compensations c).

Definition complete_compensation (c : FlowContinuation) (clock : SystemTime) : FlowContinuation :=
  with_compensations c (take (length (k_compensations c) - 1) (k_compensations c)) clock.

(** ** Discovery ([flow/suspension_store.rs]) *)

Definition MAX_FLOW_QUERY_RESULTS : Z := 1000.
Definition MAX_FLOW_QUERY_SCAN : Z := 10000.

Record FlowSummary := mkSummary {
  s_id : string; s_type : string; s_status : FlowStatus; s_version : Z;
  s_created : SystemTime; s_updated : SystemTime
}.

Definition FlowSummary_new (id flow_type : string) (status : FlowStatus) (version : Z)
    (created_at : SystemTime) : FlowSummary :=
  mkSummary id flow_type status version created_at created_at.

Definition with_updated_at (s : FlowSummary) (updated_at : SystemTime) : FlowSummary :=
  mkSummary (s_id s) (s_type s) (s_status s) (s_version s) (s_created s) updated_at.

Definition from_continuation (c : FlowContinuation) : FlowSummary :=
  with_updated_at
    (FlowSummary_new (f_id (k_state c)) (f_type (k_state c)) (f_status (k_state c))
       (f_version (k_state c)) (k_created c))
    (k_updated c).

Record FlowQuery := mkQuery {
  q_max_results : nat; q_max_scan : nat; q_status : option FlowStatus;
  q_type : option string; q_created : option (SystemTime * SystemTime)
}.

Definition FlowQuery_new (max_results max_scan : nat) : CatgaResult FlowQuery :=
  if (max_results =? 0)%nat || (max_scan =? 0)%nat || (max_scan <? max_results)%nat
     || (MAX_FLOW_QUERY_RESULTS <? Z.of_nat max_results)
     || (MAX_FLOW_QUERY_SCAN <? Z.of_nat max_scan)
  then fail Validation "flow query limits must be positive, ordered, and within supported bounds"
  else Ok (mkQuery max_results max_scan None None None).

Definition query_with_status (q : FlowQuery) (status : FlowStatus) : FlowQuery :=
  mkQuery (q_max_results q) (q_max_scan q) (Some status) (q_type q) (q_created q).

Definition query_with_flow_type (q : FlowQuery) (flow_type : string) : FlowQuery :=
  mkQuery (q_max_results q) (q_max_scan q) (q_status q) (Some flow_type) (q_created q).

Definition created_between (q : FlowQuery) (start end_ : SystemTime) : CatgaResult FlowQuery :=
  if end_ <=? start
  then fail Validation "flow query creation range must have a start before its end"
  else Ok (mkQuery (q_max_results q) (q_max_scan q) (q_status q) (q_type q) (Some (start, end_))).

Definition query_filter (q : FlowQuery) (status : FlowStatus) (flow_type : string)
    (created_at : SystemTime) : bool :=
  match q_status q with None => true | Some s => bool_decide (status = s) end
  && match q_type q with None => true | Some t => bool_decide (flow_type = t) end
  && match q_created q with
     | None => true
     | Some (start, end_) => (start <=? created_at) && (created_at <? end_)
     end.

Definition query_matches (q : FlowQuery) (c : FlowContinuation) : bool :=
  query_filter q (f_status (k_state c)) (f_type (k_state c)) (k_created c).

Definition matches_summary (q : FlowQuery) (s : FlowSummary) : bool :=
  query_filter q (s_status s) (s_type s) (s_created s).

(** ** Deadlines ([flow/timeout.rs]) *)

Definition flow_timeout_deadline_unix_ms (c : FlowContinuation) : CatgaResult (option Z) :=
  if negb (bool_decide (f_status (k_state c) = Suspended)) then Ok None
  else
    match k_wait c with
    | None => Ok None
    | Some wait =>
      let? deadline := ok_or (time_checked_add (w_created wait) (w_timeout wait))
        (CatgaError_new Validation "flow wait deadline exceeds the supported range") in
      let? elapsed := match duration_since_epoch deadline with
                      | Ok d => Ok d
                      | Err _ => fail Validation "flow wait deadline precedes the Unix epoch"
                      end in
      let? rounded := ok_or
        (checked u128 (as_millis elapsed + (if subsec_nanos elapsed mod 1000000 =? 0 then 0 else 1)))
        (CatgaError_new Validation "flow wait deadline exceeds the supported millisecond range") in
      let? ms := ok_or (checked u64 rounded)
        (CatgaError_new Validation "flow wait deadline exceeds the supported millisecond range") in
      Ok (Some ms)
    end.

(** ** Histories of a wait condition *)

Inductive wact :=
| ARecordSuccess (child_id : string) (payload : list Z)
| ARecordFailure (child_id : string) (error : CatgaError)
| AClaim (child_id owner : string) (now : SystemTime) (claim_for : Duration)
| ALaunched (child_id owner : string)
| AReleased (child_id owner : string).

Inductive wstep : WaitCondition -> wact -> WaitCondition -> Prop :=
| step_success w child payload :
    wstep w (ARecordSuccess child payload) (record_success w child payload)
| step_failure w child error :
    wstep w (ARecordFailure child error) (record_failure w child error)
| step_claim w owner now d child w' :
    claim_next_child w owner now d = Some (child, w') -> wstep w (AClaim child owner now d) w'
| step_launched w child owner w' :
    mark_child_launched w child owner = Some w' -> wstep w (ALaunched child owner) w'
| step_released w child owner w' :
    release_child_claim w child owner = Some w' -> wstep w (AReleased child owner) w'.

Inductive wrun : WaitCondition -> list wact -> WaitCondition -> Prop :=
| wrun_nil w : wrun w [] w
| wrun_cons w a w1 acts w2 : wstep w a w1 -> wrun w1 acts w2 -> wrun w (a :: acts) w2.

(** What a history leaves unchanged *)
Record same_wait (w w' : WaitCondition) : Prop := {
  sw_correlation : w_correlation w' = w_correlation w;
  sw_policy : w_policy w' = w_policy w;
  sw_expected : w_expected w' = w_expected w;
  sw_created : w_created w' = w_created w;
  sw_timeout : w_timeout w' = w_timeout w;
  sw_ids : c_id <$> w_children w' = c_id <$> w_children w;
  sw_results : w_results w `prefix_of` w_results w'
}.

#[global] Instance same_wait_preorder : PreOrder same_wait.
Proof.
  split.
  - by intros w; split.
  - intros w1 w2 w3 [] []. split; try congruence. by etrans.
Qed.

(** A result that [WaitResult::success] or [WaitResult::failure] made within the bound *)
Definition result_ok (r : WaitResult) : Prop :=
  match r_payload r, r_error r with
  | Some p, None => lenZ p <= MAX_WAIT_RESULT_BYTES
  | None, Some _ => True
  | _, _ => False
  end.

(** The results of a condition: at most one per accepted child, and no more than expected *)
Record results_inv (w : WaitCondition) : Prop := {
  ri_nodup : NoDup (r_child <$> w_results w);
  ri_accepted : Forall (fun r => accepts_child w (r_child r) = true) (w_results w);
  ri_ok : Forall result_ok (w_results w);
  ri_count : lenZ (w_results w) <= w_expected w
}.

Lemma existsb_bool_decide {A} `{EqDecision B} (f : A -> B) b l :
  existsb (fun x => bool_decide (f x = b)) l = true <-> b ∈ f <$> l.
Proof.
  rewrite existsb_exists, list_elem_of_fmap. setoid_rewrite bool_decide_eq_true.
  setoid_rewrite <-list_elem_of_In. naive_solver.
Qed.

Lemma existsb_false {A} (p : A -> bool) l : existsb p l = false <-> Forall (fun x => p x = false) l.
Proof.
  induction l as [|x l IH]; simpl; [by split |].
  rewrite orb_false_iff, IH, Forall_cons. done.
Qed.

Lemma accepts_child_spec w c :
  accepts_child w c = true <-> w_children w = [] \/ c ∈ c_id <$> w_children w.
Proof.
  unfold accepts_child. rewrite orb_true_iff, existsb_bool_decide, Nat.eqb_eq, length_zero_iff_nil.
  done.
Qed.

Lemma accepts_child_ids w w' c :
  c_id <$> w_children w' = c_id <$> w_children w -> accepts_child w' c = accepts_child w c.
Proof.
  intros E. apply eq_bool_prop_intro. rewrite !Is_true_true, !accepts_child_spec, E.
  rewrite <-!length_zero_iff_nil. apply (f_equal length) in E. rewrite !length_fmap in E.
  by rewrite E.
Qed.

Lemma set_child_state_ids l i st : c_id <$> set_child_state l i st = c_id <$> l.
Proof.
  revert i. unfold set_child_state. induction l as [|c l IH]; intros [|i]; simpl; [done.. |].
  f_equal. apply IH.
Qed.

Lemma position_Some {A} (p : A -> bool) l i :
  position p l = Some i -> exists x, l !! i = Some x /\ p x = true
    /\ forall j y, (j < i)%nat -> l !! j = Some y -> p y = false.
Proof.
  revert i. induction l as [|x l IH]; intros i; simpl; [done |].
  destruct (p x) eqn:E; [intros [= <-]; exists x; split_and!; [done | done | lia] |].
  rewrite fmap_Some. intros (j & Hj & ->). apply IH in Hj as (y & Hy & Hp & Hlt).
  exists y. split_and!; [done | done |]. intros [|k] z Hk Hz; [naive_solver |].
  apply (Hlt k); [lia | done].
Qed.

Lemma position_None {A} (p : A -> bool) l : position p l = None <-> Forall (fun x => p x = false) l.
Proof.
  induction l as [|x l IH]; simpl; [by split |]. rewrite Forall_cons. destruct (p x); [naive_solver |].
  rewrite fmap_None, IH. naive_solver.
Qed.

Lemma record_cases (w w' : WaitCondition) (refused : bool) r :
  w' = (if refused || (MAX_WAIT_CHILDREN <=? lenZ (w_results w))
     || (w_expected w <=? lenZ (w_results w)) || negb (accepts_child w (r_child r))
     || existsb (fun result => bool_decide (r_child result = r_child r)) (w_results w)
  then w else with_results w (w_results w ++ [r])) ->
  (refused = false -> result_ok r) ->
  w' = w \/ (w' = with_results w (w_results w ++ [r]) /\ result_ok r
             /\ lenZ (w_results w) < w_expected w /\ accepts_child w (r_child r) = true
             /\ r_child r ∉ r_child <$> w_results w).
Proof.
  intros -> Hr. destruct (_ || _) eqn:E; [by left | right]. bool_prop. split_and!; auto.
  intros Hin. apply existsb_bool_decide in Hin. congruence.
Qed.

Lemma record_success_cases w child payload :
  let w' := record_success w child payload in
  let r := wait_success child payload in
  w' = w \/ (w' = with_results w (w_results w ++ [r]) /\ result_ok r
             /\ lenZ (w_results w) < w_expected w /\ accepts_child w (r_child r) = true
             /\ r_child r ∉ r_child <$> w_results w).
Proof.
  apply (record_cases w _ (MAX_WAIT_RESULT_BYTES <? lenZ payload)); [done |].
  unfold result_ok. simpl. by intros ?%Z.ltb_ge.
Qed.

Lemma record_failure_cases w child error :
  let w' := record_failure w child error in
  let r := wait_failure child error in
  w' = w \/ (w' = with_results w (w_results w ++ [r]) /\ result_ok r
             /\ lenZ (w_results w) < w_expected w /\ accepts_child w (r_child r) = true
             /\ r_child r ∉ r_child <$> w_results w).
Proof. by apply (record_cases w _ false). Qed.

(** One step adds a result, or changes the launch state of one child. *)
Lemma wstep_cases w a w' :
  wstep w a w' ->
  w' = w
  \/ (exists r, w' = with_results w (w_results w ++ [r]) /\ result_ok r
        /\ lenZ (w_results w) < w_expected w /\ accepts_child w (r_child r) = true
        /\ r_child r ∉ r_child <$> w_results w)
  \/ (exists i st, w' = with_children w (set_child_state (w_children w) i st)).
Proof.
  destruct 1 as [w child p|w child e|w o now d child w' H|w child o w' H|w child o w' H].
  - destruct (record_success_cases w child p); [by left | right; left; by eexists].
  - destruct (record_failure_cases w child e); [by left | right; left; by eexists].
  - right; right. revert H. unfold claim_next_child. case_all. naive_solver.
  - right; right. revert H. unfold mark_child_launched. case_all. naive_solver.
  - right; right. revert H. unfold release_child_claim. case_all. naive_solver.
Qed.

Lemma wstep_same w a w' : wstep w a w' -> same_wait w w'.
Proof.
  intros [-> | [(r & -> & _) | (i & st & ->)]]%wstep_cases; [done | |].
  - split; try done. by eexists.
  - split; try done. apply set_child_state_ids.
Qed.

Lemma wstep_results_inv w a w' : wstep w a w' -> results_inv w -> results_inv w'.
Proof.
  intros Hs [Hn Ha Ho Hc]. pose proof (wstep_same _ _ _ Hs) as Hsame.
  assert (forall c, accepts_child w' c = accepts_child w c) as Hacc.
  { intros c. apply accepts_child_ids, Hsame. }
  apply wstep_cases in Hs as [-> | [(r & -> & Hr & Hlt & Hacr & Hfresh) | (i & st & ->)]]; [done | |].
  - split; simpl.
    + rewrite fmap_app, NoDup_app. split_and!; [done | | apply NoDup_singleton]. simpl. set_solver.
    + apply Forall_app. split; [| by repeat constructor].
      by eapply Forall_impl; [exact Ha |].
    + apply Forall_app. by repeat constructor.
    + unfold lenZ in *. rewrite length_app. simpl. lia.
  - split; simpl; try done. eapply Forall_impl; [exact Ha |]. intros r. by rewrite Hacc.
Qed.

Lemma wrun_inv w acts w' : wrun w acts w' -> results_inv w -> same_wait w w' /\ results_inv w'.
Proof.
  induction 1 as [w|w a w1 acts w2 Hs _ IH]; [done |]. intros Hi.
  destruct IH as [Hs1 ?]; [by eapply wstep_results_inv |]. split; [| done].
  etrans; [by eapply wstep_same | done].
Qed.

(** *** Creation *)

Lemma for_children_loop_spec l ids l' :
  for_children_loop l ids = Ok l' ->
  l' = l ++ ((fun id => mkChild id ChildPending) <$> ids)
  /\ (NoDup (c_id <$> l) -> NoDup (c_id <$> l')) /\ Forall (fun id => id <> EmptyString) ids
  /\ (lenZ l <= MAX_WAIT_CHILDREN -> lenZ l' <= MAX_WAIT_CHILDREN).
Proof.
  revert l. induction ids as [|id ids IH]; intros l; simpl.
  { intros [= <-]. rewrite app_nil_r. by split_and!. }
  destruct (_ || _) eqn:E; [done |]. destruct (Z.eqb_spec (lenZ l) MAX_WAIT_CHILDREN); [done |].
  apply orb_false_iff in E as [E1 E2]. bool_prop.
  intros (-> & Hn & He & Hl)%IH. split_and!.
  - by rewrite <-app_assoc.
  - intros Hnl. apply Hn. rewrite fmap_app, NoDup_app. simpl.
    split_and!; [done | | apply NoDup_singleton].
    intros x Hx ->%list_elem_of_singleton. apply existsb_bool_decide in Hx. congruence.
  - by constructor.
  - intros ?. apply Hl. unfold lenZ in *. rewrite length_app. simpl. lia.
Qed.

Lemma pending_ids (ids : list string) : c_id <$> ((fun id => mkChild id ChildPending) <$> ids) = ids.
Proof. rewrite <-list_fmap_compose. apply list_fmap_id. Qed.

Lemma for_children_ok correlation policy ids created timeout w :
  for_children correlation policy ids created timeout = Ok w ->
  w = mkWait correlation policy (lenZ ids) [] created timeout
        ((fun id => mkChild id ChildPending) <$> ids)
  /\ NoDup ids /\ Forall (fun id => id <> EmptyString) ids /\ 0 < lenZ ids <= MAX_WAIT_CHILDREN.
Proof.
  unfold for_children. intros H. inv_ok H.
  apply for_children_loop_spec in Hr as (-> & Hn & He & Hl). simpl in *.
  specialize (Hn (NoDup_nil_2)). rewrite pending_ids in Hn.
  destruct (length _ =? 0)%nat eqn:E; [done |]. apply Nat.eqb_neq in E. injection Hk as <-.
  unfold lenZ in *. rewrite length_fmap in *. specialize (Hl ltac:(done)).
  split_and!; try done; [| lia]. f_equal. unfold u32_or_max. rewrite checked_fits; [done |].
  unfold MAX_WAIT_CHILDREN in *. int_bounds. lia.
Qed.

Lemma repeated_id_spec seen l :
  NoDup (c_id <$> seen) -> repeated_id seen l = false <-> NoDup (c_id <$> seen ++ l).
Proof.
  revert seen. induction l as [|x l IH]; intros seen Hs; simpl; [by rewrite app_nil_r |].
  assert (c_id <$> seen ++ x :: l ≡ₚ c_id x :: (c_id <$> seen ++ l)) as Hp.
  { rewrite !fmap_app. simpl. by rewrite Permutation_middle. }
  rewrite orb_false_iff, <-not_true_iff_false, existsb_bool_decide. split.
  - intros [Hx Hl]. apply IH in Hl; [by rewrite <-app_assoc in Hl |].
    rewrite fmap_app, NoDup_app. simpl. split_and!; [done | set_solver | apply NoDup_singleton].
  - intros Hn. pose proof Hn as Hn'. rewrite Hp in Hn'. apply NoDup_cons in Hn' as [Hx _].
    assert (c_id x ∉ c_id <$> seen) as Hxs by set_solver. split; [done |]. apply IH.
    + rewrite fmap_app, NoDup_app. simpl. split_and!; [done | set_solver | apply NoDup_singleton].
    + by rewrite <-app_assoc.
Qed.

Lemma wait_validate_ok w :
  wait_validate w = Ok tt <->
  w_correlation w <> EmptyString /\ w_expected w <> 0 /\ w_expected w <= MAX_WAIT_CHILDREN
  /\ lenZ (w_results w) <= Z.min (w_expected w) MAX_WAIT_CHILDREN
  /\ Forall (fun r => forall p, r_payload r = Some p -> lenZ p <= MAX_WAIT_RESULT_BYTES) (w_results w)
  /\ (w_children w <> [] -> lenZ (w_children w) = w_expected w
        /\ Forall (fun c => c_id c <> EmptyString) (w_children w) /\ NoDup (c_id <$> w_children w)).
Proof.
  unfold wait_validate.
  assert (forall l, existsb (fun r => match r_payload r with
    | Some p => MAX_WAIT_RESULT_BYTES <? lenZ p | None => false end) l = false
    <-> Forall (fun r => forall p, r_payload r = Some p -> lenZ p <= MAX_WAIT_RESULT_BYTES) l) as Hp.
  { intros l. rewrite existsb_false. apply Forall_proper; [| done]. intros r.
    destruct (r_payload r) as [p|]; [rewrite Z.ltb_ge |]; naive_solver. }
  assert (repeated_id [] (w_children w) = false <-> NoDup (c_id <$> w_children w)) as Hd
    by (by apply (repeated_id_spec [] _), NoDup_nil_2).
  assert (existsb (fun c => bool_decide (c_id c = EmptyString)) (w_children w) = false
          <-> Forall (fun c => c_id c <> EmptyString) (w_children w)) as He.
  { rewrite existsb_false. apply Forall_proper; [| done]. intros c. apply bool_decide_eq_false. }
  destruct (_ || _) eqn:E.
  - split; [done |]. intros (H1 & H2 & H3 & H4 & H5 & _). exfalso. revert E.
    apply not_true_iff_false. rewrite !orb_false_iff, Hp, bool_decide_eq_false, Z.eqb_neq, !Z.ltb_ge.
    split_and!; try done; lia.
  - rewrite !orb_false_iff, Hp, bool_decide_eq_false, Z.eqb_neq, !Z.ltb_ge in E.
    destruct E as (((((E1 & E2) & E3) & E4) & E5) & E6).
    destruct (length (w_children w) =? 0)%nat eqn:El; simpl.
    + apply Nat.eqb_eq, length_zero_iff_nil in El. rewrite El. split; [| done]. intros _.
      split_and!; try done. lia.
    + apply Nat.eqb_neq in El. assert (w_children w <> []) as Hne by (by intros E; rewrite E in El).
      destruct (_ || _ || _ || _) eqn:E.
      * split; [done |]. intros (_ & _ & _ & _ & _ & H). destruct (H Hne) as (H1 & H2 & H3).
        exfalso. revert E. apply not_true_iff_false.
        rewrite !orb_false_iff, He, Hd, negb_false_iff, Z.eqb_eq, Z.ltb_ge. split_and!; try done. lia.
      * rewrite !orb_false_iff, He, Hd, negb_false_iff, Z.eqb_eq in E. split; [| done].
        intros _. split_and!; try done; [lia | naive_solver].
Qed.

(** A condition as its two constructors make it.  [new] checks nothing; its count is a [u32]. *)
Inductive wait_created : WaitCondition -> Prop :=
| created_new correlation policy n created timeout :
    0 <= n <= int_max u32 -> wait_created (WaitCondition_new correlation policy n created timeout)
| created_children correlation policy ids created timeout w :
    for_children correlation policy ids created timeout = Ok w -> wait_created w.

Lemma created_inv w :
  wait_created w -> results_inv w /\ w_results w = [] /\ 0 <= w_expected w <= int_max u32
    /\ (w_children w <> [] -> lenZ (w_children w) = w_expected w
          /\ Forall (fun c => c_id c <> EmptyString) (w_children w) /\ NoDup (c_id <$> w_children w)).
Proof.
  destruct 1 as [co p n cr t Hn|co p ids cr t w Hw].
  - split_and!; simpl; try (done || lia). split; simpl; try constructor. unfold lenZ. simpl. lia.
  - apply for_children_ok in Hw as (-> & Hnd & He & Hl). simpl. split_and!; simpl; try (done || lia).
    + split; simpl; try constructor. unfold lenZ at 1. simpl. lia.
    + unfold MAX_WAIT_CHILDREN in *. int_bounds. lia.
    + intros _. rewrite pending_ids. split_and!; [| by apply Forall_fmap, (Forall_impl _ _ _ He) | done].
      unfold lenZ. by rewrite length_fmap.
Qed.

(** Nothing that happens to a condition changes what [validate] says of it. *)
Lemma created_valid w w' :
  wait_created w -> same_wait w w' -> results_inv w' ->
  wait_validate w' = Ok tt <-> w_correlation w <> EmptyString /\ 0 < w_expected w <= MAX_WAIT_CHILDREN.
Proof.
  intros (_ & _ & Hn & H6)%created_inv [Hco _ He _ _ Hid _] [_ _ Hok Hc].
  rewrite wait_validate_ok, Hco, He in *. split; [intros (? & ? & ? & _); split; [done | lia] |].
  intros (H1 & H2). split_and!; try (done || lia).
  - eapply Forall_impl; [exact Hok |]. intros r Hr p Hp. unfold result_ok in Hr. rewrite Hp in Hr.
    by destruct (r_error r).
  - assert (length (w_children w') = length (w_children w)) as Hl.
    { apply (f_equal length) in Hid. by rewrite !length_fmap in Hid. }
    intros Hne. destruct H6 as (H6 & H7 & H8).
    { intros E. rewrite E in Hl. by destruct (w_children w'). }
    rewrite Hid. unfold lenZ in *. rewrite Hl. split_and!; [done | | done].
    apply (Forall_fmap c_id (fun id => id <> EmptyString)). rewrite Hid. by apply Forall_fmap.
Qed.

(** C25: Typing of a wait condition: whatever is recorded, claimed, launched or released in
    whatever order on a condition that [new] or [for_children] made, it passes [validate]
    exactly when its correlation is not empty and its expected count is between one and
    1,024.  [new] accepts any arguments, so it can make conditions that never pass;
    [for_children] refuses any other count, but not an empty correlation.  The condition has
    at most as many results as it expects and at most one per child, only results of children
    it accepts, each either a payload within the bound or an error; the children stay the
    same, and the results recorded first stay first. *)
Theorem wait_history w0 acts w :
  wait_created w0 -> wrun w0 acts w ->
  (wait_validate w = Ok tt <-> w_correlation w0 <> EmptyString /\ 0 < w_expected w0 <= MAX_WAIT_CHILDREN)
  /\ NoDup (r_child <$> w_results w) /\ lenZ (w_results w) <= w_expected w0
  /\ Forall (fun r => accepts_child w (r_child r) = true /\ result_ok r) (w_results w)
  /\ c_id <$> w_children w = c_id <$> w_children w0
  /\ forall acts' w', wrun w acts' w' -> w_results w `prefix_of` w_results w'.
Proof.
  intros Hw Hr. destruct (created_inv _ Hw) as (Hi & _). destruct (wrun_inv _ _ _ Hr Hi) as [Hs Hi'].
  split_and!.
  - by apply created_valid.
  - apply Hi'.
  - rewrite <- (sw_expected _ _ Hs). apply Hi'.
  - apply Forall_and. split; apply Hi'.
  - apply Hs.
  - intros acts' w' Hr'. by apply (wrun_inv _ _ _ Hr' Hi').
Qed.

(** *** Verdicts *)

Definition reported (w : WaitCondition) (id : string) (success : bool) : Prop :=
  exists r, r ∈ w_results w /\ r_child r = id /\ is_success r = success.

Lemma find_error_Some l e :
  find_error l = Some e -> exists r, r ∈ l /\ is_success r = false /\ r_error r = Some e.
Proof.
  induction l as [|r l IH]; simpl; [done |]. destruct (r_error r) as [e'|] eqn:E.
  - intros [= <-]. exists r. split_and!; [by left | unfold is_success; by rewrite E | done].
  - intros (r' & ? & ?)%IH. exists r'. split; [by right | done].
Qed.

Lemma find_error_None l : find_error l = None <-> Forall (fun r => is_success r = true) l.
Proof.
  induction l as [|r l IH]; simpl; [by split |]. rewrite Forall_cons. unfold is_success at 1.
  destruct (r_error r); [naive_solver |]. rewrite IH. naive_solver.
Qed.

Lemma completed_count_small w :
  results_inv w -> w_expected w <= int_max u32 -> completed_count w = lenZ (w_results w).
Proof.
  intros [_ _ _ Hc] Hm. unfold completed_count, u32_or_max. rewrite checked_fits; [done |].
  unfold lenZ in *. int_bounds. lia.
Qed.

(** A full condition has a result of every declared child. *)
Lemma full_all_reported w ids :
  results_inv w -> c_id <$> w_children w = ids -> ids <> [] -> w_expected w = lenZ ids ->
  NoDup ids -> w_expected w <= lenZ (w_results w) -> forall id, id ∈ ids -> id ∈ r_child <$> w_results w.
Proof.
  intros [Hn Ha _ _] Hid Hne He Hnd Hc.
  assert (r_child <$> w_results w ⊆+ ids) as Hsub.
  { apply NoDup_submseteq; [done |]. intros x (r & -> & Hr)%list_elem_of_fmap.
    rewrite Forall_forall in Ha. specialize (Ha r Hr). rewrite accepts_child_spec, Hid in Ha.
    destruct Ha as [Ha|]; [| done]. rewrite Ha in Hid. by subst ids. }
  assert (r_child <$> w_results w ≡ₚ ids) as Hp.
  { apply submseteq_length_Permutation; [done |]. unfold lenZ in *. rewrite length_fmap. lia. }
  intros id. by rewrite Hp.
Qed.

Lemma result_unique w r r' :
  results_inv w -> r ∈ w_results w -> r' ∈ w_results w -> r_child r = r_child r' -> r = r'.
Proof.
  intros [Hn _ _ _] Hr Hr' E. apply list_elem_of_lookup in Hr as [i Hi], Hr' as [j Hj].
  assert (i = j) as ->; [| congruence].
  eapply (NoDup_lookup _ _ _ _ Hn); rewrite list_lookup_fmap; [by rewrite Hi | rewrite Hj, E; done].
Qed.

(** When every child has its result, some result being of one kind or all being of it are
    statements about the children. *)
Lemma every_child_reported w ids b :
  results_inv w -> c_id <$> w_children w = ids -> ids <> [] -> w_expected w = lenZ ids -> NoDup ids ->
  (forall id, id ∈ ids -> reported w id b) <->
  w_expected w <= lenZ (w_results w) /\ Forall (fun r => is_success r = b) (w_results w).
Proof.
  intros Hi Hid Hne He Hnd. split.
  - intros Hall. split.
    + rewrite He. assert (ids ⊆+ r_child <$> w_results w) as Hsub.
      { apply NoDup_submseteq; [done |]. intros id (r & Hr & <- & _)%Hall.
        apply list_elem_of_fmap. eauto. }
      apply submseteq_length in Hsub. rewrite length_fmap in Hsub. unfold lenZ. lia.
    + apply Forall_forall. intros r Hr.
      assert (r_child r ∈ ids) as Hin.
      { destruct Hi as [_ Ha _ _]. rewrite Forall_forall in Ha. specialize (Ha r Hr).
        rewrite accepts_child_spec, Hid in Ha. destruct Ha as [Ha|]; [| done].
        rewrite Ha in Hid. by subst ids. }
      destruct (Hall _ Hin) as (r' & Hr' & E & <-). f_equal. by eapply result_unique.
  - intros [Hc Hf] id Hin. eapply full_all_reported in Hin; [| done..].
    apply list_elem_of_fmap in Hin as (r & -> & Hr). rewrite Forall_forall in Hf. exists r. auto.
Qed.

(** Some child reported [b]: its result is among the results. *)
Lemma some_child_reported w ids b :
  results_inv w -> c_id <$> w_children w = ids -> ids <> [] ->
  (exists id, id ∈ ids /\ reported w id b) <-> exists r, r ∈ w_results w /\ is_success r = b.
Proof.
  intros [_ Ha _ _] Hid Hne. split; [intros (id & _ & r & ? & _ & ?); eauto |].
  intros (r & Hr & Hb). exists (r_child r). split; [| by exists r].
  rewrite Forall_forall in Ha. specialize (Ha r Hr). rewrite accepts_child_spec, Hid in Ha.
  destruct Ha as [Ha|]; [| done]. rewrite Ha in Hid. by subst ids.
Qed.

(** The verdict of a fan-out before its deadline says what it should about the children:
    under [All] it is ready exactly when every child has succeeded and failed exactly when
    some child has failed; under [Any] it is ready exactly when some child has succeeded and
    failed exactly when every child has failed.  From the deadline on it is a timeout. *)
Theorem wait_verdict_exact correlation policy ids created timeout w0 acts w now :
  for_children correlation policy ids created timeout = Ok w0 -> wrun w0 acts w ->
  if is_expired_at w now
  then evaluate_wait w now = WaitFailed (CatgaError_new Timeout "flow wait condition timed out")
  else match policy with
       | WaitAll =>
         (evaluate_wait w now = WaitReady <-> forall id, id ∈ ids -> reported w id true)
         /\ ((exists e, evaluate_wait w now = WaitFailed e) <-> exists id, id ∈ ids /\ reported w id false)
       | WaitAny =>
         (evaluate_wait w now = WaitReady <-> exists id, id ∈ ids /\ reported w id true)
         /\ ((exists e, evaluate_wait w now = WaitFailed e) <-> forall id, id ∈ ids -> reported w id false)
       end.
Proof.
  intros (-> & Hnd & He & Hl)%for_children_ok Hr. apply wrun_inv in Hr as [Hs Hi].
  2: { split; simpl; try constructor. unfold lenZ at 1. simpl. lia. }
  destruct Hs as [_ Hp Hx _ _ Hid _]. simpl in *. rewrite pending_ids in Hid.
  assert (ids <> []) as Hne by (intros ->; unfold lenZ in Hl; simpl in Hl; lia).
  assert (completed_count w = lenZ (w_results w)) as Hc by (apply completed_count_small; [done | unfold MAX_WAIT_CHILDREN in *; int_bounds; lia]).
  unfold evaluate_wait. destruct (is_expired_at w now); [done |].
  rewrite Hp, Hc. destruct policy.
  - rewrite every_child_reported, some_child_reported by done.
    destruct (find_error (w_results w)) as [e|] eqn:Ef.
    + apply find_error_Some in Ef as (r & Hr & Hf & _). split; [| split; [eauto |]; by eauto].
      split; [done |]. intros [_ H]. rewrite Forall_forall in H. specialize (H r Hr). congruence.
    + apply find_error_None in Ef. split.
      * destruct (Z.leb_spec (w_expected w) (lenZ (w_results w))); [naive_solver |].
        split; [done |]. lia.
      * split; [intros [e ?]; by destruct (_ <=? _) |]. intros (r & Hr & Hf).
        rewrite Forall_forall in Ef. specialize (Ef r Hr). congruence.
  - rewrite every_child_reported, some_child_reported by done.
    destruct (existsb is_success (w_results w)) eqn:Ex.
    + apply existsb_exists in Ex as (r & Hr%list_elem_of_In & Hs). split; [split; eauto |].
      split; [by intros [e ?] |]. intros [_ H]. rewrite Forall_forall in H. specialize (H r Hr).
      congruence.
    + apply existsb_false in Ex. split.
      * split; [by destruct (_ <=? _) |]. intros (r & Hr & Hs). rewrite Forall_forall in Ex.
        specialize (Ex r Hr). congruence.
      * destruct (Z.leb_spec (w_expected w) (lenZ (w_results w))); [naive_solver eauto |].
        split; [by intros [e ?] | lia].
Qed.

Lemma find_error_app l l' e : find_error l = Some e -> find_error (l ++ l') = Some e.
Proof.
  induction l as [|r l IH]; simpl; [done |]. by destruct (r_error r).
Qed.

Lemma prefix_full {A} (l l' : list A) : l `prefix_of` l' -> lenZ l' <= lenZ l -> l' = l.
Proof.
  intros [k ->]. unfold lenZ. rewrite length_app. intros.
  destruct k; [by rewrite app_nil_r | simpl in *; lia].
Qed.

(** Once a condition is decided, later results do not change the verdict, as long as it is
    looked at before its deadline. *)
Theorem wait_verdict_final w0 acts w acts' w' now :
  wait_created w0 -> wrun w0 acts w -> wrun w acts' w' -> is_expired_at w now = false ->
  evaluate_wait w now <> WaitPending -> evaluate_wait w' now = evaluate_wait w now.
Proof.
  intros (Hi & _ & Hm & _)%created_inv Hr Hr' Hex. apply wrun_inv in Hr as [Hs Hiw]; [| done].
  apply wrun_inv in Hr' as [Hs' Hiw']; [| done].
  assert (w_expected w <= int_max u32) as Hmax by (rewrite (sw_expected _ _ Hs); lia).
  destruct Hs' as [_ Hp He Hcr Hto Hid Hpre].
  assert (is_expired_at w' now = false) as Hex' by (revert Hex; unfold is_expired_at; by rewrite Hcr, Hto).
  unfold evaluate_wait. rewrite Hex, Hex', Hp, He, !completed_count_small by (done || lia).
  assert (w_expected w <= lenZ (w_results w) -> w_results w' = w_results w) as Hfull.
  { intros Hf. apply prefix_full; [done |]. pose proof (ri_count _ Hiw'). lia. }
  destruct (w_policy w).
  - destruct (find_error (w_results w)) as [e|] eqn:Ef.
    + destruct Hpre as [k ->]. by rewrite (find_error_app _ k e Ef).
    + destruct (Z.leb_spec (w_expected w) (lenZ (w_results w))); [| done].
      rewrite Hfull, Ef by done. intros _. by rewrite (proj2 (Z.leb_le _ _)).
  - destruct (existsb is_success (w_results w)) eqn:Ex.
    + destruct Hpre as [k ->]. by rewrite existsb_app, Ex.
    + destruct (Z.leb_spec (w_expected w) (lenZ (w_results w))); [| done].
      rewrite Hfull, Ex by done. intros _. by rewrite (proj2 (Z.leb_le _ _)).
Qed.

(** A wait whose every result arrived in time still fails with [Timeout] when it is looked
    at after its deadline. *)
Lemma ready_wait_times_out w now later :
  0 <= w_timeout w -> evaluate_wait w now = WaitReady -> w_created w + w_timeout w <= later ->
  evaluate_wait w later = WaitFailed (CatgaError_new Timeout "flow wait condition timed out").
Proof.
  intros Ht _ Hl. unfold evaluate_wait, is_expired_at, duration_since.
  rewrite (proj2 (Z.leb_le (w_created w) later)) by lia.
  by rewrite (proj2 (Z.leb_le (w_timeout w) _)) by lia.
Qed.

(** *** Launch claims *)

Lemma set_child_state_lookup l i j st c :
  set_child_state l i st !! j = Some c <->
  exists c0, l !! j = Some c0 /\ c_id c = c_id c0 /\ c_state c = if decide (i = j) then st else c_state c0.
Proof.
  unfold set_child_state. destruct (decide (i = j)) as [->|].
  - rewrite list_lookup_alter_eq, fmap_Some. destruct c. naive_solver.
  - rewrite list_lookup_alter_ne by done. destruct c as [id s]. split; [by eauto |].
    intros ([id0 s0] & ? & ? & ?). naive_solver.
Qed.

(** Who a step claims a child for, and what it does to the child at a position *)
Definition claims (a : wact) (child : string) : Prop :=
  exists owner now d, a = AClaim child owner now d.

Lemma claim_step w child owner now d w' :
  claim_next_child w owner now d = Some (child, w') ->
  exists i c, w_children w !! i = Some c /\ c_id c = child /\ claimable now c = true
    /\ time_checked_add now d = Some (now + d)
    /\ w' = with_children w (set_child_state (w_children w) i (ChildClaimed owner (now + d))).
Proof.
  unfold claim_next_child, time_checked_add. destruct (system_time_ok _); [| done].
  destruct (position _ _) as [i|] eqn:Ep; [| done].
  apply position_Some in Ep as (c & Hc & Hcl & _). rewrite Hc. intros [= <- <-].
  exists i, c. by split_and!.
Qed.

Lemma finish_step w child owner i :
  position (claimed_child child owner) (w_children w) = Some i ->
  exists c exp, w_children w !! i = Some c /\ c_id c = child /\ c_state c = ChildClaimed owner exp.
Proof.
  intros (c & Hc & Hp & _)%position_Some. unfold claimed_child in Hp. bool_prop.
  destruct (c_state c) as [|o exp|] eqn:E; try done. bool_prop. subst. eauto.
Qed.

(** What happens to a child in a step that neither claims nor finishes it *)
Lemma child_kept w a w' i c :
  NoDup (c_id <$> w_children w) -> wstep w a w' -> w_children w !! i = Some c -> ~ claims a (c_id c) ->
  (forall owner, a = ALaunched (c_id c) owner \/ a = AReleased (c_id c) owner ->
     forall exp, c_state c <> ChildClaimed owner exp) ->
  w_children w' !! i = Some c.
Proof.
  intros Hnd Hs Hi Hnc Hnf.
  assert (forall j st c', w_children w !! j = Some c' -> c_id c' <> c_id c ->
            w_children (with_children w (set_child_state (w_children w) j st)) !! i = Some c) as Hother.
  { intros j st c' Hj Hne. simpl. apply set_child_state_lookup. exists c.
    destruct (decide (j = i)) as [->|]; [congruence | done]. }
  destruct Hs as [w ch p|w ch e|w o now d ch w' H|w ch o w' H|w ch o w' H].
  - by destruct (record_success_cases w ch p) as [-> | [-> _]].
  - by destruct (record_failure_cases w ch e) as [-> | [-> _]].
  - apply claim_step in H as (j & c' & Hj & Hid & _ & _ & ->). apply (Hother j _ c'); [done |].
    intros E. apply Hnc. rewrite <-E, Hid. unfold claims. eauto.
  - unfold mark_child_launched in H. destruct (position _ _) as [j|] eqn:Ep; simplify_eq.
    apply finish_step in Ep as (c' & exp & Hj & Hid & Hst).
    destruct (decide (c_id c' = c_id c)) as [E|]; [| by apply (Hother j _ c')].
    assert (c' = c) as ->.
    { assert (i = j) as ->; [| congruence]. eapply (NoDup_lookup _ _ _ _ Hnd);
        rewrite list_lookup_fmap; [by rewrite Hi | by rewrite Hj, <-E]. }
    by destruct (Hnf o ltac:(left; congruence) exp).
  - unfold release_child_claim in H. destruct (position _ _) as [j|] eqn:Ep; simplify_eq.
    apply finish_step in Ep as (c' & exp & Hj & Hid & Hst).
    destruct (decide (c_id c' = c_id c)) as [E|]; [| by apply (Hother j _ c')].
    assert (c' = c) as ->.
    { assert (i = j) as ->; [| congruence]. eapply (NoDup_lookup _ _ _ _ Hnd);
        rewrite list_lookup_fmap; [by rewrite Hi | by rewrite Hj, <-E]. }
    by destruct (Hnf o ltac:(right; congruence) exp).
Qed.

Lemma claim_of w a w' i c :
  NoDup (c_id <$> w_children w) -> wstep w a w' -> w_children w !! i = Some c -> claims a (c_id c) ->
  exists owner now d, a = AClaim (c_id c) owner now d /\ claimable now c = true.
Proof.
  intros Hnd Hs Hi (o & now & d & ->). inversion Hs as [| |w1 o1 now1 d1 ch w1' H| |]; subst.
  apply claim_step in H as (j & c' & Hj & Hid & Hcl & _).
  assert (c' = c) as ->; [| by eauto 10].
  assert (i = j) as ->; [| congruence].
  eapply (NoDup_lookup _ _ _ _ Hnd); rewrite list_lookup_fmap; [by rewrite Hi | by rewrite Hj, <-Hid].
Qed.

(** The launch of a child is exclusive: a child that is launched is never claimed again, and
    one that [owner] claimed until [expires] is claimed by nobody, as long as [owner] neither
    launches nor releases it and no claim is made at a clock reading past [expires]. *)
Theorem child_launch_exclusive w acts w' i c :
  NoDup (c_id <$> w_children w) -> w_children w !! i = Some c -> wrun w acts w' ->
  match c_state c with
  | ChildPending => True
  | ChildLaunched => forall a, a ∈ acts -> ~ claims a (c_id c)
  | ChildClaimed owner expires =>
    ALaunched (c_id c) owner ∉ acts -> AReleased (c_id c) owner ∉ acts ->
    (forall child o now d, AClaim child o now d ∈ acts -> now < expires) ->
    forall a, a ∈ acts -> ~ claims a (c_id c)
  end.
Proof.
  intros Hnd Hi Hr. revert Hnd Hi. induction Hr as [w|w a w1 acts w2 Hs _ IH]; intros Hnd Hi.
  { destruct (c_state c); [done | set_solver..]. }
  assert (NoDup (c_id <$> w_children w1)) as Hnd1.
  { by rewrite (sw_ids _ _ (wstep_same _ _ _ Hs)). }
  destruct (c_state c) as [|owner exp|] eqn:Est; [done | |].
  - intros Hl Hrel Hnow.
    assert (~ claims a (c_id c)) as Hna.
    { intros Hcl. destruct (claim_of _ _ _ _ _ Hnd Hs Hi Hcl) as (o & now & d & -> & Hcl').
      unfold claimable in Hcl'. rewrite Est in Hcl'. bool_prop.
      specialize (Hnow _ o now d ltac:(by left)). lia. }
    assert (w_children w1 !! i = Some c) as Hi1.
    { apply (child_kept w a); [done.. |]. intros o Ho e Ec. rewrite Est in Ec. simplify_eq. set_solver. }
    intros b [-> | Hb]%elem_of_cons; [done |].
    apply (IH Hnd1 Hi1); set_solver.
  - assert (~ claims a (c_id c)) as Hna.
    { intros Hcl. destruct (claim_of _ _ _ _ _ Hnd Hs Hi Hcl) as (o & now & d & -> & Hcl').
      unfold claimable in Hcl'. by rewrite Est in Hcl'. }
    assert (w_children w1 !! i = Some c) as Hi1.
    { apply (child_kept w a); [done.. |]. intros. by rewrite Est. }
    intros b [-> | Hb]%elem_of_cons; [done |]. by apply (IH Hnd1 Hi1).
Qed.

(** *** Deadlines and discovery *)

(** The indexed deadline is the wait's deadline rounded up to a millisecond: at that
    millisecond the wait is expired, and one millisecond earlier it is not. *)
Lemma deadline_rounds_up c w ms :
  flow_timeout_deadline_unix_ms c = Ok (Some ms) -> k_wait c = Some w -> 0 <= w_timeout w ->
  f_status (k_state c) = Suspended
  /\ from_millis (ms - 1) < w_created w + w_timeout w <= from_millis ms.
Proof.
  unfold flow_timeout_deadline_unix_ms. intros H Hw Ht. rewrite Hw in H.
  destruct (bool_decide _) eqn:Es; simpl in H; [| done]. bool_prop. split; [done |].
  inv_ok H. unfold ok_or, time_checked_add in Hr. destruct (system_time_ok _); simplify_eq.
  inv_ok Hk. unfold duration_since_epoch in Hr. destruct (Z.leb_spec 0 (w_created w + w_timeout w)); simplify_eq.
  inv_ok Hk0. unfold ok_or in Hr. destruct (checked u128 _) eqn:E; simplify_eq.
  apply checked_Some in E as [-> _].
  inv_ok Hk. unfold ok_or in Hr. destruct (checked u64 _) eqn:E; simplify_eq.
  apply checked_Some in E as [-> _].
  unfold from_millis, as_millis, subsec_nanos, NANOS_PER_MILLI, NANOS_PER_SEC in *.
  set (e := w_created w + w_timeout w) in *.
  assert (e mod 1000000000 mod 1000000 = e mod 1000000) as ->.
  { rewrite (Z.div_mod e 1000000000) at 2 by lia.
    replace (1000000000 * (e / 1000000000) + e mod 1000000000)
      with (e mod 1000000000 + (1000 * (e / 1000000000)) * 1000000) by lia.
    by rewrite Z.mod_add by lia. }
  pose proof (Z.div_mod e 1000000 ltac:(lia)). pose proof (Z.mod_pos_bound e 1000000 ltac:(lia)).
  destruct (Z.eqb_spec (e mod 1000000) 0); lia.
Qed.

Lemma expired_iff w now :
  0 <= w_timeout w -> is_expired_at w now = true <-> w_created w + w_timeout w <= now.
Proof.
  intros Ht. unfold is_expired_at, duration_since. destruct (Z.leb_spec (w_created w) now).
  - rewrite Z.leb_le. lia.
  - split; [done | lia].
Qed.

(** A continuation and its summary answer a query alike. *)
Lemma matches_summary_agrees q c : matches_summary q (from_continuation c) = query_matches q c.
Proof. done. Qed.

(** *** The compensation stack *)

Lemma next_compensation_snoc c l s :
  k_compensations c = l ++ [s] -> next_compensation c = Some s
  /\ forall clock, k_compensations (complete_compensation c clock) = l.
Proof.
  intros E. unfold next_compensation, complete_compensation. simpl. rewrite E, last_snoc.
  split; [done |]. intros _. rewrite length_app. simpl.
  replace (length l + 1 - 1)%nat with (length l) by lia. by rewrite take_app_length.
Qed.

Lemma record_compensation_ok c s clock c' :
  record_compensation c s clock = Ok c' ->
  c' = with_compensations c (k_compensations c ++ [s]) clock
  /\ lenZ (k_compensations c) <> MAX_FLOW_COMPENSATIONS.
Proof. unfold record_compensation. case_match eqn:E; [done |]. intros [= <-]. by bool_prop. Qed.

(** ** Witnesses *)

Definition demo_wait : WaitCondition :=
  mkWait "order" WaitAll 2 [] 0 (from_secs 10)
    [mkChild "a" ChildPending; mkChild "b" ChildPending].

Lemma demo_wait_children :
  for_children "order" WaitAll ["a"; "b"]%string 0 (from_secs 10) = Ok demo_wait.
Proof. by vm_compute. Qed.

Lemma demo_wait_created : wait_created demo_wait.
Proof. by apply (created_children "order" WaitAll ["a"; "b"]%string 0 (from_secs 10)). Qed.

(** Both children report; "a" reports twice and its second report is ignored. *)
Definition demo_acts : list wact :=
  [ARecordSuccess "a" [1]; ARecordSuccess "a" [2]; ARecordSuccess "b" [3]].

Definition demo_full : WaitCondition :=
  record_success (record_success (record_success demo_wait "a" [1]) "a" [2]) "b" [3].

Lemma demo_wait_run : wrun demo_wait demo_acts demo_full.
Proof. repeat (eapply wrun_cons; [constructor |]). constructor. Qed.

Lemma wait_history_witness :
  wait_validate demo_full = Ok tt /\ NoDup (r_child <$> w_results demo_full)
  /\ w_results demo_full = [wait_success "a" [1]; wait_success "b" [3]]
  /\ wait_validate (record_success (WaitCondition_new "order" WaitAll 0 0 (from_secs 10)) "a" [1]) <> Ok tt.
Proof.
  destruct (wait_history _ _ _ demo_wait_created demo_wait_run) as (Hv & Hn & _).
  split_and!; [by apply Hv | done | done |].
  assert (wrun (WaitCondition_new "order" WaitAll 0 0 (from_secs 10)) [ARecordSuccess "a" [1]]
    (record_success (WaitCondition_new "order" WaitAll 0 0 (from_secs 10)) "a" [1])) as Hr
    by (eapply wrun_cons; constructor).
  rewrite (proj1 (wait_history _ _ _ (created_new "order" WaitAll 0 0 (from_secs 10) ltac:(done)) Hr)). simpl. lia.
Defined.

Lemma wait_verdict_exact_witness :
  evaluate_wait demo_full 5 = WaitReady /\ forall id, id ∈ ["a"; "b"]%string -> reported demo_full id true.
Proof.
  pose proof (wait_verdict_exact _ _ _ _ _ _ _ _ 5 demo_wait_children demo_wait_run) as [H _].
  assert (evaluate_wait demo_full 5 = WaitReady) as E by (by vm_compute).
  split; [done | by apply H].
Defined.

Lemma wait_verdict_final_witness :
  evaluate_wait (record_failure demo_full "b" (CatgaError_new Internal "late")) 5 = WaitReady.
Proof.
  rewrite (wait_verdict_final demo_wait demo_acts demo_full
    [ARecordFailure "b" (CatgaError_new Internal "late")] _ 5 demo_wait_created demo_wait_run);
    [by vm_compute | repeat econstructor | by vm_compute | by vm_compute].
Defined.

Definition demo_claimed_wait : WaitCondition :=
  match claim_next_child demo_wait "n1" 0 10 with Some (_, w) => w | None => demo_wait end.

Lemma child_launch_exclusive_witness :
  exists w', wrun demo_claimed_wait [AClaim "b" "n2" 5 10] w' /\ ~ claims (AClaim "b" "n2" 5 10) "a".
Proof.
  assert (exists w', claim_next_child demo_claimed_wait "n2" 5 10 = Some ("b"%string, w'))
    as (w' & Hw) by (eexists; by vm_compute).
  exists w'. assert (wrun demo_claimed_wait [AClaim "b" "n2" 5 10] w') as Hr.
  { eapply wrun_cons; [by constructor | constructor]. }
  split; [done |].
  apply (child_launch_exclusive demo_claimed_wait [AClaim "b" "n2" 5 10] w' 0 (mkChild "a" (ChildClaimed "n1" 10)));
    [| done | done | set_solver | set_solver | | set_solver].
  - apply (bool_decide_eq_true_1 _). by vm_compute.
  - intros ? ? ? ? Hin. apply list_elem_of_singleton in Hin. simplify_eq. lia.
Defined.
