(* ===== verification/SuspendedFlows.v ===== *)
(** * The in-memory store of suspended flows ([memory/suspended_flow.rs],
    [memory/suspended_flow_timeout.rs], [flow/timeout.rs])

    [MemorySuspendedFlows] keeps the continuations, an index from wait correlations to the
    flows that wait on them, and a [DueIndex] of wait deadlines from which expired waits are
    claimed.  Every mutation holds the lock of the due index, so an operation is one step.
    The properties are about every history of the store: both indexes always agree with the
    continuations, and the poll is exact and exclusive. *)

From S2P Require Import Prelude Utf8 Errors Time Flows Suspension BTree Wire.

(** ** The store interface ([flow/suspension_store.rs])

    What a store of continuations promises to the runtime.  [ss_lookup] is what is stored.
    A write reports [Ok true] when it was made and [Ok false] when it was not; after an
    error it may have been made or not. *)

Definition written (before after : string -> option FlowContinuation) (c : FlowContinuation) : Prop :=
  forall j, after j = if decide (j = f_id (k_state c)) then Some c else before j.

Definition unwritten (before after : string -> option FlowContinuation) : Prop :=
  forall j, after j = before j.

Definition write_law (r : CatgaResult bool) (unchanged made : Prop) : Prop :=
  match r with Ok true => made | Ok false => unchanged | Err _ => unchanged \/ made end.

Class SuspendedStoreLaws (S : Type) := {
  ss_wf : S -> Prop;
  ss_lookup : S -> string -> option FlowContinuation;
  ss_create : S -> FlowContinuation -> CatgaResult bool * S;
  ss_get : S -> string -> CatgaResult (option FlowContinuation);
  ss_get_by_wait_correlation : S -> string -> CatgaResult (option FlowContinuation);
  ss_query : S -> FlowQuery -> CatgaResult (list FlowSummary);
  ss_update : S -> Z -> FlowContinuation -> CatgaResult bool * S;
  ss_claim : S -> FlowContinuation -> FlowContinuation -> CatgaResult bool * S;
  ss_record_wait_success : S -> string -> Z -> string -> list Z -> SystemTime -> CatgaResult bool * S;
  ss_record_wait_failure : S -> string -> Z -> string -> CatgaError -> SystemTime -> CatgaResult bool * S;
  ss_heartbeat : S -> string -> string -> Z -> SystemTime -> SystemTime -> CatgaResult bool * S;
  ss_lookup_id s id c : ss_wf s -> ss_lookup s id = Some c -> f_id (k_state c) = id;
  ss_get_law s id o : ss_get s id = Ok o -> o = ss_lookup s id;
  ss_create_law s c : ss_wf s ->
    let '(r, s') := ss_create s c in ss_wf s' /\
    write_law r (unwritten (ss_lookup s) (ss_lookup s'))
      (ss_lookup s (f_id (k_state c)) = None /\ written (ss_lookup s) (ss_lookup s') c);
  ss_update_law s expected next : ss_wf s ->
    let '(r, s') := ss_update s expected next in ss_wf s' /\
    write_law r (unwritten (ss_lookup s) (ss_lookup s'))
      (f_version (k_state next) = expected + 1
       /\ (exists cur, ss_lookup s (f_id (k_state next)) = Some cur /\ f_version (k_state cur) = expected)
       /\ written (ss_lookup s) (ss_lookup s') next);
  ss_claim_law s expected next : ss_wf s ->
    let '(r, s') := ss_claim s expected next in ss_wf s' /\
    write_law r (unwritten (ss_lookup s) (ss_lookup s'))
      (f_version (k_state next) = f_version (k_state expected) + 1
       /\ f_id (k_state next) = f_id (k_state expected)
       /\ ss_lookup s (f_id (k_state next)) = Some expected
       /\ written (ss_lookup s) (ss_lookup s') next);
  ss_record_success_law s id version child payload clock : ss_wf s ->
    let '(r, s') := ss_record_wait_success s id version child payload clock in ss_wf s' /\
    (unwritten (ss_lookup s) (ss_lookup s')
     \/ exists cur w, ss_lookup s id = Some cur /\ f_version (k_state cur) = version
        /\ k_wait cur = Some w
        /\ written (ss_lookup s) (ss_lookup s') (with_wait cur (record_success w child payload) clock));
  ss_record_failure_law s id version child error clock : ss_wf s ->
    let '(r, s') := ss_record_wait_failure s id version child error clock in ss_wf s' /\
    (unwritten (ss_lookup s) (ss_lookup s')
     \/ exists cur w, ss_lookup s id = Some cur /\ f_version (k_state cur) = version
        /\ k_wait cur = Some w
        /\ written (ss_lookup s) (ss_lookup s') (with_wait cur (record_failure w child error) clock));
  ss_heartbeat_law s id owner version clock touched : ss_wf s ->
    let '(r, s') := ss_heartbeat s id owner version clock touched in ss_wf s' /\
    (unwritten (ss_lookup s) (ss_lookup s')
     \/ exists cur, ss_lookup s id = Some cur /\ f_owner (k_state cur) = Some owner
        /\ f_version (k_state cur) = version
        /\ written (ss_lookup s) (ss_lookup s')
             (with_state cur (heartbeated_at (k_state cur) clock) touched))
}.

(** ** Polls and receipts ([flow/timeout.rs]) *)

Definition MAX_FLOW_TIMEOUT_BATCH_SIZE : Z := 256.
Definition MAX_FLOW_TIMEOUT_SCAN_LIMIT : Z := 1024.
Definition DEFAULT_FLOW_TIMEOUT_BATCH_SIZE : nat := 32.
Definition DEFAULT_FLOW_TIMEOUT_SCAN_LIMIT : nat := 128.

Definition validate_bounds (limit scan_limit : nat) : CatgaResult unit :=
  if (limit =? 0)%nat || (scan_limit =? 0)%nat || (scan_limit <? limit)%nat
     || (MAX_FLOW_TIMEOUT_BATCH_SIZE <? Z.of_nat limit)
     || (MAX_FLOW_TIMEOUT_SCAN_LIMIT <? Z.of_nat scan_limit)
  then fail Validation "flow timeout bounds must be positive, ordered, and within supported limits"
  else Ok tt.

Record TimedOutFlowPoll := mkPoll { p_now : SystemTime; p_limit : nat; p_scan : nat }.

Definition TimedOutFlowPoll_new (now : SystemTime) (limit scan_limit : nat)
    : CatgaResult TimedOutFlowPoll :=
  let? _ := validate_bounds limit scan_limit in Ok (mkPoll now limit scan_limit).

Record TimedOutFlowReceipt := mkReceipt { rc_flow : string; rc_token : list Z }.

Record FlowTimeoutOptions := mkTimeoutOptions {
  check_interval : Duration; to_batch_size : nat; to_scan_limit : nat
}.

Definition timeout_options_validate (o : FlowTimeoutOptions) : CatgaResult unit :=
  if check_interval o =? 0 then fail Validation "flow timeout check_interval must be greater than zero"
  else validate_bounds (to_batch_size o) (to_scan_limit o).

Definition FlowTimeoutOptions_new (interval : Duration) (batch scan : nat)
    : CatgaResult FlowTimeoutOptions :=
  let options := mkTimeoutOptions interval batch scan in
  let? _ := timeout_options_validate options in Ok options.

Definition FlowTimeoutOptions_default : FlowTimeoutOptions :=
  mkTimeoutOptions (from_secs 30) DEFAULT_FLOW_TIMEOUT_BATCH_SIZE DEFAULT_FLOW_TIMEOUT_SCAN_LIMIT.

(** ** [DueIndex]

    A [DueKey] is the pair of its deadline and flow, in that order. *)

Record DueIndex := mkDue {
  d_available : gmap tkey Z;
  d_claimed : gmap Z tkey;
  d_by_flow : gmap string (Z * tkey);
  d_next_token : Z
}.

Definition due_default : DueIndex := mkDue ∅ ∅ ∅ 0.

Definition timeout_deadline (c : FlowContinuation) : option SystemTime :=
  match flow_timeout_deadline_unix_ms c with
  | Ok (Some deadline) => time_checked_add 0 (from_millis deadline)
  | _ => None
  end.

Definition due_remove (d : DueIndex) (flow_id : string) : DueIndex :=
  match d_by_flow d !! flow_id with
  | None => d
  | Some (token, key) =>
    let by_flow := delete flow_id (d_by_flow d) in
    match d_claimed d !! token with
    | Some _ => mkDue (d_available d) (delete token (d_claimed d)) by_flow (d_next_token d)
    | None => mkDue (delete key (d_available d)) (d_claimed d) by_flow (d_next_token d)
    end
  end.

Definition due_replace (d : DueIndex) (c : FlowContinuation) : DueIndex :=
  let d := due_remove d (f_id (k_state c)) in
  match timeout_deadline c with
  | None => d
  | Some deadline =>
    let token := Z.max (wrapping u64 (d_next_token d + 1)) 1 in
    let key := (deadline, f_id (k_state c)) in
    mkDue (<[key := token]> (d_available d)) (d_claimed d)
      (<[f_id (k_state c) := (token, key)]> (d_by_flow d)) token
  end.

(** The loop of [poll]; it runs at most [scan_limit] times. *)
Fixpoint poll_loop (fuel : nat) (d : DueIndex) (poll : TimedOutFlowPoll) (inspected : nat)
    (receipts : list TimedOutFlowReceipt) : list TimedOutFlowReceipt * DueIndex :=
  match fuel with
  | O => (receipts, d)
  | S fuel =>
    if (inspected <? p_scan poll)%nat && (length receipts <? p_limit poll)%nat then
      match first_key_value tle (d_available d) with
      | None => (receipts, d)
      | Some (key, token) =>
        if p_now poll <? key.1 then (receipts, d)
        else
          poll_loop fuel
            (mkDue (delete key (d_available d)) (<[token := key]> (d_claimed d)) (d_by_flow d)
               (d_next_token d))
            poll (inspected + 1) (receipts ++ [mkReceipt key.2 (be_bytes 8 token)])
      end
    else (receipts, d)
  end.

Definition due_poll (d : DueIndex) (poll : TimedOutFlowPoll) : list TimedOutFlowReceipt * DueIndex :=
  poll_loop (S (p_scan poll)) d poll 0 [].

Definition due_ack (d : DueIndex) (token : Z) : DueIndex :=
  match d_claimed d !! token with
  | None => d
  | Some key =>
    mkDue (d_available d) (delete token (d_claimed d)) (delete key.2 (d_by_flow d)) (d_next_token d)
  end.

Definition due_release (d : DueIndex) (token : Z) (c : option FlowContinuation) : DueIndex :=
  match d_claimed d !! token with
  | None => d
  | Some key =>
    let current_matches := match c with
      | Some c => bool_decide (f_id (k_state c) = key.2)
                  && bool_decide (timeout_deadline c = Some key.1)
      | None => false
      end in
    let same_token := match d_by_flow d !! key.2 with
      | Some (current_token, _) => current_token =? token
      | None => false
      end in
    if current_matches && same_token
    then mkDue (<[key := token]> (d_available d)) (delete token (d_claimed d)) (d_by_flow d)
           (d_next_token d)
    else mkDue (d_available d) (delete token (d_claimed d)) (delete key.2 (d_by_flow d))
           (d_next_token d)
  end.

Definition receipt_token (r : TimedOutFlowReceipt) : option Z :=
  if (length (rc_token r) =? 8)%nat then Some (be_value (rc_token r)) else None.

(** *** The due index is consistent

    Every indexed flow is either available or claimed under its token, and nothing else is. *)

Record due_inv (d : DueIndex) : Prop := {
  di_flow f t k : d_by_flow d !! f = Some (t, k) ->
    k.2 = f /\ 1 <= t <= d_next_token d
    /\ ((d_available d !! k = Some t /\ d_claimed d !! t = None)
        \/ (d_claimed d !! t = Some k /\ d_available d !! k = None));
  di_available k t : d_available d !! k = Some t -> d_by_flow d !! k.2 = Some (t, k);
  di_claimed t k : d_claimed d !! t = Some k -> d_by_flow d !! k.2 = Some (t, k);
  di_tokens f f' t k k' :
    d_by_flow d !! f = Some (t, k) -> d_by_flow d !! f' = Some (t, k') -> f = f';
  di_next : 0 <= d_next_token d <= int_max u64
}.

Lemma due_default_inv : due_inv due_default.
Proof. by split. Qed.

Lemma due_remove_inv d f :
  due_inv d -> due_inv (due_remove d f)
    /\ d_by_flow (due_remove d f) = delete f (d_by_flow d)
    /\ d_next_token (due_remove d f) = d_next_token d.
Proof.
  intros [Hf Ha Hc Ht Hn]. unfold due_remove. destruct (d_by_flow d !! f) as [[t k]|] eqn:E.
  2: { rewrite delete_id by done. by split_and!. }
  destruct (Hf _ _ _ E) as (Hk & Hr & Hor).
  destruct (d_claimed d !! t) as [k'|] eqn:Ec.
  - destruct Hor as [[_ ?]|[[= ->] Hav]]; [done |]. split_and!; try done. split; simpl; try done.
    + intros f' t' k'. rewrite lookup_delete_Some. intros [Hne H']. destruct (Hf _ _ _ H') as (? & ? & Hor).
      split_and!; try lia; [done |]. destruct (decide (t' = t)) as [->|]; [by destruct (Ht f' f t k' k H' E) |].
      by rewrite !(lookup_delete_ne (d_claimed d)) by done.
    + intros k' t' H'. rewrite lookup_delete_ne; [by apply Ha |]. intros E'.
      pose proof (Ha _ _ H') as H1. rewrite <-E', E in H1. congruence.
    + intros t' k'. rewrite lookup_delete_Some. intros [Hne H']. apply Hc in H'.
      rewrite lookup_delete_ne; [done |]. intros E'. rewrite <-E', E in H'. congruence.
    + intros f1 f2 t' k1 k2. rewrite !lookup_delete_Some. intros [_ H1] [_ H2]. eauto.
  - destruct Hor as [[Hav _]|[? _]]; [| done]. split_and!; try done. split; simpl; try done.
    + intros f' t' k'. rewrite lookup_delete_Some. intros [Hne H']. destruct (Hf _ _ _ H') as (? & ? & Hor).
      split_and!; try lia; [done |]. rewrite !(lookup_delete_ne (d_available d)); [done |].
      intros ->. congruence.
    + intros k' t'. rewrite lookup_delete_Some. intros [Hne H']. apply Ha in H'.
      rewrite lookup_delete_ne; [done |]. intros E'. rewrite <-E', E in H'. congruence.
    + intros t' k' H'. rewrite lookup_delete_ne; [by apply Hc |]. intros E'. pose proof (Hc _ _ H') as H1.
      rewrite <-E', E in H1. congruence.
    + intros f1 f2 t' k1 k2. rewrite !lookup_delete_Some. intros [_ H1] [_ H2]. eauto.
Qed.

Lemma next_token_step n :
  0 <= n < int_max u64 -> Z.max (wrapping u64 (n + 1)) 1 = n + 1.
Proof. intros Hn. rewrite wrapping_id; [lia | done |]. int_bounds. lia. Qed.

Lemma due_replace_inv d c :
  due_inv d -> d_next_token d < int_max u64 ->
  due_inv (due_replace d c)
  /\ d_next_token d <= d_next_token (due_replace d c) <= d_next_token d + 1
  /\ match timeout_deadline c with
     | None => d_by_flow (due_replace d c) = delete (f_id (k_state c)) (d_by_flow d)
     | Some dl => d_by_flow (due_replace d c)
                  = <[f_id (k_state c) := (d_next_token d + 1, (dl, f_id (k_state c)))]> (d_by_flow d)
         /\ d_available (due_replace d c) !! (dl, f_id (k_state c)) = Some (d_next_token d + 1)
     end.
Proof.
  intros Hd Hlt. destruct (due_remove_inv d (f_id (k_state c)) Hd) as (Hi & Hb & Hn).
  unfold due_replace. set (f := f_id (k_state c)) in *. set (d' := due_remove d f) in *.
  destruct (timeout_deadline c) as [dl|]; simpl; [| rewrite Hn; split_and!; try done; lia].
  pose proof (di_next _ Hd) as Hnn. rewrite Hn, next_token_step by lia.
  destruct Hi as [Hf Ha Hc Ht Hnx].
  assert (d_by_flow d' !! f = None) as Hfresh by (rewrite Hb; apply lookup_delete_eq).
  split_and!; try lia; [| | by apply lookup_insert_eq].
  2: { rewrite Hb. apply insert_delete_eq. }
  split; simpl.
  - intros g t k. rewrite lookup_insert_Some. intros [[<- [= <- <-]]|[Hne Hg]].
    + split_and!; [done | lia | lia |]. left. split; [apply lookup_insert_eq |].
      destruct (d_claimed d' !! _) as [k|] eqn:E; [| done]. apply Hc, Hf in E as (_ & E & _). lia.
    + destruct (Hf _ _ _ Hg) as (Hk & Hr & Hor). split_and!; [done | lia | lia |].
      rewrite lookup_insert_ne; [done |]. intros <-. by apply Hne.
  - intros k t. rewrite lookup_insert_Some. intros [[<- <-]|[Hne Hk]]; [apply lookup_insert_eq |].
    apply Ha in Hk. rewrite lookup_insert_ne; [done |]. intros E. rewrite <-E in Hk. congruence.
  - intros t k Hk. apply Hc in Hk. rewrite lookup_insert_ne; [done |].
    intros E. rewrite <-E in Hk. congruence.
  - intros g g' t k k'. rewrite !lookup_insert_Some.
    intros [[<- E1]|[Hne Hg]] [[<- E2]|[Hne' Hg']]; simplify_eq; try done.
    + apply Hf in Hg' as (_ & ? & _). lia.
    + apply Hf in Hg as (_ & ? & _). lia.
    + eauto.
  - lia.
Qed.

Lemma due_claim_inv d key token :
  due_inv d -> d_available d !! key = Some token ->
  due_inv (mkDue (delete key (d_available d)) (<[token := key]> (d_claimed d)) (d_by_flow d)
             (d_next_token d)).
Proof.
  intros [Hf Ha Hc Ht Hn] E. pose proof (Ha _ _ E) as Eb. destruct (Hf _ _ _ Eb) as (_ & _ & Hor).
  assert (d_claimed d !! token = None) as Ecl by naive_solver. split; simpl; try done.
  - intros f t k Hk. destruct (Hf _ _ _ Hk) as (Hk2 & Hr & Hor'). split_and!; try (done || lia).
    destruct (decide (t = token)) as [->|Hne].
    + assert (f = key.2) as -> by eauto. assert (k = key) as -> by congruence. right.
      by rewrite lookup_insert_eq, lookup_delete_eq.
    + rewrite lookup_insert_ne, lookup_delete_ne by (done || (intros ->; congruence)). done.
  - intros k t. rewrite lookup_delete_Some. intros [_ ?]. auto.
  - intros t k. rewrite lookup_insert_Some. intros [[<- <-]|[_ ?]]; auto.
Qed.

Lemma due_ack_inv d token :
  due_inv d -> due_inv (due_ack d token) /\ d_next_token (due_ack d token) = d_next_token d
    /\ (forall f x, d_by_flow (due_ack d token) !! f = Some x -> d_by_flow d !! f = Some x).
Proof.
  intros Hd. unfold due_ack. destruct (d_claimed d !! token) as [k|] eqn:E; [| done].
  pose proof (di_claimed _ Hd _ _ E) as Hb. destruct (due_remove_inv d k.2 Hd) as (Hi & Hb' & Hn).
  unfold due_remove in Hi, Hb'. rewrite Hb, E in Hi, Hb'. split_and!; try done. simpl.
  intros f x. rewrite lookup_delete_Some. naive_solver.
Qed.

Lemma due_release_inv d token c :
  due_inv d -> due_inv (due_release d token c) /\ d_next_token (due_release d token c) = d_next_token d
    /\ (forall f x, d_by_flow (due_release d token c) !! f = Some x -> d_by_flow d !! f = Some x).
Proof.
  intros Hd. pose proof (due_ack_inv d token Hd) as Hack. unfold due_release, due_ack in *.
  destruct (d_claimed d !! token) as [k|] eqn:E; [| done].
  destruct (_ && _); [| done]. split_and!; try done. clear Hack. destruct Hd as [Hf Ha Hc Ht Hn].
  pose proof (Hc _ _ E) as Eb. destruct (Hf _ _ _ Eb) as (_ & _ & Hor).
  assert (d_available d !! k = None) as Eav by naive_solver. split; simpl; try done.
  - intros f t k' Hk. destruct (Hf _ _ _ Hk) as (Hk2 & Hr & Hor'). split_and!; try (done || lia).
    destruct (decide (t = token)) as [->|Hne].
    + assert (f = k.2) as -> by eauto. assert (k' = k) as -> by congruence. left.
      by rewrite lookup_insert_eq, lookup_delete_eq.
    + rewrite lookup_insert_ne, lookup_delete_ne by (done || (intros ->; congruence)). done.
  - intros k' t. rewrite lookup_insert_Some. intros [[<- <-]|[_ ?]]; auto.
  - intros t k'. rewrite lookup_delete_Some. intros [_ ?]; auto.
Qed.

(** *** Polls

    The entries that are due, earliest deadline first *)
Definition due_now (d : DueIndex) (now : SystemTime) : list (tkey * Z) :=
  filter (fun e => e.1.1 <= now) (entries tle (d_available d)).

Definition entry_receipt (e : tkey * Z) : TimedOutFlowReceipt := mkReceipt e.1.2 (be_bytes 8 e.2).

(** [d'] is [d] with the entries [l] claimed. *)
Record claims_entries (d d' : DueIndex) (l : list (tkey * Z)) : Prop := {
  ce_available k : d_available d' !! k = if decide (k ∈ l.*1) then None else d_available d !! k;
  ce_claimed t k : d_claimed d' !! t = Some k <-> (k, t) ∈ l \/ d_claimed d !! t = Some k;
  ce_flow : d_by_flow d' = d_by_flow d;
  ce_next : d_next_token d' = d_next_token d
}.

Lemma claims_entries_nil d : claims_entries d d [].
Proof. split; [| set_solver | done..]. intros k. by rewrite decide_False by set_solver. Qed.

Lemma claims_entries_cons d k t d' l :
  due_inv d -> d_available d !! k = Some t ->
  claims_entries (mkDue (delete k (d_available d)) (<[t := k]> (d_claimed d)) (d_by_flow d)
                    (d_next_token d)) d' l ->
  claims_entries d d' ((k, t) :: l).
Proof.
  intros Hd Hk [Ha Hc Hf Hn]. simpl in *. split; try done.
  - intros k'. rewrite Ha. destruct (decide (k' ∈ l.*1)).
    + by rewrite decide_True by set_solver.
    + destruct (decide (k' = k)) as [->|]; [by rewrite decide_True, lookup_delete_eq by set_solver |].
      by rewrite decide_False, lookup_delete_ne by set_solver.
  - intros t' k'. rewrite Hc, lookup_insert_Some, elem_of_cons.
    assert (d_claimed d !! t = None).
    { destruct (di_flow _ Hd _ _ _ (di_available _ Hd _ _ Hk)) as (_ & _ & [[_ ?]|[_ ?]]); congruence. }
    split; [naive_solver |]. intros [[[= -> ->]|?]|?]; auto. right. right. split; congruence.
Qed.

Lemma due_now_first d now k t :
  first_key_value tle (d_available d) = Some (k, t) ->
  due_now d now = if decide (k.1 <= now)
    then (k, t) :: filter (fun e => e.1.1 <= now) (entries tle (delete k (d_available d))) else [].
Proof.
  intros H. destruct (first_key_value_Some tle _ _ _ H) as (_ & E & Hmin). unfold due_now. rewrite E, filter_cons. simpl.
  destruct (decide (k.1 <= now)); [done |]. apply filter_none. intros [k' t'] Hin%elem_of_entries. simpl.
  rewrite lookup_delete_Some in Hin. destruct Hin as [_ Hin].
  destruct (Hmin k' ltac:(eauto)) as [?|[? _]]; lia.
Qed.

Lemma poll_loop_spec fuel poll d inspected receipts :
  due_inv d ->
  (Nat.min (p_limit poll - length receipts) (p_scan poll - inspected) <= fuel)%nat ->
  let l := take (Nat.min (p_limit poll - length receipts) (p_scan poll - inspected))
             (due_now d (p_now poll)) in
  exists d', poll_loop fuel d poll inspected receipts = (receipts ++ (entry_receipt <$> l), d')
    /\ due_inv d' /\ claims_entries d d' l.
Proof.
  revert d inspected receipts. induction fuel as [|fuel IH]; intros d inspected receipts Hd Hfuel; simpl.
  { replace (Nat.min _ _) with 0%nat by lia. simpl. rewrite app_nil_r. eauto using claims_entries_nil. }
  destruct (Nat.ltb_spec inspected (p_scan poll)), (Nat.ltb_spec (length receipts) (p_limit poll)); simpl.
  2-4: replace (Nat.min _ _) with 0%nat by lia; simpl; rewrite app_nil_r; eauto using claims_entries_nil.
  destruct (first_key_value _ _) as [[k t]|] eqn:E.
  - rewrite (due_now_first _ _ _ _ E). pose proof (first_key_value_Some tle _ _ _ E) as (Hk & _ & _).
    destruct (Z.ltb_spec (p_now poll) k.1) as [|Hle].
    { rewrite decide_False, take_nil by lia. simpl. rewrite app_nil_r. eauto using claims_entries_nil. }
    rewrite decide_True by done.
    replace (Nat.min _ _) with (S (Nat.min (p_limit poll - length (receipts ++ [mkReceipt k.2 (be_bytes 8 t)]))
      (p_scan poll - (inspected + 1)))) by (rewrite length_app; simpl; lia).
    destruct (IH _ (inspected + 1)%nat (receipts ++ [mkReceipt k.2 (be_bytes 8 t)])
      (due_claim_inv _ _ _ Hd Hk)) as (d' & Heq & Hd' & Hce).
    { rewrite length_app. simpl. lia. }
    exists d'. rewrite Heq, <-app_assoc. split_and!; [done | done |]. by apply claims_entries_cons.
  - assert (due_now d (p_now poll) = []) as ->.
    { unfold due_now. apply first_key_value_None in E. rewrite E. done. }
    rewrite take_nil. simpl. rewrite app_nil_r. eauto using claims_entries_nil.
Qed.

Lemma due_poll_spec d poll :
  due_inv d ->
  let l := take (Nat.min (p_limit poll) (p_scan poll)) (due_now d (p_now poll)) in
  exists d', due_poll d poll = (entry_receipt <$> l, d') /\ due_inv d' /\ claims_entries d d' l.
Proof.
  intros Hd. destruct (poll_loop_spec (S (p_scan poll)) poll d 0 [] Hd) as (d' & H); [lia |].
  simpl length in H. rewrite !Nat.sub_0_r in H. exists d'. exact H.
Qed.

(** ** The store *)

Section store.
Context `{!MapIter string}.

Record MemorySuspendedFlows := mkSuspended {
  continuations : gmap string FlowContinuation;
  wait_correlations : gmap string (list string);
  due : DueIndex
}.

Definition suspended_default : MemorySuspendedFlows := mkSuspended ∅ ∅ due_default.

Definition index_wait_correlation (wc : gmap string (list string)) (c : FlowContinuation)
    : gmap string (list string) :=
  match k_wait c with
  | None => wc
  | Some wait =>
    match wc !! w_correlation wait with
    | None => <[w_correlation wait := [f_id (k_state c)]]> wc
    | Some ids =>
      if existsb (fun flow_id => bool_decide (flow_id = f_id (k_state c))) ids then wc
      else <[w_correlation wait := ids ++ [f_id (k_state c)]]> wc
    end
  end.

Definition remove_wait_correlation (wc : gmap string (list string)) (c : FlowContinuation)
    : gmap string (list string) :=
  match k_wait c with
  | None => wc
  | Some wait =>
    match wc !! w_correlation wait with
    | None => wc
    | Some existing =>
      let existing := filter (fun flow_id => flow_id <> f_id (k_state c)) existing in
      if (length existing =? 0)%nat then delete (w_correlation wait) wc
      else <[w_correlation wait := existing]> wc
    end
  end.

(** [previous.wait().is_some_and(|wait| next.wait().is_some_and(..))] *)
Definition same_correlation (previous next : FlowContinuation) : bool :=
  match k_wait previous, k_wait next with
  | Some wait, Some next => bool_decide (w_correlation next = w_correlation wait)
  | _, _ => false
  end.

Definition commit_wait_correlation (wc : gmap string (list string)) (previous next : FlowContinuation)
    : gmap string (list string) :=
  if same_correlation previous next then wc
  else index_wait_correlation (remove_wait_correlation wc previous) next.

(** [slot.replace] followed by the index updates *)
Definition commit (s : MemorySuspendedFlows) (id : string) (current next : FlowContinuation)
    : MemorySuspendedFlows :=
  mkSuspended (<[id := next]> (continuations s))
    (commit_wait_correlation (wait_correlations s) current next) (due_replace (due s) next).

Definition susp_create (s : MemorySuspendedFlows) (c : FlowContinuation)
    : CatgaResult bool * MemorySuspendedFlows :=
  match continuation_validate c with
  | Err e => (Err e, s)
  | Ok _ =>
    match continuations s !! f_id (k_state c) with
    | Some _ => (Ok false, s)
    | None => (Ok true,
        mkSuspended (<[f_id (k_state c) := c]> (continuations s))
          (index_wait_correlation (wait_correlations s) c) (due_replace (due s) c))
    end
  end.

Definition susp_get (s : MemorySuspendedFlows) (flow_id : string)
    : CatgaResult (option FlowContinuation) :=
  match continuations s !! flow_id with
  | None => Ok None
  | Some c => let? _ := continuation_validate c in Ok (Some c)
  end.

Definition get_by_wait_correlation (s : MemorySuspendedFlows) (correlation_id : string)
    : CatgaResult (option FlowContinuation) :=
  match wait_correlations s !! correlation_id with
  | None => Ok None
  | Some flow_ids =>
    match flow_ids with
    | [flow_id] =>
      match continuations s !! flow_id with
      | None => Ok None
      | Some c =>
        let? _ := continuation_validate c in
        Ok (match k_wait c with
            | Some wait => if bool_decide (w_correlation wait = correlation_id) then Some c else None
            | None => None
            end)
      end
    | _ => fail Conflict "flow wait correlation identifies multiple active flows"
    end
  end.

(** The loop of [query] over the inspected continuations *)
Fixpoint query_loop (q : FlowQuery) (cs : list (string * FlowContinuation))
    (summaries : list FlowSummary) : list FlowSummary :=
  match cs with
  | [] => summaries
  | (_, c) :: cs =>
    if query_matches q c then
      let summaries := summaries ++ [from_continuation c] in
      if (length summaries =? q_max_results q)%nat then summaries else query_loop q cs summaries
    else query_loop q cs summaries
  end.

Definition susp_query (s : MemorySuspendedFlows) (q : FlowQuery) : CatgaResult (list FlowSummary) :=
  Ok (query_loop q (take (q_max_scan q) (iter (continuations s))) []).

Definition susp_delete (s : MemorySuspendedFlows) (flow_id : string) (expected_version : Z)
    : CatgaResult bool * MemorySuspendedFlows :=
  match continuations s !! flow_id with
  | None => (Ok false, s)
  | Some current =>
    if negb (f_version (k_state current) =? expected_version) then (Ok false, s)
    else (Ok true,
      mkSuspended (delete flow_id (continuations s))
        (remove_wait_correlation (wait_correlations s) current) (due_remove (due s) flow_id))
  end.

Definition susp_update (s : MemorySuspendedFlows) (expected_version : Z) (next : FlowContinuation)
    : CatgaResult bool * MemorySuspendedFlows :=
  if negb (is_next_version expected_version (f_version (k_state next))) then (Ok false, s)
  else
    match continuation_validate next with
    | Err e => (Err e, s)
    | Ok _ =>
      match continuations s !! f_id (k_state next) with
      | None => (Ok false, s)
      | Some current =>
        if negb (f_version (k_state current) =? expected_version) then (Ok false, s)
        else (Ok true, commit s (f_id (k_state next)) current next)
      end
    end.

Definition susp_claim (s : MemorySuspendedFlows) (expected next : FlowContinuation)
    : CatgaResult bool * MemorySuspendedFlows :=
  if negb (bool_decide (f_id (k_state next) = f_id (k_state expected)))
     || negb (is_next_version (f_version (k_state expected)) (f_version (k_state next)))
  then (Ok false, s)
  else
    match continuation_validate next with
    | Err e => (Err e, s)
    | Ok _ =>
      match continuations s !! f_id (k_state expected) with
      | None => (Ok false, s)
      | Some current =>
        if negb (bool_decide (current = expected)) then (Ok false, s)
        else (Ok true, commit s (f_id (k_state expected)) current next)
      end
    end.

(** The two recording operations after the slot is found *)
Definition record_wait (s : MemorySuspendedFlows) (flow_id : string) (version : Z)
    (record : WaitCondition -> WaitCondition) (clock : SystemTime)
    : CatgaResult bool * MemorySuspendedFlows :=
  match continuations s !! flow_id with
  | None => (Ok false, s)
  | Some current =>
    if negb (f_version (k_state current) =? version) then (Ok false, s)
    else
      match k_wait current with
      | None => (Ok false, s)
      | Some wait =>
        let next_wait := record wait in
        if completed_count next_wait =? completed_count wait then (Ok true, s)
        else (Ok true, commit s flow_id current (with_wait current next_wait clock))
      end
  end.

Definition susp_record_wait_success (s : MemorySuspendedFlows) (flow_id : string) (version : Z)
    (child_id : string) (payload : list Z) (clock : SystemTime) :=
  record_wait s flow_id version (fun wait => record_success wait child_id payload) clock.

Definition susp_record_wait_failure (s : MemorySuspendedFlows) (flow_id : string) (version : Z)
    (child_id : string) (error : CatgaError) (clock : SystemTime) :=
  record_wait s flow_id version (fun wait => record_failure wait child_id error) clock.

Definition susp_heartbeat (s : MemorySuspendedFlows) (flow_id owner : string) (version : Z)
    (clock touched : SystemTime) : CatgaResult bool * MemorySuspendedFlows :=
  match continuations s !! flow_id with
  | None => (Ok false, s)
  | Some current =>
    if negb (bool_decide (f_owner (k_state current) = Some owner))
       || negb (f_version (k_state current) =? version)
    then (Ok false, s)
    else (Ok true,
      commit s flow_id current (with_state current (heartbeated_at (k_state current) clock) touched))
  end.

Definition set_due (s : MemorySuspendedFlows) (d : DueIndex) : MemorySuspendedFlows :=
  mkSuspended (continuations s) (wait_correlations s) d.

Definition poll_timed_out (s : MemorySuspendedFlows) (poll : TimedOutFlowPoll)
    : CatgaResult (list TimedOutFlowReceipt) * MemorySuspendedFlows :=
  let '(receipts, d) := due_poll (due s) poll in (Ok receipts, set_due s d).

Definition ack_timed_out (s : MemorySuspendedFlows) (r : TimedOutFlowReceipt)
    : CatgaResult unit * MemorySuspendedFlows :=
  match receipt_token r with
  | None => (fail Validation "memory timeout receipt is invalid", s)
  | Some token => (Ok tt, set_due s (due_ack (due s) token))
  end.

Definition release_timed_out (s : MemorySuspendedFlows) (r : TimedOutFlowReceipt)
    : CatgaResult unit * MemorySuspendedFlows :=
  match receipt_token r with
  | None => (fail Validation "memory timeout receipt is invalid", s)
  | Some token =>
    (Ok tt, set_due s (due_release (due s) token (continuations s !! rc_flow r)))
  end.

(** *** The correlation index

    [g] says on which correlation a flow waits. *)

Definition correlation_of (c : FlowContinuation) : option string := w_correlation <$> k_wait c.

Record wc_ok (wc : gmap string (list string)) (g : string -> option string) : Prop := {
  wc_ids corr ids : wc !! corr = Some ids -> ids <> [] /\ NoDup ids;
  wc_exact corr id : id ∈ default [] (wc !! corr) <-> g id = Some corr
}.

Definition fset (g : string -> option string) (id : string) (o : option string) : string -> option string :=
  fun j => if decide (j = id) then o else g j.

Lemma wc_ok_ext wc g g' : (forall id, g id = g' id) -> wc_ok wc g -> wc_ok wc g'.
Proof. intros E [H1 H2]. split; [done |]. intros corr id. by rewrite H2, E. Qed.

Lemma index_wait_eq wc c w :
  k_wait c = Some w -> f_id (k_state c) ∉ default [] (wc !! w_correlation w) ->
  index_wait_correlation wc c
  = <[w_correlation w := default [] (wc !! w_correlation w) ++ [f_id (k_state c)]]> wc.
Proof.
  intros Hw Hno. unfold index_wait_correlation. rewrite Hw.
  destruct (wc !! w_correlation w) as [ids|]; simpl in *; [| done].
  destruct (existsb _ _) eqn:Ex; [| done]. exfalso. apply Hno.
  pose proof (existsb_bool_decide (fun f : string => f) (f_id (k_state c)) ids) as Hb.
  rewrite list_fmap_id in Hb. by apply Hb.
Qed.

Lemma index_wait_ok wc g c :
  wc_ok wc g -> g (f_id (k_state c)) = None ->
  wc_ok (index_wait_correlation wc c) (fset g (f_id (k_state c)) (correlation_of c)).
Proof.
  intros [Hi Hx] Hg. set (id := f_id (k_state c)) in *. unfold correlation_of.
  destruct (k_wait c) as [w|] eqn:Ew; simpl.
  2: { unfold index_wait_correlation. rewrite Ew. apply (wc_ok_ext _ g); [| by split]. intros j. unfold fset. by case_decide; subst. }
  assert (forall corr, id ∉ default [] (wc !! corr)) as Hno by (intros corr ?%Hx; congruence).
  rewrite (index_wait_eq wc c w) by done. fold id.
  split.
  - intros corr ids. rewrite lookup_insert_Some. intros [[<- <-]|[_ ?]]; [| by eauto].
    split; [by destruct (default _ _) |]. rewrite NoDup_app. split_and!; [| | apply NoDup_singleton].
    + destruct (wc !! w_correlation w) as [ids|] eqn:E; simpl; [by apply (Hi _ _ E) | constructor].
    + intros x Hx' ->%list_elem_of_singleton. by apply (Hno (w_correlation w)).
  - intros corr j. unfold fset. destruct (decide (corr = w_correlation w)) as [->|Hne].
    + rewrite lookup_insert_eq. simpl. rewrite elem_of_app, Hx, list_elem_of_singleton.
      destruct (decide (j = id)) as [->|]; naive_solver.
    + rewrite lookup_insert_ne by done. rewrite Hx. destruct (decide (j = id)) as [->|]; [| done].
      naive_solver.
Qed.

Lemma remove_wait_ok wc g c :
  wc_ok wc g -> g (f_id (k_state c)) = correlation_of c ->
  wc_ok (remove_wait_correlation wc c) (fset g (f_id (k_state c)) None).
Proof.
  intros [Hi Hx] Hg. set (id := f_id (k_state c)) in *. unfold remove_wait_correlation, correlation_of in *.
  destruct (k_wait c) as [w|]; simpl in Hg.
  2: { apply (wc_ok_ext _ g); [| by split]. intros j. unfold fset. by case_decide; subst. }
  assert (id ∈ default [] (wc !! w_correlation w)) as Hin by by apply Hx.
  destruct (wc !! w_correlation w) as [ids|] eqn:E; simpl in Hin; [| set_solver].
  destruct (Hi _ _ E) as [_ Hnd].
  assert (forall corr, corr <> w_correlation w -> forall j,
            j ∈ default [] (wc !! corr) <-> fset g id None j = Some corr) as Hother.
  { intros corr Hne j. rewrite Hx. unfold fset. destruct (decide (j = id)) as [->|]; [| done]. naive_solver. }
  assert (forall j, j ∈ filter (fun f => f <> id) ids <-> fset g id None j = Some (w_correlation w)) as Hsame.
  { intros j. rewrite list_elem_of_filter. specialize (Hx (w_correlation w) j). rewrite E in Hx. simpl in Hx.
    unfold fset. destruct (decide (j = id)); naive_solver. }
  destruct (length (filter _ ids) =? 0)%nat eqn:El.
  - apply Nat.eqb_eq, length_zero_iff_nil in El. fold id in El. rewrite El in Hsame. split.
    + intros corr l. rewrite lookup_delete_Some. intros [_ ?]; eauto.
    + intros corr j. destruct (decide (corr = w_correlation w)) as [->|Hne].
      * rewrite lookup_delete_eq. simpl. apply Hsame.
      * rewrite lookup_delete_ne by done. by apply Hother.
  - apply Nat.eqb_neq in El. split.
    + intros corr l. rewrite lookup_insert_Some. intros [[<- <-]|[_ ?]]; [| by eauto].
      split; [by intros E'; rewrite E' in El | by apply NoDup_filter].
    + intros corr j. destruct (decide (corr = w_correlation w)) as [->|Hne].
      * rewrite lookup_insert_eq. simpl. apply Hsame.
      * rewrite lookup_insert_ne by done. by apply Hother.
Qed.

Lemma commit_wait_ok wc g previous next :
  wc_ok wc g -> f_id (k_state next) = f_id (k_state previous) ->
  g (f_id (k_state previous)) = correlation_of previous ->
  wc_ok (commit_wait_correlation wc previous next)
    (fset g (f_id (k_state previous)) (correlation_of next)).
Proof.
  intros Hw Hid Hg. unfold commit_wait_correlation. destruct (same_correlation previous next) eqn:E.
  - apply (wc_ok_ext _ g); [| done]. intros j. unfold fset. destruct (decide (j = _)) as [->|]; [| done].
    rewrite Hg. unfold same_correlation, correlation_of in *.
    destruct (k_wait previous), (k_wait next); try done.
    bool_prop. simpl. congruence.
  - apply (wc_ok_ext _ (fset (fset g (f_id (k_state previous)) None) (f_id (k_state next)) (correlation_of next))).
    + intros j. unfold fset. rewrite Hid. by case_decide.
    + apply index_wait_ok; [by apply remove_wait_ok |]. unfold fset. by rewrite Hid, decide_True.
Qed.

(** *** Well-formed stores *)

Record susp_inv (s : MemorySuspendedFlows) : Prop := {
  si_key id c : continuations s !! id = Some c -> f_id (k_state c) = id;
  si_valid id c : continuations s !! id = Some c -> continuation_validate c = Ok tt;
  si_wait : wc_ok (wait_correlations s) (fun id => continuations s !! id ≫= correlation_of);
  si_due : due_inv (due s);
  si_deadline id t k : d_by_flow (due s) !! id = Some (t, k) ->
    exists c, continuations s !! id = Some c /\ timeout_deadline c = Some k.1
}.

Lemma suspended_default_inv : susp_inv suspended_default.
Proof.
  split; try done. split; [done |]. intros corr id. simpl. rewrite !lookup_empty. simpl. set_solver.
Qed.

(** What a write does to the due index *)
Lemma due_replace_flow d c id t k :
  due_inv d -> d_next_token d < int_max u64 ->
  d_by_flow (due_replace d c) !! id = Some (t, k) ->
  if decide (id = f_id (k_state c)) then timeout_deadline c = Some k.1
  else d_by_flow d !! id = Some (t, k).
Proof.
  intros Hd Hlt. destruct (due_replace_inv d c Hd Hlt) as (_ & _ & Hm).
  destruct (timeout_deadline c) as [dl|]; [destruct Hm as [-> _] | rewrite Hm];
    case_decide as E; [subst id | | subst id |].
  - rewrite lookup_insert_eq. naive_solver.
  - by rewrite lookup_insert_ne.
  - by rewrite lookup_delete_eq.
  - by rewrite lookup_delete_ne.
Qed.

Lemma commit_inv s id current next :
  susp_inv s -> d_next_token (due s) < int_max u64 -> continuations s !! id = Some current ->
  f_id (k_state next) = id -> continuation_validate next = Ok tt ->
  susp_inv (commit s id current next)
  /\ d_next_token (due (commit s id current next)) <= d_next_token (due s) + 1.
Proof.
  intros [Hk Hv Hw Hd Hl] Hlt Hc Hid Hval. pose proof (Hk _ _ Hc) as Hidc.
  destruct (due_replace_inv (due s) next Hd Hlt) as (Hd' & Hn & _).
  split; [| simpl; lia]. split; simpl; try done.
  - intros j c. rewrite lookup_insert_Some. intros [[<- <-]|[_ ?]]; eauto.
  - intros j c. rewrite lookup_insert_Some. intros [[<- <-]|[_ ?]]; eauto.
  - eapply wc_ok_ext; [| apply (commit_wait_ok _ _ current next Hw); [congruence |]].
    + intros j. unfold fset. simpl. rewrite Hidc. case_decide as E; [subst j; by rewrite lookup_insert_eq |].
      by rewrite lookup_insert_ne.
    + simpl. by rewrite Hidc, Hc.
  - intros j t k H. apply due_replace_flow in H; [| done..]. rewrite Hid in H.
    case_decide as E; [subst j; exists next; by rewrite lookup_insert_eq |].
    rewrite lookup_insert_ne by done. eauto.
Qed.

Lemma susp_create_inv s c r s' :
  susp_inv s -> d_next_token (due s) < int_max u64 -> susp_create s c = (r, s') ->
  susp_inv s' /\ d_next_token (due s') <= d_next_token (due s) + 1.
Proof.
  intros Hs Hlt. unfold susp_create. destruct (continuation_validate c) as [[]|] eqn:Ev;
    [| intros [= <- <-]; split; [done | lia]].
  destruct (continuations s !! f_id (k_state c)) as [x|] eqn:E; intros [= <- <-]; [split; [done | lia] |].
  destruct Hs as [Hk Hv Hw Hd Hl]. destruct (due_replace_inv (due s) c Hd Hlt) as (Hd' & Hn & _).
  split; [| simpl; lia]. split; simpl; try done.
  - intros j x. rewrite lookup_insert_Some. intros [[<- <-]|[_ ?]]; eauto.
  - intros j x. rewrite lookup_insert_Some. intros [[<- <-]|[_ ?]]; eauto.
  - eapply wc_ok_ext; [| apply (index_wait_ok _ _ c Hw)].
    + intros j. unfold fset. simpl. case_decide as Ej; [subst j; by rewrite lookup_insert_eq |].
      by rewrite lookup_insert_ne.
    + simpl. by rewrite E.
  - intros j t k H. apply due_replace_flow in H; [| done..].
    case_decide as Ej; [subst j; exists c; by rewrite lookup_insert_eq |].
    rewrite lookup_insert_ne by done. eauto.
Qed.

Lemma susp_delete_inv s id v r s' :
  susp_inv s -> susp_delete s id v = (r, s') ->
  susp_inv s' /\ d_next_token (due s') <= d_next_token (due s) + 1.
Proof.
  intros Hs. unfold susp_delete. destruct (continuations s !! id) as [c|] eqn:E;
    [| intros [= <- <-]; split; [done | lia]].
  destruct (negb _); intros [= <- <-]; [split; [done | lia] |].
  destruct Hs as [Hk Hv Hw Hd Hl]. destruct (due_remove_inv (due s) id Hd) as (Hd' & Hb & Hn).
  split; [| simpl; lia]. pose proof (Hk _ _ E) as Hid. split; simpl; try done.
  - intros j x. rewrite lookup_delete_Some. naive_solver.
  - intros j x. rewrite lookup_delete_Some. naive_solver.
  - eapply wc_ok_ext; [| apply (remove_wait_ok _ _ c Hw)].
    + intros j. unfold fset. simpl. rewrite Hid. case_decide as Ej; [subst j; by rewrite lookup_delete_eq |].
      by rewrite lookup_delete_ne.
    + simpl. by rewrite Hid, E.
  - intros j t k. rewrite Hb, lookup_delete_Some. intros [Hne H].
    rewrite lookup_delete_ne by done. eauto.
Qed.

Lemma susp_update_inv s v next r s' :
  susp_inv s -> d_next_token (due s) < int_max u64 -> susp_update s v next = (r, s') ->
  susp_inv s' /\ d_next_token (due s') <= d_next_token (due s) + 1.
Proof.
  intros Hs Hlt. unfold susp_update. destruct (negb (is_next_version _ _));
    [intros [= <- <-]; split; [done | lia] |].
  destruct (continuation_validate next) as [[]|] eqn:Ev; [| intros [= <- <-]; split; [done | lia]].
  destruct (continuations s !! _) as [c|] eqn:E; [| intros [= <- <-]; split; [done | lia]].
  destruct (negb _); intros [= <- <-]; [split; [done | lia] |]. by apply commit_inv.
Qed.

Lemma susp_claim_inv s expected next r s' :
  susp_inv s -> d_next_token (due s) < int_max u64 -> susp_claim s expected next = (r, s') ->
  susp_inv s' /\ d_next_token (due s') <= d_next_token (due s) + 1.
Proof.
  intros Hs Hlt. unfold susp_claim. destruct (_ || _) eqn:Eb; [intros [= <- <-]; split; [done | lia] |].
  apply orb_false_iff in Eb as [Eid _]. bool_prop.
  destruct (continuation_validate next) as [[]|] eqn:Ev; [| intros [= <- <-]; split; [done | lia]].
  destruct (continuations s !! _) as [c|] eqn:E; [| intros [= <- <-]; split; [done | lia]].
  destruct (negb _); intros [= <- <-]; [split; [done | lia] |]. by apply commit_inv.
Qed.

(** A recording operation gives the wait back unchanged or with one more result. *)
Definition records (record : WaitCondition -> WaitCondition) : Prop :=
  forall w, record w = w \/ exists r, record w = with_results w (w_results w ++ [r]) /\ result_ok r
    /\ lenZ (w_results w) < w_expected w /\ accepts_child w (r_child r) = true
    /\ r_child r ∉ r_child <$> w_results w.

Lemma records_success child payload : records (fun w => record_success w child payload).
Proof. intros w. destruct (record_success_cases w child payload); [by left | right; by eexists]. Qed.

Lemma records_failure child error : records (fun w => record_failure w child error).
Proof. intros w. destruct (record_failure_cases w child error); [by left | right; by eexists]. Qed.

Lemma records_valid record w : records record -> wait_validate w = Ok tt -> wait_validate (record w) = Ok tt.
Proof.
  intros Hr Hw. destruct (Hr w) as [-> | (r & -> & Hok & Hlt & _)]; [done |].
  rewrite wait_validate_ok in *. destruct Hw as (H1 & H2 & H3 & H4 & H5 & H6). simpl. split_and!; try done.
  - unfold lenZ in *. rewrite length_app. simpl. lia.
  - apply Forall_app. split; [done |]. repeat constructor. intros p Hp. unfold result_ok in Hok.
    rewrite Hp in Hok. by destruct (r_error r).
Qed.

Lemma record_wait_inv s id v record clock r s' :
  susp_inv s -> d_next_token (due s) < int_max u64 -> records record ->
  record_wait s id v record clock = (r, s') ->
  susp_inv s' /\ d_next_token (due s') <= d_next_token (due s) + 1.
Proof.
  intros Hs Hlt Hrec. unfold record_wait.
  destruct (continuations s !! id) as [c|] eqn:E; [| intros [= <- <-]; split; [done | lia]].
  destruct (negb _); [intros [= <- <-]; split; [done | lia] |].
  destruct (k_wait c) as [w|] eqn:Ew; [| intros [= <- <-]; split; [done | lia]].
  destruct (_ =? _); intros [= <- <-]; [split; [done | lia] |].
  apply commit_inv; try done; [exact (si_key _ Hs _ _ E) |].
  pose proof (si_valid _ Hs _ _ E) as Hv. unfold continuation_validate in *. simpl.
  inv_ok Hv. rewrite Hr. simpl. rewrite Ew in Hk. by apply records_valid.
Qed.

Lemma susp_heartbeat_inv s id owner v clock touched r s' :
  susp_inv s -> d_next_token (due s) < int_max u64 ->
  susp_heartbeat s id owner v clock touched = (r, s') ->
  susp_inv s' /\ d_next_token (due s') <= d_next_token (due s) + 1.
Proof.
  intros Hs Hlt. unfold susp_heartbeat.
  destruct (continuations s !! id) as [c|] eqn:E; [| intros [= <- <-]; split; [done | lia]].
  destruct (_ || _); intros [= <- <-]; [split; [done | lia] |].
  apply commit_inv; try done; [exact (si_key _ Hs _ _ E) | by apply (si_valid _ Hs _ _ E)].
Qed.

Lemma set_due_inv s d :
  susp_inv s -> due_inv d -> (forall f x, d_by_flow d !! f = Some x -> d_by_flow (due s) !! f = Some x) ->
  susp_inv (set_due s d).
Proof. intros [Hk Hv Hw Hd Hl] Hi Hsub. split; simpl; try done. intros id t k ?%Hsub. eauto. Qed.

(** *** Histories *)

Inductive sop :=
| SCreate (c : FlowContinuation)
| SUpdate (expected_version : Z) (next : FlowContinuation)
| SClaim (expected next : FlowContinuation)
| SDelete (flow_id : string) (expected_version : Z)
| SRecordSuccess (flow_id : string) (version : Z) (child_id : string) (payload : list Z) (clock : SystemTime)
| SRecordFailure (flow_id : string) (version : Z) (child_id : string) (error : CatgaError) (clock : SystemTime)
| SHeartbeat (flow_id owner : string) (version : Z) (clock touched : SystemTime)
| SPoll (poll : TimedOutFlowPoll)
| SAck (r : TimedOutFlowReceipt)
| SRelease (r : TimedOutFlowReceipt).

Definition sstep (s : MemorySuspendedFlows) (op : sop) : MemorySuspendedFlows :=
  match op with
  | SCreate c => (susp_create s c).2
  | SUpdate v next => (susp_update s v next).2
  | SClaim expected next => (susp_claim s expected next).2
  | SDelete id v => (susp_delete s id v).2
  | SRecordSuccess id v child p clock => (susp_record_wait_success s id v child p clock).2
  | SRecordFailure id v child e clock => (susp_record_wait_failure s id v child e clock).2
  | SHeartbeat id owner v clock touched => (susp_heartbeat s id owner v clock touched).2
  | SPoll poll => (poll_timed_out s poll).2
  | SAck r => (ack_timed_out s r).2
  | SRelease r => (release_timed_out s r).2
  end.

Definition srun (s : MemorySuspendedFlows) (ops : list sop) : MemorySuspendedFlows := foldl sstep s ops.

Lemma sstep_inv s op :
  susp_inv s -> d_next_token (due s) < int_max u64 ->
  susp_inv (sstep s op) /\ d_next_token (due (sstep s op)) <= d_next_token (due s) + 1.
Proof.
  intros Hs Hlt. destruct op as [c|v n|e n|id v|id v ch p cl|id v ch e cl|id o v c1 c2|poll|r|r]; simpl.
  - destruct (susp_create s c) eqn:E. by eapply susp_create_inv.
  - destruct (susp_update s v n) eqn:E. by eapply susp_update_inv.
  - destruct (susp_claim s e n) eqn:E. by eapply susp_claim_inv.
  - destruct (susp_delete s id v) eqn:E. by eapply susp_delete_inv.
  - destruct (susp_record_wait_success s id v ch p cl) eqn:E.
    by eapply record_wait_inv; [| | apply records_success |].
  - destruct (susp_record_wait_failure s id v ch e cl) eqn:E.
    by eapply record_wait_inv; [| | apply records_failure |].
  - destruct (susp_heartbeat s id o v c1 c2) eqn:E. by eapply susp_heartbeat_inv.
  - unfold poll_timed_out. destruct (due_poll_spec (due s) poll (si_due _ Hs)) as (d' & -> & Hd & [_ _ Hf Hn]).
    simpl. rewrite Hn. split; [| lia]. apply set_due_inv; [done | done |]. by rewrite Hf.
  - unfold ack_timed_out. destruct (receipt_token r) as [t|]; simpl; [| split; [done | lia]].
    destruct (due_ack_inv (due s) t (si_due _ Hs)) as (Hd & Hn & Hf). rewrite Hn.
    split; [by apply set_due_inv | lia].
  - unfold release_timed_out. destruct (receipt_token r) as [t|]; simpl; [| split; [done | lia]].
    destruct (due_release_inv (due s) t (continuations s !! rc_flow r) (si_due _ Hs)) as (Hd & Hn & Hf).
    rewrite Hn. split; [by apply set_due_inv | lia].
Qed.

Lemma srun_inv s ops :
  susp_inv s -> d_next_token (due s) + Z.of_nat (length ops) <= int_max u64 -> susp_inv (srun s ops).
Proof.
  unfold srun. revert s. induction ops as [|op ops IH]; intros s Hs Hb; simpl in *; [done |].
  destruct (sstep_inv s op Hs ltac:(lia)) as [Hs' Hn]. apply IH; [done | lia].
Qed.

Lemma reachable_inv ops :
  Z.of_nat (length ops) <= int_max u64 -> susp_inv (srun suspended_default ops).
Proof. intros H. apply srun_inv; [apply suspended_default_inv | simpl; lia]. Qed.

(** [id] is stored and waits on [corr]. *)
Definition waits_on (s : MemorySuspendedFlows) (corr id : string) : Prop :=
  exists c, continuations s !! id = Some c /\ correlation_of c = Some corr.

(** C23: Looking a wait up by its correlation is exact after any sequence of operations: it
    finds the one flow that waits on the correlation, nothing when no flow does, and reports
    a conflict when several do; it never fails otherwise. *)
Theorem correlation_lookup_exact ops corr :
  Z.of_nat (length ops) <= int_max u64 ->
  let s := srun suspended_default ops in
  match get_by_wait_correlation s corr with
  | Ok None => forall id, ~ waits_on s corr id
  | Ok (Some c) => continuations s !! f_id (k_state c) = Some c
      /\ forall id, waits_on s corr id <-> id = f_id (k_state c)
  | Err e => code e = Conflict /\ exists id id', id <> id' /\ waits_on s corr id /\ waits_on s corr id'
  end.
Proof.
  intros Hb s. pose proof (reachable_inv ops Hb) as [Hk Hv [Hi Hx] _ _]. fold s in Hk, Hv, Hi, Hx.
  assert (forall id, waits_on s corr id <-> id ∈ default [] (wait_correlations s !! corr)) as Hw.
  { intros id. rewrite Hx, bind_Some. done. }
  unfold get_by_wait_correlation. destruct (wait_correlations s !! corr) as [ids|] eqn:E; simpl in Hw.
  2: { intros id. rewrite Hw. set_solver. }
  destruct (Hi _ _ E) as [Hne Hnd]. destruct ids as [|id [|id' ids]]; [done | |].
  - destruct (proj2 (Hw id) ltac:(by left)) as (c & Hc & Hcorr). rewrite Hc, (Hv _ _ Hc). simpl.
    unfold correlation_of in Hcorr. destruct (k_wait c) as [w|]; simplify_eq/=. rewrite bool_decide_true by done.
    rewrite (Hk _ _ Hc). split; [done |]. intros j. rewrite Hw. set_solver.
  - simpl. split; [done |]. exists id, id'. rewrite !Hw. apply NoDup_cons in Hnd as [Hn _].
    split_and!; set_solver.
Qed.

Lemma timeout_deadline_expired c dl now w :
  timeout_deadline c = Some dl -> dl <= now -> k_wait c = Some w -> 0 <= w_timeout w ->
  f_status (k_state c) = Suspended /\ is_expired_at w now = true.
Proof.
  unfold timeout_deadline. destruct (flow_timeout_deadline_unix_ms c) as [[ms|]|] eqn:E; try done.
  unfold time_checked_add. destruct (system_time_ok _); intros [= <-] Hle Hw Ht.
  destruct (deadline_rounds_up c w ms E Hw Ht) as [Hs Hd]. split; [done |]. apply expired_iff; [done | lia].
Qed.

Lemma timeout_deadline_wait c dl :
  timeout_deadline c = Some dl -> exists w, k_wait c = Some w.
Proof.
  unfold timeout_deadline, flow_timeout_deadline_unix_ms. destruct (negb _); [done |].
  destruct (k_wait c); [by eauto | done].
Qed.

Lemma token_receipt d k t :
  due_inv d -> d_by_flow d !! k.2 = Some (t, k) -> receipt_token (entry_receipt (k, t)) = Some t.
Proof.
  intros Hd Hb. destruct (di_flow _ Hd _ _ _ Hb) as (_ & Ht & _). pose proof (di_next _ Hd) as Hn.
  unfold receipt_token. cbn [entry_receipt rc_token fst snd].
  assert (length (be_bytes 8 t) = 8%nat) as -> by (unfold be_bytes; by rewrite length_rev, length_le_bytes).
  simpl. f_equal.
  apply be_value_be_bytes. int_bounds. lia.
Qed.

(** A poll is exact and exclusive after any sequence of operations: it returns the receipts
    of the available expired waits, earliest deadline first, as many as its bounds allow,
    each for a different flow that is suspended on an expired wait at that moment; the flows
    it returned are no longer available, so no other poll returns them, and exactly their
    receipts are outstanding in addition to the earlier ones. *)
Theorem poll_exact ops poll :
  Z.of_nat (length ops) <= int_max u64 ->
  let s := srun suspended_default ops in
  let polled := take (Nat.min (p_limit poll) (p_scan poll)) (due_now (due s) (p_now poll)) in
  exists s', poll_timed_out s poll = (Ok (entry_receipt <$> polled), s')
    /\ StronglySorted (entry_le tle) polled
    /\ NoDup (rc_flow <$> (entry_receipt <$> polled))
    /\ (forall k t, (k, t) ∈ polled ->
          receipt_token (entry_receipt (k, t)) = Some t
          /\ exists c w, continuations s !! k.2 = Some c /\ k_wait c = Some w
             /\ (0 <= w_timeout w -> f_status (k_state c) = Suspended /\ is_expired_at w (p_now poll) = true))
    /\ (forall k t now, (k, t) ∈ due_now (due s') now <-> (k, t) ∈ due_now (due s) now /\ (k, t) ∉ polled)
    /\ (forall t k, d_claimed (due s') !! t = Some k <-> (k, t) ∈ polled \/ d_claimed (due s) !! t = Some k).
Proof.
  intros Hb s polled. pose proof (reachable_inv ops Hb) as Hs. fold s in Hs.
  destruct (due_poll_spec (due s) poll (si_due _ Hs)) as (d' & Hp & Hd' & Hce).
  fold polled in Hp, Hce. unfold poll_timed_out. rewrite Hp. exists (set_due s d').
  assert (forall k t now, (k, t) ∈ due_now (due s) now <-> d_available (due s) !! k = Some t /\ k.1 <= now) as Hdn.
  { intros k t now. unfold due_now. rewrite list_elem_of_filter, elem_of_entries. simpl. naive_solver. }
  assert (forall k t, (k, t) ∈ polled -> d_available (due s) !! k = Some t /\ k.1 <= p_now poll) as Hpo.
  { intros k t Hin. apply Hdn. unfold polled in Hin. apply elem_of_take in Hin as (i & Hi & _).
    by apply list_elem_of_lookup_2 in Hi. }
  assert (polled `sublist_of` entries tle (d_available (due s))) as Hsub.
  { unfold polled, due_now. etrans; [apply sublist_take | apply sublist_filter]. }
  assert (NoDup polled.*1) as Hnd1.
  { apply (sublist_NoDup _ (entries tle (d_available (due s))).*1); [apply entries_nodup |].
    by apply (fmap_sublist fst). }
  assert (forall k t, (k, t) ∈ polled -> d_by_flow (due s) !! k.2 = Some (t, k)) as Hflow.
  { intros k t [Hin _]%Hpo. by apply (di_available _ (si_due _ Hs)). }
  split_and!; [done | | | | | apply Hce].
  - eapply sublist_sorted; [done | apply (entries_sorted tle)].
  - rewrite <-list_fmap_compose.
    replace ((rc_flow ∘ entry_receipt) <$> polled) with (snd <$> polled.*1)
      by (by rewrite <-list_fmap_compose).
    apply NoDup_fmap_2_strong; [| done].
    intros k k' (e & -> & He)%list_elem_of_fmap (e' & -> & He')%list_elem_of_fmap E.
    destruct e as [k t], e' as [k' t']. simpl in *. apply Hflow in He, He'. rewrite E in He. congruence.
  - intros k t Hin. split; [by eapply token_receipt, Hflow; [apply Hs |] |].
    destruct (si_deadline _ Hs _ _ _ (Hflow _ _ Hin)) as (c & Hc & Hdl).
    destruct (timeout_deadline_wait _ _ Hdl) as [w Hw]. exists c, w. split_and!; [done | done |].
    intros Ht. by eapply timeout_deadline_expired; [| apply Hpo in Hin as [_ ?] | |].
  - intros k t now. rewrite Hdn. unfold due_now. simpl. rewrite list_elem_of_filter, elem_of_entries. simpl.
    rewrite (ce_available _ _ _ Hce). case_decide as Ek.
    + split; [naive_solver |]. intros [[Ha _] Hno]. exfalso.
      apply list_elem_of_fmap in Ek as ([k' t'] & -> & Hin). simpl in *.
      destruct (Hpo _ _ Hin). by assert (t = t') as -> by congruence.
    + split; [| naive_solver]. intros [? ?]. split; [done |]. intros Hin. apply Ek.
      apply list_elem_of_fmap. by exists (k, t).
Qed.

(** *** No deadline is lost *)

Definition tracked (s : MemorySuspendedFlows) (id : string) : Prop :=
  forall c (dl : Z), continuations s !! id = Some c -> timeout_deadline c = Some dl ->
    exists t, d_by_flow (due s) !! id = Some (t, (dl, id)).

(** [op] does not settle the deadline of [id]: it acknowledges no receipt of it, and it
    releases no receipt of it under another flow's name. *)
Definition keeps (id : string) (s : MemorySuspendedFlows) (op : sop) : Prop :=
  match op with
  | SAck r => forall t k, receipt_token r = Some t -> d_claimed (due s) !! t = Some k -> k.2 <> id
  | SRelease r =>
    forall t k, receipt_token r = Some t -> d_claimed (due s) !! t = Some k -> k.2 = id -> rc_flow r = id
  | _ => True
  end.

Fixpoint never_settled (id : string) (s : MemorySuspendedFlows) (ops : list sop) : Prop :=
  match ops with
  | [] => True
  | op :: ops => keeps id s op /\ never_settled id (sstep s op) ops
  end.

(** A write of [next] to its slot tracks it and leaves the others alone. *)
Lemma write_tracked s s' next id :
  due_inv (due s) -> d_next_token (due s) < int_max u64 ->
  continuations s' = <[f_id (k_state next) := next]> (continuations s) ->
  due s' = due_replace (due s) next -> tracked s id -> tracked s' id.
Proof.
  intros Hd Hlt Hc Hdue Ht c dl. rewrite Hc, Hdue.
  destruct (due_replace_inv (due s) next Hd Hlt) as (_ & _ & Hm).
  destruct (decide (id = f_id (k_state next))) as [->|Hne].
  - rewrite lookup_insert_eq. intros [= <-] E. rewrite E in Hm. destruct Hm as [-> _].
    rewrite lookup_insert_eq. eauto.
  - rewrite lookup_insert_ne by done. intros Hl E. destruct (Ht _ _ Hl E) as [t Hb]. exists t.
    destruct (timeout_deadline next); [destruct Hm as [-> _] | rewrite Hm].
    + by rewrite lookup_insert_ne.
    + by rewrite lookup_delete_ne.
Qed.

Lemma sstep_tracked s op id :
  susp_inv s -> d_next_token (due s) < int_max u64 -> keeps id s op -> tracked s id ->
  tracked (sstep s op) id.
Proof.
  intros Hs Hlt Hkeep Ht. pose proof (si_due _ Hs) as Hd.
  assert (forall j cur next, continuations s !! j = Some cur -> f_id (k_state next) = j ->
            tracked (commit s j cur next) id) as Hcommit.
  { intros j cur next _ <-. by eapply write_tracked. }
  destruct op as [c|v n|e n|j v|j v ch p cl|j v ch e cl|j o v c1 c2|poll|r|r]; simpl in *.
  - unfold susp_create. case_all. by eapply (write_tracked s _ c).
  - unfold susp_update. case_all. by eapply Hcommit.
  - unfold susp_claim. destruct (_ || _) eqn:Eb; [done |]. apply orb_false_iff in Eb as [Eid _]. bool_prop.
    case_all. by eapply Hcommit.
  - unfold susp_delete. destruct (continuations s !! j) as [cur|] eqn:E; [| done].
    destruct (negb _); [done |]. simpl. destruct (due_remove_inv (due s) j Hd) as (_ & Hb & _).
    intros c dl. simpl. rewrite Hb. intros [Hne Hl]%lookup_delete_Some Hdl.
    rewrite lookup_delete_ne by done. by apply (Ht c).
  - unfold susp_record_wait_success, record_wait. destruct (continuations s !! j) eqn:E; case_all.
    eapply Hcommit; [done | by apply (si_key _ Hs _ _ E)].
  - unfold susp_record_wait_failure, record_wait. destruct (continuations s !! j) eqn:E; case_all.
    eapply Hcommit; [done | by apply (si_key _ Hs _ _ E)].
  - unfold susp_heartbeat. destruct (continuations s !! j) eqn:E; case_all.
    eapply Hcommit; [done | by apply (si_key _ Hs _ _ E)].
  - unfold poll_timed_out. destruct (due_poll_spec (due s) poll Hd) as (d' & -> & _ & [_ _ Hf _]).
    intros c dl Hl Hdl. simpl in *. rewrite Hf. eauto.
  - unfold ack_timed_out. destruct (receipt_token r) as [t|] eqn:Er; [| done]. simpl.
    unfold due_ack. destruct (d_claimed (due s) !! t) as [k|] eqn:Ec; [| done].
    specialize (Hkeep t k eq_refl Ec). intros c dl Hl Hdl. simpl in *.
    rewrite lookup_delete_ne by done. eauto.
  - unfold release_timed_out. destruct (receipt_token r) as [t|] eqn:Er; [| done]. simpl.
    unfold due_release. destruct (d_claimed (due s) !! t) as [k|] eqn:Ec; [| done].
    specialize (Hkeep t k eq_refl Ec). intros c dl Hl Hdl. simpl in *.
    destruct (decide (k.2 = id)) as [E|Hne].
    + assert (d_by_flow (due s) !! id = Some (t, k)) as Hb by (rewrite <-E; by apply (di_claimed _ Hd)).
      destruct (Ht c dl Hl Hdl) as [t' Hb']. rewrite Hb in Hb'. injection Hb' as -> ->.
      simpl in *. rewrite (Hkeep E), Hl, Hdl, (si_key _ Hs _ _ Hl), Hb.
      rewrite !bool_decide_true by done. rewrite Z.eqb_refl. simpl. eauto.
    + case_match; simpl; [eauto |]. rewrite lookup_delete_ne by done. eauto.
Qed.

(** C22: No expired wait is lost: whatever else happened, a stored flow that is suspended on a
    wait with a deadline, and whose receipts were never acknowledged, has its deadline in the
    index, where it is either available to the next poll or claimed by an outstanding
    receipt; a released receipt makes it available again. *)
Theorem deadline_not_lost ops id c (dl : Z) :
  Z.of_nat (length ops) <= int_max u64 ->
  let s := srun suspended_default ops in
  never_settled id suspended_default ops ->
  continuations s !! id = Some c -> timeout_deadline c = Some dl ->
  exists t, d_available (due s) !! (dl, id) = Some t
    \/ (d_claimed (due s) !! t = Some (dl, id)
        /\ d_available (due (sstep s (SRelease (entry_receipt ((dl, id), t))))) !! (dl, id) = Some t).
Proof.
  intros Hb s Hn Hc Hdl. pose proof (reachable_inv ops Hb) as Hs. fold s in Hs.
  assert (tracked s id) as Ht.
  { subst s. revert Hb Hn. clear. pose proof suspended_default_inv as Hi.
    assert (tracked suspended_default id) as Ht by (intros ? ?; simpl; by rewrite lookup_empty).
    assert (d_next_token (due suspended_default) = 0) as E0 by done.
    intros Hb. assert (d_next_token (due suspended_default) + Z.of_nat (length ops) <= int_max u64) as Hb' by lia.
    clear Hb E0. revert Hi Ht Hb'. unfold srun. generalize suspended_default as s.
    induction ops as [|op ops IH]; intros s Hi Ht Hb Hn; simpl in *; [done |].
    destruct Hn as [Hk Hn]. destruct (sstep_inv s op Hi ltac:(lia)) as [Hi' Hnx].
    apply IH; [done | by apply sstep_tracked; [| lia | |] | lia | done]. }
  destruct (Ht c dl Hc Hdl) as [t Hbf]. exists t. destruct (di_flow _ (si_due _ Hs) _ _ _ Hbf) as (_ & _ & [[? _]|[Hcl _]]);
    [by left | right]. split; [done |]. cbn [sstep]. unfold release_timed_out.
  rewrite (token_receipt _ (dl, id) _ (si_due _ Hs) Hbf). simpl. unfold due_release. rewrite Hcl. simpl.
  rewrite Hc, Hdl, Hbf, (si_key _ Hs _ _ Hc). rewrite !bool_decide_true by done. rewrite Z.eqb_refl. simpl.
  apply lookup_insert_eq.
Qed.

(** *** The store keeps the interface *)

Definition keyed (s : MemorySuspendedFlows) : Prop :=
  forall id c, continuations s !! id = Some c -> f_id (k_state c) = id.

Lemma commit_written s id cur next :
  keyed s -> f_id (k_state next) = id ->
  keyed (commit s id cur next)
  /\ written (fun j => continuations s !! j) (fun j => continuations (commit s id cur next) !! j) next.
Proof.
  intros Hs <-. split.
  - intros j c. simpl. rewrite lookup_insert_Some. intros [[<- <-]|[_ ?]]; eauto.
  - intros j. simpl. case_decide as E; [subst j; apply lookup_insert_eq | by apply lookup_insert_ne].
Qed.

Lemma record_wait_written s id v record clock :
  keyed s ->
  let '(r, s') := record_wait s id v record clock in keyed s' /\
  (unwritten (fun j => continuations s !! j) (fun j => continuations s' !! j)
   \/ exists cur w, continuations s !! id = Some cur /\ f_version (k_state cur) = v
      /\ k_wait cur = Some w
      /\ written (fun j => continuations s !! j) (fun j => continuations s' !! j)
           (with_wait cur (record w) clock)).
Proof.
  intros Hs. unfold record_wait. destruct (continuations s !! id) as [cur|] eqn:E; [| by split; [| left]].
  destruct (Z.eqb_spec (f_version (k_state cur)) v) as [Ev|]; simpl; [| by split; [| left]].
  destruct (k_wait cur) as [w|] eqn:Ew; [| by split; [| left]].
  destruct (_ =? _); [by split; [| left] |].
  destruct (commit_written s id cur (with_wait cur (record w) clock) Hs (Hs _ _ E)). split; [done |].
  right. by exists cur, w.
Qed.

#[export] Instance memory_suspended_laws : SuspendedStoreLaws MemorySuspendedFlows.
Proof.
  refine {| ss_wf := keyed; ss_lookup s id := continuations s !! id; ss_create := susp_create;
    ss_get := susp_get; ss_get_by_wait_correlation := get_by_wait_correlation; ss_query := susp_query;
    ss_update := susp_update; ss_claim := susp_claim;
    ss_record_wait_success := susp_record_wait_success;
    ss_record_wait_failure := susp_record_wait_failure; ss_heartbeat := susp_heartbeat |}.
  - intros s id c Hs. apply Hs.
  - intros s id o. unfold susp_get. destruct (continuations s !! id) as [c|]; [| by intros [= <-]].
    destruct (continuation_validate c); simpl; by intros [= <-].
  - intros s c Hs. unfold susp_create. destruct (continuation_validate c); [| by split; [| left]].
    destruct (continuations s !! f_id (k_state c)) eqn:E; [done |]. split; [| split; [done |]].
    + intros j x. simpl. rewrite lookup_insert_Some. intros [[<- <-]|[_ ?]]; eauto.
    + intros j. simpl. case_decide as Ej; [subst j; apply lookup_insert_eq | by apply lookup_insert_ne].
  - intros s v next Hs. unfold susp_update.
    destruct (is_next_version v (f_version (k_state next))) eqn:En; simpl; [| done].
    apply is_next_version_spec in En as [En _].
    destruct (continuation_validate next); [| by split; [| left]].
    destruct (continuations s !! f_id (k_state next)) as [cur|] eqn:E; [| done].
    destruct (Z.eqb_spec (f_version (k_state cur)) v) as [Ev|]; simpl; [| done].
    destruct (commit_written s _ cur next Hs eq_refl). split; [done |]. split_and!; by eauto.
  - intros s expected next Hs. unfold susp_claim. destruct (_ || _) eqn:Eb; [done |].
    apply orb_false_iff in Eb as [Eid En]. bool_prop. apply is_next_version_spec in En as [En _].
    destruct (continuation_validate next); [| by split; [| left]].
    destruct (continuations s !! f_id (k_state expected)) as [cur|] eqn:E; [| done].
    destruct (bool_decide (cur = expected)) eqn:Ec; simpl; [| done]. bool_prop. subst cur.
    destruct (commit_written s _ expected next Hs Eid). split; [done |]. rewrite Eid in *. by split_and!.
  - intros. by apply record_wait_written.
  - intros. by apply record_wait_written.
  - intros s id owner v clock touched Hs. unfold susp_heartbeat.
    destruct (continuations s !! id) as [cur|] eqn:E; [| by split; [| left]].
    destruct (_ || _) eqn:Eb; [by split; [| left] |]. apply orb_false_iff in Eb as [E1 E2]. bool_prop.
    destruct (commit_written s id cur (with_state cur (heartbeated_at (k_state cur) clock) touched) Hs (Hs _ _ E)).
    split; [done |]. right. by exists cur.
Defined.
End store.

(** ** Witnesses *)

Definition demo_suspended_flow (id corr : string) (timeout : Duration) : FlowContinuation :=
  waiting (suspended (FlowState_new id "t" [] "n" 0)) "next"
    (WaitCondition_new corr WaitAll 1 0 timeout) 0.

(** Two flows wait, one of them longer; then the shorter wait is polled. *)
Definition demo_sops : list sop :=
  [ SCreate (demo_suspended_flow "f1" "c1" (from_secs 5));
    SCreate (demo_suspended_flow "f2" "c2" (from_secs 2)) ].

Definition demo_susp : MemorySuspendedFlows := srun suspended_default demo_sops.

Lemma correlation_lookup_exact_witness :
  get_by_wait_correlation demo_susp "c1" = Ok (Some (demo_suspended_flow "f1" "c1" (from_secs 5)))
  /\ forall id, waits_on demo_susp "c1" id <-> id = "f1"%string.
Proof.
  pose proof (correlation_lookup_exact demo_sops "c1" ltac:(by vm_compute)) as H.
  assert (get_by_wait_correlation demo_susp "c1"
          = Ok (Some (demo_suspended_flow "f1" "c1" (from_secs 5)))) as E by (vm_compute; reflexivity).
  split; [done |]. fold demo_susp in H. cbv zeta in H. rewrite E in H. apply H.
Defined.

Lemma poll_exact_witness :
  exists s', poll_timed_out demo_susp (mkPoll (from_secs 3) 10 10)
    = (Ok [mkReceipt "f2" (be_bytes 8 2)], s').
Proof.
  destruct (poll_exact demo_sops (mkPoll (from_secs 3) 10 10) ltac:(by vm_compute)) as (s' & H & _).
  exists s'. unfold demo_susp. rewrite H. f_equal.
Defined.

Lemma deadline_not_lost_witness :
  exists t, d_available (due (srun suspended_default demo_sops)) !! (from_secs 5, "f1"%string) = Some t
    \/ d_claimed (due (srun suspended_default demo_sops)) !! t = Some (from_secs 5, "f1"%string).
Proof.
  destruct (deadline_not_lost demo_sops "f1" (demo_suspended_flow "f1" "c1" (from_secs 5)) (from_secs 5))
    as (t & [?|[? _]]); [by vm_compute | by vm_compute | vm_compute; reflexivity | by vm_compute | |]; eauto.
Defined.
