(* ===== verification/Scheduler.v ===== *)
(** * The flow scheduler ([flow/scheduler.rs])

    [MemoryFlowScheduler] registers one wake-up per suspended flow state and hands due ones
    out under leases.  Every operation holds the lock of the scheduler's state, so it is one
    step.  The properties: the tables and the heap always describe the same wake-ups, claims
    are sound and exclusive, and a claim with a large enough limit finds everything due. *)

From stdpp Require Import pretty.
From S2P Require Import Prelude Utf8 Errors Time Wire Heap BTree.

Record ScheduledResume := mkScheduled {
  sr_id : string; sr_flow : string; sr_state : string; sr_due : SystemTime
}.

(** [schedule_target_bytes] *)
Definition schedule_target_bytes (flow_id state_id : string) : CatgaResult (list Z) :=
  let flow := bytes_of_string flow_id in
  let state := bytes_of_string state_id in
  let? flow_len := ok_or (checked u64 (Z.of_nat (length flow)))
    (CatgaError_new Validation "flow identifier is too long for a schedule target") in
  let? state_len := ok_or (checked u64 (Z.of_nat (length state)))
    (CatgaError_new Validation "state identifier is too long for a schedule target") in
  let? _ := ok_or
    (match checked usize (16 + Z.of_nat (length flow)) with
     | Some value => checked usize (value + Z.of_nat (length state))
     | None => None
     end) (CatgaError_new Validation "schedule target is too long") in
  Ok (be_bytes 8 flow_len ++ flow ++ be_bytes 8 state_len ++ state).

(** [ScheduleTarget] *)
Abbreviation target := (string * string)%type.

Definition target_of (s : ScheduledResume) : target := (sr_flow s, sr_state s).

Record DueSchedule := mkDueSchedule {
  ds_available : SystemTime; ds_order : Z; ds_due : SystemTime; ds_id : string
}.

Record ScheduleClaim := mkClaim { sc_owner : string; sc_expires : SystemTime }.

(** The derived order of [DueSchedule]; the heap is of [Reverse]d entries, so its top is
    the smallest, and it is modelled as the ascending list. *)
Definition dsle (a b : DueSchedule) : Prop :=
  ds_available a < ds_available b
  \/ (ds_available a = ds_available b
      /\ (ds_order a < ds_order b
          \/ (ds_order a = ds_order b /\ tle (ds_due a, ds_id a) (ds_due b, ds_id b)))).

#[global] Instance dsle_dec : RelDecision dsle.
Proof. intros a b. unfold dsle. apply _. Defined.
#[global] Instance dsle_refl : Reflexive dsle.
Proof. intros a. right. split; [done |]. by right. Qed.
#[global] Instance dsle_trans : Transitive dsle.
Proof.
  intros a b c [?|(? & [?|(? & H1)])] [?|(? & [?|(? & H2)])]; try (left; lia); right; (split; [lia |]);
    try (left; lia). right. split; [lia |]. by transitivity (ds_due b, ds_id b).
Qed.
#[global] Instance dsle_antisymm : AntiSymm (=) dsle.
Proof.
  intros [a o d i] [a' o' d' i'] [?|(? & [?|(? & H1)])] [?|(? & [?|(? & H2)])]; simpl in *; try lia.
  assert ((d, i) = (d', i')) as [= -> ->] by by apply (anti_symm tle). f_equal; lia.
Qed.
#[global] Instance dsle_total : Total dsle.
Proof.
  intros [a o d i] [a' o' d' i']. unfold dsle. simpl.
  destruct (total tle (d, i) (d', i')), (Z.lt_trichotomy a a') as [?|[?|?]],
    (Z.lt_trichotomy o o') as [?|[?|?]]; naive_solver.
Qed.

Record MemoryFlowScheduler := mkScheduler {
  sch_next_id : Z;
  sch_schedules : gmap string ScheduledResume;
  sch_targets : gmap target string;
  sch_due : list DueSchedule;
  sch_claims : gmap string ScheduleClaim;
  sch_next_order : Z
}.

Definition scheduler_default : MemoryFlowScheduler := mkScheduler 0 ∅ ∅ [] ∅ 0.

Definition set_heap (s : MemoryFlowScheduler) (heap : list DueSchedule) : MemoryFlowScheduler :=
  mkScheduler (sch_next_id s) (sch_schedules s) (sch_targets s) heap (sch_claims s) (sch_next_order s).
Definition set_claims (s : MemoryFlowScheduler) (claims : gmap string ScheduleClaim)
    : MemoryFlowScheduler :=
  mkScheduler (sch_next_id s) (sch_schedules s) (sch_targets s) (sch_due s) claims (sch_next_order s).

Definition enqueue_due (s : MemoryFlowScheduler) (available_at due_at : SystemTime)
    (schedule_id : string) : CatgaResult unit * MemoryFlowScheduler :=
  match checked u64 (sch_next_order s + 1) with
  | None => (fail Unavailable "due-work inspection ordering is exhausted", s)
  | Some next =>
    (Ok tt, mkScheduler (sch_next_id s) (sch_schedules s) (sch_targets s)
       (heap_push dsle (mkDueSchedule available_at (sch_next_order s) due_at schedule_id) (sch_due s))
       (sch_claims s) next)
  end.

Definition compact_cancelled_schedules (s : MemoryFlowScheduler) : MemoryFlowScheduler :=
  let live := Z.of_nat (size (sch_schedules s)) in
  if Z.of_nat (length (sch_due s)) <=? saturating usize (saturating usize (live * 2) + 64) then s
  else set_heap s (filter (fun e => is_Some (sch_schedules s !! ds_id e)) (sch_due s)).

Definition remove_due_schedule (s : MemoryFlowScheduler) (schedule_id : string)
    : MemoryFlowScheduler :=
  set_heap s (filter (fun e => ds_id e <> schedule_id) (sch_due s)).

Definition restored (schedule_id : string) (due_at : SystemTime) (e : DueSchedule) : DueSchedule :=
  if bool_decide (ds_id e = schedule_id) then mkDueSchedule due_at (ds_order e) (ds_due e) (ds_id e)
  else e.

Definition restore_due_eligibility (s : MemoryFlowScheduler) (schedule_id : string)
    (due_at : SystemTime) : MemoryFlowScheduler :=
  set_heap s (merge_sort dsle (restored schedule_id due_at <$> sch_due s)).

Definition allocate_schedule_id (s : MemoryFlowScheduler) : CatgaResult Z * MemoryFlowScheduler :=
  match checked u64 (sch_next_id s + 1) with
  | None => (fail Unavailable "schedule identity space is exhausted", s)
  | Some next =>
    (Ok (sch_next_id s), mkScheduler next (sch_schedules s) (sch_targets s) (sch_due s)
                           (sch_claims s) (sch_next_order s))
  end.

(** [format!("flow-resume-{id}")] *)
Definition schedule_name (id : Z) : string := ("flow-resume-" +:+ pretty (Z.to_N id))%string.

(** The removal of a schedule together with its target, shared by [take_due],
    [cancel_resume] and [ack_due] *)
Definition forget_schedule (s : MemoryFlowScheduler) (schedule : ScheduledResume)
    : MemoryFlowScheduler :=
  let t := target_of schedule in
  let targets :=
    match sch_targets s !! t with
    | Some mapped => if bool_decide (mapped = sr_id schedule) then delete t (sch_targets s)
                     else sch_targets s
    | None => sch_targets s
    end in
  mkScheduler (sch_next_id s) (sch_schedules s) targets (sch_due s) (sch_claims s) (sch_next_order s).

Definition drop_schedule (s : MemoryFlowScheduler) (schedule_id : string) : MemoryFlowScheduler :=
  mkScheduler (sch_next_id s) (delete schedule_id (sch_schedules s)) (sch_targets s) (sch_due s)
    (sch_claims s) (sch_next_order s).

Definition live_claim (s : MemoryFlowScheduler) (schedule_id : string) (now : SystemTime) : bool :=
  match sch_claims s !! schedule_id with
  | Some claim => now <? sc_expires claim
  | None => false
  end.

(** [take_due]: the loop over the heap, which is empty after at most its length of steps,
    and the removal of what it took *)
Fixpoint take_loop (fuel : nat) (s : MemoryFlowScheduler) (now : SystemTime)
    (taken : list string) (claimed : list DueSchedule)
    : list string * list DueSchedule * MemoryFlowScheduler :=
  match fuel, sch_due s with
  | S fuel, schedule :: rest =>
    if ds_available schedule <=? now then
      let s := set_heap s rest in
      if live_claim s (ds_id schedule) now
      then take_loop fuel s now taken (claimed ++ [schedule])
      else take_loop fuel (set_claims s (delete (ds_id schedule) (sch_claims s))) now
             (taken ++ [ds_id schedule]) claimed
    else (taken, claimed, s)
  | _, _ => (taken, claimed, s)
  end.

Fixpoint take_schedules (s : MemoryFlowScheduler) (ids : list string) (out : list ScheduledResume)
    : list ScheduledResume * MemoryFlowScheduler :=
  match ids with
  | [] => (out, s)
  | id :: ids =>
    match sch_schedules s !! id with
    | None => take_schedules s ids out
    | Some schedule => take_schedules (forget_schedule (drop_schedule s id) schedule) ids (out ++ [schedule])
    end
  end.

Definition take_due (s : MemoryFlowScheduler) (now : SystemTime)
    : list ScheduledResume * MemoryFlowScheduler :=
  let '(taken, claimed, s) := take_loop (length (sch_due s)) s now [] [] in
  take_schedules (set_heap s (foldl (fun heap e => heap_push dsle e heap) (sch_due s) claimed)) taken [].

Definition schedule_resume (s : MemoryFlowScheduler) (flow_id state_id : string) (due_at : SystemTime)
    : CatgaResult string * MemoryFlowScheduler :=
  match sch_targets s !! (flow_id, state_id) with
  | Some schedule_id => (Ok schedule_id, s)
  | None =>
    match allocate_schedule_id s with
    | (Err e, s) => (Err e, s)
    | (Ok id, s) =>
      let schedule_id := schedule_name id in
      match enqueue_due s due_at due_at schedule_id with
      | (Err e, s) => (Err e, s)
      | (Ok _, s) =>
        (Ok schedule_id,
         mkScheduler (sch_next_id s)
           (<[schedule_id := mkScheduled schedule_id flow_id state_id due_at]> (sch_schedules s))
           (<[(flow_id, state_id) := schedule_id]> (sch_targets s)) (sch_due s) (sch_claims s)
           (sch_next_order s))
      end
    end
  end.

Definition cancel_resume (s : MemoryFlowScheduler) (schedule_id : string) (clock : SystemTime)
    : CatgaResult bool * MemoryFlowScheduler :=
  if live_claim s schedule_id clock then (Ok false, s)
  else
    let s := set_claims s (delete schedule_id (sch_claims s)) in
    match sch_schedules s !! schedule_id with
    | None => (Ok false, s)
    | Some schedule =>
      let s := forget_schedule (drop_schedule s schedule_id) schedule in
      (Ok true, compact_cancelled_schedules (remove_due_schedule s schedule_id))
    end.

Definition lease_deadline (now : SystemTime) (lease_for : Duration) : CatgaResult SystemTime :=
  ok_or (time_checked_add now lease_for)
    (CatgaError_new Validation "due-work lease deadline exceeds the supported SystemTime range").

Fixpoint claim_due_loop (fuel : nat) (s : MemoryFlowScheduler) (owner : string)
    (now expires_at : SystemTime) (claimed : list ScheduledResume)
    : CatgaResult (list ScheduledResume) * MemoryFlowScheduler :=
  match fuel, sch_due s with
  | S fuel, due :: rest =>
    if now <? ds_available due then (Ok claimed, s)
    else
      let s := set_heap s rest in
      match sch_schedules s !! ds_id due with
      | None => claim_due_loop fuel s owner now expires_at claimed
      | Some schedule =>
        let can_claim := negb (live_claim s (sr_id schedule) now) in
        let available_at := if can_claim then ds_available due else now in
        match enqueue_due s available_at (ds_due due) (sr_id schedule) with
        | (Err e, s) => (Err e, set_heap s (heap_push dsle due (sch_due s)))
        | (Ok _, s) =>
          if negb (sr_due schedule =? ds_due due) then claim_due_loop fuel s owner now expires_at claimed
          else if can_claim
          then claim_due_loop fuel
                 (set_claims s (<[sr_id schedule := mkClaim owner expires_at]> (sch_claims s)))
                 owner now expires_at (claimed ++ [schedule])
          else claim_due_loop fuel s owner now expires_at claimed
        end
      end
  | _, _ => (Ok claimed, s)
  end.

Definition claim_due (s : MemoryFlowScheduler) (owner : string) (now : SystemTime)
    (lease_for : Duration) (limit : nat)
    : CatgaResult (list ScheduledResume) * MemoryFlowScheduler :=
  if lease_for =? 0 then (fail Validation "due-work lease duration must be greater than zero", s)
  else
    match lease_deadline now lease_for with
    | Err e => (Err e, s)
    | Ok expires_at => claim_due_loop limit s owner now expires_at []
    end.

(** [claims.get(id).is_some_and(|claim| claim.owner == owner)] *)
Definition owns_claim (s : MemoryFlowScheduler) (schedule_id owner : string) : bool :=
  match sch_claims s !! schedule_id with
  | Some claim => bool_decide (sc_owner claim = owner)
  | None => false
  end.

Definition ack_due (s : MemoryFlowScheduler) (owner schedule_id : string)
    : CatgaResult bool * MemoryFlowScheduler :=
  if negb (owns_claim s schedule_id owner) then (Ok false, s)
  else
    match sch_schedules s !! schedule_id with
    | None => (Ok false, set_claims s (delete schedule_id (sch_claims s)))
    | Some schedule =>
      let s := forget_schedule (drop_schedule s schedule_id) schedule in
      let s := set_claims s (delete schedule_id (sch_claims s)) in
      (Ok true, compact_cancelled_schedules (remove_due_schedule s schedule_id))
    end.

Definition release_due (s : MemoryFlowScheduler) (owner schedule_id : string)
    : CatgaResult bool * MemoryFlowScheduler :=
  if owns_claim s schedule_id owner then
    let due_at := sr_due <$> sch_schedules s !! schedule_id in
    let s := set_claims s (delete schedule_id (sch_claims s)) in
    (Ok true, match due_at with
              | Some due_at => restore_due_eligibility s schedule_id due_at
              | None => s
              end)
  else (Ok false, s).

Definition renew_due (s : MemoryFlowScheduler) (owner schedule_id : string) (now : SystemTime)
    (lease_for : Duration) : CatgaResult bool * MemoryFlowScheduler :=
  if lease_for =? 0 then (fail Validation "due-work lease duration must be greater than zero", s)
  else
    match lease_deadline now lease_for with
    | Err e => (Err e, s)
    | Ok expires_at =>
      match sch_claims s !! schedule_id with
      | Some claim =>
        if bool_decide (sc_owner claim = owner) && (now <? sc_expires claim)
        then (Ok true, set_claims s (<[schedule_id := mkClaim owner expires_at]> (sch_claims s)))
        else (Ok false, s)
      | None => (Ok false, s)
      end
    end.

(** ** The tables and the heap agree *)

Record sched_inv (s : MemoryFlowScheduler) : Prop := {
  sv_sorted : StronglySorted dsle (sch_due s);
  sv_ids : NoDup (ds_id <$> sch_due s);
  sv_entry e : e ∈ sch_due s ->
    ds_due e <= ds_available e /\ 0 <= ds_order e < sch_next_order s
    /\ exists sr, sch_schedules s !! ds_id e = Some sr /\ sr_due sr = ds_due e;
  sv_schedule id sr : sch_schedules s !! id = Some sr ->
    sr_id sr = id /\ id ∈ ds_id <$> sch_due s /\ sch_targets s !! target_of sr = Some id
    /\ exists n, id = schedule_name n /\ 0 <= n < sch_next_id s;
  sv_target t id : sch_targets s !! t = Some id ->
    exists sr, sch_schedules s !! id = Some sr /\ target_of sr = t;
  sv_claim id : is_Some (sch_claims s !! id) -> is_Some (sch_schedules s !! id);
  sv_next_id : 0 <= sch_next_id s <= int_max u64;
  sv_next_order : 0 <= sch_next_order s <= int_max u64
}.

Lemma scheduler_default_inv : sched_inv scheduler_default.
Proof. split; simpl; try done; try (by constructor); [set_solver |]. intros id [x Hx]. done. Qed.

Lemma schedule_name_inj n m : 0 <= n -> 0 <= m -> schedule_name n = schedule_name m -> n = m.
Proof.
  intros Hn Hm E. unfold schedule_name in E. apply (inj (String.app _)) in E.
  apply (inj pretty) in E. lia.
Qed.

(** Forgetting a set [X] of schedules everywhere *)
Lemma purge_inv s s' (X : list string) :
  sched_inv s -> StronglySorted dsle (sch_due s') ->
  sch_due s' ≡ₚ filter (fun e => ds_id e ∉ X) (sch_due s) ->
  (forall id, sch_schedules s' !! id = if decide (id ∈ X) then None else sch_schedules s !! id) ->
  (forall t id, sch_targets s' !! t = Some id <-> sch_targets s !! t = Some id /\ id ∉ X) ->
  (forall id, is_Some (sch_claims s' !! id) -> is_Some (sch_claims s !! id) /\ id ∉ X) ->
  sch_next_id s' = sch_next_id s -> sch_next_order s' = sch_next_order s -> sched_inv s'.
Proof.
  intros [Hso Hid He Hsc Ht Hc Hn1 Hn2] Hso' Hp Hs Hts Hcl E1 E2. split; try done; [| | | | | by rewrite E1 | by rewrite E2].
  - rewrite Hp. eapply sublist_NoDup; [exact Hid |]. apply (fmap_sublist ds_id), sublist_filter.
  - intros e. rewrite Hp, list_elem_of_filter. intros [Hx Hin]. destruct (He e Hin) as (? & ? & sr & Hsr & ?).
    rewrite E2. split_and!; try (done || lia). exists sr. by rewrite Hs, decide_False.
  - intros id sr. rewrite Hs. case_decide as Hx; [done |]. intros H.
    destruct (Hsc _ _ H) as (? & Hin & Htg & Hnm). rewrite E1. split_and!; try done.
    + rewrite Hp. apply list_elem_of_fmap in Hin as (e & -> & Hin). apply list_elem_of_fmap.
      exists e. split; [done |]. by apply list_elem_of_filter.
    + by apply Hts.
  - intros t id [H Hx]%Hts. destruct (Ht _ _ H) as (sr & ? & ?). exists sr. by rewrite Hs, decide_False.
  - intros id [H Hx]%Hcl. rewrite Hs, decide_False by done. auto.
Qed.

Lemma compact_noop s :
  (forall e, e ∈ sch_due s -> is_Some (sch_schedules s !! ds_id e)) -> compact_cancelled_schedules s = s.
Proof.
  intros H. unfold compact_cancelled_schedules. case_match; [done |]. rewrite filter_all by done. by destruct s.
Qed.

(** The two tables name each other. *)
Record tables_ok (s : MemoryFlowScheduler) : Prop := {
  to_schedule id sr : sch_schedules s !! id = Some sr ->
    sr_id sr = id /\ sch_targets s !! target_of sr = Some id;
  to_target t id : sch_targets s !! t = Some id ->
    exists sr, sch_schedules s !! id = Some sr /\ target_of sr = t
}.

Lemma sched_tables s : sched_inv s -> tables_ok s.
Proof. intros Hs. split; [| apply Hs]. intros id sr H. by destruct (sv_schedule _ Hs _ _ H) as (? & _ & ? & _). Qed.

(** [forget_schedule] removes exactly the target of a registered schedule. *)
Lemma forget_targets s id sr :
  tables_ok s -> sch_schedules s !! id = Some sr ->
  forall t j, sch_targets (forget_schedule (drop_schedule s id) sr) !! t = Some j
    <-> sch_targets s !! t = Some j /\ j <> id.
Proof.
  intros Hs Hsr t j. destruct (to_schedule _ Hs _ _ Hsr) as (Hid & Htg).
  unfold forget_schedule. simpl. rewrite Htg, bool_decide_true by done. rewrite lookup_delete_Some. split.
  - intros [Hne H]. split; [done |]. intros ->. destruct (to_target _ Hs _ _ H) as (sr' & H' & E). congruence.
  - intros [H Hne]. split; [| done]. intros <-. congruence.
Qed.

Lemma forget_tables s id sr :
  tables_ok s -> sch_schedules s !! id = Some sr -> tables_ok (forget_schedule (drop_schedule s id) sr).
Proof.
  intros Hs Hsr. split.
  - intros j sr'. simpl. intros [Hne Hj]%lookup_delete_Some. destruct (to_schedule _ Hs _ _ Hj) as [? Htg].
    split; [done |]. by apply (forget_targets s id sr Hs Hsr).
  - intros t j [Ht Hne]%(forget_targets s id sr Hs Hsr). destruct (to_target _ Hs _ _ Ht) as (sr' & ? & ?).
    exists sr'. simpl. by rewrite lookup_delete_ne.
Qed.

Lemma filter_not_in_singleton (l : list DueSchedule) id :
  filter (fun e => ds_id e ∉ [id]) l = filter (fun e => ds_id e <> id) l.
Proof. apply list_filter_iff. intros e. rewrite list_elem_of_singleton. done. Qed.

(** Cancelling and acknowledging drop one schedule from every table. *)
Lemma drop_one_inv s id sr claims' :
  sched_inv s -> sch_schedules s !! id = Some sr -> claims' = delete id (sch_claims s) ->
  let s' := compact_cancelled_schedules (remove_due_schedule
    (set_claims (forget_schedule (drop_schedule s id) sr) claims') id) in
  sched_inv s' /\ sch_schedules s' = delete id (sch_schedules s)
  /\ sch_due s' = filter (fun e => ds_id e <> id) (sch_due s) /\ sch_claims s' = claims'.
Proof.
  intros Hs Hsr -> s'.
  assert (s' = remove_due_schedule (set_claims (forget_schedule (drop_schedule s id) sr)
            (delete id (sch_claims s))) id) as ->.
  { apply compact_noop. simpl. intros e [Hne Hin]%list_elem_of_filter.
    rewrite lookup_delete_ne by done. destruct (sv_entry _ Hs e Hin) as (_ & _ & x & -> & _). eauto. }
  split; [| done]. eapply (purge_inv s _ [id]); try done; simpl.
  - eapply sublist_sorted; [apply sublist_filter | apply Hs].
  - by rewrite filter_not_in_singleton.
  - intros j. case_decide as E; [apply list_elem_of_singleton in E; subst; by rewrite lookup_delete_eq |].
    rewrite lookup_delete_ne; [done |]. intros ->. apply E. by left.
  - intros t j. pose proof (forget_targets s id sr (sched_tables _ Hs) Hsr t j) as H. simpl in H.
    rewrite list_elem_of_singleton. exact H.
  - intros j [x [Hne Hj]%lookup_delete_Some]. split; [by eauto |]. rewrite list_elem_of_singleton. congruence.
Qed.

Lemma drop_claim_inv s id : sched_inv s -> sched_inv (set_claims s (delete id (sch_claims s))).
Proof.
  intros [Hso Hid He Hsc Ht Hc Hn1 Hn2]. split; simpl; try done.
  intros j [x [_ Hj]%lookup_delete_Some]. eauto.
Qed.

Lemma cancel_resume_inv s id clock : sched_inv s -> sched_inv (cancel_resume s id clock).2.
Proof.
  intros Hs. unfold cancel_resume. destruct (live_claim s id clock); [done |].
  pose proof (drop_claim_inv s id Hs) as Hs'. simpl. destruct (sch_schedules s !! id) as [sr|] eqn:E; [| done].
  simpl. apply (drop_one_inv s id sr (delete id (sch_claims s)) Hs E eq_refl).
Qed.

Lemma ack_due_inv s owner id : sched_inv s -> sched_inv (ack_due s owner id).2.
Proof.
  intros Hs. unfold ack_due. destruct (negb _); [done |].
  destruct (sch_schedules s !! id) as [sr|] eqn:E; [| by apply drop_claim_inv].
  simpl. apply (drop_one_inv s id sr (delete id (sch_claims s)) Hs E eq_refl).
Qed.

Lemma release_due_inv s owner id : sched_inv s -> sched_inv (release_due s owner id).2.
Proof.
  intros Hs. unfold release_due. destruct (owns_claim s id owner); [| done].
  pose proof (drop_claim_inv s id Hs) as [Hso Hid He Hsc Ht Hc Hn1 Hn2]. simpl in *.
  destruct (sch_schedules s !! id) as [sr|] eqn:E; simpl; [| done].
  assert (ds_id <$> merge_sort dsle (restored id (sr_due sr) <$> sch_due s) ≡ₚ ds_id <$> sch_due s) as Hp.
  { rewrite merge_sort_Permutation, <-list_fmap_compose.
    erewrite list_fmap_ext; [done |]. intros ? e _. unfold restored. simpl. by case_match. }
  split; simpl; try done.
  - apply (StronglySorted_merge_sort _).
  - by rewrite Hp.
  - intros e. rewrite merge_sort_Permutation. intros (e0 & -> & Hin)%list_elem_of_fmap.
    destruct (He e0 Hin) as (? & ? & sr0 & Hsr & ?). unfold restored. case_bool_decide as Eid; simpl; [| by eauto].
    subst id. rewrite Hsr in E. simplify_eq. split_and!; try lia. eauto.
  - intros j sr' Hj. rewrite Hp. auto.
Qed.

Lemma renew_due_inv s owner id now lease : sched_inv s -> sched_inv (renew_due s owner id now lease).2.
Proof.
  intros Hs. unfold renew_due. destruct (lease =? 0); [done |]. destruct (lease_deadline now lease); [| done].
  destruct (sch_claims s !! id) as [c|] eqn:E; [| done]. destruct (_ && _); [| done]. simpl.
  destruct Hs as [Hso Hid He Hsc Ht Hc Hn1 Hn2]. split; simpl; try done.
  intros j [x [[<- _]|[_ Hj]]%lookup_insert_Some]; eauto.
Qed.

Lemma heap_push_ids e h : ds_id <$> heap_push dsle e h ≡ₚ ds_id e :: (ds_id <$> h).
Proof. by rewrite (heap_push_perm dsle e h). Qed.

Lemma enqueue_cases s a d id :
  sched_inv s ->
  if sch_next_order s <? int_max u64
  then enqueue_due s a d id = (Ok tt, mkScheduler (sch_next_id s) (sch_schedules s) (sch_targets s)
         (heap_push dsle (mkDueSchedule a (sch_next_order s) d id) (sch_due s)) (sch_claims s)
         (sch_next_order s + 1))
  else exists e, enqueue_due s a d id = (Err e, s).
Proof.
  intros Hs. pose proof (sv_next_order _ Hs) as Hn. unfold enqueue_due.
  destruct (Z.ltb_spec (sch_next_order s) (int_max u64)).
  - rewrite checked_fits; [done |]. split; [int_bounds; lia | lia].
  - destruct (checked u64 _) eqn:E; [apply checked_Some in E; lia |]. by eexists.
Qed.

Lemma schedule_resume_inv s flow state due : sched_inv s -> sched_inv (schedule_resume s flow state due).2.
Proof.
  intros Hs. unfold schedule_resume. destruct (sch_targets s !! (flow, state)) as [id|] eqn:Et; [done |].
  unfold allocate_schedule_id. destruct (checked u64 (sch_next_id s + 1)) as [nx|] eqn:En; [| done].
  apply checked_Some in En as [-> En]. pose proof (sv_next_id _ Hs) as Hni.
  set (s1 := mkScheduler (sch_next_id s + 1) _ _ _ _ _).
  assert (sched_inv s1) as Hs1.
  { destruct Hs as [Hso Hid He Hsc Ht Hc Hn1 Hn2]. split; simpl; try (done || lia).
    intros id sr H. destruct (Hsc _ _ H) as (? & ? & ? & n & ? & ?). split_and!; try done. exists n.
    split; [done | lia]. }
  set (name := schedule_name (sch_next_id s)).
  assert (sch_schedules s !! name = None) as Hfresh.
  { destruct (sch_schedules s !! name) as [sr|] eqn:E; [| done].
    destruct (sv_schedule _ Hs _ _ E) as (_ & _ & _ & n & Hn & ?).
    apply schedule_name_inj in Hn; lia. }
  pose proof (enqueue_cases s1 due due name Hs1) as Hq.
  destruct (Z.ltb_spec (sch_next_order s1) (int_max u64)) as [Hlt|]; [rewrite Hq | destruct Hq as [e ->]; done].
  destruct Hs1 as [Hso Hid He Hsc Ht Hc Hn1 Hn2]. simpl in *. split; simpl.
  - by apply (heap_push_sorted dsle).
  - rewrite heap_push_ids. apply NoDup_cons. split; [| done]. simpl.
    intros (e & -> & Hin)%list_elem_of_fmap. destruct (He e Hin) as (_ & _ & sr & Hsr & _).
    congruence.
  - intros e. rewrite (heap_push_perm dsle). intros [->|Hin]%elem_of_cons; simpl.
    + split_and!; [lia | lia | lia |]. rewrite lookup_insert_eq. eauto.
    + destruct (He e Hin) as (? & ? & sr & Hsr & ?). split_and!; try lia.
      exists sr. rewrite lookup_insert_ne; [done |]. intros E. congruence.
  - intros id sr. rewrite lookup_insert_Some. intros [[<- <-]|[Hne H]]; simpl.
    + split_and!; [done | | apply lookup_insert_eq | exists (sch_next_id s); split; [done | lia]].
      rewrite heap_push_ids. by left.
    + destruct (Hsc _ _ H) as (? & ? & Htg & n & ? & ?). split_and!; [done | | | by eauto].
      * rewrite heap_push_ids. by right.
      * rewrite lookup_insert_ne; [done |]. intros E. rewrite <-E in Htg. congruence.
  - intros t id. rewrite lookup_insert_Some. intros [[<- <-]|[Hne H]].
    + rewrite lookup_insert_eq. by eexists.
    + destruct (Ht _ _ H) as (sr & Hsr & ?). exists sr. rewrite lookup_insert_ne; [done |].
      intros E. congruence.
  - intros id [sr Hsr]%Hc. destruct (decide (id = name)) as [->|]; [congruence |].
    rewrite lookup_insert_ne by done. eauto.
  - done.
  - lia.
Qed.

(** Requeueing the head of the heap under the next order *)
Lemma requeue_inv s e rest a :
  sched_inv s -> sch_due s = e :: rest -> ds_due e <= a -> sch_next_order s < int_max u64 ->
  sched_inv (mkScheduler (sch_next_id s) (sch_schedules s) (sch_targets s)
    (heap_push dsle (mkDueSchedule a (sch_next_order s) (ds_due e) (ds_id e)) rest) (sch_claims s)
    (sch_next_order s + 1)).
Proof.
  intros [Hso Hid He Hsc Ht Hc Hn1 Hn2] E Ha Hlt. rewrite E in *.
  assert (forall l, ds_id <$> heap_push dsle (mkDueSchedule a (sch_next_order s) (ds_due e) (ds_id e)) l
                    ≡ₚ ds_id <$> e :: l) as Hp by (intros; by rewrite heap_push_ids).
  split; simpl; try done.
  - inversion Hso. by apply (heap_push_sorted dsle).
  - by rewrite Hp.
  - intros e'. rewrite (heap_push_perm dsle). intros [->|Hin]%elem_of_cons; simpl.
    + destruct (He e ltac:(by left)) as (? & ? & ?). split_and!; try (done || lia).
    + destruct (He e' ltac:(by right)) as (? & ? & ?). split_and!; try (done || lia).
  - intros id sr Hsr. rewrite Hp. auto.
  - lia.
Qed.

Lemma add_claim_inv s id c :
  sched_inv s -> is_Some (sch_schedules s !! id) -> sched_inv (set_claims s (<[id := c]> (sch_claims s))).
Proof.
  intros [Hso Hid He Hsc Ht Hc Hn1 Hn2] H. split; simpl; try done.
  intros j [x [[<- _]|[_ Hj]]%lookup_insert_Some]; eauto.
Qed.

(** One inspection of [claim_due]: the head is due; what it becomes *)
Definition inspected (s : MemoryFlowScheduler) (e : DueSchedule) (rest : list DueSchedule)
    (now : SystemTime) : MemoryFlowScheduler :=
  mkScheduler (sch_next_id s) (sch_schedules s) (sch_targets s)
    (heap_push dsle (mkDueSchedule (if live_claim s (ds_id e) now then now else ds_available e)
       (sch_next_order s) (ds_due e) (ds_id e)) rest) (sch_claims s) (sch_next_order s + 1).

Lemma claim_step_eq fuel s owner now expires claimed e rest :
  sched_inv s -> sch_due s = e :: rest -> ds_available e <= now -> sch_next_order s < int_max u64 ->
  exists sr, sch_schedules s !! ds_id e = Some sr /\ sr_id sr = ds_id e /\ sr_due sr = ds_due e
  /\ sched_inv (inspected s e rest now)
  /\ claim_due_loop (S fuel) s owner now expires claimed =
     if live_claim s (ds_id e) now
     then claim_due_loop fuel (inspected s e rest now) owner now expires claimed
     else claim_due_loop fuel (set_claims (inspected s e rest now)
            (<[ds_id e := mkClaim owner expires]> (sch_claims s))) owner now expires (claimed ++ [sr]).
Proof.
  intros Hs E Ha Hlt.
  destruct (sv_entry _ Hs e ltac:(rewrite E; by left)) as (Hda & _ & sr & Hsr & Hdue).
  destruct (sv_schedule _ Hs _ _ Hsr) as (Hid & _). exists sr.
  assert (sched_inv (inspected s e rest now)) as Hi.
  { apply requeue_inv; try done. case_match; lia. }
  split_and!; try done. cbn [claim_due_loop]. rewrite E. rewrite (proj2 (Z.ltb_ge now (ds_available e))) by lia.
  cbn [sch_schedules set_heap]. rewrite Hsr, Hid, Hdue, Z.eqb_refl.
  unfold enqueue_due. cbn [sch_next_order set_heap].
  pose proof (sv_next_order _ Hs). rewrite checked_fits by (split; [int_bounds; lia | lia]).
  change (live_claim (set_heap s rest) (ds_id e) now) with (live_claim s (ds_id e) now).
  unfold inspected. by destruct (live_claim s (ds_id e) now).
Qed.

Lemma claim_due_loop_inv fuel s owner now expires claimed :
  sched_inv s -> sched_inv (claim_due_loop fuel s owner now expires claimed).2.
Proof.
  revert s claimed. induction fuel as [|fuel IH]; intros s claimed Hs; [done |].
  destruct (sch_due s) as [|e rest] eqn:E; [by cbn [claim_due_loop]; rewrite E |].
  destruct (Z.ltb_spec now (ds_available e)) as [Hlt|Hle].
  { cbn [claim_due_loop]. rewrite E. by rewrite (proj2 (Z.ltb_lt _ _) Hlt). }
  destruct (Z.ltb_spec (sch_next_order s) (int_max u64)) as [Hn|Hn].
  - destruct (claim_step_eq fuel s owner now expires claimed e rest Hs E Hle Hn) as (sr & Hsr & Hid & _ & Hi & ->).
    case_match; apply IH; [done |]. apply (add_claim_inv (inspected s e rest now)); [done |]. simpl. by rewrite Hsr.
  - destruct (sv_entry _ Hs e ltac:(rewrite E; by left)) as (_ & _ & sr & Hsr & _).
    cbn [claim_due_loop]. rewrite E, (proj2 (Z.ltb_ge _ _) Hle). cbn [sch_schedules set_heap]. rewrite Hsr.
    unfold enqueue_due. cbn [sch_next_order set_heap].
    destruct (checked u64 _) eqn:Ec; [apply checked_Some in Ec; lia |]. simpl.
    assert (heap_push dsle e rest = e :: rest) as ->.
    { pose proof (sv_sorted _ Hs) as Hso. rewrite E in Hso. inversion Hso as [|? ? Hr Hf]; subst.
      destruct rest as [|y rest]; simpl; [done |]. rewrite decide_True; [done |].
      by apply Forall_inv in Hf. }
    rewrite <-E. by destruct s.
Qed.

Lemma claim_due_inv s owner now lease limit : sched_inv s -> sched_inv (claim_due s owner now lease limit).2.
Proof.
  intros Hs. unfold claim_due. destruct (lease =? 0); [done |]. destruct (lease_deadline now lease); [| done].
  by apply claim_due_loop_inv.
Qed.

(** [take_due] *)

Definition due_entry (now : SystemTime) (e : DueSchedule) : Prop := ds_available e <= now.

#[local] Instance due_entry_dec now e : Decision (due_entry now e).
Proof. unfold due_entry. apply _. Defined.

Lemma sorted_not_due e rest now :
  StronglySorted dsle (e :: rest) -> now < ds_available e -> forall x, x ∈ e :: rest -> ~ due_entry now x.
Proof.
  intros Hs Hlt x. inversion Hs as [|? ? _ Hf]; subst. rewrite Forall_forall in Hf.
  intros [->|Hin]%elem_of_cons; unfold due_entry; [lia |]. destruct (Hf _ Hin) as [?|[? _]]; lia.
Qed.

Lemma live_claim_delete s id j now :
  j <> id -> live_claim (set_claims s (delete id (sch_claims s))) j now = live_claim s j now.
Proof. intros Hne. unfold live_claim. simpl. by rewrite lookup_delete_ne. Qed.

(** What the loop does, for any [live] that says which of its entries are claimed *)
Record took (s : MemoryFlowScheduler) (now : SystemTime) (live : DueSchedule -> bool)
    (out : list string * list DueSchedule * MemoryFlowScheduler) (taken : list string)
    (claimed : list DueSchedule) : Prop := {
  tk_gone : out.1.1 = taken ++ (ds_id <$> filter (fun e => live e = false)
                                 (filter (due_entry now) (sch_due s)));
  tk_kept : out.1.2 = claimed ++ filter (fun e => live e = true) (filter (due_entry now) (sch_due s));
  tk_heap : sch_due out.2 = filter (fun e => ~ due_entry now e) (sch_due s);
  tk_rest : out.2 = set_claims (set_heap s (sch_due out.2)) (sch_claims out.2);
  tk_claims id : sch_claims out.2 !! id
    = if decide (id ∈ ds_id <$> filter (fun e => live e = false) (filter (due_entry now) (sch_due s)))
      then None else sch_claims s !! id
}.

Lemma took_nothing s now live taken claimed :
  (forall e, e ∈ sch_due s -> ~ due_entry now e) -> took s now live (taken, claimed, s) taken claimed.
Proof.
  intros H. split; simpl; rewrite ?(filter_none (due_entry now)) by done; simpl; rewrite ?app_nil_r; try done.
  - by rewrite filter_all.
  - by destruct s.
Qed.

Lemma take_loop_spec fuel s now taken claimed live :
  StronglySorted dsle (sch_due s) -> NoDup (ds_id <$> sch_due s) -> (length (sch_due s) <= fuel)%nat ->
  (forall e, e ∈ sch_due s -> live e = live_claim s (ds_id e) now) ->
  took s now live (take_loop fuel s now taken claimed) taken claimed.
Proof.
  revert s taken claimed. induction fuel as [|fuel IH]; intros s taken claimed Hso Hnd Hlen Hlive.
  { apply took_nothing. destruct (sch_due s); simpl in *; [set_solver | lia]. }
  cbn [take_loop]. destruct (sch_due s) as [|e rest] eqn:E.
  { apply took_nothing. rewrite E. set_solver. }
  destruct (Z.leb_spec (ds_available e) now) as [Hle|Hlt].
  2: { apply took_nothing. rewrite E. by apply sorted_not_due. }
  apply NoDup_cons in Hnd as [Hfresh Hnd]. inversion Hso as [|? ? Hso' _]; subst. simpl in Hlen.
  change (live_claim (set_heap s rest) (ds_id e) now) with (live_claim s (ds_id e) now).
  rewrite <-Hlive by by left.
  assert (filter (due_entry now) (e :: rest) = e :: filter (due_entry now) rest) as Hf1
    by (by rewrite filter_cons_True).
  assert (filter (fun e => ~ due_entry now e) (e :: rest) = filter (fun e => ~ due_entry now e) rest) as Hf2
    by (by rewrite filter_cons_False by (unfold due_entry; lia)).
  destruct (live e) eqn:El.
  - destruct (IH (set_heap s rest) taken (claimed ++ [e]) Hso' Hnd) as [H1 H2 H3 H4 H5];
      [simpl; lia | intros x Hx; apply Hlive; by right |].
    split; rewrite ?E, ?Hf1, ?Hf2, ?filter_cons, ?El; simpl in *; try done.
    by rewrite H2, <-app_assoc.
  - destruct (IH (set_claims (set_heap s rest) (delete (ds_id e) (sch_claims (set_heap s rest))))
      (taken ++ [ds_id e]) claimed Hso' Hnd) as [H1 H2 H3 H4 H5]; [simpl; lia | |].
    { intros x Hx. rewrite Hlive by by right. symmetry. apply (live_claim_delete (set_heap s rest)).
      intros Ex. apply Hfresh. rewrite <-Ex. by apply list_elem_of_fmap_2. }
    split; rewrite ?E, ?Hf1, ?Hf2, ?filter_cons, ?El; simpl in *; try done.
    + by rewrite H1, <-app_assoc.
    + intros id. rewrite H5. destruct (decide (id = ds_id e)) as [->|Hne].
      * rewrite lookup_delete_eq. rewrite (decide_True (P := ds_id e ∈ _ :: _)) by by left. by case_decide.
      * rewrite lookup_delete_ne by done. do 2 case_decide; set_solver.
Qed.

Lemma push_all_sorted l h :
  StronglySorted dsle h ->
  StronglySorted dsle (foldl (fun heap e => heap_push dsle e heap) h l)
  /\ foldl (fun heap e => heap_push dsle e heap) h l ≡ₚ l ++ h.
Proof.
  revert h. induction l as [|e l IH]; intros h Hs; simpl; [done |].
  destruct (IH (heap_push dsle e h)) as [H1 H2]; [by apply (heap_push_sorted dsle) |].
  split; [done |]. by rewrite H2, (heap_push_perm dsle), Permutation_middle.
Qed.

Lemma take_schedules_spec s ids out :
  tables_ok s -> NoDup ids -> (forall id, id ∈ ids -> is_Some (sch_schedules s !! id)) ->
  exists s' new, take_schedules s ids out = (out ++ new, s')
  /\ Forall2 (fun id sr => sch_schedules s !! id = Some sr) ids new
  /\ (forall id, sch_schedules s' !! id = if decide (id ∈ ids) then None else sch_schedules s !! id)
  /\ (forall t id, sch_targets s' !! t = Some id <-> sch_targets s !! t = Some id /\ id ∉ ids)
  /\ sch_due s' = sch_due s /\ sch_claims s' = sch_claims s /\ sch_next_id s' = sch_next_id s
  /\ sch_next_order s' = sch_next_order s.
Proof.
  revert s out. induction ids as [|id ids IH]; intros s out Hs Hnd Hin; simpl.
  { exists s, []. rewrite app_nil_r. split_and!; try done. set_solver. }
  apply NoDup_cons in Hnd as [Hni Hnd]. destruct (Hin id ltac:(by left)) as [sr Hsr]. rewrite Hsr.
  destruct (IH (forget_schedule (drop_schedule s id) sr) (out ++ [sr])) as
    (s' & new & -> & Hf & Hsc & Htg & ? & ? & ? & ?); [by apply forget_tables | done | |].
  { intros j Hj. simpl. rewrite lookup_delete_ne by (intros ->; done). apply Hin. by right. }
  exists s', (sr :: new). rewrite <-app_assoc. split_and!; try done.
  - constructor; [done |]. eapply Forall2_impl; [exact Hf |]. simpl.
    intros j sr' [_ ?]%lookup_delete_Some. done.
  - intros j. rewrite Hsc. simpl. destruct (decide (j = id)) as [->|Hne].
    + rewrite lookup_delete_eq, (decide_True (P := id ∈ id :: _)) by by left. by case_decide.
    + rewrite lookup_delete_ne by done. do 2 case_decide; set_solver.
  - intros t j. rewrite Htg, (forget_targets s id sr Hs Hsr), not_elem_of_cons. naive_solver.
Qed.

(** Every due wake-up without a live claim is taken and forgotten, and nothing else. *)
Lemma take_due_spec s now :
  sched_inv s ->
  let gone := ds_id <$> filter (fun e => live_claim s (ds_id e) now = false)
                (filter (due_entry now) (sch_due s)) in
  exists out s', take_due s now = (out, s') /\ sched_inv s'
  /\ Forall2 (fun id sr => sch_schedules s !! id = Some sr) gone out
  /\ forall id, sch_schedules s' !! id = if decide (id ∈ gone) then None else sch_schedules s !! id.
Proof.
  intros Hs gone. unfold take_due.
  pose proof (take_loop_spec (length (sch_due s)) s now [] [] (fun e => live_claim s (ds_id e) now)
    (sv_sorted _ Hs) (sv_ids _ Hs) ltac:(lia) ltac:(done)) as [Hg Hk Hh Hr Hc].
  destruct (take_loop _ s now [] []) as [[taken claimed] s1]. simpl in *.
  assert (taken = gone) as -> by done. clear Hg.
  set (s2 := set_heap s1 _).
  assert (sch_schedules s2 = sch_schedules s) as Es by (unfold s2; by rewrite Hr).
  assert (sch_targets s2 = sch_targets s) as Et by (unfold s2; by rewrite Hr).
  assert (gone `sublist_of` ds_id <$> sch_due s) as Hsub.
  { unfold gone. apply (fmap_sublist ds_id). etrans; apply sublist_filter. }
  assert (NoDup gone) as Hnd by (eapply sublist_NoDup; [apply (sv_ids _ Hs) | done]).
  destruct (take_schedules_spec s2 gone []) as (s' & new & -> & Hf & Hsc & Htg & Hd & Hcl & Hn1 & Hn2).
  - destruct (sched_tables _ Hs). split; by rewrite ?Es, ?Et.
  - done.
  - intros id Hid. rewrite Es. pose proof (elem_of_sublist _ _ _ Hid Hsub) as (e & -> & Hin)%list_elem_of_fmap.
    destruct (sv_entry _ Hs e Hin) as (_ & _ & sr & -> & _). eauto.
  - exists new, s'. rewrite Es, Et in *.
    assert (forall e, e ∈ sch_due s -> ds_id e ∈ gone <->
              live_claim s (ds_id e) now = false /\ due_entry now e) as Hgone.
    { intros e Hin. unfold gone. rewrite list_elem_of_fmap. setoid_rewrite list_elem_of_filter.
      setoid_rewrite list_elem_of_filter. split; [| naive_solver].
      intros (e' & E & ? & ? & Hin'). assert (e = e') as ->; [| done].
      apply list_elem_of_lookup in Hin as [i Hi], Hin' as [j Hj]. assert (i = j) as ->; [| congruence].
      eapply (NoDup_lookup _ _ _ _ (sv_ids _ Hs)); rewrite list_lookup_fmap; [by rewrite Hi | rewrite Hj, E; done]. }
    destruct (push_all_sorted claimed (sch_due s1)) as [Hso Hperm].
    { rewrite Hh. eapply sublist_sorted; [apply sublist_filter | apply Hs]. }
    split_and!; try done. apply (purge_inv s s' gone); try done.
    + by rewrite Hd.
    + rewrite Hd. simpl. rewrite Hperm, Hk, Hh. simpl.
      rewrite <-(filter_app_complement (due_entry now) (filter (fun e => ds_id e ∉ gone) (sch_due s))).
      rewrite !list_filter_filter. apply Permutation_app; apply Permutation_refl', filter_ext_in.
      * intros e Hin. rewrite (Hgone e Hin). destruct (live_claim s (ds_id e) now); naive_solver.
      * intros e Hin. rewrite (Hgone e Hin). tauto.
    + intros id. rewrite Hcl. unfold s2. simpl. rewrite Hc. case_decide; [by intros [? ?] | done].
    + rewrite Hn1. unfold s2. by rewrite Hr.
    + rewrite Hn2. unfold s2. by rewrite Hr.
Qed.

(** *** Histories *)

Inductive schop :=
| OSchedule (flow_id state_id : string) (due_at : SystemTime)
| OCancel (schedule_id : string) (clock : SystemTime)
| OClaim (owner : string) (now : SystemTime) (lease_for : Duration) (limit : nat)
| OAck (owner schedule_id : string)
| ORelease (owner schedule_id : string)
| ORenew (owner schedule_id : string) (now : SystemTime) (lease_for : Duration)
| OTake (now : SystemTime).

Definition schstep (s : MemoryFlowScheduler) (op : schop) : MemoryFlowScheduler :=
  match op with
  | OSchedule flow state due => (schedule_resume s flow state due).2
  | OCancel id clock => (cancel_resume s id clock).2
  | OClaim owner now lease limit => (claim_due s owner now lease limit).2
  | OAck owner id => (ack_due s owner id).2
  | ORelease owner id => (release_due s owner id).2
  | ORenew owner id now lease => (renew_due s owner id now lease).2
  | OTake now => (take_due s now).2
  end.

Definition schrun (ops : list schop) : MemoryFlowScheduler := foldl schstep scheduler_default ops.

Lemma schstep_inv s op : sched_inv s -> sched_inv (schstep s op).
Proof.
  intros Hs. destruct op; simpl; auto using schedule_resume_inv, cancel_resume_inv, claim_due_inv, ack_due_inv,
    release_due_inv, renew_due_inv.
  destruct (take_due_spec s now Hs) as (out & s' & -> & ? & _). done.
Qed.

Lemma schrun_inv ops : sched_inv (schrun ops).
Proof.
  unfold schrun. generalize scheduler_default_inv. generalize scheduler_default as s.
  induction ops as [|op ops IH]; intros s Hs; simpl; [done |]. apply IH. by apply schstep_inv.
Qed.

(** ** Claims *)

Lemma claim_loop_sound fuel s owner now expires claimed l s' :
  sched_inv s -> now < expires -> claim_due_loop fuel s owner now expires claimed = (Ok l, s') ->
  exists new, l = claimed ++ new /\ (length new <= fuel)%nat /\ NoDup (sr_id <$> new)
  /\ (forall sr, sr ∈ new -> sch_schedules s !! sr_id sr = Some sr /\ sr_due sr <= now
        /\ live_claim s (sr_id sr) now = false)
  /\ (forall id, sch_claims s' !! id
        = if decide (id ∈ sr_id <$> new) then Some (mkClaim owner expires) else sch_claims s !! id)
  /\ sch_schedules s' = sch_schedules s /\ sch_targets s' = sch_targets s.
Proof.
  intros Hs Hexp. revert s claimed Hs. induction fuel as [|fuel IH]; intros s claimed Hs.
  { intros [= <- <-]. exists []. rewrite app_nil_r. split_and!; try done; [constructor | set_solver]. }
  destruct (sch_due s) as [|e rest] eqn:E.
  { cbn [claim_due_loop]. rewrite E. intros [= <- <-]. exists [].
    rewrite app_nil_r. split_and!; simpl; try (done || lia); [constructor | set_solver]. }
  destruct (Z.ltb_spec now (ds_available e)) as [Hlt|Hle].
  { cbn [claim_due_loop]. rewrite E, (proj2 (Z.ltb_lt _ _) Hlt). intros [= <- <-]. exists [].
    rewrite app_nil_r. split_and!; simpl; try (done || lia); [constructor | set_solver]. }
  destruct (Z.ltb_spec (sch_next_order s) (int_max u64)) as [Hn|Hn].
  2: { destruct (sv_entry _ Hs e ltac:(rewrite E; by left)) as (_ & _ & sr & Hsr & _).
    cbn [claim_due_loop]. rewrite E, (proj2 (Z.ltb_ge _ _) Hle). cbn [sch_schedules set_heap]. rewrite Hsr.
    unfold enqueue_due. cbn [sch_next_order set_heap].
    destruct (checked u64 _) eqn:Ec; [apply checked_Some in Ec; lia | done]. }
  destruct (claim_step_eq fuel s owner now expires claimed e rest Hs E Hle Hn) as (sr & Hsr & Hid & Hdue & Hi & ->).
  destruct (live_claim s (ds_id e) now) eqn:El.
  - intros H. apply IH in H as (new & ? & ? & ? & Hnew & Hcl & ? & ?); [| done].
    exists new. split_and!; try (done || lia).
  - intros H. apply IH in H as (new & -> & ? & Hnd & Hnew & Hcl & ? & ?).
    2: { apply (add_claim_inv (inspected s e rest now)); [done |]. simpl. by rewrite Hsr. }
    assert (ds_id e ∉ sr_id <$> new) as Hni.
    { intros (sr' & Ei & Hin)%list_elem_of_fmap. apply Hnew in Hin as (_ & _ & Hl).
      rewrite <-Ei in Hl. unfold live_claim in Hl. simpl in Hl. rewrite lookup_insert_eq in Hl. simpl in Hl. bool_prop. lia. }
    exists (sr :: new). rewrite <-app_assoc. split_and!; simpl; try (done || lia).
    + constructor; [by rewrite Hid | done].
    + intros x [->|Hin]%elem_of_cons.
      * rewrite Hid, Hdue. split_and!; [done | | done].
        destruct (sv_entry _ Hs e ltac:(rewrite E; by left)). lia.
      * destruct (Hnew x Hin) as (Hx & ? & Hl). split_and!; [done | done |].
        unfold live_claim in *. simpl in Hl. rewrite lookup_insert_ne in Hl; [done |].
        intros Ex. apply Hni. rewrite Ex. by apply list_elem_of_fmap_2.
    + intros id. rewrite Hcl, Hid. simpl. destruct (decide (id = ds_id e)) as [->|Hne].
      * rewrite lookup_insert_eq, (decide_True (P := ds_id e ∈ _ :: _)) by by left. by case_decide.
      * rewrite lookup_insert_ne by done. do 2 case_decide; set_solver.
Qed.

(** *** Completeness

    The weight of an entry: how often it can be inspected before it is behind every entry
    that was due when it was first met. *)
Definition weight (s : MemoryFlowScheduler) (now : SystemTime) (e : DueSchedule) : Z :=
  if live_claim s (ds_id e) now then 1 else 2.

Lemma heap_push_split y l1 x l2 :
  StronglySorted dsle (l1 ++ x :: l2) ->
  heap_push dsle y (l1 ++ x :: l2)
  = if decide (dsle y x) then heap_push dsle y l1 ++ x :: l2 else l1 ++ x :: heap_push dsle y l2.
Proof.
  induction l1 as [|z l1 IH]; intros Hs; simpl.
  { by case_decide. }
  inversion Hs as [|? ? Hs' Hf]; subst. rewrite IH by done. destruct (decide (dsle y z)) as [Hyz|Hyz].
  - rewrite decide_True; [done |]. transitivity z; [done |]. rewrite Forall_forall in Hf. apply Hf. set_solver.
  - by case_decide.
Qed.

Lemma claimed_stays fuel s owner now expires claimed l s' sr :
  sched_inv s -> now < expires -> claim_due_loop fuel s owner now expires claimed = (Ok l, s') ->
  sr ∈ claimed -> sr ∈ l.
Proof.
  intros Hs Hexp H Hin. apply claim_loop_sound in H as (new & -> & _); [| done..]. set_solver.
Qed.

(** Unless the order counter runs out, the loop returns. *)
Lemma claim_loop_returns fuel s owner now expires claimed :
  sched_inv s -> sch_next_order s + Z.of_nat fuel <= int_max u64 ->
  exists l s', claim_due_loop fuel s owner now expires claimed = (Ok l, s').
Proof.
  revert s claimed. induction fuel as [|fuel IH]; intros s claimed Hs Hn; [by do 2 eexists |].
  destruct (sch_due s) as [|e rest] eqn:E; [cbn [claim_due_loop]; rewrite E; by do 2 eexists |].
  destruct (Z.ltb_spec now (ds_available e)) as [Hlt|Hle].
  { cbn [claim_due_loop]. rewrite E, (proj2 (Z.ltb_lt _ _) Hlt). by do 2 eexists. }
  destruct (claim_step_eq fuel s owner now expires claimed e rest Hs E Hle ltac:(lia)) as (sr & Hsr & _ & _ & Hi & ->).
  case_match; apply IH; simpl; try lia; [done |].
  apply (add_claim_inv (inspected s e rest now)); [done |]. simpl. by rewrite Hsr.
Qed.

Lemma sumZ_push f y l : sumZ f (heap_push dsle y l) = f y + sumZ f l.
Proof. induction l as [|x l IH]; simpl; [done |]. case_decide; simpl; lia. Qed.

Lemma sumZ_ext {A} (f g : A -> Z) l : (forall x, x ∈ l -> f x = g x) -> sumZ f l = sumZ g l.
Proof. induction l as [|x l IH]; intros Hx; simpl; [done |]. rewrite IH, Hx by set_solver. done. Qed.

(** With enough fuel the loop returns, and it has claimed the entry [x]. *)
Lemma claim_loop_reaches fuel s owner now expires claimed pre x post :
  sched_inv s -> now < expires -> sch_next_order s + Z.of_nat fuel <= int_max u64 ->
  sch_due s = pre ++ x :: post -> ds_available x <= now -> live_claim s (ds_id x) now = false ->
  sumZ (weight s now) pre < Z.of_nat fuel ->
  exists sr l s', claim_due_loop fuel s owner now expires claimed = (Ok l, s')
    /\ sch_schedules s !! ds_id x = Some sr /\ sr ∈ l.
Proof.
  intros Hs Hexp. revert s claimed pre post Hs.
  induction fuel as [|fuel IH]; intros s claimed pre post Hs Hn E Hx Hl Hw.
  { pose proof (sumZ_nonneg (weight s now) ltac:(unfold weight; intros; case_match; lia) pre). lia. }
  pose proof (sv_sorted _ Hs) as Hso. rewrite E in Hso.
  destruct pre as [|h pre].
  - (* the head is [x] itself *)
    destruct (claim_step_eq fuel s owner now expires claimed x post Hs E Hx ltac:(lia)) as (sr & Hsr & Hid & _ & Hi & ->).
    rewrite Hl. exists sr.
    assert (sched_inv (set_claims (inspected s x post now) (<[ds_id x := mkClaim owner expires]> (sch_claims s)))) as Hi'.
    { apply (add_claim_inv (inspected s x post now)); [done |]. simpl. by rewrite Hsr. }
    destruct (claim_loop_returns fuel _ owner now expires (claimed ++ [sr]) Hi') as (l & s' & Hr).
    { simpl. lia. }
    exists l, s'. split_and!; [done | done |].
    apply (claimed_stays fuel _ owner now expires (claimed ++ [sr]) l s' sr Hi' Hexp Hr). set_solver.
  - assert (dsle h x) as Hhx.
    { inversion Hso as [|? ? _ Hf]; subst. rewrite Forall_forall in Hf. apply Hf. set_solver. }
    assert (ds_available h <= now) as Hh by (destruct Hhx as [?|[? _]]; lia).
    destruct (sv_entry _ Hs x ltac:(rewrite E; set_solver)) as (_ & Hox & _).
    destruct (claim_step_eq fuel s owner now expires claimed h (pre ++ x :: post) Hs E Hh ltac:(lia))
      as (sr & Hsr & Hid & _ & Hi & ->).
    pose proof (sv_ids _ Hs) as Hnd. rewrite E in Hnd. apply NoDup_cons in Hnd as [Hfresh _].
    assert (forall e, e ∈ pre ++ x :: post -> ds_id e <> ds_id h) as Hother.
    { intros e He Ee. apply Hfresh. rewrite <-Ee. by apply list_elem_of_fmap_2. }
    simpl in Hw. inversion Hso as [|? ? Hso' _]; subst.
    destruct (live_claim s (ds_id h) now) eqn:Eh; unfold weight at 1 in Hw; rewrite Eh in Hw.
    + apply (IH _ claimed pre (heap_push dsle (mkDueSchedule now (sch_next_order s) (ds_due h) (ds_id h)) post) Hi);
        try (done || (simpl; lia)).
      2: { change (weight (inspected s h (pre ++ x :: post) now) now) with (weight s now). lia. }
      simpl. rewrite Eh, heap_push_split by done. rewrite decide_False; [done |].
      intros [?|(? & [?|(? & _)])]; simpl in *; lia.
    + set (s2 := set_claims _ _).
      assert (sched_inv s2) as Hi2.
      { apply (add_claim_inv (inspected s h (pre ++ x :: post) now)); [done |]. simpl. by rewrite Hsr. }
      assert (forall e, e ∈ pre ++ x :: post -> live_claim s2 (ds_id e) now = live_claim s (ds_id e) now) as Hsame.
      { intros e He. unfold live_claim, s2. simpl. by rewrite lookup_insert_ne by (symmetry; auto). }
      assert (sumZ (weight s2 now) pre = sumZ (weight s now) pre) as Hsum.
      { apply sumZ_ext. intros e He. unfold weight. by rewrite Hsame by set_solver. }
      set (h' := mkDueSchedule (ds_available h) (sch_next_order s) (ds_due h) (ds_id h)).
      assert (weight s2 now h' = 1) as Hw1.
      { unfold weight, live_claim, s2. simpl. rewrite lookup_insert_eq. simpl. by rewrite (proj2 (Z.ltb_lt _ _)). }
      assert (live_claim s2 (ds_id x) now = false) as Hx2 by (rewrite Hsame; [done | set_solver]).
      assert (sch_due s2 = heap_push dsle h' (pre ++ x :: post)) as Hd2 by (unfold s2; simpl; by rewrite Eh).
      rewrite heap_push_split in Hd2 by done. case_decide.
      * by apply (IH s2 _ (heap_push dsle h' pre) post Hi2); simpl; rewrite ?sumZ_push; try (done || lia).
      * by apply (IH s2 _ pre (heap_push dsle h' post) Hi2); simpl; try (done || lia).
Qed.

Lemma enqueue_schedules s a d id : sch_schedules (enqueue_due s a d id).2 = sch_schedules s.
Proof. unfold enqueue_due. by destruct (checked u64 _). Qed.

Lemma claim_loop_schedules fuel s owner now expires claimed :
  sch_schedules (claim_due_loop fuel s owner now expires claimed).2 = sch_schedules s.
Proof.
  revert s claimed. induction fuel as [|fuel IH]; intros s claimed; simpl; [done |].
  destruct (sch_due s) as [|e rest]; [done |]. destruct (now <? ds_available e); [done |].
  destruct (sch_schedules s !! ds_id e) as [sr|]; [| by rewrite IH].
  pose proof (enqueue_schedules (set_heap s rest)
    (if negb (live_claim (set_heap s rest) (sr_id sr) now) then ds_available e else now) (ds_due e) (sr_id sr)) as He.
  destruct (enqueue_due _ _ _ _) as [[[]|err] s1]; simpl in *; [| done].
  repeat (case_match; rewrite ?IH; simpl; try done).
Qed.

(** A claim on [id] that is live at [t] *)
Definition claimed_at (s : MemoryFlowScheduler) (id : string) (t : SystemTime) : Prop :=
  exists c, sch_claims s !! id = Some c /\ t < sc_expires c.

(** What ends the wake-up [id] in the state [s]: cancelling it while no claim on it is live,
    acknowledging it as the owner of its claim, or taking what is due when its heap entry is
    available and no claim on it is live *)
Definition ends (s : MemoryFlowScheduler) (id : string) (op : schop) : Prop :=
  match op with
  | OCancel j clock => j = id /\ ~ claimed_at s id clock
  | OAck owner j => j = id /\ exists c, sch_claims s !! id = Some c /\ sc_owner c = owner
  | OTake now => (exists e, e ∈ sch_due s /\ ds_id e = id /\ ds_available e <= now) /\ ~ claimed_at s id now
  | _ => False
  end.

(** The operation reports that it removed the wake-up. *)
Definition removal_reported (s : MemoryFlowScheduler) (sr : ScheduledResume) (op : schop) : Prop :=
  match op with
  | OCancel j clock => j = sr_id sr /\ (cancel_resume s j clock).1 = Ok true
  | OAck owner j => j = sr_id sr /\ (ack_due s owner j).1 = Ok true
  | OTake now => sr ∈ (take_due s now).1
  | _ => False
  end.

(** No operation of the history ends the wake-up. *)
Fixpoint survives (s : MemoryFlowScheduler) (id : string) (ops : list schop) : Prop :=
  match ops with
  | [] => True
  | op :: ops => ~ ends s id op /\ survives (schstep s op) id ops
  end.

Lemma live_claim_at s id t : live_claim s id t = true <-> claimed_at s id t.
Proof.
  unfold live_claim, claimed_at. destruct (sch_claims s !! id) as [c|]; [| naive_solver].
  rewrite Z.ltb_lt. naive_solver.
Qed.

Lemma live_claim_not_at s id t : live_claim s id t = false <-> ~ claimed_at s id t.
Proof. rewrite <- live_claim_at. by destruct (live_claim s id t). Qed.

Lemma owns_claim_spec s id owner :
  owns_claim s id owner = true <-> exists c, sch_claims s !! id = Some c /\ sc_owner c = owner.
Proof.
  unfold owns_claim. destruct (sch_claims s !! id) as [c|]; [| naive_solver].
  rewrite bool_decide_eq_true. naive_solver.
Qed.

#[export] Instance claimed_at_dec s id t : Decision (claimed_at s id t).
Proof. destruct (live_claim s id t) eqn:E; [left; by apply live_claim_at | right; by apply live_claim_not_at]. Defined.

(** Taking, in the terms of [ends] *)
Lemma take_due_ends s now :
  sched_inv s ->
  exists out s', take_due s now = (out, s') /\ sched_inv s'
  /\ (forall id sr, sch_schedules s !! id = Some sr -> sr ∈ out <-> ends s id (OTake now))
  /\ (forall id, ends s id (OTake now) -> sch_schedules s' !! id = None)
  /\ (forall id, ~ ends s id (OTake now) -> sch_schedules s' !! id = sch_schedules s !! id).
Proof.
  intros Hs. destruct (take_due_spec s now Hs) as (out & s' & E & Hi & Hf & Hsc). exists out, s'.
  set (gone := ds_id <$> _) in *.
  assert (forall id, id ∈ gone <-> ends s id (OTake now)) as Hgone.
  { intros id. unfold gone. rewrite list_elem_of_fmap. simpl. setoid_rewrite list_elem_of_filter.
    setoid_rewrite list_elem_of_filter. setoid_rewrite live_claim_not_at. unfold due_entry. naive_solver. }
  split_and!; [done | done | | |].
  - intros id sr Hid. rewrite <- Hgone. split.
    + intros Hin. apply list_elem_of_lookup in Hin as [i Hi2].
      destruct (Forall2_lookup_r _ _ _ _ _ Hf Hi2) as (j & Hj & Hsr).
      destruct (sv_schedule _ Hs _ _ Hid) as [E1 _], (sv_schedule _ Hs _ _ Hsr) as [E2 _].
      assert (id = j) as -> by congruence. by eapply list_elem_of_lookup_2.
    + intros Hin. apply list_elem_of_lookup in Hin as [i Hi2].
      destruct (Forall2_lookup_l _ _ _ _ _ Hf Hi2) as (sr' & Hj & Hsr). assert (sr' = sr) as -> by congruence.
      by eapply list_elem_of_lookup_2.
  - intros id Hid%Hgone. by rewrite Hsc, decide_True.
  - intros id Hid. rewrite Hsc, decide_False; [done |]. by rewrite Hgone.
Qed.

Lemma schedule_kept s op id sr :
  sched_inv s -> sch_schedules s !! id = Some sr -> ~ ends s id op ->
  sch_schedules (schstep s op) !! id = Some sr.
Proof.
  intros Hs Hid Hf. destruct op as [flow state due|j clock|owner now lease limit|owner j|owner j|owner j now lease|now];
    cbn [schstep].
  - unfold schedule_resume, allocate_schedule_id. destruct (sch_targets s !! _); [done |].
    destruct (checked u64 (sch_next_id s + 1)) as [nx|]; [| done].
    set (s1 := mkScheduler nx _ _ _ _ _).
    pose proof (enqueue_schedules s1 due due (schedule_name (sch_next_id s))) as He.
    destruct (enqueue_due _ _ _ _) as [[[]|err] s2]; simpl in *; rewrite He; [| done].
    rewrite lookup_insert_ne; [done |]. intros E.
    destruct (sv_schedule _ Hs _ _ Hid) as (_ & _ & _ & n & -> & ?). pose proof (sv_next_id _ Hs).
    apply schedule_name_inj in E; lia.
  - unfold cancel_resume. destruct (live_claim s j clock) eqn:El; [done |]. apply live_claim_not_at in El. simpl.
    destruct (sch_schedules s !! j) as [sr'|] eqn:E; [| done]. simpl.
    destruct (drop_one_inv s j sr' _ Hs E eq_refl) as (_ & H & _).
    etrans; [exact (f_equal (lookup id) H) | rewrite lookup_delete_ne; [done |]]. intros ->. by apply Hf.
  - unfold claim_due. destruct (lease =? 0); [done |]. destruct (lease_deadline now lease); [| done].
    by rewrite claim_loop_schedules.
  - unfold ack_due. destruct (owns_claim s j owner) eqn:Eo; [| done]. apply owns_claim_spec in Eo.
    destruct (sch_schedules s !! j) as [sr'|] eqn:E; [| done]. simpl.
    destruct (drop_one_inv s j sr' _ Hs E eq_refl) as (_ & H & _).
    etrans; [exact (f_equal (lookup id) H) | rewrite lookup_delete_ne; [done |]]. intros ->. by apply Hf.
  - unfold release_due. destruct (owns_claim s j owner); [| done]. simpl. by destruct (sch_schedules s !! j).
  - unfold renew_due. case_all.
  - destruct (take_due_ends s now Hs) as (out & s' & -> & _ & _ & _ & Hk). simpl. by rewrite Hk.
Qed.

(** An operation that ends a wake-up removes it and says so; one that does not reports nothing. *)
Lemma schedule_ended s op id sr :
  sched_inv s -> sch_schedules s !! id = Some sr ->
  (ends s id op <-> removal_reported s sr op) /\ (ends s id op -> sch_schedules (schstep s op) !! id = None).
Proof.
  intros Hs Hid. destruct (sv_schedule _ Hs _ _ Hid) as (Hsid & _).
  destruct op as [flow state due|j clock|owner now lease limit|owner j|owner j|owner j now lease|now];
    cbn [ends removal_reported schstep]; try done.
  - rewrite Hsid. unfold cancel_resume. destruct (live_claim s j clock) eqn:El.
    + apply live_claim_at in El. split; [split; [| naive_solver] | ]; intros [-> Hn]; done.
    + apply live_claim_not_at in El. split.
      * split; intros [-> _]; (split; [done |]); [simpl; by rewrite Hid | done].
      * intros [-> _]. simpl. rewrite Hid. simpl.
        destruct (drop_one_inv s id sr _ Hs Hid eq_refl) as (_ & H & _).
        etrans; [exact (f_equal (lookup id) H) | apply lookup_delete_eq].
  - rewrite Hsid, <- owns_claim_spec. unfold ack_due. split.
    + split; intros [-> Ho]; (split; [done |]); [by rewrite Ho, Hid |]. by destruct (owns_claim s id owner).
    + intros [-> ->]. rewrite Hid. simpl. destruct (drop_one_inv s id sr _ Hs Hid eq_refl) as (_ & H & _).
      etrans; [exact (f_equal (lookup id) H) | apply lookup_delete_eq].
  - destruct (take_due_ends s now Hs) as (out & s' & -> & _ & Hout & Hg & _). simpl in *.
    split; [symmetry; by apply Hout | apply Hg].
Qed.

(** A wake-up identity that has been given out and has ended *)
Definition retired (s : MemoryFlowScheduler) (id : string) : Prop :=
  sch_schedules s !! id = None /\ exists n, id = schedule_name n /\ 0 <= n < sch_next_id s.

Lemma claim_loop_next_id fuel s owner now expires claimed :
  sch_next_id (claim_due_loop fuel s owner now expires claimed).2 = sch_next_id s.
Proof.
  revert s claimed. induction fuel as [|fuel IH]; intros s claimed; simpl; [done |].
  destruct (sch_due s) as [|e rest]; [done |]. destruct (now <? ds_available e); [done |].
  destruct (sch_schedules s !! ds_id e) as [sr|]; [| by rewrite IH]. unfold enqueue_due.
  destruct (checked u64 _); simpl; [| done]. repeat (case_match; rewrite ?IH; simpl; try done).
Qed.

Lemma compact_next_id s : sch_next_id (compact_cancelled_schedules s) = sch_next_id s.
Proof. unfold compact_cancelled_schedules. by case_match. Qed.

Lemma take_schedules_next_id s ids out : sch_next_id (take_schedules s ids out).2 = sch_next_id s.
Proof.
  revert s out. induction ids as [|id ids IH]; intros s out; simpl; [done |].
  destruct (sch_schedules s !! id); by rewrite IH.
Qed.

Lemma take_loop_next_id fuel s now taken claimed :
  sch_next_id (take_loop fuel s now taken claimed).2 = sch_next_id s.
Proof.
  revert s taken claimed. induction fuel as [|fuel IH]; intros s taken claimed; simpl; [done |].
  destruct (sch_due s) as [|e rest]; [done |]. destruct (ds_available e <=? now); [| done].
  case_match; by rewrite IH.
Qed.

(** Only [schedule_resume] gives identities out, and each only once. *)
Lemma schstep_next_id s op : sch_next_id s <= sch_next_id (schstep s op).
Proof.
  destruct op as [flow state due|j clock|owner now lease limit|owner j|owner j|owner j now lease|now]; simpl.
  - unfold schedule_resume, allocate_schedule_id, enqueue_due. destruct (sch_targets s !! _); [done |].
    destruct (checked u64 (sch_next_id s + 1)) as [nx|] eqn:E; [| done]. apply checked_Some in E as [-> _].
    simpl. destruct (checked u64 (sch_next_order s + 1)); simpl; lia.
  - unfold cancel_resume. case_match; [done |]. simpl. case_match; [| done]. simpl. by rewrite compact_next_id.
  - unfold claim_due. case_match; [done |]. case_match; [| done]. by rewrite claim_loop_next_id.
  - unfold ack_due. case_match; [done |]. case_match; [| done]. simpl. by rewrite compact_next_id.
  - unfold release_due. case_match; [| done]. simpl. by case_match.
  - unfold renew_due. case_all.
  - unfold take_due. pose proof (take_loop_next_id (length (sch_due s)) s now [] []) as H.
    destruct (take_loop _ _ _ _ _) as [[taken claimed] s1]. by rewrite take_schedules_next_id; simpl in *; rewrite H.
Qed.

Lemma retired_stays s op id : sched_inv s -> retired s id -> retired (schstep s op) id.
Proof.
  intros Hs [Hn (n & -> & Hlt)]. pose proof (schstep_next_id s op). split; [| exists n; split; [done | lia]].
  destruct op as [flow state due|j clock|owner now lease limit|owner j|owner j|owner j now lease|now]; cbn [schstep].
  - unfold schedule_resume, allocate_schedule_id. destruct (sch_targets s !! _); [done |].
    destruct (checked u64 (sch_next_id s + 1)) as [nx|]; [| done].
    set (s1 := mkScheduler nx _ _ _ _ _).
    pose proof (enqueue_schedules s1 due due (schedule_name (sch_next_id s))) as He.
    destruct (enqueue_due _ _ _ _) as [[[]|err] s2]; simpl in *; rewrite He; [| done].
    rewrite lookup_insert_ne; [done |]. intros E. apply schedule_name_inj in E; lia.
  - unfold cancel_resume. destruct (live_claim s j clock); [done |]. simpl.
    destruct (sch_schedules s !! j) as [sr'|] eqn:E; [| done]. simpl.
    destruct (drop_one_inv s j sr' _ Hs E eq_refl) as (_ & H1 & _).
    etrans; [exact (f_equal (lookup _) H1) |]. by apply lookup_delete_None; right.
  - unfold claim_due. case_match; [done |]. case_match; [| done]. by rewrite claim_loop_schedules.
  - unfold ack_due. destruct (negb _); [done |]. destruct (sch_schedules s !! j) as [sr'|] eqn:E; [| done]. simpl.
    destruct (drop_one_inv s j sr' _ Hs E eq_refl) as (_ & H1 & _).
    etrans; [exact (f_equal (lookup _) H1) |]. by apply lookup_delete_None; right.
  - unfold release_due. destruct (owns_claim s j owner); [| done]. simpl. by destruct (sch_schedules s !! j).
  - unfold renew_due. case_all.
  - destruct (take_due_spec s now Hs) as (out & s' & -> & _ & _ & Hsc). simpl. rewrite Hsc. by case_decide.
Qed.

Lemma ended_retired s op id sr :
  sched_inv s -> sch_schedules s !! id = Some sr -> ends s id op -> retired (schstep s op) id.
Proof.
  intros Hs Hid He. split; [by eapply schedule_ended |].
  destruct (sv_schedule _ Hs _ _ Hid) as (_ & _ & _ & n & -> & ?). exists n.
  pose proof (schstep_next_id s op). split; [done | lia].
Qed.

#[export] Instance ends_dec s id op : Decision (ends s id op).
Proof.
  destruct op; simpl; try apply _.
  - destruct (owns_claim s id owner) eqn:E; [| right; intros [_ H%owns_claim_spec]; congruence].
    apply owns_claim_spec in E. destruct (decide (schedule_id = id)); [by left | right; naive_solver].
  - apply and_dec; [| apply _].
    destruct (decide (Exists (fun e => ds_id e = id /\ ds_available e <= now) (sch_due s))) as [H|H];
      rewrite Exists_exists in H; [by left | by right].
Defined.

#[export] Instance survives_dec ops : forall s id, Decision (survives s id ops).
Proof. induction ops as [|op ops IH]; intros s id; simpl; apply _. Defined.

Lemma foldl_retired ops : forall s id, sched_inv s -> retired s id -> retired (foldl schstep s ops) id.
Proof.
  induction ops as [|op ops IH]; intros s id Hs Hr; [done |]. apply IH; [by apply schstep_inv | by apply retired_stays].
Qed.

(** A wake-up is there after a history exactly when no operation of it ended it. *)
Lemma survives_exact ops : forall s id sr, sched_inv s -> sch_schedules s !! id = Some sr ->
  (survives s id ops -> sch_schedules (foldl schstep s ops) !! id = Some sr)
  /\ (~ survives s id ops -> sch_schedules (foldl schstep s ops) !! id = None).
Proof.
  induction ops as [|op ops IH]; intros s id sr Hs Hid; simpl; [naive_solver |].
  pose proof (schstep_inv s op Hs) as Hs'. destruct (decide (ends s id op)) as [He|He].
  - split; [naive_solver |]. intros _. apply foldl_retired; [done |]. by eapply ended_retired.
  - destruct (IH (schstep s op) id sr Hs') as [H1 H2]; [by apply schedule_kept |]. split; [naive_solver |].
    intros Hn. apply H2. naive_solver.
Qed.

(** C21: A wake-up registered at any point of any history of the in-memory scheduler is still
    there later exactly when none of the operations since has ended it, and one that has ended
    never comes back.  Only three things end it: a cancellation while no claim on it is live,
    an acknowledgement by the owner of its claim, and a [take_due] at a time at which its heap
    entry is available, so at or after its due time, and no claim on it is live; exactly those
    report the removal, and a refused cancellation or acknowledgement changes nothing for it.
    While it is there, its target leads to it, and the heap has exactly one entry for it, with
    its due time, available no earlier than that. *)
Theorem wakeup_not_lost ops ops' id sr :
  sch_schedules (schrun ops) !! id = Some sr ->
  let s := schrun (ops ++ ops') in
  (survives (schrun ops) id ops' ->
     sch_schedules s !! id = Some sr /\ sr_id sr = id /\ sch_targets s !! target_of sr = Some id
     /\ (exists e, e ∈ sch_due s /\ ds_id e = id /\ ds_due e = sr_due sr /\ sr_due sr <= ds_available e
         /\ forall e', e' ∈ sch_due s -> ds_id e' = id -> e' = e)
     /\ forall op, (ends s id op <-> removal_reported s sr op)
         /\ (ends s id op -> sch_schedules (schstep s op) !! id = None))
  /\ (~ survives (schrun ops) id ops' -> sch_schedules s !! id = None).
Proof.
  intros Hid s. pose proof (survives_exact ops' (schrun ops) id sr (schrun_inv ops) Hid) as [Hk Hg].
  assert (foldl schstep (schrun ops) ops' = s) as E by (unfold s, schrun; by rewrite foldl_app). rewrite E in Hk, Hg.
  split; [| done]. intros H%Hk. clear Hk Hg E.
  pose proof (schrun_inv (ops ++ ops')) as Hs. fold s in Hs.
  destruct (sv_schedule _ Hs _ _ H) as (Hsid & Hin & Htg & _).
  split_and!; try done; [| intros op; by apply schedule_ended].
  apply list_elem_of_fmap in Hin as (e & -> & Hin). exists e.
  destruct (sv_entry _ Hs e Hin) as (Ha & _ & sr' & Hsr' & Hdue). rewrite H in Hsr'. injection Hsr' as <-.
  split_and!; try (done || lia). intros e' Hin' E.
  apply list_elem_of_lookup in Hin as [i Hi], Hin' as [j Hj]. assert (i = j) as ->; [| congruence].
  eapply (NoDup_lookup _ _ _ _ (sv_ids _ Hs)); rewrite list_lookup_fmap; [by rewrite Hi | rewrite Hj; simpl; by rewrite E].
Qed.

(** Registration is idempotent: registering a target again returns the identity it already
    has and changes nothing, whatever due time is asked for; registering a new target gives it
    an identity no registered wake-up has, unless a counter is exhausted, and leaves every
    other wake-up as it was. *)
Theorem schedule_resume_exact ops flow state due :
  let s := schrun ops in
  match sch_targets s !! (flow, state) with
  | Some id => schedule_resume s flow state due = (Ok id, s)
      /\ exists sr, sch_schedules s !! id = Some sr /\ target_of sr = (flow, state)
  | None =>
    if (sch_next_id s <? int_max u64) && (sch_next_order s <? int_max u64)
    then exists id s', schedule_resume s flow state due = (Ok id, s') /\ sch_schedules s !! id = None
         /\ sch_schedules s' = <[id := mkScheduled id flow state due]> (sch_schedules s)
         /\ sch_targets s' = <[(flow, state) := id]> (sch_targets s)
    else err_code (schedule_resume s flow state due).1 = Some Unavailable
         /\ sch_schedules (schedule_resume s flow state due).2 = sch_schedules s
  end.
Proof.
  intros s. pose proof (schrun_inv ops) as Hs. fold s in Hs. unfold schedule_resume.
  destruct (sch_targets s !! (flow, state)) as [id|] eqn:Et; [split; [done |]; by apply Hs |].
  pose proof (sv_next_id _ Hs) as H1. pose proof (sv_next_order _ Hs) as H2.
  unfold allocate_schedule_id. destruct (Z.ltb_spec (sch_next_id s) (int_max u64)); simpl.
  2: { destruct (checked u64 (sch_next_id s + 1)) eqn:E; [apply checked_Some in E; lia | done]. }
  rewrite checked_fits by (split; [int_bounds; lia | lia]). unfold enqueue_due. cbn [sch_next_order].
  destruct (Z.ltb_spec (sch_next_order s) (int_max u64)).
  2: { destruct (checked u64 (sch_next_order s + 1)) eqn:E; [apply checked_Some in E; lia | done]. }
  rewrite checked_fits by (split; [int_bounds; lia | lia]). do 2 eexists. split_and!; try done.
  destruct (sch_schedules s !! _) as [sr|] eqn:E; [| done].
  destruct (sv_schedule _ Hs _ _ E) as (_ & _ & _ & n & Hn & ?). apply schedule_name_inj in Hn; lia.
Qed.

(** Claims are sound and exclusive: what [claim_due] returns is registered, due, not under a
    live claim of anybody, at most [limit] different wake-ups, and claimed by [owner] until
    the end of the lease afterwards; every other claim and every registration stays. *)
Theorem claim_due_exclusive ops owner now lease limit l s' :
  let s := schrun ops in
  0 < lease -> claim_due s owner now lease limit = (Ok l, s') ->
  (length l <= limit)%nat /\ NoDup (sr_id <$> l)
  /\ (forall sr, sr ∈ l -> sch_schedules s !! sr_id sr = Some sr /\ sr_due sr <= now
        /\ live_claim s (sr_id sr) now = false)
  /\ (forall id, sch_claims s' !! id = if decide (id ∈ sr_id <$> l) then Some (mkClaim owner (now + lease))
                                       else sch_claims s !! id)
  /\ sch_schedules s' = sch_schedules s /\ sch_targets s' = sch_targets s.
Proof.
  intros s Hlease. unfold claim_due. destruct (Z.eqb_spec lease 0); [lia |].
  unfold lease_deadline, time_checked_add. destruct (system_time_ok _); simpl; [| done].
  intros H. apply claim_loop_sound in H as (new & -> & H); [exact H | apply schrun_inv | lia].
Qed.

(** Claims are complete: with room for two inspections per registered wake-up, one call
    returns every wake-up that is available and not under a live claim. *)
Theorem claim_due_complete ops owner now lease limit :
  let s := schrun ops in
  0 < lease -> system_time_ok (now + lease) = true ->
  (2 * length (sch_due s) <= limit)%nat -> sch_next_order s + Z.of_nat limit <= int_max u64 ->
  exists l s', claim_due s owner now lease limit = (Ok l, s')
  /\ forall e, e ∈ sch_due s -> ds_available e <= now -> live_claim s (ds_id e) now = false ->
       exists sr, sch_schedules s !! ds_id e = Some sr /\ sr ∈ l.
Proof.
  intros s Hlease Hok Hlim Hn. unfold claim_due. destruct (Z.eqb_spec lease 0); [lia |].
  unfold lease_deadline, time_checked_add. rewrite Hok. simpl.
  destruct (claim_loop_returns limit s owner now (now + lease) [] (schrun_inv ops) Hn) as (l & s' & Hr).
  exists l, s'. split; [done |]. intros e Hin Ha Hlive.
  apply list_elem_of_split in Hin as (pre & post & E).
  destruct (claim_loop_reaches limit s owner now (now + lease) [] pre e post (schrun_inv ops)) as
    (sr & l' & s'' & Hr' & Hsr & Hinl); try (done || lia); [| rewrite Hr in Hr'; simplify_eq; by eauto].
  assert (sumZ (weight s now) pre <= 2 * Z.of_nat (length pre)) as Hw.
  { clear. induction pre as [|x pre IH]; simpl; [done |].
    assert (weight s now x <= 2) by (unfold weight; case_match; lia). lia. }
  rewrite E, length_app in Hlim. simpl in Hlim. lia.
Qed.

Definition byte_len (x : string) : Z := Z.of_nat (length (bytes_of_string x)).

Lemma schedule_target_bytes_ok f s bs :
  schedule_target_bytes f s = Ok bs ->
  bs = be_bytes 8 (byte_len f) ++ bytes_of_string f ++ be_bytes 8 (byte_len s) ++ bytes_of_string s
  /\ byte_len f <= int_max u64 /\ byte_len s <= int_max u64.
Proof.
  unfold schedule_target_bytes, byte_len. intros H. apply rbind_ok_inv in H as (x & Hx & H).
  apply rbind_ok_inv in H as (y & Hy & H). apply rbind_ok_inv in H as (z & _ & [= <-]).
  unfold ok_or in Hx, Hy. destruct (checked u64 (Z.of_nat (length (bytes_of_string f)))) as [x'|] eqn:Ex; [| done].
  destruct (checked u64 (Z.of_nat (length (bytes_of_string s)))) as [y'|] eqn:Ey; [| done].
  apply checked_Some in Ex as [-> ?], Ey as [-> ?]. injection Hx as <-. injection Hy as <-.
  split_and!; [done | lia | lia].
Qed.

(** The target encoding is injective, so backends that key their tables by it cannot mix two
    suspended states up. *)
Lemma schedule_target_bytes_inj f s f' s' bs :
  schedule_target_bytes f s = Ok bs -> schedule_target_bytes f' s' = Ok bs -> f = f' /\ s = s'.
Proof.
  intros (-> & H1 & H2)%schedule_target_bytes_ok (E & H3 & H4)%schedule_target_bytes_ok.
  assert (forall n, length (be_bytes 8 n) = 8%nat) as Hl
    by (intros; unfold be_bytes; by rewrite length_rev, length_le_bytes).
  assert (forall x y : string, bytes_of_string x = bytes_of_string y -> x = y) as Hinj.
  { intros x y Exy. rewrite <-(string_of_bytes_of_string x), <-(string_of_bytes_of_string y). by f_equal. }
  apply app_inj_1 in E as [E1 E2]; [| by rewrite !Hl].
  apply (f_equal be_value) in E1. rewrite !be_value_be_bytes in E1 by (unfold byte_len in *; int_bounds; lia).
  apply app_inj_1 in E2 as [E2 E3]; [| unfold byte_len in *; lia].
  apply app_inj_1 in E3 as [_ E3]; [| by rewrite !Hl]. auto.
Qed.

(** ** Witnesses *)

Definition demo_schops : list schop := [OSchedule "f" "a" 10; OSchedule "f" "b" 5; OSchedule "f" "a" 99].

(** A claimed wake-up survives an acknowledgement by somebody else, a cancellation during
    its lease and a [take_due]; its owner's acknowledgement ends it. *)
Definition demo_attempts : list schop :=
  [OClaim "w" 20 5 4; OAck "v" "flow-resume-0"; OCancel "flow-resume-0" 22; OTake 24].

Lemma wakeup_not_lost_witness :
  sch_schedules (schrun (demo_schops ++ demo_attempts)) !! "flow-resume-0"
    = Some (mkScheduled "flow-resume-0" "f" "a" 10)
  /\ sch_schedules (schrun (demo_schops ++ demo_attempts ++ [OAck "w" "flow-resume-0"; OSchedule "f" "a" 30]))
      !! "flow-resume-0" = None.
Proof.
  assert (sch_schedules (schrun demo_schops) !! "flow-resume-0" = Some (mkScheduled "flow-resume-0" "f" "a" 10)) as H
    by (vm_compute; reflexivity).
  split.
  - apply (wakeup_not_lost demo_schops demo_attempts _ _ H).
    refine (bool_decide_eq_true_1 _ _). vm_compute. reflexivity.
  - apply (wakeup_not_lost demo_schops (demo_attempts ++ [OAck "w" "flow-resume-0"; OSchedule "f" "a" 30]) _ _ H).
    refine (bool_decide_eq_false_1 _ _). vm_compute. reflexivity.
Defined.

(** Of two due wake-ups the first is claimed and then inspected again by the same call, so a
    limit of two finds one of them. *)
Definition demo_claim := claim_due (schrun demo_schops) "w" 20 5 2.

Lemma claim_due_exclusive_witness :
  demo_claim.1 = Ok [mkScheduled "flow-resume-1" "f" "b" 5]
  /\ sch_claims demo_claim.2 !! "flow-resume-1" = Some (mkClaim "w" 25).
Proof.
  assert (demo_claim = (Ok [mkScheduled "flow-resume-1" "f" "b" 5], demo_claim.2)) as E
    by (vm_compute; reflexivity).
  split; [by rewrite E |].
  destruct (claim_due_exclusive demo_schops "w" 20 5 2 _ _ ltac:(lia) E) as (_ & _ & _ & Hc & _).
  rewrite Hc. vm_compute. reflexivity.
Defined.

Lemma claim_due_complete_witness :
  exists l s', claim_due (schrun demo_schops) "w" 20 5 4 = (Ok l, s')
    /\ mkScheduled "flow-resume-0" "f" "a" 10 ∈ l.
Proof.
  destruct (claim_due_complete demo_schops "w" 20 5 4) as (l & s' & H & Hall);
    [lia | by vm_compute | vm_compute; lia | vm_compute; discriminate |].
  exists l, s'. split; [done |].
  destruct (Hall (mkDueSchedule 10 0 10 "flow-resume-0")) as (sr & Hsr & Hin).
  - vm_compute. right. left.
  - by vm_compute.
  - by vm_compute.
  - revert Hsr. vm_compute. intros [= <-]. exact Hin.
Defined.
