(* ===== verification/FlowRuntime.v ===== *)
(** * The durable flow runtime ([flow/runtime.rs], [flow/definition.rs],
    [flow/tag_policy.rs], [flow/completion.rs], [flow/child_launch.rs])

    [FlowRuntime] runs the named steps of a definition over a store of continuations and a
    scheduler.  Its operations are programs in a state and error monad over the shared store.
    Between any two accesses of a program other runtimes may change the store: each access is
    preceded by an arbitrary step [interfere] of the environment, so a theorem about one
    operation that assumes of [interfere] what it shows of the operation itself holds for any
    number of runtimes working on the same store. *)

From S2P Require Import Prelude Utf8 Errors Time Flows Suspension SuspendedFlows Scheduler.

(** ** Definitions ([flow/definition.rs]) *)

Inductive FlowStepOutcome :=
| Advance
| Goto (step_name : string)
| SuspendUntil (resume_at : SystemTime)
| Wait (condition : WaitCondition)
| StepComplete
| StepFail (error : CatgaError).

Definition outcome_delay (duration : Duration) (clock : SystemTime) : CatgaResult FlowStepOutcome :=
  if duration =? 0 then Ok Advance
  else
    let? resume_at := ok_or (time_checked_add clock duration)
      (CatgaError_new Validation "flow delay exceeds the supported system time range") in
    Ok (SuspendUntil resume_at).

Section definition.
Context {W : Type}.

(** Handlers and rollback actions are user code over a world [W]. *)
Record RegisteredStep := mkStep {
  st_name : string;
  st_tag : option string;
  st_handler : FlowState -> W -> CatgaResult FlowStepOutcome * W;
  st_compensation : option (FlowState -> W -> CatgaResult unit * W)
}.

Record FlowDefinition := mkDefinition {
  fd_name : string;
  fd_steps : list RegisteredStep;
  fd_invalid_step_names : bool
}.

Definition FlowDefinition_new (name : string) : FlowDefinition := mkDefinition name [] false.

Definition register (d : FlowDefinition) (step : RegisteredStep) : FlowDefinition :=
  mkDefinition (fd_name d) (fd_steps d ++ [step])
    (fd_invalid_step_names d || bool_decide (st_name step = EmptyString)
     || existsb (fun registered => bool_decide (st_name registered = st_name step)) (fd_steps d)).

Definition fd_step (d : FlowDefinition) (name : string) handler : FlowDefinition :=
  register d (mkStep name None handler None).
Definition step_with_compensation (d : FlowDefinition) (name : string) handler compensate
    : FlowDefinition :=
  register d (mkStep name None handler (Some compensate)).
Definition step_with_tag (d : FlowDefinition) (name tag : string) handler : FlowDefinition :=
  register d (mkStep name (Some tag) handler None).

Definition first_step_name (d : FlowDefinition) : option string := st_name <$> head (fd_steps d).

Definition definition_validate (d : FlowDefinition) : CatgaResult unit :=
  if bool_decide (fd_name d = EmptyString)
  then fail Validation "a flow definition requires a non-empty name"
  else if fd_invalid_step_names d
  then fail Validation "flow definition step names must be non-empty and unique"
  else Ok tt.

Definition next_step_name (d : FlowDefinition) (name : string) : option string :=
  match position (fun step => bool_decide (st_name step = name)) (fd_steps d) with
  | Some index => st_name <$> fd_steps d !! (index + 1)%nat
  | None => None
  end.

Definition has_step (d : FlowDefinition) (name : string) : bool :=
  existsb (fun step => bool_decide (st_name step = name)) (fd_steps d).

(** [steps.iter().find(|step| step.name == name)] *)
Definition find_step (d : FlowDefinition) (name : string) : option RegisteredStep :=
  match position (fun step => bool_decide (st_name step = name)) (fd_steps d) with
  | Some index => fd_steps d !! index
  | None => None
  end.

Definition step_tag (d : FlowDefinition) (name : string) : option string :=
  match find_step d name with Some step => st_tag step | None => None end.

Definition definition_execute (d : FlowDefinition) (name : string) (state : FlowState) (w : W)
    : CatgaResult FlowStepOutcome * W :=
  match find_step d name with
  | None => (fail NotFound "flow continuation references an unregistered step", w)
  | Some step => st_handler step state w
  end.

Definition has_compensation (d : FlowDefinition) (name : string) : bool :=
  match find_step d name with
  | Some step => match st_compensation step with Some _ => true | None => false end
  | None => false
  end.

Definition definition_compensate (d : FlowDefinition) (name : string) (state : FlowState) (w : W)
    : CatgaResult unit * W :=
  match find_step d name with
  | None => (fail NotFound "flow compensation references an unregistered step", w)
  | Some step =>
    match st_compensation step with
    | None => (fail NotFound "flow compensation handler is no longer registered for a completed step", w)
    | Some compensation => compensation state w
    end
  end.
End definition.
Arguments RegisteredStep : clear implicits.
Arguments FlowDefinition : clear implicits.

(** ** [flow/tag_policy.rs] *)

Record FlowTagPolicy := mkTagPolicy {
  default_timeout : Duration;
  default_retries : nat;
  tp_timeouts : gmap string Duration;
  tp_retries : gmap string nat;
  tp_persisted : gset string
}.

Definition FlowTagPolicy_new (timeout : Duration) (retries : nat) : FlowTagPolicy :=
  mkTagPolicy timeout retries ∅ ∅ ∅.
Definition with_timeout (p : FlowTagPolicy) (tag : string) (timeout : Duration) : FlowTagPolicy :=
  mkTagPolicy (default_timeout p) (default_retries p) (<[tag := timeout]> (tp_timeouts p))
    (tp_retries p) (tp_persisted p).
Definition with_retries (p : FlowTagPolicy) (tag : string) (retries : nat) : FlowTagPolicy :=
  mkTagPolicy (default_timeout p) (default_retries p) (tp_timeouts p)
    (<[tag := retries]> (tp_retries p)) (tp_persisted p).
Definition with_persist (p : FlowTagPolicy) (tag : string) : FlowTagPolicy :=
  mkTagPolicy (default_timeout p) (default_retries p) (tp_timeouts p) (tp_retries p)
    ({[tag]} ∪ tp_persisted p).
Definition timeout_for (p : FlowTagPolicy) (tag : string) : Duration :=
  default (default_timeout p) (tp_timeouts p !! tag).
Definition retries_for (p : FlowTagPolicy) (tag : string) : nat :=
  default (default_retries p) (tp_retries p !! tag).
Definition should_persist (p : FlowTagPolicy) (tag : string) : bool :=
  bool_decide (tag ∈ tp_persisted p).

(** ** The scheduler interface

    What the runtime uses of a scheduler; the in-memory one is an instance. *)
Class FlowScheduler (H : Type) := {
  fs_schedule_resume : H -> string -> string -> SystemTime -> CatgaResult string * H;
  fs_cancel_resume : H -> string -> SystemTime -> CatgaResult bool * H
}.

#[export] Instance memory_scheduler : FlowScheduler MemoryFlowScheduler := {|
  fs_schedule_resume := schedule_resume;
  fs_cancel_resume := cancel_resume
|}.

(** ** The runtime *)

Section runtime.
Context {S Sch W : Type} `{!SuspendedStoreLaws S, !FlowScheduler Sch}.

Record FlowRuntime := mkRuntime {
  rt_definition : FlowDefinition W;
  rt_owner : string;
  rt_stale_after : Duration;
  rt_tag_policy : option FlowTagPolicy
}.

Definition FlowRuntime_new (d : FlowDefinition W) (owner : string) : FlowRuntime :=
  mkRuntime d owner (from_secs 30) None.
Definition with_stale_after (rt : FlowRuntime) (stale_after : Duration) : FlowRuntime :=
  mkRuntime (rt_definition rt) (rt_owner rt) stale_after (rt_tag_policy rt).
Definition with_tag_policy (rt : FlowRuntime) (p : FlowTagPolicy) : FlowRuntime :=
  mkRuntime (rt_definition rt) (rt_owner rt) (rt_stale_after rt) (Some p).

(** How one timed attempt of a handler goes: how many heartbeats are due before it is over,
    whether its deadline passes first, and what an interrupted handler leaves behind. *)
Record Attempt := mkAttempt { at_beats : nat; at_deadline : bool; at_dropped : W -> W }.

(** What happens around a program: the clock, the environment's steps on the store, and the
    timing of each attempt, by the number of the access. *)
Record Env := mkEnv {
  env_clock : nat -> SystemTime;
  interfere : nat -> S -> S;
  env_attempt : nat -> Attempt
}.

(** [r_log] is for statements only: the store before and after each access of the program
    itself. *)
Record Run := mkRun {
  r_store : S; r_sched : Sch; r_world : W; r_tick : nat; r_log : list (S * S)
}.

(** A program returns a result or, when it has run out of fuel, none. *)
Definition Prog (A : Type) : Type := Run -> option (CatgaResult A) * Run.

Definition pret {A} (a : A) : Prog A := fun r => (Some (Ok a), r).
Definition pthrow {A} (e : CatgaError) : Prog A := fun r => (Some (Err e), r).
Definition plift {A} (x : CatgaResult A) : Prog A := fun r => (Some x, r).
Definition pbind {A B} (m : Prog A) (k : A -> Prog B) : Prog B := fun r =>
  match m r with
  | (Some (Ok a), r) => k a r
  | (Some (Err e), r) => (Some (Err e), r)
  | (None, r) => (None, r)
  end.
(** The result of [m] as a value, errors included ([match m.await { Ok(..) .. Err(..) .. }]) *)
Definition ptry {A} (m : Prog A) : Prog (CatgaResult A) := fun r =>
  match m r with
  | (Some x, r) => (Some (Ok x), r)
  | (None, r) => (None, r)
  end.

#[local] Notation "'let*' x ':=' m 'in' k" := (pbind m (fun x => k))
  (at level 10, x name, m at level 100, k at level 200).
#[local] Notation "'do*' m 'in' k" := (pbind m (fun _ => k))
  (at level 10, m at level 100, k at level 200).

Context (ev : Env) (rt : FlowRuntime).

Definition tick (r : Run) : Run :=
  mkRun (r_store r) (r_sched r) (r_world r) (Datatypes.S (r_tick r)) (r_log r).

Definition now : Prog SystemTime := fun r => (Some (Ok (env_clock ev (r_tick r))), tick r).

Definition on_store {A} (f : S -> CatgaResult A * S) : Prog A := fun r =>
  let before := interfere ev (r_tick r) (r_store r) in
  let '(x, s) := f before in
  (Some x, tick (mkRun s (r_sched r) (r_world r) (r_tick r) (r_log r ++ [(before, s)]))).

Definition read_store {A} (f : S -> CatgaResult A) : Prog A := on_store (fun s => (f s, s)).

Definition on_sched {A} (f : Sch -> CatgaResult A * Sch) : Prog A := fun r =>
  let '(x, h) := f (r_sched r) in (Some x, mkRun (r_store r) h (r_world r) (r_tick r) (r_log r)).

Definition on_world {A} (f : W -> CatgaResult A * W) : Prog A := fun r =>
  let '(x, w) := f (r_world r) in (Some x, mkRun (r_store r) (r_sched r) w (r_tick r) (r_log r)).

Definition attempt : Prog Attempt := fun r => (Some (Ok (env_attempt ev (r_tick r))), tick r).

Definition not_found {A} : Prog A := pthrow (CatgaError_new NotFound "flow does not exist").

Definition load (flow_id : string) : Prog FlowContinuation :=
  let* o := read_store (fun s => ss_get s flow_id) in
  match o with Some c => pret c | None => not_found end.

Definition ensure_definition (c : FlowContinuation) : CatgaResult unit :=
  let? _ := continuation_validate c in
  let? _ := definition_validate (rt_definition rt) in
  if bool_decide (f_type (k_state c) = fd_name (rt_definition rt)) then Ok tt
  else fail Validation "flow continuation belongs to a different definition".

Definition current_result (flow_id : string) : Prog FlowState :=
  let* c := load flow_id in
  do* plift (continuation_validate c) in
  pret (k_state c).

Definition persist (expected_version : Z) (next : FlowContinuation) : Prog bool :=
  on_store (fun s => ss_update s expected_version next).

(** [claim] *)
Definition rt_claim (c : FlowContinuation) : Prog (option FlowContinuation) :=
  let* t := now in
  let claimed_state := claimed_by (k_state c) (rt_owner rt) t in
  let claimed_state := if bool_decide (f_status (k_state c) = Compensating)
                       then compensating claimed_state else running claimed_state in
  let* t1 := now in
  let* next_state := plift (next_version claimed_state) in
  let* t2 := now in
  let running := with_state (ready c t1) next_state t2 in
  let* b := on_store (fun s => ss_claim s c running) in
  pret (if (b : bool) then Some running else None).

Definition record_step_compensation (c : FlowContinuation) : Prog FlowContinuation :=
  if has_compensation (rt_definition rt) (k_step c) then
    let* t := now in plift (record_compensation c (k_step c) t)
  else pret c.

Definition completed_steps_after (state : FlowState) : CatgaResult Z :=
  ok_or (checked u32 (f_step state + 1))
    (CatgaError_new Internal "flow completed step counter is exhausted").

Definition transition_to (c : FlowContinuation) (state : FlowState) (next_step : string)
    : Prog (option FlowContinuation) :=
  let* steps := plift (completed_steps_after state) in
  let* t := now in
  let* next_state := plift (next_version (suspended (at_step state steps))) in
  let* t1 := now in
  let next := with_state (continuation_at_step c next_step t) next_state t1 in
  let* b := persist (f_version (k_state c)) next in
  if (b : bool) then rt_claim next else pret None.

Definition complete (c : FlowContinuation) (state : FlowState) : Prog FlowState :=
  let* steps := plift (completed_steps_after state) in
  let* next_state := plift (next_version (done state steps)) in
  let* t := now in
  let finished := with_state c next_state t in
  let* b := persist (f_version (k_state c)) finished in
  if (b : bool) then pret (k_state finished) else current_result (f_id (k_state c)).

(** The heartbeats that fall due while a handler runs *)
Fixpoint heartbeats (n : nat) (c : FlowContinuation) (lost : string) : Prog unit :=
  match n with
  | O => pret tt
  | Datatypes.S n =>
    let* t := now in
    let* t1 := now in
    let* b := on_store (fun s => ss_heartbeat s (f_id (k_state c)) (rt_owner rt)
                                   (f_version (k_state c)) t t1) in
    if (b : bool) then heartbeats n c lost else pthrow (CatgaError_new Conflict lost)
  end.

(** A handler under its heartbeats and deadline; [timeout] of [None] never passes. *)
Definition timed {A} (c : FlowContinuation) (has_timeout : bool) (lost : string)
    (handler : W -> CatgaResult A * W) : Prog A :=
  let* a := attempt in
  let beats := if rt_stale_after rt =? 0 then O else at_beats a in
  let* alive := ptry (heartbeats beats c lost) in
  match alive with
  | Err e => do* on_world (fun w => (Ok tt, at_dropped a w)) in pthrow e
  | Ok _ =>
    if has_timeout && at_deadline a then
      do* on_world (fun w => (Ok tt, at_dropped a w)) in
      pthrow (CatgaError_new Timeout "tagged flow step timed out")
    else on_world handler
  end.

Definition execute_step_attempt (c : FlowContinuation) (state : FlowState) (timeout : option Duration)
    : Prog FlowStepOutcome :=
  timed c (match timeout with Some _ => true | None => false end)
    "flow execution ownership was lost while its step was running"
    (definition_execute (rt_definition rt) (k_step c) state).

(** The retry loop of a tagged step: attempts [0..=retries], [n] of them left after this one *)
Fixpoint tagged_attempts (n : nat) (c : FlowContinuation) (state : FlowState) (timeout : Duration)
    : Prog FlowStepOutcome :=
  let* result := ptry (execute_step_attempt c state (Some timeout)) in
  match n, result with
  | Datatypes.S n, Err error =>
    if bool_decide (code error = Transient) then
      let* t := now in
      let* t1 := now in
      let* b := on_store (fun s => ss_heartbeat s (f_id (k_state c)) (rt_owner rt)
                                     (f_version (k_state c)) t t1) in
      if (b : bool) then tagged_attempts n c state timeout
      else pthrow (CatgaError_new Conflict "flow execution ownership was lost before a tagged retry")
    else pthrow error
  | _, result => plift result
  end.

Definition execute_step_with_heartbeat (c : FlowContinuation) (state : FlowState)
    : Prog FlowStepOutcome :=
  match step_tag (rt_definition rt) (k_step c), rt_tag_policy rt with
  | Some tag, Some policy => tagged_attempts (retries_for policy tag) c state (timeout_for policy tag)
  | _, _ => execute_step_attempt c state None
  end.

Definition execute_compensation_with_heartbeat (c : FlowContinuation) (state : FlowState)
    (step_name : string) : Prog unit :=
  timed c false "flow compensation ownership was lost while its action was running"
    (definition_compensate (rt_definition rt) step_name state).

(** [compensate]: the loop runs once per recorded step. *)
Fixpoint compensate_loop (fuel : nat) (c : FlowContinuation) : Prog FlowState :=
  match next_compensation c with
  | Some step_name =>
    match fuel with
    | O => fun r => (None, r)
    | Datatypes.S fuel =>
      do* execute_compensation_with_heartbeat c (k_state c) step_name in
      let* t := now in
      let* next_state := plift (next_version (compensating (k_state c))) in
      let* t1 := now in
      let next := with_state (complete_compensation c t) next_state t1 in
      let* b := persist (f_version (k_state c)) next in
      if (b : bool) then compensate_loop fuel next else current_result (f_id (k_state c))
    end
  | None =>
    match f_error (k_state c) with
    | None => pthrow (CatgaError_new Internal "a compensating flow is missing its original failure")
    | Some error =>
      let* t := now in
      let* next_state := plift (next_version (failed (k_state c) error)) in
      let* t1 := now in
      let finished := with_state (ready c t) next_state t1 in
      let* b := persist (f_version (k_state c)) finished in
      if (b : bool) then pret (k_state finished) else current_result (f_id (k_state c))
    end
  end.

Definition compensate (c : FlowContinuation) : Prog FlowState :=
  compensate_loop (length (k_compensations c)) c.

(** [fail] *)
Definition rt_fail (c : FlowContinuation) (error : CatgaError) : Prog FlowState :=
  let* t := now in
  if negb (length (k_compensations c) =? 0)%nat then
    let* next_state := plift (next_version (compensating (with_error (k_state c) error))) in
    let* t1 := now in
    let rollback := with_state (ready c t) next_state t1 in
    let* b := persist (f_version (k_state c)) rollback in
    if (b : bool) then compensate rollback else current_result (f_id (k_state c))
  else
    let* next_state := plift (next_version (failed (k_state c) error)) in
    let* t1 := now in
    let finished := with_state (ready c t) next_state t1 in
    let* b := persist (f_version (k_state c)) finished in
    if (b : bool) then pret (k_state finished) else current_result (f_id (k_state c)).

Definition persist_delayed_schedule_identity (c : FlowContinuation) : Prog (option FlowContinuation) :=
  match k_resume_at c with
  | None => pret None
  | Some resume_at =>
    let* schedule_id := on_sched (fun h => fs_schedule_resume h (f_id (k_state c)) (k_step c) resume_at) in
    let* next_state := plift (next_version (k_state c)) in
    let* t := now in
    let* t1 := now in
    let scheduled := with_schedule_id (with_state c next_state t) schedule_id t1 in
    let* b := on_store (fun s => ss_update s (f_version (k_state c)) scheduled) in
    pret (if (b : bool) then Some scheduled else None)
  end.

(** [FlowStepOutcome::SuspendUntil] *)
Definition suspend_until (c compensated : FlowContinuation) (state : FlowState) (resume_at : SystemTime)
    : Prog FlowState :=
  match next_step_name (rt_definition rt) (k_step c) with
  | None => rt_fail compensated
      (CatgaError_new Validation "a delayed flow step requires a following step")
  | Some next_step =>
    let* steps := plift (completed_steps_after state) in
    let* t := now in
    let* next_state := plift (next_version (suspended (at_step state steps))) in
    let* t1 := now in
    let* t2 := now in
    let pending := delayed_until (with_state (continuation_at_step compensated next_step t) next_state t1)
                     resume_at t2 in
    let* b := persist (f_version state) pending in
    if (b : bool) then
      let* identity := ptry (persist_delayed_schedule_identity pending) in
      pret (k_state (match identity with Ok (Some scheduled) => scheduled | _ => pending end))
    else current_result (f_id (k_state pending))
  end.

(** [FlowStepOutcome::Wait] *)
Definition suspend_waiting (c compensated : FlowContinuation) (state : FlowState) (wait : WaitCondition)
    : Prog FlowState :=
  match next_step_name (rt_definition rt) (k_step c) with
  | None => rt_fail compensated
      (CatgaError_new Validation "a waiting flow step requires a following step")
  | Some next_step =>
    let* steps := plift (completed_steps_after state) in
    match wait_validate wait with
    | Err error => rt_fail compensated error
    | Ok _ =>
      let* t := now in
      let* next_state := plift (next_version (suspended (at_step state steps))) in
      let* t1 := now in
      let* t2 := now in
      let suspension := with_wait (with_state (continuation_at_step compensated next_step t) next_state t1)
                          wait t2 in
      let* b := persist (f_version state) suspension in
      if (b : bool) then pret (k_state suspension) else current_result (f_id (k_state suspension))
    end
  end.

(** One iteration of [drive]: a result, or the continuation to go on with *)
Definition drive_step (c : FlowContinuation) : Prog (FlowState + FlowContinuation) :=
  let state := k_state c in
  let finish (m : Prog FlowState) : Prog (FlowState + FlowContinuation) :=
    let* r := m in pret (inl r) in
  let go (compensated : FlowContinuation) (next_step : string) :=
    let* o := transition_to compensated state next_step in
    match o with
    | Some running => pret (inr running)
    | None => finish (current_result (f_id (k_state c)))
    end in
  let* result := ptry (execute_step_with_heartbeat c state) in
  match result with
  | Err error => finish (rt_fail c error)
  | Ok Advance =>
    let* compensated := record_step_compensation c in
    match next_step_name (rt_definition rt) (k_step c) with
    | None => finish (complete c state)
    | Some next_step => go compensated next_step
    end
  | Ok (Goto next_step) =>
    let* compensated := record_step_compensation c in
    if negb (has_step (rt_definition rt) next_step)
    then finish (rt_fail compensated
           (CatgaError_new NotFound "a flow transition references an unregistered step"))
    else go compensated next_step
  | Ok (SuspendUntil resume_at) =>
    let* compensated := record_step_compensation c in
    finish (suspend_until c compensated state resume_at)
  | Ok (Wait wait) =>
    let* compensated := record_step_compensation c in
    finish (suspend_waiting c compensated state wait)
  | Ok StepComplete => finish (complete c state)
  | Ok (StepFail error) => finish (rt_fail c error)
  end.

Fixpoint drive (fuel : nat) (c : FlowContinuation) : Prog FlowState :=
  match fuel with
  | O => fun r => (None, r)
  | Datatypes.S fuel =>
    let* r := drive_step c in
    match r with inl state => pret state | inr running => drive fuel running end
  end.

(** [resume_at] after the continuation was loaded and its definition checked *)
Definition resume_loaded (fuel : nat) (c : FlowContinuation) (flow_id : string) (at_ : SystemTime)
    : Prog FlowState :=
  let state := k_state c in
  if is_terminal (f_status state) then pret state
  else
    let is_owned := bool_decide (f_status state = Running) || bool_decide (f_status state = Compensating) in
    let is_stale_owned := is_owned && is_stale (f_heartbeat state) at_ (rt_stale_after rt) in
    if is_owned && negb is_stale_owned then pret state
    else if negb (bool_decide (f_status state = Suspended)) && negb is_stale_owned
    then pthrow (CatgaError_new Validation "flow is not resumable")
    else
      let evaluation := if is_stale_owned then WaitReady
                        else match k_wait c with
                             | Some wait => evaluate_wait wait at_
                             | None => WaitReady
                             end in
      match evaluation with
      | WaitPending => pret state
      | WaitFailed error => rt_fail c error
      | WaitReady =>
        if negb is_stale_owned && match k_resume_at c with Some due_at => at_ <? due_at | None => false end
        then pret state
        else
          let* o := rt_claim c in
          match o with
          | Some running =>
            if bool_decide (f_status (k_state running) = Compensating) then compensate running
            else drive fuel running
          | None => current_result flow_id
          end
      end.

Definition resume_at (fuel : nat) (flow_id : string) (at_ : SystemTime) : Prog FlowState :=
  let* c := load flow_id in
  do* plift (ensure_definition c) in
  resume_loaded fuel c flow_id at_.

Definition resume (fuel : nat) (flow_id : string) : Prog FlowState :=
  let* t := now in resume_at fuel flow_id t.

Definition start (fuel : nat) (flow_id : string) (data : list Z) : Prog FlowState :=
  do* plift (definition_validate (rt_definition rt)) in
  match first_step_name (rt_definition rt) with
  | None => pthrow (CatgaError_new Validation "a flow definition requires at least one registered step")
  | Some first_step =>
    let* t := now in
    let state := suspended (FlowState_new flow_id (fd_name (rt_definition rt)) data (rt_owner rt) t) in
    do* plift (flow_validate state) in
    let* t1 := now in
    let c := FlowContinuation_new state first_step t1 in
    let* b := on_store (fun s => ss_create s c) in
    if (b : bool) then resume fuel (f_id (k_state c))
    else pthrow (CatgaError_new Conflict "a flow with this identity already exists")
  end.

Definition resume_scheduled (fuel : nat) (flow_id state_id : string) : Prog FlowState :=
  let* c := load flow_id in
  do* plift (ensure_definition c) in
  if negb (bool_decide (k_step c = state_id))
  then pthrow (CatgaError_new Conflict "scheduled resume targets a stale flow state")
  else resume fuel flow_id.

Definition rt_cancel (flow_id : string) : Prog FlowState :=
  let* c := load flow_id in
  do* plift (ensure_definition c) in
  if is_terminal (f_status (k_state c)) then pret (k_state c)
  else if bool_decide (f_status (k_state c) = Compensating)
  then pthrow (CatgaError_new Conflict
         "a compensating flow cannot be cancelled before its rollback completes")
  else
    let* t := now in
    let* next_state := plift (next_version (cancelled (k_state c))) in
    let* t1 := now in
    let stopped := with_state (ready c t) next_state t1 in
    let* b := persist (f_version (k_state c)) stopped in
    if (b : bool) then
      do* match k_schedule c with
          | Some schedule_id =>
            let* t2 := now in
            do* ptry (on_sched (fun h => fs_cancel_resume h schedule_id t2)) in pret tt
          | None => pret tt
          end in
      pret (k_state stopped)
    else current_result flow_id.

(** The checks the two recording operations share; [None]: the flow is already over. *)
Definition check_wait (c : FlowContinuation) (child_id : string) : CatgaResult WaitCondition :=
  let? _ := ensure_definition c in
  let? wait := ok_or (k_wait c) (CatgaError_new Validation "flow is not waiting for child results") in
  if accepts_child wait child_id then Ok wait
  else fail Validation "child result does not belong to this flow wait".

Definition rt_record_wait_success (fuel : nat) (flow_id child_id : string) (payload : list Z)
    : Prog FlowState :=
  let* c := load flow_id in
  if is_terminal (f_status (k_state c)) then pret (k_state c)
  else
    do* plift (check_wait c child_id) in
    if negb (accepts_payload_len (lenZ payload))
    then pthrow (CatgaError_new Validation "flow child result payload exceeds the supported bound")
    else
      let* t := now in
      let* b := on_store (fun s => ss_record_wait_success s flow_id (f_version (k_state c)) child_id payload t) in
      if (b : bool) then resume fuel flow_id
      else
        let* current := load flow_id in
        match k_wait current with
        | Some wait =>
          let* t1 := now in
          match evaluate_wait wait t1 with
          | WaitReady => resume fuel flow_id
          | _ => pret (k_state current)
          end
        | None => pret (k_state current)
        end.

Definition rt_record_wait_failure (fuel : nat) (flow_id child_id : string) (error : CatgaError)
    : Prog FlowState :=
  let* c := load flow_id in
  if is_terminal (f_status (k_state c)) then pret (k_state c)
  else
    do* plift (check_wait c child_id) in
    let* t := now in
    let* b := on_store (fun s => ss_record_wait_failure s flow_id (f_version (k_state c)) child_id error t) in
    if (b : bool) then resume fuel flow_id else current_result flow_id.

(** [flow/completion.rs] *)
Inductive FlowCompletion :=
| CompletionSuccess (correlation_id child_id : string) (payload : list Z)
| CompletionFailure (correlation_id child_id : string) (error : CatgaError).

(** [FlowCompletionAdapter::record], through the operations by correlation *)
Definition by_correlation (correlation_id : string) : Prog FlowContinuation :=
  let* o := read_store (fun s => ss_get_by_wait_correlation s correlation_id) in
  match o with
  | Some c => pret c
  | None => pthrow (CatgaError_new NotFound "flow wait correlation does not exist")
  end.

Definition record_wait_success_by_correlation (fuel : nat) (correlation_id child_id : string)
    (payload : list Z) : Prog FlowState :=
  let* c := by_correlation correlation_id in
  rt_record_wait_success fuel (f_id (k_state c)) child_id payload.

Definition record_wait_failure_by_correlation (fuel : nat) (correlation_id child_id : string)
    (error : CatgaError) : Prog FlowState :=
  let* c := by_correlation correlation_id in
  rt_record_wait_failure fuel (f_id (k_state c)) child_id error.

Definition record_completion (fuel : nat) (completion : FlowCompletion) : Prog FlowState :=
  match completion with
  | CompletionSuccess correlation_id child_id payload =>
    record_wait_success_by_correlation fuel correlation_id child_id payload
  | CompletionFailure correlation_id child_id error =>
    record_wait_failure_by_correlation fuel correlation_id child_id error
  end.

(** ** Child fan-out *)

Definition MAX_CHILD_LAUNCH_CAS_RETRIES : nat := 8.

(** The two retry loops share their shape: a change of the wait, written by [claim]. *)
Definition change_wait (c : FlowContinuation) (wait : WaitCondition) : Prog bool :=
  let* t := now in
  let* next_state := plift (next_version (suspended (k_state c))) in
  let* t1 := now in
  on_store (fun s => ss_claim s c (with_state (with_wait c wait t) next_state t1)).

Fixpoint claim_next_wait_child (n : nat) (flow_id : string) : Prog (option (string * string)) :=
  match n with
  | O => pthrow (CatgaError_new Transient "flow child launch claim did not stabilize")
  | Datatypes.S n =>
    let* c := load flow_id in
    do* plift (ensure_definition c) in
    if is_terminal (f_status (k_state c)) then pret None
    else
      match k_wait c with
      | None => pret None
      | Some wait =>
        do* plift (wait_validate wait) in
        let* t := now in
        match claim_next_child wait (rt_owner rt) t (Z.max (rt_stale_after rt) 1) with
        | None => pret None
        | Some (child_id, claimed_wait) =>
          let* b := change_wait c claimed_wait in
          if (b : bool) then pret (Some (child_id, w_correlation wait))
          else claim_next_wait_child n flow_id
        end
      end
  end.

Fixpoint finish_wait_child_claim (n : nat) (flow_id child_id : string) (launched : bool) : Prog unit :=
  match n with
  | O => pthrow (CatgaError_new Transient "flow child launch completion did not stabilize")
  | Datatypes.S n =>
    let* c := load flow_id in
    do* plift (ensure_definition c) in
    if is_terminal (f_status (k_state c)) then pret tt
    else
      match k_wait c with
      | None => pret tt
      | Some wait =>
        match (if launched then mark_child_launched wait child_id (rt_owner rt)
               else release_child_claim wait child_id (rt_owner rt)) with
        | None => pret tt
        | Some next_wait =>
          let* b := change_wait c next_wait in
          if (b : bool) then pret tt else finish_wait_child_claim n flow_id child_id launched
        end
      end
  end.

(** [launcher] is the application's [FlowChildLauncher]. *)
Fixpoint launch_waiting_children (fuel : nat) (flow_id : string)
    (launcher : string -> string -> string -> W -> CatgaResult unit * W) (launched : nat) : Prog nat :=
  match fuel with
  | O => fun r => (None, r)
  | Datatypes.S fuel =>
    let* o := claim_next_wait_child MAX_CHILD_LAUNCH_CAS_RETRIES flow_id in
    match o with
    | None => pret launched
    | Some (child_id, correlation_id) =>
      let* result := ptry (on_world (launcher flow_id child_id correlation_id)) in
      match result with
      | Ok _ =>
        do* finish_wait_child_claim MAX_CHILD_LAUNCH_CAS_RETRIES flow_id child_id true in
        launch_waiting_children fuel flow_id launcher (launched + 1)
      | Err error =>
        do* ptry (finish_wait_child_claim MAX_CHILD_LAUNCH_CAS_RETRIES flow_id child_id false) in
        pthrow error
      end
    end
  end.

Definition rt_heartbeat (flow_id : string) (version : Z) : Prog bool :=
  let* o := read_store (fun s => ss_get s flow_id) in
  match o with
  | None => pret false
  | Some c =>
    do* plift (ensure_definition c) in
    let* t := now in
    let* t1 := now in
    on_store (fun s => ss_heartbeat s flow_id (rt_owner rt) version t t1)
  end.

(** The loop of [reconcile_delayed_suspensions] over the summaries *)
Fixpoint reconcile_loop (summaries : list FlowSummary) (reconciled : nat) : Prog nat :=
  match summaries with
  | [] => pret reconciled
  | summary :: summaries =>
    let* o := read_store (fun s => ss_get s (s_id summary)) in
    match o with
    | None => reconcile_loop summaries reconciled
    | Some c =>
      do* plift (continuation_validate c) in
      if negb (bool_decide (f_status (k_state c) = Suspended))
         || negb (bool_decide (f_type (k_state c) = fd_name (rt_definition rt)))
         || match k_schedule c with Some _ => true | None => false end
         || match k_resume_at c with Some _ => false | None => true end
      then reconcile_loop summaries reconciled
      else
        let* o := persist_delayed_schedule_identity c in
        reconcile_loop summaries (match o with Some _ => reconciled + 1 | None => reconciled end)%nat
    end
  end.

Definition reconcile_delayed_suspensions (max_results max_scan : nat) : Prog nat :=
  let* query := plift (FlowQuery_new max_results max_scan) in
  let query := query_with_flow_type (query_with_status query Suspended) (fd_name (rt_definition rt)) in
  let* summaries := read_store (fun s => ss_query s query) in
  reconcile_loop summaries 0.

(** ** What a runtime may do to the store

    [follows c c'] says how a stored continuation may change: its identity, type and data
    stay, its version never decreases, without a new version only its liveness and its wait
    change, a finished flow stays as it is, and a flow that rolls back goes on rolling back,
    keeps its error, and only ever drops completed rollback steps from the end. *)
Record follows (c c' : FlowContinuation) : Prop := {
  fo_id : f_id (k_state c') = f_id (k_state c);
  fo_type : f_type (k_state c') = f_type (k_state c);
  fo_data : f_data (k_state c') = f_data (k_state c);
  fo_version : f_version (k_state c) <= f_version (k_state c');
  fo_same : f_version (k_state c') = f_version (k_state c) ->
    f_status (k_state c') = f_status (k_state c) /\ f_error (k_state c') = f_error (k_state c)
    /\ k_compensations c' = k_compensations c;
  fo_terminal : is_terminal (f_status (k_state c)) = true -> c' = c;
  fo_rollback : f_status (k_state c) = Compensating ->
    (f_status (k_state c') = Compensating \/ f_status (k_state c') = Failed)
    /\ f_error (k_state c') = f_error (k_state c) /\ k_compensations c' `prefix_of` k_compensations c
}.

(** A finished flow has no owner, and only a suspended one waits. *)
Definition well_kept (c : FlowContinuation) : Prop :=
  (is_terminal (f_status (k_state c)) = true -> f_owner (k_state c) = None)
  /\ (k_wait c <> None -> f_status (k_state c) = Suspended).

Definition good (s : S) : Prop := ss_wf s /\ forall id c, ss_lookup s id = Some c -> well_kept c.

Definition evolves (s s' : S) : Prop :=
  forall id c, ss_lookup s id = Some c -> exists c', ss_lookup s' id = Some c' /\ follows c c'.

(** [c] has been stored. *)
Definition has (c : FlowContinuation) (s : S) : Prop :=
  exists cur, ss_lookup s (f_id (k_state c)) = Some cur /\ follows c cur.

(** The environment keeps the same rules. *)
Definition polite : Prop :=
  forall n s, good s -> good (interfere ev n s) /\ evolves s (interfere ev n s).

#[export] Instance follows_refl : Reflexive follows.
Proof. intros c. split; try (done || lia). intros E. split_and!; [by left | done | done]. Qed.

#[export] Instance follows_trans : Transitive follows.
Proof.
  intros a b c Hab Hbc. destruct Hab as [I1 T1 D1 V1 S1 F1 R1]. pose proof Hbc as [I2 T2 D2 V2 S2 F2 R2].
  split; try congruence; try lia.
  - intros E. destruct S1 as (? & ? & ?); [lia |]. destruct S2 as (? & ? & ?); [lia |]. split_and!; congruence.
  - intros Ht. specialize (F1 Ht). subst b. auto.
  - intros Hc. destruct (R1 Hc) as (Hs & He & Hp). destruct Hs as [Hs|Hs].
    + destruct (R2 Hs) as (? & ? & ?). split_and!; [done | congruence | by etrans].
    + assert (c = b) as -> by (apply F2; by rewrite Hs). split_and!; [by right | done | done].
Qed.

Lemma unwritten_evolves s s' : unwritten (ss_lookup s) (ss_lookup s') -> evolves s s'.
Proof. intros E id c Hc. exists c. by rewrite E. Qed.

Lemma evolves_step s1 s2 s3 : evolves s1 s2 -> evolves s2 s3 -> evolves s1 s3.
Proof.
  intros H1 H2 id c Hc. destruct (H1 _ _ Hc) as (c' & Hc' & ?). destruct (H2 _ _ Hc') as (c'' & ? & ?).
  exists c''. split; [done | by etrans].
Qed.

Lemma has_evolves c s s' : evolves s s' -> has c s -> has c s'.
Proof.
  intros He (cur & Hl & Hf). destruct (He _ _ Hl) as (cur' & ? & ?). exists cur'. split; [done | by etrans].
Qed.

Lemma has_terminal c s : has c s -> is_terminal (f_status (k_state c)) = true -> ss_lookup s (f_id (k_state c)) = Some c.
Proof. intros (cur & Hl & Hf) Ht. by rewrite (fo_terminal _ _ Hf Ht) in Hl. Qed.

(** A write of [next] over the stored [cur] *)
Lemma written_good s s' next :
  ss_wf s' -> good s -> well_kept next -> written (ss_lookup s) (ss_lookup s') next -> good s'.
Proof.
  intros Hw [_ Hg] Hn Hwr. split; [done |]. intros id c. rewrite Hwr. case_decide; [| by apply Hg].
  by intros [= <-].
Qed.

Lemma unwritten_good s s' : ss_wf s' -> good s -> unwritten (ss_lookup s) (ss_lookup s') -> good s'.
Proof. intros Hw [_ Hg] Hu. split; [done |]. intros id c. rewrite Hu. apply Hg. Qed.

Lemma written_evolves s s' next :
  (forall cur, ss_lookup s (f_id (k_state next)) = Some cur -> follows cur next) ->
  written (ss_lookup s) (ss_lookup s') next -> evolves s s' /\ has next s'.
Proof.
  intros Hf Hwr. split.
  - intros id c Hc. rewrite Hwr. case_decide as E; [subst id; eauto | by exists c].
  - exists next. by rewrite Hwr, decide_True.
Qed.

(** *** A program logic

    [triple P m Q]: from a good store with [P], whatever the environment does, [m] leaves a
    good store that evolved from the first one, and a result satisfies [Q].  What is known of
    the store is stable: it survives every evolution. *)

Class Stable (P : S -> Prop) : Prop := stable s s' : evolves s s' -> P s -> P s'.

#[export] Instance stable_has c : Stable (has c).
Proof. intros s s'. apply has_evolves. Qed.
#[export] Instance stable_true : Stable (fun _ => True).
Proof. done. Qed.
#[export] Instance stable_and P Q : Stable P -> Stable Q -> Stable (fun s => P s /\ Q s).
Proof. intros HP HQ s s' He [? ?]. split; [by eapply HP | by eapply HQ]. Qed.

(** The store is good, and so was every change the program made itself. *)
Definition fine (r : Run) : Prop :=
  good (r_store r) /\ Forall (fun '(before, after) => good after /\ evolves before after) (r_log r).

Definition triple {A} (P : S -> Prop) (m : Prog A) (Q : A -> S -> Prop) : Prop :=
  forall r, fine r -> P (r_store r) ->
    let '(x, r') := m r in
    fine r' /\ evolves (r_store r) (r_store r')
    /\ match x with Some (Ok a) => Q a (r_store r') | _ => True end.

Lemma t_weaken {A} (P P' : S -> Prop) (m : Prog A) Q Q' :
  triple P' m Q' -> (forall s, P s -> P' s) -> (forall a s, Q' a s -> Q a s) -> triple P m Q.
Proof.
  intros Hm HP HQ r Hg Hp. specialize (Hm r Hg (HP _ Hp)). destruct (m r) as [[[a|e]|] r']; naive_solver.
Qed.

Lemma t_ret {A} (P : S -> Prop) (a : A) Q : (forall s, P s -> Q a s) -> triple P (pret a) Q.
Proof. intros H r Hg Hp. simpl. split_and!; [done | by apply unwritten_evolves | auto]. Qed.

Lemma t_throw {A} (P : S -> Prop) e (Q : A -> S -> Prop) : triple P (pthrow e) Q.
Proof. intros r Hg Hp. simpl. split_and!; [done | by apply unwritten_evolves | done]. Qed.

Lemma t_none {A} (P : S -> Prop) (Q : A -> S -> Prop) : triple P (fun r => (None, r)) Q.
Proof. intros r Hg Hp. split_and!; [done | by apply unwritten_evolves | done]. Qed.

Lemma t_lift {A} (P : S -> Prop) (x : CatgaResult A) Q : (forall a s, x = Ok a -> P s -> Q a s) -> triple P (plift x) Q.
Proof.
  intros H r Hg Hp. simpl. split_and!; [done | by apply unwritten_evolves |]. destruct x; auto.
Qed.

Lemma t_bind {A B} (P : S -> Prop) (m : Prog A) (k : A -> Prog B) Q R :
  triple P m Q -> (forall a, triple (Q a) (k a) R) -> triple P (pbind m k) R.
Proof.
  intros Hm Hk r Hg Hp. unfold pbind. specialize (Hm r Hg Hp).
  destruct (m r) as [[[a|e]|] r1]; [| naive_solver..]. destruct Hm as (Hg1 & He & Hq).
  specialize (Hk a r1 Hg1 Hq). destruct (k a r1) as [x r2]. destruct Hk as (? & ? & ?).
  split_and!; [done | by eapply evolves_step | done].
Qed.

Lemma t_try {A} (P : S -> Prop) (m : Prog A) Q :
  Stable P -> triple P m Q -> triple P (ptry m) (fun x s => P s /\ match x with Ok a => Q a s | Err _ => True end).
Proof.
  intros HP Hm r Hg Hp. unfold ptry. specialize (Hm r Hg Hp). destruct (m r) as [[x|] r']; [| naive_solver].
  destruct Hm as (? & He & ?). split_and!; [done | done | by apply (HP _ _ He Hp) |]. by destruct x.
Qed.

Lemma t_try_keep {A} (P : S -> Prop) (m : Prog A) Q :
  Stable P -> triple P m Q -> triple P (ptry m) (fun _ => P).
Proof. intros HP Hm. eapply t_weaken; [by apply t_try | done | by intros ? ? [? _]]. Qed.

Lemma t_now (P : S -> Prop) : triple P now (fun _ => P).
Proof. intros r Hg Hp. simpl. split_and!; [done | by apply unwritten_evolves | done]. Qed.

Lemma t_attempt (P : S -> Prop) : triple P attempt (fun _ => P).
Proof. intros r Hg Hp. simpl. split_and!; [done | by apply unwritten_evolves | done]. Qed.

Lemma t_world {A} (P : S -> Prop) (f : W -> CatgaResult A * W) : triple P (on_world f) (fun _ => P).
Proof.
  intros r Hg Hp. unfold on_world. destruct (f (r_world r)) as [x w]. simpl.
  split_and!; [done | by apply unwritten_evolves | by destruct x].
Qed.

Lemma t_sched {A} (P : S -> Prop) (f : Sch -> CatgaResult A * Sch) : triple P (on_sched f) (fun _ => P).
Proof.
  intros r Hg Hp. unfold on_sched. destruct (f (r_sched r)) as [x h]. simpl.
  split_and!; [done | by apply unwritten_evolves | by destruct x].
Qed.

Context (Hpolite : polite).

(** One access of the store: the environment moves first. *)
Lemma t_store {A} (P : S -> Prop) (f : S -> CatgaResult A * S) Q :
  Stable P ->
  (forall s, good s -> P s -> let '(x, s') := f s in
     good s' /\ evolves s s' /\ match x with Ok a => Q a s' | Err _ => True end) ->
  triple P (on_store f) Q.
Proof.
  intros HP Hf r [Hg Hlog] Hp. unfold on_store. destruct (Hpolite (r_tick r) (r_store r) Hg) as [Hg1 He1].
  set (s1 := interfere ev (r_tick r) (r_store r)) in *.
  specialize (Hf s1 Hg1 (HP _ _ He1 Hp)). destruct (f s1) as [x s2]. destruct Hf as (? & ? & ?). simpl.
  split_and!; [| by eapply evolves_step | by destruct x].
  split; [done |]. simpl. apply Forall_app. split; [done |]. by apply Forall_singleton.
Qed.

Lemma t_read {A} (P : S -> Prop) (f : S -> CatgaResult A) Q :
  Stable P -> (forall s a, good s -> P s -> f s = Ok a -> Q a s) -> triple P (read_store f) Q.
Proof.
  intros HP Hf. apply t_store; [done |]. intros s Hg Hp. split_and!; [done | by apply unwritten_evolves |].
  destruct (f s) eqn:E; [by apply Hf | done].
Qed.

(** *** Store operations *)

(** What a program has to know to replace [c] by [next]: [next] is the next version of the
    same flow, [c] is not finished, and a rollback goes on. *)
Definition succeeds (c next : FlowContinuation) : Prop :=
  f_id (k_state next) = f_id (k_state c) /\ f_type (k_state next) = f_type (k_state c)
  /\ f_data (k_state next) = f_data (k_state c)
  /\ f_version (k_state next) = f_version (k_state c) + 1
  /\ is_terminal (f_status (k_state c)) = false /\ well_kept next
  /\ (f_status (k_state c) = Compensating ->
        (f_status (k_state next) = Compensating \/ f_status (k_state next) = Failed)
        /\ f_error (k_state next) = f_error (k_state c)
        /\ k_compensations next `prefix_of` k_compensations c).

Lemma succeeds_follows c cur next :
  succeeds c next -> follows c cur -> f_version (k_state cur) = f_version (k_state c) -> follows cur next.
Proof.
  intros (Hi & Ht & Hd & Hv & Hn & _ & Hr) Hf Ev. pose proof (fo_same _ _ Hf Ev) as (Hs & He & Hc).
  destruct Hf as [I T D _ _ _ _]. split; try congruence; try lia.
  by rewrite Hs, He, Hc.
Qed.

Lemma succeeds_self c next : succeeds c next -> follows c next.
Proof. intros H. by apply (succeeds_follows c c). Qed.

Lemma t_persist (P : S -> Prop) c next :
  Stable P -> (forall s, P s -> has c s) -> succeeds c next ->
  triple P (persist (f_version (k_state c)) next) (fun b s => P s /\ (b = true -> has next s)).
Proof.
  intros HP Hc Hn. apply t_store; [done |]. intros s Hg Hp. pose proof Hg as [Hw _].
  pose proof (ss_update_law s (f_version (k_state c)) next Hw) as Hl.
  destruct (ss_update s (f_version (k_state c)) next) as [x s']. destruct Hl as [Hw' Hl].
  assert (unwritten (ss_lookup s) (ss_lookup s') -> good s' /\ evolves s s') as Hun.
  { intros Hu. split; [by eapply unwritten_good | by apply unwritten_evolves]. }
  assert (forall cur, ss_lookup s (f_id (k_state next)) = Some cur ->
            f_version (k_state cur) = f_version (k_state c) ->
            written (ss_lookup s) (ss_lookup s') next -> good s' /\ evolves s s' /\ has next s') as Hwr.
  { intros cur Hl' Hv Hwr. split; [eapply written_good; [done | done | apply Hn | done] |].
    apply written_evolves; [| done]. intros cur' E. rewrite Hl' in E. injection E as <-.
    destruct (Hc s Hp) as (cur'' & E & Hf). destruct Hn as (Hi & Hn). rewrite <-Hi, Hl' in E. injection E as <-.
    by apply (succeeds_follows c). }
  destruct x as [[]|e]; simpl in Hl.
  - destruct Hl as (_ & (cur & Hl & Hv) & Hw''). destruct (Hwr cur Hl Hv Hw'') as (? & ? & ?).
    split_and!; [done | done | by eapply HP | done].
  - destruct (Hun Hl). split_and!; [done | done | by eapply HP | done].
  - destruct Hl as [Hl|(_ & (cur & Hl & Hv) & Hw'')]; [destruct (Hun Hl) | destruct (Hwr cur Hl Hv Hw'') as (? & ? & ?)];
      by split_and!.
Qed.

Lemma t_claim_op (P : S -> Prop) c next :
  Stable P -> succeeds c next ->
  triple P (on_store (fun s => ss_claim s c next)) (fun b s => P s /\ (b = true -> has next s)).
Proof.
  intros HP Hn. apply t_store; [done |]. intros s Hg Hp. pose proof Hg as [Hw _].
  pose proof (ss_claim_law s c next Hw) as Hl. destruct (ss_claim s c next) as [x s']. destruct Hl as [Hw' Hl].
  assert (unwritten (ss_lookup s) (ss_lookup s') -> good s' /\ evolves s s') as Hun.
  { intros Hu. split; [by eapply unwritten_good | by apply unwritten_evolves]. }
  assert (ss_lookup s (f_id (k_state next)) = Some c -> written (ss_lookup s) (ss_lookup s') next ->
          good s' /\ evolves s s' /\ has next s') as Hwr.
  { intros Hl' Hwr. split; [eapply written_good; [done | done | apply Hn | done] |].
    apply written_evolves; [| done]. intros cur E. rewrite Hl' in E. injection E as <-.
    by apply succeeds_self. }
  destruct x as [[]|e]; simpl in Hl.
  - destruct Hl as (_ & _ & Hl & Hw''). destruct (Hwr Hl Hw'') as (? & ? & ?).
    split_and!; [done | done | by eapply HP | done].
  - destruct (Hun Hl). split_and!; [done | done | by eapply HP | done].
  - destruct Hl as [Hl|(_ & _ & Hl & Hw'')]; [destruct (Hun Hl) | destruct (Hwr Hl Hw'') as (? & ? & ?)];
      by split_and!.
Qed.

(** A write that keeps the version: [next] is [cur] with other liveness or wait data. *)
Lemma same_version_write s s' cur next :
  good s -> ss_wf s' -> ss_lookup s (f_id (k_state next)) = Some cur ->
  written (ss_lookup s) (ss_lookup s') next -> follows cur next -> well_kept next ->
  good s' /\ evolves s s'.
Proof.
  intros Hg Hw Hl Hwr Hf Hk. split; [by eapply written_good |].
  apply (written_evolves s s' next); [| done]. intros cur' E. rewrite Hl in E. by injection E as <-.
Qed.

Lemma t_heartbeat (P : S -> Prop) id owner version t t1 :
  Stable P -> triple P (on_store (fun s => ss_heartbeat s id owner version t t1)) (fun _ => P).
Proof.
  intros HP. apply t_store; [done |]. intros s Hg Hp. pose proof Hg as [Hw Hk].
  pose proof (ss_heartbeat_law s id owner version t t1 Hw) as Hl.
  destruct (ss_heartbeat s id owner version t t1) as [x s']. destruct Hl as [Hw' Hl].
  assert (good s' /\ evolves s s') as [Hg' He].
  { destruct Hl as [Hu|(cur & Hl & Ho & _ & Hwr)]; [split; [by eapply unwritten_good | by apply unwritten_evolves] |].
    pose proof (ss_lookup_id _ _ _ Hw Hl) as Hid. pose proof (Hk _ _ Hl) as [Hterm Hwait].
    assert (is_terminal (f_status (k_state cur)) = false) as Hnt.
    { destruct (is_terminal _) eqn:E; [| done]. rewrite Hterm in Ho by done. done. }
    eapply (same_version_write s s' cur); try done; [simpl; by rewrite Hid |].
    split; simpl; try (done || lia); [by rewrite Hnt |]. intros E. split_and!; [by left | done | done]. }
  split_and!; [done | done |]. destruct x; [by eapply HP | done].
Qed.

(** The two recording operations *)
Lemma t_record (P : S -> Prop) op (record : WaitCondition -> WaitCondition) id version clock :
  Stable P ->
  (forall s : S, ss_wf s -> let '(r, s') := (op s : CatgaResult bool * S) in ss_wf s' /\
     (unwritten (ss_lookup s) (ss_lookup s')
      \/ exists cur w, ss_lookup s id = Some cur /\ f_version (k_state cur) = version /\ k_wait cur = Some w
         /\ written (ss_lookup s) (ss_lookup s') (with_wait cur (record w) clock))) ->
  triple P (on_store op) (fun _ => P).
Proof.
  intros HP Hlaw. apply t_store; [done |]. intros s Hg Hp. pose proof Hg as [Hw Hk].
  specialize (Hlaw s Hw). destruct (op s) as [x s']. destruct Hlaw as [Hw' Hl].
  assert (good s' /\ evolves s s') as [Hg' He].
  { destruct Hl as [Hu|(cur & w & Hl & _ & Hwt & Hwr)]; [split; [by eapply unwritten_good | by apply unwritten_evolves] |].
    pose proof (ss_lookup_id _ _ _ Hw Hl) as Hid. pose proof (Hk _ _ Hl) as [Hterm Hwait].
    assert (f_status (k_state cur) = Suspended) as Hs by (apply Hwait; by rewrite Hwt).
    eapply (same_version_write s s' cur); try done; [simpl; by rewrite Hid |].
    split; simpl; try (done || lia); by rewrite Hs. }
  split_and!; [done | done |]. destruct x; [by eapply HP | done].
Qed.

Lemma t_get (P : S -> Prop) id :
  Stable P ->
  triple P (read_store (fun s => ss_get s id))
    (fun o s => P s /\ match o with Some c => has c s /\ well_kept c /\ f_id (k_state c) = id | None => True end).
Proof.
  intros HP. apply t_read; [done |]. intros s o [Hw Hk] Hp Hget. split; [done |].
  apply ss_get_law in Hget. subst o. destruct (ss_lookup s id) as [c|] eqn:E; [| done].
  pose proof (ss_lookup_id _ _ _ Hw E) as Hid. split_and!; [| by eapply Hk | done].
  exists c. by rewrite Hid.
Qed.

Lemma t_bind_lift {A B} (P : S -> Prop) (x : CatgaResult A) (k : A -> Prog B) Q :
  (forall a, x = Ok a -> triple P (k a) Q) -> triple P (pbind (plift x) k) Q.
Proof.
  intros Hk r Hg Hp. unfold pbind, plift. destruct x as [a|e]; [by apply (Hk a) |].
  split_and!; [done | by apply unwritten_evolves | done].
Qed.

Lemma t_bind_now {B} (P : S -> Prop) (k : SystemTime -> Prog B) Q :
  (forall t, triple P (k t) Q) -> triple P (pbind now k) Q.
Proof. intros Hk. eapply t_bind; [apply t_now |]. done. Qed.

(** A program that only keeps what was known *)
Lemma t_bind_keep {A B} (P : S -> Prop) (m : Prog A) (k : A -> Prog B) Q :
  triple P m (fun _ => P) -> (forall a, triple P (k a) Q) -> triple P (pbind m k) Q.
Proof. intros Hm Hk. by eapply t_bind. Qed.

(** Writes, followed by a test of whether they were made *)
Lemma t_bind_persist {B} (P : S -> Prop) c next (k : bool -> Prog B) Q :
  Stable P -> (forall s, P s -> has c s) -> succeeds c next ->
  triple (has next) (k true) Q -> triple P (k false) Q ->
  triple P (pbind (persist (f_version (k_state c)) next) k) Q.
Proof.
  intros HP Hc Hn Ht Hf. eapply t_bind; [by apply (t_persist P c) |]. intros [].
  - eapply t_weaken; [exact Ht | naive_solver | done].
  - eapply t_weaken; [exact Hf | naive_solver | done].
Qed.

Lemma t_bind_claim {B} (P : S -> Prop) c next (k : bool -> Prog B) Q :
  Stable P -> succeeds c next -> triple (has next) (k true) Q -> triple P (k false) Q ->
  triple P (pbind (on_store (fun s => ss_claim s c next)) k) Q.
Proof.
  intros HP Hn Ht Hf. eapply t_bind; [by apply (t_claim_op P c) |]. intros [].
  - eapply t_weaken; [exact Ht | naive_solver | done].
  - eapply t_weaken; [exact Hf | naive_solver | done].
Qed.

(** The state a program returns was stored. *)
Definition recorded (st : FlowState) (s : S) : Prop := exists c, k_state c = st /\ has c s.

Lemma t_bind_load {B} (P : S -> Prop) id (k : FlowContinuation -> Prog B) Q :
  Stable P ->
  (forall c, well_kept c -> f_id (k_state c) = id -> triple (has c) (k c) Q) ->
  triple P (pbind (load id) k) Q.
Proof.
  intros HP Hk. eapply (t_bind _ _ _ (fun c s => has c s /\ well_kept c /\ f_id (k_state c) = id)).
  - eapply t_bind; [by apply t_get |]. intros [c|]; [apply t_ret; naive_solver | apply t_throw].
  - intros c r Hg (Hh & Hw & Hid). by apply Hk.
Qed.

Lemma t_current (P : S -> Prop) id : Stable P -> triple P (current_result id) recorded.
Proof.
  intros HP. apply t_bind_load; [done |]. intros c _ _. apply t_bind_lift. intros _ _. apply t_ret.
  intros s Hc. by exists c.
Qed.

Lemma t_recorded c : triple (has c) (pret (k_state c)) recorded.
Proof. apply t_ret. intros s Hc. by exists c. Qed.

(** *** The operations *)

(** Facts about the states the runtime writes *)
Lemma succeeds_intro c next st :
  next_version st = Ok (k_state next) ->
  f_id st = f_id (k_state c) -> f_type st = f_type (k_state c) -> f_data st = f_data (k_state c) ->
  f_version st = f_version (k_state c) -> is_terminal (f_status (k_state c)) = false ->
  (is_terminal (f_status st) = true -> f_owner st = None) ->
  (k_wait next <> None -> f_status st = Suspended) ->
  (f_status (k_state c) = Compensating ->
     (f_status st = Compensating \/ f_status st = Failed) /\ f_error st = f_error (k_state c)
     /\ k_compensations next `prefix_of` k_compensations c) ->
  succeeds c next.
Proof.
  intros (Hv & _ & Hi & Ht & Hs & _ & Ho & _ & Hd & He)%next_version_ok E1 E2 E3 E4 Hn Hterm Hw Hr.
  unfold succeeds, well_kept. rewrite Hv, Hi, Ht, Hs, Ho, Hd, He. split_and!; try done; congruence.
Qed.

Definition not_rolling (c : FlowContinuation) : Prop :=
  is_terminal (f_status (k_state c)) = false /\ f_status (k_state c) <> Compensating.

Lemma rolling_ok c : f_status (k_state c) = Compensating -> is_terminal (f_status (k_state c)) = false.
Proof. by intros ->. Qed.

(** A continuation the runtime runs *)
Definition runs (x : FlowContinuation) (s : S) : Prop :=
  has x s /\ k_wait x = None /\ f_status (k_state x) = Running.

Lemma t_claim c :
  is_terminal (f_status (k_state c)) = false ->
  triple (has c) (rt_claim c)
    (fun o s => match o with
                | Some x => has x s /\ k_wait x = None
                    /\ f_status (k_state x) = if bool_decide (f_status (k_state c) = Compensating)
                                              then Compensating else Running
                | None => True
                end).
Proof.
  intros Hn. apply t_bind_now; intros t. apply t_bind_now; intros t1. apply t_bind_lift. intros st Hst.
  apply t_bind_now; intros t2. set (x := with_state (ready c t1) st t2).
  pose proof (next_version_ok _ _ Hst) as (_ & _ & _ & _ & Hs & _).
  apply t_bind_claim; [apply _ | | |].
  - eapply (succeeds_intro c x); [exact Hst |..]; simpl; case_bool_decide; simpl; try done.
    intros _. split_and!; [by left | done | done].
  - apply t_ret. intros s Hh. split_and!; [done | done |]. simpl. rewrite Hs. by case_bool_decide.
  - by apply t_ret.
Qed.

(** The runtime works on [c0], which is the stored [c] with one more rollback step recorded. *)
Lemma t_transition c c0 next_step :
  not_rolling c -> k_state c0 = k_state c ->
  triple (has c) (transition_to c0 (k_state c) next_step)
    (fun o s => match o with Some x => runs x s | None => True end).
Proof.
  intros [Hn Hnc] E. apply t_bind_lift; intros steps _. apply t_bind_now; intros t.
  apply t_bind_lift; intros st Hst. apply t_bind_now; intros t1. rewrite E.
  pose proof (next_version_ok _ _ Hst) as (_ & _ & _ & _ & Hs & _). simpl in Hs.
  apply t_bind_persist; [apply _ | done | | |].
  - by eapply (succeeds_intro c); [exact Hst |..].
  - eapply t_weaken; [apply t_claim | done |]; simpl; rewrite Hs; [done |].
    intros [x|] s; [| done]. simpl. intros (? & ? & ?). done.
  - by apply t_ret.
Qed.

Lemma t_complete c :
  f_status (k_state c) = Running -> k_wait c = None -> triple (has c) (complete c (k_state c)) recorded.
Proof.
  intros Hs Hw. apply t_bind_lift; intros steps _. apply t_bind_lift; intros st Hst. apply t_bind_now; intros t.
  apply t_bind_persist; [apply _ | done | | apply t_recorded | by apply t_current, _].
  eapply (succeeds_intro c); [exact Hst |..]; simpl; try done; by rewrite Hs.
Qed.

Lemma t_heartbeats (P : S -> Prop) n c lost : Stable P -> triple P (heartbeats n c lost) (fun _ => P).
Proof.
  intros HP. induction n as [|n IH]; simpl; [by apply t_ret |].
  apply t_bind_now; intros t. apply t_bind_now; intros t1. apply t_bind_keep; [by apply t_heartbeat |].
  intros []; [done | apply t_throw].
Qed.

Lemma t_timed {A} (P : S -> Prop) c b lost (h : W -> CatgaResult A * W) :
  Stable P -> triple P (timed c b lost h) (fun _ => P).
Proof.
  intros HP. apply t_bind_keep; [apply t_attempt |]. intros a. apply t_bind_keep.
  { eapply t_try_keep; [done | by apply t_heartbeats]. }
  intros [[]|e].
  - case_match; [apply t_bind_keep; [apply t_world | intros; apply t_throw] | apply t_world].
  - apply t_bind_keep; [apply t_world | intros; apply t_throw].
Qed.

Lemma t_tagged (P : S -> Prop) n c state timeout :
  Stable P -> triple P (tagged_attempts n c state timeout) (fun _ => P).
Proof.
  intros HP. induction n as [|n IH]; simpl.
  - apply t_bind_keep; [eapply t_weaken; [by apply t_try, t_timed | done | naive_solver] |].
    intros x. by apply t_lift.
  - apply t_bind_keep; [eapply t_weaken; [by apply t_try, t_timed | done | naive_solver] |].
    intros [x|e]; [by apply t_lift |]. case_bool_decide; [| apply t_throw].
    apply t_bind_now; intros t. apply t_bind_now; intros t1. apply t_bind_keep; [by apply t_heartbeat |].
    intros []; [done | apply t_throw].
Qed.

Lemma t_execute (P : S -> Prop) c state : Stable P -> triple P (execute_step_with_heartbeat c state) (fun _ => P).
Proof.
  intros HP. unfold execute_step_with_heartbeat. destruct (step_tag _ _); [| by apply t_timed].
  destruct (rt_tag_policy rt); [by apply t_tagged | by apply t_timed].
Qed.

(** Both branches of [compensate]: another rollback step is done, or the flow has failed. *)
Lemma rollback_succeeds c next st :
  f_status (k_state c) = Compensating -> k_wait next = None -> next_version st = Ok (k_state next) ->
  st = compensating (k_state c) \/ (exists e, f_error (k_state c) = Some e /\ st = failed (k_state c) e) ->
  k_compensations next `prefix_of` k_compensations c -> succeeds c next.
Proof.
  intros Hs Hw Hst Hor Hp.
  destruct Hor as [->|(e & He & ->)]; (eapply (succeeds_intro c); [exact Hst |..]); simpl; try done; rewrite ?Hs, ?Hw; try done;
    intros _; (split_and!; [tauto | done | done]).
Qed.

Lemma t_compensate fuel c :
  f_status (k_state c) = Compensating -> k_wait c = None ->
  triple (has c) (compensate_loop fuel c) recorded.
Proof.
  revert c. induction fuel as [|fuel IH]; intros c Hs Hw; cbn [compensate_loop];
    (destruct (next_compensation c) as [name|] eqn:En;
     [| destruct (f_error (k_state c)) as [err|] eqn:Ee; [| apply t_throw];
        apply t_bind_now; intros t; apply t_bind_lift; intros st Hst; apply t_bind_now; intros t1;
        apply t_bind_persist; [apply _ | done | | apply t_recorded | by apply t_current, _];
        eapply rollback_succeeds; [done | done | exact Hst | by eauto | done]]).
  - apply t_none.
  - apply t_bind_keep; [by apply t_timed, _ |]. intros _. apply t_bind_now; intros t.
    apply t_bind_lift; intros st Hst. apply t_bind_now; intros t1.
    pose proof (next_version_ok _ _ Hst) as (_ & _ & _ & _ & Hst' & _).
    apply t_bind_persist; [apply _ | done | | by apply IH | by apply t_current, _].
    eapply rollback_succeeds; [done | done | exact Hst | by left |]. apply prefix_take.
Qed.

Lemma t_fail c c0 error :
  not_rolling c -> k_state c0 = k_state c -> triple (has c) (rt_fail c0 error) recorded.
Proof.
  intros [Hn Hnc] E. apply t_bind_now; intros t. rewrite E. destruct (negb _).
  - apply t_bind_lift; intros st Hst. apply t_bind_now; intros t1.
    pose proof (next_version_ok _ _ Hst) as (_ & _ & _ & _ & Hs & _).
    apply t_bind_persist; [apply _ | done | | by apply t_compensate | by apply t_current, _].
    by eapply (succeeds_intro c); [exact Hst |..].
  - apply t_bind_lift; intros st Hst. apply t_bind_now; intros t1.
    apply t_bind_persist; [apply _ | done | | apply t_recorded | by apply t_current, _].
    by eapply (succeeds_intro c); [exact Hst |..].
Qed.

Lemma t_delayed c :
  f_status (k_state c) = Suspended ->
  triple (has c) (persist_delayed_schedule_identity c)
    (fun o s => match o with Some x => has x s | None => True end).
Proof.
  intros Hs. unfold persist_delayed_schedule_identity. destruct (k_resume_at c) as [at_|]; [| by apply t_ret].
  apply t_bind_keep; [apply t_sched |]. intros id. apply t_bind_lift; intros st Hst.
  apply t_bind_now; intros t. apply t_bind_now; intros t1.
  apply (t_bind_persist (has c) c); [apply _ | done | | by apply t_ret | by apply t_ret].
  eapply (succeeds_intro c); [exact Hst |..]; simpl; try done; by rewrite Hs.
Qed.

Lemma t_record_compensation (P : S -> Prop) c :
  triple P (record_step_compensation c) (fun c0 s => P s /\ k_state c0 = k_state c).
Proof.
  unfold record_step_compensation. destruct (has_compensation _ _); [| by apply t_ret].
  apply t_bind_now; intros t. apply t_lift. intros c0 s [-> _]%record_compensation_ok Hp. done.
Qed.

Lemma t_suspend_until c c0 at_ :
  not_rolling c -> k_state c0 = k_state c -> triple (has c) (suspend_until c c0 (k_state c) at_) recorded.
Proof.
  intros Hnr E. unfold suspend_until. destruct (next_step_name _ _) as [step|]; [| by apply t_fail].
  apply t_bind_lift; intros steps _. apply t_bind_now; intros t. apply t_bind_lift; intros st Hst.
  apply t_bind_now; intros t1. apply t_bind_now; intros t2.
  pose proof (next_version_ok _ _ Hst) as (_ & _ & Hid & _ & Hs & _). destruct Hnr as [Hn Hnc].
  apply t_bind_persist; [apply _ | done | by eapply (succeeds_intro c); [exact Hst |..] | | by apply t_current, _].
  eapply t_bind; [apply t_try; [apply _ | by apply t_delayed] |].
  intros [[x|]|e]; (eapply t_weaken; [apply t_recorded | | done]); intros s [Hp Hx]; done.
Qed.

Lemma t_suspend_waiting c c0 wait :
  not_rolling c -> k_state c0 = k_state c -> triple (has c) (suspend_waiting c c0 (k_state c) wait) recorded.
Proof.
  intros Hnr E. unfold suspend_waiting. destruct (next_step_name _ _) as [step|]; [| by apply t_fail].
  apply t_bind_lift; intros steps _. destruct (wait_validate wait) as [[]|e]; [| by apply t_fail].
  apply t_bind_now; intros t. apply t_bind_lift; intros st Hst.
  apply t_bind_now; intros t1. apply t_bind_now; intros t2. destruct Hnr as [Hn Hnc].
  apply t_bind_persist; [apply _ | done | by eapply (succeeds_intro c); [exact Hst |..] | apply t_recorded |
    by apply t_current, _].
Qed.

Lemma t_finish (P : S -> Prop) (m : Prog FlowState) :
  triple P m recorded ->
  triple P (pbind m (fun r => pret (inl r)))
    (fun (r : FlowState + FlowContinuation) s => match r with inl st => recorded st s | inr x => runs x s end).
Proof. intros Hm. eapply t_bind; [exact Hm |]. intros st. by apply t_ret. Qed.

Lemma t_drive_step c :
  f_status (k_state c) = Running -> k_wait c = None ->
  triple (has c) (drive_step c)
    (fun r s => match r with inl st => recorded st s | inr x => runs x s end).
Proof.
  intros Hs Hw. assert (not_rolling c) as Hnr by (split; by rewrite Hs).
  unfold drive_step. eapply (t_bind _ _ _ (fun _ => has c)).
  { eapply t_try_keep; [apply _ | by apply t_execute, _]. }
  assert (forall c0 step, k_state c0 = k_state c -> triple (has c)
    (pbind (transition_to c0 (k_state c) step) (fun o => match o with
       | Some running => pret (inr running)
       | None => pbind (current_result (f_id (k_state c))) (fun r => pret (inl r))
       end))
    (fun (r : FlowState + FlowContinuation) s => match r with inl st => recorded st s | inr x => runs x s end)) as Hgo.
  { intros c0 step E. eapply t_bind; [by apply (t_transition c c0) |]. intros [x|]; [by apply t_ret |].
    by apply t_finish, t_current, _. }
  assert (forall (k : FlowContinuation -> Prog (FlowState + FlowContinuation)) Q,
    (forall c0, k_state c0 = k_state c -> triple (has c) (k c0) Q) ->
    triple (has c) (pbind (record_step_compensation c) k) Q) as Hrec.
  { intros k Q Hk. eapply t_bind; [apply t_record_compensation |]. intros c0 r Hg [Hh E]. by apply Hk. }
  intros [[| step | at_ | wait | | err]|err].
  - apply Hrec. intros c0 E. destruct (next_step_name _ _); [by apply Hgo | by apply t_finish, t_complete].
  - apply Hrec. intros c0 E. destruct (negb _); [by apply t_finish, (t_fail c) | by apply Hgo].
  - apply Hrec. intros c0 E. by apply t_finish, t_suspend_until.
  - apply Hrec. intros c0 E. by apply t_finish, t_suspend_waiting.
  - by apply t_finish, t_complete.
  - by apply t_finish, (t_fail c).
  - by apply t_finish, (t_fail c).
Qed.

Lemma t_drive fuel c :
  f_status (k_state c) = Running -> k_wait c = None -> triple (has c) (drive fuel c) recorded.
Proof.
  revert c. induction fuel as [|fuel IH]; intros c Hs Hw; simpl; [apply t_none |].
  eapply t_bind; [by apply t_drive_step |]. intros [st|x]; [by apply t_ret |].
  intros r Hg (Hh & Hw' & Hs'). by apply IH.
Qed.

Lemma t_resume_loaded fuel c id at_ : triple (has c) (resume_loaded fuel c id at_) recorded.
Proof.
  unfold resume_loaded. cbv zeta. destruct (is_terminal (f_status (k_state c))) eqn:Et; [apply t_recorded |].
  set (owned := bool_decide (f_status (k_state c) = Running) || bool_decide (f_status (k_state c) = Compensating)).
  set (stale := owned && is_stale (f_heartbeat (k_state c)) at_ (rt_stale_after rt)).
  destruct (owned && negb stale) eqn:Eo; [apply t_recorded |].
  destruct (negb (bool_decide (f_status (k_state c) = Suspended)) && negb stale) eqn:Es; [apply t_throw |].
  destruct (if stale then _ else _) as [| |err] eqn:Ev; [apply t_recorded | |].
  - destruct (negb stale && _); [apply t_recorded |].
    eapply t_bind; [by apply t_claim |]. intros [x|]; [| by apply t_current, _].
    intros r Hg (Hh & Hw & Hs). destruct (bool_decide (f_status (k_state x) = Compensating)) eqn:Hx; bool_prop.
    + by apply t_compensate.
    + apply t_drive; [| done | done | done]. rewrite Hs in Hx |- *.
      by destruct (bool_decide (f_status (k_state c) = Compensating)).
  - destruct stale; [done |]. rewrite andb_true_r in Es. bool_prop. apply t_fail; [| done].
    split; [done |]. by rewrite Es.
Qed.

Lemma t_resume_at (P : S -> Prop) fuel id at_ : Stable P -> triple P (resume_at fuel id at_) recorded.
Proof.
  intros HP. apply t_bind_load; [done |]. intros c _ _. apply t_bind_lift. intros _ _. apply t_resume_loaded.
Qed.

Lemma t_resume (P : S -> Prop) fuel id : Stable P -> triple P (resume fuel id) recorded.
Proof. intros HP. apply t_bind_now. intros t. by apply t_resume_at. Qed.

Lemma t_start fuel id data : triple (fun _ => True) (start fuel id data) recorded.
Proof.
  apply t_bind_lift. intros _ _. destruct (first_step_name _) as [step|]; [| apply t_throw].
  apply t_bind_now; intros t. apply t_bind_lift. intros _ _. apply t_bind_now; intros t1.
  eapply (t_bind _ _ _ (fun _ _ => True)).
  2: { intros []; [apply t_resume, _ | apply t_throw]. }
  apply t_store; [apply _ |]. intros s Hg _. pose proof Hg as [Hw _].
  set (c := FlowContinuation_new _ _ _). pose proof (ss_create_law s c Hw) as Hl.
  destruct (ss_create s c) as [x s']. destruct Hl as [Hw' Hl].
  assert (unwritten (ss_lookup s) (ss_lookup s') -> good s' /\ evolves s s') as Hun.
  { intros Hu. split; [by eapply unwritten_good | by apply unwritten_evolves]. }
  assert (ss_lookup s (f_id (k_state c)) = None -> written (ss_lookup s) (ss_lookup s') c ->
          good s' /\ evolves s s') as Hwr.
  { intros Hn Hwr. split; [by apply (written_good s s' c) |]. apply (written_evolves s s' c); [| done].
    intros cur E. congruence. }
  assert (good s' /\ evolves s s') as [? ?] by (destruct x as [[]|e]; simpl in Hl; tauto).
  split_and!; [done | done | by destruct x].
Qed.

Lemma t_resume_scheduled fuel id step : triple (fun _ => True) (resume_scheduled fuel id step) recorded.
Proof.
  apply t_bind_load; [apply _ |]. intros c _ _. apply t_bind_lift. intros _ _.
  destruct (negb _); [apply t_throw | apply t_resume, _].
Qed.

Lemma t_cancel id : triple (fun _ => True) (rt_cancel id) recorded.
Proof.
  apply t_bind_load; [apply _ |]. intros c _ _. apply t_bind_lift. intros _ _.
  destruct (is_terminal _) eqn:Et; [apply t_recorded |]. case_bool_decide as Ec; [apply t_throw |].
  apply t_bind_now; intros t. apply t_bind_lift; intros st Hst. apply t_bind_now; intros t1.
  apply t_bind_persist; [apply _ | done | by eapply (succeeds_intro c); [exact Hst |..] | | by apply t_current, _].
  apply t_bind_keep; [| intros _; apply t_recorded]. destruct (k_schedule c); [| by apply t_ret].
  apply t_bind_now; intros t2. apply t_bind_keep; [| intros; by apply t_ret].
  eapply t_try_keep; [apply _ | apply t_sched].
Qed.

Lemma t_record_success (P : S -> Prop) fuel id child payload :
  Stable P -> triple P (rt_record_wait_success fuel id child payload) recorded.
Proof.
  intros HP. apply t_bind_load; [done |]. intros c _ _. destruct (is_terminal _); [apply t_recorded |].
  apply t_bind_lift. intros _ _. destruct (negb _); [apply t_throw |]. apply t_bind_now; intros t.
  apply t_bind_keep.
  { apply (t_record _ _ (fun w => record_success w child payload) id (f_version (k_state c)) t); [apply _ |].
    intros s Hs. apply (ss_record_success_law _ _ _ _ _ _ Hs). }
  intros []; [apply t_resume, _ |]. apply t_bind_load; [apply _ |]. intros cur _ _.
  destruct (k_wait cur); [| apply t_recorded]. apply t_bind_now; intros t1.
  destruct (evaluate_wait _ _); [apply t_recorded | apply t_resume, _ | apply t_recorded].
Qed.

Lemma t_record_failure (P : S -> Prop) fuel id child error :
  Stable P -> triple P (rt_record_wait_failure fuel id child error) recorded.
Proof.
  intros HP. apply t_bind_load; [done |]. intros c _ _. destruct (is_terminal _); [apply t_recorded |].
  apply t_bind_lift. intros _ _. apply t_bind_now; intros t. apply t_bind_keep.
  { apply (t_record _ _ (fun w => record_failure w child error) id (f_version (k_state c)) t); [apply _ |].
    intros s Hs. apply (ss_record_failure_law _ _ _ _ _ _ Hs). }
  intros []; [apply t_resume, _ | by apply t_current, _].
Qed.

Lemma t_completion fuel completion : triple (fun _ => True) (record_completion fuel completion) recorded.
Proof.
  assert (forall corr, triple (fun _ => True) (by_correlation corr) (fun _ _ => True)) as Hb.
  { intros corr. eapply (t_bind _ _ _ (fun _ _ => True)); [by apply t_read; [apply _ |] |].
    intros [c|]; [by apply t_ret | apply t_throw]. }
  destruct completion; (eapply t_bind; [apply Hb |]); intros c; simpl;
    [apply t_record_success, _ | apply t_record_failure, _].
Qed.

Lemma t_change_wait c wait :
  is_terminal (f_status (k_state c)) = false -> f_status (k_state c) <> Compensating ->
  triple (has c) (change_wait c wait) (fun _ _ => True).
Proof.
  intros Hn Hc. apply t_bind_now; intros t. apply t_bind_lift; intros st Hst. apply t_bind_now; intros t1.
  eapply t_weaken; [apply (t_claim_op (has c) c); [apply _ |] | done | done].
  by eapply (succeeds_intro c); [exact Hst |..].
Qed.

Lemma t_claim_child n id : triple (fun _ => True) (claim_next_wait_child n id) (fun _ _ => True).
Proof.
  induction n as [|n IH]; simpl; [apply t_throw |]. apply t_bind_load; [apply _ |]. intros c [_ Hwk] _.
  apply t_bind_lift. intros _ _. destruct (is_terminal _) eqn:Et; [by apply t_ret |].
  destruct (k_wait c) as [w|] eqn:Ew; [| by apply t_ret]. apply t_bind_lift. intros _ _.
  apply t_bind_now; intros t. destruct (claim_next_child _ _ _ _) as [[child w']|]; [| by apply t_ret].
  eapply t_bind; [apply t_change_wait; [done |]; by rewrite Hwk |]. intros []; [by apply t_ret | done].
Qed.

Lemma t_finish_child n id child launched :
  triple (fun _ => True) (finish_wait_child_claim n id child launched) (fun _ _ => True).
Proof.
  induction n as [|n IH]; simpl; [apply t_throw |]. apply t_bind_load; [apply _ |]. intros c [_ Hwk] _.
  apply t_bind_lift. intros _ _. destruct (is_terminal _) eqn:Et; [by apply t_ret |].
  destruct (k_wait c) as [w|] eqn:Ew; [| by apply t_ret].
  destruct (if launched then _ else _) as [w'|]; [| by apply t_ret].
  eapply t_bind; [apply t_change_wait; [done |]; by rewrite Hwk |]. intros []; [by apply t_ret | done].
Qed.

Lemma t_launch fuel id launcher n :
  triple (fun _ => True) (launch_waiting_children fuel id launcher n) (fun _ _ => True).
Proof.
  revert n. induction fuel as [|fuel IH]; intros n; cbn [launch_waiting_children]; [apply t_none |].
  eapply t_bind; [apply t_claim_child |]. intros [[child corr]|]; [| by apply t_ret].
  eapply (t_bind _ _ _ (fun _ _ => True)).
  { eapply t_try_keep; [apply _ | apply t_world]. }
  intros [x|e].
  - eapply t_bind; [apply t_finish_child |]. done.
  - eapply (t_bind _ _ _ (fun _ _ => True)).
    { eapply t_try_keep; [apply _ | apply t_finish_child]. }
    intros _. apply t_throw.
Qed.

Lemma t_rt_heartbeat id version : triple (fun _ => True) (rt_heartbeat id version) (fun _ _ => True).
Proof.
  eapply (t_bind _ _ _ (fun _ _ => True)); [by apply t_read; [apply _ |] |].
  intros [c|]; [| by apply t_ret]. apply t_bind_lift. intros _ _. apply t_bind_now; intros t.
  apply t_bind_now; intros t1. by apply t_heartbeat, _.
Qed.

Lemma t_reconcile a b : triple (fun _ => True) (reconcile_delayed_suspensions a b) (fun _ _ => True).
Proof.
  apply t_bind_lift. intros q _. eapply (t_bind _ _ _ (fun _ _ => True)); [by apply t_read; [apply _ |] |].
  intros l. generalize 0%nat as n. induction l as [|x l IH]; intros n; simpl; [by apply t_ret |].
  eapply t_bind; [apply t_get, _ |]. intros [c|]; [| eapply t_weaken; [apply IH | done | done]].
  eapply (t_weaken _ (has c)); [| by intros ? [_ [? _]] | done]. apply t_bind_lift. intros _ _.
  destruct (_ || _) eqn:Eb; [eapply t_weaken; [apply IH | done | done] |].
  apply orb_false_iff in Eb as [Eb _]. apply orb_false_iff in Eb as [Eb _]. apply orb_false_iff in Eb as [Eb _]. bool_prop.
  eapply (t_bind _ _ _ (fun _ _ => True)); [eapply t_weaken; [by apply t_delayed | done | done] | done].
Qed.

(** ** Safety of every operation *)

Inductive rtop :=
| RStart (flow_id : string) (data : list Z)
| RResumeAt (flow_id : string) (at_ : SystemTime)
| RResumeScheduled (flow_id state_id : string)
| RCancel (flow_id : string)
| RRecordSuccess (flow_id child_id : string) (payload : list Z)
| RRecordFailure (flow_id child_id : string) (error : CatgaError)
| RCompletion (completion : FlowCompletion)
| RLaunch (flow_id : string) (launcher : string -> string -> string -> W -> CatgaResult unit * W)
| RHeartbeat (flow_id : string) (version : Z)
| RReconcile (max_results max_scan : nat).

(** The flow state an operation returns, if it returns one *)
Definition run_op (fuel : nat) (op : rtop) : Prog (option FlowState) :=
  let state (m : Prog FlowState) : Prog (option FlowState) := let* st := m in pret (Some st) in
  match op with
  | RStart id data => state (start fuel id data)
  | RResumeAt id at_ => state (resume_at fuel id at_)
  | RResumeScheduled id step => state (resume_scheduled fuel id step)
  | RCancel id => state (rt_cancel id)
  | RRecordSuccess id child payload => state (rt_record_wait_success fuel id child payload)
  | RRecordFailure id child error => state (rt_record_wait_failure fuel id child error)
  | RCompletion completion => state (record_completion fuel completion)
  | RLaunch id launcher => do* launch_waiting_children fuel id launcher 0 in pret None
  | RHeartbeat id version => do* rt_heartbeat id version in pret None
  | RReconcile a b => do* reconcile_delayed_suspensions a b in pret None
  end.

Lemma t_run_op fuel op :
  triple (fun _ => True) (run_op fuel op)
    (fun o s => match o with Some st => recorded st s | None => True end).
Proof.
  assert (forall m, triple (fun _ => True) m recorded -> triple (fun _ => True)
    (pbind m (fun st => pret (Some st))) (fun o s => match o with Some st => recorded st s | None => True end)) as Hst.
  { intros m Hm. eapply t_bind; [exact Hm |]. intros st. by apply t_ret. }
  assert (forall A (m : Prog A), triple (fun _ => True) m (fun _ _ => True) -> triple (fun _ => True)
    (pbind m (fun _ => pret None)) (fun o s => match o with Some st => recorded st s | None => True end)) as Hno.
  { intros A m Hm. eapply t_bind; [exact Hm |]. intros a. by apply t_ret. }
  destruct op; simpl; first [apply Hst | apply Hno].
  - apply t_start.
  - apply t_resume_at, _.
  - apply t_resume_scheduled.
  - apply t_cancel.
  - apply t_record_success, _.
  - apply t_record_failure, _.
  - apply t_completion.
  - apply t_launch.
  - apply t_rt_heartbeat.
  - apply t_reconcile.
Qed.

(** C5: Every operation of the runtime is safe whatever other runtimes do to the shared store
    between its accesses, as long as they keep to the same rules, and it keeps to the rules
    itself in each of its own accesses: a finished flow never changes again, versions never
    decrease, a flow that rolls back goes on rolling back until it has failed, keeps the error
    that started the rollback, and its remaining rollback steps only ever shrink from the end.
    The state an operation returns was
    durable: the store still has the flow in at least its version, and exactly it when it is
    final. *)
Theorem runtime_safe fuel op r x r' :
  good (r_store r) -> r_log r = [] -> run_op fuel op r = (x, r') ->
  Forall (fun '(before, after) => good after /\ evolves before after) (r_log r')
  /\ good (r_store r') /\ evolves (r_store r) (r_store r')
  /\ forall st, x = Some (Ok (Some st)) ->
       exists c, ss_lookup (r_store r') (f_id st) = Some c
         /\ f_version st <= f_version (k_state c)
         /\ (is_terminal (f_status st) = true -> k_state c = st).
Proof.
  intros Hg Hl E. pose proof (t_run_op fuel op r) as Ht. rewrite E in Ht.
  destruct Ht as ([Hg' Hlog] & He & Hx); [split; [done | by rewrite Hl] | done |].
  split_and!; try done. intros st ->. destruct Hx as (c0 & <- & cur & Hcur & Hf).
  exists cur. split_and!; [done | apply Hf |]. intros Ht. by rewrite (fo_terminal _ _ Hf Ht).
Qed.
End runtime.
