(* ===== verification/FlowSaga.v ===== *)
(** * Durable flows run alone

    The runtime over the in-memory store and scheduler with no other runtime and no heartbeat
    falling due: a flow runs its steps in order and ends as done, or undoes the completed
    ones in reverse order and ends as failed; a rollback that fails keeps what is left to do. *)

From S2P Require Import Prelude Utf8 Errors Time Flows Suspension SuspendedFlows Scheduler FlowRuntime.

Section alone.
Context {W : Type}.

Abbreviation Mem := MemorySuspendedFlows.
Abbreviation Sched := MemoryFlowScheduler.
Abbreviation run := (@Run Mem Sched W).

Context (ev : @Env Mem W) (rt : @FlowRuntime W).

Definition d := rt_definition rt.

(** No other runtime, and every handler is faster than the heartbeat interval. *)
Definition quiet : Prop :=
  (forall n s, interfere ev n s = s)
  /\ forall n, at_beats (env_attempt ev n) = 0%nat /\ at_deadline (env_attempt ev n) = false.

Context (Hquiet : quiet).

(** The flow: its identity and its data, which no step changes *)
Context (id : string) (data : list Z).

Definition flow_of (st : FlowState) : Prop := f_id st = id /\ f_data st = data.

Definition stored (r : run) (c : FlowContinuation) : Prop :=
  continuations (r_store r) !! f_id (k_state c) = Some c.

(** What a step of a program leaves in place besides the store *)
Definition same_rest (r r' : run) : Prop := r_sched r' = r_sched r.

Lemma run_now (r : run) : now ev r = (Some (Ok (env_clock ev (r_tick r))), tick r).
Proof. done. Qed.

Lemma bind_ok {A B} (m : @Prog Mem Sched W A) (k : A -> @Prog Mem Sched W B) (r r1 : run) a :
  m r = (Some (Ok a), r1) -> pbind m k r = k a r1.
Proof. intros E. unfold pbind. by rewrite E. Qed.

(** A continuation whose state is [st], in its next version *)
Lemma persist_alone (r : run) cur next v :
  continuations (r_store r) !! f_id (k_state next) = Some cur -> f_version (k_state cur) = v ->
  f_version (k_state next) = v + 1 -> int_min i64 <= v + 1 <= int_max i64 ->
  continuation_validate next = Ok tt ->
  exists r', persist ev v next r = (Some (Ok true), r') /\ stored r' next
    /\ r_world r' = r_world r /\ r_sched r' = r_sched r.
Proof.
  intros Hl Hv Hn Hr Hval. unfold persist, on_store. rewrite (proj1 Hquiet). cbn [ss_update memory_suspended_laws].
  unfold susp_update. rewrite (proj2 (is_next_version_spec _ _)) by done. rewrite Hval, Hl, Hv, Z.eqb_refl. simpl.
  eexists. split_and!; [done | | done | done]. unfold stored. simpl. apply lookup_insert_eq.
Qed.

Lemma store_claim_alone (r : run) c next :
  stored r c -> f_id (k_state next) = f_id (k_state c) ->
  f_version (k_state next) = f_version (k_state c) + 1 ->
  int_min i64 <= f_version (k_state c) + 1 <= int_max i64 -> continuation_validate next = Ok tt ->
  exists r', on_store ev (fun s => ss_claim s c next) r = (Some (Ok true), r') /\ stored r' next
    /\ r_world r' = r_world r /\ r_sched r' = r_sched r.
Proof.
  intros Hl Hid Hn Hr Hval. unfold on_store. rewrite (proj1 Hquiet). cbn [ss_claim memory_suspended_laws].
  unfold susp_claim. rewrite Hid, bool_decide_true, (proj2 (is_next_version_spec _ _)) by done.
  unfold stored in Hl. rewrite Hval, Hl, bool_decide_true by done. simpl. eexists.
  split_and!; [done | | done | done]. unfold stored. simpl. rewrite Hid. apply lookup_insert_eq.
Qed.

Lemma next_version_alone st :
  int_min i64 <= f_version st + 1 <= int_max i64 ->
  exists st', next_version st = Ok st' /\ st' = mkFlowState (f_id st) (f_type st) (f_status st) (f_step st)
    (f_version st + 1) (f_owner st) (f_heartbeat st) (f_data st) (f_error st).
Proof. intros H. unfold next_version. rewrite checked_fits by done. by eexists. Qed.

(** A handler runs to its end. *)
Lemma timed_alone {A} c b lost (h : W -> CatgaResult A * W) (r : run) x w :
  h (r_world r) = (x, w) ->
  exists r', timed ev rt c b lost h r = (Some x, r') /\ r_world r' = w
    /\ r_store r' = r_store r /\ r_sched r' = r_sched r.
Proof.
  intros Hh. unfold timed, pbind, attempt, ptry. cbn [r_tick tick].
  destruct (proj2 Hquiet (r_tick r)) as [Hb Hd]. rewrite Hb, Hd.
  assert ((if rt_stale_after rt =? 0 then 0%nat else 0%nat) = 0%nat) as -> by by case_match.
  simpl. rewrite andb_false_r. unfold on_world. simpl. rewrite Hh. eexists. by split_and!.
Qed.

(** ** Rollback *)

Section rollback.
Context (undo : string -> W -> CatgaResult unit * W).

(** The rollback actions of the named steps, which may use the identity and the data of the flow *)
Definition undoes (l : list string) : Prop :=
  forall name st w, name ∈ l -> flow_of st -> definition_compensate d name st w = undo name w.

(** The actions in turn up to the first one that fails: those that are left, and how it ended *)
Fixpoint undo_all (names : list string) (w : W) : list string * CatgaResult unit * W :=
  match names with
  | [] => ([], Ok tt, w)
  | name :: names' =>
    match undo name w with
    | (Ok _, w') => undo_all names' w'
    | (Err e, w') => (names, Err e, w')
    end
  end.

(** The state of a rollback: what is stored and what is left to do *)
Definition rolling (r : run) (c : FlowContinuation) (l : list string) (error : CatgaError) (v : Z) : Prop :=
  stored r c /\ k_compensations c = l /\ f_status (k_state c) = Compensating
  /\ f_error (k_state c) = Some error /\ f_version (k_state c) = v /\ k_wait c = None
  /\ flow_validate (k_state c) = Ok tt /\ flow_of (k_state c).

Lemma validate_no_wait c : flow_validate (k_state c) = Ok tt -> k_wait c = None -> continuation_validate c = Ok tt.
Proof. intros Hv Hw. unfold continuation_validate. rewrite Hv. simpl. by rewrite Hw. Qed.

(** One rollback step that succeeds *)
Lemma rollback_step fuel (r : run) c l name error v w :
  rolling r c (l ++ [name]) error v -> int_min i64 <= v + 1 <= int_max i64 ->
  definition_compensate d name (k_state c) (r_world r) = (Ok tt, w) ->
  exists r' c', compensate_loop ev rt (S fuel) c r = compensate_loop ev rt fuel c' r'
    /\ rolling r' c' l error (v + 1) /\ r_world r' = w /\ r_sched r' = r_sched r
    /\ f_step (k_state c') = f_step (k_state c).
Proof.
  intros (Hst & Hl & Hs & He & Hv & Hw & Hval & Hof) Hr Hd.
  destruct (next_compensation_snoc c l name Hl) as [Hn Hrest]. cbn [compensate_loop]. rewrite Hn.
  unfold execute_compensation_with_heartbeat.
  destruct (timed_alone c false "flow compensation ownership was lost while its action was running" _ r _ _ Hd)
    as (r1 & E1 & Hw1 & Hs1 & Hsch1).
  rewrite (bind_ok _ _ _ _ _ E1), (bind_ok _ _ _ _ _ (run_now r1)).
  destruct (next_version_alone (compensating (k_state c))) as (st & Est & Hst'); [simpl; lia |].
  rewrite Est. rewrite (bind_ok (plift (Ok st)) _ _ (tick r1) st) by done.
  rewrite (bind_ok _ _ _ _ _ (run_now (tick r1))).
  set (next := with_state (complete_compensation c _) st _).
  destruct (persist_alone (tick (tick r1)) c next (f_version (k_state c))) as (r2 & E2 & Hs2 & Hw2 & Hsch2).
  - simpl. rewrite Hs1, Hst'. done.
  - done.
  - simpl. by rewrite Hst'.
  - by rewrite Hv.
  - apply validate_no_wait; [| done]. simpl. by rewrite Hst'.
  - rewrite (bind_ok _ _ _ _ _ E2). exists r2, next. split_and!; [done | | | | by simpl; rewrite Hst'].
    + unfold rolling. simpl in *. rewrite Hst'. simpl. rewrite Hv. split_and!; try done. apply (Hrest 0).
    + by rewrite Hw2.
    + rewrite Hsch2. done.
Qed.

(** A rollback step that fails: the flow stays as it is. *)
Lemma rollback_step_fails fuel (r : run) c l name error v e w :
  rolling r c (l ++ [name]) error v -> definition_compensate d name (k_state c) (r_world r) = (Err e, w) ->
  exists r', compensate_loop ev rt (S fuel) c r = (Some (Err e), r') /\ rolling r' c (l ++ [name]) error v /\ r_world r' = w.
Proof.
  intros Hroll Hd. pose proof Hroll as (_ & Hl & _). destruct (next_compensation_snoc c l name Hl) as [Hn _].
  cbn [compensate_loop]. rewrite Hn. unfold execute_compensation_with_heartbeat.
  destruct (timed_alone c false "flow compensation ownership was lost while its action was running"
    (definition_compensate (rt_definition rt) name (k_state c)) r (Err e) w Hd) as (r1 & E1 & Hw1 & Hs1 & _).
  exists r1. unfold pbind. rewrite E1. split_and!; [done | | done]. unfold rolling, stored in *. by rewrite Hs1.
Qed.

(** The last step of a rollback: the flow has failed with its original error. *)
Lemma rollback_ends fuel (r : run) c error v :
  rolling r c [] error v -> int_min i64 <= v + 1 <= int_max i64 ->
  exists r' c', compensate_loop ev rt fuel c r = (Some (Ok (k_state c')), r') /\ stored r' c'
    /\ f_status (k_state c') = Failed /\ f_error (k_state c') = Some error
    /\ k_compensations c' = [] /\ flow_of (k_state c') /\ f_step (k_state c') = f_step (k_state c)
    /\ r_world r' = r_world r.
Proof.
  intros (Hst & Hl & Hs & He & Hv & Hw & Hval & Hof) Hr.
  assert (next_compensation c = None) as Hn by (unfold next_compensation; by rewrite Hl).
  destruct (next_version_alone (failed (k_state c) error)) as (st & Est & Hst'); [simpl; lia |].
  set (next := with_state (ready c (env_clock ev (r_tick r))) st (env_clock ev (r_tick (tick r)))).
  destruct (persist_alone (tick (tick r)) c next (f_version (k_state c))) as (r2 & E2 & Hs2 & Hw2 & Hsch2);
    [simpl; by rewrite Hst' | done | simpl; by rewrite Hst' | by rewrite Hv
    | apply validate_no_wait; [simpl; by rewrite Hst' | done] |].
  exists r2, next. split_and!; try done; try (simpl; by rewrite Hst').
  assert (compensate_loop ev rt fuel c r
          = pbind (persist ev (f_version (k_state c)) next)
              (fun b => if (b : bool) then pret (k_state next) else current_result ev (f_id (k_state c)))
              (tick (tick r))) as ->.
  { destruct fuel; cbn [compensate_loop]; rewrite Hn, He; unfold pbind at 1 2 3; by rewrite Est. }
  by rewrite (bind_ok _ _ _ _ _ E2).
Qed.

(** How a rollback leaves the flow: failed with the error that started it, or still in its rollback
    with the action that failed and the ones before it left to do *)
Definition rolled_back (r' : run) (c' : FlowContinuation) (x : CatgaResult FlowState) (comps : list string) (error : CatgaError) (w : W) : Prop :=
  let '(remaining, ended, w') := undo_all (reverse comps) w in
  stored r' c' /\ flow_of (k_state c') /\ f_error (k_state c') = Some error /\ k_compensations c' = reverse remaining /\ r_world r' = w'
  /\ match ended with
     | Ok _ => x = Ok (k_state c') /\ f_status (k_state c') = Failed
     | Err e => x = Err e /\ f_status (k_state c') = Compensating
     end.

(** A rollback runs the actions of the completed steps in reverse order of completion, each once. *)
Lemma rollback_loop fuel (r : run) c comps error v :
  rolling r c comps error v -> undoes comps -> (length comps <= fuel)%nat ->
  int_min i64 <= v -> v + lenZ comps + 1 <= int_max i64 ->
  exists r' c' x, compensate_loop ev rt fuel c r = (Some x, r') /\ f_step (k_state c') = f_step (k_state c)
    /\ rolled_back r' c' x comps error (r_world r).
Proof.
  revert fuel r c v. induction comps as [|name comps IH] using rev_ind; intros fuel r c v Hroll Hu Hfuel Hmin Hmax; unfold rolled_back.
  { unfold lenZ in Hmax. simpl in Hmax. destruct (rollback_ends fuel r c error v) as (r' & c' & E & ? & ? & ? & ? & ? & ? & ?); [done | lia |].
    exists r', c', (Ok (k_state c')). by split_and!. }
  rewrite reverse_snoc. unfold lenZ in *. rewrite length_app in *. simpl in *. pose proof Hroll as (_ & _ & _ & _ & _ & _ & _ & Hof).
  assert (definition_compensate d name (k_state c) (r_world r) = undo name (r_world r)) as Hd by (apply Hu; [set_solver | done]).
  destruct fuel as [|fuel]; [lia |]. destruct (undo name (r_world r)) as [[[]|e] w1].
  - destruct (rollback_step fuel r c comps name error v w1) as (r1 & c1 & -> & Hroll1 & Hw1 & _ & Hn1); [done | lia | done |].
    destruct (IH fuel r1 c1 (v + 1)) as (r2 & c2 & x & E2 & Hn2 & Hres); [done | intros ? ? ? ?; apply Hu; set_solver | lia | lia | lia |].
    exists r2, c2, x. split_and!; [done | congruence |]. unfold rolled_back in Hres. by rewrite Hw1 in Hres.
  - destruct (rollback_step_fails fuel r c comps name error v e w1) as (r1 & -> & Hroll1 & Hw1); [done | done |].
    destruct Hroll1 as (? & Hl & ? & ? & _ & _ & _ & ?).
    exists r1, c, (Err e). split_and!; try done. by rewrite reverse_cons, reverse_involutive.
Qed.

Lemma rollback_all (r : run) c comps error v :
  rolling r c comps error v -> undoes comps -> int_min i64 <= v -> v + lenZ comps + 1 <= int_max i64 ->
  exists r' c' x, compensate ev rt c r = (Some x, r') /\ f_step (k_state c') = f_step (k_state c)
    /\ rolled_back r' c' x comps error (r_world r).
Proof.
  intros Hroll Hu Hmin Hmax. unfold compensate. assert (k_compensations c = comps) as -> by apply Hroll.
  by apply rollback_loop with v.
Qed.
End rollback.

(** ** Running forward *)

Context (Hpolicy : rt_tag_policy rt = None).

Definition running_at (r : run) (c : FlowContinuation) (name : string) (comps : list string) (v n : Z) : Prop :=
  stored r c /\ k_step c = name /\ k_compensations c = comps /\ f_status (k_state c) = Running
  /\ f_version (k_state c) = v /\ f_step (k_state c) = n /\ k_wait c = None /\ flow_validate (k_state c) = Ok tt
  /\ flow_of (k_state c).

(** The rollback step a completed step records *)
Definition recorded_step (name : string) : list string := if has_compensation d name then [name] else [].

Lemma execute_alone c (r : run) x w :
  definition_execute d (k_step c) (k_state c) (r_world r) = (x, w) ->
  exists r', execute_step_with_heartbeat ev rt c (k_state c) r = (Some x, r') /\ r_world r' = w
    /\ r_store r' = r_store r /\ r_sched r' = r_sched r.
Proof.
  intros Hx. unfold execute_step_with_heartbeat. rewrite Hpolicy.
  assert (match step_tag (rt_definition rt) (k_step c) with
          | Some _ | None => execute_step_attempt ev rt c (k_state c) None
          end = execute_step_attempt ev rt c (k_state c) None) as -> by by case_match.
  by apply timed_alone.
Qed.

Lemma record_alone c (r : run) :
  lenZ (k_compensations c) < MAX_FLOW_COMPENSATIONS ->
  exists r' c0, record_step_compensation ev rt c r = (Some (Ok c0), r')
    /\ k_state c0 = k_state c /\ k_step c0 = k_step c /\ k_wait c0 = k_wait c
    /\ k_compensations c0 = k_compensations c ++ recorded_step (k_step c)
    /\ r_world r' = r_world r /\ r_store r' = r_store r /\ r_sched r' = r_sched r.
Proof.
  intros Hc. unfold record_step_compensation, recorded_step. fold d. destruct (has_compensation d (k_step c)).
  - rewrite (bind_ok _ _ _ _ _ (run_now r)). unfold record_compensation.
    rewrite (proj2 (Z.eqb_neq _ _)) by lia. do 2 eexists. by split_and!.
  - exists r, c. rewrite app_nil_r. by split_and!.
Qed.

Lemma rt_claim_alone (r : run) c :
  stored r c -> int_min i64 <= f_version (k_state c) + 1 <= int_max i64 -> f_status (k_state c) = Suspended ->
  flow_validate (k_state c) = Ok tt -> flow_of (k_state c) ->
  exists r' c', rt_claim ev rt c r = (Some (Ok (Some c')), r')
    /\ running_at r' c' (k_step c) (k_compensations c) (f_version (k_state c) + 1) (f_step (k_state c))
    /\ f_id (k_state c') = f_id (k_state c) /\ r_world r' = r_world r /\ r_sched r' = r_sched r.
Proof.
  intros Hst Hr Hs Hval Hof. unfold rt_claim. rewrite (bind_ok _ _ _ _ _ (run_now r)), Hs.
  rewrite bool_decide_false by done. rewrite (bind_ok _ _ _ _ _ (run_now (tick r))).
  set (claimed := running _). destruct (next_version_alone claimed) as (st & Est & Hst'); [done |].
  rewrite Est. rewrite (bind_ok (plift (Ok st)) _ _ (tick (tick r)) st) by done.
  rewrite (bind_ok _ _ _ _ _ (run_now (tick (tick r)))). set (next := with_state _ st _).
  destruct (store_claim_alone (tick (tick (tick r))) c next) as (r2 & E2 & Hs2 & Hw2 & Hsch2);
    [done | simpl; by rewrite Hst' | simpl; by rewrite Hst' | done | apply validate_no_wait; [simpl; by rewrite Hst' | done] |].
  rewrite (bind_ok _ _ _ _ _ E2). exists r2, next. split_and!; try done; [| simpl; by rewrite Hst'].
  unfold running_at. simpl. rewrite Hst'. simpl. by split_and!.
Qed.

Lemma transition_alone (r : run) c c0 next_step v n :
  running_at r c (k_step c) (k_compensations c) v n ->
  k_state c0 = k_state c -> k_wait c0 = k_wait c ->
  int_min i64 <= v -> v + 2 <= int_max i64 -> 0 <= n -> n + 1 <= int_max u32 ->
  exists r' c', transition_to ev rt c0 (k_state c) next_step r = (Some (Ok (Some c')), r')
    /\ running_at r' c' next_step (k_compensations c0) (v + 2) (n + 1)
    /\ f_id (k_state c') = f_id (k_state c) /\ r_world r' = r_world r /\ r_sched r' = r_sched r.
Proof.
  intros (Hst & _ & _ & Hs & Hv & Hn & Hw & Hval & Hof) E0 Ew0 H1 H2 H3 H4. unfold transition_to, completed_steps_after.
  rewrite Hn, checked_fits by (int_bounds; lia). rewrite (bind_ok (plift _) _ _ r (n + 1)) by done.
  rewrite (bind_ok _ _ _ _ _ (run_now r)). set (pending := suspended _).
  destruct (next_version_alone pending) as (st & Est & Hst'); [simpl; lia |].
  rewrite Est. rewrite (bind_ok (plift (Ok st)) _ _ (tick r) st) by done.
  rewrite (bind_ok _ _ _ _ _ (run_now (tick r))). set (next := with_state _ st _).
  destruct (persist_alone (tick (tick r)) c next (f_version (k_state c0))) as (r2 & E2 & Hs2 & Hw2 & Hsch2);
    [simpl; by rewrite Hst' | by rewrite E0 | simpl; rewrite Hst'; simpl; by rewrite E0 | rewrite E0, Hv; lia
    | apply validate_no_wait; [simpl; by rewrite Hst' | done] |].
  rewrite (bind_ok _ _ _ _ _ E2).
  destruct (rt_claim_alone r2 next) as (r3 & c3 & -> & Hrun & Hid & Hw3 & Hsch3);
    [done | simpl; rewrite Hst'; simpl; lia | simpl; by rewrite Hst' | simpl; by rewrite Hst' | simpl; by rewrite Hst' |].
  exists r3, c3. split_and!; [done | | | by rewrite Hw3, Hw2 | by rewrite Hsch3, Hsch2].
  - simpl in Hrun. rewrite Hst' in Hrun. simpl in Hrun. rewrite Hv in Hrun.
    replace (v + 2) with (v + 1 + 1) by lia. done.
  - rewrite Hid. simpl. by rewrite Hst'.
Qed.

(** One iteration of [drive] on a step that advances to another one *)
Lemma advance_step fuel (r : run) c next comps v n w :
  running_at r c (k_step c) comps v n -> next_step_name d (k_step c) = Some next ->
  definition_execute d (k_step c) (k_state c) (r_world r) = (Ok Advance, w) ->
  int_min i64 <= v -> v + 2 <= int_max i64 -> 0 <= n -> n + 1 <= int_max u32 ->
  lenZ comps < MAX_FLOW_COMPENSATIONS ->
  exists r' c', drive ev rt (S fuel) c r = drive ev rt fuel c' r'
    /\ running_at r' c' next (comps ++ recorded_step (k_step c)) (v + 2) (n + 1)
    /\ f_id (k_state c') = f_id (k_state c) /\ r_world r' = w /\ r_sched r' = r_sched r.
Proof.
  intros Hrun Hnext Hx Hv1 Hv2 Hn1 Hn2 Hc. pose proof Hrun as (Hst & _ & Hcs & _).
  cbn [drive]. unfold drive_step.
  destruct (execute_alone c r _ _ Hx) as (r1 & E1 & Hw1 & Hs1 & Hsch1).
  destruct (record_alone c r1) as (r2 & c0 & E2 & E0 & _ & Ew & Hcomps & Hw2 & Hs2 & Hsch2); [by rewrite Hcs |].
  destruct (transition_alone r2 c c0 next v n) as (r3 & c3 & E3 & Hrun3 & Hid & Hw3 & Hsch3); try done.
  { unfold running_at, stored in *. rewrite Hs2, Hs1, Hcs. naive_solver. }
  exists r3, c3. split_and!; [| | done | congruence | congruence].
  - unfold pbind at 1 2, ptry. rewrite E1. unfold pbind at 1. rewrite E2. fold d. rewrite Hnext.
    unfold pbind at 1. rewrite E3. done.
  - rewrite Hcomps, Hcs in Hrun3. done.
Qed.

(** A step that ends the flow: the last one, or one that completes it *)
Lemma rt_complete_alone (r : run) c v n :
  running_at r c (k_step c) (k_compensations c) v n ->
  int_min i64 <= v -> v + 1 <= int_max i64 -> 0 <= n -> n + 1 <= int_max u32 ->
  exists r' c', complete ev c (k_state c) r = (Some (Ok (k_state c')), r') /\ stored r' c'
    /\ f_id (k_state c') = f_id (k_state c) /\ f_status (k_state c') = Done /\ f_step (k_state c') = n + 1
    /\ f_error (k_state c') = None /\ r_world r' = r_world r /\ r_sched r' = r_sched r.
Proof.
  intros (Hst & _ & _ & Hs & Hv & Hn & Hw & Hval & Hof) H1 H2 H3 H4. unfold complete, completed_steps_after.
  rewrite Hn, checked_fits by (int_bounds; lia). rewrite (bind_ok (plift _) _ _ r (n + 1)) by done.
  destruct (next_version_alone (done (k_state c) (n + 1))) as (st & Est & Hst'); [simpl; lia |].
  rewrite Est. rewrite (bind_ok (plift (Ok st)) _ _ r st) by done.
  rewrite (bind_ok _ _ _ _ _ (run_now r)). set (next := with_state _ st _).
  destruct (persist_alone (tick r) c next (f_version (k_state c))) as (r2 & E2 & Hs2 & Hw2 & Hsch2);
    [simpl; by rewrite Hst' | done | simpl; by rewrite Hst' | lia
    | apply validate_no_wait; [simpl; by rewrite Hst' | done] |].
  rewrite (bind_ok _ _ _ _ _ E2). exists r2, next. split_and!; try done; simpl; by rewrite Hst'.
Qed.

(** A failure of a running flow: its completed steps are undone. *)
Lemma rt_fail_alone undo (r : run) c comps v n error :
  running_at r c (k_step c) comps v n -> undoes undo comps ->
  int_min i64 <= v -> v + lenZ comps + 2 <= int_max i64 ->
  exists r' c' x, rt_fail ev rt c error r = (Some x, r') /\ f_step (k_state c') = n
    /\ rolled_back undo r' c' x comps error (r_world r).
Proof.
  intros (Hst & _ & Hcs & Hs & Hv & Hn & Hw & Hval & Hof) Hu H1 H2. unfold rt_fail.
  rewrite (bind_ok _ _ _ _ _ (run_now r)), Hcs. destruct (decide (comps = [])) as [-> | Hne].
  - unfold lenZ in *. simpl in *. destruct (next_version_alone (failed (k_state c) error)) as (st & Est & Hst'); [simpl; lia |].
    rewrite Est. rewrite (bind_ok (plift (Ok st)) _ _ (tick r) st) by done.
    rewrite (bind_ok _ _ _ _ _ (run_now (tick r))). set (next := with_state _ st _).
    destruct (persist_alone (tick (tick r)) c next (f_version (k_state c))) as (r2 & E2 & Hs2 & Hw2 & Hsch2);
      [simpl; by rewrite Hst' | done | simpl; by rewrite Hst' | lia
      | apply validate_no_wait; [simpl; by rewrite Hst' | done] |].
    rewrite (bind_ok _ _ _ _ _ E2). exists r2, next, (Ok (k_state next)). unfold rolled_back. simpl. split_and!; try done; simpl; by rewrite Hst'.
  - assert ((length comps =? 0)%nat = false) as -> by (by destruct comps). simpl.
    assert (0 <= lenZ comps) by (unfold lenZ; lia).
    destruct (next_version_alone (compensating (with_error (k_state c) error))) as (st & Est & Hst'); [simpl; lia |].
    rewrite Est. rewrite (bind_ok (plift (Ok st)) _ _ (tick r) st) by done.
    rewrite (bind_ok _ _ _ _ _ (run_now (tick r))). set (next := with_state _ st _).
    destruct (persist_alone (tick (tick r)) c next (f_version (k_state c))) as (r2 & E2 & Hs2 & Hw2 & Hsch2);
      [simpl; by rewrite Hst' | done | simpl; by rewrite Hst' | lia
      | apply validate_no_wait; [simpl; by rewrite Hst' | done] |].
    rewrite (bind_ok _ _ _ _ _ E2).
    destruct (rollback_all undo r2 next comps error (v + 1)) as (r3 & c3 & x & -> & Hn3 & Hres); [| done | lia | lia |].
    + unfold rolling. simpl in *. rewrite Hst'. simpl. by rewrite Hv.
    + exists r3, c3, x. rewrite Hn3. simpl. rewrite Hst'. rewrite Hw2 in Hres. by split_and!.
Qed.

(** ** Definitions built by registration *)

Definition built (name : string) (steps : list (RegisteredStep W)) : FlowDefinition W :=
  foldl register (FlowDefinition_new name) steps.

Lemma built_snoc name steps x : built name (steps ++ [x]) = register (built name steps) x.
Proof. unfold built. by rewrite foldl_app. Qed.

Lemma built_steps name steps : fd_steps (built name steps) = steps.
Proof. induction steps as [|x steps IH] using rev_ind; [done |]. rewrite built_snoc. simpl. by rewrite IH. Qed.

Lemma built_nodup name steps : definition_validate (built name steps) = Ok tt -> NoDup (st_name <$> steps).
Proof.
  unfold definition_validate. case_bool_decide as Hn; [done |]. clear Hn.
  destruct (fd_invalid_step_names (built name steps)) eqn:E; [done |]. intros _. revert E.
  induction steps as [|x steps IH] using rev_ind; [constructor |]. rewrite built_snoc. simpl. rewrite built_steps.
  rewrite !orb_false_iff. intros [[Hi _] Hx]. rewrite fmap_app. apply NoDup_app. split_and!; [auto | | apply NoDup_singleton].
  intros name' Hin Hx'. apply list_elem_of_fmap in Hin as (y & -> & Hy). simpl in Hx'. apply list_elem_of_singleton in Hx'.
  assert (existsb (fun registered => bool_decide (st_name registered = st_name x)) steps = true); [| congruence].
  apply existsb_exists. exists y. split; [by apply list_elem_of_In | by apply bool_decide_eq_true].
Qed.

Lemma position_here {A} (p : A -> bool) pre x suf :
  (forall y, y ∈ pre -> p y = false) -> p x = true -> position p (pre ++ x :: suf) = Some (length pre).
Proof.
  intros Hpre Hx. induction pre as [|y pre IH]; simpl; [by rewrite Hx |]. rewrite Hpre by set_solver.
  rewrite IH; [done | set_solver].
Qed.

Lemma named_step pre x suf :
  fd_steps d = pre ++ x :: suf -> NoDup (st_name <$> fd_steps d) ->
  find_step d (st_name x) = Some x /\ next_step_name d (st_name x) = st_name <$> head suf.
Proof.
  intros Hd Hnd. unfold find_step, next_step_name. rewrite Hd in *.
  rewrite fmap_app, fmap_cons in Hnd. apply NoDup_app in Hnd as (_ & Hne & _).
  assert (position (fun s => bool_decide (st_name s = st_name x)) (pre ++ x :: suf) = Some (length pre)) as ->.
  { apply position_here; [| by apply bool_decide_eq_true]. intros y Hy. apply bool_decide_eq_false. intros E.
    apply (Hne (st_name y)); [by apply list_elem_of_fmap_2 | rewrite E; apply list_elem_of_here]. }
  rewrite list_lookup_middle by done. split; [done |].
  rewrite lookup_app_r by lia. replace (length pre + 1 - length pre)%nat with 1%nat by lia. by destruct suf.
Qed.

(** ** A whole flow *)

Context (name : string) (act : string -> W -> W) (undo : string -> W -> CatgaResult unit * W).

(** A step of the flow that advances by [act]; its rollback action, when it has one, is [undo].  Both may
    use the identity and the data of the flow. *)
Definition advances (x : RegisteredStep W) : Prop :=
  (forall st w, flow_of st -> st_handler x st w = (Ok Advance, act (st_name x) w))
  /\ forall f, st_compensation x = Some f -> forall st w, flow_of st -> f st w = undo (st_name x) w.

(** The steps that have a rollback action, in order *)
Definition rollback_names (steps : list (RegisteredStep W)) : list string :=
  st_name <$> filter (fun x => is_Some (st_compensation x)) steps.

Definition acted (steps : list (RegisteredStep W)) (w : W) : W :=
  foldl (fun w x => act (st_name x) w) w steps.

Lemma recorded_named pre x suf :
  fd_steps d = pre ++ x :: suf -> NoDup (st_name <$> fd_steps d) ->
  recorded_step (st_name x) = rollback_names [x].
Proof.
  intros Hd Hnd. unfold recorded_step, has_compensation, rollback_names.
  rewrite (proj1 (named_step _ _ _ Hd Hnd)), filter_cons, filter_nil. case_decide as Hc; destruct (st_compensation x); try done.
  by destruct Hc.
Qed.

Lemma rollback_names_app a b : rollback_names (a ++ b) = rollback_names a ++ rollback_names b.
Proof. unfold rollback_names. by rewrite filter_app, fmap_app. Qed.

Lemma rollback_names_le steps : (length (rollback_names steps) <= length steps)%nat.
Proof. unfold rollback_names. rewrite length_fmap. apply length_filter. Qed.

Lemma drive_steps fuel pre : forall before x suf (r : run) c,
  fd_steps d = before ++ pre ++ x :: suf -> NoDup (st_name <$> fd_steps d) -> Forall advances pre ->
  lenZ before + lenZ pre <= MAX_FLOW_COMPENSATIONS ->
  running_at r c (st_name (default x (head pre))) (rollback_names before) (1 + 2 * lenZ before) (lenZ before) ->
  exists r' c', drive ev rt (length pre + fuel) c r = drive ev rt fuel c' r'
    /\ running_at r' c' (st_name x) (rollback_names (before ++ pre)) (1 + 2 * lenZ (before ++ pre)) (lenZ (before ++ pre))
    /\ f_id (k_state c') = f_id (k_state c) /\ r_world r' = acted pre (r_world r).
Proof.
  induction pre as [|y pre IH]; intros before x suf r c Hd Hnd Hadv Hlen Hrun.
  { exists r, c. by rewrite app_nil_r. }
  change (length (y :: pre) + fuel)%nat with (S (length pre + fuel)).
  apply Forall_cons in Hadv as [[Hy _] Hadv]. pose proof Hrun as (_ & Hk & _ & _ & _ & _ & _ & _ & Hof).
  destruct (named_step _ _ _ Hd Hnd) as [Hf Hn]. unfold lenZ, MAX_FLOW_COMPENSATIONS in *. simpl in Hk, Hlen, Hrun, Hn.
  pose proof (rollback_names_le before).
  destruct (advance_step (length pre + fuel) r c (st_name (default x (head pre))) (rollback_names before)
    (1 + 2 * Z.of_nat (length before)) (Z.of_nat (length before)) (act (st_name y) (r_world r)))
    as (r1 & c1 & -> & Hrun1 & Hid1 & Hw1 & _); try (int_bounds; lia).
  - by rewrite Hk.
  - rewrite Hk, Hn. by destruct pre.
  - unfold definition_execute. rewrite Hk, Hf. by apply Hy.
  - unfold lenZ, MAX_FLOW_COMPENSATIONS. lia.
  - rewrite Hk, (recorded_named _ _ _ Hd Hnd), <- rollback_names_app in Hrun1.
    replace (before ++ y :: pre) with ((before ++ [y]) ++ pre) by (by rewrite <- app_assoc).
    destruct (IH (before ++ [y]) x suf r1 c1) as (r2 & c2 & E2 & Hrun2 & Hid2 & Hw2); [| done | done | | |].
    + by rewrite Hd, <- app_assoc.
    + unfold lenZ. rewrite length_app. simpl. lia.
    + unfold lenZ. rewrite length_app. simpl.
      replace (1 + 2 * Z.of_nat (length before + 1)) with (1 + 2 * Z.of_nat (length before) + 2) by lia.
      by replace (Z.of_nat (length before + 1)) with (Z.of_nat (length before) + 1) by lia.
    + exists r2, c2. split_and!; [done | done | congruence |]. by rewrite Hw2, Hw1.
Qed.

(** A new flow starts at the first step. *)
Lemma start_alone fuel (r : run) first :
  definition_validate d = Ok tt -> first_step_name d = Some first ->
  continuations (r_store r) !! id = None -> lenZ data <= MAX_FLOW_DATA_BYTES ->
  exists r' c, start ev rt fuel id data r = drive ev rt fuel c r' /\ f_id (k_state c) = id
    /\ running_at r' c first [] 1 0 /\ r_world r' = r_world r.
Proof.
  intros Hd Hfirst Hnew Hlen. unfold start. fold d. rewrite Hd. rewrite (bind_ok (plift (Ok tt)) _ r r tt) by done.
  rewrite Hfirst. rewrite (bind_ok _ _ _ _ _ (run_now r)).
  set (st := suspended (FlowState_new id (fd_name d) data (rt_owner rt) _)).
  assert (flow_validate st = Ok tt) as Hval by (unfold flow_validate; simpl; unfold lenZ in *; by rewrite (proj2 (Z.ltb_ge _ _))).
  rewrite Hval. rewrite (bind_ok (plift (Ok tt)) _ (tick r) (tick r) tt) by done.
  rewrite (bind_ok _ _ _ _ _ (run_now (tick r))). set (c := FlowContinuation_new st first _).
  assert (continuation_validate c = Ok tt) as Hcv by by apply validate_no_wait.
  set (r1 := tick (tick r)).
  assert (exists r2, on_store ev (fun s => ss_create s c) r1 = (Some (Ok true), r2) /\ stored r2 c
    /\ r_world r2 = r_world r) as (r2 & E2 & Hst2 & Hw2).
  { unfold on_store. rewrite (proj1 Hquiet). cbn [ss_create memory_suspended_laws]. unfold susp_create. rewrite Hcv.
    change (continuations (r_store r1) !! f_id (k_state c)) with (continuations (r_store r) !! id).
    rewrite Hnew. eexists. split_and!; [done | | done].
    unfold stored. simpl. apply lookup_insert_eq. }
  rewrite (bind_ok _ _ _ _ _ E2). unfold resume. rewrite (bind_ok _ _ _ _ _ (run_now r2)). unfold resume_at.
  assert (exists r3, load ev (f_id (k_state c)) (tick r2) = (Some (Ok c), r3) /\ r_store r3 = r_store r2
    /\ r_world r3 = r_world r2) as (r3 & E3 & Hs3 & Hw3).
  { unfold load, read_store, on_store, pbind. rewrite (proj1 Hquiet). cbn [ss_get memory_suspended_laws].
    unfold susp_get. cbn [r_store tick]. unfold stored in Hst2. rewrite Hst2, Hcv. eexists. by split_and!. }
  rewrite (bind_ok _ _ _ _ _ E3). unfold ensure_definition. rewrite Hcv. fold d. rewrite Hd.
  cbn [rbind].
  rewrite bool_decide_true by done. rewrite (bind_ok (plift (Ok tt)) _ r3 r3 tt) by done.
  unfold resume_loaded. simpl (is_terminal _). simpl (bool_decide _).
  destruct (rt_claim_alone r3 c) as (r4 & c4 & E4 & Hrun & Hid & Hw4 & _); try done.
  { unfold stored. by rewrite Hs3. }
  simpl. rewrite (bind_ok _ _ _ _ _ E4). pose proof Hrun as (_ & _ & _ & -> & _).
  exists r4, c4. split_and!; [done | done | done | congruence].
Qed.

(** How a step with [rest] after it ends the flow: done, failed, or not at all *)
Definition ends (rest : list (RegisteredStep W)) (x : CatgaResult FlowStepOutcome) : option (option CatgaError) :=
  match x, rest with
  | Ok Advance, [] | Ok StepComplete, _ => Some None
  | Err e, _ | Ok (StepFail e), _ => Some (Some e)
  | _, _ => None
  end.

Lemma undoes_steps pre rest :
  fd_steps d = pre ++ rest -> NoDup (st_name <$> fd_steps d) -> Forall advances pre -> undoes undo (rollback_names pre).
Proof.
  intros Hd Hnd Hadv n st w Hin Hof. unfold rollback_names in Hin. apply list_elem_of_fmap in Hin as (x & -> & Hx).
  apply list_elem_of_filter in Hx as [[f Hf] Hx]. destruct (list_elem_of_split _ _ Hx) as (a & b & Hab).
  unfold definition_compensate. rewrite (proj1 (named_step a x (b ++ rest) ltac:(by rewrite Hd, Hab, <- app_assoc) Hnd)), Hf.
  by apply (proj2 (proj1 (Forall_forall _ _) Hadv x Hx)).
Qed.

(** The step that ends the flow *)
Lemma end_step fuel (r : run) c comps v n rest x w o :
  running_at r c (k_step c) comps v n ->
  definition_execute d (k_step c) (k_state c) (r_world r) = (x, w) ->
  next_step_name d (k_step c) = st_name <$> head rest -> ends rest x = Some o ->
  undoes undo comps -> int_min i64 <= v -> v + lenZ comps + 2 <= int_max i64 -> 0 <= n -> n + 1 <= int_max u32 ->
  lenZ comps < MAX_FLOW_COMPENSATIONS ->
  exists r' c' y, drive ev rt (S fuel) c r = (Some y, r')
    /\ match o with
       | None => y = Ok (k_state c') /\ stored r' c' /\ f_id (k_state c') = id /\ f_error (k_state c') = None
           /\ f_status (k_state c') = Done /\ f_step (k_state c') = n + 1 /\ r_world r' = w
       | Some error => f_step (k_state c') = n /\ rolled_back undo r' c' y comps error w
       end.
Proof.
  intros Hrun Hx Hnext Hend Hu Hv1 Hv2 Hn1 Hn2 Hcl. assert (0 <= lenZ comps) by (unfold lenZ; lia).
  destruct (execute_alone c r _ _ Hx) as (r1 & E1 & Hw1 & Hs1 & _). cbn [drive]. unfold drive_step.
  assert (running_at r1 c (k_step c) comps v n) as Hrun1 by (unfold running_at, stored in *; by rewrite Hs1).
  assert (f_id (k_state c) = id) as Hid by apply Hrun.
  assert (forall r2, r_store r2 = r_store r1 -> r_world r2 = r_world r1 -> exists r' c', complete ev c (k_state c) r2 = (Some (Ok (k_state c')), r') /\ stored r' c'
    /\ f_id (k_state c') = id /\ f_error (k_state c') = None /\ f_status (k_state c') = Done
    /\ f_step (k_state c') = n + 1 /\ r_world r' = w) as Hdone.
  { intros r2 Hs2 Hw2. assert (k_compensations c = comps) as Hc by apply Hrun.
    destruct (rt_complete_alone r2 c v n) as (r' & c' & ? & ? & ? & ? & ? & ? & Hw' & _); try (done || lia).
    { subst comps. unfold running_at, stored in *. by rewrite Hs2. }
    exists r', c'. split_and!; try done; congruence. }
  destruct (rt_fail_alone undo r1 c comps v n (default (CatgaError_new Internal "") o))
    as (rf & cf & y & Ef & Hnf & Hres); [done.. |]. rewrite Hw1 in Hres.
  unfold pbind at 1 2, ptry. rewrite E1.
  destruct x as [[| | | | |e]|e]; simpl in Hend; try done; simplify_eq.
  - destruct rest; [| done]. simplify_eq. fold d. rewrite Hnext. simpl.
    destruct (record_alone c r1) as (r2 & c0 & E2 & _ & _ & _ & _ & Hw2 & Hs2 & _).
    { assert (k_compensations c = comps) as -> by apply Hrun. done. }
    rewrite (bind_ok _ _ _ _ _ E2). destruct (Hdone r2) as (r' & c' & E' & ? & ? & ? & ? & ? & ?); [done | done |].
    unfold pbind. rewrite E'. exists r', c', (Ok (k_state c')). by split_and!.
  - destruct (Hdone r1) as (r' & c' & E' & ? & ? & ? & ? & ? & ?); [done | done |].
    unfold pbind. rewrite E'. exists r', c', (Ok (k_state c')). by split_and!.
  - unfold pbind. simpl in *. rewrite Ef. exists rf, cf, y. split; [by destruct y | by split].
  - unfold pbind. simpl in *. rewrite Ef. exists rf, cf, y. split; [by destruct y | by split].
Qed.

End alone.

(** ** Witnesses *)

Abbreviation Log := (list string).

(** Nobody else works on the store; the clock shows [t], and [beats] heartbeats fall due in
    each attempt of a handler. *)
Definition calm (t : SystemTime) (beats : nat) : @Env MemorySuspendedFlows Log :=
  mkEnv (fun _ => t) (fun _ s => s) (fun _ => mkAttempt beats false (fun w => w ++ ["dropped"%string])).

Definition fresh_run : @Run MemorySuspendedFlows MemoryFlowScheduler Log :=
  mkRun suspended_default scheduler_default [] 0 [].

Lemma calm_quiet t : quiet (calm t 0).
Proof. by split. Qed.

Definition log (what : string) (w : Log) : Log := w ++ [what].

(** An order reserves, charges and ships; shipping fails, the charge cannot be refunded, and so the
    reservation is not undone. *)
Definition reserve_step : RegisteredStep Log :=
  mkStep "reserve" None (fun _ w => (Ok Advance, log "reserve" w)) (Some (fun _ w => (Ok tt, log "undo reserve" w))).
Definition notify_step : RegisteredStep Log :=
  mkStep "notify" None (fun _ w => (Ok Advance, log "notify" w)) None.
Definition charge_step : RegisteredStep Log :=
  mkStep "charge" None (fun st w => (Ok Advance, log (f_id st) w)) (Some (fun _ w => (Err (CatgaError_new Transient "no bank"), log "refund" w))).
Definition pack_step : RegisteredStep Log :=
  mkStep "pack" None (fun _ w => (Ok Advance, log "pack" w)) (Some (fun _ w => (Ok tt, log "unpack" w))).
Definition ship_step : RegisteredStep Log :=
  mkStep "ship" None (fun _ w => (Err (CatgaError_new Unavailable "no carrier"), log "ship" w)) None.

Definition order : @FlowRuntime Log :=
  FlowRuntime_new (built "order" [reserve_step; notify_step; charge_step; pack_step; ship_step]) "node".

Definition order_act (name : string) : Log -> Log := if String.eqb name "charge" then log "f" else log name.
Definition order_undo (name : string) (w : Log) : CatgaResult unit * Log :=
  if String.eqb name "charge" then (Err (CatgaError_new Transient "no bank"), log "refund" w)
  else if String.eqb name "pack" then (Ok tt, log "unpack" w) else (Ok tt, log "undo reserve" w).


