(* ===== verification/DueService.v ===== *)
(** * Workers for due flows ([flow/due_service.rs], [FlowTimeoutService] of [flow/timeout.rs])

    [FlowDueService] claims due wake-ups of a scheduler and resumes their flows;
    [FlowTimeoutService] polls the store for expired waits and resumes theirs.  Both are
    programs over the runtime, its store and its scheduler. *)

From S2P Require Import Prelude Errors Time Flows Suspension SuspendedFlows Scheduler FlowRuntime FlowSaga.

(** ** Interfaces *)

(** What the due service uses of a scheduler besides what the runtime uses *)
Class DueFlowScheduler (H : Type) := {
  dfs_claim_due : H -> string -> SystemTime -> Duration -> nat -> CatgaResult (list ScheduledResume) * H;
  dfs_ack_due : H -> string -> string -> CatgaResult bool * H;
  dfs_release_due : H -> string -> string -> CatgaResult bool * H;
  dfs_renew_due : H -> string -> string -> SystemTime -> Duration -> CatgaResult bool * H
}.

#[export] Instance memory_due_scheduler : DueFlowScheduler MemoryFlowScheduler := {|
  dfs_claim_due := claim_due;
  dfs_ack_due := ack_due;
  dfs_release_due := release_due;
  dfs_renew_due := renew_due
|}.

(** What the timeout service uses of a store besides what the runtime uses: settling a
    receipt never touches a continuation. *)
Class TimedOutFlowStore (S : Type) `{!SuspendedStoreLaws S} := {
  ts_poll : S -> TimedOutFlowPoll -> CatgaResult (list TimedOutFlowReceipt) * S;
  ts_ack : S -> TimedOutFlowReceipt -> CatgaResult unit * S;
  ts_release : S -> TimedOutFlowReceipt -> CatgaResult unit * S;
  ts_poll_law s p : ss_wf s -> ss_wf (ts_poll s p).2 /\ unwritten (ss_lookup s) (ss_lookup (ts_poll s p).2);
  ts_ack_law s r : ss_wf s -> ss_wf (ts_ack s r).2 /\ unwritten (ss_lookup s) (ss_lookup (ts_ack s r).2);
  ts_release_law s r :
    ss_wf s -> ss_wf (ts_release s r).2 /\ unwritten (ss_lookup s) (ss_lookup (ts_release s r).2)
}.

#[export, refine] Instance memory_timed_out_store : TimedOutFlowStore MemorySuspendedFlows := {|
  ts_poll := poll_timed_out; ts_ack := ack_timed_out; ts_release := release_timed_out
|}.
Proof.
  - intros s p Hs. unfold poll_timed_out. by destruct (due_poll _ _).
  - intros s r Hs. unfold ack_timed_out. by destruct (receipt_token r).
  - intros s r Hs. unfold release_timed_out. by destruct (receipt_token r).
Defined.

(** ** Options *)

Record DueFlowOptions := mkDueOptions {
  du_batch_size : nat; du_lease_for : Duration; du_poll_interval : Duration
}.

Definition DueFlowOptions_default : DueFlowOptions := mkDueOptions 64 (from_secs 30) (from_secs 1).

Section services.
Context {S Sch W : Type} `{!SuspendedStoreLaws S, !TimedOutFlowStore S, !FlowScheduler Sch, !DueFlowScheduler Sch}.
Context (ev : @Env S W) (rt : @FlowRuntime W).

#[local] Notation "'let*' x ':=' m 'in' k" := (pbind m (fun x => k))
  (at level 10, x name, m at level 100, k at level 200).
#[local] Notation "'do*' m 'in' k" := (pbind m (fun _ => k))
  (at level 10, m at level 100, k at level 200).

Abbreviation Prog := (@Prog S Sch W).

(** ** [FlowDueService] *)

Record FlowDueService := mkDueService { du_owner : string; du_options : DueFlowOptions }.

Definition FlowDueService_new (owner : string) : FlowDueService := mkDueService owner DueFlowOptions_default.

Definition due_with_options (sv : FlowDueService) (options : DueFlowOptions) : CatgaResult FlowDueService :=
  if (du_batch_size options =? 0)%nat
  then fail Validation "due flow batch_size must be greater than zero"
  else if du_lease_for options =? 0
  then fail Validation "due flow lease_for must be greater than zero"
  else if du_poll_interval options =? 0
  then fail Validation "due flow poll_interval must be greater than zero"
  else Ok (mkDueService (du_owner sv) options).

(** What happens while one wake-up of a batch is handled: whether the service has been
    cancelled before it, how many renewals of the lease fall due while the flow is resumed,
    whether cancellation interrupts the resume, and what a resume that is dropped half-way
    leaves in the scheduler and the world.  What it leaves in the store is a step of the
    environment. *)
Record Handling := mkHandling {
  h_cancelled : bool;
  h_renewals : nat;
  h_interrupted : bool;
  h_dropped : Sch -> W -> Sch * W
}.

Definition drop_resume (h : Handling) : Prog unit := fun r =>
  let '(sch, w) := h_dropped h (r_sched r) (r_world r) in
  (Some (Ok tt), mkRun (r_store r) sch w (r_tick r) (r_log r)).

Fixpoint renewals (n : nat) (sv : FlowDueService) (schedule : ScheduledResume) : Prog unit :=
  match n with
  | O => pret tt
  | Datatypes.S n =>
    let* t := now ev in
    let* b := on_sched (fun sch => dfs_renew_due sch (du_owner sv) (sr_id schedule) t
                                     (du_lease_for (du_options sv))) in
    if (b : bool) then renewals n sv schedule
    else pthrow (CatgaError_new Transient "due flow scheduler claim was lost during execution")
  end.

(** [cancellable]: whether the caller passed a cancellation token *)
Definition resume_with_renewal (fuel : nat) (sv : FlowDueService) (schedule : ScheduledResume)
    (cancellable : bool) (h : Handling) : Prog (option (CatgaResult FlowState)) :=
  let* alive := ptry (renewals (h_renewals h) sv schedule) in
  match alive with
  | Err e => do* drop_resume h in pthrow e
  | Ok _ =>
    if cancellable && h_interrupted h then do* drop_resume h in pret None
    else
      let* result := ptry (resume_scheduled ev rt fuel (sr_flow schedule) (sr_state schedule)) in
      pret (Some result)
  end.

(** [release_all]: the outcome of each release is only logged. *)
Fixpoint due_release_all (sv : FlowDueService) (schedules : list ScheduledResume) : Prog unit :=
  match schedules with
  | [] => pret tt
  | schedule :: schedules =>
    do* ptry (on_sched (fun sch => dfs_release_due sch (du_owner sv) (sr_id schedule))) in
    due_release_all sv schedules
  end.

Definition settles (code : ErrorCode) : bool :=
  bool_decide (code = NotFound) || bool_decide (code = Conflict).

(** The loop of [check_at_until] over the claimed wake-ups *)
Fixpoint due_loop (fuel : nat) (sv : FlowDueService) (cancellable : bool) (hs : nat -> Handling)
    (schedules : list ScheduledResume) (acknowledged : nat) : Prog nat :=
  match schedules with
  | [] => pret acknowledged
  | schedule :: rest =>
    let h := hs acknowledged in
    if cancellable && h_cancelled h then do* due_release_all sv schedules in pret acknowledged
    else
      let* resumed := ptry (resume_with_renewal fuel sv schedule cancellable h) in
      match resumed with
      | Err error => do* due_release_all sv schedules in pthrow error
      | Ok None => do* due_release_all sv rest in pret acknowledged
      | Ok (Some result) =>
        if match result with Ok _ => true | Err error => settles (code error) end then
          let* acked := ptry (on_sched (fun sch => dfs_ack_due sch (du_owner sv) (sr_id schedule))) in
          match acked with
          | Ok true => due_loop fuel sv cancellable hs rest (acknowledged + 1)
          | Ok false =>
            do* due_release_all sv schedules in
            pthrow (CatgaError_new Transient "due flow scheduler claim was lost before acknowledgement")
          | Err error => do* due_release_all sv schedules in pthrow error
          end
        else
          do* due_release_all sv schedules in
          match result with Err error => pthrow error | Ok _ => pret acknowledged end
      end
  end.

Definition due_check_at_until (fuel : nat) (sv : FlowDueService) (now : SystemTime) (cancellable : bool)
    (hs : nat -> Handling) : Prog nat :=
  let batch := du_batch_size (du_options sv) in
  let* reconciled := ptry (reconcile_delayed_suspensions ev rt batch batch) in
  match reconciled with
  | Err error => if bool_decide (code error = Unsupported) then
      let* schedules := on_sched (fun sch => dfs_claim_due sch (du_owner sv) now
                                               (du_lease_for (du_options sv)) batch) in
      due_loop fuel sv cancellable hs schedules 0
    else pthrow error
  | Ok _ =>
    let* schedules := on_sched (fun sch => dfs_claim_due sch (du_owner sv) now
                                             (du_lease_for (du_options sv)) batch) in
    due_loop fuel sv cancellable hs schedules 0
  end.

(** [check_at] *)
Definition due_check_at (fuel : nat) (sv : FlowDueService) (now : SystemTime) (hs : nat -> Handling)
    : Prog nat :=
  due_check_at_until fuel sv now false hs.

(** ** [FlowTimeoutService] *)

Definition timeout_with_options (options : FlowTimeoutOptions) : CatgaResult FlowTimeoutOptions :=
  let? _ := timeout_options_validate options in Ok options.

Fixpoint timeout_release_all (receipts : list TimedOutFlowReceipt) : Prog unit :=
  match receipts with
  | [] => pret tt
  | receipt :: receipts =>
    do* ptry (on_store ev (fun s => ts_release s receipt)) in timeout_release_all receipts
  end.

(** The loop over the receipts; [index] counts the handled ones. *)
Fixpoint timeout_loop (fuel : nat) (now : SystemTime) (cancellable : bool) (hs : nat -> Handling)
    (receipts : list TimedOutFlowReceipt) (index expired : nat) : Prog nat :=
  match receipts with
  | [] => pret expired
  | receipt :: rest =>
    let h := hs index in
    if cancellable && h_cancelled h then do* timeout_release_all receipts in pret expired
    else if cancellable && h_interrupted h then
      do* drop_resume h in do* timeout_release_all receipts in pret expired
    else
      let* result := ptry (resume_at ev rt fuel (rc_flow receipt) now) in
      let expired := match result with
                     | Ok st => if bool_decide (f_status st = Failed) then (expired + 1)%nat else expired
                     | Err _ => expired
                     end in
      if match result with Ok _ => true | Err error => settles (code error) end then
        let* acked := ptry (on_store ev (fun s => ts_ack s receipt)) in
        match acked with
        | Err error => do* timeout_release_all receipts in pthrow error
        | Ok _ => timeout_loop fuel now cancellable hs rest (index + 1) expired
        end
      else
        do* timeout_release_all receipts in
        match result with Err error => pthrow error | Ok _ => pret expired end
  end.

Definition timeout_check_at_until (fuel : nat) (options : FlowTimeoutOptions) (now : SystemTime)
    (cancellable : bool) (hs : nat -> Handling) : Prog nat :=
  let* poll := plift (TimedOutFlowPoll_new now (to_batch_size options) (to_scan_limit options)) in
  let* receipts := on_store ev (fun s => ts_poll s poll) in
  if (p_limit poll <? length receipts)%nat then
    do* timeout_release_all receipts in
    pthrow (CatgaError_new Validation "timeout store returned more receipts than requested")
  else timeout_loop fuel now cancellable hs receipts 0 0.

Definition timeout_check_at (fuel : nat) (options : FlowTimeoutOptions) (now : SystemTime)
    (hs : nat -> Handling) : Prog nat :=
  timeout_check_at_until fuel options now false hs.

(** ** The workers are safe

    They write continuations through the runtime only. *)

Context (Hpolite : polite (S := S) ev).

Definition safe {A} (m : Prog A) : Prop := triple (fun _ => True) m (fun _ _ => True).

Lemma sweep_safe_bind {A B} (m : Prog A) (k : A -> Prog B) : safe m -> (forall a, safe (k a)) -> safe (pbind m k).
Proof. intros Hm Hk. by eapply t_bind. Qed.

Lemma sweep_safe_try {A} (m : Prog A) : safe m -> safe (ptry m).
Proof. intros Hm. eapply t_try_keep; [apply _ | exact Hm]. Qed.

Lemma sweep_safe_now : safe (now ev).
Proof. apply t_now. Qed.

Lemma sweep_safe_ret {A} (a : A) : safe (pret a).
Proof. by apply t_ret. Qed.

Lemma sweep_safe_throw {A} e : safe (A := A) (pthrow e).
Proof. apply t_throw. Qed.

Lemma sweep_safe_lift {A} (x : CatgaResult A) : safe (plift x).
Proof. by apply t_lift. Qed.

Lemma sweep_safe_sched {A} (f : Sch -> CatgaResult A * Sch) : safe (on_sched f).
Proof. apply t_sched. Qed.

Lemma sweep_safe_drop h : safe (drop_resume h).
Proof.
  intros r Hg Hp. unfold drop_resume. destruct (h_dropped h _ _) as [sch w].
  split_and!; [done | by apply unwritten_evolves | done].
Qed.

(** Accesses that leave the continuations alone *)
Lemma t_settle {A} (P : S -> Prop) (f : S -> CatgaResult A * S) :
  Stable (S := S) P -> (forall s, ss_wf s -> ss_wf (f s).2 /\ unwritten (ss_lookup s) (ss_lookup (f s).2)) ->
  triple (Sch := Sch) P (on_store ev f) (fun _ => P).
Proof.
  intros HP Hf. apply t_store; [done | done |]. intros s Hg Hp. destruct (Hf s (proj1 Hg)) as [Hw Hu].
  destruct (f s) as [x s']. simpl in *. pose proof (unwritten_evolves _ _ Hu) as He.
  split_and!; [by eapply unwritten_good | done |]. destruct x; [by apply (HP _ _ He) | done].
Qed.

Create HintDb safe.
Hint Resolve sweep_safe_bind sweep_safe_try sweep_safe_now sweep_safe_ret sweep_safe_throw sweep_safe_lift sweep_safe_sched sweep_safe_drop : safe.

Lemma sweep_safe_renewals n sv x : safe (renewals n sv x).
Proof. induction n; simpl; auto with safe. apply sweep_safe_bind; auto with safe. intros t. apply sweep_safe_bind; auto with safe. intros []; auto with safe. Qed.

Lemma sweep_safe_release_all sv l : safe (due_release_all sv l).
Proof. induction l; simpl; auto with safe. Qed.

Lemma safe_resume_with_renewal fuel sv x b h : safe (resume_with_renewal fuel sv x b h).
Proof.
  unfold resume_with_renewal. apply sweep_safe_bind; [apply sweep_safe_try, sweep_safe_renewals |]. intros [?|e]; [| auto with safe].
  destruct (b && _); [auto with safe |]. apply sweep_safe_bind; [| auto with safe]. apply sweep_safe_try.
  eapply t_weaken; [by apply t_resume_scheduled | done | done].
Qed.

Lemma safe_due_loop fuel sv b hs l : forall n, safe (due_loop fuel sv b hs l n).
Proof.
  induction l as [|x l IH]; intros n; [apply sweep_safe_ret |]. cbn [due_loop].
  assert (forall A (m : Prog A), safe m -> safe (pbind (due_release_all sv (x :: l)) (fun _ => m))) as Hrel.
  { intros A m Hm. by apply sweep_safe_bind; [apply sweep_safe_release_all |]. }
  destruct (b && h_cancelled _); [apply Hrel, sweep_safe_ret |].
  apply sweep_safe_bind; [apply sweep_safe_try, safe_resume_with_renewal |].
  intros [[result|]|e]; [| apply sweep_safe_bind; [apply sweep_safe_release_all | auto with safe] | apply Hrel, sweep_safe_throw].
  case_match; [| apply Hrel; destruct result; auto with safe].
  apply sweep_safe_bind; [auto with safe |]. intros [[]|e]; [apply IH | apply Hrel, sweep_safe_throw..].
Qed.

Lemma safe_due_check fuel sv t b hs : safe (due_check_at_until fuel sv t b hs).
Proof.
  unfold due_check_at_until. apply sweep_safe_bind; [by apply sweep_safe_try, t_reconcile |].
  assert (safe (pbind (on_sched (fun sch => dfs_claim_due sch (du_owner sv) t
            (du_lease_for (du_options sv)) (du_batch_size (du_options sv)))) (fun l => due_loop fuel sv b hs l 0))) as H.
  { apply sweep_safe_bind; [auto with safe |]. intros l. apply safe_due_loop. }
  intros [?|e]; [done |]. case_match; [done | apply sweep_safe_throw].
Qed.

(** The flows a sweep counts are stored as failed. *)
Definition counted (n : nat) (s : S) : Prop :=
  exists l, length l = n /\ Forall (fun st => f_status st = Failed /\ recorded st s) l.

#[local] Instance stable_counted n : Stable (counted n).
Proof.
  intros s s' He (l & Hl & Hf). exists l. split; [done |]. eapply Forall_impl; [exact Hf |].
  intros st [? (c & ? & ?)]. split; [done |]. exists c. split; [done | by eapply has_evolves].
Qed.

Lemma t_timeout_release (P : S -> Prop) l : Stable P -> triple P (timeout_release_all l) (fun _ => P).
Proof.
  intros HP. induction l as [|x l IH]; simpl; [by apply t_ret |].
  apply t_bind_keep; [| done]. eapply t_try_keep; [done |]. apply t_settle; [done |]. intros s. apply ts_release_law.
Qed.

Lemma t_timeout_loop fuel t b hs l : forall i n, triple (counted n) (timeout_loop fuel t b hs l i n) counted.
Proof.
  induction l as [|x l IH]; intros i n; [by apply t_ret |]. cbn [timeout_loop].
  assert (forall n' (m : Prog nat), triple (counted n') m counted ->
    triple (counted n') (pbind (timeout_release_all (x :: l)) (fun _ => m)) counted) as Hrel.
  { intros n' m Hm. apply t_bind_keep; [by apply t_timeout_release, _ | done]. }
  destruct (b && h_cancelled _); [by apply Hrel, t_ret |].
  destruct (b && h_interrupted _).
  { apply t_bind_keep; [| intros _; by apply Hrel, t_ret]. intros r Hg Hp. unfold drop_resume.
    destruct (h_dropped _ _ _) as [sch w]. split_and!; [done | by apply unwritten_evolves | done]. }
  eapply t_bind; [apply t_try; [apply _ | by apply t_resume_at, _] |]. intros result.
  set (n' := match result with Ok st => if bool_decide (f_status st = Failed) then (n + 1)%nat else n | Err _ => n end).
  eapply (t_weaken _ (counted n')); [| | done].
  - case_match; [| apply Hrel; destruct result; [by apply t_ret | apply t_throw]].
    apply t_bind_keep; [| intros [?|e]; [apply IH | apply Hrel, t_throw]].
    eapply t_try_keep; [apply _ |]. apply t_settle; [apply _ |]. intros s. apply ts_ack_law.
  - intros s [(l0 & Hl & Hf) Hres]. destruct result as [st|e]; [| by exists l0]. unfold n'.
    case_bool_decide as Hst; [| by exists l0]. exists (l0 ++ [st]). rewrite length_app, Forall_app, Forall_singleton.
    by rewrite Hl.
Qed.

Lemma t_timeout_check fuel o t b hs : triple (fun _ => True) (timeout_check_at_until fuel o t b hs) counted.
Proof.
  apply t_bind_lift. intros poll _. apply t_bind_keep.
  { apply t_settle; [apply _ |]. intros s. apply ts_poll_law. }
  intros l. destruct (p_limit poll <? length l)%nat.
  - apply t_bind_keep; [by apply t_timeout_release, _ | intros _; apply t_throw].
  - eapply t_weaken; [apply t_timeout_loop | | done]. intros s _. by exists [].
Qed.

(** A sweep of the timeout worker keeps the rules of the runtime whatever others do to the
    store meanwhile, and the number it reports is honest: as many flows are stored as
    failed, finally. *)
Theorem timeout_sweep_safe fuel o t b hs r n r' :
  good (r_store r) -> r_log r = [] -> timeout_check_at_until fuel o t b hs r = (Some (Ok n), r') ->
  Forall (fun '(before, after) => good after /\ evolves before after) (r_log r')
  /\ good (r_store r') /\ evolves (r_store r) (r_store r')
  /\ exists l, length l = n /\ Forall (fun st => f_status st = Failed
       /\ exists c, ss_lookup (r_store r') (f_id st) = Some c /\ k_state c = st) l.
Proof.
  intros Hg Hl E. pose proof (t_timeout_check fuel o t b hs r) as Ht. rewrite E in Ht.
  destruct Ht as ([Hg' Hlog] & He & l & Hlen & Hf); [split; [done | by rewrite Hl] | done |].
  split_and!; try done. exists l. split; [done |]. eapply Forall_impl; [exact Hf |].
  intros st [Hst (c & <- & Hc)]. split; [done |]. exists c. split; [| done].
  apply has_terminal; [done | by rewrite Hst].
Qed.
End services.

(** ** Wake-ups in a sweep of the due worker

    What a program that only resumes flows does to the in-memory scheduler: registered
    wake-ups stay, ended ones do not come back, and claims keep their owners. *)

Definition grows (h h' : MemoryFlowScheduler) : Prop :=
  sched_inv h -> sched_inv h'
  /\ (forall id sr, sch_schedules h !! id = Some sr -> sch_schedules h' !! id = Some sr)
  /\ (forall id, retired h id -> retired h' id)
  /\ (forall id, sc_owner <$> sch_claims h' !! id = sc_owner <$> sch_claims h !! id).

#[export] Instance grows_refl : Reflexive grows.
Proof. by intros h Hh. Qed.

#[export] Instance grows_trans : Transitive grows.
Proof.
  intros h1 h2 h3 H12 H23 Hi. destruct (H12 Hi) as (Hi2 & Hs2 & Hr2 & Hc2). destruct (H23 Hi2) as (? & ? & ? & Hc3).
  split_and!; [done | auto | auto |]. intros id. by rewrite Hc3.
Qed.

Lemma schedule_resume_grows h flow state due : grows h (schedule_resume h flow state due).2.
Proof.
  intros Hh. split_and!; [by apply schedule_resume_inv | | by intros id; apply (retired_stays h (OSchedule flow state due)) |].
  - intros id sr Hid. apply (schedule_kept h (OSchedule flow state due)); [done | done | by intros []].
  - intros id. unfold schedule_resume, allocate_schedule_id, enqueue_due. repeat (case_match; simplify_eq); done.
Qed.

Lemma renew_due_grows h owner id t lease : grows h (renew_due h owner id t lease).2.
Proof.
  intros Hh. split_and!; [by apply renew_due_inv | | by intros j; apply (retired_stays h (ORenew owner id t lease)) |].
  - intros j sr Hj. apply (schedule_kept h (ORenew owner id t lease)); [done | done | by intros []].
  - intros j. unfold renew_due. destruct (lease =? 0); [done |]. destruct (lease_deadline t lease); [| done].
    destruct (sch_claims h !! id) as [c|] eqn:E; [| done]. destruct (_ && _) eqn:Eb; [| done]. simpl.
    apply andb_true_iff in Eb as [Eb _]. bool_prop. destruct (decide (j = id)) as [->|Hne].
    + by rewrite lookup_insert_eq, E, <- Eb.
    + by rewrite lookup_insert_ne.
Qed.

Section sweep.
Context {S W : Type} `{!SuspendedStoreLaws S}.
Context (ev : @Env S W) (rt : @FlowRuntime W).

Abbreviation prog := (@FlowRuntime.Prog S MemoryFlowScheduler W).
Abbreviation handling := (@Handling MemoryFlowScheduler W).

Definition keeps {A} (m : prog A) : Prop := forall r, grows (r_sched r) (r_sched (m r).2).

Lemma keeps_bind {A B} (m : prog A) (k : A -> prog B) : keeps m -> (forall a, keeps (k a)) -> keeps (pbind m k).
Proof.
  intros Hm Hk r. unfold pbind. specialize (Hm r). destruct (m r) as [[[a|e]|] r1]; [| done..].
  simpl in Hm. etrans; [exact Hm | apply Hk].
Qed.

Lemma keeps_try {A} (m : prog A) : keeps m -> keeps (ptry m).
Proof. intros Hm r. unfold ptry. specialize (Hm r). by destruct (m r) as [[x|] r1]. Qed.

Lemma keeps_pure {A} (x : option (CatgaResult A)) : keeps (fun r => (x, r)).
Proof. by intros r. Qed.

Lemma keeps_now : keeps (now ev).
Proof. by intros r. Qed.

Lemma keeps_attempt : keeps (attempt ev).
Proof. by intros r. Qed.

Lemma keeps_store {A} (f : S -> CatgaResult A * S) : keeps (on_store ev f).
Proof. intros r. unfold on_store. by destruct (f _). Qed.

Lemma keeps_world {A} (f : W -> CatgaResult A * W) : keeps (on_world f).
Proof. intros r. unfold on_world. by destruct (f _). Qed.

Lemma keeps_sched {A} (f : MemoryFlowScheduler -> CatgaResult A * MemoryFlowScheduler) :
  (forall h, grows h (f h).2) -> keeps (on_sched f).
Proof. intros Hf r. unfold on_sched. specialize (Hf (r_sched r)). by destruct (f _). Qed.

(** Walks through a program *)
Ltac keep :=
  repeat first
    [ apply keeps_bind; [| intros ?] | apply keeps_now | apply keeps_attempt | apply keeps_store | apply keeps_world
    | apply keeps_try | apply keeps_pure | apply keeps_sched; intros; apply schedule_resume_grows
    | progress case_match | progress simpl ].

Lemma keeps_load id : keeps (load ev id).
Proof. unfold load, read_store, not_found. keep. Qed.

Lemma keeps_current id : keeps (current_result ev id).
Proof. unfold current_result. apply keeps_bind; [apply keeps_load | intros c]. keep. Qed.

Lemma keeps_claim c : keeps (rt_claim ev rt c).
Proof. unfold rt_claim. keep. Qed.

Lemma keeps_heartbeats n c lost : keeps (heartbeats ev rt n c lost).
Proof. induction n; simpl; [apply keeps_pure |]. keep. done. Qed.

Lemma keeps_timed {A} c b lost (h : W -> CatgaResult A * W) : keeps (timed ev rt c b lost h).
Proof.
  unfold timed. apply keeps_bind; [apply keeps_attempt |]. intros a.
  apply keeps_bind; [apply keeps_try, keeps_heartbeats |]. intros x. keep.
Qed.

Lemma keeps_tagged n c st t : keeps (tagged_attempts ev rt n c st t).
Proof.
  induction n as [|n IH]; (apply keeps_bind; [apply keeps_try, keeps_timed |]); intros [x|e]; keep; done.
Qed.

Lemma keeps_execute c st : keeps (execute_step_with_heartbeat ev rt c st).
Proof. unfold execute_step_with_heartbeat. repeat case_match; apply keeps_tagged || apply keeps_timed. Qed.

Lemma keeps_compensate fuel c : keeps (compensate_loop ev rt fuel c).
Proof.
  revert c. induction fuel as [|fuel IH]; intros c; cbn [compensate_loop]; destruct (next_compensation c) as [name|].
  1: keep.
  2: apply keeps_bind; [apply keeps_timed | intros _]; unfold persist; keep; first [apply IH | apply keeps_current].
  all: case_match; unfold persist; keep; apply keeps_current.
Qed.

Lemma keeps_fail c e : keeps (rt_fail ev rt c e).
Proof. unfold rt_fail, persist. keep; first [apply keeps_compensate | apply keeps_current]. Qed.

Lemma keeps_delayed c : keeps (persist_delayed_schedule_identity ev c).
Proof. unfold persist_delayed_schedule_identity. keep. Qed.

Lemma keeps_drive_step c : keeps (drive_step ev rt c).
Proof.
  unfold drive_step. apply keeps_bind; [apply keeps_try, keeps_execute |].
  unfold record_step_compensation, complete, transition_to, suspend_until, suspend_waiting, persist.
  intros x. keep; first [apply keeps_compensate | apply keeps_fail | apply keeps_current | apply keeps_delayed | apply keeps_claim].
Qed.

Lemma keeps_drive fuel c : keeps (drive ev rt fuel c).
Proof.
  revert c. induction fuel as [|fuel IH]; intros c; [apply keeps_pure |].
  apply keeps_bind; [apply keeps_drive_step |]. intros [?|?]; [apply keeps_pure | apply IH].
Qed.

Lemma keeps_resume fuel id : keeps (resume ev rt fuel id).
Proof.
  unfold resume, resume_at, resume_loaded. apply keeps_bind; [apply keeps_now | intros t].
  apply keeps_bind; [apply keeps_load | intros c].
  keep; first [apply keeps_fail | apply keeps_claim | apply keeps_compensate | apply keeps_drive | apply keeps_current].
Qed.

Lemma keeps_resume_scheduled fuel id step : keeps (resume_scheduled ev rt fuel id step).
Proof.
  unfold resume_scheduled. apply keeps_bind; [apply keeps_load | intros c].
  apply keeps_bind; [apply keeps_pure | intros _]. case_match; [apply keeps_pure | apply keeps_resume].
Qed.

Lemma keeps_reconcile a b : keeps (reconcile_delayed_suspensions ev rt a b).
Proof.
  unfold reconcile_delayed_suspensions, read_store. keep.
  match goal with |- keeps (reconcile_loop _ _ ?l _) => generalize 0%nat; induction l as [|x l IH] end;
    intros n; cbn [reconcile_loop]; [apply keeps_pure |].
  unfold read_store. apply keeps_bind; [apply keeps_store | intros [c|]]; [| apply IH].
  apply keeps_bind; [apply keeps_pure | intros _]. case_match; [apply IH |].
  apply keeps_bind; [apply keeps_delayed | intros o]. apply IH.
Qed.

(** *** The loop over the claimed wake-ups *)

Context (sv : FlowDueService) (hs : nat -> handling).

(** A resume that is dropped half-way has only resumed. *)
Context (Hdropped : forall n sch w, grows sch (h_dropped (hs n) sch w).1).

Lemma keeps_drop n : keeps (drop_resume (S := S) (hs n)).
Proof. intros r. unfold drop_resume. specialize (Hdropped n (r_sched r) (r_world r)). by destruct (h_dropped _ _ _). Qed.

Lemma keeps_resume_with_renewal fuel x b n : keeps (resume_with_renewal ev rt fuel sv x b (hs n)).
Proof.
  unfold resume_with_renewal. apply keeps_bind.
  - apply keeps_try. induction (h_renewals (hs n)) as [|k IH]; simpl; [apply keeps_pure |].
    apply keeps_bind; [apply keeps_now | intros t]. apply keeps_bind; [| intros []; [apply IH | apply keeps_pure]].
    apply keeps_sched. intros h. apply renew_due_grows.
  - intros [?|e]; [| apply keeps_bind; [apply keeps_drop | intros; apply keeps_pure]].
    case_match; [apply keeps_bind; [apply keeps_drop | intros; apply keeps_pure] |].
    apply keeps_bind; [apply keeps_try, keeps_resume_scheduled | intros; apply keeps_pure].
Qed.

(** The wake-ups [l] are registered, and this worker has claimed them. *)
Definition held (h : MemoryFlowScheduler) (l : list ScheduledResume) : Prop :=
  sched_inv h /\ NoDup (sr_id <$> l)
  /\ forall sr, sr ∈ l -> sch_schedules h !! sr_id sr = Some sr
       /\ sc_owner <$> sch_claims h !! sr_id sr = Some (du_owner sv).

Lemma held_grows h h' l : grows h h' -> held h l -> held h' l.
Proof.
  intros Hg (Hi & Hnd & Hl). destruct (Hg Hi) as (Hi' & Hs & _ & Hc). split_and!; try done.
  intros sr Hin. destruct (Hl sr Hin) as [H1 H2]. rewrite Hc. auto.
Qed.

Lemma held_owns h l sr : held h l -> sr ∈ l -> owns_claim h (sr_id sr) (du_owner sv) = true.
Proof.
  intros (_ & _ & Hl) Hin. destruct (Hl sr Hin) as [_ Hc]. unfold owns_claim.
  destruct (sch_claims h !! sr_id sr) as [c|]; [| done]. simpl in Hc. injection Hc as ->. by apply bool_decide_eq_true.
Qed.

(** What is left of the scheduler: the wake-ups [gone] have ended for good, the others stay. *)
Definition leaves (h h' : MemoryFlowScheduler) (gone : list ScheduledResume) : Prop :=
  sched_inv h'
  /\ (forall sr, sr ∈ gone -> retired h' (sr_id sr))
  /\ (forall id sr, sch_schedules h !! id = Some sr -> id ∉ sr_id <$> gone -> sch_schedules h' !! id = Some sr)
  /\ (forall id, retired h id -> retired h' id).

(** The flow of the wake-up is resumed, while its lease is renewed, to a result or to an
    error that says that there is nothing to resume any more; then it is acknowledged. *)
Inductive worked (fuel : nat) : nat -> list ScheduledResume -> @Run S MemoryFlowScheduler W ->
    @Run S MemoryFlowScheduler W -> Prop :=
| worked_none n r : worked fuel n [] r r
| worked_one n sr l r r1 r2 r3 result h :
    renewals ev (h_renewals (hs n)) sv sr r = (Some (Ok tt), r1) ->
    resume_scheduled ev rt fuel (sr_flow sr) (sr_state sr) r1 = (Some result, r2) ->
    match result with Ok _ => True | Err e => code e = NotFound \/ code e = Conflict end ->
    ack_due (r_sched r2) (du_owner sv) (sr_id sr) = (Ok true, h) ->
    worked fuel (Datatypes.S n) l (mkRun (r_store r2) h (r_world r2) (r_tick r2) (r_log r2)) r3 ->
    worked fuel n (sr :: l) r r3.

(** Releases let go of every claim and of nothing else. *)
Lemma release_all_frees l : forall (r : @Run S MemoryFlowScheduler W), held (r_sched r) l ->
  exists r', due_release_all sv l r = (Some (Ok tt), r') /\ leaves (r_sched r) (r_sched r') []
    /\ (forall sr, sr ∈ l -> sch_claims (r_sched r') !! sr_id sr = None)
    /\ forall id, id ∉ sr_id <$> l -> sch_claims (r_sched r') !! id = sch_claims (r_sched r) !! id.
Proof.
  induction l as [|x l IH]; intros r Hl; simpl.
  { exists r. split_and!; [done | split_and!; [apply Hl | set_solver | done | done] | set_solver | done]. }
  pose proof (held_owns _ _ x Hl ltac:(left)) as Hown. pose proof Hl as (Hi & Hnd & Hall).
  assert (release_due (r_sched r) (du_owner sv) (sr_id x)
    = (Ok true, (release_due (r_sched r) (du_owner sv) (sr_id x)).2)) as E by (unfold release_due; by rewrite Hown).
  assert (sch_schedules (release_due (r_sched r) (du_owner sv) (sr_id x)).2 = sch_schedules (r_sched r)) as Es
    by (unfold release_due; rewrite Hown; simpl; by destruct (sch_schedules (r_sched r) !! _)).
  assert (sch_claims (release_due (r_sched r) (du_owner sv) (sr_id x)).2 = delete (sr_id x) (sch_claims (r_sched r))) as Ec
    by (unfold release_due; rewrite Hown; simpl; by destruct (sch_schedules (r_sched r) !! _)).
  pose proof (release_due_inv (r_sched r) (du_owner sv) (sr_id x) Hi) as Hi'.
  unfold pbind, ptry, on_sched. cbn [dfs_release_due memory_due_scheduler]. rewrite E.
  set (h := (release_due _ _ _).2) in *. apply NoDup_cons in Hnd as [Hx Hnd].
  destruct (IH (mkRun (r_store r) h (r_world r) (r_tick r) (r_log r))) as (r' & -> & (Hi2 & _ & Hs2 & Hr2) & Hf & Hsame).
  - split_and!; [done | done |]. intros sr Hin. destruct (Hall sr ltac:(by right)) as [H1 H2]. simpl. rewrite Es, Ec.
    rewrite lookup_delete_ne; [done |]. intros Eid. apply Hx. rewrite Eid. by apply list_elem_of_fmap_2.
  - exists r'. simpl in *. split_and!; [done | split_and!; [done | set_solver | |] | |].
    + intros id sr. rewrite <- Es. apply Hs2.
    + intros id Hid. by apply Hr2, (retired_stays (r_sched r) (ORelease (du_owner sv) (sr_id x))).
    + intros sr [-> | Hin]%elem_of_cons; [| by apply Hf]. rewrite Hsame by done. rewrite Ec. apply lookup_delete_eq.
    + intros id Hid. rewrite Hsame by set_solver. rewrite Ec. apply lookup_delete_ne. set_solver.
Qed.

Lemma ack_held h x l :
  held h (x :: l) -> exists h', ack_due h (du_owner sv) (sr_id x) = (Ok true, h') /\ held h' l /\ leaves h h' [x].
Proof.
  intros Hl. pose proof (held_owns _ _ x Hl ltac:(left)) as Hown. pose proof Hl as (Hi & Hnd & Hall).
  destruct (Hall x ltac:(left)) as [Hx _]. unfold ack_due. rewrite Hown, Hx. simpl.
  destruct (drop_one_inv h (sr_id x) x _ Hi Hx eq_refl) as (Hi' & Hs & _ & Hc). simpl in *.
  set (h' := compact_cancelled_schedules _) in *. exists h'. apply NoDup_cons in Hnd as [Hnx Hnd].
  assert (forall id, id <> sr_id x -> sch_schedules h' !! id = sch_schedules h !! id) as Hkeep
    by (intros id Hne; rewrite Hs; by apply lookup_delete_ne).
  assert (schstep h (OAck (du_owner sv) (sr_id x)) = h') as Eh
    by (simpl; unfold ack_due; by rewrite Hown, Hx).
  split; [done |]. split; split_and!; try done.
  - intros sr Hin. destruct (Hall sr ltac:(by right)) as [H1 H2].
    assert (sr_id sr <> sr_id x) by (intros Eid; apply Hnx; rewrite <- Eid; by apply list_elem_of_fmap_2).
    rewrite Hkeep, Hc, lookup_delete_ne by done. done.
  - intros sr ->%list_elem_of_singleton. rewrite <- Eh. eapply ended_retired; [done | exact Hx |].
    split; [done |]. by apply owns_claim_spec.
  - intros id sr Hid Hne. rewrite Hkeep; [done |]. intros ->. apply Hne. by left.
  - intros id Hid. rewrite <- Eh. by apply retired_stays.
Qed.

(** How a sweep over [l] ends: the first [k] wake-ups have been worked on and acknowledged,
    and nothing else has ended.  A sweep that reports a number reports [k], after the [n] it
    had before, and if it was not cancelled it has acknowledged all; if it was, it has let go
    of everything behind the wake-up at which it stopped.  After an error it has let go of
    everything it has not acknowledged. *)
Definition swept (fuel : nat) (cancellable : bool) (l : list ScheduledResume) (n : nat)
    (r : @Run S MemoryFlowScheduler W) (x : option (CatgaResult nat)) (r' : @Run S MemoryFlowScheduler W) : Prop :=
  exists k, (k <= length l)%nat /\ (exists rk, worked fuel n (take k l) r rk)
    /\ leaves (r_sched r) (r_sched r') (take k l)
    /\ match x with
       | None => True
       | Some (Ok m) => m = (n + k)%nat /\ (cancellable = false -> k = length l)
           /\ forall sr, sr ∈ drop (Datatypes.S k) l -> sch_claims (r_sched r') !! sr_id sr = None
       | Some (Err _) => (k < length l)%nat /\ forall sr, sr ∈ drop k l -> sch_claims (r_sched r') !! sr_id sr = None
       end.

Lemma leaves_grows h1 h2 h3 l : sched_inv h1 -> grows h1 h2 -> leaves h2 h3 l -> leaves h1 h3 l.
Proof. intros Hi Hg (Hi3 & Hr & Hl & Hr3). destruct (Hg Hi) as (_ & Hs & Hr2 & _). split_and!; auto. Qed.

(** A sweep that stops before it has acknowledged the next wake-up *)
Lemma stop_swept fuel b y l n rest (x : option (CatgaResult nat)) (r r1 : @Run S MemoryFlowScheduler W) :
  held (r_sched r) (y :: l) -> grows (r_sched r) (r_sched r1) ->
  (rest = y :: l /\ ((exists e, x = Some (Err e)) \/ (x = Some (Ok n) /\ b = true))
   \/ rest = l /\ x = Some (Ok n) /\ b = true) ->
  let '(x, r') := pbind (due_release_all sv rest) (fun _ r => (x, r)) r1 in
  swept fuel b (y :: l) n r x r'.
Proof.
  intros Hl Hg Hx. pose proof (held_grows _ _ _ Hg Hl) as Hl1.
  assert (held (r_sched r1) rest) as Hr1.
  { destruct Hx as [[-> _] | [-> _]]; [done |]. destruct Hl1 as (? & Hnd & Ha). apply NoDup_cons in Hnd as [_ ?].
    split_and!; [done | done |]. intros sr Hin. apply Ha. by right. }
  destruct (release_all_frees rest r1 Hr1) as (r2 & E & Hlv & Hf & _). unfold pbind. rewrite E.
  exists 0%nat. split_and!; [simpl; lia | exists r; constructor | by eapply leaves_grows; [apply Hl | |] |].
  destruct Hx as [[-> [[e ->] | [-> ->]]] | (-> & -> & ->)]; [split; [simpl; lia | done] | ..];
    (split_and!; [lia | done |]); intros sr Hin; apply Hf; [right |]; exact Hin.
Qed.

(** A resume that reports has renewed its lease and has resumed the flow. *)
Lemma resume_renewed fuel x b n (r r1 : @Run S MemoryFlowScheduler W) result :
  resume_with_renewal ev rt fuel sv x b (hs n) r = (Some (Ok (Some result)), r1) ->
  exists r0, renewals ev (h_renewals (hs n)) sv x r = (Some (Ok tt), r0)
    /\ resume_scheduled ev rt fuel (sr_flow x) (sr_state x) r0 = (Some result, r1).
Proof.
  unfold resume_with_renewal, pbind, ptry. destruct (renewals ev _ sv x r) as [[[[]|e]|] r0]; [| | done].
  - case_match; [by destruct (drop_resume _ _) as [[[?|?]|] ?] |].
    destruct (resume_scheduled _ _ _ _ _ r0) as [[y|] r2] eqn:E; [| done]. intros [= -> ->]. eauto.
  - by destruct (drop_resume _ _) as [[[?|?]|] ?].
Qed.

(** Only a cancellable resume is interrupted. *)
Lemma interrupted_cancellable fuel x b n (r : @Run S MemoryFlowScheduler W) :
  (resume_with_renewal ev rt fuel sv x b (hs n) r).1 = Some (Ok None) -> b = true.
Proof.
  unfold resume_with_renewal, pbind, ptry. destruct (renewals ev _ sv x r) as [[[?|e]|] r1]; [| | done].
  - destruct b; [done |]. simpl. by destruct (resume_scheduled _ _ _ _ _ _) as [[?|] ?].
  - by destruct (drop_resume _ _) as [[[?|?]|] ?].
Qed.

(** One more wake-up worked on in front of a sweep *)
Lemma swept_cons fuel b y l n (r r1 : @Run S MemoryFlowScheduler W) result h' x r2 :
  held (r_sched r) (y :: l) -> grows (r_sched r) (r_sched r1) ->
  resume_with_renewal ev rt fuel sv y b (hs n) r = (Some (Ok (Some result)), r1) ->
  match result with Ok _ => true | Err e => settles (code e) end = true ->
  ack_due (r_sched r1) (du_owner sv) (sr_id y) = (Ok true, h') -> leaves (r_sched r1) h' [y] ->
  swept fuel b l (n + 1) (mkRun (r_store r1) h' (r_world r1) (r_tick r1) (r_log r1)) x r2 ->
  swept fuel b (y :: l) n r x r2.
Proof.
  intros Hl Hk Er Hset Ea (_ & Hy & Hlv & Hrt) (k & Hkl & [rk Hw] & (Hi2 & Hg2 & Hlv2 & Hr2) & Hx).
  exists (Datatypes.S k). simpl in *. split_and!; [lia | | eapply leaves_grows; [apply Hl | exact Hk |] |].
  - destruct (resume_renewed _ _ _ _ _ _ _ Er) as (r0 & H1 & H2). exists rk. eapply worked_one; [done | done | | done |].
    + destruct result as [?|e]; [done |]. unfold settles in Hset. apply orb_true_iff in Hset.
      by rewrite !bool_decide_eq_true in Hset.
    + by rewrite Nat.add_1_r in Hw.
  - split_and!; [done | | | auto].
    + intros sr [->|Hin]%elem_of_cons; [| auto]. apply Hr2, Hy. by left.
    + intros id sr Hid Hne. simpl in *. apply not_elem_of_cons in Hne as [Hne1 Hne2].
      apply Hlv2; [| done]. apply Hlv; [done |]. set_solver.
  - destruct x as [[m|e]|]; [| naive_solver lia | done]. destruct Hx as (-> & Hx & ?). split_and!; [lia | naive_solver | done].
Qed.

Lemma due_loop_swept fuel b l : forall n (r : @Run S MemoryFlowScheduler W), held (r_sched r) l ->
  let '(x, r') := due_loop ev rt fuel sv b hs l n r in swept fuel b l n r x r'.
Proof.
  induction l as [|y l IH]; intros n r Hl.
  { exists 0%nat. simpl. split_and!; [done | exists r; constructor | split_and!; [apply Hl | set_solver | done | done] | lia | done | set_solver]. }
  cbn [due_loop]. destruct (b && h_cancelled (hs n)) eqn:Eb.
  { apply (stop_swept fuel b y l n _ (Some (Ok n)) r r); [done | done |]. left. split; [done |]. right. by destruct b. }
  unfold pbind at 1, ptry at 1. pose proof (keeps_resume_with_renewal fuel y b n r) as Hk.
  pose proof (interrupted_cancellable fuel y b n r) as Hnone.
  destruct (resume_with_renewal ev rt fuel sv y b (hs n) r) as [[[[result|]|e]|] r1] eqn:Er; simpl in Hk, Hnone.
  - destruct (ack_held _ _ _ (held_grows _ _ _ Hk Hl)) as (h' & Ea & Hh' & Hlv).
    destruct (match result with Ok _ => true | Err e => settles (code e) end) eqn:Eset.
    + unfold pbind at 1, ptry at 1, on_sched at 1. cbn [dfs_ack_due memory_due_scheduler]. rewrite Ea.
      specialize (IH (n + 1)%nat (mkRun (r_store r1) h' (r_world r1) (r_tick r1) (r_log r1)) Hh').
      destruct (due_loop _ _ _ _ _ _ _ _) as [x r2]. by eapply swept_cons.
    + destruct result as [?|e]; [done |]. apply (stop_swept fuel b y l n _ (Some (Err e)) r r1); [done | done |]. left. eauto.
  - apply (stop_swept fuel b y l n _ (Some (Ok n)) r r1); [done | done |]. right. eauto.
  - apply (stop_swept fuel b y l n _ (Some (Err e)) r r1); [done | done |]. left. eauto.
  - exists 0%nat. destruct (Hk (proj1 Hl)) as (? & ? & ? & _).
    split_and!; [lia | exists r; constructor | split_and!; [done | set_solver | auto | auto] | done].
Qed.

Lemma claim_held h t l h' :
  sched_inv h -> 0 < du_lease_for (du_options sv) ->
  claim_due h (du_owner sv) t (du_lease_for (du_options sv)) (du_batch_size (du_options sv)) = (Ok l, h') ->
  held h' l /\ (length l <= du_batch_size (du_options sv))%nat /\ Forall (fun sr => sr_due sr <= t) l
  /\ sch_schedules h' = sch_schedules h.
Proof.
  intros Hi Hlease E. pose proof (claim_due_inv h (du_owner sv) t (du_lease_for (du_options sv)) (du_batch_size (du_options sv)) Hi) as Hi'.
  rewrite E in Hi'. unfold claim_due in E. destruct (Z.eqb_spec (du_lease_for (du_options sv)) 0); [lia |].
  unfold lease_deadline, time_checked_add in E. destruct (system_time_ok _); simpl in E; [| done].
  apply claim_loop_sound in E as (new & -> & Hlen & Hnd & Hin & Hc & Hs & _); [| done | lia]. simpl.
  split_and!; [| done | | done].
  - split_and!; [done | done |]. intros sr Hsr. rewrite Hs, Hc, decide_True by by apply list_elem_of_fmap_2.
    split; [by apply Hin | done].
  - apply Forall_forall. intros sr Hsr. by apply Hin.
Qed.

Lemma claim_fails_quietly h t e h' :
  sched_inv h -> claim_due h (du_owner sv) t (du_lease_for (du_options sv)) (du_batch_size (du_options sv)) = (Err e, h') ->
  sched_inv h' /\ sch_schedules h' = sch_schedules h.
Proof.
  intros Hi E.
  pose proof (claim_due_inv h (du_owner sv) t (du_lease_for (du_options sv)) (du_batch_size (du_options sv)) Hi) as Hi'.
  rewrite E in Hi'. split; [exact Hi' |]. revert E. unfold claim_due. case_match; [by intros [= _ <-] |].
  destruct (lease_deadline _ _) as [expires|]; [| by intros [= _ <-]]. intros E.
  pose proof (claim_loop_schedules (du_batch_size (du_options sv)) h (du_owner sv) t expires []) as Hs.
  by rewrite E in Hs.
Qed.

Lemma claim_swept fuel t b (r1 : @Run S MemoryFlowScheduler W) x r' :
  let batch := du_batch_size (du_options sv) in
  sched_inv (r_sched r1) -> 0 < du_lease_for (du_options sv) ->
  pbind (on_sched (fun sch => dfs_claim_due sch (du_owner sv) t (du_lease_for (du_options sv)) batch))
    (fun l => due_loop ev rt fuel sv b hs l 0) r1 = (x, r') ->
  sched_inv (r_sched r')
  /\ match claim_due (r_sched r1) (du_owner sv) t (du_lease_for (du_options sv)) batch with
     | (Err e, h) => x = Some (Err e) /\ r_sched r' = h /\ sch_schedules h = sch_schedules (r_sched r1)
     | (Ok claimed, h) =>
       (length claimed <= batch)%nat /\ NoDup (sr_id <$> claimed)
       /\ Forall (fun sr => sr_due sr <= t /\ sch_schedules (r_sched r1) !! sr_id sr = Some sr) claimed
       /\ sch_schedules h = sch_schedules (r_sched r1)
       /\ swept fuel b claimed 0 (mkRun (r_store r1) h (r_world r1) (r_tick r1) (r_log r1)) x r'
     end.
Proof.
  intros batch Hi Hlease. unfold pbind, on_sched. cbn [dfs_claim_due memory_due_scheduler].
  destruct (claim_due (r_sched r1) _ _ _ _) as [[l|e] h] eqn:E.
  - destruct (claim_held _ _ _ _ Hi Hlease E) as (Hl & Hlen & Hdue & Hs). intros Ex.
    pose proof (due_loop_swept fuel b l 0 (mkRun (r_store r1) h (r_world r1) (r_tick r1) (r_log r1)) Hl) as H.
    rewrite Ex in H. split; [by destruct H as (k & _ & _ & (? & _) & _) |].
    split_and!; [done | apply Hl | | done | done]. rewrite Forall_forall in Hdue |- *. intros sr Hsr.
    split; [by apply Hdue |]. rewrite <- Hs. by apply Hl.
  - destruct (claim_fails_quietly _ _ _ _ Hi E). intros [= <- <-]. done.
Qed.

End sweep.

(** A sweep that finds no wake-up at all *)
Lemma idle_sweep {S W} `{!SuspendedStoreLaws S} (ev : @Env S W) (rt : @FlowRuntime W) fuel sv t hs
    (r r1 : @Run S MemoryFlowScheduler W) n :
  let batch := du_batch_size (du_options sv) in
  ptry (reconcile_delayed_suspensions ev rt batch batch) r = (Some (Ok (Ok n)), r1) ->
  sch_due (r_sched r1) = [] -> 0 < du_lease_for (du_options sv) ->
  system_time_ok (t + du_lease_for (du_options sv)) = true ->
  due_check_at ev rt fuel sv t hs r = (Some (Ok 0%nat), r1).
Proof.
  intros batch E Hd Hl Ht. unfold due_check_at, due_check_at_until. unfold pbind at 1. fold batch. rewrite E.
  unfold pbind, on_sched. cbn [dfs_claim_due memory_due_scheduler].
  unfold claim_due, lease_deadline, time_checked_add. rewrite Ht, (proj2 (Z.eqb_neq _ _)) by lia. simpl.
  destruct r1. simpl in *. destruct batch; simpl; by rewrite ?Hd.
Qed.

(** ** Two runs of the workers *)

Definition undisturbed : nat -> @Handling MemoryFlowScheduler Log :=
  fun _ => mkHandling false 0 false (fun h w => (h, w)).

(** A flow that waits ten seconds, checks, and waits again: its delayed step always leaves it
    suspended before the same next step. *)
Definition poller : @FlowRuntime Log :=
  FlowRuntime_new (built "poller" [
    mkStep "poll" None (fun _ w => (Ok (SuspendUntil (from_secs (10 * (1 + lenZ w)))), w ++ ["poll"%string])) None;
    mkStep "check" None (fun _ w => (Ok (Goto "poll"), w ++ ["check"%string])) None ]) "node".

Definition poller_started := (start (calm (from_secs 1) 0) poller 10 "f" [] fresh_run).2.

Definition poller_swept :=
  (due_check_at (calm (from_secs 15) 0) poller 10 (FlowDueService_new "worker") (from_secs 15) undisturbed
     poller_started).2.

(** A flow that the due worker resumes and that suspends again before the same step is not
    resumed any more.  While its wake-up is claimed, registering the next one returns the
    claimed wake-up; the worker then acknowledges that one, so the flow is suspended until a
    time, with a schedule identity, and no wake-up is registered.  Reconciliation passes over
    it because it has a schedule identity, and no later sweep of the worker resumes it. *)
Theorem due_wakeup_lost t clock :
  system_time_ok (t + from_secs 30) = true ->
  (exists c, continuations (r_store poller_swept) !! "f"%string = Some c
     /\ f_status (k_state c) = Suspended /\ k_resume_at c = Some (from_secs 30)
     /\ k_schedule c = Some "flow-resume-0"%string)
  /\ sch_schedules (r_sched poller_swept) = ∅
  /\ exists r', due_check_at (calm clock 0) poller 10 (FlowDueService_new "worker") t undisturbed poller_swept
       = (Some (Ok 0%nat), r')
     /\ continuations (r_store r') = continuations (r_store poller_swept)
     /\ sch_schedules (r_sched r') = ∅ /\ r_world r' = r_world poller_swept.
Proof.
  intros Ht. split; [| split; [vm_compute; reflexivity |]].
  { eexists. split; [vm_compute; reflexivity |]. by split_and!. }
  assert (exists r', ptry (reconcile_delayed_suspensions (calm clock 0) poller 64 64) poller_swept
    = (Some (Ok (Ok 0%nat)), r') /\ continuations (r_store r') = continuations (r_store poller_swept)
    /\ sch_due (r_sched r') = [] /\ sch_schedules (r_sched r') = ∅ /\ r_world r' = r_world poller_swept) as (r1 & E & H1 & H2 & H3 & H4).
  { eexists. split; [vm_compute; reflexivity |]. vm_compute. by split_and!. }
  exists r1. split; [| split; [exact H1 | split; [exact H3 | exact H4]]].
  exact (idle_sweep _ _ _ (FlowDueService_new "worker") t _ _ _ _ E H2 eq_refl Ht).
Qed.

Lemma due_wakeup_lost_witness :
  exists r', due_check_at (calm (from_secs 31) 0) poller 10 (FlowDueService_new "worker") (from_secs 31) undisturbed
    poller_swept = (Some (Ok 0%nat), r').
Proof.
  destruct (due_wakeup_lost (from_secs 31) (from_secs 31)) as (_ & _ & r' & H & _); [by vm_compute |].
  by exists r'.
Defined.

(** A booking that reserves, and waits five seconds for a confirmation *)
Definition booking : @FlowRuntime Log :=
  FlowRuntime_new (built "booking" [
    mkStep "reserve" None (fun _ w => (Ok Advance, w ++ ["reserve"%string]))
      (Some (fun _ w => (Ok tt, w ++ ["release"%string])));
    mkStep "confirm" None (fun _ w => (Ok (Wait (WaitCondition_new "c" WaitAll 1 (from_secs 1) (from_secs 5))), w)) None;
    mkStep "finish" None (fun _ w => (Ok StepComplete, w)) None ]) "node".

Definition booking_started := (start (calm (from_secs 1) 0) booking 10 "f" [] fresh_run).2.

Definition booking_expired (beats : nat) :=
  timeout_check_at (calm (from_secs 10) beats) booking 10 FlowTimeoutOptions_default (from_secs 10) undisturbed
    booking_started.

(** A flow whose wait expires is rolled back without an owner.  When its rollback actions are
    quicker than the heartbeat interval it ends as failed.  When a heartbeat falls due first,
    the runtime's own heartbeat is refused, because it has not claimed the flow: the action is
    dropped, the conflict counts as settled, the receipt is acknowledged, and the flow stays
    in its rollback, owned by nobody and in no index. *)
Theorem timed_out_rollback_unowned :
  (exists c, (booking_expired 0).1 = Some (Ok 1%nat)
     /\ continuations (r_store (booking_expired 0).2) !! "f"%string = Some c
     /\ f_status (k_state c) = Failed /\ k_compensations c = []
     /\ r_world (booking_expired 0).2 = ["reserve"; "release"]%string)
  /\ exists c, (booking_expired 1).1 = Some (Ok 0%nat)
     /\ continuations (r_store (booking_expired 1).2) !! "f"%string = Some c
     /\ f_status (k_state c) = Compensating /\ f_owner (k_state c) = None
     /\ k_compensations c = ["reserve"%string]
     /\ r_world (booking_expired 1).2 = ["reserve"; "dropped"]%string
     /\ d_available (due (r_store (booking_expired 1).2)) = ∅
     /\ d_claimed (due (r_store (booking_expired 1).2)) = ∅.
Proof. vm_compute. split; eexists; split_and!; reflexivity. Qed.

(** ** Witnesses *)

Lemma calm_polite t beats : polite (S := MemorySuspendedFlows) (calm t beats).
Proof. intros n s Hs. split; [done |]. by apply unwritten_evolves. Qed.

Lemma fresh_good : good (r_store fresh_run).
Proof. split; intros id c Hc; by apply (lookup_empty_Some (M := gmap string) id c) in Hc. Qed.

Lemma started_good : good (r_store booking_started).
Proof.
  pose proof (t_run_op (Sch := MemoryFlowScheduler) (calm (from_secs 1) 0) booking (calm_polite _ _) 10
    (RStart "f" []) fresh_run) as H.
  unfold booking_started. simpl in H. unfold pbind in H. destruct (start _ _ _ _ _ _) as [[[st|e]|] r];
    (apply H; [split; [apply fresh_good | constructor] | exact I]).
Qed.

(** Another call, on the store the first one left *)
Definition booking_next := mkRun (r_store booking_started) (r_sched booking_started) (@nil string) 0 [].

Lemma runtime_safe_witness :
  exists x r', run_op (calm (from_secs 10) 0) booking 10 (RResumeAt "f" (from_secs 10))
      booking_next = (x, r')
    /\ good (r_store r') /\ evolves (r_store booking_next) (r_store r').
Proof.
  destruct (run_op (calm (from_secs 10) 0) booking 10 (RResumeAt "f" (from_secs 10))
    booking_next) as [x r'] eqn:E.
  exists x, r'. split; [done |].
  destruct (runtime_safe (calm (from_secs 10) 0) booking (calm_polite _ _) 10 _ booking_next x r' started_good eq_refl E)
    as (_ & Hg & He & _). split; [exact Hg | exact He].
Defined.

Definition booking_sweep :=
  timeout_check_at (calm (from_secs 10) 0) booking 10 FlowTimeoutOptions_default (from_secs 10) undisturbed booking_next.

Lemma timeout_sweep_safe_witness :
  exists l, length l = 1%nat /\ Forall (fun st => f_status st = Failed
    /\ exists c, continuations (r_store booking_sweep.2) !! f_id st = Some c /\ k_state c = st) l.
Proof.
  assert (booking_sweep = (Some (Ok 1%nat), booking_sweep.2)) as E by (vm_compute; reflexivity).
  destruct (timeout_sweep_safe (calm (from_secs 10) 0) booking (calm_polite _ _) _ _ _ _ _ booking_next 1 _ started_good eq_refl E)
    as (_ & _ & _ & l & Hl & Hf). exists l. split; [exact Hl | exact Hf].
Defined.

(** Two booked reminders are due.  The flow of the second has been deleted, so there is
    nothing to resume for it; the flow of the first waits, and is checked once more. *)
Definition two_due := mkRun (r_store poller_started)
  (schrun [OSchedule "f" "check" (from_secs 10); OSchedule "gone" "check" (from_secs 12); OSchedule "g" "check" (from_secs 90)])
  (r_world poller_started) (r_tick poller_started) (r_log poller_started).

Definition two_swept :=
  due_check_at (calm (from_secs 15) 0) poller 10 (FlowDueService_new "worker") (from_secs 15) undisturbed two_due.

