(* ===== verification/Outbox.v ===== *)
(** * The outbox ([store.rs], [memory/outbox.rs])

    [OutboxMessage] is the life of one message: pending, claimed by a worker
    under a token and a deadline, then published, released or failed.
    [MemoryOutbox] is the store that hands messages to workers. *)

From stdpp Require Import pretty.
From S2P Require Import Prelude Utf8 Errors Time Messages Reliability Capacity Retention Heap.

(** ** Messages *)

Inductive OutboxState := Pending | Claimed | Failed | Published.

#[global] Instance OutboxState_eq_dec : EqDecision OutboxState.
Proof. solve_decision. Defined.

Definition DEFAULT_OUTBOX_MAX_RETRIES : Z := 3.
Definition MAX_OUTBOX_FAILURE_ERROR_BYTES : nat := 1024.
Definition MAX_OUTBOX_CLAIM_LIMIT : nat := 1024.
Definition DEFAULT_OUTBOX_CLAIM_LEASE : Duration := from_secs (5 * 60).
Definition MAX_OUTBOX_CLAIM_LEASE : Duration := from_secs (60 * 60).

Definition validate_outbox_message_id (id : Z) : CatgaResult unit :=
  if id =? 0 then fail Validation "outbox message identifier must be greater than zero"
  else Ok tt.

Definition validate_outbox_claim_limit (limit : nat) : CatgaResult unit :=
  if (MAX_OUTBOX_CLAIM_LIMIT <? limit)%nat
  then fail Validation "outbox claim limit exceeds the configured memory budget"
  else Ok tt.

Definition validate_outbox_claim_lease (lease : Duration) : CatgaResult unit :=
  if (as_millis lease =? 0) || (MAX_OUTBOX_CLAIM_LEASE <? lease)
  then fail Validation
    "outbox claim lease must be at least one millisecond and no longer than the configured maximum"
  else Ok tt.

Definition outbox_claim_expires_at (lease : Duration) (clock : SystemTime) : CatgaResult Z :=
  let? _ := validate_outbox_claim_lease lease in
  let? now := clock_unix_ms clock in
  let? lease := ok_or (checked u64 (as_millis lease)) (CatgaError_new Validation
    "outbox claim lease exceeds the supported millisecond range") in
  ok_or (checked u64 (now + lease)) (CatgaError_new Validation
    "outbox claim deadline exceeds the supported millisecond range").

Record OutboxMessage := mkOutbox {
  o_envelope : Envelope;
  o_state : OutboxState;
  o_owner : option string;
  o_retry_count : Z;
  o_max_retries : Z;
  o_last_error : option string;
  o_published_at : option Z;
  o_claimed_until : option Z;
  o_claim_token : option string
}.

#[global] Instance OutboxMessage_eq_dec : EqDecision OutboxMessage.
Proof. solve_decision. Defined.

Definition OutboxMessage_new (e : Envelope) : OutboxMessage :=
  mkOutbox e Pending None 0 DEFAULT_OUTBOX_MAX_RETRIES None None None None.

Definition outbox_scheduled (e : Envelope) (not_before : SystemTime) : CatgaResult OutboxMessage :=
  let? md := with_not_before (metadata e) not_before in
  Ok (OutboxMessage_new (with_metadata e md)).

Definition outbox_id (m : OutboxMessage) : Z := env_id (o_envelope m).

Definition with_max_retries (m : OutboxMessage) (n : Z) : CatgaResult OutboxMessage :=
  if n =? 0 then fail Validation "outbox maximum retries must be greater than zero"
  else Ok (mkOutbox (o_envelope m) (o_state m) (o_owner m) (o_retry_count m) n (o_last_error m)
             (o_published_at m) (o_claimed_until m) (o_claim_token m)).

Definition bounded_failure_reason : string -> string := truncate_to MAX_OUTBOX_FAILURE_ERROR_BYTES.

Definition with_retry_history (m : OutboxMessage) (n : Z) (last_error : option string)
    : OutboxMessage :=
  mkOutbox (o_envelope m) (o_state m) (o_owner m) n (o_max_retries m)
    (bounded_failure_reason <$> last_error) (o_published_at m) (o_claimed_until m)
    (o_claim_token m).

Definition outbox_is_due_at (m : OutboxMessage) (now : SystemTime) : bool :=
  metadata_is_due_at (metadata (o_envelope m)) now.

Definition is_claimable_at (m : OutboxMessage) (now_unix_ms : Z) : bool :=
  match o_state m with
  | Pending => true
  | Claimed => match o_claimed_until m with
               | None => true
               | Some deadline => deadline <=? now_unix_ms
               end
  | _ => false
  end.

Definition outbox_claim (m : OutboxMessage) (owner : string) : OutboxMessage :=
  match o_state m with
  | Failed | Published => m
  | _ => mkOutbox (o_envelope m) Claimed (Some owner) (o_retry_count m) (o_max_retries m)
           (o_last_error m) (o_published_at m) None None
  end.

Definition claim_until_with_token (m : OutboxMessage) (owner token : string) (expires : Z)
    : OutboxMessage :=
  let m := outbox_claim m owner in
  match o_state m with
  | Claimed => mkOutbox (o_envelope m) Claimed (o_owner m) (o_retry_count m) (o_max_retries m)
                 (o_last_error m) (o_published_at m) (Some expires) (Some token)
  | _ => m
  end.

Definition mark_published (m : OutboxMessage) (at_ : Z) : OutboxMessage :=
  match o_state m with
  | Claimed => mkOutbox (o_envelope m) Published None (o_retry_count m) (o_max_retries m)
                 (o_last_error m) (Some at_) None None
  | _ => m
  end.

Definition outbox_release (m : OutboxMessage) : OutboxMessage :=
  match o_state m with
  | Claimed => mkOutbox (o_envelope m) Pending None (o_retry_count m) (o_max_retries m)
                 (o_last_error m) (o_published_at m) None None
  | _ => m
  end.

Definition outbox_record_failure (m : OutboxMessage) (reason : string) : OutboxMessage :=
  let retry_count := saturating u32 (o_retry_count m + 1) in
  mkOutbox (o_envelope m) (if o_max_retries m <=? retry_count then Failed else Pending) None
    retry_count (o_max_retries m) (Some (bounded_failure_reason reason)) (o_published_at m)
    None None.

(** ** The oldest-first selection: the heap orders [(sent_at, id)] pairs. *)

Definition order : Type := Z * Z.

Definition order_le (a b : order) : bool :=
  (fst a <? fst b) || ((fst a =? fst b) && (snd a <=? snd b)).

Definition ole (a b : order) : Prop := order_le a b = true.

Lemma ole_spec a b : ole a b <-> fst a < fst b \/ (fst a = fst b /\ snd a <= snd b).
Proof.
  unfold ole, order_le. rewrite orb_true_iff, andb_true_iff, Z.ltb_lt, Z.eqb_eq, Z.leb_le. done.
Qed.

#[global] Instance ole_dec : RelDecision ole.
Proof. intros a b. unfold ole. apply _. Defined.
#[global] Instance ole_refl : Reflexive ole.
Proof. intros a. apply ole_spec. lia. Qed.
#[global] Instance ole_trans : Transitive ole.
Proof. intros a b c. rewrite !ole_spec. lia. Qed.
#[global] Instance ole_antisymm : AntiSymm (=) ole.
Proof. intros [a1 a2] [b1 b2]. rewrite !ole_spec. simpl. intros. f_equal; lia. Qed.
#[global] Instance ole_total : Total ole.
Proof. intros [a1 a2] [b1 b2]. unfold strict. rewrite !ole_spec. simpl. lia. Qed.

Abbreviation oldest := (smallest ole).

Definition message_order (m : OutboxMessage) : order :=
  (default 0 (sent_at_unix_ms (o_envelope m)), outbox_id m).

(** ** The store *)

Record StoredMessage := mkStored { s_identity : Z; s_message : OutboxMessage }.

Definition is_published (s : StoredMessage) : bool :=
  match o_state (s_message s) with Published => true | _ => false end.

Section outbox.
Context `{!MapIter Z}.

Record MemoryOutbox := mkMemoryOutbox {
  ob_table : Table Z StoredMessage;
  claim_sequence : Z;
  published_retention : Duration
}.

Abbreviation messages o := (records (ob_table o)).
Abbreviation published o := (index (ob_table o)).

Definition set_table (o : MemoryOutbox) (t : Table Z StoredMessage) : MemoryOutbox :=
  mkMemoryOutbox t (claim_sequence o) (published_retention o).

Definition set_messages (o : MemoryOutbox) (m : gmap Z StoredMessage) : MemoryOutbox :=
  set_table o (set_records (ob_table o) m).

Definition outbox_default : MemoryOutbox :=
  mkMemoryOutbox (table_new (capacity_fixed DEFAULT_MEMORY_RECORD_CAPACITY)) 0
    DEFAULT_IDEMPOTENCY_RETENTION.

Definition with_published_retention_and_capacity (retention : Duration) (capacity : Z)
    : CatgaResult MemoryOutbox :=
  let? _ := validate_completed_retention retention in
  let? c := capacity_new capacity in
  Ok (mkMemoryOutbox (table_new c) 0 retention).

(** [fetch_add] wraps. *)
Definition next_claim_token (o : MemoryOutbox) : string * MemoryOutbox :=
  ("memory-" +:+ pretty (claim_sequence o),
   mkMemoryOutbox (ob_table o) (wrapping u64 (claim_sequence o + 1)) (published_retention o)).

Definition outbox_retention_error : string :=
  "outbox retention exceeds the supported millisecond range".

Definition cleanup_published (o : MemoryOutbox) (retention : Duration) (limit : nat)
    (clock : SystemTime) : CatgaResult nat * MemoryOutbox :=
  let '(r, t) := cleanup s_identity is_published (ob_table o) retention limit
                   (clock_unix_ms clock) outbox_retention_error in
  (r, set_table o t).

Definition enqueue (o : MemoryOutbox) (message : OutboxMessage) (clock : SystemTime)
    : CatgaResult unit * MemoryOutbox :=
  let id := outbox_id message in
  match validate_outbox_message_id id with
  | Err e => (Err e, o)
  | Ok _ =>
    match admit_record s_identity is_published (ob_table o) (published_retention o)
            (clock_unix_ms clock) outbox_retention_error
            "memory outbox record capacity is exhausted" with
    | (Err e, t) => (Err e, set_table o t)
    | (Ok _, t) =>
      match records t !! id with
      | None =>
        let '(r, t) := insert_reserved t id (fun identity => mkStored identity message) in
        (r, set_table o t)
      | Some _ =>
        (fail Conflict "an outbox message with this identifier already exists",
         set_table o (set_capacity t (release (capacity t))))
      end
    end
  end.

(** The scan of [claim_for]: the orders of the claimable, due messages. *)
Definition eligible (o : MemoryOutbox) (now_unix_ms : Z) (now : SystemTime) : list order :=
  omap (fun '(_, s) =>
    if is_claimable_at (s_message s) now_unix_ms && outbox_is_due_at (s_message s) now
    then Some (message_order (s_message s)) else None) (iter (messages o)).

(** The second loop: claim each selected message that is still claimable. *)
Fixpoint claim_loop (o : MemoryOutbox) (owner : string) (expires now_unix_ms : Z)
    (now : SystemTime) (ids : list order) (claimed : list OutboxMessage)
    : list OutboxMessage * MemoryOutbox :=
  match ids with
  | [] => (claimed, o)
  | (_, id) :: ids =>
    match messages o !! id with
    | None => claim_loop o owner expires now_unix_ms now ids claimed
    | Some s =>
      if is_claimable_at (s_message s) now_unix_ms && outbox_is_due_at (s_message s) now
      then
        let '(token, o) := next_claim_token o in
        let m := claim_until_with_token (s_message s) owner token expires in
        let o := set_messages o (<[id := mkStored (s_identity s) m]> (messages o)) in
        claim_loop o owner expires now_unix_ms now ids (claimed ++ [m])
      else claim_loop o owner expires now_unix_ms now ids claimed
    end
  end.

(** [clock1], [clock2], [clock3]: the readings in [outbox_claim_expires_at], of
    [now], and in [current_unix_ms]. *)
Definition claim_for (o : MemoryOutbox) (owner : string) (limit : nat) (lease : Duration)
    (clock1 clock2 clock3 : SystemTime) : CatgaResult (list OutboxMessage) * MemoryOutbox :=
  match
    (let? _ := validate_outbox_claim_limit limit in
     outbox_claim_expires_at lease clock1)
  with
  | Err e => (Err e, o)
  | Ok expires_at =>
    if (limit =? 0)%nat then (Ok [], o)
    else
      match clock_unix_ms clock3 with
      | Err e => (Err e, o)
      | Ok now_unix_ms =>
        let candidates := foldl (select_one ole limit) [] (eligible o now_unix_ms clock2) in
        let '(claimed, o) := claim_loop o owner expires_at now_unix_ms clock2 candidates [] in
        (Ok claimed, o)
      end
  end.

Definition claim (o : MemoryOutbox) owner limit clock1 clock2 clock3 :=
  claim_for o owner limit DEFAULT_OUTBOX_CLAIM_LEASE clock1 clock2 clock3.

(** [message.owner() == Some(owner) && message.claim_token() == Some(claim_token)] *)
Definition owns (m : OutboxMessage) (owner token : string) : bool :=
  bool_decide (o_owner m = Some owner) && bool_decide (o_claim_token m = Some token).

Definition ack (o : MemoryOutbox) (owner : string) (id : Z) (token : string)
    (clock : SystemTime) : CatgaResult unit * MemoryOutbox :=
  match clock_unix_ms clock with
  | Err e => (Err e, o)
  | Ok published_at =>
    match messages o !! id with
    | Some s =>
      if owns (s_message s) owner token
      then (Ok tt, set_table o (set_index
              (set_records (ob_table o)
                (<[id := mkStored (s_identity s) (mark_published (s_message s) published_at)]>
                  (messages o)))
              (<[id := mkStamp published_at (s_identity s)]> (published o))))
      else (Ok tt, o)
    | None => (Ok tt, o)
    end
  end.

(** [release] and [record_failure] change the owned message in place. *)
Definition update_owned (o : MemoryOutbox) (owner : string) (id : Z) (token : string)
    (f : OutboxMessage -> OutboxMessage) : CatgaResult unit * MemoryOutbox :=
  match messages o !! id with
  | Some s =>
    if owns (s_message s) owner token
    then (Ok tt, set_messages o
            (<[id := mkStored (s_identity s) (f (s_message s))]> (messages o)))
    else (Ok tt, o)
  | None => (Ok tt, o)
  end.

Definition store_release (o : MemoryOutbox) owner id token :=
  update_owned o owner id token outbox_release.
Definition store_record_failure (o : MemoryOutbox) owner id token (reason : string) :=
  update_owned o owner id token (fun m => outbox_record_failure m reason).

Definition cancel (o : MemoryOutbox) (id : Z) : CatgaResult bool * MemoryOutbox :=
  match messages o !! id with
  | None => (Ok false, o)
  | Some s =>
    match o_state (s_message s) with
    | Pending =>
      (Ok true, set_table o (set_capacity (set_records (ob_table o) (delete id (messages o)))
                  (release (capacity (ob_table o)))))
    | _ => (Ok false, o)
    end
  end.

(** [sort_unstable_by_key(published_at_unix_ms)] with [None] before [Some]; any
    permutation with ascending keys is a possible result, this is the stable one. *)
Definition published_key (m : OutboxMessage) : Z :=
  match o_published_at m with None => -1 | Some t => t end.

Fixpoint insert_by_key (m : OutboxMessage) (l : list OutboxMessage) : list OutboxMessage :=
  match l with
  | [] => [m]
  | x :: l => if published_key m <=? published_key x then m :: x :: l
              else x :: insert_by_key m l
  end.

Definition list_published (o : MemoryOutbox) (limit : nat) : CatgaResult (list OutboxMessage) :=
  let? _ := validate_outbox_claim_limit limit in
  Ok (foldr insert_by_key []
        (omap (fun '(id, _) => s_message <$> messages o !! id) (take limit (iter (published o))))).
End outbox.

(** ** Invariant of the store *)

(** A message's ownership fields agree with its state. *)
Definition msg_wf (m : OutboxMessage) : Prop :=
  match o_state m with
  | Claimed => (exists ow, o_owner m = Some ow) /\ (exists tok, o_claim_token m = Some tok)
      /\ (exists d, o_claimed_until m = Some d) /\ o_published_at m = None
  | Published => o_owner m = None /\ o_claim_token m = None /\ o_claimed_until m = None
      /\ (exists t, o_published_at m = Some t)
  | _ => o_owner m = None /\ o_claim_token m = None /\ o_claimed_until m = None
      /\ o_published_at m = None
  end.

(** The token of the [k]-th claim of a store. *)
Definition token_of (k : Z) : string := "memory-" +:+ pretty k.

#[global] Instance token_of_inj : Inj (=) (=) token_of.
Proof. intros a b Heq. by apply (inj (String.append "memory-")), (inj pretty) in Heq. Qed.

Section invariant.
Context `{!MapIter Z}.
Implicit Types o : MemoryOutbox.

Abbreviation messages o := (records (ob_table o)).
Abbreviation published o := (index (ob_table o)).

Record outbox_inv o : Prop := {
  oi_table : table_inv s_identity 0 (ob_table o);
  oi_coherent : coherent s_identity is_published (ob_table o);
  oi_indexed : forall id s, messages o !! id = Some s -> is_published s = true ->
    is_Some (published o !! id);
  oi_key : forall id s, messages o !! id = Some s -> outbox_id (s_message s) = id /\ id <> 0;
  oi_msg : forall id s, messages o !! id = Some s -> msg_wf (s_message s);
  oi_seq : 0 <= claim_sequence o;
  oi_token : forall id s tok, messages o !! id = Some s -> o_claim_token (s_message s) = Some tok ->
    exists k, tok = token_of k /\ 0 <= k < claim_sequence o;
  oi_token_unique : forall id id' s s' tok,
    messages o !! id = Some s -> messages o !! id' = Some s' ->
    o_claim_token (s_message s) = Some tok -> o_claim_token (s_message s') = Some tok -> id = id'
}.

Lemma outbox_new_inv retention cap o :
  0 <= cap -> with_published_retention_and_capacity retention cap = Ok o -> outbox_inv o.
Proof.
  intros Hcap. unfold with_published_retention_and_capacity. intros E. inv_ok E. inv_ok Hk.
  unfold capacity_new in Hr0. destruct (cap =? 0); simplify_eq/=.
  split; simpl; try done; try (intros *; by rewrite lookup_empty).
Qed.

(** Keys leave both maps together: everything else is kept. *)
Lemma outbox_inv_synced o t :
  outbox_inv o -> table_inv s_identity 0 t -> synced (ob_table o) t ->
  outbox_inv (set_table o t).
Proof.
  intros [I1 I2 I3 I4 I5 I6 I7 I8] Ht Hs.
  assert (forall k s, records t !! k = Some s -> messages o !! k = Some s) as Hrec.
  { intros k s Hk. destruct (Hs k) as [[E _]|[E _]]; congruence. }
  split; simpl; eauto using synced_coherent.
  intros id s Hid Hp. destruct (Hs id) as [[E1 E2]|[E1 E2]]; [| congruence].
  rewrite E2. rewrite E1 in Hid. eauto.
Qed.

(** Replacing a message that is not published by another that is not, in place. *)
Lemma table_inv_update (t : Table Z StoredMessage) id s s' :
  table_inv s_identity 0 t -> records t !! id = Some s -> s_identity s' = s_identity s ->
  table_inv s_identity 0 (set_records t (<[id := s']> (records t))).
Proof.
  intros [Hu Hl Hq Hi Hun Hx] Hid Heq. split; simpl; eauto.
  - rewrite map_size_insert_Some; [done |]. by rewrite Hid.
  - intros k r. rewrite lookup_insert_Some. intros [[<- <-]|[_ Hr]]; [| eauto].
    rewrite Heq. eauto.
  - intros k k' r r'. rewrite !lookup_insert_Some.
    intros [[<- <-]|[Hne1 H1]] [[<- <-]|[Hne2 H2]] Hrr; rewrite ?Heq in *; eauto.
    all: symmetry; eauto.
Qed.

Lemma coherent_update (t : Table Z StoredMessage) id s s' :
  coherent s_identity is_published t -> records t !! id = Some s -> is_published s = false ->
  coherent s_identity is_published (set_records t (<[id := s']> (records t))).
Proof.
  intros Hc Hid Hp k st Hk. destruct (Hc k st Hk) as (r & Hr & ? & ?). exists r.
  simpl. rewrite lookup_insert_ne; [done |]. intros <-. congruence.
Qed.

Lemma outbox_inv_update o id s m n :
  outbox_inv o -> messages o !! id = Some s -> is_published s = false ->
  o_state m <> Published -> msg_wf m -> outbox_id m = outbox_id (s_message s) ->
  claim_sequence o <= n ->
  (forall tok, o_claim_token m = Some tok ->
     exists k, tok = token_of k /\ claim_sequence o <= k < n) ->
  outbox_inv (mkMemoryOutbox
    (set_records (ob_table o) (<[id := mkStored (s_identity s) m]> (messages o))) n
    (published_retention o)).
Proof.
  intros [I1 I2 I3 I4 I5 I6 I7 I8] Hid Hp Hm Hwf Hoid Hn Htok.
  destruct (I4 _ _ Hid) as [Hkey Hnz].
  split; simpl.
  - by eapply table_inv_update.
  - by eapply coherent_update.
  - intros k x. rewrite lookup_insert_Some. intros [[<- <-]|[_ Hx]]; [| eauto].
    unfold is_published. simpl. by destruct (o_state m).
  - intros k x. rewrite lookup_insert_Some. intros [[<- <-]|[_ Hx]]; [| eauto].
    simpl. rewrite Hoid. done.
  - intros k x. rewrite lookup_insert_Some. intros [[<- <-]|[_ Hx]]; eauto.
  - lia.
  - intros k x tok. rewrite lookup_insert_Some. intros [[<- <-]|[_ Hx]] Ht.
    + destruct (Htok _ Ht) as (j & -> & ?). exists j. split; [done | lia].
    + destruct (I7 _ _ _ Hx Ht) as (j & -> & ?). exists j. split; [done | lia].
  - intros k k' x x' tok. rewrite !lookup_insert_Some.
    intros [[<- <-]|[_ Hx]] [[<- <-]|[_ Hx']] Ht Ht'; try done; [| | by eapply I8].
    + destruct (Htok _ Ht) as (j & -> & ?). destruct (I7 _ _ _ Hx' Ht') as (j' & Ej & ?).
      apply (inj token_of) in Ej. lia.
    + destruct (Htok _ Ht') as (j & -> & ?). destruct (I7 _ _ _ Hx Ht) as (j' & Ej & ?).
      apply (inj token_of) in Ej. lia.
Qed.

Lemma is_claimable_not_published s ms :
  is_claimable_at (s_message s) ms = true -> is_published s = false.
Proof. unfold is_claimable_at, is_published. by destruct (o_state (s_message s)). Qed.

(** What a claim makes of a claimable message. *)
Lemma claim_until_with_token_spec m owner tok e ms :
  is_claimable_at m ms = true -> msg_wf m ->
  claim_until_with_token m owner tok e
  = mkOutbox (o_envelope m) Claimed (Some owner) (o_retry_count m) (o_max_retries m)
      (o_last_error m) (o_published_at m) (Some e) (Some tok)
  /\ o_published_at m = None.
Proof.
  unfold is_claimable_at, claim_until_with_token, outbox_claim, msg_wf.
  destruct (o_state m) eqn:E; try done; simpl; naive_solver.
Qed.

(** *** Selecting and claiming *)

(** The message stored under [id] can be claimed now. *)
Definition ready o (ms : Z) (now : SystemTime) (id : Z) (s : StoredMessage) : Prop :=
  messages o !! id = Some s
  /\ is_claimable_at (s_message s) ms && outbox_is_due_at (s_message s) now = true.

Lemma elem_of_eligible o ms now x :
  x ∈ eligible o ms now <->
  exists id s, ready o ms now id s /\ x = message_order (s_message s).
Proof.
  unfold eligible, ready. rewrite list_elem_of_omap. split.
  - intros ([id s] & Hin%elem_of_iter & Hx). case_match; simplify_eq. eauto.
  - intros (id & s & [Hid Hc] & ->). exists (id, s). split; [by apply elem_of_iter |].
    by rewrite Hc.
Qed.

Lemma eligible_nodup o ms now : outbox_inv o -> NoDup (eligible o ms now).*2.
Proof.
  intros Ho. eapply sublist_NoDup; [apply (iter_nodup (messages o)) |]. unfold eligible.
  assert (forall id s, (id, s) ∈ iter (messages o) -> outbox_id (s_message s) = id) as Hkey.
  { intros id s Hin%elem_of_iter. by apply (oi_key o Ho). }
  revert Hkey. generalize (iter (messages o)). clear Ho.
  induction l as [|[id s] l IH]; intros Hkey; [done |]. simpl.
  assert ((omap _ l).*2 `sublist_of` l.*1) as Hsub by (apply IH; set_solver).
  assert (outbox_id (s_message s) = id) as Hid by (apply Hkey; set_solver).
  destruct (is_claimable_at _ _ && _); simpl; [| by constructor].
  rewrite Hid. by constructor.
Qed.

Lemma oldest_nodup n l : NoDup l.*2 -> NoDup (oldest n l).*2.
Proof.
  intros Hl. eapply sublist_NoDup; [| apply fmap_sublist, sublist_take].
  by rewrite merge_sort_Permutation.
Qed.

(** What the claim loop does to the store: [ids] become owned, nothing else changes. *)
Record claimed_from o o' (owner : string) (e : Z) (ids : list Z) (ms : list OutboxMessage)
    : Prop := {
  cf_inv : outbox_inv o';
  cf_msgs : Forall2 (fun id m => exists s k, messages o !! id = Some s
      /\ messages o' !! id = Some (mkStored (s_identity s) m)
      /\ m = mkOutbox (o_envelope (s_message s)) Claimed (Some owner)
               (o_retry_count (s_message s)) (o_max_retries (s_message s))
               (o_last_error (s_message s)) None (Some e) (Some (token_of k))
      /\ claim_sequence o <= k < claim_sequence o') ids ms;
  cf_rest : forall id, id ∉ ids -> messages o' !! id = messages o !! id;
  cf_seq : claim_sequence o' = claim_sequence o + Z.of_nat (length ids);
  cf_index : published o' = published o;
  cf_capacity : capacity (ob_table o') = capacity (ob_table o)
}.

Lemma claim_one o owner e ms now id s :
  outbox_inv o -> ready o ms now id s -> claim_sequence o < int_max u64 ->
  let m := claim_until_with_token (s_message s) owner (token_of (claim_sequence o)) e in
  let o' := mkMemoryOutbox
    (set_records (ob_table o) (<[id := mkStored (s_identity s) m]> (messages o)))
    (claim_sequence o + 1) (published_retention o) in
  claimed_from o o' owner e [id] [m].
Proof.
  intros Ho [Hid Hr] Hseq. apply andb_true_iff in Hr as [Hc _].
  pose proof (oi_msg o Ho _ _ Hid) as Hwf. intros m o'.
  destruct (claim_until_with_token_spec (s_message s) owner (token_of (claim_sequence o)) e ms
    Hc Hwf) as [Hm Hpub]. fold m in Hm.
  split; simpl.
  - subst o'. apply outbox_inv_update; try done; try lia.
    + by eapply is_claimable_not_published.
    + by rewrite Hm.
    + rewrite Hm. unfold msg_wf. simpl. split_and!; eauto.
    + by rewrite Hm.
    + rewrite Hm. simpl. intros tok E. simplify_eq. exists (claim_sequence o). split; [done | lia].
  - constructor; [| constructor]. exists s, (claim_sequence o). split_and!; [done | | | lia | simpl; lia].
    + by rewrite lookup_insert_eq.
    + by rewrite Hm, Hpub.
  - intros k Hk. rewrite lookup_insert_ne; [done |]. set_solver.
  - simpl. lia.
  - done.
  - done.
Qed.

Lemma ready_rest o o' ms now id id' s' owner e m :
  claimed_from o o' owner e [id] [m] -> id' <> id ->
  ready o ms now id' s' -> ready o' ms now id' s'.
Proof.
  intros [_ _ Hrest _ _ _] Hne [Hid Hc]. split; [| done]. rewrite Hrest; [done | set_solver].
Qed.

Lemma claimed_from_trans o1 o2 o3 owner e id m ids ms :
  id ∉ ids -> claimed_from o1 o2 owner e [id] [m] -> claimed_from o2 o3 owner e ids ms ->
  claimed_from o1 o3 owner e (id :: ids) (m :: ms).
Proof.
  intros Hni [I1 F1 R1 S1 X1 C1] [I2 F2 R2 S2 X2 C2]. cbn [length] in S1. split.
  - done.
  - constructor.
    + inversion_clear F1 as [|? ? ? ? (s & k & ? & Ho2 & Hm & ?) _]. exists s, k.
      split_and!; [done | by rewrite R2 | done | lia | lia].
    + apply Forall2_same_length_lookup. split; [by eapply Forall2_length |].
      intros i x y Hx Hy.
      destruct (Forall2_lookup_lr _ _ _ _ _ _ F2 Hx Hy) as (s & k & Hs & ? & ? & ?).
      exists s, k. rewrite R1 in Hs by (apply list_elem_of_lookup_2 in Hx; set_solver).
      split_and!; [done | done | done | lia | lia].
  - intros k Hk. rewrite R2, R1 by set_solver. done.
  - cbn [length]. lia.
  - congruence.
  - congruence.
Qed.

Lemma claimed_from_nil o owner e : outbox_inv o -> claimed_from o o owner e [] [].
Proof. intros. split; try done. simpl. lia. Qed.

Lemma claim_loop_spec owner e ms now ids : forall o acc,
  outbox_inv o -> NoDup ids.*2 ->
  Forall (fun x => exists s, ready o ms now (snd x) s) ids ->
  claim_sequence o + Z.of_nat (length ids) <= int_max u64 ->
  exists cl o', claim_loop o owner e ms now ids acc = (acc ++ cl, o')
    /\ claimed_from o o' owner e ids.*2 cl.
Proof.
  induction ids as [|[t id] ids IH]; intros o acc Ho Hnd Hready Hseq.
  { exists [], o. rewrite app_nil_r. split; [done | by apply claimed_from_nil]. }
  apply NoDup_cons in Hnd as [Hni Hnd]. apply Forall_cons in Hready as [[s Hs] Hready].
  cbn [snd] in Hs. cbn [length] in Hseq. cbn [claim_loop].
  pose proof (claim_one o owner e ms now id s Ho Hs ltac:(lia)) as Hone.
  destruct Hs as [Hid Hc]. rewrite Hid, Hc. cbv zeta in Hone.
  unfold next_claim_token, set_messages, set_table. cbn [ob_table claim_sequence published_retention].
  rewrite wrapping_id by (done || (pose proof (oi_seq o Ho); int_bounds; lia)).
  fold (token_of (claim_sequence o)).
  set (m := claim_until_with_token (s_message s) owner (token_of (claim_sequence o)) e) in *.
  set (o1 := mkMemoryOutbox _ _ _) in *.
  destruct (IH o1 (acc ++ [m])) as (cl & o' & E & Hcl).
  - apply Hone.
  - done.
  - apply Forall_forall. intros [t' id'] Hin. rewrite Forall_forall in Hready.
    destruct (Hready _ Hin) as [s' Hs']. exists s'. cbn [snd] in *.
    eapply ready_rest; [exact Hone | | done]. intros ->. apply Hni.
    apply list_elem_of_fmap. by exists (t', id).
  - unfold o1. cbn [claim_sequence]. lia.
  - exists (m :: cl), o'. split; [by rewrite E, <-app_assoc |].
    by eapply claimed_from_trans.
Qed.

(** Which part of the state each reading of the clock decides. *)
Lemma claim_for_spec o owner lim lease t1 t2 t3 :
  outbox_inv o -> claim_sequence o + Z.of_nat lim <= int_max u64 ->
  match claim_for o owner lim lease t1 t2 t3 with
  | (Ok ms, o') => exists e now_ms, outbox_claim_expires_at lease t1 = Ok e
      /\ (lim = 0%nat \/ clock_unix_ms t3 = Ok now_ms)
      /\ claimed_from o o' owner e (oldest lim (eligible o now_ms t2)).*2 ms
      /\ message_order <$> ms = oldest lim (eligible o now_ms t2)
  | (Err _, o') => o' = o
  end.
Proof.
  intros Ho Hseq. unfold claim_for.
  destruct (validate_outbox_claim_limit lim) as [[]|]; [| done]. cbn [rbind].
  destruct (outbox_claim_expires_at lease t1) as [e|]; [| done].
  destruct (Nat.eqb_spec lim 0) as [->|Hlim].
  { exists e, 0. split; [done |]. split; [by left |]. unfold smallest. rewrite take_0. cbn.
    split; [by apply claimed_from_nil | done]. }
  destruct (clock_unix_ms t3) as [ms|]; [| done].
  rewrite (select_smallest ole) by lia. set (ids := oldest lim (eligible o ms t2)).
  assert (forall x, x ∈ ids -> exists s, ready o ms t2 (snd x) s
    /\ x = message_order (s_message s)) as Hids.
  { intros x Hx%smallest_elem. apply elem_of_eligible in Hx as (id & s & Hr & ->). exists s.
    split; [| done]. cbn. pose proof (oi_key o Ho _ _ (proj1 Hr)) as [-> _]. done. }
  destruct (claim_loop_spec owner e ms t2 ids o []) as (cl & o' & E & Hcl).
  - done.
  - by apply oldest_nodup, eligible_nodup.
  - apply Forall_forall. intros x Hx. destruct (Hids x Hx) as (s & ? & _). by exists s.
  - unfold ids. rewrite smallest_length. lia.
  - rewrite E. exists e, ms. split; [done |]. split; [by right |]. split; [done |].
    destruct Hcl as [_ Hf _ _ _ _]. apply list_eq_Forall2. apply Forall2_fmap_l.
    apply Forall2_same_length_lookup. apply Forall2_fmap_l in Hf.
    split; [symmetry; by eapply Forall2_length |]. intros i m x Hm Hx.
    destruct (Forall2_lookup_lr _ _ _ _ _ _ Hf Hx Hm) as (s & k & Hs & _ & -> & _).
    destruct (Hids x) as (s' & [Hs' _] & ->); [by eapply list_elem_of_lookup_2 |].
    cbn in Hs. cbn in Hs'. pose proof (oi_key o Ho _ _ Hs') as [E1 _].
    unfold outbox_id in *. simplify_eq. done.
Qed.

(** *** The other operations keep the invariant *)

Lemma owns_claimed m owner tok :
  msg_wf m -> owns m owner tok = true ->
  o_state m = Claimed /\ o_owner m = Some owner /\ o_claim_token m = Some tok.
Proof.
  unfold owns. intros Hwf [Ho%bool_decide_eq_true_1 Ht%bool_decide_eq_true_1]%andb_true_iff.
  split; [| done]. unfold msg_wf in Hwf. destruct (o_state m); [naive_solver | done | naive_solver..].
Qed.

Lemma claimed_not_published s : o_state (s_message s) = Claimed -> is_published s = false.
Proof. unfold is_published. by intros ->. Qed.

Lemma release_wf m : o_state m = Claimed -> msg_wf m ->
  msg_wf (outbox_release m) /\ o_state (outbox_release m) = Pending
  /\ o_claim_token (outbox_release m) = None /\ o_envelope (outbox_release m) = o_envelope m.
Proof. unfold msg_wf, outbox_release. intros E. rewrite E. naive_solver. Qed.

Lemma record_failure_wf m reason : o_state m = Claimed -> msg_wf m ->
  let m' := outbox_record_failure m reason in
  msg_wf m' /\ o_state m' <> Published /\ o_claim_token m' = None /\ o_envelope m' = o_envelope m.
Proof.
  unfold msg_wf, outbox_record_failure. intros E. rewrite E. simpl.
  intros (_ & _ & _ & Hp). destruct (_ <=? _); simpl; rewrite Hp; done.
Qed.

Lemma update_owned_inv o owner id tok f :
  outbox_inv o ->
  (forall m, o_state m = Claimed -> msg_wf m ->
     msg_wf (f m) /\ o_state (f m) <> Published /\ o_claim_token (f m) = None
     /\ o_envelope (f m) = o_envelope m) ->
  outbox_inv (snd (update_owned o owner id tok f)).
Proof.
  intros Ho Hf. unfold update_owned. destruct (messages o !! id) as [s|] eqn:Hid; [| done].
  destruct (owns (s_message s) owner tok) eqn:Eo; [| done]. cbn [snd].
  pose proof (oi_msg o Ho _ _ Hid) as Hwf.
  destruct (owns_claimed _ _ _ Hwf Eo) as (Hst & _ & _).
  destruct (Hf (s_message s) Hst Hwf) as (H1 & H2 & H3 & H4).
  apply (outbox_inv_update o id s (f (s_message s)) (claim_sequence o)); try done.
  - by apply claimed_not_published.
  - unfold outbox_id. by rewrite H4.
  - rewrite H3. done.
Qed.

Lemma ack_inv o owner id tok clock : outbox_inv o -> outbox_inv (snd (ack o owner id tok clock)).
Proof.
  intros Ho. unfold ack. destruct (clock_unix_ms clock) as [at_|]; [| done].
  destruct (messages o !! id) as [s|] eqn:Hid; [| done].
  destruct (owns (s_message s) owner tok) eqn:Eo; [| done]. cbn [snd].
  pose proof (oi_msg o Ho _ _ Hid) as Hwf.
  destruct (owns_claimed _ _ _ Hwf Eo) as (Hst & _ & _).
  set (m := mark_published (s_message s) at_).
  assert (m = mkOutbox (o_envelope (s_message s)) Published None (o_retry_count (s_message s))
    (o_max_retries (s_message s)) (o_last_error (s_message s)) (Some at_) None None) as Hm
    by (subst m; unfold mark_published; by rewrite Hst).
  pose proof Ho as [I1 I2 I3 I4 I5 I6 I7 I8]. destruct (I4 _ _ Hid) as [Hkey Hnz].
  pose proof (table_inv_update (ob_table o) id s (mkStored (s_identity s) m) I1 Hid eq_refl) as It.
  split; simpl; try done.
  - destruct It as [T1 T2 T3 T4 T5 T6]. split; simpl in *; eauto.
    intros k st. rewrite lookup_insert_Some. intros [[<- <-]|[_ ?]]; [| eauto]. simpl.
    pose proof (ti_ids _ _ _ I1 _ _ Hid). lia.
  - intros k st. simpl. rewrite lookup_insert_Some. intros [[<- <-]|[Hne Hk]].
    + eexists. rewrite lookup_insert_eq. split; [done |]. simpl. unfold is_published. simpl.
      by rewrite Hm.
    + rewrite lookup_insert_ne by done. by apply I2.
  - intros k x. rewrite !lookup_insert_Some. intros [[<- <-]|[Hne Hx]] Hp.
    + rewrite lookup_insert_eq. done.
    + rewrite lookup_insert_ne by done. eauto.
  - intros k x. rewrite lookup_insert_Some. intros [[<- <-]|[_ Hx]]; [| eauto].
    simpl. unfold outbox_id in *. rewrite Hm. done.
  - intros k x. rewrite lookup_insert_Some. intros [[<- <-]|[_ Hx]]; [| eauto].
    simpl. rewrite Hm. unfold msg_wf. simpl. eauto.
  - intros k x t. rewrite lookup_insert_Some. intros [[<- <-]|[_ Hx]]; [| eauto].
    simpl. by rewrite Hm.
  - intros k k' x x' t. rewrite !lookup_insert_Some.
    intros [[<- <-]|[_ Hx]] [[<- <-]|[_ Hx']]; simpl; rewrite ?Hm; try done. eauto.
Qed.

(** Messages built by the public constructors. *)
Definition fresh_message (m : OutboxMessage) : Prop := o_state m = Pending /\ msg_wf m.

Lemma outbox_inv_insert o t m :
  outbox_inv (set_table o t) -> fresh_message m -> outbox_id m <> 0 ->
  records t !! outbox_id m = None ->
  forall t', table_inv s_identity 0 t' ->
  records t' = <[outbox_id m := mkStored (record_sequence t) m]> (records t) ->
  index t' = index t -> outbox_inv (set_table o t').
Proof.
  intros [I1 I2 I3 I4 I5 I6 I7 I8] [Hst Hwf] Hnz Hnone t' Ht' Hr Hi. simpl in *.
  assert (o_claim_token m = None) as Htok.
  { unfold msg_wf in Hwf. rewrite Hst in Hwf. naive_solver. }
  split; simpl; rewrite ?Hr, ?Hi; try done.
  - intros k st. rewrite Hi, Hr. intros Hk. destruct (I2 _ _ Hk) as (r & Hr' & ?).
    exists r. rewrite lookup_insert_ne; [done |]. intros <-. congruence.
  - intros k x. rewrite lookup_insert_Some. intros [[<- <-]|[_ Hx]]; [| eauto].
    unfold is_published. simpl. by rewrite Hst.
  - intros k x. rewrite lookup_insert_Some. intros [[<- <-]|[_ Hx]]; [done | eauto].
  - intros k x. rewrite lookup_insert_Some. intros [[<- <-]|[_ Hx]]; [done | eauto].
  - intros k x tok. rewrite lookup_insert_Some. intros [[<- <-]|[_ Hx]]; [| eauto].
    simpl. congruence.
  - intros k k' x x' tok. rewrite !lookup_insert_Some.
    intros [[<- <-]|[_ Hx]] [[<- <-]|[_ Hx']]; simpl; rewrite ?Htok; try done. eauto.
Qed.

Lemma table_inv_release t :
  table_inv (K := Z) s_identity 1 t -> table_inv s_identity 0 (set_capacity t (release (capacity t))).
Proof.
  intros [Hu Hl Hq Hi Hun Hx]. rewrite release_pos by lia. split; simpl; eauto; lia.
Qed.

(** What [enqueue] may do to the other messages: nothing, or drop published ones
    past their retention. *)
Definition kept_or_aged o o' (clock : SystemTime) (id : Z) : Prop :=
  forall s, messages o !! id = Some s ->
    messages o' !! id = Some s
    \/ (is_published s = true
        /\ exists st, published o !! id = Some st
             /\ aged (published_retention o) (clock_unix_ms clock) st).

Lemma swept_kept o t clock id :
  swept s_identity is_published (aged (published_retention o) (clock_unix_ms clock))
    (ob_table o) t -> kept_or_aged o (set_table o t) clock id.
Proof.
  intros Hsw s Hs. cbn [ob_table set_table]. destruct (records t !! id) as [s'|] eqn:E.
  - left. pose proof (sw_records _ _ _ _ _ Hsw _ _ E). congruence.
  - right. destruct (sw_finished _ _ _ _ _ Hsw _ _ Hs E) as (? & st & ? & _ & ?). eauto.
Qed.

Lemma enqueue_spec o m clock :
  outbox_inv o -> fresh_message m ->
  let '(r, o') := enqueue o m clock in
  outbox_inv o'
  /\ (forall id, id <> outbox_id m -> kept_or_aged o o' clock id)
  /\ match r with
     | Ok _ => outbox_id m <> 0
         /\ (exists n, messages o' !! outbox_id m = Some (mkStored n m))
         /\ (used (capacity (ob_table o)) < limit (capacity (ob_table o)) ->
             messages o !! outbox_id m = None)
         /\ (forall s, messages o !! outbox_id m = Some s -> is_published s = true)
     | Err e => (code e = Conflict -> is_Some (messages o !! outbox_id m))
         /\ kept_or_aged o o' clock (outbox_id m)
     end.
Proof.
  intros Ho Hf. unfold enqueue, validate_outbox_message_id.
  assert (forall id, kept_or_aged o o clock id) as Hkeep by (intros id s Hs; by left).
  destruct (Z.eqb_spec (outbox_id m) 0) as [|Hnz]; [split_and!; auto; discriminate |].
  pose proof (admit_spec s_identity is_published 0 (ob_table o) (published_retention o)
    (clock_unix_ms clock) outbox_retention_error "memory outbox record capacity is exhausted"
    ltac:(done) (oi_table o Ho)) as Ha.
  pose proof (admit_synced s_identity is_published (ob_table o) (published_retention o)
    (clock_unix_ms clock) outbox_retention_error "memory outbox record capacity is exhausted"
    (oi_coherent o Ho)) as Hsy.
  destruct (admit_record _ _ _ _ _ _ _) as [[[]|e] t] eqn:Ead; cbn [snd] in Hsy.
  2: { destruct Ha as [Ht Hsw]. split_and!.
       - by apply outbox_inv_synced.
       - intros. by apply swept_kept.
       - intros Hc. apply admit_error in Ead as [E|[E|E%clock_unix_ms_err]]; congruence.
       - by apply swept_kept. }
  destruct Ha as (Ht & Hsw & Hroom). change (0 + 1) with 1 in Ht.
  assert (outbox_inv (set_table o (set_capacity t (release (capacity t))))) as Hrel.
  { apply outbox_inv_synced; [done | by apply table_inv_release | exact Hsy]. }
  destruct (records t !! outbox_id m) as [s0|] eqn:Es0.
  { split; [done |]. split; [| split].
    - intros id _. exact (swept_kept o t clock id Hsw).
    - intros _. exists s0. by apply (sw_records _ _ _ _ _ Hsw).
    - exact (swept_kept o t clock _ Hsw). }
  pose proof (insert_reserved_spec s_identity t (outbox_id m) (fun i => mkStored i m) Ht Es0
    (fun _ => eq_refl)) as Hins.
  destruct (insert_reserved t (outbox_id m) _) as [[[]|e] t'] eqn:Ei.
  - destruct Hins as (Ht' & Hr & Hi). split_and!.
    + by eapply (outbox_inv_insert o (set_capacity t (release (capacity t))) m Hrel).
    + intros id Hne s Hs. destruct (swept_kept o t clock id Hsw s Hs) as [Hk|Hk]; [left | by right].
      cbn [ob_table set_table] in *. by rewrite Hr, lookup_insert_ne.
    + done.
    + exists (record_sequence t). cbn [ob_table set_table]. by rewrite Hr, lookup_insert_eq.
    + intros Hlt. by rewrite <-(Hroom Hlt).
    + intros s Hs. by apply (sw_finished _ _ _ _ _ Hsw _ _ Hs Es0).
  - destruct Hins as (Ht' & Hr & Hi & _). split_and!.
    + apply outbox_inv_synced; [done | done |]. intros k. rewrite Hr, Hi. apply Hsy.
    + intros id _ s Hs. cbn [ob_table set_table]. rewrite Hr. exact (swept_kept o t clock id Hsw s Hs).
    + unfold insert_reserved, sequence_next, fail in Ei. intros Hc.
      destruct (checked u64 _); simplify_eq; done.
    + intros s Hs. cbn [ob_table set_table]. rewrite Hr. exact (swept_kept o t clock _ Hsw s Hs).
Qed.

Lemma cancel_inv o id : outbox_inv o -> outbox_inv (snd (cancel o id)).
Proof.
  intros Ho. unfold cancel. destruct (messages o !! id) as [s|] eqn:Hid; [| done].
  destruct (o_state (s_message s)) eqn:Est; try done. cbn [snd].
  assert (size (messages o) = S (size (delete id (messages o)))) as Hsz.
  { rewrite <-(insert_delete_id (messages o) id s Hid) at 1.
    by rewrite map_size_insert_None by apply lookup_delete_eq. }
  pose proof (oi_table o Ho) as Ht.
  assert (published o !! id = None) as Hidx.
  { destruct (published o !! id) as [st|] eqn:E; [| done].
    destruct (oi_coherent o Ho _ _ E) as (r & Hr & _ & Hp). simplify_eq.
    unfold is_published in Hp. by rewrite Est in Hp. }
  apply outbox_inv_synced; [done | |].
  - destruct Ht as [Hu Hl Hq Hi Hun Hx].
    rewrite release_pos by lia. split; simpl; try done.
    + lia.
    + lia.
    + intros k r. rewrite lookup_delete_Some. intros [_ ?]. eauto.
    + intros k k' r r'. rewrite !lookup_delete_Some. intros [_ ?] [_ ?]. eauto.
  - intros k. cbn. destruct (decide (k = id)) as [->|Hne].
    + right. by rewrite lookup_delete_eq.
    + left. by rewrite lookup_delete_ne.
Qed.

Lemma cleanup_published_inv o retention lim clock :
  outbox_inv o -> outbox_inv (snd (cleanup_published o retention lim clock)).
Proof.
  intros Ho. unfold cleanup_published.
  pose proof (cleanup_spec s_identity is_published 0 (ob_table o) retention lim
    (clock_unix_ms clock) outbox_retention_error ltac:(done) (oi_table o Ho)) as Hc.
  pose proof (proj1 (cleanup_synced s_identity is_published (ob_table o) retention lim
    (clock_unix_ms clock) outbox_retention_error (oi_coherent o Ho))) as Hs.
  destruct (cleanup _ _ _ _ _ _ _) as [[n|e] t]; cbn [fst snd] in *.
  - destruct Hc as (_ & Ht & _). by apply outbox_inv_synced.
  - subst t. by destruct o.
Qed.

(** ** Histories of a store

    One step is one operation of the store, with its arguments and clock
    readings.  A store hands out at most [2^64] claims in its life, which is the
    only bound on a claim step. *)

Inductive ostep : MemoryOutbox -> MemoryOutbox -> Prop :=
| os_enqueue o m clock :
    fresh_message m -> ostep o (snd (enqueue o m clock))
| os_claim o owner lim lease t1 t2 t3 :
    claim_sequence o + Z.of_nat lim <= int_max u64 ->
    ostep o (snd (claim_for o owner lim lease t1 t2 t3))
| os_ack o owner id tok clock : ostep o (snd (ack o owner id tok clock))
| os_release o owner id tok : ostep o (snd (store_release o owner id tok))
| os_failure o owner id tok reason : ostep o (snd (store_record_failure o owner id tok reason))
| os_cancel o id : ostep o (snd (cancel o id))
| os_cleanup o retention lim clock : ostep o (snd (cleanup_published o retention lim clock)).

Lemma ostep_inv o o' : outbox_inv o -> ostep o o' -> outbox_inv o'.
Proof.
  intros Ho Hs. destruct Hs.
  - pose proof (enqueue_spec o m clock Ho H) as He. destruct (enqueue o m clock). apply He.
  - pose proof (claim_for_spec o owner lim lease t1 t2 t3 Ho H) as Hc.
    destruct (claim_for _ _ _ _ _ _ _) as [[ms|e] o'].
    + destruct Hc as (? & ? & _ & _ & Hc & _). apply Hc.
    + by subst o'.
  - by apply ack_inv.
  - apply update_owned_inv; [done |]. intros m Hst Hwf.
    destruct (release_wf m Hst Hwf) as (? & E & ? & ?). rewrite E. done.
  - apply update_owned_inv; [done |]. intros m Hst Hwf. by apply record_failure_wf.
  - by apply cancel_inv.
  - by apply cleanup_published_inv.
Qed.

Lemma ostep_inv_rtc o o' : outbox_inv o -> rtc ostep o o' -> outbox_inv o'.
Proof. intros Ho Hr. revert Ho. induction Hr; eauto using ostep_inv. Qed.

(** *** What one operation can do to one message *)

Lemma claimed_from_lookup o o' owner e ids ms id s :
  claimed_from o o' owner e ids ms -> messages o !! id = Some s ->
  (~ id ∈ ids /\ messages o' !! id = Some s)
  \/ (id ∈ ids /\ exists m, (m ∈ ms) /\ messages o' !! id = Some (mkStored (s_identity s) m)
      /\ o_envelope m = o_envelope (s_message s)
      /\ exists k, o_claim_token m = Some (token_of k) /\ claim_sequence o <= k < claim_sequence o').
Proof.
  intros [_ Hf Hrest _ _ _] Hid. destruct (decide (id ∈ ids)) as [Hin|Hni].
  - right. split; [done |]. apply list_elem_of_lookup in Hin as [i Hi].
    destruct (Forall2_lookup_l _ _ _ _ _ Hf Hi) as (m & Hm & s' & k & Hs & Ho' & Em & Hk).
    simplify_eq. eexists. split; [by eapply list_elem_of_lookup_2 |]. split; [done |].
    split; [done |]. eauto.
  - left. split; [done |]. by rewrite Hrest.
Qed.

Lemma update_owned_lookup o owner id tok f k s :
  outbox_inv o -> messages o !! k = Some s ->
  messages (snd (update_owned o owner id tok f)) !! k = Some s
  \/ (o_state (s_message s) = Claimed /\ k = id
      /\ messages (snd (update_owned o owner id tok f)) !! k
         = Some (mkStored (s_identity s) (f (s_message s)))).
Proof.
  intros Ho Hk. unfold update_owned. destruct (messages o !! id) as [s'|] eqn:Hid; [| by left].
  destruct (owns (s_message s') owner tok) eqn:Eo; [| by left]. cbn.
  destruct (decide (k = id)) as [->|Hne]; [right | left; by rewrite lookup_insert_ne].
  simplify_eq. rewrite lookup_insert_eq. split_and!; [| done | done].
  eapply owns_claimed; [by eapply oi_msg | done].
Qed.

Lemma ack_lookup o owner id tok clock k s :
  outbox_inv o -> messages o !! k = Some s ->
  messages (snd (ack o owner id tok clock)) !! k = Some s
  \/ (o_state (s_message s) = Claimed
      /\ exists m, messages (snd (ack o owner id tok clock)) !! k = Some (mkStored (s_identity s) m)).
Proof.
  intros Ho Hk. unfold ack. destruct (clock_unix_ms clock); [| by left].
  destruct (messages o !! id) as [s'|] eqn:Hid; [| by left].
  destruct (owns (s_message s') owner tok) eqn:Eo; [| by left]. cbn.
  destruct (decide (k = id)) as [->|Hne]; [right | left; by rewrite lookup_insert_ne].
  simplify_eq. rewrite lookup_insert_eq. split; [| by eexists].
  eapply owns_claimed; [by eapply oi_msg | done].
Qed.

Lemma ostep_lookup o o' id s :
  outbox_inv o -> ostep o o' -> messages o !! id = Some s ->
  messages o' !! id = Some s
  \/ (o_state (s_message s) <> Failed /\ is_published s = false
      /\ exists m, messages o' !! id = Some (mkStored (s_identity s) m))
  \/ is_published s = true
  \/ (o_state (s_message s) = Pending /\ o' = snd (cancel o id)).
Proof.
  intros Ho Hs Hid. destruct Hs.
  - pose proof (enqueue_spec o m clock Ho H) as He. destruct (enqueue o m clock) as [r o'].
    destruct He as (_ & Hother & Hr). cbn [snd].
    destruct (decide (id = outbox_id m)) as [->|Hne].
    + destruct r as [|e].
      * destruct Hr as (_ & _ & _ & Hp). auto.
      * destruct (proj2 Hr s Hid) as [?|[? _]]; auto.
    + destruct (Hother id Hne s Hid) as [?|[? _]]; auto.
  - pose proof (claim_for_spec o owner lim lease t1 t2 t3 Ho H) as Hc.
    destruct (claim_for _ _ _ _ _ _ _) as [[ms|e] o']; [| subst o'; by left].
    destruct Hc as (e & now_ms & _ & _ & Hcf & _). cbn [snd].
    destruct (claimed_from_lookup _ _ _ _ _ _ _ _ Hcf Hid) as [[_ ?]|[Hin (m & _ & Hm & _)]];
      [by left |]. right. left.
    apply list_elem_of_fmap in Hin as (x & Ex & Hx%smallest_elem).
    apply elem_of_eligible in Hx as (id' & s' & [Hs' Hready] & ->).
    apply andb_true_iff in Hready as [Hclaim _].
    assert (id' = id) as ->.
    { subst id. symmetry. apply (oi_key o Ho _ _ Hs'). }
    simplify_eq. split_and!; [| by eapply is_claimable_not_published | by eexists].
    intros E. unfold is_claimable_at in Hclaim. by rewrite E in Hclaim.
  - destruct (ack_lookup o owner id0 tok clock id s Ho Hid) as [?|[Hst ?]]; [by left |].
    right. left. split; [congruence |]. split; [by apply claimed_not_published | done].
  - destruct (update_owned_lookup o owner id0 tok outbox_release id s Ho Hid)
      as [?|(Hst & _ & ?)]; [by left |].
    right. left. split; [congruence |]. split; [by apply claimed_not_published | by eexists].
  - destruct (update_owned_lookup o owner id0 tok (fun m => outbox_record_failure m reason)
      id s Ho Hid) as [?|(Hst & _ & ?)]; [by left |].
    right. left. split; [congruence |]. split; [by apply claimed_not_published | by eexists].
  - unfold cancel at 1. destruct (messages o !! id0) as [s0|] eqn:E0; [| by left].
    destruct (o_state (s_message s0)) eqn:Est; try by left. cbn.
    destruct (decide (id0 = id)) as [->|Hne]; [| left; by rewrite lookup_delete_ne].
    simplify_eq. auto.
  - unfold cleanup_published.
    pose proof (cleanup_spec s_identity is_published 0 (ob_table o) retention lim
      (clock_unix_ms clock) outbox_retention_error ltac:(done) (oi_table o Ho)) as Hc.
    destruct (cleanup _ _ _ _ _ _ _) as [[n|e] t]; cbn; [| subst t; by left].
    destruct Hc as (Hsw & _). destruct (records t !! id) as [s'|] eqn:E.
    + left. pose proof (sw_records _ _ _ _ _ Hsw _ _ E). congruence.
    + right. right. left. by destruct (sw_finished _ _ _ _ _ Hsw _ _ Hid E).
Qed.
End invariant.

(** ** Properties *)

Section properties.
Context `{!MapIter Z}.
Implicit Types o : MemoryOutbox.

Abbreviation messages o := (records (ob_table o)).
Abbreviation published o := (index (ob_table o)).

(** In every history of a memory outbox the number of retained messages
    never exceeds its capacity, every message is stored under its own non-zero
    identifier, a message has an owner, a token and a deadline exactly while it
    is claimed, no two messages share a claim token, and the published index
    lists exactly the published messages. *)
Theorem outbox_history retention cap o o' :
  0 <= cap -> with_published_retention_and_capacity retention cap = Ok o -> rtc ostep o o' ->
  Z.of_nat (size (messages o')) <= limit (capacity (ob_table o'))
  /\ (forall id s, messages o' !! id = Some s ->
        outbox_id (s_message s) = id /\ id <> 0 /\ msg_wf (s_message s)
        /\ (is_published s = true <-> is_Some (published o' !! id)))
  /\ (forall id id' s s' tok, messages o' !! id = Some s -> messages o' !! id' = Some s' ->
        o_claim_token (s_message s) = Some tok -> o_claim_token (s_message s') = Some tok ->
        id = id').
Proof.
  intros Hcap Hnew Hr. pose proof (ostep_inv_rtc _ _ (outbox_new_inv _ _ _ Hcap Hnew) Hr) as Ho.
  split; [destruct (oi_table _ Ho); lia |]. split; [| apply Ho].
  intros id s Hid. destruct (oi_key _ Ho _ _ Hid). split_and!; try done; [by eapply oi_msg |].
  split; [by eapply oi_indexed |]. intros [st Hst].
  destruct (oi_coherent _ Ho _ _ Hst) as (r & Hr' & _ & ?). congruence.
Qed.

(** A claim returns exactly the oldest claimable messages: the batch, in
    order, is the first [limit] of all due and unowned messages sorted by send
    time and identifier; each is returned claimed by the caller until the
    deadline under a token no message held before, and no other message changes. *)
Theorem claim_for_oldest o owner lim lease t1 t2 t3 ms o' :
  outbox_inv o -> claim_sequence o + Z.of_nat lim <= int_max u64 ->
  claim_for o owner lim lease t1 t2 t3 = (Ok ms, o') ->
  exists e now_ms, outbox_claim_expires_at lease t1 = Ok e
    /\ (lim = 0%nat \/ clock_unix_ms t3 = Ok now_ms)
    /\ message_order <$> ms = oldest lim (eligible o now_ms t2)
    /\ Forall (fun m => o_state m = Claimed /\ o_owner m = Some owner /\ o_claimed_until m = Some e
         /\ (s_message <$> messages o' !! outbox_id m) = Some m
         /\ exists k, o_claim_token m = Some (token_of k) /\ claim_sequence o <= k) ms
    /\ (forall id, id ∉ outbox_id <$> ms -> messages o' !! id = messages o !! id).
Proof.
  intros Ho Hseq E. pose proof (claim_for_spec o owner lim lease t1 t2 t3 Ho Hseq) as Hc.
  rewrite E in Hc. destruct Hc as (e & now_ms & He & Hms & [Hi Hf Hrest _ _ _] & Hord).
  exists e, now_ms. split_and!; try done.
  - apply Forall_forall. intros m Hm. apply list_elem_of_lookup in Hm as [i Hm].
    destruct (Forall2_lookup_r _ _ _ _ _ Hf Hm) as (id & _ & s & k & Hs & Ho' & -> & Hk & _).
    cbn. split_and!; [done | done | done | | by eexists].
    pose proof (oi_key _ Hi _ _ Ho') as [Ek _]. unfold outbox_id in *. cbn in Ek.
    cbn [o_envelope]. rewrite Ek, Ho'. done.
  - intros id Hni. apply Hrest. rewrite <-Hord, <-list_fmap_compose. exact Hni.
Qed.

(** C1: Delivery is exclusive: after a claim succeeds, a second claim (by any
    worker) whose clock reads less than the first deadline returns none of the
    messages the first one returned. *)
Theorem claim_exclusive o owner lim lease t1 t2 t3 ms o1 e owner' lim' lease' u1 u2 u3 ms' o2 :
  outbox_inv o -> claim_sequence o + Z.of_nat lim + Z.of_nat lim' <= int_max u64 ->
  claim_for o owner lim lease t1 t2 t3 = (Ok ms, o1) ->
  outbox_claim_expires_at lease t1 = Ok e -> as_millis u3 < e ->
  claim_for o1 owner' lim' lease' u1 u2 u3 = (Ok ms', o2) ->
  forall m m', m ∈ ms -> m' ∈ ms' -> outbox_id m <> outbox_id m'.
Proof.
  intros Ho Hseq E1 He Hu E2 m m' Hm Hm' Heq.
  pose proof (claim_for_spec o owner lim lease t1 t2 t3 Ho ltac:(lia)) as Hc. rewrite E1 in Hc.
  destruct Hc as (e' & now_ms & He' & _ & [Hi Hf _ Hs _ _] & Hord). assert (e' = e) as -> by congruence.
  assert (Z.of_nat (length (oldest lim (eligible o now_ms t2)).*2) <= Z.of_nat lim) as Hlen.
  { rewrite length_fmap, smallest_length. lia. }
  pose proof (claim_for_spec o1 owner' lim' lease' u1 u2 u3 Hi ltac:(lia)) as Hc. rewrite E2 in Hc.
  destruct Hc as (e2 & now2 & _ & Hnow & _ & Hord2).
  apply list_elem_of_lookup in Hm as [i Hm].
  destruct (Forall2_lookup_r _ _ _ _ _ Hf Hm) as (id & _ & s & k & _ & Ho1 & Em & _).
  assert (message_order m' ∈ eligible o1 now2 u2) as Hel.
  { eapply smallest_elem. rewrite <-Hord2. by apply list_elem_of_fmap_2. }
  apply elem_of_eligible in Hel as (id' & s' & [Hs' Hready] & Eord).
  pose proof (oi_key _ Hi _ _ Ho1) as [Ek _]. pose proof (oi_key _ Hi _ _ Hs') as [Ek' _].
  cbn in Ek. assert (id' = id) as ->.
  { unfold message_order in Eord. injection Eord as _ E'. rewrite Ek' in E'. congruence. }
  simplify_eq. apply andb_true_iff in Hready as [Hclaim _]. unfold is_claimable_at in Hclaim.
  cbn in Hclaim. apply Z.leb_le in Hclaim. destruct Hnow as [->|Hnow].
  - unfold claim_for in E2. destruct (validate_outbox_claim_limit 0); [| done]. cbn in E2.
    destruct (outbox_claim_expires_at lease' u1); simplify_eq. by apply elem_of_nil in Hm'.
  - apply clock_unix_ms_ok in Hnow as (_ & -> & _). lia.
Qed.

(** A reclaim fences the previous owner: once a message has been claimed
    again, completing, releasing or failing it with any token issued before
    that claim leaves the store untouched. *)
Theorem reclaim_fences o owner lim lease t1 t2 t3 ms o' m id s tok owner' clock reason :
  outbox_inv o -> claim_sequence o + Z.of_nat lim <= int_max u64 ->
  claim_for o owner lim lease t1 t2 t3 = (Ok ms, o') -> m ∈ ms ->
  messages o !! id = Some s -> o_claim_token (s_message s) = Some tok ->
  (snd (ack o' owner' (outbox_id m) tok clock) = o')
  /\ store_release o' owner' (outbox_id m) tok = (Ok tt, o')
  /\ store_record_failure o' owner' (outbox_id m) tok reason = (Ok tt, o').
Proof.
  intros Ho Hseq E Hm Hid Htok. destruct (oi_token _ Ho _ _ _ Hid Htok) as (j & -> & Hj).
  pose proof (claim_for_spec o owner lim lease t1 t2 t3 Ho Hseq) as Hc.
  rewrite E in Hc. destruct Hc as (e & now_ms & _ & _ & [Hi Hf _ _ _ _] & _).
  apply list_elem_of_lookup in Hm as [i Hm].
  destruct (Forall2_lookup_r _ _ _ _ _ Hf Hm) as (id' & _ & s' & k & _ & Ho' & -> & Hk & _).
  pose proof (oi_key _ Hi _ _ Ho') as [Ek _]. unfold outbox_id in *. cbn in Ek.
  cbn [o_envelope]. rewrite Ek.
  assert (owns (s_message (mkStored (s_identity s') (mkOutbox (o_envelope (s_message s')) Claimed
    (Some owner) (o_retry_count (s_message s')) (o_max_retries (s_message s'))
    (o_last_error (s_message s')) None (Some e) (Some (token_of k))))) owner' (token_of j) = false)
    as Hno.
  { unfold owns. cbn. apply andb_false_iff. right. apply bool_decide_eq_false.
    intros Eq. simplify_eq. lia. }
  unfold ack, store_release, store_record_failure, update_owned. rewrite Ho', Hno.
  split_and!; [| done | done]. by destruct (clock_unix_ms clock).
Qed.

(** C6: A terminally failed message stays for inspection: no history changes or
    drops it.  Whatever happens in one step, a message only disappears when it
    was published, or pending and cancelled. *)
Theorem messages_not_lost o o' id s :
  outbox_inv o -> messages o !! id = Some s ->
  (rtc ostep o o' -> o_state (s_message s) = Failed -> messages o' !! id = Some s)
  /\ (ostep o o' -> messages o' !! id = None ->
      is_published s = true \/ (o_state (s_message s) = Pending /\ o' = snd (cancel o id))).
Proof.
  intros Ho Hid. split.
  - intros Hr Hst. induction Hr as [|o o1 o2 Hs _ IH]; [done |].
    apply IH; [by eapply ostep_inv |].
    destruct (ostep_lookup _ _ _ _ Ho Hs Hid) as [?|[[? _]|[Hp|[? _]]]]; [done | done | | congruence].
    unfold is_published in Hp. by rewrite Hst in Hp.
  - intros Hs Hnone.
    destruct (ostep_lookup _ _ _ _ Ho Hs Hid) as [?|[(_ & _ & m & ?)|[?|[? ?]]]];
      [congruence | congruence | by left | by right].
Qed.

(** A cleanup of the published history removes exactly the records that are
    among the first [limit] published ones and at least [retention] old, gives
    back their slots, and leaves every other message as it was. *)
Theorem cleanup_published_exact o retention lim clock n o' :
  outbox_inv o -> cleanup_published o retention lim clock = (Ok n, o') ->
  exists ms, clock_unix_ms clock = Ok ms /\ (n <= lim)%nat
    /\ let gone := candidates (ob_table o) ms (as_millis retention) lim in
       n = length gone
       /\ (forall id, id ∈ gone.*1 -> messages o' !! id = None)
       /\ (forall id, id ∉ gone.*1 -> messages o' !! id = messages o !! id)
       /\ used (capacity (ob_table o')) = used (capacity (ob_table o)) - Z.of_nat n.
Proof.
  intros Ho E. unfold cleanup_published in E.
  pose proof (cleanup_spec s_identity is_published 0 (ob_table o) retention lim
    (clock_unix_ms clock) outbox_retention_error ltac:(done) (oi_table o Ho)) as Hc.
  pose proof (cleanup_synced s_identity is_published (ob_table o) retention lim
    (clock_unix_ms clock) outbox_retention_error (oi_coherent o Ho)) as Hs.
  pose proof (cleanup_touches s_identity is_published (ob_table o) retention lim
    (clock_unix_ms clock) outbox_retention_error) as Ht.
  destruct (cleanup _ _ _ _ _ _ _) as [r t]. destruct r as [n'|e]; simplify_eq. cbn in *.
  destruct Hc as (Hsw & Hinv & Hn & Hle), Hs as (_ & ms & Hms & Hlen & Hgone).
  exists ms. split; [done |]. split; [done |]. cbn. split; [done |]. split; [| split].
  - intros id Hid. apply list_elem_of_fmap in Hid as (x & -> & Hx).
    rewrite Forall_forall in Hgone. by apply Hgone.
  - intros id Hid. by apply (Ht ms).
  - pose proof (oi_table o Ho) as Hti. destruct Hti, Hinv. lia.
Qed.

(** The batch a claim selects, and the store it leaves, do not depend on the
    order in which the hash map yields the messages. *)
Theorem claim_for_order_independent (i1 i2 : MapIter Z) o owner lim lease t1 t2 t3 :
  claim_for (MapIter0 := i1) o owner lim lease t1 t2 t3
  = claim_for (MapIter0 := i2) o owner lim lease t1 t2 t3.
Proof.
  unfold claim_for. destruct (let? _ := validate_outbox_claim_limit lim in _); [| done].
  destruct (Nat.eqb_spec lim 0); [done |]. destruct (clock_unix_ms t3) as [ms|]; [| done].
  rewrite !(select_smallest ole) by lia. erewrite (smallest_perm ole); [done |].
  unfold eligible. by rewrite (iter_perm (MapIter := i1)), (iter_perm (MapIter := i2)).
Qed.

(** A failed delivery is bounded: recording a failure of an owned message
    counts one attempt, keeps at most 1024 bytes of the reason without splitting
    a character, gives up ownership, and makes the message terminal exactly when
    the attempts reach its limit; otherwise it is pending again. *)
Theorem record_failure_bounded o owner id tok reason s :
  outbox_inv o -> messages o !! id = Some s -> owns (s_message s) owner tok = true ->
  utf8_valid (bytes_of_string reason) = true -> 0 <= o_retry_count (s_message s) < int_max u32 ->
  exists m o', store_record_failure o owner id tok reason = (Ok tt, o')
    /\ messages o' !! id = Some (mkStored (s_identity s) m)
    /\ o_retry_count m = o_retry_count (s_message s) + 1
    /\ (o_state m = Failed <-> o_max_retries (s_message s) <= o_retry_count m)
    /\ (o_state m = Failed \/ o_state m = Pending)
    /\ o_owner m = None /\ o_claim_token m = None
    /\ exists kept, o_last_error m = Some kept
       /\ truncation_of MAX_OUTBOX_FAILURE_ERROR_BYTES reason kept.
Proof.
  intros Ho Hid Hown Hv Hc. unfold store_record_failure, update_owned. rewrite Hid, Hown.
  eexists _, _. split; [done |]. cbn [ob_table set_messages set_table records set_records].
  rewrite lookup_insert_eq. split; [done |]. cbn [outbox_record_failure o_retry_count o_state
    o_owner o_claim_token o_last_error].
  rewrite saturating_id by (int_bounds; lia). split; [done |].
  split; [| split]; [| | split_and!; [done | done |]].
  - destruct (Z.leb_spec (o_max_retries (s_message s)) (o_retry_count (s_message s) + 1));
      split; done || lia.
  - destruct (_ <=? _); auto.
  - eexists. split; [done |]. by apply truncate_to_ok.
Qed.
End properties.

(** ** A concrete store

    Two workers on a store of two messages: the older one is sent first, claimed
    until 301000 ms, and claimed again after that. *)

Definition demo_message (id sent : Z) : OutboxMessage :=
  OutboxMessage_new (mkEnvelope id "t" [] (MessageMetadata_new id None) (Some sent) 1 None None).

Definition demo_new : MemoryOutbox := mkMemoryOutbox (table_new (capacity_fixed 2)) 0 (from_secs 60).
Definition demo_enqueue1 := snd (enqueue demo_new (demo_message 5 900) 0).
Definition demo_outbox := snd (enqueue demo_enqueue1 (demo_message 9 400) 0).

Definition at_ms (ms : Z) : SystemTime := ms * NANOS_PER_MILLI.

Definition demo_claim :=
  claim_for demo_outbox "w1" 1 DEFAULT_OUTBOX_CLAIM_LEASE (at_ms 1000) (at_ms 1000) (at_ms 1000).
Definition demo_claimed := snd demo_claim.
Definition demo_batch := match fst demo_claim with Ok ms => ms | Err _ => [] end.

Lemma demo_fresh id sent : fresh_message (demo_message id sent).
Proof. by repeat split. Qed.

Lemma demo_history : rtc ostep demo_new demo_outbox.
Proof.
  eapply rtc_l; [apply (os_enqueue demo_new (demo_message 5 900) 0), demo_fresh |].
  eapply rtc_l; [apply (os_enqueue demo_enqueue1 (demo_message 9 400) 0), demo_fresh |].
  apply rtc_refl.
Qed.

Lemma demo_inv : outbox_inv demo_outbox.
Proof.
  apply (ostep_inv_rtc demo_new); [| apply demo_history].
  by apply (outbox_new_inv (from_secs 60) 2).
Qed.

Lemma demo_claim_step : ostep demo_outbox demo_claimed.
Proof. apply os_claim. vm_compute. congruence. Qed.

Lemma demo_claimed_inv : outbox_inv demo_claimed.
Proof. eapply ostep_inv; [apply demo_inv | apply demo_claim_step]. Qed.

Lemma outbox_history_witness :
  Z.of_nat (size (records (ob_table demo_outbox))) <= 2
  /\ size (records (ob_table demo_outbox)) = 2%nat.
Proof.
  split; [| reflexivity].
  exact (proj1 (outbox_history (from_secs 60) 2 demo_new demo_outbox
    ltac:(lia) eq_refl demo_history)).
Defined.

Lemma claim_for_oldest_witness :
  exists e now_ms, outbox_claim_expires_at DEFAULT_OUTBOX_CLAIM_LEASE (at_ms 1000) = Ok e
    /\ e = 301000 /\ outbox_id <$> demo_batch = [9]
    /\ message_order <$> demo_batch = oldest 1 (eligible demo_outbox now_ms (at_ms 1000)).
Proof.
  destruct (claim_for_oldest demo_outbox "w1" 1 DEFAULT_OUTBOX_CLAIM_LEASE (at_ms 1000)
    (at_ms 1000) (at_ms 1000) demo_batch demo_claimed demo_inv ltac:(vm_compute; congruence)
    ltac:(vm_compute; reflexivity)) as (e & ms & He & _ & Hord & _).
  exists e, ms. split; [exact He |]. vm_compute in He. simplify_eq.
  split; [reflexivity |]. split; [reflexivity | exact Hord].
Defined.

Lemma claim_exclusive_witness :
  let second := claim_for demo_claimed "w2" 2 DEFAULT_OUTBOX_CLAIM_LEASE
    (at_ms 2000) (at_ms 2000) (at_ms 2000) in
  exists m m', demo_batch = [m] /\ fst second = Ok [m'] /\ outbox_id m <> outbox_id m'.
Proof.
  intros second.
  destruct demo_batch as [|m [|]] eqn:Em; [vm_compute in Em; discriminate | |
    vm_compute in Em; discriminate].
  destruct (fst second) as [[|m' [|]]|] eqn:Em'; try (vm_compute in Em'; discriminate).
  exists m, m'. split; [reflexivity |]. split; [reflexivity |].
  apply (claim_exclusive demo_outbox "w1" 1 DEFAULT_OUTBOX_CLAIM_LEASE (at_ms 1000)
    (at_ms 1000) (at_ms 1000) [m] demo_claimed 301000 "w2" 2 DEFAULT_OUTBOX_CLAIM_LEASE
    (at_ms 2000) (at_ms 2000) (at_ms 2000) [m'] (snd second)).
  - exact demo_inv.
  - vm_compute; congruence.
  - rewrite <-Em. vm_compute; reflexivity.
  - vm_compute; reflexivity.
  - vm_compute; reflexivity.
  - rewrite <-Em'. apply surjective_pairing.
  - apply list_elem_of_here.
  - apply list_elem_of_here.
Defined.

(** At 400000 ms the first lease is over; the second worker takes message 9 and
    the first worker's token "memory-0" no longer works. *)
Lemma reclaim_fences_witness :
  let second := claim_for demo_claimed "w2" 2 DEFAULT_OUTBOX_CLAIM_LEASE
    (at_ms 400000) (at_ms 400000) (at_ms 400000) in
  snd (ack (snd second) "w1" 9 "memory-0" (at_ms 400001)) = snd second.
Proof.
  intros second.
  destruct (records (ob_table demo_claimed) !! 9) as [s|] eqn:Es; [| vm_compute in Es; discriminate].
  destruct (match fst second with Ok ms => ms | Err _ => [] end) as [|m ms] eqn:Em;
    [vm_compute in Em; discriminate |].
  assert (outbox_id m = 9) as Eid by (vm_compute in Em; by simplify_eq).
  rewrite <-Eid.
  eapply (reclaim_fences demo_claimed "w2" 2 DEFAULT_OUTBOX_CLAIM_LEASE (at_ms 400000)
    (at_ms 400000) (at_ms 400000) (m :: ms) (snd second) m 9 s "memory-0" "w1" (at_ms 400001) "").
  - exact demo_claimed_inv.
  - vm_compute; congruence.
  - rewrite <-Em. vm_compute; reflexivity.
  - apply list_elem_of_here.
  - exact Es.
  - vm_compute in Es. by simplify_eq.
Defined.

Lemma messages_not_lost_witness :
  exists s, records (ob_table demo_claimed) !! 5 = Some s
    /\ (is_published s = true
        \/ (o_state (s_message s) = Pending
            /\ snd (cancel demo_claimed 5) = snd (cancel demo_claimed 5))).
Proof.
  destruct (records (ob_table demo_claimed) !! 5) as [s|] eqn:Es; [| vm_compute in Es; discriminate].
  exists s. split; [reflexivity |].
  apply (proj2 (messages_not_lost demo_claimed (snd (cancel demo_claimed 5)) 5 s
    demo_claimed_inv Es)).
  - apply os_cancel.
  - vm_compute; reflexivity.
Defined.

(** Published at 1500 ms, removed by a cleanup of one-minute history at 70000 ms. *)
Definition demo_acked := snd (ack demo_claimed "w1" 9 "memory-0" (at_ms 1500)).

Lemma cleanup_published_exact_witness :
  exists ms, clock_unix_ms (at_ms 70000) = Ok ms
    /\ length (candidates (ob_table demo_acked) ms (as_millis (from_secs 60)) 10) = 1%nat.
Proof.
  destruct (cleanup_published_exact demo_acked (from_secs 60) 10 (at_ms 70000) 1
    (snd (cleanup_published demo_acked (from_secs 60) 10 (at_ms 70000)))) as (ms & Hms & _ & Hn & _).
  - apply ack_inv, demo_claimed_inv.
  - vm_compute; reflexivity.
  - exists ms. split; [exact Hms | symmetry; exact Hn].
Defined.

Lemma record_failure_bounded_witness :
  exists s m o', records (ob_table demo_claimed) !! 9 = Some s
    /\ store_record_failure demo_claimed "w1" 9 "memory-0" "broken pipe" = (Ok tt, o')
    /\ records (ob_table o') !! 9 = Some (mkStored (s_identity s) m)
    /\ o_retry_count m = o_retry_count (s_message s) + 1.
Proof.
  destruct (records (ob_table demo_claimed) !! 9) as [s|] eqn:Hs; [| vm_compute in Hs; discriminate].
  destruct (record_failure_bounded demo_claimed "w1" 9 "memory-0" "broken pipe" s)
    as (m & o' & H1 & H2 & H3 & _).
  - exact demo_claimed_inv.
  - exact Hs.
  - vm_compute in Hs. by simplify_eq.
  - reflexivity.
  - vm_compute in Hs. simplify_eq. vm_compute. split; congruence.
  - exists s, m, o'. split; [reflexivity |]. split; [exact H1 |]. split; [exact H2 | exact H3].
Defined.
