(* ===== verification/Inbox.v ===== *)
(** * Inbox and idempotency stores ([memory/inbox.rs], [memory/idempotency.rs])

    Both keep one [ClaimRecord] per key in a bounded table with retention.  The
    inbox adds a lease and a generation to each claim; the idempotency store
    claims without a lease. *)

From S2P Require Import Prelude Utf8 Errors Time Reliability Capacity Retention Claim.

Definition is_completed (r : ClaimRecord) : bool :=
  match claim_state_of r with Completed => true | _ => false end.

(** [now_unix_millis] never fails. *)
Definition clock_ms (clock : SystemTime) : CatgaResult Z := Ok (now_unix_millis clock).

(** ** The part both stores share *)

Section claims.
Context {K : Type} `{MapIter K}.

Abbreviation CTable := (Table K ClaimRecord).

Definition put (t : CTable) (k : K) (r : ClaimRecord) : CTable :=
  set_records t (<[k := r]> (records t)).

(** [complete]: [f] is [complete_for] or [complete] on the record. *)
Definition complete_record (t : CTable) (k : K) (f : ClaimRecord -> bool * ClaimRecord)
    (clock : SystemTime) (missing conflict : string) : CatgaResult unit * CTable :=
  match records t !! k with
  | None => (fail NotFound missing, t)
  | Some r =>
    match f r with
    | (true, r') =>
      (Ok tt, set_index (put t k r')
                (<[k := mkStamp (now_unix_millis clock) (identity r')]> (index t)))
    | (false, r') => (fail Conflict conflict, put t k r')
    end
  end.

Definition fail_record (t : CTable) (k : K) (f : ClaimRecord -> bool * ClaimRecord)
    (missing conflict : string) : CatgaResult unit * CTable :=
  match records t !! k with
  | None => (fail NotFound missing, t)
  | Some r =>
    match f r with
    | (true, r') => (Ok tt, put t k r')
    | (false, r') => (fail Conflict conflict, put t k r')
    end
  end.

Definition record_state (t : CTable) (k : K) : option ProcessingState :=
  claim_state_of <$> records t !! k.

Definition record_result (t : CTable) (k : K) : Payload :=
  records t !! k ≫= claim_result.

(** *** Invariant *)

(** A record at rest: no thread is inside one of its protocols. *)
Record rest_wf (r : ClaimRecord) : Prop := {
  rw_state : cstate r = CLAIMED \/ cstate r = COMPLETED \/ cstate r = FAILED;
  rw_generation : 0 <= generation r <= int_max u64;
  rw_result : is_Some (cresult r) <-> cstate r = COMPLETED
}.

Record claims_inv (slack : Z) (t : CTable) : Prop := {
  ki_table : table_inv identity slack t;
  ki_coherent : coherent identity is_completed t;
  ki_rest : forall k r, records t !! k = Some r -> rest_wf r;
  ki_indexed : forall k r, records t !! k = Some r -> is_completed r = true ->
    is_Some (index t !! k)
}.

Lemma is_completed_spec r : rest_wf r -> is_completed r = true <-> cstate r = COMPLETED.
Proof.
  intros [Hst _ _]. unfold is_completed, claim_state_of.
  destruct (cstate r); split; intros; done || destruct Hst as [|[|]]; done.
Qed.

Lemma claims_inv_new lim : 0 <= lim -> claims_inv 0 (table_new (capacity_fixed lim)).
Proof.
  intros. split; [by apply table_inv_new | ..].
  - intros k s. simpl. by rewrite lookup_empty.
  - intros k r. simpl. by rewrite lookup_empty.
  - intros k r. simpl. by rewrite lookup_empty.
Qed.

Lemma claims_inv_synced slack slack' t t' :
  claims_inv slack t -> table_inv identity slack' t' -> synced t t' -> claims_inv slack' t'.
Proof.
  intros [I1 I2 I3 I4] Ht Hs.
  assert (forall k r, records t' !! k = Some r -> records t !! k = Some r) as Hrec.
  { intros k r Hk. destruct (Hs k) as [[E _]|[E _]]; congruence. }
  split; eauto using synced_coherent.
  intros k r Hk Hc. destruct (Hs k) as [[E1 E2]|[E1 E2]]; [| congruence].
  rewrite E2. rewrite E1 in Hk. eauto.
Qed.

(** Replacing a record that is not completed by another that is not. *)
Lemma claims_inv_put slack t k r r' :
  claims_inv slack t -> records t !! k = Some r -> is_completed r = false ->
  rest_wf r' -> is_completed r' = false -> identity r' = identity r ->
  claims_inv slack (put t k r').
Proof.
  intros [I1 I2 I3 I4] Hk Hc Hw Hc' Hid. split; simpl.
  - destruct I1 as [Hu Hl Hq Hi Hun Hx]. split; simpl; eauto.
    + rewrite map_size_insert_Some; [done |]. by rewrite Hk.
    + intros j x. rewrite lookup_insert_Some. intros [[<- <-]|[_ Hx']]; [| eauto].
      rewrite Hid. eauto.
    + intros j j' x x'. rewrite !lookup_insert_Some.
      intros [[<- <-]|[_ Hj]] [[<- <-]|[_ Hj']] Heq; rewrite ?Hid in *; eauto.
      all: symmetry; eauto.
  - intros j s Hj. destruct (I2 _ _ Hj) as (x & Hx & Hxi & Hxc). exists x. simpl.
    rewrite lookup_insert_ne; [done |]. intros <-. congruence.
  - intros j x. rewrite lookup_insert_Some. intros [[<- <-]|[_ ?]]; eauto.
  - intros j x. rewrite lookup_insert_Some. intros [[<- <-]|[_ ?]]; [congruence | eauto].
Qed.

(** Writing back the record that is there. *)
Lemma put_id (t : CTable) k r : records t !! k = Some r -> put t k r = t.
Proof. intros Hk. unfold put, set_records. rewrite insert_id by done. by destruct t. Qed.

(** Completing a record and stamping it. *)
Lemma claims_inv_complete slack t k r v at_ :
  claims_inv slack t -> records t !! k = Some r -> cstate r = CLAIMED ->
  let r' := mkClaim (identity r) COMPLETED (expires_at_millis r) (generation r) (Some v) in
  claims_inv slack (set_index (put t k r') (<[k := mkStamp at_ (identity r)]> (index t))).
Proof.
  intros [I1 I2 I3 I4] Hk Hst r'. pose proof (I3 _ _ Hk) as [_ Hg _].
  assert (rest_wf r') as Hw by (split; simpl; [by auto | done | by split]).
  split; simpl.
  - destruct I1 as [Hu Hl Hq Hi Hun Hx]. split; simpl; eauto.
    + rewrite map_size_insert_Some; [done |]. by rewrite Hk.
    + intros j x. rewrite lookup_insert_Some. intros [[<- <-]|[_ Hx']]; [exact (Hi _ _ Hk) | eauto].
    + intros j j' x x'. rewrite !lookup_insert_Some.
      intros [[<- <-]|[_ Hj]] [[<- <-]|[_ Hj']] Heq;
        change (identity r') with (identity r) in *; eauto.
    + intros j s. rewrite lookup_insert_Some. intros [[<- <-]|[_ ?]]; [| eauto].
      simpl. specialize (Hi _ _ Hk). lia.
  - intros j s. simpl. rewrite lookup_insert_Some. intros [[<- <-]|[Hne Hj]].
    + exists r'. by rewrite lookup_insert_eq.
    + rewrite lookup_insert_ne by done. by apply I2.
  - intros j x. rewrite lookup_insert_Some. intros [[<- <-]|[_ ?]]; eauto.
  - intros j x. rewrite lookup_insert_Some. intros [[<- <-]|[Hne Hj]] Hc.
    + by rewrite lookup_insert_eq.
    + rewrite lookup_insert_ne by done. eauto.
Qed.

(** A fresh record for a key that has none. *)
Lemma claims_inv_insert t t' k r :
  claims_inv 1 t -> records t !! k = None -> table_inv identity 0 t' ->
  records t' = <[k := r]> (records t) -> index t' = index t -> rest_wf r ->
  is_completed r = false -> claims_inv 0 t'.
Proof.
  intros [I1 I2 I3 I4] Hk Ht Hr Hi Hw Hc. split; [done |..].
  - intros j s. rewrite Hi, Hr. intros Hj. destruct (I2 _ _ Hj) as (x & Hx & ?).
    exists x. rewrite lookup_insert_ne; [done |]. intros <-. congruence.
  - intros j x. rewrite Hr, lookup_insert_Some. intros [[<- <-]|[_ ?]]; eauto.
  - intros j x. rewrite Hr, Hi, lookup_insert_Some. intros [[<- <-]|[_ ?]]; [congruence | eauto].
Qed.

Lemma finish_complete_rest r v :
  rest_wf r -> cstate r = CLAIMED ->
  finish_complete r v
  = (true, mkClaim (identity r) COMPLETED (expires_at_millis r) (generation r) (Some v)).
Proof.
  intros [_ _ Hr] Hst. unfold finish_complete, set_result, set_state. simpl.
  destruct (cresult r); [| done]. rewrite Hst in Hr. destruct Hr as [Hr _].
  discriminate Hr; by eexists.
Qed.

Lemma claimed_record_not_completed r : cstate r = CLAIMED -> is_completed r = false.
Proof. unfold is_completed, claim_state_of. by intros ->. Qed.

(** Whichever completion a store uses, it completes a claimed record or changes nothing. *)
Lemma complete_record_inv slack t k f clock m1 m2 v :
  claims_inv slack t ->
  (forall r, rest_wf r -> f r = (false, r) \/ (cstate r = CLAIMED /\ f r = finish_complete r v)) ->
  claims_inv slack (snd (complete_record t k f clock m1 m2)).
Proof.
  intros Ht Hf. unfold complete_record. destruct (records t !! k) as [r|] eqn:Hk; [| done].
  pose proof (ki_rest _ _ Ht _ _ Hk) as Hw. destruct (Hf r Hw) as [->|[Hst ->]].
  - cbn. by rewrite put_id.
  - rewrite finish_complete_rest by done. cbn. by apply claims_inv_complete.
Qed.

Lemma fail_record_inv slack t k f m1 m2 :
  claims_inv slack t ->
  (forall r, rest_wf r -> f r = (false, r)
     \/ (cstate r = CLAIMED /\ f r = (true, set_state r FAILED))) ->
  claims_inv slack (snd (fail_record t k f m1 m2)).
Proof.
  intros Ht Hf. unfold fail_record. destruct (records t !! k) as [r|] eqn:Hk; [| done].
  pose proof (ki_rest _ _ Ht _ _ Hk) as Hw. destruct (Hf r Hw) as [->|[Hst ->]]; cbn.
  - by rewrite put_id.
  - apply (claims_inv_put slack t k r); auto using claimed_record_not_completed.
    destruct Hw as [_ Hg Hr]. split; simpl; auto. rewrite Hst in Hr.
    split; [intros Hs; by apply Hr in Hs | done].
Qed.

Lemma table_inv_give_back t :
  table_inv identity 1 t -> table_inv (K := K) identity 0 (set_capacity t (release (capacity t))).
Proof.
  intros [Hu Hl Hq Hi Hun Hx]. rewrite release_pos by lia. split; simpl; eauto; lia.
Qed.

Lemma cleanup_claims_inv t retention lim now msg :
  claims_inv 0 t -> claims_inv 0 (snd (cleanup identity is_completed t retention lim now msg)).
Proof.
  intros Ht.
  pose proof (cleanup_spec identity is_completed 0 t retention lim now msg ltac:(done)
    (ki_table _ _ Ht)) as Hc.
  pose proof (proj1 (cleanup_synced identity is_completed t retention lim now msg
    (ki_coherent _ _ Ht))) as Hs.
  destruct (cleanup _ _ _ _ _ _ _) as [[n|e] t']; cbn [fst snd] in *.
  - destruct Hc as (_ & Ht' & _). by eapply claims_inv_synced.
  - by subst t'.
Qed.
End claims.

(** ** [MemoryInbox] *)

Section inbox.
Context `{!MapIter Z}.

Record MemoryInbox := mkInbox { in_table : Table Z ClaimRecord; in_retention : Duration }.

Definition set_inbox (i : MemoryInbox) (t : Table Z ClaimRecord) : MemoryInbox :=
  mkInbox t (in_retention i).

Definition inbox_with_retention_and_capacity (retention : Duration) (cap : Z)
    : CatgaResult MemoryInbox :=
  let? _ := validate_completed_retention retention in
  let? c := capacity_new cap in
  Ok (mkInbox (table_new c) retention).

Definition inbox_retention_error : string :=
  "inbox retention exceeds the supported millisecond range".

Definition inbox_cleanup_completed (i : MemoryInbox) (retention : Duration) (limit : nat)
    (clock : SystemTime) : CatgaResult nat * MemoryInbox :=
  let '(r, t) := cleanup identity is_completed (in_table i) retention limit (clock_ms clock)
                   inbox_retention_error in
  (r, set_inbox i t).

(** [record.try_claim_generation_until(..).and_then(|g| InboxClaim::new(id, g))] *)
Definition inbox_claim_record (t : Table Z ClaimRecord) (id : Z) (r : ClaimRecord)
    (expires now : Z) : CatgaResult (option InboxClaim) * Table Z ClaimRecord :=
  let '(g, r') := try_claim_generation_until r expires now in
  (Ok (g ≫= InboxClaim_new id), put t id r').

(** [clock1] is read for the deadline, [clock2] for [now], [clock3] by a cleanup. *)
Definition inbox_try_claim_for (i : MemoryInbox) (message_id : Z) (lease : Duration)
    (clock1 clock2 clock3 : SystemTime) : CatgaResult (option InboxClaim) * MemoryInbox :=
  match inbox_claim_expires_at lease clock1 with
  | Err e => (Err e, i)
  | Ok expires_at =>
    let now := now_unix_millis clock2 in
    match records (in_table i) !! message_id with
    | Some r =>
      let '(c, t) := inbox_claim_record (in_table i) message_id r expires_at now in
      (c, set_inbox i t)
    | None =>
      match admit_record identity is_completed (in_table i) (in_retention i) (clock_ms clock3)
              inbox_retention_error "memory inbox record capacity is exhausted" with
      | (Err e, t) => (Err e, set_inbox i t)
      | (Ok _, t) =>
        match records t !! message_id with
        | Some r =>
          let '(c, t) := inbox_claim_record (set_capacity t (release (capacity t))) message_id r
                           expires_at now in
          (c, set_inbox i t)
        | None =>
          let claim identity := try_claim_generation_until (claimed identity) expires_at now in
          let '(inserted, t') := insert_reserved t message_id (fun identity => snd (claim identity)) in
          (match inserted with
           | Ok _ => Ok (fst (claim (record_sequence t)) ≫= InboxClaim_new message_id)
           | Err e => Err e
           end, set_inbox i t')
        end
      end
    end
  end.

Definition inbox_try_claim (i : MemoryInbox) (message_id : Z) (clock1 clock2 clock3 : SystemTime) :=
  inbox_try_claim_for i message_id DEFAULT_INBOX_CLAIM_LEASE clock1 clock2 clock3.

Definition inbox_missing : string := "inbox message is not claimed".
Definition inbox_conflict : string := "inbox message is not currently claimed".

Definition inbox_complete (i : MemoryInbox) (c : InboxClaim) (result : Payload)
    (clock : SystemTime) : CatgaResult unit * MemoryInbox :=
  let '(r, t) := complete_record (in_table i) (claim_message_id c)
                   (fun r => complete_for r (claim_generation c) result) clock
                   inbox_missing inbox_conflict in
  (r, set_inbox i t).

Definition inbox_fail (i : MemoryInbox) (c : InboxClaim) : CatgaResult unit * MemoryInbox :=
  let '(r, t) := fail_record (in_table i) (claim_message_id c)
                   (fun r => fail_for r (claim_generation c)) inbox_missing inbox_conflict in
  (r, set_inbox i t).

Definition inbox_state (i : MemoryInbox) (id : Z) : CatgaResult (option ProcessingState) :=
  Ok (record_state (in_table i) id).
Definition inbox_result (i : MemoryInbox) (id : Z) : CatgaResult Payload :=
  Ok (record_result (in_table i) id).
End inbox.

(** ** [MemoryIdempotency] *)

Section idempotency.
Context `{!MapIter string}.

Record MemoryIdempotency := mkIdem { id_table : Table string ClaimRecord; id_retention : Duration }.

Definition set_idem (i : MemoryIdempotency) (t : Table string ClaimRecord) : MemoryIdempotency :=
  mkIdem t (id_retention i).

Definition idem_with_retention_and_capacity (retention : Duration) (cap : Z)
    : CatgaResult MemoryIdempotency :=
  let? _ := validate_completed_retention retention in
  let? c := capacity_new cap in
  Ok (mkIdem (table_new c) retention).

Definition idem_retention_error : string :=
  "idempotency retention exceeds the supported millisecond range".

Definition idem_cleanup_completed (i : MemoryIdempotency) (limit : nat) (clock : SystemTime)
    : CatgaResult nat * MemoryIdempotency :=
  let '(r, t) := cleanup identity is_completed (id_table i) (id_retention i) limit
                   (clock_ms clock) idem_retention_error in
  (r, set_idem i t).

Definition idem_claim_record (t : Table string ClaimRecord) (key : string) (r : ClaimRecord)
    : CatgaResult bool * Table string ClaimRecord :=
  let '(ok, r') := try_claim r in (Ok ok, put t key r').

Definition idem_try_claim (i : MemoryIdempotency) (key : string) (clock : SystemTime)
    : CatgaResult bool * MemoryIdempotency :=
  match records (id_table i) !! key with
  | Some r =>
    let '(ok, t) := idem_claim_record (id_table i) key r in (ok, set_idem i t)
  | None =>
    match admit_record identity is_completed (id_table i) (id_retention i) (clock_ms clock)
            idem_retention_error "memory idempotency record capacity is exhausted" with
    | (Err e, t) => (Err e, set_idem i t)
    | (Ok _, t) =>
      match records t !! key with
      | Some r =>
        let '(ok, t) := idem_claim_record (set_capacity t (release (capacity t))) key r in
        (ok, set_idem i t)
      | None =>
        let '(inserted, t') := insert_reserved t key claimed in
        (match inserted with Ok _ => Ok true | Err e => Err e end, set_idem i t')
      end
    end
  end.

Definition idem_missing : string := "idempotency key is not claimed".
Definition idem_conflict : string := "idempotency key is not currently claimed".

Definition idem_complete (i : MemoryIdempotency) (key : string) (result : Payload)
    (clock : SystemTime) : CatgaResult unit * MemoryIdempotency :=
  let '(r, t) := complete_record (id_table i) key (fun r => complete r result) clock
                   idem_missing idem_conflict in
  (r, set_idem i t).

Definition idem_fail (i : MemoryIdempotency) (key : string) : CatgaResult unit * MemoryIdempotency :=
  let '(r, t) := fail_record (id_table i) key claim_fail idem_missing idem_conflict in
  (r, set_idem i t).

Definition idem_state (i : MemoryIdempotency) (key : string) : CatgaResult (option ProcessingState) :=
  Ok (record_state (id_table i) key).
Definition idem_result (i : MemoryIdempotency) (key : string) : CatgaResult Payload :=
  Ok (record_result (id_table i) key).
End idempotency.

(** ** Lemmas of the inbox *)

Section inbox_lemmas.
Context `{!MapIter Z}.
Implicit Types i : MemoryInbox.

Abbreviation rec_of i := (records (in_table i)).

Lemma complete_for_cases r g v :
  rest_wf r -> complete_for r g v = (false, r)
    \/ (cstate r = CLAIMED /\ complete_for r g v = finish_complete r v).
Proof.
  intros Hw. unfold complete_for. destruct (generation r =? g); [| by left].
  destruct (cstate r) eqn:E; simpl; auto.
Qed.

Lemma fail_for_cases r g :
  rest_wf r -> fail_for r g = (false, r)
    \/ (cstate r = CLAIMED /\ fail_for r g = (true, set_state r FAILED)).
Proof.
  intros Hw. unfold fail_for, claim_fail. destruct (generation r =? g); [| by left].
  destruct (cstate r) eqn:E; simpl; auto.
Qed.

(** A generation claim on a record at rest: denied without a trace, granted with
    the next generation, or (generation space exhausted) parked as failed. *)
Lemma try_claim_generation_rest r e now :
  rest_wf r ->
  (try_claim_generation_until r e now = (None, r)
   /\ (cstate r = COMPLETED \/ (cstate r = CLAIMED /\ now < expires_at_millis r)))
  \/ (cstate r <> COMPLETED /\ (cstate r = CLAIMED -> expires_at_millis r <= now)
      /\ ((generation r = int_max u64
           /\ try_claim_generation_until r e now = (None, set_state r FAILED))
          \/ (generation r < int_max u64
              /\ try_claim_generation_until r e now
                 = (Some (generation r + 1),
                    mkClaim (identity r) CLAIMED e (generation r + 1) (cresult r))))).
Proof.
  intros [Hst Hg Hr]. unfold try_claim_generation_until.
  destruct (reclaimable_state (cstate r) || _) eqn:Er; simpl.
  - right. split; [intros E; by rewrite E in Er |]. split.
    { intros E. rewrite E in Er. simpl in Er. by apply Z.leb_le. }
    destruct (checked u64 (generation r + 1)) as [g|] eqn:Ec.
    + apply checked_Some in Ec as [-> ?]. right. split; [lia | done].
    + apply checked_None in Ec. left. split; [int_bounds; lia |].
      unfold set_state. simpl. done.
  - left. split; [done |]. destruct Hst as [E|[E|E]]; rewrite E in Er; simpl in Er.
    + right. split; [done |]. by apply Z.leb_gt.
    + by left.
    + done.
Qed.

Lemma rest_wf_parked r :
  rest_wf r -> cstate r <> COMPLETED -> rest_wf (set_state r FAILED).
Proof.
  intros [_ Hg Hr] Hne. split; simpl; auto. split; [intros Hs; by apply Hr in Hs | done].
Qed.

Lemma rest_wf_granted r e :
  rest_wf r -> cstate r <> COMPLETED -> generation r < int_max u64 ->
  rest_wf (mkClaim (identity r) CLAIMED e (generation r + 1) (cresult r)).
Proof.
  intros [_ Hg Hr] Hne Hlt. split; simpl; auto; [lia |].
  split; [intros Hs; by apply Hr in Hs | done].
Qed.

Lemma rest_wf_claimed id : rest_wf (claimed id).
Proof. split; simpl; [by auto | by int_bounds |]. split; [by intros [? ?] | done]. Qed.

Lemma not_completed r : rest_wf r -> cstate r <> COMPLETED -> is_completed r = false.
Proof. intros Hw Hne. apply not_true_iff_false. by rewrite is_completed_spec. Qed.

Lemma inbox_claim_record_inv slack t id r e now :
  claims_inv slack t -> records t !! id = Some r ->
  claims_inv slack (snd (inbox_claim_record t id r e now)).
Proof.
  intros Ht Hid. pose proof (ki_rest _ _ Ht _ _ Hid) as Hw. unfold inbox_claim_record.
  destruct (try_claim_generation_rest r e now Hw) as [[-> _]|(Hne & _ & [[_ ->]|[Hlt ->]])]; cbn.
  - by rewrite put_id.
  - apply (claims_inv_put slack t id r); auto using rest_wf_parked, not_completed.
  - apply (claims_inv_put slack t id r); auto using rest_wf_granted, not_completed.
Qed.

Lemma inbox_try_claim_for_inv i id lease c1 c2 c3 :
  claims_inv 0 (in_table i) -> claims_inv 0 (in_table (snd (inbox_try_claim_for i id lease c1 c2 c3))).
Proof.
  intros Hi. unfold inbox_try_claim_for.
  destruct (inbox_claim_expires_at lease c1) as [e|]; [| done].
  destruct (rec_of i !! id) as [r|] eqn:Hid.
  { pose proof (inbox_claim_record_inv 0 (in_table i) id r e (now_unix_millis c2) Hi Hid) as Hr.
    by destruct (inbox_claim_record _ _ _ _ _). }
  pose proof (admit_spec identity is_completed 0 (in_table i) (in_retention i) (clock_ms c3)
    inbox_retention_error "memory inbox record capacity is exhausted" ltac:(done) (ki_table _ _ Hi))
    as Ha.
  pose proof (admit_synced identity is_completed (in_table i) (in_retention i) (clock_ms c3)
    inbox_retention_error "memory inbox record capacity is exhausted" (ki_coherent _ _ Hi)) as Hs.
  destruct (admit_record _ _ _ _ _ _ _) as [[[]|err] t]; cbn [snd] in Hs.
  2: { destruct Ha as [Ht _]. cbn. by eapply claims_inv_synced. }
  destruct Ha as (Ht & Hsw & _). change (0 + 1) with 1 in Ht.
  destruct (records t !! id) as [r|] eqn:Hr.
  { exfalso. pose proof (sw_records _ _ _ _ _ Hsw _ _ Hr). congruence. }
  assert (claims_inv 1 t) as Ht1 by by eapply claims_inv_synced.
  set (mk := fun n => snd (try_claim_generation_until (claimed n) e (now_unix_millis c2))).
  assert (forall n, identity (mk n) = n /\ rest_wf (mk n) /\ is_completed (mk n) = false) as Hmk.
  { intros n. subst mk. cbn beta.
    destruct (try_claim_generation_rest (claimed n) e (now_unix_millis c2) (rest_wf_claimed n))
      as [[-> _]|(Hne & _ & [[Hg _]|[Hlt ->]])].
    - split; [done |]. split; [apply rest_wf_claimed | done].
    - discriminate Hg.
    - split; [done |]. split; [by apply rest_wf_granted; [apply rest_wf_claimed | ..] | done]. }
  pose proof (insert_reserved_spec identity t id mk Ht Hr (fun n => proj1 (Hmk n))) as Hins.
  destruct (insert_reserved t id _) as [[[]|err] t'] eqn:Ei; cbn.
  - destruct Hins as (Ht' & Hrec & Hidx).
    eapply (claims_inv_insert t t' id (mk (record_sequence t))); try done; by apply Hmk.
  - destruct Hins as (Ht' & Hrec & Hidx & _). eapply (claims_inv_synced 1 0 t t'); [done | done |].
    intros k. left. by rewrite Hrec, Hidx.
Qed.

(** ** Histories of an inbox *)

Inductive istep : MemoryInbox -> MemoryInbox -> Prop :=
| is_claim i id lease c1 c2 c3 : istep i (snd (inbox_try_claim_for i id lease c1 c2 c3))
| is_complete i c v clock : istep i (snd (inbox_complete i c v clock))
| is_fail i c : istep i (snd (inbox_fail i c))
| is_cleanup i retention lim clock : istep i (snd (inbox_cleanup_completed i retention lim clock)).

Lemma istep_inv i i' : claims_inv 0 (in_table i) -> istep i i' -> claims_inv 0 (in_table i').
Proof.
  intros Hi Hs. destruct Hs as [i id lease c1 c2 c3|i c v clock|i c|i retention lim clock].
  - by apply inbox_try_claim_for_inv.
  - pose proof (complete_record_inv 0 (in_table i) (claim_message_id c)
      (fun r => complete_for r (claim_generation c) v) clock inbox_missing inbox_conflict v Hi
      (fun r => complete_for_cases r (claim_generation c) v)) as Hc.
    unfold inbox_complete. by destruct (complete_record _ _ _ _ _ _).
  - pose proof (fail_record_inv 0 (in_table i) (claim_message_id c)
      (fun r => fail_for r (claim_generation c)) inbox_missing inbox_conflict Hi
      (fun r => fail_for_cases r (claim_generation c))) as Hc.
    unfold inbox_fail. by destruct (fail_record _ _ _ _ _).
  - pose proof (cleanup_claims_inv (in_table i) retention lim (clock_ms clock)
      inbox_retention_error Hi) as Hc.
    unfold inbox_cleanup_completed. by destruct (cleanup _ _ _ _ _ _ _).
Qed.

Lemma istep_inv_rtc i i' :
  claims_inv 0 (in_table i) -> rtc istep i i' -> claims_inv 0 (in_table i').
Proof. intros Hi Hr. revert Hi. induction Hr; eauto using istep_inv. Qed.

(** Where a record of the next state comes from: it was there, and unchanged if
    it was completed, or it is new. *)
Definition descends i i' : Prop :=
  record_sequence (in_table i) <= record_sequence (in_table i')
  /\ forall id r', rec_of i' !! id = Some r' ->
       (exists r, rec_of i !! id = Some r /\ identity r = identity r'
          /\ (is_completed r = true -> r' = r))
       \/ identity r' = record_sequence (in_table i).

Lemma descends_same i t :
  record_sequence t = record_sequence (in_table i) ->
  (forall id r', records t !! id = Some r' -> rec_of i !! id = Some r') ->
  descends i (set_inbox i t).
Proof. intros Hq Hr. split; simpl; [lia |]. intros id r' H'. left. exists r'. eauto. Qed.

Lemma descends_put i k r r' :
  rec_of i !! k = Some r -> identity r' = identity r -> (is_completed r = true -> r' = r) ->
  descends i (set_inbox i (put (in_table i) k r')).
Proof.
  intros Hk Hid Hc. split; simpl; [lia |]. intros id x. rewrite lookup_insert_Some.
  intros [[<- <-]|[_ Hx]]; left; eauto.
Qed.

Lemma completed_state r : is_completed r = true -> cstate r = COMPLETED.
Proof. unfold is_completed, claim_state_of. by destruct (cstate r). Qed.

Lemma istep_descends i i' : claims_inv 0 (in_table i) -> istep i i' -> descends i i'.
Proof.
  intros Hi Hs. destruct Hs as [i id lease c1 c2 c3|i c v clock|i c|i retention lim clock].
  - unfold inbox_try_claim_for.
    assert (descends i i) as Hrefl by (destruct i; by apply descends_same).
    destruct (inbox_claim_expires_at lease c1) as [e|]; [| done].
    destruct (rec_of i !! id) as [r|] eqn:Hid.
    { pose proof (ki_rest _ _ Hi _ _ Hid) as Hw. unfold inbox_claim_record.
      destruct (try_claim_generation_rest r e (now_unix_millis c2) Hw)
        as [[-> _]|(Hne & _ & [[_ ->]|[Hlt ->]])]; cbn;
        (eapply descends_put; [done | done | intros Hc%completed_state; done]). }
    pose proof (admit_spec identity is_completed 0 (in_table i) (in_retention i) (clock_ms c3)
      inbox_retention_error "memory inbox record capacity is exhausted" ltac:(done)
      (ki_table _ _ Hi)) as Ha.
    destruct (admit_record _ _ _ _ _ _ _) as [[[]|err] t].
    2: { destruct Ha as [_ Hsw]. cbn. apply descends_same; [apply Hsw | apply Hsw]. }
    destruct Ha as (Ht & Hsw & _).
    destruct (records t !! id) as [r|] eqn:Hr.
    { exfalso. pose proof (sw_records _ _ _ _ _ Hsw _ _ Hr). congruence. }
    unfold insert_reserved. pose proof (sequence_next_spec _ (ti_seq _ _ _ Ht)) as Hn.
    destruct (sequence_next (record_sequence t)) as [[n|err] q]; cbn.
    + destruct Hn as (-> & -> & _). rewrite (sw_seq _ _ _ _ _ Hsw).
      split; cbn; [lia |]. intros k x. rewrite lookup_insert_Some. intros [[<- <-]|[_ Hx]].
      * right. destruct (try_claim_generation_rest (claimed (record_sequence (in_table i))) e
          (now_unix_millis c2) (rest_wf_claimed _)) as [[-> _]|(_ & _ & [[_ ->]|[_ ->]])]; done.
      * left. exists x. split; [by apply (sw_records _ _ _ _ _ Hsw) | done].
    + destruct Hn as (-> & _). apply descends_same; [apply Hsw | apply Hsw].
  - unfold inbox_complete, complete_record.
    destruct (rec_of i !! claim_message_id c) as [r|] eqn:Hid;
      [| destruct i; by apply descends_same].
    pose proof (ki_rest _ _ Hi _ _ Hid) as Hw.
    destruct (complete_for_cases r (claim_generation c) v Hw) as [->|[Hst ->]]; cbn.
    + by eapply descends_put.
    + rewrite finish_complete_rest by done. cbn.
      pose proof (descends_put i (claim_message_id c) r
        (mkClaim (identity r) COMPLETED (expires_at_millis r) (generation r) (Some v)) Hid eq_refl)
        as Hd.
      apply Hd. intros Hc%completed_state. congruence.
  - unfold inbox_fail, fail_record.
    destruct (rec_of i !! claim_message_id c) as [r|] eqn:Hid;
      [| destruct i; by apply descends_same].
    pose proof (ki_rest _ _ Hi _ _ Hid) as Hw.
    destruct (fail_for_cases r (claim_generation c) Hw) as [->|[Hst ->]]; cbn.
    + by eapply descends_put.
    + eapply descends_put; [done | done |]. intros Hc%completed_state. congruence.
  - unfold inbox_cleanup_completed.
    pose proof (cleanup_spec identity is_completed 0 (in_table i) retention lim (clock_ms clock)
      inbox_retention_error ltac:(done) (ki_table _ _ Hi)) as Hc.
    destruct (cleanup _ _ _ _ _ _ _) as [[n|e] t]; cbn.
    + destruct Hc as (Hsw & _). apply descends_same; apply Hsw.
    + subst t. by apply descends_same.
Qed.

Lemma completed_descends i i' id r :
  claims_inv 0 (in_table i) -> rtc istep i i' ->
  rec_of i !! id = Some r -> is_completed r = true ->
  forall r', rec_of i' !! id = Some r' -> r' = r \/ identity r < identity r'.
Proof.
  intros Hi Hr Hid Hc.
  assert (identity r < record_sequence (in_table i)) as Hlt
    by by eapply (ti_ids _ _ _ (ki_table _ _ Hi)).
  assert (forall r', rec_of i !! id = Some r' -> r' = r \/ identity r < identity r') as H0.
  { intros r' H'. left. congruence. }
  clear Hid. revert Hi Hlt H0. induction Hr as [|i1 i2 i3 Hs _ IH]; intros Hi Hlt H0; [done |].
  destruct (istep_descends _ _ Hi Hs) as [Hseq Hd].
  apply IH; [by eapply istep_inv | lia |].
  intros r' H'. destruct (Hd id r' H') as [(r0 & Hr0 & Hids & Hcomp)|Hnew]; [| right; lia].
  destruct (H0 _ Hr0) as [->|Hgt]; [left; by apply Hcomp | right; lia].
Qed.
End inbox_lemmas.

(** ** Lemmas of the idempotency store *)

Section idem_lemmas.
Context `{!MapIter string}.
Implicit Types i : MemoryIdempotency.

Lemma complete_cases r v :
  rest_wf r -> complete r v = (false, r)
    \/ (cstate r = CLAIMED /\ complete r v = finish_complete r v).
Proof. intros Hw. unfold complete. destruct (cstate r) eqn:E; simpl; auto. Qed.

Lemma claim_fail_cases r :
  rest_wf r -> claim_fail r = (false, r)
    \/ (cstate r = CLAIMED /\ claim_fail r = (true, set_state r FAILED)).
Proof. intros Hw. unfold claim_fail. destruct (cstate r) eqn:E; simpl; auto. Qed.

(** A lease-free claim takes only failed records. *)
Lemma try_claim_rest r :
  rest_wf r ->
  (cstate r <> FAILED /\ try_claim r = (false, r))
  \/ (cstate r = FAILED
      /\ try_claim r = (true, mkClaim (identity r) CLAIMED 0 (generation r) (cresult r))).
Proof.
  intros [Hst _ _]. unfold try_claim, try_claim_inner.
  destruct Hst as [E|[E|E]]; rewrite E; simpl; auto.
Qed.

Lemma idem_claim_record_inv slack t key r :
  claims_inv slack t -> records t !! key = Some r ->
  claims_inv slack (snd (idem_claim_record t key r)).
Proof.
  intros Ht Hk. pose proof (ki_rest _ _ Ht _ _ Hk) as Hw. unfold idem_claim_record.
  destruct (try_claim_rest r Hw) as [[_ ->]|[Hst ->]]; cbn; [by rewrite put_id |].
  apply (claims_inv_put slack t key r); auto.
  - apply not_completed; [done | congruence].
  - destruct Hw as [_ Hg Hr]. split; simpl; auto. rewrite Hst in Hr.
    split; [intros Hs; by apply Hr in Hs | done].
Qed.

Lemma idem_try_claim_inv i key clock :
  claims_inv 0 (id_table i) -> claims_inv 0 (id_table (snd (idem_try_claim i key clock))).
Proof.
  intros Hi. unfold idem_try_claim. destruct (records (id_table i) !! key) as [r|] eqn:Hk.
  { pose proof (idem_claim_record_inv 0 (id_table i) key r Hi Hk) as Hr.
    by destruct (idem_claim_record _ _ _). }
  pose proof (admit_spec identity is_completed 0 (id_table i) (id_retention i) (clock_ms clock)
    idem_retention_error "memory idempotency record capacity is exhausted" ltac:(done)
    (ki_table _ _ Hi)) as Ha.
  pose proof (admit_synced identity is_completed (id_table i) (id_retention i) (clock_ms clock)
    idem_retention_error "memory idempotency record capacity is exhausted" (ki_coherent _ _ Hi)) as Hs.
  destruct (admit_record _ _ _ _ _ _ _) as [[[]|err] t]; cbn [snd] in Hs.
  2: { destruct Ha as [Ht _]. cbn. by eapply claims_inv_synced. }
  destruct Ha as (Ht & Hsw & _). change (0 + 1) with 1 in Ht.
  destruct (records t !! key) as [r|] eqn:Hr.
  { exfalso. pose proof (sw_records _ _ _ _ _ Hsw _ _ Hr). congruence. }
  assert (claims_inv 1 t) as Ht1 by by eapply claims_inv_synced.
  pose proof (insert_reserved_spec identity t key claimed Ht Hr (fun n => eq_refl)) as Hins.
  destruct (insert_reserved t key _) as [[[]|err] t']; cbn.
  - destruct Hins as (Ht' & Hrec & Hidx).
    eapply (claims_inv_insert t t' key (claimed (record_sequence t))); try done.
    apply rest_wf_claimed.
  - destruct Hins as (Ht' & Hrec & Hidx & _). eapply (claims_inv_synced 1 0 t t'); [done | done |].
    intros k. left. by rewrite Hrec, Hidx.
Qed.

Inductive dstep : MemoryIdempotency -> MemoryIdempotency -> Prop :=
| ds_claim i key clock : dstep i (snd (idem_try_claim i key clock))
| ds_complete i key v clock : dstep i (snd (idem_complete i key v clock))
| ds_fail i key : dstep i (snd (idem_fail i key))
| ds_cleanup i lim clock : dstep i (snd (idem_cleanup_completed i lim clock)).

Lemma dstep_inv i i' : claims_inv 0 (id_table i) -> dstep i i' -> claims_inv 0 (id_table i').
Proof.
  intros Hi Hs. destruct Hs as [i key clock|i key v clock|i key|i lim clock].
  - by apply idem_try_claim_inv.
  - pose proof (complete_record_inv 0 (id_table i) key (fun r => complete r v) clock idem_missing
      idem_conflict v Hi (fun r => complete_cases r v)) as Hc.
    unfold idem_complete. by destruct (complete_record _ _ _ _ _ _).
  - pose proof (fail_record_inv 0 (id_table i) key claim_fail idem_missing idem_conflict Hi
      claim_fail_cases) as Hc.
    unfold idem_fail. by destruct (fail_record _ _ _ _ _).
  - pose proof (cleanup_claims_inv (id_table i) (id_retention i) lim (clock_ms clock)
      idem_retention_error Hi) as Hc.
    unfold idem_cleanup_completed. by destruct (cleanup _ _ _ _ _ _ _).
Qed.
End idem_lemmas.

(** ** Properties *)

Section properties.
Context `{!MapIter Z} `{!MapIter string}.

(** In every history of a memory inbox the retained records never exceed the
    capacity, no record is left inside a transition, a result is kept exactly by
    completed records, and the retention index lists exactly the completed ones. *)
Theorem inbox_history retention cap i i' :
  0 <= cap -> inbox_with_retention_and_capacity retention cap = Ok i -> rtc istep i i' ->
  Z.of_nat (size (records (in_table i'))) <= limit (capacity (in_table i'))
  /\ forall id r, records (in_table i') !! id = Some r ->
       (cstate r = CLAIMED \/ cstate r = COMPLETED \/ cstate r = FAILED)
       /\ (is_Some (cresult r) <-> cstate r = COMPLETED)
       /\ (cstate r = COMPLETED <-> is_Some (index (in_table i') !! id)).
Proof.
  intros Hcap Hnew Hr.
  assert (claims_inv 0 (in_table i)) as H0.
  { unfold inbox_with_retention_and_capacity in Hnew. inv_ok Hnew. inv_ok Hk.
    unfold capacity_new in Hr1. destruct (cap =? 0); simplify_eq/=. by apply claims_inv_new. }
  pose proof (istep_inv_rtc _ _ H0 Hr) as Hi. split; [destruct (ki_table _ _ Hi); lia |].
  intros id r Hid. pose proof (ki_rest _ _ Hi _ _ Hid) as Hw. split_and!; try apply Hw.
  rewrite <-is_completed_spec by done. split; [by eapply ki_indexed |].
  intros [st Hst]. destruct (ki_coherent _ _ Hi _ _ Hst) as (x & Hx & _ & ?). congruence.
Qed.

(** An inbox grants a claim on a retained message only when the message
    failed or its lease has run out, with the next generation and the requested
    deadline; a live or completed message is refused and nothing changes. *)
Theorem inbox_claim_exact i id lease c1 c2 c3 r e :
  claims_inv 0 (in_table i) -> records (in_table i) !! id = Some r ->
  inbox_claim_expires_at lease c1 = Ok e -> 0 < generation r < int_max u64 ->
  let now := now_unix_millis c2 in
  if bool_decide (cstate r = FAILED \/ (cstate r = CLAIMED /\ expires_at_millis r <= now))
  then inbox_try_claim_for i id lease c1 c2 c3
       = (Ok (Some (mkInboxClaim id (generation r + 1))),
          set_inbox i (put (in_table i) id
            (mkClaim (identity r) CLAIMED e (generation r + 1) (cresult r))))
  else inbox_try_claim_for i id lease c1 c2 c3 = (Ok None, i).
Proof.
  intros Hi Hid He Hg now. pose proof (ki_rest _ _ Hi _ _ Hid) as Hw.
  unfold inbox_try_claim_for, inbox_claim_record. rewrite He, Hid. fold now.
  destruct (try_claim_generation_rest r e now Hw) as [[-> Hst]|(Hne & Hexp & [[? _]|[Hlt ->]])].
  - rewrite bool_decide_eq_false_2.
    + cbn. rewrite put_id by done. by destruct i.
    + destruct Hst as [Hst|[Hst ?]]; rewrite Hst; intros [?|[? ?]]; done || lia.
  - lia.
  - rewrite bool_decide_eq_true_2.
    + cbn. unfold InboxClaim_new. destruct (Z.eqb_spec (generation r + 1) 0); [lia | done].
    + destruct (rw_state _ Hw) as [Hst|[Hst|Hst]]; rewrite Hst in *; auto. done.
Qed.

(** A completed message is processed once: whatever the store does later,
    the record it completed keeps its state and its cached result for as long as
    it is retained, and while it is there every new claim of the message is
    refused. *)
Theorem inbox_completed_once i i' id r r' :
  claims_inv 0 (in_table i) -> rtc istep i i' ->
  records (in_table i) !! id = Some r -> cstate r = COMPLETED ->
  records (in_table i') !! id = Some r' -> identity r' = identity r ->
  r' = r /\ inbox_result i' id = Ok (claim_result r)
  /\ forall lease c1 c2 c3, is_ok (fst (inbox_try_claim_for i' id lease c1 c2 c3)) = true ->
       inbox_try_claim_for i' id lease c1 c2 c3 = (Ok None, i').
Proof.
  intros Hi Hr Hid Hst Hid' Heq.
  assert (is_completed r = true) as Hc by (unfold is_completed, claim_state_of; by rewrite Hst).
  destruct (completed_descends i i' id r Hi Hr Hid Hc r' Hid') as [->|Hlt]; [| lia].
  split; [done |]. unfold inbox_result, record_result. rewrite Hid'. split; [done |].
  intros lease c1 c2 c3. unfold inbox_try_claim_for, inbox_claim_record. rewrite Hid'.
  destruct (inbox_claim_expires_at lease c1); [| done]. intros _.
  unfold try_claim_generation_until. rewrite Hst. cbn. rewrite put_id by done. by destruct i'.
Qed.

(** A generation fences its predecessor: after a message is reclaimed,
    completing or failing it with the earlier claim is refused with [Conflict]
    and changes nothing, while the new owner's completion succeeds. *)
Theorem inbox_reclaim_fences i id lease c1 c2 c3 r c i' v clock :
  claims_inv 0 (in_table i) -> records (in_table i) !! id = Some r ->
  inbox_try_claim_for i id lease c1 c2 c3 = (Ok (Some c), i') ->
  let old := mkInboxClaim id (generation r) in
  inbox_complete i' old v clock = (fail Conflict inbox_conflict, i')
  /\ inbox_fail i' old = (fail Conflict inbox_conflict, i')
  /\ fst (inbox_complete i' c v clock) = Ok tt.
Proof.
  intros Hi Hid E old. pose proof (ki_rest _ _ Hi _ _ Hid) as Hw.
  unfold inbox_try_claim_for, inbox_claim_record in E. rewrite Hid in E.
  destruct (inbox_claim_expires_at lease c1) as [e|]; [| done].
  destruct (try_claim_generation_rest r e (now_unix_millis c2) Hw)
    as [[E' _]|(Hne & _ & [[_ E']|[Hlt E']])]; rewrite E' in E; simplify_eq/=.
  unfold InboxClaim_new in *. pose proof (rw_generation _ Hw).
  destruct (Z.eqb_spec (generation r + 1) 0); simplify_eq.
  unfold inbox_complete, inbox_fail, complete_record, fail_record. cbn.
  rewrite lookup_insert_eq. unfold complete_for, fail_for. cbn.
  destruct (Z.eqb_spec (generation r + 1) (generation r)); [lia |]. cbn.
  rewrite Z.eqb_refl. cbn. unfold finish_complete, set_result. cbn.
  split_and!.
  - rewrite (put_id (put (in_table i) id _)) by (simpl; by rewrite lookup_insert_eq). done.
  - rewrite (put_id (put (in_table i) id _)) by (simpl; by rewrite lookup_insert_eq). done.
  - destruct (cresult r) eqn:Er; [| done]. exfalso. apply Hne.
    apply (rw_result _ Hw). by rewrite Er.
Qed.

(** In every history of an idempotency store a claimed or completed key is
    refused to every other caller, a failed one is handed out again, and a
    completed key reports its stored result. *)
Theorem idem_claim_exact i i' key r clock :
  claims_inv 0 (id_table i) -> rtc dstep i i' -> records (id_table i') !! key = Some r ->
  match cstate r with
  | FAILED => fst (idem_try_claim i' key clock) = Ok true
              /\ idem_state (snd (idem_try_claim i' key clock)) key = Ok (Some Claimed)
  | _ => idem_try_claim i' key clock = (Ok false, i')
  end
  /\ idem_result i' key = Ok (claim_result r)
  /\ (is_Some (cresult r) <-> cstate r = COMPLETED).
Proof.
  intros Hi Hr Hk.
  assert (claims_inv 0 (id_table i')) as Hi'.
  { clear Hk. revert Hi. induction Hr; eauto using dstep_inv. }
  pose proof (ki_rest _ _ Hi' _ _ Hk) as Hw. unfold idem_result, record_result. rewrite Hk.
  split; [| split; [done | apply Hw]].
  unfold idem_try_claim, idem_claim_record. rewrite Hk.
  destruct (try_claim_rest r Hw) as [[Hne ->]|[Hst ->]]; cbn.
  - destruct (cstate r); done || (rewrite put_id by done; by destruct i').
  - rewrite Hst. split; [done |]. unfold idem_state, record_state. cbn.
    by rewrite lookup_insert_eq.
Qed.
End properties.

(** ** Concrete histories *)

Definition in_ms (ms : Z) : SystemTime := ms * NANOS_PER_MILLI.

(** Claims of one millisecond-stamped instant. *)
Definition claim_at (i : MemoryInbox) (lease : Duration) (ms : Z) :=
  inbox_try_claim_for i 7 lease (in_ms ms) (in_ms ms) (in_ms ms).

Definition inbox0 : MemoryInbox := mkInbox (table_new (capacity_fixed 4)) (from_millis 10).
Definition inbox1 := snd (claim_at inbox0 (from_millis 100) 1000).
Definition inbox2 := snd (claim_at inbox1 (from_millis 100) 1200).
Definition claim1 : InboxClaim := mkInboxClaim 7 1.
Definition claim2 : InboxClaim := mkInboxClaim 7 2.
Definition inbox3 := snd (inbox_complete inbox2 claim2 (Some [1]) (in_ms 1210)).

Lemma inbox_steps : rtc istep inbox0 inbox2 /\ rtc istep inbox2 inbox3.
Proof.
  split.
  - eapply rtc_l; [apply (is_claim inbox0 7 (from_millis 100)) |].
    eapply rtc_l; [apply (is_claim inbox1 7 (from_millis 100)) |]. apply rtc_refl.
  - eapply rtc_l; [apply (is_complete inbox2 claim2 (Some [1])) |]. apply rtc_refl.
Qed.

Lemma inbox0_inv : claims_inv 0 (in_table inbox0).
Proof. by apply claims_inv_new. Qed.

Lemma inbox1_inv : claims_inv 0 (in_table inbox1).
Proof. apply inbox_try_claim_for_inv, inbox0_inv. Qed.

Lemma inbox3_inv : claims_inv 0 (in_table inbox3).
Proof.
  destruct inbox_steps. eapply istep_inv_rtc; [| done]. eapply istep_inv_rtc; [| done].
  apply inbox0_inv.
Qed.

Lemma inbox_history_witness :
  Z.of_nat (size (records (in_table inbox2))) <= 4 /\ size (records (in_table inbox2)) = 1%nat.
Proof.
  split; [| vm_compute; reflexivity].
  exact (proj1 (inbox_history (from_millis 10) 4 inbox0 inbox2 ltac:(lia) eq_refl
    (proj1 inbox_steps))).
Defined.

(** Generation 1 runs until 1100; at 1200 it is over. *)
Lemma inbox_claim_exact_witness :
  fst (claim_at inbox1 (from_millis 100) 1200) = Ok (Some claim2).
Proof.
  destruct (records (in_table inbox1) !! 7) as [r|] eqn:Er; [| vm_compute in Er; discriminate].
  pose proof (inbox_claim_exact inbox1 7 (from_millis 100) (in_ms 1200) (in_ms 1200) (in_ms 1200)
    r 1300 inbox1_inv Er ltac:(vm_compute; reflexivity)) as Hx.
  vm_compute in Er. simplify_eq. specialize (Hx ltac:(vm_compute; split; congruence)). cbv zeta in Hx.
  rewrite bool_decide_eq_true_2 in Hx by (right; split; [reflexivity | vm_compute; congruence]).
  unfold claim_at. rewrite Hx. reflexivity.
Defined.

Lemma inbox_completed_once_witness :
  inbox_result inbox3 7 = Ok (Some [1])
  /\ claim_at inbox3 (from_millis 100) 5000 = (Ok None, inbox3).
Proof.
  destruct (records (in_table inbox3) !! 7) as [r|] eqn:Er; [| vm_compute in Er; discriminate].
  pose proof Er as Er'. vm_compute in Er'. simplify_eq.
  destruct (inbox_completed_once inbox3 inbox3 7 _ _ inbox3_inv (rtc_refl _ _) Er eq_refl Er eq_refl)
    as (_ & Hres & Hcl).
  split; [exact Hres |]. apply Hcl. vm_compute. reflexivity.
Defined.

Lemma inbox_reclaim_fences_witness :
  inbox_complete inbox2 claim1 None (in_ms 1205) = (fail Conflict inbox_conflict, inbox2)
  /\ fst (inbox_complete inbox2 claim2 None (in_ms 1205)) = Ok tt.
Proof.
  destruct (records (in_table inbox1) !! 7) as [r|] eqn:Er; [| vm_compute in Er; discriminate].
  destruct (inbox_reclaim_fences inbox1 7 (from_millis 100) (in_ms 1200) (in_ms 1200) (in_ms 1200)
    r claim2 inbox2 None (in_ms 1205) inbox1_inv Er ltac:(vm_compute; reflexivity)) as (H1 & _ & H3).
  split; [| exact H3]. vm_compute in Er. simplify_eq. exact H1.
Defined.

Definition idem0 : MemoryIdempotency := mkIdem (table_new (capacity_fixed 4)) (from_millis 10).
Definition idem1 := snd (idem_try_claim idem0 "k" 0).

Lemma idem_claim_exact_witness :
  idem_try_claim idem1 "k" 0 = (Ok false, idem1) /\ idem_result idem1 "k" = Ok None.
Proof.
  destruct (records (id_table idem1) !! "k"%string) as [r|] eqn:Er; [| vm_compute in Er; discriminate].
  destruct (idem_claim_exact idem1 idem1 "k" r 0
    (idem_try_claim_inv idem0 "k" 0 (claims_inv_new 4 ltac:(lia))) (rtc_refl _ _) Er)
    as (H1 & H2 & _).
  pose proof Er as Er'. vm_compute in Er'. simplify_eq. split; [exact H1 | exact H2].
Defined.

(** After the reclaiming owner completed generation 2 and retention removed the
    record, a later claim of the same message starts again at generation 1, and
    the delayed owner of the first generation 1 can complete it. *)
Definition inbox4 := snd (inbox_cleanup_completed inbox3 (from_millis 10) 64 (in_ms 2000)).
Definition inbox5 := snd (claim_at inbox4 (from_millis 100) 2001).

(** Generations repeat once retention removes a completed record: there is a
    history in which a message is claimed at generation 1, reclaimed and
    completed at generation 2, cleaned up, and claimed again at generation 1,
    after which the first owner's claim completes the new owner's work. *)
Theorem inbox_generation_reuse :
  exists i, rtc istep inbox0 i
    /\ fst (claim_at inbox0 (from_millis 100) 1000) = Ok (Some claim1)
    /\ fst (claim_at inbox1 (from_millis 100) 1200) = Ok (Some claim2)
    /\ fst (inbox_complete inbox2 claim2 (Some [1]) (in_ms 1210)) = Ok tt
    /\ fst (claim_at inbox4 (from_millis 100) 2001) = Ok (Some claim1)
    /\ fst (inbox_complete i claim1 (Some [9]) (in_ms 2002)) = Ok tt.
Proof.
  exists inbox5. split.
  - destruct inbox_steps as [H1 H2]. etrans; [exact H1 |]. etrans; [exact H2 |].
    eapply rtc_l; [apply (is_cleanup inbox3 (from_millis 10) 64 (in_ms 2000)) |].
    eapply rtc_l; [apply (is_claim inbox4 7 (from_millis 100)) |]. apply rtc_refl.
  - vm_compute. split_and!; reflexivity.
Qed.

(** A lease of one nanosecond is accepted, and the claim it grants can be taken
    over in the same millisecond. *)
Lemma submillisecond_lease_reclaimed :
  let first := claim_at inbox0 1 1000 in
  fst first = Ok (Some claim1) /\ fst (claim_at (snd first) 1 1000) = Ok (Some claim2).
Proof. vm_compute. split; reflexivity. Qed.

(** An expired claim that nobody reclaimed still completes. *)
Lemma expired_claim_completes :
  fst (inbox_complete inbox1 claim1 None (in_ms 999999)) = Ok tt.
Proof. vm_compute. reflexivity. Qed.
