(* ===== verification/EventStore.v ===== *)
(** * Event streams ([event_store.rs], [memory/event_store.rs])

    A stream is a list of stored events; the position of an event is its
    version.  Appends check an optional expected version under the stream's write
    lock; reads return bounded pages with a cursor.  [EventStoreLaws] states what
    the [EventStore] trait promises to its clients, and [MemoryEventStore] is an
    instance of it. *)

From S2P Require Import Prelude Utf8 Errors Time Messages Heap.

Definition MAX_EVENT_STORE_PAGE_SIZE : nat := 1024.

Definition validate_event_store_page_size (max_count : nat) : CatgaResult unit :=
  if (max_count =? 0)%nat || (MAX_EVENT_STORE_PAGE_SIZE <? max_count)%nat
  then fail Validation "event-store page size must be between 1 and MAX_EVENT_STORE_PAGE_SIZE"
  else Ok tt.

Record StoredEvent := mkStoredEvent {
  ev_version : Z;
  ev_envelope : Envelope;
  ev_timestamp : SystemTime
}.

Record EventStream := mkEventStream {
  st_stream_id : string;
  st_version : Z;
  st_events : list StoredEvent
}.

Record VersionInfo := mkVersionInfo {
  vi_version : Z;
  vi_timestamp : SystemTime;
  vi_event_type : string
}.

Record EventPage := mkEventPage { pg_stream : EventStream; pg_next_version : option Z }.

Record VersionHistoryPage := mkVersionHistoryPage {
  vh_entries : list VersionInfo;
  vh_next_version : option Z
}.

Record StreamIdsPage := mkStreamIdsPage {
  si_ids : list string;
  si_next_stream_id : option string
}.

#[global] Instance StoredEvent_eq_dec : EqDecision StoredEvent.
Proof. solve_decision. Defined.

(** ** Versions *)

Definition event_stream_version (event_count : nat) : CatgaResult Z :=
  let? n := ok_or (checked i64 (Z.of_nat event_count))
    (CatgaError_new Internal "event stream version is exhausted") in
  ok_or (checked i64 (n - 1)) (CatgaError_new Internal "event stream version is exhausted").

Definition checked_appended_event_version (current : Z) (event_count : nat) : CatgaResult Z :=
  let? n := ok_or (checked i64 (Z.of_nat event_count))
    (CatgaError_new Internal "event stream version is exhausted") in
  ok_or (checked i64 (current + n)) (CatgaError_new Internal "event stream version is exhausted").

(** [u64::try_from(version.saturating_add(1)).ok()] *)
Definition version_cursor (version : Z) : option Z := checked u64 (saturating i64 (version + 1)).

(** ** One stream

    [clock] is the reading of [SystemTime::now()] and [alloc_ok] whether the
    allocator can serve a request of at most [isize::MAX] bytes. *)

(** [Vec::try_reserve_exact]: a vector of non-zero-sized elements never holds more
    than [isize::MAX] of them. *)
Definition try_reserve_exact (len additional : nat) (alloc_ok : bool) : bool :=
  (Z.of_nat len + Z.of_nat additional <=? int_max i64) && alloc_ok.

Fixpoint push_events (stored : list StoredEvent) (version : Z) (events : list Envelope)
    (timestamp : SystemTime) : CatgaResult unit * list StoredEvent :=
  match events with
  | [] => (Ok tt, stored)
  | envelope :: events =>
    match checked i64 (version + 1) with
    | None => (fail Internal "event stream version is exhausted", stored)
    | Some version =>
      push_events (stored ++ [mkStoredEvent version envelope timestamp]) version events timestamp
    end
  end.

Definition stream_append (stored : list StoredEvent) (events : list Envelope)
    (expected_version : option Z) (clock : SystemTime) (alloc_ok : bool)
    : CatgaResult Z * list StoredEvent :=
  match event_stream_version (length stored) with
  | Err e => (Err e, stored)
  | Ok version =>
    if match expected_version with Some expected => negb (expected =? version) | None => false end
    then (fail Conflict "event stream version conflict", stored)
    else
      match checked_appended_event_version version (length events) with
      | Err e => (Err e, stored)
      | Ok appended_version =>
        if try_reserve_exact (length stored) (length events) alloc_ok then
          match push_events stored version events clock with
          | (Ok _, stored) => (Ok appended_version, stored)
          | (Err e, stored) => (Err e, stored)
          end
        else (fail Internal "event stream allocation exceeds memory range", stored)
      end
  end.

(** ** The store *)

Record MemoryEventStore := mkMemoryEventStore { streams : gmap string (list StoredEvent) }.

Definition set_stream (s : MemoryEventStore) (id : string) (l : list StoredEvent)
    : MemoryEventStore :=
  mkMemoryEventStore (<[id := l]> (streams s)).

Definition page_stream (s : MemoryEventStore) (stream_id : string) (from_version : Z)
    (max_count : nat) : CatgaResult EventStream :=
  match streams s !! stream_id with
  | None => Ok (mkEventStream stream_id (-1) [])
  | Some snapshot =>
    let events :=
      if from_version <=? Z.of_nat (length snapshot)
      then take max_count (drop (Z.to_nat from_version) snapshot) else [] in
    let? version := event_stream_version (length snapshot) in
    Ok (mkEventStream stream_id version events)
  end.

Definition append (s : MemoryEventStore) (stream_id : string) (events : list Envelope)
    (expected_version : option Z) (clock : SystemTime) (alloc_ok : bool)
    : CatgaResult Z * MemoryEventStore :=
  match events with
  | [] =>
    (match streams s !! stream_id with
     | None => Ok (-1)
     | Some stream => event_stream_version (length stream)
     end, s)
  | _ =>
    let stream := default [] (streams s !! stream_id) in
    let '(r, stream) := stream_append stream events expected_version clock alloc_ok in
    (r, set_stream s stream_id stream)
  end.

(** [events.last().and_then(|e| (e.version() < bound).then(..).flatten())] *)
Definition next_after (last_version : option Z) (bound : Z) : option Z :=
  match last_version with
  | Some v => if v <? bound then version_cursor v else None
  | None => None
  end.

Definition read_page (s : MemoryEventStore) (stream_id : string) (from_version : Z)
    (max_count : nat) : CatgaResult EventPage :=
  let? _ := validate_event_store_page_size max_count in
  let? stream := page_stream s stream_id from_version max_count in
  Ok (mkEventPage stream
        (next_after (ev_version <$> last (st_events stream)) (st_version stream))).

Definition version (s : MemoryEventStore) (stream_id : string) : CatgaResult Z :=
  match streams s !! stream_id with
  | None => Ok (-1)
  | Some stream => event_stream_version (length stream)
  end.

Fixpoint take_while {A} (p : A -> bool) (l : list A) : list A :=
  match l with
  | [] => []
  | x :: l => if p x then x :: take_while p l else []
  end.

Definition read_to_version_page (s : MemoryEventStore) (stream_id : string)
    (from_version to_version : Z) (max_count : nat) : CatgaResult EventPage :=
  let? _ := validate_event_store_page_size max_count in
  if to_version <? 0 then Ok (mkEventPage (mkEventStream stream_id (-1) []) None)
  else
    let? stream := page_stream s stream_id from_version max_count in
    let events := take_while (fun e => ev_version e <=? to_version) (st_events stream) in
    let last_version := ev_version <$> last events in
    let next_version :=
      match last_version with
      | Some v =>
        if (v <? to_version) && (v <? st_version stream) then version_cursor v else None
      | None => None
      end in
    Ok (mkEventPage (mkEventStream stream_id (default (-1) last_version) events) next_version).

Definition read_to_time_page (s : MemoryEventStore) (stream_id : string) (from_version : Z)
    (upper_bound : SystemTime) (max_count : nat) : CatgaResult EventPage :=
  let? _ := validate_event_store_page_size max_count in
  let? stream := page_stream s stream_id from_version max_count in
  let last_scanned := ev_version <$> last (st_events stream) in
  let events := filter (fun e => ev_timestamp e <= upper_bound) (st_events stream) in
  Ok (mkEventPage
        (mkEventStream stream_id (default (-1) (ev_version <$> last events)) events)
        (next_after last_scanned (st_version stream))).

Definition version_info (e : StoredEvent) : VersionInfo :=
  mkVersionInfo (ev_version e) (ev_timestamp e) (message_type (ev_envelope e)).

Definition version_history_page (s : MemoryEventStore) (stream_id : string) (from_version : Z)
    (max_count : nat) : CatgaResult VersionHistoryPage :=
  let? _ := validate_event_store_page_size max_count in
  let? stream := page_stream s stream_id from_version max_count in
  Ok (mkVersionHistoryPage (version_info <$> st_events stream)
        (next_after (ev_version <$> last (st_events stream)) (st_version stream))).

Section ids.
Context `{!MapIter string}.

(** One iteration over the entries: the heap and [has_more]. *)
Definition scan_id (after : option string) (max_count : nat) (acc : list string * bool)
    (id : string) : list string * bool :=
  let '(ids, has_more) := acc in
  if match after with Some cursor => bool_decide (String.le id cursor) | None => false end
  then acc
  else if (length ids <? max_count)%nat then (heap_push String.le id ids, has_more)
  else
    match heap_peek ids with
    | Some largest =>
      if heap_lt String.le id largest then (heap_push String.le id (heap_pop ids), true)
      else (ids, true)
    | None => (ids, true)
    end.

Definition stream_ids_page (s : MemoryEventStore) (after : option string) (max_count : nat)
    : CatgaResult StreamIdsPage :=
  let? _ := validate_event_store_page_size max_count in
  let '(ids, has_more) := foldl (scan_id after max_count) ([], false) (iter (streams s)).*1 in
  Ok (mkStreamIdsPage ids (if has_more then last ids else None)).
End ids.

(** ** Reference: streams as dense lists *)

Fixpoint stamp (v : Z) (events : list Envelope) (t : SystemTime) : list StoredEvent :=
  match events with
  | [] => []
  | e :: events => mkStoredEvent v e t :: stamp (v + 1) events t
  end.

(** Event [i] of a stream has version [i], and the length is a version. *)
Record stream_wf (l : list StoredEvent) : Prop := {
  wf_dense : forall i e, l !! i = Some e -> ev_version e = Z.of_nat i;
  wf_length : Z.of_nat (length l) <= int_max i64
}.

Definition store_wf (s : MemoryEventStore) : Prop :=
  forall id l, streams s !! id = Some l -> stream_wf l.

Definition stream_of (s : MemoryEventStore) (id : string) : list StoredEvent :=
  default [] (streams s !! id).

Definition stream_version (l : list StoredEvent) : Z := Z.of_nat (length l) - 1.

Definition slice {A} (from : Z) (n : nat) (l : list A) : list A :=
  take n (drop (Z.to_nat from) l).

(** The cursor after a page of [n] events of a stream of the given length *)
Definition cursor_at (from : Z) (n length : nat) : option Z :=
  if from + Z.of_nat n <? Z.of_nat length then Some (from + Z.of_nat n) else None.

(** The pages a dense stream has at a position. *)
Definition page_at (id : string) (l : list StoredEvent) (from : Z) (n : nat) : EventPage :=
  mkEventPage (mkEventStream id (stream_version l) (slice from n l)) (cursor_at from n (length l)).

(** A page that reports the version of its own last event *)
Definition partial_page (id : string) (events : list StoredEvent) (next : option Z) : EventPage :=
  mkEventPage (mkEventStream id (default (-1) (ev_version <$> last events)) events) next.

(** The events up to a version, and those no later than a time *)
Definition upto (to : Z) (l : list StoredEvent) : list StoredEvent := take (Z.to_nat (to + 1)) l.
Definition until (bound : SystemTime) (l : list StoredEvent) : list StoredEvent :=
  filter (fun e => ev_timestamp e <= bound) l.

Definition version_page (id : string) (l : list StoredEvent) (from to : Z) (n : nat) : EventPage :=
  partial_page id (slice from n (upto to l)) (cursor_at from n (length (upto to l))).

Definition time_page (id : string) (l : list StoredEvent) (from : Z) (bound : SystemTime)
    (n : nat) : EventPage :=
  partial_page id (until bound (slice from n l)) (cursor_at from n (length l)).

(** ** Lemmas *)

Lemma event_stream_version_ok n :
  Z.of_nat n <= int_max i64 -> event_stream_version n = Ok (Z.of_nat n - 1).
Proof.
  intros Hn. unfold event_stream_version. rewrite checked_fits by (int_bounds; lia). cbn.
  rewrite checked_fits by (int_bounds; lia). done.
Qed.

Lemma event_stream_version_exhausted n :
  int_max i64 < Z.of_nat n ->
  event_stream_version n = fail Internal "event stream version is exhausted".
Proof.
  intros Hn. unfold event_stream_version.
  assert (checked i64 (Z.of_nat n) = None) as -> by (apply checked_None; lia). done.
Qed.

Lemma appended_version_spec l n :
  stream_wf l ->
  checked_appended_event_version (stream_version l) n
  = if decide (Z.of_nat (length l) + Z.of_nat n - 1 <= int_max i64
               /\ Z.of_nat n <= int_max i64)
    then Ok (Z.of_nat (length l) + Z.of_nat n - 1)
    else fail Internal "event stream version is exhausted".
Proof.
  intros [_ Hl]. unfold checked_appended_event_version, stream_version.
  destruct (decide (Z.of_nat n <= int_max i64)) as [Hn|Hn].
  - rewrite checked_fits by (int_bounds; lia). cbn [rbind ok_or]. case_decide as D.
    + rewrite checked_fits by (int_bounds; lia). cbn. f_equal. lia.
    + assert (checked i64 (Z.of_nat (length l) - 1 + Z.of_nat n) = None) as ->
        by (apply checked_None; lia). done.
  - assert (checked i64 (Z.of_nat n) = None) as -> by (apply checked_None; lia).
    cbn [rbind ok_or]. case_decide; [lia | done].
Qed.

Lemma stamp_length v es t : length (stamp v es t) = length es.
Proof. revert v. induction es; intros; simpl; auto. Qed.

Lemma stamp_lookup v es t i :
  stamp v es t !! i = (fun e => mkStoredEvent (v + Z.of_nat i) e t) <$> es !! i.
Proof.
  revert v i. induction es as [|e es IH]; intros v [|i]; simpl; try done.
  - by rewrite Z.add_0_r.
  - rewrite IH. destruct (es !! i); simpl; [| done]. do 2 f_equal. lia.
Qed.

Lemma stamp_envelopes v es t : ev_envelope <$> stamp v es t = es.
Proof. revert v. induction es; intros; simpl; f_equal; auto. Qed.

Lemma push_events_ok stored v es t :
  int_min i64 <= v -> v + Z.of_nat (length es) <= int_max i64 ->
  push_events stored v es t = (Ok tt, stored ++ stamp (v + 1) es t).
Proof.
  revert stored v. induction es as [|e es IH]; intros stored v Hv Hle; simpl in *.
  - by rewrite app_nil_r.
  - rewrite checked_fits by lia. rewrite IH by lia. by rewrite <-(assoc_L (++)).
Qed.

Lemma stream_wf_nil : stream_wf [].
Proof. split; [done |]. int_bounds. simpl. lia. Qed.

Lemma stream_wf_app l es t :
  stream_wf l -> Z.of_nat (length l) + Z.of_nat (length es) <= int_max i64 ->
  stream_wf (l ++ stamp (Z.of_nat (length l)) es t).
Proof.
  intros [Hd Hl] Hle. split.
  - intros i e. rewrite lookup_app_Some, stamp_lookup. intros [Hi|[Hge Hi]]; [by apply Hd |].
    destruct (es !! _); simplify_eq/=. lia.
  - rewrite length_app, stamp_length. lia.
Qed.

Lemma stream_of_wf s id : store_wf s -> stream_wf (stream_of s id).
Proof.
  intros Hs. unfold stream_of. destruct (streams s !! id) eqn:E; simpl; [by eapply Hs | apply stream_wf_nil].
Qed.

#[export] Hint Resolve stream_wf_nil stream_of_wf : catga.

(** The reads see a stream only through [stream_of]: a missing stream is an empty one. *)
Lemma version_spec s id :
  store_wf s -> version s id = Ok (stream_version (stream_of s id)).
Proof.
  intros Hs. unfold version, stream_of, stream_version. destruct (streams s !! id) eqn:E; [| done].
  simpl. apply event_stream_version_ok. by destruct (Hs _ _ E).
Qed.

Lemma page_stream_spec s id from n :
  store_wf s -> 0 <= from ->
  page_stream s id from n
  = Ok (mkEventStream id (stream_version (stream_of s id))
          (slice from n (stream_of s id))).
Proof.
  intros Hs Hf. unfold page_stream, stream_of, stream_version, slice.
  destruct (streams s !! id) as [l|] eqn:E; simpl; [| by rewrite drop_nil, take_nil].
  rewrite event_stream_version_ok by (by destruct (Hs _ _ E)). simpl.
  destruct (Z.leb_spec from (Z.of_nat (length l))); [done |].
  by rewrite (drop_ge l), take_nil by lia.
Qed.

Lemma last_slice {A} n (l : list A) k :
  last (take n (drop k l))
  = if decide (n <> 0 /\ k < length l)%nat then l !! (Nat.min (k + n) (length l) - 1)%nat else None.
Proof.
  rewrite last_lookup, length_take, length_drop. case_decide as D.
  - rewrite lookup_take_lt by lia. rewrite lookup_drop. f_equal. lia.
  - destruct (decide (n = 0%nat)) as [->|]; [by rewrite take_0 |].
    rewrite (drop_ge l) by lia. by rewrite take_nil.
Qed.

Lemma version_cursor_ok v : -1 <= v < int_max i64 -> version_cursor v = Some (v + 1).
Proof.
  intros Hv. unfold version_cursor. rewrite saturating_id by (int_bounds; lia).
  apply checked_fits. int_bounds. lia.
Qed.

(** The version of the last event of a page *)
Lemma last_version_slice l k n :
  stream_wf l ->
  ev_version <$> last (take n (drop k l))
  = if decide (n <> 0 /\ k < length l)%nat
    then Some (Z.of_nat (Nat.min (k + n) (length l)) - 1) else None.
Proof.
  intros Hl. rewrite last_slice. case_decide as D; [| done].
  destruct (lookup_lt_is_Some_2 l (Nat.min (k + n) (length l) - 1)) as [e He]; [lia |].
  rewrite He. simpl. rewrite (wf_dense _ Hl _ _ He). f_equal. lia.
Qed.

Lemma next_after_slice l from n :
  stream_wf l -> 0 <= from -> (0 < n)%nat ->
  next_after (ev_version <$> last (slice from n l)) (stream_version l)
  = cursor_at from n (length l).
Proof.
  intros Hl Hf Hn. unfold cursor_at, slice. rewrite last_version_slice by done. pose proof (wf_length _ Hl).
  unfold stream_version. case_decide as D; cbn.
  - destruct (Z.ltb_spec (from + Z.of_nat n) (Z.of_nat (length l))).
    + destruct (Z.ltb_spec (Z.of_nat (Nat.min (Z.to_nat from + n) (length l)) - 1)
                  (Z.of_nat (length l) - 1)); [| lia].
      rewrite version_cursor_ok by lia. f_equal. lia.
    + by destruct (Z.ltb_spec (Z.of_nat (Nat.min (Z.to_nat from + n) (length l)) - 1)
                  (Z.of_nat (length l) - 1)); [lia |].
  - destruct (Z.ltb_spec (from + Z.of_nat n) (Z.of_nat (length l))); [lia | done].
Qed.

Lemma page_size_ok n : (0 < n <= MAX_EVENT_STORE_PAGE_SIZE)%nat ->
  validate_event_store_page_size n = Ok tt.
Proof.
  intros [H1 H2]. unfold validate_event_store_page_size.
  destruct (Nat.eqb_spec n 0); [lia |].
  destruct (Nat.ltb_spec MAX_EVENT_STORE_PAGE_SIZE n); [lia | done].
Qed.

Lemma page_size_err n : ~ (0 < n <= MAX_EVENT_STORE_PAGE_SIZE)%nat ->
  exists e, validate_event_store_page_size n = Err e /\ code e = Validation.
Proof.
  intros Hn. unfold validate_event_store_page_size.
  destruct (Nat.eqb_spec n 0); [by eexists |].
  destruct (Nat.ltb_spec MAX_EVENT_STORE_PAGE_SIZE n); [by eexists | lia].
Qed.

Lemma read_page_spec s id from n :
  store_wf s -> 0 <= from -> (0 < n <= MAX_EVENT_STORE_PAGE_SIZE)%nat ->
  read_page s id from n = Ok (page_at id (stream_of s id) from n).
Proof.
  intros Hs Hf Hn. unfold read_page. rewrite page_size_ok by done. cbn [rbind].
  rewrite page_stream_spec by done. cbn [rbind st_events st_version].
  rewrite next_after_slice by (lia || auto with catga). done.
Qed.

Lemma upto_wf to l : stream_wf l -> stream_wf (upto to l).
Proof.
  intros [Hd Hl]. split.
  - intros i e Hi. apply Hd. unfold upto in Hi. rewrite lookup_take in Hi. by case_decide.
  - unfold upto. rewrite length_take. lia.
Qed.

Lemma take_while_dense (to : Z) l k :
  (forall i e, l !! i = Some e -> ev_version e = k + Z.of_nat i) ->
  take_while (fun e => ev_version e <=? to) l = take (Z.to_nat (to + 1 - k)) l.
Proof.
  revert k. induction l as [|e l IH]; intros k Hd; simpl; [by rewrite take_nil |].
  pose proof (Hd 0%nat e eq_refl) as He. simpl in He.
  destruct (Z.leb_spec (ev_version e) to).
  - replace (Z.to_nat (to + 1 - k)) with (S (Z.to_nat (to + 1 - (k + 1)))) by lia. simpl.
    f_equal. apply IH. intros i e' Hi. rewrite (Hd (S i) e' Hi). lia.
  - by replace (Z.to_nat (to + 1 - k)) with 0%nat by lia.
Qed.

Lemma filter_dense_take (to : Z) l k :
  (forall i e, l !! i = Some e -> ev_version e = k + Z.of_nat i) ->
  take (Z.to_nat (to + 1 - k)) l = filter (fun e => ev_version e <= to) l.
Proof.
  revert k. induction l as [|e l IH]; intros k Hd; simpl; [by rewrite take_nil |].
  pose proof (Hd 0%nat e eq_refl) as He. simpl in He.
  assert (forall i e', l !! i = Some e' -> ev_version e' = k + 1 + Z.of_nat i) as Hd'.
  { intros i e' Hi. rewrite (Hd (S i) e' Hi). lia. }
  rewrite filter_cons. case_decide.
  - replace (Z.to_nat (to + 1 - k)) with (S (Z.to_nat (to + 1 - (k + 1)))) by lia. simpl.
    f_equal. by apply IH.
  - rewrite <-(IH (k + 1)) by done.
    by replace (Z.to_nat (to + 1 - k)) with 0%nat by lia;
       replace (Z.to_nat (to + 1 - (k + 1))) with 0%nat by lia.
Qed.

Lemma take_while_slice l from to n :
  stream_wf l -> 0 <= from -> 0 <= to ->
  take_while (fun e => ev_version e <=? to) (slice from n l) = slice from n (upto to l).
Proof.
  intros Hl Hf Ht. rewrite (take_while_dense to _ from).
  - unfold slice, upto. rewrite take_take, skipn_firstn_comm, take_take. f_equal. lia.
  - intros i e Hi. unfold slice in Hi. rewrite lookup_take in Hi. case_decide; [| done].
    rewrite lookup_drop in Hi. rewrite (wf_dense _ Hl _ _ Hi). lia.
Qed.

Lemma next_upto_slice l from to n :
  stream_wf l -> 0 <= from -> 0 <= to -> (0 < n)%nat ->
  match ev_version <$> last (slice from n (upto to l)) with
  | Some v => if (v <? to) && (v <? stream_version l) then version_cursor v else None
  | None => None
  end = cursor_at from n (length (upto to l)).
Proof.
  intros Hl Hf Ht Hn. rewrite <-next_after_slice by (auto using upto_wf).
  destruct (ev_version <$> _) as [v|]; [| done]. simpl.
  replace ((v <? to) && (v <? stream_version l)) with (v <? stream_version (upto to l)); [done |].
  unfold stream_version, upto. rewrite length_take.
  apply eq_true_iff_eq. rewrite andb_true_iff, !Z.ltb_lt. lia.
Qed.

Lemma read_to_version_page_spec s id from to n :
  store_wf s -> 0 <= from -> (0 < n <= MAX_EVENT_STORE_PAGE_SIZE)%nat ->
  read_to_version_page s id from to n = Ok (version_page id (stream_of s id) from to n).
Proof.
  intros Hs Hf Hn. unfold read_to_version_page. rewrite page_size_ok by done. cbn [rbind].
  destruct (Z.ltb_spec to 0) as [Hto|Hto].
  - unfold version_page, upto. replace (Z.to_nat (to + 1)) with 0%nat by lia.
    unfold cursor_at, slice, partial_page. rewrite take_0, drop_nil, take_nil. simpl.
    destruct (Z.ltb_spec (from + Z.of_nat n) (Z.of_nat 0)); [lia | done].
  - rewrite page_stream_spec by done. cbn [rbind st_events st_version].
    rewrite take_while_slice by (lia || auto with catga).
    rewrite next_upto_slice by (lia || auto with catga). done.
Qed.

Lemma read_to_time_page_spec s id from bound n :
  store_wf s -> 0 <= from -> (0 < n <= MAX_EVENT_STORE_PAGE_SIZE)%nat ->
  read_to_time_page s id from bound n = Ok (time_page id (stream_of s id) from bound n).
Proof.
  intros Hs Hf Hn. unfold read_to_time_page. rewrite page_size_ok by done. cbn [rbind].
  rewrite page_stream_spec by done. cbn [rbind st_events st_version].
  rewrite next_after_slice by (lia || auto with catga). done.
Qed.

(** ** Appending *)

(** Why an append to a stream is refused, if it is. *)
Definition append_refused (l : list StoredEvent) (es : list Envelope) (expected : option Z)
    (alloc_ok : bool) : option CatgaError :=
  if bool_decide (default (stream_version l) expected <> stream_version l)
  then Some (CatgaError_new Conflict "event stream version conflict")
  else if bool_decide (int_max i64 < Z.of_nat (length l) + Z.of_nat (length es) - 1
                       \/ int_max i64 < Z.of_nat (length es))
  then Some (CatgaError_new Internal "event stream version is exhausted")
  else if try_reserve_exact (length l) (length es) alloc_ok then None
  else Some (CatgaError_new Internal "event stream allocation exceeds memory range").

Lemma append_refused_none l es expected alloc_ok :
  append_refused l es expected alloc_ok = None ->
  default (stream_version l) expected = stream_version l
  /\ Z.of_nat (length l) + Z.of_nat (length es) <= int_max i64.
Proof.
  unfold append_refused, try_reserve_exact. case_bool_decide as H1; [done |].
  case_bool_decide; [done |]. destruct (_ <=? _) eqn:E; [| done]. intros _. bool_prop.
  done.
Qed.

Lemma stream_append_spec l es expected clock alloc_ok :
  stream_wf l ->
  stream_append l es expected clock alloc_ok
  = match append_refused l es expected alloc_ok with
    | Some e => (Err e, l)
    | None => (Ok (stream_version l + Z.of_nat (length es)),
               l ++ stamp (Z.of_nat (length l)) es clock)
    end.
Proof.
  intros Hl. pose proof (wf_length _ Hl) as Hlen.
  destruct (append_refused l es expected alloc_ok) as [e|] eqn:Hr.
  - unfold stream_append. rewrite event_stream_version_ok by done.
    fold (stream_version l). revert Hr. unfold append_refused.
    case_bool_decide as H1; intros Hr; simplify_eq.
    { destruct expected as [v|]; [| done]. simpl in H1. by apply Z.eqb_neq in H1 as ->. }
    assert (match expected with Some v => negb (v =? stream_version l) | None => false end
            = false) as ->.
    { destruct expected as [v|]; [| done]. simpl in H1. subst v.
      by rewrite Z.eqb_refl. }
    rewrite appended_version_spec by done. case_bool_decide as H2.
    + case_decide; [lia | by simplify_eq].
    + case_decide; [| lia]. by destruct (try_reserve_exact _ _ _); simplify_eq.
  - pose proof (append_refused_none _ _ _ _ Hr) as [Hexp Hle].
    unfold stream_append. rewrite event_stream_version_ok by done. fold (stream_version l).
    assert (match expected with Some v => negb (v =? stream_version l) | None => false end
            = false) as ->.
    { destruct expected as [v|]; [| done]. simpl in Hexp. subst v. by rewrite Z.eqb_refl. }
    rewrite appended_version_spec by done. case_decide; [| lia].
    revert Hr. unfold append_refused. do 2 (case_bool_decide; [done |]).
    destruct (try_reserve_exact _ _ _); [| done]. intros _.
    unfold stream_version. rewrite push_events_ok by (int_bounds; lia).
    replace (Z.of_nat (length l) - 1 + 1) with (Z.of_nat (length l)) by lia.
    do 2 f_equal. lia.
Qed.

Lemma stream_append_wf l es expected clock alloc_ok :
  stream_wf l -> stream_wf (snd (stream_append l es expected clock alloc_ok)).
Proof.
  intros Hl. rewrite stream_append_spec by done. destruct (append_refused _ _ _ _) eqn:E; [done |].
  apply stream_wf_app; [done |]. by apply append_refused_none in E as [_ ?].
Qed.

Lemma append_wf s id es expected clock alloc_ok :
  store_wf s -> store_wf (snd (append s id es expected clock alloc_ok)).
Proof.
  intros Hs. unfold append. destruct es as [|e es]; [done |].
  pose proof (stream_append_wf (stream_of s id) (e :: es) expected clock alloc_ok) as Hw.
  unfold stream_of in Hw. destruct (stream_append _ _ _ _ _) as [r l] eqn:E. simpl in *.
  intros id' l'. simpl. rewrite lookup_insert_Some. intros [[<- <-]|[_ ?]]; [| by eapply Hs].
  apply Hw. by apply (stream_of_wf s id).
Qed.

Lemma stream_of_set s id l id' :
  stream_of (set_stream s id l) id' = if decide (id = id') then l else stream_of s id'.
Proof.
  unfold stream_of, set_stream. simpl.
  case_decide; subst; [by rewrite lookup_insert_eq | by rewrite lookup_insert_ne].
Qed.

(** Every branch of [append]. *)
Lemma append_cases s id es expected clock alloc_ok :
  store_wf s ->
  let '(r, s') := append s id es expected clock alloc_ok in
  let l := stream_of s id in
  (es = [] /\ r = Ok (stream_version l) /\ s' = s)
  \/ (es <> [] /\ (exists e, append_refused l es expected alloc_ok = Some e /\ r = Err e)
      /\ s' = set_stream s id l)
  \/ (es <> [] /\ append_refused l es expected alloc_ok = None
      /\ r = Ok (stream_version l + Z.of_nat (length es))
      /\ s' = set_stream s id (l ++ stamp (Z.of_nat (length l)) es clock)).
Proof.
  intros Hs. unfold append. destruct es as [|e es].
  - left. split_and!; [done | | done]. rewrite <-version_spec by done. done.
  - fold (stream_of s id). rewrite stream_append_spec by auto with catga.
    destruct (append_refused _ _ _ _) eqn:E; right; [left; naive_solver | by right].
Qed.

(** ** Stream identifiers *)

(** The identifiers after the cursor *)
Definition is_after (after : option string) (id : string) : Prop :=
  match after with Some c => ~ String.le id c | None => True end.

#[global] Instance is_after_dec after id : Decision (is_after after id).
Proof. destruct after; unfold is_after; apply _. Defined.

Definition after_cursor (after : option string) (ids : list string) : list string :=
  filter (is_after after) ids.

(** The page of a sorted list of identifiers *)
Definition ids_page (ids : list string) (after : option string) (n : nat) : StreamIdsPage :=
  let rest := after_cursor after ids in
  mkStreamIdsPage (take n rest) (if (n <? length rest)%nat then last (take n rest) else None).

Section ids_lemmas.
Context `{!MapIter string}.

Lemma scan_id_spec after n l :
  (0 < n)%nat ->
  foldl (scan_id after n) ([], false) l
  = (smallest String.le n (after_cursor after l), (n <? length (after_cursor after l))%nat).
Proof.
  intros Hn. rewrite <-(select_smallest String.le) by done.
  induction l as [|id l IH] using rev_ind; [done |].
  rewrite foldl_snoc, IH. unfold after_cursor at 3 4. rewrite filter_app.
  fold (after_cursor after l). unfold scan_id.
  destruct (match after with Some cursor => _ | None => _ end) eqn:E.
  - assert (filter (is_after after) [id] = []) as ->.
    { rewrite filter_cons, filter_nil. destruct after; [| done]. case_decide; [| done].
      by apply bool_decide_eq_true_1 in E. }
    by rewrite app_nil_r.
  - assert (filter (is_after after) [id] = [id]) as ->.
    { rewrite filter_cons, filter_nil. case_decide as D; [done |]. exfalso. apply D.
      destruct after; [| done]. by apply bool_decide_eq_false_1 in E. }
    rewrite foldl_snoc, length_app. simpl. set (F := after_cursor after l).
    assert (length (foldl (select_one String.le n) [] F) = Nat.min n (length F)) as Hlen
      by (by rewrite (select_smallest String.le), smallest_length).
    set (h := foldl _ [] F) in *. unfold select_one. rewrite Hlen.
    destruct (Nat.ltb_spec (Nat.min n (length F)) n).
    + destruct (Nat.ltb_spec n (length F)), (Nat.ltb_spec n (length F + 1)); try lia. done.
    + assert ((n <? length F + 1)%nat = true) as -> by (apply Nat.ltb_lt; lia).
      destruct (heap_peek h); [| done]. by destruct (heap_lt _ _ _).
Qed.

(** The identifiers of a store in order *)
Definition store_ids (s : MemoryEventStore) : list string :=
  merge_sort String.le (map_to_list (streams s)).*1.

Lemma elem_of_store_ids s id : id ∈ store_ids s <-> is_Some (streams s !! id).
Proof.
  unfold store_ids. rewrite merge_sort_Permutation, list_elem_of_fmap. split.
  - intros ([k v] & -> & H). apply elem_of_map_to_list in H. eauto.
  - intros [l Hl]. exists (id, l). by rewrite elem_of_map_to_list.
Qed.

Lemma store_ids_sorted s : StronglySorted String.le (store_ids s) /\ NoDup (store_ids s).
Proof.
  split; [apply (StronglySorted_merge_sort _) |]. unfold store_ids.
  rewrite merge_sort_Permutation. apply NoDup_fst_map_to_list.
Qed.

Lemma sorted_filter P `{!forall x, Decision (P x)} (l : list string) :
  StronglySorted String.le l -> StronglySorted String.le (filter P l).
Proof.
  induction 1 as [|x l Hl IH Hx]; [constructor |]. rewrite filter_cons. case_decide; [| done].
  constructor; [done |]. apply Forall_forall. intros y [_ Hy]%list_elem_of_filter.
  by eapply Forall_forall in Hx.
Qed.

Lemma stream_ids_page_spec s after n :
  (0 < n <= MAX_EVENT_STORE_PAGE_SIZE)%nat ->
  stream_ids_page s after n = Ok (ids_page (store_ids s) after n).
Proof.
  intros Hn. unfold stream_ids_page. rewrite page_size_ok by done. cbn [rbind].
  rewrite scan_id_spec by lia.
  assert (after_cursor after (iter (streams s)).*1 ≡ₚ after_cursor after (store_ids s)) as Hp.
  { unfold store_ids, after_cursor. by rewrite merge_sort_Permutation, iter_perm. }
  rewrite (smallest_perm String.le _ _ _ Hp), Hp. unfold ids_page.
  assert (smallest String.le n (after_cursor after (store_ids s))
          = take n (after_cursor after (store_ids s))) as ->; [| done].
  unfold smallest. f_equal. apply (sorted_unique_perm String.le).
  - apply (StronglySorted_merge_sort _).
  - apply sorted_filter, (StronglySorted_merge_sort _).
  - apply merge_sort_Permutation.
Qed.
End ids_lemmas.

(** ** What the trait promises *)

Class EventStoreLaws (S : Type) := {
  es_append : S -> string -> list Envelope -> option Z -> SystemTime -> bool -> CatgaResult Z * S;
  es_read_page : S -> string -> Z -> nat -> CatgaResult EventPage;
  es_read_to_version_page : S -> string -> Z -> Z -> nat -> CatgaResult EventPage;
  es_read_to_time_page : S -> string -> Z -> SystemTime -> nat -> CatgaResult EventPage;
  es_version : S -> string -> CatgaResult Z;
  es_stream_ids_page : S -> option string -> nat -> CatgaResult StreamIdsPage;
  (** the contents of a stream, and the states the store can be in *)
  es_stream : S -> string -> list StoredEvent;
  es_ids : S -> list string;
  es_wf : S -> Prop;
  es_stream_wf : forall s id, es_wf s -> stream_wf (es_stream s id);
  es_read_page_spec : forall s id from n,
    es_wf s -> 0 <= from -> (0 < n <= MAX_EVENT_STORE_PAGE_SIZE)%nat ->
    es_read_page s id from n = Ok (page_at id (es_stream s id) from n);
  es_read_to_version_page_spec : forall s id from to n,
    es_wf s -> 0 <= from -> (0 < n <= MAX_EVENT_STORE_PAGE_SIZE)%nat ->
    es_read_to_version_page s id from to n = Ok (version_page id (es_stream s id) from to n);
  es_read_to_time_page_spec : forall s id from bound n,
    es_wf s -> 0 <= from -> (0 < n <= MAX_EVENT_STORE_PAGE_SIZE)%nat ->
    es_read_to_time_page s id from bound n = Ok (time_page id (es_stream s id) from bound n);
  es_version_spec : forall s id,
    es_wf s -> es_version s id = Ok (stream_version (es_stream s id));
  es_ids_sorted : forall s, StronglySorted String.le (es_ids s) /\ NoDup (es_ids s);
  es_ids_complete : forall s id, es_stream s id <> [] -> id ∈ es_ids s;
  es_stream_ids_page_spec : forall s after n,
    (0 < n <= MAX_EVENT_STORE_PAGE_SIZE)%nat ->
    es_stream_ids_page s after n = Ok (ids_page (es_ids s) after n);
  es_append_wf : forall s id es expected clock alloc_ok,
    es_wf s -> es_wf (snd (es_append s id es expected clock alloc_ok));
  es_append_err : forall s id es expected clock alloc_ok e s',
    es_wf s -> es_append s id es expected clock alloc_ok = (Err e, s') ->
    forall id', es_stream s' id' = es_stream s id';
  es_append_ok : forall s id es expected clock alloc_ok v s',
    es_wf s -> es_append s id es expected clock alloc_ok = (Ok v, s') ->
    (es <> [] -> default (stream_version (es_stream s id)) expected
                 = stream_version (es_stream s id))
    /\ v = stream_version (es_stream s id) + Z.of_nat (length es)
    /\ es_stream s' id
       = es_stream s id ++ stamp (Z.of_nat (length (es_stream s id))) es clock
    /\ forall id', id' <> id -> es_stream s' id' = es_stream s id'
}.

#[export] Hint Resolve es_stream_wf es_append_wf : catga.

(** [MemoryEventStore] keeps the promise. *)
#[export, refine] Instance memory_event_store_laws `{!MapIter string} : EventStoreLaws MemoryEventStore := {|
  es_append := append;
  es_read_page := read_page;
  es_read_to_version_page := read_to_version_page;
  es_read_to_time_page := read_to_time_page;
  es_version := version;
  es_stream_ids_page := stream_ids_page;
  es_ids := store_ids;
  es_stream := stream_of;
  es_wf := store_wf
|}.
Proof.
  - eauto using stream_of_wf.
  - apply read_page_spec.
  - apply read_to_version_page_spec.
  - apply read_to_time_page_spec.
  - apply version_spec.
  - apply store_ids_sorted.
  - intros s id Hne. apply elem_of_store_ids. unfold stream_of in Hne.
    by destruct (streams s !! id).
  - apply stream_ids_page_spec.
  - intros. by apply append_wf.
  - intros s id es expected clock alloc_ok e s' Hs E id'.
    pose proof (append_cases s id es expected clock alloc_ok Hs) as Hc. rewrite E in Hc.
    destruct Hc as [(_ & ? & _)|[(_ & _ & ->)|(_ & _ & ? & _)]]; [done | | done].
    rewrite stream_of_set. by case_decide; subst.
  - intros s id es expected clock alloc_ok v s' Hs E.
    pose proof (append_cases s id es expected clock alloc_ok Hs) as Hc. rewrite E in Hc.
    destruct Hc as [(-> & ? & ->)|[(_ & (? & _ & ?) & _)|(Hne & Hr & ? & ->)]]; simplify_eq.
    + split_and!; [done | simpl; lia | by rewrite app_nil_r | done].
    + apply append_refused_none in Hr as [Hr _]. split_and!; [done | done | |].
      * rewrite stream_of_set. by case_decide.
      * intros id' Hid. rewrite stream_of_set. by case_decide; subst.
Defined.

(** ** Clients of the interface *)

Section clients.
Context {S : Type} `{!EventStoreLaws S}.
Implicit Types s : S.

Inductive es_step : S -> S -> Prop :=
| es_step_append s id es expected clock alloc_ok : es_step s (snd (es_append s id es expected clock alloc_ok)).

Lemma es_step_prefix s s' id :
  es_wf s -> es_step s s' -> es_stream s id `prefix_of` es_stream s' id.
Proof.
  intros Hs Hst. revert Hs. destruct Hst as [s0 id0 es expected clock alloc_ok]. intros Hs.
  destruct (es_append s0 id0 es expected clock alloc_ok) as [r s1] eqn:E.
  simpl. destruct r as [v|e].
  - destruct (es_append_ok _ _ _ _ _ _ _ _ Hs E) as (_ & _ & E1 & E2).
    destruct (decide (id = id0)) as [->|Hne]; [rewrite E1; by apply prefix_app_r | by rewrite E2].
  - by rewrite (es_append_err _ _ _ _ _ _ _ _ Hs E).
Qed.

Lemma es_history s s' :
  es_wf s -> rtc es_step s s' ->
  es_wf s' /\ forall id, es_stream s id `prefix_of` es_stream s' id.
Proof.
  intros Hs Hr. revert Hs. induction Hr as [s|s s1 s' H1 Hr IH]; intros Hs; [done |].
  assert (es_wf s1) as Hs1 by (destruct H1; auto with catga).
  destruct (IH Hs1) as [? Hp]. split; [done |]. intros id. etrans; [| apply Hp].
  by apply es_step_prefix.
Qed.

(** [follow_pages]: the loop every reader writes around a paged read.  A page is
    folded with a fallible step, then the cursor is followed; [None] is "out of
    fuel". *)
Fixpoint fold_events {A} (step : A -> StoredEvent -> CatgaResult A) (acc : A)
    (events : list StoredEvent) : CatgaResult A :=
  match events with
  | [] => Ok acc
  | e :: events => let? acc := step acc e in fold_events step acc events
  end.

Fixpoint follow_pages {A} (page : Z -> CatgaResult EventPage)
    (step : A -> StoredEvent -> CatgaResult A) (fuel : nat) (cursor : Z) (acc : A)
    : option (CatgaResult A) :=
  match fuel with
  | O => None
  | Datatypes.S fuel =>
    match page cursor with
    | Err e => Some (Err e)
    | Ok p =>
      match fold_events step acc (st_events (pg_stream p)) with
      | Err e => Some (Err e)
      | Ok acc =>
        match pg_next_version p with
        | None => Some (Ok acc)
        | Some next => follow_pages page step fuel next acc
        end
      end
    end
  end.

Lemma fold_events_app {A} (step : A -> StoredEvent -> CatgaResult A) acc l1 l2 :
  fold_events step acc (l1 ++ l2)
  = let? acc := fold_events step acc l1 in fold_events step acc l2.
Proof.
  revert acc. induction l1 as [|e l1 IH]; intros acc; simpl; [done |].
  destruct (step acc e); simpl; auto.
Qed.

(** A reader whose pages are the image under [f] of the slices of a list folds
    the image of the list. *)
Lemma follow_pages_fold {A} (page : Z -> CatgaResult EventPage)
    (step : A -> StoredEvent -> CatgaResult A) (f : list StoredEvent -> list StoredEvent)
    (l : list StoredEvent) (n fuel : nat) (cursor : Z) (acc : A) :
  (forall l1 l2, f (l1 ++ l2) = f l1 ++ f l2) -> (0 < n)%nat ->
  (forall from, 0 <= from -> exists p, page from = Ok p
     /\ st_events (pg_stream p) = f (slice from n l)
     /\ pg_next_version p = cursor_at from n (length l)) ->
  0 <= cursor -> (length l < fuel + Z.to_nat cursor)%nat -> fuel <> 0%nat ->
  follow_pages page step fuel cursor acc
  = Some (fold_events step acc (f (drop (Z.to_nat cursor) l))).
Proof.
  intros Hf Hn Hpage. revert cursor acc.
  induction fuel as [|fuel IH]; intros cursor acc Hc Hlt Hne; [done |].
  simpl. destruct (Hpage cursor Hc) as (p & -> & -> & ->).
  rewrite <-(take_drop n (drop (Z.to_nat cursor) l)), Hf, fold_events_app.
  fold (slice cursor n l). destruct (fold_events step acc _) as [acc'|e]; [simpl | done].
  rewrite drop_drop. unfold cursor_at. destruct (Z.ltb_spec (cursor + Z.of_nat n) (Z.of_nat (length l))).
  - rewrite IH by lia. do 4 f_equal. lia.
  - rewrite (drop_ge l) by lia. assert (f [] = []) as ->; [| done].
    specialize (Hf [] []). simpl in Hf. destruct (f []) as [|e l']; [done |].
    apply (f_equal length) in Hf. rewrite length_app in Hf. simpl in Hf. lia.
Qed.

(** [follow_ids]: the loop around [stream_ids_page].  The step may change the state
    and fail; the state reached is kept. *)
Fixpoint fold_m {A X} (step : A -> X -> CatgaResult unit * A) (acc : A) (l : list X)
    : CatgaResult unit * A :=
  match l with
  | [] => (Ok tt, acc)
  | x :: l =>
    match step acc x with
    | (Ok _, acc) => fold_m step acc l
    | (Err e, acc) => (Err e, acc)
    end
  end.

Fixpoint follow_ids {A} (page : option string -> CatgaResult StreamIdsPage)
    (step : A -> string -> CatgaResult unit * A) (fuel : nat) (after : option string) (acc : A)
    : option (CatgaResult unit * A) :=
  match fuel with
  | O => None
  | Datatypes.S fuel =>
    match page after with
    | Err e => Some (Err e, acc)
    | Ok p =>
      match fold_m step acc (si_ids p) with
      | (Err e, acc) => Some (Err e, acc)
      | (Ok _, acc) =>
        match si_next_stream_id p with
        | None => Some (Ok tt, acc)
        | Some next => follow_ids page step fuel (Some next) acc
        end
      end
    end
  end.

Lemma fold_m_app {A X} (step : A -> X -> CatgaResult unit * A) acc l1 l2 :
  fold_m step acc (l1 ++ l2)
  = match fold_m step acc l1 with
    | (Ok _, acc) => fold_m step acc l2
    | (Err e, acc) => (Err e, acc)
    end.
Proof.
  revert acc. induction l1 as [|x l1 IH]; intros acc; simpl; [done |].
  destruct (step acc x) as [[|] ?]; auto.
Qed.

(** After the last identifier of a prefix come exactly the others. *)
Lemma after_last_take (ids : list string) k c :
  StronglySorted String.le ids -> NoDup ids -> last (take k ids) = Some c ->
  after_cursor (Some c) ids = drop k ids.
Proof.
  intros Hs Hn Hc. unfold after_cursor.
  rewrite <-(take_drop k ids) in Hs, Hn. rewrite <-(take_drop k ids) at 1.
  apply StronglySorted_app in Hs as (Hall & Hs1 & _). apply NoDup_app in Hn as (_ & Hdis & _).
  assert (c ∈ take k ids) as Hin.
  { rewrite last_lookup in Hc. by eapply list_elem_of_lookup_2. }
  rewrite filter_app. assert (filter (is_after (Some c)) (take k ids) = []) as ->.
  { apply filter_none. intros x Hx Hna. apply Hna.
    destruct (take k ids) as [|y m _] using rev_ind; [done |]. rewrite last_snoc in Hc.
    simplify_eq. apply elem_of_app in Hx as [Hx|Hx]; [| by apply list_elem_of_singleton in Hx as ->].
    apply StronglySorted_app in Hs1 as (Hm & _). apply Hm; set_solver. }
  simpl. apply filter_all. intros x Hx Hle.
  assert (x = c) as ->; [| by eapply Hdis].
  apply (anti_symm String.le); [done |]. by apply Hall.
Qed.

Lemma follow_ids_fold {A} (page : option string -> CatgaResult StreamIdsPage)
    (step : A -> string -> CatgaResult unit * A) (ids : list string) (n fuel k : nat)
    (after : option string) (acc : A) :
  StronglySorted String.le ids -> NoDup ids -> (0 < n)%nat ->
  (forall a, page a = Ok (ids_page ids a n)) ->
  after_cursor after ids = drop k ids -> (length ids < fuel + k)%nat -> fuel <> 0%nat ->
  follow_ids page step fuel after acc = Some (fold_m step acc (drop k ids)).
Proof.
  intros Hs Hd Hn Hpage. revert k after acc.
  induction fuel as [|fuel IH]; intros k after acc Hk Hlt Hne; [done |].
  simpl. rewrite Hpage. unfold ids_page. rewrite Hk. simpl.
  pose proof (fold_m_app step acc (take n (drop k ids)) (drop n (drop k ids))) as Happ.
  rewrite take_drop in Happ. rewrite Happ. clear Happ.
  destruct (fold_m step acc (take n (drop k ids))) as [[|] acc']; [| done].
  rewrite length_drop, drop_drop. destruct (Nat.ltb_spec n (length ids - k)).
  - destruct (last (take n (drop k ids))) as [c|] eqn:Hc.
    + apply IH; [| lia | lia]. apply after_last_take; [done | done |].
      rewrite <-Hc, last_slice. change ids with (drop 0 ids) at 1. rewrite last_slice.
      repeat case_decide; try lia. done.
    + exfalso. apply last_None in Hc. apply (f_equal length) in Hc.
      rewrite length_take, length_drop in Hc. simpl in Hc. lia.
  - by rewrite (drop_ge ids) by lia.
Qed.

Abbreviation page_size := MAX_EVENT_STORE_PAGE_SIZE.

Lemma page_size_pos : (0 < page_size <= page_size)%nat.
Proof. unfold MAX_EVENT_STORE_PAGE_SIZE. lia. Qed.

Lemma follow_read {A} s id n (step : A -> StoredEvent -> CatgaResult A) fuel cursor acc :
  es_wf s -> (0 < n <= page_size)%nat -> 0 <= cursor ->
  (length (es_stream s id) < fuel)%nat ->
  follow_pages (fun from => es_read_page s id from n) step fuel cursor acc
  = Some (fold_events step acc (drop (Z.to_nat cursor) (es_stream s id))).
Proof.
  intros Hs Hn Hc Hf. apply (follow_pages_fold _ step (fun l => l) (es_stream s id) n); try lia; [done |].
  intros from Hfrom. eexists. split; [by apply es_read_page_spec | done].
Qed.

Lemma follow_to_version {A} s id to n (step : A -> StoredEvent -> CatgaResult A) fuel cursor acc :
  es_wf s -> (0 < n <= page_size)%nat -> 0 <= cursor ->
  (length (es_stream s id) < fuel)%nat ->
  follow_pages (fun from => es_read_to_version_page s id from to n) step fuel cursor acc
  = Some (fold_events step acc (drop (Z.to_nat cursor) (upto to (es_stream s id)))).
Proof.
  intros Hs Hn Hc Hf.
  apply (follow_pages_fold _ step (fun l => l) (upto to (es_stream s id)) n); try lia; [done | |].
  - intros from Hfrom. eexists. split; [by apply es_read_to_version_page_spec | done].
  - unfold upto. rewrite length_take. lia.
Qed.

Lemma until_app bound l1 l2 : until bound (l1 ++ l2) = until bound l1 ++ until bound l2.
Proof. apply filter_app. Qed.

Lemma follow_to_time {A} s id bound n (step : A -> StoredEvent -> CatgaResult A) fuel cursor acc :
  es_wf s -> (0 < n <= page_size)%nat -> 0 <= cursor ->
  (length (es_stream s id) < fuel)%nat ->
  follow_pages (fun from => es_read_to_time_page s id from bound n) step fuel cursor acc
  = Some (fold_events step acc (until bound (drop (Z.to_nat cursor) (es_stream s id)))).
Proof.
  intros Hs Hn Hc Hf.
  apply (follow_pages_fold _ step (until bound) (es_stream s id) n); try lia;
    [apply until_app |].
  intros from Hfrom. eexists. split; [by apply es_read_to_time_page_spec | done].
Qed.

Lemma es_log_append_only s s' id :
  es_wf s -> rtc es_step s s' ->
  es_stream s id `prefix_of` es_stream s' id
  /\ (forall i e, es_stream s' id !! i = Some e -> ev_version e = Z.of_nat i)
  /\ es_version s' id = Ok (Z.of_nat (length (es_stream s' id)) - 1).
Proof.
  intros Hs Hr. destruct (es_history _ _ Hs Hr) as [Hs' Hp]. split_and!; [done | |].
  - apply wf_dense. auto with catga.
  - by apply es_version_spec.
Qed.

Lemma es_append_expected_once s id es1 es2 v t1 t2 a1 a2 r1 s1 s2 :
  es_wf s -> es1 <> [] -> es2 <> [] ->
  es_append s id es1 (Some v) t1 a1 = (Ok r1, s1) -> rtc es_step s1 s2 ->
  exists e s3, es_append s2 id es2 (Some v) t2 a2 = (Err e, s3)
    /\ forall id', es_stream s3 id' = es_stream s2 id'.
Proof.
  intros Hs H1 H2 E1 Hr.
  destruct (es_append_ok _ _ _ _ _ _ _ _ Hs E1) as (Hv & _ & Hst & _). specialize (Hv H1). simpl in Hv.
  assert (es_wf s1) as Hs1 by (replace s1 with (snd (es_append s id es1 (Some v) t1 a1)) by (by rewrite E1); auto with catga).
  destruct (es_history _ _ Hs1 Hr) as [Hs2 Hp].
  destruct (es_append s2 id es2 (Some v) t2 a2) as [[r|e] s3] eqn:E2.
  - exfalso. destruct (es_append_ok _ _ _ _ _ _ _ _ Hs2 E2) as (Hv2 & _). specialize (Hv2 H2).
    simpl in Hv2. specialize (Hp id). apply prefix_length in Hp. rewrite Hst, length_app, stamp_length in Hp.
    unfold stream_version in *. destruct es1; [done |]. simpl in Hp. lia.
  - exists e, s3. split; [done |]. by apply (es_append_err _ _ _ _ _ _ _ _ Hs2 E2).
Qed.

Lemma es_paged_reads_complete {A} s id n (step : A -> StoredEvent -> CatgaResult A)
    fuel cursor acc to bound :
  es_wf s -> (0 < n <= MAX_EVENT_STORE_PAGE_SIZE)%nat -> 0 <= cursor ->
  (length (es_stream s id) < fuel)%nat ->
  let l := es_stream s id in
  let rest := drop (Z.to_nat cursor) in
  follow_pages (fun from => es_read_page s id from n) step fuel cursor acc
    = Some (fold_events step acc (rest l))
  /\ follow_pages (fun from => es_read_to_version_page s id from to n) step fuel cursor acc
    = Some (fold_events step acc (rest (filter (fun e => ev_version e <= to) l)))
  /\ follow_pages (fun from => es_read_to_time_page s id from bound n) step fuel cursor acc
    = Some (fold_events step acc (filter (fun e => ev_timestamp e <= bound) (rest l))).
Proof.
  intros Hs Hn Hc Hf l rest. split_and!; [by apply follow_read | | by apply follow_to_time].
  rewrite follow_to_version by done. do 3 f_equal. unfold upto.
  replace (to + 1) with (to + 1 - 0) by lia.
  apply (filter_dense_take to l 0). intros i e Hi. simpl.
  eapply wf_dense; [| done]. by apply es_stream_wf.
Qed.
End clients.

(** ** The in-memory store *)

Section memory.
Context `{!MapIter string}.

Inductive astep : MemoryEventStore -> MemoryEventStore -> Prop :=
| a_append s id es expected clock alloc_ok :
    astep s (snd (append s id es expected clock alloc_ok)).

Lemma astep_es s s' : rtc astep s s' -> rtc es_step s s'.
Proof.
  apply rtc_subrel. intros x y [s0 id es expected clock alloc_ok].
  exact (es_step_append s0 id es expected clock alloc_ok).
Qed.

(** The event log is append-only and dense: whatever sequence of appends (with
    any batches, expected versions and clock readings, refused ones included) runs
    on a store, every stream keeps its old events as a prefix, the event at
    position [i] has version [i], and the reported version is the length minus one. *)
Theorem event_log_append_only s s' id :
  store_wf s -> rtc astep s s' ->
  stream_of s id `prefix_of` stream_of s' id
  /\ (forall i e, stream_of s' id !! i = Some e -> ev_version e = Z.of_nat i)
  /\ version s' id = Ok (Z.of_nat (length (stream_of s' id)) - 1).
Proof.
  intros Hs Hr. pose proof (es_log_append_only s s' id) as P. apply P; [done |].
  by apply astep_es.
Qed.

(** An append does exactly one of three things: an empty batch changes nothing
    and reports the current version; a batch that is refused (stale expected
    version, exhausted versions, failed allocation) reports its error and leaves
    every stream's events as they were; an accepted batch is added at the end of its
    stream with consecutive versions and one timestamp, reports the version of its
    last event, and touches no other stream. *)
Theorem append_exact s id es expected clock alloc_ok r s' :
  store_wf s -> append s id es expected clock alloc_ok = (r, s') ->
  let l := stream_of s id in
  store_wf s'
  /\ (forall id', id' <> id -> streams s' !! id' = streams s !! id')
  /\ match es, append_refused l es expected alloc_ok with
     | [], _ => r = Ok (stream_version l) /\ s' = s
     | _, Some e => r = Err e /\ stream_of s' id = l
     | _, None => r = Ok (stream_version l + Z.of_nat (length es))
         /\ stream_of s' id = l ++ stamp (stream_version l + 1) es clock
     end.
Proof.
  intros Hs E l. pose proof (append_cases s id es expected clock alloc_ok Hs) as Hc.
  pose proof (append_wf s id es expected clock alloc_ok Hs) as Hw.
  rewrite E in Hc, Hw. split; [done |]. unfold stream_version in *.
  destruct Hc as [(-> & -> & ->)|[(Hne & (e & Hr & ->) & ->)|(Hne & Hr & -> & ->)]].
  - split; done.
  - split; [intros; by apply lookup_insert_ne |]. destruct es as [|x es]; [done |].
    fold l in Hr. rewrite Hr. split; [done |]. rewrite stream_of_set. by case_decide.
  - split; [intros; by apply lookup_insert_ne |]. destruct es as [|x es]; [done |].
    fold l in Hr. rewrite Hr. split; [done |]. rewrite stream_of_set.
    case_decide; [| done]. do 2 f_equal. unfold l. lia.
Qed.

(** C8: Optimistic concurrency: of two non-empty appends to one stream that expect
    the same version, at most one succeeds, whatever other appends run between
    them; the one refused changes no stream's events. *)
Theorem append_expected_once s id es1 es2 v t1 t2 a1 a2 r1 s1 s2 :
  store_wf s -> es1 <> [] -> es2 <> [] ->
  append s id es1 (Some v) t1 a1 = (Ok r1, s1) -> rtc astep s1 s2 ->
  exists e s3, append s2 id es2 (Some v) t2 a2 = (Err e, s3)
    /\ forall id', stream_of s3 id' = stream_of s2 id'.
Proof.
  intros Hs H1 H2 E Hr.
  pose proof (es_append_expected_once s id es1 es2 v t1 t2 a1 a2 r1 s1 s2) as P.
  apply P; [done .. |]. by apply astep_es.
Qed.

(** Reading by pages is complete and terminates: with any valid page size, a
    reader that follows the cursors of [read_page] from a version folds exactly the
    events from that version on, in order and each once; with
    [read_to_version_page] exactly those up to the bound, with [read_to_time_page]
    exactly those stored no later than the bound. *)
Theorem paged_reads_complete {A} s id n (step : A -> StoredEvent -> CatgaResult A)
    fuel cursor acc to bound :
  store_wf s -> (0 < n <= MAX_EVENT_STORE_PAGE_SIZE)%nat -> 0 <= cursor ->
  (length (stream_of s id) < fuel)%nat ->
  let l := stream_of s id in
  let rest := drop (Z.to_nat cursor) in
  follow_pages (fun from => read_page s id from n) step fuel cursor acc
    = Some (fold_events step acc (rest l))
  /\ follow_pages (fun from => read_to_version_page s id from to n) step fuel cursor acc
    = Some (fold_events step acc (rest (filter (fun e => ev_version e <= to) l)))
  /\ follow_pages (fun from => read_to_time_page s id from bound n) step fuel cursor acc
    = Some (fold_events step acc (filter (fun e => ev_timestamp e <= bound) (rest l))).
Proof.
  pose proof (es_paged_reads_complete s id n step fuel cursor acc to bound) as P. exact P.
Qed.

(** Enumerating the streams is complete, ordered and terminates: with any
    valid page size, and whatever the hash order, a reader that follows the cursors
    of [stream_ids_page] visits exactly the identifiers of the store, each once, in
    ascending byte order. *)
Theorem stream_ids_complete {A} s n (step : A -> string -> CatgaResult unit * A) fuel acc :
  (0 < n <= MAX_EVENT_STORE_PAGE_SIZE)%nat -> (size (streams s) < fuel)%nat ->
  follow_ids (fun after => stream_ids_page s after n) step fuel None acc
    = Some (fold_m step acc (store_ids s))
  /\ StronglySorted String.le (store_ids s) /\ NoDup (store_ids s)
  /\ forall id, id ∈ store_ids s <-> is_Some (streams s !! id).
Proof.
  intros Hn Hf. pose proof (store_ids_sorted s) as [Hs Hd]. split_and!; [| done | done |].
  - rewrite (follow_ids_fold _ step (store_ids s) n fuel 0 None acc); try lia.
    + by rewrite drop_0.
    + done.
    + done.
    + intros a. by apply stream_ids_page_spec.
    + apply filter_all. done.
    + unfold store_ids. rewrite merge_sort_Permutation, length_fmap, length_map_to_list. lia.
  - apply elem_of_store_ids.
Qed.
End memory.

(** ** Concrete runs *)

Definition es_empty : MemoryEventStore := mkMemoryEventStore ∅.
Definition es_demo_envelope (n : Z) : Envelope :=
  mkEnvelope n "Tick" [1] (MessageMetadata_new n None) None 1 None None.
Definition es_demo1 : MemoryEventStore :=
  snd (append es_empty "a" [es_demo_envelope 1; es_demo_envelope 2] (Some (-1)) 5 true).
Definition es_demo2 : MemoryEventStore :=
  snd (append es_demo1 "b" [es_demo_envelope 3] None 6 true).

Lemma es_empty_wf : store_wf es_empty.
Proof. intros id l E. done. Qed.

Lemma es_demo_wf : store_wf es_demo2.
Proof. apply append_wf, append_wf, es_empty_wf. Qed.

Lemma es_demo_streams :
  streams es_demo2
  = <["b" := stamp 0 [es_demo_envelope 3] 6]>
      (<["a" := stamp 0 [es_demo_envelope 1; es_demo_envelope 2] 5]> ∅).
Proof. vm_compute. reflexivity. Qed.

Lemma es_demo_length id : (length (stream_of es_demo2 id) <= 2)%nat.
Proof.
  unfold stream_of. rewrite es_demo_streams.
  destruct (decide (id = "b")) as [->|]; [rewrite lookup_insert_eq; simpl; lia |].
  rewrite lookup_insert_ne by done.
  destruct (decide (id = "a")) as [->|]; [rewrite lookup_insert_eq; simpl; lia |].
  rewrite lookup_insert_ne by done. rewrite lookup_empty. simpl. lia.
Qed.

Lemma event_log_append_only_witness :
  stream_of es_demo1 "a" `prefix_of` stream_of es_demo2 "a"
  /\ (forall i e, stream_of es_demo2 "a" !! i = Some e -> ev_version e = Z.of_nat i)
  /\ version es_demo2 "a" = Ok (Z.of_nat (length (stream_of es_demo2 "a")) - 1).
Proof.
  apply (event_log_append_only es_demo1 es_demo2 "a").
  - apply append_wf, es_empty_wf.
  - apply rtc_once. constructor.
Defined.

Lemma append_exact_witness :
  store_wf es_demo2 /\ stream_of es_demo2 "b" = [mkStoredEvent 0 (es_demo_envelope 3) 6].
Proof.
  destruct (append_exact es_demo1 "b" [es_demo_envelope 3] None 6 true (Ok 0) es_demo2)
    as (H1 & _ & H2).
  - apply append_wf, es_empty_wf.
  - vm_compute. reflexivity.
  - split; [exact H1 |]. vm_compute in H2. exact (proj2 H2).
Defined.

Lemma append_expected_once_witness :
  exists e s3, append es_demo2 "a" [es_demo_envelope 4] (Some (-1)) 7 true = (Err e, s3)
    /\ forall id', stream_of s3 id' = stream_of es_demo2 id'.
Proof.
  apply (append_expected_once es_empty "a" [es_demo_envelope 1; es_demo_envelope 2]
           [es_demo_envelope 4] (-1) 5 7 true true 1 es_demo1 es_demo2).
  - apply es_empty_wf.
  - discriminate.
  - discriminate.
  - vm_compute. reflexivity.
  - apply rtc_once. constructor.
Defined.

Lemma paged_reads_complete_witness :
  follow_pages (fun from => read_page es_demo2 "a" from 1) (fun n e => Ok (n + ev_version e)) 3 0 0
    = Some (Ok 1).
Proof.
  destruct (paged_reads_complete es_demo2 "a" 1 (fun n e => Ok (n + ev_version e)) 3 0 0 0 0)
    as (H & _).
  - apply es_demo_wf.
  - unfold MAX_EVENT_STORE_PAGE_SIZE. lia.
  - lia.
  - vm_compute. lia.
  - rewrite H. vm_compute. reflexivity.
Defined.

Lemma stream_ids_complete_witness :
  follow_ids (fun after => stream_ids_page es_demo2 after 1) (fun l id => (Ok tt, l ++ [id])) 3 None []
    = Some (Ok tt, ["a"; "b"]).
Proof.
  destruct (stream_ids_complete es_demo2 1 (fun l id => (Ok tt, l ++ [id])) 3 []) as (H & _).
  - unfold MAX_EVENT_STORE_PAGE_SIZE. lia.
  - vm_compute. lia.
  - rewrite H. vm_compute. reflexivity.
Defined.

(** A refused append to a stream that does not exist creates it: after the
    [Conflict], the reads still report version [-1], but the identifier is listed
    among the streams of the store. *)
Theorem refused_append_creates_stream :
  let '(r, s) := append es_empty "ghost" [es_demo_envelope 1] (Some 7) 0 true in
  r = fail Conflict "event stream version conflict"
  /\ version s "ghost" = version es_empty "ghost"
  /\ rmap si_ids (stream_ids_page es_empty None 10) = Ok []
  /\ rmap si_ids (stream_ids_page s None 10) = Ok ["ghost"].
Proof. vm_compute. done. Qed.
