(* ===== verification/Snapshots.v ===== *)
(** * Aggregate snapshots ([snapshot.rs], [memory/snapshot.rs],
    [memory/enhanced_snapshot.rs], [auto_snapshot.rs])

    A snapshot is a state with the stream version it stands for.
    [MemorySnapshots] keeps the latest one per stream, [MemoryEnhancedSnapshots]
    keeps a sorted history.  Both erase the state's type and check it on load.
    [SnapshotLaws] states what they promise to the aggregate repository and to time
    travel. *)

From S2P Require Import Prelude Utf8 Errors Time.

Record Snapshot (A : Type) := mkSnapshot {
  sn_stream_id : string;
  sn_state : A;
  sn_version : Z;
  sn_timestamp : SystemTime
}.
Arguments mkSnapshot {A}.
Arguments sn_stream_id {A}.
Arguments sn_state {A}.
Arguments sn_version {A}.
Arguments sn_timestamp {A}.

Record SnapshotInfo := mkSnapshotInfo { info_version : Z; info_timestamp : SystemTime }.

(** [Arc<dyn Any>] and [downcast::<A>]: what the stores use of them *)
Class AnyState (Dyn A : Type) := {
  to_any : A -> Dyn;
  downcast : Dyn -> option A;
  downcast_any : forall a, downcast (to_any a) = Some a
}.

Definition newer_exists : string := "a newer snapshot already exists for this stream".
Definition type_mismatch : string :=
  "the requested snapshot state type does not match the stored state".

(** ** The latest snapshot per stream *)

Section latest.
Context {Dyn : Type}.

Record SnapshotSlot := mkSlot {
  slot_state : option Dyn;
  slot_version : Z;
  slot_timestamp : SystemTime
}.

Record MemorySnapshots := mkMemorySnapshots { slots : gmap string SnapshotSlot }.

(** [MemorySnapshotSlot::default] *)
Definition slot_default : SnapshotSlot := mkSlot None (-1) 0.

Context {A : Type} `{!AnyState Dyn A}.

Definition slot_save (slot : SnapshotSlot) (snapshot : Snapshot A)
    : CatgaResult unit * SnapshotSlot :=
  if sn_version snapshot <? slot_version slot then (fail Conflict newer_exists, slot)
  else
    (Ok tt, mkSlot (Some (to_any (sn_state snapshot))) (sn_version snapshot)
              (sn_timestamp snapshot)).

Definition slot_load (slot : SnapshotSlot) (stream_id : string)
    : CatgaResult (option (Snapshot A)) :=
  match slot_state slot with
  | None => Ok None
  | Some state =>
    let? state := ok_or (downcast state) (CatgaError_new Validation type_mismatch) in
    Ok (Some (mkSnapshot stream_id state (slot_version slot) (slot_timestamp slot)))
  end.

Definition snapshots_save (s : MemorySnapshots) (snapshot : Snapshot A)
    : CatgaResult unit * MemorySnapshots :=
  let id := sn_stream_id snapshot in
  let '(r, slot) := slot_save (default slot_default (slots s !! id)) snapshot in
  (r, mkMemorySnapshots (<[id := slot]> (slots s))).

Definition snapshots_load (s : MemorySnapshots) (stream_id : string)
    : CatgaResult (option (Snapshot A)) :=
  match slots s !! stream_id with
  | None => Ok None
  | Some slot => slot_load slot stream_id
  end.

Definition snapshots_delete (s : MemorySnapshots) (stream_id : string)
    : CatgaResult unit * MemorySnapshots :=
  (Ok tt, mkMemorySnapshots (delete stream_id (slots s))).
End latest.
Arguments SnapshotSlot : clear implicits.
Arguments MemorySnapshots : clear implicits.

(** ** The history of a stream *)

Section history.
Context {Dyn : Type}.

Record HistoryEntry := mkEntry { entry_state : Dyn; entry_timestamp : SystemTime }.

(** [BTreeMap<i64, SnapshotEntry>]: the entries in ascending order of their keys *)
Abbreviation SnapshotHistory := (list (Z * HistoryEntry)).

Fixpoint btree_insert (v : Z) (e : HistoryEntry) (h : SnapshotHistory) : SnapshotHistory :=
  match h with
  | [] => [(v, e)]
  | (w, e') :: h =>
    if v <? w then (v, e) :: (w, e') :: h
    else if v =? w then (v, e) :: h
    else (w, e') :: btree_insert v e h
  end.

(** [range(..=version).next_back()] *)
Definition last_upto (v : Z) (h : SnapshotHistory) : option (Z * HistoryEntry) :=
  last (filter (fun p => fst p <= v) h).

Record MemoryEnhancedSnapshots := mkEnhanced { histories : gmap string SnapshotHistory }.

Context {A : Type} `{!AnyState Dyn A}.

Definition history_save (h : SnapshotHistory) (snapshot : Snapshot A)
    : CatgaResult SnapshotHistory :=
  if match last h with Some (latest, _) => sn_version snapshot <? latest | None => false end
  then fail Conflict newer_exists
  else Ok (btree_insert (sn_version snapshot)
             (mkEntry (to_any (sn_state snapshot)) (sn_timestamp snapshot)) h).

Definition typed_snapshot (stream_id : string) (entry : Z * HistoryEntry)
    : CatgaResult (option (Snapshot A)) :=
  let? state := ok_or (downcast (entry_state (snd entry)))
    (CatgaError_new Validation type_mismatch) in
  Ok (Some (mkSnapshot stream_id state (fst entry) (entry_timestamp (snd entry)))).

Definition load_latest (h : SnapshotHistory) (stream_id : string)
    : CatgaResult (option (Snapshot A)) :=
  match last h with
  | None => Ok None
  | Some entry => typed_snapshot stream_id entry
  end.

Definition history_load_at (h : SnapshotHistory) (stream_id : string) (version : Z)
    : CatgaResult (option (Snapshot A)) :=
  match last_upto version h with
  | None => Ok None
  | Some entry => typed_snapshot stream_id entry
  end.

(** [entry(..).or_default()], then [update_result]: a refused save leaves the slot. *)
Definition enhanced_save (s : MemoryEnhancedSnapshots) (snapshot : Snapshot A)
    : CatgaResult unit * MemoryEnhancedSnapshots :=
  let id := sn_stream_id snapshot in
  let h := default [] (histories s !! id) in
  match history_save h snapshot with
  | Ok h' => (Ok tt, mkEnhanced (<[id := h']> (histories s)))
  | Err e => (Err e, mkEnhanced (<[id := h]> (histories s)))
  end.

Definition enhanced_load (s : MemoryEnhancedSnapshots) (stream_id : string)
    : CatgaResult (option (Snapshot A)) :=
  match histories s !! stream_id with
  | None => Ok None
  | Some h => load_latest h stream_id
  end.

Definition load_at_version (s : MemoryEnhancedSnapshots) (stream_id : string) (version : Z)
    : CatgaResult (option (Snapshot A)) :=
  match histories s !! stream_id with
  | None => Ok None
  | Some h => history_load_at h stream_id version
  end.
End history.
Arguments HistoryEntry : clear implicits.
Abbreviation SnapshotHistory Dyn := (list (Z * HistoryEntry Dyn)).
Arguments MemoryEnhancedSnapshots : clear implicits.

Section maintenance.
Context {Dyn : Type}.
Implicit Types s : MemoryEnhancedSnapshots Dyn.

Definition enhanced_delete s (stream_id : string)
    : CatgaResult unit * MemoryEnhancedSnapshots Dyn :=
  (Ok tt, mkEnhanced (delete stream_id (histories s))).

Definition history s (stream_id : string) : CatgaResult (list SnapshotInfo) :=
  match histories s !! stream_id with
  | None => Ok []
  | Some h => Ok ((fun p => mkSnapshotInfo (fst p) (entry_timestamp (snd p))) <$> h)
  end.

(** [slot.update(transform)]: [None] leaves the history. *)
Definition update_history s (stream_id : string)
    (transform : SnapshotHistory Dyn -> option (SnapshotHistory Dyn))
    : CatgaResult unit * MemoryEnhancedSnapshots Dyn :=
  match histories s !! stream_id with
  | None => (Ok tt, s)
  | Some h =>
    match transform h with
    | None => (Ok tt, s)
    | Some h' => (Ok tt, mkEnhanced (<[stream_id := h']> (histories s)))
    end
  end.

Definition delete_before_version s (stream_id : string) (version : Z)
    : CatgaResult unit * MemoryEnhancedSnapshots Dyn :=
  update_history s stream_id (fun current =>
    if match current with [] => true | (oldest, _) :: _ => version <=? oldest end then None
    else Some (filter (fun p => version <= fst p) current)).

(** [while len > keep { pop_first }] *)
Fixpoint pop_until (keep_count : nat) (h : SnapshotHistory Dyn) : SnapshotHistory Dyn :=
  match h with
  | [] => []
  | _ :: h' => if (keep_count <? length h)%nat then pop_until keep_count h' else h
  end.

Definition cleanup_snapshots s (stream_id : string) (keep_count : nat)
    : CatgaResult unit * MemoryEnhancedSnapshots Dyn :=
  update_history s stream_id (fun current =>
    if (length current <=? keep_count)%nat then None else Some (pop_until keep_count current)).
End maintenance.

(** ** What the stores promise *)

Class SnapshotLaws (S A : Type) := {
  ss_save : S -> Snapshot A -> CatgaResult unit * S;
  ss_load : S -> string -> CatgaResult (option (Snapshot A));
  ss_wf : S -> Prop;
  ss_save_wf : forall s x, ss_wf s -> ss_wf (snd (ss_save s x));
  ss_save_ok : forall s x u s', ss_wf s -> ss_save s x = (Ok u, s') ->
    ss_load s' (sn_stream_id x) = Ok (Some x)
    /\ forall id, id <> sn_stream_id x -> ss_load s' id = ss_load s id;
  ss_save_err : forall s x e s', ss_wf s -> ss_save s x = (Err e, s') ->
    forall id, ss_load s' id = ss_load s id
}.

Class HistoryLaws (S A : Type) `{!SnapshotLaws S A} := {
  ss_load_at : S -> string -> Z -> CatgaResult (option (Snapshot A));
  ss_load_at_bound : forall s id v x,
    ss_load_at s id v = Ok (Some x) -> sn_version x <= v;
  ss_load_at_saved : forall s x u s' v, ss_wf s -> ss_save s x = (Ok u, s') ->
    ss_load_at s' (sn_stream_id x) v
    = (if decide (sn_version x <= v) then Ok (Some x) else ss_load_at s (sn_stream_id x) v)
    /\ forall id, id <> sn_stream_id x -> ss_load_at s' id v = ss_load_at s id v;
  ss_load_at_err : forall s x e s', ss_wf s -> ss_save s x = (Err e, s') ->
    forall id v, ss_load_at s' id v = ss_load_at s id v
}.

#[export] Hint Resolve ss_save_wf : catga.

Section latest_laws.
Context {Dyn A : Type} `{!AnyState Dyn A}.

#[export, refine] Instance memory_snapshots_laws : SnapshotLaws (MemorySnapshots Dyn) A := {|
  ss_save := snapshots_save;
  ss_load := snapshots_load;
  ss_wf s := True
|}.
Proof.
  - done.
  - intros s x u s' _ E. unfold snapshots_save in E.
    destruct (slot_save _ x) as [r slot] eqn:Es. simplify_eq. unfold slot_save in Es.
    destruct (_ <? _); [unfold fail in Es; simplify_eq |]. simplify_eq. unfold snapshots_load. simpl. split.
    + rewrite lookup_insert_eq. unfold slot_load. simpl. rewrite downcast_any. simpl.
      by destruct x.
    + intros id Hne. by rewrite lookup_insert_ne.
  - intros s x e s' _ E id. unfold snapshots_save in E.
    destruct (slot_save _ x) as [r slot] eqn:Es. simplify_eq. unfold slot_save in Es.
    destruct (_ <? _); [| simplify_eq]. simplify_eq. unfold snapshots_load. simpl.
    destruct (decide (sn_stream_id x = id)) as [<-|]; [| by rewrite lookup_insert_ne].
    rewrite lookup_insert_eq. by destruct (slots s !! _).
Defined.
End latest_laws.

(** ** The sorted history *)

Section history_lemmas.
Context {Dyn : Type}.
Implicit Types h : SnapshotHistory Dyn.

Definition ascending h : Prop := StronglySorted Z.lt h.*1.

Definition enhanced_wf (s : MemoryEnhancedSnapshots Dyn) : Prop :=
  forall id h, histories s !! id = Some h -> ascending h.

Lemma ascending_inv v e h :
  ascending ((v, e) :: h) -> ascending h /\ forall p, p ∈ h -> v < fst p.
Proof.
  intros Hs. apply StronglySorted_inv in Hs as [Hs Hall]. split; [done |].
  intros p Hp. eapply Forall_forall in Hall; [exact Hall |]. by apply list_elem_of_fmap_2.
Qed.

Lemma ascending_cons v e h :
  ascending h -> (forall p, p ∈ h -> v < fst p) -> ascending ((v, e) :: h).
Proof.
  intros Hs Hlt. constructor; [done |]. apply Forall_forall.
  intros w (p & -> & Hp)%list_elem_of_fmap. auto.
Qed.

Lemma ascending_filter P `{!forall x, Decision (P x)} h : ascending h -> ascending (filter P h).
Proof.
  induction h as [|[v e] h IH]; [done |]. intros [Hs Hlt]%ascending_inv.
  rewrite filter_cons. case_decide; [| auto]. apply ascending_cons; [auto |].
  intros p [_ Hp]%list_elem_of_filter. auto.
Qed.

Lemma ascending_drop n h : ascending h -> ascending (drop n h).
Proof.
  revert n. induction h as [|[v e] h IH]; intros [|n] Hs; try done.
  apply ascending_inv in Hs as [Hs _]. by apply IH.
Qed.

Lemma ascending_last h v e p : ascending h -> last h = Some (v, e) -> p ∈ h -> fst p <= v.
Proof.
  induction h as [|[w x] h IH]; intros Hs Hl Hp; [done |].
  apply ascending_inv in Hs as [Hs Hlt]. destruct h as [|q h].
  - simpl in Hl. simplify_eq. apply list_elem_of_singleton in Hp as ->. done.
  - rewrite last_cons_cons in Hl. apply elem_of_cons in Hp as [->|Hp]; [| by apply IH].
    simpl. assert ((v, e) ∈ q :: h) as Hin by (by apply last_Some_elem_of).
    apply Hlt in Hin. simpl in Hin. lia.
Qed.

(** Inserting at or after the last key *)
Lemma btree_insert_last v e h :
  ascending h -> (forall p, p ∈ h -> fst p <= v) ->
  btree_insert v e h = filter (fun p => fst p < v) h ++ [(v, e)].
Proof.
  induction h as [|[w x] h IH]; intros Hs Hle; [done |].
  apply ascending_inv in Hs as [Hs Hlt]. simpl.
  assert (w <= v) as Hw by (apply (Hle (w, x)); set_solver).
  destruct (Z.ltb_spec v w); [lia |]. rewrite filter_cons. simpl. destruct (Z.eqb_spec v w) as [->|].
  - case_decide; [lia |]. destruct h as [|p h]; [done |]. exfalso.
    pose proof (Hlt p ltac:(set_solver)). pose proof (Hle p ltac:(set_solver)). lia.
  - case_decide; [| lia]. simpl. f_equal. apply IH; [done |]. intros p Hp. apply Hle. by right.
Qed.

Lemma ascending_app_last v e h :
  ascending h -> (forall p, p ∈ h -> fst p < v) -> ascending (h ++ [(v, e)]).
Proof.
  intros Hs Hlt. unfold ascending. rewrite fmap_app. apply StronglySorted_app. split_and!.
  - intros x y (p & -> & Hp)%list_elem_of_fmap Hy. simpl in Hy.
    apply list_elem_of_singleton in Hy as ->. auto.
  - done.
  - repeat constructor.
Qed.

Lemma ascending_nodup h : ascending h -> NoDup h.*1.
Proof.
  induction h as [|[v e] h IH]; intros Hs; [constructor |]. apply ascending_inv in Hs as [Hs Hlt].
  constructor; [| auto]. intros (p & E & Hp)%list_elem_of_fmap. apply Hlt in Hp. simpl in *. lia.
Qed.

(** What a lookup finds: the greatest key that is not above the bound. *)
Lemma last_upto_spec h v w e :
  ascending h ->
  last_upto v h = Some (w, e)
  <-> (w, e) ∈ h /\ w <= v /\ forall p, p ∈ h -> fst p <= v -> fst p <= w.
Proof.
  intros Hs. unfold last_upto. split.
  - intros Hl. assert ((w, e) ∈ filter (fun p => fst p <= v) h) as Hin by (by apply last_Some_elem_of).
    apply list_elem_of_filter in Hin as [Hle Hin]. split_and!; [done | done |].
    intros p Hp Hpv. apply (ascending_last _ w e p (ascending_filter _ _ Hs) Hl).
    by apply list_elem_of_filter.
  - intros (Hin & Hle & Hmax).
    assert ((w, e) ∈ filter (fun p => fst p <= v) h) as Hf by (by apply list_elem_of_filter).
    destruct (last (filter _ h)) as [[w' e']|] eqn:Hl; [| apply last_None in Hl; rewrite Hl in Hf; set_solver].
    assert ((w', e') ∈ h /\ w' <= v) as [Hin' Hle'].
    { apply last_Some_elem_of, list_elem_of_filter in Hl. naive_solver. }
    assert (w' = w) as ->.
    { pose proof (Hmax _ Hin' Hle'). simpl in *.
      pose proof (ascending_last _ _ _ _ (ascending_filter _ _ Hs) Hl Hf). simpl in *. lia. }
    do 2 f_equal. assert (NoDup h.*1) as Hnd.
    { by apply ascending_nodup. }
    apply list_elem_of_lookup in Hin as [i Hi]. apply list_elem_of_lookup in Hin' as [j Hj].
    assert (i = j) as ->; [| congruence].
    eapply NoDup_lookup; [exact Hnd | |]; rewrite list_lookup_fmap; [by rewrite Hi | by rewrite Hj].
Qed.

Lemma last_upto_insert v e h u :
  ascending h -> (forall p, p ∈ h -> fst p <= v) ->
  last_upto u (btree_insert v e h)
  = if decide (v <= u) then Some (v, e) else last_upto u h.
Proof.
  intros Hs Hle. rewrite btree_insert_last by done. unfold last_upto. rewrite filter_app.
  rewrite filter_cons, filter_nil. case_decide as D; simpl in D.
  - rewrite last_snoc. by case_decide.
  - rewrite app_nil_r. case_decide; [done |]. f_equal. rewrite list_filter_filter.
    apply list_filter_iff. intros p. lia.
Qed.

Lemma pop_until_drop k h : pop_until k h = drop (length h - k) h.
Proof.
  induction h as [|p h IH]; [done |]. cbn [pop_until]. destruct (Nat.ltb_spec k (length (p :: h))).
  - rewrite IH. simpl in *. replace (S (length h) - k)%nat with (S (length h - k)) by lia. done.
  - by replace (length (p :: h) - k)%nat with 0%nat by lia.
Qed.
End history_lemmas.

Section enhanced_laws.
Context {Dyn A : Type} `{!AnyState Dyn A}.
Implicit Types s : MemoryEnhancedSnapshots Dyn.

Definition history_of s (id : string) : SnapshotHistory Dyn := default [] (histories s !! id).

Lemma history_of_ascending s id : enhanced_wf s -> ascending (history_of s id).
Proof.
  intros Hs. unfold history_of. destruct (histories s !! id) eqn:E; simpl; [by eapply Hs | constructor].
Qed.

Lemma enhanced_wf_insert s id h :
  enhanced_wf s -> ascending h -> enhanced_wf (mkEnhanced (<[id := h]> (histories s))).
Proof.
  intros Hs Hh id' h'. simpl. rewrite lookup_insert_Some. intros [[_ <-]|[_ ?]]; [done | by eapply Hs].
Qed.

Lemma history_save_ok (h h' : SnapshotHistory Dyn) (x : Snapshot A) :
  ascending h -> history_save h x = Ok h' ->
  (forall p, p ∈ h -> fst p <= sn_version x)
  /\ h' = btree_insert (sn_version x) (mkEntry (to_any (sn_state x)) (sn_timestamp x)) h.
Proof.
  intros Hs. unfold history_save. destruct (last h) as [[latest e]|] eqn:Hl.
  - destruct (Z.ltb_spec (sn_version x) latest); [done |]. intros. simplify_eq. split; [| done].
    intros p Hp. pose proof (ascending_last _ _ _ _ Hs Hl Hp). lia.
  - apply last_None in Hl. subst h. intros. simplify_eq. split; [set_solver | done].
Qed.

Lemma history_save_ascending (h h' : SnapshotHistory Dyn) (x : Snapshot A) :
  ascending h -> history_save h x = Ok h' -> ascending h'.
Proof.
  intros Hs [Hle ->]%history_save_ok; [| done]. rewrite btree_insert_last by done.
  apply ascending_app_last; [by apply ascending_filter |].
  intros p [Hp _]%list_elem_of_filter. done.
Qed.

Lemma enhanced_save_wf s (x : Snapshot A) : enhanced_wf s -> enhanced_wf (snd (enhanced_save s x)).
Proof.
  intros Hs. unfold enhanced_save. fold (history_of s (sn_stream_id x)).
  pose proof (history_of_ascending s (sn_stream_id x) Hs) as Hh.
  destruct (history_save _ x) eqn:E; apply enhanced_wf_insert; try done.
  by eapply history_save_ascending.
Qed.

Lemma load_latest_upto (h : SnapshotHistory Dyn) id v :
  (forall p, p ∈ h -> fst p <= v) ->
  load_latest (A := A) h id = history_load_at h id v.
Proof.
  intros Hle. unfold load_latest, history_load_at, last_upto. rewrite filter_all by done. done.
Qed.

(** A save is visible to every later read, and only there. *)
Lemma load_at_save s (x : Snapshot A) u s' v :
  enhanced_wf s -> enhanced_save s x = (Ok u, s') ->
  load_at_version s' (sn_stream_id x) v
  = (if decide (sn_version x <= v) then Ok (Some x) else load_at_version s (sn_stream_id x) v)
  /\ forall id, id <> sn_stream_id x -> load_at_version (A := A) s' id v = load_at_version s id v.
Proof.
  intros Hs E. unfold enhanced_save in E. fold (history_of s (sn_stream_id x)) in E.
  pose proof (history_of_ascending s (sn_stream_id x) Hs) as Hh.
  destruct (history_save _ x) as [h'|] eqn:Eh; simplify_eq. unfold load_at_version. simpl. split.
  - rewrite lookup_insert_eq. apply history_save_ok in Eh as [Hle ->]; [| done].
    unfold history_load_at. rewrite last_upto_insert by done. case_decide.
    + unfold typed_snapshot. simpl. rewrite downcast_any. simpl. by destruct x.
    + unfold history_of. by destruct (histories s !! _).
  - intros id Hne. by rewrite lookup_insert_ne.
Qed.

Lemma enhanced_save_err s (x : Snapshot A) e s' :
  enhanced_save s x = (Err e, s') -> forall id, history_of s' id = history_of s id.
Proof.
  intros E id. unfold enhanced_save in E. destruct (history_save _ x) eqn:Eh; simplify_eq.
  unfold history_of. simpl. destruct (decide (sn_stream_id x = id)) as [<-|].
  - by rewrite lookup_insert_eq.
  - by rewrite lookup_insert_ne.
Qed.

Lemma load_at_history s id v :
  load_at_version (A := A) s id v = history_load_at (history_of s id) id v.
Proof. unfold load_at_version, history_of. by destruct (histories s !! id). Qed.

Lemma load_history s id : enhanced_load (A := A) s id = load_latest (history_of s id) id.
Proof. unfold enhanced_load, history_of. by destruct (histories s !! id). Qed.

#[export, refine] Instance enhanced_snapshots_laws
    : SnapshotLaws (MemoryEnhancedSnapshots Dyn) A := {|
  ss_save := enhanced_save;
  ss_load := enhanced_load;
  ss_wf := enhanced_wf
|}.
Proof.
  - apply enhanced_save_wf.
  - intros s x u s' Hs E. pose proof (enhanced_save_wf s x Hs) as Hs'. rewrite E in Hs'. simpl in Hs'.
    rewrite load_history. split.
    + set (v := default (sn_version x) (fst <$> last (history_of s' (sn_stream_id x)))).
      assert (forall p, p ∈ history_of s' (sn_stream_id x) -> fst p <= v) as Hle.
      { intros p Hp. unfold v. destruct (last _) as [[w e]|] eqn:Hl.
        - by eapply ascending_last; [apply history_of_ascending | |].
        - apply last_None in Hl. rewrite Hl in Hp; set_solver. }
      rewrite (load_latest_upto _ _ v Hle), <-load_at_history.
      destruct (load_at_save s x u s' v Hs E) as [-> _]. case_decide as D; [done |]. exfalso.
      unfold enhanced_save in E. destruct (history_save _ x) as [h'|] eqn:Eh; simplify_eq.
      apply D. fold (history_of s (sn_stream_id x)) in Eh.
      apply history_save_ok in Eh as [Hle' ->]; [| by apply history_of_ascending].
      apply (Hle (sn_version x, mkEntry (to_any (sn_state x)) (sn_timestamp x))).
      unfold history_of at 1. simpl. rewrite lookup_insert_eq. simpl.
      rewrite btree_insert_last by (auto using history_of_ascending). set_solver.
    + intros id Hne. rewrite !load_history. unfold enhanced_save in E.
      destruct (history_save _ x); simplify_eq. unfold history_of. simpl. by rewrite lookup_insert_ne.
  - intros s x e s' _ E id. rewrite !load_history. by rewrite (enhanced_save_err _ _ _ _ E).
Defined.

Lemma typed_snapshot_inv id p (x : Snapshot A) :
  typed_snapshot (Dyn := Dyn) id p = Ok (Some x) ->
  sn_version x = fst p /\ sn_stream_id x = id /\ sn_timestamp x = entry_timestamp (snd p)
  /\ downcast (entry_state (snd p)) = Some (sn_state x).
Proof.
  unfold typed_snapshot. destruct (downcast _) eqn:E; [| done]. simpl. intros. by simplify_eq.
Qed.

#[export, refine] Instance enhanced_history_laws
    : HistoryLaws (MemoryEnhancedSnapshots Dyn) A := {|
  ss_load_at := load_at_version
|}.
Proof.
  - intros s id v x. rewrite load_at_history. unfold history_load_at, last_upto.
    destruct (last _) as [p|] eqn:Hl; [| done]. intros (-> & _)%typed_snapshot_inv.
    by apply last_Some_elem_of, list_elem_of_filter in Hl as [? _].
  - apply load_at_save.
  - intros s x e s' _ E id v. rewrite !load_at_history. by rewrite (enhanced_save_err _ _ _ _ E).
Defined.
End enhanced_laws.

(** ** When to take a snapshot ([aggregate.rs], [auto_snapshot.rs]) *)

Record EventCountSnapshotStrategy := mkEventCount { count_interval : Z }.
Record TimeBasedSnapshotStrategy := mkTimeBased { time_interval : Duration }.
Record CompositeSnapshotStrategy := mkComposite {
  composite_events : EventCountSnapshotStrategy;
  composite_time : TimeBasedSnapshotStrategy
}.

Definition EventCount_new (interval : Z) : option EventCountSnapshotStrategy :=
  if interval =? 0 then None else Some (mkEventCount interval).

Definition should_snapshot (st : EventCountSnapshotStrategy) (current last_snapshot : Z) : bool :=
  default (int_max i64) (checked i64 (count_interval st))
  <=? saturating i64 (current - last_snapshot).

Definition time_should_snapshot (st : TimeBasedSnapshotStrategy) (last_snapshot now : SystemTime)
    : bool :=
  match duration_since now last_snapshot with
  | Some elapsed => time_interval st <=? elapsed
  | None => false
  end.

Definition composite_should_snapshot (st : CompositeSnapshotStrategy) (current last_version : Z)
    (last_snapshot now : SystemTime) : bool :=
  should_snapshot (composite_events st) current last_version
  || time_should_snapshot (composite_time st) last_snapshot now.

Section auto_snapshot.
Context {S A : Type} `{!SnapshotLaws S A}.

(** [AutoSnapshotManager::check_and_save_shared] *)
Definition check_and_save (should : Z -> Z -> bool) (s : S) (stream_id : string) (state : A)
    (current_version : Z) (clock : SystemTime) : CatgaResult bool * S :=
  match ss_load s stream_id with
  | Err e => (Err e, s)
  | Ok snapshot =>
    let last_snapshot_version := default (-1) (sn_version <$> snapshot) in
    if should current_version last_snapshot_version then
      match ss_save s (mkSnapshot stream_id state current_version clock) with
      | (Ok _, s) => (Ok true, s)
      | (Err e, s) => (Err e, s)
      end
    else (Ok false, s)
  end.
End auto_snapshot.

(** ** Properties *)

Section properties.
Context {Dyn A : Type} `{!AnyState Dyn A}.
Implicit Types s : MemoryEnhancedSnapshots Dyn.

Inductive hstep : MemoryEnhancedSnapshots Dyn -> MemoryEnhancedSnapshots Dyn -> Prop :=
| h_save s (x : Snapshot A) : hstep s (snd (enhanced_save s x))
| h_delete s id : hstep s (snd (enhanced_delete s id))
| h_delete_before s id v : hstep s (snd (delete_before_version s id v))
| h_cleanup s id k : hstep s (snd (cleanup_snapshots s id k)).

Lemma delete_before_history s id v :
  enhanced_wf s ->
  let s' := snd (delete_before_version s id v) in
  enhanced_wf s' /\ history_of s' id = filter (fun p => v <= fst p) (history_of s id).
Proof.
  intros Hs. unfold delete_before_version, update_history, history_of.
  destruct (histories s !! id) as [h|] eqn:E; simpl; [| by rewrite E].
  pose proof (Hs _ _ E) as Hh. destruct h as [|[o e] h]; simpl; [by rewrite E |].
  pose proof (ascending_inv _ _ _ Hh) as [_ Hlt].
  destruct (Z.leb_spec v o) as [Hvo|Hvo]; simpl.
  - rewrite E. split; [done |]. simpl. symmetry. apply (filter_all _ ((o, e) :: h)).
    intros p [->|Hp]%elem_of_cons; [done |]. apply Hlt in Hp. simpl in *. lia.
  - rewrite lookup_insert_eq. split; [| done].
    by apply enhanced_wf_insert, (ascending_filter _ ((o, e) :: h)).
Qed.

Lemma cleanup_history s id k :
  enhanced_wf s ->
  let s' := snd (cleanup_snapshots s id k) in
  enhanced_wf s' /\ history_of s' id = drop (length (history_of s id) - k) (history_of s id).
Proof.
  intros Hs. unfold cleanup_snapshots, update_history, history_of.
  destruct (histories s !! id) as [h|] eqn:E; simpl; [| by rewrite E].
  destruct (Nat.leb_spec (length h) k); simpl.
  - rewrite E. simpl. replace (length h - k)%nat with 0%nat by lia. by rewrite drop_0.
  - rewrite lookup_insert_eq, pop_until_drop. split; [| done].
    apply enhanced_wf_insert, ascending_drop; [done |]. by eapply Hs.
Qed.

Lemma hstep_wf s s' : enhanced_wf s -> hstep s s' -> enhanced_wf s'.
Proof.
  intros Hs Hst. revert Hs. destruct Hst as [s x|s id|s id v|s id k]; intros Hs.
  - by apply enhanced_save_wf.
  - intros id' h. simpl. rewrite lookup_delete_Some. intros [_ ?]. by eapply Hs.
  - by apply delete_before_history.
  - by apply cleanup_history.
Qed.

(** The multi-version snapshot store keeps every stream's history in strictly
    ascending version order through any sequence of saves, deletions and cleanups,
    and in every such state: [load_at_version] finds the newest snapshot at or
    below the version, and answers [None] only when there is none; [cleanup] keeps
    exactly the newest [k] snapshots; [delete_before_version] keeps exactly those
    at or above the version. *)
Theorem snapshot_history_exact s s' id v k :
  enhanced_wf s -> rtc hstep s s' ->
  let h := history_of s' id in
  ascending h
  /\ (forall x : Snapshot A, load_at_version s' id v = Ok (Some x) ->
      exists e, (sn_version x, e) ∈ h /\ downcast (entry_state e) = Some (sn_state x)
        /\ sn_version x <= v /\ forall p, p ∈ h -> fst p <= v -> fst p <= sn_version x)
  /\ (load_at_version (A := A) s' id v = Ok None -> forall p, p ∈ h -> v < fst p)
  /\ history_of (snd (cleanup_snapshots s' id k)) id = drop (length h - k) h
  /\ history_of (snd (delete_before_version s' id v)) id = filter (fun p => v <= fst p) h.
Proof.
  intros Hs Hr h.
  assert (enhanced_wf s') as Hs' by (revert Hs; induction Hr; eauto using hstep_wf).
  pose proof (history_of_ascending s' id Hs') as Hh. split_and!; [done | | | |].
  - intros x. rewrite load_at_history. unfold history_load_at.
    destruct (last_upto v (history_of s' id)) as [[w e]|] eqn:Hl; [| done].
    apply last_upto_spec in Hl as (Hin & Hle & Hmax); [| done].
    intros (Hv & _ & _ & Hd)%typed_snapshot_inv. simpl in *. exists e. by rewrite Hv.
  - rewrite load_at_history. unfold history_load_at.
    destruct (last_upto v (history_of s' id)) eqn:Hl.
    + unfold typed_snapshot. by destruct (downcast _).
    + intros _ p Hp. apply last_None in Hl. apply Z.nle_gt. intros Hle.
      by apply (filter_nil_not_elem_of _ _ p Hl Hle).
  - by apply cleanup_history.
  - by apply delete_before_history.
Qed.
End properties.

(** ** A concrete history: the states are numbers *)

#[export] Instance any_self (A : Type) : AnyState A A := {|
  to_any a := a; downcast a := Some a; downcast_any a := eq_refl
|}.

Definition snap_demo : MemoryEnhancedSnapshots Z :=
  foldl (fun s v => snd (enhanced_save s (mkSnapshot "s" (10 * v) v 0))) (mkEnhanced ∅) [1; 4; 9].

Lemma snapshot_history_exact_witness :
  rtc (hstep (A := Z)) (mkEnhanced ∅) snap_demo
  /\ load_at_version snap_demo "s" 7 = Ok (Some (mkSnapshot "s" 40 4 0))
  /\ (history_of (snd (cleanup_snapshots snap_demo "s" 2)) "s").*1 = [4; 9].
Proof.
  assert (rtc (hstep (A := Z)) (mkEnhanced ∅) snap_demo) as Hr.
  { eapply rtc_l; [apply (h_save _ (mkSnapshot "s" 10 1 0)) |].
    eapply rtc_l; [apply (h_save _ (mkSnapshot "s" 40 4 0)) |].
    eapply rtc_l; [apply (h_save _ (mkSnapshot "s" 90 9 0)) |]. vm_compute. apply rtc_refl. }
  destruct (snapshot_history_exact (A := Z) (mkEnhanced ∅) snap_demo "s" 7 2)
    as (_ & _ & _ & Hc & _).
  - intros id h E. discriminate E.
  - exact Hr.
  - split; [exact Hr |]. split; [vm_compute; reflexivity |]. rewrite Hc. vm_compute. reflexivity.
Defined.
