(* ===== verification/Aggregates.v ===== *)
(** * Event-sourced aggregates ([aggregate.rs], [time_travel.rs])

    [AggregateRepository] loads an aggregate from its latest snapshot and the later
    events of its stream, and saves pending events with the version they were
    decided on.  The time-travel services rebuild earlier states.  Everything here
    is stated against [EventStoreLaws] and [SnapshotLaws]: any store that keeps
    those promises will do. *)

From S2P Require Import Prelude Utf8 Errors Time Messages Heap EventStore Snapshots.

(** ** The [Aggregate] trait: user code *)

Class Aggregate (A : Type) := {
  agg_new : string -> A;
  agg_stream_id : string -> string;
  agg_id : A -> string;
  agg_version : A -> Z;
  agg_apply : A -> Envelope -> CatgaResult A;
  agg_pending : A -> list Envelope;
  agg_clear : A -> A
}.

(** What the trait's documentation asks of an implementation *)
Class AggregateLaws (A : Type) `{!Aggregate A} := {
  new_version : forall id, agg_version (agg_new id) = -1;
  apply_version : forall a e a', agg_apply a e = Ok a' -> agg_version a' = agg_version a + 1;
  clear_version : forall a, agg_version (agg_clear a) = agg_version a
}.

Definition next_event_version (version : Z) : option Z :=
  if version =? int_max i64 then None else Some (default 0 (checked u64 (version + 1))).

Definition validate_comparison (from_version to_version : Z) : CatgaResult unit :=
  if to_version <? from_version
  then fail Validation "comparison starting version must not exceed the ending version"
  else Ok tt.

Definition MAX_STATE_COMPARISON_EVENTS : nat := MAX_EVENT_STORE_PAGE_SIZE.

Record StateComparison (A : Type) := mkComparison {
  from_state : option A;
  to_state : option A;
  cmp_from_version : Z;
  cmp_to_version : Z;
  events_between : list VersionInfo
}.
Arguments mkComparison {A}.

Section aggregate.
Context {A : Type} `{!Aggregate A}.

Definition apply_event (a : A) (e : StoredEvent) : CatgaResult A :=
  let? a := agg_apply a (ev_envelope e) in
  if agg_version a =? ev_version e then Ok a
  else fail Validation "aggregate apply did not advance to the stored event version".

(** The loop body of the readers: apply, and note that an event was seen *)
Definition apply_found (acc : A * bool) (e : StoredEvent) : CatgaResult (A * bool) :=
  let? a := apply_event (fst acc) e in Ok (a, true).

(** The state to start from, the cursor, and whether a snapshot was found *)
Definition snapshot_state (id : string) (snapshot : option (Snapshot A))
    : CatgaResult (A * option Z * bool) :=
  match snapshot with
  | Some snapshot =>
    if agg_version (sn_state snapshot) =? sn_version snapshot
    then Ok (sn_state snapshot, next_event_version (sn_version snapshot), true)
    else fail Validation "aggregate snapshot version does not match its state"
  | None => Ok (agg_new id, Some 0, false)
  end.

Definition page_size : nat := MAX_EVENT_STORE_PAGE_SIZE.

Section services.
Context {ES : Type} `{!EventStoreLaws ES}.

(** [found.then_some(aggregate)] *)
Definition then_some (r : option (CatgaResult (A * bool))) : option (CatgaResult (option A)) :=
  rmap (fun '(a, found) => if found : bool then Some a else None) <$> r.

(** ** [AggregateRepository] *)

Section repository.
Context {SS : Type} `{!SnapshotLaws SS A}.

Definition load (fuel : nat) (es : ES) (ss : SS) (id : string)
    : option (CatgaResult (option A)) :=
  let stream_id := agg_stream_id id in
  match (let? snapshot := ss_load ss stream_id in snapshot_state id snapshot) with
  | Err e => Some (Err e)
  | Ok (aggregate, None, _) => Some (Ok (Some aggregate))
  | Ok (aggregate, Some next_version, has_snapshot) =>
    match follow_pages (fun from => es_read_page es stream_id from page_size)
            apply_found fuel next_version (aggregate, false) with
    | None => None
    | Some (Err e) => Some (Err e)
    | Some (Ok (aggregate, found_event)) =>
      Some (Ok (if negb has_snapshot && negb found_event then None else Some aggregate))
    end
  end.

(** [save] may change all three: the aggregate, the events, the snapshots. *)
Definition save (es : ES) (ss : SS) (strategy : EventCountSnapshotStrategy) (aggregate : A)
    (append_clock snapshot_clock : SystemTime) (alloc_ok : bool)
    : CatgaResult unit * (A * ES * SS) :=
  let pending := agg_pending aggregate in
  match pending with
  | [] => (Ok tt, (aggregate, es, ss))
  | _ =>
    match
      (let? pending_count := ok_or (checked i64 (Z.of_nat (length pending)))
         (CatgaError_new Validation
            "aggregate pending event count exceeds the supported stream version range") in
       ok_or (checked i64 (agg_version aggregate - pending_count))
         (CatgaError_new Validation "aggregate version is lower than its pending event count"))
    with
    | Err e => (Err e, (aggregate, es, ss))
    | Ok expected_version =>
      let stream_id := agg_stream_id (agg_id aggregate) in
      match es_append es stream_id pending (Some expected_version) append_clock alloc_ok with
      | (Err e, es) => (Err e, (aggregate, es, ss))
      | (Ok _, es) =>
        let aggregate := agg_clear aggregate in
        match ss_load ss stream_id with
        | Err e => (Err e, (aggregate, es, ss))
        | Ok snapshot =>
          let last_snapshot_version := default (-1) (sn_version <$> snapshot) in
          if should_snapshot strategy (agg_version aggregate) last_snapshot_version then
            let '(r, ss) := ss_save ss (mkSnapshot stream_id aggregate (agg_version aggregate)
                                          snapshot_clock) in
            (r, (aggregate, es, ss))
          else (Ok tt, (aggregate, es, ss))
        end
      end
    end
  end.
End repository.

(** ** [TimeTravelService] *)

Definition rebuild_version (fuel : nat) (es : ES) (id stream_id : string) (target : Z)
    : option (CatgaResult (option A)) :=
  then_some (follow_pages (fun from => es_read_to_version_page es stream_id from target page_size)
               apply_found fuel 0 (agg_new id, false)).

Definition rebuild_time (fuel : nat) (es : ES) (id stream_id : string) (upper_bound : SystemTime)
    : option (CatgaResult (option A)) :=
  then_some (follow_pages (fun from => es_read_to_time_page es stream_id from upper_bound page_size)
               apply_found fuel 0 (agg_new id, false)).

Definition state_at_version (fuel : nat) (es : ES) (id : string) (version : Z)
    : option (CatgaResult (option A)) :=
  if version <? 0 then Some (Ok None)
  else rebuild_version fuel es id (agg_stream_id id) version.

Definition state_at_time (fuel : nat) (es : ES) (id : string) (upper_bound : SystemTime)
    : option (CatgaResult (option A)) :=
  rebuild_time fuel es id (agg_stream_id id) upper_bound.

Definition push_history (from : Z) (history : list VersionInfo) (e : StoredEvent)
    : CatgaResult (list VersionInfo) :=
  if from <? ev_version e then
    if (length history =? MAX_STATE_COMPARISON_EVENTS)%nat
    then fail Validation "state comparison history exceeds the bounded result limit"
    else Ok (history ++ [version_info e])
  else Ok history.

Definition comparison_history (fuel : nat) (es : ES) (stream_id : string) (from to : Z)
    : option (CatgaResult (list VersionInfo)) :=
  if to <? 0 then Some (Ok [])
  else follow_pages (fun cursor => es_read_to_version_page es stream_id cursor to page_size)
         (push_history from) fuel 0 [].

(** The two states, then the events between them; [at_version] is the service's own
    [state_at_version]. *)
Definition compare_with (at_version : Z -> option (CatgaResult (option A))) (fuel : nat) (es : ES)
    (stream_id : string) (from_version to_version : Z)
    : option (CatgaResult (StateComparison A)) :=
  match validate_comparison from_version to_version with
  | Err e => Some (Err e)
  | Ok _ =>
    match at_version from_version with
    | None => None
    | Some (Err e) => Some (Err e)
    | Some (Ok from_state) =>
      match at_version to_version with
      | None => None
      | Some (Err e) => Some (Err e)
      | Some (Ok to_state) =>
        rmap (mkComparison from_state to_state from_version to_version)
          <$> comparison_history fuel es stream_id from_version to_version
      end
    end
  end.

Definition compare_versions (fuel : nat) (es : ES) (id : string) (from_version to_version : Z)
    : option (CatgaResult (StateComparison A)) :=
  compare_with (state_at_version fuel es id) fuel es (agg_stream_id id) from_version to_version.

(** ** [SnapshotTimeTravelService] *)

Section snapshot_service.
Context {SS : Type} `{!SnapshotLaws SS A, !HistoryLaws SS A}.

Definition snapshot_state_at_version (fuel : nat) (es : ES) (ss : SS) (id : string) (version : Z)
    : option (CatgaResult (option A)) :=
  if version <? 0 then Some (Ok None)
  else
    let stream_id := agg_stream_id id in
    match (let? snapshot := ss_load_at ss stream_id version in snapshot_state id snapshot) with
    | Err e => Some (Err e)
    | Ok (aggregate, None, found) => Some (Ok (if found then Some aggregate else None))
    | Ok (aggregate, Some cursor, found) =>
      then_some
        (follow_pages (fun from => es_read_to_version_page es stream_id from version page_size)
           apply_found fuel cursor (aggregate, found))
    end.

(** Skips the events before the cursor *)
Definition apply_from (from_version : Z) (a : A) (e : StoredEvent) : CatgaResult A :=
  if from_version <=? ev_version e then apply_event a e else Ok a.

Definition snapshot_state_at_time (fuel : nat) (es : ES) (ss : SS) (id : string)
    (upper_bound : SystemTime) : option (CatgaResult (option A)) :=
  let stream_id := agg_stream_id id in
  let page := fun from => es_read_to_time_page es stream_id from upper_bound page_size in
  match follow_pages page (fun _ e => Ok (Some (ev_version e))) fuel 0 None with
  | None => None
  | Some (Err e) => Some (Err e)
  | Some (Ok None) => Some (Ok None)
  | Some (Ok (Some target)) =>
    match (let? snapshot := ss_load_at ss stream_id target in snapshot_state id snapshot) with
    | Err e => Some (Err e)
    | Ok (aggregate, None, _) => Some (Ok (Some aggregate))
    | Ok (aggregate, Some cursor, _) =>
      let from_version := default (int_max i64) (checked i64 cursor) in
      rmap Some <$> follow_pages page (apply_from from_version) fuel cursor aggregate
    end
  end.

Definition snapshot_compare_versions (fuel : nat) (es : ES) (ss : SS) (id : string)
    (from_version to_version : Z) : option (CatgaResult (StateComparison A)) :=
  compare_with (snapshot_state_at_version fuel es ss id) fuel es (agg_stream_id id)
    from_version to_version.
End snapshot_service.
End services.
End aggregate.

(** ** Reference: replaying a stream *)

Section reference.
Context {A : Type} `{!Aggregate A}.

Definition replay (id : string) (l : list StoredEvent) : CatgaResult A :=
  fold_events apply_event (agg_new id) l.

(** The state of an aggregate with the given events: none before the first *)
Definition state_of (id : string) (l : list StoredEvent) : CatgaResult (option A) :=
  rmap (fun a => match l with [] => None | _ => Some a end) (replay id l).

(** A snapshot is faithful when replaying the stream up to its version gives its state. *)
Definition faithful (id : string) (l : list StoredEvent) (x : Snapshot A) : Prop :=
  0 <= sn_version x < Z.of_nat (length l) /\ replay id (upto (sn_version x) l) = Ok (sn_state x).

Lemma apply_found_fold (a : A) b l :
  fold_events apply_found (a, b) l
  = rmap (fun a => (a, match l with [] => b | _ => true end)) (fold_events apply_event a l).
Proof.
  revert a b. induction l as [|e l IH]; intros a b; simpl; [done |].
  unfold apply_found at 1. simpl. destruct (apply_event a e); simpl; [| done].
  rewrite IH. by destruct l.
Qed.

(** Applying events leaves the version of the last one. *)
Lemma fold_apply_version (a a' : A) l e :
  fold_events apply_event a (l ++ [e]) = Ok a' -> agg_version a' = ev_version e.
Proof.
  rewrite fold_events_app. intros H. apply rbind_ok_inv in H as (b & _ & H). simpl in H.
  apply rbind_ok_inv in H as (c & H & E). simplify_eq. unfold apply_event in H.
  apply rbind_ok_inv in H as (d & _ & H). destruct (Z.eqb_spec (agg_version d) (ev_version e)); [| done].
  by simplify_eq.
Qed.

Lemma replay_version id l a :
  stream_wf l -> l <> [] -> replay id l = Ok a -> agg_version a = stream_version l.
Proof.
  intros Hl Hne. destruct l as [|e l _] using rev_ind; [done |]. intros E%fold_apply_version.
  rewrite E. rewrite (wf_dense _ Hl (length l) e) by (rewrite lookup_app_r, Nat.sub_diag; done).
  unfold stream_version. rewrite length_app. simpl. lia.
Qed.

Lemma upto_split v l : upto v l ++ drop (Z.to_nat (v + 1)) l = l.
Proof. apply take_drop. Qed.

Lemma next_event_version_ok v : 0 <= v < int_max i64 -> next_event_version v = Some (v + 1).
Proof.
  intros Hv. unfold next_event_version. destruct (Z.eqb_spec v (int_max i64)); [lia |].
  rewrite checked_fits by (int_bounds; lia). done.
Qed.

(** Starting from a faithful snapshot, or from nothing *)
Lemma snapshot_state_faithful id l o :
  stream_wf l -> (forall x, o = Some x -> faithful id l x) ->
  exists a cursor, snapshot_state id o = Ok (a, Some cursor, bool_decide (is_Some o))
    /\ 0 <= cursor <= Z.of_nat (length l)
    /\ replay id (take (Z.to_nat cursor) l) = Ok a
    /\ (is_Some o -> l <> [])
    /\ cursor = default 0 ((fun x => sn_version x + 1) <$> o).
Proof.
  intros Hl Ho. pose proof (wf_length _ Hl). destruct o as [x|]; simpl.
  - destruct (Ho x eq_refl) as [Hv Hr]. exists (sn_state x), (sn_version x + 1).
    assert (agg_version (sn_state x) = sn_version x) as Hav.
    { rewrite (replay_version id (upto (sn_version x) l)); [| by apply upto_wf | | done].
      - unfold stream_version, upto. rewrite length_take. lia.
      - intros E. apply (f_equal length) in E. unfold upto in E. rewrite length_take in E.
        simpl in E. lia. }
    rewrite Hav, Z.eqb_refl, next_event_version_ok by lia.
    split_and!; [done | lia | lia | done | | done].
    intros _ ->. simpl in Hv. lia.
  - exists (agg_new id), 0. split_and!; [done | lia | lia | done | | done]. by intros [].
Qed.

(** Resuming a replay from a prefix *)
Lemma replay_resume id l k (a : A) :
  replay id (take k l) = Ok a -> fold_events apply_event a (drop k l) = replay id l.
Proof.
  intros H. unfold replay. rewrite <-(take_drop k l) at 2. rewrite fold_events_app.
  unfold replay in H. by rewrite H.
Qed.

(** The result of the readers: a replay, and whether anything was seen *)
Lemma found_state id l (a : A) k found :
  replay id (take k l) = Ok a -> (found = true -> l <> []) -> (found = false -> k = 0%nat) ->
  (rmap (fun '(a, f) => if f : bool then Some a else None)
     (fold_events apply_found (a, found) (drop k l))) = state_of id l.
Proof.
  intros Ha Ht Hf. rewrite apply_found_fold. rewrite (replay_resume id l k a Ha).
  unfold state_of. destruct (replay id l) as [b|]; simpl; [| done]. f_equal. destruct found.
  - specialize (Ht eq_refl). destruct (drop k l), l; done.
  - rewrite (Hf eq_refl), drop_0. by destruct l.
Qed.
End reference.

Section repository_theorems.
Context {A : Type} `{!Aggregate A}.
Context {ES : Type} `{!EventStoreLaws ES}.
Context {SS : Type} `{!SnapshotLaws SS A}.

(** C33: Loading an aggregate is replaying its stream: whenever the latest snapshot
    (if there is one) is faithful, [load] terminates and returns exactly the result
    of applying every event of the stream in order to a new aggregate, errors
    included, and [None] exactly when the stream is empty. *)
Theorem load_is_replay fuel (es : ES) (ss : SS) id o :
  es_wf es -> ss_load ss (agg_stream_id id) = Ok o ->
  let l := es_stream es (agg_stream_id id) in
  (forall x, o = Some x -> faithful id l x) -> (length l < fuel)%nat ->
  load (A := A) fuel es ss id = Some (state_of id l).
Proof.
  intros Hes Ho l Hf Hfuel. unfold load. rewrite Ho. cbn [rbind].
  destruct (snapshot_state_faithful id l o (es_stream_wf _ _ Hes) Hf)
    as (a & cursor & -> & Hc & Ha & Hne & Hcur).
  rewrite follow_read by (auto using page_size_pos; lia).
  fold l. pose proof (found_state id l a (Z.to_nat cursor) (bool_decide (is_Some o)) Ha) as Hs.
  rewrite <-Hs; clear Hs.
  - rewrite !apply_found_fold. destruct (fold_events apply_event a _) as [b|]; simpl; [| done].
    do 2 f_equal. case_bool_decide; simpl; by destruct (drop _ l).
  - intros E%bool_decide_eq_true_1. auto.
  - intros E%bool_decide_eq_false_1. destruct o; [by destruct E |]. simpl in Hcur. lia.
Qed.

Context `{!AggregateLaws A}.

Definition apply_all (a : A) (es : list Envelope) : CatgaResult A :=
  fold_left (fun r e => let? a := r in agg_apply a e) es (Ok a).

(** [a] holds pending events decided on the state after the events [l]. *)
Record pending_on (id : string) (l : list StoredEvent) (a : A) : Prop := {
  po_id : agg_id a = id;
  po_apply : exists base, replay id l = Ok base
    /\ apply_all base (agg_pending a) = Ok (agg_clear a)
}.

Lemma apply_all_err (e : CatgaError) (es : list Envelope) :
  fold_left (fun r x => let? a := r in agg_apply (A := A) a x) es (Err e) = Err e.
Proof. induction es; simpl; auto. Qed.

Lemma apply_all_cons a e es a' :
  apply_all a (e :: es) = Ok a' <-> exists b, agg_apply a e = Ok b /\ apply_all b es = Ok a'.
Proof.
  unfold apply_all. simpl. split.
  - destruct (agg_apply a e) as [b|]; [eauto |]. by rewrite apply_all_err.
  - by intros (b & -> & ?).
Qed.

Lemma apply_all_version a es a' :
  apply_all a es = Ok a' -> agg_version a' = agg_version a + Z.of_nat (length es).
Proof.
  revert a. induction es as [|e es IH]; intros a.
  - unfold apply_all. simpl. intros. simplify_eq. lia.
  - intros (b & Hb & H)%apply_all_cons. apply apply_version in Hb. apply IH in H. simpl. lia.
Qed.

(** Stored pending events replay as they were applied. *)
Lemma apply_all_stamp a es a' v t :
  apply_all a es = Ok a' -> agg_version a = v - 1 ->
  fold_events apply_event a (stamp v es t) = Ok a'.
Proof.
  revert a v. induction es as [|e es IH]; intros a v; [done |].
  intros (b & Hb & H)%apply_all_cons Hv. simpl. unfold apply_event. simpl. rewrite Hb. simpl.
  pose proof (apply_version _ _ _ Hb) as Hv'.
  destruct (Z.eqb_spec (agg_version b) v); [| lia]. simpl. apply IH; [done | lia].
Qed.

Lemma replay_base_version id l base :
  stream_wf l -> replay id l = Ok base -> agg_version (A := A) base = stream_version l.
Proof.
  intros Hl Hr. destruct l as [|e l]; [| by eapply replay_version].
  unfold replay in Hr. simpl in Hr. simplify_eq. by rewrite new_version.
Qed.

(** A faithful snapshot stays faithful when the stream grows. *)
Lemma faithful_app id l l' (x : Snapshot A) : faithful id l x -> faithful id (l ++ l') x.
Proof.
  intros [Hv Hr]. split; [rewrite length_app; lia |]. unfold upto in *.
  rewrite take_app_le by lia. done.
Qed.

(** The whole state is a faithful snapshot. *)
Lemma faithful_whole id l (x : Snapshot A) :
  l <> [] -> replay id l = Ok (sn_state x) -> sn_version x = stream_version l -> faithful id l x.
Proof.
  intros Hne Hr Hv. unfold faithful, upto. rewrite Hv. unfold stream_version.
  split; [destruct l; [done | simpl; lia] |]. by rewrite take_ge by lia.
Qed.

Lemma save_version id l a :
  stream_wf l -> pending_on id l a ->
  agg_version a = stream_version l + Z.of_nat (length (agg_pending a)).
Proof.
  intros Hl [_ (base & Hb & Ha)]. apply apply_all_version in Ha. rewrite clear_version in Ha.
  rewrite Ha. f_equal. by eapply replay_base_version.
Qed.

(** What a successful [save] did *)
Lemma save_ok_inv (es es' : ES) (ss ss' : SS) strategy (a a' : A) t1 t2 alloc_ok u :
  agg_pending a <> [] -> save es ss strategy a t1 t2 alloc_ok = (Ok u, (a', es', ss')) ->
  let sid := agg_stream_id (agg_id a) in
  a' = agg_clear a
  /\ (exists v r, es_append es sid (agg_pending a) (Some v) t1 alloc_ok = (Ok r, es'))
  /\ (ss' = ss \/ exists u, ss_save ss (mkSnapshot sid (agg_clear a) (agg_version (agg_clear a)) t2)
                            = (Ok u, ss')).
Proof.
  intros Hne Hsave sid. unfold save in Hsave.
  destruct (agg_pending a) as [|p0 ps] eqn:Epend; [done |]. fold sid in Hsave.
  destruct (ok_or _ _) as [n|] in Hsave; [| done]. cbn [rbind] in Hsave.
  destruct (ok_or _ _) as [v|] in Hsave; [| done].
  destruct (es_append es _ _ (Some v) t1 alloc_ok) as [[r|] es1] eqn:Eapp; [| done].
  destruct (ss_load ss sid) as [o|]; [| done]. destruct (should_snapshot _ _ _).
  - destruct (ss_save ss _) as [x ss1] eqn:Esn. simplify_eq. eauto 10.
  - simplify_eq. eauto 10.
Qed.

(** Saving and loading: when an aggregate holds pending events decided on the
    current events of its stream and the stored snapshot is faithful, a successful
    [save] appends exactly those events, clears them from the aggregate, touches no
    other stream, and leaves the store in a state from which [load] returns exactly
    the saved aggregate, whether or not a snapshot was taken. *)
Theorem save_then_load fuel (es es' : ES) (ss ss' : SS) strategy (a a' : A) id o t1 t2 alloc_ok u :
  es_wf es -> ss_wf ss -> ss_load ss (agg_stream_id id) = Ok o ->
  let l := es_stream es (agg_stream_id id) in
  (forall x, o = Some x -> faithful id l x) ->
  pending_on id l a -> agg_pending a <> [] ->
  save es ss strategy a t1 t2 alloc_ok = (Ok u, (a', es', ss')) ->
  (length (es_stream es' (agg_stream_id id)) < fuel)%nat ->
  a' = agg_clear a
  /\ es_stream es' (agg_stream_id id)
     = l ++ stamp (Z.of_nat (length l)) (agg_pending a) t1
  /\ (forall sid, sid <> agg_stream_id id -> es_stream es' sid = es_stream es sid)
  /\ load fuel es' ss' id = Some (Ok (Some (agg_clear a))).
Proof.
  intros Hes Hss Ho l Hf Hp Hne Hsave Hfuel. pose proof (es_stream_wf es (agg_stream_id id) Hes) as Hl.
  fold l in Hl. pose proof (save_version id l a Hl Hp) as Hver. pose proof Hp as [Hid (base & Hb & Ha)].
  apply save_ok_inv in Hsave as (-> & (v & r & Eapp) & Hsn); [| done]. rewrite Hid in *.
  destruct (es_append_ok _ _ _ _ _ _ _ _ Hes Eapp) as (_ & _ & Hst & Hoth). fold l in Hst.
  assert (es_wf es') as Hes'.
  { replace es' with (snd (es_append es (agg_stream_id id) (agg_pending a) (Some v) t1 alloc_ok))
      by (by rewrite Eapp). auto with catga. }
  assert (replay id (es_stream es' (agg_stream_id id)) = Ok (agg_clear a)) as Hrep.
  { rewrite Hst. unfold replay in *. rewrite fold_events_app, Hb. cbn [rbind].
    apply apply_all_stamp; [done |]. erewrite replay_base_version by done.
    unfold stream_version. lia. }
  split_and!; [done | done | done |].
  assert (exists o', ss_load ss' (agg_stream_id id) = Ok o'
    /\ forall x, o' = Some x -> faithful id (es_stream es' (agg_stream_id id)) x) as (o' & Ho' & Hf').
  { destruct Hsn as [->|[u' Esn]].
    - exists o. split; [done |]. intros x Hx. rewrite Hst. by apply faithful_app, Hf.
    - destruct (ss_save_ok _ _ _ _ Hss Esn) as [Hld _]. eexists. split; [exact Hld |].
      intros x Hx. simplify_eq. apply faithful_whole; [| done |]; simpl.
      + by rewrite Hst; destruct l, (agg_pending a).
      + rewrite clear_version, Hver, Hst. unfold stream_version. rewrite length_app, stamp_length. lia. }
  rewrite (load_is_replay fuel es' ss' id o') by done.
  unfold state_of. rewrite Hrep, Hst. simpl. by destruct l, (agg_pending a).
Qed.

(** A stale save is refused: when other events were appended to the stream after
    the state the aggregate was decided on, [save] reports an error, changes no
    stream's events and no snapshot, and the aggregate keeps its pending events. *)
Theorem stale_save_refused (es : ES) (ss : SS) strategy (a : A) id l more t1 t2 alloc_ok :
  es_wf es -> es_stream es (agg_stream_id id) = l ++ more -> more <> [] ->
  pending_on id l a -> agg_pending a <> [] ->
  exists e es', save es ss strategy a t1 t2 alloc_ok = (Err e, (a, es', ss))
    /\ forall sid, es_stream es' sid = es_stream es sid.
Proof.
  intros Hes Hst Hmore Hp Hne. pose proof (es_stream_wf es (agg_stream_id id) Hes) as Hlm.
  rewrite Hst in Hlm.
  assert (stream_wf l) as Hl.
  { replace l with (upto (stream_version l) (l ++ more)); [by apply upto_wf |].
    unfold upto, stream_version. apply take_app_length'. lia. }
  pose proof (save_version id l a Hl Hp) as Hver. destruct Hp as [Hid _].
  unfold save. destruct (agg_pending a) as [|p0 ps] eqn:Epend; [done |].
  set (p := p0 :: ps) in *. rewrite Hid.
  destruct (ok_or (checked i64 (Z.of_nat (length p))) _) as [n|] eqn:En; [| by eexists _, es].
  cbn [rbind]. destruct (ok_or (checked i64 (agg_version a - n)) _) as [ev|] eqn:Eev; [| by eexists _, es].
  destruct (es_append es _ p (Some ev) t1 alloc_ok) as [[v|e] es1] eqn:Eapp.
  - exfalso. destruct (es_append_ok _ _ _ _ _ _ _ _ Hes Eapp) as (Hexp & _).
    specialize (Hexp Hne). simpl in Hexp. rewrite Hst in Hexp.
    assert (n = Z.of_nat (length p)) as -> by (revert En; unfold ok_or, checked; by repeat case_match; intros; simplify_eq).
    assert (ev = agg_version a - Z.of_nat (length p)) as ->
      by (revert Eev; unfold ok_or, checked; by repeat case_match; intros; simplify_eq).
    unfold stream_version in *. rewrite length_app in Hexp. destruct more; [done |]. unfold p in *. simpl in Hexp, Hver. lia.
  - exists e, es1. split; [done |]. by apply (es_append_err _ _ _ _ _ _ _ _ Hes Eapp).
Qed.
End repository_theorems.

(** ** Time travel *)

Section time_travel_lemmas.
Context {A : Type} `{!Aggregate A}.
Implicit Types l : list StoredEvent.

Lemma faithful_upto id l v (x : Snapshot A) :
  faithful id l x -> sn_version x <= v -> faithful id (upto v l) x.
Proof.
  intros [Hv Hr] Hle. split.
  - unfold upto. rewrite length_take. lia.
  - unfold upto in *. rewrite take_take, Nat.min_l by lia. done.
Qed.

(** The clock did not step back between appends. *)
Definition ordered l : Prop := StronglySorted (fun e f => ev_timestamp e <= ev_timestamp f) l.

Lemma until_prefix bound l : ordered l -> until bound l = take (length (until bound l)) l.
Proof.
  unfold until. induction 1 as [|e l Hl IH Hall]; [done |]. rewrite filter_cons. case_decide.
  - simpl. f_equal. done.
  - rewrite filter_none; [done |]. intros f Hf Hle. eapply Forall_forall in Hall; [| done].
    simpl in Hall. lia.
Qed.

Lemma until_drop bound l c :
  ordered l -> (c <= length (until bound l))%nat ->
  until bound (drop c l) = drop c (until bound l).
Proof.
  intros Ho Hc. pose proof (until_prefix bound l Ho) as E.
  pose proof (until_app bound (take c l) (drop c l)) as Happ. rewrite take_drop in Happ.
  assert (until bound (take c l) = take c l) as E2.
  { apply filter_all. intros e He. assert (e ∈ until bound l) as Hin.
    { rewrite E. apply elem_of_take in He as (i & Hi & Hlt).
      apply elem_of_take. exists i. split; [done | lia]. }
    by apply list_elem_of_filter in Hin as [? _]. }
  rewrite E2 in Happ. rewrite Happ. rewrite drop_app_length'; [done |].
  rewrite length_take. apply (f_equal length) in E. rewrite length_take in E. lia.
Qed.

Lemma take_upto k l : (k <= length l)%nat -> take k l = upto (Z.of_nat k - 1) l.
Proof. intros Hk. unfold upto. f_equal. lia. Qed.

Lemma last_target (l : list StoredEvent) (o : option Z) :
  fold_events (fun (_ : option Z) e => Ok (Some (ev_version e))) o l
  = Ok (match ev_version <$> last l with Some v => Some v | None => o end).
Proof.
  revert o. induction l as [|e l IH]; intros o; [done |]. cbn [fold_events rbind]. rewrite IH. f_equal.
  rewrite last_cons. destruct (last l); done.
Qed.

(** Nothing is skipped when every event is at or after the cursor. *)
Lemma apply_from_all from (a : A) l :
  (forall e, e ∈ l -> from <= ev_version e) ->
  fold_events (apply_from from) a l = fold_events apply_event a l.
Proof.
  revert a. induction l as [|e l IH]; intros a Hl; [done |]. simpl. unfold apply_from at 1.
  destruct (Z.leb_spec from (ev_version e)); [| exfalso; pose proof (Hl e (list_elem_of_here _ _)); lia].
  destruct (apply_event a e); simpl; [| done]. apply IH. intros f Hf. apply Hl. by right.
Qed.

Lemma push_history_fold from (h : list VersionInfo) l :
  (length h <= MAX_STATE_COMPARISON_EVENTS)%nat ->
  fold_events (push_history from) h l
  = let kept := filter (fun e => from < ev_version e) l in
    if (length h + length kept <=? MAX_STATE_COMPARISON_EVENTS)%nat
    then Ok (h ++ (version_info <$> kept))
    else fail Validation "state comparison history exceeds the bounded result limit".
Proof.
  revert h. induction l as [|e l IH]; intros h Hh; cbn [fold_events].
  - simpl. rewrite app_nil_r. destruct (Nat.leb_spec (length h + 0) MAX_STATE_COMPARISON_EVENTS); [done | lia].
  - unfold push_history at 1. rewrite filter_cons.
    cbn zeta in *. set (kept := filter (fun e => from < ev_version e) l) in *.
    destruct (Z.ltb_spec from (ev_version e)); (case_decide; [| lia]) || (case_decide; [lia |]).
    + cbn [length]. destruct (Nat.eqb_spec (length h) MAX_STATE_COMPARISON_EVENTS) as [E|E]; cbn [rbind].
      * by destruct (Nat.leb_spec (length h + S (length kept)) MAX_STATE_COMPARISON_EVENTS); [lia |].
      * rewrite IH by (rewrite length_app; simpl; lia).
        rewrite length_app, fmap_cons, <-(assoc_L (++)). cbn [length].
        by replace (length h + 1 + length kept)%nat with (length h + S (length kept))%nat by lia.
    + cbn [rbind]. by rewrite IH.
Qed.
End time_travel_lemmas.

Section time_travel.
Context {A : Type} `{!Aggregate A}.
Context {ES : Type} `{!EventStoreLaws ES}.
Context {SS : Type} `{!SnapshotLaws SS A, !HistoryLaws SS A}.

Lemma state_at_version_spec fuel (es : ES) id v :
  es_wf es -> (length (es_stream es (agg_stream_id id)) < fuel)%nat ->
  state_at_version (A := A) fuel es id v = Some (state_of id (upto v (es_stream es (agg_stream_id id)))).
Proof.
  intros Hes Hf. unfold state_at_version. destruct (Z.ltb_spec v 0).
  - unfold upto. by replace (Z.to_nat (v + 1)) with 0%nat by lia.
  - unfold rebuild_version. rewrite follow_to_version by (auto using page_size_pos; lia).
    unfold then_some. cbn [fmap option_fmap option_map]. f_equal. by apply found_state.
Qed.

Lemma state_at_time_spec fuel (es : ES) id bound :
  es_wf es -> (length (es_stream es (agg_stream_id id)) < fuel)%nat ->
  state_at_time (A := A) fuel es id bound
  = Some (state_of id (until bound (es_stream es (agg_stream_id id)))).
Proof.
  intros Hes Hf. unfold state_at_time, rebuild_time.
  rewrite follow_to_time by (auto using page_size_pos; lia).
  unfold then_some. cbn [fmap option_fmap option_map]. f_equal. rewrite drop_0.
  by apply (found_state id _ _ 0).
Qed.

Lemma snapshot_at_version_spec fuel (es : ES) (ss : SS) id v o :
  let l := es_stream es (agg_stream_id id) in
  es_wf es -> (length l < fuel)%nat -> ss_load_at ss (agg_stream_id id) v = Ok o ->
  (forall x, o = Some x -> faithful id l x) ->
  snapshot_state_at_version (A := A) fuel es ss id v = Some (state_of id (upto v l)).
Proof.
  intros l Hes Hf Ho Hx. unfold snapshot_state_at_version. destruct (Z.ltb_spec v 0).
  { unfold upto. by replace (Z.to_nat (v + 1)) with 0%nat by lia. }
  rewrite Ho. cbn [rbind].
  destruct (snapshot_state_faithful id (upto v l) o) as (a & cursor & -> & Hc & Ha & Hne & Hcur).
  { apply upto_wf. by apply es_stream_wf. }
  { intros x ->. apply faithful_upto; [by apply Hx |]. by eapply ss_load_at_bound. }
  rewrite follow_to_version by (auto using page_size_pos; lia).
  unfold then_some. cbn [fmap option_fmap option_map]. f_equal. apply found_state; [done | |].
  - intros E%bool_decide_eq_true_1. auto.
  - intros E%bool_decide_eq_false_1. destruct o; [by destruct E |]. simpl in Hcur. lia.
Qed.

Lemma snapshot_at_time_spec fuel (es : ES) (ss : SS) id bound :
  let l := es_stream es (agg_stream_id id) in
  es_wf es -> (length l < fuel)%nat -> ordered l ->
  (forall v, exists o, ss_load_at ss (agg_stream_id id) v = Ok o
                       /\ forall x, o = Some x -> faithful id l x) ->
  snapshot_state_at_time (A := A) fuel es ss id bound = Some (state_of id (until bound l)).
Proof.
  intros l Hes Hf Ho Hss. pose proof (es_stream_wf es (agg_stream_id id) Hes) as Hl. fold l in Hl.
  unfold snapshot_state_at_time. rewrite follow_to_time by (auto using page_size_pos; lia).
  rewrite drop_0, last_target. fold l. pose proof (until_prefix bound l Ho) as Hpre.
  set (l' := until bound l) in *. set (k := length l') in *.
  assert (k <= length l)%nat as Hk.
  { apply (f_equal length) in Hpre. rewrite length_take in Hpre. unfold k in *. lia. }
  assert (stream_wf l') as Hl' by (rewrite Hpre, take_upto by done; by apply upto_wf).
  destruct (last l') as [e|] eqn:Hlast; simpl; [| by apply last_None in Hlast; rewrite Hlast].
  assert (ev_version e = Z.of_nat k - 1) as ->.
  { pose proof (last_version_slice l' 0 k Hl') as E. rewrite drop_0, take_ge, Hlast in E by done.
    simpl in E. case_decide as D; [| by unfold k in D]. simplify_eq. unfold k in *. lia. }
  destruct (Hss (Z.of_nat k - 1)) as (o & Hoe & Hx). rewrite Hoe. cbn [rbind].
  destruct (snapshot_state_faithful id l' o Hl') as (a & cursor & -> & Hc & Ha & _ & _).
  { intros x ->. rewrite Hpre, take_upto by done. apply faithful_upto; [by apply Hx |].
    by eapply ss_load_at_bound. }
  assert (checked i64 cursor = Some cursor) as ->
    by (apply checked_fits; pose proof (wf_length _ Hl'); int_bounds; lia).
  rewrite follow_to_time by (auto using page_size_pos; lia). fold l.
  rewrite until_drop by (done || (fold l'; unfold k in *; lia)). fold l'. simpl.
  rewrite apply_from_all.
  - rewrite (replay_resume id l' (Z.to_nat cursor) a Ha). unfold state_of.
    destruct (replay id l'); [| done]. simpl. by destruct l'.
  - intros f Hf'. apply list_elem_of_lookup in Hf' as [i Hi]. rewrite lookup_drop in Hi.
    rewrite (wf_dense _ Hl' _ _ Hi). lia.
Qed.

(** Time travel with snapshots agrees with plain replay: when every snapshot is
    faithful, both services return, for every version, exactly the state after the
    events up to it; and when the stored timestamps do not decrease, for every time,
    exactly the state after the events stored no later. *)
Theorem time_travel_agrees fuel (es : ES) (ss : SS) id v bound :
  let l := es_stream es (agg_stream_id id) in
  es_wf es -> (length l < fuel)%nat ->
  (forall v, exists o, ss_load_at ss (agg_stream_id id) v = Ok o
                       /\ forall x, o = Some x -> faithful id l x) ->
  state_at_version (A := A) fuel es id v = Some (state_of id (upto v l))
  /\ snapshot_state_at_version (A := A) fuel es ss id v = Some (state_of id (upto v l))
  /\ (ordered l ->
      state_at_time (A := A) fuel es id bound = Some (state_of id (until bound l))
      /\ snapshot_state_at_time (A := A) fuel es ss id bound = Some (state_of id (until bound l))).
Proof.
  intros l Hes Hf Hss. split_and!; [by apply state_at_version_spec | |].
  - destruct (Hss v) as (o & Ho & Hx). by eapply snapshot_at_version_spec.
  - intros Ho. split; [by apply state_at_time_spec | by apply snapshot_at_time_spec].
Qed.

(** The events of a comparison are exactly those after the first version up to the
    second, and a comparison with more than the limit is refused. *)
Lemma comparison_history_spec fuel (es : ES) sid from to :
  let l := es_stream es sid in
  es_wf es -> (length l < fuel)%nat ->
  comparison_history fuel es sid from to
  = Some (let kept := filter (fun e => from < ev_version e) (upto to l) in
          if (length kept <=? MAX_STATE_COMPARISON_EVENTS)%nat then Ok (version_info <$> kept)
          else fail Validation "state comparison history exceeds the bounded result limit").
Proof.
  intros l Hes Hf. unfold comparison_history. destruct (Z.ltb_spec to 0).
  - unfold upto. replace (Z.to_nat (to + 1)) with 0%nat by lia. done.
  - rewrite follow_to_version by (auto using page_size_pos; lia). rewrite drop_0.
    rewrite push_history_fold by (simpl; lia). done.
Qed.
End time_travel.

(** ** A concrete aggregate: a counter over the in-memory stores *)

Record Counter := mkCounter { c_id : string; c_version : Z; c_pending : list Envelope }.

#[export] Instance counter_aggregate : Aggregate Counter := {|
  agg_new id := mkCounter id (-1) [];
  agg_stream_id id := id;
  agg_id := c_id;
  agg_version := c_version;
  agg_apply a _ := Ok (mkCounter (c_id a) (c_version a + 1) (c_pending a));
  agg_pending := c_pending;
  agg_clear a := mkCounter (c_id a) (c_version a) []
|}.

#[export] Instance counter_laws : AggregateLaws Counter.
Proof. split; [done | | done]. intros a e a' E. by simplify_eq/=. Qed.

Definition counter_snapshots : MemoryEnhancedSnapshots Counter := mkEnhanced ∅.
Definition counter0 : Counter := mkCounter "a" 1 [es_demo_envelope 1; es_demo_envelope 2].
Definition every_event : EventCountSnapshotStrategy := mkEventCount 1.
Definition counter_saved : CatgaResult unit * (Counter * MemoryEventStore * MemoryEnhancedSnapshots Counter) :=
  Eval vm_compute in save es_empty counter_snapshots every_event counter0 5 5 true.
Definition counter_es : MemoryEventStore := Eval vm_compute in snd (fst (snd counter_saved)).
Definition counter_ss : MemoryEnhancedSnapshots Counter := Eval vm_compute in snd (snd counter_saved).

Lemma counter_pending : pending_on "a" [] counter0.
Proof. split; [done |]. by eexists. Qed.

Lemma counter_es_wf : store_wf counter_es.
Proof. exact (append_wf es_empty "a" (c_pending counter0) (Some (-1)) 5 true es_empty_wf). Qed.

Lemma counter_faithful v :
  exists o, load_at_version counter_ss "a" v = Ok o
    /\ forall x, o = Some x -> faithful "a" (stream_of counter_es "a") x.
Proof.
  assert (load_at_version counter_ss "a" v
          = if decide (1 <= v) then Ok (Some (mkSnapshot "a" (mkCounter "a" 1 []) 1 5)) else Ok None)
    as ->.
  { unfold load_at_version. vm_compute (histories counter_ss !! "a"). cbv iota beta.
    unfold history_load_at, last_upto. rewrite filter_cons, filter_nil.
    change ((1, {| entry_state := {| c_id := "a"; c_version := 1; c_pending := [] |};
                   entry_timestamp := 5 |}).1) with 1.
    by case_decide. }
  case_decide; eexists; (split; [reflexivity |]); intros x Hx; simplify_eq.
  split; [vm_compute; split; congruence | vm_compute; reflexivity].
Qed.

Lemma load_is_replay_witness :
  load 3 counter_es counter_ss "a" = Some (Ok (Some (mkCounter "a" 1 []))).
Proof.
  rewrite (load_is_replay 3 counter_es counter_ss "a"
             (Some (mkSnapshot "a" (mkCounter "a" 1 []) 1 5))).
  - vm_compute. reflexivity.
  - exact counter_es_wf.
  - vm_compute. reflexivity.
  - intros x Hx. simplify_eq. split; [vm_compute; split; congruence | vm_compute; reflexivity].
  - vm_compute. lia.
Defined.

Lemma save_then_load_witness :
  save es_empty counter_snapshots every_event counter0 5 5 true
    = (Ok tt, (agg_clear counter0, counter_es, counter_ss))
  /\ load 3 counter_es counter_ss "a" = Some (Ok (Some (agg_clear counter0))).
Proof.
  split; [vm_compute; reflexivity |].
  apply (save_then_load 3 es_empty counter_es counter_snapshots counter_ss every_event counter0
           (agg_clear counter0) "a" None 5 5 true tt).
  - exact es_empty_wf.
  - intros id h E. discriminate E.
  - vm_compute. reflexivity.
  - intros x Hx. discriminate Hx.
  - exact counter_pending.
  - discriminate.
  - vm_compute. reflexivity.
  - vm_compute. lia.
Defined.

Lemma stale_save_refused_witness :
  exists e es', save counter_es counter_ss every_event counter0 6 6 true
    = (Err e, (counter0, es', counter_ss)) /\ forall sid, es_stream es' sid = es_stream counter_es sid.
Proof.
  apply (stale_save_refused counter_es counter_ss every_event counter0 "a" []
           (stream_of counter_es "a") 6 6 true).
  - exact counter_es_wf.
  - reflexivity.
  - vm_compute. discriminate.
  - exact counter_pending.
  - discriminate.
Defined.

Lemma time_travel_agrees_witness :
  state_at_version 3 counter_es "a" 0 = Some (Ok (Some (mkCounter "a" 0 [])))
  /\ snapshot_state_at_time 3 counter_es counter_ss "a" 5 = Some (Ok (Some (mkCounter "a" 1 []))).
Proof.
  destruct (time_travel_agrees 3 counter_es counter_ss "a" 0 5) as (H1 & _ & H3).
  - exact counter_es_wf.
  - vm_compute. lia.
  - exact counter_faithful.
  - split.
    + rewrite H1. vm_compute. reflexivity.
    + destruct H3 as [_ ->]; [| vm_compute; reflexivity].
      vm_compute. repeat constructor; vm_compute; congruence.
Defined.

(** Two appends with the clock stepping back between them *)
Definition clock_back : MemoryEventStore :=
  snd (append (snd (append es_empty "a" [es_demo_envelope 1] None 10 true))
         "a" [es_demo_envelope 2] None 5 true).

(** When the clock steps back between two appends, [state_at_time] between the
    two timestamps fails instead of returning a state: the first event is filtered
    out, the second kept, and the replay stops at the gap between their versions. *)
Theorem clock_step_back_fails :
  state_at_time (A := Counter) 3 clock_back "a" 7
    = Some (fail Validation "aggregate apply did not advance to the stored event version").
Proof. vm_compute. reflexivity. Qed.
