(* ===== verification/Upgrades.v ===== *)
(** * Event schema upgrades ([event_version.rs], [upgrading_event_store.rs])

    A registry of upgrade steps, one per event type and schema version; the upgrade
    of an envelope through every matching step; and the event-store view that
    upgrades what it reads.  The upgraders are user code, a field of their record. *)

From S2P Require Import Prelude Utf8 Errors Time Messages Heap EventStore.

Definition MAX_UPGRADE_STEPS : nat := 100.

Record EventUpgrader := mkUpgrader {
  source_type : string;
  target_type : string;
  source_version : Z;
  target_version : Z;
  upgrade : Envelope -> CatgaResult Envelope
}.

Record VersionRules := mkRules {
  upgraders : gmap string (list EventUpgrader);
  current_versions : gmap string Z
}.

Definition rules_default : VersionRules := mkRules ∅ ∅.

Definition validate_upgrader (u : EventUpgrader) : CatgaResult unit :=
  if bool_decide (source_type u = "") || bool_decide (target_type u = "")
  then fail Validation "event upgrader source and target types must not be empty"
  else if target_version u <=? source_version u
  then fail Validation "event upgrader target version must exceed its source version"
  else Ok tt.

Definition by_source_version (u v : EventUpgrader) : Prop := source_version u <= source_version v.

#[global] Instance by_source_version_dec : RelDecision by_source_version.
Proof. intros u v. unfold by_source_version. apply _. Defined.

(** [register]: the copy-on-write loop publishes its new rules atomically. *)
Definition register (r : VersionRules) (u : EventUpgrader) : CatgaResult unit * VersionRules :=
  match validate_upgrader u with
  | Err e => (Err e, r)
  | Ok _ =>
    let upgrades := default [] (upgraders r !! source_type u) in
    if existsb (fun v => source_version v =? source_version u) upgrades
    then (fail Conflict
            "an event upgrader is already registered for this source type and version", r)
    else
      let upgrades := merge_sort by_source_version (upgrades ++ [u]) in
      let version := match current_versions r !! target_type u with
                     | Some v => Z.max v (target_version u)
                     | None => target_version u
                     end in
      (Ok tt, mkRules (<[source_type u := upgrades]> (upgraders r))
                (<[target_type u := version]> (current_versions r)))
  end.

Definition current_version (r : VersionRules) (event_type : string) : Z :=
  default 1 (current_versions r !! event_type).

Definition has_upgraders (r : VersionRules) (event_type : string) : bool :=
  bool_decide (is_Some (upgraders r !! event_type)).

(** The step that applies to an envelope *)
Definition find_upgrader (r : VersionRules) (event : Envelope) : option EventUpgrader :=
  us ← upgraders r !! message_type event;
  List.find (fun u => source_version u =? schema_version event) us.

Fixpoint upgrade_loop (r : VersionRules) (steps : nat) (event : Envelope)
    : CatgaResult Envelope :=
  match steps with
  | O => fail Validation "event schema upgrade exceeded the maximum chain length"
  | S steps =>
    match find_upgrader r event with
    | None => Ok event
    | Some u =>
      let? upgraded := upgrade u event in
      if negb (bool_decide (message_type upgraded = target_type u))
         || negb (schema_version upgraded =? target_version u)
      then fail Validation "event upgrader output does not match its declared target schema"
      else upgrade_loop r steps upgraded
    end
  end.

Definition upgrade_to_latest (r : VersionRules) (event : Envelope) : CatgaResult Envelope :=
  upgrade_loop r MAX_UPGRADE_STEPS event.

(** ** The upgrading view *)

Definition upgrade_event (r : VersionRules) (event : StoredEvent) : CatgaResult StoredEvent :=
  if negb (has_upgraders r (message_type (ev_envelope event))) then Ok event
  else
    let? envelope := upgrade_to_latest r (ev_envelope event) in
    Ok (mkStoredEvent (ev_version event) envelope (ev_timestamp event)).

(** [collect::<CatgaResult<Vec<_>>>()] *)
Fixpoint collect {A B} (f : A -> CatgaResult B) (l : list A) : CatgaResult (list B) :=
  match l with
  | [] => Ok []
  | a :: l => let? b := f a in let? bs := collect f l in Ok (b :: bs)
  end.

Definition upgrade_stream (r : VersionRules) (stream : EventStream) : CatgaResult EventStream :=
  if negb (existsb (fun e => has_upgraders r (message_type (ev_envelope e))) (st_events stream))
  then Ok stream
  else
    let? events := collect (upgrade_event r) (st_events stream) in
    Ok (mkEventStream (st_stream_id stream) (st_version stream) events).

Definition upgrade_page (r : VersionRules) (page : CatgaResult EventPage) : CatgaResult EventPage :=
  let? page := page in
  let? stream := upgrade_stream r (pg_stream page) in
  Ok (mkEventPage stream (pg_next_version page)).

Section view.
Context {S : Type} `{!EventStoreLaws S}.

Definition upgrading_append (s : S) (stream_id : string) (events : list Envelope)
    (expected_version : option Z) (clock : SystemTime) (alloc_ok : bool) : CatgaResult Z * S :=
  es_append s stream_id events expected_version clock alloc_ok.

Definition upgrading_version (s : S) (stream_id : string) : CatgaResult Z := es_version s stream_id.

Definition upgrading_read_page (r : VersionRules) (s : S) (stream_id : string) (from_version : Z)
    (max_count : nat) : CatgaResult EventPage :=
  upgrade_page r (es_read_page s stream_id from_version max_count).

Definition upgrading_read_to_version_page (r : VersionRules) (s : S) (stream_id : string)
    (from_version to_version : Z) (max_count : nat) : CatgaResult EventPage :=
  upgrade_page r (es_read_to_version_page s stream_id from_version to_version max_count).

Definition upgrading_read_to_time_page (r : VersionRules) (s : S) (stream_id : string)
    (from_version : Z) (upper_bound : SystemTime) (max_count : nat) : CatgaResult EventPage :=
  upgrade_page r (es_read_to_time_page s stream_id from_version upper_bound max_count).
End view.

(** ** Invariant of the registry *)

(** Every registered step is under its source type and moves to a higher version, and
    a source version has at most one step. *)
Record rules_wf (r : VersionRules) : Prop := {
  rw_type : forall t us u, upgraders r !! t = Some us -> u ∈ us ->
    source_type u = t /\ source_version u < target_version u;
  rw_unique : forall t us, upgraders r !! t = Some us -> NoDup (source_version <$> us);
  rw_current : forall t us u, upgraders r !! t = Some us -> u ∈ us ->
    exists v, current_versions r !! target_type u = Some v /\ target_version u <= v
}.

Inductive rstep : VersionRules -> VersionRules -> Prop :=
| r_register r u : rstep r (snd (register r u)).

Lemma rules_default_wf : rules_wf rules_default.
Proof. split; intros t us; intros; simplify_map_eq. Qed.

(** A member of the new list is an old member or the new step. *)
Lemma registered_elem r u t us v :
  <[source_type u := merge_sort by_source_version
      (default [] (upgraders r !! source_type u) ++ [u])]> (upgraders r) !! t = Some us ->
  v ∈ us ->
  (t = source_type u /\ v = u) \/ exists us, upgraders r !! t = Some us /\ v ∈ us.
Proof.
  rewrite lookup_insert_Some. intros [[<- <-]|[_ E]] Hin; [| eauto].
  rewrite merge_sort_Permutation in Hin. apply elem_of_app in Hin as [Hin|Hin].
  - right. destruct (upgraders r !! source_type u); [eauto | set_solver].
  - left. by apply list_elem_of_singleton in Hin as ->.
Qed.

Lemma registered_unique r u :
  (forall us, upgraders r !! source_type u = Some us -> NoDup (source_version <$> us)) ->
  existsb (fun v => source_version v =? source_version u)
    (default [] (upgraders r !! source_type u)) = false ->
  NoDup (source_version <$> merge_sort by_source_version
           (default [] (upgraders r !! source_type u) ++ [u])).
Proof.
  intros Hn Ex. rewrite merge_sort_Permutation, fmap_app. apply NoDup_app. split_and!.
  - destruct (upgraders r !! source_type u) eqn:E; simpl; [by apply Hn | constructor].
  - intros x (v & -> & Hv)%list_elem_of_fmap Hx. apply list_elem_of_singleton in Hx.
    apply not_true_iff_false in Ex. apply Ex, existsb_exists. exists v.
    split; [by apply list_elem_of_In | by apply Z.eqb_eq].
  - apply NoDup_singleton.
Qed.

Lemma validate_upgrader_lt u : validate_upgrader u = Ok tt -> source_version u < target_version u.
Proof.
  unfold validate_upgrader. destruct (_ || _); [done |].
  destruct (Z.leb_spec (target_version u) (source_version u)); [done | lia].
Qed.

Lemma register_wf r u : rules_wf r -> rules_wf (snd (register r u)).
Proof.
  intros [Ht Hu Hc]. unfold register. destruct (validate_upgrader u) as [[]|] eqn:Hv; [| by split].
  apply validate_upgrader_lt in Hv. destruct (existsb _ _) eqn:Ex; [by split |].
  split; simpl.
  - intros t us v E Hin. destruct (registered_elem _ _ _ _ _ E Hin) as [[-> ->]|(? & ? & ?)]; eauto.
  - intros t us. rewrite lookup_insert_Some. intros [[<- <-]|[_ E]]; [| by eapply Hu].
    apply registered_unique; [apply Hu | done].
  - intros t us v E Hin. destruct (registered_elem _ _ _ _ _ E Hin) as [[-> ->]|(us' & E' & Hin')].
    + rewrite lookup_insert_eq. eexists. split; [done |]. case_match; lia.
    + destruct (Hc _ _ _ E' Hin') as (w & Hw & Hle).
      destruct (decide (target_type u = target_type v)) as [Eq|Hne].
      * rewrite Eq, lookup_insert_eq, Hw. eexists. split; [done |]. lia.
      * rewrite lookup_insert_ne by done. eauto.
Qed.

Lemma rules_reachable r r' : rules_wf r -> rtc rstep r r' -> rules_wf r'.
Proof.
  intros Hr Hs. revert Hr. induction Hs as [|r r1 r' H1 _ IH]; [done |]. intros Hr. apply IH.
  destruct H1. by apply register_wf.
Qed.

(** ** Chains of steps *)

(** One registered step on an envelope, its declared output checked *)
Definition ustep (r : VersionRules) (e e' : Envelope) : Prop :=
  exists u, find_upgrader r e = Some u /\ upgrade u e = Ok e'
    /\ message_type e' = target_type u /\ schema_version e' = target_version u.

Lemma find_upgrader_inv r e u :
  rules_wf r -> find_upgrader r e = Some u ->
  source_type u = message_type e /\ source_version u = schema_version e
  /\ source_version u < target_version u
  /\ target_version u <= current_version r (target_type u).
Proof.
  intros Hr. unfold find_upgrader. destruct (upgraders r !! message_type e) as [us|] eqn:E; [| done].
  simpl. intros [Hin Hv]%find_some. apply list_elem_of_In in Hin. apply Z.eqb_eq in Hv.
  destruct (rw_type _ Hr _ _ _ E Hin). destruct (rw_current _ Hr _ _ _ E Hin) as (w & Hw & Hle).
  split_and!; [done .. |]. unfold current_version. by rewrite Hw.
Qed.

Lemma upgrade_loop_spec r n e e' :
  upgrade_loop r n e = Ok e'
  <-> exists k, (k < n)%nat /\ nsteps (ustep r) k e e' /\ find_upgrader r e' = None.
Proof.
  revert e. induction n as [|n IH]; intros e; simpl.
  { split; [done |]. intros (k & Hk & _). lia. }
  destruct (find_upgrader r e) as [u|] eqn:E.
  - destruct (upgrade u e) as [e1|] eqn:Eu; simpl.
    + destruct (_ || _) eqn:Ec.
      * split; [done |]. intros (k & Hk & Hn & Hf). exfalso.
        inversion Hn as [|? ? e2 ? (u' & E' & Eu' & Ht & Hv) _]; simplify_eq.
        assert (e2 = e1) as -> by congruence. rewrite Ht, Hv, bool_decide_eq_true_2, Z.eqb_refl in Ec by done. done.
      * apply orb_false_iff in Ec as [Ht Hv]. apply negb_false_iff in Ht, Hv.
        apply bool_decide_eq_true_1 in Ht. apply Z.eqb_eq in Hv. rewrite IH. split.
        -- intros (k & Hk & Hn & Hf). exists (S k). split_and!; [lia | | done].
           eapply nsteps_l; [| exact Hn]. by exists u.
        -- intros (k & Hk & Hn & Hf). inversion Hn as [|? ? e2 ? (u' & E' & Eu' & _) Hn']; simplify_eq.
           assert (e2 = e1) as -> by congruence. eexists. split_and!; [| exact Hn' | done]. lia.
    + split; [done |]. intros (k & Hk & Hn & Hf).
      inversion Hn as [|? ? e2 ? (u' & E' & Eu' & _) _]; simplify_eq. congruence.
  - split.
    + intros. simplify_eq. exists 0%nat. split_and!; [lia | constructor | done].
    + intros (k & Hk & Hn & Hf). inversion Hn as [|? ? e2 ? (u' & E' & _) _]; simplify_eq. done.
Qed.

Lemma nsteps_version r k e e' :
  rules_wf r -> nsteps (ustep r) k e e' -> schema_version e + Z.of_nat k <= schema_version e'.
Proof.
  intros Hr. induction 1 as [|k e e1 e' (u & E & _ & _ & Hv) _ IH]; [lia |].
  apply find_upgrader_inv in E as (_ & Hs & Hlt & _); [| done]. lia.
Qed.

(** Upgrading an event is following the registered steps to the end: with any
    registry built by [register], [upgrade_to_latest] returns an envelope exactly
    when fewer than 100 registered steps, each giving its declared type and version,
    lead to it and no step applies to it; every step raises the schema version;
    upgrading the result again returns it unchanged. *)
Theorem upgrade_reaches_latest r e e' :
  rtc rstep rules_default r ->
  (upgrade_to_latest r e = Ok e'
   <-> exists k, (k < MAX_UPGRADE_STEPS)%nat /\ nsteps (ustep r) k e e' /\ find_upgrader r e' = None)
  /\ (upgrade_to_latest r e = Ok e' ->
      upgrade_to_latest r e' = Ok e'
      /\ schema_version e <= schema_version e'
      /\ (e' <> e -> schema_version e < schema_version e' <= current_version r (message_type e'))).
Proof.
  intros Hr. apply (rules_reachable _ _ rules_default_wf) in Hr.
  split; [apply upgrade_loop_spec |]. intros (k & Hk & Hn & Hf)%upgrade_loop_spec.
  pose proof (nsteps_version _ _ _ _ Hr Hn) as Hv. split_and!.
  - apply upgrade_loop_spec. exists 0%nat. split_and!; [unfold MAX_UPGRADE_STEPS; lia | constructor | done].
  - lia.
  - intros Hne. destruct k as [|k]; [by inversion Hn |]. split; [lia |].
    apply nsteps_inv_r in Hn as (e1 & _ & u & E & _ & -> & ->).
    by apply find_upgrader_inv in E as (_ & _ & _ & ?).
Qed.

(** Without a matching type there is nothing to upgrade. *)
Lemma upgrade_no_rules r e :
  has_upgraders r (message_type e) = false -> upgrade_to_latest r e = Ok e.
Proof.
  intros E. apply upgrade_loop_spec. exists 0%nat.
  split_and!; [unfold MAX_UPGRADE_STEPS; lia | constructor |]. unfold find_upgrader.
  apply bool_decide_eq_false_1 in E. destruct (upgraders r !! message_type e); [by destruct E | done].
Qed.

(** The upgrade of a stored event: only its envelope changes. *)
Definition upgraded (r : VersionRules) (e : StoredEvent) : CatgaResult StoredEvent :=
  rmap (fun envelope => mkStoredEvent (ev_version e) envelope (ev_timestamp e))
    (upgrade_to_latest r (ev_envelope e)).

Lemma upgrade_event_spec r e : upgrade_event r e = upgraded r e.
Proof.
  unfold upgrade_event, upgraded. destruct (has_upgraders r _) eqn:E; simpl.
  - by destruct (upgrade_to_latest r (ev_envelope e)).
  - rewrite upgrade_no_rules by done. by destruct e.
Qed.

Lemma collect_ext {X Y} (f g : X -> CatgaResult Y) l :
  (forall x, x ∈ l -> f x = g x) -> collect f l = collect g l.
Proof.
  induction l as [|x l IH]; intros Hl; simpl; [done |]. rewrite (Hl x) by (by left).
  destruct (g x); simpl; [| done]. rewrite IH; [done |]. intros y Hy. apply Hl. by right.
Qed.

Lemma collect_id {X} (f : X -> CatgaResult X) l :
  (forall x, x ∈ l -> f x = Ok x) -> collect f l = Ok l.
Proof.
  induction l as [|x l IH]; intros Hl; simpl; [done |]. rewrite (Hl x) by (by left). simpl.
  rewrite IH; [done |]. intros y Hy. apply Hl. by right.
Qed.

Lemma collect_slots {X Y} (f : X -> CatgaResult Y) l l' :
  collect f l = Ok l' -> Forall2 (fun x y => f x = Ok y) l l'.
Proof.
  revert l'. induction l as [|x l IH]; intros l' H; simpl in H; [by simplify_eq; constructor |].
  apply rbind_ok_inv in H as (y & Hy & H). apply rbind_ok_inv in H as (ys & Hys & H). simplify_eq.
  constructor; auto.
Qed.

(** The upgrading view returns the inner store's page with every event upgraded
    to its latest schema and nothing else changed: the same stream, version, cursor,
    event versions and timestamps, in the same order; the shortcut that returns a
    page untouched when no step is registered for its types makes no difference, and
    one event that cannot be upgraded fails the page. *)
Theorem upgrading_view_exact r page :
  upgrade_page r page
  = let? p := page in
    let? events := collect (upgraded r) (st_events (pg_stream p)) in
    Ok (mkEventPage (mkEventStream (st_stream_id (pg_stream p)) (st_version (pg_stream p)) events)
          (pg_next_version p)).
Proof.
  unfold upgrade_page. destruct page as [[[id v events] next]|]; simpl; [| done].
  unfold upgrade_stream. simpl. destruct (existsb _ events) eqn:E; simpl.
  - rewrite (collect_ext _ (upgraded r)) by (intros; apply upgrade_event_spec).
    by destruct (collect (upgraded r) events).
  - rewrite (collect_id (upgraded r)); [done |]. intros e He. unfold upgraded.
    rewrite upgrade_no_rules; [by destruct e |].
    apply not_true_iff_false. intros Ht. apply not_true_iff_false in E. apply E.
    apply existsb_exists. exists e. split; [by apply list_elem_of_In | done].
Qed.

(** ** A concrete registry *)

Definition bump (from to : Z) : EventUpgrader :=
  mkUpgrader "Tick" "Tick" from to (fun e =>
    Ok (mkEnvelope (env_id e) "Tick" (payload e) (metadata e) (sent_at_unix_ms e) to (reply_to e)
          (Messages.headers e))).

Definition demo_rules : VersionRules :=
  snd (register (snd (register rules_default (bump 1 2))) (bump 2 5)).

Lemma upgrade_reaches_latest_witness :
  exists e', upgrade_to_latest demo_rules (es_demo_envelope 1) = Ok e' /\ schema_version e' = 5
    /\ upgrade_to_latest demo_rules e' = Ok e'.
Proof.
  eexists. split; [vm_compute; reflexivity |]. split; [reflexivity |].
  eapply (upgrade_reaches_latest demo_rules (es_demo_envelope 1)).
  - eapply rtc_l; [apply (r_register _ (bump 1 2)) |]. apply rtc_once. apply (r_register _ (bump 2 5)).
  - vm_compute. reflexivity.
Defined.
