(* ===== verification/CatchUp.v ===== *)
(** * The catch-up loop of projections and subscriptions

    [CatchUpProjectionRunner::run_stream], [SubscriptionRunner::run_stream] and
    [SubscriptionRunner::run_next_in_stream] have the same loop: read a page at the
    next version, stop when it is empty, handle its events one by one (each handler
    run saves a checkpoint and yields the next version, or leaves the function), stop
    when the page has no cursor.  [drain] is that loop; [drain_fold] shows that over a
    dense stream it folds exactly the events from the start version on.  The second
    half states progress once for all runners: what was handled, what is left, and
    where the checkpoints are, whether or not a handler failed. *)

From S2P Require Import Prelude Utf8 Errors Time Messages Heap EventStore.

(** What the body of the inner loop does: go on with a version, or return *)
Inductive flow (R : Type) : Type :=
| Next (version : Z)
| Return (r : R).
Arguments Next {R} version.
Arguments Return {R} r.

Section drain.
Context {St R : Type} (step : St -> StoredEvent -> CatgaResult (flow R) * St).

(** The inner loop: [Ok (Next v)] when every event went on, with the last version *)
Fixpoint drain_page (next : Z) (st : St) (events : list StoredEvent)
    : CatgaResult (flow R) * St :=
  match events with
  | [] => (Ok (Next next), st)
  | e :: events =>
    match step st e with
    | (Ok (Next next), st) => drain_page next st events
    | other => other
    end
  end.

Fixpoint drain (page : Z -> CatgaResult EventPage) (finished : St -> R) (fuel : nat) (next : Z)
    (st : St) : option (CatgaResult R * St) :=
  match fuel with
  | O => None
  | S fuel =>
    match page next with
    | Err e => Some (Err e, st)
    | Ok p =>
      match st_events (pg_stream p) with
      | [] => Some (Ok (finished st), st)
      | events =>
        match drain_page next st events with
        | (Err e, st) => Some (Err e, st)
        | (Ok (Return r), st) => Some (Ok r, st)
        | (Ok (Next next), st) =>
          match pg_next_version p with
          | None => Some (Ok (finished st), st)
          | Some _ => drain page finished fuel next st
          end
        end
      end
    end
  end.

Definition finish (finished : St -> R) (x : CatgaResult (flow R) * St) : CatgaResult R * St :=
  match x with
  | (Err e, st) => (Err e, st)
  | (Ok (Return r), st) => (Ok r, st)
  | (Ok (Next _), st) => (Ok (finished st), st)
  end.

Hypothesis step_next : forall st e v st', step st e = (Ok (Next v), st') -> v = ev_version e + 1.

Lemma drain_page_app next st l1 l2 :
  drain_page next st (l1 ++ l2)
  = match drain_page next st l1 with
    | (Ok (Next next), st) => drain_page next st l2
    | other => other
    end.
Proof.
  revert next st. induction l1 as [|e l1 IH]; intros next st; simpl; [done |].
  destruct (step st e) as [[[v|r]|err] st']; auto.
Qed.

(** The version after a dense run of events *)
Lemma drain_page_next next st l st' v :
  (forall i e, l !! i = Some e -> ev_version e = next + Z.of_nat i) ->
  drain_page next st l = (Ok (Next v), st') -> v = next + Z.of_nat (length l).
Proof.
  revert next st. induction l as [|e l IH]; intros next st Hd; simpl.
  { intros. simplify_eq. lia. }
  destruct (step st e) as [[[w|r]|err] st1] eqn:E; [| done ..]. apply step_next in E as ->.
  rewrite (Hd 0%nat e eq_refl). simpl. intros H. apply IH in H; [lia |].
  intros i e' Hi. rewrite (Hd (S i) e' Hi). lia.
Qed.

Lemma slice_dense l from n i e :
  stream_wf l -> 0 <= from -> slice from n l !! i = Some e -> ev_version e = from + Z.of_nat i.
Proof.
  intros Hl Hf Hi. unfold slice in Hi. rewrite lookup_take in Hi. case_decide; [| done].
  rewrite lookup_drop in Hi. rewrite (wf_dense _ Hl _ _ Hi). lia.
Qed.

Lemma drain_fold (page : Z -> CatgaResult EventPage) id l n finished fuel next st :
  stream_wf l -> (0 < n)%nat ->
  (forall from, 0 <= from <= int_max i64 -> page from = Ok (page_at id l from n)) ->
  0 <= next <= int_max i64 -> (length l < fuel + Z.to_nat next)%nat -> fuel <> 0%nat ->
  drain page finished fuel next st
  = Some (finish finished (drain_page next st (drop (Z.to_nat next) l))).
Proof.
  intros Hl Hn Hpage. pose proof (wf_length _ Hl) as Hlen. revert next st.
  induction fuel as [|fuel IH]; intros next st Hnext Hlt Hne; [done |].
  cbn [drain]. rewrite Hpage by done. cbn [page_at pg_stream st_events pg_next_version].
  pose proof (drain_page_app next st (slice next n l) (drop n (drop (Z.to_nat next) l))) as Happ.
  unfold slice in Happ at 1. rewrite take_drop, drop_drop in Happ.
  destruct (slice next n l) as [|e0 rest] eqn:Es.
  - assert (drop (Z.to_nat next) l = []) as ->; [| done].
    apply (f_equal length) in Es. unfold slice in Es. rewrite length_take in Es.
    apply nil_length_inv. rewrite length_drop in *. simpl in Es. lia.
  - rewrite Happ. clear Happ. rewrite <-Es.
    destruct (drain_page next st (slice next n l)) as [[[v|r]|err] st'] eqn:Ed; [| done ..].
    apply drain_page_next in Ed as ->; [| by intros; eapply slice_dense; [| lia |]].
    unfold cursor_at. destruct (Z.ltb_spec (next + Z.of_nat n) (Z.of_nat (length l))).
    + assert (length (slice next n l) = n) as ->.
      { unfold slice. rewrite length_take, length_drop. lia. }
      rewrite IH by lia. do 4 f_equal. lia.
    + rewrite (drop_ge l) by lia. done.
Qed.
End drain.

(** ** Progress

    A runner keeps a position per stream (its checkpoint) and a model its handler
    updates; handling an event either updates the model and moves the position to the
    event, or fails and moves nothing. *)

Section progress.
Context {S : Type} `{!EventStoreLaws S}.
Context {St M : Type} (model : St -> M) (position : St -> string -> Z) (count : St -> Z).
Context (apply : M -> StoredEvent -> CatgaResult unit * M) (weight : StoredEvent -> Z).
Implicit Types (s : S) (st : St).

(** How far handling a list of events gets: [done] was handled; the rest is empty, or
    begins with the event whose handler failed. *)
Inductive applied_upto : M -> list StoredEvent -> list StoredEvent -> CatgaResult unit -> M -> Prop :=
| au_all m : applied_upto m [] [] (Ok tt) m
| au_fail m e l err m' :
    apply m e = (Err err, m') -> applied_upto m [] (e :: l) (Err err) m'
| au_step m e u m1 done rest r m' :
    apply m e = (Ok u, m1) -> applied_upto m1 done rest r m' ->
    applied_upto m (e :: done) rest r m'.

Lemma applied_upto_ok m done rest r m' : applied_upto m done rest r m' -> is_ok r = true -> rest = [].
Proof. induction 1; [done | done | auto]. Qed.

Lemma applied_upto_app m d1 m1 d2 rest r m' :
  applied_upto m d1 [] (Ok tt) m1 -> applied_upto m1 d2 rest r m' ->
  applied_upto m (d1 ++ d2) rest r m'.
Proof.
  intros H1. remember [] as nil_rest eqn:E. remember (Ok tt) as ok eqn:Eo. revert E Eo.
  induction H1; intros; simplify_eq; [done |]. simpl. econstructor; eauto.
Qed.

Lemma applied_upto_more m done rest r m' extra :
  applied_upto m done rest r m' -> is_ok r = false -> applied_upto m done (rest ++ extra) r m'.
Proof. induction 1; intros; [done | by constructor | econstructor; eauto]. Qed.

(** The events of a stream that are still to be handled *)
Definition pending s st (id : string) : list StoredEvent :=
  drop (Z.to_nat (position st id + 1)) (es_stream s id).

(** A position is the version of some event, or [-1]. *)
Definition positions_ok st : Prop := forall id, -1 <= position st id < int_max i64.

Section stream.
Context {R : Type} (step : string -> St -> StoredEvent -> CatgaResult (flow R) * St).

Definition moved (id : string) (v : Z) st st' : Prop :=
  position st' id = v /\ forall id', id' <> id -> position st' id' = position st id'.

Hypothesis step_spec : forall id st e, -1 <= ev_version e < int_max i64 ->
  match apply (model st) e with
  | (Ok _, m) => exists st', step id st e = (Ok (Next (ev_version e + 1)), st')
      /\ model st' = m /\ moved id (ev_version e) st st' /\ count st' = count st + weight e
  | (Err err, m) => exists st', step id st e = (Err err, st')
      /\ model st' = m /\ (forall id, position st' id = position st id) /\ count st' = count st
  end.

(** What one run of the loop did, from position [k - 1] *)
Record progress (id : string) (k : Z) st (done rest : list StoredEvent) (r : CatgaResult unit) st'
    : Prop := {
  pr_applied : applied_upto (model st) done rest r (model st');
  pr_moved : moved id (k - 1 + Z.of_nat (length done)) st st';
  pr_count : count st' = count st + sumZ weight done
}.

Lemma drain_page_progress id st l k :
  position st id = k - 1 -> 0 <= k -> k + Z.of_nat (length l) <= int_max i64 ->
  (forall i e, l !! i = Some e -> ev_version e = k + Z.of_nat i) ->
  exists done rest r st', l = done ++ rest
    /\ drain_page (step id) k st l
       = (rmap (fun _ => Next (k + Z.of_nat (length l))) r, st')
    /\ progress id k st done rest r st'.
Proof.
  revert k st. induction l as [|e l IH]; intros k st Hp Hk Hle Hd.
  - exists [], [], (Ok tt), st. split_and!; [done | simpl; do 3 f_equal; lia |].
    split; [constructor | split; [simpl; lia | done] | simpl; lia].
  - pose proof (Hd 0%nat e eq_refl) as He. simpl in He, Hle. cbn [drain_page].
    pose proof (step_spec id st e ltac:(lia)) as Hstep.
    destruct (apply (model st) e) as [[u|err] m1] eqn:Ea.
    + destruct Hstep as (st1 & -> & Hm & [Hp1 Hoth1] & Hc1).
      destruct (IH (ev_version e + 1) st1) as (dn & rest & r & st' & -> & Hf & [Hau [Hpr Hoth] Hc]).
      { lia. }
      { lia. }
      { lia. }
      { intros i e' Hi. rewrite (Hd (Datatypes.S i) e' Hi). lia. }
      exists (e :: dn), rest, r, st'. split_and!; [done | |].
      * rewrite Hf. destruct r; simpl; [| done]. do 3 f_equal. simpl in *. lia.
      * split; [econstructor; [done | by rewrite <-Hm] | split | simpl; lia].
        -- rewrite Hpr. simpl. lia.
        -- intros id' Hne. by rewrite Hoth, Hoth1.
    + destruct Hstep as (st1 & -> & Hm & Hp1 & Hc1).
      exists [], (e :: l), (Err err), st1. split_and!; [done | done |].
      split; [constructor; by rewrite Hm | split; [rewrite Hp1; simpl; lia | done] | simpl; lia].
Qed.

Hypothesis step_next : forall id st e v st',
  step id st e = (Ok (Next v), st') -> v = ev_version e + 1.

(** What a runner did on one stream: the pending events were split where it stopped. *)
Record stream_run s (id : string) st (r : CatgaResult unit) st' : Prop := {
  sr_ok : positions_ok st';
  sr_done : exists done, pending s st id = done ++ pending s st' id
    /\ applied_upto (model st) done (pending s st' id) r (model st')
    /\ (is_ok r = true -> count st' = count st + sumZ weight done);
  sr_others : forall id', id' <> id -> position st' id' = position st id'
}.

Lemma stream_progress (page : Z -> CatgaResult EventPage) finished fuel batch s st id :
  es_wf s -> (0 < batch <= MAX_EVENT_STORE_PAGE_SIZE)%nat ->
  (forall from, 0 <= from <= int_max i64 -> page from = es_read_page s id from batch) ->
  (length (es_stream s id) < fuel)%nat -> positions_ok st ->
  exists r st', drain (step id) page finished fuel (position st id + 1) st = Some (rmap (fun _ => finished st') r, st')
    /\ stream_run s id st r st'.
Proof.
  intros Hs Hb Hpage Hf Hc. pose proof (es_stream_wf s id Hs) as Hl. pose proof (wf_length _ Hl) as Hlen.
  set (k := position st id + 1). pose proof (Hc id) as Hk.
  rewrite (drain_fold _ (step_next id) _ id (es_stream s id) batch) by
    (done || lia || (intros; rewrite Hpage by done; by apply es_read_page_spec; [| lia |])).
  fold k. change (drop (Z.to_nat k) (es_stream s id)) with (pending s st id).
  destruct (drain_page_progress id st (pending s st id) k)
    as (dn & rest & r & st' & Happ & E & [Hau [Hpr Hoth] Hcnt]).
  { unfold k. lia. }
  { unfold k. lia. }
  { unfold pending. fold k. rewrite length_drop. unfold k in *. lia. }
  { intros i e Hi. unfold pending in Hi. fold k in Hi. rewrite lookup_drop in Hi.
    rewrite (wf_dense _ Hl _ _ Hi). unfold k in *. lia. }
  assert (pending s st' id = rest) as Hrest.
  { unfold pending in *. rewrite Hpr. fold k in Happ.
    replace (Z.to_nat (k - 1 + Z.of_nat (length dn) + 1)) with (Z.to_nat k + length dn)%nat
      by (unfold k in *; lia).
    rewrite <-drop_drop, Happ, drop_app_length. done. }
  exists r, st'. rewrite E. split; [by destruct r as [[]|] |].
  split; [| exists dn; by rewrite Hrest | done].
  intros id'. destruct (decide (id' = id)) as [->|Hne]; [| by rewrite Hoth].
  rewrite Hpr. split; [lia |].
  assert (length dn <= length (es_stream s id) - Z.to_nat k)%nat as Hdn.
  { rewrite <-length_drop. unfold pending in Happ. fold k in Happ. rewrite Happ, length_app. lia. }
  destruct dn; [simpl; unfold k; lia |]. simpl in *. lia.
Qed.
End stream.

Arguments sr_ok {s id st r st'}.
Arguments sr_done {s id st r st'}.
Arguments sr_others {s id st r st'}.

(** ** All streams *)

Definition all_pending s st (ids : list string) : list StoredEvent := concat (pending s st <$> ids).

Lemma all_pending_cons s st id ids :
  all_pending s st (id :: ids) = pending s st id ++ all_pending s st ids.
Proof. done. Qed.

Lemma pending_ext s st st' id :
  position st' id = position st id -> pending s st' id = pending s st id.
Proof. unfold pending. by intros ->. Qed.

Lemma all_pending_ext s st st' ids :
  (forall id, id ∈ ids -> position st' id = position st id) ->
  all_pending s st' ids = all_pending s st ids.
Proof.
  unfold all_pending. intros H. f_equal. apply list_fmap_ext. intros i id Hi.
  apply pending_ext, H. by eapply list_elem_of_lookup_2.
Qed.

(** Nothing is pending anywhere when nothing is pending in the listed streams. *)
Lemma all_pending_none s st id :
  all_pending s st (es_ids s) = [] -> pending s st id = [].
Proof.
  intros Hnil. destruct (decide (id ∈ es_ids s)) as [Hin|Hnin].
  - unfold all_pending in Hnil. apply concat_nil_Forall in Hnil.
    eapply Forall_forall in Hnil; [exact Hnil |]. by apply list_elem_of_fmap_2.
  - unfold pending. destruct (decide (length (es_stream s id) = 0%nat)) as [E|Hne].
    + apply nil_length_inv in E as ->. apply drop_nil.
    + exfalso. apply Hnin, es_ids_complete. by intros E%(f_equal length).
Qed.

Lemma ids_progress (run_id : St -> string -> CatgaResult unit * St) s ids st :
  NoDup ids ->
  (forall st id, id ∈ ids -> positions_ok st ->
     exists r st', run_id st id = (r, st') /\ stream_run s id st r st') ->
  positions_ok st ->
  exists done r st', fold_m run_id st ids = (r, st') /\ positions_ok st'
    /\ all_pending s st ids = done ++ all_pending s st' ids
    /\ applied_upto (model st) done (all_pending s st' ids) r (model st')
    /\ (is_ok r = true -> count st' = count st + sumZ weight done)
    /\ (forall id, id ∉ ids -> position st' id = position st id).
Proof.
  intros Hn Hrun. revert st. induction ids as [|id ids IH]; intros st Hc.
  { exists [], (Ok tt), st. split_and!; [done | done | done | constructor | simpl; lia | done]. }
  apply NoDup_cons in Hn as [Hnotin Hn]. cbn [fold_m].
  destruct (Hrun st id (list_elem_of_here _ _) Hc) as (r1 & st1 & -> & [Hc1 (d1 & Hp1 & Hau1 & Hcnt1) Hoth1]).
  destruct r1 as [[]|err].
  - pose proof (applied_upto_ok _ _ _ _ _ Hau1 eq_refl) as Hnil. rewrite Hnil in Hau1, Hp1.
    rewrite app_nil_r in Hp1.
    destruct (IH Hn ltac:(intros; apply Hrun; [by right | done]) st1 Hc1)
      as (d2 & r & st' & E & Hc' & Hp2 & Hau2 & Hcnt2 & Hoth2).
    assert (pending s st' id = []) as Hnil' by (rewrite <-Hnil; by apply pending_ext, Hoth2).
    exists (d1 ++ d2), r, st'. split_and!; [done | done | | | |].
    + rewrite !all_pending_cons, Hnil', Hp1, <-(assoc_L (++)). f_equal. simpl. rewrite <-Hp2.
      symmetry. apply all_pending_ext. intros id' Hid'. apply Hoth1. by intros ->.
    + rewrite all_pending_cons, Hnil'. by eapply applied_upto_app.
    + intros Hok. rewrite Hcnt2, Hcnt1, sumZ_app by done. lia.
    + intros id' Hid'. apply not_elem_of_cons in Hid' as [Hne Hid']. rewrite Hoth2 by done. by apply Hoth1.
  - assert (all_pending s st1 ids = all_pending s st ids) as Hall.
    { apply all_pending_ext. intros id' Hid'. apply Hoth1. by intros ->. }
    exists d1, (Err err), st1. split_and!; [done | done | | | by intros |].
    + by rewrite !all_pending_cons, Hp1, Hall, (assoc_L (++)).
    + rewrite all_pending_cons. by apply applied_upto_more.
    + intros id' Hid'. apply Hoth1. set_solver.
Qed.
End progress.
