(* ===== verification/Projections.v ===== *)
(** * Catch-up projections ([projection.rs], [memory/projection.rs])

    [CatchUpProjectionRunner] applies the events a projection has not seen yet, one
    stream after the other in identifier order, and saves a checkpoint after each
    event.  The projection is user code: its read model is a state of any type and
    [apply] may fail. *)

From S2P Require Import Prelude Utf8 Errors Time Messages Heap EventStore CatchUp.

Definition DEFAULT_BATCH_SIZE : nat := 256.

Record ProjectionCheckpoint := mkProjectionCheckpoint {
  cp_projection_name : string;
  cp_stream_id : string;
  cp_version : Z;
  cp_updated_at : SystemTime
}.

(** ** [MemoryProjectionCheckpoints] *)

Record MemoryProjectionCheckpoints := mkProjectionCheckpoints {
  projections : gmap string (gmap string ProjectionCheckpoint)
}.

Definition checkpoint_save (c : MemoryProjectionCheckpoints) (checkpoint : ProjectionCheckpoint)
    : CatgaResult unit * MemoryProjectionCheckpoints :=
  let streams := default ∅ (projections c !! cp_projection_name checkpoint) in
  (Ok tt, mkProjectionCheckpoints
            (<[cp_projection_name checkpoint := <[cp_stream_id checkpoint := checkpoint]> streams]>
               (projections c))).

Definition checkpoint_load (c : MemoryProjectionCheckpoints) (projection_name stream_id : string)
    : CatgaResult (option ProjectionCheckpoint) :=
  Ok (streams ← projections c !! projection_name; streams !! stream_id).

Definition checkpoint_delete (c : MemoryProjectionCheckpoints) (projection_name stream_id : string)
    : CatgaResult unit * MemoryProjectionCheckpoints :=
  match projections c !! projection_name with
  | None => (Ok tt, c)
  | Some streams =>
    (Ok tt, mkProjectionCheckpoints
              (<[projection_name := delete stream_id streams]> (projections c)))
  end.

Definition checkpoint_delete_all (c : MemoryProjectionCheckpoints) (projection_name : string)
    : CatgaResult unit * MemoryProjectionCheckpoints :=
  (Ok tt, mkProjectionCheckpoints (delete projection_name (projections c))).

Definition next_version_after (version : Z) : CatgaResult Z :=
  let? next := ok_or (checked i64 (version + 1))
    (CatgaError_new Validation "projection checkpoint version cannot advance beyond i64::MAX") in
  ok_or (checked u64 next)
    (CatgaError_new Validation "projection checkpoint version cannot be negative").

(** [Projection]: user code over a read model [M] *)
Class Projection (M : Type) := {
  proj_name : string;
  proj_apply : M -> StoredEvent -> CatgaResult unit * M;
  proj_reset : M -> CatgaResult unit * M
}.

Section runner.
Context {M : Type} `{!Projection M}.
Context {S : Type} `{!EventStoreLaws S}.

(** The read model, the checkpoints, and the counters of [ProjectionRun] *)
Record RunState := mkRunState {
  rs_model : M;
  rs_checkpoints : MemoryProjectionCheckpoints;
  rs_applied : Z;
  rs_streams : Z
}.

Definition set_model (st : RunState) (m : M) : RunState :=
  mkRunState m (rs_checkpoints st) (rs_applied st) (rs_streams st).
Definition set_checkpoints (st : RunState) (c : MemoryProjectionCheckpoints) : RunState :=
  mkRunState (rs_model st) c (rs_applied st) (rs_streams st).
Definition set_applied (st : RunState) (n : Z) : RunState :=
  mkRunState (rs_model st) (rs_checkpoints st) n (rs_streams st).
Definition set_streams (st : RunState) (n : Z) : RunState :=
  mkRunState (rs_model st) (rs_checkpoints st) (rs_applied st) n.

(** [with_batch_size]: the page size is capped. *)
Definition capped_batch_size (batch_size : nat) : nat :=
  Nat.max 1 (Nat.min batch_size MAX_EVENT_STORE_PAGE_SIZE).

(** The body of the inner loop; [clock] is what [SystemTime::now()] reads at the
    [n]-th event of the run. *)
Definition project_event (clock : Z -> SystemTime) (stream_id : string) (st : RunState)
    (event : StoredEvent) : CatgaResult (flow unit) * RunState :=
  match proj_apply (rs_model st) event with
  | (Err e, m) => (Err e, set_model st m)
  | (Ok _, m) =>
    let st := set_model st m in
    match checkpoint_save (rs_checkpoints st)
            (mkProjectionCheckpoint proj_name stream_id (ev_version event)
               (clock (rs_applied st))) with
    | (Err e, c) => (Err e, set_checkpoints st c)
    | (Ok _, c) =>
      let st := set_checkpoints st c in
      match next_version_after (ev_version event) with
      | Err e => (Err e, st)
      | Ok next => (Ok (Next next), set_applied st (rs_applied st + 1))
      end
    end
  end.

Definition run_stream (clock : Z -> SystemTime) (fuel batch : nat) (s : S) (st : RunState)
    (stream_id : string) : option (CatgaResult unit * RunState) :=
  match
    (let? checkpoint := checkpoint_load (rs_checkpoints st) proj_name stream_id in
     match checkpoint with
     | Some c => next_version_after (cp_version c)
     | None => Ok 0
     end)
  with
  | Err e => Some (Err e, st)
  | Ok next_version =>
    drain (project_event clock stream_id) (fun from => es_read_page s stream_id from batch)
      (fun _ => tt) fuel next_version st
  end.

(** The body of the loop over the identifiers; running out of fuel is an error of the
    model, excluded by the theorems. *)
Definition out_of_fuel : CatgaError := CatgaError_new Internal "out of fuel".

Definition run_id (clock : Z -> SystemTime) (fuel batch : nat) (s : S) (st : RunState)
    (stream_id : string) : CatgaResult unit * RunState :=
  let st := set_streams st (rs_streams st + 1) in
  match run_stream clock fuel batch s st stream_id with
  | None => (Err out_of_fuel, st)
  | Some r => r
  end.

Definition run (clock : Z -> SystemTime) (fuel batch : nat) (s : S) (model : M)
    (c : MemoryProjectionCheckpoints) : option (CatgaResult unit * RunState) :=
  follow_ids (fun after => es_stream_ids_page s after MAX_EVENT_STORE_PAGE_SIZE)
    (run_id clock fuel batch s) fuel None (mkRunState model c 0 0).

Definition rebuild (clock : Z -> SystemTime) (fuel batch : nat) (s : S) (model : M)
    (c : MemoryProjectionCheckpoints) : option (CatgaResult unit * RunState) :=
  match proj_reset model with
  | (Err e, model) => Some (Err e, mkRunState model c 0 0)
  | (Ok _, model) =>
    match checkpoint_delete_all c proj_name with
    | (Err e, c) => Some (Err e, mkRunState model c 0 0)
    | (Ok _, c) => run clock fuel batch s model c
    end
  end.
End runner.
Arguments RunState : clear implicits.

(** ** Progress *)

Section progress.
Context {M : Type} `{!Projection M}.
Context {S : Type} `{!EventStoreLaws S}.
Implicit Types (s : S) (c : MemoryProjectionCheckpoints) (st : RunState M).

(** The version a stream is projected up to, [-1] when there is no checkpoint *)
Definition projected c (id : string) : Z :=
  match projections c !! proj_name with
  | Some streams => default (-1) (cp_version <$> streams !! id)
  | None => -1
  end.

Definition position st (id : string) : Z := projected (rs_checkpoints st) id.

Lemma projected_saved c x id :
  projected (snd (checkpoint_save c x)) id
  = if decide (cp_projection_name x = proj_name /\ cp_stream_id x = id)
    then cp_version x else projected c id.
Proof.
  unfold projected, checkpoint_save. simpl. case_decide as D.
  - destruct D as [-> <-]. by rewrite lookup_insert_eq, lookup_insert_eq.
  - destruct (decide (cp_projection_name x = proj_name)) as [E|E].
    + rewrite E, lookup_insert_eq, lookup_insert_ne by naive_solver.
      by destruct (projections c !! proj_name).
    + by rewrite lookup_insert_ne.
Qed.

Lemma next_version_after_ok v :
  -1 <= v < int_max i64 -> next_version_after v = Ok (v + 1).
Proof.
  intros Hv. unfold next_version_after. rewrite checked_fits by (int_bounds; lia). cbn [rbind ok_or].
  rewrite checked_fits by (int_bounds; lia). done.
Qed.

Lemma project_event_next clock id st e v st' :
  project_event clock id st e = (Ok (Next v), st') -> v = ev_version e + 1.
Proof.
  unfold project_event. destruct (proj_apply _ e) as [[u|] m]; [| done]. simpl.
  destruct (next_version_after (ev_version e)) as [n|] eqn:En; [| done]. intros. simplify_eq.
  unfold next_version_after in En. apply rbind_ok_inv in En as (w & Hw & Hv). revert Hw Hv.
  unfold ok_or, checked. repeat case_match; intros; by simplify_eq.
Qed.

Lemma project_event_spec clock id st e : -1 <= ev_version e < int_max i64 ->
  match proj_apply (rs_model st) e with
  | (Ok _, m) => exists st', project_event clock id st e = (Ok (Next (ev_version e + 1)), st')
      /\ rs_model st' = m /\ moved position id (ev_version e) st st'
      /\ rs_applied st' = rs_applied st + 1
  | (Err err, m) => exists st', project_event clock id st e = (Err err, st')
      /\ rs_model st' = m /\ (forall id, position st' id = position st id)
      /\ rs_applied st' = rs_applied st
  end.
Proof.
  intros Hv. unfold project_event. destruct (proj_apply (rs_model st) e) as [[u|err] m].
  - cbn [checkpoint_save]. rewrite next_version_after_ok by done. eexists.
    split; [reflexivity |]. split; [done |]. split; [| done].
    set (x := mkProjectionCheckpoint _ _ _ _). unfold position, moved. simpl.
    fold (checkpoint_save (rs_checkpoints st) x).
    split; [| intros id' Hne]; rewrite (projected_saved (rs_checkpoints st) x); unfold x; simpl;
      case_decide as D; naive_solver.
  - by eexists.
Qed.

(** One stream *)
Lemma run_id_progress clock fuel batch s st id :
  es_wf s -> (0 < batch <= MAX_EVENT_STORE_PAGE_SIZE)%nat ->
  (length (es_stream s id) < fuel)%nat -> positions_ok position st ->
  exists r st', run_id clock fuel batch s st id = (r, st')
    /\ stream_run rs_model position rs_applied proj_apply (fun _ => 1) s id st r st'.
Proof.
  intros Hs Hb Hf Hc. set (st0 := set_streams st (rs_streams st + 1)).
  destruct (stream_progress rs_model position rs_applied proj_apply (fun _ => 1)
              (project_event clock) (project_event_spec clock) (project_event_next clock)
              (fun from => es_read_page s id from batch) (fun _ => tt) fuel batch s st0 id) as (r & st' & E & Hr); [done .. |].
  exists r, st'. split; [| by destruct Hr].
  unfold run_id. fold st0.
  assert (run_stream clock fuel batch s st0 id
    = drain (project_event clock id) (fun from => es_read_page s id from batch) (fun _ => tt) fuel
        (position st0 id + 1) st0) as ->.
  { specialize (Hc id). change (position st id) with (position st0 id) in Hc.
    unfold run_stream, checkpoint_load, position, projected in *. cbn [rbind].
    destruct (projections (rs_checkpoints st0) !! proj_name) as [m|]; [| done]. simpl.
    destruct (m !! id) as [x|]; [| done]. simpl in *. by rewrite next_version_after_ok. }
  rewrite E. by destruct r as [[]|].
Qed.

(** C34: A projection run makes exact, resumable progress: with any store, page size
    and checkpoints, [run] terminates having applied a prefix of the events that were
    pending (all streams, in identifier and version order), each exactly once and in
    order; what is pending afterwards is exactly the rest; it succeeds, reporting how
    many it applied, only when nothing is left, and stops only at an event whose
    application fails, which stays first in line for the next run. *)
Theorem projection_progress clock fuel batch s m c :
  let st := mkRunState m c 0 0 in
  es_wf s -> (0 < batch <= MAX_EVENT_STORE_PAGE_SIZE)%nat -> (length (es_ids s) < fuel)%nat ->
  (forall id, (length (es_stream s id) < fuel)%nat) -> positions_ok position st ->
  exists done r st', run clock fuel batch s m c = Some (r, st')
    /\ all_pending position s st (es_ids s) = done ++ all_pending position s st' (es_ids s)
    /\ applied_upto proj_apply m done (all_pending position s st' (es_ids s)) r (rs_model st')
    /\ positions_ok position st'
    /\ (is_ok r = true -> rs_applied st' = Z.of_nat (length done)
                          /\ forall id, pending position s st' id = []).
Proof.
  intros st Hs Hb Hf Hfs Hc. destruct (es_ids_sorted s) as [Hsort Hnd]. unfold run. fold st.
  rewrite (follow_ids_fold _ _ (es_ids s) MAX_EVENT_STORE_PAGE_SIZE fuel 0 None); try done; try lia.
  - rewrite drop_0.
    destruct (ids_progress rs_model position rs_applied proj_apply (fun _ => 1)
                (run_id clock fuel batch s) s (es_ids s) st)
      as (dn & r & st' & -> & Hc' & Hp & Hau & Hcnt & Hoth); [done | | done |].
    { intros st1 id _ Hok. by apply run_id_progress. }
    exists dn, r, st'. split_and!; [done .. |]. intros Hok. split.
    + by rewrite Hcnt, sumZ_length.
    + intros id. pose proof (applied_upto_ok _ _ _ _ _ _ Hau Hok) as Hnil.
      by apply (all_pending_none position s st' id).
  - intros a. apply es_stream_ids_page_spec. unfold MAX_EVENT_STORE_PAGE_SIZE. lia.
  - apply filter_all. done.
Qed.
End progress.

(** ** A concrete run: the read model counts events and refuses one *)

#[export] Instance counting_projection : Projection Z := {|
  proj_name := "count";
  proj_apply n e :=
    if env_id (ev_envelope e) =? 3 then (fail Unavailable "refused", n) else (Ok tt, n + 1);
  proj_reset n := (Ok tt, 0)
|}.

Definition no_checkpoints : MemoryProjectionCheckpoints := mkProjectionCheckpoints ∅.

Lemma projection_progress_witness :
  exists st', run (fun _ => 0) 4 1 es_demo2 0 no_checkpoints = Some (fail Unavailable "refused", st')
    /\ ev_version <$> pending position es_demo2 st' "b" = [0].
Proof.
  destruct (projection_progress (fun _ => 0) 4 1 es_demo2 0 no_checkpoints)
    as (dn & r & st' & E & _).
  - exact es_demo_wf.
  - unfold MAX_EVENT_STORE_PAGE_SIZE. lia.
  - vm_compute. lia.
  - intros id. pose proof (es_demo_length id) as H. apply Nat.lt_succ_r in H.
    apply (Nat.lt_trans _ 3); [exact H | lia].
  - intros id. unfold position, projected. cbn [rs_checkpoints]. change (projections no_checkpoints !! proj_name) with (@None (gmap string ProjectionCheckpoint)).
    vm_compute. split; congruence.
  - vm_compute in E. simplify_eq. eexists. split; [vm_compute; reflexivity |]. vm_compute. reflexivity.
Defined.
