(* ===== verification/Subscriptions.v ===== *)
(** * Persistent subscriptions ([subscription.rs], [memory/subscription.rs])

    A subscription selects streams by pattern and events by type.  The runner hands
    the selected events to a handler (user code over a state of any type) and keeps a
    checkpoint per stream; the competing runner does so while it holds the
    subscription's lease. *)

From S2P Require Import Prelude Utf8 Errors Time Messages Heap EventStore CatchUp.

Record SubscriptionLoopOptions := mkLoopOptions { poll_interval : Duration }.

Definition LoopOptions_new (poll_interval : Duration) : CatgaResult SubscriptionLoopOptions :=
  if poll_interval =? 0
  then fail Validation "subscription poll interval must be greater than zero"
  else Ok (mkLoopOptions poll_interval).

Record PersistentSubscription := mkSubscription {
  sub_name : string;
  stream_pattern : string;
  event_types : list string
}.

Definition PersistentSubscription_new (name stream_pattern : string) : PersistentSubscription :=
  mkSubscription name stream_pattern [].

Definition with_event_types (s : PersistentSubscription) (event_types : list string)
    : PersistentSubscription :=
  mkSubscription (sub_name s) (stream_pattern s) event_types.

(** [strip_suffix(...)] with the character 42, the star *)
Definition star : Ascii.ascii := Ascii.ascii_of_nat 42.

Fixpoint strip_star (s : string) : option string :=
  match s with
  | EmptyString => None
  | String c EmptyString => if Ascii.eqb c star then Some "" else None
  | String c s => String c <$> strip_star s
  end.

Definition matches_stream (s : PersistentSubscription) (stream_id : string) : bool :=
  if bool_decide (stream_pattern s = "*") then true
  else
    match strip_star (stream_pattern s) with
    | None => bool_decide (stream_pattern s = stream_id)
    | Some p => String.prefix p stream_id
    end.

Definition matches_event_type (s : PersistentSubscription) (event_type : string) : bool :=
  bool_decide (event_types s = []) || existsb (fun t => bool_decide (t = event_type)) (event_types s).

Record SubscriptionCheckpoint := mkSubscriptionCheckpoint {
  sc_subscription_name : string;
  sc_stream_id : string;
  sc_version : Z;
  sc_updated_at : SystemTime
}.

(** ** [MemorySubscriptions] *)

Record MemorySubscriptions := mkSubscriptions {
  subscriptions : gmap string PersistentSubscription;
  checkpoints : gmap string (gmap string SubscriptionCheckpoint);
  leases : gmap string string
}.

Definition sub_save (m : MemorySubscriptions) (s : PersistentSubscription)
    : CatgaResult unit * MemorySubscriptions :=
  (Ok tt, mkSubscriptions (<[sub_name s := s]> (subscriptions m)) (checkpoints m) (leases m)).

Definition sub_load (m : MemorySubscriptions) (name : string)
    : CatgaResult (option PersistentSubscription) :=
  Ok (subscriptions m !! name).

Definition sub_delete (m : MemorySubscriptions) (name : string)
    : CatgaResult unit * MemorySubscriptions :=
  (Ok tt, mkSubscriptions (delete name (subscriptions m)) (delete name (checkpoints m))
            (delete name (leases m))).

Definition save_checkpoint (m : MemorySubscriptions) (c : SubscriptionCheckpoint)
    : CatgaResult unit * MemorySubscriptions :=
  let streams := default ∅ (checkpoints m !! sc_subscription_name c) in
  (Ok tt, mkSubscriptions (subscriptions m)
            (<[sc_subscription_name c := <[sc_stream_id c := c]> streams]> (checkpoints m))
            (leases m)).

Definition load_checkpoint (m : MemorySubscriptions) (subscription_name stream_id : string)
    : CatgaResult (option SubscriptionCheckpoint) :=
  Ok (streams ← checkpoints m !! subscription_name; streams !! stream_id).

Definition sub_try_acquire (m : MemorySubscriptions) (subscription_name consumer_id : string)
    : CatgaResult bool * MemorySubscriptions :=
  match leases m !! subscription_name with
  | Some _ => (Ok false, m)
  | None =>
    (Ok true, mkSubscriptions (subscriptions m) (checkpoints m)
                (<[subscription_name := consumer_id]> (leases m)))
  end.

Definition sub_release (m : MemorySubscriptions) (subscription_name consumer_id : string)
    : CatgaResult unit * MemorySubscriptions :=
  match leases m !! subscription_name with
  | Some owner =>
    if bool_decide (owner = consumer_id)
    then (Ok tt, mkSubscriptions (subscriptions m) (checkpoints m)
                   (delete subscription_name (leases m)))
    else (Ok tt, m)
  | None => (Ok tt, m)
  end.

Section list.
Context `{!MapIter string}.

Definition by_name (s t : PersistentSubscription) : Prop := String.le (sub_name s) (sub_name t).

#[global] Instance by_name_dec : RelDecision by_name.
Proof. intros s t. unfold by_name. apply _. Defined.

Definition sub_list (m : MemorySubscriptions) : CatgaResult (list PersistentSubscription) :=
  Ok (merge_sort by_name (iter (subscriptions m)).*2).
End list.

(** ** The runner *)

(** [SubscriptionHandler]: user code *)
Class SubscriptionHandler (H : Type) := {
  handle : H -> StoredEvent -> CatgaResult unit * H
}.

Definition advance_version (version : Z) : option Z := checked i64 (version + 1).

Section runner.
Context {H : Type} `{!SubscriptionHandler H}.
Context {S : Type} `{!EventStoreLaws S}.

(** The handler's state, the store, and the counter of the current loop *)
Record SubState := mkSubState {
  su_handler : H;
  su_store : MemorySubscriptions;
  su_handled : Z
}.

(** The body of the loop of [run_stream]: a filtered event is only checkpointed. *)
Definition deliver (clock : SystemTime) (sub : PersistentSubscription) (stream_id : string)
    (st : SubState) (event : StoredEvent) : CatgaResult (flow Z) * SubState :=
  let selected := matches_event_type sub (message_type (ev_envelope event)) in
  let '(r, h) := if selected then handle (su_handler st) event else (Ok tt, su_handler st) in
  match r with
  | Err e => (Err e, mkSubState h (su_store st) (su_handled st))
  | Ok _ =>
    let handled := if selected then su_handled st + 1 else su_handled st in
    match save_checkpoint (su_store st)
            (mkSubscriptionCheckpoint (sub_name sub) stream_id (ev_version event) clock) with
    | (Err e, m) => (Err e, mkSubState h m handled)
    | (Ok _, m) =>
      (Ok (match advance_version (ev_version event) with
           | None => Return handled
           | Some next => Next next
           end), mkSubState h m handled)
    end
  end.

(** The version to start from; [None]: the checkpoint is the last version there is *)
Definition start_version (m : MemorySubscriptions) (sub : PersistentSubscription)
    (stream_id : string) : CatgaResult (option Z) :=
  let? checkpoint := load_checkpoint m (sub_name sub) stream_id in
  Ok (match checkpoint with
      | None => Some 0
      | Some c => advance_version (sc_version c)
      end).

Definition read_from (s : S) (stream_id : string) (batch : nat) (next_version : Z)
    : CatgaResult EventPage :=
  es_read_page s stream_id (default 0 (checked u64 next_version)) batch.

Definition run_stream (clock : SystemTime) (fuel batch : nat) (s : S) (sub : PersistentSubscription)
    (h : H) (m : MemorySubscriptions) (stream_id : string) : option (CatgaResult Z * SubState) :=
  let st := mkSubState h m 0 in
  match start_version m sub stream_id with
  | Err e => Some (Err e, st)
  | Ok None => Some (Ok 0, st)
  | Ok (Some next_version) =>
    drain (deliver clock sub stream_id) (read_from s stream_id batch) su_handled fuel next_version st
  end.

(** [SubscriptionRun] and the states that outlive it *)
Record SubRun := mkSubRun {
  sn_handler : H;
  sn_store : MemorySubscriptions;
  sn_handled : Z;
  sn_streams : Z
}.

Definition out_of_fuel : CatgaError := CatgaError_new Internal "out of fuel".

(** The body of the loop over the identifiers *)
Definition run_id (clock : SystemTime) (fuel batch : nat) (s : S) (sub : PersistentSubscription)
    (run : SubRun) (stream_id : string) : CatgaResult unit * SubRun :=
  if matches_stream sub stream_id then
    match run_stream clock fuel batch s sub (sn_handler run) (sn_store run) stream_id with
    | None => (Err out_of_fuel, run)
    | Some (Err e, st) =>
      (Err e, mkSubRun (su_handler st) (su_store st) (sn_handled run) (sn_streams run + 1))
    | Some (Ok n, st) =>
      (Ok tt, mkSubRun (su_handler st) (su_store st) (sn_handled run + n) (sn_streams run + 1))
    end
  else (Ok tt, run).

Definition run_once (clock : SystemTime) (fuel batch : nat) (s : S) (h : H)
    (m : MemorySubscriptions) (subscription_name : string) : option (CatgaResult unit * SubRun) :=
  let run := mkSubRun h m 0 0 in
  match
    (let? subscription := sub_load m subscription_name in
     ok_or subscription (CatgaError_new NotFound "subscription does not exist"))
  with
  | Err e => Some (Err e, run)
  | Ok sub =>
    follow_ids (fun after => es_stream_ids_page s after MAX_EVENT_STORE_PAGE_SIZE)
      (run_id clock fuel batch s sub) fuel None run
  end.

(** ** One event at a time *)

(** The body of the loop of [run_next_in_stream] *)
Definition deliver_next (clock : SystemTime) (sub : PersistentSubscription) (stream_id : string)
    (st : SubState) (event : StoredEvent) : CatgaResult (flow bool) * SubState :=
  let selected := matches_event_type sub (message_type (ev_envelope event)) in
  let '(r, h) := if selected then handle (su_handler st) event else (Ok tt, su_handler st) in
  match r with
  | Err e => (Err e, mkSubState h (su_store st) (su_handled st))
  | Ok _ =>
    match save_checkpoint (su_store st)
            (mkSubscriptionCheckpoint (sub_name sub) stream_id (ev_version event) clock) with
    | (Err e, m) => (Err e, mkSubState h m (su_handled st))
    | (Ok _, m) =>
      (Ok (if selected then Return true
           else match advance_version (ev_version event) with
                | None => Return false
                | Some next => Next next
                end), mkSubState h m (su_handled st))
    end
  end.

Definition run_next_in_stream (clock : SystemTime) (fuel batch : nat) (s : S)
    (sub : PersistentSubscription) (h : H) (m : MemorySubscriptions) (stream_id : string)
    : option (CatgaResult bool * SubState) :=
  let st := mkSubState h m 0 in
  match start_version m sub stream_id with
  | Err e => Some (Err e, st)
  | Ok None => Some (Ok false, st)
  | Ok (Some next_version) =>
    drain (deliver_next clock sub stream_id) (read_from s stream_id batch) (fun _ => false) fuel
      next_version st
  end.

(** The loop of [run_next] stops at the first stream that had a selected event: the
    state carries whether it did. *)
Definition next_id (clock : SystemTime) (fuel batch : nat) (s : S) (sub : PersistentSubscription)
    (acc : bool * (H * MemorySubscriptions)) (stream_id : string)
    : CatgaResult unit * (bool * (H * MemorySubscriptions)) :=
  let '(found, (h, m)) := acc in
  if (found : bool) || negb (matches_stream sub stream_id) then (Ok tt, acc)
  else
    match run_next_in_stream clock fuel batch s sub h m stream_id with
    | None => (Err out_of_fuel, acc)
    | Some (Err e, st) => (Err e, (false, (su_handler st, su_store st)))
    | Some (Ok b, st) => (Ok tt, (b, (su_handler st, su_store st)))
    end.

Definition run_next (clock : SystemTime) (fuel batch : nat) (s : S) (h : H)
    (m : MemorySubscriptions) (subscription_name : string)
    : option (CatgaResult bool * (H * MemorySubscriptions)) :=
  match
    (let? subscription := sub_load m subscription_name in
     ok_or subscription (CatgaError_new NotFound "subscription does not exist"))
  with
  | Err e => Some (Err e, (h, m))
  | Ok sub =>
    match follow_ids (fun after => es_stream_ids_page s after MAX_EVENT_STORE_PAGE_SIZE)
            (next_id clock fuel batch s sub) fuel None (false, (h, m)) with
    | None => None
    | Some (r, (found, hm)) => Some (rmap (fun _ => found) r, hm)
    end
  end.

(** ** The competing runner *)

Definition try_run_once (clock : SystemTime) (fuel batch : nat) (s : S) (h : H)
    (m : MemorySubscriptions) (subscription_name consumer_id : string)
    : option (CatgaResult (option (Z * Z)) * (H * MemorySubscriptions)) :=
  match sub_try_acquire m subscription_name consumer_id with
  | (Err e, m) => Some (Err e, (h, m))
  | (Ok false, m) => Some (Ok None, (h, m))
  | (Ok true, m) =>
    match run_once clock fuel batch s h m subscription_name with
    | None => None
    | Some (result, run) =>
      let '(release, m) := sub_release (sn_store run) subscription_name consumer_id in
      Some (match result, release with
            | Err e, _ => Err e
            | Ok _, Err e => Err e
            | Ok _, Ok _ => Ok (Some (sn_handled run, sn_streams run))
            end, (sn_handler run, m))
    end
  end.

Definition try_process_next (clock : SystemTime) (fuel batch : nat) (s : S) (h : H)
    (m : MemorySubscriptions) (subscription_name consumer_id : string)
    : option (CatgaResult (option bool) * (H * MemorySubscriptions)) :=
  match sub_try_acquire m subscription_name consumer_id with
  | (Err e, m) => Some (Err e, (h, m))
  | (Ok false, m) => Some (Ok None, (h, m))
  | (Ok true, m) =>
    match run_next clock fuel batch s h m subscription_name with
    | None => None
    | Some (result, (h, m)) =>
      let '(release, m) := sub_release m subscription_name consumer_id in
      Some (match result, release with
            | Err e, _ => Err e
            | Ok _, Err e => Err e
            | Ok processed, Ok _ => Ok (Some processed)
            end, (h, m))
    end
  end.
End runner.
Arguments SubState : clear implicits.
Arguments SubRun : clear implicits.

(** ** Progress *)

Section progress.
Context {H : Type} `{!SubscriptionHandler H}.
Context {S : Type} `{!EventStoreLaws S}.
Variable sub : PersistentSubscription.
Implicit Types (s : S) (m : MemorySubscriptions).

(** The version a stream was inspected up to, [-1] when there is no checkpoint *)
Definition inspected m (id : string) : Z :=
  match checkpoints m !! sub_name sub with
  | Some streams => default (-1) (sc_version <$> streams !! id)
  | None => -1
  end.

(** What handling an event of the stream means for the handler's state *)
Definition selected (e : StoredEvent) : bool := matches_event_type sub (message_type (ev_envelope e)).

Definition inspect (h : H) (e : StoredEvent) : CatgaResult unit * H :=
  if selected e then handle h e else (Ok tt, h).

Definition weight (e : StoredEvent) : Z := if selected e then 1 else 0.

Abbreviation st_position := (fun st : SubState H => inspected (su_store st)).
Abbreviation run_position := (fun run : SubRun H => inspected (sn_store run)).

Lemma inspected_saved m x id :
  inspected (snd (save_checkpoint m x)) id
  = if decide (sc_subscription_name x = sub_name sub /\ sc_stream_id x = id)
    then sc_version x else inspected m id.
Proof.
  unfold inspected, save_checkpoint. simpl. case_decide as D.
  - destruct D as [-> <-]. by rewrite lookup_insert_eq, lookup_insert_eq.
  - destruct (decide (sc_subscription_name x = sub_name sub)) as [E|E].
    + rewrite E, lookup_insert_eq, lookup_insert_ne by naive_solver.
      by destruct (checkpoints m !! sub_name sub).
    + by rewrite lookup_insert_ne.
Qed.

Lemma advance_version_ok v : -1 <= v < int_max i64 -> advance_version v = Some (v + 1).
Proof. intros Hv. apply checked_fits. int_bounds. lia. Qed.

Lemma deliver_next_version clock id (st : SubState H) e v st' :
  deliver clock sub id st e = (Ok (Next v), st') -> v = ev_version e + 1.
Proof.
  unfold deliver. destruct (if matches_event_type _ _ then _ else _) as [[u|] h]; [| done]. simpl.
  unfold advance_version. destruct (checked i64 (ev_version e + 1)) eqn:E; [| done].
  apply checked_Some in E as [-> _]. intros. by simplify_eq.
Qed.

Lemma deliver_spec clock id (st : SubState H) e : -1 <= ev_version e < int_max i64 ->
  match inspect (su_handler st) e with
  | (Ok _, h) => exists st', deliver clock sub id st e = (Ok (Next (ev_version e + 1)), st')
      /\ su_handler st' = h /\ moved st_position id (ev_version e) st st'
      /\ su_handled st' = su_handled st + weight e
  | (Err err, h) => exists st', deliver clock sub id st e = (Err err, st')
      /\ su_handler st' = h /\ (forall id, st_position st' id = st_position st id)
      /\ su_handled st' = su_handled st
  end.
Proof.
  intros Hv. unfold inspect, deliver, weight. fold (selected e).
  destruct (if selected e then _ else _) as [[u|err] h].
  - cbn [save_checkpoint]. rewrite advance_version_ok by done. eexists.
    split; [reflexivity |]. split; [done |]. split; [| simpl; destruct (selected e); lia].
    set (x := mkSubscriptionCheckpoint _ _ _ _). unfold moved. cbn [su_store].
    fold (save_checkpoint (su_store st) x).
    split; [| intros id' Hne]; rewrite (inspected_saved (su_store st) x); unfold x; simpl;
      case_decide as D; naive_solver.
  - by eexists.
Qed.

Lemma read_from_spec s id batch from :
  0 <= from <= int_max i64 -> read_from s id batch from = es_read_page s id from batch.
Proof. intros Hf. unfold read_from. by rewrite checked_fits by (int_bounds; lia). Qed.

(** One matching stream *)
Lemma matching_id_progress clock fuel batch s (run : SubRun H) id :
  es_wf s -> (0 < batch <= MAX_EVENT_STORE_PAGE_SIZE)%nat ->
  (length (es_stream s id) < fuel)%nat -> matches_stream sub id = true ->
  positions_ok run_position run ->
  exists r run', run_id clock fuel batch s sub run id = (r, run')
    /\ stream_run sn_handler run_position sn_handled inspect weight s id run r run'.
Proof.
  intros Hs Hb Hf Hm Hc. unfold run_id. rewrite Hm.
  set (st0 := mkSubState (sn_handler run) (sn_store run) 0).
  destruct (stream_progress su_handler st_position su_handled inspect weight
              (deliver clock sub) (deliver_spec clock) (deliver_next_version clock)
              (read_from s id batch) su_handled fuel batch s st0 id)
    as (r & st' & E & [Hok (dn & Hp & Hau & Hcnt) Hoth]); [done | done | | done | done |].
  { intros. by apply read_from_spec. }
  assert (run_stream clock fuel batch s sub (sn_handler run) (sn_store run) id
    = drain (deliver clock sub id) (read_from s id batch) su_handled fuel
        (st_position st0 id + 1) st0) as ->.
  { specialize (Hc id). cbn beta in Hc. unfold run_stream, start_version, load_checkpoint, inspected in *.
    cbn [rbind su_store st0]. fold st0.
    destruct (checkpoints (sn_store run) !! sub_name sub) as [x|]; [| done]. simpl.
    destruct (x !! id) as [c|]; [| done]. simpl in *. by rewrite advance_version_ok. }
  rewrite E. destruct r as [[]|err]; simpl; eexists _, _; (split; [reflexivity |]); split; try done.
  - exists dn. split_and!; [done | done |]. intros _. cbn [sn_handled]. rewrite Hcnt by done. simpl. lia.
  - by exists dn.
Qed.

Lemma fold_m_filter {A} (step : A -> string -> CatgaResult unit * A) (p : string -> bool) acc ids :
  (forall acc id, p id = false -> step acc id = (Ok tt, acc)) ->
  fold_m step acc ids = fold_m step acc (filter (fun id => p id = true) ids).
Proof.
  intros Hp. revert acc. induction ids as [|id ids IH]; intros acc; [done |].
  rewrite filter_cons. cbn [fold_m]. case_decide as D.
  - cbn [fold_m]. destruct (step acc id) as [[]]; auto.
  - apply not_true_iff_false in D. rewrite Hp by done. apply IH.
Qed.

(** The streams of the subscription *)
Definition matching s : list string := filter (fun id => matches_stream sub id = true) (es_ids s).

(** A subscription pass makes exact, resumable progress: [run_once] terminates
    having inspected a prefix of the pending events of the matching streams (in
    identifier and version order), the handler having seen exactly those of the
    selected types among them, each once and in order; what is pending afterwards is
    exactly the rest, streams that do not match keep their checkpoints; it succeeds,
    reporting how many events were handled, only when nothing is left, and stops only
    at an event whose handler fails, which stays first in line. *)
Theorem subscription_progress clock fuel batch s h m :
  let run := mkSubRun h m 0 0 in
  sub_load m (sub_name sub) = Ok (Some sub) ->
  es_wf s -> (0 < batch <= MAX_EVENT_STORE_PAGE_SIZE)%nat -> (length (es_ids s) < fuel)%nat ->
  (forall id, (length (es_stream s id) < fuel)%nat) -> positions_ok run_position run ->
  exists done r run', run_once clock fuel batch s h m (sub_name sub) = Some (r, run')
    /\ all_pending run_position s run (matching s)
       = done ++ all_pending run_position s run' (matching s)
    /\ applied_upto inspect h done (all_pending run_position s run' (matching s)) r (sn_handler run')
    /\ (forall id, matches_stream sub id = false ->
          inspected (sn_store run') id = inspected m id)
    /\ (is_ok r = true -> all_pending run_position s run' (matching s) = []
                          /\ sn_handled run' = sumZ weight done).
Proof.
  intros run Hsub Hs Hb Hf Hfs Hc. destruct (es_ids_sorted s) as [Hsort Hnd]. unfold run_once.
  rewrite Hsub. cbn [rbind ok_or]. fold run.
  rewrite (follow_ids_fold _ _ (es_ids s) MAX_EVENT_STORE_PAGE_SIZE fuel 0 None); try done; try lia.
  - rewrite drop_0, (fold_m_filter _ (matches_stream sub))
      by (intros acc id E; unfold run_id; by rewrite E).
    fold (matching s).
    destruct (ids_progress sn_handler run_position sn_handled inspect weight
                (run_id clock fuel batch s sub) s (matching s) run)
      as (dn & r & run' & -> & Hc' & Hp & Hau & Hcnt & Hoth); [by apply NoDup_filter | | done |].
    { intros run1 id [Hm _]%list_elem_of_filter Hok. by apply matching_id_progress. }
    exists dn, r, run'. split_and!; [done | done | done | |].
    + intros id Hm. apply Hoth. intros [Hm' _]%list_elem_of_filter. congruence.
    + intros Hok. split; [by eapply applied_upto_ok |]. rewrite Hcnt by done. simpl. lia.
  - intros a. apply es_stream_ids_page_spec. unfold MAX_EVENT_STORE_PAGE_SIZE. lia.
  - apply filter_all. done.
Qed.
End progress.

(** ** A concrete pass: the handler records the events it was given *)

#[export] Instance recording_handler : SubscriptionHandler (list Z) := {|
  handle l e := (Ok tt, l ++ [env_id (ev_envelope e)])
|}.

Definition demo_sub : PersistentSubscription := PersistentSubscription_new "audit" "a*".
Definition demo_subs : MemorySubscriptions := snd (sub_save (mkSubscriptions ∅ ∅ ∅) demo_sub).

Lemma subscription_progress_witness :
  exists run', run_once 0 4 1 es_demo2 [] demo_subs "audit" = Some (Ok tt, run')
    /\ sn_handler run' = [1; 2] /\ sn_handled run' = 2
    /\ all_pending (fun run => inspected demo_sub (sn_store run)) es_demo2 run' (matching demo_sub es_demo2) = [].
Proof.
  destruct (subscription_progress demo_sub 0 4 1 es_demo2 [] demo_subs)
    as (dn & r & run' & E & _ & _ & _ & Hok).
  - vm_compute. reflexivity.
  - exact es_demo_wf.
  - unfold MAX_EVENT_STORE_PAGE_SIZE. lia.
  - vm_compute. lia.
  - intros id. pose proof (es_demo_length id) as Hl. apply Nat.lt_succ_r in Hl.
    apply (Nat.lt_trans _ 3); [exact Hl | lia].
  - intros id. unfold inspected. cbn [sn_store].
    change (checkpoints demo_subs !! sub_name demo_sub) with (@None (gmap string SubscriptionCheckpoint)).
    vm_compute. split; congruence.
  - change (sub_name demo_sub) with "audit" in E. exists run'.
    assert (r = Ok tt) as -> by (vm_compute in E; congruence).
    split; [exact E |]. destruct (Hok eq_refl) as [Hnil _].
    assert (sn_handler run' = [1; 2] /\ sn_handled run' = 2) as [H1 H2]
      by (vm_compute in E; injection E as E; rewrite <-E; split; vm_compute; reflexivity).
    split; [exact H1 |]. split; [exact H2 | exact Hnil].
Defined.
