(* ===== verification/RaftStorage.v ===== *)
(** * Persistent raft log storage ([catga-raft/src/storage/engine.rs],
    [maybe_compact] of [catga-raft/src/storage/catga_storage.rs])

    [EngineStorage] keeps the entries of a raft group in a log engine, the rest of its
    durable state in a companion file, and entries that are readable but not yet durable in
    an overlay in memory.  The engine and the messages of the raft library are third-party
    code: they are the classes [RaftMessages] and [RaftEngine] with their documented
    behaviour as laws.  The theorems relate the storage to a plain log, its abstract
    specification, and say what a restart recovers. *)

From S2P Require Import Prelude Errors Wire.

(** ** Errors *)

(** [CatgaRaftError]; the numbers and causes that the source formats into a message are left
    out of the text. *)
Inductive CatgaRaftError :=
| RaftError (message : string)
| StorageFailed (message : string)
| ApplyFailed (message : string)
| TransportError (message : string)
| CodecError (message : string)
| CircuitBreakerOpen
| Backpressure
| NotLeader
| RaftTimeout
| NodeNotFound (id : Z).

Abbreviation CatgaRaftResult := (result CatgaRaftError).

(** The conversion to [CatgaError] *)
Definition raft_error_code (e : CatgaRaftError) : ErrorCode :=
  match e with
  | RaftError _ | StorageFailed _ | ApplyFailed _ => Internal
  | TransportError _ => TransportFailed
  | CodecError _ => SerializationFailed
  | CircuitBreakerOpen | Backpressure | NotLeader => Unavailable
  | RaftTimeout => Timeout
  | NodeNotFound _ => NotFound
  end.

(** The storage errors the raft library distinguishes *)
Inductive StorageError := Compacted | LogUnavailable | SnapshotTemporarilyUnavailable | OtherStorage.

Abbreviation RaftResult := (result StorageError).

(** ** Messages of the raft library *)

Record Entry := mkEntry { e_index : Z; e_term : Z; e_data : list Z }.

#[global] Instance Entry_eq_dec : EqDecision Entry.
Proof. solve_decision. Defined.

Record HardState := mkHardState { hs_term : Z; hs_vote : Z; hs_commit : Z }.

Definition hard_state_default : HardState := mkHardState 0 0 0.

(** [C] is the library's [ConfState]; the two messages have a byte form that reads back. *)
Class RaftMessages (C : Type) := {
  conf_default : C;
  conf_eq_dec :: EqDecision C;
  hs_to_bytes : HardState -> list Z;
  hs_from_bytes : list Z -> option HardState;
  conf_to_bytes : C -> list Z;
  conf_from_bytes : list Z -> option C;
  hs_from_to h : hs_from_bytes (hs_to_bytes h) = Some h;
  conf_from_to c : conf_from_bytes (conf_to_bytes c) = Some c
}.

Record Snapshot (C : Type) := mkSnapshot {
  sn_data : list Z; sn_index : Z; sn_term : Z; sn_conf : C
}.
Arguments mkSnapshot {C} sn_data sn_index sn_term sn_conf.
Arguments sn_data {C} s.
Arguments sn_index {C} s.
Arguments sn_term {C} s.
Arguments sn_conf {C} s.

(** ** The log engine

    [eng_log] is what the engine holds for the group, in order.  A write with [sync] replaces
    the tail from its first entry on and is durable when it returns; it is only specified
    when it leaves no hole and does not reach below the first entry.  A write that fails may
    or may not have taken effect. *)

Definition below (n : Z) (l : list Entry) : list Entry := filter (fun e => e_index e < n) l.
Definition from (n : Z) (l : list Entry) : list Entry := filter (fun e => n <= e_index e) l.

(** [l] holds the indexes [i], [i + 1], and so on. *)
Definition run (i : Z) (l : list Entry) : Prop :=
  forall (k : nat) e, l !! k = Some e -> e_index e = i + Z.of_nat k.

(** [new] may be written over [old]. *)
Definition joins (old new : list Entry) : Prop :=
  exists i, run i new /\ new <> []
    /\ match old with [] => True | e :: _ => e_index e <= i <= e_index e + lenZ old end.

Class RaftEngine (E : Type) := {
  eng_log : E -> list Entry;
  eng_first_index : E -> option Z;
  eng_get_entry : E -> Z -> RaftResult (option Entry);
  eng_fetch : E -> Z -> Z -> option Z -> RaftResult (list Entry);
  eng_write : E -> list Entry -> CatgaRaftResult unit * E;
  eng_compact_to : E -> Z -> E;
  limit_size : list Entry -> option Z -> list Entry;
  eng_first_law e : eng_first_index e = e_index <$> head (eng_log e);
  eng_get_law e i o : eng_get_entry e i = Ok o -> o = head (from i (below (i + 1) (eng_log e)));
  eng_fetch_law e lo hi limit l : eng_fetch e lo hi limit = Ok l ->
    l `prefix_of` from lo (below hi (eng_log e))
    /\ (limit = None \/ l = [] -> l = from lo (below hi (eng_log e)));
  eng_write_law e l : joins (eng_log e) l ->
    let '(r, e') := eng_write e l in
    match l with
    | [] => True
    | x :: _ =>
      let written := below (e_index x) (eng_log e) ++ l in
      match r with Ok _ => eng_log e' = written | Err _ => eng_log e' = eng_log e \/ eng_log e' = written end
    end;
  eng_compact_law e n : eng_log (eng_compact_to e n) = from n (eng_log e);
  limit_size_law l limit : limit_size l limit `prefix_of` l
    /\ (limit = None \/ limit_size l limit = [] -> limit_size l limit = l)
}.

(** ** The companion file *)

Section storage.
Context {C E : Type} `{!RaftMessages C, !RaftEngine E}.

Record PersistedCore := mkCore {
  c_hard : HardState;
  c_conf : C;
  c_snapshot_index : Z;
  c_snapshot_term : Z;
  c_last_valid : Z;
  c_durable : Z
}.

Definition core_default : PersistedCore := mkCore hard_state_default conf_default 0 0 0 0.

Definition STATE_MAGIC : list Z := [67; 82; 72; 83].
Definition STATE_VERSION : Z := 1.

Definition encode_core (core : PersistedCore) : list Z :=
  let hs := hs_to_bytes (c_hard core) in
  let cs := conf_to_bytes (c_conf core) in
  STATE_MAGIC ++ [STATE_VERSION]
  ++ le_bytes 4 (lenZ hs) ++ hs ++ le_bytes 4 (lenZ cs) ++ cs
  ++ le_bytes 8 (c_snapshot_index core) ++ le_bytes 8 (c_snapshot_term core)
  ++ le_bytes 8 (Z.min (c_durable core) (c_last_valid core)).

Definition corrupt {A} (what : string) : CatgaRaftResult A :=
  Err (StorageFailed (String.append "corrupt hard_state.bin: " what)).

(** [bytes.get(pos..pos + n)] *)
Definition get_range (bytes : list Z) (pos n : Z) : option (list Z) :=
  if pos + n <=? lenZ bytes then Some (take (Z.to_nat n) (drop (Z.to_nat pos) bytes)) else None.

Definition read_le (bytes : list Z) (pos n : Z) (what : string) : CatgaRaftResult Z :=
  match get_range bytes pos n with
  | Some raw => Ok (le_value raw)
  | None => corrupt what
  end.

Definition decode_core (bytes : list Z) : CatgaRaftResult PersistedCore :=
  if (lenZ bytes <? 5) || negb (bool_decide (take 4 bytes = STATE_MAGIC)) then corrupt "bad magic"
  else if negb (bool_decide (bytes !! 4%nat = Some STATE_VERSION)) then corrupt "unsupported version"
  else
    let pos := 5 in
    let? hs_len := read_le bytes pos 4 "truncated length" in
    let pos := pos + 4 in
    let? hs_bytes := match get_range bytes pos hs_len with
                     | Some bs => Ok bs | None => corrupt "truncated hard state" end in
    let pos := pos + hs_len in
    let? cs_len := read_le bytes pos 4 "truncated length" in
    let pos := pos + 4 in
    let? cs_bytes := match get_range bytes pos cs_len with
                     | Some bs => Ok bs | None => corrupt "truncated conf state" end in
    let pos := pos + cs_len in
    let? snapshot_index := read_le bytes pos 8 "truncated snapshot index" in
    let pos := pos + 8 in
    let? snapshot_term := read_le bytes pos 8 "truncated snapshot term" in
    let pos := pos + 8 in
    let? durable := read_le bytes pos 8 "truncated durable last index" in
    match hs_from_bytes hs_bytes with
    | None => Err (StorageFailed "decode hard state")
    | Some hard_state =>
      match conf_from_bytes cs_bytes with
      | None => Err (StorageFailed "decode conf state")
      | Some conf_state => Ok (mkCore hard_state conf_state snapshot_index snapshot_term durable durable)
      end
    end.

(** ** The storage *)

Record OverlayLog := mkOverlay { o_offset : Z; o_entries : list Entry }.

Definition overlay_empty : OverlayLog := mkOverlay 0 [].

Definition overlay_last_index (o : OverlayLog) : option Z :=
  match o_entries o with [] => None | _ => Some (o_offset o + lenZ (o_entries o) - 1) end.

Definition overlay_term (o : OverlayLog) (idx : Z) : option Z :=
  match o_entries o with
  | [] => None
  | _ => if idx <? o_offset o then None else e_term <$> o_entries o !! Z.to_nat (idx - o_offset o)
  end.

(** [s_file] is the content of the companion file. *)
Record EngineStorage := mkStorage {
  s_engine : E; s_core : PersistedCore; s_overlay : OverlayLog; s_file : option (list Z)
}.

Definition set_core (s : EngineStorage) (core : PersistedCore) : EngineStorage :=
  mkStorage (s_engine s) core (s_overlay s) (s_file s).
Definition set_engine (s : EngineStorage) (e : E) : EngineStorage :=
  mkStorage e (s_core s) (s_overlay s) (s_file s).
Definition set_overlay (s : EngineStorage) (o : OverlayLog) : EngineStorage :=
  mkStorage (s_engine s) (s_core s) o (s_file s).

Definition set_last_valid (core : PersistedCore) (last : Z) : PersistedCore :=
  mkCore (c_hard core) (c_conf core) (c_snapshot_index core) (c_snapshot_term core) last (c_durable core).
Definition raise_durable (core : PersistedCore) (last : Z) : PersistedCore :=
  mkCore (c_hard core) (c_conf core) (c_snapshot_index core) (c_snapshot_term core) (c_last_valid core)
    (Z.max (c_durable core) last).

(** [persist_core] with [write_atomic]: the file is replaced, or on an I/O failure [io] left. *)
Definition persist_core (s : EngineStorage) (io : option string) : CatgaRaftResult unit * EngineStorage :=
  match io with
  | Some e => (Err (StorageFailed e), s)
  | None => (Ok tt, mkStorage (s_engine s) (s_core s) (s_overlay s) (Some (encode_core (s_core s))))
  end.

(** [open] on the engine and file found on disk *)
Definition storage_open (engine : E) (file : option (list Z)) (bootstrap : option C) (io : option string)
    : CatgaRaftResult EngineStorage :=
  let? core := match file with Some bytes => decode_core bytes | None => Ok core_default end in
  let fresh := bool_decide (c_conf core = conf_default) in
  let core := match bootstrap with
              | Some conf_state => if fresh
                  then mkCore (c_hard core) conf_state (c_snapshot_index core) (c_snapshot_term core)
                         (c_last_valid core) (c_durable core)
                  else core
              | None => core
              end in
  let storage := mkStorage engine core overlay_empty file in
  if fresh then match persist_core storage io with (Ok _, storage) => Ok storage | (Err e, _) => Err e end
  else Ok storage.

Definition first_index_internal (s : EngineStorage) : Z :=
  default (c_snapshot_index (s_core s) + 1) (eng_first_index (s_engine s)).

Definition last_index_internal (s : EngineStorage) : Z :=
  if 0 <? c_last_valid (s_core s) then c_last_valid (s_core s) else c_snapshot_index (s_core s).

Definition compaction_progress (s : EngineStorage) : Z := first_index_internal s.

Definition term_internal (s : EngineStorage) (idx : Z) : RaftResult Z :=
  if idx =? c_snapshot_index (s_core s) then Ok (c_snapshot_term (s_core s))
  else if idx <? first_index_internal s then Err Compacted
  else if last_index_internal s <? idx then Err LogUnavailable
  else
    match overlay_term (s_overlay s) idx with
    | Some term => Ok term
    | None =>
      let? o := eng_get_entry (s_engine s) idx in
      match o with Some entry => Ok (e_term entry) | None => Err LogUnavailable end
    end.

(** [append] *)
Definition storage_append (s : EngineStorage) (entries : list Entry) (io : option string)
    : CatgaRaftResult unit * EngineStorage :=
  match entries with
  | [] => (Ok tt, s)
  | _ =>
    match eng_write (s_engine s) entries with
    | (Err e, engine) => (Err e, set_engine s engine)
    | (Ok _, engine) =>
      let last := default 0 (e_index <$> last entries) in
      persist_core (set_core (set_engine s engine) (raise_durable (set_last_valid (s_core s) last) last)) io
    end
  end.

Definition append_visible (s : EngineStorage) (entries : list Entry) : CatgaRaftResult unit * EngineStorage :=
  match entries with
  | [] => (Ok tt, s)
  | entry :: _ =>
    let first := e_index entry in
    let last := default first (e_index <$> last entries) in
    if first <=? c_snapshot_index (s_core s) then (Err (StorageFailed "append overlaps snapshot"), s)
    else
      let o := s_overlay s in
      match overlay_last_index o with
      | None => (Ok tt, set_core (set_overlay s (mkOverlay first entries)) (set_last_valid (s_core s) last))
      | Some overlay_end =>
        if overlay_end + 1 <? first then (Err (StorageFailed "append gap after overlay end"), s)
        else
          let o := if first <=? o_offset o then mkOverlay first entries
                   else mkOverlay (o_offset o) (take (Z.to_nat (first - o_offset o)) (o_entries o) ++ entries) in
          (Ok tt, set_core (set_overlay s o) (set_last_valid (s_core s) last))
      end
  end.

(** [drain_visible] in its three parts: the copy under the overlay lock, the engine write
    without it, and the removal under it. *)
Fixpoint take_while_le (up_to : Z) (l : list Entry) : list Entry :=
  match l with
  | [] => []
  | e :: l => if e_index e <=? up_to then e :: take_while_le up_to l else []
  end.

Definition drain_copy (s : EngineStorage) (up_to : Z) : list Entry := take_while_le up_to (o_entries (s_overlay s)).

Definition drain_write (s : EngineStorage) (drained : list Entry) : CatgaRaftResult unit * EngineStorage :=
  let '(r, engine) := eng_write (s_engine s) drained in (r, set_engine s engine).

(** [drained] is not empty. *)
Definition drain_finish (s : EngineStorage) (drained : list Entry) : EngineStorage :=
  let o := s_overlay s in
  let n := length drained in
  let unchanged := (n <=? length (o_entries o))%nat
                   && (o_offset o =? default 0 (e_index <$> head drained))
                   && bool_decide (take n (o_entries o) = drained) in
  let o := if unchanged
           then mkOverlay (default 0 (e_index <$> head (drop n (o_entries o)))) (drop n (o_entries o))
           else o in
  set_core (set_overlay s o) (raise_durable (s_core s) (default 0 (e_index <$> last drained))).

Definition drain_visible (s : EngineStorage) (up_to : Z) : CatgaRaftResult unit * EngineStorage :=
  match drain_copy s up_to with
  | [] => (Ok tt, s)
  | drained =>
    match drain_write s drained with
    | (Err e, s) => (Err e, s)
    | (Ok _, s) => (Ok tt, drain_finish s drained)
    end
  end.

Definition set_hard_state (s : EngineStorage) (hs : HardState) (io : option string) :=
  let c := s_core s in
  persist_core (set_core s (mkCore hs (c_conf c) (c_snapshot_index c) (c_snapshot_term c) (c_last_valid c)
    (c_durable c))) io.

Definition set_conf_state (s : EngineStorage) (conf : C) (io : option string) :=
  let c := s_core s in
  persist_core (set_core s (mkCore (c_hard c) conf (c_snapshot_index c) (c_snapshot_term c) (c_last_valid c)
    (c_durable c))) io.

Definition set_commit (s : EngineStorage) (commit : Z) (io : option string) : CatgaRaftResult unit * EngineStorage :=
  let h := c_hard (s_core s) in
  if commit <=? hs_commit h then (Ok tt, s)
  else set_hard_state s (mkHardState (hs_term h) (hs_vote h) commit) io.

Definition apply_snapshot_core (s : EngineStorage) (snapshot : Snapshot C) : CatgaRaftResult Z * EngineStorage :=
  let c := s_core s in
  let index := sn_index snapshot in
  if index =? c_snapshot_index c then (Ok index, s)
  else
    let first := default (c_snapshot_index c + 1) (eng_first_index (s_engine s)) in
    if index <? first then (Err (StorageFailed "snapshot out of date"), s)
    else
      let h := c_hard c in
      let core := mkCore (mkHardState (Z.max (hs_term h) (sn_term snapshot)) (hs_vote h) index)
                    (sn_conf snapshot) index (sn_term snapshot) index (c_durable c) in
      (Ok index, mkStorage (eng_compact_to (s_engine s) (index + 1)) core overlay_empty (s_file s)).

Definition apply_snapshot_visible (s : EngineStorage) (snapshot : Snapshot C) : CatgaRaftResult unit * EngineStorage :=
  let '(r, s) := apply_snapshot_core s snapshot in (rmap (fun _ => tt) r, s).

Definition persist_snapshot_state (s : EngineStorage) (snapshot_index : Z) (io : option string)
    : CatgaRaftResult unit * EngineStorage :=
  persist_core (set_core s (raise_durable (s_core s) snapshot_index)) io.

Definition apply_snapshot (s : EngineStorage) (snapshot : Snapshot C) (io : option string)
    : CatgaRaftResult unit * EngineStorage :=
  match apply_snapshot_core s snapshot with
  | (Err e, s) => (Err e, s)
  | (Ok index, s) => persist_snapshot_state s index io
  end.

Definition compact (s : EngineStorage) (compact_index : Z) : CatgaRaftResult unit * EngineStorage :=
  if compact_index <=? first_index_internal s then (Ok tt, s)
  else if last_index_internal s + 1 <? compact_index then (Err (StorageFailed "compact index beyond last index"), s)
  else (Ok tt, set_engine s (eng_compact_to (s_engine s) compact_index)).

(** [CatgaStorage::maybe_compact] on the persistent variant *)
Definition maybe_compact (s : EngineStorage) (applied_index margin : Z) : CatgaRaftResult unit * EngineStorage :=
  if applied_index <=? margin then (Ok tt, s) else compact s (applied_index - margin).

(** The part of the overlay a marker leaves *)
Definition overlay_cut (o : OverlayLog) (index : Z) : OverlayLog :=
  if negb (length (o_entries o) =? 0)%nat && (o_offset o <=? index)
  then let rest := drop (length (take_while_le index (o_entries o))) (o_entries o) in
       mkOverlay (default 0 (e_index <$> head rest)) rest
  else o.

(** [provided] is what the snapshot provider returns. *)
Definition provider_snapshot (s : EngineStorage) (request_index : Z)
    (provided : CatgaRaftResult (list Z * Z)) (io : option string) : RaftResult (Snapshot C) * EngineStorage :=
  match provided with
  | Err _ => (Err SnapshotTemporarilyUnavailable, s)
  | Ok (data, applied) =>
    if applied =? 0 then (Err SnapshotTemporarilyUnavailable, s)
    else
      let index := Z.max applied request_index in
      if last_index_internal s <? index then (Err SnapshotTemporarilyUnavailable, s)
      else
        match term_internal s index with
        | Err _ => (Err SnapshotTemporarilyUnavailable, s)
        | Ok term =>
          let c := s_core s in
          let core := if c_snapshot_index c <? index
                      then mkCore (c_hard c) (c_conf c) index term (c_last_valid c) (c_durable c) else c in
          let s := mkStorage (eng_compact_to (s_engine s) (index + 1)) core (overlay_cut (s_overlay s) index) (s_file s) in
          match persist_core s io with
          | (Err _, s) => (Err SnapshotTemporarilyUnavailable, s)
          | (Ok _, s) => (Ok (mkSnapshot data index term (c_conf c)), s)
          end
        end
  end.

Definition initial_state (s : EngineStorage) : HardState * C := (c_hard (s_core s), c_conf (s_core s)).

Definition NO_LIMIT : Z := int_max u64.

(** [entries]: [None] when it panics *)
Definition storage_entries (s : EngineStorage) (low high : Z) (max_size : option Z) : option (RaftResult (list Entry)) :=
  if low <? first_index_internal s then Some (Err Compacted)
  else if last_index_internal s + 1 <? high then None
  else
    let limit := match max_size with
                 | None => None
                 | Some m => if m =? NO_LIMIT then None else Some m
                 end in
    let o := s_overlay s in
    let overlay_offset := match o_entries o with [] => None | _ => Some (o_offset o) end in
    let engine_high := match overlay_offset with
                       | Some offset => if low <? offset then Z.min high offset else low
                       | None => high
                       end in
    Some (
      let? fetched := if low <? engine_high then eng_fetch (s_engine s) low engine_high limit else Ok [] in
      if (low <? engine_high) && (lenZ fetched <? engine_high - low) then Ok fetched
      else
        let entries := match overlay_offset with
          | Some offset =>
            if offset <? high then
              let lo := Z.to_nat (Z.max low offset - offset) in
              let hi := Z.to_nat (high - offset) in
              if (lo <=? hi)%nat && (hi <=? length (o_entries o))%nat
              then fetched ++ take (hi - lo) (drop lo (o_entries o)) else fetched
            else fetched
          | None => fetched
          end in
        Ok (limit_size entries max_size)).

(** [Storage::snapshot]; [provided] is [None] when no provider is installed. *)
Definition storage_snapshot (s : EngineStorage) (request_index : Z)
    (provided : option (CatgaRaftResult (list Z * Z))) (io : option string) : RaftResult (Snapshot C) * EngineStorage :=
  match provided with
  | Some provided => provider_snapshot s request_index provided io
  | None =>
    let c := s_core s in
    let index := Z.max (hs_commit (c_hard c)) (c_snapshot_index c) in
    let term := if index =? c_snapshot_index c then Ok (c_snapshot_term c)
                else let? o := eng_get_entry (s_engine s) index in
                     ok_or (e_term <$> o) LogUnavailable in
    (let? term := term in Ok (mkSnapshot [] (Z.max index request_index) term (c_conf c)), s)
  end.
End storage.

(** ** Contiguous runs of entries *)

Lemma run_app i a b : run i (a ++ b) <-> run i a /\ run (i + lenZ a) b.
Proof.
  unfold run, lenZ. split.
  - intros H. split; intros k e Hk.
    + apply H. by apply lookup_app_l_Some.
    + rewrite (H (length a + k)%nat e); [lia |]. rewrite lookup_app_r by lia. by replace (length a + k - length a)%nat with k by lia.
  - intros [Ha Hb] k e Hk. apply lookup_app_Some in Hk as [Hk|[? Hk]]; [auto |]. rewrite (Hb _ _ Hk). lia.
Qed.

Lemma run_cons i x l : run i (x :: l) <-> e_index x = i /\ run (i + 1) l.
Proof.
  change (x :: l) with ([x] ++ l). rewrite run_app. unfold lenZ. simpl. split; intros [H ?]; (split; [| done]).
  - rewrite (H 0%nat x eq_refl). lia.
  - intros [|k] e; simpl; [intros [= <-]; lia | done].
Qed.

Lemma run_nil i : run i [].
Proof. intros k e. by rewrite lookup_nil. Qed.

Lemma run_bounds i l e : run i l -> e ∈ l -> i <= e_index e < i + lenZ l.
Proof.
  intros Hr [k Hk]%list_elem_of_lookup. rewrite (Hr k e Hk). apply lookup_lt_Some in Hk. unfold lenZ. lia.
Qed.

Lemma run_last i l : run i l -> l <> [] -> exists e, last l = Some e /\ e_index e = i + lenZ l - 1.
Proof.
  intros Hr Hn. destruct l as [|x l _] using rev_ind; [done |]. exists x. rewrite last_snoc. split; [done |].
  apply run_app in Hr as [_ Hx]. apply run_cons in Hx as [-> _]. unfold lenZ. rewrite length_app. simpl. lia.
Qed.

Lemma below_all n i l : run i l -> i + lenZ l <= n -> below n l = l.
Proof. intros Hr Hn. apply filter_all. intros e He. pose proof (run_bounds _ _ _ Hr He). lia. Qed.

Lemma below_none n i l : run i l -> n <= i -> below n l = [].
Proof. intros Hr Hn. apply filter_none. intros e He. pose proof (run_bounds _ _ _ Hr He). lia. Qed.

Lemma from_all n i l : run i l -> n <= i -> from n l = l.
Proof. intros Hr Hn. apply filter_all. intros e He. pose proof (run_bounds _ _ _ Hr He). lia. Qed.

Lemma from_none n i l : run i l -> i + lenZ l <= n -> from n l = [].
Proof. intros Hr Hn. apply filter_none. intros e He. pose proof (run_bounds _ _ _ Hr He). lia. Qed.

Lemma below_app n a b : below n (a ++ b) = below n a ++ below n b.
Proof. apply filter_app. Qed.

Lemma from_app n a b : from n (a ++ b) = from n a ++ from n b.
Proof. apply filter_app. Qed.

(** A run cut in two *)
Lemma run_split n i l : run i l -> i <= n <= i + lenZ l ->
  exists a b, l = a ++ b /\ lenZ a = n - i /\ below n l = a /\ from n l = b /\ run i a /\ run n b.
Proof.
  intros Hr Hn. exists (take (Z.to_nat (n - i)) l), (drop (Z.to_nat (n - i)) l).
  pose proof (take_drop (Z.to_nat (n - i)) l) as Hl. rewrite <- Hl in Hr. apply run_app in Hr as [Ha Hb].
  assert (lenZ (take (Z.to_nat (n - i)) l) = n - i) as Hlen by (unfold lenZ in *; rewrite length_take; lia).
  rewrite Hlen in Hb. replace (i + (n - i)) with n in Hb by lia.
  split_and!; try done.
  - rewrite <- Hl at 1. rewrite below_app, (below_all n i), (below_none n n), app_nil_r by (done || lia). done.
  - rewrite <- Hl at 1. rewrite from_app, (from_none n i), (from_all n n) by (done || lia). done.
Qed.

Lemma below_below n m l : below n (below m l) = below (Z.min n m) l.
Proof. unfold below. rewrite list_filter_filter. apply list_filter_iff. intros e. lia. Qed.

Lemma from_from n m l : from n (from m l) = from (Z.max n m) l.
Proof. unfold from. rewrite list_filter_filter. apply list_filter_iff. intros e. lia. Qed.

Lemma below_from n m l : below n (from m l) = from m (below n l).
Proof. unfold from, below. rewrite !list_filter_filter. apply list_filter_iff. intros e. tauto. Qed.

Lemma from_length n i l : run i l -> lenZ (from n l) = Z.max 0 (Z.min (lenZ l) (i + lenZ l - n)).
Proof.
  intros Hr. pose proof (lenZ_nonneg l). destruct (decide (i <= n <= i + lenZ l)) as [Hin|Hout].
  - destruct (run_split n i l Hr Hin) as (a & b & -> & Ha & _ & -> & _). rewrite lenZ_app in *. lia.
  - destruct (decide (n < i)); [rewrite (from_all n i) by (done || lia); lia |].
    rewrite (from_none n i) by (done || lia). change (lenZ []) with 0. lia.
Qed.

Lemma take_below i n l : run i l -> i <= n -> take (Z.to_nat (n - i)) l = below n l.
Proof.
  intros Hr Hn. destruct (decide (n <= i + lenZ l)) as [Hle|Hgt].
  - destruct (run_split n i l Hr ltac:(lia)) as (a & b & -> & Hlen & -> & _). apply take_app_length'. unfold lenZ in *. lia.
  - rewrite (below_all n i) by (done || lia). apply take_ge. unfold lenZ in *. lia.
Qed.

Lemma take_while_below i n l : run i l -> take_while_le n l = below (n + 1) l.
Proof.
  revert i. induction l as [|x l IH]; intros i Hr; [done |]. apply run_cons in Hr as [Hx Hr]. simpl.
  destruct (Z.leb_spec (e_index x) n).
  - rewrite (IH _ Hr). unfold below at 2. rewrite filter_cons_True by lia. done.
  - symmetry. apply (below_none _ i); [by apply run_cons | lia].
Qed.

Lemma run_head i l x : run i l -> head l = Some x -> e_index x = i.
Proof. intros Hr. destruct l; [done |]. intros [= ->]. by apply run_cons in Hr as [? _]. Qed.

(** The entry at an index *)
Lemma run_at i l n : run i l -> i <= n < i + lenZ l -> head (from n (below (n + 1) l)) = l !! Z.to_nat (n - i).
Proof.
  intros Hr Hn. destruct (run_split n i l Hr ltac:(lia)) as (a & b & -> & Hlen & _ & Hb & Ha & Hrb).
  rewrite lookup_app_r by (unfold lenZ in *; lia). replace (Z.to_nat (n - i) - length a)%nat with 0%nat by (unfold lenZ in *; lia).
  rewrite below_app, from_app, (from_none n i (below _ a)) by
    ((by rewrite (below_all _ i) by (done || lia)) || (rewrite (below_all _ i) by (done || lia); lia)).
  destruct b as [|x b]; [rewrite app_nil_r in Hn; lia |]. apply run_cons in Hrb as [Hx _].
  unfold below, from. rewrite filter_cons_True, filter_cons_True by lia. done.
Qed.

(** ** The abstract log

    What a raft group expects of its storage: the position of the last snapshot, and the
    entries after the compaction boundary. *)

Record RaftLog := mkLog { l_snap : Z; l_snap_term : Z; l_first : Z; l_entries : list Entry }.

Definition l_last (l : RaftLog) : Z := l_first l + lenZ (l_entries l) - 1.

Definition log_term (l : RaftLog) (idx : Z) : RaftResult Z :=
  if idx =? l_snap l then Ok (l_snap_term l)
  else if idx <? l_first l then Err Compacted
  else match l_entries l !! Z.to_nat (idx - l_first l) with
       | Some e => Ok (e_term e)
       | None => Err LogUnavailable
       end.

Definition log_range (l : RaftLog) (low high : Z) : list Entry := from low (below high (l_entries l)).

(** The operations on it; [LOther] is everything that does not concern the log. *)
Inductive LogOp := LAppend (es : list Entry) | LSnapshot (index term : Z) | LCompact (n : Z) | LMark (index : Z) | LOther.

Definition log_apply (l : RaftLog) (op : LogOp) : RaftLog :=
  match op with
  | LAppend es =>
    match es with
    | [] => l
    | e :: _ => mkLog (l_snap l) (l_snap_term l) (l_first l) (below (e_index e) (l_entries l) ++ es)
    end
  | LSnapshot index term =>
    if (index =? l_snap l) || (index <? l_first l) then l else mkLog index term (index + 1) []
  | LCompact n => mkLog (l_snap l) (l_snap_term l) (Z.max n (l_first l)) (from n (l_entries l))
  | LMark index =>
    match log_term l index with
    | Ok term => mkLog index term (Z.max (index + 1) (l_first l)) (from (index + 1) (l_entries l))
    | Err _ => l
    end
  | LOther => l
  end.

Section refinement.
Context {C E : Type} `{!RaftMessages C, !RaftEngine E}.

Abbreviation Store := (@EngineStorage C E).

(** The entries the storage serves: the overlay, and the engine in front of it *)
Definition live (s : Store) : list Entry :=
  match o_entries (s_overlay s) with
  | [] => below (last_index_internal s + 1) (eng_log (s_engine s))
  | o => below (o_offset (s_overlay s)) (eng_log (s_engine s)) ++ o
  end.

Definition abs (s : Store) : RaftLog :=
  mkLog (c_snapshot_index (s_core s)) (c_snapshot_term (s_core s)) (first_index_internal s) (live s).

(** A drain of the persist worker that is under way: the copied entries, and whether they are
    written to the engine *)
Record Machine := mkMachine { m_store : Store; m_drain : option (list Entry * bool) }.

(** How far the overlay reaches down; without one, the end of the log *)
Definition overlay_start (s : Store) : Z :=
  match o_entries (s_overlay s) with [] => last_index_internal s + 1 | _ => o_offset (s_overlay s) end.

Record store_inv (s : Store) : Prop := {
  si_snap : 0 <= c_snapshot_index (s_core s) < first_index_internal s;
  si_valid : 0 <= c_last_valid (s_core s);
  si_engine : run (first_index_internal s) (eng_log (s_engine s));
  si_overlay : run (o_offset (s_overlay s)) (o_entries (s_overlay s));
  si_start : first_index_internal s <= overlay_start s
             <= first_index_internal s + lenZ (eng_log (s_engine s));
  si_end : overlay_start s + lenZ (o_entries (s_overlay s)) = last_index_internal s + 1
}.

Record machine_inv (m : Machine) : Prop := {
  mi_store : store_inv (m_store m);
  mi_drain D written : m_drain m = Some (D, written) ->
    D <> [] /\ exists d, run d D
    /\ overlay_start (m_store m) <= d
    /\ d <= first_index_internal (m_store m) + lenZ (eng_log (s_engine (m_store m)))
    /\ (written = true -> from d (eng_log (s_engine (m_store m))) = D)
}.

Lemma engine_first (s : Store) : first_index_internal s
  = match eng_log (s_engine s) with [] => c_snapshot_index (s_core s) + 1 | e :: _ => e_index e end.
Proof. unfold first_index_internal. rewrite eng_first_law. by destruct (eng_log (s_engine s)). Qed.

Lemma live_start (s : Store) : store_inv s -> live s = below (overlay_start s) (eng_log (s_engine s)) ++ o_entries (s_overlay s).
Proof.
  intros _. unfold live, overlay_start. destruct (o_entries (s_overlay s)); [by rewrite app_nil_r | done].
Qed.

(** The served entries are a run from the first to the last index. *)
Lemma live_run (s : Store) : store_inv s -> run (first_index_internal s) (live s)
  /\ first_index_internal s + lenZ (live s) = last_index_internal s + 1.
Proof.
  intros Hs. pose proof Hs as [H1 H2 H3 H4 H5 H6]. rewrite (live_start s Hs).
  destruct (run_split (overlay_start s) _ _ H3 H5) as (a & b & Hl & Hlen & -> & _ & Ha & _). split.
  - apply run_app. split; [done |]. rewrite Hlen. replace (first_index_internal s + _) with (overlay_start s) by lia.
    unfold overlay_start. destruct (o_entries (s_overlay s)) eqn:Eo; [apply run_nil | done].
  - rewrite lenZ_app, Hlen. lia.
Qed.

Lemma abs_last (s : Store) : store_inv s -> l_last (abs s) = last_index_internal s.
Proof. intros Hs. destruct (live_run s Hs). unfold l_last. simpl. lia. Qed.

(** *** Reads *)

Lemma term_refines (s : Store) idx :
  store_inv s -> term_internal s idx = log_term (abs s) idx
  \/ exists e, eng_get_entry (s_engine s) idx = Err e /\ term_internal s idx = Err e.
Proof.
  intros Hs. pose proof Hs as [H1 H2 H3 H4 H5 H6]. destruct (live_run s Hs) as [Hrun Hlen].
  unfold term_internal, log_term. simpl. destruct (idx =? _); [by left |].
  destruct (Z.ltb_spec idx (first_index_internal s)); [by left |].
  destruct (Z.ltb_spec (last_index_internal s) idx).
  { left. rewrite lookup_ge_None_2; [done |]. unfold lenZ in Hlen. lia. }
  rewrite (live_start s Hs).
  destruct (run_split (overlay_start s) _ _ H3 H5) as (a & b & Hl & Ha & -> & Hb & Hra & Hrb).
  unfold overlay_term. destruct (decide (idx < overlay_start s)) as [Hlt|Hge].
  - assert (match o_entries (s_overlay s) with
            | [] => None
            | _ => if idx <? o_offset (s_overlay s) then None
                   else e_term <$> o_entries (s_overlay s) !! Z.to_nat (idx - o_offset (s_overlay s))
            end = None) as ->.
    { unfold overlay_start in Hlt. destruct (o_entries (s_overlay s)); [done |]. by rewrite (proj2 (Z.ltb_lt _ _)). }
    destruct (eng_get_entry (s_engine s) idx) as [o|e] eqn:Eg; [left; simpl | right; by exists e].
    apply eng_get_law in Eg. rewrite (run_at _ _ idx H3) in Eg by (rewrite Hl, lenZ_app; pose proof (lenZ_nonneg b); lia).
    subst o. rewrite Hl, !lookup_app_l by (unfold lenZ in *; lia). done.
  - left. rewrite lookup_app_r by (unfold lenZ in *; lia). unfold overlay_start in *.
    destruct (o_entries (s_overlay s)) as [|x o] eqn:Eo; [lia |]. rewrite (proj2 (Z.ltb_ge _ _)) by lia.
    replace (Z.to_nat (idx - first_index_internal s) - length a)%nat with (Z.to_nat (idx - o_offset (s_overlay s)))
      by (unfold lenZ in *; lia).
    destruct ((x :: o) !! Z.to_nat (idx - o_offset (s_overlay s))) as [e|] eqn:El; [done |].
    apply lookup_ge_None in El. unfold lenZ in *. lia.
Qed.
End refinement.

Lemma slice_range i l lo hi : run i l -> i <= lo <= hi -> hi <= i + lenZ l ->
  take (Z.to_nat (hi - i) - Z.to_nat (lo - i)) (drop (Z.to_nat (lo - i)) l) = from lo (below hi l).
Proof.
  intros Hr Hlo Hhi. destruct (run_split lo i l Hr ltac:(lia)) as (a & b & -> & Ha & _ & _ & Hra & Hrb).
  rewrite drop_app_length' by (unfold lenZ in *; lia). rewrite lenZ_app in Hhi.
  replace (Z.to_nat (hi - i) - Z.to_nat (lo - i))%nat with (Z.to_nat (hi - lo)) by lia.
  rewrite (take_below lo hi b Hrb) by lia. rewrite below_app, from_app, (below_all hi i a Hra) by lia.
  rewrite (from_none lo i a Hra) by lia. symmetry. simpl. rewrite <- below_from. f_equal. by apply (from_all lo lo).
Qed.

Section reads.
Context {C E : Type} `{!RaftMessages C, !RaftEngine E}.

Abbreviation Store := (@EngineStorage C E).

(** The range in the engine and the overlay *)
Lemma range_split (s : Store) low high : store_inv s ->
  log_range (abs s) low high
  = from low (below (Z.min high (overlay_start s)) (eng_log (s_engine s))) ++ from low (below high (o_entries (s_overlay s))).
Proof.
  intros Hs. unfold log_range. simpl. rewrite (live_start s Hs), below_app, from_app, below_below. done.
Qed.

(** What [entries] collects: all of the range, unless the engine stops at the size limit *)
Definition collects (s : Store) (low high : Z) (limit : option Z) (l : list Entry) : Prop :=
  l `prefix_of` log_range (abs s) low high /\ (limit = None \/ l = [] -> l = log_range (abs s) low high).

(** Where the overlay starts, as [storage_entries] sees it *)
Definition overlay_offset (s : Store) : option Z :=
  match o_entries (s_overlay s) with [] => None | _ => Some (o_offset (s_overlay s)) end.

Definition engine_high (s : Store) (low high : Z) : Z :=
  match overlay_offset s with Some offset => if low <? offset then Z.min high offset else low | None => high end.

Lemma engine_high_spec (s : Store) low high : store_inv s -> high <= last_index_internal s + 1 ->
  (low < overlay_start s -> engine_high s low high = Z.min high (overlay_start s))
  /\ (overlay_start s <= low -> engine_high s low high <= low).
Proof.
  intros Hs Hh. unfold engine_high, overlay_offset, overlay_start. destruct (o_entries (s_overlay s)); [lia |].
  destruct (Z.ltb_spec low (o_offset (s_overlay s))); lia.
Qed.

(** The engine's part with the overlay's *)
Lemma overlay_part (s : Store) low high max_size fetched :
  store_inv s -> first_index_internal s <= low <= high -> high <= last_index_internal s + 1 ->
  fetched = from low (below (Z.min high (overlay_start s)) (eng_log (s_engine s))) ->
  collects s low high max_size (limit_size
    match overlay_offset s with
    | Some offset =>
      if offset <? high then
        if (Z.to_nat (Z.max low offset - offset) <=? Z.to_nat (high - offset))%nat
           && (Z.to_nat (high - offset) <=? length (o_entries (s_overlay s)))%nat
        then fetched ++ take (Z.to_nat (high - offset) - Z.to_nat (Z.max low offset - offset))
               (drop (Z.to_nat (Z.max low offset - offset)) (o_entries (s_overlay s))) else fetched
      else fetched
    | None => fetched
    end max_size).
Proof.
  intros Hs Hlow Hhigh Hf. pose proof Hs as [H1 H2 H3 H4 H5 H6]. unfold collects. rewrite (range_split s low high Hs), <- Hf.
  match goal with |- context [limit_size ?x max_size] =>
    assert (x = fetched ++ from low (below high (o_entries (s_overlay s)))) as -> end; [| apply limit_size_law].
  unfold overlay_offset. destruct (o_entries (s_overlay s)) as [|x o] eqn:Eo; [by rewrite app_nil_r |].
  assert (overlay_start s = o_offset (s_overlay s)) as Est by (unfold overlay_start; by rewrite Eo).
  set (ov := x :: o) in *. destruct (Z.ltb_spec (o_offset (s_overlay s)) high) as [Hoff|Hoff].
  - rewrite (proj2 (Nat.leb_le _ _)), (proj2 (Nat.leb_le _ _)) by (unfold lenZ in *; lia). simpl. f_equal.
    rewrite (slice_range (o_offset (s_overlay s)) ov (Z.max low (o_offset (s_overlay s))) high) by (done || lia).
    destruct (decide (low <= o_offset (s_overlay s))).
    + rewrite Z.max_r by lia. rewrite <- !below_from. f_equal. rewrite !(from_all _ (o_offset (s_overlay s))) by (done || lia). done.
    + by rewrite Z.max_l by lia.
  - rewrite (below_none high (o_offset (s_overlay s)) ov) by (done || lia). by rewrite app_nil_r.
Qed.

Lemma from_below_none lo hi l : hi <= lo -> from lo (below hi l) = [].
Proof. intros H. apply filter_none. intros e [? ?]%list_elem_of_filter. lia. Qed.

Lemma entries_refines (s : Store) low high max_size :
  store_inv s -> low <= high ->
  match storage_entries s low high max_size with
  | None => l_last (abs s) + 1 < high
  | Some (Err e) => (e = Compacted /\ low < l_first (abs s)) \/ exists a b limit, eng_fetch (s_engine s) a b limit = Err e
  | Some (Ok l) => l_first (abs s) <= low /\ high <= l_last (abs s) + 1 /\ collects s low high max_size l
  end.
Proof.
  intros Hs Hlh. rewrite (abs_last s Hs). pose proof Hs as [H1 H2 H3 H4 H5 H6]. unfold storage_entries.
  destruct (Z.ltb_spec low (first_index_internal s)); [by left |].
  destruct (Z.ltb_spec (last_index_internal s + 1) high); [done |]. fold (overlay_offset s). fold (engine_high s low high).
  set (limit := match max_size with None => None | Some m => if m =? NO_LIMIT then None else Some m end).
  destruct (engine_high_spec s low high Hs ltac:(lia)) as [Heh Heh2].
  pose proof (fun fetched => overlay_part s low high max_size fetched Hs ltac:(lia) ltac:(lia)) as Hall.
  destruct (Z.ltb_spec low (engine_high s low high)) as [Hlow|Hlow]; simpl.
  - assert (low < overlay_start s) as Hst by lia. specialize (Heh Hst). rewrite Heh in *.
    destruct (eng_fetch (s_engine s) low _ limit) as [fetched|e] eqn:Ef; simpl; [| right; by eauto].
    apply eng_fetch_law in Ef as [Hpre Hfull].
    assert (lenZ (from low (below (Z.min high (overlay_start s)) (eng_log (s_engine s)))) = Z.min high (overlay_start s) - low) as Hlen.
    { rewrite <- (slice_range _ _ _ _ H3) by lia. unfold lenZ in *. rewrite length_take, length_drop. lia. }
    destruct (Z.ltb_spec (lenZ fetched) (Z.min high (overlay_start s) - low)) as [Hshort|Hlong]; (split_and!; [done | lia |]).
    + split.
      * rewrite (range_split s low high Hs). etrans; [exact Hpre | by apply prefix_app_r].
      * intros [-> | ->]; [rewrite Hfull in Hshort by (left; done) | rewrite Hfull in Hshort by (right; done)]; lia.
    + apply Hall. apply prefix_length_eq; [done |]. unfold lenZ in *. lia.
  - split_and!; [done | lia |]. apply (Hall []). symmetry. apply from_below_none. lia.
Qed.
End reads.

Section simulation.
Context {C E : Type} `{!RaftMessages C, !RaftEngine E}.

Abbreviation Store := (@EngineStorage C E).

(** Programs that leave the log alone change only these parts. *)
Lemma same_log (s s' : Store) :
  s_engine s' = s_engine s -> s_overlay s' = s_overlay s ->
  c_snapshot_index (s_core s') = c_snapshot_index (s_core s) -> c_snapshot_term (s_core s') = c_snapshot_term (s_core s) ->
  c_last_valid (s_core s') = c_last_valid (s_core s) ->
  abs s' = abs s /\ (store_inv s -> store_inv s') /\ overlay_start s' = overlay_start s
  /\ first_index_internal s' = first_index_internal s.
Proof.
  intros He Ho H1 H2 H3.
  assert (first_index_internal s' = first_index_internal s) as Hf by (unfold first_index_internal; by rewrite He, H1).
  assert (last_index_internal s' = last_index_internal s) as Hl by (unfold last_index_internal; by rewrite H1, H3).
  assert (overlay_start s' = overlay_start s) as Hs by (unfold overlay_start; by rewrite Ho, Hl).
  split_and!; [unfold abs, live; by rewrite H1, H2, Hf, Ho, He, Hl | | done | done].
  intros [I1 I2 I3 I4 I5 I6]. split; by rewrite ?Hf, ?Hl, ?Hs, ?H1, ?H3, ?He, ?Ho.
Qed.

(** Entries the raft library may hand over: a run that starts inside the log or right after it *)
Definition appendable (s : Store) (es : list Entry) : Prop :=
  exists i, run i es /\ es <> [] /\ first_index_internal s <= i <= last_index_internal s + 1.

Lemma append_result (s : Store) es o :
  store_inv s -> es <> [] -> run (o_offset o) (o_entries o) -> o_entries o <> [] ->
  (exists i, run i es /\ first_index_internal s <= i /\ (exists pre, o_entries o = pre ++ es)) ->
  first_index_internal s <= o_offset o <= overlay_start s ->
  let last := default 0 (e_index <$> last es) in
  let s' := set_core (set_overlay s o) (set_last_valid (s_core s) last) in
  store_inv s' /\ overlay_start s' = o_offset o /\ first_index_internal s' = first_index_internal s
  /\ live s' = below (o_offset o) (eng_log (s_engine s)) ++ o_entries o.
Proof.
  intros [I1 I2 I3 I4 I5 I6] Hes Hro Hno (i & Hri & Hi & pre & Hpre) Ho last s'.
  assert (last = o_offset o + lenZ (o_entries o) - 1) as Hlast.
  { unfold last. destruct (run_last _ _ Hro Hno) as (e & He & Hi'). rewrite Hpre in He.
    destruct es as [|x es _] using rev_ind; [done |]. rewrite app_assoc, last_snoc in He. rewrite last_snoc.
    simplify_eq. done. }
  pose proof (lenZ_pos _ Hno). assert (0 < last) by lia.
  assert (last_index_internal s' = last) as El by (unfold last_index_internal; simpl; by rewrite (proj2 (Z.ltb_lt _ _))).
  assert (overlay_start s' = o_offset o) as Es by (unfold overlay_start; simpl; by destruct (o_entries o)).
  split_and!; [| done | done | unfold live; simpl; by destruct (o_entries o)].
  split; [exact I1 | simpl; lia | exact I3 | exact Hro | rewrite Es | rewrite Es, El; simpl; lia].
  change (first_index_internal s') with (first_index_internal s). simpl. lia.
Qed.

Lemma append_visible_refines (s : Store) es :
  store_inv s -> appendable s es ->
  exists s', append_visible s es = (Ok tt, s') /\ store_inv s' /\ abs s' = log_apply (abs s) (LAppend es)
    /\ overlay_start s' <= overlay_start s /\ s_engine s' = s_engine s
    /\ first_index_internal s' = first_index_internal s.
Proof.
  intros Hs (i & Hr & Hn & Hi). pose proof Hs as [I1 I2 I3 I4 I5 I6].
  destruct es as [|x es]; [done |]. pose proof Hr as [Hx _]%run_cons. unfold append_visible. rewrite Hx.
  rewrite (proj2 (Z.leb_gt _ _)) by lia. unfold abs at 2. simpl. rewrite (live_start s Hs), below_app, below_below, Hx.
  set (ee := x :: es) in *. unfold overlay_last_index.
  assert (default i (e_index <$> last ee) = default 0 (e_index <$> last ee)) as ->
    by (destruct (run_last _ _ Hr Hn) as (e & -> & _); done).
  pose proof (append_result s ee (mkOverlay i ee) Hs Hn Hr Hn ltac:(exists i; split_and!; [done | lia | by exists []])) as Hnew.
  destruct (o_entries (s_overlay s)) as [|y o] eqn:Eo.
  - assert (overlay_start s = last_index_internal s + 1) as Est by (unfold overlay_start; by rewrite Eo).
    destruct Hnew as (Hs' & Hst & Hf & Hlive); [simpl; lia |]. eexists. split_and!; try done; [| rewrite Hst; simpl; lia].
    unfold abs. rewrite Hlive, Hf. simpl. rewrite Z.min_l by lia. by rewrite app_nil_r.
  - assert (overlay_start s = o_offset (s_overlay s)) as Est by (unfold overlay_start; by rewrite Eo).
    rewrite (proj2 (Z.ltb_ge _ _)) by lia. set (ov := y :: o) in *.
    destruct (Z.leb_spec i (o_offset (s_overlay s))) as [Hle|Hgt].
    + destruct Hnew as (Hs' & Hst & Hf & Hlive); [simpl; lia |]. eexists. split_and!; try done; [| rewrite Hst; simpl; lia].
      unfold abs. rewrite Hlive, Hf. simpl. rewrite Z.min_l by lia. rewrite (below_none i (o_offset (s_overlay s)) ov) by (done || lia).
      by rewrite app_nil_r.
    + rewrite (take_below _ i ov I4) by lia.
      destruct (run_split i _ ov I4 ltac:(lia)) as (a & b & Hab & Hla & Hb & _ & Hra & _). rewrite Hb.
      destruct (append_result s ee (mkOverlay (o_offset (s_overlay s)) (a ++ ee)) Hs Hn) as (Hs' & Hst & Hf & Hlive).
      * simpl. apply run_app. split; [done |]. rewrite Hla. by replace (o_offset (s_overlay s) + _) with i by lia.
      * simpl. by destruct a.
      * exists i. split_and!; [done | lia | by exists a].
      * simpl. lia.
      * eexists. split_and!; try done; [| rewrite Hst; simpl; lia].
        unfold abs. rewrite Hlive, Hf. simpl. rewrite Z.min_r by lia. rewrite Est, app_assoc. done.
Qed.

(** *** The three parts of a drain *)

Lemma drain_write_refines (s : Store) D d r s' :
  store_inv s -> D <> [] -> run d D -> overlay_start s <= d ->
  d <= first_index_internal s + lenZ (eng_log (s_engine s)) -> drain_write s D = (r, s') ->
  store_inv s' /\ abs s' = abs s /\ overlay_start s' = overlay_start s /\ first_index_internal s' = first_index_internal s
  /\ s_overlay s' = s_overlay s /\ s_core s' = s_core s
  /\ d <= first_index_internal s' + lenZ (eng_log (s_engine s'))
  /\ (is_ok r = true -> from d (eng_log (s_engine s')) = D /\ below d (eng_log (s_engine s')) = below d (eng_log (s_engine s))).
Proof.
  intros Hs Hn Hr Hst Hd. pose proof Hs as [I1 I2 I3 I4 I5 I6]. unfold drain_write.
  destruct (run_split d _ _ I3 ltac:(lia)) as (a & b & Hab & Hla & Hba & _ & Hra & Hrb).
  assert (joins (eng_log (s_engine s)) D) as Hj.
  { exists d. split_and!; [done | done |]. rewrite engine_first in *. destruct (eng_log (s_engine s)); [done | lia]. }
  pose proof (eng_write_law (s_engine s) D Hj) as Hw. destruct (eng_write (s_engine s) D) as [x e'].
  intros [= <- <-]. destruct D as [|y D]; [done |]. pose proof Hr as [Hy _]%run_cons. rewrite Hy, Hba in Hw. set (DD := y :: D) in *.
  assert (eng_log e' = eng_log (s_engine s) \/ eng_log e' = a ++ DD) as Hcase by (destruct x; tauto).
  assert (below d (eng_log e') = a /\ run (first_index_internal s) (eng_log e') /\ d <= first_index_internal s + lenZ (eng_log e')
          /\ (eng_log e' = [] -> eng_log (s_engine s) = [])) as (Hbe & Hre & Hle & Hemp).
  { destruct Hcase as [-> | ->]; [done |]. rewrite below_app, (below_all d _ a Hra), (below_none d d DD Hr), app_nil_r by lia.
    rewrite lenZ_app, run_app, Hla. pose proof (lenZ_nonneg DD). split_and!; [done | done | | lia | by destruct a].
    by replace (first_index_internal s + (d - first_index_internal s)) with d by lia. }
  assert (first_index_internal (set_engine s e') = first_index_internal s) as Hf.
  { rewrite (engine_first (set_engine s e')). simpl. destruct (eng_log e') as [|z l] eqn:Ez.
    - rewrite engine_first, Hemp; done.
    - by apply run_cons in Hre as [? _]. }
  assert (below (overlay_start s) (eng_log e') = below (overlay_start s) (eng_log (s_engine s))) as Hbo.
  { replace (overlay_start s) with (Z.min (overlay_start s) d) by lia. by rewrite <- !below_below, Hbe, Hba. }
  assert (live (set_engine s e') = live s) as Hlive.
  { unfold live, overlay_start in *. simpl. change (last_index_internal (set_engine s e')) with (last_index_internal s).
    destruct (o_entries (s_overlay s)); by rewrite Hbo. }
  split_and!; try done.
  - split; [by rewrite Hf | exact I2 | by rewrite Hf | exact I4 | | exact I6]. rewrite Hf.
    change (overlay_start (set_engine s e')) with (overlay_start s). simpl. lia.
  - unfold abs. by rewrite Hlive, Hf.
  - by rewrite Hf.
  - intros Hok. destruct x; [| done]. simpl. rewrite Hw. split; [| by rewrite <- Hw, Hbe].
    rewrite from_app, (from_none d _ a Hra), (from_all d d DD Hr) by lia. done.
Qed.

Lemma drain_copy_run (s : Store) up_to :
  store_inv s -> drain_copy s up_to <> [] ->
  run (overlay_start s) (drain_copy s up_to) /\ take (length (drain_copy s up_to)) (o_entries (s_overlay s)) = drain_copy s up_to
  /\ overlay_start s = o_offset (s_overlay s).
Proof.
  intros [_ _ _ I4 _ _] Hn. unfold drain_copy in *. rewrite (take_while_below _ _ _ I4) in *.
  destruct (o_entries (s_overlay s)) as [|x o] eqn:Eo; [done |].
  assert (overlay_start s = o_offset (s_overlay s)) as -> by (unfold overlay_start; by rewrite Eo).
  set (ov := x :: o) in *. destruct (decide (o_offset (s_overlay s) <= up_to + 1)) as [Hle|Hgt].
  - rewrite <- (take_below _ _ _ I4 Hle). split_and!; [| | done].
    + rewrite <- (take_drop (Z.to_nat (up_to + 1 - o_offset (s_overlay s))) ov) in I4. by apply run_app in I4 as [? _].
    + set (n := Z.to_nat _). rewrite <- (take_drop n ov) at 2. apply take_app_length.
  - rewrite (below_none _ _ _ I4) in Hn by lia. done.
Qed.

(** The overlay after its first entries moved to the engine *)
Lemma drain_finish_refines (s : Store) D d :
  store_inv s -> D <> [] -> run d D -> from d (eng_log (s_engine s)) = D ->
  d <= first_index_internal s + lenZ (eng_log (s_engine s)) ->
  first_index_internal s <= d ->
  store_inv (drain_finish s D) /\ abs (drain_finish s D) = abs s.
Proof.
  intros Hs Hn Hr Hw Hd Hfd. pose proof Hs as [I1 I2 I3 I4 I5 I6]. unfold drain_finish.
  destruct (_ && _) eqn:Eu.
  2: { destruct (same_log s (set_core (set_overlay s (s_overlay s)) (raise_durable (s_core s)
         (default 0 (e_index <$> last D))))) as (? & ? & _); done. }
  apply andb_true_iff in Eu as [Eu Et]. apply andb_true_iff in Eu as [_ Eo]. bool_prop.
  assert (default 0 (e_index <$> head D) = d) as Hhd by (destruct D; [done |]; by apply run_cons in Hr as [? _]).
  rewrite Hhd in Eo. set (O2 := drop (length D) (o_entries (s_overlay s))) in *.
  assert (o_entries (s_overlay s) = D ++ O2) as HO by (rewrite <- Et at 1; symmetry; apply take_drop).
  destruct (run_split d _ _ I3 ltac:(lia)) as (a & b & Hab & Hla & Hba & Hbb & Hra & Hrb). rewrite Hw in Hbb. subst b.
  assert (overlay_start s = d) as Est by (unfold overlay_start; rewrite HO; by destruct D).
  rewrite HO, Eo in I4. apply run_app in I4 as [_ HrO2]. rewrite HO, lenZ_app in I6. rewrite Hab, lenZ_app in I5.
  pose proof (lenZ_nonneg O2). pose proof (lenZ_nonneg D).
  set (s' := set_core _ _).
  assert (overlay_start s' = d + lenZ D) as Est'.
  { unfold overlay_start. simpl. change (last_index_internal s') with (last_index_internal s). destruct O2 as [|z O2].
    - unfold lenZ in *. simpl in *. lia.
    - simpl. by apply run_cons in HrO2 as [? _]. }
  assert (live s' = live s) as Hlive.
  { rewrite (live_start s Hs), Est, HO, Hba. unfold live. simpl. change (last_index_internal s') with (last_index_internal s).
    assert (below (d + lenZ D) (eng_log (s_engine s)) = a ++ D) as Hall
      by (rewrite Hab; apply (below_all _ (first_index_internal s)); [by rewrite <- Hab | rewrite lenZ_app; lia]).
    destruct O2 as [|z O2].
    - rewrite app_nil_r. unfold lenZ in I6 at 2. simpl in I6. by replace (last_index_internal s + 1) with (d + lenZ D) by lia.
    - simpl. apply run_cons in HrO2 as [-> _]. by rewrite Hall, <- app_assoc. }
  split; [| unfold abs; by rewrite Hlive].
  split; [exact I1 | exact I2 | exact I3 | | |].
  - simpl. destruct O2 as [|z O2]; [apply run_nil |]. simpl. pose proof HrO2 as [-> _]%run_cons. done.
  - rewrite Est'. change (first_index_internal s') with (first_index_internal s). simpl. rewrite Hab, lenZ_app. lia.
  - rewrite Est'. change (last_index_internal s') with (last_index_internal s). simpl. lia.
Qed.

(** *** Moving the boundary *)

Lemma first_compacted (s : Store) (e : E) (core : @PersistedCore C) o file i :
  run (first_index_internal s) (eng_log (s_engine s)) -> c_snapshot_index (s_core s) <= i ->
  eng_log e = from (i + 1) (eng_log (s_engine s)) -> c_snapshot_index core = i ->
  let s' := mkStorage e core o file in
  first_index_internal s' = Z.max (i + 1) (first_index_internal s) /\ run (first_index_internal s') (eng_log e)
  /\ first_index_internal s' + lenZ (eng_log e) = Z.max (i + 1) (first_index_internal s + lenZ (eng_log (s_engine s))).
Proof.
  intros Hr Hf He Hc s'. rewrite (engine_first s'). simpl. pose proof (engine_first s) as Hfs.
  destruct (decide (first_index_internal s <= i + 1 <= first_index_internal s + lenZ (eng_log (s_engine s)))) as [Hin|Hout].
  - destruct (run_split (i + 1) _ _ Hr Hin) as (a & b & Hab & Hla & _ & Hb & _ & Hrb). rewrite Hb in He.
    assert (match eng_log e with [] => c_snapshot_index core + 1 | x :: _ => e_index x end = i + 1) as ->
      by (rewrite He; destruct b; [lia | by apply run_cons in Hrb as [? _]]).
    rewrite He, Hab, lenZ_app. pose proof (lenZ_nonneg b). split_and!; [lia | done | lia].
  - destruct (decide (i + 1 < first_index_internal s)) as [Hlt|Hge].
    + rewrite (from_all _ _ _ Hr) in He by lia. rewrite He. destruct (eng_log (s_engine s)); [lia |].
      pose proof (lenZ_nonneg (e0 :: l)). split_and!; [lia | by rewrite <- Hfs | lia].
    + rewrite (from_none _ _ _ Hr) in He by lia. rewrite He. change (lenZ []) with 0.
      pose proof (lenZ_nonneg (eng_log (s_engine s))). split_and!; [lia | apply run_nil | lia].
Qed.

Lemma snapshot_refines (s : Store) (sn : Snapshot C) :
  store_inv s ->
  let s' := (apply_snapshot_visible s sn).2 in
  store_inv s' /\ abs s' = log_apply (abs s) (LSnapshot (sn_index sn) (sn_term sn)).
Proof.
  intros Hs. pose proof Hs as [I1 I2 I3 I4 I5 I6]. unfold apply_snapshot_visible, apply_snapshot_core. simpl.
  destruct (sn_index sn =? _); simpl; [done |].
  change (default (c_snapshot_index (s_core s) + 1) (eng_first_index (s_engine s))) with (first_index_internal s).
  destruct (Z.ltb_spec (sn_index sn) (first_index_internal s)); simpl; [done |].
  set (s' := mkStorage _ _ _ _). set (i := sn_index sn) in *.
  destruct (first_compacted s (eng_compact_to (s_engine s) (i + 1)) (s_core s') overlay_empty (s_file s) i) as (Hf & Hr & Hlen);
    [done | lia | apply eng_compact_law | done |]. change (mkStorage _ _ _ _) with s' in Hf, Hr, Hlen.
  rewrite Z.max_l in Hf by lia. rewrite Hf in Hr, Hlen.
  assert (last_index_internal s' = i) as Hl by (unfold last_index_internal; simpl; by rewrite (proj2 (Z.ltb_lt _ _)) by lia).
  assert (overlay_start s' = i + 1) as Hst by (unfold overlay_start; simpl; by rewrite Hl).
  split.
  - pose proof (lenZ_nonneg (eng_log (eng_compact_to (s_engine s) (i + 1)))).
    split; rewrite ?Hf, ?Hst, ?Hl; simpl; try done; unfold lenZ in *; simpl; lia.
  - unfold abs. rewrite Hf. unfold live. simpl. rewrite Hl. by rewrite (below_none _ _ _ Hr) by lia.
Qed.

Lemma compact_refines (s : Store) n :
  store_inv s -> n <= overlay_start s -> n < first_index_internal s + lenZ (eng_log (s_engine s)) ->
  exists s', compact s n = (Ok tt, s') /\ store_inv s' /\ abs s' = log_apply (abs s) (LCompact n)
    /\ overlay_start s' = overlay_start s
    /\ first_index_internal s' + lenZ (eng_log (s_engine s')) = first_index_internal s + lenZ (eng_log (s_engine s))
    /\ eng_log (s_engine s') = from n (eng_log (s_engine s)).
Proof.
  intros Hs Hst Hn. pose proof Hs as [I1 I2 I3 I4 I5 I6]. destruct (live_run s Hs) as [Hlr _]. unfold compact.
  destruct (Z.leb_spec n (first_index_internal s)).
  { exists s. split_and!; try done; [| by rewrite (from_all n _ _ I3)].
    unfold abs, log_apply. simpl. rewrite (from_all n _ _ Hlr) by lia. f_equal. lia. }
  pose proof (lenZ_nonneg (o_entries (s_overlay s))). rewrite (proj2 (Z.ltb_ge _ _)) by lia.
  set (s' := set_engine s _). exists s'.
  destruct (run_split n _ _ I3 ltac:(lia)) as (a & b & Hab & Hla & _ & Hb & _ & Hrb).
  assert (eng_log (s_engine s') = b) as He by (simpl; by rewrite eng_compact_law, Hb).
  rewrite Hab, lenZ_app in Hn, I5. assert (first_index_internal s' = n) as Hf.
  { rewrite engine_first, He. destruct b as [|x b]; [unfold lenZ in Hn at 2; simpl in Hn; lia |]. by apply run_cons in Hrb as [? _]. }
  change (overlay_start s') with (overlay_start s). split_and!; try done.
  - split; rewrite ?Hf, ?He; try done; [simpl in *; lia |]. change (overlay_start s') with (overlay_start s). lia.
  - unfold abs. rewrite Hf. simpl. f_equal; [lia |]. rewrite (live_start s Hs), from_app, <- below_from.
    unfold live. simpl. change (last_index_internal s') with (last_index_internal s). rewrite eng_compact_law.
    unfold overlay_start in *. destruct (o_entries (s_overlay s)) as [|x o]; [by rewrite app_nil_r |].
    by rewrite (from_all n _ _ I4).
  - rewrite Hf, He, Hab, lenZ_app. lia.
  - by rewrite He, Hb.
Qed.

Lemma overlay_cut_spec o index :
  run (o_offset o) (o_entries o) -> o_offset o + lenZ (o_entries o) >= index + 1 \/ o_entries o = [] ->
  o_entries (overlay_cut o index) = from (index + 1) (o_entries o)
  /\ run (o_offset (overlay_cut o index)) (o_entries (overlay_cut o index))
  /\ (o_entries (overlay_cut o index) <> [] -> o_offset (overlay_cut o index) = Z.max (o_offset o) (index + 1)).
Proof.
  intros Hr Hlen. unfold overlay_cut. destruct (o_entries o) as [|x l] eqn:Eo; [simpl; rewrite Eo; split_and!; [done | apply run_nil | done] |].
  rewrite <- Eo in *. replace (length (o_entries o) =? 0)%nat with false by (by rewrite Eo). cbn [negb andb].
  destruct (Z.leb_spec (o_offset o) index) as [Hle|Hgt].
  - rewrite (take_while_below _ _ _ Hr). destruct Hlen as [Hlen|Hlen]; [| by rewrite Eo in Hlen].
    destruct (run_split (index + 1) _ _ Hr ltac:(lia)) as (a & b & Hab & Hla & -> & -> & _ & Hb).
    rewrite Hab, drop_app_length. cbn [o_entries o_offset]. destruct b as [|y b]; [split_and!; [done | apply run_nil | done] |].
    pose proof Hb as [Hy _]%run_cons. cbn. rewrite Hy. split_and!; [done | done | lia].
  - rewrite (from_all _ _ _ Hr) by lia. split_and!; [done | done | lia].
Qed.

(** An index whose term is known is the boundary or in the log. *)
Lemma term_known (s : Store) i term :
  store_inv s -> term_internal s i = Ok term ->
  log_term (abs s) i = Ok term /\ c_snapshot_index (s_core s) <= i
  /\ (i <= c_snapshot_index (s_core s) -> term = c_snapshot_term (s_core s)).
Proof.
  intros Hs Ht. pose proof (si_snap s Hs).
  assert (log_term (abs s) i = Ok term) as Hlt by (destruct (term_refines s i Hs) as [<-|(e & _ & He)]; [done | by rewrite He in Ht]).
  split; [done |]. unfold log_term in Hlt. simpl in Hlt.
  destruct (Z.eqb_spec i (c_snapshot_index (s_core s))); [split; [lia | congruence] |].
  destruct (Z.ltb_spec i (first_index_internal s)); [done | split; lia].
Qed.

Lemma mark_store (s : Store) i term file :
  store_inv s -> term_internal s i = Ok term -> i <= last_index_internal s ->
  let c := s_core s in
  let core := if c_snapshot_index c <? i
              then mkCore (c_hard c) (c_conf c) i term (c_last_valid c) (c_durable c) else c in
  let s' := mkStorage (eng_compact_to (s_engine s) (i + 1)) core (overlay_cut (s_overlay s) i) file in
  store_inv s' /\ abs s' = log_apply (abs s) (LMark i) /\ overlay_start s' = Z.max (overlay_start s) (i + 1)
  /\ eng_log (s_engine s') = from (i + 1) (eng_log (s_engine s))
  /\ first_index_internal s' + lenZ (eng_log (s_engine s'))
     = Z.max (i + 1) (first_index_internal s + lenZ (eng_log (s_engine s))).
Proof.
  intros Hs Ht Hi c core s'. pose proof Hs as [I1 I2 I3 I4 I5 I6]. destruct (live_run s Hs) as [Hlr Hll].
  destruct (term_known s i term Hs Ht) as (Hlt & Hsi & Hst). fold c in Hsi, Hst.
  assert (c_snapshot_index core = i /\ c_snapshot_term core = term /\ c_last_valid core = c_last_valid c) as (Hci & Hct & Hcl).
  { unfold core. destruct (Z.ltb_spec (c_snapshot_index c) i); [done |]. split_and!; [lia | symmetry; apply Hst; lia | done]. }
  destruct (overlay_cut_spec (s_overlay s) i I4) as (Hoe & Hor & Hoo).
  { unfold overlay_start in I6. destruct (o_entries (s_overlay s)); [by right | left; lia]. }
  assert (last_index_internal s' = last_index_internal s) as Hl.
  { unfold last_index_internal in *. simpl. rewrite Hcl, Hci. fold c in Hi |- *. destruct (0 <? c_last_valid c); lia. }
  assert (overlay_start s' = Z.max (overlay_start s) (i + 1)) as Hstart.
  { unfold overlay_start at 1. simpl. rewrite Hl. destruct (o_entries (overlay_cut (s_overlay s) i)) as [|y l] eqn:Ey.
    - symmetry in Hoe. unfold overlay_start in *. destruct (o_entries (s_overlay s)) as [|x o] eqn:Ex; [lia |].
      pose proof (from_length (i + 1) _ _ I4) as Hfl. rewrite Hoe in Hfl. change (lenZ []) with 0 in Hfl.
      pose proof (lenZ_pos (x :: o) ltac:(done)). lia.
    - rewrite Hoo by done. unfold overlay_start. destruct (o_entries (s_overlay s)); [| done]. done. }
  destruct (first_compacted s (s_engine s') core (overlay_cut (s_overlay s) i) file i) as (Hf & Hr & Hend); [done | exact Hsi | apply eng_compact_law | done |].
  change (mkStorage _ _ _ _) with s' in Hf, Hr, Hend.
  assert (live s' = from (i + 1) (live s)) as Hlive.
  { rewrite (live_start s Hs), from_app, <- Hoe, <- below_from.
    assert (below (overlay_start s) (from (i + 1) (eng_log (s_engine s)))
            = below (overlay_start s') (from (i + 1) (eng_log (s_engine s)))) as ->.
    { rewrite Hstart. destruct (decide (i + 1 <= overlay_start s)); [by rewrite Z.max_l by lia |]. rewrite Z.max_r by lia.
      unfold below, from. rewrite !list_filter_filter. apply list_filter_iff. intros e. lia. }
    unfold live, overlay_start. simpl. rewrite eng_compact_law. by destruct (o_entries (overlay_cut _ _)); [rewrite app_nil_r |]. }
  split_and!; [| | done | apply eng_compact_law | done].
  - split; [simpl; rewrite Hf, Hci; unfold c in Hsi; lia | simpl; by rewrite Hcl | exact Hr | exact Hor | rewrite Hstart, Hend, Hf; lia |].
    rewrite Hstart, Hl. simpl. rewrite Hoe. pose proof (from_length (i + 1) _ _ I4). unfold overlay_start in *.
    pose proof (lenZ_nonneg (o_entries (s_overlay s))). destruct (o_entries (s_overlay s)); [change (lenZ []) with 0 in * |]; lia.
  - unfold abs at 1. cbn [log_apply]. rewrite Hlt, Hf, Hlive. simpl. by rewrite Hci, Hct.
Qed.

(** *** Histories *)

(** What a marker of the snapshot provider does to the log *)
Definition mark_label (s : Store) (request_index : Z) (provided : CatgaRaftResult (list Z * Z)) : LogOp :=
  match provided with
  | Ok (_, applied) =>
    let index := Z.max applied request_index in
    if (applied =? 0) || (last_index_internal s <? index) || negb (is_ok (term_internal s index)) then LOther else LMark index
  | Err _ => LOther
  end.

Lemma mark_refines (s : Store) request_index provided io :
  store_inv s ->
  let s' := (provider_snapshot s request_index provided io).2 in
  let op := mark_label s request_index provided in
  store_inv s' /\ abs s' = log_apply (abs s) op
  /\ (s' = s \/ exists i, op = LMark i /\ overlay_start s' = Z.max (overlay_start s) (i + 1)
        /\ eng_log (s_engine s') = from (i + 1) (eng_log (s_engine s))
        /\ first_index_internal s' + lenZ (eng_log (s_engine s'))
           = Z.max (i + 1) (first_index_internal s + lenZ (eng_log (s_engine s)))).
Proof.
  intros Hs. unfold provider_snapshot, mark_label. destruct provided as [[data applied]|e]; [| by eauto].
  destruct (applied =? 0); [by eauto |]. destruct (Z.ltb_spec (last_index_internal s) (Z.max applied request_index)) as [Hl|Hl]; [by eauto |].
  destruct (term_internal s _) as [term|e] eqn:Et; [| by eauto]. cbn [orb negb is_ok].
  set (i := Z.max applied request_index) in *. destruct io as [e|]; simpl.
  - destruct (mark_store s i term (s_file s) Hs Et Hl) as (? & ? & ?). split_and!; [done | done | right; by exists i].
  - match goal with |- context [Some (encode_core ?c)] =>
      destruct (mark_store s i term (Some (encode_core c)) Hs Et Hl) as (? & ? & ?) end.
    split_and!; [done | done | right; by exists i].
Qed.

(** The append that writes through, with nothing pending in the overlay *)
Lemma storage_append_refines (s : Store) es io :
  store_inv s -> o_entries (s_overlay s) = [] -> appendable s es -> is_ok (eng_write (s_engine s) es).1 = true ->
  let s' := (storage_append s es io).2 in
  store_inv s' /\ abs s' = log_apply (abs s) (LAppend es).
Proof.
  intros Hs Ho (i & Hr & Hn & Hi) Hok. pose proof Hs as [I1 I2 I3 I4 I5 I6].
  assert (overlay_start s = last_index_internal s + 1) as Est by (unfold overlay_start; by rewrite Ho).
  destruct (run_split i _ _ I3 ltac:(lia)) as (a & b & Hab & Hla & Hba & _ & Hra & _).
  assert (joins (eng_log (s_engine s)) es) as Hj.
  { exists i. split_and!; [done | done |]. rewrite engine_first in Hi, I5. destruct (eng_log (s_engine s)); [done | lia]. }
  pose proof (eng_write_law _ _ Hj) as Hw. destruct es as [|x es]; [done |]. pose proof Hr as [Hx _]%run_cons.
  unfold storage_append. set (ee := x :: es) in *. destruct (eng_write (s_engine s) ee) as [[u|e] e'] eqn:Ew; [| done].
  simpl in Hw. rewrite Hx, Hba in Hw. fold ee in Hw. destruct (run_last _ _ Hr Hn) as (y & Hy & Hyi). rewrite Hy. simpl.
  pose proof (lenZ_pos _ Hn). set (s1 := set_core _ _).
  assert (run (first_index_internal s) (a ++ ee)) as Hrun
    by (apply run_app; split; [done |]; rewrite Hla; by replace (first_index_internal s + _) with i by lia).
  assert (first_index_internal s1 = first_index_internal s) as Hf.
  { rewrite (engine_first s1). simpl. rewrite Hw. unfold ee in *. destruct a as [|z a]; simpl in *; [| by apply run_cons in Hrun as [? _]].
    apply run_cons in Hrun as [? _]. done. }
  assert (last_index_internal s1 = e_index y) as Hl by (unfold last_index_internal; simpl; by rewrite (proj2 (Z.ltb_lt _ _)) by lia).
  assert (overlay_start s1 = e_index y + 1) as Hst by (unfold overlay_start; simpl; by rewrite Ho, Hl).
  assert (lenZ (a ++ ee) = e_index y + 1 - first_index_internal s) as Hlen by (rewrite lenZ_app; lia).
  assert (store_inv s1 /\ abs s1 = log_apply (abs s) (LAppend ee)) as [H1 H2].
  { split.
    - split; rewrite ?Hf, ?Hst, ?Hl; [exact I1 | simpl; lia | simpl; by rewrite Hw | exact I4 | simpl; rewrite Hw; lia |].
      simpl. rewrite Ho. change (lenZ []) with 0. lia.
    - unfold abs. rewrite Hf. unfold live at 1. simpl. rewrite Ho, Hl, Hw, (below_all _ _ _ Hrun) by lia. f_equal.
      unfold live. by rewrite Ho, below_below, Z.min_l, Hx, Hba by lia. }
  destruct (same_log s1 (persist_core s1 io).2) as (-> & H3 & _); [by destruct io .. |]. auto.
Qed.

(** A synchronous append whose engine write fails leaves what a drain's failed write leaves. *)
Lemma failed_append_drain (s : Store) es io :
  is_ok (eng_write (s_engine s) es).1 = false -> es <> [] -> (storage_append s es io).2 = (drain_write s es).2.
Proof.
  intros Hf Hn. unfold storage_append, drain_write. destruct es as [|x es]; [done |].
  by destruct (eng_write (s_engine s) (x :: es)) as [[u|e] e'].
Qed.

Lemma failed_append_refines (s : Store) es io :
  store_inv s -> o_entries (s_overlay s) = [] -> appendable s es ->
  e_index <$> head es = Some (last_index_internal s + 1) -> is_ok (eng_write (s_engine s) es).1 = false ->
  store_inv (storage_append s es io).2 /\ abs (storage_append s es io).2 = abs s.
Proof.
  intros Hs Ho (i & Hr & Hn & Hi) Hh Hf. rewrite failed_append_drain by done.
  assert (overlay_start s = last_index_internal s + 1) as Est by (unfold overlay_start; by rewrite Ho).
  assert (i = last_index_internal s + 1) as ->.
  { destruct es as [|x es]; [done |]. apply run_cons in Hr as [<- _]. by injection Hh. }
  destruct (drain_write s es) as [r s'] eqn:Ew. pose proof Hs as [_ _ _ _ I5 _].
  destruct (drain_write_refines s es _ r s' Hs Hn Hr ltac:(lia) ltac:(lia) Ew) as (? & ? & _). by split.
Qed.

(** A pending drain survives when its entries stay above the overlay's start and its part of
    the engine does not change. *)
Lemma machine_keeps (s s' : Store) d :
  machine_inv (mkMachine s d) -> store_inv s' ->
  (forall D written i, d = Some (D, written) -> run i D ->
     overlay_start s <= i <= first_index_internal s + lenZ (eng_log (s_engine s)) ->
     overlay_start s' <= i <= first_index_internal s' + lenZ (eng_log (s_engine s'))
     /\ from i (eng_log (s_engine s')) = from i (eng_log (s_engine s))) ->
  machine_inv (mkMachine s' d).
Proof.
  intros [Hs Hd] Hs' Hk. split; [done |]. intros D written Hw. destruct (Hd D written Hw) as (Hn & i & Hr & H1 & H2 & H3).
  simpl in *. destruct (Hk D written i Hw Hr ltac:(lia)) as [? Hf]. split; [done |]. exists i. rewrite Hf. split_and!; tauto || lia.
Qed.

Lemma machine_same (s s' : Store) d :
  s_engine s' = s_engine s -> s_overlay s' = s_overlay s ->
  c_snapshot_index (s_core s') = c_snapshot_index (s_core s) -> c_snapshot_term (s_core s') = c_snapshot_term (s_core s) ->
  c_last_valid (s_core s') = c_last_valid (s_core s) ->
  machine_inv (mkMachine s d) -> machine_inv (mkMachine s' d) /\ abs s' = abs s.
Proof.
  intros He Ho H1 H2 H3 Hm. destruct (same_log s s' He Ho H1 H2 H3) as (Ha & Hi & Hst & Hf). split; [| done].
  apply (machine_keeps s); [done | apply Hi, Hm |]. intros. by rewrite Hst, Hf, He.
Qed.

(** Where the drain under way starts *)
Definition drain_above (d : option (list Entry * bool)) (n : Z) : Prop :=
  match d with Some (D, _) => Forall (fun e => n <= e_index e) D | None => True end.

Lemma drain_above_run D w n i : D <> [] -> run i D -> drain_above (Some (D, w)) n -> n <= i.
Proof. intros Hn Hr Ha. destruct D as [|x D]; [done |]. apply run_cons in Hr as [<- _]. by apply Forall_cons in Ha as [? _]. Qed.

(** One step of the owner or of the persist worker, with what it does to the log.  The steps
    leave out what [late_drain_reopens_log] shows to break the log: a snapshot made visible
    between the parts of a drain, and a compaction or marker that passes the first entry of the
    drain under way.  They also leave out a compaction of entries that are not in the engine
    yet, and a synchronous append over entries of the log whose engine write reports an error,
    after which the engine may hold either tail. *)
Inductive mstep : Machine -> LogOp -> Machine -> Prop :=
| step_append s d es : appendable s es ->
    mstep (mkMachine s d) (LAppend es) (mkMachine (append_visible s es).2 d)
| step_append_sync s es io : o_entries (s_overlay s) = [] -> appendable s es -> is_ok (eng_write (s_engine s) es).1 = true ->
    mstep (mkMachine s None) (LAppend es) (mkMachine (storage_append s es io).2 None)
| step_append_failed s es io : o_entries (s_overlay s) = [] -> appendable s es ->
    e_index <$> head es = Some (last_index_internal s + 1) -> is_ok (eng_write (s_engine s) es).1 = false ->
    mstep (mkMachine s None) LOther (mkMachine (storage_append s es io).2 None)
| step_snapshot s sn :
    mstep (mkMachine s None) (LSnapshot (sn_index sn) (sn_term sn)) (mkMachine (apply_snapshot_visible s sn).2 None)
| step_persist_snapshot s d i io : i <= c_snapshot_index (s_core s) ->
    mstep (mkMachine s d) LOther (mkMachine (persist_snapshot_state s i io).2 d)
| step_compact s d applied margin :
    applied - margin <= overlay_start s -> applied - margin < first_index_internal s + lenZ (eng_log (s_engine s)) ->
    drain_above d (applied - margin) -> 0 <= margin < applied ->
    mstep (mkMachine s d) (LCompact (applied - margin)) (mkMachine (maybe_compact s applied margin).2 d)
| step_mark s d request_index provided io :
    (forall data applied, provided = Ok (data, applied) -> drain_above d (Z.max applied request_index + 1)) ->
    mstep (mkMachine s d) (mark_label s request_index provided) (mkMachine (provider_snapshot s request_index provided io).2 d)
| step_hard s d hs io : mstep (mkMachine s d) LOther (mkMachine (set_hard_state s hs io).2 d)
| step_conf s d conf io : mstep (mkMachine s d) LOther (mkMachine (set_conf_state s conf io).2 d)
| step_commit s d commit io : mstep (mkMachine s d) LOther (mkMachine (set_commit s commit io).2 d)
| step_drain_copy s up_to : drain_copy s up_to <> [] ->
    mstep (mkMachine s None) LOther (mkMachine s (Some (drain_copy s up_to, false)))
| step_drain_write s D :
    mstep (mkMachine s (Some (D, false))) LOther
      (mkMachine (drain_write s D).2 (if is_ok (drain_write s D).1 then Some (D, true) else None))
| step_drain_finish s D : mstep (mkMachine s (Some (D, true))) LOther (mkMachine (drain_finish s D) None).

Inductive mhistory : Machine -> list LogOp -> Machine -> Prop :=
| history_nil m : mhistory m [] m
| history_snoc m ops m1 op m2 : mhistory m ops m1 -> mstep m1 op m2 -> mhistory m (ops ++ [op]) m2.

Lemma mstep_refines m op m' :
  mstep m op m' -> machine_inv m -> machine_inv m' /\ abs (m_store m') = log_apply (abs (m_store m)) op.
Proof.
  intros Hstep Hm. pose proof (mi_store m Hm) as Hs. destruct Hstep; simpl in *.
  - destruct (append_visible_refines s es Hs H) as (s' & -> & Hs' & Ha & Hst & He & Hf). simpl. split; [| done].
    apply (machine_keeps s); [done | done |]. intros. rewrite He, Hf. split; [lia | done].
  - destruct (storage_append_refines s es io Hs H H0 H1) as [? ?]. split; [by split | done].
  - destruct (failed_append_refines s es io Hs H H0 H1 H2) as [? ?]. split; [by split | done].
  - destruct (snapshot_refines s sn Hs). split; [by split | done].
  - apply (machine_same s); [by destruct io .. | done].
  - unfold maybe_compact. rewrite (proj2 (Z.leb_gt _ _)) by lia.
    destruct (compact_refines s (applied - margin) Hs ltac:(lia) ltac:(lia)) as (s' & -> & Hs' & Ha & Hst & Hend & He). simpl.
    split; [| done]. apply (machine_keeps s); [done | done |]. intros D w i Hd Hr Hi. rewrite Hst, Hend, He. split; [done |].
    destruct Hm as [_ Hm]. destruct (Hm D w Hd) as (Hn & _). simpl in Hd. subst d.
    pose proof (drain_above_run D w _ i Hn Hr H1). rewrite from_from. f_equal. lia.
  - destruct (mark_refines s request_index provided io Hs) as (Hs' & Ha & Hcase). split; [| done].
    destruct Hcase as [-> | (i & Hop & Hst & He & Hend)]; [done |]. apply (machine_keeps s); [done | done |].
    intros D w j Hd Hr Hj. rewrite Hst, Hend, He.
    assert (i + 1 <= j) as Hij.
    { destruct Hm as [_ Hm]. destruct (Hm D w Hd) as (Hn & _). simpl in Hd. subst d. unfold mark_label in Hop.
      destruct provided as [[data applied]|]; [| done]. destruct (_ || _); [done |]. injection Hop as <-.
      apply (drain_above_run D w _ j Hn Hr). by apply (H data). }
    split; [lia |]. rewrite from_from. f_equal. lia.
  - apply (machine_same s); [by destruct io .. | done].
  - apply (machine_same s); [by destruct io .. | done].
  - unfold set_commit. destruct (_ <=? _); [done |]. apply (machine_same s); [by destruct io .. | done].
  - split; [| done]. split; [done |]. intros D w [= <- <-]. destruct (drain_copy_run s up_to Hs H) as (Hr & _). split; [done |].
    exists (overlay_start s). pose proof (si_start s Hs). simpl. split_and!; done || lia.
  - destruct Hm as [_ Hm]. destruct (Hm D false eq_refl) as (Hn & i & Hr & Hi & Hie & _). simpl in *.
    destruct (drain_write s D) as [r s'] eqn:Ew. destruct (drain_write_refines s D i r s' Hs Hn Hr Hi Hie Ew) as (Hs' & Ha & Hst & Hf & _ & _ & He & Hw).
    simpl. split; [| done]. split; [done |]. intros D' w Hd. destruct (is_ok r); [injection Hd as <- <- | done]. split; [done |].
    exists i. simpl. rewrite Hst. split_and!; try done. intros _. by apply Hw.
  - destruct Hm as [_ Hm]. destruct (Hm D true eq_refl) as (Hn & i & Hr & Hi & Hie & Hw). simpl in *.
    pose proof (si_start s Hs). destruct (drain_finish_refines s D i Hs Hn Hr (Hw eq_refl) Hie ltac:(lia)). split; [by split | done].
Qed.

Lemma history_refines m ops m' :
  mhistory m ops m' -> machine_inv m ->
  machine_inv m' /\ abs (m_store m') = fold_left log_apply ops (abs (m_store m)).
Proof.
  induction 1 as [|m ops m1 op m2 _ IH Hstep]; intros Hm; [done |]. destruct (IH Hm) as [Hm1 Ha].
  destruct (mstep_refines _ _ _ Hstep Hm1) as [? Hb]. split; [done |]. by rewrite fold_left_app, Hb, Ha.
Qed.

(** A storage opened on an empty directory *)
Lemma open_fresh (e : E) bootstrap io s :
  eng_log e = [] -> storage_open e None bootstrap io = Ok s -> machine_inv (mkMachine s None) /\ abs s = mkLog 0 0 1 [].
Proof.
  intros He Ho. unfold storage_open in Ho. simpl in Ho. rewrite bool_decide_true in Ho by done.
  assert (s_engine s = e /\ s_overlay s = overlay_empty /\ c_snapshot_index (s_core s) = 0 /\ c_snapshot_term (s_core s) = 0
          /\ c_last_valid (s_core s) = 0) as (H1 & H2 & H3 & H4 & H5).
  { destruct io; [done |]. simpl in Ho. injection Ho as <-. by destruct bootstrap. }
  assert (first_index_internal s = 1) as Hf by (rewrite engine_first, H1, He, H3; done).
  assert (last_index_internal s = 0) as Hl by (unfold last_index_internal; by rewrite H5, H3).
  assert (overlay_start s = 1) as Hst by (unfold overlay_start; by rewrite H2, Hl).
  split; [split; [| done] |].
  - simpl. split; rewrite ?Hst, ?Hf, ?Hl, ?H1, ?H2, ?H3, ?H5, ?He; simpl; try apply run_nil; unfold lenZ; simpl; lia.
  - unfold abs, live. by rewrite H2, H3, H4, Hf, Hl, H1, He.
Qed.

(** What the raft library reads of a log *)
Definition serves (s : Store) (l : RaftLog) : Prop :=
  first_index_internal s = l_first l /\ last_index_internal s = l_last l
  /\ (forall idx, term_internal s idx = log_term l idx
        \/ exists e, eng_get_entry (s_engine s) idx = Err e /\ term_internal s idx = Err e)
  /\ (forall low high max_size, low <= high ->
        match storage_entries s low high max_size with
        | None => l_last l + 1 < high
        | Some (Err e) => (e = Compacted /\ low < l_first l) \/ exists a b limit, eng_fetch (s_engine s) a b limit = Err e
        | Some (Ok es) => l_first l <= low /\ high <= l_last l + 1 /\ es `prefix_of` log_range l low high
            /\ (max_size = None \/ es = [] -> es = log_range l low high)
        end).

Lemma inv_serves (s : Store) : store_inv s -> serves s (abs s).
Proof.
  intros Hs. split_and!; [done | by rewrite abs_last | by intros; apply term_refines | by intros; apply entries_refines].
Qed.

(** C28: On a storage opened on an empty directory: after any history of appends, snapshots,
    compactions, markers and state writes of the owner and of the separate parts of the persist
    worker's drains, the index bounds, terms and entries that the raft library reads are those
    of the log that the same operations build, or the engine's own read error.  Drain writes
    may fail, stored or not, as may file writes and a synchronous append that extends the log.
    The histories are those of [mstep]: appends are runs from at most the end of the log; a
    synchronous append finds nothing pending; a snapshot falls between drains, never inside
    one; compactions and markers stay below the first entry of a drain under way, and
    compactions within what the engine holds.  The code does not enforce the order of
    snapshots and drains, and without it the claim fails ([late_drain_reopens_log]).  Assumed:
    the documented behaviour of raft-engine. *)
Theorem storage_refines_log (e : E) bootstrap io s ops m :
  eng_log e = [] -> storage_open e None bootstrap io = Ok s -> mhistory (mkMachine s None) ops m ->
  abs (m_store m) = fold_left log_apply ops (mkLog 0 0 1 [])
  /\ serves (m_store m) (fold_left log_apply ops (mkLog 0 0 1 [])).
Proof.
  intros He Ho Hh. destruct (open_fresh e bootstrap io s He Ho) as [Hm Ha].
  destruct (history_refines _ _ _ Hh Hm) as [[Hs _] Hb]. simpl in Hb. rewrite Ha in Hb. rewrite <- Hb. split; [done | by apply inv_serves].
Qed.
End simulation.

(** ** The companion file and restarts *)

(** [x] stands in [bytes] at [pos]. *)
Definition found (bytes : list Z) (pos : Z) (x : list Z) : Prop :=
  exists pre post, bytes = pre ++ x ++ post /\ lenZ pre = pos.

Lemma found_app bytes pos x y : found bytes pos (x ++ y) -> found bytes pos x /\ found bytes (pos + lenZ x) y.
Proof.
  intros (pre & post & -> & <-). split.
  - exists pre, (y ++ post). by rewrite <- app_assoc.
  - exists (pre ++ x), post. by rewrite lenZ_app, <- !app_assoc.
Qed.

Lemma found_range bytes pos x n : found bytes pos x -> n = lenZ x -> get_range bytes pos n = Some x.
Proof.
  intros (pre & post & -> & <-) ->. unfold get_range. rewrite !lenZ_app. pose proof (lenZ_nonneg post).
  rewrite (proj2 (Z.leb_le _ _)) by lia. unfold lenZ. by rewrite !Nat2Z.id, drop_app_length, take_app_length.
Qed.

Lemma found_le bytes pos n v w what :
  found bytes pos (le_bytes n v) -> w = Z.of_nat n -> 0 <= v < 256 ^ w -> read_le bytes pos w what = Ok v.
Proof.
  intros Hf -> Hv. unfold read_le. rewrite (found_range _ _ _ _ Hf) by (unfold lenZ; by rewrite length_le_bytes).
  rewrite le_value_le_bytes. by rewrite Z.mod_small.
Qed.

Section restart.
Context {C E : Type} `{!RaftMessages C, !RaftEngine E}.

Abbreviation Store := (@EngineStorage C E).

(** The fields fit their width and the two messages the length prefix. *)
Definition core_fits (core : @PersistedCore C) : Prop :=
  lenZ (hs_to_bytes (c_hard core)) < 2 ^ 32 /\ lenZ (conf_to_bytes (c_conf core)) < 2 ^ 32
  /\ 0 <= c_snapshot_index core < 2 ^ 64 /\ 0 <= c_snapshot_term core < 2 ^ 64
  /\ 0 <= c_last_valid core < 2 ^ 64 /\ 0 <= c_durable core < 2 ^ 64.

(** The tail the file records *)
Definition durable_tail (core : @PersistedCore C) : Z := Z.min (c_durable core) (c_last_valid core).

(** What is written to the companion file is read back: the same hard state, membership and
    snapshot position, and a log tail that is the durable one, never beyond the visible one. *)
Lemma decode_encode_core (core : @PersistedCore C) :
  core_fits core ->
  decode_core (encode_core core)
  = Ok (mkCore (c_hard core) (c_conf core) (c_snapshot_index core) (c_snapshot_term core)
          (durable_tail core) (durable_tail core)).
Proof.
  intros (Hh & Hc & Hi & Ht & Hl & Hd). unfold decode_core.
  set (hs := hs_to_bytes (c_hard core)) in *. set (cs := conf_to_bytes (c_conf core)) in *.
  pose proof (lenZ_nonneg hs). pose proof (lenZ_nonneg cs).
  assert (forall (n : nat) v, lenZ (le_bytes n v) = Z.of_nat n) as Hlen by (intros; unfold lenZ; by rewrite length_le_bytes).
  assert (found (encode_core core) 0 (encode_core core)) as Hf by (exists [], []; by rewrite app_nil_r).
  unfold encode_core in Hf at 2. fold hs cs in Hf. unfold encode_core. fold hs cs.
  apply found_app in Hf as [_ Hf]. apply found_app in Hf as [_ Hf]. change (0 + lenZ STATE_MAGIC + lenZ [STATE_VERSION]) with 5 in Hf.
  do 6 (let H := fresh "F" in apply found_app in Hf as [H Hf]; rewrite ?Hlen in Hf).
  unfold encode_core in *. fold hs cs in F, F0, F1, F2, F3, F4, Hf.
  set (bytes := STATE_MAGIC ++ _) in *. assert ((lenZ bytes <? 5) = false) as ->.
  { apply Z.ltb_ge. unfold bytes. rewrite !lenZ_app. change (lenZ STATE_MAGIC) with 4. change (lenZ [STATE_VERSION]) with 1.
    rewrite !Hlen. lia. }
  rewrite bool_decide_true by done. cbn [orb negb]. rewrite bool_decide_true by done. cbn [negb].
  rewrite (found_le _ _ _ _ _ _ F) by lia. cbn [rbind].
  rewrite (found_range _ _ _ _ F0) by done. cbn [rbind].
  rewrite (found_le _ _ _ _ _ _ F1) by lia. cbn [rbind].
  rewrite (found_range _ _ _ _ F2) by done. cbn [rbind].
  rewrite (found_le _ _ _ _ _ _ F3) by lia. cbn [rbind].
  rewrite (found_le _ _ _ _ _ _ F4) by lia. cbn [rbind].
  rewrite (found_le _ _ _ _ _ _ Hf) by lia. cbn [rbind].
  unfold hs, cs. by rewrite hs_from_to, conf_from_to.
Qed.

(** The storage a restart finds when the file was written for [core] *)
Definition reopen (e : E) (core : @PersistedCore C) : Store :=
  mkStorage e
    (mkCore (c_hard core) (c_conf core) (c_snapshot_index core) (c_snapshot_term core) (durable_tail core) (durable_tail core))
    overlay_empty (Some (encode_core core)).

Definition reopened (s : Store) : Store := reopen (s_engine s) (s_core s).

Lemma open_persisted (e : E) core bootstrap io :
  core_fits core -> c_conf core <> conf_default ->
  storage_open e (Some (encode_core core)) bootstrap io = Ok (reopen e core).
Proof.
  intros Hfit Hconf. unfold storage_open. rewrite decode_encode_core by done.
  cbn [rbind c_conf]. rewrite bool_decide_false by done. by destruct bootstrap.
Qed.

(** The tail in the file is honest when the engine serves everything up to it. *)
Definition tail_honest (s : Store) : Prop :=
  c_snapshot_index (s_core s) <= durable_tail (s_core s) /\ first_index_internal s <= durable_tail (s_core s) + 1 <= overlay_start s.

Lemma reopened_log (s : Store) :
  store_inv s -> tail_honest s ->
  store_inv (reopened s)
  /\ abs (reopened s) = mkLog (c_snapshot_index (s_core s)) (c_snapshot_term (s_core s)) (first_index_internal s)
                          (below (durable_tail (s_core s) + 1) (l_entries (abs s))).
Proof.
  intros Hs [Hsnap Ht]. pose proof Hs as [I1 I2 I3 I4 I5 I6]. set (t := durable_tail (s_core s)) in *.
  change (first_index_internal s) with (first_index_internal (reopened s)) in I1, I3, Ht |- *.
  assert (last_index_internal (reopened s) = t) as Hl.
  { unfold last_index_internal. simpl. fold t. destruct (Z.ltb_spec 0 t); [done | lia]. }
  assert (overlay_start (reopened s) = t + 1) as Hst by (unfold overlay_start; simpl; by rewrite Hl).
  split.
  - split; rewrite ?Hst, ?Hl; [exact I1 | simpl; fold t; lia | exact I3 | apply run_nil | | change (lenZ _) with 0; lia].
    change (eng_log (s_engine (reopened s))) with (eng_log (s_engine s)).
    change (first_index_internal (reopened s)) with (first_index_internal s) in *. lia.
  - unfold abs at 1. f_equal. unfold live. cbn [o_entries reopened s_overlay overlay_empty]. rewrite Hl. simpl.
    rewrite (live_start s Hs), below_app, below_below, Z.min_l by lia. symmetry.
    rewrite (below_none (t + 1) (overlay_start s) (o_entries (s_overlay s))); [apply app_nil_r | | lia].
    unfold overlay_start. destruct (o_entries (s_overlay s)); [apply run_nil | done].
Qed.

(** *** Histories in which the log only grows *)

(** Appends go after the last entry, and markers cover durable entries only. *)
Definition grows (s : Store) (op : LogOp) : Prop :=
  match op with
  | LAppend es => e_index <$> head es = Some (last_index_internal s + 1)
  | LSnapshot _ _ => False
  | LMark i => i <= c_durable (s_core s)
  | LCompact _ | LOther => True
  end.

Inductive ghistory : @Machine C E -> list LogOp -> @Machine C E -> Prop :=
| ghistory_nil m : ghistory m [] m
| ghistory_snoc m ops m1 op m2 : ghistory m ops m1 -> mstep m1 op m2 -> grows (m_store m1) op -> ghistory m (ops ++ [op]) m2.

Lemma ghistory_mhistory m ops m' : ghistory m ops m' -> mhistory m ops m'.
Proof. induction 1; [constructor | by econstructor]. Qed.

(** Then exactly the entries in front of the overlay are durable, and a drain under way is a
    prefix of the overlay. *)
Definition grow_inv (m : @Machine C E) : Prop :=
  let s := m_store m in
  c_durable (s_core s) = overlay_start s - 1
  /\ c_snapshot_index (s_core s) <= Z.min (c_durable (s_core s)) (c_last_valid (s_core s))
  /\ forall D w, m_drain m = Some (D, w) -> D `prefix_of` o_entries (s_overlay s).

Lemma grow_honest m : machine_inv m -> grow_inv m -> durable_tail (s_core (m_store m)) = overlay_start (m_store m) - 1 /\ tail_honest (m_store m).
Proof.
  intros [Hs _] (Hd & Hsn & _). pose proof Hs as [I1 I2 I3 I4 I5 I6]. unfold tail_honest, durable_tail.
  assert (c_durable (s_core (m_store m)) <= c_last_valid (s_core (m_store m))).
  { pose proof (lenZ_nonneg (o_entries (s_overlay (m_store m)))). unfold last_index_internal in I6.
    destruct (Z.ltb_spec 0 (c_last_valid (s_core (m_store m)))); lia. }
  rewrite Z.min_l by lia. lia.
Qed.

(** What a step does to the overlay, for the steps whose drain stays as it is *)
Lemma grow_keeps (s s' : Store) d :
  grow_inv (mkMachine s d) -> overlay_start s' = overlay_start s -> c_durable (s_core s') = c_durable (s_core s) ->
  c_snapshot_index (s_core s') <= Z.min (c_durable (s_core s')) (c_last_valid (s_core s')) ->
  o_entries (s_overlay s) `prefix_of` o_entries (s_overlay s') ->
  grow_inv (mkMachine s' d).
Proof.
  intros (H1 & H2 & H3) Hst Hd Hsn Ho. split_and!; simpl in *; [by rewrite Hd, Hst | done |].
  intros D w Hw. etrans; [by eapply H3 | done].
Qed.

Lemma append_end (s : Store) es :
  store_inv s -> appendable s es -> grows s (LAppend es) ->
  let s' := (append_visible s es).2 in
  overlay_start s' = overlay_start s /\ c_durable (s_core s') = c_durable (s_core s)
  /\ c_snapshot_index (s_core s') = c_snapshot_index (s_core s) /\ last_index_internal s <= c_last_valid (s_core s')
  /\ o_entries (s_overlay s') = o_entries (s_overlay s) ++ es.
Proof.
  intros Hs (i & Hr & Hn & Hi) Hg. pose proof Hs as [I1 I2 I3 I4 I5 I6]. destruct es as [|x es]; [done |].
  simpl in Hg. injection Hg as Hx. unfold append_visible. set (ee := x :: es) in *.
  destruct (run_last _ _ Hr Hn) as (y & Hy & Hyi). assert (e_index x = i) as Hxi by (by apply run_cons in Hr as [? _]).
  pose proof (lenZ_pos _ Hn). rewrite Hy, (proj2 (Z.leb_gt _ _)) by lia. unfold overlay_last_index, overlay_start in *.
  destruct (o_entries (s_overlay s)) as [|z o] eqn:Eo; simpl.
  - change (lenZ []) with 0 in I6. split_and!; try done; lia.
  - rewrite <- Eo in *. rewrite (proj2 (Z.ltb_ge _ _)) by lia.
    assert (lenZ (o_entries (s_overlay s)) > 0) by (apply Z.lt_gt, lenZ_pos; by rewrite Eo).
    rewrite (proj2 (Z.leb_gt _ _)) by lia. simpl. rewrite take_ge by (unfold lenZ in *; lia).
    split_and!; try done; [by rewrite Eo | lia | by rewrite Eo].
Qed.

Lemma append_sync_end (s : Store) es io :
  store_inv s -> o_entries (s_overlay s) = [] -> is_ok (eng_write (s_engine s) es).1 = true -> appendable s es ->
  grows s (LAppend es) -> grow_inv (mkMachine s None) -> grow_inv (mkMachine (storage_append s es io).2 None).
Proof.
  intros Hs Ho Hok (i & Hr & Hn & Hi) Hg (H1 & H2 & _). destruct es as [|x es]; [done |]. pose proof Hr as [Hx _]%run_cons.
  unfold storage_append. set (ee := x :: es) in *. destruct (run_last _ _ Hr Hn) as (y & Hy & Hyi). rewrite Hy.
  destruct (eng_write (s_engine s) ee) as [[u|e] e']; [| done]. simpl in *. injection Hg as Hg. pose proof (lenZ_pos _ Hn).
  pose proof (si_snap s Hs). pose proof (si_start s Hs).
  assert (forall file, grow_inv (mkMachine (mkStorage e' (raise_durable (set_last_valid (s_core s) (e_index y)) (e_index y)) (s_overlay s) file) None)) as Hall.
  { intros file. unfold grow_inv, overlay_start, last_index_internal in *. simpl in *. rewrite Ho in *.
    rewrite (proj2 (Z.ltb_lt 0 (e_index y))) by lia. split_and!; [lia | lia | done]. }
  destruct io; apply Hall.
Qed.

Lemma drain_finish_end (s : Store) D :
  store_inv s -> D <> [] -> grow_inv (mkMachine s (Some (D, true))) -> grow_inv (mkMachine (drain_finish s D) None).
Proof.
  intros Hs Hn (H1 & H2 & H3). pose proof Hs as [I1 I2 I3 I4 I5 I6]. destruct (H3 D true eq_refl) as [O2 HO]. simpl in *.
  unfold drain_finish. rewrite HO, take_app_length, drop_app_length. rewrite HO in I4, I6. apply run_app in I4 as [HrD HrO].
  assert (default 0 (e_index <$> head D) = o_offset (s_overlay s)) as ->
    by (destruct D; [done |]; by apply run_cons in HrD as [? _]).
  rewrite (proj2 (Nat.leb_le _ _)) by (rewrite length_app; lia). rewrite Z.eqb_refl, bool_decide_true by done. cbn [andb].
  destruct (run_last _ _ HrD Hn) as (y & -> & Hy). simpl. rewrite lenZ_app in I6.
  assert (overlay_start s = o_offset (s_overlay s)) as Est by (unfold overlay_start; rewrite HO; by destruct D).
  pose proof (lenZ_pos _ Hn). set (s' := set_core _ _).
  assert (overlay_start s' = e_index y + 1) as Hst.
  { unfold overlay_start. simpl. change (last_index_internal s') with (last_index_internal s). destruct O2 as [|z O2]; [change (lenZ []) with 0 in I6; lia |].
    simpl. apply run_cons in HrO as [? _]. lia. }
  split_and!; simpl; [rewrite Hst; lia | lia | done].
Qed.

Lemma mark_end (s : Store) d request_index provided io :
  store_inv s -> grow_inv (mkMachine s d) -> grows s (mark_label s request_index provided) ->
  grow_inv (mkMachine (provider_snapshot s request_index provided io).2 d).
Proof.
  intros Hs Hi Hg. pose proof (si_snap s Hs). pose proof Hi as (Hd & Hsn & _). unfold mark_label in Hg. unfold provider_snapshot.
  destruct provided as [[data applied]|e]; [| done]. destruct (applied =? 0); [done |]. set (i := Z.max applied request_index) in *.
  destruct (Z.ltb_spec (last_index_internal s) i) as [|Hl]; [done |]. destruct (term_internal s i) as [term|]; [| done].
  simpl in Hg, Hd, Hsn.
  assert (overlay_cut (s_overlay s) i = s_overlay s) as ->.
  { unfold overlay_cut, overlay_start in *. destruct (o_entries (s_overlay s)); [done |]. rewrite (proj2 (Z.leb_gt _ _)) by lia.
    by rewrite andb_false_r. }
  set (core := if c_snapshot_index (s_core s) <? i then _ else _).
  assert (c_durable core = c_durable (s_core s) /\ c_last_valid core = c_last_valid (s_core s)
          /\ c_snapshot_index core = Z.max i (c_snapshot_index (s_core s))) as (E1 & E2 & E3)
    by (unfold core; destruct (Z.ltb_spec (c_snapshot_index (s_core s)) i); split_and!; simpl; lia).
  assert (i <= c_last_valid (s_core s)) by (unfold last_index_internal in Hl; destruct (0 <? c_last_valid (s_core s)); lia).
  assert (forall e file, grow_inv (mkMachine (mkStorage e core (s_overlay s) file) d)) as Hall.
  { intros e file. apply (grow_keeps s); simpl; [done | | done | rewrite E1, E2, E3; lia | done].
    unfold overlay_start, last_index_internal. simpl. rewrite E2, E3. destruct (o_entries (s_overlay s)); [| done].
    destruct (Z.ltb_spec 0 (c_last_valid (s_core s))); [done |]. lia. }
  destruct io; apply Hall.
Qed.

Lemma mstep_grows m op m' :
  mstep m op m' -> machine_inv m -> grows (m_store m) op -> grow_inv m -> grow_inv m'.
Proof.
  intros Hstep Hm Hg Hi. pose proof (mi_store m Hm) as Hs. pose proof Hi as (_ & Hsn & _). destruct Hstep; simpl in *.
  - destruct (append_end s es Hs H Hg) as (H1 & H2 & H3 & H4 & H5). apply (grow_keeps s); try done; [| rewrite H5; by apply prefix_app_r].
    rewrite H3, H2. unfold last_index_internal in H4. destruct (0 <? c_last_valid (s_core s)); lia.
  - by apply append_sync_end.
  - rewrite failed_append_drain by (done || by destruct H0 as (? & _ & ? & _)). unfold drain_write. destruct (eng_write (s_engine s) es) as [r e']. simpl.
    destruct Hi as (? & ? & _). by split_and!.
  - done.
  - destruct io; apply (grow_keeps s); try done; simpl; lia.
  - unfold maybe_compact, compact. repeat case_match; apply (grow_keeps s); done.
  - by apply mark_end.
  - destruct io; by apply (grow_keeps s).
  - destruct io; by apply (grow_keeps s).
  - unfold set_commit. destruct (_ <=? _); [done |]. destruct io; by apply (grow_keeps s).
  - destruct Hi as (H1 & H2 & _). split_and!; [done | done |]. intros D w [= <- <-]. simpl.
    destruct (drain_copy_run s up_to Hs H) as (_ & <- & _). apply prefix_take.
  - unfold drain_write. destruct (eng_write (s_engine s) D) as [r e']. simpl. destruct Hi as (H1 & H2 & H3).
    split_and!; [done | done |]. intros D' w Hw. destruct (is_ok r); [| done]. injection Hw as <- <-. by apply (H3 D false).
  - apply drain_finish_end; [done | | done]. destruct Hm as [_ Hm]. by destruct (Hm D true eq_refl).
Qed.

Lemma ghistory_inv m ops m' : ghistory m ops m' -> machine_inv m -> grow_inv m -> machine_inv m' /\ grow_inv m'.
Proof.
  induction 1 as [|m ops m1 op m2 _ IH Hstep Hg]; intros Hm Hi; [done |]. destruct (IH Hm Hi) as [Hm1 Hi1].
  split; [by eapply mstep_refines | by eapply mstep_grows].
Qed.

Lemma open_grows (e : E) bootstrap io (s : Store) :
  storage_open e None bootstrap io = Ok s -> grow_inv (mkMachine s None).
Proof.
  unfold storage_open. simpl. rewrite bool_decide_true by done. destruct io; [done |]. simpl. intros [= <-].
  by destruct bootstrap.
Qed.

(** A restart recovers what was drained.  In a history whose appends extend the log, however
    the drains of the persist worker fall between them, a restart after the companion file was
    written finds the same hard state and membership, and a log that is the one before it
    without the entries that were still in the overlay only. *)
Theorem restart_recovers (e : E) bootstrap io s ops m bootstrap' io' :
  eng_log e = [] -> storage_open e None bootstrap io = Ok s -> ghistory (mkMachine s None) ops m ->
  core_fits (s_core (m_store m)) -> c_conf (s_core (m_store m)) <> conf_default ->
  let l := fold_left log_apply ops (mkLog 0 0 1 []) in
  exists s', storage_open (s_engine (m_store m)) (s_file (persist_core (m_store m) None).2) bootstrap' io' = Ok s'
    /\ initial_state s' = initial_state (m_store m)
    /\ serves s' (mkLog (l_snap l) (l_snap_term l) (l_first l) (below (overlay_start (m_store m)) (l_entries l))).
Proof.
  intros He Ho Hh Hfit Hconf l. destruct (open_fresh e bootstrap io s He Ho) as [Hm Ha].
  destruct (ghistory_inv _ _ _ Hh Hm (open_grows _ _ _ _ Ho)) as [Hm' Hi]. destruct (grow_honest m Hm' Hi) as [Ht Hon].
  destruct (history_refines _ _ _ (ghistory_mhistory _ _ _ Hh) Hm) as [_ Hb]. simpl in Hb. rewrite Ha in Hb. fold l in Hb.
  exists (reopened (m_store m)). split_and!; [by apply open_persisted | done |].
  destruct (reopened_log (m_store m) (mi_store m Hm') Hon) as [Hs' Hr]. rewrite Ht in Hr.
  replace (overlay_start (m_store m) - 1 + 1) with (overlay_start (m_store m)) in Hr by lia.
  rewrite <- Hb. change (serves (reopened (m_store m)) (mkLog (c_snapshot_index (s_core (m_store m)))
    (c_snapshot_term (s_core (m_store m))) (first_index_internal (m_store m))
    (below (overlay_start (m_store m)) (l_entries (abs (m_store m)))))). rewrite <- Hr. by apply inv_serves.
Qed.
(** Draining does not record the tail: entries that a fresh group appended, drained to the
    engine and so acknowledged are in the engine after a restart, but the storage does not
    serve them, because the companion file still says that the log is empty. *)
Theorem drained_not_recorded (e : E) conf io io' s es s1 up_to s2 bootstrap' :
  eng_log e = [] -> conf <> conf_default -> lenZ (hs_to_bytes hard_state_default) < 2 ^ 32 -> lenZ (conf_to_bytes conf) < 2 ^ 32 ->
  storage_open e None (Some conf) io = Ok s -> appendable s es ->
  append_visible s es = (Ok tt, s1) -> l_last (abs s1) <= up_to -> drain_visible s1 up_to = (Ok tt, s2) ->
  eng_log (s_engine s2) = es
  /\ exists s', storage_open (s_engine s2) (s_file s2) bootstrap' io' = Ok s' /\ last_index_internal s' = 0.
Proof.
  intros He Hc Hl1 Hl2 Ho Happ Ha Hup Hd. destruct (open_fresh e _ _ _ He Ho) as [[Hs _] Habs]. simpl in Hs.
  destruct (append_visible_refines s es Hs Happ) as (s1' & Ha' & Hs1 & Habs1 & _ & He1 & _). rewrite Ha in Ha'. injection Ha' as <-.
  assert (s_engine s = e /\ s_overlay s = overlay_empty /\ s_core s = mkCore hard_state_default conf 0 0 0 0
          /\ s_file s = Some (encode_core (mkCore hard_state_default conf 0 0 0 0))) as (E1 & E2 & E3 & E4).
  { unfold storage_open in Ho. simpl in Ho. rewrite bool_decide_true in Ho by done. destruct io; [done |]. simpl in Ho. by injection Ho as <-. }
  destruct Happ as (i & Hr & Hn & Hi). destruct es as [|x es]; [done |]. set (ee := x :: es) in *.
  assert (o_entries (s_overlay s1) = ee /\ o_offset (s_overlay s1) = e_index x /\ s_file s1 = s_file s) as (Eo & Eoff & Ef).
  { unfold append_visible in Ha. rewrite E2 in Ha. unfold ee in Ha. simpl in Ha. destruct (_ <=? _); [done |]. by injection Ha as <-. }
  pose proof Hr as [Hx _]%run_cons. rewrite (abs_last s1 Hs1) in Hup. pose proof (si_end s1 Hs1) as Hend.
  assert (drain_copy s1 up_to = ee) as Hcopy.
  { unfold drain_copy. rewrite Eo, (take_while_below i) by done. apply (below_all _ i); [done |].
    unfold overlay_start in Hend. rewrite Eo in Hend. unfold ee at 1 in Hend. lia. }
  unfold drain_visible in Hd. rewrite Hcopy in Hd. unfold ee at 1 in Hd. fold ee in Hd. unfold drain_write in Hd.
  rewrite He1, E1 in Hd. assert (joins (eng_log e) ee) as Hj by (exists i; rewrite He; by split_and!).
  pose proof (eng_write_law e ee Hj) as Hw. destruct (eng_write e ee) as [[u|err] e']; [| done]. injection Hd as <-.
  rewrite He in Hw. simpl in Hw. unfold drain_finish. simpl. split; [done |]. rewrite Ef, E4.
  exists (reopen e' (mkCore hard_state_default conf 0 0 0 0)). split; [| done]. apply open_persisted; [| done].
  split_and!; simpl; done || lia.
Qed.
End restart.

(** ** A list as the engine *)

Module ListEngine.

#[export, refine] Instance list_messages : RaftMessages (list Z) := {
  conf_default := [];
  hs_to_bytes h := [hs_term h; hs_vote h; hs_commit h];
  hs_from_bytes bs := match bs with [t; v; c] => Some (mkHardState t v c) | _ => None end;
  conf_to_bytes c := c;
  conf_from_bytes bs := Some bs
}.
Proof.
  - by intros [].
  - done.
Defined.

Definition list_write (l es : list Entry) : CatgaRaftResult unit * list Entry :=
  match es with [] => (Ok tt, l) | x :: _ => (Ok tt, below (e_index x) l ++ es) end.

#[export, refine] Instance list_engine : RaftEngine (list Entry) := {
  eng_log l := l;
  eng_first_index l := e_index <$> head l;
  eng_get_entry l i := Ok (head (from i (below (i + 1) l)));
  eng_fetch l lo hi _ := Ok (from lo (below hi l));
  eng_write := list_write;
  eng_compact_to l n := from n l;
  limit_size l _ := l
}.
Proof.
  - done.
  - by intros e i o [= <-].
  - by intros e lo hi limit l [= <-].
  - intros e l Hj. unfold list_write. by destruct l.
  - done.
  - done.
Defined.

Abbreviation Store := (@EngineStorage (list Z) (list Entry)).

(** A group of three members on an empty directory *)
Definition fresh : Store :=
  match storage_open [] None (Some [1; 2; 3]) None with Ok s => s | Err _ => mkStorage [] core_default overlay_empty None end.

Definition entry (index term : Z) : Entry := mkEntry index term [index].

(** Restart: what was in memory is gone. *)
Definition crash (s : Store) : CatgaRaftResult Store := storage_open (s_engine s) (s_file s) (Some [1; 2; 3]) None.

End ListEngine.

Import ListEngine.

Lemma one_append es i : run i es -> es <> [] -> 1 <= i <= last_index_internal fresh + 1 -> appendable fresh es.
Proof. intros. by exists i. Qed.

Lemma run_two : run 1 [entry 1 1; entry 2 1].
Proof. intros [|[|k]] e; simpl; [intros [= <-]; done | intros [= <-]; done | by rewrite lookup_nil]. Qed.

(** Two entries appended and drained, with a hard state written between the copy and the write *)
Definition drained_ops : list LogOp := [LAppend [entry 1 1; entry 2 1]; LOther; LOther; LOther; LOther].

Definition drained_store : Store :=
  let s := (append_visible fresh [entry 1 1; entry 2 1]).2 in
  let s := (set_hard_state s (mkHardState 1 2 0) None).2 in
  drain_finish (drain_write s [entry 1 1; entry 2 1]).2 [entry 1 1; entry 2 1].

Lemma drained_history : ghistory (mkMachine fresh None) drained_ops (mkMachine drained_store None).
Proof.
  set (es := [entry 1 1; entry 2 1]). set (s1 := (append_visible fresh es).2). set (s2 := (set_hard_state s1 (mkHardState 1 2 0) None).2).
  change drained_ops with (((((([] ++ [LAppend es]) ++ [LOther]) ++ [LOther]) ++ [LOther]) ++ [LOther])).
  eapply (ghistory_snoc _ _ (mkMachine (drain_write s2 es).2 (Some (es, true)))); [| exact (step_drain_finish _ es) | done].
  eapply (ghistory_snoc _ _ (mkMachine s2 (Some (es, false)))); [| exact (step_drain_write _ es) | done].
  eapply (ghistory_snoc _ _ (mkMachine s1 (Some (es, false)))); [| exact (step_hard _ _ _ _) | done].
  eapply (ghistory_snoc _ _ (mkMachine s1 None)); [| exact (step_drain_copy s1 2 ltac:(by vm_compute)) | done].
  eapply ghistory_snoc; [constructor | | vm_compute; reflexivity]. apply step_append. apply (one_append es 1 run_two); [done | vm_compute; split; discriminate].
Qed.

Lemma storage_refines_log_witness :
  ghistory (mkMachine fresh None) drained_ops (mkMachine drained_store None)
  /\ abs drained_store = mkLog 0 0 1 [entry 1 1; entry 2 1].
Proof.
  split; [exact drained_history |].
  exact (proj1 (storage_refines_log ([] : list Entry) (Some [1; 2; 3]) None fresh drained_ops (mkMachine drained_store None) eq_refl
    ltac:(vm_compute; reflexivity) (ghistory_mhistory _ _ _ drained_history))).
Defined.

Lemma restart_recovers_witness :
  ghistory (mkMachine fresh None) drained_ops (mkMachine drained_store None)
  /\ exists s', storage_open (s_engine drained_store) (s_file (persist_core drained_store None).2) (Some [9]) None = Ok s'
       /\ initial_state s' = (mkHardState 1 2 0, [1; 2; 3]) /\ serves s' (mkLog 0 0 1 [entry 1 1; entry 2 1]).
Proof.
  split; [exact drained_history |].
  exact (restart_recovers ([] : list Entry) (Some [1; 2; 3]) None fresh drained_ops (mkMachine drained_store None) (Some [9]) None eq_refl
    ltac:(vm_compute; reflexivity) drained_history ltac:(vm_compute; repeat split; discriminate) ltac:(vm_compute; discriminate)).
Defined.

Lemma drained_not_recorded_witness :
  appendable fresh [entry 1 1; entry 2 1]
  /\ exists s', crash (drain_visible (append_visible fresh [entry 1 1; entry 2 1]).2 2).2 = Ok s' /\ last_index_internal s' = 0.
Proof.
  assert (appendable fresh [entry 1 1; entry 2 1]) as Ha.
  { apply (one_append _ 1 run_two); [done | vm_compute; split; discriminate]. }
  split; [exact Ha |].
  exact (proj2 (drained_not_recorded ([] : list Entry) [1; 2; 3] None None fresh [entry 1 1; entry 2 1]
    (append_visible fresh [entry 1 1; entry 2 1]).2 2 (drain_visible (append_visible fresh [entry 1 1; entry 2 1]).2 2).2 (Some [1; 2; 3])
    eq_refl ltac:(discriminate) ltac:(by vm_compute) ltac:(by vm_compute) ltac:(vm_compute; reflexivity) Ha
    ltac:(vm_compute; reflexivity) ltac:(vm_compute; discriminate) ltac:(vm_compute; reflexivity))).
Defined.

(** *** Restarts after conflicts and snapshots *)

Definition appended (s : Store) (es : list Entry) : Store := (append_visible s es).2.
Definition drained (s : Store) (up_to : Z) : Store := (drain_visible s up_to).2.
Definition hard_written (s : Store) (hs : HardState) : Store := (set_hard_state s hs None).2.

(** Three entries of term 1 drained; a shorter tail of term 2 replaces the last two and is
    drained; the next entry is appended, and the hard state written before it is drained. *)
Definition after_conflict : Store :=
  let s := drained (appended fresh [entry 1 1; entry 2 1; entry 3 1]) 3 in
  let s := drained (appended s [entry 2 2]) 2 in
  hard_written (appended s [entry 3 2]) (mkHardState 2 1 1).

(** The durable tail is not lowered when a conflicting append shortens the log: the file
    then records a tail that the engine does not hold, and after a restart the last index has
    no term. *)
Theorem conflict_tail_dishonest :
  (forall idx, 1 <= idx <= 3 -> term_internal after_conflict idx = Ok (if idx =? 1 then 1 else 2))
  /\ exists s, crash after_conflict = Ok s /\ last_index_internal s = 3
     /\ term_internal s 2 = Ok 2 /\ term_internal s 3 = Err LogUnavailable.
Proof.
  split.
  - intros idx Hi. assert (idx = 1 \/ idx = 2 \/ idx = 3) as [-> | [-> | ->]] by lia; vm_compute; reflexivity.
  - eexists. split_and!; vm_compute; reflexivity.
Qed.

(** A snapshot at 5 made visible after two drained entries, and the hard state written before
    its own metadata is: the file has the snapshot's position with the older tail. *)
Definition after_snapshot : Store :=
  hard_written (apply_snapshot_visible (drained (appended fresh [entry 1 1; entry 2 1]) 2) (mkSnapshot [] 5 1 [1; 2; 3])).2
    (mkHardState 1 1 5).

Lemma snapshot_tail_behind :
  first_index_internal after_snapshot = 6 /\ last_index_internal after_snapshot = 5
  /\ exists s, crash after_snapshot = Ok s /\ first_index_internal s = 6 /\ last_index_internal s = 2.
Proof. split_and!; [vm_compute; reflexivity | vm_compute; reflexivity |]. eexists. split_and!; vm_compute; reflexivity. Qed.

(** A drain that copied its entries before a snapshot was applied, and writes them after it *)
Definition late_drain : Store :=
  let s := appended fresh [entry 1 1; entry 2 1] in
  let D := drain_copy s 2 in
  let s := (apply_snapshot_visible s (mkSnapshot [] 5 1 [1; 2; 3])).2 in
  drain_finish (drain_write s D).2 D.

Lemma late_drain_reopens_log :
  last_index_internal late_drain = 5 /\ c_snapshot_index (s_core late_drain) = 5 /\ first_index_internal late_drain = 1
  /\ term_internal late_drain 2 = Ok 1 /\ term_internal late_drain 3 = Err LogUnavailable.
Proof. split_and!; vm_compute; reflexivity. Qed.
