(* ===== verification/RaftPipeline.v ===== *)
(** * The proposal pipeline ([catga-raft/src/pipeline.rs], [drain_and_propose] of
    [catga-raft/src/owner.rs], [catga-raft/src/config.rs])

    Proposals wait in [pending], are shipped as batches through a bounded channel, and the
    owner loop takes a batch, proposes its items and acknowledges its length.  The theorems
    say that every accepted proposal is in one place and keeps its turn, that the in-flight
    counter is exact, and how far it can go. *)

From S2P Require Import Prelude Errors RaftStorage.

(** ** Configuration *)

Record CatgaRaftConfig := mkRaftConfig {
  rc_node_id : Z; rc_cluster_id : Z; rc_election_tick : Z; rc_heartbeat_tick : Z;
  rc_max_size_per_msg : Z; rc_max_inflight_msgs : Z
}.

Definition raft_config_default : CatgaRaftConfig := mkRaftConfig 0 0 10 3 (8 * 1024 * 1024) 256.

Definition for_cluster_size (n : Z) : CatgaRaftConfig :=
  let election_tick := if (1 <=? n) && (n <=? 5) then 10
                       else if (6 <=? n) && (n <=? 20) then 20
                       else if (21 <=? n) && (n <=? 100) then 30
                       else 40 in
  let d := raft_config_default in
  mkRaftConfig (rc_node_id d) (rc_cluster_id d) election_tick (rc_heartbeat_tick d) (rc_max_size_per_msg d)
    (rc_max_inflight_msgs d).

(** The flush interval is a time only the background task uses. *)
Record PipelineConfig := mkPipelineConfig { pc_batch_size : Z; pc_max_inflight : Z }.

Definition pipeline_config_default : PipelineConfig := mkPipelineConfig 64 1024.

(** ** The pipeline *)

Record Proposal := mkProposal { pr_ctx : list Z; pr_data : list Z }.

Abbreviation ProposalBatch := (list Proposal).

Definition into_items (batch : ProposalBatch) : list (list Z * list Z) := (fun p => (pr_ctx p, pr_data p)) <$> batch.

(** [pm_batches] is the content of the batch channel; the two flags are the permits of the
    wakers. *)
Record PipelineManager := mkPipeline {
  pm_pending : list Proposal;
  pm_inflight : Z;
  pm_batches : list ProposalBatch;
  pm_config : PipelineConfig;
  pm_running : bool;
  pm_flush_notify : bool;
  pm_flusher_notify : bool
}.

Definition pipeline_new (config : PipelineConfig) : PipelineManager := mkPipeline [] 0 [] config false false false.

Definition pipeline_start (m : PipelineManager) : PipelineManager :=
  mkPipeline (pm_pending m) (pm_inflight m) (pm_batches m) (pm_config m) true (pm_flush_notify m) (pm_flusher_notify m).

Definition pipeline_stop (m : PipelineManager) : PipelineManager :=
  mkPipeline (pm_pending m) (pm_inflight m) (pm_batches m) (pm_config m) false (pm_flush_notify m) true.

(** [batch_tx.is_full()], the channel made with capacity [max_inflight] *)
Definition batches_full (m : PipelineManager) : bool := pc_max_inflight (pm_config m) <=? lenZ (pm_batches m).

(** [flush_locked]: the [try_send] after the [is_full] check under the same lock succeeds, as
    the consumer only takes from the channel. *)
Definition flush_locked (m : PipelineManager) : CatgaRaftResult unit * PipelineManager :=
  match pm_pending m with
  | [] => (Ok tt, m)
  | batch =>
    if batches_full m then (Err Backpressure, m)
    else (Ok tt, mkPipeline [] (pm_inflight m + lenZ batch) (pm_batches m ++ [batch]) (pm_config m) (pm_running m)
                   true (pm_flusher_notify m))
  end.

Definition push_proposal (m : PipelineManager) (data ctx : list Z) : CatgaRaftResult unit * PipelineManager :=
  if negb (pm_running m) then (Err NotLeader, m)
  else if pc_max_inflight (pm_config m) <=? pm_inflight m then (Err Backpressure, m)
  else if batches_full m then (Err Backpressure, m)
  else
    let pushed := mkPipeline (pm_pending m ++ [mkProposal ctx data]) (pm_inflight m) (pm_batches m) (pm_config m)
                    (pm_running m) (pm_flush_notify m) (pm_flusher_notify m) in
    if pc_batch_size (pm_config m) <=? lenZ (pm_pending pushed) then
      match flush_locked pushed with
      | (Ok _, m) => (Ok tt, m)
      | (Err e, m) =>
        (Err e, mkPipeline (removelast (pm_pending m)) (pm_inflight m) (pm_batches m) (pm_config m) (pm_running m)
                  (pm_flush_notify m) (pm_flusher_notify m))
      end
    else (Ok tt, mkPipeline (pm_pending pushed) (pm_inflight m) (pm_batches m) (pm_config m) (pm_running m)
                   (pm_flush_notify m) true).

Definition propose (m : PipelineManager) (data : list Z) := push_proposal m data [].
Definition propose_with_context (m : PipelineManager) (data ctx : list Z) := push_proposal m data ctx.

Definition flush (m : PipelineManager) : CatgaRaftResult unit * PipelineManager := flush_locked m.

(** One wake of [flush_loop]: whether it goes on, and the pipeline after it *)
Definition flush_loop_step (m : PipelineManager) : bool * PipelineManager :=
  let '(_, m) := flush_locked (mkPipeline (pm_pending m) (pm_inflight m) (pm_batches m) (pm_config m) (pm_running m)
                                (pm_flush_notify m) false) in
  (pm_running m, m).

Definition pending_count (m : PipelineManager) : Z := lenZ (pm_pending m).
Definition inflight_count (m : PipelineManager) : Z := pm_inflight m.

Definition batch_completed (m : PipelineManager) (count : Z) : PipelineManager :=
  mkPipeline (pm_pending m) (Z.max 0 (pm_inflight m - count)) (pm_batches m) (pm_config m) (pm_running m)
    (pm_flush_notify m) (pm_flusher_notify m).

(** [batch_rx.try_recv()] *)
Definition try_recv (m : PipelineManager) : option (ProposalBatch * PipelineManager) :=
  match pm_batches m with
  | [] => None
  | batch :: rest => Some (batch, mkPipeline (pm_pending m) (pm_inflight m) rest (pm_config m) (pm_running m)
                                    (pm_flush_notify m) (pm_flusher_notify m))
  end.

(** [drain_and_propose], without producers in between: the pipeline and the items handed to
    raft.  [fuel] bounds the batches taken; the length of the channel is enough. *)
Fixpoint drain_and_propose (fuel : nat) (m : PipelineManager) : PipelineManager * list (list Z * list Z) :=
  match fuel with
  | O => (m, [])
  | S fuel =>
    match try_recv m with
    | None => (m, [])
    | Some (batch, m) =>
      let '(m, items) := drain_and_propose fuel (batch_completed m (lenZ batch)) in
      (m, into_items batch ++ items)
    end
  end.

(** ** Histories

    Producers, the flusher and the owner interleave; the owner has at most one batch in hand,
    between taking it and acknowledging it. *)

Record PState := mkPState {
  ps_pipeline : PipelineManager;
  ps_hand : option ProposalBatch;
  ps_accepted : list Proposal;
  ps_proposed : list Proposal
}.

Inductive pstep : PState -> PState -> Prop :=
| p_push m h acc done data ctx :
    pstep (mkPState m h acc done)
      (mkPState (push_proposal m data ctx).2 h
        (if is_ok (push_proposal m data ctx).1 then acc ++ [mkProposal ctx data] else acc) done)
| p_flush m h acc done : pstep (mkPState m h acc done) (mkPState (flush m).2 h acc done)
| p_flusher m h acc done : pstep (mkPState m h acc done) (mkPState (flush_loop_step m).2 h acc done)
| p_start m h acc done : pstep (mkPState m h acc done) (mkPState (pipeline_start m) h acc done)
| p_stop m h acc done : pstep (mkPState m h acc done) (mkPState (pipeline_stop m) h acc done)
| p_recv m m' acc done batch : try_recv m = Some (batch, m') ->
    pstep (mkPState m None acc done) (mkPState m' (Some batch) acc done)
| p_complete m acc done batch :
    pstep (mkPState m (Some batch) acc done) (mkPState (batch_completed m (lenZ batch)) None acc (done ++ batch)).

Definition preach (config : PipelineConfig) : PState -> Prop :=
  rtc pstep (mkPState (pipeline_new config) None [] []).

(** The proposals between acceptance and raft, in their turn *)
Definition shipped (s : PState) : list Proposal := default [] (ps_hand s) ++ concat (pm_batches (ps_pipeline s)).

Record pipeline_inv (config : PipelineConfig) (s : PState) : Prop := {
  pi_config : pm_config (ps_pipeline s) = config;
  pi_fifo : ps_accepted s = ps_proposed s ++ shipped s ++ pm_pending (ps_pipeline s);
  pi_inflight : pm_inflight (ps_pipeline s) = lenZ (shipped s);
  pi_pending : lenZ (pm_pending (ps_pipeline s)) <= Z.max 0 (pc_batch_size config - 1);
  pi_room : pm_pending (ps_pipeline s) <> [] -> pm_inflight (ps_pipeline s) < pc_max_inflight config;
  pi_bound : pm_inflight (ps_pipeline s) <= Z.max 0 (pc_max_inflight config - 1) + Z.max 1 (pc_batch_size config);
  pi_slots : lenZ (pm_batches (ps_pipeline s)) <= Z.max 0 (pc_max_inflight config)
}.

Lemma flush_inv config m h acc done :
  pipeline_inv config (mkPState m h acc done) ->
  pipeline_inv config (mkPState (flush_locked m).2 h acc done).
Proof.
  intros Hi. pose proof Hi as [H1 H2 H3 H4 H5 H6 H7]. unfold flush_locked. destruct (pm_pending m) as [|p l] eqn:Ep; [done |].
  unfold batches_full. destruct (Z.leb_spec (pc_max_inflight (pm_config m)) (lenZ (pm_batches m))); [done |].
  simpl in *. rewrite Ep, H1 in *. specialize (H5 ltac:(done)). unfold shipped in *. simpl in *.
  split; unfold shipped; simpl; try done.
  - rewrite H2, concat_app. simpl. by rewrite !app_nil_r, <- !app_assoc.
  - rewrite H3, concat_app, !lenZ_app. simpl. rewrite app_nil_r. lia.
  - change (lenZ []) with 0. lia.
  - pose proof (lenZ_pos (p :: l) ltac:(done)). lia.
  - rewrite lenZ_app. change (lenZ [p :: l]) with 1. lia.
Qed.

(** A waker's permit or the running flag concerns no proposal. *)
Lemma flags_inv config m h acc done r f g :
  pipeline_inv config (mkPState m h acc done) ->
  pipeline_inv config (mkPState (mkPipeline (pm_pending m) (pm_inflight m) (pm_batches m) (pm_config m) r f g) h acc done).
Proof. intros [H1 H2 H3 H4 H5 H6 H7]. by split. Qed.

Lemma push_inv config m h acc done data ctx :
  pipeline_inv config (mkPState m h acc done) ->
  pipeline_inv config (mkPState (push_proposal m data ctx).2 h
    (if is_ok (push_proposal m data ctx).1 then acc ++ [mkProposal ctx data] else acc) done).
Proof.
  intros Hi. pose proof Hi as [H1 H2 H3 H4 H5 H6 H7]. simpl in *. unfold push_proposal.
  destruct (pm_running m) eqn:Er; [| done]. cbn [negb].
  destruct (Z.leb_spec (pc_max_inflight (pm_config m)) (pm_inflight m)) as [|Hin]; [done |].
  destruct (batches_full m) eqn:Ef; [done |]. rewrite H1 in *.
  set (pushed := mkPipeline _ _ _ _ _ _ _). simpl. rewrite lenZ_app. change (lenZ [mkProposal ctx data]) with 1.
  pose proof (lenZ_nonneg (pm_pending m)).
  destruct (Z.leb_spec (pc_batch_size config) (lenZ (pm_pending m) + 1)) as [Hfull|Hroom].
  - assert (exists p l, pm_pending m ++ [mkProposal ctx data] = p :: l) as (p & l & Epl)
      by (destruct (pm_pending m); simpl; eauto).
    assert (flush_locked pushed = (Ok tt, mkPipeline [] (pm_inflight m + lenZ (p :: l)) (pm_batches m ++ [p :: l]) config true true
      (pm_flusher_notify m))) as ->.
    { unfold flush_locked. assert (batches_full pushed = false) as -> by (rewrite <- Ef; unfold batches_full; simpl; by rewrite H1).
      unfold pushed. simpl. by rewrite Epl. }
    unfold batches_full in Ef. rewrite H1 in Ef. bool_prop.
    assert (lenZ (p :: l) = lenZ (pm_pending m) + 1) as Hlen by (by rewrite <- Epl, lenZ_app).
    unfold shipped in *. simpl. split; unfold shipped; simpl; try done.
    + rewrite H2, concat_app. simpl. by rewrite !app_nil_r, <- Epl, <- !app_assoc.
    + rewrite H3, concat_app, !lenZ_app. simpl. rewrite app_nil_r, Hlen. lia.
    + change (lenZ []) with 0. lia.
    + lia.
    + rewrite lenZ_app. change (lenZ [p :: l]) with 1. lia.
  - split; unfold shipped in *; simpl; try done; [| rewrite lenZ_app; change (lenZ [mkProposal ctx data]) with 1; lia].
    by rewrite H2, <- !app_assoc.
Qed.

Lemma pstep_inv config s s' : pstep s s' -> pipeline_inv config s -> pipeline_inv config s'.
Proof.
  intros Hstep Hi. destruct Hstep.
  - by apply push_inv.
  - by apply flush_inv.
  - unfold flush_loop_step. destruct (flush_locked _) as [r m'] eqn:Ef. simpl.
    change m' with (r, m').2. rewrite <- Ef. apply flush_inv. by apply flags_inv.
  - by apply flags_inv.
  - by apply flags_inv.
  - unfold try_recv in H. destruct (pm_batches m) as [|b rest] eqn:Eb; [done |]. injection H as <- <-.
    destruct Hi as [H1 H2 H3 H4 H5 H6 H7]. unfold shipped in *. simpl in *. rewrite Eb in *. simpl in *.
    split; unfold shipped; simpl; try done. change (lenZ (b :: rest)) with (lenZ ([b] ++ rest)) in H7. rewrite lenZ_app in H7. change (lenZ [b]) with 1 in H7. lia.
  - destruct Hi as [H1 H2 H3 H4 H5 H6 H7]. unfold shipped in *. simpl in *. rewrite lenZ_app in H3.
    pose proof (lenZ_nonneg (concat (pm_batches m))). pose proof (lenZ_nonneg batch).
    split; unfold shipped; simpl; try done; try lia; [by rewrite H2, <- !app_assoc |]. intros Hn. specialize (H5 Hn). lia.
Qed.

Lemma preach_inv config s : preach config s -> pipeline_inv config s.
Proof.
  intros Hr. apply (rtc_ind_r (pipeline_inv config) _ ) with (3 := Hr).
  - split; unfold shipped; simpl; try done; change (lenZ (@nil Proposal)) with 0; change (lenZ (@nil ProposalBatch)) with 0; lia.
  - intros y z _ Hs Hi. by apply (pstep_inv config y).
Qed.

(** C27: C: Every accepted proposal reaches raft in its turn: however producers, the flusher and the
    owner interleave, the accepted proposals are those already proposed, then the batch in the
    owner's hand, the batches in the channel and the pending ones, in the order of acceptance.
    The in-flight counter is the number of shipped proposals that are not yet acknowledged; it
    passes its limit by less than a batch; and when nothing is shipped a running pipeline
    accepts. *)
Theorem pipeline_exact config s :
  preach config s ->
  ps_accepted s = ps_proposed s ++ shipped s ++ pm_pending (ps_pipeline s)
  /\ inflight_count (ps_pipeline s) = lenZ (shipped s)
  /\ inflight_count (ps_pipeline s) <= Z.max 0 (pc_max_inflight config - 1) + Z.max 1 (pc_batch_size config)
  /\ (shipped s = [] -> pm_batches (ps_pipeline s) = [] -> pm_running (ps_pipeline s) = true -> 0 < pc_max_inflight config ->
      forall data ctx, is_ok (push_proposal (ps_pipeline s) data ctx).1 = true).
Proof.
  intros Hr. destruct (preach_inv config s Hr) as [H1 H2 H3 H4 H5 H6 H7]. split_and!; try done.
  intros Hs Hb Hrun Hmax data ctx. unfold push_proposal, batches_full. rewrite Hrun, H1, H3, Hs, Hb. change (lenZ []) with 0.
  change (lenZ (@nil ProposalBatch)) with 0. rewrite (proj2 (Z.leb_gt (pc_max_inflight config) 0)) by lia. cbn [negb].
  destruct (_ <=? lenZ _); [| done]. unfold flush_locked, batches_full. simpl. rewrite ?H1, ?Hb.
  change (lenZ (@nil ProposalBatch)) with 0. rewrite (proj2 (Z.leb_gt _ _)) by lia.
  by destruct (pm_pending (ps_pipeline s) ++ [mkProposal ctx data]).
Qed.

(** The owner's loop empties the channel: all batches are proposed in order, and as many
    proposals released. *)
Lemma drain_and_propose_all m fuel :
  (length (pm_batches m) <= fuel)%nat -> pm_inflight m = lenZ (concat (pm_batches m)) ->
  let '(m', items) := drain_and_propose fuel m in
  items = into_items (concat (pm_batches m)) /\ pm_batches m' = [] /\ pm_inflight m' = 0 /\ pm_pending m' = pm_pending m.
Proof.
  revert m. induction fuel as [|fuel IH]; intros m Hf Hin; simpl.
  - destruct (pm_batches m) eqn:Eb; [| simpl in Hf; lia]. done.
  - unfold try_recv. destruct (pm_batches m) as [|b rest] eqn:Eb; [done |]. set (m1 := batch_completed _ _).
    simpl in Hin. rewrite lenZ_app in Hin. pose proof (lenZ_nonneg (concat rest)).
    specialize (IH m1 ltac:(simpl in *; lia) ltac:(simpl; lia)). destruct (drain_and_propose fuel m1) as [m' items].
    destruct IH as (-> & ? & ? & ?). split_and!; try done. simpl. unfold into_items. by rewrite fmap_app.
Qed.

Lemma pipeline_exact_witness :
  let c := mkPipelineConfig 2 4 in
  let s := mkPState (mkPipeline [mkProposal [3] [3]] 2 [[mkProposal [] [1]; mkProposal [] [2]]] c true true true) None
             [mkProposal [] [1]; mkProposal [] [2]; mkProposal [3] [3]] [] in
  preach c s /\ ps_accepted s = [] ++ shipped s ++ [mkProposal [3] [3]] /\ inflight_count (ps_pipeline s) = lenZ (shipped s).
Proof.
  intros c s. assert (preach c s) as Hr.
  { eapply rtc_l; [apply p_start |]. eapply rtc_l; [apply (p_push _ _ _ _ [1] []) |].
    eapply rtc_l; [apply (p_push _ _ _ _ [2] []) |]. eapply rtc_l; [apply (p_push _ _ _ _ [3] [3]) |]. apply rtc_refl. }
  destruct (pipeline_exact c s Hr) as (H1 & H2 & _). split_and!; [exact Hr | exact H1 | exact H2].
Defined.

(** The table of [for_cluster_size] gives five nodes or fewer the smallest window, but a size
    of zero gets the largest. *)
Lemma for_cluster_size_spec n :
  0 <= n ->
  rc_election_tick (for_cluster_size n)
  = (if n =? 0 then 40 else if n <=? 5 then 10 else if n <=? 20 then 20 else if n <=? 100 then 30 else 40)
  /\ rc_heartbeat_tick (for_cluster_size n) < rc_election_tick (for_cluster_size n).
Proof.
  intros Hn. unfold for_cluster_size. simpl.
  destruct (Z.eqb_spec n 0), (Z.leb_spec 1 n), (Z.leb_spec n 5), (Z.leb_spec 6 n), (Z.leb_spec n 20), (Z.leb_spec 21 n), (Z.leb_spec n 100);
    simpl; lia.
Qed.
