(* ===== verification/RaftApply.v ===== *)
(** * The apply worker ([catga-raft/src/apply.rs], [ConsensusStateMachine] of
    [catga-core/src/consensus.rs])

    The owner loop queues committed entries for a worker that applies them to the state
    machine; a snapshot replaces the state and makes the queued entries stale through an
    epoch.  The theorem relates the two tasks, in any interleaving, to applying everything in
    place. *)

From S2P Require Import Prelude Errors RaftStorage.

(** The application's state machine.  [restore] replaces the entire state, so when it accepts
    the data the state before does not matter. *)
Class ConsensusStateMachine (S : Type) := {
  sm_apply : S -> Z -> list Z -> CatgaResult unit * S;
  sm_snapshot : S -> CatgaResult (list Z);
  sm_restore : S -> list Z -> CatgaResult unit * S;
  sm_restore_replaces s s' data : is_ok (sm_restore s data).1 = true -> sm_restore s' data = sm_restore s data
}.

Inductive ApplyMsg :=
| ApplyEntry (index : Z) (data : list Z) (epoch : Z)
| ApplyBarrier.

(** The epoch is a 64-bit counter of snapshot installs and is not taken to wrap. *)
Record ApplyThread (S : Type) := mkApply {
  at_machine : S; at_commit_index : Z; at_applied_index : Z; at_epoch : Z
}.
Arguments mkApply {S} at_machine at_commit_index at_applied_index at_epoch.
Arguments at_machine {S} a.
Arguments at_commit_index {S} a.
Arguments at_applied_index {S} a.
Arguments at_epoch {S} a.

Section apply.
Context {S : Type} `{!ConsensusStateMachine S}.

Definition apply_new (state_machine : S) : ApplyThread S := mkApply state_machine 0 0 0.

Definition update_commit_index (t : ApplyThread S) (index : Z) : ApplyThread S :=
  mkApply (at_machine t) index (at_applied_index t) (at_epoch t).

(** [advance]: [None] in the loop's result stands for the state at the first error, which is
    returned before the applied index is stored. *)
Fixpoint advance_entries (sm : S) (applied : Z) (entries : list (Z * list Z)) : CatgaResult Z * S :=
  match entries with
  | [] => (Ok applied, sm)
  | (index, data) :: entries =>
    match sm_apply sm index data with
    | (Err e, sm) => (Err e, sm)
    | (Ok _, sm) => advance_entries sm index entries
    end
  end.

Definition advance (t : ApplyThread S) (entries : list (Z * list Z)) : CatgaResult Z * ApplyThread S :=
  match advance_entries (at_machine t) (at_applied_index t) entries with
  | (Err e, sm) => (Err e, mkApply sm (at_commit_index t) (at_applied_index t) (at_epoch t))
  | (Ok applied, sm) => (Ok applied, mkApply sm (at_commit_index t) applied (at_epoch t))
  end.

Definition apply_entry (t : ApplyThread S) (index : Z) (data : list Z) : CatgaResult unit * ApplyThread S :=
  match sm_apply (at_machine t) index data with
  | (Err e, sm) => (Err e, mkApply sm (at_commit_index t) (at_applied_index t) (at_epoch t))
  | (Ok _, sm) => (Ok tt, mkApply sm (at_commit_index t) (Z.max (at_applied_index t) index) (at_epoch t))
  end.

Definition apply_queued_entry (t : ApplyThread S) (index : Z) (data : list Z) (epoch : Z) : CatgaResult unit * ApplyThread S :=
  if negb (epoch =? at_epoch t) then (Ok tt, t) else apply_entry t index data.

Definition restore (t : ApplyThread S) (data : list Z) (index : Z) : CatgaResult unit * ApplyThread S :=
  match sm_restore (at_machine t) data with
  | (Err e, sm) => (Err e, mkApply sm (at_commit_index t) (at_applied_index t) (at_epoch t))
  | (Ok _, sm) => (Ok tt, mkApply sm (Z.max (at_commit_index t) index) index (at_epoch t))
  end.

Definition bump_epoch (t : ApplyThread S) : ApplyThread S :=
  mkApply (at_machine t) (at_commit_index t) (at_applied_index t) (at_epoch t + 1).

Definition install_snapshot (t : ApplyThread S) (data : list Z) (index : Z) : CatgaResult unit * ApplyThread S :=
  restore (bump_epoch t) data index.

Definition advance_applied_index (t : ApplyThread S) (index : Z) : ApplyThread S :=
  mkApply (at_machine t) (at_commit_index t) (Z.max (at_applied_index t) index) (at_epoch t).

(** [ApplySender::send_entry] stamps the epoch it reads. *)
Definition send_entry (t : ApplyThread S) (index : Z) (data : list Z) : ApplyMsg := ApplyEntry index data (at_epoch t).

(** [handle_apply_msg] in its two parts: the check without the lock, which leaves the entry in
    the worker's hand, and the application under it. *)
Definition handle_check (t : ApplyThread S) (msg : ApplyMsg) : option ApplyMsg :=
  match msg with
  | ApplyEntry _ _ epoch => if negb (epoch =? at_epoch t) then None else Some msg
  | ApplyBarrier => None
  end.

Definition handle_apply (t : ApplyThread S) (msg : ApplyMsg) : ApplyThread S :=
  match msg with
  | ApplyEntry index data epoch => (apply_queued_entry t index data epoch).2
  | ApplyBarrier => t
  end.

Definition handle_apply_msg (t : ApplyThread S) (msg : ApplyMsg) : ApplyThread S :=
  match handle_check t msg with Some msg => handle_apply t msg | None => t end.

(** ** Two tasks *)

(** What the owner is doing: nothing that lasts, waiting for its barrier before it advances
    past a configuration entry, about to advance, or installing a snapshot *)
Inductive OwnerMode := Free | Flushing (index : Z) | Flushed (index : Z) | Installing (data : list Z) (index : Z).

(** What it has done *)
Inductive OwnerAct := OSend (index : Z) (data : list Z) | OInstall (data : list Z) (index : Z) | OAdvance (index : Z) | OCommit (index : Z).

(** [as_last] is the highest index the owner handed over. *)
Record AState := mkAState {
  as_thread : ApplyThread S; as_queue : list ApplyMsg; as_hand : option ApplyMsg; as_mode : OwnerMode; as_last : Z
}.

(** Raft delivers committed entries, configuration entries and snapshots in increasing
    positions; a snapshot whose restore fails is installed again with the next ready. *)
Inductive astep : AState -> list OwnerAct -> AState -> Prop :=
| a_send t q h last i d : last < i ->
    astep (mkAState t q h Free last) [OSend i d] (mkAState t (q ++ [send_entry t i d]) h Free i)
| a_commit t q h last i :
    astep (mkAState t q h Free last) [OCommit i] (mkAState (update_commit_index t i) q h Free last)
| a_flush t q h last i : last < i ->
    astep (mkAState t q h Free last) [] (mkAState t (q ++ [ApplyBarrier]) h (Flushing i) i)
| a_advance t q h last i :
    astep (mkAState t q h (Flushed i) last) [OAdvance i] (mkAState (advance_applied_index t i) q h Free last)
| a_install t q h last d i : last < i ->
    astep (mkAState t q h Free last) [] (mkAState (bump_epoch t) q h (Installing d i) i)
| a_reinstall t q h last d i :
    astep (mkAState t q h (Installing d i) last) [] (mkAState (bump_epoch t) q h (Installing d i) last)
| a_restore t q h last d i :
    astep (mkAState t q h (Installing d i) last)
      (if is_ok (restore t d i).1 then [OInstall d i] else [])
      (mkAState (restore t d i).2 q h (if is_ok (restore t d i).1 then Free else Installing d i) last)
| a_take t m q md last :
    astep (mkAState t (m :: q) None md last) []
      (mkAState t q (handle_check t m)
        (match m, md with ApplyBarrier, Flushing i => Flushed i | _, _ => md end) last)
| a_apply t q m md last :
    astep (mkAState t q (Some m) md last) [] (mkAState (handle_apply t m) q None md last).

Inductive ahistory : AState -> list OwnerAct -> AState -> Prop :=
| ahistory_nil s : ahistory s [] s
| ahistory_snoc s acts s1 more s2 : ahistory s acts s1 -> astep s1 more s2 -> ahistory s (acts ++ more) s2.

(** Everything in place, without a worker *)
Definition inline (t : ApplyThread S) (act : OwnerAct) : ApplyThread S :=
  match act with
  | OSend i d => (apply_entry t i d).2
  | OInstall d i => (restore t d i).2
  | OAdvance i => advance_applied_index t i
  | OCommit i => update_commit_index t i
  end.

(** The parts a reader of the machine sees *)
Definition view (t : ApplyThread S) : S * Z * Z := (at_machine t, at_commit_index t, at_applied_index t).

(** The entries that are still to be applied *)
Definition select (epoch : Z) (msg : ApplyMsg) : option (Z * list Z) :=
  match msg with
  | ApplyEntry i d e => if e =? epoch then Some (i, d) else None
  | ApplyBarrier => None
  end.

Definition pending (s : AState) : list (Z * list Z) :=
  omap (select (at_epoch (as_thread s))) (option_list (as_hand s) ++ as_queue s).

Definition catch_up (t : ApplyThread S) (es : list (Z * list Z)) : ApplyThread S :=
  fold_left (fun t e => (apply_entry t e.1 e.2).2) es t.

(** ** The worker keeps up *)

Lemma view_apply (t t' : ApplyThread S) i d : view t = view t' -> view (apply_entry t i d).2 = view (apply_entry t' i d).2.
Proof.
  unfold view, apply_entry. intros [= H1 H2 H3]. rewrite H1, H2, H3. by destruct (sm_apply (at_machine t') i d) as [[]].
Qed.

Lemma view_commit (t t' : ApplyThread S) i : view t = view t' -> view (update_commit_index t i) = view (update_commit_index t' i).
Proof. unfold view. simpl. by intros [= -> _ ->]. Qed.

Lemma view_advance (t t' : ApplyThread S) i : view t = view t' -> view (advance_applied_index t i) = view (advance_applied_index t' i).
Proof. unfold view. simpl. by intros [= -> -> ->]. Qed.

Lemma catch_up_commit es (t : ApplyThread S) i : catch_up (update_commit_index t i) es = update_commit_index (catch_up t es) i.
Proof.
  unfold catch_up. revert t. induction es as [|[j d] es IH]; intros t; [done |]. simpl. rewrite <- IH. f_equal.
  unfold apply_entry. simpl. by destruct (sm_apply (at_machine t) j d) as [[]].
Qed.

Lemma apply_epoch (t : ApplyThread S) i d : at_epoch (apply_entry t i d).2 = at_epoch t /\ at_commit_index (apply_entry t i d).2 = at_commit_index t.
Proof. unfold apply_entry. by destruct (sm_apply (at_machine t) i d) as [[]]. Qed.

Lemma catch_up_commit_index es (t : ApplyThread S) : at_commit_index (catch_up t es) = at_commit_index t.
Proof.
  unfold catch_up. revert t. induction es as [|e es IH]; intros t; [done |]. simpl. rewrite IH. apply apply_epoch.
Qed.

Definition msg_epoch (msg : ApplyMsg) : option Z := match msg with ApplyEntry _ _ e => Some e | ApplyBarrier => None end.

Definition messages (s : AState) : list ApplyMsg := option_list (as_hand s) ++ as_queue s.

(** The owner's mode and the queue *)
Definition mode_ok (s : AState) : Prop :=
  match as_mode s with
  | Free => ApplyBarrier ∉ messages s
  | Flushing i => (exists q, messages s = q ++ [ApplyBarrier] /\ (ApplyBarrier ∉ q)) /\ i <= as_last s
  | Flushed i => messages s = [] /\ i <= as_last s
  | Installing _ i => pending s = [] /\ (ApplyBarrier ∉ messages s) /\ i <= as_last s
  end.

Record apply_inv (t0 : ApplyThread S) (acts : list OwnerAct) (s : AState) : Prop := {
  ai_mode : mode_ok s;
  ai_hand : as_hand s <> Some ApplyBarrier;
  ai_epochs : Forall (fun m => forall e, msg_epoch m = Some e -> e <= at_epoch (as_thread s)) (messages s);
  ai_commit : at_commit_index (as_thread s) = at_commit_index (fold_left inline acts t0);
  ai_view : (forall d i, as_mode s <> Installing d i) ->
    view (catch_up (as_thread s) (pending s)) = view (fold_left inline acts t0);
  ai_frontier : at_applied_index (as_thread s) <= as_last s
    /\ Forall (fun e => at_applied_index (as_thread s) < e.1 <= as_last s) (pending s);
  ai_sorted : StronglySorted Z.lt (fst <$> pending s)
}.

(** Newer epochs make everything queued stale. *)
Lemma stale_none ms ep ep' :
  Forall (fun m => forall e, msg_epoch m = Some e -> e <= ep) ms -> ep < ep' -> omap (select ep') ms = [].
Proof.
  induction 1 as [|m ms Hm _ IH]; intros Hlt; [done |]. destruct m as [i d e|]; simpl; [| by apply IH].
  specialize (Hm e eq_refl). rewrite (proj2 (Z.eqb_neq _ _)) by lia. by apply IH.
Qed.

Lemma epochs_weaken ms ep ep' :
  Forall (fun m => forall e, msg_epoch m = Some e -> e <= ep) ms -> ep <= ep' ->
  Forall (fun m => forall e, msg_epoch m = Some e -> e <= ep') ms.
Proof. intros H Hle. eapply Forall_impl; [exact H |]. intros m Hm e He. specialize (Hm e He). lia. Qed.

Lemma bump_inv (t0 : ApplyThread S) acts (t : ApplyThread S) q h last d i md :
  apply_inv t0 acts (mkAState t q h md last) -> ApplyBarrier ∉ messages (mkAState t q h md last) ->
  forall last', last <= last' -> i <= last' -> apply_inv t0 acts (mkAState (bump_epoch t) q h (Installing d i) last').
Proof.
  intros [I1 I2 I3 I4 I5 I6 I7] Hb last' Hl Hi.
  assert (pending (mkAState (bump_epoch t) q h (Installing d i) last') = []) as Hp by (apply (stale_none _ (at_epoch t)); [done | simpl; lia]).
  split; try done; rewrite ?Hp; try done.
  - eapply epochs_weaken; [exact I3 | simpl; lia].
  - intros Hno. by destruct (Hno d i).
  - split; [simpl in *; lia | constructor].
  - constructor.
Qed.

Lemma restore_inv (t0 : ApplyThread S) acts (t : ApplyThread S) q h last d i :
  apply_inv t0 acts (mkAState t q h (Installing d i) last) ->
  apply_inv t0 (acts ++ (if is_ok (restore t d i).1 then [OInstall d i] else []))
    (mkAState (restore t d i).2 q h (if is_ok (restore t d i).1 then Free else Installing d i) last).
Proof.
  intros [I1 I2 I3 I4 I5 I6 I7]. destruct I1 as (Hp & Hb & Hi). simpl in Hi, I4. unfold restore in *.
  pose proof (sm_restore_replaces (at_machine t) (at_machine (fold_left inline acts t0)) d) as Hlaw.
  destruct (sm_restore (at_machine t) d) as [[u|e] sm] eqn:Er; simpl.
  - specialize (Hlaw eq_refl).
    assert (forall md, pending (mkAState (mkApply sm (Z.max (at_commit_index t) i) i (at_epoch t)) q h md last) = []) as Hp' by (intros; exact Hp).
    split; rewrite ?Hp', ?fold_left_app; try done; cbn [fold_left inline].
    + unfold restore. rewrite Hlaw. simpl. by rewrite I4.
    + intros _. unfold restore. rewrite Hlaw. unfold view. simpl. by rewrite I4.
    + by constructor.
  - rewrite app_nil_r. split; try done. intros Hno. by destruct (Hno d i).
Qed.

(** The worker's two steps *)
Lemma take_inv (t0 : ApplyThread S) acts (t : ApplyThread S) m q md last :
  apply_inv t0 acts (mkAState t (m :: q) None md last) ->
  apply_inv t0 acts (mkAState t q (handle_check t m) (match m, md with ApplyBarrier, Flushing i => Flushed i | _, _ => md end) last).
Proof.
  intros [I1 I2 I3 I4 I5 I6 I7]. set (md' := match m, md with ApplyBarrier, Flushing i => Flushed i | _, _ => md end).
  assert (pending (mkAState t q (handle_check t m) md' last) = pending (mkAState t (m :: q) None md last)) as Hp.
  { unfold pending. simpl. destruct m as [i d e|]; simpl; [| done]. destruct (e =? at_epoch t) eqn:Ee; simpl; [by rewrite Ee | done]. }
  assert (messages (mkAState t q (handle_check t m) md' last) = m :: q /\ m <> ApplyBarrier
          \/ messages (mkAState t q (handle_check t m) md' last) = q) as Hm.
  { unfold messages. simpl. destruct m as [i d e|]; simpl; [destruct (e =? at_epoch t); simpl |]; auto. }
  assert (ApplyBarrier ∉ m :: q -> ApplyBarrier ∉ messages (mkAState t q (handle_check t m) md' last)) as Hnb.
  { destruct Hm as [[-> _] | ->]; [done |]. intros H. by apply not_elem_of_cons in H as [_ ?]. }
  split; rewrite ?Hp; try done.
  - unfold mode_ok in *. destruct md as [|i|i|d i]; cbn [as_mode] in *.
    + assert (md' = Free) as -> by (by destruct m). auto.
    + destruct I1 as [(q0 & Hq & Hb) Hi]. unfold messages in Hq. simpl in Hq. destruct q0 as [|x q0]; simpl in Hq; injection Hq as -> ->.
      * done.
      * apply not_elem_of_cons in Hb as [Hx Hb]. destruct x as [j d e|]; [| done]. split; [| done].
        destruct Hm as [[-> _] | ->]; [exists (ApplyEntry j d e :: q0) | exists q0]; (split; [done |]); [| done].
        by apply not_elem_of_cons.
    + by destruct I1.
    + destruct I1 as (Hp1 & Hb & Hi). assert (md' = Installing d i) as Emd by (by destruct m). rewrite Emd. rewrite Emd in Hp, Hnb.
      split_and!; [by rewrite Hp | auto | done].
  - simpl. destruct m as [i d e|]; simpl; [by destruct (e =? at_epoch t) | done].
  - destruct Hm as [[-> _] | ->]; [exact I3 |]. by apply Forall_cons in I3 as [_ ?].
  - intros Hno. apply I5. intros d i. simpl in *. intros ->. specialize (Hno d i). unfold md' in Hno. by destruct m.
Qed.

Lemma apply_hand_inv (t0 : ApplyThread S) acts (t : ApplyThread S) q m md last :
  apply_inv t0 acts (mkAState t q (Some m) md last) -> apply_inv t0 acts (mkAState (handle_apply t m) q None md last).
Proof.
  intros [I1 I2 I3 I4 I5 I6 I7]. simpl in *. destruct m as [i d e|]; [| done]. simpl. unfold apply_queued_entry.
  assert (forall t', at_epoch t' = at_epoch t -> mode_ok (mkAState t' q None md last)) as Hmode.
  { intros t' Het. unfold mode_ok, pending, messages in *. simpl in *. destruct md as [|j|j|d' j]; simpl in *;
      [by apply not_elem_of_cons in I1 as [_ ?] | | by destruct I1 |].
    - destruct I1 as [(q0 & Hq & Hb) Hj]. split; [| done]. destruct q0 as [|x q0]; [done |]. simpl in Hq. injection Hq as <- ->.
      exists q0. apply not_elem_of_cons in Hb as [_ ?]. done.
    - destruct I1 as (Hp & Hb & Hj). rewrite Het. apply not_elem_of_cons in Hb as [_ ?]. split_and!; [| done | done]. by destruct (e =? at_epoch t). }
  apply Forall_cons in I3 as [He I3]. destruct (e =? at_epoch t) eqn:Ee; cbn [negb].
  - destruct (apply_epoch t i d) as [Hep Hco].
    assert (pending (mkAState t q (Some (ApplyEntry i d e)) md last)
            = (i, d) :: pending (mkAState (apply_entry t i d).2 q None md last)) as Hp.
    { unfold pending. simpl. by rewrite Ee, Hep. }
    rewrite Hp in *. destruct I6 as [Ha I6]. apply Forall_cons in I6 as [Hi I6]. simpl in Hi, I7.
    apply StronglySorted_inv in I7 as [I7 Hlt].
    assert (at_applied_index (apply_entry t i d).2 <= Z.max (at_applied_index t) i) as Hap
      by (unfold apply_entry; destruct (sm_apply (at_machine t) i d) as [[]]; simpl; lia).
    split; try done; simpl.
    + by apply Hmode.
    + eapply epochs_weaken; [exact I3 | simpl; lia].
    + by rewrite Hco.
    + split; [lia |]. apply Forall_forall. intros x Hx. rewrite Forall_forall in I6. specialize (I6 x Hx). simpl in I6.
      rewrite Forall_forall in Hlt. specialize (Hlt x.1 ltac:(by apply list_elem_of_fmap_2)). lia.
  - assert (pending (mkAState t q (Some (ApplyEntry i d e)) md last) = pending (mkAState t q None md last)) as Hp.
    { unfold pending. simpl. by rewrite Ee. }
    rewrite Hp in *. split; try done. by apply Hmode.
Qed.

Lemma send_inv (t0 : ApplyThread S) acts (t : ApplyThread S) q h last i d :
  last < i -> apply_inv t0 acts (mkAState t q h Free last) ->
  apply_inv t0 (acts ++ [OSend i d]) (mkAState t (q ++ [send_entry t i d]) h Free i).
Proof.
  intros Hi [I1 I2 I3 I4 I5 [I6 I6'] I7]. specialize (I5 ltac:(done)). simpl in I4, I6.
  assert (pending (mkAState t (q ++ [send_entry t i d]) h Free i) = pending (mkAState t q h Free last) ++ [(i, d)]) as Hp.
  { unfold pending. simpl. rewrite app_assoc, omap_app. simpl. by rewrite Z.eqb_refl. }
  assert (messages (mkAState t (q ++ [send_entry t i d]) h Free i) = messages (mkAState t q h Free last) ++ [send_entry t i d]) as Hm
    by (unfold messages; simpl; by rewrite app_assoc).
  split; rewrite ?Hp, ?Hm, ?fold_left_app; cbn [fold_left inline]; try done.
  - unfold mode_ok in *. simpl in *. rewrite Hm. apply not_elem_of_app. split; [done |]. by apply not_elem_of_cons; split; [| apply not_elem_of_nil].
  - apply Forall_app. split; [done |]. apply Forall_singleton. simpl. intros e [= <-]. lia.
  - simpl. rewrite I4. symmetry. apply apply_epoch.
  - intros _. simpl in *. unfold catch_up. rewrite fold_left_app. simpl. by apply view_apply.
  - simpl. split; [lia |]. apply Forall_app. split; [| apply Forall_singleton; simpl; lia].
    eapply Forall_impl; [exact I6' |]. simpl. intros [j dd]; simpl. lia.
  - rewrite fmap_app. apply StronglySorted_app_2; [| done | repeat constructor]. intros x y (e & -> & He)%list_elem_of_fmap Hy.
    rewrite Forall_forall in I6'. specialize (I6' e He). simpl in *. apply list_elem_of_singleton in Hy. simpl in Hy. lia.
Qed.

Lemma astep_inv (t0 : ApplyThread S) acts s more s' :
  astep s more s' -> apply_inv t0 acts s -> apply_inv t0 (acts ++ more) s'.
Proof.
  intros Hstep Hi. destruct Hstep; rewrite ?app_nil_r.
  - by apply (send_inv _ _ _ _ _ last0).
  - destruct Hi as [I1 I2 I3 I4 I5 I6 I7]. specialize (I5 ltac:(done)).
    split; rewrite ?fold_left_app; try done. intros _. cbn [fold_left inline]. simpl. rewrite catch_up_commit. by apply view_commit.
  - destruct Hi as [I1 I2 I3 I4 I5 [I6 I6'] I7]. specialize (I5 ltac:(done)).
    assert (pending (mkAState t (q ++ [ApplyBarrier]) h (Flushing i) i) = pending (mkAState t q h Free last0)) as Hp.
    { unfold pending. simpl. by rewrite app_assoc, omap_app, app_nil_r. }
    assert (messages (mkAState t (q ++ [ApplyBarrier]) h (Flushing i) i) = messages (mkAState t q h Free last0) ++ [ApplyBarrier]) as Hm
      by (unfold messages; simpl; by rewrite app_assoc).
    split; rewrite ?Hp; try done.
    + split; [| simpl; lia]. exists (messages (mkAState t q h Free last0)). done.
    + rewrite Hm. apply Forall_app. split; [done |]. by apply Forall_singleton.
    + simpl in *. split; [lia |]. eapply Forall_impl; [exact I6' |]. simpl. intros [j dd]; simpl. lia.
  - destruct Hi as [I1 I2 I3 I4 I5 I6 I7]. specialize (I5 ltac:(done)). destruct I1 as [Hm Hl]. simpl in Hl.
    assert (forall t' md, pending (mkAState t' q h md last0) = []) as Hp by (intros; unfold pending; simpl; unfold messages in Hm; simpl in Hm; by rewrite Hm).
    assert (messages (mkAState (advance_applied_index t i) q h Free last0) = []) as Hm' by done.
    rewrite Hp in I5. split; rewrite ?Hp, ?Hm', ?fold_left_app; cbn [fold_left inline]; try done.
    + unfold mode_ok. simpl. rewrite Hm'. apply not_elem_of_nil.
    + intros _. by apply view_advance.
    + simpl in *. split; [lia | constructor].
    + constructor.
  - apply (bump_inv _ _ _ _ _ last0 _ _ Free); [done | apply Hi | lia | lia].
  - destruct (ai_mode _ _ _ Hi) as (_ & Hb & Hl). simpl in Hl. by apply (bump_inv _ _ _ _ _ last0 _ _ (Installing d i)).
  - by apply restore_inv.
  - by apply take_inv.
  - by apply apply_hand_inv.
Qed.

Definition apply_start (sm : S) : AState := mkAState (apply_new sm) [] None Free 0.

Lemma ahistory_inv sm acts s : ahistory (apply_start sm) acts s -> apply_inv (apply_new sm) acts s.
Proof.
  remember (apply_start sm) as s0 eqn:E. induction 1 as [s|s acts s1 more s2 _ IH Hstep]; subst.
  - split; try done; try apply not_elem_of_nil; try constructor; try done; simpl; constructor.
  - eapply astep_inv; [done |]. by apply IH.
Qed.

(** C30: C: The apply worker computes what applying in place would.  In any interleaving of the
    owner's sends, commit updates, barriers, configuration advances and snapshot installs
    (with restores that fail and are retried) with the worker's checks and applications, and
    with no install under way, applying what is still queued under the current epoch to the
    machine gives the machine, commit and applied index of the owner's actions executed one
    after the other; when nothing is queued they are equal.  The applied index is always
    below every entry that is still to be applied. *)
Theorem apply_worker_refines sm acts s :
  ahistory (apply_start sm) acts s -> (forall d i, as_mode s <> Installing d i) ->
  let inplace := fold_left inline acts (apply_new sm) in
  view (catch_up (as_thread s) (pending s)) = view inplace
  /\ (as_queue s = [] -> as_hand s = None -> view (as_thread s) = view inplace)
  /\ Forall (fun e => at_applied_index (as_thread s) < e.1) (pending s).
Proof.
  intros Hh Hno inplace. destruct (ahistory_inv sm acts s Hh) as [I1 I2 I3 I4 I5 [I6 I6'] I7]. specialize (I5 Hno).
  split_and!; [done | |].
  - intros Hq Hh'. unfold inplace. rewrite <- I5. unfold pending. by rewrite Hq, Hh'.
  - eapply Forall_impl; [exact I6' |]. simpl. intros; lia.
Qed.

(** An entry the machine rejects is passed over: the next one is applied and moves the applied
    index past it. *)
Lemma failed_entry_skipped (t : ApplyThread S) i d j d' e sm sm' :
  sm_apply (at_machine t) i d = (Err e, sm) -> sm_apply sm j d' = (Ok tt, sm') -> i < j ->
  let t' := handle_apply_msg (handle_apply_msg t (send_entry t i d)) (send_entry t j d') in
  at_machine t' = sm' /\ j <= at_applied_index t'.
Proof.
  intros H1 H2 Hij. unfold handle_apply_msg, handle_check, send_entry. rewrite Z.eqb_refl. simpl.
  unfold apply_queued_entry. rewrite Z.eqb_refl. simpl. unfold apply_entry. rewrite H1. simpl. rewrite Z.eqb_refl. simpl.
  unfold apply_queued_entry. simpl. rewrite Z.eqb_refl. simpl. unfold apply_entry. simpl. rewrite H2. simpl. split; [done | lia].
Qed.

(** [advance] stores the applied index only when every entry was accepted. *)
Lemma advance_spec (t : ApplyThread S) entries :
  let '(r, t') := advance t entries in
  at_epoch t' = at_epoch t /\ at_commit_index t' = at_commit_index t
  /\ match r with
     | Ok applied => at_applied_index t' = applied /\ applied = default (at_applied_index t) (fst <$> last entries)
     | Err _ => at_applied_index t' = at_applied_index t
     end.
Proof.
  unfold advance. destruct (advance_entries _ _ _) as [[applied|e] sm] eqn:Ea; simpl; [| done]. split_and!; try done. revert Ea.
  generalize (at_machine t) (at_applied_index t). induction entries as [|[i d] entries IH]; simpl; intros sm0 a0 Ha; [by simplify_eq |].
  destruct (sm_apply sm0 i d) as [[u|e] sm1]; [| done]. rewrite (IH _ _ Ha). destruct entries as [|e entries]; [done |].
  change (last ((i, d) :: e :: entries)) with (last (e :: entries)).
  destruct (last (e :: entries)) eqn:El; [done | by apply last_None in El].
Qed.
End apply.

(** A machine that keeps the entries it was given *)
#[global, refine] Instance log_machine : ConsensusStateMachine (list Z) := {
  sm_apply s i d := (Ok tt, s ++ [i]);
  sm_snapshot s := Ok s;
  sm_restore s d := (Ok tt, d)
}.
Proof. done. Defined.

Lemma apply_worker_refines_witness :
  exists s, ahistory (apply_start ([] : list Z)) [OSend 1 []; OSend 2 []; OInstall [7] 5; OSend 6 []] s
    /\ view (as_thread s) = ([7; 6], 5, 6) /\ view (as_thread s) = view (fold_left inline [OSend 1 []; OSend 2 []; OInstall [7] 5; OSend 6 []] (apply_new [])).
Proof.
  set (acts := [OSend 1 []; OSend 2 []; OInstall [7] 5; OSend 6 []]).
  set (s := mkAState (mkApply [7; 6] 5 6 1) [] None Free 6).
  assert (ahistory (apply_start ([] : list Z)) acts s) as Hh.
  { change acts with (((((((((([] ++ [OSend 1 []]) ++ [OSend 2 []]) ++ []) ++ []) ++ []) ++ []) ++ [OInstall [7] 5]) ++ [OSend 6 []]) ++ []) ++ []).
    eapply (ahistory_snoc _ _ (mkAState (mkApply [7] 5 5 1) [] (Some (ApplyEntry 6 [] 1)) Free 6)); [| exact (a_apply (mkApply [7] 5 5 1) [] (ApplyEntry 6 [] 1) Free 6)].
    eapply (ahistory_snoc _ _ (mkAState (mkApply [7] 5 5 1) [ApplyEntry 6 [] 1] None Free 6)); [| exact (a_take (mkApply [7] 5 5 1) (ApplyEntry 6 [] 1) [] Free 6)].
    eapply (ahistory_snoc _ _ (mkAState (mkApply [7] 5 5 1) [] None Free 5)); [| apply (a_send (mkApply [7] 5 5 1) [] None 5 6 []); lia].
    eapply (ahistory_snoc _ _ (mkAState (mkApply [1] 0 1 1) [] None (Installing [7] 5) 5)); [| exact (a_restore (mkApply [1] 0 1 1) [] None 5 [7] 5)].
    eapply (ahistory_snoc _ _ (mkAState (mkApply [1] 0 1 1) [ApplyEntry 2 [] 0] None (Installing [7] 5) 5)); [| exact (a_take (mkApply [1] 0 1 1) (ApplyEntry 2 [] 0) [] (Installing [7] 5) 5)].
    eapply (ahistory_snoc _ _ (mkAState (mkApply [1] 0 1 0) [ApplyEntry 2 [] 0] None Free 2)); [| apply (a_install (mkApply [1] 0 1 0) [ApplyEntry 2 [] 0] None 2 [7] 5); lia].
    eapply (ahistory_snoc _ _ (mkAState (mkApply [] 0 0 0) [ApplyEntry 2 [] 0] (Some (ApplyEntry 1 [] 0)) Free 2)); [| exact (a_apply (mkApply [] 0 0 0) [ApplyEntry 2 [] 0] (ApplyEntry 1 [] 0) Free 2)].
    eapply (ahistory_snoc _ _ (mkAState (mkApply [] 0 0 0) [ApplyEntry 1 [] 0; ApplyEntry 2 [] 0] None Free 2)); [| exact (a_take (mkApply [] 0 0 0) (ApplyEntry 1 [] 0) [ApplyEntry 2 [] 0] Free 2)].
    eapply (ahistory_snoc _ _ (mkAState (mkApply [] 0 0 0) [ApplyEntry 1 [] 0] None Free 1)); [| apply (a_send (mkApply [] 0 0 0) [ApplyEntry 1 [] 0] None 1 2 []); lia].
    eapply (ahistory_snoc _ _ (apply_start [])); [constructor | apply (a_send (mkApply [] 0 0 0) [] None 0 1 []); lia]. }
  exists s. split; [exact Hh |]. split; [reflexivity |].
  exact (proj1 (proj2 (apply_worker_refines ([] : list Z) acts s Hh ltac:(discriminate))) eq_refl eq_refl).
Defined.
