(* ===== verification/RaftPending.v ===== *)
(** * Requests that wait for the raft owner ([catga-raft/src/owner.rs])

    Linearizable reads, attributed proposals and membership changes wait in three vectors for
    their answer: each is bounded, entries older than a time to live fail with [Timeout], and
    an answer is matched to its request by context.  The theorems say that every request is
    answered exactly once or still waits, and when expiry is exact. *)

From S2P Require Import Prelude Errors Search RaftStorage.

(** ** The vector operations of the standard library *)

(** [position] *)
Fixpoint position {A} (pred : A -> bool) (l : list A) : option nat :=
  match l with
  | [] => None
  | x :: l => if pred x then Some 0%nat else S <$> position pred l
  end.

(** [swap_remove] at a position in range: the last element takes the place. *)
Definition swap_remove {A} (l : list A) (pos : nat) : list A :=
  match last l with
  | None => []
  | Some x => if (S pos =? length l)%nat then take pos l else <[pos := x]> (removelast l)
  end.

(** ** Waiting requests *)

(** [pd_reply] identifies the reply channel. *)
Record Pending := mkPending { pd_ctx : list Z; pd_queued_at : Z; pd_reply : Z }.

Abbreviation Replies A := (list (Z * CatgaRaftResult A)).

Definition MAX_PENDING_READS : Z := 4096.
Definition MAX_PENDING_PROPOSES : Z := 4096.
Definition MAX_PENDING_CONFS : Z := 16.
(** Ten seconds, in nanoseconds *)
Definition PENDING_READ_TTL : Z := 10 * 10 ^ 9.
Definition PENDING_PROPOSE_TTL : Z := 10 * 10 ^ 9.
Definition PENDING_CONF_TTL : Z := 10 * 10 ^ 9.

Definition CONF_OP_ADD : Z := 0.
Definition CONF_OP_REMOVE : Z := 1.

(** What the three expiry functions do: the prefix that the binary search finds is answered
    with [Timeout]. *)
Definition stale (ttl now : Z) (p : Pending) : bool := ttl <=? now - pd_queued_at p.

Definition expire {A} (ttl now : Z) (l : list Pending) : list Pending * Replies A :=
  match l with
  | [] => (l, [])
  | _ => let n := partition_point (stale ttl now) l in
         (drop n l, (fun p => (pd_reply p, Err RaftTimeout)) <$> take n l)
  end.

(** What the three matchers do *)
Definition matches (ctx : list Z) (p : Pending) : bool := bool_decide (pd_ctx p = ctx).

Definition resolve {A} (l : list Pending) (ctx : list Z) (answer : CatgaRaftResult A) : list Pending * Replies A :=
  match position (matches ctx) l with
  | None => (l, [])
  | Some pos => (swap_remove l pos, match l !! pos with Some p => [(pd_reply p, answer)] | None => [] end)
  end.

(** [queue_read]: the flag tells whether raft's [read_index] is called. *)
Definition queue_read (pending_reads : list Pending) (ctx : list Z) (reply now : Z) : list Pending * Replies Z * bool :=
  if MAX_PENDING_READS <=? lenZ pending_reads then (pending_reads, [(reply, Err RaftTimeout)], false)
  else (pending_reads ++ [mkPending ctx now reply], [], true).

Definition expire_pending_reads (now : Z) (l : list Pending) : list Pending * Replies Z := expire PENDING_READ_TTL now l.

(** The read states of a ready, in [process_ready] *)
Definition resolve_read (pending_reads : list Pending) (request_ctx : list Z) (index : Z) : list Pending * Replies Z :=
  resolve pending_reads request_ctx (Ok index).

Definition queue_propose_wait (pending_props : list Pending) (ctx : list Z) (reply now : Z) : list Pending * Replies Z :=
  if MAX_PENDING_PROPOSES <=? lenZ pending_props then (pending_props, [(reply, Err RaftTimeout)])
  else (pending_props ++ [mkPending ctx now reply], []).

Definition resolve_propose_wait (pending_props : list Pending) (ctx : list Z) (index : Z) : bool * (list Pending * Replies Z) :=
  if bool_decide (ctx = []) then (false, (pending_props, []))
  else match position (matches ctx) pending_props with
       | Some _ => (true, resolve pending_props ctx (Ok index))
       | None => (false, (pending_props, []))
       end.

Definition expire_pending_proposes (now : Z) (l : list Pending) : list Pending * Replies Z := expire PENDING_PROPOSE_TTL now l.

Inductive ConfChangeOp := ConfAdd (node_id : Z) (endpoint : string) | ConfRemove (node_id : Z).

Record ConfChangeCtx := mkConfCtx { cc_seq : Z; cc_op : Z; cc_node_id : Z; cc_endpoint : string }.

Inductive ConfChangeType := AddNode | RemoveNode | AddLearnerNode.

(** [handle_conf_request]: [encode] is the serializer, [propose] what raft answers to the
    proposal of this change with this context. *)
Definition handle_conf_request (encode : ConfChangeCtx -> CatgaRaftResult (list Z)) (leader : bool)
    (propose : list Z -> ConfChangeType -> Z -> option string)
    (pending_confs : list Pending) (conf_seq : Z) (op : ConfChangeOp) (reply now : Z)
    : list Pending * Z * Replies unit :=
  if MAX_PENDING_CONFS <=? lenZ pending_confs then (pending_confs, conf_seq, [(reply, Err RaftTimeout)])
  else
    let '(change_type, op_tag, target_id, endpoint) :=
      match op with
      | ConfAdd node_id endpoint => (AddNode, CONF_OP_ADD, node_id, endpoint)
      | ConfRemove node_id => (RemoveNode, CONF_OP_REMOVE, node_id, ""%string)
      end in
    if negb leader then (pending_confs, conf_seq, [(reply, Err NotLeader)])
    else
      match encode (mkConfCtx conf_seq op_tag target_id endpoint) with
      | Err e => (pending_confs, conf_seq, [(reply, Err e)])
      | Ok ctx_bytes =>
        match propose ctx_bytes change_type target_id with
        | Some e => (pending_confs, conf_seq + 1, [(reply, Err (RaftError e))])
        | None => (pending_confs ++ [mkPending ctx_bytes now reply], conf_seq + 1, [])
        end
      end.

Definition expire_pending_confs (now : Z) (l : list Pending) : list Pending * Replies unit := expire PENDING_CONF_TTL now l.

(** [resolve_pending] *)
Definition resolve_pending (pending_confs : list Pending) (ctx : list Z) (error : option CatgaRaftError)
    : list Pending * Replies unit :=
  if bool_decide (ctx = []) then (pending_confs, [])
  else resolve pending_confs ctx (match error with None => Ok tt | Some e => Err e end).

(** ** The vector operations are right *)

Section vectors.
Context {A : Type}.
Implicit Types (pred : A -> bool) (l : list A).

Lemma position_spec pred l pos : position pred l = Some pos -> exists x, l !! pos = Some x /\ pred x = true.
Proof.
  revert pos. induction l as [|y l IH]; intros pos; simpl; [done |]. destruct (pred y) eqn:Ey; [intros [= <-]; eauto |].
  destruct (position pred l) as [p|]; [| done]. intros [= <-]. by apply IH.
Qed.

Lemma position_none pred l : position pred l = None -> Forall (fun x => pred x = false) l.
Proof.
  induction l as [|y l IH]; simpl; [constructor |]. destruct (pred y) eqn:Ey; [done |].
  destruct (position pred l); [done |]. intros _. constructor; auto.
Qed.

Lemma swap_remove_perm l pos x : l !! pos = Some x -> l ≡ₚ x :: swap_remove l pos.
Proof.
  intros Hx. destruct l as [|y l' _] using rev_ind; [by rewrite lookup_nil in Hx |]. unfold swap_remove. rewrite last_snoc, removelast_last.
  rewrite length_app. cbn [length]. destruct (Nat.eqb_spec (S pos) (length l' + 1)) as [He|Hne].
  - assert (pos = length l') as -> by lia. rewrite lookup_app_r, Nat.sub_diag in Hx by lia. simplify_eq/=.
    rewrite take_app_length. apply Permutation_app_comm.
  - apply lookup_app_Some in Hx as [Hx|[Hge Hx]].
    + rewrite <- (take_drop_middle l' pos x Hx) at 1. rewrite (insert_take_drop l' pos y) by (by eapply lookup_lt_Some).
      rewrite <- app_assoc. simpl. rewrite <- Permutation_middle. constructor.
      apply Permutation_app_head. by rewrite (Permutation_app_comm (drop _ _) [y]).
    + apply lookup_lt_Some in Hx. simpl in Hx. lia.
Qed.
End vectors.

(** ** Every request has its answer *)

Section requests.
Context {A : Type} (cap ttl : Z).
Hypothesis cap_pos : 0 <= cap.

(** One of the three vectors with what was asked and answered; [rejected] requests are
    answered at once, on a full vector or for a reason of their own. *)
Record Requests := mkRequests { rq_waiting : list Pending; rq_asked : list Z; rq_answered : Replies A }.

Inductive rstep : Requests -> Requests -> Prop :=
| r_queue w asked done ctx now reply : lenZ w < cap ->
    rstep (mkRequests w asked done) (mkRequests (w ++ [mkPending ctx now reply]) (asked ++ [reply]) done)
| r_reject w asked done reply e :
    rstep (mkRequests w asked done) (mkRequests w (asked ++ [reply]) (done ++ [(reply, Err e)]))
| r_expire w asked done now :
    rstep (mkRequests w asked done) (mkRequests (expire (A := A) ttl now w).1 asked (done ++ (expire ttl now w).2))
| r_resolve w asked done ctx answer :
    rstep (mkRequests w asked done) (mkRequests (resolve w ctx answer).1 asked (done ++ (resolve w ctx answer).2)).

Lemma expire_split (now : Z) (w : list Pending) :
  exists n, (expire (A := A) ttl now w).1 = drop n w
    /\ (expire (A := A) ttl now w).2 = (fun p => (pd_reply p, Err RaftTimeout)) <$> take n w.
Proof. unfold expire. destruct w as [|p w]; [by exists 0%nat |]. by eexists. Qed.

Lemma resolve_perm (w : list Pending) ctx (answer : CatgaRaftResult A) :
  ((resolve w ctx answer).2.*1) ++ (pd_reply <$> (resolve w ctx answer).1) ≡ₚ pd_reply <$> w
  /\ (length (resolve w ctx answer).1 <= length w)%nat.
Proof.
  unfold resolve. destruct (position (matches ctx) w) as [pos|] eqn:Ep; [| done].
  apply position_spec in Ep as (x & Hx & _). rewrite Hx. simpl. pose proof (swap_remove_perm w pos x Hx) as Hp.
  split; [symmetry; exact (Permutation_map pd_reply Hp) |]. apply Permutation_length in Hp. simpl in Hp. lia.
Qed.

Lemma rstep_inv s s' :
  rstep s s' ->
  (rq_answered s).*1 ++ (pd_reply <$> rq_waiting s) ≡ₚ rq_asked s /\ lenZ (rq_waiting s) <= cap ->
  (rq_answered s').*1 ++ (pd_reply <$> rq_waiting s') ≡ₚ rq_asked s' /\ lenZ (rq_waiting s') <= cap.
Proof.
  intros Hstep [Hp Hc]. destruct Hstep as [w asked done ctx now reply Hlt|w asked done reply e|w asked done now|w asked done ctx answer]; simpl in *.
  - split; [| rewrite lenZ_app; unfold lenZ in *; simpl; lia]. rewrite fmap_app, app_assoc, Hp. done.
  - split; [| done]. rewrite fmap_app, <- app_assoc. simpl. rewrite <- Permutation_middle, Hp. apply Permutation_cons_append.
  - destruct (expire_split now w) as (n & -> & ->). split; [| unfold lenZ in *; rewrite length_drop; lia].
    rewrite fmap_app, <- Hp, <- app_assoc, <- list_fmap_compose. apply Permutation_app_head.
    change (fst ∘ _) with pd_reply. by rewrite <- fmap_app, take_drop.
  - destruct (resolve_perm w ctx answer) as [Hr Hl]. split; [| unfold lenZ in *; lia].
    by rewrite fmap_app, <- app_assoc, Hr.
Qed.

Lemma rstep_reach s :
  rtc rstep (mkRequests [] [] []) s ->
  (rq_answered s).*1 ++ (pd_reply <$> rq_waiting s) ≡ₚ rq_asked s /\ lenZ (rq_waiting s) <= cap.
Proof.
  intros Hr. apply (rtc_ind_r (fun s => (rq_answered s).*1 ++ (pd_reply <$> rq_waiting s) ≡ₚ rq_asked s /\ lenZ (rq_waiting s) <= cap) _)
    with (3 := Hr).
  - split; [done |]. unfold lenZ. simpl. lia.
  - intros y z _ Hs Hi. by apply (rstep_inv y).
Qed.
End requests.

(** The owner's three vectors *)
Record Waiting := mkWaiting { wt_reads : Requests (A := Z); wt_props : Requests (A := Z); wt_confs : Requests (A := unit); wt_seq : Z }.

Definition nothing_waits : Waiting := mkWaiting (mkRequests [] [] []) (mkRequests [] [] []) (mkRequests [] [] []) 1.

(** A vector after an operation with its answers, and after a new request *)
Definition answer {A} (r : Requests (A := A)) (res : list Pending * Replies A) : Requests (A := A) :=
  mkRequests res.1 (rq_asked r) (rq_answered r ++ res.2).
Definition ask {A} (r : Requests (A := A)) (reply : Z) (res : list Pending * Replies A) : Requests (A := A) :=
  mkRequests res.1 (rq_asked r ++ [reply]) (rq_answered r ++ res.2).

(** The operations of the owner loop on them, in any order *)
Inductive wstep (encode : ConfChangeCtx -> CatgaRaftResult (list Z)) : Waiting -> Waiting -> Prop :=
| w_queue_read w ctx reply now : wstep encode w
    (mkWaiting (ask (wt_reads w) reply (queue_read (rq_waiting (wt_reads w)) ctx reply now).1) (wt_props w) (wt_confs w) (wt_seq w))
| w_read w ctx index : wstep encode w
    (mkWaiting (answer (wt_reads w) (resolve_read (rq_waiting (wt_reads w)) ctx index)) (wt_props w) (wt_confs w) (wt_seq w))
| w_queue_propose w ctx reply now : wstep encode w
    (mkWaiting (wt_reads w) (ask (wt_props w) reply (queue_propose_wait (rq_waiting (wt_props w)) ctx reply now)) (wt_confs w) (wt_seq w))
| w_propose w ctx index : wstep encode w
    (mkWaiting (wt_reads w) (answer (wt_props w) (resolve_propose_wait (rq_waiting (wt_props w)) ctx index).2) (wt_confs w) (wt_seq w))
| w_conf_request w leader propose op reply now res : 
    res = handle_conf_request encode leader propose (rq_waiting (wt_confs w)) (wt_seq w) op reply now ->
    wstep encode w (mkWaiting (wt_reads w) (wt_props w) (ask (wt_confs w) reply (res.1.1, res.2)) res.1.2)
| w_conf w ctx error : wstep encode w
    (mkWaiting (wt_reads w) (wt_props w) (answer (wt_confs w) (resolve_pending (rq_waiting (wt_confs w)) ctx error)) (wt_seq w))
| w_tick w now : wstep encode w
    (mkWaiting (answer (wt_reads w) (expire_pending_reads now (rq_waiting (wt_reads w))))
       (answer (wt_props w) (expire_pending_proposes now (rq_waiting (wt_props w))))
       (answer (wt_confs w) (expire_pending_confs now (rq_waiting (wt_confs w)))) (wt_seq w)).

Abbreviation rstar cap ttl := (rtc (rstep cap ttl)).

(** Queueing below the cap, or refusing *)
Lemma ask_queue {A} cap ttl (r : Requests (A := A)) ctx now reply :
  lenZ (rq_waiting r) < cap -> rstar cap ttl r (ask r reply (rq_waiting r ++ [mkPending ctx now reply], [])).
Proof. intros Hl. destruct r as [w asked done]. unfold ask. simpl. rewrite app_nil_r. apply rtc_once. by constructor. Qed.

Lemma ask_reject {A} cap ttl (r : Requests (A := A)) reply e : rstar cap ttl r (ask r reply (rq_waiting r, [(reply, Err e)])).
Proof. destruct r as [w asked done]. apply rtc_once. constructor. Qed.

Lemma answer_none {A} cap ttl (r : Requests (A := A)) : rstar cap ttl r (answer r (rq_waiting r, [])).
Proof. destruct r as [w asked done]. unfold answer. simpl. rewrite app_nil_r. apply rtc_refl. Qed.

Lemma answer_resolve {A} cap ttl (r : Requests (A := A)) ctx a : rstar cap ttl r (answer r (resolve (rq_waiting r) ctx a)).
Proof. destruct r as [w asked done]. apply rtc_once. constructor. Qed.

Lemma answer_expire {A} cap ttl now (r : Requests (A := A)) : rstar cap ttl r (answer r (expire ttl now (rq_waiting r))).
Proof. destruct r as [w asked done]. apply rtc_once. constructor. Qed.

Lemma wstep_steps encode w w' :
  wstep encode w w' ->
  rstar MAX_PENDING_READS PENDING_READ_TTL (wt_reads w) (wt_reads w')
  /\ rstar MAX_PENDING_PROPOSES PENDING_PROPOSE_TTL (wt_props w) (wt_props w')
  /\ rstar MAX_PENDING_CONFS PENDING_CONF_TTL (wt_confs w) (wt_confs w').
Proof.
  intros Hs. destruct Hs as [w ctx reply now|w ctx index|w ctx reply now|w ctx index|w leader propose op reply now res ->|w ctx error|w now];
    simpl; (split_and!; try apply rtc_refl; try apply answer_resolve; try apply answer_expire).
  - unfold queue_read. destruct (Z.leb_spec MAX_PENDING_READS (lenZ (rq_waiting (wt_reads w)))); [apply ask_reject | by apply ask_queue].
  - unfold queue_propose_wait. destruct (Z.leb_spec MAX_PENDING_PROPOSES (lenZ (rq_waiting (wt_props w)))); [apply ask_reject | by apply ask_queue].
  - unfold resolve_propose_wait. destruct (bool_decide _); [apply answer_none |].
    destruct (position _ _); [apply answer_resolve | apply answer_none].
  - unfold handle_conf_request. destruct (Z.leb_spec MAX_PENDING_CONFS (lenZ (rq_waiting (wt_confs w)))); [apply ask_reject |].
    destruct op; (destruct leader; cbn [negb]; [| apply ask_reject]); (destruct (encode _); [| apply ask_reject]);
      (destruct (propose _ _ _); [apply ask_reject | by apply ask_queue]).
  - unfold resolve_pending. destruct (bool_decide _); [apply answer_none | apply answer_resolve].
Qed.

(** C38: C: Every request has exactly one answer or still waits: in any order of the owner's
    operations on reads, attributed proposals and membership changes, for each kind the
    answered and the waiting requests together are the ones made, each as often as it was
    made, and no more than its cap wait. *)
Theorem requests_answered_once encode w :
  rtc (wstep encode) nothing_waits w ->
  let exact {A} (r : Requests (A := A)) cap :=
    (rq_answered r).*1 ++ (pd_reply <$> rq_waiting r) ≡ₚ rq_asked r /\ lenZ (rq_waiting r) <= cap in
  exact (wt_reads w) MAX_PENDING_READS /\ exact (wt_props w) MAX_PENDING_PROPOSES /\ exact (wt_confs w) MAX_PENDING_CONFS.
Proof.
  intros Hr exact.
  assert (rstar MAX_PENDING_READS PENDING_READ_TTL (wt_reads nothing_waits) (wt_reads w)
    /\ rstar MAX_PENDING_PROPOSES PENDING_PROPOSE_TTL (wt_props nothing_waits) (wt_props w)
    /\ rstar MAX_PENDING_CONFS PENDING_CONF_TTL (wt_confs nothing_waits) (wt_confs w)) as (H1 & H2 & H3).
  { induction Hr as [w|w w1 w2 Hs _ IH]; [split_and!; apply rtc_refl |]. destruct (wstep_steps _ _ _ Hs) as (? & ? & ?), IH as (? & ? & ?).
    split_and!; by etrans. }
  split_and!; eapply rstep_reach; done.
Qed.

(** Requests in the order they were queued *)
Definition in_order (l : list Pending) : Prop := StronglySorted (fun p q => pd_queued_at p <= pd_queued_at q) l.

(** While a vector is in the order of queueing, expiry is exact: the requests older than the
    time to live fail and the others stay. *)
Theorem expire_exact (A : Type) ttl now l :
  in_order l ->
  expire (A := A) ttl now l
  = (filter (fun p => stale ttl now p = false) l,
     (fun p => (pd_reply p, Err RaftTimeout)) <$> filter (fun p => stale ttl now p = true) l).
Proof.
  intros Ho. assert (exists a b, l = a ++ b /\ Forall (fun p => stale ttl now p = true) a /\ Forall (fun p => stale ttl now p = false) b)
    as (a & b & -> & Ha & Hb).
  { induction Ho as [|p l Ho IH Hp]; [by exists [], [] |]. destruct IH as (a & b & -> & Ha & Hb).
    destruct (stale ttl now p) eqn:Es; [exists (p :: a), b; split_and!; auto |]. exists [], (p :: a ++ b). split_and!; [done | done |].
    constructor; [done |]. eapply Forall_impl; [exact Hp |]. intros q Hq. unfold stale in *. bool_prop. lia. }
  assert (expire (A := A) ttl now (a ++ b) = (b, (fun p => (pd_reply p, Err RaftTimeout)) <$> a)) as ->.
  { unfold expire. destruct (a ++ b) as [|x l] eqn:El; [by apply app_eq_nil in El as [-> ->] |]. rewrite <- El.
    by rewrite partition_point_app, drop_app_length, take_app_length. }
  rewrite !filter_app. rewrite Forall_forall in Ha, Hb. f_equal.
  - rewrite (filter_none _ a), (filter_all _ b); [done | auto |]. intros x Hx. by rewrite (Ha x Hx).
  - rewrite (filter_all _ a), (filter_none _ b); [by rewrite app_nil_r | | auto]. intros x Hx. by rewrite (Hb x Hx).
Qed.

(** *** A match takes the vector out of order *)

Definition second : Z := 10 ^ 9.

(** Reads asked at 0, 1 and 9 seconds; the first is answered. *)
Definition reads : list Pending :=
  [mkPending [1] 0 1; mkPending [2] second 2; mkPending [3] (9 * second) 3].

(** The answer to an early read puts the newest read in its place, and the next expiry then
    fails a read that has waited two of its ten seconds. *)
Theorem fresh_read_timed_out :
  in_order reads /\ pd_queued_at <$> (resolve_read reads [1] 7).1 = [9 * second; second]
  /\ expire_pending_reads (11 * second) (resolve_read reads [1] 7).1 = ([], [(3, Err RaftTimeout); (2, Err RaftTimeout)]).
Proof.
  split_and!; [| by vm_compute | by vm_compute]. unfold in_order, reads. repeat (constructor; simpl); unfold second; lia.
Qed.

Lemma requests_answered_once_witness :
  exists w, rtc (wstep (fun _ => Ok [9])) nothing_waits w /\ rq_waiting (wt_reads w) = [mkPending [2] 5 20]
    /\ rq_answered (wt_reads w) = [(10, Ok 7)] /\ (rq_answered (wt_reads w)).*1 ++ (pd_reply <$> rq_waiting (wt_reads w)) ≡ₚ rq_asked (wt_reads w).
Proof.
  set (none := @mkRequests Z [] [] []). set (noconf := @mkRequests unit [] [] []).
  set (w1 := mkWaiting (mkRequests [mkPending [1] 0 10] [10] []) none noconf 1).
  set (w2 := mkWaiting (mkRequests [mkPending [1] 0 10; mkPending [2] 5 20] [10; 20] []) none noconf 1).
  set (w3 := mkWaiting (mkRequests [mkPending [2] 5 20] [10; 20] [(10, Ok 7)]) none noconf 1).
  assert (rtc (wstep (fun _ => Ok [9])) nothing_waits w3) as Hr.
  { eapply (rtc_l _ _ w1); [exact (w_queue_read _ nothing_waits [1] 10 0) |]. eapply (rtc_l _ _ w2); [exact (w_queue_read _ w1 [2] 20 5) |].
    eapply (rtc_l _ _ w3); [exact (w_read _ w2 [1] 7) |]. apply rtc_refl. }
  exists w3. split; [exact Hr |]. split; [reflexivity |]. split; [reflexivity |].
  exact (proj1 (proj1 (requests_answered_once (fun _ => Ok [9]) w3 Hr))).
Defined.

Lemma expire_exact_witness :
  in_order reads /\ expire_pending_reads (10 * second) reads = ([mkPending [2] second 2; mkPending [3] (9 * second) 3], [(1, Err RaftTimeout)]).
Proof.
  assert (in_order reads) as Ho by (unfold in_order, reads; repeat (constructor; simpl); unfold second; lia).
  split; [exact Ho |]. unfold expire_pending_reads. rewrite (expire_exact Z PENDING_READ_TTL (10 * second) reads Ho). by vm_compute.
Defined.
