(* ===== verification/RaftOwner.v ===== *)
(** * The raft owner loop ([catga-raft/src/owner.rs], [coordinator.rs], [read_barrier] of
    [runtime.rs])

    The owner makes the updates of a [Ready] visible in the storage, hands the durable work to
    a persist worker, and acknowledges a ready to raft when its work is done.  The worker
    groups what is queued behind one drain.  The theorems say that acknowledgements come in
    ready order with none skipped, and what an acknowledged batch leaves on disk. *)

From S2P Require Import Prelude Errors Wire RaftStorage RaftApply RaftPending.

(** ** Persist tasks *)

(** [M] is the type of raft messages. *)
Record PersistTask (M : Type) := mkTask {
  pt_number : Z; pt_hard_state : option HardState; pt_tail_hint : Z; pt_snapshot_index : Z; pt_messages : list M
}.
Arguments mkTask {M} pt_number pt_hard_state pt_tail_hint pt_snapshot_index pt_messages.
Arguments pt_number {M} p.
Arguments pt_hard_state {M} p.
Arguments pt_tail_hint {M} p.
Arguments pt_snapshot_index {M} p.
Arguments pt_messages {M} p.

Record PersistDone (M : Type) := mkDone { dn_number : Z; dn_messages : list M }.
Arguments mkDone {M} dn_number dn_messages.
Arguments dn_number {M} p.
Arguments dn_messages {M} p.

Section owner.
Context {C E S M : Type} `{!RaftMessages C, !RaftEngine E, !ConsensusStateMachine S}.

Abbreviation Store := (@EngineStorage C E).

(** What the tasks of a batch ask for together: the last hard state, the highest tail and the
    snapshots in order *)
Record BatchWork := mkWork { bw_hard_state : option HardState; bw_up_to : Z; bw_snapshots : list Z }.

Definition collect (tasks : list (PersistTask M)) : BatchWork :=
  fold_left (fun w t =>
    mkWork (match pt_hard_state t with Some hs => Some hs | None => bw_hard_state w end)
      (Z.max (bw_up_to w) (pt_tail_hint t))
      (if 0 <? pt_snapshot_index t then bw_snapshots w ++ [pt_snapshot_index t] else bw_snapshots w))
    tasks (mkWork None 0 []).

(** [io n] is the failure of the [n]-th file write, if any. *)
Fixpoint persist_snapshots (s : Store) (indexes : list Z) (io : nat -> option string) (n : nat)
    : CatgaRaftResult unit * Store * nat :=
  match indexes with
  | [] => (Ok tt, s, n)
  | i :: indexes =>
    match persist_snapshot_state s i (io n) with
    | (Err e, s) => (Err e, s, Datatypes.S n)
    | (Ok _, s) => persist_snapshots s indexes io (Datatypes.S n)
    end
  end.

(** The blocking part of [persist_worker] for one batch *)
Definition persist_batch (s : Store) (tasks : list (PersistTask M)) (io : nat -> option string) : CatgaRaftResult unit * Store :=
  let w := collect tasks in
  let '(r, s) := if 0 <? bw_up_to w then drain_visible s (bw_up_to w) else (Ok tt, s) in
  match r with
  | Err e => (Err e, s)
  | Ok _ =>
    let '(r, s, n) := persist_snapshots s (bw_snapshots w) io 0 in
    match r with
    | Err e => (Err e, s)
    | Ok _ => match bw_hard_state w with Some hs => set_hard_state s hs (io n) | None => (Ok tt, s) end
    end
  end.

(** ** The owner's state *)

Record Ready := mkReady {
  rd_number : Z; rd_hs : option HardState; rd_entries : list Entry; rd_snapshot : Snapshot C; rd_persisted_messages : list M
}.

(** The persist channel, the batch the worker has taken, its completions that the owner has
    not seen, the counter, the numbers passed to [on_persist_ready], and whether the worker is
    running *)
Record OwnerState := mkOwner {
  os_store : Store; os_apply : ApplyThread S; os_queue : list (PersistTask M); os_batch : list (PersistTask M);
  os_done : list (PersistDone M); os_in_flight : Z; os_acked : list Z; os_worker : bool
}.

(** Phase 1 of [process_ready] *)
Definition ready_visible (s : Store) (apply : ApplyThread S) (rd : Ready) : CatgaRaftResult unit * Store * ApplyThread S :=
  let '(r, s) := match rd_entries rd with [] => (Ok tt, s) | es => append_visible s es end in
  match r with
  | Err e => (Err e, s, apply)
  | Ok _ =>
    let snapshot_index := sn_index (rd_snapshot rd) in
    if 0 <? snapshot_index then
      match apply_snapshot_visible s (rd_snapshot rd) with
      | (Err e, s) => (Err e, s, apply)
      | (Ok _, s) =>
        match install_snapshot apply (sn_data (rd_snapshot rd)) snapshot_index with
        | (Err e, apply) => (Err (StorageFailed "restore snapshot"), s, apply)
        | (Ok _, apply) => (Ok tt, s, apply)
        end
      end
    else (Ok tt, s, apply)
  end.

(** [process_ready] up to the hand-over of the durable work *)
Definition process_ready (o : OwnerState) (rd : Ready) : CatgaRaftResult unit * OwnerState :=
  let '(r, s, apply) := ready_visible (os_store o) (os_apply o) rd in
  match r with
  | Err e => (Err e, mkOwner s apply (os_queue o) (os_batch o) (os_done o) (os_in_flight o) (os_acked o) (os_worker o))
  | Ok _ =>
    let tail_hint := default 0 (e_index <$> last (rd_entries rd)) in
    let snapshot_index := sn_index (rd_snapshot rd) in
    let nothing_to_persist := negb (bool_decide (is_Some (rd_hs rd))) && (tail_hint =? 0) && (snapshot_index =? 0)
                              && (length (rd_persisted_messages rd) =? 0)%nat in
    if nothing_to_persist && (os_in_flight o =? 0) then
      (Ok tt, mkOwner s apply (os_queue o) (os_batch o) (os_done o) (os_in_flight o) (os_acked o ++ [rd_number rd]) (os_worker o))
    else if os_worker o then
      (Ok tt, mkOwner s apply
                (os_queue o ++ [mkTask (rd_number rd) (rd_hs rd) tail_hint snapshot_index (rd_persisted_messages rd)])
                (os_batch o) (os_done o) (os_in_flight o + 1) (os_acked o) (os_worker o))
    else
      (Ok tt, mkOwner s apply (os_queue o) (os_batch o) (os_done o) (os_in_flight o) (os_acked o) (os_worker o))
  end.

(** The worker takes what is queued, persists it, and reports each ready or stops. *)
Definition worker_take (o : OwnerState) (n : nat) : OwnerState :=
  mkOwner (os_store o) (os_apply o) (drop n (os_queue o)) (take n (os_queue o)) (os_done o) (os_in_flight o) (os_acked o) (os_worker o).

Definition worker_persist (o : OwnerState) (io : nat -> option string) : OwnerState :=
  let '(r, s) := persist_batch (os_store o) (os_batch o) io in
  match r with
  | Ok _ => mkOwner s (os_apply o) (os_queue o) [] (os_done o ++ ((fun t => mkDone (pt_number t) (pt_messages t)) <$> os_batch o))
              (os_in_flight o) (os_acked o) true
  | Err _ => mkOwner s (os_apply o) [] [] (os_done o) (os_in_flight o) (os_acked o) false
  end.

(** The owner sees a completion. *)
Definition handle_persist_done (o : OwnerState) : OwnerState :=
  match os_done o with
  | [] => o
  | d :: done => mkOwner (os_store o) (os_apply o) (os_queue o) (os_batch o) done (Z.max 0 (os_in_flight o - 1))
                   (os_acked o ++ [dn_number d]) (os_worker o)
  end.

(** *** Interleavings; [taken] are the numbers of the readies that were processed, in order *)

Inductive ostep : OwnerState * list Z -> OwnerState * list Z -> Prop :=
| o_ready o taken rd : ostep (o, taken) ((process_ready o rd).2, if is_ok (process_ready o rd).1 then taken ++ [rd_number rd] else taken)
| o_take o taken n : os_worker o = true -> os_batch o = [] -> (0 < n <= length (os_queue o))%nat ->
    ostep (o, taken) (worker_take o n, taken)
| o_persist o taken io : os_batch o <> [] -> ostep (o, taken) (worker_persist o io, taken)
| o_done o taken : ostep (o, taken) (handle_persist_done o, taken).

Definition owner_start (s : Store) (apply : ApplyThread S) : OwnerState := mkOwner s apply [] [] [] 0 [] true.

(** [lost] are the readies behind a worker that stopped. *)
Definition owner_inv (ot : OwnerState * list Z) : Prop :=
  let '(o, taken) := ot in
  if os_worker o
  then taken = os_acked o ++ (dn_number <$> os_done o) ++ (pt_number <$> os_batch o) ++ (pt_number <$> os_queue o)
       /\ os_in_flight o = lenZ (os_done o) + lenZ (os_batch o) + lenZ (os_queue o)
  else (exists lost, taken = os_acked o ++ (dn_number <$> os_done o) ++ lost)
       /\ lenZ (os_done o) < os_in_flight o /\ os_batch o = [] /\ os_queue o = [].

Lemma process_ready_inv o taken rd :
  owner_inv (o, taken) ->
  owner_inv ((process_ready o rd).2, if is_ok (process_ready o rd).1 then taken ++ [rd_number rd] else taken).
Proof.
  intros Hi. unfold process_ready. destruct (ready_visible _ _ _) as [[[u|e] s] apply]; [| exact Hi].
  match goal with |- context [?n && (os_in_flight o =? 0)] => generalize n; intros nothing end. unfold owner_inv in *. destruct (os_worker o) eqn:Ew.
  - destruct Hi as [Ht Hf]. destruct (nothing && (os_in_flight o =? 0)) eqn:En; simpl; rewrite ?Ew.
    + apply andb_true_iff in En as [_ En]. apply Z.eqb_eq in En. pose proof (lenZ_nonneg (os_done o)). pose proof (lenZ_nonneg (os_batch o)). pose proof (lenZ_nonneg (os_queue o)).
      assert (os_done o = []) as Ed by (apply lenZ_zero; lia). assert (os_batch o = []) as Eb by (apply lenZ_zero; lia).
      assert (os_queue o = []) as Eq by (apply lenZ_zero; lia). rewrite Ed, Eb, Eq in *. simpl in *. rewrite !app_nil_r in *.
      by rewrite Ht.
    + rewrite fmap_app, Ht, lenZ_app, <- !app_assoc. split; [done |]. unfold lenZ in *. simpl. lia.
  - destruct Hi as ((lost & Ht) & Hf & Hb & Hq). pose proof (lenZ_nonneg (os_done o)).
    assert ((nothing && (os_in_flight o =? 0)) = false) as -> by (apply andb_false_iff; right; apply Z.eqb_neq; lia).
    simpl. rewrite ?Ew. split_and!; try done. exists (lost ++ [rd_number rd]). by rewrite Ht, <- !app_assoc.
Qed.

Lemma owner_step_inv ot ot' : ostep ot ot' -> owner_inv ot -> owner_inv ot'.
Proof.
  intros Hstep Hi. destruct Hstep as [o taken rd|o taken n Hw Hb Hn|o taken io Hb|o taken].
  - by apply process_ready_inv.
  - unfold owner_inv, worker_take in *. simpl. rewrite Hw in *. destruct Hi as [Ht Hf]. rewrite Hb in *. simpl in *.
    split; [by rewrite Ht, <- fmap_app, take_drop |]. rewrite Hf. unfold lenZ. simpl. rewrite length_take, length_drop. lia.
  - unfold owner_inv, worker_persist in *. destruct (persist_batch _ _ _) as [[u|e] s]; simpl.
    + destruct (os_worker o) eqn:Ew; [| by destruct Hi as (_ & _ & ? & _)]. destruct Hi as [Ht Hf].
      rewrite fmap_app, <- list_fmap_compose, Ht, <- app_assoc, lenZ_app. split; [done |]. unfold lenZ in *. rewrite length_fmap. simpl. lia.
    + destruct (os_worker o) eqn:Ew; [| by destruct Hi as (_ & _ & ? & _)]. destruct Hi as [Ht Hf]. split_and!; [by eexists | | done | done].
      pose proof (lenZ_pos _ Hb). pose proof (lenZ_nonneg (os_queue o)). lia.
  - unfold owner_inv, handle_persist_done in *. destruct (os_done o) as [|d done] eqn:Ed; [by rewrite Ed |]. simpl.
    change (d :: done) with ([d] ++ done) in Hi. rewrite fmap_app, lenZ_app in Hi. change (lenZ [d]) with 1 in Hi.
    pose proof (lenZ_nonneg done). pose proof (lenZ_nonneg (os_batch o)). pose proof (lenZ_nonneg (os_queue o)).
    destruct (os_worker o).
    + destruct Hi as [-> Hf]. split; [by rewrite <- !app_assoc | lia].
    + destruct Hi as ((lost & ->) & Hf & Hb & Hq). split_and!; try done; [| lia]. exists lost. by rewrite <- !app_assoc.
Qed.

(** C29: C: Readies are acknowledged in the order raft gave them, with none skipped: however the
    owner and the persist worker interleave, with failing appends, restores and file or engine
    writes, the numbers passed to [on_persist_ready] are a prefix of the numbers of the
    readies that were processed; a ready acknowledged without the worker never overtakes one
    that is still being persisted. *)
Theorem acks_in_order s apply o taken :
  rtc ostep (owner_start s apply, []) (o, taken) -> os_acked o `prefix_of` taken.
Proof.
  intros Hr. assert (owner_inv (o, taken)) as Hi.
  { apply (rtc_ind_r owner_inv _) with (3 := Hr); [done |]. intros y z _ Hs Hy. by apply (owner_step_inv y). }
  unfold owner_inv in Hi. destruct (os_worker o).
  - destruct Hi as [-> _]. by apply prefix_app_r.
  - destruct Hi as ((lost & ->) & _). by apply prefix_app_r.
Qed.

(** ** What a batch leaves on disk *)

(** A step of the worker that leaves the log as it is *)
Definition settled (s : Store) : Prop := machine_inv (mkMachine s None) /\ grow_inv (mkMachine s None).

Lemma quiet_step (m m' : @Machine C E) :
  mstep m LOther m' -> machine_inv m -> grow_inv m -> machine_inv m' /\ grow_inv m' /\ abs (m_store m') = abs (m_store m).
Proof.
  intros Hs Hm Hg. destruct (mstep_refines _ _ _ Hs Hm) as [Hm' Ha]. split_and!; [done | | done].
  by apply (mstep_grows m LOther).
Qed.

(** A drain that succeeds makes everything up to its argument durable. *)
Lemma drain_settles (s s' : Store) up_to :
  settled s -> drain_visible s up_to = (Ok tt, s') ->
  settled s' /\ abs s' = abs s /\ Z.min up_to (last_index_internal s) < overlay_start s'
  /\ s_file s' = s_file s /\ c_conf (s_core s') = c_conf (s_core s) /\ c_snapshot_index (s_core s') = c_snapshot_index (s_core s).
Proof.
  intros [Hm Hg] Hd. pose proof (mi_store _ Hm) as Hs. pose proof Hs as [I1 I2 I3 I4 I5 I6]. simpl in *.
  unfold drain_visible in Hd. destruct (drain_copy s up_to) as [|x D'] eqn:Ec.
  - injection Hd as <-. split_and!; try done. unfold drain_copy in Ec. unfold overlay_start in *.
    destruct (o_entries (s_overlay s)) as [|y o]; [lia |]. simpl in Ec. destruct (Z.leb_spec (e_index y) up_to); [done |].
    apply run_cons in I4 as [? _]. lia.
  - rewrite <- Ec in Hd. assert (drain_copy s up_to <> []) as Hn by (by rewrite Ec). set (D := drain_copy s up_to) in *.
    destruct (quiet_step _ _ (step_drain_copy s up_to Hn) Hm Hg) as (Hm1 & Hg1 & _).
    destruct (quiet_step _ _ (step_drain_write s D) Hm1 Hg1) as (Hm2 & Hg2 & Ha2). simpl in Ha2.
    destruct (drain_copy_run s up_to Hs Hn) as (HrD & _ & Est). fold D in HrD.
    destruct (drain_write s D) as [[u|e] s2] eqn:Ew; [| done]. simpl in Hm2, Hg2, Ha2. injection Hd as <-.
    destruct (quiet_step _ _ (step_drain_finish s2 D) Hm2 Hg2) as (Hm3 & Hg3 & Ha3). simpl in Ha3.
    unfold drain_write in Ew. destruct (eng_write (s_engine s) D) as [r e']. injection Ew as _ <-.
    split_and!; [by split | congruence | | done | done | done].
    destruct Hg3 as (Hdur & _). simpl in Hdur. destruct (run_last _ _ HrD Hn) as (y & Hy & Hyi). rewrite Hy in Hdur. simpl in Hdur.
    assert (D = below (up_to + 1) (o_entries (s_overlay s))) as HD by (by unfold D, drain_copy; rewrite (take_while_below _ _ _ I4)).
    rewrite Est in *. assert (Z.min (up_to + 1) (o_offset (s_overlay s) + lenZ (o_entries (s_overlay s))) <= o_offset (s_overlay s) + lenZ D).
    { destruct (decide (o_offset (s_overlay s) <= up_to + 1 <= o_offset (s_overlay s) + lenZ (o_entries (s_overlay s)))) as [Hin|Hout].
      - destruct (run_split _ _ _ I4 Hin) as (a & b & _ & Hla & Hb & _). rewrite HD, Hb. lia.
      - pose proof (lenZ_nonneg D). destruct (decide (up_to + 1 < o_offset (s_overlay s))); [lia |].
        rewrite HD, (below_all _ _ _ I4) by lia. lia. }
    lia.
Qed.

Lemma snapshots_settle (s : Store) indexes io n r s' n' :
  settled s -> Forall (fun i => i <= c_snapshot_index (s_core s)) indexes -> persist_snapshots s indexes io n = (r, s', n') ->
  settled s' /\ abs s' = abs s /\ overlay_start s' = overlay_start s
  /\ c_conf (s_core s') = c_conf (s_core s) /\ s_engine s' = s_engine s.
Proof.
  revert s n. induction indexes as [|i indexes IH]; intros s n [Hm Hg] Hi Hp; simpl in Hp; [by injection Hp as <- <- <- |].
  apply Forall_cons in Hi as [Hle Hi].
  destruct (quiet_step _ _ (step_persist_snapshot s None i (io n) Hle) Hm Hg) as (Hm1 & Hg1 & Ha1). simpl in Ha1.
  assert (s_overlay (persist_snapshot_state s i (io n)).2 = s_overlay s
          /\ c_snapshot_index (s_core (persist_snapshot_state s i (io n)).2) = c_snapshot_index (s_core s)
          /\ c_last_valid (s_core (persist_snapshot_state s i (io n)).2) = c_last_valid (s_core s)
          /\ c_conf (s_core (persist_snapshot_state s i (io n)).2) = c_conf (s_core s)
          /\ s_engine (persist_snapshot_state s i (io n)).2 = s_engine s) as (E1 & E2 & E3 & E4 & E5) by (by destruct (io n)).
  assert (overlay_start (persist_snapshot_state s i (io n)).2 = overlay_start s) as E6
    by (unfold overlay_start, last_index_internal; by rewrite E1, E2, E3).
  destruct (persist_snapshot_state s i (io n)) as [[u|e] s1]; simpl in *.
  - destruct (IH s1 (Datatypes.S n) (conj Hm1 Hg1) ltac:(by rewrite E2) Hp) as (? & ? & ? & ? & ?). split_and!; [done | congruence ..].
  - injection Hp as <- <- <-. split_and!; done.
Qed.

(** An acknowledged batch that carries a hard state survives a restart: when the log has only
    grown and the worker's batch succeeds, reopening the files on disk gives that hard state,
    the same membership, and the log with at least every entry up to the highest tail of the
    batch. *)
Theorem batch_durable (s : Store) tasks io s' hs bootstrap io' :
  settled s -> bw_hard_state (collect tasks) = Some hs ->
  Forall (fun i => i <= c_snapshot_index (s_core s)) (bw_snapshots (collect tasks)) ->
  persist_batch s tasks io = (Ok tt, s') -> core_fits (s_core s') -> c_conf (s_core s) <> conf_default ->
  exists s'', storage_open (s_engine s') (s_file s') bootstrap io' = Ok s''
    /\ initial_state s'' = (hs, c_conf (s_core s))
    /\ serves s'' (mkLog (l_snap (abs s)) (l_snap_term (abs s)) (l_first (abs s)) (below (overlay_start s') (l_entries (abs s))))
    /\ Z.min (bw_up_to (collect tasks)) (l_last (abs s)) < overlay_start s'.
Proof.
  intros Hset Hhs Hsn Hp Hfit Hconf. unfold persist_batch in Hp.
  assert (exists s1, (if 0 <? bw_up_to (collect tasks) then drain_visible s (bw_up_to (collect tasks)) else (Ok tt, s)) = (Ok tt, s1)
    /\ settled s1 /\ abs s1 = abs s /\ Z.min (bw_up_to (collect tasks)) (last_index_internal s) < overlay_start s1
    /\ c_conf (s_core s1) = c_conf (s_core s) /\ c_snapshot_index (s_core s1) = c_snapshot_index (s_core s)) as (s1 & E1 & Hs1 & Ha1 & Hu & Hc1 & Hi1).
  { destruct (Z.ltb_spec 0 (bw_up_to (collect tasks))).
    - destruct (drain_visible s _) as [[[]|e] s1] eqn:Ed; [| done]. destruct (drain_settles s s1 _ Hset Ed) as (? & ? & ? & _ & ? & ?).
      exists s1. by split_and!.
    - exists s. split_and!; try done. destruct Hset as [Hm _]. destruct (mi_store _ Hm) as [H1 _ _ _ H5 _]. simpl in *. lia. }
  rewrite E1 in Hp. destruct (persist_snapshots s1 _ io 0) as [[r s2] n] eqn:Ep. rewrite <- Hi1 in Hsn.
  destruct (snapshots_settle s1 _ io 0 r s2 n Hs1 Hsn Ep) as ([Hm2 Hg2] & Ha2 & Hst & Hc2 & _). destruct r; [| done]. rewrite Hhs in Hp.
  destruct (quiet_step _ _ (step_hard s2 None hs (io n)) Hm2 Hg2) as (Hm3 & Hg3 & Ha3). unfold set_hard_state in *.
  destruct (io n) as [e|]; [done |]. simpl in Hp, Hm3, Hg3, Ha3. injection Hp as <-. set (s3 := mkStorage _ _ _ _) in *.
  destruct (grow_honest _ Hm3 Hg3) as [Ht Hon]. cbn [m_store] in Ht, Hon. exists (reopened s3).
  assert (c_conf (s_core s3) = c_conf (s_core s)) as Hc3 by (simpl; congruence).
  split_and!; [apply open_persisted; [done | by rewrite Hc3] | unfold initial_state; simpl; congruence | |].
  - destruct (reopened_log s3 (mi_store _ Hm3) Hon) as [Hs' Hr]. rewrite Ht in Hr.
    replace (overlay_start s3 - 1 + 1) with (overlay_start s3) in Hr by lia. rewrite <- Ha1, <- Ha2, <- Ha3.
    change (mkLog (l_snap (abs s3)) (l_snap_term (abs s3)) (l_first (abs s3)) (below (overlay_start s3) (l_entries (abs s3))))
      with (mkLog (c_snapshot_index (s_core s3)) (c_snapshot_term (s_core s3)) (first_index_internal s3) (below (overlay_start s3) (l_entries (abs s3)))).
    rewrite <- Hr. by apply inv_serves.
  - destruct Hset as [Hm _]. rewrite (abs_last s (mi_store _ Hm)). change (overlay_start s3) with (overlay_start s2). rewrite Hst. done.
Qed.

(** A batch without a hard state or a snapshot does not write the file. *)
Lemma batch_leaves_file (s : Store) tasks io :
  bw_hard_state (collect tasks) = None -> bw_snapshots (collect tasks) = [] -> s_file (persist_batch s tasks io).2 = s_file s.
Proof.
  intros H1 H2. unfold persist_batch. rewrite H1, H2. simpl.
  assert (s_file (drain_visible s (bw_up_to (collect tasks))).2 = s_file s) as Hd.
  { unfold drain_visible. destruct (drain_copy s _) as [|x D]; [done |]. unfold drain_write. by destruct (eng_write _ _) as [[]]. }
  destruct (0 <? _); [| done]. by destruct (drain_visible s _) as [[] ?].
Qed.
End owner.

(** ** Leadership and membership *)

Inductive StateRole := Follower | Candidate | Leader | PreCandidate.

Record CatgaRaftCoordinator := mkCoordinator {
  co_node_id : string; co_is_leader : bool; co_leader_endpoint : option string; co_members : list string
}.

Definition coordinator_new (node_id : string) : CatgaRaftCoordinator := mkCoordinator node_id false None [].

Definition set_leader (c : CatgaRaftCoordinator) (endpoint : option string) : CatgaRaftCoordinator :=
  mkCoordinator (co_node_id c) (bool_decide (is_Some endpoint)) endpoint (co_members c).

Definition set_members (c : CatgaRaftCoordinator) (members : list string) : CatgaRaftCoordinator :=
  mkCoordinator (co_node_id c) (co_is_leader c) (co_leader_endpoint c) members.

Definition update_leadership (c : CatgaRaftCoordinator) (state : StateRole) (leader_id : Z)
    (self_endpoint : option string) (peers : gmap Z string) : CatgaRaftCoordinator :=
  let endpoint := match state with
                  | Leader => self_endpoint
                  | _ => if negb (leader_id =? 0) then peers !! leader_id else None
                  end in
  set_leader c endpoint.

(** Every node that knows the leader's address says that it is the leader: a follower of a
    known peer, a candidate or a leader with an address all report leadership, and a leader
    without one does not, although the coordinator documents the flag as this node's own
    leadership. *)
Theorem leadership_is_knowledge c state leader_id self_endpoint peers endpoint :
  state <> Leader -> leader_id <> 0 -> peers !! leader_id = Some endpoint ->
  co_is_leader (update_leadership c state leader_id self_endpoint peers) = true
  /\ co_is_leader (update_leadership c Leader leader_id None peers) = false.
Proof.
  intros Hs Hl Hp. unfold update_leadership. rewrite (proj2 (Z.eqb_neq _ _) Hl). cbn [negb]. rewrite Hp.
  split; [by destruct state | done].
Qed.

(** [group_by_to]: the messages that encode, by receiver and in order; [to] and [encode] are
    the message library's. *)
Definition group_by_to {M : Type} (to : M -> Z) (encode : M -> option (list Z)) (messages : list M) : gmap Z (list (list Z)) :=
  fold_left (fun grouped msg =>
    match encode msg with
    | Some bytes => <[to msg := default [] (grouped !! to msg) ++ [bytes]]> grouped
    | None => grouped
    end) messages ∅.

Lemma group_by_to_spec {M : Type} (to : M -> Z) encode (messages : list M) r :
  default [] (group_by_to to encode messages !! r) = omap encode (filter (fun m => to m = r) messages).
Proof.
  unfold group_by_to. match goal with |- context [fold_left ?f] => set (step := f) end.
  assert (forall g, default [] (fold_left step messages g !! r) = default [] (g !! r) ++ omap encode (filter (fun m => to m = r) messages)) as H;
    [| by rewrite H, lookup_empty].
  induction messages as [|m l IH]; intros g; [by rewrite app_nil_r |]. cbn [fold_left]. rewrite IH. unfold step at 1.
  destruct (decide (to m = r)) as [<-|Hne].
  - rewrite filter_cons_True by done. simpl. destruct (encode m); [| done]. rewrite lookup_insert_eq. cbn [default]. unfold id. by rewrite <- app_assoc.
  - rewrite filter_cons_False by done. destruct (encode m); [| done]. by rewrite lookup_insert_ne by done.
Qed.

(** ** Committed entries *)

(** A configuration change as [apply_conf_entry] normalizes it; [None] when it does not decode *)
Record ConfEntry := mkConfEntry { ce_change : ConfChangeType; ce_target : Z; ce_context : list Z }.

Inductive CommittedEntry :=
| NormalEntry (index : Z) (context data : list Z)
| ConfChangeEntry (index : Z) (context : list Z) (decoded : option ConfEntry).

(** What the loop does with them *)
Inductive CommittedAct := ActSend (index : Z) (data : list Z) | ActConf (index : Z) (context : list Z) (decoded : option ConfEntry).

(** [apply_committed]: the attributed proposals answered, and the entries handed on *)
Fixpoint apply_committed (pending_props : list Pending) (entries : list CommittedEntry)
    : list Pending * Replies Z * list CommittedAct :=
  match entries with
  | [] => (pending_props, [], [])
  | NormalEntry index context data :: entries =>
    let '(_, (pending_props, replies)) := resolve_propose_wait pending_props context index in
    let '(pending_props, more, acts) := apply_committed pending_props entries in
    (pending_props, replies ++ more, (if bool_decide (data = []) then acts else ActSend index data :: acts))
  | ConfChangeEntry index context decoded :: entries =>
    let '(pending_props, more, acts) := apply_committed pending_props entries in
    (pending_props, more, ActConf index context decoded :: acts)
  end.

Section conf.
Context {C E S : Type} `{!RaftMessages C, !RaftEngine E, !ConsensusStateMachine S}.

(** What a configuration entry changes: storage, apply frontier, transport and peer tables,
    coordinator and waiting requests *)
Record ConfState := mkConfState {
  cf_store : @EngineStorage C E; cf_apply : ApplyThread S; cf_transport : gset Z; cf_peers : gmap Z string;
  cf_coordinator : CatgaRaftCoordinator; cf_pending : list Pending
}.

(** [apply_conf_entry]: [raft] is what [apply_conf_change] returns, [decode_ctx] the context
    deserializer, [local] this node, [add_fails] and [remove_fails] the transport's errors.
    The members are the values of a hash map, in no particular order. *)
Definition apply_conf_entry (raft : CatgaRaftResult C) (decode_ctx : list Z -> option ConfChangeCtx) (local : Z)
    (add_fails remove_fails : bool) (io : option string) (st : ConfState) (index : Z) (entry_ctx : list Z) (decoded : option ConfEntry)
    : ConfState * Replies unit :=
  match decoded with
  | None => (st, [])
  | Some ce =>
    match raft with
    | Err e =>
      let '(pending, replies) := resolve_pending (cf_pending st) entry_ctx (Some e) in
      (mkConfState (cf_store st) (advance_applied_index (cf_apply st) index) (cf_transport st) (cf_peers st) (cf_coordinator st) pending,
       replies)
    | Ok conf_state =>
      let store := (set_conf_state (cf_store st) conf_state io).2 in
      let target := ce_target ce in
      let '(transport, peers) :=
        if target =? 0 then (cf_transport st, cf_peers st)
        else
          let endpoint := match decode_ctx (ce_context ce) with Some ctx => cc_endpoint ctx | None => ""%string end in
          match ce_change ce with
          | AddNode | AddLearnerNode =>
            if bool_decide (endpoint = ""%string) then (cf_transport st, cf_peers st)
            else (if negb (target =? local) && negb add_fails then {[target]} ∪ cf_transport st else cf_transport st,
                  <[target := endpoint]> (cf_peers st))
          | RemoveNode =>
            (if bool_decide (target ∈ cf_transport st) && negb remove_fails then cf_transport st ∖ {[target]} else cf_transport st,
             delete target (cf_peers st))
          end in
      let coordinator := if target =? 0 then cf_coordinator st else set_members (cf_coordinator st) (map_to_list peers).*2 in
      let '(pending, replies) := resolve_pending (cf_pending st) entry_ctx None in
      (mkConfState store (advance_applied_index (cf_apply st) index) transport peers coordinator pending, replies)
    end
  end.

(** An entry that raft accepts moves the frontier past it, records the membership and answers
    its request; an undecodable one changes nothing, so the frontier stays below it. *)
Lemma apply_conf_entry_spec raft decode_ctx local af rf io st index ctx ce :
  let '(st', replies) := apply_conf_entry raft decode_ctx local af rf io st index ctx (Some ce) in
  index <= at_applied_index (cf_apply st')
  /\ (forall conf, raft = Ok conf -> c_conf (s_core (cf_store st')) = conf)
  /\ (ce_target ce <> 0 -> is_ok raft = true -> co_members (cf_coordinator st') = (map_to_list (cf_peers st')).*2)
  /\ replies.*1 ++ (pd_reply <$> cf_pending st') ≡ₚ pd_reply <$> cf_pending st.
Proof.
  unfold apply_conf_entry. destruct raft as [conf|e].
  - match goal with |- context [if ce_target ce =? 0 then (cf_transport st, cf_peers st) else ?y] =>
      destruct (if ce_target ce =? 0 then (cf_transport st, cf_peers st) else y) as [transport peers] end.
    destruct (resolve_pending (cf_pending st) ctx None) as [pending replies] eqn:Er. simpl. split_and!.
    + lia.
    + intros conf' [= <-]. by destruct io.
    + intros Ht _. by rewrite (proj2 (Z.eqb_neq _ _) Ht).
    + unfold resolve_pending in Er. destruct (bool_decide _); [by injection Er as <- <- |].
      change pending with (pending, replies).1. change replies with (pending, replies).2 at 1. rewrite <- Er. apply resolve_perm.
  - destruct (resolve_pending (cf_pending st) ctx (Some e)) as [pending replies] eqn:Er. simpl. split_and!; [lia | done | done |].
    unfold resolve_pending in Er. destruct (bool_decide _); [by injection Er as <- <- |].
    change pending with (pending, replies).1. change replies with (pending, replies).2 at 1. rewrite <- Er. apply resolve_perm.
Qed.
End conf.

(** [read_barrier] once raft has confirmed [index]: the samples are the applied index and the
    remaining time at each turn of its loop; running out of samples is still waiting. *)
Fixpoint read_barrier (index : Z) (samples : list (Z * Z)) : option (CatgaRaftResult Z) :=
  match samples with
  | [] => None
  | (applied, remaining) :: samples =>
    if index <=? applied then Some (Ok index)
    else if remaining =? 0 then Some (Err RaftTimeout)
    else read_barrier index samples
  end.

(** An entry without data, such as the one a new leader commits, is handed to nobody. *)
Lemma empty_entry_not_applied props index : (apply_committed props [NormalEntry index [] []]).2 = [].
Proof. done. Qed.

Lemma read_barrier_waits index samples :
  Forall (fun s => s.1 < index) samples -> read_barrier index samples <> Some (Ok index).
Proof.
  induction 1 as [|[a r] samples Ha _ IH]; simpl in *; [done |]. rewrite (proj2 (Z.leb_gt _ _)) by lia. by destruct (r =? 0).
Qed.

(** *** Witnesses *)

Import ListEngine.

Definition one_ready : @Ready (list Z) unit := mkReady 1 (Some (mkHardState 1 1 0)) [entry 1 1; entry 2 1] (mkSnapshot [] 0 0 []) [].
Definition empty_ready (n : Z) : @Ready (list Z) unit := mkReady n None [] (mkSnapshot [] 0 0 []) [].

Lemma acks_in_order_witness :
  exists o : @OwnerState (list Z) (list Entry) (list Z) unit, rtc ostep (owner_start fresh (apply_new []), []) (o, [1; 2; 3]) /\ os_acked o = [1; 2]
    /\ os_acked o `prefix_of` [1; 2; 3].
Proof.
  set (o0 := owner_start (M := unit) fresh (apply_new ([] : list Z))). set (o1 := (process_ready o0 one_ready).2).
  set (o2 := (process_ready o1 (empty_ready 2)).2). set (o3 := worker_take o2 2). set (o4 := worker_persist o3 (fun _ => None)).
  set (o5 := handle_persist_done o4). set (o6 := (process_ready o5 (empty_ready 3)).2). set (o7 := handle_persist_done o6).
  assert (rtc ostep (o0, []) (o7, [1; 2; 3])) as Hr.
  { eapply rtc_l; [apply (o_ready o0 [] one_ready) |]. eapply rtc_l; [apply (o_ready o1 [1] (empty_ready 2)) |].
    eapply rtc_l; [apply (o_take o2 [1; 2] 2); [vm_compute; reflexivity | vm_compute; reflexivity | vm_compute; lia] |].
    eapply rtc_l; [apply (o_persist o3 [1; 2] (fun _ => None)); vm_compute; discriminate |].
    eapply rtc_l; [apply (o_done o4) |]. eapply rtc_l; [apply (o_ready o5 [1; 2] (empty_ready 3)) |].
    eapply rtc_l; [apply (o_done o6) |]. apply rtc_refl. }
  exists o7. split; [exact Hr |]. split; [vm_compute; reflexivity |].
  exact (acks_in_order fresh (apply_new ([] : list Z)) o7 [1; 2; 3] Hr).
Defined.

Lemma leadership_is_knowledge_witness :
  co_is_leader (update_leadership (coordinator_new "node-1") Follower 2 (Some "a:1"%string) {[2 := "b:1"%string]}) = true.
Proof. exact (proj1 (leadership_is_knowledge (coordinator_new "node-1") Follower 2 (Some "a:1"%string) {[2 := "b:1"%string]} "b:1"%string
  ltac:(discriminate) ltac:(discriminate) ltac:(vm_compute; reflexivity))). Defined.

Definition visible_store : ListEngine.Store := (append_visible fresh [entry 1 1; entry 2 1]).2.
Definition one_batch : list (PersistTask unit) := [mkTask 1 (Some (mkHardState 1 1 0)) 2 0 []].

Lemma visible_settled : settled visible_store.
Proof.
  assert (ghistory (mkMachine fresh None) [LAppend [entry 1 1; entry 2 1]] (mkMachine visible_store None)) as Hh.
  { change [LAppend [entry 1 1; entry 2 1]] with ([] ++ [LAppend [entry 1 1; entry 2 1]]).
    eapply ghistory_snoc; [constructor | apply step_append | vm_compute; reflexivity].
    apply (one_append _ 1 run_two); [done | vm_compute; split; discriminate]. }
  destruct (@open_fresh (list Z) (list Entry) list_messages list_engine [] (Some [1; 2; 3]) None fresh eq_refl ltac:(vm_compute; reflexivity)) as [Hm _].
  exact (ghistory_inv _ _ _ Hh Hm (@open_grows (list Z) (list Entry) list_messages [] (Some [1; 2; 3]) None fresh ltac:(vm_compute; reflexivity))).
Qed.

Lemma batch_durable_witness :
  exists s'', storage_open (s_engine (persist_batch visible_store one_batch (fun _ => None)).2)
      (s_file (persist_batch visible_store one_batch (fun _ => None)).2) None None = Ok s''
    /\ initial_state s'' = (mkHardState 1 1 0, [1; 2; 3]).
Proof.
  destruct (batch_durable visible_store one_batch (fun _ => None) (persist_batch visible_store one_batch (fun _ => None)).2
    (mkHardState 1 1 0) None None visible_settled ltac:(vm_compute; reflexivity) ltac:(vm_compute; constructor)
    ltac:(vm_compute; reflexivity) ltac:(vm_compute; repeat split; discriminate) ltac:(vm_compute; discriminate)) as (s'' & H1 & H2 & _).
  exists s''. split; [exact H1 | exact H2].
Defined.
