(* ===== verification/Dsl.v ===== *)
(** * The flow DSL ([flow/dsl.rs], [flow/dsl_step.rs], [flow/dsl_lifecycle.rs])

    A [DslFlow] is a list of steps over one mutable state of the application's type [St].
    A closure of the source that takes [&mut S] and returns a future is a function from the
    state to the state it leaves behind and its result; the state is left behind whether the
    closure succeeds or fails.  What a run does besides is its list of notes: the lifecycle
    events each observer is given, the flow counters, the delays slept before a retry and the
    rollback failures that are only logged.

    Where the order in which concurrent futures complete matters, it is an argument: [race]
    for [when_any], [arrivals] for the concurrent stream loop.  The notes of branches that run
    at the same time are listed branch by branch. *)

From stdpp Require Import sorting.
From S2P Require Import Prelude Utf8 Errors Time FlowExec.

(** ** Lifecycle *)

Inductive DslFlowLifecycleEvent :=
| StepSucceeded (step_index : nat)
| StepFailed (step_index : nat) (error : CatgaError)
| FlowSucceeded
| FlowFailed (error : CatgaError).

Inductive FlowCounter := FLOWS_STARTED | FLOWS_COMPLETED | FLOWS_FAILED.

Inductive Note :=
| Observed (observer : nat) (event : DslFlowLifecycleEvent)
| Counted (counter : FlowCounter)
| Slept (delay : Duration)
| RollbackFailed (step_index : nat) (error : CatgaError).

(** ** Retry delays ([resilience.rs]) *)

Definition DURATION_MAX : Duration := 2 ^ 64 * NANOS_PER_SEC - 1.

Definition duration_saturating_mul (d : Duration) (m : Z) : Duration := Z.min DURATION_MAX (d * m).

Definition retry_multiplier (retry : Z) : Z :=
  if fits u32 retry then if retry <? 32 then 2 ^ retry else int_max u32 else int_max u32.

Definition retry_delay (initial_delay : Duration) (retry : Z) : Duration :=
  duration_saturating_mul initial_delay (retry_multiplier retry).

Definition MAX_DSL_PARALLEL_BRANCHES : nat := 64.

Definition validate_parallel_branch_count (count : nat) : CatgaResult unit :=
  if (MAX_DSL_PARALLEL_BRANCHES <? count)%nat
  then fail Validation "DSL parallel branch count exceeds the supported limit"
  else Ok tt.

Section dsl.
Context {St : Type}.

(** ** Closures *)

Definition Action := St -> St * CatgaResult unit.

(** An action driven for at most a duration: [None] when it is still pending then *)
Definition TimedAction := Duration -> St -> St * option (CatgaResult unit).

Record ReplayableForEach := mkReplayable {
  rf_select : St -> CatgaResult (list (list Z));
  rf_action : St -> list Z -> St * CatgaResult unit;
  rf_on_error : option (St -> nat -> CatgaError -> St * CatgaResult unit)
}.

Record DslFlowLifecycleHooks := mkHooks {
  step_succeeded : option (St -> nat -> CatgaResult unit);
  step_failed : option (St -> nat -> CatgaError -> CatgaResult unit);
  flow_succeeded : option (St -> CatgaResult unit);
  flow_failed : option (St -> CatgaError -> CatgaResult unit)
}.

Definition hooks_new : DslFlowLifecycleHooks := mkHooks None None None None.
Definition on_step_succeeded (h : DslFlowLifecycleHooks) hook :=
  mkHooks (Some hook) (step_failed h) (flow_succeeded h) (flow_failed h).
Definition on_step_failed (h : DslFlowLifecycleHooks) hook :=
  mkHooks (step_succeeded h) (Some hook) (flow_succeeded h) (flow_failed h).
Definition on_flow_succeeded (h : DslFlowLifecycleHooks) hook :=
  mkHooks (step_succeeded h) (step_failed h) (Some hook) (flow_failed h).
Definition on_flow_failed (h : DslFlowLifecycleHooks) hook :=
  mkHooks (step_succeeded h) (step_failed h) (flow_succeeded h) (Some hook).

(** ** Steps and flows *)

Inductive Step : Type :=
| ActionWithCompensation (run compensate : Action)
| PlainAction (action : Action)
| ForEach (run_all : Action)
| ReplayableStep (operation : ReplayableForEach)
| StreamForEach (action : Action)
| ConcurrentStreamForEach (action : Action)
| RetryStep (action : Action) (max_retries : nat) (initial_delay : Duration)
| TimeoutStep (action : TimedAction) (duration : Duration)
| If (condition : St -> bool) (then_branch else_branch : DslFlow)
| Match (select_branch : St -> option nat) (branches : list DslFlow) (default_branch : DslFlow)
| Parallel (branches : list DslFlow) (clone_state : St -> St)
    (merge : St -> list St -> St * CatgaResult unit)
| WhenAny (branches : list DslFlow) (clone_state : St -> St)
    (merge : St -> St -> St * CatgaResult unit)
with DslFlow : Type := mkFlow (steps : list Step) (lifecycle_observers : list nat)
    (lifecycle_hooks : option DslFlowLifecycleHooks).

Definition flow_steps (f : DslFlow) := match f with mkFlow l _ _ => l end.
Definition flow_observers (f : DslFlow) := match f with mkFlow _ o _ => o end.
Definition flow_hooks (f : DslFlow) := match f with mkFlow _ _ h => h end.

(** ** Builders *)

Definition flow_new : DslFlow := mkFlow [] [] None.
Definition push (f : DslFlow) (st : Step) : DslFlow :=
  mkFlow (flow_steps f ++ [st]) (flow_observers f) (flow_hooks f).
Definition with_lifecycle_observer (f : DslFlow) (o : nat) : DslFlow :=
  mkFlow (flow_steps f) (flow_observers f ++ [o]) (flow_hooks f).
Definition with_lifecycle_hooks (f : DslFlow) (h : DslFlowLifecycleHooks) : DslFlow :=
  mkFlow (flow_steps f) (flow_observers f) (Some h).

Definition action (f : DslFlow) (a : Action) : DslFlow := push f (PlainAction a).
Definition action_outcome (f : DslFlow) (a : Action) : DslFlow := push f (PlainAction a).
Definition compensate (f : DslFlow) (run comp : Action) : DslFlow :=
  push f (ActionWithCompensation run comp).
Definition retry (f : DslFlow) (max_retries : nat) (initial_delay : Duration) (a : Action) :=
  push f (RetryStep a max_retries initial_delay).
Definition timeout (f : DslFlow) (duration : Duration) (a : TimedAction) :=
  push f (TimeoutStep a duration).

(** [throttle.acquire()] and [mediator.send], [client.request], [mediator.publish] are calls
    into other parts: they are given by what they answer. *)
Definition throttle (f : DslFlow) (acquire : St -> CatgaResult unit) (a : Action) : DslFlow :=
  action f (fun s => match acquire s with Ok _ => a s | Err e => (s, Err e) end).
Definition send {M R} (f : DslFlow) (mediator : M -> CatgaResult R) (request : St -> M) : DslFlow :=
  action f (fun s => match mediator (request s) with Ok _ => (s, Ok tt) | Err e => (s, Err e) end).
Definition send_into {M R} (f : DslFlow) (mediator : M -> CatgaResult R) (request : St -> M)
    (set_ : St -> R -> St) : DslFlow :=
  action f (fun s => match mediator (request s) with
    | Ok response => (set_ s response, Ok tt) | Err e => (s, Err e) end).
Definition remote_send {M R} (f : DslFlow) (client : M -> CatgaResult R) (request : St -> M) :=
  action f (fun s => match client (request s) with Ok _ => (s, Ok tt) | Err e => (s, Err e) end).
Definition remote_send_into {M R} (f : DslFlow) (client : M -> CatgaResult R) (request : St -> M)
    (set_ : St -> R -> St) : DslFlow :=
  action f (fun s => match client (request s) with
    | Ok response => (set_ s response, Ok tt) | Err e => (s, Err e) end).
Definition publish {E} (f : DslFlow) (mediator : E -> CatgaResult unit) (event : St -> E) :=
  action f (fun s => (s, mediator (event s))).

Definition if_else (f : DslFlow) (condition : St -> bool) (then_branch else_branch : DslFlow) :=
  push f (If condition then_branch else_branch).

(** The [HashMap] of case values is an association list without duplicate keys. *)
Definition position {V} `{EqDecision V} (v : V) (positions : list (V * nat)) : option nat :=
  snd <$> List.find (fun p => bool_decide (p.1 = v)) positions.

Fixpoint match_cases {V} `{EqDecision V} (cases : list (V * DslFlow))
    (positions : list (V * nat)) (branches : list DslFlow) : list (V * nat) * list DslFlow :=
  match cases with
  | [] => (positions, branches)
  | (value, branch) :: cases' =>
      match position value positions with
      | Some p => match_cases cases' positions (<[p := branch]> branches)
      | None => match_cases cases' (positions ++ [(value, length branches)]) (branches ++ [branch])
      end
  end.

Definition match_on {V} `{EqDecision V} (f : DslFlow) (selector : St -> V)
    (cases : list (V * DslFlow)) (default_branch : DslFlow) : DslFlow :=
  let '(positions, branches) := match_cases cases [] [] in
  push f (Match (fun s => position (selector s) positions) branches default_branch).

Definition collect_parallel_branches (branches : list DslFlow) : list DslFlow :=
  take (MAX_DSL_PARALLEL_BRANCHES + 1) branches.

Definition parallel (f : DslFlow) (clone : St -> St) (branches : list DslFlow) merge : DslFlow :=
  push f (Parallel (collect_parallel_branches branches) clone merge).
Definition when_all := parallel.
Definition when_any (f : DslFlow) (clone : St -> St) (branches : list DslFlow) merge : DslFlow :=
  push f (WhenAny (collect_parallel_branches branches) clone merge).

(** *** Loops over selected items *)

Fixpoint each {T} (act : St -> T -> St * CatgaResult unit) (items : list T) (s : St)
    : St * CatgaResult unit :=
  match items with
  | [] => (s, Ok tt)
  | item :: items' =>
      match act s item with
      | (s', Ok _) => each act items' s'
      | (s', Err e) => (s', Err e)
      end
  end.

Fixpoint each_continue {T} (act : St -> T -> St * CatgaResult unit)
    (on_error : St -> nat -> CatgaError -> St * CatgaResult unit) (index : nat) (items : list T)
    (s : St) : St * CatgaResult unit :=
  match items with
  | [] => (s, Ok tt)
  | item :: items' =>
      match act s item with
      | (s', Ok _) => each_continue act on_error (S index) items' s'
      | (s', Err e) =>
          match on_error s' index e with
          | (s'', Ok _) => each_continue act on_error (S index) items' s''
          | (s'', Err e') => (s'', Err e')
          end
      end
  end.

Definition for_each {T} (f : DslFlow) (select : St -> list T) act : DslFlow :=
  push f (ForEach (fun s => each act (select s) s)).
Definition for_each_continue_on_error {T} (f : DslFlow) (select : St -> list T) act on_error :=
  push f (ForEach (fun s => each_continue act on_error 0 (select s) s)).
Definition for_each_stream {T} (f : DslFlow) (select : St -> list T) act : DslFlow :=
  push f (StreamForEach (fun s => each act (select s) s)).

(** Items of a replayable loop travel as their MemoryPack bytes. *)
Definition encode_items {T} (encode : T -> option (list Z)) (items : list T)
    : CatgaResult (list (list Z)) :=
  match mapM encode items with
  | Some l => Ok l
  | None => fail Validation "replayable for_each item cannot be encoded"
  end.

Definition decoded_action {T} (decode : list Z -> option T) (act : St -> T -> St * CatgaResult unit)
    (s : St) (bytes : list Z) : St * CatgaResult unit :=
  match decode bytes with
  | Some item => act s item
  | None => (s, fail Validation "replayable for_each checkpoint item is invalid")
  end.

Definition for_each_replayable {T} (encode : T -> option (list Z)) (decode : list Z -> option T)
    (f : DslFlow) (select : St -> list T) act : DslFlow :=
  push f (ReplayableStep (mkReplayable (fun s => encode_items encode (select s))
    (decoded_action decode act) None)).
Definition for_each_replayable_continue_on_error {T} (encode : T -> option (list Z))
    (decode : list Z -> option T) (f : DslFlow) (select : St -> list T) act on_error : DslFlow :=
  push f (ReplayableStep (mkReplayable (fun s => encode_items encode (select s))
    (decoded_action decode act) (Some on_error))).

(** *** The concurrent stream loop

    A batch takes up to [limit] items, numbered on from [next_index]; [arrivals] is the order
    in which the futures of a batch (its positions) complete. *)

Section concurrent.
Context {T R : Type} (limit : nat) (work : St -> T -> CatgaResult R)
  (reduce : St -> R -> St * CatgaResult unit) (arrivals : nat -> nat -> list nat).

(** [while let Some(result) = batch.next().await { results.push(result?) }] *)
Fixpoint collect_results (order : list nat) (batch : list (Z * CatgaResult R))
    : CatgaResult (list (Z * R)) :=
  match order with
  | [] => Ok []
  | i :: order' =>
      match batch !! i with
      | Some (index, Ok r) => rmap (cons (index, r)) (collect_results order' batch)
      | Some (_, Err e) => Err e
      | None => collect_results order' batch
      end
  end.

Fixpoint number (next_index : Z) (items : list T) : CatgaResult (list (Z * T)) :=
  match items with
  | [] => Ok []
  | item :: items' =>
      match checked usize (next_index + 1) with
      | None => fail Internal "concurrent stream item index exceeds usize"
      | Some next => rmap (cons (next_index, item)) (number next items')
      end
  end.

Definition by_index (a b : Z * R) : Prop := fst a <= fst b.

#[global] Instance by_index_dec a b : Decision (by_index a b).
Proof. unfold by_index. apply _. Defined.

Fixpoint concurrent_loop (fuel : nat) (batch_no : nat) (next_index : Z) (items : list T) (s : St)
    : St * CatgaResult unit :=
  match fuel with
  | O => (s, Ok tt)
  | S fuel' =>
      let taken := take limit items in
      match number next_index taken with
      | Err e => (s, Err e)
      | Ok numbered =>
          let batch := (fun p => (p.1, work s p.2)) <$> numbered in
          match collect_results (arrivals batch_no (length batch)) batch with
          | Err e => (s, Err e)
          | Ok [] => (s, Ok tt)
          | Ok completed =>
              match each reduce (snd <$> merge_sort by_index completed) s with
              | (s', Ok _) => concurrent_loop fuel' (S batch_no) (next_index + lenZ taken)
                                (drop limit items) s'
              | (s', Err e) => (s', Err e)
              end
          end
      end
  end.

(** A batch takes at least one item, so the batches are fewer than the items plus the last,
    empty one. *)
Definition concurrent_run (items : list T) (s : St) : St * CatgaResult unit :=
  concurrent_loop (S (length items)) 0 0 items s.

End concurrent.

Definition for_each_stream_concurrent {T R} (f : DslFlow) (limit : nat) (select : St -> list T)
    (work : St -> T -> CatgaResult R) (reduce : St -> R -> St * CatgaResult unit)
    (arrivals : nat -> nat -> list nat) : CatgaResult DslFlow :=
  if (limit =? 0)%nat
  then fail Validation "concurrent stream for_each limit must be greater than zero"
  else Ok (push f (ConcurrentStreamForEach
         (fun s => concurrent_run limit work reduce arrivals (select s) s))).

(** ** Composable steps ([flow/dsl_step.rs]) *)

Record DslStep := mkDslStep {
  ds_action : Action;
  ds_condition : option (St -> bool);
  ds_failure : option (St -> option CatgaError);
  ds_optional : bool
}.

Definition and_condition {A} (previous : option (A -> bool)) (condition : A -> bool) : A -> bool :=
  match previous with
  | Some p => fun a => p a && condition a
  | None => condition
  end.

Definition or_failure {A} (previous : option (A -> option CatgaError))
    (failure : A -> option CatgaError) : A -> option CatgaError :=
  match previous with
  | Some p => fun a => match p a with Some e => Some e | None => failure a end
  | None => failure
  end.

Definition failure_when {A} (condition : A -> bool) (error : A -> CatgaError) (a : A)
    : option CatgaError := if condition a then Some (error a) else None.

Definition step_action (a : Action) : DslStep := mkDslStep a None None false.
Definition only_when (d : DslStep) (c : St -> bool) : DslStep :=
  mkDslStep (ds_action d) (Some (and_condition (ds_condition d) c)) (ds_failure d) (ds_optional d).
Definition optional (d : DslStep) : DslStep :=
  mkDslStep (ds_action d) (ds_condition d) (ds_failure d) true.
Definition fail_if_with (d : DslStep) (c : St -> bool) (error : St -> CatgaError) : DslStep :=
  mkDslStep (ds_action d) (ds_condition d) (Some (or_failure (ds_failure d) (failure_when c error)))
    (ds_optional d).
Definition fail_if (d : DslStep) (c : St -> bool) : DslStep :=
  fail_if_with d c (fun _ => CatgaError_new Validation "DSL state failure condition matched").

(** A failure that an optional step ignores *)
Definition ignored (opt : bool) (e : CatgaError) : bool := opt && negb (bool_decide (code e = Cancelled)).

Definition into_action (d : DslStep) : Action := fun s =>
  if match ds_condition d with Some c => negb (c s) | None => false end then (s, Ok tt)
  else match ds_action d s with
       | (s', Err e) => (s', if ignored (ds_optional d) e then Ok tt else Err e)
       | (s', Ok _) =>
           match match ds_failure d with Some failure => failure s' | None => None end with
           | Some e => (s', Err e)
           | None => (s', Ok tt)
           end
       end.

Definition step (f : DslFlow) (d : DslStep) : DslFlow := push f (PlainAction (into_action d)).

Record DslQueryStep (R : Type) := mkDslQueryStep {
  qs_query : St -> CatgaResult R;
  qs_condition : option (St -> bool);
  qs_failure : option (R -> option CatgaError);
  qs_optional : bool
}.
#[global] Arguments mkDslQueryStep {R}.
#[global] Arguments qs_query {R}.
#[global] Arguments qs_condition {R}.
#[global] Arguments qs_failure {R}.
#[global] Arguments qs_optional {R}.

Definition query {R} (q : St -> CatgaResult R) : DslQueryStep R := mkDslQueryStep q None None false.
Definition query_send {M R} (mediator : M -> CatgaResult R) (request : St -> M) : DslQueryStep R :=
  query (fun s => mediator (request s)).
Definition remote_request {M R} (client : M -> CatgaResult R) (request : St -> M) : DslQueryStep R :=
  query (fun s => client (request s)).
Definition query_only_when {R} (d : DslQueryStep R) (c : St -> bool) : DslQueryStep R :=
  mkDslQueryStep (qs_query d) (Some (and_condition (qs_condition d) c)) (qs_failure d) (qs_optional d).
Definition query_optional {R} (d : DslQueryStep R) : DslQueryStep R :=
  mkDslQueryStep (qs_query d) (qs_condition d) (qs_failure d) true.
Definition fail_if_response_with {R} (d : DslQueryStep R) (c : R -> bool) (error : R -> CatgaError)
    : DslQueryStep R :=
  mkDslQueryStep (qs_query d) (qs_condition d)
    (Some (or_failure (qs_failure d) (failure_when c error))) (qs_optional d).
Definition fail_if_response {R} (d : DslQueryStep R) (c : R -> bool) : DslQueryStep R :=
  fail_if_response_with d c
    (fun _ => CatgaError_new Validation "DSL response failure condition matched").

Definition into_state {R} (d : DslQueryStep R) (set_ : St -> R -> St) : DslStep :=
  step_action (fun s =>
    if match qs_condition d with Some c => negb (c s) | None => false end then (s, Ok tt)
    else match qs_query d s with
         | Err e => (s, if ignored (qs_optional d) e then Ok tt else Err e)
         | Ok response =>
             match match qs_failure d with Some failure => failure response | None => None end with
             | Some e => (s, Err e)
             | None => (set_ s response, Ok tt)
             end
         end).

Definition discard {R} (d : DslQueryStep R) : DslStep := into_state d (fun s _ => s).

(** ** Execution *)

Definition Out : Type := list Note * St * CatgaResult unit.

Definition notify (observers : list nat) (event : DslFlowLifecycleEvent) : list Note :=
  (fun o => Observed o event) <$> observers.

Definition call_hook {H} (hooks : option DslFlowLifecycleHooks)
    (field : DslFlowLifecycleHooks -> option H) (call : H -> CatgaResult unit) : CatgaResult unit :=
  match hooks with
  | Some h => match field h with Some hook => call hook | None => Ok tt end
  | None => Ok tt
  end.

Definition notify_step_succeeded (f : DslFlow) (s : St) (i : nat) : list Note * CatgaResult unit :=
  (notify (flow_observers f) (StepSucceeded i),
   call_hook (flow_hooks f) step_succeeded (fun hook => hook s i)).
Definition notify_step_failed (f : DslFlow) (s : St) (i : nat) (e : CatgaError)
    : list Note * CatgaResult unit :=
  (notify (flow_observers f) (StepFailed i e),
   call_hook (flow_hooks f) step_failed (fun hook => hook s i e)).
Definition notify_flow_succeeded (f : DslFlow) (s : St) : list Note * CatgaResult unit :=
  (notify (flow_observers f) FlowSucceeded,
   call_hook (flow_hooks f) flow_succeeded (fun hook => hook s)).
Definition notify_flow_failed (f : DslFlow) (s : St) (e : CatgaError) : list Note * CatgaResult unit :=
  (notify (flow_observers f) (FlowFailed e),
   call_hook (flow_hooks f) flow_failed (fun hook => hook s e)).

Definition complete_dsl_execution (e : CatgaError) : list Note :=
  if bool_decide (code e = Cancelled) then [] else [Counted FLOWS_FAILED].

(** What [run] does when step [i] fails with [e]: the notes and the error it returns *)
Definition run_failed (f : DslFlow) (s : St) (i : nat) (e : CatgaError) : list Note * CatgaError :=
  let '(l1, r1) := notify_step_failed f s i e in
  match r1 with
  | Err hook_error => (l1 ++ complete_dsl_execution hook_error, hook_error)
  | Ok _ =>
      let '(l2, r2) := notify_flow_failed f s e in
      match r2 with
      | Err hook_error => (l1 ++ l2 ++ complete_dsl_execution hook_error, hook_error)
      | Ok _ => (l1 ++ l2 ++ complete_dsl_execution e, e)
      end
  end.

Fixpoint retry_loop (act : Action) (initial_delay : Duration) (remaining retry : nat) (s : St) : Out :=
  match act s with
  | (s', Ok _) => ([], s', Ok tt)
  | (s', Err e) =>
      match bool_decide (code e = Transient), remaining with
      | true, S remaining' =>
          let delay := retry_delay initial_delay (Z.of_nat retry) in
          let '(l, s'', r) := retry_loop act initial_delay remaining' (S retry) s' in
          ((if delay =? 0 then [] else [Slept delay]) ++ l, s'', r)
      | _, _ => ([], s', Err e)
      end
  end.

Fixpoint replay_loop (operation : ReplayableForEach) (index : nat) (items : list (list Z)) (s : St)
    : St * CatgaResult unit :=
  match items with
  | [] => (s, Ok tt)
  | item :: items' =>
      match rf_action operation s item with
      | (s', Ok _) => replay_loop operation (S index) items' s'
      | (s', Err e) =>
          match rf_on_error operation with
          | None => (s', Err e)
          | Some on_error =>
              match on_error s' index e with
              | (s'', Ok _) => replay_loop operation (S index) items' s''
              | (s'', Err e') => (s'', Err e')
              end
          end
      end
  end.

Definition out_notes (o : Out) : list Note := o.1.1.
Definition out_state (o : Out) : St := o.1.2.
Definition out_result (o : Out) : CatgaResult unit := o.2.

(** [for result in results { result?; }] *)
Fixpoint first_error (results : list (CatgaResult unit)) : CatgaResult unit :=
  match results with
  | [] => Ok tt
  | Ok _ :: rest => first_error rest
  | Err e :: _ => Err e
  end.

Definition join_branches (outs : list Out) (s : St) (merge : St -> list St -> St * CatgaResult unit)
    : Out :=
  let notes := concat (out_notes <$> outs) in
  match first_error (out_result <$> outs) with
  | Err e => (notes, s, Err e)
  | Ok _ => let '(s', r) := merge s (out_state <$> outs) in (notes, s', r)
  end.

(** The first branch to succeed, in the order the branches complete *)
Fixpoint winner (order : list nat) (outs : list Out) (last_error : option CatgaError)
    : option nat * option CatgaError :=
  match order with
  | [] => (None, last_error)
  | i :: order' =>
      match outs !! i with
      | Some o => match out_result o with
                  | Ok _ => (Some i, last_error)
                  | Err e => winner order' outs (Some e)
                  end
      | None => winner order' outs last_error
      end
  end.

(** [race outs] is the order in which the branches complete and, for a branch dropped before it
    completes, how many of its notes it has made. *)
Context (race : list Out -> list nat * (nat -> nat)).

Definition upto (order : list nat) (w : option nat) : list nat :=
  match w with
  | None => order
  | Some i => match list_find (.= i) order with Some (n, _) => take (S n) order | None => order end
  end.

Definition race_notes (outs : list Out) (completed : list nat) (cut : nat -> nat) : list Note :=
  concat (imap (fun i o => if bool_decide (i ∈ completed) then out_notes o
                           else take (cut i) (out_notes o)) outs).

Definition race_branches (outs : list Out) (s : St) (merge : St -> St -> St * CatgaResult unit) : Out :=
  let '(order, cut) := race outs in
  let '(w, last_error) := winner order outs None in
  let notes := race_notes outs (upto order w) cut in
  match w ≫= fun i => outs !! i with
  | Some o => let '(s', r) := merge s (out_state o) in (notes, s', r)
  | None => (notes, s, match last_error with Some e => Err e | None => Ok tt end)
  end.

(** [branches.get(index)], with what to do with the branch and without one *)
Section branch.
Context {A : Type} (found : DslFlow -> A) (missing : A).

Fixpoint on_branch (branches : list DslFlow) (index : nat) : A :=
  match branches with
  | [] => missing
  | b :: branches' => match index with O => found b | S index' => on_branch branches' index' end
  end.

Lemma on_branch_lookup branches index :
  on_branch branches index = match branches !! index with Some b => found b | None => missing end.
Proof. revert index. induction branches as [|b bs IH]; intros [|i]; simpl; auto. Qed.
End branch.

Section loop.
Context (run_step : Step -> St -> Out).

(** The loop of [run] over the steps of [f] from index [i] *)
Fixpoint run_steps (f : DslFlow) (i : nat) (steps : list Step) (s : St) : Out :=
  match steps with
  | [] =>
      let '(l, r) := notify_flow_succeeded f s in
      match r with
      | Err e => (l ++ complete_dsl_execution e, s, Err e)
      | Ok _ => (l ++ [Counted FLOWS_COMPLETED], s, Ok tt)
      end
  | step :: rest =>
      let '(l, s1, r) := run_step step s in
      match r with
      | Err e => let '(l', e') := run_failed f s1 i e in (l ++ l', s1, Err e')
      | Ok _ =>
          let '(l1, r1) := notify_step_succeeded f s1 i in
          match r1 with
          | Err e => (l ++ l1 ++ complete_dsl_execution e, s1, Err e)
          | Ok _ => let '(l2, s2, r2) := run_steps f (S i) rest s1 in (l ++ l1 ++ l2, s2, r2)
          end
      end
  end.

(** [run_sub_flow]: no lifecycle *)
Fixpoint run_sub_steps (steps : list Step) (s : St) : Out :=
  match steps with
  | [] => ([], s, Ok tt)
  | step :: rest =>
      let '(l, s1, r) := run_step step s in
      match r with
      | Err e => (l, s1, Err e)
      | Ok _ => let '(l2, s2, r2) := run_sub_steps rest s1 in (l ++ l2, s2, r2)
      end
  end.
End loop.

Fixpoint run_step (step : Step) (s : St) {struct step} : Out :=
  match step with
  | ActionWithCompensation run _ => let '(s', r) := run s in ([], s', r)
  | PlainAction a => let '(s', r) := a s in ([], s', r)
  | ForEach a => let '(s', r) := a s in ([], s', r)
  | ReplayableStep operation =>
      match rf_select operation s with
      | Err e => ([], s, Err e)
      | Ok items => let '(s', r) := replay_loop operation 0 items s in ([], s', r)
      end
  | StreamForEach a => let '(s', r) := a s in ([], s', r)
  | ConcurrentStreamForEach a => let '(s', r) := a s in ([], s', r)
  | RetryStep a max_retries initial_delay => retry_loop a initial_delay max_retries 0 s
  | TimeoutStep a duration =>
      match a duration s with
      | (s', Some r) => ([], s', r)
      | (s', None) => ([], s', fail Timeout "flow action timed out")
      end
  | If condition then_branch else_branch =>
      if condition s then run then_branch s else run else_branch s
  | Match select_branch branches default_branch =>
      match select_branch s with
      | Some index => on_branch (fun b => run b s) (run default_branch s) branches index
      | None => run default_branch s
      end
  | Parallel branches clone_state merge =>
      match validate_parallel_branch_count (length branches) with
      | Err e => ([], s, Err e)
      | Ok _ => join_branches (List.map (fun b => run b (clone_state s)) branches) s merge
      end
  | WhenAny branches clone_state merge =>
      match validate_parallel_branch_count (length branches) with
      | Err e => ([], s, Err e)
      | Ok _ => race_branches (List.map (fun b => run b (clone_state s)) branches) s merge
      end
  end
with run (f : DslFlow) (s : St) {struct f} : Out :=
  match f with
  | mkFlow steps _ _ =>
      let '(l, s', r) := run_steps run_step f 0 steps s in (Counted FLOWS_STARTED :: l, s', r)
  end.

Definition run_sub_flow (f : DslFlow) (s : St) : Out := run_sub_steps run_step (flow_steps f) s.

(** *** Rollback *)

Definition u32_or_max (i : nat) : Z :=
  if fits u32 (Z.of_nat i) then Z.of_nat i else int_max u32.

(** [completed] in the order the indices are compensated *)
Fixpoint compensate_steps (steps : list Step) (completed : list nat) (s : St) : list Note * St :=
  match completed with
  | [] => ([], s)
  | index :: completed' =>
      match steps !! index with
      | Some (ActionWithCompensation _ comp) =>
          let '(s1, r) := comp s in
          let '(l, s2) := compensate_steps steps completed' s1 in
          (match r with Ok _ => l | Err e => RollbackFailed index e :: l end, s2)
      | _ => compensate_steps steps completed' s
      end
  end.

Definition is_compensable (step : Step) : bool :=
  match step with ActionWithCompensation _ _ => true | _ => false end.

(** The loop of [run_compensatable] over the steps of [f] from index [i] *)
Fixpoint compensatable_steps (f : DslFlow) (i : nat) (steps : list Step) (completed : list nat)
    (s : St) : list Note * St * FlowResult :=
  match steps with
  | [] =>
      let '(l, r) := notify_flow_succeeded f s in
      match r with
      | Err e => (l ++ complete_dsl_execution e, s, flow_failure (u32_or_max (length (flow_steps f))) e)
      | Ok _ => (l ++ [Counted FLOWS_COMPLETED], s, flow_success (u32_or_max (length (flow_steps f))))
      end
  | step :: rest =>
      let '(l, s1, r) := run_step step s in
      match r with
      | Ok _ =>
          let completed := if is_compensable step then completed ++ [i] else completed in
          let '(l1, r1) := notify_step_succeeded f s1 i in
          match r1 with
          | Err e => (l ++ l1 ++ complete_dsl_execution e, s1, flow_failure (u32_or_max i) e)
          | Ok _ =>
              let '(l2, s2, r2) := compensatable_steps f (S i) rest completed s1 in
              (l ++ l1 ++ l2, s2, r2)
          end
      | Err e =>
          let '(l1, _) := run_failed f s1 i e in
          let '(l2, s2) := compensate_steps (flow_steps f) (rev completed) s1 in
          (l ++ l1 ++ l2 ++ [Counted FLOWS_FAILED], s2, flow_failure (u32_or_max i) e)
      end
  end.

Definition run_compensatable (f : DslFlow) (s : St) : list Note * St * FlowResult :=
  let '(l, s', r) := compensatable_steps f 0 (flow_steps f) [] s in
  (Counted FLOWS_STARTED :: l, s', r).

(** ** What a run means

    [ran steps s s']: the steps succeed one after the other, and lead from [s] to [s']. *)

Inductive ran : list Step -> St -> St -> Prop :=
| ran_nil s : ran [] s s
| ran_cons step steps s l s1 s2 :
    run_step step s = (l, s1, Ok tt) -> ran steps s1 s2 -> ran (step :: steps) s s2.

(** The rollback actions of the steps, the latest step first *)
Definition rollbacks (steps : list Step) : list Action :=
  rev (omap (fun st => match st with ActionWithCompensation _ c => Some c | _ => None end) steps).

(** The state after rollback actions, whatever they return *)
Definition undo (actions : list Action) (s : St) : St := foldl (fun s a => fst (a s)) s actions.

(** The compensable indices of [steps], counted from [i] *)
Fixpoint compensable (i : nat) (steps : list Step) : list nat :=
  match steps with
  | [] => []
  | st :: steps' => (if is_compensable st then [i] else []) ++ compensable (S i) steps'
  end.

Lemma compensable_snoc i steps st :
  compensable i (steps ++ [st])
  = if is_compensable st then compensable i steps ++ [(i + length steps)%nat] else compensable i steps.
Proof.
  revert i. induction steps as [|x steps IH]; intros i; simpl.
  - rewrite Nat.add_0_r. by destruct (is_compensable st).
  - rewrite IH. replace (S i + length steps)%nat with (i + S (length steps))%nat by lia.
    by destruct (is_compensable st); rewrite ?app_assoc.
Qed.

Lemma compensate_steps_undo pre steps rest s :
  snd (compensate_steps (pre ++ steps ++ rest) (rev (compensable (length pre) steps)) s)
  = undo (rollbacks steps) s.
Proof.
  revert rest s. induction steps as [|st steps IH] using rev_ind; intros rest s; [done |].
  rewrite compensable_snoc. unfold rollbacks. rewrite omap_app, rev_app_distr.
  rewrite <-app_assoc. destruct st as [run_ comp| | | | | | | | | | |]; simpl; try apply IH.
  rewrite rev_app_distr. simpl. rewrite lookup_app_r by lia.
  replace (length pre + length steps - length pre)%nat with (length steps) by lia.
  rewrite lookup_app_r, Nat.sub_diag by lia. simpl.
  destruct (comp s) as [s1 r] eqn:E. specialize (IH (ActionWithCompensation run_ comp :: rest) s1).
  destruct (compensate_steps _ _ s1) as [l s2] eqn:E2. simpl in IH. rewrite IH. by destruct r.
Qed.

(** What the configured success hooks say *)
Definition step_hook (f : DslFlow) (i : nat) (s : St) : CatgaResult unit :=
  match flow_hooks f with
  | Some h => match step_succeeded h with Some hook => hook s i | None => Ok tt end
  | None => Ok tt
  end.
Definition success_hook (f : DslFlow) (s : St) : CatgaResult unit :=
  match flow_hooks f with
  | Some h => match flow_succeeded h with Some hook => hook s | None => Ok tt end
  | None => Ok tt
  end.

(** [passed f i steps s s']: the steps, the first with index [i], succeed one after the
    other, each followed by its success hook, which succeeds too. *)
Inductive passed (f : DslFlow) : nat -> list Step -> St -> St -> Prop :=
| passed_nil i s : passed f i [] s s
| passed_cons i step steps s l s1 s2 :
    run_step step s = (l, s1, Ok tt) -> step_hook f i s1 = Ok tt -> passed f (S i) steps s1 s2 ->
    passed f i (step :: steps) s s2.

Lemma passed_snoc f i steps st s s1 l s2 :
  passed f i steps s s1 -> run_step st s1 = (l, s2, Ok tt) -> step_hook f (i + length steps) s2 = Ok tt ->
  passed f i (steps ++ [st]) s s2.
Proof.
  induction 1 as [i s|i st' steps s l' s1 s' E Hh H IH]; intros Er Hk; simpl in *.
  - rewrite Nat.add_0_r in Hk. econstructor; [done | done | constructor].
  - econstructor; [done | done |]. apply IH; [done |]. by rewrite <- Nat.add_succ_comm in Hk.
Qed.

(** How [run_compensatable] can end: everything succeeded; everything but the success hook of
    the flow succeeded; the steps up to the [k]th succeeded and the success hook of the [k]th,
    the first of the hooks that failed, ended the flow with everything left as it is; or step
    [k] failed, after the steps before it and their hooks had succeeded, and the completed
    compensable steps were undone. *)
Inductive comp_end (f : DslFlow) (s : St) : St -> FlowResult -> Prop :=
| comp_done s' :
    passed f 0 (flow_steps f) s s' -> success_hook f s' = Ok tt ->
    comp_end f s s' (flow_success (u32_or_max (length (flow_steps f))))
| comp_done_hook s' e :
    passed f 0 (flow_steps f) s s' -> success_hook f s' = Err e ->
    comp_end f s s' (flow_failure (u32_or_max (length (flow_steps f))) e)
| comp_step_hook k st s1 l s' e :
    flow_steps f !! k = Some st -> passed f 0 (take k (flow_steps f)) s s1 ->
    run_step st s1 = (l, s', Ok tt) -> step_hook f k s' = Err e ->
    comp_end f s s' (flow_failure (u32_or_max k) e)
| comp_rolled_back k st s1 l s2 e :
    flow_steps f !! k = Some st -> passed f 0 (take k (flow_steps f)) s s1 ->
    run_step st s1 = (l, s2, Err e) ->
    comp_end f s (undo (rollbacks (take k (flow_steps f))) s2) (flow_failure (u32_or_max k) e).

Lemma notify_step_hook f s i : snd (notify_step_succeeded f s i) = step_hook f i s.
Proof. unfold notify_step_succeeded, call_hook, step_hook. by repeat case_match. Qed.

Lemma notify_success_hook f s : snd (notify_flow_succeeded f s) = success_hook f s.
Proof. unfold notify_flow_succeeded, call_hook, success_hook. by repeat case_match. Qed.

Lemma compensatable_steps_end f s pre steps s1 l s' r :
  flow_steps f = pre ++ steps -> passed f 0 pre s s1 ->
  compensatable_steps f (length pre) steps (compensable 0 pre) s1 = (l, s', r) -> comp_end f s s' r.
Proof.
  revert pre s1 l. induction steps as [|st rest IH]; intros pre s1 l Hf Hr;
    cbn [compensatable_steps].
  - rewrite app_nil_r in Hf. pose proof (notify_success_hook f s1) as Hh.
    destruct (notify_flow_succeeded f s1) as [l1 [[]|e]]; simpl in Hh;
      intros [= _ <- <-]; [eapply comp_done | eapply comp_done_hook]; rewrite ?Hf; done.
  - assert (flow_steps f !! length pre = Some st) as Hk by (rewrite Hf, lookup_app_r, Nat.sub_diag; done).
    assert (passed f 0 (take (length pre) (flow_steps f)) s s1) as Hpre by (by rewrite Hf, take_app_length).
    destruct (run_step st s1) as [[l1 s2] [[]|e]] eqn:E.
    + pose proof (notify_step_hook f s2 (length pre)) as Hh.
      destruct (notify_step_succeeded f s2 (length pre)) as [l2 [[]|e]]; simpl in Hh.
      * destruct (compensatable_steps f (S (length pre)) rest _ s2) as [[l3 s3] r3] eqn:Ec.
        intros [= _ <- <-]. eapply (IH (pre ++ [st]) s2); [by rewrite <-app_assoc | by eapply passed_snoc |].
        rewrite compensable_snoc, length_app, Nat.add_comm. simpl. exact Ec.
      * intros [= _ <- <-]. by eapply comp_step_hook.
    + destruct (run_failed f s2 (length pre) e) as [l2 e2].
      pose proof (compensate_steps_undo [] pre (st :: rest) s2) as Hu. simpl in Hu. rewrite <-Hf in Hu.
      destruct (compensate_steps _ _ s2) as [l3 s3]. simpl in Hu. intros [= _ <- <-]. rewrite Hu.
      replace pre with (take (length pre) (flow_steps f)) at 1 by (rewrite Hf; apply take_app_length).
      by eapply comp_rolled_back.
Qed.

(** C10: [run_compensatable] ends in one of four ways.  All steps and success hooks succeed.  Or
    step [k] fails, after the steps before it and their success hooks succeeded: the rollback
    actions of the compensable ones among the flow's own steps before it, and of no other, run
    from the state the failed step left, the latest first, each once and whatever the others
    return, and the result is the step's own error at index [k], whatever the failure hooks
    return.  Or the success hook of step [k] fails, the first hook to do so: the flow stops
    there with the hook's error at index [k] and nothing is undone; so with the flow's success
    hook.  This is narrower than the comments: a failure hook's error is not returned
    ([dsl_lifecycle.rs], line 60), and compensable steps inside sub-flows are not tracked by
    their parent ([dsl.rs], line 1039). *)
Theorem compensation_exact f s l s' r :
  run_compensatable f s = (l, s', r) -> comp_end f s s' r.
Proof.
  unfold run_compensatable. destruct (compensatable_steps _ _ _ _ _) as [[l1 s1] r1] eqn:E.
  intros [= _ <- <-]. by eapply (compensatable_steps_end f s []); [| constructor |].
Qed.

(** ** Loops and branches *)

Lemma first_error_spec rs :
  match first_error rs with
  | Ok _ => Forall (fun r => r = Ok tt) rs
  | Err e => exists i, rs !! i = Some (Err e) /\ Forall (fun r => r = Ok tt) (take i rs)
  end.
Proof.
  induction rs as [|[[]|e] rs IH]; simpl; [constructor | | by exists 0%nat].
  destruct (first_error rs) as [[]|e]; [by constructor |].
  destruct IH as (i & Hi & Hf). exists (S i). simpl. by auto.
Qed.

(** A parallel step runs every branch on a copy of the state.  When one fails the state is what
    it was before, and the error is that of the first failing branch in declaration order; when
    none fails the merge sees the states of the branches in declaration order; a step with more
    than 64 branches runs none of them. *)
Theorem parallel_isolated bs clone merge s :
  let outs := (fun b => run b (clone s)) <$> bs in
  let o := run_step (Parallel bs clone merge) s in
  if (64 <? length bs)%nat then out_state o = s /\ err_code (out_result o) = Some Validation
  else match first_error (out_result <$> outs) with
       | Ok _ => (out_state o, out_result o) = merge s (out_state <$> outs)
       | Err e => out_state o = s /\ out_result o = Err e
       end.
Proof.
  cbv zeta. cbn [run_step]. unfold validate_parallel_branch_count, MAX_DSL_PARALLEL_BRANCHES.
  destruct (64 <? length bs)%nat; [done |]. unfold join_branches.
  change (List.map ?g bs) with (g <$> bs).
  destruct (first_error _) as [[]|e]; [| done]. by destruct (merge s _) as [s' r].
Qed.

Lemma winner_spec order outs le w le' :
  winner order outs le = (w, le') ->
  match w with
  | Some i => exists o n, order !! n = Some i /\ outs !! i = Some o /\ out_result o = Ok tt
      /\ forall j o', j ∈ take n order -> outs !! j = Some o' -> out_result o' <> Ok tt
  | None => (forall j o', j ∈ order -> outs !! j = Some o' -> out_result o' <> Ok tt)
      /\ (le' = le /\ (forall j, j ∈ order -> outs !! j = None)
          \/ exists e j o', le' = Some e /\ j ∈ order /\ outs !! j = Some o' /\ out_result o' = Err e)
  end.
Proof.
  revert le. induction order as [|i order IH]; intros le; simpl.
  { intros [= <- <-]. split; [set_solver |]. left. split; [done | set_solver]. }
  destruct (outs !! i) as [o|] eqn:Ei.
  - destruct (out_result o) as [[]|e] eqn:Eo.
    { intros [= <- <-]. exists o, 0%nat. split_and!; [done.. | simpl; set_solver]. }
    intros H. apply IH in H. destruct w as [j|].
    + destruct H as (o' & n & ? & ? & ? & Hn). exists o', (S n). split_and!; [done.. |].
      intros j' o2 Hj. simpl in Hj. apply elem_of_cons in Hj as [->|Hj]; [| by apply Hn].
      intros. simplify_eq. congruence.
    + destruct H as [Hall Hle]. split.
      { intros j o' Hj. apply elem_of_cons in Hj as [->|Hj]; [| by apply Hall].
        intros. simplify_eq. congruence. }
      right. destruct Hle as [[-> _]|(e2 & j & o2 & -> & Hj & ? & ?)].
      * exists e, i, o. split_and!; [done | by left | done | done].
      * exists e2, j, o2. split_and!; [done | by right | done | done].
  - intros H. apply IH in H. destruct w as [j|].
    + destruct H as (o' & n & ? & ? & ? & Hn). exists o', (S n). split_and!; [done.. |].
      intros j' o2 Hj. simpl in Hj. apply elem_of_cons in Hj as [->|Hj]; [| by apply Hn]. congruence.
    + destruct H as [Hall Hle]. split.
      { intros j o' Hj. apply elem_of_cons in Hj as [->|Hj]; [| by apply Hall]. congruence. }
      destruct Hle as [[-> Hn]|(e2 & j & o2 & -> & Hj & ? & ?)].
      * left. split; [done |]. intros j Hj. apply elem_of_cons in Hj as [->|Hj]; [done | by apply Hn].
      * right. exists e2, j, o2. split_and!; [done | by right | done | done].
Qed.

(** ** Retry *)

(** [attempts act n s s']: [n] attempts in a row fail with a transient error and lead from [s]
    to [s']. *)
Inductive attempts (act : Action) : nat -> St -> St -> Prop :=
| att_0 s : attempts act 0 s s
| att_S n s s1 s2 e :
    act s = (s1, Err e) -> code e = Transient -> attempts act n s1 s2 -> attempts act (S n) s s2.

Definition slept (initial_delay : Duration) (first count : nat) : list Note :=
  omap (fun k => let d := retry_delay initial_delay (Z.of_nat k) in
                 if d =? 0 then None else Some (Slept d)) (seq first count).

Lemma retry_loop_spec act d remaining first s l s' r :
  retry_loop act d remaining first s = (l, s', r) ->
  exists n s1, (n <= remaining)%nat /\ attempts act n s s1 /\ act s1 = (s', r) /\ l = slept d first n
    /\ (forall e, r = Err e -> code e = Transient -> n = remaining).
Proof.
  revert first s l. induction remaining as [|remaining IH]; intros first s l; simpl;
    destruct (act s) as [s1 [[]|e]] eqn:E.
  - intros [= <- <- <-]. exists 0%nat, s. split_and!; [lia | constructor | done..].
  - intros H. exists 0%nat, s. destruct (bool_decide _); simplify_eq;
      (split_and!; [lia | constructor | done..]).
  - intros [= <- <- <-]. exists 0%nat, s. split_and!; [lia | constructor | done..].
  - case_bool_decide as Ht.
    + destruct (retry_loop act d remaining (S first) s1) as [[l1 s2] r1] eqn:E2. intros [= <- <- <-].
      destruct (IH _ _ _ E2) as (n & s3 & Hn & Ha & Hs & -> & Hm). exists (S n), s3.
      split_and!; [lia | by econstructor | done | | intros; f_equal; eauto].
      unfold slept. simpl. by destruct (_ =? 0).
    + intros [= <- <- <-]. exists 0%nat, s. split_and!; [lia | constructor | done | done |].
      intros e' [= <-] ?. done.
Qed.

(** A retried action is attempted until it succeeds, fails for good or the retries are used up:
    [n] transient failures, [n] at most [max_retries], and one last attempt, whose outcome is
    the step's; a transient failure is only returned after [max_retries] retries.  Before retry
    [k] the step sleeps the initial delay doubled [k] times (not at all when that is zero), at
    most [Duration::MAX]. *)
Theorem retry_exact act max_retries d s l s' r :
  run_step (RetryStep act max_retries d) s = (l, s', r) ->
  exists n s1, (n <= max_retries)%nat /\ attempts act n s s1 /\ act s1 = (s', r)
    /\ l = slept d 0 n /\ (forall e, r = Err e -> code e = Transient -> n = max_retries).
Proof. apply retry_loop_spec. Qed.

Lemma retry_delay_doubles d k :
  0 <= k < 32 -> retry_delay d k = Z.min DURATION_MAX (d * 2 ^ k).
Proof.
  intros. unfold retry_delay, duration_saturating_mul, retry_multiplier.
  rewrite (proj2 (fits_spec u32 k)) by (unfold int_min, int_max; simpl; lia).
  by destruct (Z.ltb_spec k 32); [| lia].
Qed.

(** A [when_any] step takes the first branch to succeed, in the order of completion, and merges
    its state; when every branch fails the state is what it was before and the error is that of
    one of the branches; without branches the step succeeds and merges nothing. *)
Theorem when_any_exact bs clone merge s :
  (forall outs, (race outs).1 ≡ₚ seq 0 (length outs)) -> (length bs <= 64)%nat ->
  let after b := run b (clone s) in
  let o := run_step (WhenAny bs clone merge) s in
  (exists i b n, bs !! i = Some b /\ out_result (after b) = Ok tt
     /\ (out_state o, out_result o) = merge s (out_state (after b))
     /\ (race (after <$> bs)).1 !! n = Some i
     /\ forall j b', j ∈ take n (race (after <$> bs)).1 -> bs !! j = Some b' ->
          out_result (after b') <> Ok tt)
  \/ (Forall (fun b => out_result (after b) <> Ok tt) bs /\ out_state o = s
      /\ match bs with
         | [] => out_result o = Ok tt
         | _ => exists b e, b ∈ bs /\ out_result (after b) = Err e /\ out_result o = Err e
         end).
Proof.
  intros Hrace Hb. cbv zeta. cbn [run_step]. unfold validate_parallel_branch_count.
  destruct (Nat.ltb_spec MAX_DSL_PARALLEL_BRANCHES (length bs)) as [Hlt|_];
    [unfold MAX_DSL_PARALLEL_BRANCHES in Hlt; lia |].
  unfold race_branches. change (List.map ?g bs) with (g <$> bs).
  set (outs := (fun b => run b (clone s)) <$> bs).
  specialize (Hrace outs). destruct (race outs) as [order cut]. simpl in Hrace.
  destruct (winner order outs None) as [[i|] le] eqn:E; apply winner_spec in E; simpl.
  - left. destruct E as (o & n & Hn & Ho & Hok & Hbefore). rewrite Ho.
    apply list_lookup_fmap_Some in Ho as (b & -> & Hi). exists i, b, n.
    split_and!; [done | done | by destruct (merge s _) | done |].
    intros j b' Hj Hb'. apply (Hbefore j); [done |]. unfold outs. by rewrite list_lookup_fmap, Hb'.
  - right. destruct E as [Hall Hle].
    assert (forall j b, bs !! j = Some b -> j ∈ order /\ outs !! j = Some (run b (clone s))) as Hin.
    { intros j b Hj. split; [| unfold outs; by rewrite list_lookup_fmap, Hj].
      rewrite Hrace. apply elem_of_seq. unfold outs. rewrite length_fmap.
      apply lookup_lt_Some in Hj. lia. }
    split_and!; [| done |].
    + apply Forall_lookup. intros j b Hj. destruct (Hin j b Hj). by eapply Hall.
    + destruct Hle as [[-> Hnone]|(e & j & o & -> & Hj & Ho & He)].
      * destruct bs as [|b bs']; [done |]. destruct (Hin 0%nat b eq_refl) as [H1 H2].
        rewrite (Hnone _ H1) in H2. done.
      * apply list_lookup_fmap_Some in Ho as (b & -> & Hb'). destruct bs as [|b0 bs']; [done |].
        exists b, e. split_and!; [by eapply list_elem_of_lookup_2 | done | done].
Qed.

(** ** Equality branches *)

(** The branch of the last case of a value *)
Definition last_case {V} `{EqDecision V} (v : V) (cases : list (V * DslFlow)) : option DslFlow :=
  snd <$> last (filter (fun p => p.1 = v) cases).

Definition cases_inv {V} `{EqDecision V} (cases : list (V * DslFlow)) (positions : list (V * nat))
    (branches : list DslFlow) : Prop :=
  snd <$> positions = seq 0 (length branches)
  /\ forall v, last_case v cases = position v positions ≫= fun p => branches !! p.

Lemma position_app {V} `{EqDecision V} (v : V) l v' p :
  position v (l ++ [(v', p)])
  = match position v l with Some q => Some q | None => if decide (v' = v) then Some p else None end.
Proof.
  unfold position. induction l as [|[x q] l IH]; simpl.
  - case_bool_decide; by rewrite ?decide_True, ?decide_False by done.
  - by case_bool_decide.
Qed.

Lemma position_lt {V} `{EqDecision V} (v : V) l n p :
  snd <$> l = seq 0 n -> position v l = Some p -> (p < n)%nat /\ l !! p = Some (v, p).
Proof.
  intros Hl. unfold position. destruct (find _ l) as [[x q]|] eqn:E; [| done]. intros [= <-].
  apply find_some in E as [Hin Hx]. simpl in Hx. apply bool_decide_eq_true in Hx as ->.
  apply list_elem_of_In, list_elem_of_lookup_1 in Hin as [i Hi].
  assert ((snd <$> l) !! i = Some q) as Hq by (by rewrite list_lookup_fmap, Hi).
  rewrite Hl in Hq. apply lookup_seq in Hq as [-> Hlt]. simpl. split; [lia |]. simpl in Hi. done.
Qed.

Lemma last_case_snoc {V} `{EqDecision V} (v : V) cases w b :
  last_case v (cases ++ [(w, b)]) = if decide (w = v) then Some b else last_case v cases.
Proof.
  unfold last_case. rewrite filter_app, filter_cons, filter_nil. simpl.
  destruct (decide (w = v)); [by rewrite last_snoc | by rewrite app_nil_r].
Qed.

Lemma match_cases_inv {V} `{EqDecision V} (rest done_ : list (V * DslFlow)) positions branches :
  cases_inv done_ positions branches ->
  let '(p, b) := match_cases rest positions branches in cases_inv (done_ ++ rest) p b.
Proof.
  revert done_ positions branches. induction rest as [|[v b] rest IH]; intros done_ ps bs [Hp Hv]; simpl.
  { rewrite app_nil_r. done. }
  replace (done_ ++ (v, b) :: rest) with ((done_ ++ [(v, b)]) ++ rest) by (by rewrite <-app_assoc).
  destruct (position v ps) as [p|] eqn:Ep.
  - apply IH. pose proof (position_lt _ _ _ _ Hp Ep) as [Hlt Hl]. split; [by rewrite length_insert |].
    intros v'. rewrite last_case_snoc. destruct (decide (v = v')) as [<-|Hne].
    + rewrite Ep. simpl. by rewrite list_lookup_insert_eq.
    + rewrite Hv. destruct (position v' ps) as [q|] eqn:Eq; [| done]. simpl.
      pose proof (position_lt _ _ _ _ Hp Eq) as [_ Hl']. rewrite list_lookup_insert_ne; [done |].
      intros ->. rewrite Hl in Hl'. congruence.
  - apply IH. split.
    { rewrite fmap_app, Hp, length_app. simpl. by rewrite seq_app. }
    intros v'. rewrite last_case_snoc, position_app. destruct (decide (v = v')) as [<-|Hne].
    + rewrite Ep. simpl. by rewrite lookup_app_r, Nat.sub_diag by lia.
    + rewrite Hv. destruct (position v' ps) as [q|] eqn:Eq; [| done]. simpl.
      pose proof (position_lt _ _ _ _ Hp Eq) as [Hq _]. by rewrite lookup_app_l.
Qed.

(** [match_on]: the step runs the last case registered for the selected value, and the default
    branch when there is none. *)
Theorem match_on_exact {V} `{EqDecision V} f (selector : St -> V) cases default_branch s :
  exists st, flow_steps (match_on f selector cases default_branch) = flow_steps f ++ [st]
    /\ run_step st s = run (default default_branch (last_case (selector s) cases)) s.
Proof.
  unfold match_on. pose proof (match_cases_inv cases [] [] []) as Hi.
  destruct (match_cases cases [] []) as [ps bs]. destruct Hi as [Hp Hv]; [by split |]. simpl in Hv.
  eexists. split; [done |]. cbn [run_step]. rewrite Hv.
  destruct (position (selector s) ps) as [p|] eqn:Ep; [| done]. simpl.
  rewrite on_branch_lookup. pose proof (position_lt _ _ _ _ Hp Ep) as [Hlt _].
  destruct (lookup_lt_is_Some_2 bs p) as [b ->]; done.
Qed.

(** ** Concurrent batches *)

Section batches.
Context {T R : Type} (limit : nat) (work : St -> T -> CatgaResult R)
  (reduce : St -> R -> St * CatgaResult unit) (arrivals : nat -> nat -> list nat).

(** What the loop promises: batch after batch, every item of the batch is worked on in the state
    the batch began with, and the results are reduced in the order of the items; a failing item
    ends the loop in that state. *)
Inductive batched : list T -> St -> St -> CatgaResult unit -> Prop :=
| bt_end s : batched [] s s (Ok tt)
| bt_work items s x e :
    x ∈ take limit items -> work s x = Err e -> batched items s s (Err e)
| bt_reduce items rs s s' e :
    Forall2 (fun x r => work s x = Ok r) (take limit items) rs ->
    each reduce rs s = (s', Err e) -> batched items s s' (Err e)
| bt_next items rs s s1 s2 r :
    items <> [] -> Forall2 (fun x r => work s x = Ok r) (take limit items) rs ->
    each reduce rs s = (s1, Ok tt) -> batched (drop limit items) s1 s2 r -> batched items s s2 r.

Definition numbered {X} (n : Z) (xs : list X) : list (Z * X) := imap (fun k x => (n + Z.of_nat k, x)) xs.

Lemma numbered_cons {X} n (x : X) xs : numbered n (x :: xs) = (n, x) :: numbered (n + 1) xs.
Proof. unfold numbered. simpl. rewrite Z.add_0_r. f_equal. apply imap_ext. intros. simpl. f_equal. lia. Qed.

Lemma number_ok n (xs : list T) :
  0 <= n -> n + lenZ xs <= int_max usize -> number n xs = Ok (numbered n xs).
Proof.
  revert n. induction xs as [|x xs IH]; intros n Hn Hm; [done |].
  unfold lenZ in *. simpl in *. unfold checked.
  rewrite (proj2 (fits_spec usize (n + 1))) by (unfold int_min in *; simpl in *; lia).
  rewrite IH by lia. by rewrite numbered_cons.
Qed.

Lemma collect_results_ok order (batch : list (Z * CatgaResult R)) l :
  collect_results order batch = Ok l -> (fun p => (p.1, Ok p.2)) <$> l = omap (batch !!.) order.
Proof.
  revert l. induction order as [|i order IH]; intros l; simpl; [by intros [= <-] |].
  destruct (batch !! i) as [[k [r|e]]|]; [| done | apply IH].
  intros H. apply rmap_ok_inv in H as (l' & H & ->). simpl. f_equal. auto.
Qed.

Lemma collect_results_err order (batch : list (Z * CatgaResult R)) e :
  collect_results order batch = Err e -> exists i k, batch !! i = Some (k, Err e).
Proof.
  induction order as [|i order IH]; simpl; [done |].
  destruct (batch !! i) as [[k [r|e']]|] eqn:E; [| | apply IH].
  - destruct (collect_results order batch); simpl; [done |]. intros [= <-]. auto.
  - intros [= <-]. eauto.
Qed.

Lemma numbered_sorted {X} n (xs : list (Z * X)) :
  fst <$> xs = fst <$> numbered n xs ->
  StronglySorted (fun a b => fst a <= fst b) xs
  /\ forall a b, a ∈ xs -> b ∈ xs -> fst a = fst b -> a = b.
Proof.
  intros H. assert (forall i a, xs !! i = Some a -> fst a = n + Z.of_nat i) as Hi.
  { intros i a Ha. assert ((fst <$> xs) !! i = Some (fst a)) as E by (by rewrite list_lookup_fmap, Ha).
    rewrite H, list_lookup_fmap in E. unfold numbered in E. rewrite list_lookup_imap, Ha in E.
    simpl in E. congruence. }
  split.
  - clear H. revert n Hi. induction xs as [|x xs IH]; intros n Hi; constructor.
    + apply (IH (n + 1)). intros i a Ha. rewrite (Hi (S i) a Ha). lia.
    + apply Forall_lookup. intros i a Ha. rewrite (Hi 0%nat x eq_refl), (Hi (S i) a Ha). lia.
  - intros a b [i Ha]%list_elem_of_lookup_1 [j Hb]%list_elem_of_lookup_1 E.
    rewrite (Hi _ _ Ha), (Hi _ _ Hb) in E. assert (i = j) as -> by lia. congruence.
Qed.

(** The completed results of a batch, once sorted, are the results of its items in order. *)
Lemma batch_results n items s l order :
  let batch := (fun p => (p.1, work s p.2)) <$> numbered n items in
  order ≡ₚ seq 0 (length batch) -> collect_results order batch = Ok l ->
  Forall2 (fun x r => work s x = Ok r) items (snd <$> merge_sort by_index l).
Proof.
  intros batch Ho Hc. apply collect_results_ok in Hc.
  assert (batch ≡ₚ (fun p => (p.1, Ok p.2)) <$> l) as Hp.
  { rewrite Hc, Ho. by rewrite omap_lookup_seq. }
  apply Permutation_map_inv in Hp as (l' & Hb & Hl).
  assert (fst <$> l' = fst <$> numbered n l') as Hn.
  { assert (fst <$> l' = fst <$> batch) as ->.
    { rewrite Hb. change (List.map ?g l') with (g <$> l'). rewrite <-list_fmap_compose. by apply list_fmap_ext. }
    unfold batch. rewrite <-list_fmap_compose.
    assert (length l' = length items) as Hlen.
    { apply (f_equal length) in Hb. unfold batch, numbered in Hb.
      rewrite length_map, length_fmap, length_imap in Hb. done. }
    apply list_eq. intros i. rewrite !list_lookup_fmap. unfold numbered. rewrite !list_lookup_imap.
    destruct (items !! i) as [x|] eqn:Ex.
    - destruct (lookup_lt_is_Some_2 l' i) as [y Ey].
      { rewrite Hlen. by apply lookup_lt_Some in Ex. }
      rewrite Ey. done.
    - apply lookup_ge_None in Ex. rewrite (lookup_ge_None_2 l') by lia. done. }
  destruct (numbered_sorted _ _ Hn) as [Hs Hu].
  assert (merge_sort by_index l = l') as ->.
  { apply (StronglySorted_unique_strong by_index).
    - intros a b Ha Hb' H1 H2. apply Hu; [| done | unfold by_index in *; lia].
      by rewrite <-Hl, <-(merge_sort_Permutation by_index).
    - apply StronglySorted_merge_sort; unfold by_index;
        [intros ? ? ? ? ?; lia | intros a b; lia].
    - done.
    - by rewrite merge_sort_Permutation. }
  apply Forall2_lookup. intros i. rewrite list_lookup_fmap.
  assert (batch !! i = (fun p : Z * R => (p.1, Ok p.2)) <$> l' !! i) as Hbi.
  { rewrite Hb. change (List.map ?g l') with (g <$> l'). apply list_lookup_fmap. }
  unfold batch, numbered in Hbi. rewrite list_lookup_fmap, list_lookup_imap in Hbi.
  destruct (items !! i), (l' !! i); simpl in *; simplify_eq; by constructor.
Qed.

Lemma concurrent_loop_batched fuel b n items s s' r :
  (forall b k, arrivals b k ≡ₚ seq 0 k) -> (0 < limit)%nat -> (length items < fuel)%nat ->
  0 <= n -> n + lenZ items <= int_max usize ->
  concurrent_loop limit work reduce arrivals fuel b n items s = (s', r) -> batched items s s' r.
Proof.
  intros Har Hlim. revert b n items s. induction fuel as [|fuel IH]; intros b n items s Hf Hn Hm; [lia |].
  cbn [concurrent_loop]. cbv zeta. unfold lenZ in *.
  rewrite number_ok; [| done | unfold lenZ; rewrite length_take; lia].
  set (batch := _ <$> numbered n (take limit items)).
  destruct (collect_results (arrivals b (length batch)) batch) as [l|e] eqn:Ec.
  - pose proof (batch_results n (take limit items) s l _ (Har b _) Ec) as Hres.
    assert (l = [] -> items = []) as Hnil.
    { intros ->. simpl in Hres. apply Forall2_nil_inv_r in Hres.
      destruct items, limit; done || lia. }
    destruct l as [|x l].
    { intros [= <- <-]. rewrite Hnil by done. constructor. }
    destruct (each reduce _ s) as [s1 [[]|e]] eqn:Ee.
    + intros H. eapply bt_next; [| done | done | ].
      * intros ->. apply Forall2_length in Hres. rewrite length_fmap, merge_sort_Permutation in Hres.
        rewrite take_nil in Hres. done.
      * eapply IH; [.. | done]; rewrite ?length_take, ?length_drop; [| lia | lia].
        destruct items as [|y items]; [| simpl in *; lia].
        apply Forall2_length in Hres. rewrite length_fmap, merge_sort_Permutation, take_nil in Hres. done.
    + intros [= <- <-]. by eapply bt_reduce.
  - intros [= <- <-]. apply collect_results_err in Ec as (i & k & Hi). unfold batch, numbered in Hi.
    rewrite list_lookup_fmap, list_lookup_imap in Hi.
    destruct (take limit items !! i) as [x|] eqn:Ex; simpl in Hi; [| done]. simplify_eq.
    eapply bt_work; [by eapply list_elem_of_lookup_2 | done].
Qed.

(** The concurrent stream loop gives what its contract says whatever the order in which the
    futures of a batch complete. *)
Theorem concurrent_stream_exact items s s' r :
  (forall b k, arrivals b k ≡ₚ seq 0 k) -> (0 < limit)%nat -> lenZ items <= int_max usize ->
  concurrent_run limit work reduce arrivals items s = (s', r) -> batched items s s' r.
Proof. intros. eapply concurrent_loop_batched; eauto; lia. Qed.

Lemma forall2_work_det s xs rs rs' :
  Forall2 (fun x r => work s x = Ok r) xs rs -> Forall2 (fun x r => work s x = Ok r) xs rs' -> rs = rs'.
Proof.
  intros H. revert rs'. induction H; intros rs' H'; inversion H'; simplify_eq; [done |].
  f_equal; [congruence | auto].
Qed.

(** A batch in which every work succeeds leaves nothing to the order of completion. *)
Lemma batched_det items s s1 s2 r1 r2 :
  (forall s x e, work s x <> Err e) -> batched items s s1 r1 -> batched items s s2 r2 ->
  s1 = s2 /\ r1 = r2.
Proof.
  intros Hw H. revert s2 r2. induction H as [s|items s x e Hx E|items rs s s' e Hr E|items rs s s1 s2' r Hne Hr E H IH];
    intros s2 r2 H2.
  - inversion H2; simplify_eq; [done | by exfalso; eapply Hw |].
    rewrite take_nil in *. match goal with H : Forall2 _ [] _ |- _ => inversion H end. simplify_eq.
  - by exfalso; eapply Hw.
  - inversion H2 as [|? ? ? ? ? E2|? rs' ? ? ? Hr' E2|? rs' ? ? ? ? ? Hr' E2]; simplify_eq.
    + rewrite take_nil in *. inversion Hr; simplify_eq.
    + by exfalso; eapply Hw.
    + rewrite (forall2_work_det _ _ _ _ Hr Hr') in E. rewrite E in E2. by simplify_eq.
    + rewrite (forall2_work_det _ _ _ _ Hr Hr') in E. rewrite E in E2. by simplify_eq.
  - inversion H2 as [|? ? ? ? ? E2|? rs' ? ? ? Hr' E2|? rs' ? ? ? ? ? Hr' E2 H3]; simplify_eq.
    + by exfalso; eapply Hw.
    + rewrite (forall2_work_det _ _ _ _ Hr Hr') in E. rewrite E in E2. by simplify_eq.
    + rewrite (forall2_work_det _ _ _ _ Hr Hr') in E. rewrite E in E2. simplify_eq. auto.
Qed.
End batches.

(** ** Decorated steps *)

Fixpoint first_failure (failures : list ((St -> bool) * (St -> CatgaError))) (s : St) : option CatgaError :=
  match failures with
  | [] => None
  | (c, error) :: rest => if c s then Some (error s) else first_failure rest s
  end.

Lemma only_when_all conds d s :
  let d' := foldl only_when d conds in
  ds_action d' = ds_action d /\ ds_failure d' = ds_failure d /\ ds_optional d' = ds_optional d
  /\ match ds_condition d' with Some c => c s | None => true end
     = match ds_condition d with Some c => c s | None => true end && forallb (fun c => c s) conds.
Proof.
  cbv zeta. revert d. induction conds as [|c conds IH]; intros d; simpl; [by rewrite andb_true_r |].
  destruct (IH (only_when d c)) as (-> & -> & -> & ->). simpl. split_and!; [done.. |].
  destruct (ds_condition d); simpl; by rewrite ?andb_assoc.
Qed.

Lemma fail_if_all failures d s :
  let d' := foldl (fun d f => fail_if_with d f.1 f.2) d failures in
  ds_action d' = ds_action d /\ ds_condition d' = ds_condition d /\ ds_optional d' = ds_optional d
  /\ match ds_failure d' with Some f => f s | None => None end
     = match match ds_failure d with Some f => f s | None => None end with
       | Some e => Some e
       | None => first_failure failures s
       end.
Proof.
  cbv zeta. revert d. induction failures as [|[c error] failures IH]; intros d; simpl.
  { split_and!; [done.. |]. destruct (ds_failure d) as [f|]; [by destruct (f s) | done]. }
  destruct (IH (fail_if_with d c error)) as (-> & -> & -> & ->). simpl. split_and!; [done.. |].
  unfold or_failure, failure_when. destruct (ds_failure d) as [f|]; [destruct (f s); [done |] |];
    by destruct (c s).
Qed.

(** A decorated step runs its action only when all its conditions hold in the state before it,
    and then fails with the first failure condition that holds in the state after it, in the
    order they were registered; a failure of the action itself is ignored by an optional step
    unless it is a cancellation, and then no failure condition is looked at. *)
Theorem decorated_step_exact a conds failures (opt : bool) s :
  let d := foldl (fun d f => fail_if_with d f.1 f.2) (foldl only_when (step_action a) conds) failures in
  into_action (if opt then optional d else d) s
  = if forallb (fun c => c s) conds
    then match a s with
         | (s', Ok _) => (s', match first_failure failures s' with Some e => Err e | None => Ok tt end)
         | (s', Err e) => (s', if ignored opt e then Ok tt else Err e)
         end
    else (s, Ok tt).
Proof.
  cbv zeta. set (d0 := foldl only_when (step_action a) conds). set (d := foldl _ d0 failures).
  destruct (only_when_all conds (step_action a) s) as (Ha & Hf & Ho & Hc).
  assert (forall s', match ds_failure d with Some f => f s' | None => None end = first_failure failures s')
    as Hfail.
  { intros s'. destruct (fail_if_all failures d0 s') as (_ & _ & _ & H). unfold d. rewrite H.
    unfold d0. by rewrite Hf. }
  destruct (fail_if_all failures d0 s) as (Ha' & Hc' & Ho' & _). fold d in Ha', Hc', Ho'.
  assert (into_action (if opt then optional d else d) s
    = into_action (mkDslStep (ds_action d) (ds_condition d) (ds_failure d) opt) s) as ->.
  { destruct opt; [done |]. unfold into_action. simpl. by rewrite Ho'; unfold d0; rewrite Ho. }
  unfold into_action. simpl. rewrite Ha', Hc'. unfold d0. rewrite Ha. simpl in *.
  destruct (ds_condition (foldl only_when (step_action a) conds)) as [c|]; rewrite <-Hc; simpl.
  - destruct (c s); simpl; [| done]. destruct (a s) as [s' [[]|e]]; [| done]. rewrite Hfail.
    by destruct (first_failure failures s').
  - destruct (a s) as [s' [[]|e]]; [| done]. rewrite Hfail. by destruct (first_failure failures s').
Qed.

End dsl.

Arguments Action : clear implicits.
Arguments TimedAction : clear implicits.
Arguments Step : clear implicits.
Arguments DslFlow : clear implicits.
Arguments DslFlowLifecycleHooks : clear implicits.
Arguments ReplayableForEach : clear implicits.
Arguments Out : clear implicits.

(** ** Small runs

    The state is a log of numbers. *)

Module Demo.

Definition boom : CatgaError := CatgaError_new Internal "boom".
Definition add (n : Z) : Action (list Z) := fun s => (s ++ [n], Ok tt).
Definition add_fail (n : Z) : Action (list Z) := fun s => (s ++ [n], Err boom).
Definition in_order (outs : list (Out (list Z))) : list nat * (nat -> nat) :=
  (seq 0 (length outs), fun _ => 0%nat).
Definition backwards (outs : list (Out (list Z))) : list nat * (nat -> nat) :=
  (rev (seq 0 (length outs)), fun _ => 0%nat).

(** Two compensable steps, a plain one, and a failing one: the rollbacks run latest first. *)
Definition booking : DslFlow (list Z) :=
  action (action (compensate (compensate flow_new (add 1) (add 101)) (add 2) (add_fail 102)) (add 3))
    (add_fail 4).

Example booking_rolled_back :
  run_compensatable in_order booking []
  = ([Counted FLOWS_STARTED; Counted FLOWS_FAILED; RollbackFailed 1 boom; Counted FLOWS_FAILED],
     [1; 2; 3; 4; 102; 101], flow_failure 3 boom).
Proof. vm_compute. reflexivity. Qed.

(** A failed flow is counted once by [run], and twice by [run_compensatable]. *)
Example failure_counted_twice :
  out_notes (run in_order (action flow_new (add_fail 1)) []) = [Counted FLOWS_STARTED; Counted FLOWS_FAILED]
  /\ fst (fst (run_compensatable in_order (action flow_new (add_fail 1)) []))
     = [Counted FLOWS_STARTED; Counted FLOWS_FAILED; Counted FLOWS_FAILED].
Proof. by vm_compute. Qed.

(** The compensable step of a nested branch is not undone when a later step fails. *)
Example nested_not_rolled_back :
  snd (fst (run_compensatable in_order
    (action (if_else flow_new (fun _ => true) (compensate flow_new (add 1) (add 101)) flow_new)
       (add_fail 2)) []))
  = [1; 2].
Proof. by vm_compute. Qed.

(** A failing success hook ends the flow with the completed steps in place, and reports the
    step it was called for as not completed. *)
Definition hooked : DslFlow (list Z) :=
  with_lifecycle_hooks (compensate (compensate flow_new (add 1) (add 101)) (add 2) (add 102))
    (on_step_succeeded hooks_new (fun _ i => if (i =? 1)%nat then Err boom else Ok tt)).

Example hook_failure_not_rolled_back :
  snd (fst (run_compensatable in_order hooked [])) = [1; 2]
  /\ snd (run_compensatable in_order hooked []) = flow_failure 1 boom.
Proof. by vm_compute. Qed.

Lemma compensation_exact_witness :
  comp_end in_order booking [] [1; 2; 3; 4; 102; 101] (flow_failure 3 boom)
  /\ comp_end in_order hooked [] [1; 2] (flow_failure 1 boom).
Proof. split; eapply compensation_exact; vm_compute; reflexivity. Defined.

Lemma retry_exact_witness :
  exists n s1, (n <= 2)%nat
    /\ attempts (fun s => (s ++ [0], if (length s <? 2)%nat then fail Transient "busy" else Ok tt)) n [] s1
    /\ (s1 ++ [0], if (length s1 <? 2)%nat then fail Transient "busy" else Ok tt) = ([0; 0; 0], Ok tt)
    /\ [Slept 5; Slept 10] = slept 5 0 n
    /\ (forall e, @Ok CatgaError unit tt = Err e -> code e = Transient -> n = 2%nat).
Proof.
  apply (retry_exact in_order (fun s => (s ++ [0], if (length s <? 2)%nat then fail Transient "busy" else Ok tt))).
  vm_compute. reflexivity.
Defined.

(** Batches of two, each completing backwards *)
Lemma concurrent_stream_exact_witness :
  batched 2 (fun s x => Ok (x * 10 + Z.of_nat (length s))) (fun s r => (s ++ [r], Ok tt))
    [1; 2; 3; 4; 5] [] [10; 20; 32; 42; 54] (Ok tt).
Proof.
  apply (concurrent_stream_exact 2 _ _ (fun _ n => rev (seq 0 n))).
  - intros _ k. symmetry. apply Permutation_rev.
  - lia.
  - vm_compute. discriminate.
  - vm_compute. reflexivity.
Defined.

Lemma when_any_exact_witness :
  let bs := [action flow_new (add 1); action flow_new (add_fail 2)] in
  let after b := run backwards b [] in
  exists i b n, bs !! i = Some b /\ out_result (after b) = Ok tt
    /\ (out_state (run_step backwards (WhenAny bs id (fun s w => (s ++ w, Ok tt))) []),
        out_result (run_step backwards (WhenAny bs id (fun s w => (s ++ w, Ok tt))) []))
       = ([] ++ out_state (after b), Ok tt)
    /\ (backwards (after <$> bs)).1 !! n = Some i
    /\ forall j b', j ∈ take n (backwards (after <$> bs)).1 -> bs !! j = Some b' ->
         out_result (after b') <> Ok tt.
Proof.
  cbv zeta.
  edestruct (when_any_exact backwards [action flow_new (add 1); action flow_new (add_fail 2)] id
    (fun s w => (s ++ w, Ok tt)) []) as [H|[H _]].
  - intros outs. symmetry. apply Permutation_rev.
  - simpl. lia.
  - exact H.
  - exfalso. inversion H as [|? ? H1]. by apply H1.
Defined.

End Demo.
