(* ===== verification/DslProgress.v ===== *)
(** * Durable DSL progress ([flow/dsl_progress.rs], [flow/dsl_checkpoint.rs],
      [memory/dsl_progress.rs], [flow/memorypack.rs])

    The progress record of one step of a flow, the in-memory store of such records, and the
    checkpoint frame: the bytes in which a position inside a nested step is saved, with the
    work cursor in MemoryPack.  A frame that fits the limits of the decoder is read back as it
    was written; the writer also accepts cursors that the decoder refuses. *)

From stdpp Require Import pretty.
From S2P Require Import Prelude Utf8 Errors Time Wire Codec.

(** ** Times on the wire *)

Record TimeWire := mkTimeWire { tw_before_epoch : bool; tw_seconds : Z; tw_nanoseconds : Z }.

Definition encode_time (value : SystemTime) : TimeWire :=
  let '(before, d) := match duration_since_epoch value with
                      | Ok d => (false, d) | Err d => (true, d) end in
  mkTimeWire before (as_secs d) (subsec_nanos d).

Definition decode_time (value : TimeWire) : MPResult SystemTime :=
  if NANOS_PER_SEC <=? tw_nanoseconds value
  then Err (DeserializationError "flow timestamp nanoseconds are out of range")
  else
    let d := tw_seconds value * NANOS_PER_SEC + tw_nanoseconds value in
    ok_or (if tw_before_epoch value then time_checked_sub 0 d else time_checked_add 0 d)
      (DeserializationError "flow timestamp is out of range").

Definition TIME_WIRE_BYTES : nat := 13.

Definition encode_time_wire (value : SystemTime) : list Z :=
  let wire := encode_time value in
  (if tw_before_epoch wire then 1 else 0) :: be_bytes 8 (tw_seconds wire) ++ be_bytes 4 (tw_nanoseconds wire).

Definition decode_time_wire (value : list Z) : MPResult SystemTime :=
  if negb (length value =? TIME_WIRE_BYTES)%nat
  then Err (DeserializationError "flow timestamp wire size is invalid")
  else
    let? before := match head value with
      | Some 0 => Ok false
      | Some 1 => Ok true
      | _ => Err (DeserializationError "flow timestamp epoch flag is invalid")
      end in
    decode_time (mkTimeWire before (be_value (take 8 (drop 1 value))) (be_value (take 4 (drop 9 value)))).

Definition time_wire_codec : Codec TimeWire :=
  object_codec 3 (pair_codec bool_codec (pair_codec (int_codec u64) (int_codec u32)))
    (fun w => (tw_before_epoch w, (tw_seconds w, tw_nanoseconds w)))
    (fun f => mkTimeWire (fst f) (fst (snd f)) (snd (snd f))) 16.

Record DurationWire := mkDurationWire { dw_seconds : Z; dw_nanoseconds : Z }.

Definition encode_duration (value : Duration) : DurationWire :=
  mkDurationWire (as_secs value) (subsec_nanos value).

(** [Duration::new] carries nanoseconds beyond a second into the seconds, and panics ([None])
    when these no longer fit. *)
Definition decode_duration (value : DurationWire) : option Duration :=
  if fits u64 (dw_seconds value + dw_nanoseconds value / NANOS_PER_SEC)
  then Some (dw_seconds value * NANOS_PER_SEC + dw_nanoseconds value) else None.

Definition duration_wire_codec : Codec DurationWire :=
  object_codec 2 (pair_codec (int_codec u64) (int_codec u32))
    (fun w => (dw_seconds w, dw_nanoseconds w)) (fun f => mkDurationWire (fst f) (snd f)) 16.

(** ** Progress records *)

Inductive DslProgressKind := ApplicationState | CheckpointFrameKind | TerminalKind.

#[global] Instance kind_eq_dec : EqDecision DslProgressKind.
Proof. solve_decision. Defined.

Definition encode_progress_kind (k : DslProgressKind) : Z :=
  match k with ApplicationState => 0 | CheckpointFrameKind => 1 | TerminalKind => 2 end.
Definition decode_progress_kind (v : Z) : MPResult DslProgressKind :=
  match v with
  | 0 => Ok ApplicationState
  | 1 => Ok CheckpointFrameKind
  | 2 => Ok TerminalKind
  | _ => Err (DeserializationError ("invalid DSL progress kind: " +:+ pretty v))
  end.

Record DslStepProgress := mkProgress {
  p_flow_id : string;
  p_step_index : Z;
  p_version : Z;
  p_kind : DslProgressKind;
  p_payload : list Z;
  p_updated_at : SystemTime
}.

(** [now] is the clock reading the method takes. *)
Definition progress_new (flow_id : string) (step_index : Z) (payload : list Z) (now : SystemTime)
    : DslStepProgress := mkProgress flow_id step_index 0 ApplicationState payload now.

Definition bump_version (p : DslStepProgress) : CatgaResult Z :=
  ok_or (checked i64 (p_version p + 1))
    (CatgaError_new Conflict "DSL step progress version cannot advance beyond i64::MAX").

Definition next_version (p : DslStepProgress) (payload : list Z) (now : SystemTime)
    : CatgaResult DslStepProgress :=
  let? version := bump_version p in
  Ok (mkProgress (p_flow_id p) (p_step_index p) version (p_kind p) payload now).

Definition completed_application_state (p : DslStepProgress) (payload : list Z) (now : SystemTime)
    : CatgaResult DslStepProgress :=
  let? version := bump_version p in
  Ok (mkProgress (p_flow_id p) (p_step_index p) version ApplicationState payload now).

Definition checkpoint_frame (p : DslStepProgress) (payload : list Z) : DslStepProgress :=
  mkProgress (p_flow_id p) (p_step_index p) (p_version p) CheckpointFrameKind payload (p_updated_at p).

Definition terminal (p : DslStepProgress) (payload : list Z) : DslStepProgress :=
  mkProgress (p_flow_id p) (p_step_index p) (p_version p) TerminalKind payload (p_updated_at p).

Definition progress_is_next_version (expected next : Z) : bool :=
  match checked i64 (expected + 1) with Some candidate => candidate =? next | None => false end.

(** *** The record on the wire *)

Section progress_wire.
Context `{Utf8Validator}.

Record DslStepProgressWire := mkProgressWire {
  pw_flow_id : string; pw_step_index : Z; pw_version : Z; pw_kind : Z; pw_payload : list Z;
  pw_updated_at : TimeWire
}.

Definition bytes_codec : Codec (list Z) := vec_codec (int_codec u8).

Definition progress_wire_codec : Codec DslStepProgressWire :=
  object_codec 6
    (pair_codec string_codec (pair_codec (int_codec u32) (pair_codec (int_codec i64)
      (pair_codec (int_codec u8) (pair_codec bytes_codec time_wire_codec)))))
    (fun w => (pw_flow_id w, (pw_step_index w, (pw_version w, (pw_kind w, (pw_payload w, pw_updated_at w))))))
    (fun '(a, (b, (c, (d, (e, f))))) => mkProgressWire a b c d e f) 88.

Definition progress_codec : Codec DslStepProgress :=
  mkCodec
    (fun p => serialize progress_wire_codec
       (mkProgressWire (p_flow_id p) (p_step_index p) (p_version p) (encode_progress_kind (p_kind p))
          (p_payload p) (encode_time (p_updated_at p))))
    (let! w := deserialize progress_wire_codec in
     let! k := st_lift (decode_progress_kind (pw_kind w)) in
     let! t := st_lift (decode_time (pw_updated_at w)) in
     st_ret (mkProgress (pw_flow_id w) (pw_step_index w) (pw_version w) k (pw_payload w) t)) 80.

End progress_wire.

(** ** Stores of progress

    The operations a flow needs, as the trait [DslStepProgressStore] lists them. *)

Class ProgressStore (P : Type) := {
  ps_create : DslStepProgress -> P -> CatgaResult bool * P;
  ps_update : Z -> DslStepProgress -> P -> CatgaResult bool * P;
  ps_get : string -> Z -> P -> CatgaResult (option DslStepProgress) * P;
  ps_delete : string -> Z -> P -> CatgaResult bool * P
}.

Abbreviation MemoryDslStepProgress := (gmap (string * Z) DslStepProgress).

Definition progress_key (p : DslStepProgress) : string * Z := (p_flow_id p, p_step_index p).

Definition mem_create (p : DslStepProgress) (m : MemoryDslStepProgress)
    : CatgaResult bool * MemoryDslStepProgress :=
  match m !! progress_key p with
  | None => (Ok true, <[progress_key p := p]> m)
  | Some _ => (Ok false, m)
  end.

Definition mem_update (expected_version : Z) (next : DslStepProgress) (m : MemoryDslStepProgress)
    : CatgaResult bool * MemoryDslStepProgress :=
  if negb (progress_is_next_version expected_version (p_version next)) then (Ok false, m)
  else match m !! progress_key next with
       | Some current => if p_version current =? expected_version
                         then (Ok true, <[progress_key next := next]> m) else (Ok false, m)
       | None => (Ok false, m)
       end.

Definition mem_get (flow_id : string) (step_index : Z) (m : MemoryDslStepProgress)
    : CatgaResult (option DslStepProgress) * MemoryDslStepProgress :=
  (Ok (m !! (flow_id, step_index)), m).

Definition mem_delete (flow_id : string) (step_index : Z) (m : MemoryDslStepProgress)
    : CatgaResult bool * MemoryDslStepProgress :=
  (Ok (bool_decide (is_Some (m !! (flow_id, step_index)))), delete (flow_id, step_index) m).

#[export] Instance memory_progress : ProgressStore MemoryDslStepProgress := {|
  ps_create := mem_create; ps_update := mem_update; ps_get := mem_get; ps_delete := mem_delete
|}.

(** ** Checkpoint frames *)

Definition MAX_CHECKPOINT_PATH_DEPTH : nat := 32.
Definition CHECKPOINT_FRAME_MAGIC : list Z := [67; 68; 70; 49].
Definition CHECKPOINT_FRAME_VERSION : Z := 1.
Definition CHECKPOINT_FRAME_HEADER_BYTES : Z := 10.
Definition CHECKPOINT_LEVEL_BYTES : Z := 8.
Definition MAX_CHECKPOINT_STATE_BYTES : Z := 1024 * 1024.
Definition MAX_CHECKPOINT_FRAME_BYTES : Z :=
  CHECKPOINT_FRAME_HEADER_BYTES + CHECKPOINT_LEVEL_BYTES * 32 + MAX_CHECKPOINT_STATE_BYTES.

Record CheckpointLevel := mkLevel { lv_branch : Z; lv_next_step : Z }.

Inductive ParallelBranchProgress :=
| BranchCompleted (state : list Z)
| BranchInProgress (step_index : Z) (is_frame : bool) (payload : list Z).

Inductive CheckpointWork :=
| WorkBranch
| WorkForEach (next_index total : Z)
| WorkReplayable (next_index : Z) (items : list (list Z))
| WorkParallel (states : list (option (list Z)))
| WorkWhenAny (winner : Z) (state : list Z)
| WorkParallelBranches (branches : list (option ParallelBranchProgress)).

Record CheckpointFrame := mkFrame {
  fr_levels : list CheckpointLevel;
  fr_state : list Z;
  fr_work : CheckpointWork
}.

(** *** The work cursor

    The derived wire records of the cursor; the third argument of [object_codec] is not read by
    any codec here. *)

Definition for_each_wire : Codec (Z * Z) :=
  object_codec 2 (pair_codec (int_codec u32) (int_codec u32)) id id 8.
Definition replayable_wire : Codec (Z * list (list Z)) :=
  object_codec 2 (pair_codec (int_codec u32) (vec_codec bytes_codec)) id id 32.
Definition parallel_wire : Codec (list (option (list Z))) :=
  object_codec 1 (vec_codec (option_codec bytes_codec [] 24)) id id 24.
Definition when_any_wire : Codec (Z * list Z) :=
  object_codec 2 (pair_codec (int_codec u32) bytes_codec) id id 32.
Definition completed_wire : Codec (list Z) := object_codec 1 bytes_codec id id 24.
Definition in_progress_wire : Codec (Z * (bool * list Z)) :=
  object_codec 3 (pair_codec (int_codec u32) (pair_codec bool_codec bytes_codec)) id id 32.

Definition branch_codec : Codec ParallelBranchProgress :=
  mkCodec
    (fun b => match b with
       | BranchCompleted state => write_u8 0 ;;; serialize completed_wire state
       | BranchInProgress i f p => write_u8 1 ;;; serialize in_progress_wire (i, (f, p))
       end)
    (let! tag := read_u8 in
     if tag =? 0 then let! state := deserialize completed_wire in st_ret (BranchCompleted state)
     else if tag =? 1 then
       let! w := deserialize in_progress_wire in st_ret (BranchInProgress (fst w) (fst (snd w)) (snd (snd w)))
     else st_throw (DeserializationError ("invalid DSL parallel branch tag: " +:+ pretty tag))) 32.

Definition branches_wire : Codec (list (option ParallelBranchProgress)) :=
  object_codec 1 (vec_codec (option_codec branch_codec (BranchCompleted []) 32)) id id 24.

Definition work_codec : Codec CheckpointWork :=
  mkCodec
    (fun w => match w with
       | WorkBranch => write_u8 0
       | WorkForEach n t => write_u8 1 ;;; serialize for_each_wire (n, t)
       | WorkReplayable n items => write_u8 2 ;;; serialize replayable_wire (n, items)
       | WorkParallel states => write_u8 3 ;;; serialize parallel_wire states
       | WorkWhenAny n state => write_u8 4 ;;; serialize when_any_wire (n, state)
       | WorkParallelBranches bs => write_u8 5 ;;; serialize branches_wire bs
       end)
    (let! tag := read_u8 in
     if tag =? 0 then st_ret WorkBranch
     else if tag =? 1 then let! w := deserialize for_each_wire in st_ret (WorkForEach (fst w) (snd w))
     else if tag =? 2 then let! w := deserialize replayable_wire in st_ret (WorkReplayable (fst w) (snd w))
     else if tag =? 3 then let! w := deserialize parallel_wire in st_ret (WorkParallel w)
     else if tag =? 4 then let! w := deserialize when_any_wire in st_ret (WorkWhenAny (fst w) (snd w))
     else if tag =? 5 then let! w := deserialize branches_wire in st_ret (WorkParallelBranches w)
     else st_throw (DeserializationError ("invalid DSL checkpoint work tag: " +:+ pretty tag))) 32.

(** *** Encoding and decoding

    The lengths below the checked limits fit every machine integer, so the conversions that
    cannot fail after the checks are left out. *)

Definition level_bytes (l : CheckpointLevel) : list Z := be_bytes 4 (lv_branch l) ++ be_bytes 4 (lv_next_step l).

Definition frame_encode (levels : list CheckpointLevel) (state : list Z) (work : CheckpointWork)
    : CatgaResult (list Z) :=
  if (MAX_CHECKPOINT_PATH_DEPTH <? length levels)%nat
  then fail Validation "DSL checkpoint path exceeds the maximum depth"
  else if MAX_CHECKPOINT_STATE_BYTES <? lenZ state
  then fail Validation "DSL checkpoint state exceeds the maximum size"
  else
    let? work := map_err (fun _ => CatgaError_new Validation "DSL checkpoint work cursor cannot be encoded")
                   (serialize_frame work_codec work) in
    let? work_len := ok_or (checked u32 (lenZ work))
      (CatgaError_new Validation "DSL checkpoint work cursor is too large") in
    let capacity := CHECKPOINT_FRAME_HEADER_BYTES + lenZ levels * CHECKPOINT_LEVEL_BYTES
                    + lenZ state + 4 + lenZ work in
    if MAX_CHECKPOINT_FRAME_BYTES <? capacity
    then fail Validation "DSL checkpoint frame exceeds the maximum size"
    else Ok (CHECKPOINT_FRAME_MAGIC ++ [CHECKPOINT_FRAME_VERSION; lenZ levels]
             ++ concat (level_bytes <$> levels) ++ be_bytes 4 (lenZ state) ++ state
             ++ be_bytes 4 work_len ++ work).

(** [payload[from..to]] *)
Definition slice (from to : nat) (bs : list Z) : list Z := take (to - from) (drop from bs).

Fixpoint decode_levels (count : nat) (offset : nat) (payload : list Z) : list CheckpointLevel :=
  match count with
  | O => []
  | S count' =>
      mkLevel (be_value (slice offset (offset + 4) payload)) (be_value (slice (offset + 4) (offset + 8) payload))
      :: decode_levels count' (offset + 8) payload
  end.

Definition frame_decode (payload : list Z) : CatgaResult (option CheckpointFrame) :=
  if negb (bool_decide (take 4 payload = CHECKPOINT_FRAME_MAGIC)) then Ok None
  else if (MAX_CHECKPOINT_FRAME_BYTES <? lenZ payload) || (lenZ payload <? CHECKPOINT_FRAME_HEADER_BYTES)
  then fail Validation "DSL checkpoint frame has an invalid size"
  else if negb (default 0 (payload !! 4%nat) =? CHECKPOINT_FRAME_VERSION)
  then fail Validation "DSL checkpoint frame has an unsupported version"
  else
    let level_count := Z.to_nat (default 0 (payload !! 5%nat)) in
    if (MAX_CHECKPOINT_PATH_DEPTH <? level_count)%nat
    then fail Validation "DSL checkpoint frame exceeds the maximum path depth"
    else
      let state_length_offset := (6 + 8 * level_count)%nat in
      let state_offset := (state_length_offset + 4)%nat in
      if (length payload <? state_offset)%nat then fail Validation "DSL checkpoint frame is truncated"
      else
        let state_len := be_value (slice state_length_offset state_offset payload) in
        if MAX_CHECKPOINT_STATE_BYTES <? state_len
        then fail Validation "DSL checkpoint state exceeds the maximum size"
        else
          let expected_len := (state_offset + Z.to_nat state_len)%nat in
          let? work :=
            if (expected_len =? length payload)%nat then Ok WorkBranch
            else
              let work_length_end := (expected_len + 4)%nat in
              if (length payload <? work_length_end)%nat
              then fail Validation "DSL checkpoint work cursor is truncated"
              else
                let work_len := be_value (slice expected_len work_length_end payload) in
                let work_end := (work_length_end + Z.to_nat work_len)%nat in
                if negb (work_end =? length payload)%nat
                then fail Validation "DSL checkpoint work cursor has an invalid length"
                else map_err (fun _ => CatgaError_new Validation "DSL checkpoint work cursor is invalid")
                       (deserialize_bounded work_codec (slice work_length_end work_end payload) Limits_default) in
          Ok (Some (mkFrame (decode_levels level_count 6 payload) (slice state_offset expected_len payload) work)).

(** *** The terminal record *)

Definition terminal_codec : Codec (list Z) := object_codec 1 bytes_codec id id 24.

(** ** Round trips *)

Lemma secs_nanos d : as_secs d * NANOS_PER_SEC + subsec_nanos d = d.
Proof. unfold as_secs, subsec_nanos. rewrite Z.mul_comm. symmetry. by apply Z.div_mod. Qed.

Lemma subsec_nanos_lt d : 0 <= subsec_nanos d < NANOS_PER_SEC.
Proof. unfold subsec_nanos. by apply Z.mod_pos_bound. Qed.

Lemma decode_encode_time t : system_time_ok t = true -> decode_time (encode_time t) = Ok t.
Proof.
  intros Ht. unfold decode_time, encode_time, duration_since_epoch, time_checked_add, time_checked_sub.
  destruct (Z.leb_spec 0 t); cbn [tw_nanoseconds tw_seconds tw_before_epoch]; rewrite secs_nanos;
    rewrite (proj2 (Z.leb_gt _ _)) by apply subsec_nanos_lt.
  - by replace (0 + t) with t by lia; rewrite Ht.
  - by replace (0 - - t) with t by lia; rewrite Ht.
Qed.

Lemma encode_time_range t :
  system_time_ok t = true ->
  int_min u64 <= tw_seconds (encode_time t) <= int_max u64
  /\ int_min u32 <= tw_nanoseconds (encode_time t) <= int_max u32.
Proof.
  intros Ht. unfold system_time_ok in Ht. apply andb_prop in Ht as [H1%Z.leb_le H2%Z.ltb_lt].
  unfold encode_time, duration_since_epoch.
  assert (forall d, 0 <= d <= 2 ^ 63 * NANOS_PER_SEC ->
    int_min u64 <= as_secs d <= int_max u64 /\ int_min u32 <= subsec_nanos d <= int_max u32) as H.
  { intros d Hd. pose proof (subsec_nanos_lt d). unfold as_secs, NANOS_PER_SEC in *.
    assert (0 <= d / 1000000000 <= 2 ^ 63).
    { split; [apply Z.div_pos; lia | apply Z.div_le_upper_bound; lia]. }
    int_bounds. lia. }
  destruct (Z.leb_spec 0 t); cbn [tw_seconds tw_nanoseconds]; apply H; unfold NANOS_PER_SEC in *; lia.
Qed.

Lemma be_value_4 v : int_min u32 <= v <= int_max u32 -> be_value (be_bytes 4 v) = v.
Proof.
  intros Hv. unfold be_value, be_bytes. rewrite rev_involutive, le_value_le_bytes.
  apply Z.mod_small. int_bounds. simpl. lia.
Qed.

Lemma length_be_bytes n v : length (be_bytes n v) = n.
Proof. unfold be_bytes. by rewrite length_rev, length_le_bytes. Qed.

Lemma slice_app pre bs rest from to :
  length pre = from -> (from + length bs)%nat = to -> slice from to (pre ++ bs ++ rest) = bs.
Proof.
  intros <- <-. unfold slice. rewrite drop_app_length.
  replace (length pre + length bs - length pre)%nat with (length bs) by lia. apply take_app_length.
Qed.

(** A flow timestamp survives its fixed wire form. *)
Theorem time_wire_roundtrip t :
  system_time_ok t = true -> decode_time_wire (encode_time_wire t) = Ok t.
Proof.
  intros Ht. unfold decode_time_wire, encode_time_wire. set (w := encode_time t).
  destruct (encode_time_range t Ht) as [Hs Hn].
  assert (length ((if tw_before_epoch w then 1 else 0) :: be_bytes 8 (tw_seconds w)
     ++ be_bytes 4 (tw_nanoseconds w)) = TIME_WIRE_BYTES) as Hl.
  { cbn [length]. by rewrite length_app, !length_be_bytes. }
  rewrite Hl. simpl negb. cbv iota.
  assert (forall x l, take 8 (drop 1 (x :: be_bytes 8 (tw_seconds w) ++ l)) = be_bytes 8 (tw_seconds w)) as E1.
  { intros x l. change (drop 1 (x :: ?m)) with m.
    replace 8%nat with (length (be_bytes 8 (tw_seconds w))) at 1 by apply length_be_bytes.
    apply take_app_length. }
  assert (forall x l, take 4 (drop 9 (x :: be_bytes 8 (tw_seconds w) ++ l)) = take 4 l) as E2.
  { intros x l. change (drop 9 (x :: ?m)) with (drop 8 m).
    replace 8%nat with (length (be_bytes 8 (tw_seconds w))) at 1 by apply length_be_bytes.
    by rewrite drop_app_length. }
  rewrite E1, E2, take_ge by (by rewrite length_be_bytes).
  rewrite be_value_be_bytes, be_value_4 by done.
  rewrite <-(decode_encode_time t Ht). fold w.
  by destruct w as [[] s n].
Qed.

(** A duration out of a record that no writer makes can stop the reader: its seconds are at the
    top of their range and its nanoseconds are not below a second. *)
Example decode_duration_panics : decode_duration (mkDurationWire (int_max u64) NANOS_PER_SEC) = None.
Proof. by vm_compute. Qed.

Lemma decode_encode_duration d : duration_ok d = true -> decode_duration (encode_duration d) = Some d.
Proof.
  intros Hd. unfold duration_ok in Hd. apply andb_prop in Hd as [H1%Z.leb_le H2%Z.ltb_lt].
  unfold decode_duration, encode_duration. cbn [dw_seconds dw_nanoseconds]. rewrite secs_nanos.
  rewrite (proj2 (fits_spec u64 _)); [done |].
  rewrite (Z.div_small (subsec_nanos d)) by apply subsec_nanos_lt. rewrite Z.add_0_r.
  unfold as_secs, NANOS_PER_SEC in *. int_bounds. split; [apply Z.div_pos; lia |].
  assert (d / 1000000000 < 2 ^ 64) by (apply Z.div_lt_upper_bound; lia). lia.
Qed.

#[export] Instance time_wire_laws : CodecLaws time_wire_codec.
Proof. apply object_laws; [apply _ | done | done | by intros []]. Defined.
#[export] Instance duration_wire_laws : CodecLaws duration_wire_codec.
Proof. apply object_laws; [apply _ | done | done | by intros []]. Defined.
#[export] Instance bytes_laws : CodecLaws bytes_codec.
Proof. apply (vec_laws (int_codec u8)). Defined.
#[export] Instance for_each_wire_laws : CodecLaws for_each_wire.
Proof. by apply object_laws; [apply _ | ..]. Defined.
#[export] Instance replayable_wire_laws : CodecLaws replayable_wire.
Proof. by apply object_laws; [apply _ | ..]. Defined.
Lemma bytes_nil_wf : wf bytes_codec [].
Proof. repeat split; simpl; int_bounds; done || lia. Qed.

#[export] Instance opt_bytes_laws : CodecLaws (option_codec bytes_codec [] 24).
Proof. by apply (option_laws bytes_codec); [apply bytes_nil_wf |]. Defined.
#[export] Instance parallel_wire_laws : CodecLaws parallel_wire.
Proof. by apply object_laws; [apply _ | ..]. Defined.
#[export] Instance when_any_wire_laws : CodecLaws when_any_wire.
Proof. by apply object_laws; [apply _ | ..]. Defined.
#[export] Instance completed_wire_laws : CodecLaws completed_wire.
Proof. by apply object_laws; [apply _ | ..]. Defined.
#[export] Instance in_progress_wire_laws : CodecLaws in_progress_wire.
Proof. by apply object_laws; [apply _ | ..]. Defined.
#[export] Instance terminal_laws : CodecLaws terminal_codec.
Proof. by apply object_laws; [apply _ | ..]. Defined.

(** *** Tagged unions *)

Lemma tagged_writes t c bs : writes c bs -> writes (write_u8 t ;;; c) (le_bytes 1 t ++ bs).
Proof. intros. apply writes_bind; [apply write_int_writes | done]. Qed.

Lemma tagged_reads {A} (k : Z -> M Reader A) t bs n a :
  0 <= t <= 255 -> reads (k t) bs n a -> reads (let! tag := read_u8 in k tag) (le_bytes 1 t ++ bs) (need_seq need0 n) a.
Proof. intros Ht Hk. eapply reads_bind; [apply (@read_int_reads u8 _); by int_bounds | done]. Qed.

Ltac safe_tags := repeat (apply safe_if; [apply safe_bind; [apply deserialize_safe | auto with catga] |]).

Definition wf_branch (b : ParallelBranchProgress) : Prop :=
  match b with
  | BranchCompleted state => wf completed_wire state
  | BranchInProgress i f p => wf in_progress_wire (i, (f, p))
  end.
Definition enc_branch (b : ParallelBranchProgress) : list Z :=
  match b with
  | BranchCompleted state => le_bytes 1 0 ++ enc completed_wire state
  | BranchInProgress i f p => le_bytes 1 1 ++ enc in_progress_wire (i, (f, p))
  end.
Definition need_branch (b : ParallelBranchProgress) : Need :=
  need_seq need0 (match b with
    | BranchCompleted state => need completed_wire state
    | BranchInProgress i f p => need in_progress_wire (i, (f, p))
    end).

#[export] Program Instance branch_laws : CodecLaws branch_codec := {|
  wf := wf_branch; enc := enc_branch; need := need_branch
|}.
Next Obligation. intros [state|i f p] Hw; by apply tagged_writes, serialize_writes. Qed.
Next Obligation.
  intros [state|i f p] Hw; (apply tagged_reads; [lia |]); cbn [Z.eqb Pos.eqb];
    (eapply reads_bind_ret; [by apply deserialize_reads | done]).
Qed.
Next Obligation. apply safe_bind; [apply safe_read_int | intros tag]. safe_tags. auto with catga. Qed.
Next Obligation. done. Qed.

#[export] Instance opt_branch_laws : CodecLaws (option_codec branch_codec (BranchCompleted []) 32).
Proof. by apply (option_laws branch_codec); [apply bytes_nil_wf |]. Defined.
#[export] Instance branches_wire_laws : CodecLaws branches_wire.
Proof. by apply object_laws; [apply _ | ..]. Defined.

Definition wf_work (w : CheckpointWork) : Prop :=
  match w with
  | WorkBranch => True
  | WorkForEach n t => wf for_each_wire (n, t)
  | WorkReplayable n items => wf replayable_wire (n, items)
  | WorkParallel states => wf parallel_wire states
  | WorkWhenAny n state => wf when_any_wire (n, state)
  | WorkParallelBranches bs => wf branches_wire bs
  end.
Definition enc_work (w : CheckpointWork) : list Z :=
  match w with
  | WorkBranch => le_bytes 1 0
  | WorkForEach n t => le_bytes 1 1 ++ enc for_each_wire (n, t)
  | WorkReplayable n items => le_bytes 1 2 ++ enc replayable_wire (n, items)
  | WorkParallel states => le_bytes 1 3 ++ enc parallel_wire states
  | WorkWhenAny n state => le_bytes 1 4 ++ enc when_any_wire (n, state)
  | WorkParallelBranches bs => le_bytes 1 5 ++ enc branches_wire bs
  end.
Definition need_work (w : CheckpointWork) : Need :=
  need_seq need0 (match w with
    | WorkBranch => need0
    | WorkForEach n t => need for_each_wire (n, t)
    | WorkReplayable n items => need replayable_wire (n, items)
    | WorkParallel states => need parallel_wire states
    | WorkWhenAny n state => need when_any_wire (n, state)
    | WorkParallelBranches bs => need branches_wire bs
    end).

#[export] Program Instance work_laws : CodecLaws work_codec := {|
  wf := wf_work; enc := enc_work; need := need_work
|}.
Next Obligation.
  intros [|n t|n items|states|n state|bs] Hw; try by apply tagged_writes, serialize_writes.
  apply write_int_writes.
Qed.
Next Obligation.
  intros [|n t|n items|states|n state|bs] Hw; cbn [deserialize work_codec enc_work need_work].
  - rewrite <-(app_nil_r (le_bytes 1 0)). apply tagged_reads; [lia | apply reads_ret].
  - apply tagged_reads; [lia |]. eapply reads_bind_ret; [by apply deserialize_reads | done].
  - apply tagged_reads; [lia |]. eapply reads_bind_ret; [by apply deserialize_reads | done].
  - apply tagged_reads; [lia |]. eapply reads_bind_ret; [by apply deserialize_reads | done].
  - apply tagged_reads; [lia |]. eapply reads_bind_ret; [by apply deserialize_reads | done].
  - apply tagged_reads; [lia |]. eapply reads_bind_ret; [by apply deserialize_reads | done].
Qed.
Next Obligation.
  apply safe_bind; [apply safe_read_int | intros tag]. apply safe_if; [auto with catga |].
  safe_tags. auto with catga.
Qed.
Next Obligation. done. Qed.

(** *** Frames *)

Definition level_wf (l : CheckpointLevel) : Prop :=
  int_min u32 <= lv_branch l <= int_max u32 /\ int_min u32 <= lv_next_step l <= int_max u32.

Lemma length_levels levels : length (concat (level_bytes <$> levels)) = (8 * length levels)%nat.
Proof.
  induction levels as [|l levels IH]; [done |]. cbn [fmap list_fmap concat].
  change (concat (level_bytes l :: ?x)) with (level_bytes l ++ concat x).
  rewrite length_app, IH. unfold level_bytes. rewrite length_app, !length_be_bytes. simpl. lia.
Qed.

Lemma decode_levels_app pre levels rest :
  Forall level_wf levels ->
  decode_levels (length levels) (length pre) (pre ++ concat (level_bytes <$> levels) ++ rest) = levels.
Proof.
  intros H. revert pre. induction H as [|l levels [Hb Hn] _ IH]; intros pre; [done |].
  cbn [length decode_levels]. change (concat (level_bytes <$> l :: levels)) with
    (level_bytes l ++ concat (level_bytes <$> levels)).
  f_equal.
  - unfold level_bytes. rewrite <-!app_assoc.
    rewrite (slice_app pre (be_bytes 4 (lv_branch l))) by (rewrite ?length_be_bytes; lia).
    rewrite (app_assoc pre), (slice_app (pre ++ _) (be_bytes 4 (lv_next_step l)))
      by (rewrite ?length_app, ?length_be_bytes; lia).
    rewrite !be_value_4 by done. by destruct l.
  - rewrite <-app_assoc, app_assoc.
    replace (length pre + 8)%nat with (length (pre ++ level_bytes l))
      by (unfold level_bytes; rewrite !length_app, !length_be_bytes; lia).
    apply IH.
Qed.

(** The bytes of a frame, by their parts *)
Definition frame_bytes (levels : list CheckpointLevel) (state wb : list Z) : list Z :=
  CHECKPOINT_FRAME_MAGIC ++ [CHECKPOINT_FRAME_VERSION; lenZ levels] ++ concat (level_bytes <$> levels)
  ++ be_bytes 4 (lenZ state) ++ state ++ be_bytes 4 (lenZ wb) ++ wb.

Section frame_bytes.
Context (levels : list CheckpointLevel) (state wb : list Z).
Let payload := frame_bytes levels state wb.
Let o := (6 + 8 * length levels + 4)%nat.

Lemma slice_at pre bs rest from :
  payload = pre ++ bs ++ rest -> length pre = from -> slice from (from + length bs) payload = bs.
Proof. intros -> H. by apply slice_app. Qed.

Let header := CHECKPOINT_FRAME_MAGIC ++ [CHECKPOINT_FRAME_VERSION; lenZ levels] ++ concat (level_bytes <$> levels).

Lemma header_length : length header = (6 + 8 * length levels)%nat.
Proof. unfold header. rewrite !length_app, length_levels. simpl. lia. Qed.

Lemma frame_bytes_length : length payload = (o + length state + 4 + length wb)%nat.
Proof. unfold payload, frame_bytes, o. rewrite !length_app, length_levels, !length_be_bytes. simpl. lia. Qed.

Lemma frame_bytes_state_len :
  lenZ state <= int_max u32 -> be_value (slice (6 + 8 * length levels) o payload) = lenZ state.
Proof.
  intros Hs. unfold o. rewrite <-(length_be_bytes 4 (lenZ state)).
  rewrite (slice_at header _ (state ++ be_bytes 4 (lenZ wb) ++ wb)).
  - apply be_value_4. unfold lenZ in *. int_bounds. lia.
  - unfold payload, frame_bytes, header. by rewrite <-!app_assoc.
  - apply header_length.
Qed.

Lemma frame_bytes_state : slice o (o + length state) payload = state.
Proof.
  apply (slice_at (header ++ be_bytes 4 (lenZ state)) _ (be_bytes 4 (lenZ wb) ++ wb)).
  - unfold payload, frame_bytes, header. by rewrite <-!app_assoc.
  - by rewrite length_app, header_length, length_be_bytes.
Qed.

Lemma frame_bytes_work_len :
  lenZ wb <= int_max u32 -> be_value (slice (o + length state) (o + length state + 4) payload) = lenZ wb.
Proof.
  intros Hw. rewrite <-(length_be_bytes 4 (lenZ wb)).
  rewrite (slice_at (header ++ be_bytes 4 (lenZ state) ++ state) _ wb).
  - apply be_value_4. unfold lenZ in *. int_bounds. lia.
  - unfold payload, frame_bytes, header. by rewrite <-!app_assoc.
  - rewrite !length_app, header_length, length_be_bytes. unfold o. lia.
Qed.

Lemma frame_bytes_work :
  slice (o + length state + 4) (o + length state + 4 + length wb) payload = wb.
Proof.
  apply (slice_at (header ++ be_bytes 4 (lenZ state) ++ state ++ be_bytes 4 (lenZ wb)) _ []).
  - unfold payload, frame_bytes, header. by rewrite app_nil_r, <-!app_assoc.
  - rewrite !length_app, header_length, !length_be_bytes. unfold o. lia.
Qed.

Lemma frame_bytes_levels : Forall level_wf levels -> decode_levels (length levels) 6 payload = levels.
Proof.
  intros H. unfold payload, frame_bytes. rewrite app_assoc.
  by apply (decode_levels_app (CHECKPOINT_FRAME_MAGIC ++ [CHECKPOINT_FRAME_VERSION; lenZ levels])).
Qed.
End frame_bytes.

(** The decoder reads cursors within its default limits. *)
Definition recoverable (w : CheckpointWork) : Prop :=
  covers Limits_default (length (enc work_codec w)) (need work_codec w).

Lemma frame_encode_ok levels state work payload :
  wf work_codec work -> frame_encode levels state work = Ok payload ->
  (length levels <= 32)%nat /\ lenZ state <= MAX_CHECKPOINT_STATE_BYTES
  /\ lenZ (enc work_codec work) <= int_max u32
  /\ payload = frame_bytes levels state (enc work_codec work)
  /\ lenZ payload <= MAX_CHECKPOINT_FRAME_BYTES.
Proof.
  intros Hw. unfold frame_encode.
  destruct (Nat.ltb_spec MAX_CHECKPOINT_PATH_DEPTH (length levels)) as [|Hl]; [done |].
  destruct (Z.ltb_spec MAX_CHECKPOINT_STATE_BYTES (lenZ state)) as [|Hs]; [done |].
  rewrite (serialize_frame_enc work_codec) by done. cbn [map_err rbind].
  destruct (checked u32 _) as [n|] eqn:Ec; [| done]. cbn [ok_or rbind].
  apply checked_Some in Ec as [-> [_ Hr]].
  destruct (Z.ltb_spec MAX_CHECKPOINT_FRAME_BYTES (CHECKPOINT_FRAME_HEADER_BYTES
    + lenZ levels * CHECKPOINT_LEVEL_BYTES + lenZ state + 4 + lenZ (enc work_codec work))) as [|Hc]; [done |].
  fold (frame_bytes levels state (enc work_codec work)). intros [= <-].
  split_and!; [exact Hl | done | done | done |]. unfold lenZ in *. rewrite frame_bytes_length.
  change (enc_work work) with (enc work_codec work). unfold CHECKPOINT_FRAME_HEADER_BYTES, CHECKPOINT_LEVEL_BYTES in Hc. lia.
Qed.

(** What the decoder does with the bytes of a frame: it looks at the work cursor. *)
Lemma frame_decode_bytes levels state wb :
  Forall level_wf levels -> (length levels <= 32)%nat -> lenZ state <= MAX_CHECKPOINT_STATE_BYTES ->
  lenZ wb <= int_max u32 -> wb <> [] ->
  lenZ (frame_bytes levels state wb) <= MAX_CHECKPOINT_FRAME_BYTES ->
  frame_decode (frame_bytes levels state wb)
  = rmap (fun w => Some (mkFrame levels state w))
      (map_err (fun _ => CatgaError_new Validation "DSL checkpoint work cursor is invalid")
         (deserialize_bounded work_codec wb Limits_default)).
Proof.
  intros Hlv Hl Hs Hw Hne Hm. pose proof (frame_bytes_length levels state wb) as Hp.
  unfold frame_decode. rewrite bool_decide_true by done. cbn [negb].
  destruct (Z.ltb_spec MAX_CHECKPOINT_FRAME_BYTES (lenZ (frame_bytes levels state wb))); [lia |].
  destruct (Z.ltb_spec (lenZ (frame_bytes levels state wb)) CHECKPOINT_FRAME_HEADER_BYTES);
    [unfold lenZ, CHECKPOINT_FRAME_HEADER_BYTES in *; lia |]. cbn [orb].
  change (frame_bytes levels state wb !! 4%nat) with (Some CHECKPOINT_FRAME_VERSION).
  change (frame_bytes levels state wb !! 5%nat) with (Some (lenZ levels)). cbn [default from_option id].
  rewrite Z.eqb_refl. cbn [negb].
  replace (Z.to_nat (lenZ levels)) with (length levels) by (unfold lenZ; lia).
  destruct (Nat.ltb_spec MAX_CHECKPOINT_PATH_DEPTH (length levels)) as [Hd|_];
    [unfold MAX_CHECKPOINT_PATH_DEPTH in Hd; lia |].
  destruct (Nat.ltb_spec (length (frame_bytes levels state wb)) (6 + 8 * length levels + 4)); [lia |].
  rewrite frame_bytes_state_len by (unfold MAX_CHECKPOINT_STATE_BYTES in Hs; int_bounds; lia).
  destruct (Z.ltb_spec MAX_CHECKPOINT_STATE_BYTES (lenZ state)); [lia |].
  replace (Z.to_nat (lenZ state)) with (length state) by (unfold lenZ; lia).
  assert (0 < length wb)%nat by (destruct wb; [done | simpl; lia]).
  destruct (Nat.eqb_spec (6 + 8 * length levels + 4 + length state) (length (frame_bytes levels state wb))); [lia |].
  destruct (Nat.ltb_spec (length (frame_bytes levels state wb)) (6 + 8 * length levels + 4 + length state + 4)); [lia |].
  rewrite frame_bytes_work_len by done.
  replace (Z.to_nat (lenZ wb)) with (length wb) by (unfold lenZ; lia).
  rewrite Hp, Nat.eqb_refl. cbn [negb]. rewrite frame_bytes_work, frame_bytes_state, frame_bytes_levels by done.
  by destruct (deserialize_bounded work_codec wb Limits_default).
Qed.

Lemma enc_work_nonempty w : enc work_codec w <> [].
Proof. by destruct w. Qed.

(** A checkpoint frame is read back as it was written: whenever a path, a state and a work
    cursor that the decoder's limits cover are accepted by the writer, the bytes decode to the
    same path, state and cursor. *)
Theorem checkpoint_frame_roundtrip levels state work payload :
  Forall level_wf levels -> wf work_codec work -> recoverable work ->
  frame_encode levels state work = Ok payload ->
  frame_decode payload = Ok (Some (mkFrame levels state work)).
Proof.
  intros Hlv Hw Hrec He. destruct (frame_encode_ok _ _ _ _ Hw He) as (Hl & Hs & Hwl & -> & Hm).
  rewrite frame_decode_bytes by auto using enc_work_nonempty.
  by rewrite (deserialize_bounded_enc work_codec).
Qed.

(** *** Cursors the writer accepts and the decoder refuses *)

Definition is_bytes (bs : list Z) : Prop := Forall (fun b => 0 <= b <= 255) bs.

Lemma bytes_wf bs : is_bytes bs -> lenZ bs <= int_max i32 -> wf bytes_codec bs.
Proof.
  intros Hb Hl. unfold lenZ in Hl. repeat split; [done | | done].
  change (size_of (int_codec u8)) with 1. int_bounds. lia.
Qed.

Lemma length_enc_bytes bs : length (enc bytes_codec bs) = (4 + length bs)%nat.
Proof.
  change (enc bytes_codec bs) with (le_bytes 4 (Z.of_nat (length bs)) ++ enc_items (int_codec u8) bs).
  rewrite length_app, length_le_bytes. f_equal.
  induction bs as [|b bs IH]; [done |].
  change (enc_items (int_codec u8) (b :: bs)) with (le_bytes 1 b ++ enc_items (int_codec u8) bs).
  by rewrite length_app, IH.
Qed.

(** More than 65,536 bytes in one sequence are refused. *)
Lemma big_bytes_rejected bs rest :
  65536 < lenZ bs <= int_max i32 ->
  rejects Limits_default (deserialize bytes_codec) (enc bytes_codec bs ++ rest) need0
    (LimitExceeded "collection items" 65536).
Proof.
  intros Hl. unfold lenZ in Hl.
  change (enc bytes_codec bs) with (le_bytes 4 (Z.of_nat (length bs)) ++ enc_items (int_codec u8) bs).
  rewrite <-app_assoc. apply (vec_too_many (int_codec u8) Limits_default); simpl; lia.
Qed.

Lemma frame_encode_accepts levels state work :
  wf work_codec work -> (length levels <= 32)%nat -> lenZ state <= MAX_CHECKPOINT_STATE_BYTES ->
  lenZ (frame_bytes levels state (enc work_codec work)) <= MAX_CHECKPOINT_FRAME_BYTES ->
  frame_encode levels state work = Ok (frame_bytes levels state (enc work_codec work)).
Proof.
  intros Hw Hl Hs Hm. unfold lenZ in Hm. rewrite frame_bytes_length in Hm. unfold frame_encode.
  destruct (Nat.ltb_spec MAX_CHECKPOINT_PATH_DEPTH (length levels)); [unfold MAX_CHECKPOINT_PATH_DEPTH in *; lia |].
  destruct (Z.ltb_spec MAX_CHECKPOINT_STATE_BYTES (lenZ state)); [lia |].
  rewrite (serialize_frame_enc work_codec) by done. cbn [map_err rbind].
  unfold MAX_CHECKPOINT_FRAME_BYTES, CHECKPOINT_FRAME_HEADER_BYTES, CHECKPOINT_LEVEL_BYTES,
    MAX_CHECKPOINT_STATE_BYTES in *.
  rewrite checked_fits by (unfold lenZ; int_bounds; lia). cbn [ok_or rbind].
  destruct (Z.ltb_spec (10 + 8 * 32 + 1024 * 1024) (10 + lenZ levels * 8 + lenZ state + 4
    + lenZ (enc work_codec work))); [unfold lenZ in *; lia | done].
Qed.

(** A loop over one item of more than 64 KiB (and no more than a million bytes) is saved, and
    the saved cursor cannot be read back. *)
Theorem big_item_unreadable levels state n item :
  Forall level_wf levels -> (length levels <= 32)%nat -> int_min u32 <= n <= int_max u32 ->
  is_bytes item -> 65536 < lenZ item <= 1000000 -> lenZ state + lenZ item <= 1048000 ->
  exists payload, frame_encode levels state (WorkReplayable n [item]) = Ok payload
    /\ frame_decode payload = fail Validation "DSL checkpoint work cursor is invalid".
Proof.
  intros Hlv Hl Hn Hb Hi Hs. set (w := WorkReplayable n [item]).
  assert (wf work_codec w) as Hw.
  { split; [done |]. repeat split; [simpl; int_bounds; lia | simpl; int_bounds; lia |].
    constructor; [apply bytes_wf; [done | int_bounds; lia] | constructor]. }
  assert (length (enc work_codec w) = (14 + length item)%nat) as Hlen.
  { change (enc work_codec w) with (le_bytes 1 2 ++ le_bytes 1 2 ++ le_bytes 4 n ++ le_bytes 4 1
      ++ enc bytes_codec item ++ []).
    rewrite !length_app, !length_le_bytes, length_enc_bytes. simpl. lia. }
  assert (lenZ (frame_bytes levels state (enc work_codec w)) <= MAX_CHECKPOINT_FRAME_BYTES) as Hm.
  { unfold lenZ in *. rewrite frame_bytes_length, Hlen.
    unfold MAX_CHECKPOINT_FRAME_BYTES, CHECKPOINT_FRAME_HEADER_BYTES, CHECKPOINT_LEVEL_BYTES,
      MAX_CHECKPOINT_STATE_BYTES. lia. }
  eexists. split.
  { apply frame_encode_accepts; [done | done | | done]. unfold MAX_CHECKPOINT_STATE_BYTES. lia. }
  rewrite frame_decode_bytes; [| done | done | unfold MAX_CHECKPOINT_STATE_BYTES; lia
    | unfold lenZ in *; rewrite Hlen; int_bounds; lia | apply enc_work_nonempty | done].
  erewrite (decode_rejected work_codec); [done | |].
  - change (enc work_codec w) with (le_bytes 1 2 ++ le_bytes 1 2 ++ le_bytes 4 n ++ le_bytes 4 1
      ++ enc bytes_codec item ++ []).
    eapply rejects_then; [apply (@read_int_reads u8 _); int_bounds; lia |]. cbn [Z.eqb Pos.eqb].
    apply rejects_first, rejects_first, (rejects_object _ 2); [lia |].
    eapply rejects_then; [apply (@read_int_reads u32 _); int_bounds; lia |].
    apply rejects_first. eapply rejects_then; [apply (@read_int_reads i32 _); int_bounds; lia |].
    rewrite <-(app_nil_l (enc bytes_codec item ++ [])).
    eapply (rejects_then _ _ _ []); [apply (validate_collection_reads 1); lia |].
    rewrite <-(app_nil_l (enc bytes_codec item ++ [])).
    eapply (rejects_then _ _ _ []); [apply (reserve_collection_reads bytes_codec 1); simpl; int_bounds; lia |].
    apply rejects_first, big_bytes_rejected. int_bounds. lia.
  - rewrite Hlen. unfold lenZ in *. constructor; simpl; int_bounds; lia.
Qed.

(** The terminal record of a state of more than 64 KiB (and no more than a million bytes) is
    written within its size limit, and cannot be read back. *)
Lemma big_terminal_unreadable bs :
  is_bytes bs -> 65536 < lenZ bs <= 1000000 ->
  exists bytes, serialize_frame terminal_codec bs = Ok bytes /\ lenZ bytes = lenZ bs + 5
    /\ exists e, deserialize_frame terminal_codec bytes = Err e.
Proof.
  intros Hb Hl. exists (enc terminal_codec bs). change (enc terminal_codec bs) with (le_bytes 1 1 ++ enc bytes_codec bs).
  assert (length (le_bytes 1 1 ++ enc bytes_codec bs) = (5 + length bs)%nat) as Hlen.
  { rewrite length_app, length_le_bytes, length_enc_bytes. lia. }
  split_and!.
  - rewrite (serialize_frame_enc terminal_codec); [done |].
    apply bytes_wf; [done | int_bounds; lia].
  - unfold lenZ. rewrite Hlen. lia.
  - eexists. unfold deserialize_frame. eapply decode_rejected.
    + apply rejects_first, rejects_object; [lia |]. rewrite <-(app_nil_r (enc bytes_codec bs)).
      apply big_bytes_rejected. int_bounds. lia.
    + rewrite Hlen. unfold lenZ in *. constructor; simpl; int_bounds; lia.
Qed.

(** *** The record itself *)

Section progress_laws.
Context `{Utf8Validator}.

#[export] Instance progress_wire_laws : CodecLaws progress_wire_codec.
Proof. apply object_laws; [apply _ | done | done | by intros []]. Defined.

Definition progress_to_wire (p : DslStepProgress) : DslStepProgressWire :=
  mkProgressWire (p_flow_id p) (p_step_index p) (p_version p) (encode_progress_kind (p_kind p))
    (p_payload p) (encode_time (p_updated_at p)).

Record wf_progress (p : DslStepProgress) : Prop := {
  wp_id : wire_str (p_flow_id p);
  wp_step : int_min u32 <= p_step_index p <= int_max u32;
  wp_version : int_min i64 <= p_version p <= int_max i64;
  wp_payload : is_bytes (p_payload p) /\ lenZ (p_payload p) <= int_max i32;
  wp_time : system_time_ok (p_updated_at p) = true
}.

Lemma progress_to_wire_wf p : wf_progress p -> wf progress_wire_codec (progress_to_wire p).
Proof.
  intros [Hid Hs Hv [Hb Hl] Ht]. destruct (encode_time_range _ Ht) as [Hs1 Hs2].
  destruct (bytes_wf _ Hb Hl) as (? & ? & ?).
  repeat split; simpl; try done; try apply Hid; try apply Hs; try apply Hv; try apply Hs1; try apply Hs2;
    destruct (p_kind p); int_bounds; simpl; lia.
Qed.

Lemma decode_encode_kind k : decode_progress_kind (encode_progress_kind k) = Ok k.
Proof. by destruct k. Qed.

#[export] Program Instance progress_laws : CodecLaws progress_codec := {|
  wf := wf_progress;
  enc p := enc progress_wire_codec (progress_to_wire p);
  need p := need progress_wire_codec (progress_to_wire p)
|}.
Next Obligation. intros p Hp. by apply (serialize_writes (c := progress_wire_codec)), progress_to_wire_wf. Qed.
Next Obligation.
  intros p Hp. eapply reads_bind_ret; [by apply deserialize_reads, progress_to_wire_wf |].
  intros r. unfold st_bind, st_lift. cbn [progress_to_wire pw_kind pw_updated_at].
  rewrite decode_encode_kind, decode_encode_time by apply Hp. by destruct p.
Qed.
Next Obligation.
  apply safe_bind; [apply deserialize_safe | intros w].
  apply safe_lift_bind. intros k _. apply safe_lift_bind. auto with catga.
Qed.
Next Obligation. done. Qed.
End progress_laws.
