(* ===== verification/DslCheckpoint.v ===== *)
(** * Checkpointed execution of the flow DSL ([flow/dsl.rs], [flow/dsl_recovery.rs],
      [flow/dsl_parallel_recovery.rs], [flow/dsl_when_any.rs])

    [run_checkpointed] runs a flow from its latest saved progress.  A program is a function on
    the state of the run: the application state (which a failing step leaves behind for the
    failure hooks), the progress store, the number of clock readings so far and the notes.  It
    is generic in the store, because a parallel step runs its branches over a store of their
    own.  The order in which concurrent branches complete is an argument. *)

From S2P Require Import Prelude Utf8 Errors Time Wire Codec Dsl DslProgress.

Definition DEFAULT_BRANCH : Z := int_max u32.
Definition DSL_TERMINAL_STEP_INDEX : Z := int_max u32.
Definition MAX_DSL_TERMINAL_BYTES : Z := 1024 * 1024.
Definition MAX_CHECKPOINT_REPLAYABLE_ITEMS : Z := 65536.
Definition MAX_CHECKPOINT_REPLAYABLE_ITEM_BYTES : Z := 1024 * 1024.
Definition MAX_CHECKPOINT_REPLAYABLE_ITEMS_BYTES : Z := 1024 * 1024.
Definition MAX_CHECKPOINT_CAS_RETRIES : nat := 3.
Definition MAX_PARALLEL_BRANCH_PAYLOAD_BYTES : Z := 1024 * 1024.

(** ** Pure checks *)

Fixpoint replayable_bytes (total : Z) (items : list (list Z)) : CatgaResult unit :=
  match items with
  | [] => Ok tt
  | item :: items' =>
      if MAX_CHECKPOINT_REPLAYABLE_ITEM_BYTES <? lenZ item
      then fail Validation "replayable for_each item exceeds the checkpoint size limit"
      else
        let? total := ok_or (checked usize (total + lenZ item))
          (CatgaError_new Validation "replayable for_each items exceed the checkpoint size limit") in
        if MAX_CHECKPOINT_REPLAYABLE_ITEMS_BYTES <? total
        then fail Validation "replayable for_each items exceed the checkpoint size limit"
        else replayable_bytes total items'
  end.

Definition validate_replayable_for_each_items (items : list (list Z)) : CatgaResult unit :=
  if MAX_CHECKPOINT_REPLAYABLE_ITEMS <? lenZ items
  then fail Validation "replayable for_each item count exceeds the checkpoint limit"
  else replayable_bytes 0 items.

Definition top_level_step_index (index : nat) : CatgaResult Z :=
  match checked u32 (Z.of_nat index) with
  | None => fail Internal "DSL step index exceeds u32"
  | Some i => if i =? DSL_TERMINAL_STEP_INDEX
              then fail Validation "DSL step index is reserved for the terminal record" else Ok i
  end.

Definition branch_payload (b : ParallelBranchProgress) : list Z :=
  match b with BranchCompleted state => state | BranchInProgress _ _ payload => payload end.

Definition validate_payload_size_len (n : Z) : CatgaResult unit :=
  if MAX_PARALLEL_BRANCH_PAYLOAD_BYTES <? n
  then fail Validation "parallel branch checkpoint payload exceeds the size limit" else Ok tt.
Definition validate_payload_size (payload : list Z) : CatgaResult unit :=
  validate_payload_size_len (lenZ payload).

(** The sum of the payload sizes of the branches other than [index], from [total] *)
Fixpoint payload_total (total : Z) (skip : option nat) (i : nat) (saved : list (option ParallelBranchProgress))
    : CatgaResult Z :=
  match saved with
  | [] => Ok total
  | b :: saved' =>
      match (if bool_decide (skip = Some i) then None else b) with
      | None => payload_total total skip (S i) saved'
      | Some b =>
          let? total := ok_or (checked usize (total + lenZ (branch_payload b)))
            (CatgaError_new Validation "parallel branch checkpoint payload size overflow") in
          payload_total total skip (S i) saved'
      end
  end.

Definition validate_total (total : Z) : CatgaResult unit :=
  if MAX_PARALLEL_BRANCH_PAYLOAD_BYTES <? total
  then fail Validation "parallel branch checkpoint payloads exceed the aggregate size limit" else Ok tt.

Definition validate_replacement_payload (saved : list (option ParallelBranchProgress)) (index : nat)
    (replacement_len : Z) : CatgaResult unit :=
  let? _ := validate_payload_size_len replacement_len in
  let? total := payload_total replacement_len (Some index) 0 saved in
  validate_total total.

Fixpoint validate_each (saved : list (option ParallelBranchProgress)) (total : Z) : CatgaResult Z :=
  match saved with
  | [] => Ok total
  | None :: saved' => validate_each saved' total
  | Some b :: saved' =>
      let? _ := validate_payload_size (branch_payload b) in
      let? total := ok_or (checked usize (total + lenZ (branch_payload b)))
        (CatgaError_new Validation "parallel branch checkpoint payload size overflow") in
      validate_each saved' total
  end.

Definition validate_saved_progress (saved : list (option ParallelBranchProgress)) : CatgaResult unit :=
  let? total := validate_each saved 0 in validate_total total.

Definition saved_progress (saved : list (option ParallelBranchProgress)) (index : nat)
    (p : DslStepProgress) : CatgaResult ParallelBranchProgress :=
  let? _ := validate_replacement_payload saved index (lenZ (p_payload p)) in
  Ok (BranchInProgress (p_step_index p) (bool_decide (p_kind p = CheckpointFrameKind)) (p_payload p)).

(** ** The store of one parallel branch *)

Definition BranchProgressStore : Type := option DslStepProgress.

Definition from_saved (saved : option ParallelBranchProgress) (now : SystemTime)
    : CatgaResult BranchProgressStore :=
  match saved with
  | Some (BranchCompleted state) => let? _ := validate_payload_size state in Ok None
  | Some (BranchInProgress step_index is_frame payload) =>
      let? _ := validate_payload_size payload in
      let progress := progress_new "branch" step_index payload now in
      if is_frame
      then let? frame := frame_decode payload in
           match frame with
           | None => fail Validation "parallel branch checkpoint payload has no internal frame"
           | Some _ => Ok (Some (checkpoint_frame progress payload))
           end
      else Ok (Some progress)
  | None => Ok None
  end.

Definition branch_create (p : DslStepProgress) (st : BranchProgressStore)
    : CatgaResult bool * BranchProgressStore :=
  if bool_decide (p_kind p = TerminalKind) then (Ok true, st)
  else match st with
       | None => (Ok true, Some p)
       | Some saved => if p_step_index saved <? p_step_index p then (Ok true, Some p) else (Ok false, st)
       end.

Definition branch_update (expected_version : Z) (next : DslStepProgress) (st : BranchProgressStore)
    : CatgaResult bool * BranchProgressStore :=
  match st with
  | None => (Ok false, st)
  | Some saved =>
      match checked i64 (expected_version + 1) with
      | None => (Ok false, st)
      | Some next_version =>
          if negb (bool_decide (p_flow_id saved = p_flow_id next)) || negb (p_step_index saved =? p_step_index next)
             || negb (p_version saved =? expected_version) || negb (p_version next =? next_version)
          then (Ok false, st) else (Ok true, Some next)
      end
  end.

Definition branch_matches (flow_id : string) (step_index : Z) (p : DslStepProgress) : bool :=
  bool_decide (p_flow_id p = flow_id) && (p_step_index p =? step_index).

Definition branch_get (flow_id : string) (step_index : Z) (st : BranchProgressStore)
    : CatgaResult (option DslStepProgress) * BranchProgressStore :=
  (Ok (match st with Some p => if branch_matches flow_id step_index p then Some p else None | None => None end), st).

Definition branch_delete (flow_id : string) (step_index : Z) (st : BranchProgressStore)
    : CatgaResult bool * BranchProgressStore :=
  match st with
  | Some p => if branch_matches flow_id step_index p then (Ok true, None) else (Ok false, st)
  | None => (Ok false, st)
  end.

#[export] Instance branch_store : ProgressStore BranchProgressStore := {|
  ps_create := branch_create; ps_update := branch_update; ps_get := branch_get; ps_delete := branch_delete
|}.

(** ** Programs *)

Record Run (St P : Type) := mkRun {
  r_state : St;
  r_progress : P;
  r_tick : nat;
  r_notes : list Note
}.
Arguments mkRun {St P}.
Arguments r_state {St P}.
Arguments r_progress {St P}.
Arguments r_tick {St P}.
Arguments r_notes {St P}.

Definition Prog (St P A : Type) : Type := Run St P -> CatgaResult A * Run St P.

Section prog.
Context {St P : Type} `{ProgressStore P}.

Definition cret {A} (a : A) : Prog St P A := fun r => (Ok a, r).
Definition cfail {A} (e : CatgaError) : Prog St P A := fun r => (Err e, r).
Definition clift {A} (x : CatgaResult A) : Prog St P A := fun r => (x, r).
Definition cbind {A B} (m : Prog St P A) (k : A -> Prog St P B) : Prog St P B := fun r =>
  match m r with
  | (Ok a, r') => k a r'
  | (Err e, r') => (Err e, r')
  end.

(** The outcome of a program as a value: the source's [match] on a result instead of [?] *)
Definition ctry {A} (m : Prog St P A) : Prog St P (CatgaResult A) := fun r =>
  let '(x, r') := m r in (Ok x, r').

Definition get_state : Prog St P St := fun r => (Ok (r_state r), r).
Definition set_state (s : St) : Prog St P unit := fun r =>
  (Ok tt, mkRun s (r_progress r) (r_tick r) (r_notes r)).
Definition emit (l : list Note) : Prog St P unit := fun r =>
  (Ok tt, mkRun (r_state r) (r_progress r) (r_tick r) (r_notes r ++ l)).
Definition on_progress {A} (f : P -> CatgaResult A * P) : Prog St P A := fun r =>
  let '(x, p) := f (r_progress r) in (x, mkRun (r_state r) p (r_tick r) (r_notes r)).

(** An action on the state *)
Definition mutate (a : St -> St * CatgaResult unit) : Prog St P unit := fun r =>
  let '(s, x) := a (r_state r) in (x, mkRun s (r_progress r) (r_tick r) (r_notes r)).

(** An in-memory run on the state *)
Definition lift_out (f : St -> Out St) : Prog St P unit := fun r =>
  let '(l, s, x) := f (r_state r) in (x, mkRun s (r_progress r) (r_tick r) (r_notes r ++ l)).

(** A lifecycle notification *)
Definition lift_notify (f : St -> list Note * CatgaResult unit) : Prog St P unit := fun r =>
  let '(l, x) := f (r_state r) in
  (x, mkRun (r_state r) (r_progress r) (r_tick r) (r_notes r ++ l)).

Definition read_clock (clock : nat -> SystemTime) : Prog St P SystemTime := fun r =>
  (Ok (clock (r_tick r)), mkRun (r_state r) (r_progress r) (S (r_tick r)) (r_notes r)).
End prog.

Notation "'let*' x ':=' c 'in' k" := (cbind c (fun x => k))
  (at level 10, x name, c at level 100, k at level 200) : catga_scope.
Notation "c ';;*' k" := (cbind c (fun _ => k)) (at level 100, k at level 200, right associativity) : catga_scope.

(** What the application and the environment supply: the state codec, the clock, the order in
    which the branches of a parallel step complete (given their number), and for [when_any] the
    completion order and the notes of the branches dropped before they complete. *)
Record DslEnv (St : Type) := mkDslEnv {
  codec_encode : St -> CatgaResult (list Z);
  codec_decode : list Z -> CatgaResult St;
  env_clock : nat -> SystemTime;
  env_order : list (CatgaResult St) -> list nat;
  env_race : list (Out St) -> list nat * (nat -> nat)
}.
Arguments codec_encode {St}.
Arguments codec_decode {St}.
Arguments env_clock {St}.
Arguments env_order {St}.
Arguments env_race {St}.

(** [CheckpointContext]: the flow and the top-level step whose record is written *)
Record CheckpointContext := mkContext { cx_flow_id : string; cx_top_level_step : Z }.

(** ** Selecting a branch *)

Section select.
Context {St A : Type} (found : DslFlow St -> Z -> A) (none : A) (bad : CatgaError -> A).

(** The branch of a conditional step that a saved path or else the state selects *)
Definition on_selected (s : St) (step : Step St) (saved_branch : option Z) : A :=
  match step with
  | If condition then_branch else_branch =>
      let branch := default (if condition s then 0 else 1) saved_branch in
      if branch =? 0 then found then_branch 0
      else if branch =? 1 then found else_branch 1
      else bad (CatgaError_new Validation "DSL checkpoint selected an invalid if branch")
  | Match select_branch branches default_branch =>
      match (match saved_branch with
             | Some branch => Ok branch
             | None => match select_branch s with
                       | Some index => ok_or (checked u32 (Z.of_nat index))
                           (CatgaError_new Validation "DSL checkpoint match branch index exceeds u32")
                       | None => Ok DEFAULT_BRANCH
                       end
             end) with
      | Err e => bad e
      | Ok branch =>
          if branch =? DEFAULT_BRANCH then found default_branch DEFAULT_BRANCH
          else on_branch (fun b => found b branch)
                 (bad (CatgaError_new Validation "DSL checkpoint selected an invalid match branch"))
                 branches (Z.to_nat branch)
      end
  | _ => none
  end.
End select.

Definition selected_checkpoint_branch {St} (s : St) (step : Step St) (cursor : option (list CheckpointLevel))
    (depth : nat) : CatgaResult (option (DslFlow St * Z)) :=
  on_selected (fun b c => Ok (Some (b, c))) (Ok None) Err s step
    (cursor ≫= fun levels => lv_branch <$> levels !! depth).

Section checkpoint.
Context {St : Type} (env : DslEnv St).

Section generic.
Context {P : Type} `{ProgressStore P}.
Abbreviation prog := (Prog St P).

(** ** Persistence ([flow/dsl_recovery.rs]) *)

Fixpoint cas_loop (retries : nat) (cx : CheckpointContext) (payload : list Z) (is_frame : bool) : prog unit :=
  match retries with
  | O => cfail (CatgaError_new Conflict "DSL checkpoint cursor update conflicted after bounded retries")
  | S retries' =>
      let* current := on_progress (ps_get (cx_flow_id cx) (cx_top_level_step cx)) in
      match current with
      | None => cfail (CatgaError_new Conflict "DSL checkpoint disappeared while updating its cursor")
      | Some current =>
          let* t := read_clock (env_clock env) in
          let* next := clift (if is_frame
            then rmap (fun p => checkpoint_frame p payload) (next_version current payload t)
            else completed_application_state current payload t) in
          let* updated := on_progress (ps_update (p_version current) next) in
          if updated then cret tt else cas_loop retries' cx payload is_frame
      end
  end.

Definition persist_checkpoint_payload (cx : CheckpointContext) (payload : list Z) (is_frame : bool)
    : prog unit :=
  let* t := read_clock (env_clock env) in
  let fresh := progress_new (cx_flow_id cx) (cx_top_level_step cx) payload t in
  let* created := on_progress (ps_create (if is_frame then checkpoint_frame fresh payload else fresh)) in
  if created then cret tt else cas_loop MAX_CHECKPOINT_CAS_RETRIES cx payload is_frame.

Definition persist_completed_checkpoint (cx : CheckpointContext) : prog unit :=
  let* s := get_state in
  let* payload := clift (codec_encode env s) in
  persist_checkpoint_payload cx payload false.

(** Saves the state and a cursor: [CheckpointFrame::encode] of the current state, then the write *)
Definition save_frame (cx : CheckpointContext) (levels : list CheckpointLevel) (work : CheckpointWork)
    : prog unit :=
  let* s := get_state in
  let* bytes := clift (codec_encode env s) in
  let* payload := clift (frame_encode levels bytes work) in
  persist_checkpoint_payload cx payload true.

(** *** Terminal records *)

Definition load_checkpoint_terminal (flow_id : string) : prog (option (list Z)) :=
  let* saved := on_progress (ps_get flow_id DSL_TERMINAL_STEP_INDEX) in
  match saved with
  | None => cret None
  | Some p =>
      if negb (bool_decide (p_kind p = TerminalKind))
      then cfail (CatgaError_new Conflict "DSL terminal progress slot is not a terminal record")
      else match deserialize_frame terminal_codec (p_payload p) with
           | Ok bytes => cret (Some bytes)
           | Err e => cfail (with_details (CatgaError_new Validation "DSL terminal record is invalid")
                               (mp_error_to_string e))
           end
  end.

(** The terminal bytes in force and whether this call wrote them *)
Definition persist_checkpoint_terminal (flow_id : string) (bytes : list Z) : prog (list Z * bool) :=
  match serialize_frame terminal_codec bytes with
  | Err e => cfail (with_details (CatgaError_new Internal "encode DSL terminal record") (mp_error_to_string e))
  | Ok payload =>
      if MAX_DSL_TERMINAL_BYTES <? lenZ payload
      then cfail (CatgaError_new Validation "DSL terminal record exceeds the size limit")
      else
        let* t := read_clock (env_clock env) in
        let* created := on_progress
          (ps_create (terminal (progress_new flow_id DSL_TERMINAL_STEP_INDEX [] t) payload)) in
        if created then cret (bytes, true)
        else
          let* loaded := load_checkpoint_terminal flow_id in
          match loaded with
          | None => cfail (CatgaError_new Conflict "DSL terminal record disappeared while completing the flow")
          | Some bytes => cret (bytes, false)
          end
  end.

(** ** Loops with an item cursor *)

Fixpoint replay_from (cx : CheckpointContext) (operation : ReplayableForEach St) (items : list (list Z))
    (levels : list CheckpointLevel) (next_index : nat) (rest : list (list Z)) : prog unit :=
  match rest with
  | [] => cret tt
  | item :: rest' =>
      let* outcome := ctry (mutate (fun s => rf_action operation s item)) in
      let* _ := match outcome with
        | Ok _ => cret tt
        | Err e => match rf_on_error operation with
                   | None => cfail e
                   | Some on_error => mutate (fun s => on_error s next_index e)
                   end
        end in
      let* next := clift (ok_or (checked u32 (Z.of_nat next_index + 1))
        (CatgaError_new Validation "replayable for_each item index exceeds u32")) in
      save_frame cx levels (WorkReplayable next items) ;;*
      replay_from cx operation items levels (S next_index) rest'
  end.

Definition run_checkpointed_replayable_for_each (cx : CheckpointContext) (operation : ReplayableForEach St)
    (work : option CheckpointWork) (levels : list CheckpointLevel) : prog unit :=
  let* start := match work with
    | Some (WorkReplayable next_index items) => cret (next_index, items)
    | Some _ => cfail (CatgaError_new Validation
        "DSL checkpoint cursor does not describe a replayable for_each step")
    | None => let* s := get_state in let* items := clift (rf_select operation s) in cret (0, items)
    end in
  let next_index := fst start in
  let items := snd start in
  clift (validate_replayable_for_each_items items) ;;*
  let* total := clift (ok_or (checked u32 (lenZ items))
    (CatgaError_new Validation "replayable for_each item count exceeds u32")) in
  if total <? next_index
  then cfail (CatgaError_new Validation "replayable for_each cursor is outside its saved items")
  else replay_from cx operation items levels (Z.to_nat next_index) (drop (Z.to_nat next_index) items).

(** ** [when_any] *)

Definition run_checkpointed_when_any (cx : CheckpointContext) (branches : list (DslFlow St))
    (clone_state : St -> St) (merge : St -> St -> St * CatgaResult unit) (work : option CheckpointWork)
    (levels : list CheckpointLevel) : prog unit :=
  match work with
  | Some (WorkWhenAny w bytes) =>
      match branches !! Z.to_nat w with
      | None => cfail (CatgaError_new Validation "when_any checkpoint winner index is outside its branches")
      | Some _ =>
          let* winner_state := clift (map_err
            (fun _ => CatgaError_new Validation "when_any checkpoint winner state is invalid")
            (codec_decode env bytes)) in
          mutate (fun s => merge s winner_state)
      end
  | Some _ => cfail (CatgaError_new Validation "DSL checkpoint cursor does not describe a when_any step")
  | None =>
      let* s := get_state in
      let outs := (fun b => run_sub_flow (env_race env) b (clone_state s)) <$> branches in
      let '(order, cut) := env_race env outs in
      let '(w, last_error) := winner order outs None in
      emit (race_notes outs (upto order w) cut) ;;*
      match w with
      | Some i =>
          match outs !! i with
          | Some o =>
              let* index := clift (ok_or (checked u32 (Z.of_nat i))
                (CatgaError_new Validation "when_any winner index exceeds u32")) in
              let* bytes := clift (codec_encode env s) in
              let* winner_bytes := clift (codec_encode env (out_state o)) in
              let* payload := clift (frame_encode levels bytes (WorkWhenAny index winner_bytes)) in
              persist_checkpoint_payload cx payload true ;;*
              mutate (fun s => merge s (out_state o))
          | None => cret tt
          end
      | None => clift (match last_error with Some e => Err e | None => Ok tt end)
      end
  end.

(** ** [parallel]

    A branch either completed in an earlier run, with its state, or runs over its own store. *)

Inductive Prepared := Restored (s : St) | Pending (store : BranchProgressStore).

Fixpoint prepare_branches (saved : list (option ParallelBranchProgress)) : prog (list Prepared) :=
  match saved with
  | [] => cret []
  | Some (BranchCompleted encoded) :: saved' =>
      clift (validate_payload_size encoded) ;;*
      let* s := clift (map_err
        (fun _ => CatgaError_new Validation "parallel branch checkpoint state is invalid")
        (codec_decode env encoded)) in
      let* rest := prepare_branches saved' in cret (Restored s :: rest)
  | branch_progress :: saved' =>
      let* t := read_clock (env_clock env) in
      let* store := clift (from_saved branch_progress t) in
      let* rest := prepare_branches saved' in cret (Pending store :: rest)
  end.

(** A branch that ran: its result and what its store holds *)
Definition BranchOutcome : Type := CatgaResult St * option DslStepProgress.

Definition record_first_error (first_error : option CatgaError) {A} (r : CatgaResult A) : option CatgaError :=
  match first_error, r with
  | None, Err e => Some e
  | _, _ => first_error
  end.

Definition encode_parallel_progress (saved : list (option ParallelBranchProgress))
    (levels : list CheckpointLevel) (s : St) : CatgaResult (list Z) :=
  let? _ := validate_saved_progress saved in
  let? bytes := codec_encode env s in
  frame_encode levels bytes (WorkParallelBranches saved).

Record ParallelState := mkPar {
  pa_saved : list (option ParallelBranchProgress);
  pa_states : list (option St);
  pa_first_error : option CatgaError
}.

(** What the completion of branch [index] does to the tables *)
Definition branch_completed (index : nat) (o : BranchOutcome) (pa : ParallelState) : ParallelState :=
  let '(result, progress) := o in
  let local := match progress with
    | Some p => rmap Some (saved_progress (pa_saved pa) index p)
    | None => Ok None
    end in
  let pa := match result with
    | Ok branch_state =>
        match codec_encode env branch_state with
        | Ok encoded =>
            match validate_replacement_payload (pa_saved pa) index (lenZ encoded) with
            | Err e => mkPar (pa_saved pa) (pa_states pa) (record_first_error (pa_first_error pa) (A := unit) (Err e))
            | Ok _ => mkPar (<[index := Some (BranchCompleted encoded)]> (pa_saved pa))
                        (<[index := Some branch_state]> (pa_states pa)) (pa_first_error pa)
            end
        | Err e => mkPar (pa_saved pa) (pa_states pa) (record_first_error (pa_first_error pa) (A := unit) (Err e))
        end
    | Err e => mkPar (pa_saved pa) (pa_states pa) (record_first_error (pa_first_error pa) (A := unit) (Err e))
    end in
  match local with
  | Ok local_progress =>
      match mjoin (pa_states pa !! index) with
      | None => mkPar (<[index := local_progress]> (pa_saved pa)) (pa_states pa) (pa_first_error pa)
      | Some _ => pa
      end
  | Err e => mkPar (pa_saved pa) (pa_states pa) (record_first_error (pa_first_error pa) (A := unit) (Err e))
  end.

Fixpoint complete_branches (cx : CheckpointContext) (levels : list CheckpointLevel) (order : list nat)
    (outs : list (option BranchOutcome)) (pa : ParallelState) : prog ParallelState :=
  match order with
  | [] => cret pa
  | index :: order' =>
      match mjoin (outs !! index) with
      | None => complete_branches cx levels order' outs pa
      | Some o =>
          let pa := branch_completed index o pa in
          let* s := get_state in
          let* persisted := match encode_parallel_progress (pa_saved pa) levels s with
            | Ok payload => ctry (persist_checkpoint_payload cx payload true)
            | Err e => cret (Err e)
            end in
          complete_branches cx levels order' outs
            (mkPar (pa_saved pa) (pa_states pa) (record_first_error (pa_first_error pa) persisted))
      end
  end.

Definition finish_parallel (merge : St -> list St -> St * CatgaResult unit) (pa : ParallelState) : prog unit :=
  match pa_first_error pa with
  | Some e => cfail e
  | None =>
      match mapM id (pa_states pa) with
      | None => cfail (CatgaError_new Validation "parallel checkpoint has an incomplete branch")
      | Some completed => mutate (fun s => merge s completed)
      end
  end.

Definition parallel_saved (branches : nat) (work : option CheckpointWork)
    : CatgaResult (list (option ParallelBranchProgress)) :=
  match work with
  | Some (WorkParallel states) => Ok (List.map (option_map BranchCompleted) states)
  | Some (WorkParallelBranches saved) => Ok saved
  | Some _ => fail Validation "DSL checkpoint cursor does not describe a parallel step"
  | None => Ok (replicate branches None)
  end.

(** ** The loops over steps

    Each loop takes the function that runs one step. *)

Section loops.
Context {A : Type}.

(** [branch.steps.iter().enumerate().skip(start)], with what each child makes of the path and the
    cursor *)
Section branch_loop.
Context (run_child : nat -> Step St -> A -> prog A).

Fixpoint branch_loop (start index : nat) (steps : list (Step St)) (acc : A) : prog A :=
  match steps with
  | [] => cret acc
  | child :: rest =>
      match start with
      | S start' => branch_loop start' (S index) rest acc
      | O => let* acc := run_child index child acc in branch_loop O (S index) rest acc
      end
  end.
End branch_loop.

(** The same over the top-level steps, where only the first takes the saved cursor *)
Section top_loop.
Context (run_top : nat -> Step St -> option CheckpointFrame -> prog unit).

Fixpoint top_loop (start index : nat) (cursor : option CheckpointFrame) (steps : list (Step St)) : prog unit :=
  match steps with
  | [] => cret tt
  | step :: rest =>
      match start with
      | S start' => top_loop start' (S index) cursor rest
      | O => run_top index step cursor ;;* top_loop O (S index) None rest
      end
  end.
End top_loop.
End loops.

Section branches.
Context (run_branch : DslFlow St -> St -> BranchProgressStore -> Run St P -> BranchOutcome * Run St P).

(** Runs every branch that did not complete earlier, on a copy of the state *)
Fixpoint run_pending (clone_state : St -> St) (branches : list (DslFlow St)) (prepared : list Prepared)
    : prog (list (option BranchOutcome)) :=
  match branches, prepared with
  | b :: branches', Pending store :: prepared' => fun r =>
      let '(o, r1) := run_branch b (clone_state (r_state r)) store r in
      (let* rest := run_pending clone_state branches' prepared' in cret (Some o :: rest)) r1
  | _ :: branches', Restored _ :: prepared' =>
      let* rest := run_pending clone_state branches' prepared' in cret (None :: rest)
  | _, _ => cret []
  end.
End branches.

Definition initial_states (prepared : list Prepared) : list (option St) :=
  List.map (fun p => match p with Restored s => Some s | Pending _ => None end) prepared.

Definition run_checkpointed_parallel
    (run_branch : DslFlow St -> St -> BranchProgressStore -> Run St P -> BranchOutcome * Run St P)
    (cx : CheckpointContext) (branches : list (DslFlow St)) (clone_state : St -> St)
    (merge : St -> list St -> St * CatgaResult unit) (work : option CheckpointWork)
    (levels : list CheckpointLevel) : prog unit :=
  if (MAX_DSL_PARALLEL_BRANCHES <? length branches)%nat
  then cfail (CatgaError_new Validation "parallel branch count exceeds the checkpoint limit")
  else
    let* saved := clift (parallel_saved (length branches) work) in
    if negb (length saved =? length branches)%nat
    then cfail (CatgaError_new Validation "parallel branch count does not match its saved checkpoint")
    else
      clift (validate_saved_progress saved) ;;*
      let* prepared := prepare_branches saved in
      let* outs := run_pending run_branch clone_state branches prepared in
      let order := env_order env (omap (option_map fst) outs) in
      let* pa := complete_branches cx levels order outs (mkPar saved (initial_states prepared) None) in
      finish_parallel merge pa.

(** [levels.get(depth)], [levels[depth].next_step = i] and [levels.truncate(depth + 1)] *)
Definition set_next (levels : list CheckpointLevel) (depth : nat) (i : Z) : list CheckpointLevel :=
  match levels !! depth with
  | Some l => <[depth := mkLevel (lv_branch l) i]> levels
  | None => levels
  end.

Definition at_child (levels : list CheckpointLevel) (depth : nat) (i : Z) : list CheckpointLevel :=
  take (S depth) (set_next levels depth i).

(** Where the search for saved progress ends: the first step to run and its cursor; the restored
    state replaces the initial one. *)
Fixpoint find_progress (flow_id : string) (n : nat) : prog (nat * option CheckpointFrame) :=
  match n with
  | O => cret (0%nat, None)
  | S index =>
      let* step := clift (top_level_step_index index) in
      let* saved := on_progress (ps_get flow_id step) in
      match saved with
      | None => find_progress flow_id index
      | Some p =>
          if bool_decide (p_kind p = CheckpointFrameKind) then
            let* decoded := clift (frame_decode (p_payload p)) in
            match decoded with
            | None => cfail (CatgaError_new Validation
                "DSL checkpoint frame record has no internal frame payload")
            | Some frame =>
                let* s := clift (codec_decode env (fr_state frame)) in
                set_state s ;;* cret (index, Some frame)
            end
          else
            let* s := clift (codec_decode env (p_payload p)) in
            set_state s ;;* cret (S index, None)
      end
  end.

End generic.

(** ** The executor *)

Definition too_deep : CatgaError :=
  CatgaError_new Validation "DSL checkpoint path exceeds the maximum depth".

Section loops2.
Context {P : Type} `{ProgressStore P}.
Abbreviation prog := (Prog St P).
Context (run_child : nat -> Step St -> list CheckpointLevel * option CheckpointWork ->
                     prog (list CheckpointLevel * option CheckpointWork)).

(** [run_checkpointed_branch] around its loop *)
Definition branch_body (steps : list (Step St)) (levels : list CheckpointLevel) (depth : nat)
    (work : option CheckpointWork) : prog (list CheckpointLevel) :=
  match levels !! depth with
  | None => cfail (CatgaError_new Validation "DSL checkpoint cursor is missing a branch level")
  | Some level =>
      let start := Z.to_nat (lv_next_step level) in
      if (length steps <? start)%nat
      then cfail (CatgaError_new Validation "DSL checkpoint step index is outside its branch")
      else
        let* acc := branch_loop run_child start 0 steps (levels, work) in
        cret (fst acc)
  end.
End loops2.

(** [run_checkpointed] around its loop: the caller's state is in the run *)
Definition checkpointed_body {P} `{ProgressStore P} (f : DslFlow St) (flow_id : string)
    (run_top : nat -> Step St -> option CheckpointFrame -> Prog St P unit) : Prog St P St :=
  let* loaded := load_checkpoint_terminal flow_id in
  match loaded with
  | Some bytes => clift (codec_decode env bytes)
  | None =>
      let* found := find_progress flow_id (length (flow_steps f)) in
      top_loop run_top (fst found) 0 (snd found) (flow_steps f) ;;*
      let* s := get_state in
      let* bytes := clift (codec_encode env s) in
      let* written := persist_checkpoint_terminal flow_id bytes in
      if snd written
      then lift_notify (notify_flow_succeeded f) ;;* get_state
      else clift (codec_decode env (fst written))
  end.

(** One top-level step with its notifications and its completed checkpoint *)
Definition top_body {P} `{ProgressStore P} (f : DslFlow St) (cx : CheckpointContext) (index : nat)
    (run_one : Prog St P unit) : Prog St P unit :=
  let* result := ctry run_one in
  match result with
  | Ok _ =>
      lift_notify (fun s => notify_step_succeeded f s index) ;;*
      persist_completed_checkpoint cx
  | Err e =>
      lift_notify (fun s => notify_step_failed f s index e) ;;*
      lift_notify (fun s => notify_flow_failed f s e) ;;*
      cfail e
  end.

(** The metrics around [run_checkpointed_inner] *)
Definition counted {P A} (m : Prog St P A) : Prog St P A :=
  emit [Counted FLOWS_STARTED] ;;*
  let* result := ctry m in
  match result with
  | Ok a => emit [Counted FLOWS_COMPLETED] ;;* cret a
  | Err e => emit (complete_dsl_execution e) ;;* cfail e
  end.

(** A branch of a parallel step runs over its own store; only the clock and the notes of the
    outer run are shared. *)
Definition in_branch {P} (m : Prog St BranchProgressStore St) (initial : St) (store : BranchProgressStore)
    (r : Run St P) : BranchOutcome * Run St P :=
  let '(result, r') := m (mkRun initial store (r_tick r) (r_notes r)) in
  ((result, r_progress r'), mkRun (r_state r) (r_progress r) (r_tick r') (r_notes r')).

(** The path a conditional top-level step starts with *)
Definition start_levels (cursor : option CheckpointFrame) (code : Z) : list CheckpointLevel :=
  match cursor with
  | Some frame => match fr_levels frame with [] => [mkLevel code 0] | levels => levels end
  | None => [mkLevel code 0]
  end.

Fixpoint run_checkpointed_step {P} `{ProgressStore P} (cx : CheckpointContext) (step : Step St)
    (cursor : option CheckpointFrame) {struct step} : Prog St P unit :=
  match step with
  | StreamForEach _ => cfail (CatgaError_new Validation "checkpointed for_each_stream requires a replay cursor")
  | ConcurrentStreamForEach _ =>
      cfail (CatgaError_new Validation "checkpointed concurrent stream for_each requires a replay cursor")
  | ForEach _ => cfail (CatgaError_new Validation "checkpointed for_each requires for_each_replayable")
  | ReplayableStep operation =>
      run_checkpointed_replayable_for_each cx operation (fr_work <$> cursor) (default [] (fr_levels <$> cursor))
  | Parallel branches clone_state merge =>
      run_checkpointed_parallel (fun b => in_branch (run_checkpointed "branch" b)) cx branches clone_state merge
        (fr_work <$> cursor) (default [] (fr_levels <$> cursor))
  | WhenAny branches clone_state merge =>
      run_checkpointed_when_any cx branches clone_state merge (fr_work <$> cursor)
        (default [] (fr_levels <$> cursor))
  | _ =>
      let* s := get_state in
      on_selected
        (fun branch code =>
           let* _ := run_checkpointed_branch cx branch (start_levels cursor code) 0 (fr_work <$> cursor) in
           cret tt)
        (lift_out (run_step (env_race env) step)) cfail s step
        (cursor ≫= fun frame => lv_branch <$> fr_levels frame !! 0%nat)
  end
with run_checkpointed_child {P} `{ProgressStore P} (cx : CheckpointContext) (child : Step St)
    (depth index : nat) (acc : list CheckpointLevel * option CheckpointWork) {struct child}
    : Prog St P (list CheckpointLevel * option CheckpointWork) :=
  let '(levels, work) := acc in
  let* child_index := clift (ok_or (checked u32 (Z.of_nat index))
    (CatgaError_new Validation "DSL checkpoint child index exceeds u32")) in
  match child with
  | ForEach _ => cfail (CatgaError_new Validation "checkpointed for_each requires for_each_replayable")
  | ReplayableStep operation =>
      let levels := at_child levels depth child_index in
      run_checkpointed_replayable_for_each cx operation work levels ;;* cret (levels, None)
  | Parallel branches clone_state merge =>
      let levels := at_child levels depth child_index in
      run_checkpointed_parallel (fun b => in_branch (run_checkpointed "branch" b)) cx branches clone_state merge
        work levels ;;* cret (levels, None)
  | WhenAny branches clone_state merge =>
      let levels := at_child levels depth child_index in
      run_checkpointed_when_any cx branches clone_state merge work levels ;;* cret (levels, None)
  | StreamForEach _ | ConcurrentStreamForEach _ =>
      cfail (CatgaError_new Validation "checkpointed nested foreach operation has no replay cursor")
  | _ =>
      let* s := get_state in
      on_selected
        (fun branch code =>
           let next_depth := S depth in
           if (MAX_CHECKPOINT_PATH_DEPTH <=? next_depth)%nat then cfail too_deep
           else
             let nested_next_step := default 0 (lv_next_step <$> levels !! next_depth) in
             let levels := take next_depth (set_next levels depth child_index)
                           ++ [mkLevel code nested_next_step] in
             let* levels := run_checkpointed_branch cx branch levels next_depth work in
             cret (levels, None))
        (lift_out (run_step (env_race env) child) ;;*
         let* next := clift (ok_or (checked u32 (child_index + 1))
           (CatgaError_new Validation "DSL checkpoint child index exceeds u32")) in
         let levels := at_child levels depth next in
         save_frame cx levels WorkBranch ;;* cret (levels, work))
        cfail s child (lv_branch <$> levels !! S depth)
  end
with run_checkpointed_branch {P} `{ProgressStore P} (cx : CheckpointContext) (branch : DslFlow St)
    (levels : list CheckpointLevel) (depth : nat) (work : option CheckpointWork) {struct branch}
    : Prog St P (list CheckpointLevel) :=
  match branch with
  | mkFlow steps _ _ =>
      branch_body (fun index child acc => run_checkpointed_child cx child depth index acc) steps levels depth work
  end
with run_checkpointed {P} `{ProgressStore P} (flow_id : string) (f : DslFlow St) {struct f} : Prog St P St :=
  match f with
  | mkFlow steps obs hooks =>
      counted (checkpointed_body f flow_id (fun index step cursor =>
        let* step_index := clift (top_level_step_index index) in
        let cx := mkContext flow_id step_index in
        top_body f cx index (run_checkpointed_step cx step cursor)))
  end.

End checkpoint.
