(* ===== verification/DslResume.v ===== *)
(** * Recovery of checkpointed flows

    A run of [run_checkpointed] can stop at any operation on its progress store; the next run
    starts from what the store holds.  For flows whose conditional steps are nested at most
    twice, never follow one another inside a branch, and whose item loops are top-level steps,
    any number of such interruptions leaves the result that the uninterrupted in-memory run
    gives.  The examples at the end show what happens outside these bounds. *)

From S2P Require Import Prelude Utf8 Errors Time Wire Codec Dsl DslProgress DslCheckpoint.

(** ** A store that can stop

    The in-memory store, with the number of operations after which the process stops; [None] is a
    process that does not stop. *)

Definition Flaky : Type := option nat * MemoryDslStepProgress.

Definition stopped : CatgaError := CatgaError_new Transient "the process stopped".

Definition flaky_op {A} (f : MemoryDslStepProgress -> CatgaResult A * MemoryDslStepProgress) (st : Flaky)
    : CatgaResult A * Flaky :=
  match fst st with
  | Some O => (Err stopped, st)
  | Some (S n) => let '(x, m) := f (snd st) in (x, (Some n, m))
  | None => let '(x, m) := f (snd st) in (x, (None, m))
  end.

#[export] Instance flaky_store : ProgressStore Flaky := {|
  ps_create p := flaky_op (mem_create p);
  ps_update v p := flaky_op (mem_update v p);
  ps_get id k := flaky_op (mem_get id k);
  ps_delete id k := flaky_op (mem_delete id k)
|}.

Section resume.
Context {St : Type} (env : DslEnv St).

Abbreviation run_t := (Run St Flaky).
Abbreviation prog := (Prog St Flaky).

Definition contents (r : run_t) : MemoryDslStepProgress := snd (r_progress r).
Definition budget (r : run_t) : option nat := fst (r_progress r).

(** ** Outcomes of programs *)

Definition wp {A} (m : prog A) (r : run_t) (Q : CatgaResult A -> run_t -> Prop) : Prop :=
  Q (fst (m r)) (snd (m r)).

Lemma wp_bind {A B} (m : prog A) (k : A -> prog B) r Q :
  wp m r (fun x r' => match x with Ok a => wp (k a) r' Q | Err e => Q (Err e) r' end) -> wp (cbind m k) r Q.
Proof. unfold wp, cbind. by destruct (m r) as [[a|e] r']. Qed.

Lemma wp_mono {A} (m : prog A) r (Q Q' : CatgaResult A -> run_t -> Prop) :
  wp m r Q -> (forall x r', Q x r' -> Q' x r') -> wp m r Q'.
Proof. unfold wp. auto. Qed.

(** A program interrupted by the store: it returns an error, in a process that stops.  A program
    that may be interrupted leaves the state of the run and the contents as [I] says when it is,
    and ends as [Q] says when it is not. *)
Definition runs {A} (m : prog A) (r : run_t) (I : MemoryDslStepProgress -> Prop)
    (Q : A -> run_t -> Prop) : Prop :=
  wp m r (fun x r' => (budget r = None -> budget r' = None)
    /\ match x with
       | Ok a => Q a r'
       | Err _ => budget r <> None /\ I (contents r')
       end).

Lemma runs_ret {A} (a : A) r (I : _ -> Prop) (Q : A -> run_t -> Prop) : Q a r -> runs (cret a) r I Q.
Proof. by unfold runs, wp. Qed.

Lemma runs_bind {A B} (m : prog A) (k : A -> prog B) r I (Q : A -> run_t -> Prop) (Q' : B -> run_t -> Prop) :
  runs m r I Q -> (forall a r', Q a r' -> runs (k a) r' I Q') -> runs (cbind m k) r I Q'.
Proof.
  unfold runs, wp, cbind. intros [Hb Hm] Hk. destruct (m r) as [[a|e] r']; simpl in *; [| done].
  destruct (Hk a r' Hm) as [Hb' Hk']. split; [auto |]. destruct (k a r') as [[b|e] r'']; simpl in *; [done |].
  destruct Hk' as [? ?]. split; [| done]. intros E. auto.
Qed.

Lemma runs_assoc {A B C} (m : prog A) (k1 : A -> prog B) (k2 : B -> prog C) r I Q :
  runs (cbind (cbind m k1) k2) r I Q -> runs (cbind m (fun a => cbind (k1 a) k2)) r I Q.
Proof. unfold runs, wp, cbind. by destruct (m r) as [[a|e] r']. Qed.

Lemma runs_mono {A} (m : prog A) r (I I' : _ -> Prop) (Q Q' : A -> run_t -> Prop) :
  runs m r I Q -> (forall m, I m -> I' m) -> (forall a r', Q a r' -> Q' a r') -> runs m r I' Q'.
Proof.
  unfold runs, wp. intros [Hb Hm] HI HQ. split; [done |]. destruct (fst (m r)); [auto |].
  destruct Hm. auto.
Qed.

Lemma runs_lift {A} (a : A) r (I : _ -> Prop) (Q : A -> run_t -> Prop) : Q a r -> runs (clift (Ok a)) r I Q.
Proof. by unfold runs, wp. Qed.

Lemma runs_get r (I : _ -> Prop) (Q : St -> run_t -> Prop) : Q (r_state r) r -> runs get_state r I Q.
Proof. by unfold runs, wp. Qed.

(** Everything but the state of the run, the clock and the notes is the same. *)
Definition same_store (r r' : run_t) : Prop := r_progress r' = r_progress r.

Lemma runs_set s r (I : _ -> Prop) (Q : unit -> run_t -> Prop) :
  (forall r', same_store r r' -> r_state r' = s -> Q tt r') -> runs (set_state s) r I Q.
Proof. intros H. split; [done |]. by apply H. Qed.

Lemma runs_clock r (I : _ -> Prop) (Q : SystemTime -> run_t -> Prop) :
  (forall t r', same_store r r' -> r_state r' = r_state r -> Q t r') -> runs (read_clock (env_clock env)) r I Q.
Proof. intros H. split; [done |]. by apply H. Qed.

Lemma runs_out (f : St -> Out St) r (I : _ -> Prop) (Q : unit -> run_t -> Prop) l s :
  f (r_state r) = (l, s, Ok tt) ->
  (forall r', same_store r r' -> r_state r' = s -> Q tt r') -> runs (lift_out f) r I Q.
Proof. intros E H. unfold runs, wp, lift_out. rewrite E. split; [done |]. by apply H. Qed.

Lemma runs_notify (f : St -> list Note * CatgaResult unit) r (I : _ -> Prop) (Q : unit -> run_t -> Prop) :
  snd (f (r_state r)) = Ok tt ->
  (forall r', same_store r r' -> r_state r' = r_state r -> Q tt r') -> runs (lift_notify f) r I Q.
Proof.
  intros E H. unfold runs, wp, lift_notify. destruct (f (r_state r)) as [l x]. simpl in E. subst x.
  split; [done |]. by apply H.
Qed.

Lemma runs_emit l r (I : _ -> Prop) (Q : unit -> run_t -> Prop) :
  (forall r', same_store r r' -> r_state r' = r_state r -> Q tt r') -> runs (emit l) r I Q.
Proof. intros H. split; [done |]. by apply H. Qed.

(** An operation on the store either stops the process or runs as on the in-memory store. *)
Lemma runs_store {A} (f : MemoryDslStepProgress -> CatgaResult A * MemoryDslStepProgress)
    (g : Flaky -> CatgaResult A * Flaky) r (I : _ -> Prop) (Q : A -> run_t -> Prop) a m :
  g = flaky_op f -> f (contents r) = (Ok a, m) -> I (contents r) ->
  (forall r', contents r' = m -> r_state r' = r_state r -> Q a r') ->
  runs (on_progress g) r I Q.
Proof.
  intros -> E HI H. unfold runs, wp, on_progress, flaky_op, contents, budget in *.
  destruct (r_progress r) as [[[|n]|] m0]; simpl in *; [done | |]; rewrite E; simpl;
    (split; [done |]; by apply H).
Qed.

(** ** Writing a record *)

Definition cx_key (cx : CheckpointContext) : string * Z := (cx_flow_id cx, cx_top_level_step cx).

(** The version of a record, one below the first version when there is none *)
Definition ver (m : MemoryDslStepProgress) (key : string * Z) : Z :=
  match m !! key with Some p => p_version p | None => -1 end.

Definition keyed (m : MemoryDslStepProgress) : Prop := forall key p, m !! key = Some p -> progress_key p = key.

Lemma keyed_insert m key p : keyed m -> progress_key p = key -> keyed (<[key := p]> m).
Proof. intros Hm Hp k q. rewrite lookup_insert_Some. intros [[<- <-]|[_ ?]]; [done | by apply Hm]. Qed.

(** A written record: where it is, what it holds, and its version *)
Definition written (key : string * Z) (k : DslProgressKind) (payload : list Z) (m m' : MemoryDslStepProgress) : Prop :=
  exists p, m' = <[key := p]> m /\ progress_key p = key /\ p_kind p = k /\ p_payload p = payload
    /\ p_version p = ver m key + 1.

Lemma write_runs cx payload (is_frame : bool) r (I : _ -> Prop) (Q : unit -> run_t -> Prop) :
  keyed (contents r) -> I (contents r) -> -1 <= ver (contents r) (cx_key cx) < int_max i64 ->
  (forall r', written (cx_key cx) (if is_frame then CheckpointFrameKind else ApplicationState) payload
                (contents r) (contents r') -> r_state r' = r_state r -> Q tt r') ->
  runs (persist_checkpoint_payload env cx payload is_frame) r I Q.
Proof.
  intros Hk HI Hv HQ. unfold persist_checkpoint_payload.
  apply (runs_bind _ _ _ _ (fun _ r' => same_store r r' /\ r_state r' = r_state r)).
  { by apply runs_clock. }
  intros t r1 [Hs1 Hst1]. assert (contents r1 = contents r) as Hc1 by (unfold contents; by rewrite Hs1).
  set (fresh := if is_frame then _ else _).
  assert (progress_key fresh = cx_key cx) as Hfk by (unfold fresh; by destruct is_frame).
  destruct (contents r !! cx_key cx) as [cur|] eqn:Ecur.
  - apply (runs_bind _ _ _ _ (fun b r' => b = false /\ contents r' = contents r /\ r_state r' = r_state r)).
    { apply (runs_store (mem_create fresh) _ _ _ _ false (contents r)); [done | | by rewrite Hc1 |
        intros r' ? ?; split_and!; [done | done | congruence]].
      unfold mem_create. by rewrite Hc1, Hfk, Ecur. }
    intros b r2 (-> & Hc2 & Hst2). unfold MAX_CHECKPOINT_CAS_RETRIES. cbn [cas_loop].
    apply (runs_bind _ _ _ _ (fun o r' => o = Some cur /\ contents r' = contents r /\ r_state r' = r_state r)).
    { apply (runs_store (mem_get (cx_flow_id cx) (cx_top_level_step cx)) _ _ _ _ (Some cur) (contents r));
        [done | | by rewrite Hc2 | intros r' ? ?; split_and!; [done | done | congruence]].
      unfold mem_get. rewrite Hc2. fold (cx_key cx). by rewrite Ecur. }
    intros o r3 (-> & Hc3 & Hst3).
    apply (runs_bind _ _ _ _ (fun _ r' => same_store r3 r' /\ r_state r' = r_state r3)); [by apply runs_clock |].
    intros t' r4 [Hs4 Hst4]. assert (contents r4 = contents r) as Hc4 by (unfold contents in *; by rewrite Hs4).
    set (next := if is_frame then _ else _).
    unfold ver in Hv. rewrite Ecur in Hv.
    assert (exists p, next = Ok p /\ progress_key p = cx_key cx
      /\ p_kind p = (if is_frame then CheckpointFrameKind else ApplicationState) /\ p_payload p = payload
      /\ p_version p = p_version cur + 1) as (p & -> & Hpk & Hkind & Hpay & Hpv).
    { unfold next, next_version, completed_application_state, bump_version.
      rewrite checked_fits by (int_bounds; lia). pose proof (Hk _ _ Ecur) as Hck.
      destruct is_frame; eexists; (split; [done |]); (split; [exact Hck |]); done. }
    apply (runs_bind _ _ _ _ (fun q r' => q = p /\ r' = r4)); [by apply runs_lift |].
    intros ? ? [-> ->].
    apply (runs_bind _ _ _ _ (fun b r' => b = true /\ contents r' = <[cx_key cx := p]> (contents r)
                                /\ r_state r' = r_state r)).
    { apply (runs_store (mem_update (p_version cur) p) _ _ _ _ true (<[cx_key cx := p]> (contents r)));
        [done | | by rewrite Hc4 | intros r' ? ?; split_and!; [done | done | congruence]].
      unfold mem_update, progress_is_next_version. rewrite Hpv, checked_fits by (int_bounds; lia).
      rewrite Z.eqb_refl. cbn [negb]. rewrite Hc4, Hpk, Ecur, Z.eqb_refl. done. }
    intros b r5 (-> & Hc5 & Hst5). apply runs_ret, HQ; [| done]. exists p. unfold ver. rewrite Ecur. done.
  - apply (runs_bind _ _ _ _ (fun b r' => b = true /\ contents r' = <[cx_key cx := fresh]> (contents r)
                                /\ r_state r' = r_state r)).
    { apply (runs_store (mem_create fresh) _ _ _ _ true (<[cx_key cx := fresh]> (contents r)));
        [done | | by rewrite Hc1 | intros r' ? ?; split_and!; [done | done | congruence]].
      unfold mem_create. by rewrite Hc1, Hfk, Ecur. }
    intros b r2 (-> & Hc2 & Hst2). apply runs_ret, HQ; [| done]. exists fresh. unfold ver. rewrite Ecur.
    unfold fresh. by destruct is_frame.
Qed.

(** ** Traces of cursors

    A cursor is a path, a work cursor and the state saved with them. *)

Definition Cursor : Type := list CheckpointLevel * CheckpointWork * St.

Definition frame_of (c : Cursor) (payload : list Z) : Prop :=
  exists bytes, codec_encode env (snd c) = Ok bytes /\ frame_encode (fst (fst c)) bytes (snd (fst c)) = Ok payload.

(** [saved key tr m m']: the cursors of [tr] were written at [key] one after the other. *)
Definition saved (key : string * Z) (tr : list Cursor) (m m' : MemoryDslStepProgress) : Prop :=
  match last tr with
  | None => m' = m
  | Some c => exists p, m' = <[key := p]> m /\ progress_key p = key /\ p_kind p = CheckpointFrameKind
      /\ frame_of c (p_payload p) /\ p_version p = ver m key + lenZ tr
  end.

Definition upto_saved (key : string * Z) (tr : list Cursor) (m m' : MemoryDslStepProgress) : Prop :=
  exists tr1 tr2, tr = tr1 ++ tr2 /\ saved key tr1 m m'.

(** The store is ready for [n] more writes at [key]. *)
Record ready (key : string * Z) (n : Z) (m : MemoryDslStepProgress) : Prop := {
  rd_keyed : keyed m;
  rd_low : -1 <= ver m key;
  rd_high : ver m key + n <= int_max i64
}.

Lemma saved_nil key m : saved key [] m m.
Proof. done. Qed.

Lemma saved_ver key tr m m' : saved key tr m m' -> ver m' key = ver m key + lenZ tr.
Proof.
  unfold saved. destruct (last tr) as [c|] eqn:E.
  - intros (p & -> & _ & _ & _ & Hv). unfold ver at 1. by rewrite lookup_insert_eq.
  - apply last_None in E as ->. intros ->. unfold lenZ. simpl. lia.
Qed.

Lemma saved_keyed key tr m m' : saved key tr m m' -> keyed m -> keyed m'.
Proof.
  unfold saved. destruct (last tr); [| by intros ->]. intros (p & -> & Hp & _) Hm. by apply keyed_insert.
Qed.

Lemma saved_app key tr1 tr2 m m1 m2 :
  saved key tr1 m m1 -> saved key tr2 m1 m2 -> saved key (tr1 ++ tr2) m m2.
Proof.
  intros H1 H2. pose proof (saved_ver _ _ _ _ H1) as Hv. unfold saved in *. rewrite last_app.
  destruct (last tr2) as [c|] eqn:E2.
  - destruct H2 as (p & -> & ? & ? & ? & Hpv). exists p. split_and!; [| done.. |].
    + destruct (last tr1); [destruct H1 as (q & -> & _) | by subst m1].
      by rewrite insert_insert_eq.
    + rewrite Hpv, Hv. unfold lenZ. rewrite length_app. lia.
  - apply last_None in E2 as ->. subst m2. rewrite app_nil_r. done.
Qed.

Lemma saved_ready key tr n m m' : saved key tr m m' -> ready key (lenZ tr + n) m -> ready key n m'.
Proof.
  intros H [Hk Hl Hh]. pose proof (saved_ver _ _ _ _ H) as Hv. split; [by eapply saved_keyed | |]; rewrite Hv;
    unfold lenZ in *; lia.
Qed.

Lemma upto_here key tr m : upto_saved key tr m m.
Proof. exists [], tr. split; [done | apply saved_nil]. Qed.

Lemma upto_later key tr1 tr2 m m1 m' :
  saved key tr1 m m1 -> upto_saved key tr2 m1 m' -> upto_saved key (tr1 ++ tr2) m m'.
Proof.
  intros H1 (t1 & t2 & -> & H2). exists (tr1 ++ t1), t2. rewrite app_assoc. split; [done |].
  by eapply saved_app.
Qed.

Lemma upto_weaken key tr1 tr2 m m' : upto_saved key tr1 m m' -> upto_saved key (tr1 ++ tr2) m m'.
Proof. intros (t1 & t2 & -> & H). exists t1, (t2 ++ tr2). by rewrite app_assoc. Qed.

(** A program that writes the cursors of [tr] *)
Definition traced {A} (key : string * Z) (m : prog A) (r : run_t) (tr : list Cursor) (Q : A -> St -> Prop) : Prop :=
  forall n, ready key (lenZ tr + n) (contents r) -> 0 <= n ->
  runs m r (upto_saved key tr (contents r))
    (fun a r' => Q a (r_state r') /\ saved key tr (contents r) (contents r')).

Lemma traced_bind {A B} key (m : prog A) (k : A -> prog B) r tr1 tr2 (Q : A -> St -> Prop) (Q' : B -> St -> Prop) :
  traced key m r tr1 Q -> (forall a r', Q a (r_state r') -> traced key (k a) r' tr2 Q') ->
  traced key (cbind m k) r (tr1 ++ tr2) Q'.
Proof.
  intros Hm Hk n Hr Hn. eapply runs_bind.
  - eapply runs_mono; [apply (Hm (lenZ tr2 + n)) | intros; by apply upto_weaken | intros a r' H; exact H].
    + unfold lenZ in *. rewrite length_app in Hr. by replace (Z.of_nat (length tr1) + (Z.of_nat (length tr2) + n))
        with (Z.of_nat (length tr1 + length tr2) + n) by lia.
    + unfold lenZ. lia.
  - intros a r' [Ha Hs]. eapply runs_mono; [apply (Hk a r' Ha n); [| done] | |].
    + eapply saved_ready; [done |]. unfold lenZ in *. rewrite length_app in Hr.
      by replace (Z.of_nat (length tr1) + (Z.of_nat (length tr2) + n))
        with (Z.of_nat (length tr1 + length tr2) + n) by lia.
    + intros m' H. by eapply upto_later.
    + intros b r'' [Hb Hs']. split; [done |]. by eapply saved_app.
Qed.

(** A program that writes nothing *)
Lemma traced_pure {A} key (m : prog A) r (Q : A -> St -> Prop) :
  (forall I : MemoryDslStepProgress -> Prop, I (contents r) ->
     runs m r I (fun a r' => Q a (r_state r') /\ contents r' = contents r)) ->
  traced key m r [] Q.
Proof.
  intros H n _ _. eapply runs_mono; [apply (H (upto_saved key [] (contents r))), upto_here | done |].
  intros a r' [Ha Hc]. split; [done |]. unfold saved. simpl. done.
Qed.

Lemma traced_ret {A} key (a : A) r (Q : A -> St -> Prop) : Q a (r_state r) -> traced key (cret a) r [] Q.
Proof. intros H. apply traced_pure. intros. by apply runs_ret. Qed.

Lemma traced_lift {A} key (a : A) r (Q : A -> St -> Prop) : Q a (r_state r) -> traced key (clift (Ok a)) r [] Q.
Proof. intros H. apply traced_pure. intros. by apply runs_lift. Qed.

Lemma traced_get key r (Q : St -> St -> Prop) : Q (r_state r) (r_state r) -> traced key get_state r [] Q.
Proof. intros H. apply traced_pure. intros. by apply runs_get. Qed.

Lemma traced_out key (f : St -> Out St) r l s (Q : unit -> St -> Prop) :
  f (r_state r) = (l, s, Ok tt) -> Q tt s -> traced key (lift_out f) r [] Q.
Proof.
  intros E H. apply traced_pure. intros I HI. eapply runs_out; [done |]. intros r' Hs ->.
  split; [done |]. unfold contents. by rewrite Hs.
Qed.

(** Steps of a program that write nothing can be run first. *)
Lemma traced_seq {A B} key (m : prog A) (k : A -> prog B) r tr (Q : A -> St -> Prop) (Q' : B -> St -> Prop) :
  traced key m r [] Q -> (forall a r', Q a (r_state r') -> traced key (k a) r' tr Q') ->
  traced key (cbind m k) r tr Q'.
Proof. intros. by apply (traced_bind key m k r [] tr Q Q'). Qed.

Lemma traced_post {A} key (m : prog A) r tr (Q Q' : A -> St -> Prop) :
  traced key m r tr Q -> (forall a s, Q a s -> Q' a s) -> traced key m r tr Q'.
Proof.
  intros H HQ n Hr Hn. eapply runs_mono; [by apply (H n) | done |]. intros a r' [Ha ?]. auto.
Qed.

Lemma traced_save cx levels work r payload :
  frame_of (levels, work, r_state r) payload ->
  traced (cx_key cx) (save_frame env cx levels work) r [(levels, work, r_state r)]
    (fun _ s => s = r_state r).
Proof.
  intros (bytes & Hb & Hf) n Hr Hn. simpl in Hb, Hf. unfold save_frame.
  apply (runs_bind _ _ _ _ (fun s r' => s = r_state r /\ r' = r)); [by apply runs_get |]. intros ? ? [-> ->].
  rewrite Hb. apply (runs_bind _ _ _ _ (fun b r' => b = bytes /\ r' = r)); [by apply runs_lift |]. intros ? ? [-> ->].
  rewrite Hf. apply (runs_bind _ _ _ _ (fun b r' => b = payload /\ r' = r)); [by apply runs_lift |]. intros ? ? [-> ->].
  destruct Hr as [Hk Hl Hh]. unfold lenZ in Hh. simpl in Hh.
  apply write_runs; [done | apply upto_here | lia |].
  intros r' (p & Hc & Hpk & Hkind & Hpay & Hv) Hs. split; [done |]. exists p. split_and!; [done.. | |].
  - rewrite Hpay. by exists bytes.
  - rewrite Hv. done.
Qed.

(** ** The flows that recover *)

Abbreviation step_run := (run_step (env_race env)).

(** The application's codec: every state has bytes, within the limits of the decoder, and they
    decode to the state. *)
Definition good_codec : Prop := forall s, exists bytes,
  codec_encode env s = Ok bytes /\ codec_decode env bytes = Ok s /\ is_bytes bytes /\ lenZ bytes <= 65536.

Context (Hcodec : good_codec).

(** Items that the decoder reads back: few and small enough *)
Definition good_items (items : list (list Z)) : Prop :=
  validate_replayable_for_each_items items = Ok tt
  /\ forall n, 0 <= n <= lenZ items -> recoverable (WorkReplayable n items) /\ wf work_codec (WorkReplayable n items)
       /\ lenZ (enc work_codec (WorkReplayable n items)) <= 900000.

Definition plain (st : Step St) : bool :=
  match st with
  | ActionWithCompensation _ _ | PlainAction _ | RetryStep _ _ _ | TimeoutStep _ _ => true
  | _ => false
  end.

Definition conditional (st : Step St) : bool :=
  match st with If _ _ _ | Match _ _ _ => true | _ => false end.

Definition branches_of (st : Step St) : list (DslFlow St) :=
  match st with
  | If _ t e => [t; e]
  | Match _ bs d => bs ++ [d]
  | _ => []
  end.

(** The selector of a [match_on] step answers with a case. *)
Definition selectable (st : Step St) : Prop :=
  match st with
  | Match sel bs _ => lenZ bs <= int_max u32 /\ forall s i, sel s = Some i -> (i < length bs)%nat
  | _ => True
  end.

Definition short (f : DslFlow St) : Prop := lenZ (flow_steps f) <= 65536.

(** Branches of plain steps only *)
Definition leaf_flow (f : DslFlow St) : Prop := short f /\ Forall (fun st => plain st = true) (flow_steps f).

(** Conditional steps over such branches, between plain steps *)
Definition inner_ok (st : Step St) : Prop :=
  plain st = true \/ (conditional st = true /\ selectable st /\ Forall leaf_flow (branches_of st)).

Definition apart (steps : list (Step St)) : Prop :=
  forall i a b, steps !! i = Some a -> steps !! S i = Some b -> conditional a = true -> conditional b = false.

Definition mid_flow (f : DslFlow St) : Prop :=
  short f /\ Forall inner_ok (flow_steps f) /\ apart (flow_steps f).

Definition top_ok (st : Step St) : Prop :=
  plain st = true
  \/ (exists op, st = ReplayableStep op /\ forall s items, rf_select op s = Ok items -> good_items items)
  \/ (conditional st = true /\ selectable st /\ Forall mid_flow (branches_of st)).

Definition recovers (f : DslFlow St) : Prop := short f /\ Forall top_ok (flow_steps f).

(** ** Selecting branches *)

(** The branch and its code that the state selects *)
Definition picks (st : Step St) (s : St) : option (DslFlow St * Z) :=
  on_selected (fun b c => Some (b, c)) None (fun _ => None) s st None.

Definition code_ok (c : Z) : Prop := int_min u32 <= c <= int_max u32.

Lemma picks_run st s :
  conditional st = true -> selectable st ->
  exists b c, picks st s = Some (b, c) /\ step_run st s = run (env_race env) b s /\ code_ok c /\ b ∈ branches_of st.
Proof.
  unfold code_ok. destruct st; try done; intros _ Hsel.
  - unfold picks. simpl. destruct (condition s); eexists _, _; (split; [done |]);
      (split; [done |]); (split; [int_bounds; lia |]); set_solver.
  - destruct Hsel as [Hl Hin]. unfold picks. simpl. destruct (select_branch s) as [i|] eqn:E.
    + pose proof (Hin _ _ E) as Hi. unfold lenZ in Hl. rewrite checked_fits by (int_bounds; lia). simpl.
      unfold DEFAULT_BRANCH. destruct (Z.eqb_spec (Z.of_nat i) (int_max u32)); [lia |].
      rewrite !on_branch_lookup, Nat2Z.id. destruct (lookup_lt_is_Some_2 _ _ Hi) as [b Hb]. rewrite Hb.
      exists b, (Z.of_nat i). split_and!; [done | done | int_bounds; lia | int_bounds; lia |].
      apply elem_of_app. left. by eapply list_elem_of_lookup_2.
    + eexists _, _. split; [done |]. split; [done |]. split; [unfold DEFAULT_BRANCH; int_bounds; lia |].
      apply elem_of_app. right. set_solver.
Qed.

(** Every continuation of a selection sees the same branch, and a saved code selects it again
    whatever the state is. *)
Lemma picks_selected {A} st s s' b c (found : DslFlow St -> Z -> A) none bad :
  picks st s = Some (b, c) ->
  on_selected found none bad s st None = found b c /\ on_selected found none bad s' st (Some c) = found b c.
Proof.
  unfold picks. destruct st; try done.
  - simpl. by destruct (condition s); intros [= <- <-].
  - simpl. destruct (select_branch s) as [i|] eqn:E.
    + destruct (checked u32 (Z.of_nat i)) as [z|] eqn:Ec; [| done]. simpl.
      destruct (z =? DEFAULT_BRANCH) eqn:Ez; [by intros [= <- <-] |].
      rewrite !on_branch_lookup. destruct (branches !! Z.to_nat z) eqn:Eb; [| done].
      intros [= <- <-]. by rewrite Ez, Eb.
    + simpl. by intros [= <- <-].
Qed.

Lemma plain_selected {A} st (s : St) (found : DslFlow St -> Z -> A) none bad saved_branch :
  plain st = true -> on_selected found none bad s st saved_branch = none.
Proof. by destruct st. Qed.

(** ** What can be saved *)

Lemma levels_savable levels (s : St) :
  (length levels <= 2)%nat -> exists payload, frame_of (levels, WorkBranch, s) payload.
Proof.
  intros Hl. destruct (Hcodec s) as (b & Hb & _ & _ & Hlb). eexists. exists b. split; [done |]. simpl.
  unfold lenZ in *. apply frame_encode_accepts; [done | lia | unfold MAX_CHECKPOINT_STATE_BYTES, lenZ; lia |].
  unfold lenZ. rewrite frame_bytes_length. change (length (enc work_codec WorkBranch)) with 1%nat.
  unfold MAX_CHECKPOINT_FRAME_BYTES, CHECKPOINT_FRAME_HEADER_BYTES, CHECKPOINT_LEVEL_BYTES, MAX_CHECKPOINT_STATE_BYTES.
  lia.
Qed.

Lemma items_savable n items (s : St) :
  good_items items -> 0 <= n <= lenZ items -> exists payload, frame_of ([], WorkReplayable n items, s) payload.
Proof.
  intros [_ Hg] Hn. destruct (Hg n Hn) as (_ & Hw & Hlw).
  destruct (Hcodec s) as (b & Hb & _ & _ & Hlb). eexists. exists b. split; [done |]. cbn [fst snd].
  unfold lenZ in *. apply frame_encode_accepts; [done | simpl; lia | unfold MAX_CHECKPOINT_STATE_BYTES, lenZ; lia |].
  unfold lenZ. rewrite frame_bytes_length.
  unfold MAX_CHECKPOINT_FRAME_BYTES, CHECKPOINT_FRAME_HEADER_BYTES, CHECKPOINT_LEVEL_BYTES, MAX_CHECKPOINT_STATE_BYTES.
  cbn [length]. lia.
Qed.

(** ** Branches of plain steps *)

Definition at2 (c0 i c1 j : Z) : list CheckpointLevel := [mkLevel c0 i; mkLevel c1 j].

Inductive leaf_run (c0 i c1 : Z) : nat -> list (Step St) -> St -> list Cursor -> St -> Prop :=
| lr_nil j s : leaf_run c0 i c1 j [] s [] s
| lr_cons j st rest s l s1 tr s2 :
    plain st = true -> step_run st s = (l, s1, Ok tt) -> leaf_run c0 i c1 (S j) rest s1 tr s2 ->
    leaf_run c0 i c1 j (st :: rest) s ((at2 c0 i c1 (Z.of_nat (S j)), WorkBranch, s1) :: tr) s2.

(** One plain child at [depth]: the step runs, and the path after it is saved. *)
Lemma plain_child cx st depth index levels work r l s1 :
  plain st = true -> step_run st (r_state r) = (l, s1, Ok tt) -> Z.of_nat index < int_max u32 ->
  (length (at_child levels depth (Z.of_nat (S index))) <= 2)%nat ->
  traced (cx_key cx) (run_checkpointed_child env cx st depth index (levels, work)) r
    [(at_child levels depth (Z.of_nat (S index)), WorkBranch, s1)]
    (fun acc s => acc = (at_child levels depth (Z.of_nat (S index)), work) /\ s = s1).
Proof.
  intros Hp Hr Hi Hl. set (levels' := at_child levels depth (Z.of_nat (S index))) in *.
  assert (traced (cx_key cx)
    (let* child_index := clift (ok_or (checked u32 (Z.of_nat index))
       (CatgaError_new Validation "DSL checkpoint child index exceeds u32")) in
     let* s := get_state in
     lift_out (step_run st) ;;*
     let* next := clift (ok_or (checked u32 (child_index + 1))
       (CatgaError_new Validation "DSL checkpoint child index exceeds u32")) in
     save_frame env cx (at_child levels depth next) WorkBranch ;;*
     cret (at_child levels depth next, work)) r [(levels', WorkBranch, s1)]
    (fun acc s => acc = (levels', work) /\ s = s1)) as H.
  { rewrite checked_fits by (int_bounds; lia). cbn [ok_or].
    apply (traced_seq _ _ _ _ _ (fun c s => c = Z.of_nat index /\ s = r_state r)); [by apply traced_lift |].
    intros ? r1 [-> Hr1].
    apply (traced_seq _ _ _ _ _ (fun _ s => s = r_state r)); [by apply traced_get |]. intros _ r2 Hr2.
    apply (traced_seq _ _ _ _ _ (fun _ s => s = s1)); [by eapply traced_out; [rewrite Hr2; exact Hr |] |].
    intros _ r3 Hr3. rewrite checked_fits by (int_bounds; lia). cbn [ok_or].
    apply (traced_seq _ _ _ _ _ (fun c s => c = Z.of_nat (S index) /\ s = s1)).
    { apply traced_lift. split; [lia | done]. }
    intros ? r4 [-> Hr4]. fold levels'.
    destruct (levels_savable levels' s1 Hl) as [payload Hpay]. rewrite <-Hr4 in Hpay.
    apply (traced_bind _ _ _ _ [(levels', WorkBranch, s1)] [] (fun _ s => s = s1)).
    { rewrite <-Hr4. by eapply traced_save. }
    intros _ r5 Hr5. by apply traced_ret. }
  destruct st; try done; exact H.
Qed.

Lemma leaf_traced cx c0 i c1 j rest s tr s' r k work :
  leaf_run c0 i c1 j rest s tr s' -> Z.of_nat (j + length rest) <= int_max u32 -> r_state r = s ->
  traced (cx_key cx)
    (branch_loop (fun index child acc => run_checkpointed_child env cx child 1 index acc) 0 j rest
       (at2 c0 i c1 k, work)) r tr
    (fun acc st => (exists k', fst acc = at2 c0 i c1 k') /\ st = s').
Proof.
  intros H. revert r k. induction H as [j s|j st rest s l s1 tr s2 Hp Hr H IH]; intros r k Hl Hs.
  - apply traced_ret. split; [by exists k | done].
  - cbn [branch_loop]. simpl in Hl.
    apply (traced_bind _ _ _ _ [_] tr (fun acc st => acc = (at2 c0 i c1 (Z.of_nat (S j)), work) /\ st = s1)).
    + subst s. apply (plain_child cx st 1 j (at2 c0 i c1 k) work r l s1); [done | done | lia | simpl; lia].
    + intros acc r1 [-> Hr1]. apply IH; [lia | done].
Qed.
Lemma branch_loop_skip {A} (rc : nat -> Step St -> A -> prog A) j index steps acc :
  (j <= length steps)%nat -> branch_loop rc j index steps acc = branch_loop rc 0 (index + j) (drop j steps) acc.
Proof.
  revert j index. induction steps as [|st steps IH]; intros [|j] index Hj; simpl in *; try done; try lia.
  - by rewrite Nat.add_0_r.
  - rewrite IH by lia. by replace (S index + j)%nat with (index + S j)%nat by lia.
Qed.

(** The body of a branch from its saved position *)
Lemma branch_body_at
    (rc : nat -> Step St -> list CheckpointLevel * option CheckpointWork ->
          prog (list CheckpointLevel * option CheckpointWork)) b levels depth work level j :
  levels !! depth = Some level -> lv_next_step level = Z.of_nat j -> (j <= length (flow_steps b))%nat ->
  branch_body rc (flow_steps b) levels depth work
  = let* acc := branch_loop rc 0 j (drop j (flow_steps b)) (levels, work) in cret (fst acc).
Proof.
  intros Hl Hn Hj. unfold branch_body. rewrite Hl, Hn, Nat2Z.id.
  destruct (Nat.ltb_spec (length (flow_steps b)) j); [lia |]. by rewrite branch_loop_skip.
Qed.

(** ** Branches with conditional steps *)

Definition at1 (c0 i : Z) : list CheckpointLevel := [mkLevel c0 i].

Inductive mid_run (c0 : Z) : nat -> list (Step St) -> St -> list Cursor -> St -> Prop :=
| mr_nil i s : mid_run c0 i [] s [] s
| mr_plain i st rest s l s1 tr s2 :
    plain st = true -> step_run st s = (l, s1, Ok tt) -> mid_run c0 (S i) rest s1 tr s2 ->
    mid_run c0 i (st :: rest) s ((at1 c0 (Z.of_nat (S i)), WorkBranch, s1) :: tr) s2
| mr_cond i st rest s b c1 tr1 s1 tr2 s2 :
    conditional st = true -> picks st s = Some (b, c1) -> leaf_flow b -> code_ok c1 ->
    leaf_run c0 (Z.of_nat i) c1 0 (flow_steps b) s tr1 s1 ->
    match head rest with Some st' => conditional st' = false | None => True end ->
    mid_run c0 (S i) rest s1 tr2 s2 -> mid_run c0 i (st :: rest) s (tr1 ++ tr2) s2.

(** The path at which a conditional child finds its branch: nothing saved below it, or the
    position [j] saved in the branch of code [c1]. *)
Definition cond_at (c0 c1 : Z) (j : nat) (fresh : Prop) (levels : list CheckpointLevel) : Prop :=
  (fresh /\ j = 0%nat /\ exists k, levels = at1 c0 k) \/ exists k, levels = at2 c0 k c1 (Z.of_nat j).

Lemma cond_child cx st index levels work r b c0 c1 j tr s0 s1 :
  conditional st = true -> picks st s0 = Some (b, c1) -> cond_at c0 c1 j (s0 = r_state r) levels ->
  leaf_flow b -> (j <= length (flow_steps b))%nat -> Z.of_nat index < int_max u32 ->
  leaf_run c0 (Z.of_nat index) c1 j (drop j (flow_steps b)) (r_state r) tr s1 ->
  traced (cx_key cx) (run_checkpointed_child env cx st 0 index (levels, work)) r tr
    (fun acc s => (exists k, acc = (at2 c0 (Z.of_nat index) c1 k, None)) /\ s = s1).
Proof.
  intros Hc Hp Hat [Hshort _] Hj Hi Hleaf.
  assert (traced (cx_key cx)
    (let* child_index := clift (ok_or (checked u32 (Z.of_nat index))
       (CatgaError_new Validation "DSL checkpoint child index exceeds u32")) in
     let* s := get_state in
     on_selected
       (fun branch code =>
          if (MAX_CHECKPOINT_PATH_DEPTH <=? 1)%nat then cfail too_deep
          else
            let* levels := run_checkpointed_branch env cx branch
              (take 1 (set_next levels 0 child_index)
               ++ [mkLevel code (default 0 (lv_next_step <$> levels !! 1%nat))]) 1 work in
            cret (levels, None))
       (lift_out (step_run st) ;;*
        let* next := clift (ok_or (checked u32 (child_index + 1))
          (CatgaError_new Validation "DSL checkpoint child index exceeds u32")) in
        save_frame env cx (at_child levels 0 next) WorkBranch ;;*
        cret (at_child levels 0 next, work))
       cfail s st (lv_branch <$> levels !! 1%nat)) r tr
    (fun acc s => (exists k, acc = (at2 c0 (Z.of_nat index) c1 k, None)) /\ s = s1)) as H.
  { rewrite checked_fits by (int_bounds; lia). cbn [ok_or].
    apply (traced_seq _ _ _ _ _ (fun c s => c = Z.of_nat index /\ s = r_state r)); [by apply traced_lift |].
    intros ? r1 [-> Hr1].
    apply (traced_seq _ _ _ _ _ (fun s s' => s = r_state r /\ s' = r_state r)); [by apply traced_get |].
    intros ? r2 [-> Hr2].
    match goal with |- traced _ ?p _ _ _ => assert (p =
      let* levels := run_checkpointed_branch env cx b (at2 c0 (Z.of_nat index) c1 (Z.of_nat j)) 1 work in
      cret (levels, None)) as -> end.
    { destruct Hat as [(Hs & -> & k & ->)|(k & ->)]; simpl.
      - rewrite <-Hs. by rewrite (proj1 (picks_selected st s0 s0 b c1 _ _ _ Hp)).
      - by rewrite (proj2 (picks_selected st s0 (r_state r) b c1 _ _ _ Hp)). }
    destruct b as [steps obs hooks]. cbn [run_checkpointed_branch].
    change steps with (flow_steps (mkFlow steps obs hooks)).
    rewrite (branch_body_at _ (mkFlow steps obs hooks) _ 1 work (mkLevel c1 (Z.of_nat j)) j) by done.
    rewrite <-(app_nil_r tr). eapply traced_bind.
    { rewrite <-(app_nil_r tr). eapply traced_bind.
      - eapply leaf_traced; [done | | done].
        rewrite length_drop. unfold short, lenZ in Hshort. int_bounds. lia.
      - intros acc r3 ([k Hk] & Hr3). apply (traced_ret _ _ _
          (fun lv s => (exists k, lv = at2 c0 (Z.of_nat index) c1 k) /\ s = s1)). by split; [exists k |]. }
    intros lv r3 [[k ->] Hr3]. apply traced_ret. split; [by exists k | done]. }
  destruct st; try done; exact H.
Qed.

Lemma mid_traced cx c0 i rest s tr s' r levels work :
  mid_run c0 i rest s tr s' -> Z.of_nat (i + length rest) <= int_max u32 -> r_state r = s ->
  (exists k, levels = at1 c0 k)
  \/ (exists k c1 j, levels = at2 c0 k c1 j)
     /\ match head rest with Some st => conditional st = false | None => True end ->
  traced (cx_key cx)
    (branch_loop (fun index child acc => run_checkpointed_child env cx child 0 index acc) 0 i rest (levels, work))
    r tr (fun _ st => st = s').
Proof.
  intros H. revert r levels work. induction H as
    [i s|i st rest s l s1 tr s2 Hp Hr H IH|i st rest s b c1 tr1 s1 tr2 s2 Hc Hp Hb Hc1 Hl Hd H IH];
    intros r levels work Hlen Hs Hlv; cbn [branch_loop]; simpl in Hlen.
  - by apply traced_ret.
  - assert (at_child levels 0 (Z.of_nat (S i)) = at1 c0 (Z.of_nat (S i))) as Hat.
    { by destruct Hlv as [[k ->]|[(k & c1 & j & ->) _]]. }
    apply (traced_bind _ _ _ _ [_] tr (fun acc st => acc = (at1 c0 (Z.of_nat (S i)), work) /\ st = s1)).
    + rewrite <-Hat. subst s. apply (plain_child cx st 0 i levels work r l s1); [done | done | lia |].
      rewrite Hat. simpl. lia.
    + intros acc r1 [-> Hr1]. apply IH; [lia | done |]. left. by eexists.
  - destruct Hlv as [[k ->]|[_ Hh]]; [| simpl in Hh; congruence].
    eapply traced_bind.
    + eapply (cond_child cx st i (at1 c0 k) work r b c0 c1 0 tr1 s s1); try done; [| lia | lia |].
      * left. split_and!; [done | done | by exists k].
      * by rewrite Hs.
    + intros acc r1 [[k' ->] Hr1]. apply IH; [lia | done |]. right. split; [by eexists _, _, _ | done].
Qed.

(** ** Item loops *)

(** Item [n] is done: its action succeeded, or failed and the error handler succeeded. *)
Definition item_done (op : ReplayableForEach St) (n : nat) (s : St) (item : list Z) (s1 : St) : Prop :=
  rf_action op s item = (s1, Ok tt)
  \/ exists s' e on_error, rf_action op s item = (s', Err e) /\ rf_on_error op = Some on_error
       /\ on_error s' n e = (s1, Ok tt).

Inductive replay_run (op : ReplayableForEach St) (items : list (list Z)) : nat -> list (list Z) -> St -> list Cursor -> St -> Prop :=
| rr_nil n s : replay_run op items n [] s [] s
| rr_cons n item rest s s1 tr s2 :
    item_done op n s item s1 -> replay_run op items (S n) rest s1 tr s2 ->
    replay_run op items n (item :: rest) s (([], WorkReplayable (Z.of_nat (S n)) items, s1) :: tr) s2.

Lemma item_traced key op n item r s1 (next : prog unit) tr (Q : unit -> St -> Prop) :
  item_done op n (r_state r) item s1 ->
  (forall r', r_state r' = s1 -> traced key next r' tr Q) ->
  traced key (let* outcome := ctry (mutate (fun s => rf_action op s item)) in
              let* _ := match outcome with
                | Ok _ => cret tt
                | Err e => match rf_on_error op with
                           | None => cfail e
                           | Some on_error => mutate (fun s => on_error s n e)
                           end
                end in next) r tr Q.
Proof.
  intros Hd Hn. destruct Hd as [E|(s' & e & on_error & E & Eo & E2)].
  - apply (traced_seq _ _ _ _ _ (fun x s => x = Ok tt /\ s = s1)).
    { apply traced_pure. intros I HI. unfold runs, wp, ctry, mutate. rewrite E. done. }
    intros ? r1 [-> Hr1]. apply (traced_seq _ _ _ _ _ (fun _ s => s = s1)); [by apply traced_ret | by intros; apply Hn].
  - apply (traced_seq _ _ _ _ _ (fun x s => x = Err e /\ s = s')).
    { apply traced_pure. intros I HI. unfold runs, wp, ctry, mutate. rewrite E. done. }
    intros ? r1 [-> Hr1]. rewrite Eo. apply (traced_seq _ _ _ _ _ (fun _ s => s = s1)); [| by intros; apply Hn].
    apply traced_pure. intros I HI. unfold runs, wp, mutate. rewrite Hr1, E2. done.
Qed.

Lemma lenZ_items_u32 items : good_items items -> lenZ items <= 65536.
Proof.
  intros [Hv _]. unfold validate_replayable_for_each_items, MAX_CHECKPOINT_REPLAYABLE_ITEMS in Hv.
  destruct (Z.ltb_spec 65536 (lenZ items)); [done | lia].
Qed.

Lemma replay_traced cx op items n rest s tr s' r :
  replay_run op items n rest s tr s' -> good_items items -> (n + length rest = length items)%nat -> r_state r = s ->
  traced (cx_key cx) (replay_from env cx op items [] n rest) r tr (fun _ st => st = s').
Proof.
  intros H Hg. revert r. induction H as [n s|n item rest s s1 tr s2 Hd H IH]; intros r Hn Hs; cbn [replay_from].
  - by apply traced_ret.
  - pose proof (lenZ_items_u32 items Hg) as Hl. unfold lenZ in Hl. simpl in Hn.
    apply (item_traced _ _ _ _ _ s1); [by rewrite Hs |]. intros r1 Hr1.
    rewrite checked_fits by (int_bounds; lia). cbn [ok_or].
    apply (traced_seq _ _ _ _ _ (fun z s => z = Z.of_nat (S n) /\ s = s1)).
    { apply traced_lift. split; [lia | done]. }
    intros ? r2 [-> Hr2].
    destruct (items_savable (Z.of_nat (S n)) items s1 Hg) as [payload Hp]; [unfold lenZ; lia |].
    apply (traced_bind _ _ _ _ [([], WorkReplayable (Z.of_nat (S n)) items, s1)] tr (fun _ s => s = s1)).
    + rewrite <-Hr2 in Hp |- *. by eapply traced_save.
    + intros _ r3 Hr3. apply IH; [lia | done].
Qed.

(** ** Top-level steps *)

Inductive trun_from : Step St -> option (list CheckpointLevel * CheckpointWork) -> St -> list Cursor -> St -> Prop :=
| tf_plain st s l s' : plain st = true -> step_run st s = (l, s', Ok tt) -> trun_from st None s [] s'
| tf_replay op cur items n s tr s' :
    good_items items -> (n <= length items)%nat ->
    (cur = None /\ n = 0%nat /\ rf_select op s = Ok items) \/ cur = Some ([], WorkReplayable (Z.of_nat n) items) ->
    replay_run op items n (drop n items) s tr s' -> trun_from (ReplayableStep op) cur s tr s'
| tf_cond st cur s0 b c0 i s tr s' :
    conditional st = true -> picks st s0 = Some (b, c0) -> code_ok c0 -> short b -> (i <= length (flow_steps b))%nat ->
    (cur = None /\ i = 0%nat /\ s0 = s) \/ cur = Some (at1 c0 (Z.of_nat i), WorkBranch) ->
    mid_run c0 i (drop i (flow_steps b)) s tr s' -> trun_from st cur s tr s'
| tf_nested st s0 b c0 i st' rest s0' b1 c1 j s tr1 s1 tr2 s' :
    conditional st = true -> picks st s0 = Some (b, c0) -> code_ok c0 -> short b ->
    drop i (flow_steps b) = st' :: rest -> conditional st' = true -> picks st' s0' = Some (b1, c1) -> code_ok c1 ->
    leaf_flow b1 -> (j <= length (flow_steps b1))%nat ->
    leaf_run c0 (Z.of_nat i) c1 j (drop j (flow_steps b1)) s tr1 s1 ->
    match head rest with Some st'' => conditional st'' = false | None => True end ->
    mid_run c0 (S i) rest s1 tr2 s' ->
    trun_from st (Some (at2 c0 (Z.of_nat i) c1 (Z.of_nat j), WorkBranch)) s (tr1 ++ tr2) s'.

(** The frame handed to a step for a cursor *)
Definition frame_at (cur : option (list CheckpointLevel * CheckpointWork)) (fr : option CheckpointFrame) : Prop :=
  match cur, fr with
  | None, None => True
  | Some (levels, work), Some f => fr_levels f = levels /\ fr_work f = work
  | _, _ => False
  end.

(** A conditional top-level step from a path whose first level is the branch of code [c0] *)
Lemma cond_step_traced cx st fr s0 b c0 levels r tr s' work :
  conditional st = true -> picks st s0 = Some (b, c0) ->
  (fr = None /\ s0 = r_state r /\ levels = [mkLevel c0 0] /\ work = None)
  \/ (exists f i rest, fr = Some f /\ fr_levels f = levels /\ levels = mkLevel c0 i :: rest /\ work = Some (fr_work f)) ->
  traced (cx_key cx) (run_checkpointed_branch env cx b levels 0 work) r tr (fun _ s => s = s') ->
  traced (cx_key cx) (run_checkpointed_step env cx st fr) r tr (fun _ s => s = s').
Proof.
  intros Hc Hp Hat Hb.
  assert (traced (cx_key cx)
    (let* s := get_state in
     on_selected
       (fun branch code =>
          let* _ := run_checkpointed_branch env cx branch (start_levels fr code) 0 (fr_work <$> fr) in cret tt)
       (lift_out (step_run st)) cfail s st (fr ≫= fun frame => lv_branch <$> fr_levels frame !! 0%nat))
    r tr (fun _ s => s = s')) as H.
  { intros n Hn1 Hn2. apply (runs_bind _ _ _ _ (fun s r' => s = r_state r /\ r' = r)); [by apply runs_get |].
    intros ? ? [-> ->]. revert n Hn1 Hn2. change (traced (cx_key cx) (on_selected (fun branch code =>
          let* _ := run_checkpointed_branch env cx branch (start_levels fr code) 0 (fr_work <$> fr) in cret tt)
       (lift_out (step_run st)) cfail (r_state r) st (fr ≫= fun frame => lv_branch <$> fr_levels frame !! 0%nat))
       r tr (fun _ s => s = s')).
    match goal with |- traced _ ?p _ _ _ => assert (p =
      let* _ := run_checkpointed_branch env cx b levels 0 work in cret tt) as -> end.
    { destruct Hat as [(-> & -> & -> & ->)|(f & i & rest & -> & Hf & -> & ->)].
      - simpl. by rewrite (proj1 (picks_selected st _ (r_state r) b c0 _ _ _ Hp)).
      - simpl. rewrite Hf. simpl. by rewrite (proj2 (picks_selected st _ (r_state r) b c0 _ _ _ Hp)). }
    rewrite <-(app_nil_r tr). eapply traced_bind; [exact Hb |]. intros ? r1 Hr1. by apply traced_ret. }
  destruct st; try done; exact H.
Qed.

Lemma replay_step_traced cx op cur fr items n s tr s' r :
  good_items items -> (n <= length items)%nat ->
  (cur = None /\ n = 0%nat /\ rf_select op s = Ok items) \/ cur = Some ([], WorkReplayable (Z.of_nat n) items) ->
  replay_run op items n (drop n items) s tr s' -> frame_at cur fr -> r_state r = s ->
  traced (cx_key cx) (run_checkpointed_step env cx (ReplayableStep op) fr) r tr (fun _ s => s = s').
Proof.
  intros Hg Hn Hcur Hrun Hfr Hs.
  cbn [run_checkpointed_step]. unfold run_checkpointed_replayable_for_each.
  assert (default [] (fr_levels <$> fr) = []) as ->.
  { destruct Hcur as [(-> & _)| ->], fr as [f|]; simpl in *; try done. by destruct Hfr as [-> _]. }
  apply (traced_seq _ _ _ _ _ (fun a s0 => a = (Z.of_nat n, items) /\ s0 = s)).
  { destruct Hcur as [(-> & -> & Hsel)| ->]; destruct fr as [f|]; simpl in Hfr; try done; cbn [fmap option_fmap option_map].
    - apply (traced_seq _ _ _ _ _ (fun a s0 => a = s /\ s0 = s)); [by apply traced_get |].
      intros ? r1 [-> Hr1]. rewrite Hsel.
      apply (traced_seq _ _ _ _ _ (fun a s0 => a = items /\ s0 = s)); [by apply traced_lift |].
      intros ? r2 [-> Hr2]. by apply traced_ret.
    - destruct Hfr as [_ ->]. by apply traced_ret. }
  intros ? r1 [-> Hr1]. cbn [fst snd]. pose proof Hg as [Hv _]. rewrite Hv.
  apply (traced_seq _ _ _ _ _ (fun _ s0 => s0 = s)); [by apply traced_lift |]. intros _ r2 Hr2.
  pose proof (lenZ_items_u32 items Hg) as Hl. unfold lenZ in *.
  rewrite checked_fits by (int_bounds; lia). cbn [ok_or].
  apply (traced_seq _ _ _ _ _ (fun a s0 => a = Z.of_nat (length items) /\ s0 = s)); [by apply traced_lift |].
  intros ? r3 [-> Hr3]. destruct (Z.ltb_spec (Z.of_nat (length items)) (Z.of_nat n)); [lia |].
  rewrite Nat2Z.id. eapply replay_traced; [exact Hrun | done | rewrite length_drop; lia | done].
Qed.

Lemma branch_step_traced cx st cur fr s0 b c0 i s tr s' r :
  conditional st = true -> picks st s0 = Some (b, c0) -> short b -> (i <= length (flow_steps b))%nat ->
  (cur = None /\ i = 0%nat /\ s0 = s) \/ cur = Some (at1 c0 (Z.of_nat i), WorkBranch) ->
  mid_run c0 i (drop i (flow_steps b)) s tr s' -> frame_at cur fr -> r_state r = s ->
  traced (cx_key cx) (run_checkpointed_step env cx st fr) r tr (fun _ s => s = s').
Proof.
  intros Hc Hp Hb Hi Hcur Hrun Hfr Hs.
  assert (exists work, (fr = None /\ s0 = r_state r /\ at1 c0 (Z.of_nat i) = [mkLevel c0 0] /\ work = None)
    \/ (exists f i0 rest, fr = Some f /\ fr_levels f = at1 c0 (Z.of_nat i)
         /\ at1 c0 (Z.of_nat i) = mkLevel c0 i0 :: rest /\ work = Some (fr_work f))) as [work Hw].
  { destruct Hcur as [(-> & -> & ->)| ->]; destruct fr as [f|]; simpl in Hfr; try done.
    - exists None. left. done.
    - destruct Hfr as [Hf1 Hf2]. exists (Some (fr_work f)). right. by exists f, (Z.of_nat i), []. }
  eapply cond_step_traced; [done | done | exact Hw |]. destruct b as [steps obs hooks].
  cbn [run_checkpointed_branch]. change steps with (flow_steps (mkFlow steps obs hooks)).
  rewrite (branch_body_at _ (mkFlow steps obs hooks) _ 0 work (mkLevel c0 (Z.of_nat i)) i) by done.
  rewrite <-(app_nil_r tr). eapply (traced_bind _ _ _ _ _ _ (fun _ s0 => s0 = s'));
    [| intros acc r1 Hr1; by apply traced_ret].
  eapply mid_traced; [exact Hrun | | done | left; by eexists].
  rewrite length_drop. unfold short, lenZ in Hb. cbn [flow_steps] in *. int_bounds. lia.
Qed.

Lemma nested_step_traced cx st fr s0 b c0 i st' rest s0' b1 c1 j s tr1 s1 tr2 s' r :
  conditional st = true -> picks st s0 = Some (b, c0) -> short b ->
  drop i (flow_steps b) = st' :: rest -> conditional st' = true -> picks st' s0' = Some (b1, c1) ->
  leaf_flow b1 -> (j <= length (flow_steps b1))%nat ->
  leaf_run c0 (Z.of_nat i) c1 j (drop j (flow_steps b1)) s tr1 s1 ->
  match head rest with Some st'' => conditional st'' = false | None => True end ->
  mid_run c0 (S i) rest s1 tr2 s' ->
  frame_at (Some (at2 c0 (Z.of_nat i) c1 (Z.of_nat j), WorkBranch)) fr -> r_state r = s ->
  traced (cx_key cx) (run_checkpointed_step env cx st fr) r (tr1 ++ tr2) (fun _ s => s = s').
Proof.
  intros Hc Hp Hb Hd Hc' Hp' Hb1 Hj Hl Hh Hrun Hfr Hs.
  destruct fr as [f|]; [| done]. destruct Hfr as [Hf1 Hf2].
  assert (i < length (flow_steps b))%nat as Hi.
  { apply (f_equal length) in Hd. rewrite length_drop in Hd. simpl in Hd. lia. }
  eapply cond_step_traced; [done | done | right; by exists f, (Z.of_nat i), [mkLevel c1 (Z.of_nat j)] |].
  destruct b as [steps obs hooks].
  cbn [run_checkpointed_branch]. change steps with (flow_steps (mkFlow steps obs hooks)).
  rewrite (branch_body_at _ (mkFlow steps obs hooks) _ 0 _ (mkLevel c0 (Z.of_nat i)) i);
    [| done | done | lia]. rewrite Hd. cbn [branch_loop].
  assert (length rest = length (flow_steps (mkFlow steps obs hooks)) - S i)%nat as Hlr.
  { apply (f_equal length) in Hd. rewrite length_drop in Hd. simpl in *. lia. }
  unfold short, lenZ in Hb. assert (65536 < int_max u32) by done. rewrite <-(app_nil_r (tr1 ++ tr2)).
  eapply (traced_bind _ _ _ _ _ _ (fun _ s0 => s0 = s')); [| intros acc r1 Hr1; by apply traced_ret].
  eapply traced_bind.
  { eapply (cond_child cx st' i _ _ r b1 c0 c1 j tr1 s0' s1); try done; [| lia | by rewrite Hs].
    right. by eexists. }
  intros acc r1 [[k ->] Hr1]. eapply mid_traced; [exact Hrun | lia | done |].
  right. split; [by eexists _, _, _ | done].
Qed.

(** A step runs on from any cursor as its trace says. *)
Lemma trun_traced cx st cur fr s tr s' r :
  trun_from st cur s tr s' -> frame_at cur fr -> r_state r = s ->
  traced (cx_key cx) (run_checkpointed_step env cx st fr) r tr (fun _ s => s = s').
Proof.
  intros H Hfr Hs. destruct H as [st s l s' Hp Hr| | |];
    [| by eapply replay_step_traced | by eapply branch_step_traced | by eapply nested_step_traced].
  destruct fr; [done |].
  assert (traced (cx_key cx) (let* s := get_state in lift_out (step_run st)) r [] (fun _ s => s = s')) as H.
  { apply (traced_seq _ _ _ _ _ (fun _ s0 => s0 = s)); [by apply traced_get |].
    intros _ r1 Hr1. eapply traced_out; [rewrite Hr1; exact Hr | done]. }
  destruct st; try done; exact H.
Qed.

(** ** Every saved cursor resumes where it was saved *)

Lemma app_cons_split {A} (l1 l2 : list A) t1 x t2 :
  l1 ++ l2 = t1 ++ x :: t2 ->
  (exists t, l1 = t1 ++ x :: t /\ t2 = t ++ l2) \/ (exists t, t1 = l1 ++ t /\ l2 = t ++ x :: t2).
Proof.
  revert t1. induction l1 as [|a l1 IH]; intros t1 E; simpl in E.
  - right. by exists t1.
  - destruct t1 as [|b t1]; simplify_eq/=; [left; by exists l1 |].
    destruct (IH t1) as [(t & -> & ->)|(t & -> & ->)]; [done | left; by exists t | right; by exists t].
Qed.

Lemma drop_S_cons {A} n (l : list A) x rest : drop n l = x :: rest -> drop (S n) l = rest /\ (S n <= length l)%nat.
Proof.
  intros E. pose proof (f_equal length E) as El. rewrite length_drop in El. simpl in El. split; [| lia].
  replace (S n) with (n + 1)%nat by lia. by rewrite <-drop_drop, E.
Qed.

Lemma leaf_cursor c0 i c1 j rest s tr s' steps t1 L w s1 t2 :
  leaf_run c0 i c1 j rest s tr s' -> rest = drop j steps -> tr = t1 ++ (L, w, s1) :: t2 ->
  exists j', L = at2 c0 i c1 (Z.of_nat j') /\ w = WorkBranch /\ (j' <= length steps)%nat
    /\ leaf_run c0 i c1 j' (drop j' steps) s1 t2 s'.
Proof.
  intros H. revert t1. induction H as [j s|j st rest s l s2 tr s' Hp Hr H IH]; intros t1 Hd E.
  - by destruct t1.
  - symmetry in Hd. apply drop_S_cons in Hd as [Hd Hj]. destruct t1 as [|x t1]; simplify_eq/=.
    + exists (S j). split_and!; [done | done | done |]. exact H.
    + by apply (IH t1).
Qed.

Lemma replay_cursor op items n rest s tr s' t1 L w s1 t2 :
  replay_run op items n rest s tr s' -> rest = drop n items -> tr = t1 ++ (L, w, s1) :: t2 ->
  exists n', L = [] /\ w = WorkReplayable (Z.of_nat n') items /\ (n' <= length items)%nat
    /\ replay_run op items n' (drop n' items) s1 t2 s'.
Proof.
  intros H. revert t1. induction H as [n s|n item rest s s2 tr s' Hd H IH]; intros t1 Hdr E.
  - by destruct t1.
  - symmetry in Hdr. apply drop_S_cons in Hdr as [Hdr Hn]. destruct t1 as [|x t1]; simplify_eq/=.
    + exists (S n). split_and!; [done | done | done |]. exact H.
    + by apply (IH t1).
Qed.

Lemma mid_cursor st s0 b c0 i rest s tr s' t1 L w s1 t2 :
  conditional st = true -> picks st s0 = Some (b, c0) -> code_ok c0 -> short b ->
  mid_run c0 i rest s tr s' -> rest = drop i (flow_steps b) -> tr = t1 ++ (L, w, s1) :: t2 ->
  trun_from st (Some (L, w)) s1 t2 s'.
Proof.
  intros Hc Hp Hcode Hb H. revert t1. induction H as
    [i s|i st' rest s l s2 tr s' Hpl Hr H IH|i st' rest s b1 c1 tr1 s2 tr2 s' Hc' Hp' Hb1 Hc1 Hl Hd H IH];
    intros t1 Hdr E.
  - by destruct t1.
  - symmetry in Hdr. apply drop_S_cons in Hdr as [Hdr Hi]. destruct t1 as [|x t1]; simplify_eq/=.
    + eapply (tf_cond st _ s0 b c0 (S i)); try done. by right.
    + by apply (IH t1).
  - symmetry in Hdr. pose proof Hdr as Hdr0. apply drop_S_cons in Hdr as [Hdr Hi].
    apply app_cons_split in E as [(t & -> & ->)|(t & -> & E)].
    + destruct (leaf_cursor _ _ _ _ _ _ _ _ (flow_steps b1) t1 L w s1 t Hl) as (j & -> & -> & Hj & Hl');
        [done | done |].
      eapply (tf_nested st s0 b c0 i st' rest s b1 c1 j); done.
    + by apply (IH t).
Qed.

Lemma trun_cursor st s t1 L w s1 t2 s' :
  trun_from st None s (t1 ++ (L, w, s1) :: t2) s' -> trun_from st (Some (L, w)) s1 t2 s'.
Proof.
  intros H. inversion H as [? ? l ? Hp Hr|op ? items n ? ? ? Hg Hn Hcur Hrun
    |? ? s0 b c0 i ? ? ? Hc Hp Hcode Hb Hi Hcur Hrun|]; subst.
  - by destruct t1.
  - destruct (replay_cursor _ _ _ _ _ _ _ t1 L w s1 t2 Hrun) as (n' & -> & -> & Hn' & Hr'); [done | done |].
    eapply (tf_replay op _ items n'); try done. by right.
  - eapply mid_cursor; done.
Qed.

(** Saved cursors are well-formed and read back. *)
Definition good_cursor (c : Cursor) : Prop :=
  Forall level_wf (fst (fst c)) /\ wf work_codec (snd (fst c)) /\ recoverable (snd (fst c)).

Lemma branch_recoverable : wf work_codec WorkBranch /\ recoverable WorkBranch.
Proof. split; [done |]. unfold recoverable. simpl. constructor; simpl; int_bounds; lia. Qed.

Lemma leaf_good c0 i c1 j rest s tr s' :
  leaf_run c0 i c1 j rest s tr s' -> code_ok c0 -> code_ok c1 -> code_ok i ->
  Z.of_nat (j + length rest) <= int_max u32 -> Forall good_cursor tr.
Proof.
  intros H H0 H1 Hi. induction H as [|j st rest s l s1 tr s2 Hp Hr H IH]; intros Hl; constructor.
  - split; [| exact branch_recoverable]. simpl in *. repeat constructor; simpl; unfold code_ok in *;
      try apply H0; try apply H1; try apply Hi; int_bounds; lia.
  - apply IH. simpl in Hl. lia.
Qed.

Lemma mid_good c0 i rest s tr s' :
  mid_run c0 i rest s tr s' -> code_ok c0 -> Z.of_nat (i + length rest) <= int_max u32 -> Forall good_cursor tr.
Proof.
  intros H H0. induction H as
    [|i st rest s l s2 tr s' Hpl Hr H IH|i st rest s b1 c1 tr1 s2 tr2 s' Hc' Hp' [Hb1 _] Hc1 Hl Hd H IH];
    intros Hlen; simpl in Hlen.
  - constructor.
  - constructor; [| apply IH; lia]. split; [| exact branch_recoverable]. repeat constructor; simpl;
      unfold code_ok in *; try apply H0; int_bounds; lia.
  - apply Forall_app. split; [| apply IH; lia].
    eapply leaf_good; [done | done | done | unfold code_ok; int_bounds; lia |].
    unfold short, lenZ in Hb1. int_bounds. lia.
Qed.

Lemma replay_good op items n rest s tr s' :
  replay_run op items n rest s tr s' -> good_items items -> (n + length rest = length items)%nat -> Forall good_cursor tr.
Proof.
  intros H [Hv Hg]. induction H as [|n item rest s s2 tr s' Hd H IH]; intros Hl; constructor; simpl in Hl.
  - destruct (Hg (Z.of_nat (S n))) as (? & ? & ?); [unfold lenZ; lia |]. split; [constructor | done].
  - apply IH. lia.
Qed.

Lemma trun_good st s tr s' : trun_from st None s tr s' -> Forall good_cursor tr.
Proof.
  intros H. inversion H as [? ? l ? Hp Hr|op ? items n ? ? ? Hg Hn Hcur Hrun
    |? ? s0 b c0 i ? ? ? Hc Hp Hcode Hb Hi Hcur Hrun|]; subst.
  - constructor.
  - eapply replay_good; [done | done | rewrite length_drop; lia].
  - eapply mid_good; [done | done | rewrite length_drop; unfold short, lenZ in Hb; int_bounds; lia].
Qed.

(** ** In-memory runs give traces *)

Lemma run_steps_ran f i steps s l s' :
  run_steps step_run f i steps s = (l, s', Ok tt) -> ran (env_race env) steps s s'.
Proof.
  revert i s l. induction steps as [|st steps IH]; intros i s l; cbn [run_steps].
  - destruct (notify_flow_succeeded f s) as [l1 [[]|e]]; intros; simplify_eq. constructor.
  - destruct (step_run st s) as [[l1 s1] [[]|e]] eqn:E; [| by destruct (run_failed f s1 i e)].
    destruct (notify_step_succeeded f s1 i) as [l2 [[]|e]]; [| done].
    destruct (run_steps step_run f (S i) steps s1) as [[l3 s3] r3] eqn:E3. intros; simplify_eq.
    econstructor; eauto.
Qed.

Lemma run_ran f s l s' : run (env_race env) f s = (l, s', Ok tt) -> ran (env_race env) (flow_steps f) s s'.
Proof.
  destruct f as [steps obs hooks]. cbn [run].
  destruct (run_steps _ _ 0 steps s) as [[l1 s1] r1] eqn:E. intros; simplify_eq. by eapply run_steps_ran.
Qed.

Lemma leaf_of_ran c0 i c1 j steps s s' :
  Forall (fun st => plain st = true) steps -> ran (env_race env) steps s s' ->
  exists tr, leaf_run c0 i c1 j steps s tr s'.
Proof.
  intros Hf H. revert j. induction H as [|st steps s l s1 s2 E H IH]; intros j; [eexists; constructor |].
  inversion Hf; subst. destruct (IH ltac:(done) (S j)) as [tr Htr]. eexists. by econstructor.
Qed.

Lemma mid_of_ran c0 i steps s s' :
  Forall inner_ok steps -> apart steps -> ran (env_race env) steps s s' -> exists tr, mid_run c0 i steps s tr s'.
Proof.
  intros Hf Ha H. revert i. induction H as [|st steps s l s1 s2 E H IH]; intros i; [eexists; constructor |].
  apply Forall_cons in Hf as [Hst Hf].
  assert (apart steps) as Ha' by (intros k a b H1 H2; exact (Ha (S k) a b H1 H2)).
  destruct (IH Hf Ha' (S i)) as [tr Htr]. destruct Hst as [Hp|(Hc & Hsel & Hb)].
  - eexists. by eapply mr_plain.
  - destruct (picks_run st s Hc Hsel) as (b & c1 & Hp & Hrun & Hcode & Hin).
    rewrite Forall_forall in Hb. pose proof (Hb b Hin) as Hleaf. rewrite Hrun in E. apply run_ran in E.
    destruct (leaf_of_ran c0 (Z.of_nat i) c1 0 _ _ _ (proj2 Hleaf) E) as [tr1 Htr1].
    eexists. eapply (mr_cond c0 i st steps s b c1); try done.
    destruct steps as [|st' steps]; [done |]. simpl. by apply (Ha 0%nat st).
Qed.

Lemma trun_of_run st s l s' :
  top_ok st -> step_run st s = (l, s', Ok tt) -> exists tr, trun_from st None s tr s'.
Proof.
  intros [Hp|[(op & -> & Hg)|(Hc & Hsel & Hb)]] E.
  - eexists. by econstructor.
  - simpl in E. destruct (rf_select op s) as [items|e] eqn:Es; [| done].
    destruct (replay_loop op 0 items s) as [s1 r1] eqn:El. simplify_eq.
    assert (forall n rest s, replay_loop op n rest s = (s', Ok tt) -> exists tr, replay_run op items n rest s tr s') as H.
    { intros n rest. revert n. induction rest as [|item rest IH]; intros n s0 H; simpl in H.
      - simplify_eq. eexists. constructor.
      - destruct (rf_action op s0 item) as [s1 [[]|e]] eqn:Ea.
        + destruct (IH _ _ H) as [tr Htr]. eexists. eapply rr_cons; [by left | done].
        + destruct (rf_on_error op) as [oe|] eqn:Eo; [| done].
          destruct (oe s1 n e) as [s2 [[]|e']] eqn:Eo2; [| done].
          destruct (IH _ _ H) as [tr Htr]. eexists. eapply rr_cons; [| done]. right. by exists s1, e, oe. }
    destruct (H 0%nat items s El) as [tr Htr]. exists tr. eapply (tf_replay op None items 0); try done; [by eapply Hg | lia |].
    by left.
  - destruct (picks_run st s Hc Hsel) as (b & c0 & Hp & Hrun & Hcode & Hin).
    rewrite Forall_forall in Hb. destruct (Hb b Hin) as (Hsh & Hin' & Hap). rewrite Hrun in E. apply run_ran in E.
    destruct (mid_of_ran c0 0 _ _ _ Hin' Hap E) as [tr Htr]. exists tr.
    eapply (tf_cond st None s b c0 0); try done; [lia | by left].
Qed.

(** The cursors of one step are few. *)

Lemma leaf_length c0 i c1 j rest s tr s' : leaf_run c0 i c1 j rest s tr s' -> length tr = length rest.
Proof. induction 1; simpl; congruence. Qed.

Lemma mid_length c0 i rest s tr s' : mid_run c0 i rest s tr s' -> lenZ tr <= 65536 * lenZ rest.
Proof.
  unfold lenZ. induction 1 as [|i st rest s l s2 tr s' Hpl Hr H IH|i st rest s b1 c1 tr1 s2 tr2 s' Hc' Hp' [Hb1 _] Hc1 Hl Hd H IH];
    simpl; [lia | lia |].
  apply leaf_length in Hl. unfold short, lenZ in Hb1. rewrite length_app. lia.
Qed.

Lemma replay_length op items n rest s tr s' : replay_run op items n rest s tr s' -> length tr = length rest.
Proof. induction 1; simpl; congruence. Qed.

Lemma trun_length st s tr s' : trun_from st None s tr s' -> lenZ tr <= 2 ^ 32.
Proof.
  intros H. inversion H as [? ? l ? Hp Hr|op ? items n ? ? ? Hg Hn Hcur Hrun
    |? ? s0 b c0 i ? ? ? Hc Hp Hcode Hb Hi Hcur Hrun|]; subst.
  - unfold lenZ. simpl. lia.
  - apply replay_length in Hrun. pose proof (lenZ_items_u32 items Hg). unfold lenZ in *.
    rewrite Hrun, length_drop. lia.
  - apply mid_length in Hrun. unfold short, lenZ in *. rewrite length_drop in Hrun. lia.
Qed.

(** ** Whole flows *)

Section flow.
Context (id : string) (f : DslFlow St) (s0 s_end : St).

Definition key_of (k : nat) : string * Z := (id, Z.of_nat k).
Definition end_key : string * Z := (id, DSL_TERMINAL_STEP_INDEX).

(** The first [k] steps and their success hooks succeed in memory, and lead to the state. *)
Inductive prefix_run : nat -> St -> Prop :=
| pr_0 : prefix_run 0 s0
| pr_S k st s l s1 :
    prefix_run k s -> flow_steps f !! k = Some st -> step_run st s = (l, s1, Ok tt) ->
    snd (notify_step_succeeded f s1 k) = Ok tt -> prefix_run (S k) s1.

Lemma prefix_det k s s' : prefix_run k s -> prefix_run k s' -> s = s'.
Proof.
  intros H. revert s'. induction H as [|k st s l s1 H IH Hst E Hn]; intros s' H'; inversion H'; subst; [done |].
  match goal with H : prefix_run k ?x |- _ => pose proof (IH x H); subst x end. simplify_eq.
  match goal with H1 : step_run _ _ = (l, _, _), H2 : step_run _ _ = _ |- _ => rewrite H1 in H2 end. by simplify_eq.
Qed.

Context (Hok : recovers f) (Hend : prefix_run (length (flow_steps f)) s_end)
  (Hhook : snd (notify_flow_succeeded f s_end) = Ok tt).

(** What the store may hold for the flow: the state after the first [k] steps; a cursor inside
    step [k]; or the terminal record. *)
Inductive consistent (m : MemoryDslStepProgress) : Prop :=
| cs_between k s :
    prefix_run k s -> (k <= length (flow_steps f))%nat -> m !! end_key = None ->
    (forall i, (k <= i < length (flow_steps f))%nat -> m !! key_of i = None) ->
    match k with
    | O => True
    | S k' => exists p, m !! key_of k' = Some p /\ p_kind p = ApplicationState
                /\ codec_decode env (p_payload p) = Ok s
    end -> consistent m
| cs_inside k st s s' t1 c t2 p :
    prefix_run k s -> prefix_run (S k) s' -> flow_steps f !! k = Some st -> m !! end_key = None ->
    (forall i, (k < i < length (flow_steps f))%nat -> m !! key_of i = None) ->
    trun_from st None s (t1 ++ c :: t2) s' ->
    m !! key_of k = Some p -> p_kind p = CheckpointFrameKind -> frame_of c (p_payload p) -> consistent m
| cs_ended p bytes :
    m !! end_key = Some p -> p_kind p = TerminalKind -> deserialize_frame terminal_codec (p_payload p) = Ok bytes ->
    codec_decode env bytes = Ok s_end -> consistent m.

Record versions (v : Z) (m : MemoryDslStepProgress) : Prop := {
  vs_keyed : keyed m;
  vs_range : forall i, -1 <= ver m (key_of i) <= v
}.

Lemma versions_weaken v v' m : versions v m -> v <= v' -> versions v' m.
Proof. intros [Hk Hr] Hv. split; [done |]. intros i. specialize (Hr i). lia. Qed.

Lemma versions_ready v n k m :
  versions v m -> ver m (key_of k) + n <= int_max i64 -> ready (key_of k) n m.
Proof. intros [Hk Hr] Hn. specialize (Hr k). split; [done | lia | lia]. Qed.

Lemma key_of_inj i j : key_of i = key_of j -> i = j.
Proof. unfold key_of. intros [= H]. lia. Qed.

Lemma versions_insert v k p m :
  versions v m -> progress_key p = key_of k -> -1 <= p_version p <= v -> versions v (<[key_of k := p]> m).
Proof.
  intros [Hk Hr] Hp Hv. split; [by apply keyed_insert |]. intros i. unfold ver in *.
  destruct (decide (k = i)) as [->|Hne]; [by rewrite lookup_insert_eq |].
  rewrite lookup_insert_ne; [apply Hr |]. intros E. by apply key_of_inj in E.
Qed.

Lemma saved_versions v k tr m m' :
  saved (key_of k) tr m m' -> versions v m -> ver m (key_of k) + lenZ tr <= v -> versions v m'.
Proof.
  intros Hs Hv Hb. unfold saved in Hs. destruct (last tr) as [c|]; [| by subst].
  destruct Hs as (p & -> & Hp & _ & _ & Hpv). apply versions_insert; [done | done |].
  destruct Hv as [_ Hr]. specialize (Hr k). rewrite Hpv. unfold lenZ in *. lia.
Qed.

Lemma index_ok k : (k < length (flow_steps f))%nat -> top_level_step_index k = Ok (Z.of_nat k).
Proof.
  intros Hk. destruct Hok as [Hs _]. unfold short, lenZ in Hs. unfold top_level_step_index.
  rewrite checked_fits by (int_bounds; lia). unfold DSL_TERMINAL_STEP_INDEX.
  destruct (Z.eqb_spec (Z.of_nat k) (int_max u32)); [int_bounds; lia | done].
Qed.

Lemma key_of_end k : (k < length (flow_steps f))%nat -> key_of k <> end_key.
Proof.
  intros Hk [= H]. destruct Hok as [Hs _]. unfold short, lenZ, DSL_TERMINAL_STEP_INDEX in *. int_bounds. lia.
Qed.

(** The interruption leaves the store consistent, with versions at most [v]. *)
Definition recoverable_store (v : Z) (m : MemoryDslStepProgress) : Prop := consistent m /\ versions v m.

(** A part of a run inside step [k]: what was saved so far is a cursor of the step, or nothing. *)
Lemma upto_consistent k st s s' tr0 tr tr1 m m' v :
  prefix_run k s -> prefix_run (S k) s' -> flow_steps f !! k = Some st -> trun_from st None s tr0 s' ->
  tr0 = tr1 ++ tr -> consistent m ->
  m !! end_key = None -> (forall i, (k < i < length (flow_steps f))%nat -> m !! key_of i = None) ->
  versions v m -> ver m (key_of k) + 2 ^ 32 <= v ->
  upto_saved (key_of k) tr m m' -> recoverable_store v m'.
Proof.
  intros Hs Hs' Hst Htr -> Hc He Hn Hv Hvk (t1 & t2 & -> & Hsv).
  pose proof (trun_length _ _ _ _ Htr) as Hlen. unfold lenZ in Hlen. rewrite !length_app in Hlen.
  split; [| eapply saved_versions; [done | done |]; unfold lenZ; lia].
  unfold saved in Hsv. destruct (last t1) as [c|] eqn:El; [| by subst].
  destruct Hsv as (p & -> & Hp & Hkind & Hf & _). apply last_Some in El as [t1' ->].
  assert (k < length (flow_steps f))%nat as Hk by (by eapply lookup_lt_Some).
 
  eapply (cs_inside _ k st s s' (tr1 ++ t1') c t2 p); try done.
  - rewrite lookup_insert_ne; [done | by apply key_of_end].
  - intros i Hi. rewrite lookup_insert_ne; [by apply Hn |]. intros E. apply key_of_inj in E. lia.
  - by rewrite <-!app_assoc in *.
  - apply lookup_insert_eq.
Qed.
(** A program whose failure is looked at before it is passed on *)
Definition gives_up {B} (p : prog B) : Prop := forall r, exists e r', p r = (Err e, r') /\ r_progress r' = r_progress r.

Lemma ctry_runs {A B} (m : prog A) (k : CatgaResult A -> prog B) r I (Q : A -> run_t -> Prop) (Q' : B -> run_t -> Prop) :
  runs m r I Q -> (forall a r', Q a r' -> runs (k (Ok a)) r' I Q') -> (forall e, gives_up (k (Err e))) ->
  runs (let* x := ctry m in k x) r I Q'.
Proof.
  unfold runs, wp, cbind, ctry. intros [Hb Hm] Hk He. destruct (m r) as [[a|e] r']; simpl in *.
  - destruct (Hk a r' Hm) as [Hb' Hk']. split; [auto |]. destruct (k (Ok a) r') as [[b|e] r'']; simpl in *; [done |].
    destruct Hk'. auto.
  - destruct (He e r') as (e' & r'' & -> & Hp). simpl. unfold budget, contents in *. rewrite Hp. done.
Qed.

Lemma counted_runs {A} (m : prog A) r I (Q : A -> run_t -> Prop) :
  (forall r', same_store r r' -> r_state r' = r_state r ->
     runs m r' I (fun a r' => forall r'', same_store r' r'' -> r_state r'' = r_state r' -> Q a r'')) ->
  runs (counted m) r I Q.
Proof.
  intros Hm. unfold counted.
  apply (runs_bind _ _ _ _ (fun _ r' => same_store r r' /\ r_state r' = r_state r)); [by apply runs_emit |].
  intros _ r1 [Hs1 Hst1]. eapply ctry_runs; [by apply Hm | |].
  - intros a r2 HQ. apply (runs_bind _ _ _ _ (fun _ r' => same_store r2 r' /\ r_state r' = r_state r2)); [by apply runs_emit |].
    intros _ r3 [Hs3 Hst3]. apply runs_ret. auto.
  - intros e r2. eexists _, _. split; [reflexivity | done].
Qed.

(** ** One top-level step *)

(** The state of the store while step [k] is about to run, possibly from a cursor *)
Record before_step (k : nat) (m : MemoryDslStepProgress) : Prop := {
  bf_end : m !! end_key = None;
  bf_later : forall i, (k < i < length (flow_steps f))%nat -> m !! key_of i = None
}.

Lemma top_step_runs k st s s' tr0 tr1 tr cur fr r v :
  prefix_run k s -> prefix_run (S k) s' -> flow_steps f !! k = Some st -> trun_from st None s tr0 s' ->
  tr0 = tr1 ++ tr -> trun_from st cur (r_state r) tr s' -> frame_at cur fr ->
  snd (notify_step_succeeded f s' k) = Ok tt ->
  recoverable_store v (contents r) -> before_step k (contents r) ->
  ver (contents r) (key_of k) + 2 ^ 33 <= v -> v <= int_max i64 ->
  runs (let* step_index := clift (top_level_step_index k) in
        top_body env f (mkContext id step_index) k (run_checkpointed_step env (mkContext id step_index) st fr)) r
    (recoverable_store v)
    (fun _ r' => r_state r' = s' /\ before_step k (contents r') /\ versions v (contents r')
       /\ exists p, contents r' !! key_of k = Some p /\ p_kind p = ApplicationState
            /\ codec_decode env (p_payload p) = Ok s').
Proof.
  intros Hs Hs' Hst Htr0 -> Htr Hfr Hnote [Hc Hv] [He Hl] Hvk Hmax.
  assert (k < length (flow_steps f))%nat as Hk by (by eapply lookup_lt_Some).
  pose proof (trun_length _ _ _ _ Htr0) as Hlen. unfold lenZ in Hlen. rewrite length_app in Hlen.
  rewrite index_ok by done.
  apply (runs_bind _ _ _ _ (fun i r' => i = Z.of_nat k /\ r' = r)); [by apply runs_lift |]. intros ? ? [-> ->].
  unfold top_body. eapply ctry_runs.
  - eapply runs_mono.
    + eapply (trun_traced (mkContext id (Z.of_nat k)) st cur fr _ tr s' r Htr Hfr eq_refl 1); [| lia].
      eapply versions_ready; [done |]. unfold lenZ. lia.
    + intros m' Hup. eapply (upto_consistent k st s s' _ tr tr1); try done. lia.
    + intros a r' H. exact H.
  - intros a r1 [Hr1 Hsv]. change (cx_key (mkContext id (Z.of_nat k))) with (key_of k) in Hsv.
    pose proof (saved_ver _ _ _ _ Hsv) as Hver.
    assert (recoverable_store v (contents r1)) as [Hc1 Hv1].
    { eapply (upto_consistent k st s s' _ tr tr1 (contents r)); try done; [lia |].
      exists tr, []. by rewrite app_nil_r. }
    assert (before_step k (contents r1)) as Hb1.
    { unfold saved in Hsv. destruct (last tr); [| by rewrite Hsv].
      destruct Hsv as (p & -> & _). split; [rewrite lookup_insert_ne by (by apply key_of_end); done |].
      intros i Hi. rewrite lookup_insert_ne; [by apply Hl |]. intros E. apply key_of_inj in E. lia. }
    apply (runs_bind _ _ _ _ (fun _ r' => same_store r1 r' /\ r_state r' = s')).
    { apply runs_notify; [by rewrite Hr1 |]. intros r2 ? ->. done. }
    intros _ r2 [Hs2 Hst2]. assert (contents r2 = contents r1) as Hc2 by (unfold contents; by rewrite Hs2).
    destruct (Hcodec s') as (bytes & Hb & Hdec & _).
    unfold persist_completed_checkpoint.
    apply (runs_bind _ _ _ _ (fun x r' => x = s' /\ r' = r2)); [by apply runs_get |]. intros ? ? [-> ->].
    rewrite Hb. apply (runs_bind _ _ _ _ (fun x r' => x = bytes /\ r' = r2)); [by apply runs_lift |]. intros ? ? [-> ->].
    change (cx_key (mkContext id (Z.of_nat k))) with (key_of k).
    apply (write_runs (mkContext id (Z.of_nat k))); rewrite ?Hc2.
    + apply Hv1.
    + done.
    + destruct Hv1 as [_ Hr]. specialize (Hr k). unfold cx_key, key_of, lenZ in *. simpl. lia.
    + intros r3 (p & Hc3 & Hpk & Hkind & Hpay & Hpv) Hst3. rewrite Hst3, Hc3.
      change (cx_key (mkContext id (Z.of_nat k))) with (key_of k) in *. split_and!; [done | | |].
      * destruct Hb1 as [He1 Hl1]. split; [rewrite lookup_insert_ne by (by apply key_of_end); done |].
        intros i Hi. rewrite lookup_insert_ne; [by apply Hl1 |]. intros E. apply key_of_inj in E. lia.
      * apply versions_insert; [done | done |].
        destruct Hv1 as [_ Hr]. specialize (Hr k). unfold lenZ in *. lia.
      * exists p. rewrite lookup_insert_eq. split_and!; [done | done | by rewrite Hpay].
  - intros e r1. unfold cbind, lift_notify. destruct (notify_step_failed f (r_state r1) k e) as [l1 [[]|e1]].
    + cbn [r_state]. destruct (notify_flow_failed f (r_state r1) e) as [l2 [[]|e2]]; eexists _, _;
        (split; [reflexivity | done]).
    + eexists _, _. split; [reflexivity | done].
Qed.

(** ** The loop over the top-level steps *)

Lemma prefix_upto n s k : prefix_run n s -> (k <= n)%nat -> exists s', prefix_run k s'.
Proof.
  intros H. induction H as [|n st s l s1 H IH Hst E Hn]; intros Hk.
  - replace k with 0%nat by lia. eexists. constructor.
  - destruct (decide (k = S n)) as [->|]; [eexists; by econstructor | apply IH; lia].
Qed.

Lemma next_step k s :
  prefix_run k s -> (k < length (flow_steps f))%nat ->
  exists st s' tr, flow_steps f !! k = Some st /\ prefix_run (S k) s' /\ trun_from st None s tr s'
    /\ snd (notify_step_succeeded f s' k) = Ok tt.
Proof.
  intros Hs Hk. destruct (prefix_upto _ _ (S k) Hend) as [s' Hs']; [lia |].
  inversion Hs' as [|? st s1 l ? Hs1 Hst E Hn]; subst. rewrite (prefix_det _ _ _ Hs1 Hs) in E.
  destruct Hok as [_ Htop]. rewrite Forall_lookup in Htop.
  destruct (trun_of_run st s l s' (Htop _ _ Hst) E) as [tr Htr]. by exists st, s', tr.
Qed.

Definition run_top (index : nat) (st : Step St) (fr : option CheckpointFrame) : prog unit :=
  let* step_index := clift (top_level_step_index index) in
  top_body env f (mkContext id step_index) index (run_checkpointed_step env (mkContext id step_index) st fr).

(** Between the steps: the first [k] are done, and nothing is saved for the others. *)
Definition between (v : Z) (k : nat) (m : MemoryDslStepProgress) : Prop :=
  recoverable_store v m /\ m !! end_key = None
  /\ forall i, (k <= i < length (flow_steps f))%nat -> m !! key_of i = None.

Lemma step_between k s' v (r : run_t) :
  prefix_run (S k) s' -> (k < length (flow_steps f))%nat -> before_step k (contents r) -> versions v (contents r) ->
  (exists p, contents r !! key_of k = Some p /\ p_kind p = ApplicationState
     /\ codec_decode env (p_payload p) = Ok s') ->
  between v (S k) (contents r).
Proof.
  intros Hs Hk [He Hl] Hv Hp. split_and!; [| done | intros i Hi; apply Hl; lia].
  split; [| done]. by eapply (cs_between _ (S k) s').
Qed.

Lemma loop_runs k rest r v :
  drop k (flow_steps f) = rest -> (k <= length (flow_steps f))%nat -> prefix_run k (r_state r) ->
  between v k (contents r) -> 2 ^ 33 <= v <= int_max i64 ->
  runs (top_loop run_top 0 k None rest) r (recoverable_store v)
    (fun _ r' => r_state r' = s_end /\ between v (length (flow_steps f)) (contents r')).
Proof.
  revert k r. induction rest as [|st rest IH]; intros k r Hd Hk Hs Hb Hv; cbn [top_loop].
  - apply (f_equal length) in Hd. rewrite length_drop in Hd. simpl in Hd.
    assert (k = length (flow_steps f)) as -> by lia. apply runs_ret. split; [by eapply prefix_det | done].
  - pose proof (drop_S_cons _ _ _ _ Hd) as [Hd' Hk'].
    destruct (next_step k (r_state r) Hs) as (st' & s' & tr & Hst & Hs' & Htr & Hnote); [lia |].
    assert (st' = st) as ->.
    { assert (flow_steps f !! k = Some st) as E by (rewrite <-(Nat.add_0_r k), <-lookup_drop, Hd; done). congruence. }
    destruct Hb as (Hrs & He & Hl).
    eapply runs_bind.
    + eapply (top_step_runs k st (r_state r) s' tr [] tr None None r v); try done; [| | lia].
      * split; [done |]. intros i Hi. apply Hl. lia.
      * unfold ver. rewrite Hl by lia. lia.
    + intros _ r1 (Hr1 & Hb1 & Hv1 & Hp1). apply IH; [done | done | by rewrite Hr1 | | done].
      by eapply step_between.
Qed.

(** ** Finding the saved progress *)

Lemma get_runs k r (I : _ -> Prop) (Q : option DslStepProgress -> run_t -> Prop) :
  I (contents r) ->
  (forall r', contents r' = contents r -> r_state r' = r_state r -> Q (contents r !! (id, k)) r') ->
  runs (on_progress (ps_get id k)) r I Q.
Proof. intros HI HQ. eapply (runs_store (mem_get id k)); [done | done | done |]. auto. Qed.

(** No progress in the steps from [k] on: the search goes on below [k]. *)
Lemma find_skip n k r (I : _ -> Prop) (Q : nat * option CheckpointFrame -> run_t -> Prop) :
  (k <= n <= length (flow_steps f))%nat -> I (contents r) ->
  (forall i, (k <= i < n)%nat -> contents r !! key_of i = None) ->
  (forall r', contents r' = contents r -> r_state r' = r_state r -> runs (find_progress env id k) r' I Q) ->
  runs (find_progress env id n) r I Q.
Proof.
  revert r. induction n as [|n IH]; intros r Hn HI Hnone HQ.
  - replace k with 0%nat in HQ by lia. by apply HQ.
  - destruct (decide (k = S n)) as [->|]; [by apply HQ |]. cbn [find_progress]. rewrite index_ok by lia.
    apply (runs_bind _ _ _ _ (fun i r' => i = Z.of_nat n /\ r' = r)); [by apply runs_lift |]. intros ? ? [-> ->].
    apply (runs_bind _ _ _ _ (fun o r' => o = None /\ contents r' = contents r /\ r_state r' = r_state r)).
    { apply get_runs; [done |]. intros r' Hc Hs. split_and!; [| done | done]. apply Hnone. lia. }
    intros ? r1 (-> & Hc1 & Hs1). apply IH; [lia | by rewrite Hc1 | |].
    + intros i Hi. rewrite Hc1. apply Hnone. lia.
    + intros r2 Hc2 Hs2. apply HQ; congruence.
Qed.

(** The search finds the record of step [k]. *)
Lemma find_here k p r (I : _ -> Prop) (Q : nat * option CheckpointFrame -> run_t -> Prop) s start fr :
  (k < length (flow_steps f))%nat -> I (contents r) -> contents r !! key_of k = Some p ->
  match fr with
  | None => p_kind p = ApplicationState /\ codec_decode env (p_payload p) = Ok s /\ start = S k
  | Some frame => p_kind p = CheckpointFrameKind /\ frame_decode (p_payload p) = Ok (Some frame)
      /\ codec_decode env (fr_state frame) = Ok s /\ start = k
  end ->
  (forall r', contents r' = contents r -> r_state r' = s -> Q (start, fr) r') ->
  runs (find_progress env id (S k)) r I Q.
Proof.
  intros Hk HI Hp Hfr HQ. cbn [find_progress]. rewrite index_ok by lia.
  apply (runs_bind _ _ _ _ (fun i r' => i = Z.of_nat k /\ r' = r)); [by apply runs_lift |]. intros ? ? [-> ->].
  apply (runs_bind _ _ _ _ (fun o r' => o = Some p /\ contents r' = contents r)).
  { apply get_runs; [done |]. intros r' Hc _. done. }
  intros ? r1 (-> & Hc1). destruct fr as [frame|].
  - destruct Hfr as (Hkind & Hfd & Hdec & ->). rewrite bool_decide_true by done. rewrite Hfd.
    apply (runs_bind _ _ _ _ (fun o r' => o = Some frame /\ r' = r1)); [by apply runs_lift |]. intros ? ? [-> ->].
    rewrite Hdec. apply (runs_bind _ _ _ _ (fun o r' => o = s /\ r' = r1)); [by apply runs_lift |]. intros ? ? [-> ->].
    apply (runs_bind _ _ _ _ (fun _ r' => contents r' = contents r /\ r_state r' = s)).
    { apply runs_set. intros r' Hs' ->. split; [unfold contents in *; by rewrite Hs' | done]. }
    intros _ r2 [Hc2 Hs2]. apply runs_ret. by apply HQ.
  - destruct Hfr as (Hkind & Hdec & ->). rewrite bool_decide_false by (rewrite Hkind; done). rewrite Hdec.
    apply (runs_bind _ _ _ _ (fun o r' => o = s /\ r' = r1)); [by apply runs_lift |]. intros ? ? [-> ->].
    apply (runs_bind _ _ _ _ (fun _ r' => contents r' = contents r /\ r_state r' = s)).
    { apply runs_set. intros r' Hs' ->. split; [unfold contents in *; by rewrite Hs' | done]. }
    intros _ r2 [Hc2 Hs2]. apply runs_ret. by apply HQ.
Qed.

Lemma top_loop_skip j index cur steps :
  (j <= length steps)%nat -> top_loop run_top j index cur steps = top_loop run_top 0 (index + j) cur (drop j steps).
Proof.
  revert j index. induction steps as [|st steps IH]; intros [|j] index Hj; simpl in *; try done; try lia.
  - by rewrite Nat.add_0_r.
  - rewrite IH by lia. by replace (S index + j)%nat with (index + S j)%nat by lia.
Qed.

(** From the progress found, the remaining steps run. *)
Lemma resumed_steps r r1 v k s fr :
  prefix_run k s -> (k <= length (flow_steps f))%nat -> contents r1 = contents r ->
  versions v (contents r) -> 0 <= v -> v + 2 ^ 33 <= int_max i64 ->
  match fr with
  | None => between (v + 2 ^ 33) k (contents r) /\ r_state r1 = s
  | Some frame => exists st s' t1 s1 t2, flow_steps f !! k = Some st /\ prefix_run (S k) s'
      /\ trun_from st None s (t1 ++ (fr_levels frame, fr_work frame, s1) :: t2) s'
      /\ snd (notify_step_succeeded f s' k) = Ok tt /\ r_state r1 = s1
      /\ recoverable_store (v + 2 ^ 33) (contents r) /\ before_step k (contents r)
  end ->
  runs (top_loop run_top k 0 fr (flow_steps f)) r1 (recoverable_store (v + 2 ^ 33))
    (fun _ r' => r_state r' = s_end /\ between (v + 2 ^ 33) (length (flow_steps f)) (contents r')).
Proof.
  intros Hs Hk Hc Hv Hv0 Hv1 Hfr. rewrite top_loop_skip by done. cbn [Nat.add].
  destruct fr as [frame|].
  - destruct Hfr as (st & s' & t1 & s1 & t2 & Hst & Hs' & Htr & Hnote & Hst1 & Hrs & Hb).
    assert (k < length (flow_steps f))%nat as Hk' by (by eapply lookup_lt_Some).
    rewrite (drop_S _ st) by done. cbn [top_loop]. eapply runs_bind.
    + eapply (top_step_runs k st s s' _ (t1 ++ [(fr_levels frame, fr_work frame, s1)]) t2
        (Some (fr_levels frame, fr_work frame)) (Some frame) r1 (v + 2 ^ 33)); try done; try by rewrite Hc.
      * by rewrite <-app_assoc.
      * rewrite Hst1. by eapply trun_cursor.
      * rewrite Hc. destruct Hv as [_ Hr]. specialize (Hr k). lia.
    + intros _ r2 (Hr2 & Hb2 & Hv2 & Hp2). apply loop_runs; [done | lia | by rewrite Hr2 | | lia].
      by eapply step_between.
  - destruct Hfr as [Hb Hs1]. apply loop_runs; [done | done | by rewrite Hs1 | by rewrite Hc | lia].
Qed.

Lemma body_steps r v :
  consistent (contents r) -> versions v (contents r) -> contents r !! end_key = None -> r_state r = s0 ->
  0 <= v -> v + 2 ^ 33 <= int_max i64 ->
  runs (let* found := find_progress env id (length (flow_steps f)) in
        top_loop run_top (fst found) 0 (snd found) (flow_steps f)) r (recoverable_store (v + 2 ^ 33))
    (fun _ r' => r_state r' = s_end /\ between (v + 2 ^ 33) (length (flow_steps f)) (contents r')).
Proof.
  intros Hc Hv He Hs Hv0 Hv1.
  assert (recoverable_store (v + 2 ^ 33) (contents r)) as Hrs.
  { split; [done |]. eapply versions_weaken; [done | lia]. }
  destruct Hc as [k s Hpre Hk _ Hl Hrec|k st s s' t1 c t2 p Hpre Hpre' Hst _ Hl Htr Hp Hkind Hf|p bytes Hp];
    [| | congruence].
  - eapply (runs_bind _ _ _ _ (fun found r1 => found = (k, None) /\ contents r1 = contents r /\ r_state r1 = s)).
    + apply (find_skip _ k); [lia | done | done |]. intros r1 Hc1 Hs1. destruct k as [|k'].
      * apply runs_ret. inversion Hpre; subst. split_and!; [done | done | congruence].
      * destruct Hrec as (p & Hp & Hkind & Hdec).
        eapply (find_here k' p r1 _ _ s (S k') None); [lia | by rewrite Hc1 | by rewrite Hc1 | done |].
        intros r2 Hc2 Hs2. split_and!; [done | congruence | done].
    + intros ? r1 (-> & Hc1 & Hs1). by eapply (resumed_steps r r1 v k s None).
  - destruct c as [[L w] s1]. destruct Hf as (bytes & Henc & Hfr). cbn [fst snd] in Henc, Hfr.
    assert (good_cursor (L, w, s1)) as (Hlw & Hww & Hrec).
    { apply trun_good in Htr. rewrite Forall_app, Forall_cons in Htr. apply Htr. }
    pose proof (checkpoint_frame_roundtrip L bytes w _ Hlw Hww Hrec Hfr) as Hdec.
    assert (snd (notify_step_succeeded f s' k) = Ok tt) as Hnote by (by inversion Hpre').
    destruct (Hcodec s1) as (bytes' & Henc' & Hdec' & _). rewrite Henc in Henc'. simplify_eq.
    assert (k < length (flow_steps f))%nat as Hk by (by eapply lookup_lt_Some).
    eapply (runs_bind _ _ _ _ (fun found r1 => found = (k, Some (mkFrame L bytes' w)) /\ contents r1 = contents r
      /\ r_state r1 = s1)).
    + apply (find_skip _ (S k)); [lia | done | intros i Hi; apply Hl; lia |]. intros r1 Hc1 Hs1.
      eapply (find_here k p r1 _ _ s1 k (Some (mkFrame L bytes' w))); [done | by rewrite Hc1 | by rewrite Hc1 | done |].
      intros r2 Hc2 Hs2. split_and!; [done | congruence | done].
    + intros ? r1 (-> & Hc1 & Hs1). eapply (resumed_steps r r1 v k s); try done; [lia |].
      by exists st, s', t1, s1, t2.
Qed.

(** ** The terminal record *)

Lemma terminal_roundtrip bytes :
  is_bytes bytes -> lenZ bytes <= 65536 ->
  exists payload, serialize_frame terminal_codec bytes = Ok payload /\ lenZ payload <= MAX_DSL_TERMINAL_BYTES
    /\ deserialize_frame terminal_codec payload = Ok bytes.
Proof.
  intros Hb Hl. assert (wf terminal_codec bytes) as Hw by (apply bytes_wf; [done | int_bounds; lia]).
  assert (length (enc terminal_codec bytes) = (5 + length bytes)%nat) as Hlen.
  { change (enc terminal_codec bytes) with (le_bytes 1 1 ++ enc bytes_codec bytes).
    rewrite length_app, length_le_bytes, length_enc_bytes. lia. }
  exists (enc terminal_codec bytes). split_and!.
  - by apply serialize_frame_enc.
  - unfold MAX_DSL_TERMINAL_BYTES, lenZ in *. rewrite Hlen. lia.
  - apply deserialize_bounded_enc; [done |]. rewrite Hlen. unfold lenZ in Hl.
    assert (n_alloc (need_items (int_codec u8) bytes) = 0 /\ n_str (need_items (int_codec u8) bytes) = 0
      /\ n_items (need_items (int_codec u8) bytes) = 0 /\ n_depth (need_items (int_codec u8) bytes) = 0) as (H1 & H2 & H3 & H4).
    { clear. induction bytes as [|b bs (E1 & E2 & E3 & E4)]; [done |].
      change (need_items (int_codec u8) (b :: bs)) with (need_seq need0 (need_items (int_codec u8) bs)).
      unfold need_seq. cbn [n_alloc n_str n_items n_depth need0]. by rewrite E1, E2, E3, E4. }
    change (need terminal_codec bytes) with (need_object (need_seq need0 (need_vec (int_codec u8) bytes))).
    destruct bytes as [|b bs]; [constructor; simpl; int_bounds; lia |].
    unfold need_vec. constructor; unfold need_object, need_seq, need_alloc; cbn [n_alloc n_str n_items n_depth need0];
      rewrite ?H1, ?H2, ?H3, ?H4; change (size_of (int_codec u8)) with 1; simpl length in *; simpl; int_bounds; lia.
Qed.

Lemma finish_runs r v :
  r_state r = s_end -> between v (length (flow_steps f)) (contents r) -> 0 <= v ->
  runs (let* s := get_state in
        let* bytes := clift (codec_encode env s) in
        let* written := persist_checkpoint_terminal env id bytes in
        if snd written then lift_notify (notify_flow_succeeded f) ;;* get_state
        else clift (codec_decode env (fst written))) r (recoverable_store v)
    (fun s r' => s = s_end /\ recoverable_store v (contents r')).
Proof.
  intros Hs (Hrs & He & _) Hv0. destruct (Hcodec s_end) as (bytes & Henc & Hdec & Hb & Hl).
  destruct (terminal_roundtrip bytes Hb Hl) as (payload & Hser & Hsize & Hdes).
  apply (runs_bind _ _ _ _ (fun s r' => s = s_end /\ r' = r)); [by apply runs_get |]. intros ? ? [-> ->].
  rewrite Henc. apply (runs_bind _ _ _ _ (fun x r' => x = bytes /\ r' = r)); [by apply runs_lift |]. intros ? ? [-> ->].
  unfold persist_checkpoint_terminal. rewrite Hser.
  destruct (Z.ltb_spec MAX_DSL_TERMINAL_BYTES (lenZ payload)); [lia |].
  eapply (runs_bind _ _ _ _ (fun x r' => x = (bytes, true) /\ r_state r' = s_end /\ recoverable_store v (contents r'))).
  - apply (runs_bind _ _ _ _ (fun _ r' => same_store r r' /\ r_state r' = r_state r)); [by apply runs_clock |].
    intros t1 r1 [Hs1 Hst1]. assert (contents r1 = contents r) as Hc1 by (unfold contents; by rewrite Hs1).
    set (p := terminal (progress_new id DSL_TERMINAL_STEP_INDEX [] t1) payload).
    apply (runs_bind _ _ _ _ (fun b r' => b = true /\ r_state r' = s_end /\ contents r' = <[end_key := p]> (contents r))).
    + eapply (runs_store (mem_create p)); [done | | by rewrite Hc1 | intros r' Hc' Hs'; split_and!; [done | congruence | exact Hc']].
      unfold mem_create. rewrite Hc1. change (progress_key p) with end_key. by rewrite He.
    + intros ? r2 (-> & Hst2 & Hc2). apply runs_ret. split_and!; [done | done |]. rewrite Hc2. split.
      * eapply (cs_ended _ p bytes); [apply lookup_insert_eq | done | done | done].
      * destruct Hrs as [_ [Hk Hr]]. split; [by apply keyed_insert |]. intros i. unfold ver.
        destruct (decide (key_of i = end_key)) as [E|Hne].
        -- rewrite E, lookup_insert_eq. simpl. lia.
        -- rewrite lookup_insert_ne by done. apply Hr.
  - intros ? r2 (-> & Hst2 & Hrs2). cbn [snd].
    apply (runs_bind _ _ _ _ (fun _ r' => same_store r2 r' /\ r_state r' = s_end)).
    { apply runs_notify; [by rewrite Hst2 |]. intros r3 ? ->. done. }
    intros _ r3 [Hs3 Hst3]. apply runs_get. split; [done |]. unfold contents in *. by rewrite Hs3.
Qed.

(** ** A run from any consistent store *)

Lemma terminal_loaded r v :
  consistent (contents r) -> versions v (contents r) -> 0 <= v ->
  runs (load_checkpoint_terminal id) r (recoverable_store (v + 2 ^ 33))
    (fun o r' => contents r' = contents r /\ r_state r' = r_state r
       /\ match o with
          | Some bytes => codec_decode env bytes = Ok s_end
          | None => contents r !! end_key = None
          end).
Proof.
  intros Hc Hv Hv0. assert (recoverable_store (v + 2 ^ 33) (contents r)) as Hrs.
  { split; [done |]. eapply versions_weaken; [done | lia]. }
  unfold load_checkpoint_terminal.
  apply (runs_bind _ _ _ _ (fun o r' => o = contents r !! end_key /\ contents r' = contents r /\ r_state r' = r_state r)).
  { by apply get_runs. }
  intros ? r1 (-> & Hc1 & Hs1).
  destruct Hc as [k s Hpre Hk He|k st s s' t1 c t2 p Hpre Hpre' Hst He|p bytes He Hkind Hdes Hdec]; rewrite He.
  - by apply runs_ret.
  - by apply runs_ret.
  - rewrite bool_decide_true by done. cbn [negb]. rewrite Hdes. by apply runs_ret.
Qed.

Lemma run_checkpointed_top g :
  run_checkpointed env id g = counted (checkpointed_body env g id (fun index st fr =>
    let* i := clift (top_level_step_index index) in
    top_body env g (mkContext id i) index (run_checkpointed_step env (mkContext id i) st fr)))
    :> prog St.
Proof. by destruct g. Qed.

Lemma flow_runs r v :
  consistent (contents r) -> versions v (contents r) -> r_state r = s0 -> 0 <= v -> v + 2 ^ 33 <= int_max i64 ->
  runs (run_checkpointed env id f) r (recoverable_store (v + 2 ^ 33))
    (fun s r' => s = s_end /\ recoverable_store (v + 2 ^ 33) (contents r')).
Proof.
  intros Hc Hv Hs Hv0 Hv1.
  rewrite run_checkpointed_top. fold run_top.
  apply counted_runs. intros r1 Hs1 Hst1. assert (contents r1 = contents r) as Hc1 by (unfold contents; by rewrite Hs1).
  rewrite <-Hc1 in Hc, Hv. unfold checkpointed_body.
  eapply runs_bind; [by eapply terminal_loaded |]. intros o r2 (Hc2 & Hst2 & Ho). destruct o as [bytes|].
  - rewrite Ho. apply runs_lift. intros r3 Hs3 Hst3. split; [done |]. unfold contents in *. rewrite Hs3, Hc2.
    split; [done |]. eapply versions_weaken; [done | lia].
  - rewrite <-Hc2 in Hc, Hv, Ho.
    pose proof (body_steps r2 v Hc Hv Ho) as Hbody. rewrite Hst2, Hst1, Hs in Hbody.
    specialize (Hbody eq_refl Hv0 Hv1).
    apply runs_assoc. eapply runs_bind; [exact Hbody |]. intros _ r3 [Hst3 Hb3].
    eapply runs_mono; [eapply (finish_runs r3 (v + 2 ^ 33)); [done | done | lia] | done |].
    intros s r4 [-> Hr4] r5 Hs5 _. split; [done |]. unfold contents in *. by rewrite Hs5.
Qed.
End flow.

(** ** Interrupted attempts *)

(** The in-memory run of a flow that succeeds passes through the states after its steps. *)
Lemma steps_prefix f s0 i steps s l s' :
  drop i (flow_steps f) = steps -> prefix_run f s0 i s ->
  run_steps step_run f i steps s = (l, s', Ok tt) ->
  prefix_run f s0 (length (flow_steps f)) s' /\ snd (notify_flow_succeeded f s') = Ok tt.
Proof.
  revert i s l. induction steps as [|st steps IH]; intros i s l Hd Hp; cbn [run_steps].
  - destruct (notify_flow_succeeded f s) as [l1 [[]|e]] eqn:E; intros; simplify_eq. split; [| by rewrite E].
    assert (i = length (flow_steps f)) as ->; [| done].
    assert (length (flow_steps f) <= i)%nat by (apply (f_equal length) in Hd; rewrite length_drop in Hd; simpl in Hd; lia).
    clear Hd E. destruct Hp as [|k st s l s1 Hp Hst]; [lia |]. apply lookup_lt_Some in Hst. lia.
  - pose proof (drop_S_cons _ _ _ _ Hd) as [Hd' _].
    assert (flow_steps f !! i = Some st) as Hst.
    { rewrite <-(Nat.add_0_r i), <-lookup_drop, Hd. done. }
    destruct (step_run st s) as [[l1 s1] [[]|e]] eqn:E; [| by destruct (run_failed f s1 i e)].
    destruct (notify_step_succeeded f s1 i) as [l2 [[]|e]] eqn:En; [| done].
    destruct (run_steps step_run f (S i) steps s1) as [[l3 s3] r3] eqn:E3. intros; simplify_eq.
    eapply IH; [done | | done]. econstructor; [done | done | done | by rewrite En].
Qed.

Lemma run_prefix f s0 l s' :
  run (env_race env) f s0 = (l, s', Ok tt) ->
  prefix_run f s0 (length (flow_steps f)) s' /\ snd (notify_flow_succeeded f s') = Ok tt.
Proof.
  destruct f as [steps obs hooks]. cbn [run].
  destruct (run_steps _ _ 0 steps s0) as [[l1 s1] r1] eqn:E. intros; simplify_eq.
  by eapply (steps_prefix _ s0 0); [| constructor | exact E].
Qed.

(** One attempt: the flow from its initial state, with what earlier attempts left in the store, in
    a process that stops after [b] operations on the store *)
Definition attempt (id : string) (f : DslFlow St) (s0 : St) (b : option nat) (tick : nat)
    (m : MemoryDslStepProgress) : CatgaResult St * MemoryDslStepProgress :=
  let '(x, r) := run_checkpointed env id f (mkRun s0 (b, m) tick []) in (x, contents r).

(** Attempts that stop, one after the other; each has its own clock. *)
Fixpoint stopped_attempts (id : string) (f : DslFlow St) (s0 : St) (stops : list (nat * nat))
    (m : MemoryDslStepProgress) : list (CatgaResult St) * MemoryDslStepProgress :=
  match stops with
  | [] => ([], m)
  | (b, tick) :: rest =>
      let '(x, m1) := attempt id f s0 (Some b) tick m in
      let '(xs, m2) := stopped_attempts id f s0 rest m1 in (x :: xs, m2)
  end.

(** The result of an attempt, when there is one, is the result of the in-memory run. *)
Definition agrees (s_end : St) (x : CatgaResult St) : Prop :=
  match x with Ok s => s = s_end | Err _ => True end.

Lemma attempt_runs id f s0 s_end b tick m v :
  recovers f -> prefix_run f s0 (length (flow_steps f)) s_end ->
  snd (notify_flow_succeeded f s_end) = Ok tt ->
  recoverable_store id f s0 s_end v m -> 0 <= v -> v + 2 ^ 33 <= int_max i64 ->
  let '(x, m') := attempt id f s0 b tick m in
  agrees s_end x /\ recoverable_store id f s0 s_end (v + 2 ^ 33) m' /\ (b = None -> x = Ok s_end).
Proof.
  intros Hok Hend Hhook [Hc Hv] Hv0 Hv1. unfold attempt.
  pose proof (flow_runs id f s0 s_end Hok Hend Hhook (mkRun s0 (b, m) tick []) v Hc Hv eq_refl Hv0 Hv1) as [_ H].
  destruct (run_checkpointed env id f _) as [[s|e] r]; simpl in H; destruct H as [H1 H2].
  - by subst.
  - split_and!; [done | done |]. intros ->. by destruct H1.
Qed.

(** C3: A checkpointed flow of a restricted form survives any number of stops. The form: the top
    level has plain steps (actions, retries, timeouts), replayable item loops whose items are
    within the limits of the checkpoint decoder, and conditionals; the branches of a conditional
    have plain steps and conditionals over plain steps, no item loops, and never one conditional
    directly after another; a [match_on] selector answers with one of its cases; no flow or
    branch has more than 65,536 steps. (Loops in a branch and adjacent conditionals do not
    recover: [loop_in_branch_stuck], [second_conditional_skips].) The codec gives every state at
    most 65,536 bytes, which decode to it. Take such a flow that succeeds in memory with
    [s_end], the in-memory progress store with no record of the flow, and fewer than 2^29
    attempts one after the other that stop after any numbers of store operations: an attempt
    that returns gives [s_end], and the first attempt that is not stopped returns [s_end]. *)
Theorem checkpoint_recovery id f s0 s_end l stops m tick :
  recovers f -> run (env_race env) f s0 = (l, s_end, Ok tt) ->
  keyed m -> (forall k, m !! (id, k) = None) -> lenZ stops < 2 ^ 29 ->
  Forall (agrees s_end) (fst (stopped_attempts id f s0 stops m))
  /\ fst (attempt id f s0 None tick (snd (stopped_attempts id f s0 stops m))) = Ok s_end.
Proof.
  intros Hok Hrun Hk Hm Hlen. destruct (run_prefix _ _ _ _ Hrun) as [Hend Hhook].
  assert (recoverable_store id f s0 s_end 0 m) as Hrs.
  { split; [eapply (cs_between id f s0 s_end m 0 s0); [apply pr_0 | lia | apply Hm | intros i _; apply Hm | done] |].
    split; [done |]. intros i. unfold ver, key_of. rewrite Hm. simpl. lia. }
  assert (0 + lenZ stops * 2 ^ 33 + 2 ^ 33 <= int_max i64) as Hv by (int_bounds; lia).
  assert (0 <= 0) as H0 by lia. clear Hm Hk Hlen. revert Hrs Hv H0. generalize 0 at 1 2 4. intros v. revert v m.
  induction stops as [|[b t] stops IH]; intros v m Hrs Hv H0; cbn [stopped_attempts].
  - split; [constructor |]. unfold lenZ in Hv. simpl length in Hv.
    pose proof (attempt_runs id f s0 s_end None tick m v Hok Hend Hhook Hrs H0 ltac:(lia)) as H.
    simpl. destruct (attempt id f s0 None tick m) as [x m']. simpl. by apply H.
  - unfold lenZ in Hv. simpl length in Hv.
    pose proof (attempt_runs id f s0 s_end (Some b) t m v Hok Hend Hhook Hrs H0 ltac:(lia)) as H.
    destruct (attempt id f s0 (Some b) t m) as [x m1]. destruct H as (Hx & Hrs1 & _).
    specialize (IH (v + 2 ^ 33) m1 Hrs1 ltac:(unfold lenZ; lia) ltac:(lia)).
    destruct (stopped_attempts id f s0 stops m1) as [xs m2]. simpl in *. destruct IH. split; [by constructor | done].
Qed.
End resume.
