(* ===== verification/DslFaults.v ===== *)
(** * Checkpointed flows at work

    Concrete flows run by [run_checkpointed], with the process stopped at chosen store operations:
    an instance of the recovery theorem, and the flows outside its bounds whose interrupted (or
    even uninterrupted) checkpointed runs differ from the in-memory run. *)

From Stdlib Require Import Init.Byte.
From S2P Require Import Prelude Utf8 Errors Time Wire Codec Dsl DslProgress DslCheckpoint DslResume.

(** ** A flow that recovers

    The state is one byte, its code the byte itself. *)
Module Counter.

Definition St : Type := Byte.byte.

Definition encode (s : St) : CatgaResult (list Z) := Ok [Z.of_N (Byte.to_N s)].

Definition decode (bytes : list Z) : CatgaResult St :=
  match bytes with
  | [b] => match Byte.of_N (Z.to_N b) with Some s => Ok s | None => fail Validation "not a byte" end
  | _ => fail Validation "not a byte"
  end.

Definition env : DslEnv St :=
  mkDslEnv St encode decode Z.of_nat (fun rs => seq 0 (length rs))
    (fun outs => (seq 0 (length outs), fun _ => 0%nat)).

Definition add (n : N) : Action St := fun s =>
  match Byte.of_N (Byte.to_N s + n) with Some s' => (s', Ok tt) | None => (s, fail Validation "overflow") end.

Definition even (s : St) : bool := N.even (Byte.to_N s).

(** A step, a conditional with a nested conditional between plain steps, and an item loop *)
Definition leaf : DslFlow St := action (action flow_new (add 7)) (add 1).
Definition branch : DslFlow St :=
  action (if_else (action flow_new (add 2)) even leaf flow_new) (add 4).
Definition loop : ReplayableForEach St :=
  mkReplayable (fun _ => Ok [[1]; [2]; [3]]) (fun s item => add (Z.to_N (default 0 (head item))) s) None.
Definition counter : DslFlow St :=
  push (if_else (action flow_new (add 2)) even branch flow_new) (ReplayableStep loop).

Lemma codec_good : good_codec env.
Proof.
  intros s. exists [Z.of_N (Byte.to_N s)]. split_and!; [done | | | done].
  - simpl. by rewrite N2Z.id, Byte.of_to_N.
  - repeat constructor; pose proof (Byte.to_N_bounded s); lia.
Qed.

Lemma items_good : good_items [[1]; [2]; [3]].
Proof.
  split; [done |]. intros n Hn. change (lenZ [[1]; [2]; [3]]) with 3 in Hn.
  assert (n = 0 \/ n = 1 \/ n = 2 \/ n = 3) as [-> | [-> | [-> | ->]]] by lia;
    (split; [apply (bool_decide_unpack _); by vm_compute |]; split; [| by apply (bool_decide_unpack _); vm_compute];
     split; [split; simpl; int_bounds; lia |]; split; [simpl; int_bounds; lia |]; split; [simpl; int_bounds; lia |];
     apply Forall_forall; intros item Hin; apply bytes_wf; [| simpl in Hin; set_unfold; destruct_or! Hin; subst; done];
     set_unfold; destruct_or! Hin; subst; repeat constructor; lia).
Qed.

Lemma leaf_ok : leaf_flow leaf /\ leaf_flow (@flow_new St).
Proof. by repeat (split || constructor). Qed.

Lemma branch_ok : mid_flow branch /\ mid_flow (@flow_new St).
Proof.
  split; [| by repeat (split || constructor)]. split; [done |]. split.
  - apply Forall_cons. split; [by left |]. apply Forall_cons. split.
    + right. split_and!; [done | done |]. destruct leaf_ok. apply Forall_cons. split; [done |]. by apply Forall_singleton.
    + apply Forall_cons. split; [by left | constructor].
  - intros [|[|[|i]]] a b Ha Hb; simpl in *; by simplify_eq.
Qed.

Lemma counter_recovers : recovers counter.
Proof.
  split; [done |]. apply Forall_cons. split; [by left |]. apply Forall_cons. split.
  - right. right. split_and!; [done | done |]. destruct branch_ok. apply Forall_cons. split; [done |]. by apply Forall_singleton.
  - apply Forall_cons. split; [| constructor]. right. left. eexists. split; [done |].
    intros s items [= <-]. exact items_good.
Qed.

(** Stopped in the nested branch, between two steps and in the item loop, the flow still ends with
    the state of the in-memory run. *)
Lemma checkpoint_recovery_witness :
  let m := snd (stopped_attempts env "f" counter x00 [(9, 0); (11, 20); (14, 40); (16, 60)]%nat ∅) in
  m !! ("f"%string, 2) <> None /\ fst (attempt env "f" counter x00 None 80 m) = Ok x16.
Proof.
  split; [by vm_compute |].
  eapply (checkpoint_recovery env codec_good "f" counter x00 x16 _ [(9, 0); (11, 20); (14, 40); (16, 60)]%nat ∅ 80).
  - exact counter_recovers.
  - vm_compute. reflexivity.
  - by intros key p [=].
  - by intros k.
  - done.
Defined.

End Counter.

(** ** Flows that do not recover

    The state is the list of the numbers added so far. *)
Module Faults.

Definition env : DslEnv (list Z) :=
  mkDslEnv (list Z) Ok Ok Z.of_nat (fun rs => seq 0 (length rs))
    (fun outs => (seq 0 (length outs), fun _ => 0%nat)).

Definition add (n : Z) : Action (list Z) := fun s => (s ++ [n], Ok tt).
Definition always (_ : list Z) : bool := true.
Definition items : ReplayableForEach (list Z) :=
  mkReplayable (fun _ => Ok [[8]; [9]]) (fun s item => (s ++ item, Ok tt)) None.

(** A branch with an item loop after another step *)
Definition loop_in_branch : DslFlow (list Z) :=
  if_else flow_new always (push (action flow_new (add 1)) (ReplayableStep items)) flow_new.

(** Two conditionals one after the other in a branch *)
Definition two_conditionals : DslFlow (list Z) :=
  if_else flow_new always
    (if_else (if_else flow_new always (action (action flow_new (add 1)) (add 2)) flow_new)
       always (action (action (action flow_new (add 3)) (add 4)) (add 5)) flow_new) flow_new.

(** Conditionals nested three deep *)
Definition three_deep : DslFlow (list Z) :=
  if_else flow_new always
    (if_else flow_new always
       (if_else flow_new always (action (action (action flow_new (add 1)) (add 2)) (add 3)) flow_new) flow_new)
    flow_new.

(** The result of an attempt after one that stopped at operation [b] *)
Definition resumed (f : DslFlow (list Z)) (b : nat) : CatgaResult (list Z) :=
  fst (attempt env "f" f [] None 20 (snd (attempt env "f" f [] (Some b) 0 ∅))).

(** The record between the step and the loop is a branch cursor; the loop takes it for its own and
    rejects it, in this and every later attempt. *)
Example loop_in_branch_stuck :
  fst (attempt env "f" loop_in_branch [] None 0 ∅) = Ok [1; 8; 9]
  /\ resumed loop_in_branch 3
     = fail Validation "DSL checkpoint cursor does not describe a replayable for_each step".
Proof. by vm_compute. Qed.

(** The second conditional takes the branch code and the position that the first one left at their
    common depth: its condition is not evaluated and its first two steps are skipped, in a run that
    nothing interrupts. *)
Example second_conditional_skips :
  out_state (run (env_race env) two_conditionals []) = [1; 2; 3; 4; 5]
  /\ fst (attempt env "f" two_conditionals [] None 0 ∅) = Ok [1; 2; 5].
Proof. by vm_compute. Qed.

(** Entering the second level cuts the saved path there: the third level starts over, on a state
    that its completed steps have already changed. *)
Example three_deep_repeats :
  fst (attempt env "f" three_deep [] None 0 ∅) = Ok [1; 2; 3]
  /\ resumed three_deep 3 = Ok [1; 1; 2; 3] /\ resumed three_deep 6 = Ok [1; 2; 1; 2; 3].
Proof. by vm_compute. Qed.

End Faults.

(** ** Results over 64 KiB *)
Section terminal.
Context {St : Type} (env : DslEnv St).

Lemma load_unreadable id p e (r : Run St Flaky) :
  budget r = None -> contents r !! (id, DSL_TERMINAL_STEP_INDEX) = Some p -> p_kind p = TerminalKind ->
  deserialize_frame terminal_codec (p_payload p) = Err e ->
  load_checkpoint_terminal id r
  = (Err (with_details (CatgaError_new Validation "DSL terminal record is invalid") (mp_error_to_string e)), r).
Proof.
  destruct r as [s [b m] tick notes]. unfold budget, contents. simpl. intros -> Hm Hk Hdes.
  unfold load_checkpoint_terminal, cbind, on_progress, ps_get, flaky_store, flaky_op, mem_get.
  cbn [r_progress fst snd]. rewrite Hm. cbn. by rewrite Hk, Hdes.
Qed.

(** The terminal record of a final state with more than 65,536 and at most 1,000,000 bytes is
    written, but the decoder's limit on one string or byte vector rejects it, so every later
    attempt of the flow fails instead of returning the recorded result. *)
Theorem big_state_completes_once id f bytes (r : Run St Flaky) :
  is_bytes bytes -> 65536 < lenZ bytes <= 1000000 ->
  budget r = None -> contents r !! (id, DSL_TERMINAL_STEP_INDEX) = None ->
  exists r1, persist_checkpoint_terminal env id bytes r = (Ok (bytes, true), r1)
    /\ forall s0 tick, exists e, code e = Validation
         /\ fst (attempt env id f s0 None tick (contents r1)) = Err e.
Proof.
  intros Hb Hl Hbud Hnone. destruct (big_terminal_unreadable bytes Hb Hl) as (payload & Hser & Hlen & e & Hdes).
  unfold persist_checkpoint_terminal. rewrite Hser.
  destruct (Z.ltb_spec MAX_DSL_TERMINAL_BYTES (lenZ payload)) as [H|_]; [unfold MAX_DSL_TERMINAL_BYTES in H; lia |].
  destruct r as [s [b m] tick notes]. unfold budget, contents in Hbud, Hnone. simpl in Hbud, Hnone. subst b.
  set (p := terminal (progress_new id DSL_TERMINAL_STEP_INDEX [] (env_clock env tick)) payload).
  exists (mkRun s (None, <[(id, DSL_TERMINAL_STEP_INDEX) := p]> m) (S tick) notes). split.
  - unfold cbind, read_clock, on_progress, ps_create, flaky_store, flaky_op, mem_create. simpl.
    fold p. change (progress_key p) with (id, DSL_TERMINAL_STEP_INDEX). by rewrite Hnone.
  - intros s0 tick'. eexists. split; [| unfold attempt; rewrite run_checkpointed_top].
    2: { unfold counted, checkpointed_body, cbind, ctry, emit. rewrite (load_unreadable id p e); [reflexivity | done | | done | done].
         apply lookup_insert_eq. }
    done.
Qed.

End terminal.

Lemma big_state_completes_once_witness :
  exists r1, persist_checkpoint_terminal Faults.env "f" (replicate (Z.to_nat 65537) 7) (mkRun [] (None, ∅) 0 [])
               = (Ok (replicate (Z.to_nat 65537) 7, true), r1)
    /\ forall s0 tick, exists e, code e = Validation
         /\ fst (attempt Faults.env "f" flow_new s0 None tick (contents r1)) = Err e.
Proof.
  apply (big_state_completes_once Faults.env "f" flow_new).
  - apply Forall_replicate. lia.
  - unfold lenZ. rewrite length_replicate. lia.
  - done.
  - done.
Defined.
