(* ===== verification/Tasks.v ===== *)
(** * Asynchronous tasks

    An [async fn] runs in pieces: each poll changes the shared world and ends with a result, with
    a panic or at the next await.  A suspended future can be dropped, by a timeout, by a
    cancellation or because its process stops; then only its drop code runs.  [Task] is such a
    future; a poll gets a number that says which of the timers around it fires, zero when none
    does.  The file holds the combinators that the dispatch code is built from, pools of tasks
    that are polled in any order while the world changes under them, and a rely-guarantee logic
    for them. *)

From S2P Require Import Prelude Errors.

Inductive Task (W A : Type) :=
| Done (a : A)
| Panic
| Await (on_drop : W -> W) (effect : nat -> W -> W) (next : nat -> W -> Task W A).

Arguments Done {W A}.
Arguments Panic {W A}.
Arguments Await {W A}.

(** ** Combinators *)

Section combinators.
Context {W : Type}.

Abbreviation task := (Task W).

(** [t.await], then [k] with its output *)
Fixpoint tbind {A B} (t : task A) (k : A -> task B) : task B :=
  match t with
  | Done a => k a
  | Panic => Panic
  | Await d e n => Await d e (fun c w => tbind (n c w) k)
  end.

(** [t.await?] *)
Definition tbind_ok {A B} (t : task (CatgaResult A)) (k : A -> task (CatgaResult B)) : task (CatgaResult B) :=
  tbind t (fun r => match r with Ok a => k a | Err e => Done (Err e) end).

(** One atomic access to the world *)
Definition atomically {A} (f : W -> A * W) : task A :=
  Await id (fun _ w => snd (f w)) (fun _ w => Done (fst (f w))).

(** A timer: the world may change until it fires. *)
Definition sleep : task unit := Await id (fun _ w => w) (fun _ _ => Done tt).

(** [AssertUnwindSafe(t).catch_unwind()]: [None] for a panic *)
Fixpoint catch_unwind {A} (t : task A) : task (option A) :=
  match t with
  | Done a => Done (Some a)
  | Panic => Done None
  | Await d e n => Await d e (fun c w => catch_unwind (n c w))
  end.

(** [tokio::time::timeout]: when its timer (number 1, those inside come after it) fires the task
    is dropped; [None] *)
Fixpoint timed {A} (t : task A) : task (option A) :=
  match t with
  | Done a => Done (Some a)
  | Panic => Panic
  | Await d e n =>
      Await d
        (fun c w => match c with 1%nat => d w | _ => e (Nat.pred c) w end)
        (fun c w => match c with 1%nat => Done None | _ => timed (n (Nat.pred c) w) end)
  end.

Definition is_panic {A} (t : task A) : bool := match t with Panic => true | _ => false end.

(** A guard held while the task runs: its drop code runs when the task is dropped or panics, not
    when it completes. *)
Fixpoint guarded {A} (drop_guard : W -> W) (t : task A) : task A :=
  match t with
  | Done a => Done a
  | Panic => Await drop_guard (fun _ => drop_guard) (fun _ _ => Panic)
  | Await d e n =>
      Await (fun w => drop_guard (d w))
        (fun c w => if is_panic (n c w) then drop_guard (e c w) else e c w)
        (fun c w => if is_panic (n c w) then Panic else guarded drop_guard (n c w))
  end.

(** A task that is dropped at the first poll that finds the token cancelled; [None] *)
Fixpoint unless_cancelled {A} (cancelled : W -> bool) (t : task A) : task (option A) :=
  match t with
  | Done a => Done (Some a)
  | Panic => Panic
  | Await d e n =>
      Await d
        (fun c w => if cancelled w then d w else e c w)
        (fun c w => if cancelled w then Done None else unless_cancelled cancelled (n c w))
  end.

(** [select!] of [cancellation.cancelled()] with a future, in the random order of the macro: poll
    number 1 finds the cancellation first; after a poll that leaves the future pending a
    cancellation is found as well. *)
Fixpoint select_cancelled {A} (cancelled : W -> bool) (t : task A) : task (option A) :=
  match t with
  | Done a => Done (Some a)
  | Panic => Panic
  | Await d e n =>
      Await d
        (fun c w =>
           match c, cancelled w with
           | 1%nat, true => d w
           | _, true => match n (Nat.pred c) w with Await d' _ _ => d' (e (Nat.pred c) w) | _ => e (Nat.pred c) w end
           | _, false => e (Nat.pred c) w
           end)
        (fun c w =>
           match c, cancelled w with
           | 1%nat, true => Done None
           | _, true =>
               match n (Nat.pred c) w with Done a => Done (Some a) | Panic => Panic | Await _ _ _ => Done None end
           | _, false => select_cancelled cancelled (n (Nat.pred c) w)
           end)
  end.

(** Two tasks of one future: a poll continues the first (even numbers) or the second (odd).  The
    callers isolate panics first, so a panic of one of them does not occur; it would end both. *)
Fixpoint join2 {A B} (t1 : task A) : task B -> task (A * B) :=
  fix join_right (t2 : task B) : task (A * B) :=
    match t1, t2 with
    | Panic, _ | _, Panic => Panic
    | Done a, Done b => Done (a, b)
    | Done a, Await d e n => Await d e (fun c w => join_right (n c w))
    | Await d e n, Done b => Await d e (fun c w => join2 (n c w) (Done b))
    | Await d1 e1 n1, Await d2 e2 n2 =>
        Await (fun w => d2 (d1 w))
          (fun c w => if Nat.even c then e1 (Nat.div2 c) w else e2 (Nat.div2 c) w)
          (fun c w => if Nat.even c then join2 (n1 (Nat.div2 c) w) t2 else join_right (n2 (Nat.div2 c) w))
    end.

(** Any number of tasks of one future, their outputs in the order given *)
Fixpoint join_all {A} (ts : list (task A)) : task (list A) :=
  match ts with
  | [] => Done []
  | t :: ts => tbind (join2 t (join_all ts)) (fun p => Done (fst p :: snd p))
  end.

(** A task that records its result in the poll in which it ends *)
Fixpoint tap {A} (f : A -> W -> W) (t : task A) : task A :=
  match t with
  | Done a => Await id (fun _ => f a) (fun _ _ => Done a)
  | Panic => Panic
  | Await d e n =>
      Await d
        (fun c w => match n c w with Done a => f a (e c w) | _ => e c w end)
        (fun c w => match n c w with Done a => Done a | Panic => Panic | Await _ _ _ => tap f (n c w) end)
  end.

(** [futures::try_join!], and the loop [while let Some(r) = stream.next().await { r? }] over futures
    that run at once: the first error ends both and drops the other. *)
Definition ends_early {A} (t : task (CatgaResult A)) : bool :=
  match t with Panic | Done (Err _) => true | _ => false end.

Fixpoint try_join2 {A B} (t1 : task (CatgaResult A)) : task (CatgaResult B) -> task (CatgaResult (A * B)) :=
  fix join_right (t2 : task (CatgaResult B)) : task (CatgaResult (A * B)) :=
    match t1, t2 with
    | Panic, _ | _, Panic => Panic
    | Done (Err e), _ | _, Done (Err e) => Done (Err e)
    | Done (Ok a), Done (Ok b) => Done (Ok (a, b))
    | Done (Ok a), Await d e n => Await d e (fun c w => join_right (n c w))
    | Await d e n, Done (Ok b) => Await d e (fun c w => try_join2 (n c w) (Done (Ok b)))
    | Await d1 e1 n1, Await d2 e2 n2 =>
        Await (fun w => d2 (d1 w))
          (fun c w =>
             if Nat.even c then
               (if ends_early (n1 (Nat.div2 c) w) then d2 (e1 (Nat.div2 c) w) else e1 (Nat.div2 c) w)
             else (if ends_early (n2 (Nat.div2 c) w) then d1 (e2 (Nat.div2 c) w) else e2 (Nat.div2 c) w))
          (fun c w => if Nat.even c then try_join2 (n1 (Nat.div2 c) w) t2 else join_right (n2 (Nat.div2 c) w))
    end.

Fixpoint try_join_all {A} (ts : list (task (CatgaResult A))) : task (CatgaResult (list A)) :=
  match ts with
  | [] => Done (Ok [])
  | t :: ts => tbind_ok (try_join2 t (try_join_all ts)) (fun p => Done (Ok (fst p :: snd p)))
  end.

(** The task alone, without timers: [None] for a panic *)
Fixpoint run_alone {A} (t : task A) (w : W) : option A * W :=
  match t with
  | Done a => (Some a, w)
  | Panic => (None, w)
  | Await _ e n => run_alone (n 0%nat w) (e 0%nat w)
  end.
End combinators.

(** A task in a larger world, of which it sees a part *)
Fixpoint zoom {W V A} (get : W -> V) (put : V -> W -> W) (t : Task V A) : Task W A :=
  match t with
  | Done a => Done a
  | Panic => Panic
  | Await d e n =>
      Await (fun w => put (d (get w)) w) (fun c w => put (e c (get w)) w)
        (fun c w => zoom get put (n c (get w)))
  end.

Notation "'await' x ':=' t 'in' k" := (tbind t (fun x => k))
  (at level 10, x name, t at level 100, k at level 200) : catga_scope.
Notation "'await?' x ':=' t 'in' k" := (tbind_ok t (fun x => k))
  (at level 10, x name, t at level 100, k at level 200) : catga_scope.

(** ** Equality of tasks

    Tasks with the same polls, drops and ends *)

Section equivalence.
Context {W : Type}.

Inductive task_eq {A} : Task W A -> Task W A -> Prop :=
| eq_done a : task_eq (Done a) (Done a)
| eq_panic : task_eq Panic Panic
| eq_await d d' e e' n n' :
    (forall w, d w = d' w) -> (forall c w, e c w = e' c w) -> (forall c w, task_eq (n c w) (n' c w)) ->
    task_eq (Await d e n) (Await d' e' n').

#[export] Instance task_equiv A : Equiv (Task W A) := task_eq.

#[export] Instance task_equivalence A : Equivalence (≡@{Task W A}).
Proof.
  split.
  - intros t. induction t; constructor; auto.
  - intros t1 t2 H. induction H; constructor; auto.
  - intros t1 t2 t3 H. revert t3. induction H as [a| |d d' e e' n n' Hd He Hn IH]; intros t3 H3;
      inversion H3 as [| |d2 d3 e2 e3 n2 n3 Hd2 He2 Hn2]; subst; constructor; intros.
    + by rewrite Hd, Hd2.
    + by rewrite He, He2.
    + apply IH. apply Hn2.
Qed.

#[export] Instance tbind_proper A B :
  Proper ((≡) ==> pointwise_relation A (≡) ==> (≡)) (@tbind W A B).
Proof.
  intros t1 t2 H k1 k2 Hk. induction H as [a| |d d' e e' n n' Hd He Hn IH]; simpl; [apply Hk | constructor | by constructor].
Qed.

Lemma tbind_assoc {A B C} (t : Task W A) (k1 : A -> Task W B) (k2 : B -> Task W C) :
  tbind (tbind t k1) k2 ≡ tbind t (fun a => tbind (k1 a) k2).
Proof. induction t as [a| |d e n IH]; simpl; [done | done |]. by constructor. Qed.

Lemma tbind_ret {A} (t : Task W A) : tbind t Done ≡ t.
Proof. induction t as [a| |d e n IH]; simpl; [done | done |]. by constructor. Qed.

Lemma run_alone_bind {A B} (t : Task W A) (k : A -> Task W B) w :
  run_alone (tbind t k) w
  = match run_alone t w with (Some a, w') => run_alone (k a) w' | (None, w') => (None, w') end.
Proof. revert w. induction t as [a| |d e n IH]; intros w; simpl; [done | done |]. apply IH. Qed.

Lemma run_alone_equiv {A} (t t' : Task W A) w : t ≡ t' -> run_alone t w = run_alone t' w.
Proof.
  intros H. revert w. induction H as [a| |d d' e e' n n' Hd He Hn IH]; intros w; simpl; [done | done |].
  by rewrite He, IH.
Qed.

Lemma run_alone_catch {A} (t : Task W A) w :
  run_alone (catch_unwind t) w = (Some (fst (run_alone t w)), snd (run_alone t w)).
Proof. revert w. induction t as [a| |d e n IH]; intros w; simpl; [done | done |]. apply IH. Qed.
End equivalence.

(** ** Pools

    Tasks of one process or of several, each with a label, polled and dropped in any order; in
    between the world changes as [env] allows and new tasks start. *)

Section pools.
Context {W A L : Type}.

Inductive Slot :=
| Running (t : Task W A)
| Finished (a : A)
| Panicked
| Dropped.

Definition settle (t : Task W A) : Slot :=
  match t with Done a => Finished a | Panic => Panicked | Await _ _ _ => Running t end.

Context (env : W -> W -> Prop) (start : L -> Task W A).

Inductive pool_step : W * list (L * Slot) -> W * list (L * Slot) -> Prop :=
| pool_env w w' pool : env w w' -> pool_step (w, pool) (w', pool)
| pool_start w pool l : pool_step (w, pool) (w, pool ++ [(l, settle (start l))])
| pool_poll w pool i l d e n c :
    pool !! i = Some (l, Running (Await d e n)) ->
    pool_step (w, pool) (e c w, <[i := (l, settle (n c w))]> pool)
| pool_drop w pool i l d e n :
    pool !! i = Some (l, Running (Await d e n)) ->
    pool_step (w, pool) (d w, <[i := (l, Dropped)]> pool).

(** A schedule: which task starts, is polled or is dropped next *)
Inductive Move := Start (l : L) | Poll (i c : nat) | Drop (i : nat).

Definition move (c : W * list (L * Slot)) (m : Move) : W * list (L * Slot) :=
  let '(w, pool) := c in
  match m with
  | Start l => (w, pool ++ [(l, settle (start l))])
  | Poll i ch =>
      match pool !! i with
      | Some (l, Running (Await d e n)) => (e ch w, <[i := (l, settle (n ch w))]> pool)
      | _ => c
      end
  | Drop i =>
      match pool !! i with
      | Some (l, Running (Await d e n)) => (d w, <[i := (l, Dropped)]> pool)
      | _ => c
      end
  end.

Lemma moves_steps ms c : rtc pool_step c (foldl move c ms).
Proof.
  revert c. induction ms as [|m ms IH]; intros [w pool]; simpl; [done |]. etrans; [| apply IH].
  destruct m as [l|i ch|i]; simpl; [apply rtc_once; constructor | |];
    (destruct (pool !! i) as [[l [[| |d e n]| | |]]|] eqn:E; [done | done | | done..]; apply rtc_once; by econstructor).
Qed.
End pools.
Arguments Move : clear implicits.
Arguments Slot : clear implicits.

(** ** Rely and guarantee

    [rg R G Q t w]: from [w], while the world changes by [R] between its polls, every poll and the
    drop of the task change it by [G], and its end satisfies [Q] ([None] for a panic). *)

Section rely_guarantee.
Context {W : Type} (R G : W -> W -> Prop).

Fixpoint rg {A} (Q : option A -> W -> Prop) (t : Task W A) (w : W) : Prop :=
  forall w1, rtc R w w1 ->
  match t with
  | Done a => Q (Some a) w1
  | Panic => Q None w1
  | Await d e n => G w1 (d w1) /\ forall c, G w1 (e c w1) /\ rg Q (n c w1) (e c w1)
  end.

Lemma rg_later {A} (Q : option A -> W -> Prop) t w w' : rtc R w w' -> rg Q t w -> rg Q t w'.
Proof. intros Hr. destruct t; intros H w1 Hw; apply H; by etrans. Qed.

Lemma rg_mono {A} (Q Q' : option A -> W -> Prop) t w :
  rg Q t w -> (forall x w1, Q x w1 -> Q' x w1) -> rg Q' t w.
Proof.
  intros H HQ. revert w H. induction t as [a| |d e n IH]; intros w H w1 Hw; [by apply HQ, H | by apply HQ, H |].
  destruct (H w1 Hw) as [Hd Hc]. split; [done |]. intros c. destruct (Hc c) as [He Hn]. split; [done |]. by apply IH.
Qed.

Lemma rg_done {A} (Q : option A -> W -> Prop) a w : (forall w1, rtc R w w1 -> Q (Some a) w1) -> rg Q (Done a) w.
Proof. done. Qed.

(** The end of a task may use what held when it ended, whatever happens later. *)
Lemma rg_bind {A B} (Q : option A -> W -> Prop) (Q' : option B -> W -> Prop) t (k : A -> Task W B) w :
  rg Q t w -> (forall a w1, Q (Some a) w1 -> rg Q' (k a) w1) ->
  (forall w1, Q None w1 -> Q' None w1) -> rg Q' (tbind t k) w.
Proof.
  intros H Hk Hp. revert w H. induction t as [a| |d e n IH]; intros w H; simpl.
  - apply Hk, H. done.
  - intros w1 Hw. by apply Hp, H.
  - intros w1 Hw. destruct (H w1 Hw) as [Hd Hc]. split; [done |]. intros c. destruct (Hc c) as [He Hn].
    split; [done |]. by apply IH.
Qed.

Lemma rg_atomically {A} (Q : option A -> W -> Prop) (f : W -> A * W) w :
  (forall w1, rtc R w w1 -> G w1 w1 /\ G w1 (snd (f w1))
     /\ forall w2, rtc R (snd (f w1)) w2 -> Q (Some (fst (f w1))) w2) ->
  rg Q (atomically f) w.
Proof. intros H w1 Hw. destruct (H w1 Hw) as (Hd & He & Hq). split; [done |]. intros c. by split. Qed.

Lemma rg_catch {A} (Q : option A -> W -> Prop) (Q' : option (option A) -> W -> Prop) t w :
  rg Q t w -> (forall x w1, Q x w1 -> Q' (Some x) w1) -> rg Q' (catch_unwind t) w.
Proof.
  intros H HQ. revert w H. induction t as [a| |d e n IH]; intros w H w1 Hw; simpl; [by apply HQ, H | by apply HQ, H |].
  destruct (H w1 Hw) as [Hd Hc]. split; [done |]. intros c. destruct (Hc c) as [He Hn]. split; [done |]. by apply IH.
Qed.

(** A timeout gives no result after a drop. *)
Lemma rg_timed {A} (Q : option A -> W -> Prop) (Q' : option (option A) -> W -> Prop) t w :
  rg Q t w -> (forall a w1, Q (Some a) w1 -> Q' (Some (Some a)) w1) -> (forall w1, Q None w1 -> Q' None w1) ->
  (forall w1, Q' (Some None) w1) -> rg Q' (timed t) w.
Proof.
  intros H HQ HP HN. revert w H. induction t as [a| |d e n IH]; intros w H w1 Hw; simpl; [by apply HQ, H | by apply HP, H |].
  destruct (H w1 Hw) as [Hd Hc]. split; [done |]. intros c.
  assert (forall c', G w1 (e c' w1) /\ rg Q' (timed (n c' w1)) (e c' w1)) as Hother.
  { intros c'. destruct (Hc c') as [He Hn]. split; [done |]. by apply IH. }
  destruct c as [|[|c]]; [apply Hother | split; [done | intros w2 Hw2; apply HN] | apply Hother].
Qed.

Lemma rg_unless {A} (Q : option A -> W -> Prop) (Q' : option (option A) -> W -> Prop) cancelled t w :
  rg Q t w -> (forall a w1, Q (Some a) w1 -> Q' (Some (Some a)) w1) -> (forall w1, Q None w1 -> Q' None w1) ->
  (forall w1, Q' (Some None) w1) -> rg Q' (unless_cancelled cancelled t) w.
Proof.
  intros H HQ HP HN. revert w H. induction t as [a| |d e n IH]; intros w H w1 Hw; simpl; [by apply HQ, H | by apply HP, H |].
  destruct (H w1 Hw) as [Hd Hc]. split; [done |]. intros c. destruct (cancelled w1).
  - split; [done | intros w2 Hw2; apply HN].
  - destruct (Hc c) as [He Hn]. split; [done |]. by apply IH.
Qed.

(** A task on a part of the world keeps what does not depend on that part. *)
Lemma rg_zoom {V A} (P : W -> Prop) (get : W -> V) put (t : Task V A) w :
  (forall w1 v, G w1 (put v w1)) -> (forall w1 v, P w1 -> P (put v w1)) ->
  (forall w1 w2, R w1 w2 -> P w1 -> P w2) -> P w -> rg (fun _ => P) (zoom get put t) w.
Proof.
  intros HG Hput HR HP. assert (forall w1 w2, rtc R w1 w2 -> P w1 -> P w2) as Hrtc.
  { intros w1 w2 Hr. induction Hr; eauto. }
  revert w HP. induction t as [a| |d e n IH]; intros w HP w1 Hw; simpl; eauto.
  split; [done |]. intros c. split; [done |]. apply IH. eauto.
Qed.

(** What everybody keeps holds at the end as well. *)
Lemma rg_frame {A} (P : W -> Prop) (Q : option A -> W -> Prop) t w :
  (forall w1 w2, R w1 w2 -> P w1 -> P w2) -> (forall w1 w2, G w1 w2 -> P w1 -> P w2) ->
  P w -> rg Q t w -> rg (fun x w1 => Q x w1 /\ P w1) t w.
Proof.
  intros HR HG. assert (forall w1 w2, rtc R w1 w2 -> P w1 -> P w2) as Hrtc by (intros w1 w2 Hr; induction Hr; eauto).
  revert w. induction t as [a| |d e n IH]; intros w HP H w1 Hw; [split; eauto | split; eauto |].
  destruct (H w1 Hw) as [Hd Hc]. split; [done |]. intros c. destruct (Hc c) as [He Hn]. split; [done |]. apply IH; eauto.
Qed.

(** The result of a task holds from its end on. *)
Lemma rg_bind_stable {A B} (Q : option A -> W -> Prop) (Q' : option B -> W -> Prop) t (k : A -> Task W B) w :
  rg Q t w -> (forall a w1, (forall w2, rtc R w1 w2 -> Q (Some a) w2) -> rg Q' (k a) w1) ->
  (forall w1, Q None w1 -> Q' None w1) -> rg Q' (tbind t k) w.
Proof.
  intros H Hk Hp. revert w H. induction t as [a| |d e n IH]; intros w H; simpl.
  - apply Hk, H.
  - intros w1 Hw. by apply Hp, H.
  - intros w1 Hw. destruct (H w1 Hw) as [Hd Hc]. split; [done |]. intros c. destruct (Hc c) as [He Hn].
    split; [done |]. by apply IH.
Qed.
End rely_guarantee.

(** A task on a part of the world that keeps its own guarantee there *)
Lemma rg_zoom_part {W V A} (R G : W -> W -> Prop) (RV : V -> V -> Prop) (get : W -> V) put (Q : option A -> V -> Prop) (t : Task V A) w :
  (forall w1 w2, R w1 w2 -> rtc RV (get w1) (get w2)) -> (forall w1 v, get (put v w1) = v) ->
  (forall w1 v, RV (get w1) v -> G w1 (put v w1)) ->
  rg RV RV Q t (get w) -> rg R G (fun x w1 => Q x (get w1)) (zoom get put t) w.
Proof.
  intros HR Hgp HG. assert (forall w1 w2, rtc R w1 w2 -> rtc RV (get w1) (get w2)) as Hrtc.
  { intros w1 w2 Hr. induction Hr; [done |]. etrans; [by apply HR | done]. }
  revert w. induction t as [a| |d e n IH]; intros w H w1 Hw; simpl; [by apply H, Hrtc | by apply H, Hrtc |].
  destruct (H _ (Hrtc _ _ Hw)) as [Hd Hc]. split; [by apply HG |]. intros c. destruct (Hc c) as [He Hn].
  split; [by apply HG |]. apply IH. by rewrite Hgp.
Qed.

(** Tasks that run at once, when everything that happens is within one preorder *)
Section joining.
Context {W : Type} (R : W -> W -> Prop) `{!PreOrder R}.

Lemma rg_try_join2 {A B} (Q1 : option (CatgaResult A) -> W -> Prop) (Q2 : option (CatgaResult B) -> W -> Prop) t1 t2 w :
  rg R R Q1 t1 w -> rg R R Q2 t2 w ->
  rg R R (fun x w1 => match x with Some (Ok (a, b)) => Q1 (Some (Ok a)) w1 /\ Q2 (Some (Ok b)) w1 | _ => True end)
    (try_join2 t1 t2) w.
Proof.
  revert t2 w. induction t1 as [[a|e]| |d1 e1 n1 IH1]; intros t2 w H1 H2; [| by destruct t2 as [[]| |] | by destruct t2 as [[]| |] |].
  - revert w H1 H2. induction t2 as [[b|e]| |d2 e2 n2 IH2]; intros w H1 H2 w1 Hw; simpl; [by split; [apply H1 | apply H2] | done | done |].
    destruct (H2 w1 Hw) as [Hd Hc]. split; [done |]. intros c. destruct (Hc c) as [He Hn]. split; [done |].
    apply IH2; [| done]. eapply rg_later; [| exact H1]. eapply rtc_r; [exact Hw | exact He].
  - revert w H1 H2. induction t2 as [[b|e]| |d2 e2 n2 IH2]; intros w H1 H2 w1 Hw; simpl; [| done | done |].
    + destruct (H1 w1 Hw) as [Hd Hc]. split; [done |]. intros c. destruct (Hc c) as [He Hn]. split; [done |].
      apply IH1; [done |]. eapply rg_later; [| exact H2]. eapply rtc_r; [exact Hw | exact He].
    + assert (forall w2, R w1 w2 -> R w2 (d1 w2) /\ R w2 (d2 w2)) as Hdrop.
      { intros w2 Hr. assert (rtc R w w2) as Hr2 by (eapply rtc_r; [exact Hw | exact Hr]).
        split; [by apply (H1 w2 Hr2) | by apply (H2 w2 Hr2)]. }
      destruct (H1 w1 Hw) as [Hd1 Hc1]. destruct (H2 w1 Hw) as [Hd2 Hc2].
      split; [etrans; [exact Hd1 | by apply Hdrop] |]. intros c.
      assert (rg R R Q1 (Await d1 e1 n1) w1 /\ rg R R Q2 (Await d2 e2 n2) w1) as [K1 K2]
        by (split; by eapply rg_later).
      destruct (Nat.even c).
      * destruct (Hc1 (Nat.div2 c)) as [He Hn].
        assert (R (e1 (Nat.div2 c) w1) (if ends_early (n1 (Nat.div2 c) w1) then d2 (e1 (Nat.div2 c) w1) else e1 (Nat.div2 c) w1)) as Hx.
        { destruct (ends_early _); [by apply Hdrop | reflexivity]. }
        split; [by etrans |]. eapply rg_later; [by apply rtc_once |]. apply IH1; [done |].
        eapply rg_later; [| exact K2]. by apply rtc_once.
      * destruct (Hc2 (Nat.div2 c)) as [He Hn].
        assert (R (e2 (Nat.div2 c) w1) (if ends_early (n2 (Nat.div2 c) w1) then d1 (e2 (Nat.div2 c) w1) else e2 (Nat.div2 c) w1)) as Hx.
        { destruct (ends_early _); [by apply Hdrop | reflexivity]. }
        split; [by etrans |]. eapply rg_later; [by apply rtc_once |]. apply IH2; [| done].
        eapply rg_later; [| exact K1]. by apply rtc_once.
Qed.

Lemma rg_try_join_all {A B} (Q : B -> A -> W -> Prop) bs ts w :
  Forall2 (fun b t => rg R R (fun x w1 => match x with Some (Ok a) => Q b a w1 | _ => True end) t w) bs ts ->
  rg R R (fun x w1 => match x with Some (Ok l) => Forall2 (fun b a => Q b a w1) bs l | _ => True end)
    (try_join_all ts) w.
Proof.
  intros H. induction H as [|b t bs ts Ht _ IH]; [by intros w1 _; simpl |].
  cbn [try_join_all]. unfold tbind_ok. eapply rg_bind_stable; [apply (rg_try_join2 _ _ _ _ _ Ht IH) | | done].
  intros [[a l]|e] w1 Hq; [| done]. intros w2 Hw2. destruct (Hq w2 Hw2) as (Ha & Hl). simpl. by constructor.
Qed.
End joining.

(** Tasks that keep their guarantee under the others' rely it on one another. *)
Section soundness.
Context {W A L : Type} (R env : W -> W -> Prop) (start : L -> Task W A)
  (Inv : W -> Prop) (Q : L -> option A -> W -> Prop).

Definition slot_ok (w : W) (l : L) (s : Slot W A) : Prop :=
  match s with
  | Running t => rg R R (Q l) t w
  | Finished a => forall w1, rtc R w w1 -> Q l (Some a) w1
  | Panicked => forall w1, rtc R w w1 -> Q l None w1
  | Dropped => True
  end.

Definition pool_ok (c : W * list (L * Slot W A)) : Prop :=
  Inv (fst c) /\ forall i l s, snd c !! i = Some (l, s) -> slot_ok (fst c) l s.

Lemma slot_later w w' l s : rtc R w w' -> slot_ok w l s -> slot_ok w' l s.
Proof.
  intros Hr. destruct s; simpl; [by apply rg_later | intros H w1 Hw; apply H; by etrans
    | intros H w1 Hw; apply H; by etrans | done].
Qed.

Lemma settle_ok w l t : rg R R (Q l) t w -> slot_ok w l (settle t).
Proof. by destruct t. Qed.

Hypothesis (Henv : forall w w', env w w' -> R w w').
Hypothesis (Hinv : forall w w', R w w' -> Inv w -> Inv w').
Hypothesis (Hstart : forall l w, Inv w -> rg R R (Q l) (start l) w).

Lemma pool_step_ok c c' : pool_step env start c c' -> pool_ok c -> pool_ok c'.
Proof.
  intros Hs [Hi Hp]. destruct Hs as [w w' pool He|w pool l|w pool i l d e n ch Hl|w pool i l d e n Hl]; simpl in *.
  - split; simpl; [eauto |]. intros i l s Hs. eapply slot_later; [by apply rtc_once, Henv | by eapply Hp].
  - split; simpl; [done |]. intros i l' s Hs. apply lookup_app_Some in Hs as [Hs|[_ Hs]]; [by eapply Hp |].
    apply list_lookup_singleton_Some in Hs as [_ [= <- <-]]. by apply settle_ok, Hstart.
  - pose proof (Hp _ _ _ Hl w (rtc_refl _ _)) as [_ Hc]. destruct (Hc ch) as [He Hn].
    split; simpl; [eauto |]. intros j l' s [(-> & [= <- <-] & _)|[_ Hs]]%list_lookup_insert_Some.
    + by apply settle_ok.
    + eapply slot_later; [by apply rtc_once | by eapply Hp].
  - pose proof (Hp _ _ _ Hl w (rtc_refl _ _)) as [Hd _].
    split; simpl; [eauto |]. intros j l' s [(-> & [= <- <-] & _)|[_ Hs]]%list_lookup_insert_Some; [done |].
    eapply slot_later; [by apply rtc_once | by eapply Hp].
Qed.

Lemma pool_step_rely c c' : pool_step env start c c' -> pool_ok c -> rtc R (fst c) (fst c').
Proof.
  intros Hs [Hi Hp]. destruct Hs as [w w' pool He|w pool l|w pool i l d e n ch Hl|w pool i l d e n Hl]; simpl in *.
  - by apply rtc_once, Henv.
  - done.
  - apply rtc_once. apply (Hp _ _ _ Hl w (rtc_refl _ _)).
  - apply rtc_once. apply (Hp _ _ _ Hl w (rtc_refl _ _)).
Qed.

Lemma pool_steps_rely c c' : rtc (pool_step env start) c c' -> pool_ok c -> rtc R (fst c) (fst c').
Proof.
  intros Hr. induction Hr as [|c1 c2 c3 Hs _ IH]; [done |]. intros Hok.
  etrans; [by eapply pool_step_rely | apply IH; by eapply pool_step_ok].
Qed.

Lemma pool_sound w w' pool :
  Inv w -> rtc (pool_step env start) (w, []) (w', pool) -> pool_ok (w', pool).
Proof.
  intros Hw Hr. assert (pool_ok (w, [])) as H0 by (split; [done | by intros i l s [=]]).
  remember (w, []) as c eqn:E. clear E Hw. induction Hr; eauto using pool_step_ok.
Qed.
End soundness.

(** ** One task among others *)

Section runs.
Context {W A : Type} (R : W -> W -> Prop).

Inductive runs : Task W A * W -> Task W A * W -> Prop :=
| run_env t w w' : R w w' -> runs (t, w) (t, w')
| run_poll d e n c w : runs (Await d e n, w) (n c w, e c w).

(** Polls and drops that change the world as [R] allows *)
Fixpoint respects (t : Task W A) : Prop :=
  match t with
  | Await d e n => (forall w, R w (d w)) /\ forall c w, R w (e c w) /\ respects (n c w)
  | _ => True
  end.

Lemma respects_runs t w t' w' : rtc runs (t, w) (t', w') -> respects t -> respects t'.
Proof.
  intros Hr. remember (t, w) as c eqn:E. remember (t', w') as c' eqn:E'. revert t w E.
  induction Hr as [|c c1 c2 Hs _ IH]; intros t w ->; [by simplify_eq |].
  inversion Hs as [t0 w0 w1 HR|d e n ch w0]; subst; [by eapply IH |]. intros [_ H]. eapply IH; [done | done | apply H].
Qed.

Lemma rg_runs G Q t w t' w' : rtc runs (t, w) (t', w') -> rg R G Q t w -> rg R G Q t' w'.
Proof.
  intros Hr. remember (t, w) as c eqn:E. remember (t', w') as c' eqn:E'. revert t w E.
  induction Hr as [|c c1 c2 Hs _ IH]; intros t w ->; [by simplify_eq |]. intros H.
  inversion Hs as [t0 w0 w1 HR|d e n ch w0]; subst; eapply IH; try done.
  - eapply rg_later; [by apply rtc_once | done].
  - destruct (H w (rtc_refl _ _)) as [_ Hc]. apply Hc.
Qed.
End runs.

(** Combinators keep what their tasks respect. *)
Section respecting.
Context {W : Type} (R : W -> W -> Prop).

Lemma respects_atomically {A} (f : W -> A * W) : (forall w, R w w /\ R w (snd (f w))) -> respects R (atomically f).
Proof. intros H. split; [intros w; apply H |]. intros c w. split; [apply H | done]. Qed.

Lemma respects_bind {A B} (t : Task W A) (k : A -> Task W B) :
  respects R t -> (forall a, respects R (k a)) -> respects R (tbind t k).
Proof.
  intros Ht Hk. induction t as [a| |d e n IH]; simpl; [apply Hk | done |]. destruct Ht as [Hd Hn].
  split; [done |]. intros c w. destruct (Hn c w). split; [done |]. by apply IH.
Qed.

Lemma respects_catch {A} (t : Task W A) : respects R t -> respects R (catch_unwind t).
Proof.
  induction t as [a| |d e n IH]; simpl; [done | done |]. intros [Hd Hn]. split; [done |].
  intros c w. destruct (Hn c w). split; [done |]. by apply IH.
Qed.

Lemma respects_select {A} cancelled (t : Task W A) :
  Transitive R -> respects R t -> respects R (select_cancelled cancelled t).
Proof.
  intros HR. induction t as [a| |d e n IH]; simpl; [done | done |]. intros [Hd Hn]. split; [done |].
  assert (forall c w, R w (match n (Nat.pred c) w with Await d' _ _ => d' (e (Nat.pred c) w) | _ => e (Nat.pred c) w end)) as Hx.
  { intros c w. destruct (Hn (Nat.pred c) w) as [He Hr]. destruct (n (Nat.pred c) w); [done | done |].
    etrans; [exact He | apply Hr]. }
  intros c w. destruct (Hn (Nat.pred c) w) as [He Hr]. specialize (Hx c w). specialize (IH (Nat.pred c) w Hr).
  destruct c as [|[|c]], (cancelled w); try (by split); simpl in *; (split; [done | by destruct (n _ w)]).
Qed.

(** A record that is made at the end of a task, where [P] allows it *)
Lemma rg_tap {A} (P : W -> Prop) (f : A -> W -> W) (Q : option A -> W -> Prop) t w :
  PreOrder R -> (forall w1 w2, R w1 w2 -> P w1 -> P w2) -> respects R t -> P w ->
  (forall a w1, P w1 -> R w1 (f a w1)) -> (forall a w1 w2, P w1 -> rtc R (f a w1) w2 -> Q (Some a) w2) ->
  (forall w1, Q None w1) -> rg R R Q (tap f t) w.
Proof.
  intros HR HP Ht Hw Hf Ha Hp. assert (forall w1 w2, rtc R w1 w2 -> P w1 -> P w2) as Hrtc by (intros w1 w2 Hr; induction Hr; eauto).
  revert w Hw. induction t as [a| |d e n IH]; intros w Hw w1 Hr; simpl; [| done |].
  - assert (P w1) by eauto. split; [reflexivity |]. intros c. split; [by apply Hf |]. intros w2 Hw2. by eapply Ha.
  - assert (P w1) as Hw1 by eauto. destruct Ht as [Hd Hn]. split; [done |]. intros c. destruct (Hn c w1) as [He Hx].
    specialize (IH c w1 Hx). assert (P (e c w1)) as Hw2 by eauto. destruct (n c w1) as [a| |d' e' n'].
    + split; [etrans; [exact He | by apply Hf] |]. intros w2 Hw3. by eapply Ha.
    + split; [done |]. intros w2 _. apply Hp.
    + split; [done |]. by apply IH.
Qed.

Lemma rg_guarded {A} (drop_guard : W -> W) (Q : option A -> W -> Prop) t w :
  PreOrder R -> (forall w1, R w1 (drop_guard w1)) -> (forall w1, Q None w1) -> rg R R Q t w -> rg R R Q (guarded drop_guard t) w.
Proof.
  intros HR Hd Hp. revert w. induction t as [a| |d e n IH]; intros w H w1 Hw; simpl.
  - by apply H.
  - split; [done |]. intros c. split; [done |]. intros w2 _. apply Hp.
  - destruct (H w1 Hw) as [H1 Hc]. split; [by etrans |]. intros c. destruct (Hc c) as [He Hn].
    destruct (n c w1) as [a| |d' e' n'] eqn:E; cbn [is_panic guarded].
    + by split.
    + split; [by etrans |]. intros w2 _. apply Hp.
    + specialize (IH c w1). rewrite E in IH. split; [done |]. by apply IH.
Qed.
End respecting.
