(* ===== verification/Security.v ===== *)
(** * Identities and authorization requirements ([security.rs])

    Bounded claims in key order, roles compared without ASCII case, and what a request type may
    require.  The identity of the current task is task-local in the source; here it is an
    argument of the code that reads it. *)

From S2P Require Import Prelude Errors Messages Search.

Definition MAX_SECURITY_CLAIMS : nat := 32.
Definition MAX_SECURITY_CLAIM_KEY_BYTES : Z := 64.
Definition MAX_SECURITY_CLAIM_VALUE_BYTES : Z := 1024.

Record SecurityClaim := mkClaimEntry { cl_key : string; cl_value : string }.

Abbreviation SecurityClaims := (list SecurityClaim).

Record SecurityIdentity := mkIdentity { subject : string; roles : list string; claims : SecurityClaims }.

(** ** ASCII *)

Definition byte_of (a : Ascii.ascii) : Z := Z.of_nat (Ascii.nat_of_ascii a).

Definition is_ascii_alphanumeric (b : Z) : bool :=
  ((48 <=? b) && (b <=? 57)) || ((65 <=? b) && (b <=? 90)) || ((97 <=? b) && (b <=? 122)).

Definition to_ascii_lowercase (b : Z) : Z := if (65 <=? b) && (b <=? 90) then b + 32 else b.

Definition as_bytes (s : string) : list Z := byte_of <$> String.list_ascii_of_string s.

Definition eq_ignore_ascii_case (a b : string) : bool :=
  bool_decide (to_ascii_lowercase <$> as_bytes a = to_ascii_lowercase <$> as_bytes b).

(** ** Claims *)

(** [b'.' | b'_' | b'-'] *)
Definition is_separator (b : Z) : bool := (b =? 46) || (b =? 95) || (b =? 45).

Definition validate_claim_key (key : string) : CatgaResult unit :=
  let valid :=
    negb (bool_decide (key = ""%string)) && (str_len key <=? MAX_SECURITY_CLAIM_KEY_BYTES)
    && forallb (fun p => is_ascii_alphanumeric (snd p) || (is_separator (snd p) && negb (fst p =? 0)%nat))
         (imap pair (as_bytes key)) in
  if valid then Ok tt else fail Validation "security claim key must be a bounded ASCII identifier".

Definition claim_try_new (key value : string) : CatgaResult SecurityClaim :=
  let? _ := validate_claim_key key in
  if MAX_SECURITY_CLAIM_VALUE_BYTES <? str_len value
  then fail Validation "security claim value exceeds the configured memory budget"
  else Ok (mkClaimEntry key value).

Definition claim_le (a b : SecurityClaim) : Prop := String.le (cl_key a) (cl_key b).
#[export] Instance claim_le_dec : RelDecision claim_le.
Proof. intros a b. unfold claim_le. apply _. Defined.

(** [windows(2).any(|pair| pair[0].key == pair[1].key)] *)
Fixpoint adjacent_equal (l : list SecurityClaim) : bool :=
  match l with
  | a :: ((b :: _) as rest) => bool_decide (cl_key a = cl_key b) || adjacent_equal rest
  | _ => false
  end.

Definition try_from_entries (entries : list SecurityClaim) : CatgaResult SecurityClaims :=
  let entries := merge_sort claim_le entries in
  if adjacent_equal entries then fail Validation "security claim keys must be unique" else Ok entries.

Fixpoint claims_loop (given : list (string * string)) (entries : list SecurityClaim) : CatgaResult SecurityClaims :=
  match given with
  | [] => try_from_entries entries
  | (key, value) :: rest =>
      if (length entries =? MAX_SECURITY_CLAIMS)%nat
      then fail Validation "security claim count exceeds the configured memory budget"
      else let? claim := claim_try_new key value in claims_loop rest (entries ++ [claim])
  end.

Definition try_from_iter (given : list (string * string)) : CatgaResult SecurityClaims := claims_loop given [].

Definition claims_get (c : SecurityClaims) (key : string) : option string :=
  binary_search_by (fun claim => String.compare (cl_key claim) key) c ≫= fun index => cl_value <$> c !! index.

(** ** Identities *)

Definition identity_new (sub : string) (rs : list string) : SecurityIdentity := mkIdentity sub rs [].

Definition try_with_claims (sub : string) (rs : list string) (given : list (string * string))
    : CatgaResult SecurityIdentity :=
  let? c := try_from_iter given in Ok (mkIdentity sub rs c).

Definition identity_claim (i : SecurityIdentity) (key : string) : option string := claims_get (claims i) key.

Definition has_role (i : SecurityIdentity) (role : string) : bool :=
  existsb (fun candidate => eq_ignore_ascii_case candidate role) (roles i).

(** ** Requirements *)

Record AuthorizationRequirements := mkRequirements { req_roles : list string; req_policy : option string }.

Definition authenticated : AuthorizationRequirements := mkRequirements [] None.
Definition with_roles (rs : list string) : AuthorizationRequirements := mkRequirements rs None.
Definition with_policy (policy : string) : AuthorizationRequirements := mkRequirements [] (Some policy).
Definition with_roles_and_policy (rs : list string) (policy : string) : AuthorizationRequirements :=
  mkRequirements rs (Some policy).

(** ** Properties *)

#[export] Instance claim_le_trans : Transitive claim_le.
Proof. intros a b c. unfold claim_le. intros H1 H2. by etrans. Qed.
#[export] Instance claim_le_total : Total claim_le.
Proof. intros a b. unfold claim_le. apply (total String.le). Qed.

Definition claim_lt (a b : SecurityClaim) : Prop := String.compare (cl_key a) (cl_key b) = Lt.

Lemma claim_lt_iff a b : claim_lt a b <-> claim_le a b /\ cl_key a <> cl_key b.
Proof.
  unfold claim_lt, claim_le, String.le, String.leb. split.
  - intros H. rewrite H. split; [done |]. intros E. rewrite E in H.
    pose proof (String.compare_antisym (cl_key b) (cl_key b)) as Ha. rewrite H in Ha. done.
  - intros [H Hne]. destruct (String.compare _ _) eqn:E; [| done | done]. by apply String.compare_eq_iff in E.
Qed.

#[export] Instance claim_lt_trans : Transitive claim_lt.
Proof.
  intros a b c. rewrite !claim_lt_iff. intros [H1 N1] [H2 N2]. split; [by etrans |]. intros E. apply N1.
  unfold claim_le in *. rewrite <-E in H2. by apply (anti_symm String.le).
Qed.

(** In key order without equal neighbours, the keys strictly increase. *)
Lemma adjacent_distinct l :
  StronglySorted claim_le l -> adjacent_equal l = false -> StronglySorted claim_lt l.
Proof.
  intros Hs Ha. apply Sorted_StronglySorted; [apply _ |].
  induction l as [|a l IH]; [constructor |]. apply StronglySorted_inv in Hs as [Hs Hle].
  destruct l as [|b l]; [repeat constructor |]. cbn [adjacent_equal] in Ha. apply orb_false_iff in Ha as [Hab Ha].
  constructor; [by apply IH |]. constructor. apply claim_lt_iff. apply bool_decide_eq_false_1 in Hab.
  by apply Forall_cons in Hle as [? _].
Qed.

Lemma claims_get_sorted c key value :
  StronglySorted claim_lt c -> claims_get c key = Some value <-> mkClaimEntry key value ∈ c.
Proof.
  intros Hs. unfold claims_get. split.
  - intros (i & Hi & Hv)%bind_Some. apply binary_search_sound in Hi as ([k v] & Hx & Heq).
    apply String.compare_eq_iff in Heq. apply fmap_Some in Hv as (y & Hy & ->). simpl in *. simplify_eq.
    by eapply list_elem_of_lookup_2.
  - intros (l1 & l2 & ->)%list_elem_of_split.
    apply StronglySorted_app in Hs as (Hlt & _ & Hs2). apply StronglySorted_inv in Hs2 as [_ Hgt].
    rewrite (binary_search_found _ l1 (mkClaimEntry key value) l2).
    + simpl. by rewrite list_lookup_middle.
    + apply Forall_forall. intros y Hy. by apply (Hlt y (mkClaimEntry key value)); [| left].
    + simpl. destruct (String.compare key key) eqn:E; [done | |];
        pose proof (String.compare_antisym key key) as Ha; by rewrite E in Ha.
    + eapply Forall_impl; [exact Hgt |]. intros y Hy. unfold claim_lt in Hy. simpl in Hy.
      by rewrite String.compare_antisym, Hy.
Qed.

Lemma claims_loop_spec given entries c :
  claims_loop given entries = Ok c ->
  c ≡ₚ entries ++ ((fun kv => mkClaimEntry (fst kv) (snd kv)) <$> given) /\ StronglySorted claim_lt c
  /\ (length c <= MAX_SECURITY_CLAIMS)%nat \/ (length entries > MAX_SECURITY_CLAIMS)%nat.
Proof.
  revert entries. induction given as [|[k v] given IH]; intros entries H; simpl in H.
  - unfold try_from_entries in H. destruct (adjacent_equal _) eqn:E; simplify_eq.
    destruct (decide (length entries <= MAX_SECURITY_CLAIMS)%nat) as [Hl|]; [left | right; lia]. split_and!.
    + rewrite app_nil_r. apply merge_sort_Permutation.
    + apply adjacent_distinct; [apply (StronglySorted_merge_sort _) | done].
    + by rewrite merge_sort_Permutation.
  - destruct (Nat.eqb_spec (length entries) MAX_SECURITY_CLAIMS); [done |].
    apply rbind_ok_inv in H as (claim & Hc & H). unfold claim_try_new in Hc.
    apply rbind_ok_inv in Hc as (_ & _ & Hc). destruct (_ <? _); simplify_eq.
    destruct (IH _ H) as [(Hp & Hs & Hl)|Hl].
    + left. split_and!; [| done | done]. rewrite Hp, <-app_assoc. done.
    + right. rewrite length_app in Hl. simpl in Hl. unfold MAX_SECURITY_CLAIMS in *. lia.
Qed.

(** Claims that are accepted are at most 32, and a lookup gives exactly what was supplied. *)
Theorem claims_exact given c key value :
  try_from_iter given = Ok c ->
  (length c <= MAX_SECURITY_CLAIMS)%nat /\ (claims_get c key = Some value <-> (key, value) ∈ given).
Proof.
  intros H. destruct (claims_loop_spec _ _ _ H) as [(Hp & Hs & Hl)|Hl]; [| simpl in Hl; unfold MAX_SECURITY_CLAIMS in Hl; lia].
  split; [done |]. rewrite claims_get_sorted by done. simpl in Hp. rewrite Hp, list_elem_of_fmap. split.
  - intros ([k v] & [= -> ->] & Hin). done.
  - intros Hin. by exists (key, value).
Qed.
