(* ===== verification/Mediator.v ===== *)
(** * Registry, pipelines and the mediator ([registry.rs], [pipeline.rs], [mediator.rs],
    [cancellation.rs], [handler.rs])

    Messages find their handlers through a registry of erased handlers, through the behaviors of a
    pipeline when one is given.  Types are codes with a [TypeId]; an erased value is a code with a
    value of its type, and a downcast compares codes.  The task-local values that a dispatch can
    read (cancellation token, correlation, identity) are an explicit argument of every handler. *)

From Stdlib Require Import Eqdep_dec.
From S2P Require Import Prelude Errors Security Tasks.

(** ** Task-local values *)

Record DispatchCtx := mkDispatch {
  dc_cancellation : option Z;
  dc_correlation : option Z;
  dc_identity : option SecurityIdentity
}.

Definition scope_cancellation (token : Z) (cx : DispatchCtx) : DispatchCtx :=
  mkDispatch (Some token) (dc_correlation cx) (dc_identity cx).
Definition scope_correlation_id (id : Z) (cx : DispatchCtx) : DispatchCtx :=
  mkDispatch (dc_cancellation cx) (Some id) (dc_identity cx).
Definition scope_security_identity (i : SecurityIdentity) (cx : DispatchCtx) : DispatchCtx :=
  mkDispatch (dc_cancellation cx) (dc_correlation cx) (Some i).

Definition current_cancellation (cx : DispatchCtx) : option Z := dc_cancellation cx.
Definition current_correlation_id (cx : DispatchCtx) : option Z := dc_correlation cx.
Definition current_security_identity (cx : DispatchCtx) : option SecurityIdentity := dc_identity cx.

(** ** Pipelines *)

Definition MAX_PIPELINE_DEPTH : nat := 100.

Section pipeline.
Context {W : Type}.

(** What [run] of a [Next] does; a [Stage] is a behavior's [handle]. *)
Definition Next (M R : Type) : Type := DispatchCtx -> M -> Task W (CatgaResult R).
Definition Stage (M R : Type) : Type := DispatchCtx -> M -> Next M R -> Task W (CatgaResult R).

Abbreviation Pipeline M R := (list (Stage M R)).

(** [Next::run] of a chain at [index]; the number of stages left is enough fuel. *)
Fixpoint chain_run {M R} (fuel : nat) (stages : list (Stage M R)) (index : nat) (terminal : Next M R) : Next M R :=
  match fuel with
  | O => terminal
  | S fuel =>
      match stages !! index with
      | None => terminal
      | Some stage => fun cx message => stage cx message (chain_run fuel stages (S index) terminal)
      end
  end.

Definition wrap {M R} (p : Pipeline M R) (terminal : Next M R) : Next M R :=
  match p with
  | [] => terminal
  | _ => chain_run (length p) p 0 terminal
  end.

Definition pipeline_new {M R} : Pipeline M R := [].
Definition pipeline_with {M R} (p : Pipeline M R) (b : Stage M R) : Pipeline M R := p ++ [b].

Definition depth_exceeded : CatgaError :=
  CatgaError_new Validation "pipeline depth exceeds the supported maximum".

Definition try_with {M R} (p : Pipeline M R) (b : Stage M R) : CatgaResult (Pipeline M R) :=
  if (MAX_PIPELINE_DEPTH <=? length p)%nat then Err depth_exceeded else Ok (p ++ [b]).

(** ** Cancellation *)

Definition cancelled_error : CatgaError := CatgaError_new Cancelled "mediator dispatch was cancelled".

Definition until_cancelled {A} (cancelled : Z -> W -> bool) (token : Z) (operation : Task W (CatgaResult A))
    : Task W (CatgaResult A) :=
  await stop := atomically (fun w => (cancelled token w, w)) in
  if stop then Done (Err cancelled_error)
  else
    await x := unless_cancelled (cancelled token) operation in
    Done (match x with Some r => r | None => Err cancelled_error end).

Definition isolate_mediator_panic {A} (operation : Task W (CatgaResult A)) : Task W (CatgaResult A) :=
  await x := catch_unwind operation in
  Done (match x with Some r => r | None => fail Internal "mediator processing panicked" end).
End pipeline.
Abbreviation Pipeline M R := (list (Stage M R)).

(** ** The registry *)

Section mediator.
Context {W TypeId : Type} `{Countable TypeId} (Ty : TypeId -> Type) (Response : TypeId -> TypeId).

(** [Box<dyn Any>] *)
Definition Any : Type := { k : TypeId & Ty k }.

Definition downcast (k : TypeId) (x : Any) : option (Ty k) :=
  match decide (projT1 x = k) with
  | left e => Some (eq_rect _ Ty (projT2 x) k e)
  | right _ => None
  end.

Definition Handler (k : TypeId) : Type := Next (W := W) (Ty k) (Ty (Response k)).
Definition UnitHandler (k : TypeId) : Type := Next (W := W) (Ty k) unit.

Definition ErasedRequestHandler : Type := Next (W := W) Any Any.
Definition ErasedUnitHandler : Type := Next (W := W) Any unit.

Definition RequestHandlerAdapter (k : TypeId) (h : Handler k) : ErasedRequestHandler := fun cx message =>
  match downcast k message with
  | None => Done (fail Internal "request handler received an invalid message type")
  | Some m => await? response := h cx m in Done (Ok (existT (Response k) response))
  end.

Definition CommandHandlerAdapter (k : TypeId) (h : UnitHandler k) : ErasedUnitHandler := fun cx command =>
  match downcast k command with
  | None => Done (fail Internal "command handler received an invalid message type")
  | Some m => h cx m
  end.

Definition EventHandlerAdapter (k : TypeId) (h : UnitHandler k) : ErasedUnitHandler := fun cx event =>
  match downcast k event with
  | None => Done (fail Internal "event handler received an invalid event type")
  | Some m => h cx m
  end.

Record Registry := mkRegistry {
  requests : gmap TypeId ErasedRequestHandler;
  commands : gmap TypeId ErasedUnitHandler;
  events : gmap TypeId (list ErasedUnitHandler)
}.

Definition registry_new : Registry := mkRegistry ∅ ∅ ∅.

Definition register_request (r : Registry) (k : TypeId) (h : Handler k) : CatgaResult unit * Registry :=
  match requests r !! k with
  | Some _ => (fail Conflict "request handler is already registered", r)
  | None => (Ok tt, mkRegistry (<[k := RequestHandlerAdapter k h]> (requests r)) (commands r) (events r))
  end.

Definition register_command (r : Registry) (k : TypeId) (h : UnitHandler k) : CatgaResult unit * Registry :=
  match commands r !! k with
  | Some _ => (fail Conflict "command handler is already registered", r)
  | None => (Ok tt, mkRegistry (requests r) (<[k := CommandHandlerAdapter k h]> (commands r)) (events r))
  end.

Definition register_event (r : Registry) (k : TypeId) (h : UnitHandler k) : Registry :=
  mkRegistry (requests r) (commands r)
    (<[k := default [] (events r !! k) ++ [EventHandlerAdapter k h]]> (events r)).

Definition find_request (r : Registry) (k : TypeId) : option ErasedRequestHandler := requests r !! k.
Definition find_command (r : Registry) (k : TypeId) : option ErasedUnitHandler := commands r !! k.
Definition find_event (r : Registry) (k : TypeId) : option (list ErasedUnitHandler) := events r !! k.

Definition get_handler (r : Registry) (k : TypeId) : bool := bool_decide (is_Some (requests r !! k)).

(** ** The mediator *)

Context (cancelled : Z -> W -> bool).

Definition dispatch (r : Registry) (k : TypeId) : Handler k := fun cx message =>
  match find_request r k with
  | None => Done (fail NotFound "request handler is not registered")
  | Some handler =>
      await? response := handler cx (existT k message) in
      Done (ok_or (downcast (Response k) response)
              (CatgaError_new Internal "request handler returned an invalid response type"))
  end.

Definition dispatch_command (r : Registry) (k : TypeId) : UnitHandler k := fun cx command =>
  match find_command r k with
  | None => Done (fail NotFound "command handler is not registered")
  | Some handler => handler cx (existT k command)
  end.

(** [span_disabled]: whether no subscriber observes the span of this call *)
Definition send (r : Registry) (span_disabled : bool) (k : TypeId) : Handler k := fun cx message =>
  if span_disabled then isolate_mediator_panic (dispatch r k cx message) else dispatch r k cx message.

Definition send_command (r : Registry) (span_disabled : bool) (k : TypeId) : UnitHandler k := fun cx command =>
  if span_disabled then isolate_mediator_panic (dispatch_command r k cx command)
  else dispatch_command r k cx command.

Definition send_with_cancellation (r : Registry) (span_disabled : bool) (k : TypeId) (token : Z) : Handler k :=
  fun cx message => until_cancelled cancelled token (send r span_disabled k (scope_cancellation token cx) message).

Definition send_command_with_cancellation (r : Registry) (span_disabled : bool) (k : TypeId) (token : Z) : UnitHandler k :=
  fun cx command => until_cancelled cancelled token (send_command r span_disabled k (scope_cancellation token cx) command).

(** [dispatch_request_pipeline] and [dispatch_command_pipeline] share this body. *)
Definition dispatch_pipeline {M R} (p : Pipeline M R) (terminal : Next (W := W) M R) (token : option Z) : Next M R :=
  fun cx message =>
    if (MAX_PIPELINE_DEPTH <? length p)%nat then Done (Err depth_exceeded)
    else
      match token with
      | Some token =>
          until_cancelled cancelled token
            (isolate_mediator_panic (wrap p terminal (scope_cancellation token cx) message))
      | None => isolate_mediator_panic (wrap p terminal cx message)
      end.

Definition send_with (r : Registry) (k : TypeId) (p : Pipeline (Ty k) (Ty (Response k))) : Handler k :=
  dispatch_pipeline p (dispatch r k) None.
Definition send_with_cancellation_and_pipeline (r : Registry) (k : TypeId) (p : Pipeline (Ty k) (Ty (Response k)))
    (token : Z) : Handler k := dispatch_pipeline p (dispatch r k) (Some token).
Definition send_command_with (r : Registry) (k : TypeId) (p : Pipeline (Ty k) unit) : UnitHandler k :=
  dispatch_pipeline p (dispatch_command r k) None.
Definition send_command_with_cancellation_and_pipeline (r : Registry) (k : TypeId) (p : Pipeline (Ty k) unit)
    (token : Z) : UnitHandler k := dispatch_pipeline p (dispatch_command r k) (Some token).

(** *** Events *)

(** [if let Err(error) = result && first_error.is_none()] *)
Definition note_error (first_error : option CatgaError) (result : CatgaResult unit) : option CatgaError :=
  match first_error, result with
  | None, Err error => Some error
  | _, _ => first_error
  end.

Definition first_error_result (first_error : option CatgaError) : CatgaResult unit :=
  match first_error with None => Ok tt | Some error => Err error end.

Fixpoint deliver_all (handlers : list ErasedUnitHandler) (cx : DispatchCtx) (event : Any)
    (first_error : option CatgaError) : Task W (option CatgaError) :=
  match handlers with
  | [] => Done first_error
  | handler :: rest =>
      await result := isolate_mediator_panic (handler cx event) in
      deliver_all rest cx event (note_error first_error result)
  end.

Definition publish (r : Registry) (k : TypeId) : UnitHandler k := fun cx event =>
  match find_event r k with
  | None => Done (Ok tt)
  | Some handlers =>
      match last handlers with
      | None => Done (Ok tt)
      | Some last_handler =>
          await first_error := deliver_all (removelast handlers) cx (existT k event) None in
          await result := isolate_mediator_panic (last_handler cx (existT k event)) in
          Done (first_error_result (note_error first_error result))
      end
  end.

Definition publish_with_cancellation (r : Registry) (k : TypeId) (token : Z) : UnitHandler k := fun cx event =>
  until_cancelled cancelled token (publish r k (scope_cancellation token cx) event).

(** [while let Some(result) = deliveries.next().await]: the results in the order of [order], the
    order in which the deliveries complete *)
Definition first_observed (order : list (CatgaResult unit) -> list nat) (results : list (CatgaResult unit))
    : CatgaResult unit :=
  first_error_result (foldl note_error None (omap (results !!.) (order results))).

(** A limit on the deliveries that run at once leaves out some of the schedules that [join_all]
    has. *)
Definition publish_concurrency_inner (r : Registry) (k : TypeId) order (cx : DispatchCtx) (event : Ty k)
    : Task W (CatgaResult unit) :=
  match find_event r k with
  | None => Done (Ok tt)
  | Some handlers =>
      await results := join_all ((fun handler => isolate_mediator_panic (handler cx (existT k event))) <$> handlers) in
      Done (first_observed order results)
  end.

Definition publish_with_concurrency (r : Registry) (k : TypeId) (concurrency_limit : nat) order : UnitHandler k :=
  fun cx event =>
    if (concurrency_limit =? 0)%nat
    then Done (fail Validation "event handler concurrency limit must be greater than zero")
    else publish_concurrency_inner r k order cx event.

Definition publish_batch (r : Registry) (k : TypeId) (concurrency_limit : nat) order (cx : DispatchCtx)
    (batch : list (Ty k)) : Task W (CatgaResult unit) :=
  if (concurrency_limit =? 0)%nat
  then Done (fail Validation "batch concurrency limit must be greater than zero")
  else await results := join_all (publish r k cx <$> batch) in Done (first_observed order results).

Definition MAX_MEDIATOR_BATCH_SIZE : nat := 1024.

Definition send_batch (r : Registry) (k : TypeId) (concurrency_limit : nat) (cx : DispatchCtx) (batch : list (Ty k))
    : Task W (CatgaResult (list (CatgaResult (Ty (Response k))))) :=
  if (concurrency_limit =? 0)%nat
  then Done (fail Validation "batch concurrency limit must be greater than zero")
  else
    let bounded := take (S MAX_MEDIATOR_BATCH_SIZE) batch in
    if (MAX_MEDIATOR_BATCH_SIZE <? length bounded)%nat
    then Done (fail Validation "batch request count exceeds the configured limit; use send_stream")
    else
      await results := join_all ((fun m => isolate_mediator_panic (dispatch r k cx m)) <$> bounded) in
      Done (Ok results).

(** The responses to the items of a stream that is consumed to its end *)
Fixpoint send_stream (r : Registry) (span_disabled : bool) (k : TypeId) (cx : DispatchCtx) (messages : list (Ty k))
    : Task W (list (CatgaResult (Ty (Response k)))) :=
  match messages with
  | [] => Done []
  | m :: rest =>
      await response := send r span_disabled k cx m in
      await responses := send_stream r span_disabled k cx rest in
      Done (response :: responses)
  end.

(** *** [MediatorHandle] *)

Definition MediatorHandle : Type := option Registry.

Definition handle_bind (h : MediatorHandle) (r : Registry) : CatgaResult unit * MediatorHandle :=
  match h with
  | Some _ => (fail Conflict "mediator handle has already been bound", h)
  | None => (Ok tt, Some r)
  end.

Definition is_bound (h : MediatorHandle) : bool := bool_decide (is_Some h).

Definition bound {A} (h : MediatorHandle) (k : Registry -> Task W (CatgaResult A)) : Task W (CatgaResult A) :=
  match h with
  | None => Done (fail Unavailable "mediator handle is not bound during application startup")
  | Some r => k r
  end.

Definition handle_send (h : MediatorHandle) (span_disabled : bool) (k : TypeId) : Handler k := fun cx message =>
  bound h (fun r => send r span_disabled k cx message).
Definition handle_send_command (h : MediatorHandle) (span_disabled : bool) (k : TypeId) : UnitHandler k :=
  fun cx command => bound h (fun r => send_command r span_disabled k cx command).
Definition handle_publish (h : MediatorHandle) (k : TypeId) : UnitHandler k := fun cx event =>
  bound h (fun r => publish r k cx event).
End mediator.

(** ** Properties *)

(** A pipeline is its stages nested around the handler, the first outermost. *)
Definition nest {W M R} (p : list (Stage (W := W) M R)) (terminal : Next M R) : Next M R :=
  foldr (fun stage next cx message => stage cx message next) terminal p.

Lemma chain_run_nest {W M R} (stages : list (Stage (W := W) M R)) fuel index terminal :
  (length stages <= fuel + index)%nat -> chain_run fuel stages index terminal = nest (drop index stages) terminal.
Proof.
  revert index. induction fuel as [|fuel IH]; intros index Hl; simpl.
  - by rewrite drop_ge.
  - destruct (stages !! index) as [stage|] eqn:E.
    + rewrite (drop_S stages stage index E). simpl. by rewrite IH by lia.
    + by rewrite drop_ge by (by apply lookup_ge_None).
Qed.

Lemma wrap_nest {W M R} (p : list (Stage (W := W) M R)) terminal : wrap p terminal = nest p terminal.
Proof. destruct p as [|stage p]; [done |]. unfold wrap. rewrite chain_run_nest by (simpl; lia). done. Qed.

(** Tasks that end without a panic whatever happens around them *)
Inductive panic_free {W A} : Task W A -> Prop :=
| pf_done a : panic_free (Done a)
| pf_await d e n : (forall c w, panic_free (n c w)) -> panic_free (Await d e n).

Lemma panic_free_bind {W A B} (t : Task W A) (k : A -> Task W B) :
  panic_free t -> (forall a, panic_free (k a)) -> panic_free (tbind t k).
Proof. intros Ht Hk. induction Ht; simpl; [apply Hk | by constructor]. Qed.

Lemma panic_free_catch {W A} (t : Task W A) : panic_free (catch_unwind t).
Proof. induction t; simpl; by constructor. Qed.

Lemma panic_free_unless {W A} cancelled (t : Task W A) : panic_free t -> panic_free (unless_cancelled cancelled t).
Proof.
  intros Ht. induction Ht as [a|d e n Hn IH]; simpl; constructor. intros c w. destruct (cancelled w); [constructor | apply IH].
Qed.

Lemma panic_free_isolate {W A} (t : Task W (CatgaResult A)) : panic_free (isolate_mediator_panic t).
Proof. apply panic_free_bind; [apply panic_free_catch | constructor]. Qed.

Lemma panic_free_until {W A} cancelled token (t : Task W (CatgaResult A)) :
  panic_free t -> panic_free (until_cancelled cancelled token t).
Proof.
  intros Ht. apply panic_free_bind; [constructor; constructor |]. intros [|]; [constructor |].
  apply panic_free_bind; [by apply panic_free_unless | constructor].
Qed.

Section properties.
Context {W TypeId : Type} `{Countable TypeId} (Ty : TypeId -> Type) (Response : TypeId -> TypeId).

Abbreviation handler := (Handler (W := W) Ty Response).
Abbreviation unit_handler := (UnitHandler (W := W) Ty).
Abbreviation registry := (Registry (W := W) Ty).

Lemma downcast_self k v : downcast Ty k (existT k v) = Some v.
Proof.
  unfold downcast. simpl. destruct (decide (k = k)) as [e|]; [| done]. f_equal. symmetry.
  apply eq_rect_eq_dec. intros x y. destruct (decide (x = y)); auto.
Qed.

(** A startup that registers handlers one after the other *)
Inductive Registration :=
| RegisterRequest (k : TypeId) (h : handler k)
| RegisterCommand (k : TypeId) (h : unit_handler k)
| RegisterEvent (k : TypeId) (h : unit_handler k).

Definition register (r : registry) (x : Registration) : registry :=
  match x with
  | RegisterRequest k h => snd (register_request Ty Response r k h)
  | RegisterCommand k h => snd (register_command Ty r k h)
  | RegisterEvent k h => register_event Ty r k h
  end.

Definition startup (xs : list Registration) : registry := foldl register (registry_new Ty) xs.

(** What a startup registers for a type: the first request handler, the first command handler,
    every event handler in order *)
Definition as_type {F : TypeId -> Type} (k k' : TypeId) (x : F k') : option (F k) :=
  match decide (k' = k) with left e => Some (eq_rect k' F x k e) | right _ => None end.

Fixpoint first_request (k : TypeId) (xs : list Registration) : option (handler k) :=
  match xs with
  | [] => None
  | RegisterRequest k' h :: rest =>
      match as_type k k' h with Some h => Some h | None => first_request k rest end
  | _ :: rest => first_request k rest
  end.

Fixpoint first_command (k : TypeId) (xs : list Registration) : option (unit_handler k) :=
  match xs with
  | [] => None
  | RegisterCommand k' h :: rest =>
      match as_type k k' h with Some h => Some h | None => first_command k rest end
  | _ :: rest => first_command k rest
  end.

Fixpoint all_events (k : TypeId) (xs : list Registration) : list (unit_handler k) :=
  match xs with
  | [] => []
  | RegisterEvent k' h :: rest => option_list (as_type k k' h) ++ all_events k rest
  | _ :: rest => all_events k rest
  end.

Lemma as_type_self {F : TypeId -> Type} k (x : F k) : as_type k k x = Some x.
Proof.
  unfold as_type. destruct (decide (k = k)) as [e|]; [| done]. f_equal. symmetry.
  apply eq_rect_eq_dec. intros y z. destruct (decide (y = z)); auto.
Qed.

Lemma startup_requests xs r k :
  find_request Ty (foldl register r xs) k
  = match find_request Ty r k with
    | Some x => Some x
    | None => RequestHandlerAdapter Ty Response k <$> first_request k xs
    end.
Proof.
  revert r. induction xs as [|x xs IH]; intros r; simpl; [by destruct (find_request Ty r k) |].
  rewrite IH. unfold find_request, find_command, find_event. destruct x as [k' h|k' h|k' h]; simpl.
  - unfold register_request. destruct (decide (k' = k)) as [->|Hne].
    + rewrite as_type_self. destruct (requests Ty r !! k) eqn:E; simpl; [by rewrite E | by rewrite lookup_insert_eq].
    + unfold as_type. destruct (decide (k' = k)); [done |].
      destruct (requests Ty r !! k') eqn:E; simpl; [done | by rewrite lookup_insert_ne].
  - unfold register_command. by destruct (commands Ty r !! k').
  - done.
Qed.

Lemma startup_commands xs r k :
  find_command Ty (foldl register r xs) k
  = match find_command Ty r k with
    | Some x => Some x
    | None => CommandHandlerAdapter Ty k <$> first_command k xs
    end.
Proof.
  revert r. induction xs as [|x xs IH]; intros r; simpl; [by destruct (find_command Ty r k) |].
  rewrite IH. unfold find_request, find_command, find_event. destruct x as [k' h|k' h|k' h]; simpl.
  - unfold register_request. by destruct (requests Ty r !! k').
  - unfold register_command. destruct (decide (k' = k)) as [->|Hne].
    + rewrite as_type_self. destruct (commands Ty r !! k) eqn:E; simpl; [by rewrite E | by rewrite lookup_insert_eq].
    + unfold as_type. destruct (decide (k' = k)); [done |].
      destruct (commands Ty r !! k') eqn:E; simpl; [done | by rewrite lookup_insert_ne].
  - done.
Qed.

Lemma startup_events xs r k :
  default [] (find_event Ty (foldl register r xs) k)
  = default [] (find_event Ty r k) ++ (EventHandlerAdapter Ty k <$> all_events k xs).
Proof.
  revert r. induction xs as [|x xs IH]; intros r; simpl; [by rewrite app_nil_r |].
  rewrite IH. unfold find_request, find_command, find_event. destruct x as [k' h|k' h|k' h]; simpl.
  - unfold register_request. by destruct (requests Ty r !! k').
  - unfold register_command. by destruct (commands Ty r !! k').
  - unfold as_type. destruct (decide (k' = k)) as [->|Hne]; simpl.
    + rewrite lookup_insert_eq. simpl. rewrite <-app_assoc. done.
    + by rewrite lookup_insert_ne.
Qed.

(** Erasure is invisible: what the adapters wrap comes back with its type. *)
Lemma dispatch_adapter r k (h : handler k) cx m :
  find_request Ty r k = Some (RequestHandlerAdapter Ty Response k h) -> dispatch Ty Response r k cx m ≡ h cx m.
Proof.
  intros E. unfold dispatch. rewrite E. unfold RequestHandlerAdapter. rewrite downcast_self.
  unfold tbind_ok. rewrite tbind_assoc. etrans; [| apply tbind_ret]. apply tbind_proper; [done |].
  intros [a|e]; simpl; [by rewrite downcast_self | done].
Qed.

Lemma catch_proper {A} (t t' : Task W A) : t ≡ t' -> catch_unwind t ≡ catch_unwind t'.
Proof. intros Ht. induction Ht as [a| |d d' e e' n n' Hd He Hn IH]; simpl; by constructor. Qed.

Lemma isolate_proper {A} (t t' : Task W (CatgaResult A)) :
  t ≡ t' -> isolate_mediator_panic t ≡ isolate_mediator_panic t'.
Proof. intros Ht. apply tbind_proper; [by apply catch_proper | done]. Qed.

(** A request reaches the first handler registered for its type and no other, with its own
    type and that of its response; without a handler it fails before anything runs.  A panic of
    the handler is turned into an error only when no subscriber observes the span of the call. *)
Theorem send_exact xs k cx m :
  match first_request k xs with
  | Some h =>
      send Ty Response (startup xs) true k cx m ≡ isolate_mediator_panic (h cx m)
      /\ send Ty Response (startup xs) false k cx m ≡ h cx m
  | None =>
      forall span_disabled, send Ty Response (startup xs) span_disabled k cx m
        = Done (fail NotFound "request handler is not registered")
  end.
Proof.
  pose proof (startup_requests xs (registry_new Ty) k) as E. fold (startup xs) in E.
  destruct (first_request k xs) as [h|]; simpl in E.
  - unfold send. split; [apply isolate_proper |]; by apply dispatch_adapter.
  - intros [|]; unfold send, dispatch; by rewrite E.
Qed.

(** A delivery runs the handler to its end; a panic is an [Internal] error. *)
Fixpoint delivered (t : Task W (CatgaResult unit)) : Task W (CatgaResult unit) :=
  match t with
  | Done result => Done result
  | Panic => Done (Err (CatgaError_new Internal "mediator processing panicked"))
  | Await d e n => Await d e (fun c w => delivered (n c w))
  end.

(** The first of the failures *)
Fixpoint first_failure (results : list (CatgaResult unit)) : CatgaResult unit :=
  match results with
  | [] => Ok tt
  | Ok _ :: results => first_failure results
  | Err e :: _ => Err e
  end.

(** Deliveries one after the other, and their results *)
Fixpoint deliveries {k} (handlers : list (unit_handler k)) (cx : DispatchCtx) (event : Ty k)
    : Task W (list (CatgaResult unit)) :=
  match handlers with
  | [] => Done []
  | h :: rest =>
      await result := delivered (h cx event) in
      await results := deliveries rest cx event in
      Done (result :: results)
  end.

Lemma isolate_delivered (t : Task W (CatgaResult unit)) : isolate_mediator_panic t ≡ delivered t.
Proof. unfold isolate_mediator_panic. induction t as [a| |d e n IH]; simpl; [done | done |]. by constructor. Qed.

Lemma note_errors first results :
  first_error_result (foldl note_error first results)
  = match first with Some e => Err e | None => first_failure results end.
Proof.
  revert first. induction results as [|[[]|e] results IH]; intros [e'|]; simpl; rewrite ?IH; done.
Qed.

Lemma deliver_all_results {k} (hs : list (unit_handler k)) cx event first :
  deliver_all Ty (EventHandlerAdapter Ty k <$> hs) cx (existT k event) first
  ≡ tbind (deliveries hs cx event) (fun results => Done (foldl note_error first results)).
Proof.
  revert first. induction hs as [|h hs IH]; intros first; simpl; [done |].
  unfold EventHandlerAdapter at 1. rewrite downcast_self, tbind_assoc.
  apply tbind_proper; [apply isolate_delivered |]. intros result. rewrite IH, tbind_assoc. by apply tbind_proper.
Qed.

Lemma deliveries_app {k} (hs hs' : list (unit_handler k)) cx event :
  deliveries (hs ++ hs') cx event
  ≡ tbind (deliveries hs cx event) (fun rs => tbind (deliveries hs' cx event) (fun rs' => Done (rs ++ rs'))).
Proof.
  induction hs as [|h hs IH]; simpl; [by rewrite tbind_ret |]. rewrite tbind_assoc. apply tbind_proper; [done |].
  intros result. rewrite IH, !tbind_assoc. apply tbind_proper; [done |]. intros rs. rewrite tbind_assoc.
  simpl. done.
Qed.

(** C12: An event is delivered to every handler registered for its type and to no other, one after
    the other in the order of registration, each to its end; a handler that fails or panics does
    not keep the event from the later ones.  A panic counts as an [Internal] error with the text
    of the mediator, and the result is the failure of the first handler that failed, or success
    if none did.  The two sides are the same task: the same accesses, suspensions and drop
    code. *)
Theorem publish_exact xs k cx event :
  publish Ty (startup xs) k cx event
  ≡ tbind (deliveries (all_events k xs) cx event) (fun results => Done (first_failure results)).
Proof.
  pose proof (startup_events xs (registry_new Ty) k) as E. fold (startup xs) in E.
  change (default [] (find_event Ty (registry_new Ty) k)) with (@nil (ErasedUnitHandler (W := W) Ty)) in E. simpl in E.
  unfold publish. destruct (find_event Ty (startup xs) k) as [hs|]; simpl in E.
  2: { destruct (all_events k xs); [done | discriminate]. }
  subst hs. induction (all_events k xs) as [|h0 hs0 _] using rev_ind; [done |].
  rewrite fmap_app. simpl. rewrite last_snoc, removelast_last, deliver_all_results, tbind_assoc, deliveries_app, tbind_assoc.
  apply tbind_proper; [done |]. intros rs. simpl. rewrite !tbind_assoc.
  unfold EventHandlerAdapter at 1. rewrite downcast_self. apply tbind_proper; [apply isolate_delivered |].
  intros r. simpl. pose proof (note_errors None (rs ++ [r])) as Hn. rewrite foldl_app in Hn. simpl in Hn. by rewrite <- Hn.
Qed.

(** C19: A pipeline of up to 100 behaviors is its behaviors nested around the registered handler, and
    a longer one is refused before any of it runs; no panic of a behavior or of the handler leaves
    a dispatch through a pipeline, cancelled or not, nor a publication. *)
Theorem pipeline_dispatch_exact cancelled r k (p : Pipeline (Ty k) (Ty (Response k))) token cx m event :
  dispatch_pipeline cancelled p (dispatch Ty Response r k) None cx m
  = (if (length p <=? MAX_PIPELINE_DEPTH)%nat
     then isolate_mediator_panic (nest p (dispatch Ty Response r k) cx m) else Done (Err depth_exceeded))
  /\ panic_free (dispatch_pipeline cancelled p (dispatch Ty Response r k) token cx m)
  /\ panic_free (publish (W := W) Ty r k cx event).
Proof.
  split_and!.
  - unfold dispatch_pipeline. destruct (Nat.ltb_spec MAX_PIPELINE_DEPTH (length p)), (Nat.leb_spec (length p) MAX_PIPELINE_DEPTH);
      try lia; [done | by rewrite wrap_nest].
  - unfold dispatch_pipeline. destruct (_ <? _)%nat; [constructor |].
    destruct token; [apply panic_free_until |]; apply panic_free_isolate.
  - unfold publish. destruct (find_event Ty r k) as [hs|]; [| constructor]. destruct (last hs); [| constructor].
    apply panic_free_bind; [| intros fe; apply panic_free_bind; [apply panic_free_isolate | constructor]].
    generalize (removelast hs) (@None CatgaError). intros l. induction l as [|h l IH]; intros fe; simpl; [constructor |].
    apply panic_free_bind; [apply panic_free_isolate | intros a; apply IH].
Qed.

Lemma observed_spec l :
  match first_error_result (foldl note_error None l) with
  | Ok _ => Forall (fun r => r = Ok tt) l
  | Err e => Err e ∈ l
  end.
Proof.
  induction l as [|[[]|e] l IH]; simpl; [constructor | |].
  - destruct (first_error_result (foldl note_error None l)); [by constructor | by right].
  - assert (forall l', foldl note_error (Some e) l' = Some e) as -> by (intros l'; induction l' as [|[]]; simpl; auto).
    simpl. by left.
Qed.

(** Whatever the order in which concurrent deliveries complete, the result is a failure exactly
    when one of them failed, and then one of theirs. *)
Lemma first_observed_spec order results :
  order results ≡ₚ seq 0 (length results) ->
  match first_observed order results with
  | Ok _ => Forall (fun r => r = Ok tt) results
  | Err e => Err e ∈ results
  end.
Proof.
  intros Hp. unfold first_observed. assert (omap (results !!.) (order results) ≡ₚ results) as Ho.
  { by rewrite Hp, omap_lookup_seq. }
  pose proof (observed_spec (omap (results !!.) (order results))) as Hs.
  destruct (first_error_result _); by rewrite Ho in Hs.
Qed.
End properties.
