(* ===== verification/Behaviors.v ===== *)
(** * Pipeline behaviors ([behaviors/], [retry_jitter.rs], [validation/behavior.rs])

    Each behavior as a stage over a world that holds the stores it uses; a store behind a trait
    object is a class of tasks.  Telemetry and log lines are left out. *)

From S2P Require Import Prelude Errors Time Messages Claim Reliability Breaker Outbox Dsl Security Tasks Mediator.

(** ** Retry jitter *)

Definition DEFAULT_FULL_JITTER_SEED : Z := 15111065706836454659.  (* 0xd1b5_4a32_d192_ed03 *)

Inductive RetryJitter :=
| JitterNone
| JitterFull (seed : Z)
| JitterFixed (delay : Duration).

Definition production_default : RetryJitter := JitterFull DEFAULT_FULL_JITTER_SEED.

(** [u128] arithmetic; [whole * sample] is at most the 94-bit number of nanoseconds. *)
Definition duration_from_nanos (nanos : Z) : Duration :=
  if int_max u64 <? nanos / NANOS_PER_SEC then DURATION_MAX else nanos.

Definition scale_duration (base : Duration) (sample : Z) : Duration :=
  let divisor := int_max u64 in
  let whole := base / divisor in
  let remainder := base mod divisor in
  duration_from_nanos
    (saturating u128 (saturating u128 (whole * sample) + saturating u128 (remainder * sample) / divisor)).

Definition delay_for_sample (j : RetryJitter) (base : Duration) (sample : Z) : Duration :=
  match j with
  | JitterNone => base
  | JitterFixed delay => delay
  | JitterFull _ => scale_duration base sample
  end.

Definition mix64 (value : Z) : Z :=
  let value := wrapping u64 (Z.lxor value (Z.shiftr value 30) * 13787848793156543929) in  (* 0xbf58_476d_1ce4_e5b9 *)
  let value := wrapping u64 (Z.lxor value (Z.shiftr value 27) * 10723151780598845931) in  (* 0x94d0_49bb_1331_11eb *)
  Z.lxor value (Z.shiftr value 31).

(** The atomic state of a policy, and a successful exchange of [next_sample] *)
Definition jitter_state_new (j : RetryJitter) : Z := match j with JitterFull seed => seed | _ => 0 end.

Definition next_sample (state : Z) : Z * Z :=
  let next := wrapping u64 (state + 11400714819323198485) in  (* 0x9e37_79b9_7f4a_7c15 *)
  (mix64 next, next).

Definition jitter_delay (j : RetryJitter) (base : Duration) (state : Z) : Duration * Z :=
  match j with
  | JitterFull _ => let '(sample, state) := next_sample state in (delay_for_sample j base sample, state)
  | _ => (delay_for_sample j base 0, state)
  end.

Section behaviors.
Context {W M R : Type}.

Abbreviation task := (Task W).
Abbreviation next := (Next (W := W) M R).
Abbreviation stage := (Stage (W := W) M R).

(** [next_result] of the behaviors that isolate panics *)
Definition next_result {A} (what : string) (operation : task (CatgaResult A)) : task (CatgaResult A) :=
  await x := catch_unwind operation in Done (match x with Some r => r | None => fail Internal what end).

(** ** [RetryBehavior] *)

Section retry.
Context (max_retries : nat) (initial_delay : Duration) (jitter : RetryJitter)
  (get_jitter : W -> Z) (set_jitter : Z -> W -> W).

Definition delay_for (retry : nat) : task Duration :=
  atomically (fun w =>
    let '(delay, state) := jitter_delay jitter
      (duration_saturating_mul initial_delay (retry_multiplier (Z.of_nat retry))) (get_jitter w) in
    (delay, set_jitter state w)).

(** [remaining] retries are left after the current attempt. *)
Fixpoint retry_from (remaining retry : nat) (cx : DispatchCtx) (message : M) (nx : next) : task (CatgaResult R) :=
  await result := nx cx message in
  match result, remaining with
  | Err error, S remaining' =>
      if negb (bool_decide (code error = Cancelled)) && is_retryable error then
        await delay := delay_for retry in
        if delay =? 0 then retry_from remaining' (S retry) cx message nx
        else await _ := sleep in retry_from remaining' (S retry) cx message nx
      else Done result
  | _, _ => Done result
  end.

Definition RetryBehavior : stage := fun cx message nx => retry_from max_retries 0 cx message nx.
End retry.

(** ** [TimeoutBehavior] *)

Definition TimeoutBehavior : stage := fun cx message nx =>
  await x := timed (nx cx message) in
  Done (match x with Some result => result | None => fail Timeout "request handler timed out" end).

(** ** [CircuitBreakerBehavior]

    [get], [put]: the breaker in the world; [elapsed]: the time since it was created *)

Definition CircuitBreakerStage (get : W -> CircuitBreaker) (put : CircuitBreaker -> W -> W) (elapsed : W -> Duration)
    : stage := fun cx message nx =>
  await? probe := atomically (fun w => let '(r, b) := permit (get w) (elapsed w) in (r, put b w)) in
  await result := guarded (fun w => put (guard_drop (get w) probe (elapsed w)) w) (nx cx message) in
  await _ := atomically (fun w => (tt, put (guard_complete (get w) probe result (elapsed w)) w)) in
  Done result.

(** ** [InboxBehavior] *)

Class InboxStore := {
  ib_try_claim_for : Z -> Duration -> task (CatgaResult (option InboxClaim));
  ib_complete : InboxClaim -> Payload -> task (CatgaResult unit);
  ib_fail : InboxClaim -> task (CatgaResult unit);
  ib_result : Z -> task (CatgaResult Payload)
}.

(** [CachedResultCodec] *)
Record ResultCodec := mkResultCodec {
  rc_encode : R -> CatgaResult (list Z);
  rc_decode : list Z -> CatgaResult R
}.

Section inbox.
Context `{!InboxStore} (codec : ResultCodec) (claim_lease : Duration) (inbox_message_id : M -> Z).

(** [fail_claim], then the original error *)
Definition inbox_fail_claim (claim : InboxClaim) (error : CatgaError) : task (CatgaResult R) :=
  await _ := ib_fail claim in Done (Err error).

Definition InboxBehavior : stage := fun cx message nx =>
  let run := next_result "inbox pipeline processing panicked" (nx cx message) in
  let message_id := inbox_message_id message in
  if message_id =? 0 then run
  else
    await? claim := ib_try_claim_for message_id claim_lease in
    match claim with
    | None =>
        await? cached := ib_result message_id in
        Done (match cached with
              | None => fail Conflict "inbox message is already claimed"
              | Some bytes => rc_decode codec bytes
              end)
    | Some claim =>
        await result := run in
        match result with
        | Err error => inbox_fail_claim claim error
        | Ok response =>
            match rc_encode codec response with
            | Err error => inbox_fail_claim claim error
            | Ok cached => await? _ := ib_complete claim (Some cached) in Done (Ok response)
            end
        end
    end.
End inbox.

(** ** [IdempotencyBehavior] *)

Class IdempotencyStore := {
  ip_try_claim : string -> task (CatgaResult bool);
  ip_complete : string -> Payload -> task (CatgaResult unit);
  ip_fail : string -> task (CatgaResult unit);
  ip_result : string -> task (CatgaResult Payload)
}.

Section idempotency.
Context `{!IdempotencyStore} (codec : ResultCodec) (idempotency_key : M -> string).

Definition idempotency_fail_claim (key : string) (error : CatgaError) : task (CatgaResult R) :=
  await _ := ip_fail key in Done (Err error).

Definition IdempotencyBehavior : stage := fun cx message nx =>
  let key := idempotency_key message in
  await? claimed := ip_try_claim key in
  if claimed then
    await result := next_result "idempotency pipeline processing panicked" (nx cx message) in
    match result with
    | Err error => idempotency_fail_claim key error
    | Ok response =>
        match rc_encode codec response with
        | Err error => idempotency_fail_claim key error
        | Ok cached => await? _ := ip_complete key (Some cached) in Done (Ok response)
        end
    end
  else
    await? cached := ip_result key in
    Done (match cached with
          | None => fail Conflict "idempotency key is already claimed"
          | Some bytes => rc_decode codec bytes
          end).
End idempotency.

(** ** [OutboxBehavior] *)

Definition OutboxBehavior (enqueue : OutboxMessage -> task (CatgaResult unit)) (outbox_envelope : M -> Envelope)
    : stage := fun cx message nx =>
  let envelope := outbox_envelope message in
  await? response := nx cx message in
  await? _ := enqueue (OutboxMessage_new envelope) in
  Done (Ok response).

(** ** [DeadLetterBehavior], for requests and commands *)

Section dead_letter.
Context (enqueue : DeadLetter -> task (CatgaResult unit)) (clock : task SystemTime) (attempts : Z)
  (dead_letter_envelope : M -> Envelope).

Definition dead_letter_record_failure (envelope : Envelope) (error : CatgaError) : task unit :=
  await now := clock in
  match from_failure envelope error attempts "behavior.dead_letter" now with
  | Ok letter => await _ := enqueue letter in Done tt
  | Err _ => Done tt
  end.

Definition DeadLetterBehavior : stage := fun cx message nx =>
  let envelope := dead_letter_envelope message in
  await result := next_result "dead-letter pipeline processing panicked" (nx cx message) in
  match result with
  | Err error =>
      if bool_decide (code error = Transient) then Done result
      else await _ := dead_letter_record_failure envelope error in Done (Err error)
  | Ok _ => Done result
  end.
End dead_letter.

(** ** [CompensationBehavior] and [FaultPublishingBehavior] *)

Definition CompensationBehavior (publisher : DispatchCtx -> M -> CatgaError -> task (CatgaResult unit))
    : stage := fun cx message nx =>
  await result := next_result "compensation pipeline processing panicked" (nx cx message) in
  match result with
  | Err error => await _ := publisher cx message error in Done (Err error)
  | Ok _ => Done result
  end.

(** [EventCompensationPublisher] over the [publish] of a mediator *)
Definition EventCompensationPublisher {E} (publish : DispatchCtx -> E -> task (CatgaResult unit))
    (factory : M -> CatgaError -> option E) (cx : DispatchCtx) (request : M) (error : CatgaError) : task (CatgaResult unit) :=
  match factory request error with
  | Some event => publish cx event
  | None => Done (Ok tt)
  end.

Record Fault := mkFault {
  fault_message : M;
  fault_error : CatgaError;
  fault_correlation_id : option Z;
  fault_occurred_at : SystemTime;
  fault_host : string
}.

Definition FaultPublishingBehavior (clock : task SystemTime) (host : string)
    (publisher : DispatchCtx -> Fault -> task (CatgaResult unit)) : stage := fun cx message nx =>
  await result := nx cx message in
  match result with
  | Err error =>
      await now := clock in
      await _ := publisher cx (mkFault message error (current_correlation_id cx) now host) in
      Done (Err error)
  | Ok _ => Done result
  end.

(** ** [CorrelationBehavior] *)

Definition CorrelationBehavior (metadata : M -> MessageMetadata) : stage := fun cx message nx =>
  let md := metadata message in
  nx (scope_correlation_id (default (message_id md) (correlation_id md)) cx) message.

(** ** [ValidationBehavior] *)

(** Validators add to the errors; an error of their own stops. *)
Fixpoint validate_all (validators : list (M -> list string -> task (CatgaResult unit * list string)))
    (message : M) (errors : list string) : task (CatgaResult (list string)) :=
  match validators with
  | [] => Done (Ok errors)
  | v :: rest =>
      await outcome := v message errors in
      match fst outcome with
      | Err e => Done (Err e)
      | Ok _ => validate_all rest message (snd outcome)
      end
  end.

Definition format_validation_errors (errors : list string) (prefix : string) : CatgaError :=
  match errors with
  | [] => CatgaError_new Validation "validation failed"
  | _ => CatgaError_new Validation (prefix ++ String.concat "; " errors)
  end.

Definition ValidationBehavior validators : stage := fun cx message nx =>
  match validators with
  | [] => nx cx message
  | _ =>
      await? errors := validate_all validators message [] in
      match errors with
      | [] => nx cx message
      | _ => Done (Err (format_validation_errors errors "validation failed: "))
      end
  end.

(** ** [AuthorizationBehavior] *)

Record AuthorizationPolicy := mkPolicy {
  policy_name : string;
  policy_authorize : SecurityIdentity -> M -> task (CatgaResult bool)
}.

Definition policies_find (policies : list AuthorizationPolicy) (name : string) : option AuthorizationPolicy :=
  List.find (fun p => eq_ignore_ascii_case (policy_name p) name) policies.

Definition has_required_role (identity : SecurityIdentity) (requirements : AuthorizationRequirements) : bool :=
  bool_decide (req_roles requirements = []) || existsb (has_role identity) (req_roles requirements).

Definition required_roles_message (requirements : AuthorizationRequirements) : string :=
  "required role: " ++ String.concat ", " (req_roles requirements).

Definition AuthorizationBehavior (requirements : AuthorizationRequirements) (policies : list AuthorizationPolicy)
    : stage := fun cx message nx =>
  match current_security_identity cx with
  | None => Done (fail Unauthorized "authentication required")
  | Some identity =>
      if negb (has_required_role identity requirements)
      then Done (fail Forbidden (required_roles_message requirements))
      else
        match req_policy requirements with
        | Some name =>
            match policies_find policies name with
            | Some policy =>
                await? allowed := policy_authorize policy identity message in
                if allowed then nx cx message
                else Done (fail Forbidden ("policy '" ++ name ++ "' denied"))
            | None => nx cx message
            end
        | None => nx cx message
        end
  end.
End behaviors.

(** ** Properties *)

(** The two halves of the division give the same as one division at full precision. *)
Lemma scaled_nanos base sample d :
  0 < d -> base / d * sample + base mod d * sample / d = base * sample / d.
Proof.
  intros Hd. rewrite (Z.div_mod base d) at 3 by lia. rewrite Z.mul_add_distr_r.
  replace (d * (base / d) * sample + base mod d * sample) with (base mod d * sample + base / d * sample * d) by ring.
  rewrite Z.div_add by lia. lia.
Qed.

(** The jitter of a retry scales its delay by the sample exactly, rounding down: no intermediate
    result overflows, and a delay never grows. *)
Theorem jitter_exact base sample :
  0 <= base <= DURATION_MAX -> 0 <= sample <= int_max u64 ->
  scale_duration base sample = base * sample / int_max u64 /\ 0 <= scale_duration base sample <= base.
Proof.
  intros Hb Hs. assert (0 < int_max u64) as Hd by (int_bounds; lia).
  assert (DURATION_MAX < 2 ^ 95) as Hmax by (vm_compute; reflexivity).
  assert (int_max u64 = 2 ^ 64 - 1) as Hu by (vm_compute; reflexivity).
  assert (0 <= base * sample / int_max u64 <= base) as Hr.
  { split; [apply Z.div_pos; nia | apply Z.div_le_upper_bound; nia]. }
  assert (0 <= base / int_max u64 * sample <= base) as Hw.
  { split; [apply Z.mul_nonneg_nonneg; [by apply Z.div_pos; lia | lia] |].
    pose proof (Z.mul_div_le base (int_max u64) Hd). assert (0 <= base / int_max u64) by (apply Z.div_pos; lia). nia. }
  assert (0 <= base mod int_max u64 * sample < 2 ^ 128) as Hm.
  { pose proof (Z.mod_pos_bound base (int_max u64) Hd). rewrite Hu in *. nia. }
  assert (forall x, 0 <= x < 2 ^ 128 -> saturating u128 x = x) as Hsat.
  { intros x Hx. unfold saturating. change (int_min u128) with 0. change (int_max u128) with (2 ^ 128 - 1). lia. }
  pose proof (scaled_nanos base sample (int_max u64) Hd) as Hex.
  unfold scale_duration. rewrite (Hsat (base / int_max u64 * sample)), (Hsat (base mod int_max u64 * sample)) by lia.
  rewrite Hex, Hsat by lia. unfold duration_from_nanos.
  destruct (Z.ltb_spec (int_max u64) (base * sample / int_max u64 / NANOS_PER_SEC)) as [Hlt|_]; [| lia].
  exfalso. assert (base * sample / int_max u64 / NANOS_PER_SEC <= DURATION_MAX / NANOS_PER_SEC) by (apply Z.div_le_mono; [done | lia]).
  assert (DURATION_MAX / NANOS_PER_SEC <= int_max u64) by (vm_compute; congruence). lia.
Qed.

Lemma jitter_exact_witness :
  let base := from_secs 10 in
  scale_duration base (int_max u64) = base /\ 0 <= scale_duration base 12345 <= base.
Proof.
  split; [vm_compute; reflexivity |].
  refine (proj2 (jitter_exact (from_secs 10) 12345 _ _)); vm_compute; split; congruence.
Defined.
