(* ===== verification/Leases.v ===== *)
(** * Leases and distributed locks ([lease.rs], [memory/lease.rs], [behaviors/distributed_lock.rs])

    Expiring ownership of named resources, and the behavior that holds a lease around a handler
    and renews it at half its time. *)

From stdpp Require Import pretty.
From S2P Require Import Prelude Errors Time Tasks Mediator.

(** ** The in-memory store *)

Record Lease := mkLease { lease_owner : string; expires_at_millis : Z }.

Abbreviation MemoryLeases := (gmap string Lease).

Definition expiry (ttl : Duration) (clock : SystemTime) : Z :=
  saturating u64 (now_unix_millis clock + u64_or_max (as_millis ttl)).

(** [clock1] is read for the expiry, [clock2] by the comparison of an entry of another owner. *)
Definition try_acquire (m : MemoryLeases) (resource owner : string) (ttl : Duration) (clock1 clock2 : SystemTime)
    : CatgaResult bool * MemoryLeases :=
  let expires := expiry ttl clock1 in
  match m !! resource with
  | None => (Ok true, <[resource := mkLease owner expires]> m)
  | Some l =>
      if bool_decide (lease_owner l = owner) then (Ok true, <[resource := mkLease owner expires]> m)
      else if expires_at_millis l <=? now_unix_millis clock2 then (Ok true, <[resource := mkLease owner expires]> m)
      else (Ok false, m)
  end.

Definition renew (m : MemoryLeases) (resource owner : string) (ttl : Duration) (clock1 clock2 : SystemTime)
    : CatgaResult bool * MemoryLeases :=
  match m !! resource with
  | None => (Ok false, m)
  | Some l =>
      if negb (bool_decide (lease_owner l = owner)) || (expires_at_millis l <=? now_unix_millis clock1) then (Ok false, m)
      else (Ok true, <[resource := mkLease owner (expiry ttl clock2)]> m)
  end.

Definition lease_release (m : MemoryLeases) (resource owner : string) : CatgaResult bool * MemoryLeases :=
  match m !! resource with
  | Some l => if bool_decide (lease_owner l = owner) then (Ok true, delete resource m) else (Ok false, m)
  | None => (Ok false, m)
  end.

(** ** [DistributedLockBehavior] *)

(** [LeaseStore], its operations atomic accesses of the world *)
Class LeaseStore (W : Type) := {
  ls_try_acquire : string -> string -> Duration -> W -> CatgaResult bool * W;
  ls_renew : string -> string -> Duration -> W -> CatgaResult bool * W;
  ls_release : string -> string -> W -> CatgaResult bool * W
}.

Section lock.
Context {W M R : Type} `{LeaseStore W} (owner_prefix : string) (lease_duration : Duration)
  (get_sequence : W -> Z) (set_sequence : Z -> W -> W) (distributed_lock_key : M -> string).

(** [fetch_add] wraps around. *)
Definition next_owner : Task W string :=
  atomically (fun w =>
    let n := get_sequence w in
    (owner_prefix +:+ ":" +:+ pretty (Z.to_N n), set_sequence (wrapping u64 (n + 1)) w)).

(** [rounds]: how many times the wait has not run out yet when it is checked *)
Fixpoint acquire (rounds : nat) (resource owner : string) : Task W (CatgaResult bool) :=
  await result := atomically (ls_try_acquire resource owner lease_duration) in
  match result, rounds with
  | Ok false, S rounds' => await _ := sleep in acquire rounds' resource owner
  | _, _ => Done result
  end.

Definition lost_while_handling : CatgaError :=
  CatgaError_new Conflict "distributed lock ownership was lost while handling the request".

(** The renewal loop: its timer (number 1) fires at most [renewals] times.  A renewal that fails
    drops the invocation. *)
Fixpoint while_renewing (renewals : nat) (resource owner : string) : Task W (CatgaResult R) -> Task W (CatgaResult R) :=
  fix invocation (t : Task W (CatgaResult R)) : Task W (CatgaResult R) :=
    match t with
    | Done r => Done r
    | Panic => Panic
    | Await d e n =>
        Await d
          (fun c w =>
             match c, renewals with
             | 1%nat, S _ =>
                 let '(renewed, w') := ls_renew resource owner lease_duration w in
                 match renewed with Ok true => w' | _ => d w' end
             | _, _ => e (Nat.pred c) w
             end)
          (fun c w =>
             match c, renewals with
             | 1%nat, S renewals' =>
                 match fst (ls_renew resource owner lease_duration w) with
                 | Ok true => while_renewing renewals' resource owner t
                 | Ok false => Done (Err lost_while_handling)
                 | Err error => Done (Err error)
                 end
             | _, _ => invocation (n (Nat.pred c) w)
             end)
    end.

Definition lease_zero : CatgaError :=
  CatgaError_new Validation "distributed lock lease duration must be greater than zero".

Definition execute_while_renewing (renewals : nat) (resource owner : string) (invocation : Task W (CatgaResult R))
    : Task W (CatgaResult R) :=
  if lease_duration =? 0 then Done (Err lease_zero) else while_renewing renewals resource owner invocation.

Definition releasing (resource owner : string) (result : CatgaResult R) : Task W (CatgaResult R) :=
  await released := atomically (ls_release resource owner) in
  Done (match released, result with
        | Ok true, _ => result
        | Ok false, Ok _ => fail Internal "distributed lock ownership was lost before release"
        | Err error, Ok _ => Err error
        | _, Err _ => result
        end).

Definition DistributedLockBehavior (rounds renewals : nat) : Stage (W := W) M R := fun cx message nx =>
  if lease_duration =? 0 then Done (Err lease_zero)
  else
    let resource := distributed_lock_key message in
    await owner := next_owner in
    await? acquired := acquire rounds resource owner in
    if negb acquired then Done (fail Conflict "distributed lock is already held")
    else
      await result := execute_while_renewing renewals resource owner (nx cx message) in
      releasing resource owner result.
End lock.


(** ** Properties of the store *)

(** The operations of a history *)
Inductive LeaseOp :=
| OpAcquire (resource owner : string) (ttl : Duration) (clock1 clock2 : SystemTime)
| OpRenew (resource owner : string) (ttl : Duration) (clock1 clock2 : SystemTime)
| OpRelease (resource owner : string).

Definition lease_op (m : MemoryLeases) (op : LeaseOp) : CatgaResult bool * MemoryLeases :=
  match op with
  | OpAcquire resource owner ttl c1 c2 => try_acquire m resource owner ttl c1 c2
  | OpRenew resource owner ttl c1 c2 => renew m resource owner ttl c1 c2
  | OpRelease resource owner => lease_release m resource owner
  end.

Definition lease_ops (m : MemoryLeases) (ops : list LeaseOp) : MemoryLeases := foldl (fun m op => snd (lease_op m op)) m ops.

Definition op_owner (op : LeaseOp) : string :=
  match op with OpAcquire _ o _ _ _ | OpRenew _ o _ _ _ | OpRelease _ o => o end.

(** The clock that an operation compares a deadline with *)
Definition op_before (e : Z) (op : LeaseOp) : Prop :=
  match op with
  | OpAcquire _ _ _ _ c2 => now_unix_millis c2 < e
  | OpRenew _ _ _ c1 _ => now_unix_millis c1 < e
  | OpRelease _ _ => True
  end.

(** Operations of other owners before the deadline leave a lease as it is. *)
Lemma lease_undisturbed m op resource l :
  m !! resource = Some l -> op_owner op <> lease_owner l -> op_before (expires_at_millis l) op ->
  snd (lease_op m op) !! resource = Some l.
Proof.
  intros Hl Ho Hb. destruct op as [r o ttl c1 c2|r o ttl c1 c2|r o]; simpl in *.
  - destruct (decide (r = resource)) as [->|Hne].
    + unfold try_acquire in *. rewrite Hl, bool_decide_eq_false_2 by congruence.
      destruct (Z.leb_spec (expires_at_millis l) (now_unix_millis c2)); [lia | done].
    + unfold try_acquire in *. repeat case_match; simpl; rewrite ?lookup_insert_ne by done; done.
  - destruct (decide (r = resource)) as [->|Hne].
    + unfold renew in *. by rewrite Hl, bool_decide_eq_false_2 by congruence.
    + unfold renew in *. repeat case_match; simpl; rewrite ?lookup_insert_ne by done; done.
  - destruct (decide (r = resource)) as [->|Hne].
    + unfold lease_release in *. by rewrite Hl, bool_decide_eq_false_2 by congruence.
    + unfold lease_release in *. repeat case_match; simpl; rewrite ?lookup_delete_ne by done; done.
Qed.

Lemma lease_undisturbed_ops m ops resource l :
  m !! resource = Some l -> Forall (fun op => op_owner op <> lease_owner l /\ op_before (expires_at_millis l) op) ops ->
  lease_ops m ops !! resource = Some l.
Proof.
  intros Hl Hops. revert m Hl. induction Hops as [|op ops [Ho Hb] _ IH]; intros m Hl; [done |].
  simpl. by apply IH, lease_undisturbed.
Qed.

(** A lease that is granted is exclusive until its deadline: whatever other owners try in the
    meantime, all their attempts on the resource are refused, and the owner can still renew or
    release it; from the deadline on anyone else gets it, and the owner can no longer renew it. *)
Theorem lease_exclusive m resource owner ttl c1 c2 ops other ttl' d1 d2 :
  fst (try_acquire m resource owner ttl c1 c2) = Ok true -> other <> owner ->
  Forall (fun op => op_owner op <> owner /\ op_before (expiry ttl c1) op) ops ->
  let m' := lease_ops (snd (try_acquire m resource owner ttl c1 c2)) ops in
  if now_unix_millis d2 <? expiry ttl c1
  then try_acquire m' resource other ttl' d1 d2 = (Ok false, m')
       /\ fst (renew m' resource owner ttl' d2 d1) = Ok true
       /\ fst (lease_release m' resource owner) = Ok true
  else fst (try_acquire m' resource other ttl' d1 d2) = Ok true
       /\ renew m' resource owner ttl' d2 d1 = (Ok false, m').
Proof.
  intros Hok Hne Hops m'.
  assert (m' !! resource = Some (mkLease owner (expiry ttl c1))) as Hl.
  { apply lease_undisturbed_ops; [| done]. unfold try_acquire in *.
    repeat case_match; simplify_eq/=; by rewrite lookup_insert_eq. }
  unfold try_acquire, renew, lease_release. rewrite Hl. simpl.
  rewrite (bool_decide_eq_false_2 (owner = other)), (bool_decide_eq_true_2 (owner = owner)) by congruence. simpl.
  rewrite Z.ltb_antisym. by destruct (expiry ttl c1 <=? now_unix_millis d2).
Qed.

(** ** Properties of the lock *)

(** What the lock relies on: [owner_of] is who a resource was last given to. *)
Class LeaseLaws {W} `{LeaseStore W} (owner_of : string -> W -> option string) : Prop := {
  ll_renewed resource owner ttl w : fst (ls_renew resource owner ttl w) = Ok true -> owner_of resource w = Some owner;
  ll_released resource owner w : fst (ls_release resource owner w) = Ok true -> owner_of resource w = Some owner;
  ll_acquire resource owner ttl w r o :
    owner_of r (snd (ls_try_acquire resource owner ttl w)) = Some o -> owner_of r w = Some o \/ (r = resource /\ o = owner);
  ll_renew resource owner ttl w r : owner_of r (snd (ls_renew resource owner ttl w)) = owner_of r w;
  ll_release resource owner w r o :
    owner_of r (snd (ls_release resource owner w)) = Some o -> owner_of r w = Some o
}.

Section lock_properties.
Context {W R : Type} `{LeaseLaws W owner_of} (lease_duration : Duration) (resource owner : string).

Definition lost (w : W) : Prop := owner_of resource w <> Some owner.

(** Nobody else takes the resource in the name of this owner. *)
Definition no_impostor (w w' : W) : Prop := lost w -> lost w'.

Definition not_ok (x : option (CatgaResult R)) : Prop := forall r, x <> Some (Ok r).

Lemma lost_later w w' : rtc no_impostor w w' -> lost w -> lost w'.
Proof. intros Hr. induction Hr; auto. Qed.

(** Every operation of another owner is no impostor. *)
Lemma others_no_impostor w r o ttl :
  o <> owner ->
  no_impostor w (snd (ls_try_acquire r o ttl w)) /\ no_impostor w (snd (ls_renew r o ttl w))
  /\ no_impostor w (snd (ls_release r o w)).
Proof.
  intros Hne. split_and!; intros Hl Ho.
  - apply ll_acquire in Ho as [?|[_ ?]]; [done | congruence].
  - rewrite ll_renew in Ho. done.
  - by apply ll_release in Ho.
Qed.

Lemma own_renewal w : no_impostor w (snd (ls_renew resource owner lease_duration w)).
Proof. intros Hl. unfold lost. by rewrite ll_renew. Qed.

Lemma own_release w : no_impostor w (snd (ls_release resource owner w)).
Proof. intros Hl Ho. by apply ll_release in Ho. Qed.

(** Renewals do not bring a lost lease back, and a renewal that finds it lost ends the handler. *)
Lemma renewing_respects renewals (t : Task W (CatgaResult R)) :
  respects no_impostor t -> respects no_impostor (while_renewing lease_duration renewals resource owner t).
Proof.
  revert t. induction renewals as [|renewals IHr]; induction t as [r| |d e n IH]; simpl; [done | done | | done | done |];
    intros [Hd Hc]; (split; [done |]); intros c w.
  - destruct c as [|[|c]]; (split; [apply Hc | apply IH, Hc]).
  - destruct c as [|[|c]]; simpl; [split; [apply Hc | apply IH, Hc] | | split; [apply Hc | apply IH, Hc]].
    pose proof (own_renewal w) as Hrn. destruct (ls_renew resource owner lease_duration w) as [[[|]|e'] w'] eqn:E; simpl in *.
    + split; [done |]. by apply (IHr (Await d e n)).
    + split; [| done]. intros Hl. by apply Hd, Hrn.
    + split; [| done]. intros Hl. by apply Hd, Hrn.
Qed.

(** Any task that respects the others keeps a lost lease lost. *)
Lemma respects_lost {A} (t : Task W A) w : respects no_impostor t -> lost w -> rg no_impostor no_impostor (fun _ => lost) t w.
Proof.
  revert w. induction t as [a| |d e n IH]; intros w Ht Hl w1 Hw; [by eapply lost_later | by eapply lost_later |].
  destruct Ht as [Hd Hc]. split; [done |]. intros c. destruct (Hc c w1) as [He Hn]. split; [done |].
  apply IH; [done |]. apply He. by eapply lost_later.
Qed.

Lemma releasing_lost (result : CatgaResult R) w :
  lost w -> rg no_impostor no_impostor (fun x _ => not_ok x) (releasing resource owner result) w.
Proof.
  intros Hl. eapply (rg_bind _ _ (fun x _ => x <> Some (Ok true))); [| | done].
  - apply rg_atomically. intros w1 Hw. pose proof (lost_later _ _ Hw Hl) as Hl1.
    split_and!; [by intros Hx | apply own_release |]. intros w2 _ [= E]. by apply ll_released in E.
  - intros [[|]|e] w1 Hx; [done | |]; intros w2 _ r; by destruct result.
Qed.

(** C13: A request that is handled under a distributed lock reports success only if it was the last
    to be given the lease from the acquisition to the release: from any moment of its handling at
    which the lease has gone to another owner, or is gone, it does not end well, whatever the
    handler, the renewals and the other owners do. *)
Theorem lost_lease_reported renewals (invocation : Task W (CatgaResult R)) w t w' x w'' :
  respects no_impostor invocation ->
  rtc (runs no_impostor) (execute_while_renewing lease_duration renewals resource owner invocation, w) (t, w') ->
  lost w' -> rtc (runs no_impostor) (tbind t (releasing resource owner), w') (Done x, w'') -> is_ok x = false.
Proof.
  intros Hi Hr Hl Hend.
  assert (respects no_impostor t) as Ht.
  { eapply respects_runs; [exact Hr |]. unfold execute_while_renewing. destruct (lease_duration =? 0); [done |].
    by apply renewing_respects. }
  assert (rg no_impostor no_impostor (fun x _ => not_ok x) (tbind t (releasing resource owner)) w') as Hrg.
  { eapply rg_bind; [by apply respects_lost | intros; by apply releasing_lost | done]. }
  pose proof (rg_runs _ _ _ _ _ _ _ Hend Hrg w'' (rtc_refl _ _)) as Hx. destruct x as [r|]; [by destruct (Hx r) | done].
Qed.
End lock_properties.

(** ** The in-memory store under the lock *)

Section memory_lock.
Context {App : Type}.

Record LockWorld := mkLockWorld {
  lw_leases : MemoryLeases;
  lw_sequence : Z;
  lw_clock : nat -> SystemTime;
  lw_app : App
}.

Definition put_leases (m : MemoryLeases) (w : LockWorld) : LockWorld := mkLockWorld m (lw_sequence w) (lw_clock w) (lw_app w).
Definition put_lock_app (a : App) (w : LockWorld) : LockWorld := mkLockWorld (lw_leases w) (lw_sequence w) (lw_clock w) a.

#[export] Instance memory_leases : LeaseStore LockWorld := {
  ls_try_acquire r o ttl w :=
    let '(x, m) := try_acquire (lw_leases w) r o ttl (lw_clock w 0%nat) (lw_clock w 1%nat) in (x, put_leases m w);
  ls_renew r o ttl w :=
    let '(x, m) := renew (lw_leases w) r o ttl (lw_clock w 0%nat) (lw_clock w 1%nat) in (x, put_leases m w);
  ls_release r o w := let '(x, m) := lease_release (lw_leases w) r o in (x, put_leases m w)
}.

Definition memory_owner (r : string) (w : LockWorld) : option string := lease_owner <$> lw_leases w !! r.

#[export] Instance memory_lease_laws : LeaseLaws memory_owner.
Proof.
  split; unfold memory_owner; simpl.
  - intros r o ttl w. unfold renew. destruct (lw_leases w !! r) as [l|]; [| done].
    destruct (bool_decide_reflect (lease_owner l = o)); simpl; [| done]. intros _. by f_equal.
  - intros r o w. unfold lease_release. destruct (lw_leases w !! r) as [l|]; [| done].
    destruct (bool_decide_reflect (lease_owner l = o)); simpl; [| done]. intros _. by f_equal.
  - intros r o ttl w r' o'. unfold try_acquire. destruct (decide (r = r')) as [->|Hne].
    + repeat case_match; simpl; intros E; simplify_eq; rewrite ?lookup_insert_eq in E; simplify_eq/=; auto.
      left. rewrite <-E. by simplify_option_eq.
    + repeat case_match; simpl; intros E; simplify_eq; rewrite ?lookup_insert_ne in E by done; auto.
  - intros r o ttl w r'. unfold renew. destruct (lw_leases w !! r) as [l|] eqn:E; [| done].
    destruct (negb _ || _) eqn:Eb; simpl; [done |]. apply orb_false_iff in Eb as [Eb%negb_false_iff%bool_decide_eq_true _].
    destruct (decide (r = r')) as [->|Hne].
    + rewrite lookup_insert_eq, E. simpl. by f_equal.
    + by rewrite lookup_insert_ne.
  - intros r o w r' o'. unfold lease_release. destruct (lw_leases w !! r) as [l|]; [| done].
    destruct (bool_decide _); simpl; [| done]. destruct (decide (r = r')) as [->|Hne].
    + by rewrite lookup_delete_eq.
    + by rewrite lookup_delete_ne.
Qed.
End memory_lock.

(** ** Concrete runs *)

Section example.

Definition lease_ms (ms : Z) : SystemTime := ms * NANOS_PER_MILLI.

(** A lease of 100 ms from instant 1000 *)
Lemma lease_exclusive_witness :
  let m := snd (try_acquire ∅ "r" "a" (from_millis 100) (lease_ms 1000) (lease_ms 1000)) in
  let m' := lease_ops m [OpAcquire "r" "b" (from_millis 100) (lease_ms 1050) (lease_ms 1050); OpRelease "r" "c"] in
  fst (try_acquire m' "r" "b" (from_millis 100) (lease_ms 1099) (lease_ms 1099)) = Ok false
  /\ fst (renew m' "r" "a" (from_millis 100) (lease_ms 1099) (lease_ms 1099)) = Ok true
  /\ fst (try_acquire m' "r" "b" (from_millis 100) (lease_ms 1100) (lease_ms 1100)) = Ok true.
Proof.
  assert (Forall (fun op => op_owner op <> "a"%string /\ op_before (expiry (from_millis 100) (lease_ms 1000)) op)
    [OpAcquire "r" "b" (from_millis 100) (lease_ms 1050) (lease_ms 1050); OpRelease "r" "c"]) as Hops.
  { repeat constructor; [discriminate | discriminate]. }
  pose proof (fun ms => lease_exclusive ∅ "r" "a" (from_millis 100) (lease_ms 1000) (lease_ms 1000) _ "b" (from_millis 100)
    (lease_ms ms) (lease_ms ms) eq_refl ltac:(discriminate) Hops) as Hx.
  pose proof (Hx 1099) as [H1 [H2 _]]. pose proof (Hx 1100) as [H3 _]. cbv zeta.
  split_and!; [by rewrite H1 | exact H2 | exact H3].
Defined.

(** The lease of [a] ran out while its handler was suspended, and [b] has it. *)
Definition taken : LockWorld (App := unit) :=
  mkLockWorld {[ "r"%string := mkLease "b" 1300 ]} 3 (fun _ => lease_ms 1200) tt.
Definition slow_handler : Task (LockWorld (App := unit)) (CatgaResult nat) := await _ := sleep in Done (Ok 5%nat).
Definition lock_run := execute_while_renewing (from_millis 100) 0 "r" "a" slow_handler.
Definition lock_result : CatgaResult nat := fail Internal "distributed lock ownership was lost before release".

Lemma lost_lease_reported_witness : lost (owner_of := memory_owner) "r" "a" taken /\ is_ok lock_result = false.
Proof.
  split; [vm_compute; discriminate |].
  apply (lost_lease_reported (owner_of := memory_owner) (from_millis 100) "r" "a" 0 slow_handler taken lock_run taken lock_result taken).
  - simpl. split; [by intros w H |]. intros c w. split; [by intros H | done].
  - apply rtc_refl.
  - vm_compute. discriminate.
  - eapply rtc_l; [apply (run_poll _ _ _ _ 0) |]. eapply rtc_l; [apply (run_poll _ _ _ _ 0) |]. apply rtc_refl.
Defined.
End example.
