(* ===== verification/Delivery.v ===== *)
(** * Deliveries through the inbox and idempotency behaviors

    The behaviors of [behaviors/inbox.rs] and [behaviors/idempotency.rs] composed with the
    in-memory stores of [memory/inbox.rs] and [memory/idempotency.rs].  Deliveries of a message run
    at the same time, are polled in any order and dropped at any await; the clock moves and
    retention runs between their steps.  A store access is one step here; the atomic accesses
    inside a claim record are interleaved in the file on claim records. *)

From S2P Require Import Prelude Utf8 Errors Time Reliability Capacity Retention Claim Inbox Tasks Mediator Behaviors.

(** ** The world of a process *)

Section world.
Context {App : Type} `{!MapIter Z} `{!MapIter string}.

(** [w_clock n]: what the [n]-th reading of the clock in a store access gives *)
Record World := mkWorld {
  w_inbox : MemoryInbox;
  w_keys : MemoryIdempotency;
  w_clock : nat -> SystemTime;
  w_app : App
}.

Definition put_inbox (i : MemoryInbox) (w : World) : World := mkWorld i (w_keys w) (w_clock w) (w_app w).
Definition put_keys (i : MemoryIdempotency) (w : World) : World := mkWorld (w_inbox w) i (w_clock w) (w_app w).
Definition put_clock (c : nat -> SystemTime) (w : World) : World := mkWorld (w_inbox w) (w_keys w) c (w_app w).
Definition put_app (a : App) (w : World) : World := mkWorld (w_inbox w) (w_keys w) (w_clock w) a.

Definition on_inbox {A} (f : World -> A * MemoryInbox) : Task World A :=
  atomically (fun w => let '(r, i) := f w in (r, put_inbox i w)).
Definition on_keys {A} (f : World -> A * MemoryIdempotency) : Task World A :=
  atomically (fun w => let '(r, i) := f w in (r, put_keys i w)).

#[export] Instance memory_inbox : InboxStore (W := World) := {
  ib_try_claim_for id lease :=
    on_inbox (fun w => inbox_try_claim_for (w_inbox w) id lease (w_clock w 0%nat) (w_clock w 1%nat) (w_clock w 2%nat));
  ib_complete c v := on_inbox (fun w => inbox_complete (w_inbox w) c v (w_clock w 0%nat));
  ib_fail c := on_inbox (fun w => inbox_fail (w_inbox w) c);
  ib_result id := on_inbox (fun w => (inbox_result (w_inbox w) id, w_inbox w))
}.

#[export] Instance memory_idempotency : IdempotencyStore (W := World) := {
  ip_try_claim key := on_keys (fun w => idem_try_claim (w_keys w) key (w_clock w 0%nat));
  ip_complete key v := on_keys (fun w => idem_complete (w_keys w) key v (w_clock w 0%nat));
  ip_fail key := on_keys (fun w => idem_fail (w_keys w) key);
  ip_result key := on_keys (fun w => (idem_result (w_keys w) key, w_keys w))
}.
End world.
Arguments World : clear implicits.

(** ** Completed records within a retention period

    Every clock reading lies in a period no longer than the retention, and what was completed
    before it began is gone. *)

Section period.
Context {K : Type} `{MapIter K} (lo hi : Z).

Definition in_period (clock : SystemTime) : Prop := lo <= now_unix_millis clock < hi.
Definition stamps_from (t : Table K ClaimRecord) : Prop := forall k s, index t !! k = Some s -> lo <= finished_at s.

(** Completed records stay as they are, and new stamps are of the period. *)
Definition keeps (t t' : Table K ClaimRecord) : Prop :=
  (forall k r, records t !! k = Some r -> is_completed r = true -> records t' !! k = Some r)
  /\ (stamps_from t -> stamps_from t').

Lemma keeps_refl t : keeps t t.
Proof. done. Qed.

Lemma keeps_trans t1 t2 t3 : keeps t1 t2 -> keeps t2 t3 -> keeps t1 t3.
Proof. intros [A1 B1] [A2 B2]. split; eauto. Qed.

Lemma swept_keeps retention clock t t' :
  hi - lo <= as_millis retention -> in_period clock -> stamps_from t ->
  swept identity is_completed (aged retention (clock_ms clock)) t t' -> keeps t t'.
Proof.
  intros Hr Hp Hf Hsw. unfold in_period in Hp. split.
  - intros k r Hk Hc. destruct (records t' !! k) as [r'|] eqn:E.
    + pose proof (sw_records _ _ _ _ _ Hsw _ _ E). congruence.
    + exfalso. destruct (sw_finished _ _ _ _ _ Hsw _ _ Hk E) as (_ & s & Hs & _ & ms & [= <-] & Hage).
      pose proof (Hf _ _ Hs). unfold saturating_sub in Hage. lia.
  - intros _ k s Hs. apply (Hf k), (sw_index _ _ _ _ _ Hsw _ _ Hs).
Qed.

Lemma keeps_put t k r r' :
  records t !! k = Some r -> (is_completed r = true -> r' = r) -> keeps t (put t k r').
Proof.
  intros Hk Hc. split; [| done]. intros j x Hj Hx. simpl. destruct (decide (j = k)) as [->|Hne].
  - rewrite lookup_insert_eq. simplify_eq. by rewrite Hc.
  - by rewrite lookup_insert_ne.
Qed.

Lemma keeps_stamp t k s : lo <= finished_at s -> keeps t (set_index t (<[k := s]> (index t))).
Proof.
  intros Hs. split; [done |]. intros Hf j x. simpl. rewrite lookup_insert_Some. intros [[<- <-]|[_ ?]]; eauto.
Qed.

Lemma complete_record_keeps slack t k f clock m1 m2 v :
  claims_inv slack t -> in_period clock ->
  (forall r, rest_wf r -> f r = (false, r) \/ (cstate r = CLAIMED /\ f r = finish_complete r v)) ->
  keeps t (snd (complete_record t k f clock m1 m2)).
Proof.
  intros Ht Hp Hf. unfold complete_record. destruct (records t !! k) as [r|] eqn:Hk; [| done].
  pose proof (ki_rest _ _ Ht _ _ Hk) as Hw. destruct (Hf r Hw) as [->|[Hst ->]]; cbn [snd].
  - by eapply keeps_put.
  - rewrite finish_complete_rest by done. cbn [snd].
    eapply keeps_trans; [eapply (keeps_put t k r) | apply (keeps_stamp (put t k _) k)]; [done | | apply Hp].
    intros Hc%completed_state. congruence.
Qed.

Lemma fail_record_keeps slack t k f m1 m2 :
  claims_inv slack t ->
  (forall r, rest_wf r -> f r = (false, r) \/ (cstate r = CLAIMED /\ f r = (true, set_state r FAILED))) ->
  keeps t (snd (fail_record t k f m1 m2)).
Proof.
  intros Ht Hf. unfold fail_record. destruct (records t !! k) as [r|] eqn:Hk; [| done].
  pose proof (ki_rest _ _ Ht _ _ Hk) as Hw. destruct (Hf r Hw) as [->|[Hst ->]]; cbn [snd].
  - by eapply keeps_put.
  - eapply keeps_put; [done |]. intros Hc%completed_state. congruence.
Qed.

Lemma insert_keeps t k (mk : Z -> ClaimRecord) :
  records t !! k = None -> keeps t (snd (insert_reserved t k mk)).
Proof.
  intros Hk. unfold insert_reserved. destruct (sequence_next (record_sequence t)) as [[n|e] q]; cbn [snd]; [| done].
  split; [| done]. intros j x Hj _. simpl. rewrite lookup_insert_ne; [done |]. intros <-. congruence.
Qed.

Lemma cleanup_keeps t retention limit clock msg :
  claims_inv 0 t -> stamps_from t -> in_period clock -> hi - lo <= as_millis retention ->
  keeps t (snd (cleanup identity is_completed t retention limit (clock_ms clock) msg)).
Proof.
  intros Ht Hf Hp Hr.
  pose proof (cleanup_spec identity is_completed 0 t retention limit (clock_ms clock) msg ltac:(done) (ki_table _ _ Ht)) as Hc.
  destruct (cleanup _ _ _ _ _ _ _) as [[n|e] t']; cbn [snd]; [| by subst].
  destruct Hc as (Hsw & _). by eapply swept_keeps.
Qed.

Lemma admit_keeps t retention clock m1 m2 :
  claims_inv 0 t -> stamps_from t -> in_period clock -> hi - lo <= as_millis retention ->
  keeps t (snd (admit_record identity is_completed t retention (clock_ms clock) m1 m2)).
Proof.
  intros Ht Hf Hp Hr.
  pose proof (admit_spec identity is_completed 0 t retention (clock_ms clock) m1 m2 ltac:(done) (ki_table _ _ Ht)) as Ha.
  destruct (admit_record _ _ _ _ _ _ _) as [[[]|e] t']; cbn [snd]; destruct Ha as (? & Ha); [destruct Ha as [Ha _] |];
    by eapply swept_keeps.
Qed.

(** Admission makes room, it does not bring a record. *)
Lemma admit_absent t retention now m1 m2 k :
  claims_inv 0 t -> records t !! k = None ->
  records (snd (admit_record identity is_completed t retention now m1 m2)) !! k = None.
Proof.
  intros Ht Hk.
  pose proof (admit_synced identity is_completed t retention now m1 m2 (ki_coherent _ _ Ht) k) as [[-> _]|[-> _]]; done.
Qed.
End period.

Section inbox_period.
Context `{!MapIter Z} (lo hi : Z).

Lemma inbox_claim_keeps i id lease c1 c2 c3 :
  claims_inv 0 (in_table i) -> stamps_from lo (in_table i) -> in_period lo hi c3 ->
  hi - lo <= as_millis (in_retention i) ->
  keeps lo (in_table i) (in_table (snd (inbox_try_claim_for i id lease c1 c2 c3))).
Proof.
  intros Hi Hf Hp Hr. unfold inbox_try_claim_for. destruct (inbox_claim_expires_at lease c1) as [e|]; [| done].
  destruct (records (in_table i) !! id) as [r|] eqn:Hid.
  - unfold inbox_claim_record. pose proof (ki_rest _ _ Hi _ _ Hid) as Hw.
    destruct (try_claim_generation_rest r e (now_unix_millis c2) Hw) as [[-> _]|(Hne & _ & [[_ ->]|[Hlt ->]])]; cbn;
      (eapply keeps_put; [done |]; intros Hc%completed_state; done).
  - pose proof (admit_keeps lo hi (in_table i) (in_retention i) c3 inbox_retention_error
      "memory inbox record capacity is exhausted" Hi Hf Hp Hr) as Ha.
    pose proof (admit_absent (in_table i) (in_retention i) (clock_ms c3) inbox_retention_error
      "memory inbox record capacity is exhausted" id Hi Hid) as Hn.
    destruct (admit_record _ _ _ _ _ _ _) as [[[]|err] t]; cbn [snd in_table set_inbox] in *; [| done].
    rewrite Hn. eapply keeps_trans; [exact Ha |].
    pose proof (insert_keeps lo t id (fun identity => snd (try_claim_generation_until (claimed identity) e (now_unix_millis c2))) Hn) as Hins.
    by destruct (insert_reserved t id _) as [[[]|err] t'].
Qed.
End inbox_period.

(** ** What the behaviors rely on

    [recorded k b]: the response of [k] is kept as the bytes [b].  [R] is how the world may change
    between two accesses of a delivery, and [inv] holds throughout. *)

Section laws.
Context {W : Type} (inv : W -> Prop) (R : W -> W -> Prop).

Class Recorded {K : Type} (recorded : K -> list Z -> W -> Prop) : Prop := {
  rd_inv w w' : R w w' -> inv w -> inv w';
  rd_later k b w w' : R w w' -> inv w -> recorded k b w -> recorded k b w';
  rd_unique k b b' w : recorded k b w -> recorded k b' w -> b = b'
}.

Class InboxLaws `{!InboxStore (W := W)} (recorded : Z -> list Z -> W -> Prop) : Prop := {
  il_recorded :: Recorded recorded;
  il_claim id lease w : inv w ->
    rg R R (fun x w1 => inv w1 /\ forall c, x = Some (Ok (Some c)) -> claim_message_id c = id) (ib_try_claim_for id lease) w;
  il_complete c b w : inv w ->
    rg R R (fun x w1 => inv w1 /\ (x = Some (Ok tt) -> recorded (claim_message_id c) b w1)) (ib_complete c (Some b)) w;
  il_fail c w : inv w -> rg R R (fun _ => inv) (ib_fail c) w;
  il_result id w : inv w ->
    rg R R (fun x w1 => inv w1 /\ forall b, x = Some (Ok (Some b)) -> recorded id b w1) (ib_result id) w
}.

Class IdempotencyLaws `{!IdempotencyStore (W := W)} (recorded : string -> list Z -> W -> Prop) : Prop := {
  dl_recorded :: Recorded recorded;
  dl_claim key w : inv w -> rg R R (fun _ => inv) (ip_try_claim key) w;
  dl_complete key b w : inv w ->
    rg R R (fun x w1 => inv w1 /\ (x = Some (Ok tt) -> recorded key b w1)) (ip_complete key (Some b)) w;
  dl_fail key w : inv w -> rg R R (fun _ => inv) (ip_fail key) w;
  dl_result key w : inv w ->
    rg R R (fun x w1 => inv w1 /\ forall b, x = Some (Ok (Some b)) -> recorded key b w1) (ip_result key) w
}.

Lemma rd_inv_rtc {K} (recorded : K -> list Z -> W -> Prop) `{!Recorded recorded} w w' : rtc R w w' -> inv w -> inv w'.
Proof. intros Hr. induction Hr as [|w1 w2 w3 H12 _ IH]; [done |]. intros Hi. by apply IH, (rd_inv w1). Qed.

Lemma rd_later_rtc {K} (recorded : K -> list Z -> W -> Prop) `{!Recorded recorded} k b w w' :
  rtc R w w' -> inv w -> recorded k b w -> recorded k b w'.
Proof.
  intros Hr. induction Hr as [|w1 w2 w3 H12 _ IH]; [done |]. intros Hi Hb. apply IH; [by apply (rd_inv w1) |].
  by apply (rd_later k b w1).
Qed.

(** *** A delivery that ends well has its response on record *)

Section delivery.
Context {M Resp K : Type} (codec : ResultCodec (R := Resp)) (recorded : K -> list Z -> W -> Prop) `{!Recorded recorded}.
Hypothesis (Hcodec : forall r b, rc_encode codec r = Ok b -> rc_decode codec b = Ok r).

Definition answered (k : K) (x : option (CatgaResult Resp)) (w : W) : Prop :=
  forall r, x = Some (Ok r) -> exists b, rc_decode codec b = Ok r /\ recorded k b w.

Lemma rg_answer k (x : CatgaResult Resp) w :
  inv w -> answered k (Some x) w -> rg R R (answered k) (Done x) w.
Proof.
  intros Hi Hx w1 Hw r E. destruct (Hx r E) as (b & Hb & Hr). exists b. split; [done |].
  by eapply (rd_later_rtc recorded).
Qed.

Lemma rg_refused k e w : rg R R (answered k) (Done (Err e)) w.
Proof. by intros w1 _ r [=]. Qed.

Lemma rg_next_result what (t : Task W (CatgaResult Resp)) w :
  rg R R (fun _ => inv) t w -> rg R R (fun _ => inv) (next_result what t) w.
Proof.
  intros Ht. eapply (rg_bind R R (fun _ => inv)); [by eapply rg_catch | | done].
  intros x w1 Hi w2 Hw. by eapply (rd_inv_rtc recorded).
Qed.

(** Two good responses to one key are the same. *)
Lemma answered_agree k r r' w : answered k (Some (Ok r)) w -> answered k (Some (Ok r')) w -> r = r'.
Proof.
  intros H1 H2. destruct (H1 r eq_refl) as (b & Hb & Hr), (H2 r' eq_refl) as (b' & Hb' & Hr').
  pose proof (rd_unique k b b' w Hr Hr'). congruence.
Qed.

(** What both behaviors do with the response of the handler *)
Lemma rg_settle k (result : CatgaResult Resp) (refuse : CatgaError -> Task W (CatgaResult Resp))
    (finish : list Z -> Task W (CatgaResult unit)) w :
  inv w -> (forall e, rg R R (answered k) (refuse e) w) ->
  (forall b, rg R R (fun x w1 => inv w1 /\ (x = Some (Ok tt) -> recorded k b w1)) (finish b) w) ->
  rg R R (answered k)
    match result with
    | Err error => refuse error
    | Ok response =>
        match rc_encode codec response with
        | Err error => refuse error
        | Ok cached => await? _ := finish cached in Done (Ok response)
        end
    end w.
Proof.
  intros Hi Hrefuse Hfinish. destruct result as [response|error]; [| done].
  destruct (rc_encode codec response) as [b|error] eqn:E; [| done].
  eapply rg_bind; [apply Hfinish | | by intros w1 _ r [=]].
  intros [[]|e] w1 [Hi1 Hb]; [| apply rg_refused]. apply rg_answer; [done |].
  intros r [= <-]. exists b. split; [by apply Hcodec | by apply Hb].
Qed.
End delivery.

Lemma inbox_answered {M Resp} (codec : ResultCodec (R := Resp)) `{!InboxStore (W := W)} recorded `{!InboxLaws recorded}
    lease (message_id : M -> Z) cx m nx w :
  (forall r b, rc_encode codec r = Ok b -> rc_decode codec b = Ok r) ->
  (forall cx m w, inv w -> rg R R (fun _ => inv) (nx cx m) w) ->
  message_id m <> 0 -> inv w ->
  rg R R (answered codec recorded (message_id m)) (InboxBehavior codec lease message_id cx m nx) w.
Proof.
  intros Hcodec Hnx Hid Hi. unfold InboxBehavior. destruct (Z.eqb_spec (message_id m) 0) as [|_]; [done |].
  eapply rg_bind; [by apply il_claim | | by intros w1 _ r [=]].
  intros [[claim|]|e] w1 [Hi1 Hclaim]; [| | apply (rg_refused codec recorded)].
  - specialize (Hclaim _ eq_refl). eapply rg_bind; [by apply (rg_next_result recorded), Hnx | | by intros w2 _ r [=]].
    intros result w2 Hi2. apply (rg_settle codec recorded Hcodec (message_id m) result (inbox_fail_claim claim)
      (fun b => ib_complete claim (Some b))); [done | |].
    + intros e. eapply rg_bind; [by apply il_fail | | by intros w3 _ r [=]]. intros x w3 _. apply (rg_refused codec recorded).
    + intros b. rewrite <-Hclaim. by apply il_complete.
  - eapply rg_bind; [by apply il_result | | by intros w2 _ r [=]].
    intros [[b|]|e] w2 [Hi2 Hb]; [| apply (rg_refused codec recorded)..].
    apply (rg_answer codec recorded); [done |]. intros r [= E]. eauto.
Qed.

Lemma idempotency_answered {M Resp} (codec : ResultCodec (R := Resp)) `{!IdempotencyStore (W := W)} recorded
    `{!IdempotencyLaws recorded} (key_of : M -> string) cx m nx w :
  (forall r b, rc_encode codec r = Ok b -> rc_decode codec b = Ok r) ->
  (forall cx m w, inv w -> rg R R (fun _ => inv) (nx cx m) w) -> inv w ->
  rg R R (answered codec recorded (key_of m)) (IdempotencyBehavior codec key_of cx m nx) w.
Proof.
  intros Hcodec Hnx Hi. unfold IdempotencyBehavior.
  eapply rg_bind; [by apply dl_claim | | by intros w1 _ r [=]].
  intros [[|]|e] w1 Hi1; [| | apply (rg_refused codec recorded)].
  - eapply rg_bind; [by apply (rg_next_result recorded), Hnx | | by intros w2 _ r [=]].
    intros result w2 Hi2. apply (rg_settle codec recorded Hcodec (key_of m) result (idempotency_fail_claim (key_of m))
      (fun b => ip_complete (key_of m) (Some b))); [done | |].
    + intros e. eapply rg_bind; [by apply dl_fail | | by intros w3 _ r [=]]. intros x w3 _. apply (rg_refused codec recorded).
    + intros b. by apply dl_complete.
  - eapply rg_bind; [by apply dl_result | | by intros w2 _ r [=]].
    intros [[b|]|e] w2 [Hi2 Hb]; [| apply (rg_refused codec recorded)..].
    apply (rg_answer codec recorded); [done |]. intros r [= E]. eauto.
Qed.
End laws.
Arguments rd_inv {W inv R K recorded _}.
Arguments rd_later {W inv R K recorded _}.
Arguments rd_unique {W inv R K recorded _}.

(** ** The in-memory stores keep these promises for a retention period *)

Section idem_period.
Context `{!MapIter string} (lo hi : Z).

Lemma idem_claim_keeps i key c :
  claims_inv 0 (id_table i) -> stamps_from lo (id_table i) -> in_period lo hi c ->
  hi - lo <= as_millis (id_retention i) ->
  keeps lo (id_table i) (id_table (snd (idem_try_claim i key c))).
Proof.
  intros Hi Hf Hp Hr. unfold idem_try_claim. destruct (records (id_table i) !! key) as [r|] eqn:Hk.
  - unfold idem_claim_record. pose proof (ki_rest _ _ Hi _ _ Hk) as Hw.
    destruct (try_claim_rest r Hw) as [[_ ->]|[Hst ->]]; cbn; (eapply keeps_put; [done |]); [done |].
    intros Hc%completed_state. congruence.
  - pose proof (admit_keeps lo hi (id_table i) (id_retention i) c idem_retention_error
      "memory idempotency record capacity is exhausted" Hi Hf Hp Hr) as Ha.
    pose proof (admit_absent (id_table i) (id_retention i) (clock_ms c) idem_retention_error
      "memory idempotency record capacity is exhausted" key Hi Hk) as Hn.
    destruct (admit_record _ _ _ _ _ _ _) as [[[]|err] t]; cbn [snd id_table set_idem] in *; [| done].
    rewrite Hn. eapply keeps_trans; [exact Ha |].
    pose proof (insert_keeps lo t key claimed Hn) as Hins. by destruct (insert_reserved t key _) as [[[]|err] t'].
Qed.
End idem_period.

Section memory.
Context {App : Type} `{!MapIter Z} `{!MapIter string} (lo hi : Z).
Implicit Types w : World App.

(** A table with its retention, in the period *)
Record store_ok {K} `{Countable K} (t : Table K ClaimRecord) (retention : Duration) : Prop := {
  so_claims : claims_inv 0 t;
  so_stamps : stamps_from lo t;
  so_retention : hi - lo <= as_millis retention
}.

Record World_inv w : Prop := {
  wi_inbox : store_ok (in_table (w_inbox w)) (in_retention (w_inbox w));
  wi_keys : store_ok (id_table (w_keys w)) (id_retention (w_keys w));
  wi_clock : forall n, in_period lo hi (w_clock w n)
}.

Definition evolves w w' : Prop :=
  World_inv w ->
  World_inv w'
  /\ keeps lo (in_table (w_inbox w)) (in_table (w_inbox w'))
  /\ keeps lo (id_table (w_keys w)) (id_table (w_keys w')).

(** What happens outside the deliveries: the clock moves within the period, the application goes
    on, and retention runs. *)
Inductive surroundings : World App -> World App -> Prop :=
| sr_clock w c : (forall n, in_period lo hi (c n)) -> surroundings w (put_clock c w)
| sr_app w a : surroundings w (put_app a w)
| sr_inbox w retention limit : hi - lo <= as_millis retention ->
    surroundings w (put_inbox (snd (inbox_cleanup_completed (w_inbox w) retention limit (w_clock w 0%nat))) w)
| sr_keys w limit :
    surroundings w (put_keys (snd (idem_cleanup_completed (w_keys w) limit (w_clock w 0%nat))) w).

Lemma evolves_app w a : evolves w (put_app a w).
Proof. intros [H1 H2 H3]. split; [by split | done]. Qed.

Lemma keeps_ok {K} `{Countable K} (t t' : Table K ClaimRecord) retention :
  store_ok t retention -> claims_inv 0 t' -> keeps lo t t' -> store_ok t' retention.
Proof. intros [H1 H2 H3] Hc [_ Hk]. split; auto. Qed.

(** An access to a store *)
Lemma evolves_inbox w i' :
  (World_inv w -> istep (w_inbox w) i' /\ keeps lo (in_table (w_inbox w)) (in_table i')) ->
  in_retention i' = in_retention (w_inbox w) -> evolves w (put_inbox i' w).
Proof.
  intros Hs Hr Hw. destruct (Hs Hw) as [Hi Hk]. destruct Hw as [H1 H2 H3]. split; [| done].
  split; [| done | done]. cbn. rewrite Hr. eapply keeps_ok; [done | | done].
  eapply istep_inv; [apply H1 | done].
Qed.

Lemma evolves_keys w i' :
  (World_inv w -> dstep (w_keys w) i' /\ keeps lo (id_table (w_keys w)) (id_table i')) ->
  id_retention i' = id_retention (w_keys w) -> evolves w (put_keys i' w).
Proof.
  intros Hs Hr Hw. destruct (Hs Hw) as [Hi Hk]. destruct Hw as [H1 H2 H3]. split; [| done].
  split; [done | | done]. cbn. rewrite Hr. eapply keeps_ok; [done | | done].
  eapply dstep_inv; [apply H2 | done].
Qed.

Lemma surroundings_evolve w w' : surroundings w w' -> evolves w w'.
Proof.
  intros [w0 c Hc|w0 a|w0 retention limit Hr|w0 limit].
  - intros [H1 H2 H3]. split; [by split | done].
  - apply evolves_app.
  - apply evolves_inbox; [| unfold inbox_cleanup_completed; by destruct (cleanup _ _ _ _ _ _ _)].
    intros [[I1 I2 I3] H2 H3]. split; [constructor |].
    pose proof (cleanup_keeps lo hi (in_table (w_inbox w0)) retention limit (w_clock w0 0%nat) inbox_retention_error I1 I2 (H3 0%nat) Hr).
    unfold inbox_cleanup_completed. by destruct (cleanup _ _ _ _ _ _ _).
  - apply evolves_keys; [| unfold idem_cleanup_completed; by destruct (cleanup _ _ _ _ _ _ _)].
    intros [H1 [I1 I2 I3] H3]. split; [constructor |].
    pose proof (cleanup_keeps lo hi (id_table (w_keys w0)) (id_retention (w_keys w0)) limit (w_clock w0 0%nat) idem_retention_error I1 I2 (H3 0%nat) I3).
    unfold idem_cleanup_completed. by destruct (cleanup _ _ _ _ _ _ _).
Qed.

(** The retention of a store never changes. *)
Lemma inbox_claim_retention i id lease c1 c2 c3 : in_retention (snd (inbox_try_claim_for i id lease c1 c2 c3)) = in_retention i.
Proof.
  unfold inbox_try_claim_for, inbox_claim_record. destruct (inbox_claim_expires_at lease c1); [| done].
  destruct (records (in_table i) !! id); [by destruct (try_claim_generation_until _ _ _) |].
  destruct (admit_record _ _ _ _ _ _ _) as [[[]|] t]; [| done].
  destruct (records t !! id); [by destruct (try_claim_generation_until _ _ _) | by destruct (insert_reserved _ _ _)].
Qed.

Lemma idem_claim_retention i key c : id_retention (snd (idem_try_claim i key c)) = id_retention i.
Proof.
  unfold idem_try_claim, idem_claim_record. destruct (records (id_table i) !! key); [by destruct (try_claim _) |].
  destruct (admit_record _ _ _ _ _ _ _) as [[[]|] t]; [| done].
  destruct (records t !! key); [by destruct (try_claim _) | by destruct (insert_reserved _ _ _)].
Qed.

Definition inbox_recorded (id : Z) (b : list Z) w : Prop :=
  exists r, records (in_table (w_inbox w)) !! id = Some r /\ is_completed r = true /\ claim_result r = Some b.
Definition key_recorded (key : string) (b : list Z) w : Prop :=
  exists r, records (id_table (w_keys w)) !! key = Some r /\ is_completed r = true /\ claim_result r = Some b.

#[local] Instance inbox_is_recorded : Recorded World_inv evolves inbox_recorded.
Proof.
  split.
  - intros w w' Hr Hi. by apply Hr.
  - intros id b w w' Hr Hi (r & Hk & Hc & Hb). destruct (Hr Hi) as (_ & [Hkeep _] & _). exists r. eauto.
  - intros id b b' w (r & Hk & Hc & Hb) (r' & Hk' & Hc' & Hb'). congruence.
Qed.

#[local] Instance keys_are_recorded : Recorded World_inv evolves key_recorded.
Proof.
  split.
  - intros w w' Hr Hi. by apply Hr.
  - intros id b w w' Hr Hi (r & Hk & Hc & Hb). destruct (Hr Hi) as (_ & _ & [Hkeep _]). exists r. eauto.
  - intros id b b' w (r & Hk & Hc & Hb) (r' & Hk' & Hc' & Hb'). congruence.
Qed.

(** One access: it evolves the world, and what it establishes lasts. *)
Lemma rg_access {A} (Q : A -> World App -> Prop) (f : World App -> A * World App) w :
  World_inv w -> (forall w1, World_inv w1 -> evolves w1 (snd (f w1)) /\ Q (fst (f w1)) (snd (f w1))) ->
  (forall x w1 w2, evolves w1 w2 -> World_inv w1 -> Q x w1 -> Q x w2) ->
  rg evolves evolves (fun x w1 => World_inv w1 /\ forall a, x = Some a -> Q a w1) (atomically f) w.
Proof.
  intros Hi Hf Hlast. apply rg_atomically. intros w1 Hw. pose proof (rd_inv_rtc _ _ inbox_recorded _ _ Hw Hi) as Hi1.
  destruct (Hf w1 Hi1) as [He HQ]. split; [done |]. split; [done |]. intros w2 Hw2.
  assert (World_inv (snd (f w1))) as Hi' by by apply He.
  split; [by apply (rd_inv_rtc _ _ inbox_recorded _ _ Hw2) |]. intros a [= <-].
  clear Hf He. induction Hw2 as [|x y z Hxy _ IH]; [done |]. apply IH; [by apply (Hlast _ x) | by apply Hxy].
Qed.

Lemma rg_on_inbox {A} (Q : A -> World App -> Prop) (f : World App -> A * MemoryInbox) w :
  World_inv w ->
  (forall w1, World_inv w1 -> evolves w1 (put_inbox (snd (f w1)) w1) /\ Q (fst (f w1)) (put_inbox (snd (f w1)) w1)) ->
  (forall x w1 w2, evolves w1 w2 -> World_inv w1 -> Q x w1 -> Q x w2) ->
  rg evolves evolves (fun x w1 => World_inv w1 /\ forall a, x = Some a -> Q a w1) (on_inbox f) w.
Proof.
  intros Hi Hf Hl. apply rg_access; [done | | done]. intros w1 Hw1. specialize (Hf w1 Hw1). by destruct (f w1).
Qed.

Lemma rg_on_keys {A} (Q : A -> World App -> Prop) (f : World App -> A * MemoryIdempotency) w :
  World_inv w ->
  (forall w1, World_inv w1 -> evolves w1 (put_keys (snd (f w1)) w1) /\ Q (fst (f w1)) (put_keys (snd (f w1)) w1)) ->
  (forall x w1 w2, evolves w1 w2 -> World_inv w1 -> Q x w1 -> Q x w2) ->
  rg evolves evolves (fun x w1 => World_inv w1 /\ forall a, x = Some a -> Q a w1) (on_keys f) w.
Proof.
  intros Hi Hf Hl. apply rg_access; [done | | done]. intros w1 Hw1. specialize (Hf w1 Hw1). by destruct (f w1).
Qed.

Lemma complete_record_done {K} `{Countable K} (t : Table K ClaimRecord) k f clock m1 m2 v :
  claims_inv 0 t -> fst (complete_record t k f clock m1 m2) = Ok tt ->
  (forall r, rest_wf r -> f r = (false, r) \/ (cstate r = CLAIMED /\ f r = finish_complete r v)) ->
  exists r, records (snd (complete_record t k f clock m1 m2)) !! k = Some r /\ is_completed r = true /\ claim_result r = v.
Proof.
  intros Ht Hok Hf. unfold complete_record in *. destruct (records t !! k) as [r|] eqn:Hk; [| done].
  pose proof (ki_rest _ _ Ht _ _ Hk) as Hw. destruct (Hf r Hw) as [E|[Hst E]]; rewrite E in *; [done |].
  rewrite finish_complete_rest in * by done. cbn. rewrite lookup_insert_eq. by eexists.
Qed.

Lemma inbox_claim_id i id lease c1 c2 c3 c :
  fst (inbox_try_claim_for i id lease c1 c2 c3) = Ok (Some c) -> claim_message_id c = id.
Proof.
  assert (forall o, o ≫= InboxClaim_new id = Some c -> claim_message_id c = id) as Hnew.
  { intros [g|]; simpl; [| done]. unfold InboxClaim_new. destruct (g =? 0); [done |]. by intros [= <-]. }
  unfold inbox_try_claim_for, inbox_claim_record. destruct (inbox_claim_expires_at lease c1); [| done].
  destruct (records (in_table i) !! id).
  { destruct (try_claim_generation_until _ _ _). cbn. intros [= E]. eauto. }
  destruct (admit_record _ _ _ _ _ _ _) as [[[]|] t]; [| done]. destruct (records t !! id).
  - destruct (try_claim_generation_until _ _ _). cbn. intros [= E]. eauto.
  - destruct (insert_reserved _ _ _) as [[]]; cbn; [| done]. intros [= E]. eauto.
Qed.

(** *** Each access evolves the world *)

Lemma inbox_claim_evolves w id lease c1 c2 n :
  evolves w (put_inbox (snd (inbox_try_claim_for (w_inbox w) id lease c1 c2 (w_clock w n))) w).
Proof.
  apply evolves_inbox; [| apply inbox_claim_retention]. intros [[] ? Hclk]. split; [constructor |].
  by eapply inbox_claim_keeps.
Qed.

Lemma inbox_complete_evolves w c v n : evolves w (put_inbox (snd (inbox_complete (w_inbox w) c v (w_clock w n))) w).
Proof.
  apply evolves_inbox; [| unfold inbox_complete; by destruct (complete_record _ _ _ _ _ _)].
  intros [[Hc _ _] _ Hclk]. split; [constructor |].
  pose proof (complete_record_keeps lo hi 0 _ (claim_message_id c) (fun r => complete_for r (claim_generation c) v)
    (w_clock w n) inbox_missing inbox_conflict v Hc (Hclk n) (fun r => complete_for_cases r _ _)) as Hk.
  unfold inbox_complete. by destruct (complete_record _ _ _ _ _ _).
Qed.

Lemma inbox_fail_evolves w c : evolves w (put_inbox (snd (inbox_fail (w_inbox w) c)) w).
Proof.
  apply evolves_inbox; [| unfold inbox_fail; by destruct (fail_record _ _ _ _ _)].
  intros [[Hc _ _] _ Hclk]. split; [constructor |].
  pose proof (fail_record_keeps lo 0 _ (claim_message_id c) (fun r => fail_for r (claim_generation c))
    inbox_missing inbox_conflict Hc (fun r => fail_for_cases r _)) as Hk.
  unfold inbox_fail. by destruct (fail_record _ _ _ _ _).
Qed.

Lemma idem_claim_evolves w key n : evolves w (put_keys (snd (idem_try_claim (w_keys w) key (w_clock w n))) w).
Proof.
  apply evolves_keys; [| apply idem_claim_retention]. intros [? [] Hclk]. split; [constructor |].
  by eapply idem_claim_keeps.
Qed.

Lemma idem_complete_evolves w key v n : evolves w (put_keys (snd (idem_complete (w_keys w) key v (w_clock w n))) w).
Proof.
  apply evolves_keys; [| unfold idem_complete; by destruct (complete_record _ _ _ _ _ _)].
  intros [_ [Hc _ _] Hclk]. split; [constructor |].
  pose proof (complete_record_keeps lo hi 0 _ key (fun r => complete r v) (w_clock w n) idem_missing idem_conflict v
    Hc (Hclk n) (fun r => complete_cases r _)) as Hk.
  unfold idem_complete. by destruct (complete_record _ _ _ _ _ _).
Qed.

Lemma idem_fail_evolves w key : evolves w (put_keys (snd (idem_fail (w_keys w) key)) w).
Proof.
  apply evolves_keys; [| unfold idem_fail; by destruct (fail_record _ _ _ _ _)].
  intros [_ [Hc _ _] Hclk]. split; [constructor |].
  pose proof (fail_record_keeps lo 0 _ key claim_fail idem_missing idem_conflict Hc claim_fail_cases) as Hk.
  unfold idem_fail. by destruct (fail_record _ _ _ _ _).
Qed.

(** *** and establishes what it reports *)

Lemma inbox_complete_recorded w c b n :
  World_inv w -> fst (inbox_complete (w_inbox w) c (Some b) (w_clock w n)) = Ok tt ->
  inbox_recorded (claim_message_id c) b (put_inbox (snd (inbox_complete (w_inbox w) c (Some b) (w_clock w n))) w).
Proof.
  intros Hw. unfold inbox_complete, inbox_recorded.
  pose proof (complete_record_done (in_table (w_inbox w)) (claim_message_id c) (fun r => complete_for r (claim_generation c) (Some b))
    (w_clock w n) inbox_missing inbox_conflict (Some b) (so_claims _ _ (wi_inbox _ Hw))) as Hd.
  destruct (complete_record _ _ _ _ _ _) as [x t]. cbn in *. intros ->. apply Hd; [done |]. intros r. apply complete_for_cases.
Qed.

Lemma idem_complete_recorded w key b n :
  World_inv w -> fst (idem_complete (w_keys w) key (Some b) (w_clock w n)) = Ok tt ->
  key_recorded key b (put_keys (snd (idem_complete (w_keys w) key (Some b) (w_clock w n))) w).
Proof.
  intros Hw. unfold idem_complete, key_recorded.
  pose proof (complete_record_done (id_table (w_keys w)) key (fun r => complete r (Some b))
    (w_clock w n) idem_missing idem_conflict (Some b) (so_claims _ _ (wi_keys _ Hw))) as Hd.
  destruct (complete_record _ _ _ _ _ _) as [x t]. cbn in *. intros ->. apply Hd; [done |]. intros r. apply complete_cases.
Qed.

Lemma result_recorded {K} `{Countable K} (t : Table K ClaimRecord) k b :
  record_result t k = Some b -> exists r, records t !! k = Some r /\ is_completed r = true /\ claim_result r = Some b.
Proof.
  unfold record_result. destruct (records t !! k) as [r|]; [| done]. cbn. intros E. exists r. split_and!; [done | | done].
  unfold is_completed, claim_state_of. unfold claim_result in E. by destruct (cstate r).
Qed.

Lemma last_recorded {K A} (recorded : K -> list Z -> World App -> Prop) `{!Recorded World_inv evolves recorded} (P : A -> list Z -> Prop) k x w1 w2 :
  evolves w1 w2 -> World_inv w1 -> (forall b, P x b -> recorded k b w1) -> forall b, P x b -> recorded k b w2.
Proof. intros He Hi Hx b Hb. apply (rd_later k b w1); auto. Qed.

#[local] Instance memory_inbox_laws : InboxLaws World_inv evolves inbox_recorded.
Proof.
  split; [apply _ | ..].
  - intros id lease w Hi. eapply rg_mono.
    + apply (rg_on_inbox (fun x _ => forall c, x = Ok (Some c) -> claim_message_id c = id)); [done | | done].
      intros w1 Hw1. split; [apply inbox_claim_evolves | intros c; apply inbox_claim_id].
    + intros x w1 [Hi1 Hx]. split; [done |]. intros c ->. eauto.
  - intros c b w Hi. eapply rg_mono.
    + apply (rg_on_inbox (fun x w => forall b', x = Ok tt /\ b = b' -> inbox_recorded (claim_message_id c) b' w)); [done | |].
      * intros w1 Hw1. split; [apply inbox_complete_evolves | intros b' [? <-]; by apply inbox_complete_recorded].
      * intros x w1 w2 He Hi1 Hx. by apply (last_recorded inbox_recorded (fun x b' => x = Ok tt /\ b = b') _ x w1).
    + intros x w1 [Hi1 Hx]. split; [done |]. intros ->. by apply (Hx _ eq_refl).
  - intros c w Hi. eapply rg_mono; [apply (rg_on_inbox (fun _ _ => True)); [done | | done] | by intros x w1 []].
    intros w1 _. split; [apply inbox_fail_evolves | done].
  - intros id w Hi. eapply rg_mono.
    + apply (rg_on_inbox (fun x w => forall b, x = Ok (Some b) -> inbox_recorded id b w)); [done | |].
      * intros w1 Hw1. split; [by intros [] |]. intros b [= E]. by apply result_recorded.
      * intros x w1 w2 He Hi1 Hx. by apply (last_recorded inbox_recorded (fun x b => x = Ok (Some b)) _ x w1).
    + intros x w1 [Hi1 Hx]. split; [done |]. intros b ->. by apply (Hx _ eq_refl).
Qed.

#[local] Instance memory_idempotency_laws : IdempotencyLaws World_inv evolves key_recorded.
Proof.
  split; [apply _ | ..].
  - intros key w Hi. eapply rg_mono; [apply (rg_on_keys (fun _ _ => True)); [done | | done] | by intros x w1 []].
    intros w1 _. split; [apply idem_claim_evolves | done].
  - intros key b w Hi. eapply rg_mono.
    + apply (rg_on_keys (fun x w => forall b', x = Ok tt /\ b = b' -> key_recorded key b' w)); [done | |].
      * intros w1 Hw1. split; [apply idem_complete_evolves | intros b' [? <-]; by apply idem_complete_recorded].
      * intros x w1 w2 He Hi1 Hx. by apply (last_recorded key_recorded (fun x b' => x = Ok tt /\ b = b') _ x w1).
    + intros x w1 [Hi1 Hx]. split; [done |]. intros ->. by apply (Hx _ eq_refl).
  - intros key w Hi. eapply rg_mono; [apply (rg_on_keys (fun _ _ => True)); [done | | done] | by intros x w1 []].
    intros w1 _. split; [apply idem_fail_evolves | done].
  - intros key w Hi. eapply rg_mono.
    + apply (rg_on_keys (fun x w => forall b, x = Ok (Some b) -> key_recorded key b w)); [done | |].
      * intros w1 Hw1. split; [by intros [] |]. intros b [= E]. by apply result_recorded.
      * intros x w1 w2 He Hi1 Hx. by apply (last_recorded key_recorded (fun x b => x = Ok (Some b)) _ x w1).
    + intros x w1 [Hi1 Hx]. split; [done |]. intros b ->. by apply (Hx _ eq_refl).
Qed.

(** ** Properties *)

Section agreement.
Context {M Resp : Type} (codec : ResultCodec (R := Resp)) (handler : DispatchCtx -> M -> Task App (CatgaResult Resp))
  (lease : Duration) (message_id : M -> Z) (key_of : M -> string).
Hypothesis (Hcodec : forall r b, rc_encode codec r = Ok b -> rc_decode codec b = Ok r).

(** The rest of the pipeline, which does not use the stores *)
Definition in_app : Next (W := World App) M Resp := fun cx m => zoom w_app put_app (handler cx m).

Definition deliver_inbox (l : DispatchCtx * M) : Task (World App) (CatgaResult Resp) :=
  InboxBehavior codec lease message_id (fst l) (snd l) in_app.
Definition deliver_keyed (l : DispatchCtx * M) : Task (World App) (CatgaResult Resp) :=
  IdempotencyBehavior codec key_of (fst l) (snd l) in_app.

Lemma in_app_inv cx m w : World_inv w -> rg evolves evolves (fun _ => World_inv) (in_app cx m) w.
Proof.
  intros Hi. apply rg_zoom; [intros; apply evolves_app | | | done].
  - intros w1 v Hw1. by apply evolves_app.
  - intros w1 w2 Hr Hw1. by apply Hr.
Qed.

(** A record that answers a delivery answers the next one, which changes nothing. *)
Lemma inbox_replays l b r e w :
  inbox_recorded (message_id (snd l)) b w -> rc_decode codec b = Ok r -> message_id (snd l) <> 0 ->
  inbox_claim_expires_at lease (w_clock w 0%nat) = Ok e ->
  run_alone (deliver_inbox l) w = (Some (Ok r), w).
Proof.
  intros (x & Hx & Hc%completed_state & Hb) Hr Hid He. unfold deliver_inbox, InboxBehavior.
  destruct (Z.eqb_spec (message_id (snd l)) 0); [done |]. cbn.
  assert (inbox_try_claim_for (w_inbox w) (message_id (snd l)) lease (w_clock w 0%nat) (w_clock w 1%nat) (w_clock w 2%nat)
    = (Ok None, w_inbox w)) as E.
  { unfold inbox_try_claim_for, inbox_claim_record. rewrite He, Hx. unfold try_claim_generation_until. rewrite Hc. cbn.
    rewrite put_id by done. by destruct (w_inbox w). }
  rewrite E. cbn. unfold record_result. rewrite Hx. cbn. rewrite Hb, Hr. by destruct w.
Qed.

Lemma key_replays l b r w :
  key_recorded (key_of (snd l)) b w -> rc_decode codec b = Ok r -> run_alone (deliver_keyed l) w = (Some (Ok r), w).
Proof.
  intros (x & Hx & Hc%completed_state & Hb) Hr. unfold deliver_keyed, IdempotencyBehavior. cbn.
  assert (idem_try_claim (w_keys w) (key_of (snd l)) (w_clock w 0%nat) = (Ok false, w_keys w)) as E.
  { unfold idem_try_claim, idem_claim_record, try_claim, try_claim_inner. rewrite Hx, Hc. cbn.
    rewrite put_id by done. by destruct (w_keys w). }
  rewrite E. cbn. unfold record_result. rewrite Hx. cbn. rewrite Hb, Hr. by destruct w.
Qed.

Lemma deliver_inbox_rg l w :
  World_inv w ->
  rg evolves evolves (fun x w1 => message_id (snd l) <> 0 -> answered codec inbox_recorded (message_id (snd l)) x w1)
    (deliver_inbox l) w.
Proof.
  intros Hw. destruct (decide (message_id (snd l) = 0)) as [Hz|Hz].
  - eapply (rg_mono _ _ (fun _ => World_inv)); [| by intros].
    unfold deliver_inbox, InboxBehavior. rewrite Hz.
    by apply (rg_next_result World_inv evolves inbox_recorded), in_app_inv.
  - eapply rg_mono; [by apply (inbox_answered World_inv evolves codec inbox_recorded); eauto using in_app_inv | by auto].
Qed.

(** C4: Within a retention period all deliveries of a message that succeed give the same response,
    however many run at once, in whatever order their steps come, whichever of them are dropped,
    also when a lease runs out and the handler runs again; and once one has succeeded, a delivery
    of the message gives its response without running the handler or changing anything. *)
Theorem inbox_agreement w0 w pool i l r :
  World_inv w0 -> rtc (pool_step surroundings deliver_inbox) (w0, []) (w, pool) ->
  pool !! i = Some (l, Finished (Ok r)) -> message_id (snd l) <> 0 ->
  (forall j l' r', pool !! j = Some (l', Finished (Ok r')) -> message_id (snd l') = message_id (snd l) -> r' = r)
  /\ forall l' e, message_id (snd l') = message_id (snd l) -> inbox_claim_expires_at lease (w_clock w 0%nat) = Ok e ->
       run_alone (deliver_inbox l') w = (Some (Ok r), w).
Proof.
  intros Hi0 Hr Hl Hid.
  destruct (pool_sound evolves surroundings deliver_inbox World_inv
    (fun l x w1 => message_id (snd l) <> 0 -> answered codec inbox_recorded (message_id (snd l)) x w1)
    surroundings_evolve (fun w w' H Hw => proj1 (H Hw)) deliver_inbox_rg _ _ _ Hi0 Hr) as [Hi Hpool].
  assert (forall j l' r', pool !! j = Some (l', Finished (Ok r')) -> message_id (snd l') = message_id (snd l) ->
    answered codec inbox_recorded (message_id (snd l)) (Some (Ok r')) w) as Hans.
  { intros j l' r' Hj E. rewrite <-E. apply (Hpool _ _ _ Hj); [done | by rewrite E]. }
  split.
  - intros j l' r' Hj E. eapply (answered_agree World_inv evolves codec inbox_recorded); eauto.
  - intros l' e E He. destruct (Hans _ _ _ Hl eq_refl r eq_refl) as (b & Hb & Hrec). rewrite <-E in Hrec, Hid.
    by eapply inbox_replays.
Qed.

(** The same for deliveries under an idempotency key. *)
Theorem idempotency_agreement w0 w pool i l r :
  World_inv w0 -> rtc (pool_step surroundings deliver_keyed) (w0, []) (w, pool) ->
  pool !! i = Some (l, Finished (Ok r)) ->
  (forall j l' r', pool !! j = Some (l', Finished (Ok r')) -> key_of (snd l') = key_of (snd l) -> r' = r)
  /\ forall l', key_of (snd l') = key_of (snd l) -> run_alone (deliver_keyed l') w = (Some (Ok r), w).
Proof.
  intros Hi0 Hr Hl.
  destruct (pool_sound evolves surroundings deliver_keyed World_inv
    (fun l x w1 => answered codec key_recorded (key_of (snd l)) x w1)
    surroundings_evolve (fun w w' H Hw => proj1 (H Hw))
    (fun l w Hw => idempotency_answered World_inv evolves codec key_recorded key_of (fst l) (snd l) in_app w Hcodec in_app_inv Hw)
    _ _ _ Hi0 Hr) as [Hi Hpool].
  assert (forall j l' r', pool !! j = Some (l', Finished (Ok r')) -> key_of (snd l') = key_of (snd l) ->
    answered codec key_recorded (key_of (snd l)) (Some (Ok r')) w) as Hans.
  { intros j l' r' Hj E. rewrite <-E. by apply (Hpool _ _ _ Hj). }
  split.
  - intros j l' r' Hj E. eapply (answered_agree World_inv evolves codec key_recorded); eauto.
  - intros l' E. destruct (Hans _ _ _ Hl eq_refl r eq_refl) as (b & Hb & Hrec). rewrite <-E in Hrec.
    by eapply key_replays.
Qed.
End agreement.
End memory.

(** ** Abandoned idempotency keys

    A claim on a key has no lease: only the delivery that has it completes or fails it. *)

Section abandoned.
Context {App : Type} `{!MapIter Z} `{!MapIter string}.
Implicit Types w : World App.

Definition holds {K} `{Countable K} (k : K) (t : Table K ClaimRecord) : Prop :=
  exists r, records t !! k = Some r /\ cstate r = CLAIMED.

Definition held (key : string) w : Prop := claims_inv 0 (id_table (w_keys w)) /\ holds key (id_table (w_keys w)).

Definition stays_held (key : string) w w' : Prop := held key w -> held key w'.

Inductive anything : World App -> World App -> Prop :=
| an_clock w c : anything w (put_clock c w)
| an_app w a : anything w (put_app a w)
| an_inbox w i : anything w (put_inbox i w)
| an_keys w limit : anything w (put_keys (snd (idem_cleanup_completed (w_keys w) limit (w_clock w 0%nat))) w).

Lemma holds_put {K} `{Countable K} (k k' : K) t r : k <> k' -> holds k t -> holds k (put t k' r).
Proof. intros Hne (x & Hx & Hst). exists x. cbn. by rewrite lookup_insert_ne. Qed.

Lemma swept_holds {K} `{Countable K} (k : K) P (t t' : Table K ClaimRecord) :
  swept identity is_completed P t t' -> holds k t -> holds k t'.
Proof.
  intros Hsw (r & Hr & Hst). exists r. split; [| done]. destruct (records t' !! k) as [r'|] eqn:E.
  - pose proof (sw_records _ _ _ _ _ Hsw _ _ E). congruence.
  - destruct (sw_finished _ _ _ _ _ Hsw _ _ Hr E) as [Hc%completed_state _]. congruence.
Qed.

Lemma complete_record_holds {K} `{Countable K} (k k' : K) t f clock m1 m2 :
  k <> k' -> holds k t -> holds k (snd (complete_record t k' f clock m1 m2)).
Proof.
  intros Hne Hh. unfold complete_record. destruct (records t !! k') as [r|]; [| done].
  destruct (f r) as [[|] r']; cbn [snd]; by apply (holds_put k k' t).
Qed.

Lemma fail_record_holds {K} `{Countable K} (k k' : K) t f m1 m2 :
  k <> k' -> holds k t -> holds k (snd (fail_record t k' f m1 m2)).
Proof.
  intros Hne Hh. unfold fail_record. destruct (records t !! k') as [r|]; [| done].
  destruct (f r) as [[|] r']; cbn [snd]; by apply (holds_put k k' t).
Qed.

(** A claim of another key leaves it alone, a claim of the key itself is refused. *)
Lemma idem_claim_holds i key key' c :
  claims_inv 0 (id_table i) -> key <> key' -> holds key (id_table i) ->
  holds key (id_table (snd (idem_try_claim i key' c))).
Proof.
  intros Hi Hne Hh. unfold idem_try_claim, idem_claim_record. destruct (records (id_table i) !! key') as [r|].
  { destruct (try_claim r) as [ok r']. cbn [snd set_idem id_table]. by apply holds_put. }
  pose proof (admit_spec identity is_completed 0 (id_table i) (id_retention i) (clock_ms c) idem_retention_error
    "memory idempotency record capacity is exhausted" ltac:(done) (ki_table _ _ Hi)) as Ha.
  destruct (admit_record _ _ _ _ _ _ _) as [[[]|e] t]; cbn [snd set_idem id_table].
  2: { destruct Ha as [_ Ha]. by eapply swept_holds. }
  destruct Ha as (_ & Ha & _). pose proof (swept_holds key _ _ _ Ha Hh) as Ht.
  destruct (records t !! key') as [r|].
  { destruct (try_claim r) as [ok r']. cbn [snd set_idem id_table]. by apply holds_put. }
  unfold insert_reserved. destruct (sequence_next (record_sequence t)) as [[n|e] q]; cbn; [| done].
  destruct Ht as (x & Hx & Hst). exists x. cbn. by rewrite lookup_insert_ne.
Qed.

Lemma idem_claim_refused i key c : holds key (id_table i) -> idem_try_claim i key c = (Ok false, i).
Proof.
  intros (r & Hr & Hst). unfold idem_try_claim, idem_claim_record, try_claim, try_claim_inner. rewrite Hr, Hst. cbn.
  rewrite put_id by done. by destruct i.
Qed.

Lemma held_keys key w i' :
  (held key w -> dstep (w_keys w) i' /\ holds key (id_table i')) -> stays_held key w (put_keys i' w).
Proof. intros Hs Hh. destruct (Hs Hh) as [Hd Hk]. split; [| done]. eapply dstep_inv; [apply Hh | done]. Qed.

Lemma anything_held key w w' : anything w w' -> stays_held key w w'.
Proof.
  intros []; [by intros Hh.. |]. apply held_keys. intros [Hc Hh]. split; [constructor |]. unfold idem_cleanup_completed.
  pose proof (cleanup_spec identity is_completed 0 (id_table (w_keys w0)) (id_retention (w_keys w0)) limit (clock_ms (w_clock w0 0%nat))
    idem_retention_error ltac:(done) (ki_table _ _ Hc)) as Hcl.
  destruct (cleanup _ _ _ _ _ _ _) as [[n|e] t]; cbn; [| by subst]. destruct Hcl as (Hsw & _). by eapply swept_holds.
Qed.

(** An access of another key *)
Lemma rg_other {A} key (f : World App -> A * MemoryIdempotency) w :
  (forall w1, stays_held key w1 (put_keys (snd (f w1)) w1)) -> held key w -> rg (stays_held key) (stays_held key) (fun _ => held key) (on_keys f) w.
Proof.
  intros Hf Hw. assert (forall w1 w2, rtc (stays_held key) w1 w2 -> held key w1 -> held key w2) as Hr.
  { intros w1 w2 Hr. induction Hr; auto. }
  apply rg_atomically. intros w1 Hw1. specialize (Hf w1).
  destruct (f w1) as [a i]. cbn [fst snd] in *. split_and!; [by intros Hh1 | done |]. intros w2 Hw2. eauto.
Qed.

Section deliveries.
Context {M Resp : Type} (codec : ResultCodec (R := Resp)) (handler : DispatchCtx -> M -> Task App (CatgaResult Resp))
  (key_of : M -> string).

Definition key_conflict : CatgaResult Resp := fail Conflict "idempotency key is already claimed".

Abbreviation keyed := (deliver_keyed codec handler key_of).

Abbreviation calm key := (rg (stays_held key) (stays_held key) (fun _ => held key)).

Lemma claim_other key key' w : key <> key' -> held key w -> calm key (ip_try_claim key') w.
Proof.
  intros Hne. apply rg_other. intros w1. apply held_keys. intros [Hc Hh]. split; [constructor | by apply idem_claim_holds].
Qed.

Lemma complete_other key key' v w : key <> key' -> held key w -> calm key (ip_complete key' v) w.
Proof.
  intros Hne. apply rg_other. intros w1. apply held_keys. intros [_ Hh]. split; [constructor |]. unfold idem_complete.
  pose proof (complete_record_holds key key' (id_table (w_keys w1)) (fun r => complete r v) (w_clock w1 0%nat)
    idem_missing idem_conflict Hne Hh) as Hx.
  by destruct (complete_record _ _ _ _ _ _).
Qed.

Lemma fail_other key key' w : key <> key' -> held key w -> calm key (ip_fail key') w.
Proof.
  intros Hne. apply rg_other. intros w1. apply held_keys. intros [_ Hh]. split; [constructor |]. unfold idem_fail.
  pose proof (fail_record_holds key key' (id_table (w_keys w1)) claim_fail idem_missing idem_conflict Hne Hh) as Hx.
  by destruct (fail_record _ _ _ _ _).
Qed.

Lemma held_later key w w' : rtc (stays_held key) w w' -> held key w -> held key w'.
Proof. intros Hr. induction Hr; auto. Qed.

Lemma calm_done {A} key (a : A) w : held key w -> calm key (Done a) w.
Proof. intros Hw w1 Hw1. by eapply held_later. Qed.

Lemma calm_bind {A B} key (t : Task (World App) A) (k : A -> Task (World App) B) w :
  calm key t w -> (forall a w1, held key w1 -> calm key (k a) w1) -> calm key (tbind t k) w.
Proof. intros Ht Hk. by eapply rg_bind. Qed.

Lemma calm_app key cx m w : held key w -> calm key (in_app handler cx m) w.
Proof. intros Hw. by apply rg_zoom; try done; intros w1 w2 Hr. Qed.

Lemma other_delivery key l w : key_of (snd l) <> key -> held key w -> calm key (keyed l) w.
Proof.
  intros Hne Hw. unfold deliver_keyed, IdempotencyBehavior, tbind_ok.
  apply calm_bind; [by apply claim_other |]. intros [[|]|e] w1 Hw1; [| | by apply calm_done].
  - apply calm_bind.
    { apply calm_bind; [| intros; by apply calm_done]. eapply rg_catch; [by apply calm_app | done]. }
    assert (forall e w2, held key w2 -> calm key (idempotency_fail_claim (R := Resp) (key_of (snd l)) e) w2) as Hfail.
    { intros e w2 Hw2. apply calm_bind; [by apply fail_other | intros; by apply calm_done]. }
    intros [r|e] w2 Hw2; [| by apply Hfail]. destruct (rc_encode codec r) as [b|e]; [| by apply Hfail].
    apply calm_bind; [by apply complete_other |]. intros [[]|e] w3 Hw3; by apply calm_done.
  - apply calm_bind; [apply rg_other; [by intros w2 Hw2 | done] |].
    intros [[b|]|e] w2 Hw2; by apply calm_done.
Qed.

Lemma refused_delivery key l w :
  key_of (snd l) = key -> held key w ->
  rg (stays_held key) (stays_held key) (fun x _ => x = Some key_conflict) (keyed l) w.
Proof.
  intros <- Hw. unfold deliver_keyed, IdempotencyBehavior.
  eapply (rg_bind _ _ (fun x w1 => x = Some (Ok false) /\ held (key_of (snd l)) w1)); [| | by intros w1 []].
  - apply rg_atomically. intros w1 Hw1. pose proof (held_later _ _ _ Hw1 Hw) as Hh.
    rewrite idem_claim_refused by apply Hh. cbn. split_and!; [by intros H1 | by intros H1 |].
    intros w2 Hw2. split; [done |]. eapply held_later; [done |]. by destruct w1.
  - intros x w1 [[= ->] Hw1]. eapply (rg_bind _ _ (fun x w2 => x = Some (Ok None))); [| | done].
    + apply rg_atomically. intros w2 Hw2. pose proof (held_later _ _ _ Hw2 Hw1) as [_ (r & Hr & Hst)].
      split_and!; [by intros H2 | by intros H2 |]. intros w3 _. cbn. unfold idem_result, record_result. rewrite Hr.
      cbn. unfold claim_result. by rewrite Hst.
    + intros x w2 [= ->]. done.
Qed.

(** Once no delivery that claimed a key is left and the key is neither completed nor failed, it is
    never handled again: every later delivery of the key is refused with [Conflict], whatever time
    passes and whatever retention removes. *)
Theorem abandoned_key_refused w0 w pool key :
  held key w0 -> rtc (pool_step anything keyed) (w0, []) (w, pool) ->
  held key w /\ forall i l x, pool !! i = Some (l, Finished x) -> key_of (snd l) = key -> x = key_conflict.
Proof.
  intros Hw0 Hr.
  destruct (pool_sound (stays_held key) anything keyed (held key) (fun l x _ => key_of (snd l) = key -> x = Some key_conflict)
    (anything_held key) (fun w w' H Hw => H Hw)) with (w := w0) (w' := w) (pool := pool) as [Hw Hpool]; [| done | done |].
  - intros l w1 Hw1. destruct (decide (key_of (snd l) = key)) as [E|Hne].
    + eapply rg_mono; [by apply refused_delivery | by auto].
    + eapply rg_mono; [by apply (other_delivery key) | done].
  - split; [done |]. intros i l x Hl E. specialize (Hpool _ _ _ Hl w (rtc_refl _ _) E). congruence.
Qed.
End deliveries.
End abandoned.

(** ** A concrete run

    The handler counts its runs and answers with the count.  The lease of the first delivery runs
    out while it is suspended, a second one runs the handler again and completes, and a third one
    gets the response of the second. *)

Section example.

Definition count_handler (cx : DispatchCtx) (m : Z) : Task nat (CatgaResult nat) :=
  atomically (fun n => (Ok (S n), S n)).

Definition count_codec : ResultCodec (R := nat) :=
  mkResultCodec (fun n => Ok [Z.of_nat n])
    (fun b => match b with [z] => Ok (Z.to_nat z) | _ => fail Internal "not a count" end).

Lemma count_codec_ok r b : rc_encode count_codec r = Ok b -> rc_decode count_codec b = Ok r.
Proof. intros [= <-]. simpl. by rewrite Nat2Z.id. Qed.

Definition at_ms (ms : Z) : nat -> SystemTime := fun _ => in_ms ms.
Definition world_at (ms : Z) : World nat :=
  mkWorld (mkInbox (table_new (capacity_fixed 4)) (from_millis 1000)) (mkIdem (table_new (capacity_fixed 4)) (from_millis 1000))
    (at_ms ms) 0%nat.

Definition no_ctx : DispatchCtx := mkDispatch None None None.
Definition counted : DispatchCtx * Z -> Task (World nat) (CatgaResult nat) := deliver_inbox count_codec count_handler (from_millis 100) id.

Definition first_claims := foldl (move counted) (world_at 1000, []) [Start (no_ctx, 7); Poll 0 0; Poll 0 0].
Definition lease_over := (put_clock (at_ms 1200) (fst first_claims), snd first_claims).
Definition second_wins := foldl (move counted) lease_over [Start (no_ctx, 7); Poll 1 0; Poll 1 0; Poll 1 0; Poll 0 0].

Lemma world_at_inv : World_inv 1000 2000 (world_at 1000).
Proof.
  split; [split | split |]; try apply claims_inv_new; try done; try (by vm_compute).
Qed.

Lemma second_wins_steps : rtc (pool_step (surroundings 1000 2000) counted) (world_at 1000, []) second_wins.
Proof.
  etrans; [apply (moves_steps _ _ [Start (no_ctx, 7); Poll 0 0; Poll 0 0]) |]. fold first_claims.
  etrans; [| apply moves_steps]. unfold lease_over. destruct first_claims as [w pool]. apply rtc_once, pool_env, sr_clock.
  intros n. by vm_compute.
Qed.

Lemma inbox_agreement_witness :
  (forall j l' r', snd second_wins !! j = Some (l', Finished (Ok r')) -> snd l' = 7 -> r' = 2%nat)
  /\ run_alone (counted (no_ctx, 7)) (fst second_wins) = (Some (Ok 2%nat), fst second_wins)
  /\ snd second_wins !! 0%nat = Some ((no_ctx, 7), Finished (fail Conflict inbox_conflict)).
Proof.
  destruct (inbox_agreement 1000 2000 count_codec count_handler (from_millis 100) id count_codec_ok
    (world_at 1000) (fst second_wins) (snd second_wins) 1%nat (no_ctx, 7) 2%nat world_at_inv) as [H1 H2].
  - rewrite <-surjective_pairing. apply second_wins_steps.
  - vm_compute. reflexivity.
  - done.
  - split_and!; [exact H1 | | vm_compute; reflexivity].
    apply (H2 (no_ctx, 7) 1300 eq_refl). vm_compute. reflexivity.
Defined.

(** A delivery is dropped while its handler runs; a thousand years later its key is still claimed. *)
Definition keyed_count : DispatchCtx * Z -> Task (World nat) (CatgaResult nat) :=
  deliver_keyed count_codec count_handler (fun _ => "key"%string).
Definition after_drop : World nat := fst (foldl (move keyed_count) (world_at 1000, []) [Start (no_ctx, 7); Poll 0 0; Drop 0]).
Definition much_later : World nat := put_clock (at_ms 31536000000000) after_drop.

Lemma after_drop_held : held "key" much_later.
Proof.
  split.
  - exact (idem_try_claim_inv (w_keys (world_at 1000)) "key" (in_ms 1000) (claims_inv_new 4 ltac:(lia))).
  - eexists. split; vm_compute; reflexivity.
Qed.

Lemma abandoned_key_refused_witness :
  let retried := foldl (move keyed_count) (much_later, []) [Start (no_ctx, 7); Poll 0 0; Poll 0 0] in
  held "key" (fst retried) /\ snd retried = [((no_ctx, 7), Finished key_conflict)].
Proof.
  intros retried.
  destruct (abandoned_key_refused count_codec count_handler (fun _ => "key"%string) much_later (fst retried) (snd retried) "key"
    after_drop_held) as [H1 H2].
  - rewrite <-surjective_pairing. apply moves_steps.
  - split; [exact H1 |]. vm_compute. reflexivity.
Defined.
End example.
