(* ===== verification/StateMachines.v ===== *)
(** * Event-driven state machines ([flow/state_machine/], [memory/state_machine.rs])

    Definitions of states and transitions, the handling of an event, the executor that loads,
    handles and stores an instance with optimistic concurrency, the router from events to
    instances, the in-memory store with its compare-and-swap loop, and the durable frame of a
    snapshot. *)

From S2P Require Import Prelude Utf8 Errors Time Messages Wire Codec DslProgress Tasks Mediator.

(** ** Snapshots *)

Record StateMachineResult (K : Type) := mkSMResult { res_previous : K; res_current : K; res_handled : bool }.
Arguments mkSMResult {K}.
Arguments res_previous {K}.
Arguments res_current {K}.
Arguments res_handled {K}.

Definition transitioned {K} `{EqDecision K} (r : StateMachineResult K) : bool :=
  negb (bool_decide (res_previous r = res_current r)).

Record StateMachineSnapshot (S : Type) := mkSMSnapshot {
  sn_instance_id : string;
  sn_state : S;
  sn_version : Z;
  sn_created_at : SystemTime;
  sn_updated_at : SystemTime
}.
Arguments mkSMSnapshot {S}.
Arguments sn_instance_id {S}.
Arguments sn_state {S}.
Arguments sn_version {S}.
Arguments sn_created_at {S}.
Arguments sn_updated_at {S}.

Section snapshot.
Context {S : Type}.

Definition sm_snapshot_new (instance_id : string) (state : S) (now : SystemTime) : StateMachineSnapshot S :=
  mkSMSnapshot instance_id state 0 now now.

Definition sm_restore (instance_id : string) (state : S) (version : Z) (created_at updated_at : SystemTime)
    : CatgaResult (StateMachineSnapshot S) :=
  if version <? 0 then fail Validation "state-machine snapshot version cannot be negative"
  else if updated_at <? created_at
  then fail Validation "state-machine snapshot update time cannot precede creation time"
  else Ok (mkSMSnapshot instance_id state version created_at updated_at).

Definition sm_next_version (s : StateMachineSnapshot S) (state : S) (now : SystemTime) : CatgaResult (StateMachineSnapshot S) :=
  let? version := ok_or (checked i64 (sn_version s + 1))
    (CatgaError_new Conflict "state-machine snapshot version cannot advance beyond i64::MAX") in
  Ok (mkSMSnapshot (sn_instance_id s) state version (sn_created_at s) (Z.max now (sn_updated_at s))).

Definition sm_is_next_version (expected next : Z) : bool :=
  match checked i64 (expected + 1) with Some candidate => candidate =? next | None => false end.
End snapshot.

(** ** Durable frames of snapshots *)

Section frames.
Context {S : Type} (encode_state : S -> CatgaResult (list Z)) (decode_state : list Z -> CatgaResult S)
  (show : MemoryPackError -> string) (show_byte : Z -> string).

Definition FORMAT_VERSION : Z := 1.
Definition VERSION_BYTES : nat := 9.
Definition METADATA_BYTES : nat := VERSION_BYTES + TIME_WIRE_BYTES * 2.

(** [i64::to_be_bytes] and [i64::from_be_bytes]: two's complement *)
Definition i64_to_be_bytes (v : Z) : list Z := be_bytes 8 (wrapping u64 v).
Definition i64_from_be_bytes (bs : list Z) : Z := wrapping i64 (be_value bs).

Definition encode_state_machine_snapshot (s : StateMachineSnapshot S) : CatgaResult (list Z) :=
  if sn_version s <? 0 then fail Validation "state-machine snapshot version cannot be negative"
  else
    let? state := encode_state (sn_state s) in
    Ok (FORMAT_VERSION :: i64_to_be_bytes (sn_version s)
        ++ encode_time_wire (sn_created_at s) ++ encode_time_wire (sn_updated_at s) ++ state).

Definition map_time_error (what : string) (r : MPResult SystemTime) : CatgaResult SystemTime :=
  match r with Ok t => Ok t | Err e => fail Internal (what +:+ show e) end.

Definition decode_state_machine_snapshot (instance_id : string) (value : list Z) : CatgaResult (StateMachineSnapshot S) :=
  if (length value <? METADATA_BYTES)%nat then fail Internal "state-machine snapshot value is missing metadata"
  else if negb (default 0 (head value) =? FORMAT_VERSION)
  then fail Internal ("unsupported state-machine snapshot format version " +:+ show_byte (default 0 (head value)))
  else
    let version := i64_from_be_bytes (take 8 (drop 1 value)) in
    let? created_at := map_time_error "state-machine snapshot creation time is malformed: "
      (decode_time_wire (take TIME_WIRE_BYTES (drop VERSION_BYTES value))) in
    let? updated_at := map_time_error "state-machine snapshot update time is malformed: "
      (decode_time_wire (take TIME_WIRE_BYTES (drop (VERSION_BYTES + TIME_WIRE_BYTES) value))) in
    let? state := decode_state (drop METADATA_BYTES value) in
    sm_restore instance_id state version created_at updated_at.
End frames.

(** ** Definitions *)

Section machine.
Context {W TypeId : Type} `{Countable TypeId} (Ty : TypeId -> Type) (type_name : TypeId -> string)
  {S K : Type} `{Countable K}.

Abbreviation any := (Any Ty).

(** An action changes the state it is given, also when it fails. *)
Definition Outcome : Type := CatgaResult unit * S.

(** [StateMachineState] *)
Class StateMachineState := {
  current_state : S -> K;
  set_current_state : K -> S -> S
}.

Inductive StateAction :=
| StateSync (action : S -> Outcome)
| StateAsync (action : S -> Task W Outcome).

Definition state_action_execute (a : StateAction) (state : S) : Task W Outcome :=
  match a with StateSync action => Done (action state) | StateAsync action => action state end.

(** [dyn ErasedTransition] *)
Record ErasedTransition := mkErased {
  tr_matches : TypeId -> list TypeId -> bool;
  tr_is_exact : bool;
  tr_applies : S -> any -> CatgaResult bool;
  tr_target : option K;
  tr_execute : S -> any -> Task W Outcome
}.

Record StateDefinition := mkState {
  on_enter_action : option StateAction;
  on_exit_action : option StateAction;
  transitions : list ErasedTransition
}.

Definition state_definition_default : StateDefinition := mkState None None [].

Definition typed_event (k : TypeId) (event : any) : CatgaResult (Ty k) :=
  ok_or (downcast Ty k event) (CatgaError_new Internal ("state-machine event type mismatch: expected " +:+ type_name k)).

Inductive EventAction (E : Type) :=
| EventNone
| EventSync (action : S -> E -> Outcome)
| EventAsync (action : S -> E -> Task W Outcome).
Arguments EventNone {E}.
Arguments EventSync {E}.
Arguments EventAsync {E}.

Definition event_action_execute {E} (a : EventAction E) (state : S) (event : E) : Task W Outcome :=
  match a with
  | EventNone => Done (Ok tt, state)
  | EventSync action => Done (action state event)
  | EventAsync action => action state event
  end.

Definition guard_allows {E} (guard : option (S -> E -> bool)) (state : S) (event : E) : bool :=
  match guard with None => true | Some g => g state event end.

Definition TypedTransition (k : TypeId) (target : option K) (guard : option (S -> Ty k -> bool)) (action : EventAction (Ty k))
    : ErasedTransition :=
  mkErased (fun event_type _ => bool_decide (event_type = k)) true
    (fun state event => let? e := typed_event k event in Ok (guard_allows guard state e))
    target
    (fun state event =>
       match typed_event k event with
       | Ok e => event_action_execute action state e
       | Err error => Done (Err error, state)
       end).

Definition CategoryTransition (category : TypeId) (extractor : any -> option any) (target : option K)
    (guard : option (S -> any -> bool)) (action : EventAction any) : ErasedTransition :=
  mkErased (fun _ categories => bool_decide (category ∈ categories)) false
    (fun state event =>
       match extractor event with None => Ok false | Some extracted => Ok (guard_allows guard state extracted) end)
    target
    (fun state event =>
       match extractor event with
       | None => Done (fail Internal "state-machine category extractor declined a selected event", state)
       | Some extracted => event_action_execute action state extracted
       end).

Record ErasedInitialStateFactory := mkFactory {
  fa_event_type : TypeId;
  fa_initial_state : K;
  fa_create : any -> string -> CatgaResult S
}.

Definition TypedInitialStateFactory (k : TypeId) (initial_state : K) (factory : Ty k -> string -> S) : ErasedInitialStateFactory :=
  mkFactory k initial_state (fun event instance_id => let? e := typed_event k event in Ok (factory e instance_id)).

(** [StateMachine], and [StateMachineBuilder], which has the same fields *)
Record StateMachine := mkMachineDef {
  md_initial : K;
  md_states : gmap K StateDefinition;
  md_initial_factories : list ErasedInitialStateFactory;
  md_default_initial_factory : option S
}.

(** *** The builder *)

Definition builder (initial : K) : StateMachine := mkMachineDef initial ∅ [] None.

(** [state(k)], then [f] on its definition *)
Definition configure_state (b : StateMachine) (k : K) (f : StateDefinition -> StateDefinition) : StateMachine :=
  mkMachineDef (md_initial b) (<[k := f (default state_definition_default (md_states b !! k))]> (md_states b))
    (md_initial_factories b) (md_default_initial_factory b).

Definition on_enter (a : StateAction) (d : StateDefinition) : StateDefinition :=
  mkState (Some a) (on_exit_action d) (transitions d).
Definition on_exit (a : StateAction) (d : StateDefinition) : StateDefinition :=
  mkState (on_enter_action d) (Some a) (transitions d).
(** [finish] of either transition builder *)
Definition finish (t : ErasedTransition) (d : StateDefinition) : StateDefinition :=
  mkState (on_enter_action d) (on_exit_action d) (transitions d ++ [t]).

Definition starts_with (b : StateMachine) (k : TypeId) (initial_state : K) (factory : Ty k -> string -> S) : StateMachine :=
  mkMachineDef (md_initial b) (md_states b)
    (filter (fun f => fa_event_type f <> k) (md_initial_factories b) ++ [TypedInitialStateFactory k initial_state factory])
    (md_default_initial_factory b).

Definition create_instance_from (b : StateMachine) (k : TypeId) (factory : Ty k -> string -> S) : StateMachine :=
  starts_with b k (md_initial b) factory.

Definition default_initial_state (b : StateMachine) (default_state : S) : StateMachine :=
  mkMachineDef (md_initial b) (md_states b) (md_initial_factories b) (Some default_state).

(** *** Handling an event *)

Context `{!StateMachineState}.

(** [.await?] on an action: the state is the one the action leaves. *)
Definition then_action {A} (t : Task W Outcome) (k : S -> Task W (CatgaResult A * S)) : Task W (CatgaResult A * S) :=
  tbind t (fun o => match fst o with Ok _ => k (snd o) | Err e => Done (Err e, snd o) end).

Definition run_optional (a : option StateAction) (state : S) : Task W Outcome :=
  match a with Some action => state_action_execute action state | None => Done (Ok tt, state) end.

(** One pass of the selection, for exact or for category transitions *)
Fixpoint select_pass (exact : bool) (ts : list ErasedTransition) (state : S) (event : any) (categories : list TypeId)
    : CatgaResult (option ErasedTransition) :=
  match ts with
  | [] => Ok None
  | t :: rest =>
      if bool_decide (tr_is_exact t = exact) && tr_matches t (projT1 event) categories then
        match tr_applies t state event with
        | Err e => Err e
        | Ok true => Ok (Some t)
        | Ok false => select_pass exact rest state event categories
        end
      else select_pass exact rest state event categories
  end.

Definition select_transition (ts : list ErasedTransition) (state : S) (event : any) (categories : list TypeId)
    : CatgaResult (option ErasedTransition) :=
  let? found := select_pass true ts state event categories in
  match found with
  | Some t => Ok (Some t)
  | None => select_pass false ts state event categories
  end.

Definition enter_target (m : StateMachine) (t : ErasedTransition) (state : S) : Task W Outcome :=
  match tr_target t with
  | None => Done (Ok tt, state)
  | Some target =>
      let state := set_current_state target state in
      run_optional (md_states m !! current_state state ≫= on_enter_action) state
  end.

Definition handle_erased (m : StateMachine) (state : S) (event : any) (categories : list TypeId)
    : Task W (CatgaResult (StateMachineResult K) * S) :=
  let previous := current_state state in
  match md_states m !! previous with
  | None => Done (Ok (mkSMResult previous previous false), state)
  | Some definition =>
      match select_transition (transitions definition) state event categories with
      | Err e => Done (Err e, state)
      | Ok None => Done (Ok (mkSMResult previous previous false), state)
      | Ok (Some t) =>
          then_action (run_optional (on_exit_action definition) state) (fun state =>
          then_action (tr_execute t state event) (fun state =>
          then_action (enter_target m t state) (fun state =>
          Done (Ok (mkSMResult previous (current_state state) true), state))))
      end
  end.

Definition create_initial_erased (m : StateMachine) (instance_id : string) (event : any) : CatgaResult (option S) :=
  match List.find (fun f => bool_decide (fa_event_type f = projT1 event)) (md_initial_factories m) with
  | Some f =>
      let? state := fa_create f event instance_id in
      Ok (Some (set_current_state (fa_initial_state f) state))
  | None =>
      Ok (match md_default_initial_factory m with
          | None => None
          | Some state => Some (set_current_state (md_initial m) state)
          end)
  end.

(** ** The executor *)

(** [StateMachineStore] *)
Class StateMachineStore := {
  sms_create : StateMachineSnapshot S -> Task W (CatgaResult bool);
  sms_get : string -> Task W (CatgaResult (option (StateMachineSnapshot S)));
  sms_update : Z -> StateMachineSnapshot S -> Task W (CatgaResult bool)
}.

Context `{!StateMachineStore} (clock : W -> SystemTime).

Definition read_clock : Task W SystemTime := atomically (fun w => (clock w, w)).

Definition executor_initialize (instance_id : string) (state : S) : Task W (CatgaResult bool) :=
  await now := read_clock in sms_create (sm_snapshot_new instance_id state now).

Definition missing_instance (instance_id : string) : CatgaError :=
  CatgaError_new NotFound ("state-machine instance '" +:+ instance_id +:+ "' does not exist").
Definition created_concurrently (instance_id : string) : CatgaError :=
  CatgaError_new Conflict ("state-machine instance '" +:+ instance_id +:+ "' was created concurrently").
Definition changed_concurrently (instance_id : string) : CatgaError :=
  CatgaError_new Conflict ("state-machine instance '" +:+ instance_id +:+ "' changed while handling its event").

(** The result of the event once its outcome is stored *)
Definition stored_result (stored : CatgaResult bool) (result : StateMachineResult K) (refused : CatgaError)
    : CatgaResult (StateMachineResult K) :=
  let? ok := stored in if (ok : bool) then Ok result else Err refused.

Definition executor_handle_erased (m : StateMachine) (instance_id : string) (event : any) (categories : list TypeId)
    : Task W (CatgaResult (StateMachineResult K)) :=
  await? found := sms_get instance_id in
  match found with
  | None =>
      match create_initial_erased m instance_id event with
      | Err e => Done (Err e)
      | Ok None => Done (Err (missing_instance instance_id))
      | Ok (Some state) =>
          await outcome := handle_erased m state event categories in
          match fst outcome with
          | Err e => Done (Err e)
          | Ok result =>
              if negb (res_handled result) then Done (Ok result)
              else
                await now := read_clock in
                await stored := sms_create (sm_snapshot_new instance_id (snd outcome) now) in
                Done (stored_result stored result (created_concurrently instance_id))
          end
      end
  | Some snapshot =>
      await outcome := handle_erased m (sn_state snapshot) event categories in
      match fst outcome with
      | Err e => Done (Err e)
      | Ok result =>
          if negb (res_handled result) then Done (Ok result)
          else
            await now := read_clock in
            match sm_next_version snapshot (snd outcome) now with
            | Err e => Done (Err e)
            | Ok next =>
                await stored := sms_update (sn_version snapshot) next in
                Done (stored_result stored result (changed_concurrently instance_id))
            end
      end
  end.

Definition executor_handle (categories : forall k, Ty k -> list TypeId) (m : StateMachine) (instance_id : string)
    (k : TypeId) (event : Ty k) : Task W (CatgaResult (StateMachineResult K)) :=
  executor_handle_erased m instance_id (existT k event) (categories k event).

Definition executor_get (instance_id : string) : Task W (CatgaResult (option (StateMachineSnapshot S))) :=
  sms_get instance_id.

(** ** The router *)

Section router.
Context (categories : forall k, Ty k -> list TypeId) (m : StateMachine).

Abbreviation erased_route := (any -> Task W (CatgaResult (StateMachineResult K))).

Definition TypedEventRoute (k : TypeId) (resolve_instance_id : Ty k -> string) : erased_route := fun event =>
  match downcast Ty k event with
  | None => Done (fail Internal ("state-machine route event type mismatch: expected " +:+ type_name k))
  | Some e =>
      let instance_id := resolve_instance_id e in
      if trim_is_empty instance_id
      then Done (fail Validation ("state-machine instance id cannot be empty for event " +:+ type_name k))
      else executor_handle categories m instance_id k e
  end.

Record StateMachineEventRouter := mkRouter {
  rt_routes : gmap TypeId erased_route;
  rt_fallback : option (any -> CatgaResult string)
}.

Definition router_new : StateMachineEventRouter := mkRouter ∅ None.

Definition for_event (r : StateMachineEventRouter) (k : TypeId) (resolver : Ty k -> string) : StateMachineEventRouter :=
  mkRouter (<[k := TypedEventRoute k resolver]> (rt_routes r)) (rt_fallback r).

Definition with_fallback (r : StateMachineEventRouter) (resolver : any -> CatgaResult string) : StateMachineEventRouter :=
  mkRouter (rt_routes r) (Some resolver).

Definition find_route (r : StateMachineEventRouter) (k : TypeId) : option erased_route := rt_routes r !! k.

Definition route (r : StateMachineEventRouter) (k : TypeId) (event : Ty k) : Task W (CatgaResult (StateMachineResult K)) :=
  match find_route r k with
  | Some found => found (existT k event)
  | None =>
      match rt_fallback r with
      | None => Done (fail Unsupported ("no state-machine route is registered for event " +:+ type_name k))
      | Some fallback =>
          match fallback (existT k event) with
          | Err e => Done (Err e)
          | Ok instance_id =>
              if trim_is_empty instance_id
              then Done (fail Validation "state-machine fallback instance id cannot be empty")
              else executor_handle_erased m instance_id (existT k event) (categories k event)
          end
      end
  end.
End router.
End machine.
Arguments EventNone {W S E}.
Arguments EventSync {W S E}.
Arguments EventAsync {W S E}.

(** ** The in-memory store *)

(** A slot holds a pointer, which identifies the allocation, and the snapshot behind it.
    [sw_commits] is a history of the snapshots that were stored, which the code does not keep. *)
Section memory_store.
Context {S App : Type}.

Record SMWorld := mkSMWorld {
  sw_snapshots : gmap string (nat * StateMachineSnapshot S);
  sw_fresh : nat;
  sw_commits : list (StateMachineSnapshot S);
  sw_clock : SystemTime;
  sw_app : App
}.

(** [Arc::new(snapshot)] in the slot of its instance *)
Definition publish_snapshot (s : StateMachineSnapshot S) (w : SMWorld) : SMWorld :=
  mkSMWorld (<[sn_instance_id s := (sw_fresh w, s)]> (sw_snapshots w)) (sw_fresh w + 1) (sw_commits w ++ [s])
    (sw_clock w) (sw_app w).

Definition memory_create (s : StateMachineSnapshot S) (w : SMWorld) : CatgaResult bool * SMWorld :=
  match sw_snapshots w !! sn_instance_id s with
  | None => (Ok true, publish_snapshot s w)
  | Some _ => (Ok false, w)
  end.

Definition memory_get (instance_id : string) (w : SMWorld) : CatgaResult (option (StateMachineSnapshot S)) * SMWorld :=
  (Ok (snd <$> sw_snapshots w !! instance_id), w).

(** [SnapshotSlot::replace]: the exchange succeeds when the slot still has the pointer. *)
Definition slot_replace (expected : nat) (next : StateMachineSnapshot S) (w : SMWorld) : bool * SMWorld :=
  match sw_snapshots w !! sn_instance_id next with
  | Some (pointer, _) => if (pointer =? expected)%nat then (true, publish_snapshot next w) else (false, w)
  | None => (false, w)
  end.

(** The loop of [update]; [None] when [fuel] rounds did not decide *)
Fixpoint update_loop (fuel : nat) (expected_version : Z) (next : StateMachineSnapshot S) : Task SMWorld (option (CatgaResult bool)) :=
  match fuel with
  | O => Done None
  | Datatypes.S fuel =>
      await current := atomically (fun w => (sw_snapshots w !! sn_instance_id next, w)) in
      match current with
      | None => Done (Some (Ok false))
      | Some (pointer, snapshot) =>
          if negb (sn_version snapshot =? expected_version) then Done (Some (Ok false))
          else
            await replaced := atomically (slot_replace pointer next) in
            if replaced then Done (Some (Ok true)) else update_loop fuel expected_version next
      end
  end.

(** Two rounds decide ([update_two_rounds] below), so the default is not reached. *)
Definition memory_update (expected_version : Z) (next : StateMachineSnapshot S) : Task SMWorld (CatgaResult bool) :=
  if negb (sm_is_next_version expected_version (sn_version next)) then Done (Ok false)
  else
    await slot := atomically (fun w => (bool_decide (is_Some (sw_snapshots w !! sn_instance_id next)), w)) in
    if negb slot then Done (Ok false)
    else await r := update_loop 2 expected_version next in Done (default (Ok false) r).

#[export] Instance memory_machines : StateMachineStore (W := SMWorld) (S := S) := {
  sms_create s := atomically (memory_create s);
  sms_get id := atomically (memory_get id);
  sms_update := memory_update
}.
End memory_store.
Arguments SMWorld : clear implicits.

(** ** Properties *)

(** The results that a task can end with, whatever happens around it *)
Inductive ends {W A} : Task W A -> A -> Prop :=
| ends_done a : ends (Done a) a
| ends_await d e n c w a : ends (n c w) a -> ends (Await d e n) a.

(** A task that changes the world as [R] allows gives one of its results. *)
Lemma rg_ends {W A} (R : W -> W -> Prop) (inv : W -> Prop) (P : A -> Prop) (t : Task W A) w :
  (forall w w', R w w' -> inv w -> inv w') -> respects R t -> (forall a, ends t a -> P a) -> inv w ->
  rg R R (fun x w1 => inv w1 /\ forall a, x = Some a -> P a) t w.
Proof.
  intros Hinv. assert (forall w w', rtc R w w' -> inv w -> inv w') as Hrtc.
  { intros w1 w2 Hr. induction Hr; eauto. }
  revert w. induction t as [a| |d e n IH]; intros w Ht HP Hi w1 Hw; simpl.
  - split; [by eapply Hrtc |]. intros b [= <-]. apply HP. constructor.
  - split; [by eapply Hrtc | done].
  - destruct Ht as [Hd Hc]. split; [done |]. intros c. destruct (Hc c w1) as [He Hn]. split; [done |].
    apply IH; [done | | eapply Hinv; [done |]; by eapply Hrtc]. intros a Ha. apply HP. by econstructor.
Qed.

Section executor_properties.
Context {W TypeId : Type} `{Countable TypeId} (Ty : TypeId -> Type) {S K : Type} `{Countable K}.
Context `{!StateMachineState (S := S) (K := K)} `{!StateMachineStore (W := W) (S := S)} (clock : W -> SystemTime)
  (m : StateMachine (W := W) Ty (S := S) (K := K)).
Context (inv : W -> Prop) (R : W -> W -> Prop) (history : W -> string -> list (StateMachineSnapshot S))
  (storable : StateMachineSnapshot S -> Prop).

Abbreviation snapshot := (StateMachineSnapshot S).

(** One event takes an instance from a snapshot to the next. *)
Definition handles (event : Any Ty) (categories : list TypeId) (result : StateMachineResult K) (before after : S) : Prop :=
  res_handled result = true /\ ends (handle_erased Ty m before event categories) (Ok result, after).

Definition event_step (prev next : snapshot) : Prop :=
  sn_instance_id next = sn_instance_id prev /\ sn_version next = sn_version prev + 1
  /\ exists event categories result, handles event categories result (sn_state prev) (sn_state next).

(** What the executor relies on: the history of an instance only grows, from version 0 by one,
    and every snapshot in it comes from the one before it by an event.  [storable] are the snapshots
    that the store can give back as they were; those that the executor makes are. *)
Class MachineStoreLaws : Prop := {
  ml_refl w : R w w;
  ml_inv w w' : R w w' -> inv w -> inv w';
  ml_prefix w w' id : R w w' -> inv w -> history w id `prefix_of` history w' id;
  ml_version w id i s : inv w -> history w id !! i = Some s -> sn_version s = Z.of_nat i /\ sn_instance_id s = id;
  ml_get id w : inv w ->
    rg R R (fun x w1 => inv w1 /\ forall s, x = Some (Ok (Some s)) -> s ∈ history w1 id) (sms_get id) w;
  ml_stored w id s : inv w -> s ∈ history w id -> storable s;
  ml_new w id state : inv w -> storable (sm_snapshot_new id state (clock w));
  ml_next w prev state next : inv w -> storable prev -> sm_next_version prev state (clock w) = Ok next -> storable next;
  ml_create s w : inv w -> sn_version s = 0 -> storable s ->
    rg R R (fun x w1 => inv w1 /\ (x = Some (Ok true) -> history w1 (sn_instance_id s) !! 0%nat = Some s)) (sms_create s) w;
  ml_update prev next w : inv w -> prev ∈ history w (sn_instance_id prev) -> event_step prev next -> storable next ->
    rg R R (fun x w1 => inv w1 /\ (x = Some (Ok true) ->
        exists i, history w1 (sn_instance_id prev) !! i = Some prev /\ history w1 (sn_instance_id prev) !! Datatypes.S i = Some next))
      (sms_update (sn_version prev) next) w
}.

Context `{!MachineStoreLaws}.
Hypothesis (Hactions : forall s event categories, respects R (handle_erased Ty m s event categories)).

(** A handled event is a step of the history of its instance, or its start. *)
Definition recorded_event (id : string) (event : Any Ty) (categories : list TypeId) (r : StateMachineResult K) (w : W) : Prop :=
  (exists s0 first, create_initial_erased Ty m id event = Ok (Some s0) /\ history w id !! 0%nat = Some first
     /\ handles event categories r s0 (sn_state first))
  \/ exists i prev next, history w id !! i = Some prev /\ history w id !! Datatypes.S i = Some next
       /\ handles event categories r (sn_state prev) (sn_state next).

Definition event_done id event categories (x : option (CatgaResult (StateMachineResult K))) (w : W) : Prop :=
  forall r, x = Some (Ok r) -> res_handled r = true -> recorded_event id event categories r w.

Lemma ml_inv_rtc w w' : rtc R w w' -> inv w -> inv w'.
Proof. intros Hr. induction Hr; eauto using ml_inv. Qed.

Lemma ml_prefix_rtc w w' id : rtc R w w' -> inv w -> history w id `prefix_of` history w' id.
Proof.
  intros Hr. induction Hr as [|w1 w2 w3 H12 _ IH]; [done |]. intros Hi. etrans; [by apply ml_prefix |].
  apply IH. by eapply ml_inv.
Qed.

Lemma recorded_later id event categories r w w' :
  rtc R w w' -> inv w -> recorded_event id event categories r w -> recorded_event id event categories r w'.
Proof.
  intros Hr Hi. pose proof (ml_prefix_rtc w w' id Hr Hi) as Hp.
  intros [(s0 & f & E1 & E2 & E3)|(i & a & b & E1 & E2 & E3)]; [left; exists s0, f | right; exists i, a, b];
    split_and!; eauto using prefix_lookup_Some.
Qed.

Lemma rg_event_end id event categories (x : CatgaResult (StateMachineResult K)) w :
  inv w -> event_done id event categories (Some x) w -> rg R R (event_done id event categories) (Done x) w.
Proof. intros Hi Hx w1 Hw r E Hr. eapply recorded_later; eauto. Qed.

Lemma rg_event_quiet id event categories (x : CatgaResult (StateMachineResult K)) w :
  (forall r, x = Ok r -> res_handled r = false) -> rg R R (event_done id event categories) (Done x) w.
Proof. intros Hx w1 Hw r [= E] Hr. rewrite (Hx r E) in Hr. done. Qed.

(** The invariant with a snapshot that is in the history *)
Definition seen (id : string) (prev : option snapshot) (w : W) : Prop :=
  inv w /\ match prev with Some s => s ∈ history w id | None => True end.

Lemma seen_later id prev w w' : R w w' -> seen id prev w -> seen id prev w'.
Proof.
  intros Hr [Hi Hs]. split; [by eapply ml_inv |]. destruct prev as [s|]; [| done].
  apply list_elem_of_lookup_1 in Hs as [i Hs]. eapply list_elem_of_lookup_2, prefix_lookup_Some; [done |].
  by apply ml_prefix.
Qed.

Lemma seen_rtc id prev w w' : rtc R w w' -> seen id prev w -> seen id prev w'.
Proof. intros Hr. induction Hr; eauto using seen_later. Qed.

(** A reading of the clock *)
Definition reading (now : SystemTime) : Prop := exists w, inv w /\ now = clock w.

Lemma rg_clock id prev w :
  seen id prev w -> rg R R (fun x w1 => seen id prev w1 /\ forall now, x = Some now -> reading now) (read_clock clock) w.
Proof.
  intros Hs. apply rg_atomically. intros w1 Hw1. split_and!; [apply ml_refl | apply ml_refl |].
  assert (seen id prev w1) as Hs1 by (by eapply seen_rtc). simpl.
  intros w2 Hw2. split; [by eapply seen_rtc |]. intros now [= <-]. exists w1. split; [apply Hs1 | done].
Qed.

(** What storing the outcome gives *)
Lemma rg_store id event categories result (stored : Task W (CatgaResult bool)) refused w :
  rg R R (fun x w1 => inv w1 /\ (x = Some (Ok true) -> recorded_event id event categories result w1)) stored w ->
  rg R R (event_done id event categories) (await x := stored in Done (stored_result x result refused)) w.
Proof.
  intros Hs. eapply rg_bind; [exact Hs | | by intros w1 _ r [=]].
  intros x w1 [Hi Hx]. apply rg_event_end; [done |]. intros r [= E] Hr. unfold stored_result in E.
  destruct x as [[|]|e]; simpl in E; simplify_eq. by apply Hx.
Qed.

(** Handling the event: its outcome, or an end that stores nothing *)
Lemma rg_outcome id event categories prev s (k : StateMachineResult K -> S -> Task W (CatgaResult (StateMachineResult K))) w :
  seen id prev w ->
  (forall result s' w1, seen id prev w1 -> handles event categories result s s' ->
     rg R R (event_done id event categories) (k result s') w1) ->
  rg R R (event_done id event categories)
    (await outcome := handle_erased Ty m s event categories in
     match fst outcome with
     | Err e => Done (Err e)
     | Ok result => if negb (res_handled result) then Done (Ok result) else k result (snd outcome)
     end) w.
Proof.
  intros Hs Hk. eapply rg_bind; [apply (rg_ends R (seen id prev) (ends (handle_erased Ty m s event categories))) | | by intros w2 _ r [=]];
    [apply seen_later | done | done | done |].
  intros [[result|e] s'] w2 [Hs2 Hend]; [| by apply rg_event_quiet]. specialize (Hend _ eq_refl). simpl.
  destruct (res_handled result) eqn:Hh; simpl; [by apply Hk | by apply rg_event_quiet; intros r [= <-]].
Qed.

Lemma executor_recorded id event categories w :
  inv w -> rg R R (event_done id event categories) (executor_handle_erased Ty clock m id event categories) w.
Proof.
  intros Hi. unfold executor_handle_erased. eapply rg_bind; [by apply ml_get | | by intros w1 _ r [=]].
  intros [[prev|]|e] w1 [Hi1 Hget]; [| | by apply rg_event_quiet].
  - apply (rg_outcome id event categories (Some prev) (sn_state prev) (fun result s' =>
      await now := read_clock clock in
      match sm_next_version prev s' now with
      | Err e => Done (Err e)
      | Ok next =>
          await stored := sms_update (sn_version prev) next in
          Done (stored_result stored result (changed_concurrently id))
      end)); [by split; auto |]. intros result s' w2 Hs2 Hh.
    eapply rg_bind; [by apply (rg_clock id (Some prev)) | | by intros w3 _ r [=]]. intros now w3 [[Hi3 Hp3] Hnow].
    destruct (Hnow now eq_refl) as (w0 & Hi0 & ->). pose proof (ml_stored _ _ _ Hi3 Hp3) as Hst.
    apply list_elem_of_lookup_1 in Hp3 as [i Hp3]. destruct (ml_version _ _ _ _ Hi3 Hp3) as [Hv Hid].
    destruct (sm_next_version prev s' (clock w0)) as [next|e] eqn:En; [| by apply rg_event_quiet].
    pose proof (ml_next _ _ _ _ Hi0 Hst En) as Hst'. apply rg_store. unfold sm_next_version in En. destruct (checked i64 (sn_version prev + 1)) as [v|] eqn:Ev; simplify_eq/=.
    apply checked_Some in Ev as [-> _]. eapply rg_mono; [apply (ml_update prev); [done | by apply list_elem_of_lookup_2 in Hp3 | | exact Hst'] |].
    + split_and!; [done | done |]. by exists event, categories, result.
    + intros x w4 [Hi4 Hx]. split; [done |]. intros Ex. destruct (Hx Ex) as (j & Hj & Hj'). right.
      exists j, prev. eexists. split_and!; [exact Hj | exact Hj' | exact Hh].
  - destruct (create_initial_erased Ty m id event) as [[s0|]|e] eqn:Ec; [| by apply rg_event_quiet..].
    apply (rg_outcome id event categories None s0 (fun result s' =>
      await now := read_clock clock in
      await stored := sms_create (sm_snapshot_new id s' now) in
      Done (stored_result stored result (created_concurrently id)))); [done |]. intros result s' w2 Hs2 Hh.
    eapply rg_bind; [by apply (rg_clock id None) | | by intros w3 _ r [=]]. intros now w3 [[Hi3 _] Hnow].
    destruct (Hnow now eq_refl) as (w0 & Hi0 & ->).
    apply rg_store. eapply rg_mono; [apply ml_create; [done | done | by apply ml_new] |]. intros x w4 [Hi4 Hx]. split; [done |]. intros Ex. left.
    exists s0, (sm_snapshot_new id s' (clock w0)). split_and!; [done | by apply Hx | done].
Qed.
End executor_properties.

(** *** The in-memory store keeps these promises *)

Section memory_properties.
Context {TypeId : Type} `{Countable TypeId} (Ty : TypeId -> Type) {S K App : Type} `{Countable K}.
Context `{!StateMachineState (S := S) (K := K)} (m : StateMachine (W := SMWorld S App) Ty (S := S) (K := K)).
Implicit Types w : SMWorld S App.

Definition commits_of w (id : string) : list (StateMachineSnapshot S) :=
  filter (fun s => sn_instance_id s = id) (sw_commits w).

Record machines_inv w : Prop := {
  mi_latest : forall id, snd <$> sw_snapshots w !! id = last (commits_of w id);
  mi_pointers : forall id p s, sw_snapshots w !! id = Some (p, s) -> (p < sw_fresh w)%nat;
  mi_versions : forall id i s, commits_of w id !! i = Some s -> sn_version s = Z.of_nat i;
  mi_linked : forall id i a b, commits_of w id !! i = Some a -> commits_of w id !! Datatypes.S i = Some b -> event_step Ty m a b
}.

(** How the world changes: histories grow, and a slot with the same pointer has the same
    snapshot. *)
Record machines_evolve w w' : Prop := {
  me_inv : machines_inv w -> machines_inv w';
  me_prefix : forall id, commits_of w id `prefix_of` commits_of w' id;
  me_pointer : forall id p s, sw_snapshots w' !! id = Some (p, s) ->
    (sw_fresh w <= p /\ length (commits_of w id) < length (commits_of w' id))%nat
    \/ (sw_snapshots w !! id = Some (p, s) /\ commits_of w' id = commits_of w id);
  me_fresh : (sw_fresh w <= sw_fresh w')%nat
}.

Lemma commits_publish (s : StateMachineSnapshot S) w id :
  commits_of (publish_snapshot s w) id
  = if decide (sn_instance_id s = id) then commits_of w id ++ [s] else commits_of w id.
Proof.
  unfold commits_of. simpl. rewrite filter_app, filter_cons, filter_nil. case_decide; [done | by rewrite app_nil_r].
Qed.

(** Publishing a snapshot that follows the latest one *)
Lemma publish_evolves (s : StateMachineSnapshot S) w :
  (machines_inv w ->
   match last (commits_of w (sn_instance_id s)) with
   | None => sn_version s = 0
   | Some prev => event_step Ty m prev s
   end) ->
  machines_evolve w (publish_snapshot s w).
Proof.
  intros Hnext. split.
  - intros [I1 I2 I3 I4]. specialize (Hnext ltac:(by split)). split.
    + intros id. rewrite commits_publish. simpl. case_decide as E.
      * subst id. by rewrite lookup_insert_eq, last_snoc.
      * by rewrite lookup_insert_ne.
    + intros id p x. simpl. rewrite lookup_insert_Some. intros [[<- [= <- <-]]|[_ Hx]]; [lia |]. specialize (I2 _ _ _ Hx). lia.
    + intros id i x. rewrite commits_publish. case_decide as E; [| apply I3]. subst id.
      intros [Hx|[Hi Hx]]%lookup_app_Some; [by eapply I3 |].
      apply list_lookup_singleton_Some in Hx as [Hi0 <-]. destruct (last (commits_of w (sn_instance_id s))) as [prev|] eqn:El.
      * destruct Hnext as (_ & Hv & _). rewrite last_lookup in El. specialize (I3 _ _ _ El). rewrite Hv, I3.
        apply lookup_lt_Some in El. lia.
      * apply last_None in El. rewrite El in *. simpl in *. lia.
    + intros id i a b. rewrite !commits_publish. case_decide as E; [| apply I4]. subst id.
      intros Ha Hb. apply lookup_app_Some in Hb as [Hb|[Hi Hb]].
      * rewrite lookup_app_l in Ha by (apply lookup_lt_Some in Hb; lia). by eapply I4.
      * apply list_lookup_singleton_Some in Hb as [Hi0 <-]. rewrite lookup_app_l in Ha by lia.
        rewrite last_lookup in Hnext. replace (pred _) with i in Hnext by lia. by rewrite Ha in Hnext.
  - intros id. rewrite commits_publish. case_decide; [by apply prefix_app_r | done].
  - intros id p x. simpl. rewrite lookup_insert_Some, commits_publish.
    intros [[E [= <- <-]]|[Hne Hx]]; [| right; by rewrite decide_False].
    left. rewrite decide_True, length_app by done. simpl. split; lia.
  - simpl. lia.
Qed.

Lemma machines_refl w : machines_evolve w w.
Proof. split; try done. by right. Qed.

Lemma machines_trans w1 w2 w3 : machines_evolve w1 w2 -> machines_evolve w2 w3 -> machines_evolve w1 w3.
Proof.
  intros [A1 A2 A3 A4] [B1 B2 B3 B4]. split; [by auto | intros id; etrans; [apply A2 | apply B2] | | lia].
  intros id p s Hs. pose proof (prefix_length _ _ (A2 id)). destruct (B3 _ _ _ Hs) as [[]|[Hs2 E2]]; [left; lia |].
  destruct (A3 _ _ _ Hs2) as [[]|[Hs1 E1]]; [left; rewrite E2; lia | right; split; [done | congruence]].
Qed.

Lemma machines_rtc w w' : rtc machines_evolve w w' -> machines_evolve w w'.
Proof. intros Hr. induction Hr; [apply machines_refl | by eapply machines_trans]. Qed.

(** The latest snapshot of an instance is the only one of its version. *)
Lemma latest_version w id p s i prev :
  machines_inv w -> sw_snapshots w !! id = Some (p, s) -> commits_of w id !! i = Some prev ->
  sn_version prev <= sn_version s /\ (sn_version prev = sn_version s -> prev = s /\ length (commits_of w id) = Datatypes.S i).
Proof.
  intros [I1 I2 I3 I4] Hs Hp. specialize (I1 id). rewrite Hs in I1. simpl in I1. symmetry in I1. rewrite last_lookup in I1.
  pose proof (I3 _ _ _ I1) as Hv. pose proof (I3 _ _ _ Hp) as Hv'. pose proof (lookup_lt_Some _ _ _ Hp).
  split; [lia |]. intros E. replace (pred (length (commits_of w id))) with i in I1 by lia. split; [congruence | lia].
Qed.

Section update.
Context (prev next : StateMachineSnapshot S).
Hypothesis (Hstep : event_step Ty m prev next).

Abbreviation instance := (sn_instance_id prev).

Definition prev_known w : Prop := machines_inv w /\ prev ∈ commits_of w instance.

Lemma known_later w w' : machines_evolve w w' -> prev_known w -> prev_known w'.
Proof.
  intros He [Hi Hp]. split; [by apply He |]. apply list_elem_of_lookup_1 in Hp as [i Hp].
  eapply list_elem_of_lookup_2, prefix_lookup_Some; [done |]. apply He.
Qed.

(** [next] follows [prev] in the history. *)
Definition follows w : Prop :=
  exists i, commits_of w instance !! i = Some prev /\ commits_of w instance !! Datatypes.S i = Some next.

Lemma follows_later w w' : machines_evolve w w' -> follows w -> follows w'.
Proof.
  intros He (i & H1 & H2). exists i. split; (eapply prefix_lookup_Some; [done | apply He]).
Qed.

(** An exchange with the pointer of a slot that had the expected version *)
Lemma replace_evolves w0 w p s :
  machines_evolve w0 w -> prev_known w0 -> sw_snapshots w0 !! instance = Some (p, s) -> sn_version s = sn_version prev ->
  machines_evolve w (snd (slot_replace p next w))
  /\ if fst (slot_replace p next w) then follows (snd (slot_replace p next w))
     else exists q s', sw_snapshots w !! instance = Some (q, s') /\ sn_version prev < sn_version s'.
Proof.
  intros He Hk0 Hs Hv. pose proof (known_later _ _ He Hk0) as [Hi Hp]. destruct Hstep as (Hid & Hver & _).
  destruct Hk0 as [Hi0 Hp0]. apply list_elem_of_lookup_1 in Hp0 as [i Hp0].
  destruct (latest_version w0 _ _ _ _ _ Hi0 Hs Hp0) as [_ Hl]. destruct (Hl (eq_sym Hv)) as [<- Hlen].
  unfold slot_replace. rewrite Hid. destruct (sw_snapshots w !! instance) as [[q s']|] eqn:Hq.
  2: { exfalso. pose proof (mi_latest _ Hi instance) as E. rewrite Hq in E. simpl in E. symmetry in E. apply last_None in E.
    by rewrite E in Hp; apply elem_of_nil in Hp. }
  destruct (Nat.eqb_spec q p) as [->|Hne]; simpl.
  - destruct (me_pointer _ _ He _ _ _ Hq) as [Hlt|[Hs' E]].
    { pose proof (mi_pointers _ Hi0 _ _ _ Hs). lia. }
    rewrite Hs in Hs'. simplify_eq.
    assert (last (commits_of w instance) = Some prev) as Hlast.
    { pose proof (mi_latest _ Hi instance) as El. by rewrite Hq in El. }
    split; [apply publish_evolves; intros _; by rewrite Hid, Hlast |].
    exists i. rewrite commits_publish, decide_True by done. rewrite E. split.
    + by rewrite lookup_app_l by (by eapply lookup_lt_Some).
    + rewrite lookup_app_r by lia. by rewrite Hlen, Nat.sub_diag.
  - split; [apply machines_refl |]. exists q, s'. split; [done |].
    apply list_elem_of_lookup_1 in Hp as [j Hp]. destruct (latest_version w _ _ _ _ _ Hi Hq Hp) as [Hle Heq].
    destruct (decide (sn_version prev = sn_version s')) as [E|]; [| lia]. exfalso.
    destruct (Heq E) as [<- Hlen']. destruct (me_pointer _ _ He _ _ _ Hq) as [[_ Hlt]|[Hs' _]]; [| congruence].
    pose proof (mi_versions _ Hi _ _ _ Hp). pose proof (mi_versions _ Hi0 _ _ _ Hp0). lia.
Qed.

Lemma known_rtc w w' : rtc machines_evolve w w' -> prev_known w -> prev_known w'.
Proof. intros Hr%machines_rtc. by apply known_later. Qed.

(** The instance has moved past [prev]. *)
Definition overtaken w : Prop :=
  machines_inv w /\ exists i s, commits_of w instance !! i = Some s /\ sn_version prev < sn_version s.

Lemma overtaken_later w w' : machines_evolve w w' -> overtaken w -> overtaken w'.
Proof.
  intros He (Hi & i & s & Hs & Hv). split; [by apply He |]. exists i, s. split; [| done].
  eapply prefix_lookup_Some; [done | apply He].
Qed.

Lemma overtaken_slot w p s : overtaken w -> sw_snapshots w !! instance = Some (p, s) -> sn_version prev < sn_version s.
Proof. intros (Hi & i & x & Hx & Hv) Hs. destruct (latest_version w _ _ _ _ _ Hi Hs Hx). lia. Qed.

(** A round reads the slot ([w0]) and exchanges it ([w]). *)
Definition round_done (x : option (option (CatgaResult bool))) w : Prop :=
  machines_inv w /\ (x = Some (Some (Ok true)) -> follows w).

Lemma round_later x w w' : machines_evolve w w' -> round_done x w -> round_done x w'.
Proof. intros He [Hi Hx]. split; [by apply He |]. intros E. eapply follows_later; eauto. Qed.

Lemma rg_round_end x w : machines_inv w -> x <> Some (Ok true) -> rg machines_evolve machines_evolve round_done (Done x) w.
Proof. intros Hi Hx w1 Hw%machines_rtc. split; [by apply Hw |]. intros [= E]. done. Qed.

Lemma rg_read {A} (f : SMWorld S App -> A) (P : A -> SMWorld S App -> Prop) w :
  (forall w1, rtc machines_evolve w w1 -> P (f w1) w1) ->
  rg machines_evolve machines_evolve (fun x w2 => exists a w1, x = Some a /\ rtc machines_evolve w w1 /\ rtc machines_evolve w1 w2 /\ a = f w1 /\ P a w1)
    (atomically (fun w => (f w, w))) w.
Proof.
  intros Hf. apply rg_atomically. intros w1 Hw. split_and!; [apply machines_refl | apply machines_refl |].
  simpl. intros w2 Hw2. exists (f w1), w1. split_and!; auto.
Qed.

Lemma update_loop_rg fuel w :
  prev_known w -> rg machines_evolve machines_evolve round_done (update_loop fuel (sn_version prev) next) w.
Proof.
  revert w. induction fuel as [|fuel IH]; intros w Hk; cbn [update_loop]; [by apply rg_round_end; [apply Hk |] |].
  eapply rg_bind; [apply (rg_read (fun w => sw_snapshots w !! sn_instance_id next) (fun _ _ => True)); done | | by intros w2 (a & w1 & [=] & _)].
  intros current w2 (a & w1 & [= <-] & H01 & H12 & -> & _). pose proof (known_rtc _ _ H01 Hk) as Hk1.
  pose proof (known_rtc _ _ H12 Hk1) as Hk2. pose proof (proj1 Hstep) as Hid. rewrite Hid.
  destruct (sw_snapshots w1 !! instance) as [[p x]|] eqn:Hx; [| apply rg_round_end; [apply Hk2 | done]].
  destruct (Z.eqb_spec (sn_version x) (sn_version prev)) as [Ev|]; cbn [negb]; [| apply rg_round_end; [apply Hk2 | done]].
  eapply (rg_bind _ _ (fun r w3 => prev_known w3 /\ (r = Some true -> follows w3))); [| | by intros w3 [[] _]].
  - apply rg_atomically. intros w3 Hw3. assert (machines_evolve w1 w3) as He by (apply machines_rtc; by etrans).
    destruct (replace_evolves w1 w3 p x He Hk1 Hx Ev) as [Hr Hf]. split_and!; [apply machines_refl | done |].
    intros w4 Hw4. split.
    + eapply known_rtc; [exact Hw4 |]. eapply known_later; [exact Hr |]. by eapply known_later.
    + intros [= E]. rewrite E in Hf. eapply follows_later; [by apply machines_rtc | done].
  - intros [|] w3 [Hk3 Hf]; [| by apply IH]. intros w4 Hw4%machines_rtc. split; [by apply Hw4, Hk3 |].
    intros _. eapply follows_later; [done |]. by apply Hf.
Qed.

(** An exchange fails only when the instance has moved on, which the next round sees: two rounds
    decide. *)
Lemma overtaken_decides fuel w :
  overtaken w -> rg machines_evolve machines_evolve (fun x _ => x = Some (Some (Ok false))) (update_loop (Datatypes.S fuel) (sn_version prev) next) w.
Proof.
  intros Ho. cbn [update_loop]. eapply rg_bind; [apply (rg_read (fun w => sw_snapshots w !! sn_instance_id next) (fun _ _ => True)); done | | by intros w2 (a & w1 & [=] & _)].
  intros current w2 (a & w1 & [= <-] & H01 & H12 & -> & _). rewrite (proj1 Hstep).
  destruct (sw_snapshots w1 !! instance) as [[p x]|] eqn:Hx; [| done].
  pose proof (overtaken_slot w1 p x (overtaken_later _ _ (machines_rtc _ _ H01) Ho) Hx).
  destruct (Z.eqb_spec (sn_version x) (sn_version prev)); [lia | done].
Qed.

Lemma update_two_rounds w :
  prev_known w -> rg machines_evolve machines_evolve (fun x _ => is_Some (default None x)) (update_loop 2 (sn_version prev) next) w.
Proof.
  intros Hk. remember 1%nat as fuel eqn:Ef. cbn [update_loop].
  eapply rg_bind; [apply (rg_read (fun w => sw_snapshots w !! sn_instance_id next) (fun _ _ => True)); done | | by intros w2 (a & w1 & [=] & _)].
  intros current w2 (a & w1 & [= <-] & H01 & H12 & -> & _). pose proof (known_rtc _ _ H01 Hk) as Hk1.
  rewrite (proj1 Hstep).
  destruct (sw_snapshots w1 !! instance) as [[p x]|] eqn:Hx; [| by intros w3 _].
  destruct (Z.eqb_spec (sn_version x) (sn_version prev)) as [Ev|]; cbn [negb]; [| by intros w3 _].
  eapply (rg_bind _ _ (fun r w3 => is_Some r /\ (r = Some false -> overtaken w3))); [| | by intros w3 [[] _]].
  - apply rg_atomically. intros w3 Hw3. assert (machines_evolve w1 w3) as He by (apply machines_rtc; by etrans).
    destruct (replace_evolves w1 w3 p x He Hk1 Hx Ev) as [Hr Hf]. split_and!; [apply machines_refl | done |].
    intros w4 Hw4. split; [done |]. intros [= E]. rewrite E in Hf. destruct Hf as (q & y & Hq & Hlt).
    eapply overtaken_later; [by eapply machines_rtc |]. eapply overtaken_later; [exact Hr |].
    pose proof (known_later _ _ He Hk1) as [Hi3 _]. split; [done |].
    pose proof (mi_latest _ Hi3 instance) as El. rewrite Hq in El. simpl in El. symmetry in El. rewrite last_lookup in El. by eexists _, y.
  - intros [|] w3 [_ Ho]; [by intros w4 _ |]. subst fuel. eapply rg_mono; [by apply overtaken_decides, Ho |]. by intros x' w4 ->.
Qed.
End update.

Lemma memory_get_rg id w :
  machines_inv w ->
  rg machines_evolve machines_evolve
    (fun x w1 => machines_inv w1 /\ forall s, x = Some (Ok (Some s)) -> s ∈ commits_of w1 id) (sms_get id) w.
Proof.
  intros Hi. apply rg_atomically. intros w1 Hw1%machines_rtc. split_and!; [apply machines_refl | apply machines_refl |].
  simpl. intros w2 Hw2%machines_rtc. assert (machines_inv w1) as Hi1 by by apply Hw1. split; [by apply Hw2 |].
  intros s [= E]. rewrite (mi_latest _ Hi1), last_lookup in E.
  eapply list_elem_of_lookup_2, prefix_lookup_Some; [exact E | apply Hw2].
Qed.

Lemma memory_create_evolves (s : StateMachineSnapshot S) w :
  sn_version s = 0 -> machines_evolve w (snd (memory_create s w)).
Proof.
  intros Hv. unfold memory_create. destruct (sw_snapshots w !! sn_instance_id s) as [x|] eqn:E; [apply machines_refl |].
  apply publish_evolves. intros Hi. pose proof (mi_latest _ Hi (sn_instance_id s)) as El. rewrite E in El. by rewrite <-El.
Qed.

Lemma memory_create_rg (s : StateMachineSnapshot S) w :
  machines_inv w -> sn_version s = 0 ->
  rg machines_evolve machines_evolve
    (fun x w1 => machines_inv w1 /\ (x = Some (Ok true) -> commits_of w1 (sn_instance_id s) !! 0%nat = Some s)) (sms_create s) w.
Proof.
  intros Hi Hv. apply rg_atomically. intros w1 Hw1%machines_rtc. assert (machines_inv w1) as Hi1 by by apply Hw1.
  pose proof (memory_create_evolves s w1 Hv) as He. split_and!; [apply machines_refl | done |].
  intros w2 Hw2%machines_rtc. split; [by apply Hw2, He |]. intros [= E].
  eapply prefix_lookup_Some; [| apply Hw2]. unfold memory_create in *.
  destruct (sw_snapshots w1 !! sn_instance_id s) as [x|] eqn:Es; [done |]. simpl. rewrite commits_publish, decide_True by done.
  pose proof (mi_latest _ Hi1 (sn_instance_id s)) as El. rewrite Es in El. symmetry in El. by apply last_None in El as ->.
Qed.

Lemma memory_update_rg prev next w :
  machines_inv w -> prev ∈ commits_of w (sn_instance_id prev) -> event_step Ty m prev next ->
  rg machines_evolve machines_evolve
    (fun x w1 => machines_inv w1 /\ (x = Some (Ok true) -> follows prev next w1)) (sms_update (sn_version prev) next) w.
Proof.
  intros Hi Hp Hstep. assert (forall (x : CatgaResult bool) w1, prev_known prev w1 -> x <> Ok true ->
    rg machines_evolve machines_evolve (fun x w2 => machines_inv w2 /\ (x = Some (Ok true) -> follows prev next w2)) (Done x) w1) as Hno.
  { intros x w1 [Hi1 _] Hx w2 Hw2%machines_rtc. split; [by apply Hw2 |]. by intros [= E]. }
  change (sms_update (sn_version prev) next) with (memory_update (App := App) (sn_version prev) next). unfold memory_update.
  destruct (sm_is_next_version _ _); cbn [negb]; [| by apply Hno].
  eapply (rg_bind _ _ (fun _ => prev_known prev)); [| | by intros w1 []].
  { apply rg_atomically. intros w1 Hw1. split_and!; [apply machines_refl | apply machines_refl |].
    intros w2 Hw2. simpl in *. eapply known_rtc; [exact Hw2 |]. by eapply known_rtc. }
  intros [|] w1 Hk1; cbn [negb]; [| by apply Hno].
  eapply rg_bind; [by apply update_loop_rg | | by intros w2 [Hi2 _]].
  intros r w2 [Hi2 Hr] w3 Hw3%machines_rtc. split; [by apply Hw3 |]. intros [= E].
  eapply follows_later; [exact Hw3 |]. apply Hr. destruct r as [x|]; simpl in E; congruence.
Qed.

#[local] Instance memory_machine_laws : MachineStoreLaws Ty sw_clock m machines_inv machines_evolve commits_of (fun _ => True).
Proof.
  split.
  - apply machines_refl.
  - intros w w' He. apply He.
  - intros w w' id He _. apply He.
  - intros w id i s Hi Hs. split; [by eapply mi_versions |].
    apply list_elem_of_lookup_2, list_elem_of_filter in Hs as [E _]. done.
  - apply memory_get_rg.
  - done.
  - done.
  - done.
  - intros s w Hi Hv _. by apply memory_create_rg.
  - intros prev next w Hi Hp Hs _. by apply memory_update_rg.
Qed.

(** Around the executors the clock moves, the application goes on, and instances are initialised. *)
Inductive machine_surroundings : SMWorld S App -> SMWorld S App -> Prop :=
| ms_app w clock app :
    machine_surroundings w (mkSMWorld (sw_snapshots w) (sw_fresh w) (sw_commits w) clock app)
| ms_initialize w id state : machine_surroundings w (snd (memory_create (sm_snapshot_new id state (sw_clock w)) w)).

Lemma machine_surroundings_evolve w w' : machine_surroundings w w' -> machines_evolve w w'.
Proof.
  intros [w0 clock app|w0 id state]; [| by apply memory_create_evolves].
  split; try done; [| by right]. intros []. by split.
Qed.

Section events.
Context (categories : forall k, Ty k -> list TypeId).
Hypothesis (Hactions : forall s event cats, respects machines_evolve (handle_erased Ty m s event cats)).

(** An event for an instance *)
Definition deliver_event (l : string * Any Ty) : Task (SMWorld S App) (CatgaResult (StateMachineResult K)) :=
  executor_handle Ty sw_clock categories m (fst l) (projT1 (snd l)) (projT2 (snd l)).

End events.
End memory_properties.

(** *** Machines without asynchronous actions *)

Section sync_machines.
Context {W TypeId : Type} `{Countable TypeId} (Ty : TypeId -> Type) {S K : Type} `{Countable K}.
Context `{!StateMachineState (S := S) (K := K)} (m : StateMachine (W := W) Ty (S := S) (K := K)) (R : W -> W -> Prop).

Definition immediate {A} (t : Task W A) : Prop := exists a, t = Done a.

Record sync_state (d : StateDefinition Ty (S := S) (K := K)) : Prop := {
  ss_enter s : immediate (run_optional (on_enter_action Ty d) s);
  ss_exit s : immediate (run_optional (on_exit_action Ty d) s);
  ss_transitions t : t ∈ transitions Ty d -> forall s event, immediate (tr_execute Ty t s event)
}.

Lemma select_pass_in exact (ts : list (ErasedTransition (W := W) Ty (S := S) (K := K))) s event cats t :
  select_pass Ty exact ts s event cats = Ok (Some t) -> t ∈ ts.
Proof.
  induction ts as [|u ts IH]; simpl; [done |]. intros E. rewrite elem_of_cons.
  destruct (_ && _); [| auto]. destruct (tr_applies Ty u s event) as [[|]|]; simplify_eq; auto.
Qed.

Lemma select_transition_in (ts : list (ErasedTransition (W := W) Ty (S := S) (K := K))) s event cats t : select_transition Ty ts s event cats = Ok (Some t) -> t ∈ ts.
Proof.
  unfold select_transition. destruct (select_pass Ty true ts s event cats) as [[u|]|] eqn:E; simpl; [| | done].
  - intros [= <-]. by eapply select_pass_in.
  - apply select_pass_in.
Qed.

(** The passes of the selection: the first matching transition that applies *)
Definition candidate (exact : bool) (event : Any Ty) (cats : list TypeId) (t : ErasedTransition (W := W) Ty (S := S) (K := K)) : Prop :=
  tr_is_exact Ty t = exact /\ tr_matches Ty t (projT1 event) cats = true.

Lemma select_pass_spec exact ts s event cats :
  match select_pass Ty exact ts s event cats with
  | Ok None => forall t, t ∈ ts -> candidate exact event cats t -> tr_applies Ty t s event = Ok false
  | Ok (Some t) => exists before after, ts = before ++ t :: after /\ candidate exact event cats t /\ tr_applies Ty t s event = Ok true
      /\ forall u, u ∈ before -> candidate exact event cats u -> tr_applies Ty u s event = Ok false
  | Err e => exists t, t ∈ ts /\ tr_applies Ty t s event = Err e
  end.
Proof.
  induction ts as [|t ts IH]; simpl; [by intros t ?%elem_of_nil |].
  destruct (bool_decide (tr_is_exact Ty t = exact) && tr_matches Ty t (projT1 event) cats) eqn:Ec.
  - apply andb_true_iff in Ec as [E1%bool_decide_eq_true E2]. destruct (tr_applies Ty t s event) as [[|]|e] eqn:Ea.
    + exists [], ts. split_and!; [done | done | done |]. by intros u ?%elem_of_nil.
    + destruct (select_pass Ty exact ts s event cats) as [[u|]|e'].
      * destruct IH as (before & after & -> & Hu & Hau & Hb). exists (t :: before), after. split_and!; [done | done | done |].
        intros v [->|Hv]%elem_of_cons; [done | by apply Hb].
      * intros u [->|Hu]%elem_of_cons; [done | by apply IH].
      * destruct IH as (u & Hu & Hau). exists u. rewrite elem_of_cons. auto.
    + exists t. rewrite elem_of_cons. auto.
  - assert (~ candidate exact event cats t) as Hn.
    { intros [H1 H2]. rewrite bool_decide_eq_true_2, H2 in Ec; done. }
    destruct (select_pass Ty exact ts s event cats) as [[u|]|e'].
    + destruct IH as (before & after & -> & Hu & Hau & Hb). exists (t :: before), after. split_and!; [done | done | done |].
      intros v [->|Hv]%elem_of_cons Hc; [done | by apply Hb].
    + intros u [->|Hu]%elem_of_cons Hc; [done | by apply IH].
    + destruct IH as (u & Hu & Hau). exists u. rewrite elem_of_cons. auto.
Qed.

(** The transition that handles an event is the first exact one that matches it and whose guard
    allows it; a category transition is taken only when no exact one applies; an event is left
    unhandled only when none applies. *)
Theorem selection_exact (ts : list (ErasedTransition (W := W) Ty (S := S) (K := K))) s event cats :
  match select_transition Ty ts s event cats with
  | Ok None => forall exact t, t ∈ ts -> candidate exact event cats t -> tr_applies Ty t s event = Ok false
  | Ok (Some t) => exists exact before after, ts = before ++ t :: after /\ candidate exact event cats t /\ tr_applies Ty t s event = Ok true
      /\ (forall u, u ∈ before -> candidate exact event cats u -> tr_applies Ty u s event = Ok false)
      /\ (exact = false -> forall u, u ∈ ts -> candidate true event cats u -> tr_applies Ty u s event = Ok false)
  | Err e => exists t, t ∈ ts /\ tr_applies Ty t s event = Err e
  end.
Proof.
  unfold select_transition. pose proof (select_pass_spec true ts s event cats) as H1.
  destruct (select_pass Ty true ts s event cats) as [[t|]|e]; simpl; [| | done].
  - destruct H1 as (before & after & ? & ? & ? & ?). exists true, before, after. by split_and!.
  - pose proof (select_pass_spec false ts s event cats) as H2. destruct (select_pass Ty false ts s event cats) as [[t|]|e]; [| | done].
    + destruct H2 as (before & after & ? & ? & ? & ?). exists false, before, after. by split_and!.
    + intros [|] t Ht Hc; auto.
Qed.

Lemma sync_handle_respects s event cats :
  (forall k d, md_states Ty m !! k = Some d -> sync_state d) -> respects R (handle_erased Ty m s event cats).
Proof.
  intros Hm. unfold handle_erased. destruct (md_states Ty m !! current_state s) as [d|] eqn:Ed; [| done].
  pose proof (Hm _ _ Ed) as Hd. destruct (select_transition _ _ _ _ _) as [[t|]|] eqn:Et; [| done | done].
  apply select_transition_in in Et. unfold then_action.
  destruct (ss_exit _ Hd s) as [[[[]|e] s1] ->]; simpl; [| done].
  destruct (ss_transitions _ Hd t Et s1 event) as [[[[]|e] s2] ->]; simpl; [| done].
  unfold enter_target. destruct (tr_target Ty t) as [target|]; simpl; [| done].
  destruct (md_states Ty m !! current_state (set_current_state target s2)) as [d'|] eqn:Ed'; simpl; [| done].
  destruct (ss_enter _ (Hm _ _ Ed') (set_current_state target s2)) as [[[[]|e] s3] ->]; done.
Qed.
End sync_machines.

(** ** A concrete machine

    An order adds up the amounts of its events; two events that are handled at the same time meet
    at the store, and one of them is refused. *)

Section example.

Definition order_ty (k : unit) : Type := nat.
Definition Order : Type := nat * nat.
Abbreviation order_world := (SMWorld Order unit).

#[export] Instance order_state : StateMachineState (S := Order) (K := nat) := {
  current_state := fst;
  set_current_state k s := (k, snd s)
}.

Definition add_amount : ErasedTransition (W := order_world) order_ty (S := Order) (K := nat) :=
  TypedTransition order_ty (fun _ => "Amount"%string) tt None None
    (EventSync (fun s n => (Ok tt, (fst s, (snd s + n)%nat)))).

Definition order_machine : StateMachine (W := order_world) order_ty (S := Order) (K := nat) :=
  default_initial_state order_ty (configure_state order_ty (builder order_ty 0%nat) 0%nat (finish order_ty add_amount)) (0, 0)%nat.

Definition order_event : string * Any order_ty -> Task order_world (CatgaResult (StateMachineResult nat)) :=
  deliver_event order_ty order_machine (fun _ _ => []).

Definition no_orders : order_world := mkSMWorld ∅ 0 [] 5 tt.
Definition amount (n : nat) : string * Any order_ty := ("o"%string, existT tt n).

(** An order of 2; then 3 and 4 are read against it, 3 is stored first. *)
Definition order_run :=
  foldl (move order_event) (no_orders, [])
    ([Start (amount 2); Poll 0 0; Poll 0 0; Poll 0 0; Start (amount 3); Start (amount 4); Poll 1 0; Poll 2 0]
     ++ [Poll 1 0; Poll 1 0; Poll 1 0; Poll 1 0] ++ [Poll 2 0; Poll 2 0; Poll 2 0]).

Lemma order_machine_sync k d : md_states order_ty order_machine !! k = Some d -> sync_state order_ty d.
Proof.
  intros Hd. assert (d = mkState order_ty None None [add_amount]) as ->.
  { destruct (decide (k = 0%nat)) as [->|Hne]; [by vm_compute in Hd; simplify_eq |].
    unfold order_machine, configure_state in Hd. simpl in Hd. by rewrite lookup_insert_ne, lookup_empty in Hd. }
  split; [by intros; eexists.. |]. intros t ->%list_elem_of_singleton s [[] n]. by eexists.
Qed.

Lemma no_orders_inv : machines_inv order_ty order_machine no_orders.
Proof. split; intros; by rewrite ?lookup_empty, ?lookup_nil in *. Qed.

End example.

(** The exit action of a state also runs for a transition that has no target and stays in it, and
    no entry action follows. *)
Definition leaving_machine : StateMachine (W := SMWorld Order unit) order_ty (S := Order) (K := nat) :=
  configure_state order_ty order_machine 0%nat
    (fun d => on_exit order_ty (StateSync (fun s => (Ok tt, (fst s, (100 + snd s)%nat))))
                (on_enter order_ty (StateSync (fun s => (Ok tt, (fst s, (1000 + snd s)%nat)))) d)).

Example stays_but_exits :
  handle_erased order_ty leaving_machine (0, 7)%nat (existT tt 1%nat) []
  = Done (Ok (mkSMResult 0%nat 0%nat true), (0, 108)%nat).
Proof. vm_compute. reflexivity. Qed.

(** ** Durable frames *)

Lemma length_encode_time_wire t : length (encode_time_wire t) = TIME_WIRE_BYTES.
Proof. unfold encode_time_wire. cbn [length]. by rewrite length_app, !length_be_bytes. Qed.

Lemma i64_bytes_roundtrip v : 0 <= v <= int_max i64 -> i64_from_be_bytes (i64_to_be_bytes v) = v.
Proof.
  intros Hv. unfold i64_from_be_bytes, i64_to_be_bytes.
  rewrite (wrapping_id u64), be_value_be_bytes, wrapping_id by (done || int_bounds; lia). done.
Qed.

(** Consecutive fields of known length *)
Lemma field_at (n k : nat) (pre field post : list Z) :
  length pre = n -> length field = k -> take k (drop n (pre ++ field ++ post)) = field.
Proof. intros <- <-. by rewrite drop_app_length, take_app_length. Qed.

(** A snapshot with a valid state and times is read back from its frame as it was. *)
Theorem snapshot_frame_roundtrip {S} (encode_state : S -> CatgaResult (list Z)) decode_state show show_byte
    (s : StateMachineSnapshot S) frame :
  (forall x b, encode_state x = Ok b -> decode_state b = Ok x) ->
  sn_version s <= int_max i64 -> sn_created_at s <= sn_updated_at s ->
  system_time_ok (sn_created_at s) = true -> system_time_ok (sn_updated_at s) = true ->
  encode_state_machine_snapshot encode_state s = Ok frame ->
  decode_state_machine_snapshot decode_state show show_byte (sn_instance_id s) frame = Ok s.
Proof.
  intros Hcodec Hv Ht Hc Hu. unfold encode_state_machine_snapshot. destruct (Z.ltb_spec (sn_version s) 0) as [|Hv0]; [done |].
  destruct (encode_state (sn_state s)) as [b|e] eqn:Eb; [| done]. intros E.
  set (V := i64_to_be_bytes (sn_version s)). set (C := encode_time_wire (sn_created_at s)). set (U := encode_time_wire (sn_updated_at s)).
  assert (length V = 8 /\ length C = 13 /\ length U = 13)%nat as (HV & HC & HU)
    by (split_and!; [apply length_be_bytes | apply length_encode_time_wire..]).
  assert (frame = [FORMAT_VERSION] ++ V ++ C ++ U ++ b) as -> by (injection E as <-; done). clear E.
  assert (length ([FORMAT_VERSION] ++ V ++ C ++ U ++ b) = METADATA_BYTES + length b)%nat as Hlen
    by (rewrite !length_app, HV, HC, HU; done).
  assert (take 8 (drop 1 ([FORMAT_VERSION] ++ V ++ C ++ U ++ b)) = V) as EV by by apply field_at.
  assert (take TIME_WIRE_BYTES (drop VERSION_BYTES ([FORMAT_VERSION] ++ V ++ C ++ U ++ b)) = C) as EC.
  { rewrite (app_assoc [FORMAT_VERSION] V). apply field_at; [by rewrite length_app, HV | done]. }
  assert (take TIME_WIRE_BYTES (drop (VERSION_BYTES + TIME_WIRE_BYTES) ([FORMAT_VERSION] ++ V ++ C ++ U ++ b)) = U) as EU.
  { rewrite (app_assoc [FORMAT_VERSION] V), (app_assoc _ C). apply field_at; [by rewrite !length_app, HV, HC | done]. }
  assert (drop METADATA_BYTES ([FORMAT_VERSION] ++ V ++ C ++ U ++ b) = b) as Ebody.
  { rewrite (app_assoc [FORMAT_VERSION] V), (app_assoc _ C), (app_assoc _ U). apply drop_app_length'. by rewrite !length_app, HV, HC, HU. }
  assert (head ([FORMAT_VERSION] ++ V ++ C ++ U ++ b) = Some FORMAT_VERSION) as Ehead by done.
  unfold decode_state_machine_snapshot. rewrite Hlen, EV, EC, EU, Ebody, Ehead.
  destruct (Nat.ltb_spec (METADATA_BYTES + length b) METADATA_BYTES); [lia |]. simpl. unfold C, U, V.
  rewrite i64_bytes_roundtrip, !time_wire_roundtrip by done. simpl. rewrite (Hcodec _ _ Eb). simpl. unfold sm_restore.
  destruct (Z.ltb_spec (sn_version s) 0); [lia |]. destruct (Z.ltb_spec (sn_updated_at s) (sn_created_at s)); [lia |].
  by destruct s.
Qed.
