(* ===== verification/Resilience.v ===== *)
(** * Resilience execution ([resilience.rs], [resilient_transport.rs])

    One executor limits how many calls run and how many wait, cancels and retries attempts, and
    stops calling through a circuit.  The attempts of one call are a [Task]; the calls of a shared
    executor are a step relation with one step per atomic access to the permits, the counter of
    waiting callers and the circuit, and with the drop of a call at each of its awaits. *)

From S2P Require Import Prelude Errors Time Messages Breaker Dsl Tasks Behaviors.

(** ** Options *)

Record ResilienceOptions := mkResilience {
  max_concurrent : Z;
  max_queued : Z;
  op_timeout : Duration;
  max_retries : nat;
  op_retry_delay : Duration;
  circuit_failure_threshold : Z;
  circuit_reset_timeout : Duration
}.

Definition ResilienceOptions_default : ResilienceOptions :=
  mkResilience 0 0 (from_secs 3) 0 0 20 (from_secs 30).

Definition options_validate (o : ResilienceOptions) : CatgaResult unit :=
  if (max_concurrent o =? 0) && negb (max_queued o =? 0)
  then fail Validation "resilience max_queued requires max_concurrent"
  else if op_timeout o =? 0 then fail Validation "resilience timeout must be positive"
  else Ok tt.

Definition options_retry_delay (o : ResilienceOptions) (retry : nat) : Duration :=
  retry_delay (op_retry_delay o) (Z.of_nat retry).

Definition recoverable (error : CatgaError) : bool :=
  negb (bool_decide (code error = Cancelled)) && is_retryable error.
Definition cancelled_error : CatgaError := CatgaError_new Cancelled "resilience operation was cancelled".
Definition unavailable (message : string) : CatgaError := CatgaError_new Unavailable message.
Definition circuit_open : CatgaError := CatgaError_new Transient "resilience circuit is open".
Definition timed_out_error : CatgaError := CatgaError_new Timeout "resilience operation timed out".

(** ** The circuit

    [Circuit] has the fields of [CircuitBreaker], and its [record_success], [open], window and
    clock are the same code. *)

Definition circuit_new (o : CircuitBreakerOptions) : CircuitBreaker := with_options o.

Definition circuit_permit (b : CircuitBreaker) (elapsed : Duration) : CatgaResult bool * CircuitBreaker :=
  let half_open b := if half_open_probe b then (Err circuit_open, b) else (Ok true, set_probe b true) in
  match bstate b with
  | CLOSED => (Ok false, b)
  | OPEN =>
      if elapsed_since_open b elapsed <? reset_timeout (options b) then (Err circuit_open, b)
      else half_open (set_probe (set_bstate b HALF_OPEN) false)
  | HALF_OPEN => half_open b
  end.

Definition circuit_record_failure (b : CircuitBreaker) (elapsed : Duration) : CircuitBreaker :=
  let b := set_window b (window_push (window b) false) in
  if trips (options b) (window b) then open b elapsed else b.

Definition circuit_complete {T} (b : CircuitBreaker) (probe : bool) (result : CatgaResult T) (elapsed : Duration)
    : CircuitBreaker :=
  match result with
  | Ok _ => record_success b probe
  | Err error =>
      if negb (recoverable error) && probe then record_success b true
      else if negb (recoverable error) then b
      else if probe then open b elapsed
      else circuit_record_failure b elapsed
  end.

(** ** The attempts of a call

    [cancelled]: the state of the caller's token.  [operation] gets the number of its attempt,
    which stands for the child token; [cancel_attempt] cancels that token. *)

Section attempts.
Context {W T : Type} (o : ResilienceOptions) (jitter : RetryJitter)
  (get_jitter : W -> Z) (set_jitter : Z -> W -> W)
  (cancelled : W -> bool) (cancel_attempt : nat -> W -> W)
  (operation : nat -> Task W (CatgaResult T)).

(** One attempt, with its timeout *)
Definition attempt (retry : nat) : Task W (CatgaResult T) :=
  await x := select_cancelled cancelled (timed (operation retry)) in
  match x with
  | None => Done (Err cancelled_error)
  | Some (Some result) => Done result
  | Some None => await _ := atomically (fun w => (tt, cancel_attempt retry w)) in Done (Err timed_out_error)
  end.

Definition next_delay (retry : nat) : Task W Duration :=
  atomically (fun w => let '(delay, state) := jitter_delay jitter (options_retry_delay o retry) (get_jitter w) in
                       (delay, set_jitter state w)).

(** The loop over [0..=max_retries] *)
Fixpoint attempts_loop (retries : list nat) : Task W (CatgaResult T) :=
  match retries with
  | [] => Done (fail Internal "resilience retry loop completed without a result")
  | retry :: rest =>
      await stop := atomically (fun w => (cancelled w, w)) in
      if stop : bool then Done (Err cancelled_error)
      else
        await result := attempt retry in
        match result with
        | Err error =>
            if (retry <? max_retries o)%nat && recoverable error then
              await delay := next_delay retry in
              if delay =? 0 then attempts_loop rest
              else
                await slept := select_cancelled cancelled sleep in
                match slept with
                | None => Done (Err cancelled_error)
                | Some _ => attempts_loop rest
                end
            else Done result
        | Ok _ => Done result
        end
  end.

Definition attempts : Task W (CatgaResult T) := attempts_loop (seq 0 (S (max_retries o))).
End attempts.

(** ** The calls of an executor *)

(** The free permits of the semaphore, [None] without a limit.  [try_acquire_owned], and the same
    access at a wake-up of [acquire_owned]: *)
Definition take_permit (p : option Z) : option (option Z) :=
  match p with
  | None => Some None
  | Some free => if 0 <? free then Some (Some (free - 1)) else None
  end.

Definition free_permit (p : option Z) : option Z := (fun free => free + 1) <$> p.

Section calls.
Context {T : Type}.

(** What a call is doing between two accesses to the shared state: *)
Inductive Phase :=
| Trying                                (* [try_acquire_owned] found no permit *)
| Queued                                (* counted as waiting, at the await of a permit *)
| Granted                               (* got a permit, still counted as waiting *)
| Unqueued                              (* cancelled while waiting, still counted *)
| HasPermit                              (* holds a permit *)
| Attempting (probe : bool)             (* at an await of its attempts *)
| Completed (result : CatgaResult T).   (* the circuit knows the result; the permit is still held *)

Record ResilienceExecutor := mkExecutor {
  ex_options : ResilienceOptions;
  permits : option Z;
  waiting : Z;
  circuit : CircuitBreaker;
  calls : list Phase
}.

Definition with_policies (o : ResilienceOptions) (c : CircuitBreakerOptions) : CatgaResult ResilienceExecutor :=
  let? _ := options_validate o in
  Ok (mkExecutor o (if max_concurrent o =? 0 then None else Some (max_concurrent o)) 0 (circuit_new c) []).

Definition with_jitter (o : ResilienceOptions) : CatgaResult ResilienceExecutor :=
  let? c := options_build (options_builder (circuit_failure_threshold o) (circuit_reset_timeout o)) in
  with_policies o c.

(** The jitter policy of an executor is a parameter of [attempts]. What a call meets next: the scheduler continues it at some time, its token is cancelled while it
    waits for a permit, its attempts end, or its future is dropped. *)
Inductive Wake :=
| Resume (now : Duration)
| CancelWait
| EndAttempts (result : CatgaResult T) (now : Duration)
| DropFuture.

(** How a call goes on, or ends: with a result, or with none when it is dropped *)
Inductive Verdict := Goes (next : Phase) | Ends (result : option (CatgaResult T)).

(** [execute] after [try_acquire_owned], access by access; [None]: the call cannot meet this.  A
    dropped call gives its permit back; nothing else runs. *)
Definition call_next (ex : ResilienceExecutor) (ph : Phase) (k : Wake)
    : option (option Z * Z * CircuitBreaker * Verdict) :=
  let same := (permits ex, waiting ex, circuit ex) in
  match ph, k with
  | Trying, Resume _ =>
      if max_queued (ex_options ex) <=? waiting ex
      then Some (same, Ends (Some (Err (unavailable "resilience executor admission queue is full"))))
      else Some ((permits ex, waiting ex + 1, circuit ex), Goes Queued)
  | Queued, Resume _ => (fun p => ((p, waiting ex, circuit ex), Goes Granted)) <$> take_permit (permits ex)
  | Queued, CancelWait => Some (same, Goes Unqueued)
  | Queued, DropFuture => Some (same, Ends None)
  | Granted, Resume _ => Some ((permits ex, waiting ex - 1, circuit ex), Goes HasPermit)
  | Unqueued, Resume _ => Some ((permits ex, waiting ex - 1, circuit ex), Ends (Some (Err cancelled_error)))
  | HasPermit, Resume now =>
      let '(r, b) := circuit_permit (circuit ex) now in
      match r with
      | Err e => Some ((free_permit (permits ex), waiting ex, b), Ends (Some (Err e)))
      | Ok probe => Some ((permits ex, waiting ex, b), Goes (Attempting probe))
      end
  | Attempting probe, EndAttempts result now =>
      Some ((permits ex, waiting ex, circuit_complete (circuit ex) probe result now), Goes (Completed result))
  | Attempting _, DropFuture => Some ((free_permit (permits ex), waiting ex, circuit ex), Ends None)
  | Completed result, Resume _ => Some ((free_permit (permits ex), waiting ex, circuit ex), Ends (Some result))
  | _, _ => None
  end.

(** A call starts: [try_acquire_owned].  (A call whose token is cancelled already ends at once.) *)
Definition call_start (ex : ResilienceExecutor) : ResilienceExecutor :=
  match take_permit (permits ex) with
  | Some p => mkExecutor (ex_options ex) p (waiting ex) (circuit ex) (calls ex ++ [HasPermit])
  | None => mkExecutor (ex_options ex) (permits ex) (waiting ex) (circuit ex) (calls ex ++ [Trying])
  end.

Definition call_continue (ex : ResilienceExecutor) (i : nat) (k : Wake) : option ResilienceExecutor :=
  ph ← calls ex !! i;
  '(p, n, b, v) ← call_next ex ph k;
  Some (mkExecutor (ex_options ex) p n b
          (match v with Goes ph' => <[i := ph']> (calls ex) | Ends _ => delete i (calls ex) end)).

(** Any number of calls of one executor *)
Inductive rstep : ResilienceExecutor -> ResilienceExecutor -> Prop :=
| rs_start ex : rstep ex (call_start ex)
| rs_continue ex i k ex' : call_continue ex i k = Some ex' -> rstep ex ex'.

(** ** Properties *)

Definition holds_permit (ph : Phase) : bool :=
  match ph with Granted | HasPermit | Attempting _ | Completed _ => true | _ => false end.
Definition counts_as_waiting (ph : Phase) : bool :=
  match ph with Queued | Granted | Unqueued => true | _ => false end.
Definition is_probe (ph : Phase) : bool := match ph with Attempting true => true | _ => false end.

Definition is_attempting (ph : Phase) : bool := match ph with Attempting _ => true | _ => false end.

Definition count (f : Phase -> bool) (l : list Phase) : Z := sumZ (fun ph => if f ph then 1 else 0) l.

Lemma count_nonneg f l : 0 <= count f l.
Proof. apply sumZ_nonneg. intros ph. by destruct (f ph). Qed.

Lemma count_snoc f l ph : count f (l ++ [ph]) = count f l + if f ph then 1 else 0.
Proof. unfold count. rewrite sumZ_app. simpl. lia. Qed.

Lemma count_insert f l i ph ph' :
  l !! i = Some ph -> count f (<[i := ph']> l) = count f l - (if f ph then 1 else 0) + if f ph' then 1 else 0.
Proof. intros. unfold count. by rewrite (sumZ_insert _ l i ph). Qed.

Lemma count_delete f l i ph : l !! i = Some ph -> count f (delete i l) = count f l - if f ph then 1 else 0.
Proof.
  unfold count. revert i. induction l as [|x l IH]; intros [|i] H; simplify_eq/=; [lia |]. rewrite IH by done. lia.
Qed.

Lemma count_elem (f : Phase -> bool) (l : list Phase) i ph : l !! i = Some ph -> (if f ph then 1 else 0) <= count f l.
Proof.
  intros H. apply (sumZ_lookup_le (fun ph : Phase => if f ph then 1 else 0)) with (i := i); [intros x; by destruct (f x) | done].
Qed.

Lemma count_le f g l : (forall ph, f ph = true -> g ph = true) -> count f l <= count g l.
Proof.
  intros H. induction l as [|x l IH]; unfold count in *; simpl; [done |]. specialize (H x).
  destruct (f x); [rewrite (H eq_refl); lia |]. destruct (g x); lia.
Qed.

(** The verdict of an access, on a count over the calls *)
Definition verdict_calls (i : nat) (v : Verdict) (l : list Phase) : list Phase :=
  match v with Goes ph => <[i := ph]> l | Ends _ => delete i l end.
Definition verdict_count (f : Phase -> bool) (v : Verdict) : Z :=
  match v with Goes ph => if f ph then 1 else 0 | Ends _ => 0 end.

Lemma count_verdict f l i ph v :
  l !! i = Some ph -> count f (verdict_calls i v l) = count f l - (if f ph then 1 else 0) + verdict_count f v.
Proof. intros H. destruct v; simpl; [by apply count_insert | rewrite (count_delete f l i ph H); lia]. Qed.

Lemma call_continue_inv ex i k ex' :
  call_continue ex i k = Some ex' ->
  exists ph p n b v, calls ex !! i = Some ph /\ call_next ex ph k = Some (p, n, b, v)
    /\ ex' = mkExecutor (ex_options ex) p n b (verdict_calls i v (calls ex)).
Proof.
  unfold call_continue. destruct (calls ex !! i) as [ph|] eqn:E; simpl; [| done].
  destruct (call_next ex ph k) as [[[[p n] b] v]|] eqn:E2; simpl; [| done]. intros [= <-]. by eexists ph, p, n, b, v.
Qed.

(** *** Admission *)

(** Callers that were dropped while they waited, and are still counted *)
Definition leaked (ex : ResilienceExecutor) : Z := waiting ex - count counts_as_waiting (calls ex).

Definition occupied (ex : ResilienceExecutor) : option Z := (fun free => free + count holds_permit (calls ex)) <$> permits ex.

(** Permits are neither lost nor made, and the waiting count is never less than the callers that
    wait nor more than the limit. *)
Lemma call_next_counts ex ph k p n b v :
  call_next ex ph k = Some (p, n, b, v) ->
  ((fun free => free - (if holds_permit ph then 1 else 0) + verdict_count holds_permit v) <$> p = permits ex)
  /\ waiting ex - (if counts_as_waiting ph then 1 else 0) <= n - verdict_count counts_as_waiting v
  /\ (n <= waiting ex \/ n <= max_queued (ex_options ex)).
Proof.
  destruct ex as [o [q|] m c l]; unfold call_next, take_permit, free_permit;
  destruct ph, k; simpl; try done; intros H; simplify_eq/=; repeat (case_match; simplify_eq/=);
    (split_and!; [try done; f_equal; lia | bool_prop; lia | bool_prop; lia]).
Qed.

Record admission_inv (o : ResilienceOptions) (ex : ResilienceExecutor) : Prop := {
  ai_options : ex_options ex = o;
  ai_permits : permits ex = if max_concurrent o =? 0 then None else Some (max_concurrent o - count holds_permit (calls ex));
  ai_free : from_option (fun free => 0 <= free) True (permits ex);
  ai_waiting : count counts_as_waiting (calls ex) <= waiting ex <= max_queued o
}.

Lemma call_next_free ex ph k p n b v :
  call_next ex ph k = Some (p, n, b, v) -> from_option (fun free => 0 <= free) True (permits ex) ->
  from_option (fun free => 0 <= free) True p.
Proof.
  destruct ex as [o [q|] m c l]; unfold call_next, take_permit, free_permit;
  destruct ph, k; simpl; try done; intros H; simplify_eq/=; repeat (case_match; simplify_eq/=); bool_prop; try done; lia.
Qed.

Lemma admission_step o ex ex' : admission_inv o ex -> rstep ex ex' -> admission_inv o ex'.
Proof.
  intros [Ho Hp Hf Hw] Hs. destruct Hs as [ex|ex i k ex' Hc].
  - unfold call_start, take_permit in *. rewrite Hp in *. destruct (max_concurrent o =? 0) eqn:E0; simpl in *;
      [split; simpl; rewrite ?count_snoc, ?E0; simpl; try done; lia |].
    destruct (Z.ltb_spec 0 (max_concurrent o - count holds_permit (calls ex)));
      split; simpl; rewrite ?count_snoc, ?E0; simpl; try done; try lia; f_equal; lia.
  - apply call_continue_inv in Hc as (ph & p & n & b & v & Hl & Hn & ->).
    destruct (call_next_counts _ _ _ _ _ _ _ Hn) as (H1 & H2 & H3).
    pose proof (call_next_free _ _ _ _ _ _ _ Hn Hf) as H4.
    split; simpl; rewrite ?(count_verdict _ _ _ _ v Hl); [done | | done | rewrite Ho in *; lia].
    rewrite Hp in H1. destruct (max_concurrent o =? 0); destruct p as [free|]; simplify_eq/=; [done |]. f_equal. lia.
Qed.

Lemma with_policies_inv o c ex :
  0 <= max_concurrent o -> 0 <= max_queued o -> with_policies o c = Ok ex -> admission_inv o ex /\ circuit ex = circuit_new c.
Proof.
  unfold with_policies. intros ? ? H. inv_ok H. simplify_eq/=. split; [| done].
  split; simpl; [done | | |]; try (case_match; simpl); try done; try lia. f_equal. unfold count. simpl. lia.
Qed.

(** C26: However the calls of an executor interleave, and wherever they are dropped: no more than
    [max_concurrent] of them run, no more than [max_queued] wait, together no more than the two
    limits are kept, and every permit that no call holds is free.  Without a limit none waits. *)
Theorem admission_bounded o c ex0 ex :
  0 <= max_concurrent o -> 0 <= max_queued o -> with_policies o c = Ok ex0 -> rtc rstep ex0 ex ->
  0 <= waiting ex <= max_queued o
  /\ count counts_as_waiting (calls ex) <= max_queued o
  /\ (max_concurrent o = 0 -> permits ex = None /\ count counts_as_waiting (calls ex) = 0)
  /\ (max_concurrent o <> 0 ->
       permits ex = Some (max_concurrent o - count holds_permit (calls ex))
       /\ count is_attempting (calls ex) <= count holds_permit (calls ex) <= max_concurrent o
       /\ count (fun ph => holds_permit ph || counts_as_waiting ph) (calls ex) <= max_concurrent o + max_queued o).
Proof.
  intros Hc Hq He Hr. assert (admission_inv o ex) as [Ho Hp Hf Hw].
  { eapply (rtc_ind_l (fun x => admission_inv o x -> admission_inv o ex)); [done | | exact Hr | by eapply with_policies_inv].
    intros x y Hxy _ IH Hx. by eapply IH, admission_step. }
  pose proof (count_nonneg counts_as_waiting (calls ex)).
  assert (max_concurrent o = 0 -> max_queued o = 0) as Hnone.
  { unfold with_policies, options_validate in He. intros E. rewrite E in He. simpl in He.
    destruct (max_queued o =? 0) eqn:E2; [by bool_prop | done]. }
  split_and!; [lia | lia | lia | |].
  - intros E. rewrite E in Hp. specialize (Hnone E). split; [done | lia].
  - intros Hz. apply Z.eqb_neq in Hz. rewrite Hz in Hp. rewrite Hp in Hf. simpl in Hf.
    assert (count (fun ph => holds_permit ph || counts_as_waiting ph) (calls ex)
            <= count holds_permit (calls ex) + count counts_as_waiting (calls ex)).
    { generalize (calls ex) as l. unfold count. induction l as [|x l IH]; simpl; [done |].
      destruct (holds_permit x), (counts_as_waiting x); simpl; lia. }
    split_and!; [done | | lia | lia]; by apply count_le; intros [].
Qed.

(** *** The circuit and dropped calls *)

Lemma circuit_permit_cases b t r b' :
  circuit_permit b t = (r, b') ->
  match r with
  | Ok false => b' = b /\ bstate b = CLOSED
  | Ok true => bstate b' = HALF_OPEN /\ half_open_probe b' = true
      /\ (bstate b = OPEN \/ bstate b = HALF_OPEN /\ half_open_probe b = false)
  | Err e => e = circuit_open /\ b' = b /\ bstate b <> CLOSED
  end.
Proof.
  unfold circuit_permit. intros H. destruct b as [w st at_ns pr op]; destruct st, pr; simplify_eq/=; try done;
    try (case_match; simplify_eq/=); naive_solver.
Qed.

Lemma open_state b t : bstate (open b t) = OPEN.
Proof. unfold open. by destruct (bstate b) eqn:E. Qed.

Lemma circuit_complete_cases b probe (r : CatgaResult T) t :
  (probe = true -> bstate (circuit_complete b probe r t) <> HALF_OPEN)
  /\ (bstate (circuit_complete b probe r t) = HALF_OPEN ->
       bstate b = HALF_OPEN /\ half_open_probe (circuit_complete b probe r t) = half_open_probe b).
Proof.
  unfold circuit_complete, record_success, circuit_record_failure.
  destruct r as [a|e], probe; simpl; try (destruct (recoverable e)); simpl; rewrite ?open_state; try done;
    case_match; rewrite ?open_state; by simpl.
Qed.

(** An executor whose calls are not dropped: a circuit that waits for its probe has one in flight. *)
Definition probe_inv (ex : ResilienceExecutor) : Prop :=
  bstate (circuit ex) = HALF_OPEN -> half_open_probe (circuit ex) = true /\ 0 < count is_probe (calls ex).

Inductive rstep_kept : ResilienceExecutor -> ResilienceExecutor -> Prop :=
| rk_start ex : rstep_kept ex (call_start ex)
| rk_continue ex i k ex' : k <> DropFuture -> call_continue ex i k = Some ex' -> rstep_kept ex ex'.

Lemma call_next_circuit ex ph k p n b v :
  call_next ex ph k = Some (p, n, b, v) -> k <> DropFuture ->
  bstate b = HALF_OPEN ->
  (half_open_probe b = true /\ verdict_count is_probe v = 1)
  \/ (bstate (circuit ex) = HALF_OPEN /\ half_open_probe b = half_open_probe (circuit ex)
      /\ is_probe ph = false).
Proof.
  unfold call_next. destruct ph, k; simpl; intros H Hk Hb; try done; simplify_eq/=; try (by right);
    try (repeat (case_match; simplify_eq/=); by right).
  - destruct (take_permit (permits ex)); simplify_eq/=. by right.
  - destruct (circuit_permit (circuit ex) now) as [r b'] eqn:E. apply circuit_permit_cases in E.
    destruct r as [[]|e]; simplify_eq/=; [left | right..]; naive_solver.
  - destruct (circuit_complete_cases (circuit ex) probe result now) as [H1 H2].
    destruct probe; [by destruct H1 | right]. destruct (H2 Hb). naive_solver.
Qed.

Lemma probe_step ex ex' : probe_inv ex -> rstep_kept ex ex' -> probe_inv ex'.
Proof.
  intros Hi Hs. destruct Hs as [ex|ex i k ex' Hk Hc]; intros Hb.
  - unfold call_start in *. destruct (take_permit (permits ex)); simpl in *; rewrite count_snoc; simpl;
      destruct (Hi Hb); split; [done | lia | done | lia].
  - apply call_continue_inv in Hc as (ph & p & n & b & v & Hl & Hn & ->). simpl in *.
    rewrite (count_verdict _ _ _ _ v Hl). pose proof (count_nonneg is_probe (calls ex)).
    assert ((if is_probe ph then 1 else 0) <= count is_probe (calls ex)).
    { by eapply count_elem. }
    assert (0 <= verdict_count is_probe v) by (destruct v as [x|]; simpl; [by destruct (is_probe x) | done]).
    destruct (call_next_circuit _ _ _ _ _ _ _ Hn Hk Hb) as [[-> ->]|(H2 & -> & Hp)]; [split; [done | lia] |].
    rewrite Hp. destruct (Hi H2). split; [done | lia].
Qed.

(** Calls that run to their end let the circuit recover: when no probe is in flight and the reset
    timeout is over, the next call goes through. *)
Theorem circuit_recovers o c ex0 ex t :
  with_policies o c = Ok ex0 -> rtc rstep_kept ex0 ex -> count is_probe (calls ex) = 0 ->
  reset_timeout (options (circuit ex)) <= elapsed_since_open (circuit ex) t ->
  exists probe b, circuit_permit (circuit ex) t = (Ok probe, b).
Proof.
  intros He Hr Hp Ht. assert (probe_inv ex) as Hi.
  { eapply (rtc_ind_l (fun x => probe_inv x -> probe_inv ex)); [done | | exact Hr |].
    - intros x y Hxy _ IH Hx. by eapply IH, probe_step.
    - unfold with_policies in He. inv_ok He. by simplify_eq/=. }
  destruct (circuit_permit (circuit ex) t) as [[probe|e] b] eqn:E; [by exists probe, b |]. exfalso.
  unfold circuit_permit in E. destruct (bstate (circuit ex)) eqn:Eb; simplify_eq/=.
  - case_match; bool_prop; [lia | done].
  - destruct (Hi Eb). lia.
Qed.

Lemma leaked_step ex ex' : rstep ex ex' -> leaked ex <= leaked ex'.
Proof.
  intros [x|x i k x' Hc]; unfold leaked.
  - unfold call_start. destruct (take_permit (permits x)); simpl; rewrite count_snoc; simpl; lia.
  - apply call_continue_inv in Hc as (ph & p & n & b & v & Hl & Hn & ->). simpl.
    rewrite (count_verdict _ _ _ _ v Hl). apply call_next_counts in Hn. lia.
Qed.

Definition stuck (ex : ResilienceExecutor) : Prop :=
  bstate (circuit ex) = HALF_OPEN /\ half_open_probe (circuit ex) = true /\ count is_attempting (calls ex) = 0.

Lemma stuck_step ex ex' : stuck ex -> rstep ex ex' -> stuck ex'.
Proof.
  intros (Hb & Hp & Hc) Hstep. destruct Hstep as [x|x i k x' Hs].
  - unfold stuck, call_start. destruct (take_permit (permits x)); simpl; rewrite count_snoc; simpl; split_and!; auto; lia.
  - apply call_continue_inv in Hs as (ph & p & n & b & v & Hl & Hn & ->). unfold stuck. simpl.
    rewrite (count_verdict _ _ _ _ v Hl).
    assert ((if is_attempting ph then 1 else 0) <= 0) as Ha.
    { etrans; [by eapply count_elem | by rewrite Hc]. }
    unfold call_next, circuit_permit in Hn. rewrite Hb, Hp in Hn.
    destruct ph, k; simpl in *; try done; simplify_eq/=; try (split_and!; [done | done | lia]);
      repeat (case_match; simplify_eq/=); try (split_and!; [done | done | lia]).
    destruct (take_permit (permits x)); simplify_eq/=. split_and!; [done | done | lia].
Qed.

Lemma forever (P : ResilienceExecutor -> Prop) ex ex' :
  (forall x y, P x -> rstep x y -> P y) -> P ex -> rtc rstep ex ex' -> P ex'.
Proof. intros Hs HP Hr. induction Hr; [done |]. eauto. Qed.
End calls.

Arguments Phase : clear implicits.
Arguments ResilienceExecutor : clear implicits.
Arguments Wake : clear implicits.

(** A schedule: a call starts, or the call at a place goes on *)
Definition perform {T} (ex : ResilienceExecutor T) (a : option (nat * Wake T)) : ResilienceExecutor T :=
  match a with
  | None => call_start ex
  | Some (i, k) => default ex (call_continue ex i k)
  end.

Lemma perform_steps {T} (schedule : list (option (nat * Wake T))) ex : rtc rstep ex (foldl perform ex schedule).
Proof.
  revert ex. induction schedule as [|a l IH]; intros ex; simpl; [done |].
  etrans; [| apply IH]. destruct a as [[i k]|]; simpl; [| by apply rtc_once; constructor].
  destruct (call_continue ex i k) eqn:E; simpl; [| done]. apply rtc_once. by econstructor.
Qed.

(** One call at a time and one that waits; one failure opens the circuit. *)
Definition narrow : ResilienceOptions := mkResilience 1 1 (from_secs 3) 0 0 1 (from_secs 30).
Definition narrow_start : ResilienceExecutor unit :=
  mkExecutor narrow (Some 1) 0 (circuit_new (options_builder 1 (from_secs 30))) [].

(** A call fails, 30 seconds later the probe is dropped. *)
Definition probe_dropped : ResilienceExecutor unit :=
  foldl perform narrow_start
    [None; Some (0%nat, Resume 0); Some (0%nat, EndAttempts (fail Transient "down") 0); Some (0%nat, Resume 0);
     None; Some (0%nat, Resume (from_secs 30)); Some (0%nat, DropFuture)].

(** A call runs while another one waits, is dropped, and the first one succeeds. *)
Definition waiter_dropped : ResilienceExecutor unit :=
  foldl perform narrow_start
    [None; Some (0%nat, Resume 0); None; Some (1%nat, Resume 0); Some (1%nat, DropFuture);
     Some (0%nat, EndAttempts (Ok tt) 0); Some (0%nat, Resume 0)].

(** C40: Dropped calls can shut an executor for good.  After a dropped probe no call is in flight and
    the circuit stays half open with its probe flag set: whatever happens later, no operation is
    called and every call is refused as by an open circuit.  After a dropped waiting caller the
    executor is idle with all permits free, and yet its queue is full: no caller ever waits again,
    and one that finds no permit is refused. *)
Theorem dropped_calls_block :
  with_jitter narrow = Ok narrow_start
  /\ (rtc rstep narrow_start probe_dropped /\ calls probe_dropped = []
      /\ forall ex, rtc rstep probe_dropped ex ->
           count is_attempting (calls ex) = 0 /\ forall t, circuit_permit (circuit ex) t = (Err circuit_open, circuit ex))
  /\ rtc rstep narrow_start waiter_dropped /\ calls waiter_dropped = [] /\ permits waiter_dropped = Some 1
  /\ forall ex, rtc rstep waiter_dropped ex ->
       count counts_as_waiting (calls ex) = 0
       /\ forall t, exists same, call_next ex Trying (Resume t)
            = Some (same, Ends (Some (Err (unavailable "resilience executor admission queue is full")))).
Proof.
  split_and!; [done | apply perform_steps | done | | apply perform_steps | done | done |].
  - intros ex Hr. assert (stuck ex) as (Hb & Hp & Hc).
    { eapply (forever stuck); [apply stuck_step | | exact Hr]. by vm_compute. }
    split; [done |]. intros t. unfold circuit_permit. by rewrite Hb, Hp.
  - intros ex Hr. assert (admission_inv narrow ex /\ 1 <= leaked ex) as [[Ho _ _ Hw] Hk].
    { eapply (forever (fun x => admission_inv narrow x /\ 1 <= leaked x)); [| | exact Hr].
      - intros x y [Hi Hl] Hs. split; [by eapply admission_step |]. pose proof (leaked_step _ _ Hs). lia.
      - split; [| by vm_compute]. eapply (forever (admission_inv narrow)); [apply admission_step | | apply perform_steps].
        by split; vm_compute. }
    unfold leaked in Hk. simpl in Hw. pose proof (count_nonneg counts_as_waiting (calls ex)).
    split; [lia |]. intros t. eexists. unfold call_next. rewrite Ho. rewrite (proj2 (Z.leb_le _ _)) by (simpl; lia). done.
Qed.

Lemma admission_bounded_witness :
  let busy := foldl perform narrow_start [None; Some (0%nat, Resume 0); None; Some (1%nat, Resume 0); None] in
  calls busy = [Attempting false; Queued; Trying] /\ count counts_as_waiting (calls busy) <= 1.
Proof.
  split; [by vm_compute |].
  destruct (admission_bounded narrow (options_builder 1 (from_secs 30)) narrow_start
    (foldl perform narrow_start [None; Some (0%nat, Resume 0); None; Some (1%nat, Resume 0); None])) as (_ & H & _);
    [by vm_compute | by vm_compute | by vm_compute | apply perform_steps | exact H].
Defined.

(** *** Attempts *)

Section attempts_alone.
Context {T : Type} (o : ResilienceOptions) (jitter : RetryJitter) (outcome : nat -> CatgaResult T).

#[local] Arguments Nat.ltb : simpl never.
#[local] Arguments jitter_delay : simpl never.
#[local] Arguments seq : simpl never.

(** A world that records the attempts; the caller's token is not cancelled. *)
Record AttemptLog := mkAttempts { al_jitter : Z; al_called : list nat }.

Definition logged_operation (retry : nat) : Task AttemptLog (CatgaResult T) :=
  atomically (fun w => (outcome retry, mkAttempts (al_jitter w) (al_called w ++ [retry]))).

Definition logged_attempts : Task AttemptLog (CatgaResult T) :=
  attempts o jitter al_jitter (fun s w => mkAttempts s (al_called w)) (fun _ => false) (fun _ w => w) logged_operation.

Definition gives_up (retry : nat) : bool :=
  match outcome retry with Ok _ => true | Err e => negb ((retry <? max_retries o)%nat && recoverable e) end.

Lemma logged_loop n k w :
  (forall i, (k <= i < k + n)%nat -> gives_up i = false) -> gives_up (k + n) = true -> (k + n <= max_retries o)%nat ->
  exists w', run_alone (attempts_loop o jitter al_jitter (fun s w => mkAttempts s (al_called w)) (fun _ => false)
      (fun _ w => w) logged_operation (seq k (S (max_retries o) - k))) w = (Some (outcome (k + n)%nat), w')
    /\ al_called w' = al_called w ++ seq k (S n).
Proof.
  revert k w. induction n as [|n IH]; intros k w Hno Hyes Hle;
    replace (S (max_retries o) - k)%nat with (S (max_retries o - k)) by lia; rewrite <-cons_seq;
    cbn.
  - unfold gives_up in Hyes. rewrite Nat.add_0_r in *. destruct (outcome k) as [a|e] eqn:E; cbn; [by eexists |].
    apply negb_true_iff in Hyes. rewrite Hyes. cbn. by eexists.
  - assert (gives_up k = false) as Hk by (apply Hno; lia). unfold gives_up in Hk.
    destruct (outcome k) as [a|e] eqn:E; [done |]. apply negb_false_iff in Hk. rewrite Hk.
    cbn.
    destruct (jitter_delay jitter (options_retry_delay o k) (al_jitter w)) as [d s]. cbn.
    replace (max_retries o - k)%nat with (S (max_retries o) - S k)%nat by lia.
    destruct (IH (S k) (mkAttempts s (al_called w ++ [k]))) as (w' & Hw & Hc);
      [intros i Hi; apply Hno; lia | by replace (S k + n)%nat with (k + S n)%nat by lia | lia |].
    exists w'. replace (k + S n)%nat with (S k + n)%nat by lia. split; [by destruct (d =? 0); cbn |].
    rewrite Hc. cbn. by rewrite <-app_assoc.
Qed.

(** The operation is called for the attempts [0], [1], ... up to the first outcome that is a success
    or an error that is not recoverable, and at most [max_retries] times after the first; the call
    returns the outcome of the last attempt, and never the error at the end of the loop. *)
Theorem attempts_exact w :
  exists n w', (n <= max_retries o)%nat /\ run_alone logged_attempts w = (Some (outcome n), w')
    /\ al_called w' = al_called w ++ seq 0 (S n)
    /\ (forall i, (i < n)%nat -> exists e, outcome i = Err e /\ recoverable e = true)
    /\ (n = max_retries o \/ forall e, outcome n = Err e -> recoverable e = false).
Proof.
  destruct (decide (Exists (fun i => gives_up i = true) (seq 0 (S (max_retries o))))) as [H|H].
  2: { exfalso. apply H, Exists_exists. exists (max_retries o). split; [apply elem_of_seq; lia |].
       unfold gives_up. destruct (outcome _); [done |]. by rewrite Nat.ltb_irrefl. }
  assert (exists n, (n <= max_retries o)%nat /\ gives_up n = true /\ forall i, (i < n)%nat -> gives_up i = false) as (n & Hn & Hy & Hl).
  { apply Exists_exists in H as (m & Hm%elem_of_seq & Hy). revert Hm Hy. induction m as [m IH] using lt_wf_ind. intros Hm Hy.
    destruct (decide (Exists (fun i => gives_up i = true) (seq 0 m))) as [Hx|Hx].
    - apply Exists_exists in Hx as (j & Hj%elem_of_seq & Hyj). apply (IH j); [lia | lia | done].
    - exists m. split_and!; [lia | done |]. intros i Hi. destruct (gives_up i) eqn:E; [| done].
      destruct Hx. apply Exists_exists. exists i. split; [apply elem_of_seq; lia | done]. }
  destruct (logged_loop n 0 w) as (w' & Hw & Hc); [intros i Hi; apply Hl; lia | done | lia |].
  exists n, w'. split_and!; [done | by rewrite Nat.sub_0_r in Hw | done | |].
  - intros i Hi. specialize (Hl i Hi). unfold gives_up in Hl. destruct (outcome i) as [a|e]; [done |].
    exists e. split; [done |]. by apply negb_false_iff, andb_true_iff in Hl as [_ Hl].
  - unfold gives_up in Hy. destruct (decide (n = max_retries o)); [by left | right]. intros e He. rewrite He in Hy.
    rewrite (proj2 (Nat.ltb_lt _ _)) in Hy by lia. by apply negb_true_iff in Hy.
Qed.
End attempts_alone.
