(* ===== verification/Lifecycle.v ===== *)
(** * Lifecycle ([lifecycle.rs])

    The gate that stops new work, the count of operations that must drain before shutdown, the
    bounded shutdown of a transport, and recovery sweeps over registered components.  The counter
    and its waiters are a step relation over single atomic accesses; the sweeps are tasks. *)

From S2P Require Import Prelude Errors Time Dsl Tasks.

(** ** [AcceptanceGate] *)

Definition ensure_accepting (accepting : bool) : CatgaResult unit :=
  if accepting then Ok tt else fail Unavailable "transport is not accepting new messages".

(** ** [OperationTracker]

    A guard is an operation that began; completing it or dropping it releases its slot once, by two
    accesses: the swap of its flag with the update of the counter, and, when the counter reached
    zero, the notification.  A waiter goes round the loop of [wait_for_completion]; its [Notified]
    future receives every [notify_waiters] after its creation, which the number of notifications so
    far at that time stands for. *)

Inductive Guard := Open | Done_ | Notifying.

Inductive Waiter :=
| FirstCheck
| SecondCheck (created : nat)
| Waiting (created : nat)
| Returned.

Record OperationTracker := mkTracker {
  pending : Z;
  notified : nat;
  guards : list Guard;
  waiters : list Waiter
}.

Definition tracker_default : OperationTracker := mkTracker 0 0 [] [].

Definition begin_operation (t : OperationTracker) : OperationTracker :=
  mkTracker (wrapping u64 (pending t + 1)) (notified t) (guards t ++ [Open]) (waiters t).

(** [OperationGuard::complete] up to [complete_operation]'s update: [checked_sub] leaves zero as it
    is; who takes the last operation has the notification to do. *)
Definition guard_complete (t : OperationTracker) (i : nat) : OperationTracker :=
  match guards t !! i with
  | Some Open =>
      if pending t =? 0 then mkTracker (pending t) (notified t) (<[i := Done_]> (guards t)) (waiters t)
      else
        mkTracker (pending t - 1) (notified t)
          (<[i := if pending t =? 1 then Notifying else Done_]> (guards t)) (waiters t)
  | _ => t
  end.

(** [drained.notify_waiters()] *)
Definition notify_waiters (t : OperationTracker) (i : nat) : OperationTracker :=
  match guards t !! i with
  | Some Notifying => mkTracker (pending t) (S (notified t)) (<[i := Done_]> (guards t)) (waiters t)
  | _ => t
  end.

(** [wait_for_completion], access by access; [None] for a waiter that has to wait. *)
Definition waiter_next (t : OperationTracker) (w : Waiter) : option Waiter :=
  match w with
  | FirstCheck => Some (if pending t =? 0 then Returned else SecondCheck (notified t))
  | SecondCheck created => Some (if pending t =? 0 then Returned else Waiting created)
  | Waiting created => if (created <? notified t)%nat then Some FirstCheck else None
  | Returned => None
  end.

Definition set_waiters (t : OperationTracker) (l : list Waiter) : OperationTracker :=
  mkTracker (pending t) (notified t) (guards t) l.

(** Operations and waiters of one tracker, with any interleaving of their accesses *)
Inductive tstep : OperationTracker -> OperationTracker -> Prop :=
| ts_begin t : pending t + 1 <= int_max u64 -> tstep t (begin_operation t)
| ts_complete t i : tstep t (guard_complete t i)
| ts_notify t i : tstep t (notify_waiters t i)
| ts_wait t : tstep t (set_waiters t (waiters t ++ [FirstCheck]))
| ts_waiter t i w w' : waiters t !! i = Some w -> waiter_next t w = Some w' -> tstep t (set_waiters t (<[i := w']> (waiters t)))
| ts_cancelled t i c : waiters t !! i = Some (Waiting c) -> tstep t (set_waiters t (<[i := Returned]> (waiters t))).

Definition is_open (g : Guard) : Z := match g with Open => 1 | _ => 0 end.
Definition is_notifying (g : Guard) : Z := match g with Notifying => 1 | _ => 0 end.

(** A waiter that sleeps has an operation to wait for, or a notification to come. *)
Definition waiter_ok (t : OperationTracker) (w : Waiter) : Prop :=
  match w with
  | SecondCheck c => (c <= notified t)%nat
  | Waiting c => (c <= notified t)%nat
      /\ (c = notified t -> 0 < pending t \/ 0 < sumZ is_notifying (guards t))
  | _ => True
  end.

Record tracker_inv (t : OperationTracker) : Prop := {
  ti_pending : pending t = sumZ is_open (guards t);
  ti_waiters : forall i w, waiters t !! i = Some w -> waiter_ok t w
}.

Lemma is_open_nonneg l : 0 <= sumZ is_open l.
Proof. apply sumZ_nonneg. by intros []. Qed.
Lemma is_notifying_nonneg l : 0 <= sumZ is_notifying l.
Proof. apply sumZ_nonneg. by intros []. Qed.

Lemma guard_slot l i g : l !! i = Some g -> is_open g <= sumZ is_open l /\ is_notifying g <= sumZ is_notifying l.
Proof. intros Hg. split; eapply sumZ_lookup_le; try done; by intros []. Qed.

(** What does not concern the waiters and only adds what they wait for keeps them. *)
Lemma waiter_ok_mono t t' w :
  (notified t < notified t')%nat \/ notified t = notified t'
     /\ (0 < pending t \/ 0 < sumZ is_notifying (guards t) ->
         0 < pending t' \/ 0 < sumZ is_notifying (guards t')) ->
  waiter_ok t w -> waiter_ok t' w.
Proof. destruct w; simpl; try done; [lia |]. intros [Hn|[Hn Hx]] [Hc Hr]; split; lia. Qed.

Lemma tracker_step t t' : tracker_inv t -> tstep t t' -> tracker_inv t'.
Proof.
  intros [Hp Hw] Hs. destruct Hs as [t Hmax|t i|t i|t|t i w w' Hi Hn|t i c Hi];
    pose proof (is_open_nonneg (guards t)); pose proof (is_notifying_nonneg (guards t)).
  - unfold begin_operation. rewrite wrapping_id by (try done; change (int_min u64) with 0; lia).
    split; simpl; [rewrite sumZ_app; simpl; lia |]. intros i w Hi.
    eapply waiter_ok_mono, Hw; [right; simpl; rewrite sumZ_app; simpl; lia | done].
  - unfold guard_complete. destruct (guards t !! i) as [[]|] eqn:Eg; try by split.
    destruct (guard_slot _ _ _ Eg) as [Ho _]. simpl in Ho. destruct (Z.eqb_spec (pending t) 0); [lia |].
    split; simpl; [rewrite (sumZ_insert _ _ _ _ _ Eg); case_match; simpl; lia |]. intros j w Hj.
    eapply waiter_ok_mono, Hw; [right; simpl; rewrite (sumZ_insert _ _ _ _ _ Eg) | exact Hj].
    destruct (Z.eqb_spec (pending t) 1); simpl; lia.
  - unfold notify_waiters. destruct (guards t !! i) as [[]|] eqn:Eg; try by split.
    split; simpl; [rewrite (sumZ_insert _ _ _ _ _ Eg); simpl; lia |]. intros j w Hj.
    eapply waiter_ok_mono, Hw; [left; simpl; lia | exact Hj].
  - split; simpl; [done |]. intros j w [Hj|[_ Hj]]%lookup_app_Some; [by apply (Hw j) |].
    by apply list_lookup_singleton_Some in Hj as [_ <-].
  - split; simpl; [done |]. intros j x [(-> & <- & _)|[_ Hj]]%list_lookup_insert_Some; [| by apply (Hw j)].
    specialize (Hw _ _ Hi). unfold waiter_next in Hn. destruct w; simplify_eq/=;
      repeat (case_match; simplify_eq/=); bool_prop; try done; try lia.
  - split; simpl; [done |]. intros j x [(-> & <- & _)|[_ Hj]]%list_lookup_insert_Some; [done | by apply (Hw j)].
Qed.

(** The counter is exact, and no wake-up is lost: when the last operation has completed and its
    notification is done, every waiter that sleeps was woken, and returns at its next check. *)
Theorem drained_waiters_wake t :
  rtc tstep tracker_default t ->
  pending t = sumZ is_open (guards t)
  /\ (pending t = 0 -> sumZ is_notifying (guards t) = 0 ->
      forall i c, waiters t !! i = Some (Waiting c) ->
        waiter_next t (Waiting c) = Some FirstCheck /\ waiter_next t FirstCheck = Some Returned).
Proof.
  intros Hr. assert (tracker_inv t) as [Hp Hw].
  { eapply (rtc_ind_l (fun x => tracker_inv x -> tracker_inv t)); [done | | exact Hr | by split].
    intros x y Hxy _ IH Hx. by eapply IH, tracker_step. }
  split; [done |]. intros H0 Hn i c Hi. specialize (Hw _ _ Hi) as [Hc Hz]. simpl.
  rewrite H0. destruct (Nat.ltb_spec c (notified t)); [done | lia].
Qed.

(** ** Recovery of components

    [recovering], [set_recovering]: the flag of a manager in the world; [cancelled]: the state of a
    token.  The measured duration of a sweep is left out. *)

Section recovery.
Context {W : Type} (recovering : W -> bool) (set_recovering : bool -> W -> W).

Record RecoverableComponent := mkComponent {
  rc_name : string;
  rc_is_healthy : W -> bool;
  rc_recover : Task W (CatgaResult unit)
}.

Inductive RecoveryResult :=
| AlreadyRecovering
| CompletedSweep (succeeded failed : nat).

Definition recovery_cancelled : CatgaError := CatgaError_new Cancelled "recovery was cancelled".

(** [None] when the token was cancelled *)
Definition recover_component (c : RecoverableComponent) (cancellation : option (W -> bool)) : Task W (option bool) :=
  let recovery := catch_unwind (rc_recover c) in
  let succeeded x := match x with Some (Ok _) => true | _ => false end in
  match cancellation with
  | None => await x := recovery in Done (Some (succeeded x))
  | Some cancelled => await x := select_cancelled cancelled recovery in Done (succeeded <$> x)
  end.

Definition check_cancelled (cancellation : option (W -> bool)) : Task W bool :=
  match cancellation with
  | None => Done false
  | Some cancelled => atomically (fun w => (cancelled w, w))
  end.

Definition needs_recovery (only_unhealthy : bool) (c : RecoverableComponent) : Task W bool :=
  if only_unhealthy then atomically (fun w => (negb (rc_is_healthy c w), w)) else Done true.

(** The loop of the four sweeps *)
Fixpoint sweep_from (cancellation : option (W -> bool)) (only_unhealthy : bool) (components : list RecoverableComponent)
    (succeeded failed : nat) : Task W (option RecoveryResult) :=
  match components with
  | [] => Done (Some (CompletedSweep succeeded failed))
  | c :: rest =>
      await stop := check_cancelled cancellation in
      if stop : bool then Done None
      else
        await needed := needs_recovery only_unhealthy c in
        if needed : bool then
          await r := recover_component c cancellation in
          match r with
          | None => Done None
          | Some true => sweep_from cancellation only_unhealthy rest (S succeeded) failed
          | Some false => sweep_from cancellation only_unhealthy rest succeeded (S failed)
          end
        else sweep_from cancellation only_unhealthy rest succeeded failed
  end.

(** [RecoveryGuard] clears the flag when the sweep ends, is dropped or panics. *)
Definition clear_flag (w : W) : W := set_recovering false w.

Definition releasing_flag {A} (a : A) : Task W A := Await clear_flag (fun _ => clear_flag) (fun _ _ => Done a).

Definition owned_sweep (cancellation : option (W -> bool)) (only_unhealthy : bool) (components : W -> list RecoverableComponent)
    : Task W (option RecoveryResult) :=
  await r := guarded clear_flag
    (await cs := atomically (fun w => (components w, w)) in sweep_from cancellation only_unhealthy cs 0 0) in
  releasing_flag r.

Definition sweep (cancellation : option (W -> bool)) (only_unhealthy : bool) (components : W -> list RecoverableComponent)
    : Task W (option RecoveryResult) :=
  await stop := check_cancelled cancellation in
  if stop : bool then Done None
  else
    await busy := atomically (fun w => if recovering w then (true, w) else (false, set_recovering true w)) in
    if busy : bool then Done (Some AlreadyRecovering)
    else owned_sweep cancellation only_unhealthy components.

Definition until_result (r : option RecoveryResult) : CatgaResult RecoveryResult :=
  match r with Some x => Ok x | None => Err recovery_cancelled end.

(** A sweep without a token is not cancelled ([uncancelled_sweep] below). *)
Definition recover_all components : Task W RecoveryResult :=
  await r := sweep None false components in Done (default AlreadyRecovering r).
Definition recover_unhealthy components : Task W RecoveryResult :=
  await r := sweep None true components in Done (default AlreadyRecovering r).
Definition recover_all_until (cancelled : W -> bool) components : Task W (CatgaResult RecoveryResult) :=
  await r := sweep (Some cancelled) false components in Done (until_result r).
Definition recover_unhealthy_until (cancelled : W -> bool) components : Task W (CatgaResult RecoveryResult) :=
  await r := sweep (Some cancelled) true components in Done (until_result r).

(** [register]: the exchange that succeeds *)
Definition register (component : RecoverableComponent) (components : list RecoverableComponent) :=
  components ++ [component].

(** *** Automatic recovery *)

Record AutoRecoveryOptions := mkAutoRecovery {
  check_interval : Duration;
  auto_max_retries : nat;
  auto_retry_delay : Duration;
  exponential_backoff : bool
}.

Definition AutoRecoveryOptions_default : AutoRecoveryOptions := mkAutoRecovery (from_secs 30) 3 (from_secs 1) true.

Definition auto_validate (o : AutoRecoveryOptions) : CatgaResult unit :=
  if check_interval o =? 0 then fail Validation "automatic recovery check_interval must be greater than zero"
  else if (auto_max_retries o =? 0)%nat then fail Validation "automatic recovery max_retries must be greater than zero"
  else Ok tt.

Definition auto_delay (o : AutoRecoveryOptions) (retry : nat) : Duration :=
  if negb (exponential_backoff o) then auto_retry_delay o else retry_delay (auto_retry_delay o) (Z.of_nat retry).

(** The loop over [0..max_retries]; [sleep]s for [auto_delay] *)
Fixpoint retry_from_attempt (o : AutoRecoveryOptions) (cancelled : W -> bool) components (attempts : list nat) : Task W bool :=
  match attempts with
  | [] => Done true
  | attempt :: rest =>
      await stop := atomically (fun w => (cancelled w, w)) in
      if stop : bool then Done false
      else
        await r := recover_unhealthy_until cancelled components in
        match (match r with
               | Ok (CompletedSweep _ failed) => Some (negb (failed =? 0)%nat)
               | Ok AlreadyRecovering => Some false
               | Err error => if bool_decide (code error = Cancelled) then None else Some true
               end) with
        | None => Done false
        | Some failed =>
            if negb failed || (attempt + 1 =? auto_max_retries o)%nat then Done true
            else
              await slept := select_cancelled cancelled sleep in
              match slept with None => Done false | Some _ => retry_from_attempt o cancelled components rest end
        end
  end.

Definition retry_recovery (o : AutoRecoveryOptions) (cancelled : W -> bool) components : Task W bool :=
  retry_from_attempt o cancelled components (seq 0 (auto_max_retries o)).

(** [rounds] of the endless loop; [None] when it still runs after them *)
Fixpoint auto_rounds (rounds : nat) (o : AutoRecoveryOptions) (cancelled : W -> bool) components
    : Task W (option (CatgaResult unit)) :=
  match rounds with
  | O => Done None
  | S rounds =>
      await stop := atomically (fun w => (cancelled w, w)) in
      if stop : bool then Done (Some (Ok tt))
      else
        await more := retry_recovery o cancelled components in
        if negb more then Done (Some (Ok tt))
        else
          await slept := select_cancelled cancelled sleep in
          match slept with None => Done (Some (Ok tt)) | Some _ => auto_rounds rounds o cancelled components end
  end.

Definition run_auto_recovery (rounds : nat) (o : AutoRecoveryOptions) (cancelled : W -> bool) components
    : Task W (option (CatgaResult unit)) :=
  match auto_validate o with
  | Err e => Done (Some (Err e))
  | Ok _ => auto_rounds rounds o cancelled components
  end.
End recovery.

(** ** [TransportLifecycle::shutdown] *)

Section shutdown.
Context {W : Type}.

Inductive TransportShutdown :=
| Drained
| CancelledDrain (pending_operations : Z)
| TimedOut (pending_operations : Z).

(** The drain timeout of [TransportLifecycleOptions] *)
Definition lifecycle_validate (drain_timeout : Duration) : CatgaResult unit :=
  if drain_timeout =? 0 then fail Validation "transport drain_timeout must be greater than zero" else Ok tt.

Class Drainable := {
  stop_accepting : W -> W;
  wait_for_completion : (W -> bool) -> Task W (CatgaResult unit);
  pending_operations : W -> Z
}.

(** The three branches of the [select!]; the drain future is given the same token. *)
Definition shutdown `{!Drainable} (drain_timeout : Duration) (cancelled : W -> bool)
    : Task W (CatgaResult TransportShutdown) :=
  match lifecycle_validate drain_timeout with
  | Err e => Done (Err e)
  | Ok _ =>
      await _ := atomically (fun w => (tt, stop_accepting w)) in
      await outcome := select_cancelled cancelled (timed (wait_for_completion cancelled)) in
      match outcome with
      | None => await n := atomically (fun w => (pending_operations w, w)) in Done (Ok (CancelledDrain n))
      | Some None => await n := atomically (fun w => (pending_operations w, w)) in Done (Ok (TimedOut n))
      | Some (Some (Err e)) => Done (Err e)
      | Some (Some (Ok _)) => Done (Ok Drained)
      end
  end.
End shutdown.

(** ** Properties *)

(** *** Sweeps are exclusive *)

Section exclusive.
Context {W : Type} (recovering : W -> bool) (set_recovering : bool -> W -> W).
Hypothesis (Hset : forall b w, recovering (set_recovering b w) = b).

(** What a component may do to the flag of the manager that recovers it: nothing while it is set. *)
Definition keeps_flag (w w' : W) : Prop := recovering w = true -> recovering w' = true.

(** A task that owns the flag gives it back at its end, when it is dropped and when it panics; one
    that does not own it leaves it alone or takes it when it is free. *)
Fixpoint flag_task {A} (own : bool) (t : Task W A) : Prop :=
  match t with
  | Await d e n => forall w,
      if own then
        recovering w = true ->
        recovering (d w) = false /\ forall c, flag_task (recovering (e c w)) (n c w)
      else
        recovering (d w) = recovering w
        /\ forall c, (recovering (e c w) = recovering w /\ flag_task false (n c w))
             \/ (recovering w = false /\ recovering (e c w) = true /\ flag_task true (n c w))
  | _ => own = false
  end.

Lemma clear_flag_off w : recovering (clear_flag set_recovering w) = false.
Proof. apply Hset. Qed.

#[local] Instance keeps_flag_trans : Transitive keeps_flag.
Proof. intros x y z Hxy Hyz Hx. auto. Qed.

Lemma guarded_owns {A} (t : Task W A) :
  respects keeps_flag t ->
  flag_task true (await r := guarded (clear_flag set_recovering) t in releasing_flag set_recovering r).
Proof.
  induction t as [a| |d e n IH]; simpl; intros H.
  - intros w _. split; [apply clear_flag_off |]. intros c. by rewrite clear_flag_off.
  - intros w _. split; [apply clear_flag_off |]. intros c. by rewrite clear_flag_off.
  - intros w Hw. split; [apply clear_flag_off |]. intros c. destruct H as [_ H]. destruct (H c w) as [He Hn].
    specialize (IH c w Hn). destruct (n c w) as [a| |d' e' n'] eqn:E; cbn [is_panic];
      [rewrite (He Hw); exact IH | by rewrite clear_flag_off | rewrite (He Hw); exact IH].
Qed.

Lemma flag_bind {A B} (t : Task W A) (k : A -> Task W B) own :
  flag_task own t -> (forall a, flag_task false (k a)) -> flag_task own (tbind t k).
Proof.
  intros H Hk. revert own H. induction t as [a| |d e n IH]; simpl; intros own H; [by subst; apply Hk | done |].
  intros w. specialize (H w). destruct own.
  - intros Hw. destruct (H Hw) as [Hd Hc]. split; [done |]. intros c. by apply IH.
  - destruct H as [Hd Hc]. split; [done |]. intros c. destruct (Hc c) as [[? ?]|(? & ? & ?)]; [left | right]; auto.
Qed.

Lemma flag_atomically {A} (f : W -> A * W) : (forall w, recovering (snd (f w)) = recovering w) -> flag_task false (atomically f).
Proof. intros H w. split; [done |]. intros c. by left. Qed.

Lemma sweep_from_respects cancellation only_unhealthy cs s f :
  Forall (fun c => respects keeps_flag (rc_recover c)) cs ->
  respects keeps_flag (sweep_from cancellation only_unhealthy cs s f).
Proof.
  intros H. revert s f. induction H as [|c cs Hc _ IH]; intros s f; [done |]. cbn [sweep_from].
  apply respects_bind; [destruct cancellation; [apply respects_atomically; by split; intros ? | done] |]. intros []; [done |].
  apply respects_bind; [destruct only_unhealthy; [apply respects_atomically; by split; intros ? | done] |]. intros []; [| apply IH].
  apply respects_bind; [| by intros [[]|]].
  unfold recover_component. destruct cancellation; (apply respects_bind; [| done]);
    [apply respects_select; [apply _ |] |]; by apply respects_catch.
Qed.

Lemma sweep_flag cancellation only_unhealthy components :
  (forall w, Forall (fun c => respects keeps_flag (rc_recover c)) (components w)) ->
  flag_task false (sweep recovering set_recovering cancellation only_unhealthy components).
Proof.
  intros H. unfold sweep, check_cancelled. apply flag_bind; [destruct cancellation; [by apply flag_atomically | done] |]. intros []; [done |].
  intros w. split; [done |]. intros c. cbn. destruct (recovering w) eqn:E; cbn; [by left |].
  right. rewrite Hset. split_and!; [done | done |].
  apply (guarded_owns (await cs := atomically (fun w => (components w, w)) in sweep_from cancellation only_unhealthy cs 0 0)).
  split; [by intros w1 ? |]. intros c1 w1. split; [by intros ? |]. apply sweep_from_respects, H.
Qed.

(** *** Any number of callers of one manager *)

Context {L : Type} (env : W -> W -> Prop) (start : L -> Task W (option RecoveryResult)).
Hypothesis (Henv : forall w w', env w w' -> recovering w' = recovering w).
Hypothesis (Hstart : forall l, flag_task false (start l)).

Definition slot_flag (own : bool) (s : Slot W (option RecoveryResult)) : Prop :=
  match s with Running t => flag_task own t | _ => own = false end.

Definition owner_count (owners : list bool) : Z := sumZ (fun b : bool => if b then 1 else 0) owners.

(** Which of the callers own the flag *)
Definition owned_by (w : W) (pool : list (L * Slot W (option RecoveryResult))) (owners : list bool) : Prop :=
  Forall2 (fun x own => slot_flag own (snd x)) pool owners /\ owner_count owners = if recovering w then 1 else 0.

Lemma settle_flag own t : flag_task own t -> slot_flag own (settle t).
Proof. by destruct t. Qed.

Lemma owner_holds w i owners :
  owners !! i = Some true -> owner_count owners = (if recovering w then 1 else 0) -> recovering w = true.
Proof.
  intros Hi Hc. destruct (recovering w); [done |].
  pose proof (sumZ_lookup_le (fun b : bool => if b then 1 else 0) ltac:(by intros []) owners i true Hi).
  unfold owner_count in Hc. simpl in *. lia.
Qed.

Lemma owned_step w pool w' pool' owners :
  pool_step env start (w, pool) (w', pool') -> owned_by w pool owners -> exists owners', owned_by w' pool' owners'.
Proof.
  intros Hs [Hf Hc]. inversion Hs as [w0 w1 p He|w0 p l|w0 p i l d e n c Hi|w0 p i l d e n Hi]; subst.
  - exists owners. split; [done |]. by rewrite (Henv _ _ He).
  - exists (owners ++ [false]). split; [apply Forall2_app; [done |]; constructor; [by apply settle_flag | done] |].
    unfold owner_count in *. rewrite sumZ_app. simpl. lia.
  - destruct (Forall2_lookup_l _ _ _ _ _ Hf Hi) as (own & Ho & Hx). simpl in Hx. specialize (Hx w).
    assert (forall own', flag_task own' (n c w) -> owner_count owners - (if own then 1 else 0) + (if own' then 1 else 0)
       = (if recovering (e c w) then 1 else 0) -> exists owners', owned_by (e c w) (<[i := (l, settle (n c w))]> pool) owners') as Hnew.
    { intros own' Hn He. exists (<[i := own']> owners). split; [by apply Forall2_insert; [| apply settle_flag] |].
      unfold owner_count. by rewrite (sumZ_insert _ _ _ _ _ Ho). }
    destruct own.
    + assert (recovering w = true) as Hr by (by eapply owner_holds).
      destruct (Hx Hr) as [_ Hn]. apply (Hnew (recovering (e c w))); [done |]. rewrite Hr in Hc. lia.
    + destruct Hx as [_ Hn]. destruct (Hn c) as [[He Ht]|(H0 & H1 & Ht)];
        [apply (Hnew false); [done |]; rewrite He; lia | apply (Hnew true); [done |]; rewrite H0 in Hc; rewrite H1; lia].
  - destruct (Forall2_lookup_l _ _ _ _ _ Hf Hi) as (own & Ho & Hx). simpl in Hx. specialize (Hx w).
    exists (<[i := false]> owners). split; [by apply Forall2_insert |].
    unfold owner_count in *. rewrite (sumZ_insert _ _ _ _ _ Ho). destruct own.
    + assert (recovering w = true) as Hr by (by eapply owner_holds).
      destruct (Hx Hr) as [-> _]. rewrite Hr in Hc. lia.
    + destruct Hx as [-> _]. lia.
Qed.
End exclusive.

(** Any number of sweeps of one manager, over components that leave its flag alone, polled and
    dropped in any order: at most one of them is at work, exactly while the flag is set, and when
    none is left the flag is clear, whether they ended, panicked or were dropped. *)
Theorem sweeps_exclusive {W} (recovering : W -> bool) set_recovering components (env : W -> W -> Prop) w0 w pool :
  (forall b w, recovering (set_recovering b w) = b) ->
  (forall w, Forall (fun c => respects (keeps_flag recovering) (rc_recover c)) (components w)) ->
  (forall w w', env w w' -> recovering w' = recovering w) ->
  recovering w0 = false ->
  rtc (pool_step env (fun l : option (W -> bool) * bool =>
         sweep recovering set_recovering (fst l) (snd l) components)) (w0, []) (w, pool) ->
  exists owners, owned_by recovering w pool owners
    /\ owner_count owners <= 1
    /\ (Forall (fun x => forall t, snd x <> Running t) pool -> recovering w = false).
Proof.
  intros Hset Hc He H0 Hr.
  assert (forall c c', rtc (pool_step env (fun l : option (W -> bool) * bool =>
      sweep recovering set_recovering (fst l) (snd l) components)) c c' ->
    (exists owners, owned_by recovering (fst c) (snd c) owners) -> exists owners, owned_by recovering (fst c') (snd c') owners) as Hind.
  { intros c c' Hs. induction Hs as [|[w1 p1] [w2 p2] c3 Hs _ IH]; [done |]. intros [owners Ho]. apply IH.
    eapply owned_step; [exact He | | exact Hs | exact Ho]. intros l. by apply sweep_flag. }
  destruct (Hind _ _ Hr) as (owners & Hf & Hn).
  { exists []. split; simpl; [constructor | by rewrite H0]. }
  exists owners. split_and!; [done | rewrite Hn; simpl; by destruct (recovering w) |].
  intros Hall. cbn [fst snd] in *. destruct (recovering w) eqn:E; [| done]. exfalso.
  assert (Forall (fun own => own = false) owners) as Hfalse.
  { apply Forall_forall. intros own (i & Hi)%list_elem_of_lookup.
    destruct (Forall2_lookup_r _ _ _ _ _ Hf Hi) as ([l sl] & Hl & Hs). rewrite Forall_lookup in Hall. specialize (Hall _ _ Hl).
    simpl in *. destruct sl; [by destruct (Hall t) | done..]. }
  unfold owner_count in Hn. rewrite sumZ_zero in Hn; [done |]. eapply Forall_impl; [exact Hfalse |]. by intros own ->.
Qed.

(** A sweep that runs alone counts every component once and gives the flag back. *)
Section alone.
Context {W : Type} (recovering : W -> bool) (set_recovering : bool -> W -> W).
Hypothesis (Hset : forall b w, recovering (set_recovering b w) = b).

Lemma run_guarded {A} drop_guard (t : Task W A) w a w' :
  run_alone t w = (Some a, w') -> run_alone (guarded drop_guard t) w = (Some a, w').
Proof.
  revert w. induction t as [x| |d e n IH]; intros w H; simpl in *; [done | done |].
  destruct (is_panic (n 0%nat w)) eqn:E; [| by apply IH]. by destruct (n 0%nat w).
Qed.

Lemma sweep_from_alone (cs : list (RecoverableComponent (W := W))) s f (w : W) :
  exists s' f' w', run_alone (sweep_from None false cs s f) w = (Some (Some (CompletedSweep s' f')), w')
    /\ (s' + f' = s + f + length cs)%nat.
Proof.
  revert s f w. induction cs as [|c cs IH]; intros s f w; [exists s, f, w; split; [done | simpl; lia] |].
  cbn [sweep_from check_cancelled needs_recovery recover_component tbind]. rewrite !run_alone_bind, run_alone_catch.
  destruct (run_alone (rc_recover c) w) as [[[[]|e]|] w1]; simpl;
    [destruct (IH (S s) f w1) as (s' & f' & w' & Hr & Hn) | destruct (IH s (S f) w1) as (s' & f' & w' & Hr & Hn)..];
    exists s', f', w'; (split; [done | lia]).
Qed.

Theorem recover_all_alone components w :
  recovering w = false ->
  exists succeeded failed w', run_alone (recover_all recovering set_recovering components) w
      = (Some (CompletedSweep succeeded failed), w')
    /\ (succeeded + failed = length (components (set_recovering true w)))%nat /\ recovering w' = false.
Proof.
  intros Hw.
  destruct (sweep_from_alone (components (set_recovering true w)) 0 0 (set_recovering true w)) as (s & f & w' & Hr & Hn).
  assert (run_alone (owned_sweep set_recovering None false components) (set_recovering true w)
          = (Some (Some (CompletedSweep s f)), set_recovering false w')) as Ho.
  { unfold owned_sweep. rewrite run_alone_bind.
    by rewrite (run_guarded _ _ _ (Some (CompletedSweep s f)) w'). }
  exists s, f, (set_recovering false w'). unfold recover_all, sweep. cbn [check_cancelled tbind].
  rewrite !run_alone_bind. cbn [atomically run_alone fst snd]. rewrite Hw. cbn [fst snd]. rewrite Ho.
  split_and!; [done | simpl in Hn; lia | apply Hset].
Qed.
End alone.

(** *** A cancelled drain *)

Section cancelled_drain.
(** The state of a transport: the operations in flight, the gate and the token *)
Record Node := mkNode { nd_pending : Z; nd_accepting : bool; nd_cancelled : bool }.

(** [OperationTracker::wait_for_completion], with a number of wake-ups *)
Fixpoint wait_rounds (rounds : nat) (cancelled : Node -> bool) : Task Node (CatgaResult unit) :=
  match rounds with
  | O => Panic  (* not reached below *)
  | S rounds =>
      await first := atomically (fun w => (nd_pending w, w)) in
      if first =? 0 then Done (Ok tt)
      else
        await second := atomically (fun w => (nd_pending w, w)) in
        if second =? 0 then Done (Ok tt)
        else
          await x := select_cancelled cancelled sleep in
          match x with None => Done (Ok tt) | Some _ => wait_rounds rounds cancelled end
  end.

#[local] Instance node_transport : Drainable (W := Node) := {
  stop_accepting w := mkNode (nd_pending w) false (nd_cancelled w);
  wait_for_completion := wait_rounds 10;
  pending_operations := nd_pending
}.

(** The token is cancelled while an operation is in flight.  When the [select!] polls the drain
    first, which returns because it has the same token, the shutdown reports that every operation
    has completed. *)
Definition cancel_node (w w' : Node) : Prop := w' = mkNode (nd_pending w) (nd_accepting w) true.

Example cancelled_drain_reports_drained :
  rtc (pool_step cancel_node (fun _ : unit => shutdown (from_secs 30) nd_cancelled))
    (mkNode 1 true false, []) (mkNode 1 false true, [(tt, Finished (Ok Drained))]).
Proof.
  set (start := fun _ : unit => shutdown (from_secs 30) nd_cancelled).
  etrans; [apply (moves_steps cancel_node start [Start tt; Poll 0 0; Poll 0 0; Poll 0 0]) |].
  etrans; [apply rtc_once, pool_env; unfold cancel_node; reflexivity |].
  exact (moves_steps cancel_node start [Poll 0 3]
    (mkNode 1 false true, snd (foldl (move start) (mkNode 1 true false, []) [Start tt; Poll 0 0; Poll 0 0; Poll 0 0]))).
Qed.
End cancelled_drain.
