(* ===== verification/Transports.v ===== *)
(** * Transports ([transport.rs], [memory/transport.rs])

    Destinations, deliveries with their acknowledgement tokens, batches, and the in-memory
    transport.  A transport is a class of tasks; the telemetry around its operations is left out. *)

From S2P Require Import Prelude Errors Messages Tasks Mediator Lifecycle.

(** ** Destinations *)

Definition Destination : Type := string.

Definition destination_parse (name : string) : CatgaResult Destination :=
  if trim_is_empty name
  then fail Validation "transport destination must not be empty or whitespace-only"
  else Ok name.

(** ** Deliveries *)

Section deliveries.
Context {W : Type}.

(** [Box<dyn Acknowledger>], with the code that runs when it is dropped unused *)
Record Acknowledger := mkAcknowledger {
  ak_acknowledge : Task W (CatgaResult unit);
  ak_negative_acknowledge : Task W (CatgaResult unit);
  ak_drop : W -> W
}.

(** The default of the trait's second method *)
Definition default_negative_acknowledge : Task W (CatgaResult unit) :=
  Done (fail Unsupported "transport does not support negative acknowledgement").

Record Delivery := mkDelivery {
  d_envelope : Envelope;
  d_acknowledger : option Acknowledger;
  d_attempts : Z
}.

Definition delivery_new (e : Envelope) : Delivery := mkDelivery e None 1.
Definition delivery_with_acknowledger (e : Envelope) (a : Acknowledger) : Delivery := mkDelivery e (Some a) 1.
Definition with_attempts (d : Delivery) (attempts : Z) : Delivery :=
  mkDelivery (d_envelope d) (d_acknowledger d) (Z.max attempts 1).

Definition map_envelope (d : Delivery) (mapper : Envelope -> CatgaResult Envelope) : CatgaResult Delivery :=
  let? e := mapper (d_envelope d) in Ok (mkDelivery e (d_acknowledger d) (d_attempts d)).

Definition acknowledge (d : Delivery) : Task W (CatgaResult unit) :=
  match d_acknowledger d with Some a => ak_acknowledge a | None => Done (Ok tt) end.
Definition negative_acknowledge (d : Delivery) : Task W (CatgaResult unit) :=
  match d_acknowledger d with Some a => ak_negative_acknowledge a | None => Done (Ok tt) end.

Definition drop_delivery (d : Delivery) (w : W) : W :=
  match d_acknowledger d with Some a => ak_drop a w | None => w end.

(** ** The transport traits

    [mt_receive]: what [receive] returns next, [None] while it waits *)

Class MessageTransport := {
  mt_publish : Envelope -> Task W (CatgaResult unit);
  mt_receive : W -> option (CatgaResult Delivery * W)
}.

Definition transport_ack (d : Delivery) : Task W (CatgaResult unit) := acknowledge d.
Definition transport_nack (d : Delivery) : Task W (CatgaResult unit) := negative_acknowledge d.

Class DestinationTransport := {
  dt_send_to : Destination -> Envelope -> Task W (CatgaResult unit);
  dt_receive_from : Destination -> W -> option (CatgaResult Delivery * W)
}.

Definition DEFAULT_TRANSPORT_BATCH_CONCURRENCY : nat := 100.

(** The loops over [buffer_unordered]: every item is attempted; [order] is the order in which the
    attempts complete, and a limit leaves out some of the schedules. *)
Definition publish_batch_with_concurrency `{!MessageTransport} (envelopes : list Envelope) (concurrency_limit : nat) order
    : Task W (CatgaResult unit) :=
  if (concurrency_limit =? 0)%nat
  then Done (fail Validation "transport batch concurrency limit must be greater than zero")
  else await results := join_all (mt_publish <$> envelopes) in Done (first_observed order results).

Definition transport_publish_batch `{!MessageTransport} (envelopes : list Envelope) order : Task W (CatgaResult unit) :=
  publish_batch_with_concurrency envelopes DEFAULT_TRANSPORT_BATCH_CONCURRENCY order.

Definition send_batch_to_with_concurrency `{!DestinationTransport} (destination : Destination) (envelopes : list Envelope)
    (concurrency_limit : nat) order : Task W (CatgaResult unit) :=
  if (concurrency_limit =? 0)%nat
  then Done (fail Validation "destination transport batch concurrency limit must be greater than zero")
  else await results := join_all (dt_send_to destination <$> envelopes) in Done (first_observed order results).

Definition send_batch_to `{!DestinationTransport} (destination : Destination) (envelopes : list Envelope) order
    : Task W (CatgaResult unit) :=
  send_batch_to_with_concurrency destination envelopes DEFAULT_TRANSPORT_BATCH_CONCURRENCY order.
End deliveries.
Arguments Delivery : clear implicits.
Arguments Acknowledger : clear implicits.

(** A transport that is a part of a larger world *)
Section zoomed.
Context {W V : Type} (get : W -> V) (put : V -> W -> W).

Definition zoom_acknowledger (a : Acknowledger V) : Acknowledger W :=
  mkAcknowledger (zoom get put (ak_acknowledge a)) (zoom get put (ak_negative_acknowledge a))
    (fun w => put (ak_drop a (get w)) w).

Definition zoom_delivery (d : Delivery V) : Delivery W :=
  mkDelivery (d_envelope d) (zoom_acknowledger <$> d_acknowledger d) (d_attempts d).

Definition zoom_transport `{!MessageTransport (W := V)} : MessageTransport (W := W) := {|
  mt_publish e := zoom get put (mt_publish e);
  mt_receive w :=
    (fun '(r, v) => ((let? d := r in Ok (zoom_delivery d)), put v w)) <$> mt_receive (get w)
|}.
End zoomed.

(** ** [MemoryTransport]

    [mm_accepted] is the history of the envelopes that entered the queue, which the code does not
    keep.  A sender is polled when the channel has room (a poll before that leaves it waiting and is
    left out); [mm_pending] counts the deliveries that
    were neither acknowledged, refused nor dropped.  The channel is never closed: the transport
    owns both ends. *)

Record MemoryTransport := mkMemoryTransport {
  mm_queue : list Envelope;
  mm_capacity : nat;
  mm_destinations : gmap Destination (list Envelope);
  mm_pending : Z;
  mm_accepting : bool;
  mm_accepted : list Envelope
}.

Definition memory_transport_new (capacity : nat) : CatgaResult MemoryTransport :=
  if (capacity =? 0)%nat then fail Validation "memory transport capacity must be greater than zero"
  else Ok (mkMemoryTransport [] capacity ∅ 0 true []).

Definition set_queue (t : MemoryTransport) (q : list Envelope) : MemoryTransport :=
  mkMemoryTransport q (mm_capacity t) (mm_destinations t) (mm_pending t) (mm_accepting t) (mm_accepted t).
Definition set_destinations (t : MemoryTransport) (d : gmap Destination (list Envelope)) : MemoryTransport :=
  mkMemoryTransport (mm_queue t) (mm_capacity t) d (mm_pending t) (mm_accepting t) (mm_accepted t).
Definition set_pending (t : MemoryTransport) (n : Z) : MemoryTransport :=
  mkMemoryTransport (mm_queue t) (mm_capacity t) (mm_destinations t) n (mm_accepting t) (mm_accepted t).

Definition declare_destination (t : MemoryTransport) (destination : Destination) : CatgaResult unit * MemoryTransport :=
  match mm_destinations t !! destination with
  | None => (Ok tt, set_destinations t (<[destination := []]> (mm_destinations t)))
  | Some _ => (fail Conflict "memory transport destination is already declared", t)
  end.

Definition memory_stop_accepting (t : MemoryTransport) : MemoryTransport :=
  mkMemoryTransport (mm_queue t) (mm_capacity t) (mm_destinations t) (mm_pending t) false (mm_accepted t).

(** [OperationGuard::complete]; [completed] is the flag of this guard, so that it counts once. *)
Definition complete_operation (t : MemoryTransport) : MemoryTransport := set_pending t (Z.max 0 (mm_pending t - 1)).

Definition memory_acknowledger : Acknowledger MemoryTransport :=
  mkAcknowledger
    (Await complete_operation (fun _ => complete_operation) (fun _ _ => Done (Ok tt)))
    (Await complete_operation (fun _ => complete_operation)
      (fun _ _ => Done (fail Unsupported "memory transport does not support negative acknowledgement")))
    complete_operation.

(** [sender.send(envelope).await] *)
Definition push_envelope (e : Envelope) (t : MemoryTransport) : MemoryTransport :=
  mkMemoryTransport (mm_queue t ++ [e]) (mm_capacity t) (mm_destinations t) (mm_pending t) (mm_accepting t)
    (mm_accepted t ++ [e]).

Definition memory_publish (e : Envelope) : Task MemoryTransport (CatgaResult unit) :=
  await? _ := atomically (fun t => (ensure_accepting (mm_accepting t), t)) in
  atomically (fun t => (Ok tt, push_envelope e t)).

(** [recv], then the guard of the delivery *)
Definition memory_receive (t : MemoryTransport) : option (CatgaResult (Delivery MemoryTransport) * MemoryTransport) :=
  match mm_queue t with
  | [] => None
  | e :: q =>
      Some (Ok (delivery_with_acknowledger e memory_acknowledger), set_pending (set_queue t q) (mm_pending t + 1))
  end.

#[export] Instance memory_message_transport : MessageTransport (W := MemoryTransport) := {
  mt_publish := memory_publish;
  mt_receive := memory_receive
}.

Definition destination_not_declared {A} : CatgaResult A := fail NotFound "memory transport destination is not declared".

Definition memory_send_to (destination : Destination) (e : Envelope) : Task MemoryTransport (CatgaResult unit) :=
  await? _ := atomically (fun t => (ensure_accepting (mm_accepting t), t)) in
  atomically (fun t =>
    match mm_destinations t !! destination with
    | None => (destination_not_declared, t)
    | Some q => (Ok tt, set_destinations t (<[destination := q ++ [e]]> (mm_destinations t)))
    end).

Definition memory_receive_from (destination : Destination) (t : MemoryTransport)
    : option (CatgaResult (Delivery MemoryTransport) * MemoryTransport) :=
  match mm_destinations t !! destination with
  | None => Some (destination_not_declared, t)
  | Some [] => None
  | Some (e :: q) =>
      Some (Ok (delivery_with_acknowledger e memory_acknowledger),
            set_pending (set_destinations t (<[destination := q]> (mm_destinations t))) (mm_pending t + 1))
  end.

#[export] Instance memory_destination_transport : DestinationTransport (W := MemoryTransport) := {
  dt_send_to := memory_send_to;
  dt_receive_from := memory_receive_from
}.

(** ** Properties *)

Definition send_all (destination : Destination) (es : list Envelope) (t : MemoryTransport) : MemoryTransport :=
  foldl (fun t e => snd (run_alone (memory_send_to destination e) t)) t es.

Fixpoint receive_all (n : nat) (destination : Destination) (t : MemoryTransport) : list Envelope * MemoryTransport :=
  match n with
  | O => ([], t)
  | S n =>
      match memory_receive_from destination t with
      | Some (Ok d, t') => let '(es, t'') := receive_all n destination t' in (d_envelope d :: es, t'')
      | _ => ([], t)
      end
  end.

Lemma send_all_queue destination es q t :
  mm_destinations t !! destination = Some q -> mm_accepting t = true ->
  send_all destination es t = set_destinations t (<[destination := q ++ es]> (mm_destinations t)).
Proof.
  revert q t. induction es as [|e es IH]; intros q t Hq Ha; cbn [send_all foldl].
  - rewrite app_nil_r, insert_id by done. by destruct t.
  - cbn. rewrite Ha. cbn. rewrite Hq. cbn. unfold send_all in IH.
    rewrite (IH (q ++ [e])); [| by simpl; rewrite lookup_insert_eq | done].
    unfold set_destinations. cbn. by rewrite insert_insert_eq, <-app_assoc.
Qed.

Lemma receive_all_queue destination q t :
  mm_destinations t !! destination = Some q ->
  receive_all (length q) destination t
  = (q, set_pending (set_destinations t (<[destination := []]> (mm_destinations t))) (mm_pending t + Z.of_nat (length q))).
Proof.
  revert t. induction q as [|e q IH]; intros t Hq; cbn [length receive_all].
  - rewrite insert_id by done. destruct t. unfold set_pending, set_destinations. simpl. do 2 f_equal. lia.
  - unfold memory_receive_from. rewrite Hq. rewrite IH by (simpl; by rewrite lookup_insert_eq).
    unfold set_pending, set_destinations. cbn. rewrite insert_insert_eq. do 2 f_equal. lia.
Qed.

(** A declared destination is a queue of its own: envelopes that are sent to it come out in the order
    of the sends, each as one delivery in flight, and the topic and the other destinations stay as
    they were. *)
Theorem destination_fifo destination es t :
  mm_destinations t !! destination = Some [] -> mm_accepting t = true ->
  exists t', receive_all (length es) destination (send_all destination es t) = (es, t')
    /\ mm_destinations t' = mm_destinations t /\ mm_queue t' = mm_queue t
    /\ mm_pending t' = mm_pending t + Z.of_nat (length es).
Proof.
  intros Hd Ha. rewrite (send_all_queue _ _ []) by done. rewrite receive_all_queue by (simpl; by rewrite lookup_insert_eq).
  eexists. split; [done |]. simpl. by rewrite insert_insert_eq, insert_id.
Qed.
