(* ===== verification/OutboxProcessor.v ===== *)
(** * The outbox processor ([outbox_processor.rs])

    Claimed messages are published through a transport and then acknowledged or recorded as failed.
    The processor is a task over a class of stores and a class of transports; the properties are
    about any number of processors on one in-memory outbox.  Counters of telemetry are left out. *)

From S2P Require Import Prelude Errors Time Utf8 Messages Capacity Heap Retention Reliability Outbox Tasks Mediator Lifecycle Transports.

(** ** Runs and options *)

Record OutboxRun := mkRun { or_published : Z; or_failed : Z }.

Definition run_default : OutboxRun := mkRun 0 0.

Definition combine (a b : OutboxRun) : OutboxRun :=
  mkRun (saturating usize (or_published a + or_published b)) (saturating usize (or_failed a + or_failed b)).

Definition record_loop_failure (a : OutboxRun) : OutboxRun :=
  mkRun (or_published a) (saturating usize (or_failed a + 1)).

Record OutboxLoopOptions := mkLoop { scan_interval : Duration; error_delay : Duration }.

Definition loop_options_new (scan error : Duration) : CatgaResult OutboxLoopOptions :=
  if scan =? 0 then fail Validation "outbox scan interval must be greater than zero"
  else if error =? 0 then fail Validation "outbox error delay must be greater than zero"
  else Ok (mkLoop scan error).

(** [char_indices().take_while(..).map(..).last()]: the end of the last character that fits *)
Fixpoint fitting (available index : nat) (chars : list Z) : nat :=
  match chars with
  | [] => index
  | c :: chars =>
      let end_ := (index + length (encode_utf8 c))%nat in
      if (end_ <=? available)%nat then fitting available end_ chars else index
  end.

Definition failure_reason (context : string) (error : CatgaError) : string :=
  let available := (MAX_OUTBOX_FAILURE_ERROR_BYTES - String.length context)%nat in
  let bytes := bytes_of_string (message error) in
  let end_ := fitting available 0 (default [] (utf8_decode bytes)) in
  context +:+ string_of_bytes (take end_ bytes).

(** ** The processor *)

Section processor.
Context {W : Type}.

Class OutboxStore := {
  os_claim : string -> nat -> Task W (CatgaResult (list OutboxMessage));
  os_ack : string -> Z -> string -> Task W (CatgaResult unit);
  os_record_failure : string -> Z -> string -> string -> Task W (CatgaResult unit)
}.

Record OutboxProcessor := mkProcessor {
  op_owner : string;
  op_batch_size : nat;
  op_concurrency_limit : nat
}.

Definition new_with_concurrency (owner : string) (batch_size concurrency_limit : nat) : CatgaResult OutboxProcessor :=
  if (batch_size =? 0)%nat then fail Validation "outbox batch size must be greater than zero"
  else
    let? _ := validate_outbox_claim_limit batch_size in
    if (concurrency_limit =? 0)%nat then fail Validation "outbox concurrency limit must be greater than zero"
    else Ok (mkProcessor owner batch_size concurrency_limit).

Definition processor_new (owner : string) (batch_size : nat) : CatgaResult OutboxProcessor :=
  new_with_concurrency owner batch_size 1.

Context `{!OutboxStore, !MessageTransport (W := W)}.

Definition one_published : OutboxRun := mkRun 1 0.
Definition one_failed : OutboxRun := mkRun 0 1.

(** The future of one claimed message *)
Definition deliver (owner : string) (m : OutboxMessage) : Task W (CatgaResult OutboxRun) :=
  let id := outbox_id m in
  match o_claim_token m with
  | None => Done (fail Internal "outbox store returned a claimed message without a claim token")
  | Some claim_token =>
      let failed reason :=
        await? _ := os_record_failure owner id claim_token reason in Done (Ok one_failed) in
      await sent := mt_publish (o_envelope m) in
      match sent with
      | Ok _ =>
          await acked := os_ack owner id claim_token in
          match acked with
          | Ok _ => Done (Ok one_published)
          | Err error => failed (failure_reason "outbox acknowledgement failed: " error)
          end
      | Err error => failed (failure_reason "outbox publication failed: " error)
      end
  end.

(** [buffer_unordered] lets at most the limit of these futures start before others have ended, which
    leaves out some of the schedules of [try_join_all]; the results are combined by sums. *)
Definition flush_once (p : OutboxProcessor) : Task W (CatgaResult OutboxRun) :=
  await? messages := os_claim (op_owner p) (op_batch_size p) in
  await? runs := try_join_all (deliver (op_owner p) <$> messages) in
  Done (Ok (foldl combine run_default runs)).

(** [rounds] of the loop; [None] when it still runs after them.  The sleeps are for the scan interval
    after a scan and for the error delay after a failure. *)
Fixpoint run_rounds (rounds : nat) (p : OutboxProcessor) (shutdown : W -> bool) (total : OutboxRun) : Task W (option OutboxRun) :=
  match rounds with
  | O => Done None
  | S rounds =>
      await stop := atomically (fun w => (shutdown w, w)) in
      if stop : bool then Done (Some total)
      else
        await r := flush_once p in
        let total := match r with Ok run => combine total run | Err _ => record_loop_failure total end in
        await slept := select_cancelled shutdown sleep in
        match slept with None => Done (Some total) | Some _ => run_rounds rounds p shutdown total end
  end.

Definition run_until_cancelled (rounds : nat) (p : OutboxProcessor) (shutdown : W -> bool) : Task W (option OutboxRun) :=
  run_rounds rounds p shutdown run_default.
End processor.

(** ** The in-memory outbox in a world with a transport

    [pw_clock]: the readings of the clock within one operation.  [pw_claims] lists the claims, each with
    its owner and the messages it handed out, and [pw_cancelled] the cancelled messages; the code does
    not keep them. *)

Section world.
Context {T : Type} `{!MapIter Z}.

Record PWorld := mkPWorld {
  pw_outbox : MemoryOutbox;
  pw_clock : nat -> SystemTime;
  pw_transport : T;
  pw_claims : list (string * list OutboxMessage);
  pw_cancelled : gset Z
}.

Definition put_outbox (o : MemoryOutbox) (w : PWorld) : PWorld :=
  mkPWorld o (pw_clock w) (pw_transport w) (pw_claims w) (pw_cancelled w).
Definition put_transport (t : T) (w : PWorld) : PWorld :=
  mkPWorld (pw_outbox w) (pw_clock w) t (pw_claims w) (pw_cancelled w).

#[export] Instance memory_outbox_store : OutboxStore (W := PWorld) := {
  os_claim owner limit := atomically (fun w =>
    let '(r, o) := claim (pw_outbox w) owner limit (pw_clock w 0%nat) (pw_clock w 1%nat) (pw_clock w 2%nat) in
    (r, mkPWorld o (pw_clock w) (pw_transport w) (pw_claims w ++ [(owner, match r with Ok ms => ms | Err _ => [] end)]) (pw_cancelled w)));
  os_ack owner id token := atomically (fun w =>
    let '(r, o) := ack (pw_outbox w) owner id token (pw_clock w 0%nat) in (r, put_outbox o w));
  os_record_failure owner id token reason := atomically (fun w =>
    let '(r, o) := store_record_failure (pw_outbox w) owner id token reason in (r, put_outbox o w))
}.

#[export] Instance zoomed_transport `{!MessageTransport (W := T)} : MessageTransport (W := PWorld) :=
  zoom_transport pw_transport put_transport.
End world.
Arguments PWorld : clear implicits.

(** ** Properties *)

(** Every message after an enqueue is the new one or was there before. *)
Lemma enqueue_back `{!MapIter Z} o m clock :
  outbox_inv o ->
  (forall id s, records (ob_table (snd (enqueue o m clock))) !! id = Some s ->
     records (ob_table o) !! id = Some s \/ exists n, s = mkStored n m)
  /\ claim_sequence (snd (enqueue o m clock)) = claim_sequence o.
Proof.
  intros Ho. unfold enqueue. destruct (validate_outbox_message_id (outbox_id m)); [| by split; [left |]].
  pose proof (admit_spec s_identity is_published 0 (ob_table o) (published_retention o)
    (clock_unix_ms clock) outbox_retention_error "memory outbox record capacity is exhausted"
    ltac:(done) (oi_table o Ho)) as Ha.
  destruct (admit_record _ _ _ _ _ _ _) as [[[]|e] t].
  2: { destruct Ha as [_ Hsw]. split; [| done]. intros id s Hs. left. by apply (sw_records _ _ _ _ _ Hsw). }
  destruct Ha as (_ & Hsw & _). destruct (records t !! outbox_id m) as [s0|] eqn:E0.
  { split; [| done]. intros id s Hs. left. by apply (sw_records _ _ _ _ _ Hsw). }
  unfold insert_reserved. destruct (Capacity.sequence_next (record_sequence t)) as [[n|e] q]; (split; [| done]); cbn.
  - intros id s [[<- <-]|[_ Hs]]%lookup_insert_Some; [right; by exists n | left; by apply (sw_records _ _ _ _ _ Hsw)].
  - intros id s Hs. left. by apply (sw_records _ _ _ _ _ Hsw).
Qed.

Section properties.
Context {T : Type} `{!MapIter Z} `{!MessageTransport (W := T)}.

(** What the processors rely on: a transport that reported a publication has accepted the envelope,
    for good, whatever [transport_step] of others happens at the same time. *)
Context (accepted : T -> Envelope -> Prop) (transport_step : T -> T -> Prop).

Class PublishLaws : Prop := {
  pl_preorder :: PreOrder transport_step;
  pl_accepted t t' e : transport_step t t' -> accepted t e -> accepted t' e;
  pl_publish e t : rg transport_step transport_step
    (fun r t' => r = Some (Ok tt) -> accepted t' e) (mt_publish e) t
}.
Context `{!PublishLaws}.

Abbreviation world := (PWorld T).
Abbreviation stored w := (records (ob_table (pw_outbox w))).
Abbreviation envelope_of s := (o_envelope (s_message s)).

(** The claim tokens do not wrap around. *)
Definition tokens_in_range (w : world) : Prop :=
  lenZ (pw_claims w) * Z.of_nat MAX_OUTBOX_CLAIM_LIMIT <= int_max u64.

Record pw_inv (w : world) : Prop := {
  pi_outbox : outbox_inv (pw_outbox w);
  pi_claims : claim_sequence (pw_outbox w) <= lenZ (pw_claims w) * Z.of_nat MAX_OUTBOX_CLAIM_LIMIT;
  pi_accepted : forall id s, stored w !! id = Some s -> is_published s = true -> accepted (pw_transport w) (envelope_of s)
}.

(** What may happen to the world: messages stay, or go once they were accepted or cancelled, and the
    claims that were handed out stay with their messages. *)
Record pw_change (w w' : world) : Prop := {
  pc_inv : pw_inv w';
  pc_seq : claim_sequence (pw_outbox w) <= claim_sequence (pw_outbox w');
  pc_kept : forall id s, stored w !! id = Some s ->
    (exists s', stored w' !! id = Some s' /\ envelope_of s' = envelope_of s)
    \/ accepted (pw_transport w') (envelope_of s) \/ id ∈ pw_cancelled w';
  pc_tokens : forall id s' k, stored w' !! id = Some s' -> o_claim_token (s_message s') = Some (token_of k) ->
    0 <= k < claim_sequence (pw_outbox w) ->
    exists s, stored w !! id = Some s /\ o_claim_token (s_message s) = Some (token_of k)
      /\ envelope_of s' = envelope_of s
}.

Record pw_evolve (w w' : world) : Prop := {
  pe_claims : pw_claims w `prefix_of` pw_claims w';
  pe_transport : transport_step (pw_transport w) (pw_transport w');
  pe_cancelled : pw_cancelled w ⊆ pw_cancelled w';
  pe_change : tokens_in_range w' -> pw_inv w -> pw_change w w'
}.

Lemma range_earlier w w' : pw_claims w `prefix_of` pw_claims w' -> tokens_in_range w' -> tokens_in_range w.
Proof. unfold tokens_in_range, lenZ. intros Hp%prefix_length. nia. Qed.

#[local] Instance pw_evolve_preorder : PreOrder pw_evolve.
Proof.
  split.
  - intros w. split; [done | reflexivity | done |]. intros _ Hi.
    split; [done | done | intros id s Hs; left; by exists s |]. intros id s k Hs Ht _. by exists s.
  - intros w1 w2 w3 [Hc1 Ht1 Hx1 H1] [Hc2 Ht2 Hx2 H2].
    split; [by etrans | by etrans | set_solver |]. intros Hr3 Hi1.
    assert (tokens_in_range w2) as Hr2 by (by eapply range_earlier).
    destruct (H1 Hr2 Hi1) as [Hi2 Hs1 Hk1 Ho1]. destruct (H2 Hr3 Hi2) as [Hi3 Hs2 Hk2 Ho2]. split; [done | lia | |].
    + intros id s Hs. destruct (Hk1 id s Hs) as [(s2 & Hl2 & E2)|[Ha|Hc]].
      * destruct (Hk2 id s2 Hl2) as [(s3 & Hl3 & E3)|[Ha|Hc]]; [left; exists s3; by rewrite E3 | right; left | by right; right].
        by rewrite <-E2.
      * right. left. by eapply pl_accepted.
      * right. right. set_solver.
    + intros id s3 k Hs3 Hk Hb. destruct (Ho2 id s3 k Hs3 Hk) as (s2 & Hl2 & Hk2' & E2); [lia |].
      destruct (Ho1 id s2 k Hl2 Hk2' Hb) as (s1 & Hl1 & Hk1' & E1). exists s1. by rewrite E2.
Qed.
(** An operation that hands out no claims: every message that was there is there with its envelope,
    or was published or cancelled; every message that is there was there, or has no token, and its
    envelope was accepted when it is published. *)
Record mild (w : world) (o : MemoryOutbox) (cancelled : gset Z) : Prop := {
  mi_inv : outbox_inv o;
  mi_seq : claim_sequence o = claim_sequence (pw_outbox w);
  mi_forward : forall id s, stored w !! id = Some s ->
    (exists s', records (ob_table o) !! id = Some s' /\ envelope_of s' = envelope_of s)
    \/ is_published s = true \/ id ∈ cancelled;
  mi_backward : forall id s, records (ob_table o) !! id = Some s ->
    stored w !! id = Some s
    \/ o_claim_token (s_message s) = None /\ (is_published s = true -> accepted (pw_transport w) (envelope_of s))
}.

Lemma mild_evolve w o cancelled :
  pw_cancelled w ⊆ cancelled -> (tokens_in_range w -> pw_inv w -> mild w o cancelled) ->
  pw_evolve w (mkPWorld o (pw_clock w) (pw_transport w) (pw_claims w) cancelled).
Proof.
  intros Hc Hm. split; simpl; [done | reflexivity | done |]. intros Hr Hi. destruct (Hm Hr Hi) as [Ho Hs Hf Hb].
  split; simpl; [split; simpl | | |].
  - done.
  - rewrite Hs. apply Hi.
  - intros id s Hl Hp. destruct (Hb id s Hl) as [Hl'|[_ Ha]]; [by eapply pi_accepted | by apply Ha].
  - by rewrite Hs.
  - intros id s Hl. destruct (Hf id s Hl) as [Hk|[Hp|Hk]]; [by left | right; left; by eapply pi_accepted | by right; right].
  - intros id s k Hl Ht _. destruct (Hb id s Hl) as [Hl'|[Hn _]]; [by exists s | congruence].
Qed.

(** *** The operations of the outbox *)

Lemma enqueue_mild w m clock :
  fresh_message m -> pw_inv w -> mild w (snd (enqueue (pw_outbox w) m clock)) (pw_cancelled w).
Proof.
  intros Hfresh Hi. pose proof (enqueue_spec (pw_outbox w) m clock (pi_outbox _ Hi) Hfresh) as He.
  pose proof (enqueue_back (pw_outbox w) m clock (pi_outbox _ Hi)) as (Hback & Hseq).
  destruct (enqueue (pw_outbox w) m clock) as [r o]. destruct He as (Ho & Hother & Hr). cbn [snd] in *. split.
  - done.
  - done.
  - intros id s Hs. assert (kept_or_aged (pw_outbox w) o clock id \/ id = outbox_id m /\ is_published s = true) as [Hk|[_ ?]].
    { destruct (decide (id = outbox_id m)) as [->|]; [| left; by apply Hother].
      destruct r as [[]|e]; [right; split; [done | by apply Hr] | left; apply Hr]. }
    + destruct (Hk s Hs) as [Hl|[Hp _]]; [left; by exists s | by right; left].
    + by right; left.
  - intros id s Hs. destruct (Hback id s Hs) as [Hl|(n & -> )]; [by left | right].
    destruct Hfresh as [Hst Hwf]. unfold msg_wf, is_published in *. simpl. rewrite Hst in *. by destruct Hwf as (_ & -> & _).
Qed.

Lemma cancel_mild w id :
  pw_inv w -> mild w (snd (cancel (pw_outbox w) id)) ({[id]} ∪ pw_cancelled w).
Proof.
  intros Hi. split; [apply cancel_inv, Hi | | |]; unfold cancel;
    destruct (stored w !! id) as [s0|] eqn:E0; try destruct (o_state (s_message s0)); cbn; try done;
    try (intros k s Hs; left; by exists s); try (intros k s Hs; by left).
  - intros k s Hs. destruct (decide (k = id)) as [->|Hne]; [right; right; set_solver | left; exists s].
    by rewrite lookup_delete_ne.
  - intros k s [_ Hs]%lookup_delete_Some. by left.
Qed.

Lemma cleanup_mild w retention lim clock :
  pw_inv w -> mild w (snd (cleanup_published (pw_outbox w) retention lim clock)) (pw_cancelled w).
Proof.
  intros Hi. split; [apply cleanup_published_inv, Hi | | |]; unfold cleanup_published;
  pose proof (cleanup_spec s_identity is_published 0 (ob_table (pw_outbox w)) retention lim
    (clock_unix_ms clock) outbox_retention_error ltac:(done) (oi_table _ (pi_outbox _ Hi))) as Hc;
  destruct (cleanup _ _ _ _ _ _ _) as [[n|e] t]; cbn; try done; try (subst t; intros id s Hs; left; by exists s);
    try (subst t; intros id s Hs; by left); destruct Hc as (Hsw & _).
  - intros id s Hs. destruct (records t !! id) as [s'|] eqn:E.
    + left. exists s'. pose proof (sw_records _ _ _ _ _ Hsw _ _ E). split; [done | congruence].
    + right. left. by destruct (sw_finished _ _ _ _ _ Hsw _ _ Hs E).
  - intros id s Hs. left. by apply (sw_records _ _ _ _ _ Hsw).
Qed.

(** Changes of the message that the caller owns *)
Lemma owned_mild w o id s s' :
  outbox_inv o -> claim_sequence o = claim_sequence (pw_outbox w) ->
  stored w !! id = Some s -> records (ob_table o) = <[id := s']> (stored w) ->
  envelope_of s' = envelope_of s -> o_claim_token (s_message s') = None ->
  (is_published s' = true -> accepted (pw_transport w) (envelope_of s)) -> mild w o (pw_cancelled w).
Proof.
  intros Ho Hq Hs Hr He Ht Ha. split; [done | done | |]; rewrite Hr; intros k x.
  - intros Hx. left. destruct (decide (k = id)) as [->|Hne]; [exists s' | exists x].
    + rewrite lookup_insert_eq. split; [done | congruence].
    + by rewrite lookup_insert_ne.
  - intros [[<- <-]|[_ Hx]]%lookup_insert_Some; [right | by left]. split; [done |]. by rewrite He.
Qed.

Lemma unchanged_mild w : pw_inv w -> mild w (pw_outbox w) (pw_cancelled w).
Proof. intros Hi. split; [apply Hi | done | intros id s Hs; left; by exists s | by left]. Qed.

Lemma update_owned_mild w owner id tok f :
  (forall m, o_state m = Claimed -> msg_wf m ->
     msg_wf (f m) /\ o_state (f m) <> Published /\ o_claim_token (f m) = None /\ o_envelope (f m) = o_envelope m) ->
  pw_inv w -> mild w (snd (update_owned (pw_outbox w) owner id tok f)) (pw_cancelled w).
Proof.
  intros Hf Hi. assert (outbox_inv (snd (update_owned (pw_outbox w) owner id tok f))) as Ho
    by (apply update_owned_inv; [apply Hi | done]).
  revert Ho. unfold update_owned.
  destruct (stored w !! id) as [s|] eqn:Es; [| intros _; by apply unchanged_mild].
  destruct (owns (s_message s) owner tok) eqn:Eo; [| intros _; by apply unchanged_mild]. cbn. intros Ho.
  pose proof (oi_msg _ (pi_outbox _ Hi) _ _ Es) as Hwf. destruct (owns_claimed _ _ _ Hwf Eo) as (Hst & _).
  destruct (Hf (s_message s) Hst Hwf) as (_ & Hp & Ht & He).
  eapply owned_mild; [exact Ho | done | exact Es | done | done | done |]. unfold is_published. simpl.
  by destruct (o_state (f (s_message s))).
Qed.

Lemma ack_mild w owner id tok clock :
  pw_inv w ->
  (forall s, stored w !! id = Some s -> o_claim_token (s_message s) = Some tok -> accepted (pw_transport w) (envelope_of s)) ->
  mild w (snd (ack (pw_outbox w) owner id tok clock)) (pw_cancelled w).
Proof.
  intros Hi Ha. assert (outbox_inv (snd (ack (pw_outbox w) owner id tok clock))) as Ho by apply ack_inv, Hi.
  revert Ho. unfold ack. destruct (clock_unix_ms clock); [| intros _; by apply unchanged_mild].
  destruct (stored w !! id) as [s|] eqn:Es; [| intros _; by apply unchanged_mild].
  destruct (owns (s_message s) owner tok) eqn:Eo; [| intros _; by apply unchanged_mild]. cbn. intros Ho.
  destruct (owns_claimed _ _ _ (oi_msg _ (pi_outbox _ Hi) _ _ Es) Eo) as (Hst & _ & Ht).
  unfold mark_published in *. rewrite Hst in *.
  eapply owned_mild; [exact Ho | done | exact Es | done | done | done |]. intros _. by apply Ha.
Qed.

(** *** The other users of the outbox and of the transport *)

Inductive outbox_surroundings : world -> world -> Prop :=
| so_enqueue w m clock : fresh_message m -> outbox_surroundings w (put_outbox (snd (enqueue (pw_outbox w) m clock)) w)
| so_cancel w id :
    outbox_surroundings w (mkPWorld (snd (cancel (pw_outbox w) id)) (pw_clock w) (pw_transport w) (pw_claims w)
                             ({[id]} ∪ pw_cancelled w))
| so_cleanup w retention lim clock :
    outbox_surroundings w (put_outbox (snd (cleanup_published (pw_outbox w) retention lim clock)) w)
| so_release w owner id tok : outbox_surroundings w (put_outbox (snd (store_release (pw_outbox w) owner id tok)) w)
| so_clock w c : outbox_surroundings w (mkPWorld (pw_outbox w) c (pw_transport w) (pw_claims w) (pw_cancelled w))
| so_transport w t : transport_step (pw_transport w) t -> outbox_surroundings w (put_transport t w).

Lemma quiet_evolve w w' :
  pw_outbox w' = pw_outbox w -> pw_claims w' = pw_claims w -> pw_cancelled w' = pw_cancelled w ->
  transport_step (pw_transport w) (pw_transport w') -> pw_evolve w w'.
Proof.
  intros Ho Hc Hx Ht. split; [by rewrite Hc | done | by rewrite Hx |]. intros _ Hi. split; rewrite ?Ho.
  - split; rewrite ?Ho, ?Hc; [apply Hi.. |]. intros id s Hs Hp. eapply pl_accepted; [done |]. by eapply pi_accepted.
  - done.
  - intros id s Hs. left. by exists s.
  - intros id s k Hs Hk _. by exists s.
Qed.

Lemma surroundings_pw_evolve w w' : outbox_surroundings w w' -> pw_evolve w w'.
Proof.
  intros [w1 m clock Hf|w1 id|w1 retention lim clock|w1 owner id tok|w1 c|w1 t Ht].
  - apply mild_evolve; [done |]. intros _. by apply enqueue_mild.
  - apply mild_evolve; [set_solver |]. intros _. apply cancel_mild.
  - apply mild_evolve; [done |]. intros _. apply cleanup_mild.
  - apply mild_evolve; [done |]. intros _. apply update_owned_mild. intros m Hst Hwf.
    destruct (release_wf m Hst Hwf) as (? & E & ? & ?). by rewrite E.
  - by apply quiet_evolve.
  - by apply quiet_evolve.
Qed.

(** *** Claims *)

Definition good (w : world) : Prop := tokens_in_range w -> pw_inv w.

(** The claim that a message was handed out with: whoever has it has this envelope. *)
Definition issued (m : OutboxMessage) (w : world) : Prop :=
  tokens_in_range w -> exists k, o_claim_token m = Some (token_of k) /\ 0 <= k < claim_sequence (pw_outbox w)
    /\ forall s, stored w !! outbox_id m = Some s -> o_claim_token (s_message s) = Some (token_of k) ->
         envelope_of s = o_envelope m.

Lemma good_evolve w w' : pw_evolve w w' -> good w -> good w'.
Proof.
  intros He Hg Hr. assert (tokens_in_range w) as Hr0 by (eapply range_earlier; [apply He | done]).
  by apply (pe_change _ _ He Hr (Hg Hr0)).
Qed.

Lemma issued_evolve m w w' : pw_evolve w w' -> good w -> issued m w -> issued m w'.
Proof.
  intros He Hg Hm Hr. assert (tokens_in_range w) as Hr0 by (eapply range_earlier; [apply He | done]).
  destruct (Hm Hr0) as (k & Hk & Hb & Hs). destruct (pe_change _ _ He Hr (Hg Hr0)) as [_ Hq _ Ht].
  exists k. split; [done |]. split; [lia |]. intros s' Hl Htok.
  destruct (Ht _ _ _ Hl Htok Hb) as (s & Hl0 & Ht0 & E). rewrite E. by apply Hs.
Qed.

Definition after_claim (w : world) (o : MemoryOutbox) (owner : string) (r : CatgaResult (list OutboxMessage)) : world :=
  mkPWorld o (pw_clock w) (pw_transport w) (pw_claims w ++ [(owner, match r with Ok ms => ms | Err _ => [] end)]) (pw_cancelled w).

Lemma after_claim_length w o owner r : lenZ (pw_claims (after_claim w o owner r)) = lenZ (pw_claims w) + 1.
Proof. unfold lenZ. simpl. rewrite length_app. simpl. lia. Qed.

Lemma claim_cases w owner lim t1 t2 t3 r o :
  claim (pw_outbox w) owner lim t1 t2 t3 = (r, o) -> tokens_in_range (after_claim w o owner r) -> pw_inv w ->
  match r with
  | Err _ => o = pw_outbox w
  | Ok ms => exists e ids, claimed_from (pw_outbox w) o owner e ids ms /\ (length ids <= lim)%nat
      /\ (lim <= MAX_OUTBOX_CLAIM_LIMIT)%nat
  end.
Proof.
  intros Hc Hr Hi. unfold tokens_in_range in Hr. rewrite after_claim_length in Hr. pose proof (pi_claims _ Hi).
  destruct (validate_outbox_claim_limit lim) as [[]|e] eqn:Ev.
  2: { unfold claim, claim_for in Hc. rewrite Ev in Hc. by simplify_eq/=. }
  assert (lim <= MAX_OUTBOX_CLAIM_LIMIT)%nat as Hlim.
  { unfold validate_outbox_claim_limit in Ev. destruct (Nat.ltb_spec MAX_OUTBOX_CLAIM_LIMIT lim); [done | lia]. }
  pose proof (claim_for_spec (pw_outbox w) owner lim DEFAULT_OUTBOX_CLAIM_LEASE t1 t2 t3 (pi_outbox _ Hi)) as Hs.
  unfold claim in Hc. rewrite Hc in Hs. destruct r as [ms|e]; [| apply Hs; lia].
  destruct Hs as (e & now_ms & _ & _ & Hcf & _); [lia |]. eexists e, _. split; [exact Hcf |].
  split; [| done]. rewrite length_fmap, smallest_length. lia.
Qed.

Lemma claim_change w o owner e ids ms r :
  pw_inv w -> claimed_from (pw_outbox w) o owner e ids ms -> (length ids <= MAX_OUTBOX_CLAIM_LIMIT)%nat ->
  pw_change w (after_claim w o owner r).
Proof.
  intros Hi Hcf Hn. assert (forall id s', records (ob_table o) !! id = Some s' ->
    stored w !! id = Some s' \/ exists s k, stored w !! id = Some s /\ envelope_of s' = envelope_of s
      /\ is_published s' = false /\ o_claim_token (s_message s') = Some (token_of k)
      /\ claim_sequence (pw_outbox w) <= k) as Hback.
  { intros id s' Hs'. destruct (decide (id ∈ ids)) as [Hin|Hni]; [right | left; by rewrite <-(cf_rest _ _ _ _ _ _ Hcf)].
    apply list_elem_of_lookup in Hin as [i Hin].
    destruct (Forall2_lookup_l _ _ _ _ _ (cf_msgs _ _ _ _ _ _ Hcf) Hin) as (m & Hm & s & k & Hs & Ho & -> & Hk & _).
    simplify_eq. by exists s, k. }
  split; simpl; [split; simpl | | |].
  - apply Hcf.
  - rewrite (cf_seq _ _ _ _ _ _ Hcf). pose proof (pi_claims _ Hi). pose proof (after_claim_length w o owner r) as Hl. simpl in Hl. rewrite Hl. lia.
  - intros id s' Hs' Hp. destruct (Hback id s' Hs') as [Hs|(s & k & _ & _ & Hx & _)]; [by eapply pi_accepted | congruence].
  - rewrite (cf_seq _ _ _ _ _ _ Hcf). lia.
  - intros id s Hs. left.
    destruct (claimed_from_lookup _ _ _ _ _ _ _ _ Hcf Hs) as [[_ Hk]|[_ (m & _ & Hk & E & _)]]; eexists; (split; [exact Hk |]); done.
  - intros id s' k Hs' Hk Hb. destruct (Hback id s' Hs') as [Hs|(s & k' & _ & _ & _ & Hk' & Hle)]; [by exists s' |].
    assert (token_of k = token_of k') as E by congruence. apply token_of_inj in E. lia.
Qed.

Lemma claim_evolve w owner lim t1 t2 t3 r o :
  claim (pw_outbox w) owner lim t1 t2 t3 = (r, o) -> good w -> pw_evolve w (after_claim w o owner r).
Proof.
  intros Hc Hg. split; simpl; [by eexists | reflexivity | done |]. intros Hr Hi.
  pose proof (claim_cases _ _ _ _ _ _ _ _ Hc Hr Hi) as Hx. destruct r as [ms|e].
  - destruct Hx as (e & ids & Hcf & Hn & Hlim). eapply claim_change; [done | done | lia].
  - subst o. split; simpl; [split; simpl; [apply Hi | | apply Hi] | done | |].
    + pose proof (pi_claims _ Hi). pose proof (after_claim_length w (pw_outbox w) owner (Err e)) as Hl. simpl in Hl. rewrite Hl. lia.
    + intros id s Hs. left. by exists s.
    + intros id s k Hs Hk _. by exists s.
Qed.

Lemma claim_issued w owner lim t1 t2 t3 ms o :
  claim (pw_outbox w) owner lim t1 t2 t3 = (Ok ms, o) -> good w ->
  Forall (fun m => issued m (after_claim w o owner (Ok ms))) ms /\ (tokens_in_range (after_claim w o owner (Ok ms)) -> (length ms <= lim)%nat).
Proof.
  intros Hc Hg. assert (tokens_in_range (after_claim w o owner (Ok ms)) -> pw_inv w) as Hiw.
  { intros Hr. apply Hg. eapply range_earlier; [| exact Hr]. simpl. by eexists. }
  split.
  - apply Forall_forall. intros m [i Hm]%list_elem_of_lookup Hr.
    destruct (claim_cases _ _ _ _ _ _ _ _ Hc Hr (Hiw Hr)) as (e & ids & Hcf & _).
    destruct (Forall2_lookup_r _ _ _ _ _ (cf_msgs _ _ _ _ _ _ Hcf) Hm) as (id & Hid & s & k & Hs & Ho & Em & Hk).
    exists k. pose proof (oi_seq _ (pi_outbox _ (Hiw Hr))).
    destruct (oi_key _ (pi_outbox _ (Hiw Hr)) _ _ Hs) as [Eid _].
    subst m. simpl. split; [done |]. split; [lia |]. unfold outbox_id in *. simpl. rewrite Eid, Ho. intros s' [= <-] _. done.
  - intros Hr. destruct (claim_cases _ _ _ _ _ _ _ _ Hc Hr (Hiw Hr)) as (e & ids & Hcf & Hn & _).
    by rewrite <-(Forall2_length _ _ _ (cf_msgs _ _ _ _ _ _ Hcf)).
Qed.

(** *** One message, one scan *)

Abbreviation E := pw_evolve.

(** The outcome of one message: published, and then the transport has accepted it, or failed *)
Definition one_outcome (m : OutboxMessage) (r : option (CatgaResult OutboxRun)) (w : world) : Prop :=
  match r with
  | Some (Ok run) => run = one_failed \/ run = one_published /\ accepted (pw_transport w) (o_envelope m)
  | _ => True
  end.

Lemma rtc_evolve w w' : rtc E w w' -> E w w'.
Proof. intros Hr. induction Hr; [reflexivity | by etrans]. Qed.

Lemma failure_rg owner id tok reason m w :
  rg E E (one_outcome m)
    (await? _ := os_record_failure (W := world) owner id tok reason in Done (Ok one_failed)) w.
Proof.
  unfold tbind_ok. eapply (rg_bind _ _ (fun _ _ => True)); [| | done].
  - apply rg_atomically. intros w1 _. split; [reflexivity |]. split; [| done].
    destruct (store_record_failure (pw_outbox w1) owner id tok reason) as [r o] eqn:Ef. simpl.
    apply mild_evolve; [done |]. intros _ Hi. change o with (snd (r, o)). rewrite <-Ef.
    apply update_owned_mild; [| done]. intros msg Hst Hwf. by apply record_failure_wf.
  - intros [[]|e] w1 _ w2 _; simpl; [by left | done].
Qed.

Lemma ack_rg owner m tok w :
  o_claim_token m = Some tok -> good w -> issued m w ->
  (forall w1, rtc E w w1 -> accepted (pw_transport w1) (o_envelope m)) ->
  rg E E (fun _ _ => True) (os_ack (W := world) owner (outbox_id m) tok) w.
Proof.
  intros Ht Hg Hm Ha. apply rg_atomically. intros w1 Hw1. split; [reflexivity |]. split; [| done].
  destruct (ack (pw_outbox w1) owner (outbox_id m) tok (pw_clock w1 0%nat)) as [r o] eqn:Ek. simpl.
  apply mild_evolve; [done |]. intros Hr Hi. change o with (snd (r, o)). rewrite <-Ek. apply ack_mild; [done |].
  intros s Hs Htok. destruct (issued_evolve m w w1 (rtc_evolve _ _ Hw1) Hg Hm Hr) as (k & Hk & _ & Hx).
  rewrite Ht in Hk. simplify_eq. rewrite (Hx s Hs Htok). by apply Ha.
Qed.

Lemma deliver_rg owner m w :
  good w -> issued m w -> rg E E (one_outcome m) (deliver (W := world) owner m) w.
Proof.
  intros Hg Hm. unfold deliver. destruct (o_claim_token m) as [tok|] eqn:Et; [| done].
  eapply rg_bind_stable; [| | done].
  - apply (rg_frame _ _ (fun w1 => good w1 /\ issued m w1)).
    + intros w1 w2 He [H1 H2]. split; [by eapply good_evolve | by eapply issued_evolve].
    + intros w1 w2 He [H1 H2]. split; [by eapply good_evolve | by eapply issued_evolve].
    + done.
    + apply (rg_zoom_part E E transport_step pw_transport put_transport
        (fun r t => r = Some (Ok tt) -> accepted t (o_envelope m)) (mt_publish (o_envelope m))).
      * intros w1 w2 He. apply rtc_once, He.
      * done.
      * intros w1 t Ht. by apply quiet_evolve.
      * apply pl_publish.
  - intros [[]|e] w1 Hq; [| apply failure_rg].
    destruct (Hq w1 (rtc_refl _ _)) as (_ & Hg1 & Hm1).
    assert (forall w2, rtc E w1 w2 -> accepted (pw_transport w2) (o_envelope m)) as Ha by (intros w2 Hw2; by apply (Hq w2 Hw2)).
    eapply (rg_bind _ _ (fun _ => rtc E w1)); [| | done].
    + eapply rg_mono; [apply (rg_frame _ _ (rtc E w1)); [intros w2 w3 He Hr; by eapply rtc_r.. | done | by apply ack_rg] | by intros x w2 []].
    + intros [[]|e] w2 Hw2; [| apply failure_rg]. intros w3 Hw3. right. split; [done |]. apply Ha. by etrans.
Qed.

(** The outcomes of a batch, in the order of its messages, as a scan reports them *)
Definition reports (ms : list OutboxMessage) (run : OutboxRun) (w : world) : Prop :=
  exists outcomes : list bool,
    Forall2 (fun m published => published = true -> accepted (pw_transport w) (o_envelope m)) ms outcomes
    /\ or_published run = lenZ (filter (fun b => b = true) outcomes) /\ or_failed run = lenZ (filter (fun b => b = false) outcomes).

Lemma combine_outcomes ms runs w : forall acc,
  Forall2 (fun m run => one_outcome m (Some (Ok run)) w) ms runs ->
  0 <= or_published acc -> 0 <= or_failed acc -> or_published acc + or_failed acc + lenZ ms <= int_max usize ->
  exists outcomes : list bool,
    Forall2 (fun m published => published = true -> accepted (pw_transport w) (o_envelope m)) ms outcomes
    /\ or_published (foldl combine acc runs) = or_published acc + lenZ (filter (fun b => b = true) outcomes)
    /\ or_failed (foldl combine acc runs) = or_failed acc + lenZ (filter (fun b => b = false) outcomes).
Proof.
  intros acc Hf. revert acc. induction Hf as [|m run ms runs Hr _ IH]; intros acc Hp Hq Hmax; unfold lenZ in *; cbn [foldl length] in *.
  { exists []. simpl. split_and!; [constructor | lia | lia]. }
  assert (forall x, 0 <= x <= int_max usize -> saturating usize x = x) as Hsat.
  { intros x Hx. unfold saturating. change (int_min usize) with 0. lia. }
  destruct Hr as [->|[-> Ha]].
  - assert (or_published (combine acc one_failed) = or_published acc /\ or_failed (combine acc one_failed) = or_failed acc + 1) as [Ep Eq].
    { unfold combine. simpl. rewrite !Hsat by lia. lia. }
    destruct (IH (combine acc one_failed)) as (outcomes & Ho & H1 & H2); [lia | lia | lia |].
    exists (false :: outcomes). split_and!; [by constructor | rewrite filter_cons_False by done; lia |]. rewrite filter_cons_True by done. cbn [length]. lia.
  - assert (or_published (combine acc one_published) = or_published acc + 1 /\ or_failed (combine acc one_published) = or_failed acc) as [Ep Eq].
    { unfold combine. simpl. rewrite !Hsat by lia. lia. }
    destruct (IH (combine acc one_published)) as (outcomes & Ho & H1 & H2); [lia | lia | lia |].
    exists (true :: outcomes). split_and!; [by constructor | | rewrite filter_cons_False by done; lia]. rewrite filter_cons_True by done. cbn [length]. lia.
Qed.

(** A scan of the outbox ends with one outcome per message that it claimed. *)
Definition flush_outcome (p : OutboxProcessor) (r : option (CatgaResult OutboxRun)) (w : world) : Prop :=
  match r with
  | Some (Ok run) => tokens_in_range w ->
      exists ms, (op_owner p, ms) ∈ pw_claims w /\ (length ms <= op_batch_size p)%nat /\ reports ms run w
  | _ => True
  end.

Lemma flush_rg p w : good w -> rg E E (flush_outcome p) (flush_once (W := world) p) w.
Proof.
  intros Hg. unfold flush_once, tbind_ok.
  eapply (rg_bind_stable _ _ (fun r w1 => match r with
    | Some (Ok ms) => good w1 /\ Forall (fun m => issued m w1) ms /\ (op_owner p, ms) ∈ pw_claims w1
        /\ (tokens_in_range w1 -> (length ms <= op_batch_size p)%nat /\ (op_batch_size p <= MAX_OUTBOX_CLAIM_LIMIT)%nat)
    | _ => True end)); [| | done].
  - apply rg_atomically. intros w1 Hw1. split; [reflexivity |].
    assert (good w1) as Hg1 by (eapply good_evolve; [by apply rtc_evolve | done]).
    destruct (claim (pw_outbox w1) (op_owner p) (op_batch_size p) (pw_clock w1 0%nat) (pw_clock w1 1%nat)
      (pw_clock w1 2%nat)) as [r o] eqn:Ec. simpl.
    pose proof (claim_evolve _ _ _ _ _ _ _ _ Ec Hg1) as He. split; [exact He |]. intros w2 Hw2.
    destruct r as [ms|e]; [| done]. destruct (claim_issued _ _ _ _ _ _ _ _ Ec Hg1) as [Hi Hn].
    assert (good (after_claim w1 o (op_owner p) (Ok ms))) as Hga by (by eapply good_evolve).
    apply rtc_evolve in Hw2. split; [by eapply good_evolve |]. split_and!.
    + eapply Forall_impl; [exact Hi |]. intros m Hm. by eapply issued_evolve.
    + destruct (pe_claims _ _ Hw2) as [l Hl]. rewrite Hl. simpl. set_solver.
    + intros Hr. assert (tokens_in_range (after_claim w1 o (op_owner p) (Ok ms))) as Hra by (eapply range_earlier; [apply Hw2 | done]).
      split; [by apply Hn |]. assert (pw_inv w1) as Hi1.
      { apply Hg1. eapply range_earlier; [| exact Hra]. simpl. by eexists. }
      by destruct (claim_cases _ _ _ _ _ _ _ _ Ec Hra Hi1) as (_ & _ & _ & _ & ?).
  - intros [ms|e] w1 Hq; [| done].
    eapply rg_bind_stable; [eapply (rg_frame _ _ (rtc E w1)); [.. | apply (rg_try_join_all E (fun m run => one_outcome m (Some (Ok run))) ms)] | | done].
    + intros w2 w3 He Hr. by eapply rtc_r.
    + intros w2 w3 He Hr. by eapply rtc_r.
    + done.
    + destruct (Hq w1 (rtc_refl _ _)) as (Hg1 & Hi & _). apply Forall2_fmap_r. clear Hq. induction Hi as [|m ms Hm _ IH]; constructor; [| done].
      eapply rg_mono; [by apply deliver_rg |]. intros [[run|e]|] w2; by simpl.
    + intros [runs|e] w2 Hruns; [| done]. intros w3 Hw3 Hr. destruct (Hruns w3 Hw3) as [Hf Hlater].
      destruct (Hq w3 Hlater) as (_ & _ & Hin & Hn). destruct (Hn Hr). exists ms. split_and!; [done | done |].
      destruct (combine_outcomes ms runs w3 run_default Hf) as (outcomes & Ho & Hpub & Hfail); [done | done | | by exists outcomes].
      unfold lenZ, MAX_OUTBOX_CLAIM_LIMIT in *. unfold int_max. simpl. lia.
Qed.

End properties.

(** ** The in-memory transport keeps the contract. *)

Definition memory_accepted (t : MemoryTransport) (e : Envelope) : Prop := e ∈ mm_accepted t.
Definition memory_step (t t' : MemoryTransport) : Prop := mm_accepted t `prefix_of` mm_accepted t'.

Lemma memory_steps t t' : rtc memory_step t t' -> memory_step t t'.
Proof. intros Hr. induction Hr as [|t1 t2 t3 H _ IH]; unfold memory_step in *; [reflexivity | by etrans]. Qed.

#[export] Instance memory_publish_laws : PublishLaws memory_accepted memory_step.
Proof.
  split.
  - split; [intros t; unfold memory_step; reflexivity |].
    intros t1 t2 t3 H1 H2. unfold memory_step in *. by etrans.
  - intros t t' e [l Hl] He. unfold memory_accepted. rewrite Hl. set_solver.
  - intros e t. unfold mt_publish, memory_message_transport, memory_publish, tbind_ok.
    eapply (rg_bind _ _ (fun _ _ => True)); [| | done].
    + apply rg_atomically. intros t1 _. split; [unfold memory_step; reflexivity |]. split; [unfold memory_step; simpl; reflexivity | done].
    + intros [[]|err] t1 _; [| by intros t2 _]. apply rg_atomically. intros t2 _.
      split; [unfold memory_step; reflexivity |]. split; [by exists [e] |]. intros t3 Ht3 _.
      apply memory_steps in Ht3 as [l Hl].
      unfold memory_accepted. rewrite Hl. simpl. set_solver.
Qed.

(** Two messages, one processor *)
Definition demo_world : PWorld MemoryTransport :=
  mkPWorld demo_outbox (fun _ => at_ms 1500) (mkMemoryTransport [] 4 ∅ 0 true []) [] ∅.

Definition demo_flush :=
  foldl (move (flush_once (W := PWorld MemoryTransport))) (demo_world, [])
    ([Start (mkProcessor "w1" 10 2)] ++ (Poll 0 <$> [0; 0; 1; 0; 1; 0; 0]%nat)).

Lemma demo_pw_inv : pw_inv memory_accepted demo_world.
Proof.
  split; [apply demo_inv | by vm_compute |]. intros id s Hs Hp. exfalso.
  assert (Forall (fun x => is_published (snd x) = false) (map_to_list (records (ob_table demo_outbox)))) as Hf
    by (vm_compute; repeat constructor).
  apply elem_of_map_to_list in Hs. rewrite Forall_forall in Hf. specialize (Hf _ Hs). simpl in Hf. congruence.
Qed.


(** ** One store failure abandons the others

    A store that cannot record failures, and a transport that refuses message 9.  The error of the
    record ends the scan and drops the future of message 5, which was published and is not
    acknowledged. *)

Section abandoned.
Record Log := mkLog { lg_sent : list Z; lg_acked : list Z }.

Definition claimed_demo (id : Z) : OutboxMessage :=
  claim_until_with_token (demo_message id 400) "w1" (token_of id) 9000.

#[local] Instance refusing_store : OutboxStore (W := Log) := {
  os_claim _ _ := Done (Ok [claimed_demo 9; claimed_demo 5]);
  os_ack _ id _ := atomically (fun w => (Ok tt, mkLog (lg_sent w) (lg_acked w ++ [id])));
  os_record_failure _ _ _ _ := atomically (fun w => (fail Unavailable "store is down", w))
}.

#[local] Instance refusing_transport : MessageTransport (W := Log) := {
  mt_publish e := atomically (fun w =>
    if env_id e =? 9 then (fail Unavailable "refused", w) else (Ok tt, mkLog (lg_sent w ++ [env_id e]) (lg_acked w)));
  mt_receive _ := None
}.

Example one_failure_abandons_others :
  foldl (move flush_once) (mkLog [] [], [])
    [Start (mkProcessor "w1" 10 2); Poll 0 1; Poll 0 0; Poll 0 0]
  = (mkLog [5] [], [(mkProcessor "w1" 10 2, Finished (fail Unavailable "store is down"))]).
Proof. vm_compute. reflexivity. Qed.
End abandoned.

(** ** Failure reasons *)

Lemma fitting_bound available index chars : (index <= available)%nat -> (fitting available index chars <= available)%nat.
Proof.
  revert index. induction chars as [|c chars IH]; intros index H; cbn [fitting]; [done |].
  destruct (Nat.leb_spec (index + length (encode_utf8 c)) available); [by apply IH | done].
Qed.

(** The reason that is stored fits into its budget, whatever the length of the error. *)
Lemma failure_reason_bounded context error :
  (String.length context <= MAX_OUTBOX_FAILURE_ERROR_BYTES)%nat ->
  (String.length (failure_reason context error) <= MAX_OUTBOX_FAILURE_ERROR_BYTES)%nat.
Proof.
  intros Hc. unfold failure_reason. set (n := fitting _ _ _).
  assert (n <= MAX_OUTBOX_FAILURE_ERROR_BYTES - String.length context)%nat as Hn by (apply fitting_bound; lia).
  assert (forall a b, String.length (a +:+ b) = (String.length a + String.length b)%nat) as Happ
    by (intros a b; induction a; simpl; auto).
  rewrite Happ.
  assert (forall bs, String.length (string_of_bytes bs) = length bs) as Hb by (intros bs; induction bs; simpl; auto).
  rewrite Hb, length_take. lia.
Qed.
