(* ===== verification/Consumers.v ===== *)
(** * Competing consumers ([consumer.rs])

    A consumer receives deliveries, handles a bounded number of them at once and acknowledges each
    by its outcome.  The work on one delivery is a task; the consumer is a step relation over its
    buffer of such tasks.  Tracing spans and the scope of the transport context are left out. *)

From S2P Require Import Prelude Errors Time Messages Reliability Tasks Mediator Lifecycle Transports.

Inductive DeliveryOutcome := Acknowledged | Rejected | DeadLettered.

Record ConsumerRun := mkConsumerRun {
  cr_received : Z;
  cr_acknowledged : Z;
  cr_rejected : Z;
  cr_dead_lettered : Z
}.

Definition consumer_run_default : ConsumerRun := mkConsumerRun 0 0 0 0.

Definition record_outcome (r : ConsumerRun) (o : DeliveryOutcome) : ConsumerRun :=
  match o with
  | Acknowledged => mkConsumerRun (cr_received r) (cr_acknowledged r + 1) (cr_rejected r) (cr_dead_lettered r)
  | Rejected => mkConsumerRun (cr_received r) (cr_acknowledged r) (cr_rejected r + 1) (cr_dead_lettered r)
  | DeadLettered => mkConsumerRun (cr_received r) (cr_acknowledged r + 1) (cr_rejected r) (cr_dead_lettered r + 1)
  end.

Definition count_received (r : ConsumerRun) : ConsumerRun :=
  mkConsumerRun (cr_received r + 1) (cr_acknowledged r) (cr_rejected r) (cr_dead_lettered r).

Section consumer.
Context {W : Type}.

(** [DeliveryHandler], and [TypedDeliveryHandlerAdapter] over a decoder *)
Definition DeliveryHandler : Type := Envelope -> Task W (CatgaResult unit).

Definition typed_handler {M} (decode_payload : list Z -> CatgaResult M) (handler : M -> Task W (CatgaResult unit))
    : DeliveryHandler := fun e =>
  match decode_payload (payload e) with
  | Err error => Done (Err error)
  | Ok message => handler message
  end.

Record DeadLetterPolicy := mkPolicy {
  dp_max_attempts : Z;
  dp_enqueue : DeadLetter -> Task W (CatgaResult unit)
}.

Record CompetingConsumer := mkConsumer {
  cc_handler : DeliveryHandler;
  cc_concurrency : nat;
  cc_dead_letters : option DeadLetterPolicy
}.

Definition consumer_new (handler : DeliveryHandler) (concurrency : nat) : CatgaResult CompetingConsumer :=
  if (concurrency =? 0)%nat then fail Validation "consumer concurrency must be greater than zero"
  else Ok (mkConsumer handler concurrency None).

Definition with_dead_letters (c : CompetingConsumer) (max_attempts : Z) (enqueue : DeadLetter -> Task W (CatgaResult unit))
    : CatgaResult CompetingConsumer :=
  if max_attempts =? 0 then fail Validation "consumer maximum delivery attempts must be greater than zero"
  else Ok (mkConsumer (cc_handler c) (cc_concurrency c) (Some (mkPolicy max_attempts enqueue))).

(** The policy applies to this delivery. *)
Definition terminal (c : CompetingConsumer) (d : Delivery W) : option DeadLetterPolicy :=
  match cc_dead_letters c with
  | Some policy => if dp_max_attempts policy <=? d_attempts d then Some policy else None
  | None => None
  end.

Definition reject (d : Delivery W) : Task W (CatgaResult DeliveryOutcome) :=
  await? _ := transport_nack d in Done (Ok Rejected).

(** [process_delivery]; [now]: the clock that the diagnostics read.  While a handler or the store
    runs, the future owns the delivery, which is dropped with it; an error of the letter drops it. *)
Definition process_delivery (now : W -> SystemTime) (c : CompetingConsumer) (d : Delivery W)
    : Task W (CatgaResult DeliveryOutcome) :=
  await handled := guarded (drop_delivery d) (cc_handler c (d_envelope d)) in
  match handled with
  | Ok _ => await? _ := transport_ack d in Done (Ok Acknowledged)
  | Err error =>
      match terminal c d with
      | None => reject d
      | Some policy =>
          await letter := atomically (fun w =>
            match from_failure (d_envelope d) error (d_attempts d) "consumer.handle" (now w) with
            | Err e => (Err e, drop_delivery d w)
            | Ok letter => (Ok letter, w)
            end) in
          match letter with
          | Err e => Done (Err e)
          | Ok letter =>
              await stored := guarded (drop_delivery d) (dp_enqueue policy letter) in
              match stored with
              | Ok _ => await? _ := transport_ack d in Done (Ok DeadLettered)
              | Err _ => reject d
              end
          end
      end
  end.

(** ** The loop

    [run_until_cancelled]: the receive loop with its buffer of futures.  A result ends the run: an
    error of a delivery or of [receive], a panic of a handler ([None]), or the end of the drain after
    a shutdown. *)

Context `{!MessageTransport (W := W)} (now : W -> SystemTime) (c : CompetingConsumer) (shutdown : W -> bool)
  (env : W -> W -> Prop).

Record Consumer := mkState {
  cs_run : ConsumerRun;
  cs_active : list (Task W (CatgaResult DeliveryOutcome));
  cs_receiving : bool;
  cs_result : option (option (CatgaResult ConsumerRun))
}.

Definition consumer_start : Consumer := mkState consumer_run_default [] true None.

Definition finish (s : Consumer) (r : option (CatgaResult ConsumerRun)) : Consumer :=
  mkState (cs_run s) [] false (Some r).

(** The futures that are dropped with the buffer *)
Definition drop_all (ts : list (Task W (CatgaResult DeliveryOutcome))) (w : W) : W :=
  foldl (fun w t => match t with Await d _ _ => d w | _ => w end) w ts.

(** [work.next()] gave an outcome. *)
Definition take_outcome (s : Consumer) (o : DeliveryOutcome) (active : list (Task W (CatgaResult DeliveryOutcome))) : Consumer :=
  mkState (record_outcome (count_received (cs_run s)) o) active (cs_receiving s) (cs_result s).

(** A future of the buffer has ended. *)
Definition settle_active (s : Consumer) (i : nat) (t : Task W (CatgaResult DeliveryOutcome)) (w : W) : Consumer * W :=
  let others := delete i (cs_active s) in
  match t with
  | Await _ _ _ => (s, w)
  | Done (Ok o) => (take_outcome s o others, w)
  | Done (Err e) => (finish s (Some (Err e)), drop_all others w)
  | Panic => (finish s None, drop_all others w)
  end.

Definition with_active (s : Consumer) (l : list (Task W (CatgaResult DeliveryOutcome))) : Consumer :=
  mkState (cs_run s) l (cs_receiving s) (cs_result s).

(** The receiver is polled while the buffer has room. *)
Definition may_receive (s : Consumer) : bool :=
  cs_receiving s && (length (cs_active s) <? cc_concurrency c)%nat.

Inductive cstep : Consumer * W -> Consumer * W -> Prop :=
| cs_receive s w d w1 :
    cs_result s = None -> may_receive s = true -> mt_receive w = Some (Ok d, w1) ->
    cstep (s, w) (with_active s (cs_active s ++ [process_delivery now c d]), w1)
| cs_receive_failed s w e w1 :
    cs_result s = None -> may_receive s = true -> mt_receive w = Some (Err e, w1) ->
    cstep (s, w) (finish s (Some (Err e)), drop_all (cs_active s) w1)
| cs_cancelled s w :
    cs_result s = None -> may_receive s = true -> shutdown w = true ->
    cstep (s, w) (mkState (cs_run s) (cs_active s) false None, w)
| cs_poll s w i d e n choice :
    cs_result s = None -> cs_active s !! i = Some (Await d e n) ->
    cstep (s, w) (with_active s (<[i := n choice w]> (cs_active s)), e choice w)
| cs_settle s w i t :
    cs_result s = None -> cs_active s !! i = Some t -> cstep (s, w) (settle_active s i t w)
| cs_drained s w :
    cs_result s = None -> cs_receiving s = false -> cs_active s = [] -> cstep (s, w) (finish s (Some (Ok (cs_run s))), w)
| cs_world s w w1 : env w w1 -> cstep (s, w) (s, w1).
End consumer.
Arguments CompetingConsumer : clear implicits.
Arguments Consumer : clear implicits.

(** ** Properties *)

(** *** Counts and limits *)

Section counts.
Context {W : Type} `{!MessageTransport (W := W)} (now : W -> SystemTime) (c : CompetingConsumer W) (shutdown : W -> bool)
  (env : W -> W -> Prop).

Record consumer_inv (s : Consumer W) : Prop := {
  ci_received : cr_received (cs_run s) = cr_acknowledged (cs_run s) + cr_rejected (cs_run s);
  ci_letters : 0 <= cr_dead_lettered (cs_run s) <= cr_acknowledged (cs_run s);
  ci_rejected : 0 <= cr_rejected (cs_run s);
  ci_active : (length (cs_active s) <= cc_concurrency c)%nat;
  ci_result : forall r, cs_result s = Some (Some (Ok r)) -> r = cs_run s /\ cs_receiving s = false /\ cs_active s = []
}.

Lemma finish_inv s r :
  consumer_inv s -> (forall x, r = Some (Ok x) -> x = cs_run s) -> consumer_inv (finish s r).
Proof. intros [H1 H2 H3 H4 H5] Hr. split; simpl; try done; [lia |]. intros x [= E]. by rewrite <-(Hr x). Qed.

Lemma consumer_step s w s' w' : consumer_inv s -> cstep now c shutdown env (s, w) (s', w') -> consumer_inv s'.
Proof.
  intros Hi Hs. inversion Hs as [? ? d w1 Hn Hm Hr|? ? e w1 Hn Hm Hr|? ? Hn Hm Hd|? ? i d e n ch Hn Ha|? ? i t Hn Ha|? ? Hn Hr Ha|? ? w1 He];
    subst; try (apply finish_inv; [done | naive_solver]); try done.
  - destruct Hi as [H1 H2 H3 H4 H5]. unfold may_receive in Hm. bool_prop.
    split; simpl; try done; [rewrite length_app; simpl; apply Nat.ltb_lt in H0; lia | congruence].
  - destruct Hi as [H1 H2 H3 H4 H5]. split; simpl; try done; congruence.
  - destruct Hi as [H1 H2 H3 H4 H5]. split; simpl; try done; [by rewrite length_insert | congruence].
  - assert (length (delete i (cs_active s)) <= cc_concurrency c)%nat as Hlen.
    { pose proof (ci_active _ Hi). rewrite length_delete by done. lia. }
    destruct t as [[o|e]| |]; simplify_eq/=; try (apply finish_inv; [done | naive_solver]); try done.
    destruct Hi as [H1 H2 H3 H4 H5]. destruct o; split; simpl; try done; try lia; congruence.
Qed.

(** At every moment of a run no more deliveries are in flight than the limit, and the counters add up:
    every outcome was an acknowledgement or a rejection, and dead letters are among the former.  A
    run that ends well has stopped to receive and has no delivery left. *)
Theorem consumer_counts w s' w' :
  rtc (cstep now c shutdown env) (consumer_start, w) (s', w') ->
  cr_received (cs_run s') = cr_acknowledged (cs_run s') + cr_rejected (cs_run s')
  /\ 0 <= cr_dead_lettered (cs_run s') <= cr_acknowledged (cs_run s')
  /\ (length (cs_active s') <= cc_concurrency c)%nat
  /\ (forall r, cs_result s' = Some (Some (Ok r)) -> r = cs_run s' /\ cs_receiving s' = false /\ cs_active s' = []).
Proof.
  intros Hr. assert (forall x y, rtc (cstep now c shutdown env) x y -> consumer_inv (fst x) -> consumer_inv (fst y)) as Hind.
  { intros x y Hxy. induction Hxy as [|[s1 w1] [s2 w2] z Hs _ IH]; [done |]. intros Hi. by eapply IH, consumer_step. }
  destruct (Hind _ _ Hr) as [H1 H2 H3 H4 H5]; [split; simpl; try done; lia |]. done.
Qed.
End counts.

(** *** Acknowledgements

    The tasks of any number of consumers on one transport, with a record of what happened to each
    delivery, which the code does not keep.  A delivery is numbered by who starts the task. *)

Section acknowledgements.
Context {B : Type}.

Inductive Event :=
| Handled (r : CatgaResult unit)
| Stored (r : CatgaResult unit)
| Acked (r : CatgaResult unit)
| Nacked (r : CatgaResult unit).

Record LWorld := mkLWorld { lw_base : B; lw_log : list (nat * Event) }.

Definition put_base (b : B) (w : LWorld) : LWorld := mkLWorld b (lw_log w).
Definition log_event (n : nat) (ev : CatgaResult unit -> Event) (r : CatgaResult unit) (w : LWorld) : LWorld :=
  mkLWorld (lw_base w) (lw_log w ++ [(n, ev r)]).

(** An operation of the environment of a consumer, in the larger world, with its record *)
Definition recorded (n : nat) (ev : CatgaResult unit -> Event) (t : Task B (CatgaResult unit)) : Task LWorld (CatgaResult unit) :=
  tap (log_event n ev) (zoom lw_base put_base t).

Definition recorded_delivery (n : nat) (d : Delivery B) : Delivery LWorld :=
  mkDelivery (d_envelope d)
    (Some (mkAcknowledger (recorded n Acked (acknowledge d)) (recorded n Nacked (negative_acknowledge d))
      (fun w => put_base (drop_delivery d (lw_base w)) w))) (d_attempts d).

Definition recorded_consumer (n : nat) (c : CompetingConsumer B) : CompetingConsumer LWorld :=
  mkConsumer (fun e => recorded n Handled (cc_handler c e)) (cc_concurrency c)
    ((fun p => mkPolicy (dp_max_attempts p) (fun l => recorded n Stored (dp_enqueue p l))) <$> cc_dead_letters c).

Context (now : B -> SystemTime).

Definition recorded_work (l : nat * (CompetingConsumer B * Delivery B)) : Task LWorld (CatgaResult DeliveryOutcome) :=
  let '(n, (c, d)) := l in
  process_delivery (fun w => now (lw_base w)) (recorded_consumer n c) (recorded_delivery n d).

(** A delivery was handled with success, or its dead letter is stored. *)
Definition settled_before (n : nat) (log : list (nat * Event)) : Prop :=
  (n, Handled (Ok tt)) ∈ log \/ (n, Stored (Ok tt)) ∈ log.

Definition acks_justified (log : list (nat * Event)) : Prop :=
  forall i n r, log !! i = Some (n, Acked r) -> settled_before n (take i log).

Record log_evolve (w w' : LWorld) : Prop := {
  le_grows : lw_log w `prefix_of` lw_log w';
  le_justified : acks_justified (lw_log w) -> acks_justified (lw_log w')
}.

#[local] Instance log_evolve_preorder : PreOrder log_evolve.
Proof. split; [by split | intros w1 w2 w3 [H1 H2] [H3 H4]; split; [by etrans | auto]]. Qed.

Lemma base_evolve w b : log_evolve w (put_base b w).
Proof. by split. Qed.

Lemma zoom_respects {A} (t : Task B A) : respects log_evolve (zoom lw_base put_base t).
Proof.
  induction t as [a| |d e n IH]; simpl; [done | done |]. split; [intros w; apply base_evolve |].
  intros c w. split; [apply base_evolve | apply IH].
Qed.

Definition is_ack (e : Event) : bool := match e with Acked _ => true | _ => false end.

Lemma append_justified log n e :
  (is_ack e = true -> settled_before n log) -> acks_justified log -> acks_justified (log ++ [(n, e)]).
Proof.
  intros He H i m r Hi. apply lookup_app_Some in Hi as [Hi|[Hge Hi]].
  - rewrite take_app_le by (apply lookup_lt_Some in Hi; lia). by eapply H.
  - apply list_lookup_singleton_Some in Hi as [Hz Hx]. assert (i = length log) as -> by lia.
    rewrite take_app_length. simplify_eq. by apply He.
Qed.

Lemma settled_later n w w' : log_evolve w w' -> settled_before n (lw_log w) -> settled_before n (lw_log w').
Proof. intros [[l ->] _] [H|H]; [left | right]; set_solver. Qed.

(** Every recorded operation but an acknowledgement may happen at any time. *)
Lemma recorded_rg n ev t w :
  (forall r, is_ack (ev r) = true -> settled_before n (lw_log w)) ->
  rg log_evolve log_evolve (fun x w1 => forall r, x = Some r -> (n, ev r) ∈ lw_log w1) (recorded n ev t) w.
Proof.
  intros Hack. unfold recorded.
  eapply (rg_tap _ (fun w1 => forall r, is_ack (ev r) = true -> settled_before n (lw_log w1))).
  - apply _.
  - intros w1 w2 He H r Hr. by eapply settled_later, H.
  - apply zoom_respects.
  - done.
  - intros r w1 H. split; simpl; [by eexists |]. apply append_justified. apply H.
  - intros r w1 w2 _ Hr r' [= <-]. assert (lw_log (log_event n ev r w1) `prefix_of` lw_log w2) as [l ->].
    { clear -Hr. induction Hr as [|x y z Hxy _ IH]; [done | etrans; [apply Hxy | done]]. }
    simpl. set_solver.
  - done.
Qed.

Abbreviation L := log_evolve.

(** What a task has on record when it reports an outcome *)
Definition outcome_recorded (n : nat) (x : option (CatgaResult DeliveryOutcome)) (w : LWorld) : Prop :=
  match x with
  | Some (Ok Acknowledged) => (n, Handled (Ok tt)) ∈ lw_log w /\ (n, Acked (Ok tt)) ∈ lw_log w
  | Some (Ok Rejected) => (exists e, (n, Handled (Err e)) ∈ lw_log w) /\ (n, Nacked (Ok tt)) ∈ lw_log w
  | Some (Ok DeadLettered) =>
      (exists e, (n, Handled (Err e)) ∈ lw_log w) /\ (n, Stored (Ok tt)) ∈ lw_log w /\ (n, Acked (Ok tt)) ∈ lw_log w
  | _ => True
  end.

Lemma logged_later x w w' : L w w' -> x ∈ lw_log w -> x ∈ lw_log w'.
Proof. intros [[l ->] _]. set_solver. Qed.

Lemma logged_rtc x w w' : rtc L w w' -> x ∈ lw_log w -> x ∈ lw_log w'.
Proof. intros Hr. induction Hr; eauto using logged_later. Qed.

(** The end of a task, when what it needs is on record *)
Lemma answered n (known : nat * Event -> Prop) ev (o : DeliveryOutcome) t w :
  (forall r, is_ack (ev r) = true -> settled_before n (lw_log w)) ->
  (forall x, known x -> x ∈ lw_log w) ->
  (forall w1, (forall x, known x -> x ∈ lw_log w1) -> (n, ev (Ok tt)) ∈ lw_log w1 -> outcome_recorded n (Some (Ok o)) w1) ->
  rg L L (outcome_recorded n) (await? _ := recorded n ev t in Done (Ok o)) w.
Proof.
  intros Hack Hk Ho. unfold tbind_ok. eapply rg_bind_stable.
  - apply (rg_frame _ _ (fun w1 => forall x, known x -> x ∈ lw_log w1)); [..| by apply recorded_rg];
      try (intros w1 w2 He H x Hx; eapply logged_later; eauto). done.
  - intros [[]|e] w1 H; [| done]. intros w2 Hw2. destruct (H w2 Hw2) as [H1 H2]. apply Ho; [done | by apply H1].
  - done.
Qed.

Lemma work_rg n c d w : rg L L (outcome_recorded n) (recorded_work (n, (c, d))) w.
Proof.
  unfold recorded_work, process_delivery. cbn [cc_handler recorded_consumer].
  eapply rg_bind_stable; [apply rg_guarded; [apply _ | intros w1; apply base_evolve | | by apply recorded_rg] | | done]; [done |].
  intros handled w1 Hh. assert ((n, Handled handled) ∈ lw_log w1) as Hin by (by apply (Hh w1 (rtc_refl _ _))).
  destruct handled as [[]|error].
  - apply (answered n (eq (n, Handled (Ok tt)))); [| by intros x <- |].
    + intros r _. by left.
    + intros w2 Hk Ha. split; [by apply Hk | done].
  - assert (forall w2, (n, Handled (Err error)) ∈ lw_log w2 -> rg L L (outcome_recorded n) (reject (recorded_delivery n d)) w2) as Hreject.
    { intros w2 Hw2. apply (answered n (eq (n, Handled (Err error)))); [done | by intros x <- |].
      intros w3 Hk Ha. split; [exists error; by apply Hk | done]. }
    destruct (terminal _ _) as [policy|] eqn:Et; [| by apply Hreject].
    assert (exists p, policy = mkPolicy (dp_max_attempts p) (fun l => recorded n Stored (dp_enqueue p l))) as [p ->].
    { unfold terminal in Et. simpl in Et. destruct (cc_dead_letters c) as [p|]; simpl in Et; [| done].
      destruct (_ <=? _); simplify_eq. by exists p. }
    eapply (rg_bind _ _ (fun x w2 => (n, Handled (Err error)) ∈ lw_log w2)); [| | done].
    + apply rg_atomically. intros w2 Hw2. split; [reflexivity |].
      assert (L w2 (snd (match from_failure (d_envelope (recorded_delivery n d)) error (d_attempts (recorded_delivery n d))
          "consumer.handle" (now (lw_base w2)) with
          | Ok letter => (Ok letter, w2) | Err e => (Err e, drop_delivery (recorded_delivery n d) w2) end))) as Hd
        by (destruct (from_failure _ _ _ _ _); [reflexivity | apply base_evolve]).
      split; [exact Hd |]. intros w3 Hw3. eapply logged_rtc; [exact Hw3 |]. eapply logged_later; [exact Hd |].
      by eapply logged_rtc.
    + intros [letter|e] w2 Hw2; [| done]. cbn [dp_enqueue].
      eapply rg_bind_stable; [apply (rg_frame _ _ (fun w3 => (n, Handled (Err error)) ∈ lw_log w3));
        [intros w3 w4; apply logged_later | intros w3 w4; apply logged_later | exact Hw2 |
         apply rg_guarded; [apply _ | intros w3; apply base_evolve | | by apply recorded_rg]; done] | | done].
      intros stored w3 Hs. destruct (Hs w3 (rtc_refl _ _)) as [Hst Hh3]. destruct stored as [[]|e]; [| by apply Hreject].
      apply (answered n (fun x => x = (n, Handled (Err error)) \/ x = (n, Stored (Ok tt)))).
      * intros r _. right. by apply Hst.
      * intros x [->| ->]; [done | by apply Hst].
      * intros w4 Hk Ha. split_and!; [exists error; apply Hk; by left | apply Hk; by right | done].
Qed.

(** C11: The acknowledgement of a delivery comes after its work.  Any number of consumers handle
    deliveries at once, dropped and polled in any order: every acknowledgement that a transport was
    asked for comes after a success of the handler for that delivery or after its dead letter was
    stored; and the outcome that a task reports is what happened: acknowledged after success,
    rejected after a failure, or stored and acknowledged after a failure. *)
Theorem ack_after_work env w0 w pool :
  (forall w1 w2, env w1 w2 -> lw_log w2 = lw_log w1) -> lw_log w0 = [] ->
  rtc (pool_step env recorded_work) (w0, []) (w, pool) ->
  acks_justified (lw_log w)
  /\ forall i n c d o, pool !! i = Some ((n, (c, d)), Finished (Ok o)) -> outcome_recorded n (Some (Ok o)) w.
Proof.
  intros Henv H0 Hr.
  destruct (pool_sound L env recorded_work (fun w => acks_justified (lw_log w)) (fun l => outcome_recorded (fst l)))
    with (w := w0) (w' := w) (pool := pool) as [Hi Hp].
  - intros w1 w2 He. split; by rewrite (Henv _ _ He).
  - intros w1 w2 [_ H]. exact H.
  - intros [n [c d]] w1 _. apply work_rg.
  - rewrite H0. by intros i n r [=].
  - done.
  - split; [done |]. intros i n c d o Hl. exact (Hp _ _ _ Hl w (rtc_refl _ _)).
Qed.
End acknowledgements.

(** *** Instances *)

Section examples.
(** Message 5 is handled; message 9 fails and is stored as a dead letter at its first attempt. *)
Definition picky : CompetingConsumer MemoryTransport :=
  mkConsumer (fun e => atomically (fun t => (if env_id e =? 9 then fail Internal "boom" else Ok tt, t))) 2
    (Some (mkPolicy 1 (fun _ => atomically (fun t => (Ok tt, t))))).

Definition memory_delivery (id : Z) : Delivery MemoryTransport :=
  delivery_with_acknowledger (mkEnvelope id "t" [] (MessageMetadata_new id None) None 1 None None) memory_acknowledger.

Definition two_deliveries :=
  foldl (move (recorded_work (B := MemoryTransport) (fun _ => 0)))
    (mkLWorld (mkMemoryTransport [] 4 ∅ 2 true []) [], [])
    [Start (0%nat, (picky, memory_delivery 5)); Start (1%nat, (picky, memory_delivery 9));
     Poll 1 0; Poll 0 0; Poll 1 0; Poll 1 0; Poll 0 0; Poll 1 0].

Lemma ack_after_work_witness :
  acks_justified (lw_log (fst two_deliveries))
  /\ lw_log (fst two_deliveries)
     = [(1%nat, Handled (fail Internal "boom")); (0%nat, Handled (Ok tt)); (1%nat, Stored (Ok tt));
        (0%nat, Acked (Ok tt)); (1%nat, Acked (Ok tt))]
  /\ (fun x => match snd x with Finished r => Some r | _ => None end) <$> snd two_deliveries
     = [Some (Ok Acknowledged); Some (Ok DeadLettered)].
Proof.
  destruct (ack_after_work (B := MemoryTransport) (fun _ => 0) (fun _ _ => False)
    (mkLWorld (mkMemoryTransport [] 4 ∅ 2 true []) []) (fst two_deliveries) (snd two_deliveries)) as [H _].
  - done.
  - done.
  - rewrite <-surjective_pairing. apply moves_steps.
  - split; [exact H |]. vm_compute. split; reflexivity.
Defined.

(** A handler failure on the in-memory transport: the negative acknowledgement is not supported, so
    the error ends the whole run, and the envelope is gone. *)
Definition failing : CompetingConsumer MemoryTransport :=
  mkConsumer (fun _ => Done (fail Internal "boom")) 1 None.

Definition one_envelope : MemoryTransport :=
  push_envelope (d_envelope (memory_delivery 5)) (mkMemoryTransport [] 4 ∅ 0 true []).

Example memory_rejection_stops_consumer :
  exists s w, rtc (cstep (fun _ => 0) failing (fun _ => false) (fun _ _ => False)) (consumer_start, one_envelope) (s, w)
    /\ cs_result s = Some (Some (fail Unsupported "memory transport does not support negative acknowledgement"))
    /\ mm_queue w = [] /\ mm_pending w = 0.
Proof.
  exists (mkState consumer_run_default [] false
            (Some (Some (fail Unsupported "memory transport does not support negative acknowledgement")))),
         (mkMemoryTransport [] 4 ∅ 0 true [d_envelope (memory_delivery 5)]). split; [| done].
  eapply rtc_l; [eapply cs_receive; reflexivity |].
  eapply rtc_l; [eapply (cs_poll _ _ _ _ _ _ 0 _ _ _ 0); reflexivity |].
  eapply rtc_l; [eapply (cs_settle _ _ _ _ _ _ 0); reflexivity |].
  apply rtc_refl.
Qed.
End examples.
