(* ===== verification/Routing.v ===== *)
(** * Routing, type names and key digests ([routing.rs], [message_type.rs], [hash.rs])

    Route tables that are filled at startup, the registry of message type names, and the byte
    strings that storage keys are the digests of. *)

From S2P Require Import Prelude Utf8 Errors Messages Wire Transports.

(** ** Routes by message type *)

Record MessageTypeRoute := mkTypeRoute { tr_message_type : string; tr_destination : Destination }.

Abbreviation MessageDestinationRouter := (list MessageTypeRoute).

Definition add_type_route (r : MessageDestinationRouter) (message_type : string) (destination : Destination)
    : CatgaResult unit * MessageDestinationRouter :=
  if trim_is_empty message_type then (fail Validation "message type route must not be empty or whitespace-only", r)
  else if existsb (fun route => String.eqb (tr_message_type route) message_type) r
  then (fail Validation "message type route is already configured", r)
  else (Ok tt, r ++ [mkTypeRoute message_type destination]).

Definition resolve_type (r : MessageDestinationRouter) (message_type : string) : option Destination :=
  tr_destination <$> List.find (fun route => String.eqb (tr_message_type route) message_type) r.

(** ** Routes by header *)

Record HeaderRoute := mkHeaderRoute { hr_key : string; hr_value : string; hr_destination : Destination }.

Record MessageRouter := mkRouter { mr_default : option Destination; mr_routes : list HeaderRoute }.

Definition router_new (default_destination : option Destination) : MessageRouter := mkRouter default_destination [].

Definition add_header_route (r : MessageRouter) (key value : string) (destination : Destination)
    : CatgaResult unit * MessageRouter :=
  if trim_is_empty key then (fail Validation "message route header key must not be empty or whitespace-only", r)
  else if trim_is_empty value then (fail Validation "message route header value must not be empty or whitespace-only", r)
  else (Ok tt, mkRouter (mr_default r) (mr_routes r ++ [mkHeaderRoute key value destination])).

Definition route_matches (headers : list (string * string)) (route : HeaderRoute) : bool :=
  existsb (fun '(key, value) => String.eqb key (hr_key route) && String.eqb value (hr_value route)) headers.

Definition resolve_headers (r : MessageRouter) (headers : list (string * string)) : option Destination :=
  match List.find (route_matches headers) (mr_routes r) with
  | Some route => Some (hr_destination route)
  | None => mr_default r
  end.

Definition resolve_envelope_headers (r : MessageRouter) (hs : EnvelopeHeaders) : option Destination :=
  match List.find (fun route =>
      existsb (fun h => String.eqb (hkey h) (hr_key route) && String.eqb (hvalue h) (hr_value route)) hs) (mr_routes r) with
  | Some route => Some (hr_destination route)
  | None => mr_default r
  end.

(** ** Names of message types *)

Definition colon : Ascii.ascii := Ascii.ascii_of_nat 58.

(** [canonical.rsplit(..)] at the path separator: what follows its last occurrence *)
Fixpoint last_segment (s : string) : option string :=
  match s with
  | EmptyString => None
  | String c rest =>
    match last_segment rest with
    | Some segment => Some segment
    | None => match rest with String d after => if Ascii.eqb c colon && Ascii.eqb d colon then Some after else None | EmptyString => None end
    end
  end.

Definition short_name (canonical : string) : string := default canonical (last_segment canonical).

Definition alias_conflict {A} : CatgaResult A := fail Conflict "a message type name is already registered for another message".

Section registry.
Context {TypeId : Type} `{Countable TypeId}.

(** The rules behind the [ArcSwap].  [compare_and_swap] installs a value only in place of the one
    that it was computed from, so an operation acts on the rules as one step. *)
Record TypeRules := mkRules { types_by_name : gmap string TypeId; canonical_names : gmap TypeId string }.

Definition rules_default : TypeRules := mkRules ∅ ∅.

(** [types_by_name.entry(name).or_insert(type_id)] *)
Definition or_insert (m : gmap string TypeId) (name : string) (type_id : TypeId) : gmap string TypeId :=
  match m !! name with Some _ => m | None => <[name := type_id]> m end.

Definition register_names (r : TypeRules) (type_id : TypeId) (canonical : string) (names : list string)
    : CatgaResult unit * TypeRules :=
  if existsb (fun name => match types_by_name r !! name with Some t => negb (bool_decide (t = type_id)) | None => false end) names
  then (alias_conflict, r)
  else
    let next := mkRules (foldl (fun m name => or_insert m name type_id) (types_by_name r) names)
                  (match canonical_names r !! type_id with
                   | Some _ => canonical_names r
                   | None => <[type_id := canonical]> (canonical_names r)
                   end) in
    match canonical_names r !! type_id with
    | Some registered =>
      if negb (String.eqb registered canonical) then (fail Conflict "a message type has a different canonical name", r)
      else if forallb (fun name => bool_decide (is_Some (types_by_name r !! name))) names then (Ok tt, r)
      else (Ok tt, next)
    | None => (Ok tt, next)
    end.

(** [canonical_name] is the type name that the compiler gives. *)
Context (canonical_name : TypeId -> string).

Definition register (r : TypeRules) (type_id : TypeId) : CatgaResult unit * TypeRules :=
  let canonical := canonical_name type_id in
  register_names r type_id canonical [canonical; short_name canonical].

Definition add_alias (r : TypeRules) (type_id : TypeId) (alias : string) : CatgaResult unit * TypeRules :=
  match register r type_id with
  | (Err e, r) => (Err e, r)
  | (Ok _, r) =>
    if trim_is_empty alias then (fail Validation "message type aliases must not be empty", r)
    else
      match types_by_name r !! alias with
      | Some registered => if bool_decide (registered = type_id) then (Ok tt, r) else (alias_conflict, r)
      | None => (Ok tt, mkRules (<[alias := type_id]> (types_by_name r)) (canonical_names r))
      end
  end.

Definition resolve_name (r : TypeRules) (type_name : string) : option TypeId := types_by_name r !! type_name.

Definition is_registered (r : TypeRules) (type_id : TypeId) : bool := bool_decide (is_Some (canonical_names r !! type_id)).

Inductive type_step : TypeRules -> TypeRules -> Prop :=
| ts_register r t : type_step r (snd (register r t))
| ts_alias r t alias : type_step r (snd (add_alias r t alias)).
End registry.
Arguments TypeRules TypeId {_ _}.

(** ** Digests *)

Section digests.
Context (sha256 : list Z -> list Z).

Definition sha256_digest (bytes : list Z) : list Z := sha256 bytes.

(** The hasher digests what it was fed, in order. *)
Definition sha256_concat_digest (parts : list (list Z)) : list Z := sha256 (concat parts).

Definition framed (parts : list (list Z)) : list Z := concat ((fun part => be_bytes 8 (lenZ part) ++ part) <$> parts).

Definition sha256_framed_digest (parts : list (list Z)) : list Z := sha256 (framed parts).
End digests.

(** ** Properties *)

(** The table of a router that was built by [add_route] calls *)
Inductive type_routes : MessageDestinationRouter -> Prop :=
| tr_empty : type_routes []
| tr_add r m d : type_routes r -> type_routes (snd (add_type_route r m d)).

Lemma find_type_none r m :
  List.find (fun route => String.eqb (tr_message_type route) m) r = None <-> m ∉ tr_message_type <$> r.
Proof.
  induction r as [|x r IH]; simpl; [split; [intros _; apply not_elem_of_nil | done] |].
  destruct (String.eqb_spec (tr_message_type x) m) as [->|Hne]; rewrite not_elem_of_cons; naive_solver.
Qed.

Lemma existsb_type r m :
  existsb (fun route => String.eqb (tr_message_type route) m) r = true <-> m ∈ tr_message_type <$> r.
Proof.
  rewrite existsb_exists, list_elem_of_fmap. split.
  - intros (x & Hin%list_elem_of_In & He%String.eqb_eq). by exists x.
  - intros (x & -> & Hin). exists x. split; [by apply list_elem_of_In | apply String.eqb_refl].
Qed.

Lemma type_routes_nodup r : type_routes r -> NoDup (tr_message_type <$> r).
Proof.
  induction 1 as [|r m d _ IH]; [constructor |]. unfold add_type_route. destruct (trim_is_empty m); [done |].
  destruct (existsb _ r) eqn:Ee; [done |]. simpl. rewrite fmap_app. apply NoDup_app. split_and!; [done | | apply NoDup_singleton].
  intros x Hx ->%list_elem_of_singleton. simpl in Hx. apply existsb_type in Hx. congruence.
Qed.

(** A type has one route and the destination that it was given, for good: [add_route] succeeds for a type that
    is not blank and has none, it changes the answer for that type alone, and a refused call
    changes nothing. *)
Theorem type_route_exact r m d :
  type_routes r ->
  NoDup (tr_message_type <$> r)
  /\ (is_ok (fst (add_type_route r m d)) = true <-> trim_is_empty m = false /\ resolve_type r m = None)
  /\ (forall m', resolve_type (snd (add_type_route r m d)) m'
       = if is_ok (fst (add_type_route r m d)) && String.eqb m m' then Some d else resolve_type r m').
Proof.
  intros Hr. split; [by apply type_routes_nodup |]. clear Hr. unfold add_type_route, resolve_type. destruct (trim_is_empty m); simpl; [split; naive_solver |].
  destruct (existsb (fun route => String.eqb (tr_message_type route) m) r) eqn:Ee; simpl.
  - split; [| done]. split; [done |]. intros [_ Hn%fmap_None%find_type_none]. by apply existsb_type in Ee.
  - assert (List.find (fun route => String.eqb (tr_message_type route) m) r = None) as Hn.
    { apply find_type_none. intros Hin%existsb_type. congruence. }
    split; [by rewrite Hn |]. intros m'. destruct (String.eqb_spec m m') as [<-|Hne].
    + clear Ee. induction r as [|x r IH]; simpl in *; [by rewrite String.eqb_refl |].
      destruct (String.eqb (tr_message_type x) m); [done | by apply IH].
    + clear Ee Hn. induction r as [|x r IH]; simpl; [by rewrite (proj2 (String.eqb_neq m m')) |]. by destruct (String.eqb _ m').
Qed.

Lemma headers_match (hs : EnvelopeHeaders) route :
  route_matches ((fun h => (hkey h, hvalue h)) <$> hs) route
  = existsb (fun h => String.eqb (hkey h) (hr_key route) && String.eqb (hvalue h) (hr_value route)) hs.
Proof. unfold route_matches. induction hs as [|h hs IH]; simpl; [done | by rewrite <- IH]. Qed.

(** The two lookups of a header router agree, and both take the first route that matches. *)
Theorem header_routes_agree r (hs : EnvelopeHeaders) :
  resolve_envelope_headers r hs = resolve_headers r ((fun h => (hkey h, hvalue h)) <$> hs).
Proof.
  unfold resolve_envelope_headers, resolve_headers.
  induction (mr_routes r) as [|route routes IH]; [done |]. cbn [List.find]. rewrite headers_match. by destruct (existsb _ hs).
Qed.

(** *** The registry *)

Section registry_properties.
Context {TypeId : Type} `{Countable TypeId} (canonical_name : TypeId -> string).

Lemma or_insert_keeps (m : gmap string TypeId) name t n x : m !! n = Some x -> or_insert m name t !! n = Some x.
Proof.
  intros Hn. unfold or_insert. destruct (m !! name) eqn:E; [done |]. rewrite lookup_insert_ne; [done |]. intros ->. congruence.
Qed.

Lemma or_insert_all names t (m : gmap string TypeId) :
  (forall n x, m !! n = Some x -> foldl (fun m name => or_insert m name t) m names !! n = Some x)
  /\ (forall n, n ∈ names -> (forall x, m !! n = Some x -> x = t) -> foldl (fun m name => or_insert m name t) m names !! n = Some t).
Proof.
  revert m. induction names as [|name names IH]; intros m; simpl; [split; [done | by intros n []%not_elem_of_nil] |].
  destruct (IH (or_insert m name t)) as [IH1 IH2]. split.
  - intros n x Hn. by apply IH1, or_insert_keeps.
  - intros n Hin Hold. destruct (decide (n = name)) as [->|Hne].
    + apply IH1. unfold or_insert. destruct (m !! name) as [x|] eqn:E; [by rewrite E, (Hold x eq_refl) | by rewrite lookup_insert_eq].
    + apply IH2; [set_solver |]. unfold or_insert. intros x. destruct (m !! name) eqn:E; [apply Hold |].
      rewrite lookup_insert_ne by done. apply Hold.
Qed.

Lemma register_names_keeps (r : TypeRules TypeId) t canonical names n x :
  resolve_name r n = Some x -> resolve_name (snd (register_names r t canonical names)) n = Some x.
Proof.
  unfold resolve_name, register_names. intros Hn. repeat (case_match; simpl; try done); by apply or_insert_all.
Qed.

Lemma register_names_ok (r : TypeRules TypeId) t canonical names :
  fst (register_names r t canonical names) = Ok tt ->
  forall n, n ∈ names -> resolve_name (snd (register_names r t canonical names)) n = Some t.
Proof.
  unfold register_names, resolve_name. destruct (existsb _ names) eqn:Ee; [done |].
  assert (forall n x, n ∈ names -> types_by_name r !! n = Some x -> x = t) as Hold.
  { intros n x Hin Hx. destruct (decide (x = t)) as [|Hne]; [done |]. assert (existsb (fun name =>
      match types_by_name r !! name with Some t0 => negb (bool_decide (t0 = t)) | None => false end) names = true) as Ht; [| congruence].
    apply existsb_exists. exists n. split; [by apply list_elem_of_In |]. rewrite Hx. by rewrite bool_decide_eq_false_2. }
  intros Hok n Hin. destruct (canonical_names r !! t) as [reg|]; [| apply or_insert_all; [done | intros x; by apply Hold]].
  destruct (String.eqb reg canonical); simpl in *; [| done]. destruct (forallb _ names) eqn:Ef; simpl.
  - rewrite forallb_forall in Ef. specialize (Ef n (proj1 (list_elem_of_In _ _) Hin)). apply bool_decide_eq_true_1 in Ef as [x Hx].
    by rewrite Hx, (Hold n x Hin Hx).
  - apply or_insert_all; [done | intros x; by apply Hold].
Qed.

(** A name once registered means the same type for ever, whatever is registered later; and a
    registration that succeeds gives the type its canonical and its short name, an alias its
    alias as well. *)
Theorem type_names_stable (r r' : TypeRules TypeId) t alias :
  rtc (type_step canonical_name) r r' ->
  (forall n x, resolve_name r n = Some x -> resolve_name r' n = Some x)
  /\ (fst (register canonical_name r' t) = Ok tt ->
      resolve_name (snd (register canonical_name r' t)) (canonical_name t) = Some t
      /\ resolve_name (snd (register canonical_name r' t)) (short_name (canonical_name t)) = Some t)
  /\ (fst (add_alias canonical_name r' t alias) = Ok tt ->
      resolve_name (snd (add_alias canonical_name r' t alias)) alias = Some t).
Proof.
  intros Hs. split_and!.
  - induction Hs as [|r1 r2 r3 Hs _ IH]; [done |]. intros n x Hn. apply IH. destruct Hs as [r1 u|r1 u al].
    + by apply register_names_keeps.
    + pose proof (register_names_keeps r1 u (canonical_name u) [canonical_name u; short_name (canonical_name u)] n x Hn) as Hk.
      unfold add_alias, register. destruct (register_names _ _ _ _) as [[[]|e] r4]; simpl in *; [| done].
      destruct (trim_is_empty al); [done |]. destruct (types_by_name r4 !! al) as [y|] eqn:Ea; [by case_bool_decide |].
      unfold resolve_name in *. simpl. rewrite lookup_insert_ne; [done |]. intros ->. congruence.
  - intros Hok. split; apply register_names_ok; try done; set_solver.
  - unfold add_alias. destruct (register canonical_name r' t) as [[[]|e] r4]; simpl; [| done].
    destruct (trim_is_empty alias); [done |]. destruct (types_by_name r4 !! alias) as [y|] eqn:Ea; simpl.
    + case_bool_decide; [| done]. intros _. unfold resolve_name. simpl. by subst.
    + intros _. apply lookup_insert_eq.
Qed.
End registry_properties.

(** *** Digests *)

Section digest_properties.

Lemma framed_cons p parts : framed (p :: parts) = be_bytes 8 (lenZ p) ++ p ++ framed parts.
Proof. unfold framed. rewrite fmap_cons. cbn [concat]. by rewrite <- app_assoc. Qed.

Lemma length_frame {A} (p : list A) : length (be_bytes 8 (lenZ p)) = 8%nat.
Proof. unfold be_bytes. by rewrite length_rev, length_le_bytes. Qed.

Lemma framed_cons_nonempty p parts : framed (p :: parts) <> [].
Proof. rewrite framed_cons. intros He%(f_equal length). rewrite length_app, length_frame in He. simpl in He. lia. Qed.

Lemma framed_inj parts parts' :
  Forall (fun p => lenZ p <= int_max u64) parts -> Forall (fun p => lenZ p <= int_max u64) parts' ->
  framed parts = framed parts' -> parts = parts'.
Proof.
  intros Hp. revert parts'. induction Hp as [|p parts Hp _ IH]; intros parts' Hp' He; destruct Hp' as [|p' parts' Hq Hp'].
  - done.
  - by apply symmetry, framed_cons_nonempty in He.
  - by apply framed_cons_nonempty in He.
  - rewrite !framed_cons in He. apply app_inj_1 in He as [Hl He]; [| by rewrite !length_frame].
    assert (lenZ p = lenZ p') as Hpp.
    { apply (f_equal be_value) in Hl. pose proof (lenZ_nonneg p). pose proof (lenZ_nonneg p').
      rewrite !be_value_be_bytes in Hl by (split; [int_bounds; lia | done]). done. }
    apply app_inj_1 in He as [-> He]; [| unfold lenZ in Hpp; lia]. f_equal. by apply IH.
Qed.

(** Keys with framed parts are told apart: two lists of parts with the same digest are equal, or
    their frames are a collision of the hash function. *)
Theorem framed_digest_separates (sha256 : list Z -> list Z) parts parts' :
  Forall (fun p => lenZ p <= int_max u64) parts -> Forall (fun p => lenZ p <= int_max u64) parts' ->
  sha256_framed_digest sha256 parts = sha256_framed_digest sha256 parts' ->
  parts = parts' \/ (framed parts <> framed parts' /\ sha256 (framed parts) = sha256 (framed parts')).
Proof.
  intros Hp Hp' Hd. destruct (decide (framed parts = framed parts')) as [He|Hne]; [left; by apply framed_inj | by right].
Qed.

(** Without frames the parts run together. *)
Example concat_digest_ambiguous (sha256 : list Z -> list Z) :
  sha256_concat_digest sha256 [[97]; [98; 99]] = sha256_concat_digest sha256 [[97; 98]; [99]].
Proof. reflexivity. Qed.
End digest_properties.

(** ** Runs *)

Section runs.

(** Two generic messages over one payload type *)
Definition demo_type_name (t : Z) : string :=
  if t =? 1 then "shop::Created<shop::Order>" else if t =? 2 then "shop::Deleted<shop::Order>" else "shop::Cancelled".

(** The text after the last path separator of a generic type name is the end of its argument, so
    two messages over the same argument have one short name, and the second is refused. *)
Example generic_names_collide :
  short_name (demo_type_name 1) = "Order>"%string /\ short_name (demo_type_name 2) = "Order>"%string
  /\ fst (register demo_type_name (snd (register demo_type_name rules_default 1)) 2) = alias_conflict.
Proof. vm_compute. auto. Qed.

Lemma type_names_stable_witness :
  let r := snd (register demo_type_name rules_default 3) in
  let r' := snd (add_alias demo_type_name r 3 "cancelled.v1") in
  resolve_name r' "shop::Cancelled" = Some 3 /\ resolve_name r' "cancelled.v1" = Some 3.
Proof.
  intros r r'.
  destruct (type_names_stable demo_type_name r r' 3 "cancelled.v1") as (Hk & _); [apply rtc_once, ts_alias |].
  split; [apply Hk; vm_compute; reflexivity | vm_compute; reflexivity].
Defined.

Lemma type_route_exact_witness :
  let r := snd (add_type_route [] "a" "queue") in
  is_ok (fst (add_type_route r "b" "other")) = true /\ resolve_type (snd (add_type_route r "b" "other")) "a" = Some "queue"%string.
Proof.
  intros r. destruct (type_route_exact r "b" "other" (tr_add [] "a" "queue" tr_empty)) as (_ & Hok & Hr).
  split; [apply Hok; split; vm_compute; reflexivity | rewrite Hr; vm_compute; reflexivity].
Defined.

Lemma framed_digest_separates_witness :
  [[97]; [98; 99]] = [[97]; [98; 99]]
  \/ (framed [[97]; [98; 99]] <> framed [[97]; [98; 99]] /\ framed [[97]; [98; 99]] = framed [[97]; [98; 99]]).
Proof.
  apply (framed_digest_separates id); [| | reflexivity]; repeat constructor; vm_compute; discriminate.
Defined.
End runs.
