(* ===== verification/Batching.v ===== *)
(** * Automatic batching of requests ([behaviors/auto_batching.rs])

    A behavior puts requests into a bounded channel; one runner sorts them into shards by key,
    starts a shard as a batch when it is full or its oldest request has waited long enough, and
    answers each request.  The runner is a step relation: callers send while it works, and the
    handlers of the started batches run at the runner's suspension points.  Every request is
    answered once, the handlers of one key start in the order of arrival, and the configured
    limits hold. *)

From S2P Require Import Prelude Errors.

(** ** Options *)

(** A [Duration] and an [Instant] are nanoseconds. *)
Record BatchOptions := mkBatchOptions {
  max_batch_size : Z;
  batch_timeout : Z;
  max_queue_length : Z;
  max_shards : Z;
  flush_concurrency : Z
}.

Definition batch_options_default : BatchOptions := mkBatchOptions 100 (100 * 1000000) 10000 2048 1.

Definition batch_validate (o : BatchOptions) : CatgaResult unit :=
  if max_batch_size o =? 0 then fail Validation "batch max size must be greater than zero"
  else if batch_timeout o =? 0 then fail Validation "batch timeout must be greater than zero"
  else if max_queue_length o =? 0 then fail Validation "batch queue length must be greater than zero"
  else if max_shards o =? 0 then fail Validation "batch shard limit must be greater than zero"
  else if flush_concurrency o =? 0 then fail Validation "batch flush concurrency must be greater than zero"
  else Ok tt.

(** The fields are unsigned. *)
Definition unsigned_options (o : BatchOptions) : Prop :=
  0 <= max_batch_size o /\ 0 <= batch_timeout o /\ 0 <= max_queue_length o /\ 0 <= max_shards o /\ 0 <= flush_concurrency o.

(** [Instant::checked_add]: the seconds of an instant are 64-bit. *)
Definition instant_add (t d : Z) : option Z := if fits i64 ((t + d) / 1000000000) then Some (t + d) else None.

Definition DEFAULT_BATCH_KEY : string := "_".

Section batching.
Context {M R : Type} `{!MapIter string}.

(** [pd_reply] names the one-shot channel of the caller. *)
Record Pending := mkPending { pd_message : M; pd_reply : nat; pd_enqueued_at : Z }.
Record Queued := mkQueued { qd_key : string; qd_entry : Pending }.

Abbreviation Shards := (gmap string (list Pending)).

(** What a caller hears on its channel: an answer, or that nobody holds the other end. *)
Inductive Reply := Replied (r : CatgaResult R) | ReplyDropped.

(** The result that [handle] returns from it *)
Definition handle_response (r : Reply) : CatgaResult R :=
  match r with
  | Replied r => r
  | ReplyDropped => fail Unavailable "automatic batch runner stopped before replying"
  end.

(** The result of [handle] when the runner is gone before the request enters the channel *)
Definition handle_unsent : CatgaResult R := fail Unavailable "automatic batch runner is unavailable".

(** [with_key], [new] and [with_message_key]: validated options and the key of a message *)
Definition with_key (o : BatchOptions) (key_selector : M -> string) : CatgaResult (BatchOptions * (M -> string)) :=
  let? _ := batch_validate o in Ok (o, key_selector).

Definition batching_new (o : BatchOptions) := with_key o (fun _ => DEFAULT_BATCH_KEY).

Definition with_message_key (batch_key : M -> option string) (o : BatchOptions) :=
  with_key o (fun message => default DEFAULT_BATCH_KEY (batch_key message)).

(** [handle] up to its first await: [None] when the request runs at once *)
Definition handle_queued (o : BatchOptions) (key_selector : M -> string) (message : M) (reply : nat) (now : Z)
    : option Queued :=
  if max_batch_size o =? 1 then None
  else Some (mkQueued (key_selector message) (mkPending message reply now)).

(** ** The shards of the runner *)

Definition reject_entry (e : Pending) (message : string) : nat * Reply := (pd_reply e, Replied (fail Transient message)).

Definition reject_unavailable (e : Pending) : nat * Reply :=
  (pd_reply e, Replied (fail Unavailable "automatic batch runner is unavailable")).

(** The loop pops the oldest entries until the queue is short enough. *)
Fixpoint reject_overflow (queue : list Pending) (limit : Z) : list Pending * list (nat * Reply) :=
  match queue with
  | [] => ([], [])
  | e :: rest =>
    if limit <? lenZ queue then
      let '(queue, replies) := reject_overflow rest limit in
      (queue, reject_entry e "automatic batch queue is full" :: replies)
    else (queue, [])
  end.

Definition enqueue (shards : Shards) (q : Queued) (o : BatchOptions) : Shards * list (nat * Reply) :=
  let at_shard_capacity := max_shards o <=? Z.of_nat (size shards) in
  match shards !! qd_key q with
  | Some queue =>
    let '(queue, replies) := reject_overflow (queue ++ [qd_entry q]) (max_queue_length o) in
    (<[qd_key q := queue]> shards, replies)
  | None =>
    if at_shard_capacity then
      (shards, [reject_entry (qd_entry q) "automatic batch shard capacity has been reached"])
    else (<[qd_key q := [qd_entry q]]> shards, [])
  end.

(** The deadline of the oldest entry of a queue *)
Definition front_deadline (queue : list Pending) (timeout : Z) : option Z :=
  match queue with [] => None | e :: _ => instant_add (pd_enqueued_at e) timeout end.

Definition shard_ready (o : BatchOptions) (now : Z) (queue : list Pending) : bool :=
  (max_batch_size o <=? lenZ queue)
  || match front_deadline queue (batch_timeout o) with Some deadline => deadline <=? now | None => false end.

Definition take_ready_batch (shards : Shards) (o : BatchOptions) (active_keys : gset string) (now : Z)
    : option (string * list Pending * Shards) :=
  match List.find (fun '(key, queue) => negb (bool_decide (key ∈ active_keys)) && shard_ready o now queue) (iter shards) with
  | None => None
  | Some (key, _) =>
    match shards !! key with
    | None => None
    | Some batch =>
      let shards := delete key shards in
      if max_batch_size o <? lenZ batch then
        Some (key, take (Z.to_nat (max_batch_size o)) batch, <[key := drop (Z.to_nat (max_batch_size o)) batch]> shards)
      else Some (key, batch, shards)
    end
  end.

(** The deadlines of the shards that wait for time, and the earliest of them *)
Definition deadlines (shards : Shards) (timeout : Z) (active_keys : gset string) : list Z :=
  omap (fun '(key, queue) => if bool_decide (key ∈ active_keys) then None else front_deadline queue timeout) (iter shards).

Definition next_deadline (shards : Shards) (timeout : Z) (active_keys : gset string) : option Z :=
  match deadlines shards timeout active_keys with
  | [] => None
  | d :: ds => Some (foldr Z.min d ds)
  end.

(** The answer of [execute_entry]; [None] is a handler that panicked. *)
Definition execute_entry (e : Pending) (outcome : option (CatgaResult R)) : nat * Reply :=
  (pd_reply e,
   Replied (match outcome with
            | Some result => result
            | None => fail Internal "automatic batch request handler panicked"
            end)).

(** ** The runner

    A flush holds the entries of its batch that wait for their turn and those whose handlers
    run.  The runner is [Filling] while it starts ready batches, [Selecting] at its select,
    [Rejecting] in [reject_queued] and [Draining] while the started batches end. *)

Record Flush := mkFlush { fl_key : string; fl_waiting : list Pending; fl_running : list Pending }.

Inductive RunnerPhase := Filling | Selecting | Rejecting | Draining | Stopped.

(** The last three fields record the requests that entered the channel, the handlers that
    were started and the answers sent, each in order. *)
Record Runner := mkRunner {
  rn_channel : list Queued;
  rn_shards : Shards;
  rn_active : gset string;
  rn_flushes : list Flush;
  rn_phase : RunnerPhase;
  rn_shutdown : bool;
  rn_senders : bool;
  rn_accepted : list Queued;
  rn_started : list Queued;
  rn_answered : list (nat * Reply)
}.

Definition runner_new : Runner := mkRunner [] ∅ ∅ [] Filling false true [] [] [].

Definition set_phase (w : Runner) (p : RunnerPhase) : Runner :=
  mkRunner (rn_channel w) (rn_shards w) (rn_active w) (rn_flushes w) p (rn_shutdown w) (rn_senders w)
    (rn_accepted w) (rn_started w) (rn_answered w).

Definition set_flushes (w : Runner) (fs : list Flush) : Runner :=
  mkRunner (rn_channel w) (rn_shards w) (rn_active w) fs (rn_phase w) (rn_shutdown w) (rn_senders w)
    (rn_accepted w) (rn_started w) (rn_answered w).

Definition set_senders (w : Runner) (shutdown senders : bool) : Runner :=
  mkRunner (rn_channel w) (rn_shards w) (rn_active w) (rn_flushes w) (rn_phase w) shutdown senders
    (rn_accepted w) (rn_started w) (rn_answered w).

(** All entries that the runner holds outside the channel *)
Definition shard_entries (shards : Shards) : list Pending := concat (map_to_list shards).*2.
Definition flush_entries (fs : list Flush) : list Pending := fs ≫= fun f => fl_waiting f ++ fl_running f.

Definition dropped (e : Pending) : nat * Reply := (pd_reply e, ReplyDropped).

(** A caller's [send] completes when the channel has room. *)
Definition send (w : Runner) (q : Queued) : Runner :=
  mkRunner (rn_channel w ++ [q]) (rn_shards w) (rn_active w) (rn_flushes w) (rn_phase w) (rn_shutdown w) (rn_senders w)
    (rn_accepted w ++ [q]) (rn_started w) (rn_answered w).

(** The runner takes a batch that is ready. *)
Definition start_flush (w : Runner) (key : string) (batch : list Pending) (shards : Shards) : Runner :=
  mkRunner (rn_channel w) shards ({[key]} ∪ rn_active w) (rn_flushes w ++ [mkFlush key batch []]) Filling
    (rn_shutdown w) (rn_senders w) (rn_accepted w) (rn_started w) (rn_answered w).

(** The runner receives the head of the channel. *)
Definition receive (o : BatchOptions) (w : Runner) (q : Queued) (rest : list Queued) : Runner :=
  let '(shards, replies) := enqueue (rn_shards w) q o in
  mkRunner rest shards (rn_active w) (rn_flushes w) Filling (rn_shutdown w) (rn_senders w)
    (rn_accepted w) (rn_started w) (rn_answered w ++ replies).

(** A batch with no entry left leaves the set of flushes; only the loop frees its key. *)
Definition flush_completed (w : Runner) (before after : list Flush) (key : string) (p : RunnerPhase) : Runner :=
  mkRunner (rn_channel w) (rn_shards w) (match p with Filling => rn_active w ∖ {[key]} | _ => rn_active w end)
    (before ++ after) p (rn_shutdown w) (rn_senders w) (rn_accepted w) (rn_started w) (rn_answered w).

(** [for_each_concurrent] starts the next handler of a batch. *)
Definition handler_starts (w : Runner) (before after : list Flush) (key : string) (e : Pending)
    (waiting running : list Pending) : Runner :=
  mkRunner (rn_channel w) (rn_shards w) (rn_active w) (before ++ mkFlush key waiting (running ++ [e]) :: after) (rn_phase w)
    (rn_shutdown w) (rn_senders w) (rn_accepted w) (rn_started w ++ [mkQueued key e]) (rn_answered w).

Definition handler_ends (w : Runner) (before after : list Flush) (key : string) (waiting r1 r2 : list Pending)
    (e : Pending) (outcome : option (CatgaResult R)) : Runner :=
  mkRunner (rn_channel w) (rn_shards w) (rn_active w) (before ++ mkFlush key waiting (r1 ++ r2) :: after) (rn_phase w)
    (rn_shutdown w) (rn_senders w) (rn_accepted w) (rn_started w) (rn_answered w ++ [execute_entry e outcome]).

(** [reject_queued]: one message of the channel, then the shards *)
Definition reject_one (w : Runner) (q : Queued) (rest : list Queued) : Runner :=
  mkRunner rest (rn_shards w) (rn_active w) (rn_flushes w) Rejecting (rn_shutdown w) (rn_senders w)
    (rn_accepted w) (rn_started w) (rn_answered w ++ [reject_unavailable (qd_entry q)]).

Definition reject_shards (w : Runner) : Runner :=
  mkRunner (rn_channel w) ∅ (rn_active w) (rn_flushes w) Draining (rn_shutdown w) (rn_senders w)
    (rn_accepted w) (rn_started w) (rn_answered w ++ (reject_unavailable <$> shard_entries (rn_shards w))).

(** The end of the future: what it still holds is dropped, and so are the reply channels. *)
Definition runner_dropped (w : Runner) : Runner :=
  mkRunner [] ∅ ∅ [] Stopped (rn_shutdown w) (rn_senders w) (rn_accepted w) (rn_started w)
    (rn_answered w ++ (dropped <$> ((qd_entry <$> rn_channel w) ++ shard_entries (rn_shards w) ++ flush_entries (rn_flushes w)))).

(** Handlers run where the runner awaits its flushes. *)
Definition awaiting (p : RunnerPhase) : bool := match p with Selecting | Draining => true | _ => false end.

Inductive bstep (o : BatchOptions) : Runner -> Runner -> Prop :=
| b_send w q : rn_phase w <> Stopped -> rn_senders w = true -> lenZ (rn_channel w) < max_queue_length o ->
    pd_reply (qd_entry q) ∉ ((fun q => pd_reply (qd_entry q)) <$> rn_accepted w) -> bstep o w (send w q)
| b_cancel w : bstep o w (set_senders w true (rn_senders w))
| b_senders_dropped w : bstep o w (set_senders w (rn_shutdown w) false)
| b_fill w now key batch shards : rn_phase w = Filling -> lenZ (rn_flushes w) < max_shards o ->
    take_ready_batch (rn_shards w) o (rn_active w) now = Some (key, batch, shards) ->
    bstep o w (start_flush w key batch shards)
| b_filled w now : rn_phase w = Filling ->
    (lenZ (rn_flushes w) < max_shards o -> take_ready_batch (rn_shards w) o (rn_active w) now = None) ->
    bstep o w (set_phase w (if rn_shutdown w then Rejecting else Selecting))
| b_recv w q rest : rn_phase w = Selecting -> rn_channel w = q :: rest -> bstep o w (receive o w q rest)
| b_closed w : rn_phase w = Selecting -> rn_channel w = [] -> rn_senders w = false -> bstep o w (set_phase w Rejecting)
| b_timer w deadline now : rn_phase w = Selecting ->
    next_deadline (rn_shards w) (batch_timeout o) (rn_active w) = Some deadline -> deadline <= now ->
    bstep o w (set_phase w Filling)
| b_completed w before after key : rn_phase w = Selecting -> rn_flushes w = before ++ mkFlush key [] [] :: after ->
    bstep o w (flush_completed w before after key Filling)
| b_shutdown w : rn_phase w = Selecting -> rn_shutdown w = true -> bstep o w (set_phase w Rejecting)
| b_reject_queued w q rest : rn_phase w = Rejecting -> rn_channel w = q :: rest -> bstep o w (reject_one w q rest)
| b_reject_shards w : rn_phase w = Rejecting -> rn_channel w = [] -> bstep o w (reject_shards w)
| b_drained w before after key : rn_phase w = Draining -> rn_flushes w = before ++ mkFlush key [] [] :: after ->
    bstep o w (flush_completed w before after key Draining)
| b_finished w : rn_phase w = Draining -> rn_flushes w = [] -> bstep o w (runner_dropped w)
| b_start w before after key e waiting running : awaiting (rn_phase w) = true ->
    rn_flushes w = before ++ mkFlush key (e :: waiting) running :: after -> lenZ running < flush_concurrency o ->
    bstep o w (handler_starts w before after key e waiting running)
| b_end w before after key waiting r1 e r2 outcome : awaiting (rn_phase w) = true ->
    rn_flushes w = before ++ mkFlush key waiting (r1 ++ e :: r2) :: after ->
    bstep o w (handler_ends w before after key waiting r1 r2 e outcome)
| b_dropped w : rn_phase w <> Stopped -> bstep o w (runner_dropped w).

(** The cases of a step, with the names the proofs below use *)
Ltac bstep_cases H :=
  destruct H as [w q Hp Hsd Hroom Hfresh | w | w | w now key batch shards Hp Hroom Ht | w now Hp Hnone | w q rest Hp Hc
    | w Hp Hc Hsd | w deadline now Hp Hd Hle | w before after key Hp Hf | w Hp Hsd | w q rest Hp Hc | w Hp Hc
    | w before after key Hp Hf | w Hp Hf | w before after key e waiting running Hp Hf Hroom
    | w before after key waiting r1 e r2 outcome Hp Hf | w Hp].

Definition batch_reach (o : BatchOptions) : Runner -> Prop := rtc (bstep o) runner_new.

(** ** The shard operations *)

Lemma batch_validate_ok o :
  unsigned_options o -> batch_validate o = Ok tt ->
  0 < max_batch_size o /\ 0 < batch_timeout o /\ 0 < max_queue_length o /\ 0 < max_shards o /\ 0 < flush_concurrency o.
Proof. unfold unsigned_options, batch_validate. intros Hu. repeat case_match; try done. intros _. bool_prop. lia. Qed.

Lemma reject_overflow_spec queue limit :
  0 <= limit ->
  exists cut, queue = cut ++ (reject_overflow queue limit).1
    /\ (reject_overflow queue limit).2 = ((fun e => reject_entry e "automatic batch queue is full") <$> cut)
    /\ lenZ (reject_overflow queue limit).1 = Z.min limit (lenZ queue).
Proof.
  intros Hl. induction queue as [|e rest (cut & Hq & Hr & Hn)]; simpl.
  - exists []. split_and!; [done .. |]. change (lenZ []) with 0. lia.
  - assert (lenZ (e :: rest) = lenZ rest + 1) as He by (unfold lenZ; simpl; lia).
    destruct (Z.ltb_spec limit (lenZ (e :: rest))).
    + destruct (reject_overflow rest limit) as [q' rs]. simpl in *. exists (e :: cut). simpl. rewrite Hr.
      split_and!; [by f_equal | done | lia].
    + exists []. simpl. split_and!; [done .. | lia].
Qed.

Lemma take_ready_spec shards o active now key batch shards' :
  0 < max_batch_size o ->
  take_ready_batch shards o active now = Some (key, batch, shards') ->
  exists queue, shards !! key = Some queue /\ (key ∉ active) /\ shard_ready o now queue = true
    /\ batch = take (Z.to_nat (max_batch_size o)) queue
    /\ shards' = (if max_batch_size o <? lenZ queue then <[key := drop (Z.to_nat (max_batch_size o)) queue]> (delete key shards)
                  else delete key shards).
Proof.
  intros Hb. unfold take_ready_batch. destruct (List.find _ _) as [[k q]|] eqn:Ef; [| done].
  apply List.find_some in Ef as [Hin Hp]. apply list_elem_of_In, elem_of_iter in Hin. rewrite Hin. bool_prop.
  exists q. destruct (Z.ltb_spec (max_batch_size o) (lenZ q)) as [Hl|Hl]; simplify_eq; split_and!; try done.
  rewrite take_ge; [done | unfold lenZ in Hl; lia].
Qed.

Lemma take_ready_none shards o active now key queue :
  take_ready_batch shards o active now = None -> shards !! key = Some queue -> key ∉ active -> shard_ready o now queue = false.
Proof.
  unfold take_ready_batch. destruct (List.find _ _) as [[k q]|] eqn:Ef.
  - apply List.find_some in Ef as [Hin _]. apply list_elem_of_In, elem_of_iter in Hin. rewrite Hin. by case_match.
  - intros _ Hq Hk. eapply List.find_none in Ef; [| by apply list_elem_of_In, elem_of_iter].
    simpl in Ef. rewrite bool_decide_eq_false_2 in Ef by done. done.
Qed.

Lemma foldr_min_le d ds x : x ∈ d :: ds -> foldr Z.min d ds <= x.
Proof.
  rewrite elem_of_cons. induction ds as [|y ds IH]; simpl.
  - intros [-> | H]; [lia | by apply not_elem_of_nil in H].
  - rewrite elem_of_cons. intros [-> | [-> | Hx]]; [| lia |]; [specialize (IH (or_introl eq_refl)) | specialize (IH (or_intror Hx))]; lia.
Qed.

(** The timer of the runner is set for every shard that waits for time. *)
Lemma next_deadline_covers shards timeout active key queue d :
  shards !! key = Some queue -> key ∉ active -> front_deadline queue timeout = Some d ->
  exists deadline, next_deadline shards timeout active = Some deadline /\ deadline <= d.
Proof.
  intros Hq Hk Hd. assert (d ∈ deadlines shards timeout active) as Hin.
  { apply list_elem_of_omap. exists (key, queue). split; [by apply elem_of_iter |]. by rewrite bool_decide_eq_false_2. }
  unfold next_deadline. destruct (deadlines shards timeout active) as [|x xs]; [by apply not_elem_of_nil in Hin |].
  eexists. split; [done |]. by apply foldr_min_le.
Qed.

Lemma shard_entries_delete (m : Shards) k q :
  m !! k = Some q -> shard_entries m ≡ₚ q ++ shard_entries (delete k m).
Proof. intros Hk. unfold shard_entries. rewrite <- (map_to_list_delete m k q Hk). done. Qed.

Lemma shard_entries_insert (m : Shards) k q :
  m !! k = None -> shard_entries (<[k := q]> m) ≡ₚ q ++ shard_entries m.
Proof. intros Hk. unfold shard_entries. by rewrite (map_to_list_insert m k q Hk). Qed.

(** ** Limits *)

Definition live (p : RunnerPhase) : bool := match p with Draining | Stopped => false | _ => true end.

Record batch_bounds (o : BatchOptions) (w : Runner) : Prop := {
  bb_channel : lenZ (rn_channel w) <= max_queue_length o;
  bb_shards : Z.of_nat (size (rn_shards w)) <= max_shards o;
  bb_queues : map_Forall (fun _ q => q <> [] /\ lenZ q <= max_queue_length o) (rn_shards w);
  bb_flushes : lenZ (rn_flushes w) <= max_shards o;
  bb_flush : Forall (fun f => lenZ (fl_waiting f) + lenZ (fl_running f) <= max_batch_size o
                              /\ lenZ (fl_running f) <= flush_concurrency o) (rn_flushes w);
  bb_keys : NoDup (fl_key <$> rn_flushes w);
  bb_active : live (rn_phase w) = true -> forall k, k ∈ rn_active w <-> k ∈ fl_key <$> rn_flushes w;
  bb_stopped : rn_phase w = Stopped -> rn_channel w = [] /\ rn_shards w = ∅ /\ rn_flushes w = []
}.

Section invariants.
Context (o : BatchOptions).
Hypothesis o_unsigned : unsigned_options o.
Hypothesis o_valid : batch_validate o = Ok tt.

Let o_pos := batch_validate_ok o o_unsigned o_valid.

Lemma enqueue_bounds (shards : Shards) q :
  Z.of_nat (size shards) <= max_shards o ->
  map_Forall (fun _ q => q <> [] /\ lenZ q <= max_queue_length o) shards ->
  Z.of_nat (size (enqueue shards q o).1) <= max_shards o
  /\ map_Forall (fun _ q => q <> [] /\ lenZ q <= max_queue_length o) (enqueue shards q o).1.
Proof.
  intros Hs Hq. destruct o_pos as (O1 & O2 & O3 & O4 & O5). unfold enqueue. destruct (shards !! qd_key q) as [queue|] eqn:Ek.
  - destruct (reject_overflow_spec (queue ++ [qd_entry q]) (max_queue_length o)) as (cut & Hc & _ & Hl); [lia |].
    destruct (reject_overflow _ _) as [queue' replies]. simpl in *. split; [by rewrite map_size_insert_Some; eauto |].
    apply map_Forall_insert_2; [| done]. rewrite lenZ_app in Hl. pose proof (lenZ_nonneg queue). change (lenZ [qd_entry q]) with 1 in Hl.
    split; [| lia]. intros ->. change (lenZ []) with 0 in Hl. lia.
  - destruct (Z.leb_spec (max_shards o) (Z.of_nat (size shards))); simpl; [done |]. rewrite map_size_insert_None by done.
    split; [lia |]. apply map_Forall_insert_2; [| done]. split; [done |]. change (lenZ [qd_entry q]) with 1. lia.
Qed.

Lemma taken_bounds shards active now key batch shards' :
  Z.of_nat (size shards) <= max_shards o ->
  map_Forall (fun _ q => q <> [] /\ lenZ q <= max_queue_length o) shards ->
  take_ready_batch shards o active now = Some (key, batch, shards') ->
  Z.of_nat (size shards') <= max_shards o
  /\ map_Forall (fun _ q => q <> [] /\ lenZ q <= max_queue_length o) shards'
  /\ lenZ batch <= max_batch_size o /\ batch <> [].
Proof.
  intros Hs Hq Ht. destruct o_pos as (O1 & O2 & O3 & O4 & O5).
  apply take_ready_spec in Ht as (queue & Hk & _ & _ & -> & ->); [| done]. pose proof (Hq _ _ Hk) as [Hne Hlen].
  split_and!.
  - case_match; [rewrite map_size_insert_None by apply lookup_delete_eq |]; rewrite (map_size_delete_Some); eauto; lia.
  - case_match; bool_prop; [apply map_Forall_insert_2 |]; try by apply map_Forall_delete. unfold lenZ in *. split; [| rewrite length_drop; lia].
    intros Hd%(f_equal length). rewrite length_drop in Hd. simpl in Hd. lia.
  - unfold lenZ. rewrite length_take. lia.
  - destruct queue; [done |]. by destruct (Z.to_nat (max_batch_size o)) eqn:E; [lia |].
Qed.

Lemma bounds_empty w :
  rn_channel w = [] -> rn_shards w = ∅ -> rn_active w = ∅ -> rn_flushes w = [] -> batch_bounds o w.
Proof.
  intros Hc Hs Ha Hf. destruct o_pos as (O1 & O2 & O3 & O4 & O5). split; rewrite ?Hc, ?Hs, ?Ha, ?Hf; try done.
  - change (lenZ []) with 0. lia.
  - rewrite map_size_empty. lia.
  - change (lenZ []) with 0. lia.
  - constructor.
  - intros _ k. simpl. set_solver.
Qed.

(** A change of one flush that keeps its key *)
Lemma bounds_flush w before after f f' acc started answered :
  batch_bounds o w -> rn_flushes w = before ++ f :: after -> fl_key f' = fl_key f ->
  (lenZ (fl_waiting f') + lenZ (fl_running f') <= lenZ (fl_waiting f) + lenZ (fl_running f)) ->
  lenZ (fl_running f') <= flush_concurrency o ->
  batch_bounds o (mkRunner (rn_channel w) (rn_shards w) (rn_active w) (before ++ f' :: after) (rn_phase w) (rn_shutdown w)
    (rn_senders w) acc started answered).
Proof.
  intros [H1 H2 H3 H4 H5 H6 H7 H8] Hf Hk Hl Hr. rewrite Hf in *. split; simpl; try done.
  - rewrite lenZ_app in *. done.
  - rewrite Forall_app, Forall_cons in *. destruct H5 as (? & [? ?] & ?). split_and!; try done. lia.
  - rewrite fmap_app, fmap_cons in *. by rewrite Hk.
  - intros Hp k. rewrite (H7 Hp), !fmap_app, !fmap_cons, Hk. done.
  - intros Hp. destruct (H8 Hp) as (_ & _ & ?). by destruct before.
Qed.

Lemma bounds_completed w before after key p :
  batch_bounds o w -> rn_flushes w = before ++ mkFlush key [] [] :: after -> rn_phase w = Selecting \/ rn_phase w = Draining ->
  p = Filling /\ rn_phase w = Selecting \/ p = Draining ->
  batch_bounds o (flush_completed w before after key p).
Proof.
  intros [H1 H2 H3 H4 H5 H6 H7 H8] Hf Hp Hp'. rewrite Hf in *. unfold flush_completed. split; simpl; try done.
  - rewrite lenZ_app in *. change (mkFlush key [] [] :: after) with ([mkFlush key [] []] ++ after) in H4.
    rewrite lenZ_app in H4. change (lenZ [mkFlush key [] []]) with 1 in H4. lia.
  - rewrite Forall_app, Forall_cons in *. tauto.
  - rewrite fmap_app, fmap_cons in *. simpl in H6. apply NoDup_app in H6 as (? & Hd & H0). apply NoDup_cons in H0 as [? ?].
    apply NoDup_app. set_solver.
  - destruct Hp' as [[-> Hsel] | ->]; [| done]. intros _ k. rewrite elem_of_difference, elem_of_singleton, (H7 ltac:(by rewrite Hsel)).
    rewrite !fmap_app, fmap_cons in *. simpl. apply NoDup_app in H6 as (? & Hd & H0). apply NoDup_cons in H0 as [? ?].
    rewrite !elem_of_app, elem_of_cons. set_solver.
  - intros ->. by destruct Hp' as [[? _] | ?].
Qed.

Lemma bstep_bounds w w' : bstep o w w' -> batch_bounds o w -> batch_bounds o w'.
Proof.
  intros Hs Hb. destruct o_pos as (O1 & O2 & O3 & O4 & O5). bstep_cases Hs; pose proof Hb as [H1 H2 H3 H4 H5 H6 H7 H8].
  - split; simpl; try done. rewrite lenZ_app. change (lenZ [q]) with 1. lia.
  - by split.
  - by split.
  - destruct (taken_bounds _ _ _ _ _ _ H2 H3 Ht) as (? & ? & ? & ?). pose proof Ht as Hs.
    apply take_ready_spec in Hs as (queue & Hk & Hna & _); [| done]. rewrite (H7 ltac:(by rewrite Hp)) in Hna.
    split; simpl; try done.
    + rewrite lenZ_app. change (lenZ [mkFlush key batch []]) with 1. lia.
    + apply Forall_app. split; [done |]. apply Forall_singleton. simpl. change (lenZ []) with 0. lia.
    + rewrite fmap_app. apply NoDup_app. simpl. split_and!; [done | set_solver | apply NoDup_singleton].
    + intros _ k. rewrite fmap_app, elem_of_union, elem_of_singleton, (H7 ltac:(by rewrite Hp)). set_solver.
  - split; simpl; try done; [by intros _; apply H7; rewrite Hp | by case_match].
  - destruct (enqueue_bounds (rn_shards w) q H2 H3) as [? ?]. unfold receive. destruct (enqueue _ _ _) as [shards replies].
    split; simpl in *; try done; [| by intros _; apply H7; rewrite Hp]. rewrite Hc in H1. unfold lenZ in *. simpl in H1. lia.
  - split; simpl; try done. by intros _; apply H7; rewrite Hp.
  - split; simpl; try done. by intros _; apply H7; rewrite Hp.
  - apply bounds_completed; auto.
  - split; simpl; try done. by intros _; apply H7; rewrite Hp.
  - split; simpl; try done; [| by intros _; apply H7; rewrite Hp]. rewrite Hc in H1. unfold lenZ in *. simpl in H1. lia.
  - split; simpl; try done. rewrite map_size_empty. lia.
  - apply bounds_completed; auto.
  - by apply bounds_empty.
  - eapply bounds_flush; try done; simpl; rewrite ?lenZ_app; change (lenZ [e]) with 1; [| lia].
    unfold lenZ. simpl. lia.
  - rewrite Hf, Forall_app, Forall_cons in H5. destruct H5 as (_ & [_ Hr] & _). simpl in Hr.
    assert (lenZ (r1 ++ e :: r2) = lenZ (r1 ++ r2) + 1) by (unfold lenZ; rewrite !length_app; simpl; lia).
    eapply bounds_flush; try done; simpl; lia.
  - by apply bounds_empty.
Qed.

Lemma reach_bounds w : batch_reach o w -> batch_bounds o w.
Proof.
  intros Hr. apply (rtc_ind_r (batch_bounds o) _) with (3 := Hr).
  - by apply bounds_empty.
  - intros y z _ Hs Hi. by apply (bstep_bounds y).
Qed.

(** ** Every request is in one place *)

Definition ids (l : list Pending) : list nat := pd_reply <$> l.
Definition accepted_ids (w : Runner) : list nat := ids (qd_entry <$> rn_accepted w).

(** The requests that the runner still owes an answer *)
Definition owed (w : Runner) : list nat :=
  ids (qd_entry <$> rn_channel w) ++ ids (shard_entries (rn_shards w)) ++ ids (flush_entries (rn_flushes w)).

Definition answered_ids (w : Runner) : list nat := (rn_answered w).*1.

Definition placed (w : Runner) : Prop := NoDup (accepted_ids w) /\ accepted_ids w ≡ₚ owed w ++ answered_ids w.

Lemma ids_app l l' : ids (l ++ l') = ids l ++ ids l'.
Proof. apply fmap_app. Qed.

Lemma ids_answers (f : Pending -> nat * Reply) l : (forall e, (f e).1 = pd_reply e) -> (f <$> l).*1 = ids l.
Proof. intros Hf. unfold ids. rewrite <- list_fmap_compose. apply list_fmap_ext. intros i e _. apply Hf. Qed.

Lemma flush_entries_app fs fs' : flush_entries (fs ++ fs') = flush_entries fs ++ flush_entries fs'.
Proof. apply bind_app. Qed.

Lemma enqueue_places (shards : Shards) q :
  pd_reply (qd_entry q) :: ids (shard_entries shards)
  ≡ₚ ids (shard_entries (enqueue shards q o).1) ++ (enqueue shards q o).2.*1.
Proof.
  destruct o_pos as (_ & _ & O3 & _). unfold enqueue. destruct (shards !! qd_key q) as [queue|] eqn:Ek.
  - destruct (reject_overflow_spec (queue ++ [qd_entry q]) (max_queue_length o)) as (cut & Hc & Hr & _); [lia |].
    destruct (reject_overflow _ _) as [queue' replies]. simpl in *. rewrite Hr, ids_answers by done. rewrite <- insert_delete_eq.
    unfold ids. rewrite (shard_entries_insert _ _ _ (lookup_delete_eq shards (qd_key q))), (shard_entries_delete _ _ _ Ek).
    apply (f_equal (fmap pd_reply)) in Hc. rewrite !fmap_app in *. simpl in Hc.
    set (rest := pd_reply <$> shard_entries (delete (qd_key q) shards)).
    trans (((pd_reply <$> queue) ++ [pd_reply (qd_entry q)]) ++ rest); [solve_Permutation | rewrite Hc; solve_Permutation].
  - destruct (_ <=? _); simpl; [unfold ids; solve_Permutation |]. unfold ids. by rewrite (shard_entries_insert _ _ _ Ek), app_nil_r.
Qed.

Lemma taken_places shards active now key batch shards' :
  take_ready_batch shards o active now = Some (key, batch, shards') ->
  ids (shard_entries shards) ≡ₚ ids batch ++ ids (shard_entries shards').
Proof.
  destruct o_pos as (O1 & _). intros (queue & Hk & _ & _ & -> & ->)%take_ready_spec; [| done]. unfold ids.
  rewrite (shard_entries_delete _ _ _ Hk). case_match; bool_prop.
  - rewrite (shard_entries_insert _ _ _ (lookup_delete_eq shards key)), <- !fmap_app, app_assoc, take_drop. done.
  - rewrite take_ge by (unfold lenZ in *; lia). by rewrite fmap_app.
Qed.

Lemma owed_nil (w : Runner) : rn_channel w = [] -> rn_shards w = ∅ -> rn_flushes w = [] -> owed w = [].
Proof. intros Hc Hs Hf. unfold owed, shard_entries. rewrite Hc, Hs, Hf, map_to_list_empty. done. Qed.

Lemma bstep_placed w w' : bstep o w w' -> placed w -> placed w'.
Proof.
  unfold placed. intros Hs [Hn Hp0].
  assert (forall w', accepted_ids w' = accepted_ids w -> owed w ++ answered_ids w ≡ₚ owed w' ++ answered_ids w' ->
    NoDup (accepted_ids w') /\ accepted_ids w' ≡ₚ owed w' ++ answered_ids w') as Hmove.
  { intros w2 -> Hperm. by rewrite <- Hperm. }
  bstep_cases Hs; try (apply Hmove; [done |]; try done; unfold owed, answered_ids; simpl).
  - unfold accepted_ids, owed, answered_ids in *. simpl. unfold ids in *. rewrite !fmap_app. simpl. split.
    + apply NoDup_app. split_and!; [done | | apply NoDup_singleton]. rewrite <- list_fmap_compose.
      intros x Hx ->%list_elem_of_singleton. by apply Hfresh.
    + rewrite Hp0. solve_Permutation.
  - rewrite (taken_places _ _ _ _ _ _ Ht), flush_entries_app, ids_app. simpl. rewrite !app_nil_r. solve_Permutation.
  - pose proof (enqueue_places (rn_shards w) q) as He. unfold receive. destruct (enqueue _ _ _) as [shards replies]. simpl in *.
    apply Hmove; [done |]. unfold owed, answered_ids. simpl. rewrite Hc, fmap_app. simpl. unfold ids in *. simpl.
    trans ((pd_reply <$> (qd_entry <$> rest)) ++ (pd_reply <$> flush_entries (rn_flushes w)) ++ (rn_answered w).*1
           ++ pd_reply (qd_entry q) :: (pd_reply <$> shard_entries (rn_shards w))); [solve_Permutation |].
    rewrite He. solve_Permutation.
  - rewrite Hf, !flush_entries_app, !ids_app. solve_Permutation.
  - rewrite Hc, fmap_app. simpl. solve_Permutation.
  - rewrite Hc, fmap_app, ids_answers by done. unfold shard_entries at 2. rewrite map_to_list_empty. simpl. solve_Permutation.
  - rewrite Hf, !flush_entries_app, !ids_app. solve_Permutation.
  - rewrite Hf, fmap_app, ids_answers by done. rewrite !ids_app. simpl. solve_Permutation.
  - rewrite Hf, !flush_entries_app. simpl. unfold ids. rewrite ?fmap_app. simpl. rewrite ?fmap_app. simpl. solve_Permutation.
  - rewrite Hf, !flush_entries_app, fmap_app. simpl. unfold ids. rewrite ?fmap_app. simpl. rewrite ?fmap_app. simpl. solve_Permutation.
  - rewrite fmap_app, ids_answers by done. rewrite !ids_app. simpl. solve_Permutation.
Qed.

Lemma reach_placed w : batch_reach o w -> placed w.
Proof.
  intros Hr. apply (rtc_ind_r placed _) with (3 := Hr); [| intros y z _ Hs Hi; by apply (bstep_placed y)].
  split; [constructor |]. by rewrite owed_nil.
Qed.

(** ** Order of one key *)

Definition of_key (k : string) (l : list Queued) : list Pending := qd_entry <$> filter (fun q => qd_key q = k) l.

Definition waiting_of (k : string) (fs : list Flush) : list Pending :=
  fs ≫= fun f => if bool_decide (fl_key f = k) then fl_waiting f else [].

(** The requests of a key: those that were started, then those that wait, in their turn *)
Definition line (k : string) (w : Runner) : list Pending :=
  of_key k (rn_started w) ++ waiting_of k (rn_flushes w) ++ default [] (rn_shards w !! k) ++ of_key k (rn_channel w).

Lemma of_key_app k l l' : of_key k (l ++ l') = of_key k l ++ of_key k l'.
Proof. unfold of_key. by rewrite filter_app, fmap_app. Qed.

Lemma of_key_one k q : of_key k [q] = if bool_decide (qd_key q = k) then [qd_entry q] else [].
Proof. unfold of_key. rewrite filter_cons. case_decide; case_bool_decide; done. Qed.

Lemma waiting_of_app k fs fs' : waiting_of k (fs ++ fs') = waiting_of k fs ++ waiting_of k fs'.
Proof. apply bind_app. Qed.

Lemma waiting_of_other k fs : k ∉ fl_key <$> fs -> waiting_of k fs = [].
Proof.
  induction fs as [|f fs IH]; [done |]. rewrite fmap_cons, not_elem_of_cons. intros [Hk Hfs]. unfold waiting_of in *. simpl.
  rewrite bool_decide_eq_false_2 by done. by apply IH.
Qed.

Lemma enqueue_order (shards : Shards) q k :
  default [] ((enqueue shards q o).1 !! k) `sublist_of` default [] (shards !! k) ++ of_key k [q].
Proof.
  destruct o_pos as (_ & _ & O3 & _). rewrite of_key_one. unfold enqueue. case_bool_decide as Hk; [subst k |].
  - destruct (shards !! qd_key q) as [queue|] eqn:Ek; simpl.
    + destruct (reject_overflow_spec (queue ++ [qd_entry q]) (max_queue_length o)) as (cut & Hc & _ & _); [lia |].
      destruct (reject_overflow _ _) as [queue' replies]. simpl in *. rewrite lookup_insert_eq, Hc. simpl. by apply sublist_inserts_l.
    + destruct (_ <=? _); simpl; [rewrite Ek; apply sublist_nil_l |]. by rewrite lookup_insert_eq.
  - rewrite app_nil_r. destruct (shards !! qd_key q) as [queue|] eqn:Ek; simpl.
    + destruct (reject_overflow _ _). simpl. by rewrite lookup_insert_ne.
    + destruct (_ <=? _); simpl; [done |]. by rewrite lookup_insert_ne.
Qed.

Lemma taken_order shards active now key batch shards' k :
  take_ready_batch shards o active now = Some (key, batch, shards') ->
  default [] (shards !! k) = (if bool_decide (key = k) then batch else []) ++ default [] (shards' !! k).
Proof.
  destruct o_pos as (O1 & _). intros (queue & Hk & _ & _ & -> & ->)%take_ready_spec; [| done]. case_bool_decide as E; [subst key |].
  - rewrite Hk. simpl. case_match; bool_prop.
    + rewrite lookup_insert_eq. simpl. by rewrite take_drop.
    + rewrite lookup_delete_eq, take_ge by (unfold lenZ in *; lia). simpl. by rewrite app_nil_r.
  - by case_match; rewrite ?lookup_insert_ne, lookup_delete_ne by done.
Qed.

Lemma bstep_order k w w' :
  bstep o w w' -> batch_bounds o w ->
  line k w `sublist_of` of_key k (rn_accepted w) -> line k w' `sublist_of` of_key k (rn_accepted w').
Proof.
  intros Hs Hb Hl.
  assert (forall l, l `sublist_of` line k w -> l `sublist_of` of_key k (rn_accepted w)) as Hmono by (intros l ?; by trans (line k w)).
  unfold line in *. bstep_cases Hs; simpl; try done; try apply Hmono.
  - rewrite !of_key_app, !app_assoc. apply sublist_app; [| done]. by rewrite <- !app_assoc.
  - rewrite waiting_of_app, (taken_order _ _ _ _ _ _ k Ht). simpl. apply take_ready_spec in Ht as (queue & _ & Hna & _); [| apply o_pos].
    rewrite (bb_active _ _ Hb ltac:(by rewrite Hp)) in Hna. rewrite app_nil_r, <- !app_assoc.
    case_bool_decide; [| done]. subst. by rewrite waiting_of_other.
  - pose proof (enqueue_order (rn_shards w) q k) as He. unfold receive. destruct (enqueue _ _ _) as [shards replies]. simpl in *.
    apply Hmono. change (q :: rest) with ([q] ++ rest) in Hc. rewrite Hc, of_key_app, !app_assoc. apply sublist_app; [| done].
    rewrite <- !app_assoc. do 2 (apply sublist_app; [done |]). exact He.
  - rewrite Hf, !waiting_of_app. simpl. by case_bool_decide.
  - change (q :: rest) with ([q] ++ rest) in Hc. rewrite Hc, of_key_app. do 3 (apply sublist_app; [done |]). by apply sublist_inserts_l.
  - rewrite lookup_empty. do 2 (apply sublist_app; [done |]). simpl. by apply sublist_inserts_l.
  - rewrite Hf, !waiting_of_app. simpl. by case_bool_decide.
  - rewrite lookup_empty. simpl. apply sublist_app; [done |]. apply sublist_nil_l.
  - rewrite Hf, !waiting_of_app, of_key_app, of_key_one. simpl. case_bool_decide as E; [| by rewrite app_nil_r]. subst key.
    rewrite (waiting_of_other k before); [by rewrite <- !app_assoc |]. pose proof (bb_keys _ _ Hb) as Hn. rewrite Hf, fmap_app in Hn.
    apply NoDup_app in Hn as (_ & Hd & _). intros Hin. apply (Hd _ Hin). simpl. by left.
  - rewrite Hf, !waiting_of_app. simpl. done.
  - rewrite lookup_empty. simpl. apply sublist_app; [done |]. apply sublist_nil_l.
Qed.

Lemma reach_order k w : batch_reach o w -> line k w `sublist_of` of_key k (rn_accepted w).
Proof.
  intros Hr. apply (rtc_ind_r (fun w => batch_bounds o w /\ line k w `sublist_of` of_key k (rn_accepted w)) _) with (3 := Hr).
  - split; [apply reach_bounds; constructor | done].
  - intros y z _ Hs [Hi Ho]. split; [by apply (bstep_bounds y) | by apply (bstep_order k y)].
Qed.

(** C20: The theorem on requests: every request that entered the channel is in exactly one place or
    has exactly one answer, and has one when the runner has stopped.  The handlers of one key
    start in the order in which its requests arrived, a key has one batch at work at a time, and
    no collection grows beyond its configured limit. *)
Theorem batching_exact w :
  batch_reach o w ->
  NoDup (accepted_ids w) /\ accepted_ids w ≡ₚ owed w ++ answered_ids w
  /\ (rn_phase w = Stopped -> accepted_ids w ≡ₚ answered_ids w)
  /\ (forall k, line k w `sublist_of` of_key k (rn_accepted w))
  /\ NoDup (fl_key <$> rn_flushes w)
  /\ lenZ (rn_channel w) <= max_queue_length o /\ Z.of_nat (size (rn_shards w)) <= max_shards o
  /\ map_Forall (fun _ q => lenZ q <= max_queue_length o) (rn_shards w)
  /\ lenZ (rn_flushes w) <= max_shards o
  /\ Forall (fun f => lenZ (fl_waiting f) + lenZ (fl_running f) <= max_batch_size o
                      /\ lenZ (fl_running f) <= flush_concurrency o) (rn_flushes w).
Proof.
  intros Hr. destruct (reach_placed w Hr) as [Hn Hp]. destruct (reach_bounds w Hr) as [H1 H2 H3 H4 H5 H6 H7 H8].
  split_and!; try done.
  - intros (Hc & Hs & Hf)%H8. by rewrite Hp, owed_nil.
  - intros k. by apply reach_order.
  - by intros k q [_ Hq]%H3.
Qed.

(** ** Waiting *)

(** No full shard of an idle key waits at the select, unless the flushes are at their limit. *)
Definition filled (w : Runner) : Prop :=
  rn_phase w = Selecting -> forall k q, rn_shards w !! k = Some q -> k ∉ rn_active w ->
  lenZ q < max_batch_size o \/ max_shards o <= lenZ (rn_flushes w).

Lemma bstep_filled w w' : bstep o w w' -> filled w -> filled w'.
Proof.
  unfold filled. intros Hs Hinv. bstep_cases Hs; simpl; try done.
  - case_match; [done |]. intros _ k q Hk Hna. destruct (Z.ltb_spec (lenZ (rn_flushes w)) (max_shards o)) as [Hl|]; [left | by right].
    pose proof (take_ready_none _ _ _ _ _ _ (Hnone Hl) Hk Hna) as Hr. unfold shard_ready in Hr. by bool_prop.
  - unfold receive. by destruct (enqueue _ _ _).
  - intros Hsel k q Hk Hna. destruct (Hinv Hsel k q Hk Hna) as [|Hl]; [by left | right]. rewrite Hf, !lenZ_app in *. done.
  - intros Hsel k q Hk Hna. destruct (Hinv Hsel k q Hk Hna) as [|Hl]; [by left | right]. rewrite Hf, !lenZ_app in *. done.
Qed.

Lemma reach_filled w : batch_reach o w -> filled w.
Proof. intros Hr. apply (rtc_ind_r filled _) with (3 := Hr); [done | intros y z _ Hs Hi; by apply (bstep_filled y)]. Qed.

(** While the runner sleeps, a shard of an idle key is not full unless as many batches run as
    may, and the timer is set no later than its deadline; when the runner goes to sleep with room
    for a batch no deadline of an idle key has passed; and each batch it takes before makes the
    shards smaller, so that it does go to sleep. *)
Theorem batches_prompt w :
  batch_reach o w ->
  (forall k queue, rn_phase w = Selecting -> rn_shards w !! k = Some queue -> k ∉ rn_active w ->
    (lenZ queue < max_batch_size o \/ lenZ (rn_flushes w) = max_shards o)
    /\ forall d, front_deadline queue (batch_timeout o) = Some d ->
       exists deadline, next_deadline (rn_shards w) (batch_timeout o) (rn_active w) = Some deadline /\ deadline <= d)
  /\ (forall now k queue d, take_ready_batch (rn_shards w) o (rn_active w) now = None -> rn_shards w !! k = Some queue ->
       k ∉ rn_active w -> front_deadline queue (batch_timeout o) = Some d -> now < d)
  /\ (forall now k batch shards, take_ready_batch (rn_shards w) o (rn_active w) now = Some (k, batch, shards) ->
       (length (shard_entries shards) < length (shard_entries (rn_shards w)))%nat).
Proof.
  intros Hr. destruct (reach_bounds w Hr) as [H1 H2 H3 H4 H5 H6 H7 H8]. split_and!.
  - intros k queue Hsel Hk Hna. split; [| by intros d Hd; eapply next_deadline_covers].
    destruct (reach_filled w Hr Hsel k queue Hk Hna); [by left | right; lia].
  - intros now k queue d Hnone Hk Hna Hd. pose proof (take_ready_none _ _ _ _ _ _ Hnone Hk Hna) as Hrd.
    unfold shard_ready in Hrd. rewrite Hd in Hrd. by bool_prop.
  - intros now k batch shards Ht. destruct (taken_bounds _ _ _ _ _ _ H2 H3 Ht) as (_ & _ & _ & Hne).
    pose proof (Permutation_length (taken_places _ _ _ _ _ _ Ht)) as Hl. unfold ids in Hl. rewrite length_app, !length_fmap in Hl.
    destruct batch; [done |]. simpl in Hl. lia.
Qed.

(** ** Shutdown *)

Definition closing (p : RunnerPhase) : bool := match p with Rejecting | Draining => true | _ => false end.

Definition flush_work (f : Flush) : nat := (2 * length (fl_waiting f) + length (fl_running f) + 1)%nat.

(** What is left to do once the runner has left its loop *)
Definition work_left (w : Runner) : nat :=
  ((match rn_phase w with Rejecting => 2 + length (rn_channel w) | Draining => 1 | _ => 0 end)
   + sum_list_with flush_work (rn_flushes w))%nat.

(** Once the runner has left its loop, each step brings its end closer, except the steps of
    callers that send; and there is always a step that does. *)
Theorem shutdown_terminates w :
  closing (rn_phase w) = true ->
  (forall w', bstep o w w' ->
     (exists q, w' = send w q) \/ (exists a b, w' = set_senders w a b) \/ (work_left w' < work_left w)%nat)
  /\ exists w', bstep o w w' /\ (work_left w' < work_left w)%nat /\ (closing (rn_phase w') = true \/ rn_phase w' = Stopped).
Proof.
  intros Hcl. split.
  - intros w' Hs. bstep_cases Hs; try (by left; eauto); try (by right; left; eauto); right; right; try by rewrite Hp in Hcl.
    all: unfold work_left; simpl; rewrite ?Hf, ?Hp, ?Hc, ?sum_list_with_app; unfold flush_work; simpl; rewrite ?length_app; simpl; try lia.
    destruct (rn_phase w); try done; simpl; lia.
  - destruct o_pos as (_ & _ & _ & _ & O5). destruct (rn_phase w) eqn:Hp; try done.
    + destruct (rn_channel w) as [|q rest] eqn:Hc; eexists.
      * split; [by apply b_reject_shards |]. unfold work_left. rewrite Hp. simpl. split; [lia | by left].
      * split; [by eapply b_reject_queued |]. unfold work_left. rewrite Hp, Hc. simpl. split; [lia | by left].
    + destruct (rn_flushes w) as [|[key waiting running] fs] eqn:Hf.
      { eexists. split; [by apply b_finished |]. unfold work_left. rewrite Hp. simpl. split; [lia | by right]. }
      destruct running as [|e running]; [destruct waiting as [|e waiting] |].
      * exists (flush_completed w [] fs key Draining). split; [by apply b_drained |]. unfold work_left. rewrite Hp, Hf. simpl. split; [unfold flush_work; simpl; lia | by left].
      * exists (handler_starts w [] fs key e waiting []). split; [apply b_start; [by rewrite Hp | done | by change (lenZ []) with 0] |].
        unfold work_left, handler_starts. simpl. rewrite Hp, Hf. simpl. split; [unfold flush_work; simpl; lia | by left].
      * exists (handler_ends w [] fs key waiting [] running e None). split; [apply b_end; [by rewrite Hp | done] |].
        unfold work_left, handler_ends. simpl. rewrite Hp, Hf. simpl. split; [unfold flush_work; simpl; lia | by left].
Qed.
End invariants.
End batching.

(** ** Runs *)

Section runs.

(** At most one batch at a time, 10 ns of patience *)
Definition spin_options : BatchOptions := mkBatchOptions 2 10 4 1 1.

Definition spin_request (key : string) (id : nat) (at_ : Z) : @Queued Z := mkQueued key (mkPending 0 id at_).

(** The batch of one key is at work, a request of another key is overdue. *)
Definition spin_state : @Runner Z Z :=
  let a := spin_request "a" 0 0 in let b := spin_request "b" 1 5 in
  mkRunner [] {["b" := [qd_entry b]]} {["a"]} [mkFlush "a" [] [qd_entry a]] Selecting false true [a; b] [a] [].

Lemma spin_reachable : batch_reach spin_options spin_state.
Proof.
  set (a := spin_request "a" 0 0). set (b := spin_request "b" 1 5). unfold batch_reach.
  eapply rtc_l; [apply (b_send _ _ a); [done | done | vm_compute; reflexivity | apply not_elem_of_nil] |].
  eapply rtc_l; [apply (b_filled _ _ 0); [done | intros _; vm_compute; reflexivity] |].
  eapply rtc_l; [apply b_recv with (rest := []); [done | reflexivity] |].
  eapply rtc_l; [apply (b_filled _ _ 1); [done | intros _; vm_compute; reflexivity] |].
  eapply rtc_l; [apply (b_timer _ _ 10 10); [done | vm_compute; reflexivity | lia] |].
  eapply rtc_l; [eapply (b_fill _ _ 10); [done | vm_compute; reflexivity | vm_compute; reflexivity] |].
  eapply rtc_l; [apply (b_filled _ _ 10); [done | intros _; vm_compute; reflexivity] |].
  eapply rtc_l; [apply b_start with (before := []) (after := []); [done | reflexivity | vm_compute; reflexivity] |].
  eapply rtc_l; [apply (b_send _ _ b); [done | done | vm_compute; reflexivity | by intros ?%list_elem_of_singleton] |].
  eapply rtc_l; [apply b_recv with (rest := []); [done | reflexivity] |].
  eapply rtc_l; [apply (b_filled _ _ 11); [done | intros Hl; vm_compute in Hl; done] |].
  match goal with |- rtc _ ?x ?y => assert (x = y) as -> by (vm_compute; reflexivity) end. apply rtc_refl.
Qed.

(** A runner whose flushes are at their limit while a shard of another key is overdue does not
    sleep: its timer fires at once, there is nothing it can start, and it is back at its select
    in the same state.  It goes round until a batch ends. *)
Example full_runner_spins :
  batch_reach spin_options spin_state
  /\ bstep spin_options spin_state (set_phase spin_state Filling)
  /\ bstep spin_options (set_phase spin_state Filling) spin_state.
Proof.
  split_and!; [apply spin_reachable | |].
  - apply (b_timer _ _ 15 15); [done | vm_compute; reflexivity | lia].
  - apply (b_filled _ (set_phase spin_state Filling) 15); [done | intros Hl; vm_compute in Hl; done].
Qed.

(** A queue that is shorter than a batch *)
Definition short_options : BatchOptions := mkBatchOptions 3 100 1 1 1.

Definition short_request (n : nat) : @Queued Z := mkQueued DEFAULT_BATCH_KEY (mkPending 0 n (60 * Z.of_nat n)).

Definition short_state (n : nat) : @Runner Z Z :=
  mkRunner [] {[DEFAULT_BATCH_KEY := [qd_entry (short_request n)]]} ∅ [] Selecting false true
    (short_request <$> seq 0 (S n)) [] ((fun i => reject_entry (qd_entry (short_request i)) "automatic batch queue is full") <$> seq 0 n).

Lemma short_state_waits n now :
  now < 60 * Z.of_nat n + 100 -> take_ready_batch (rn_shards (short_state n)) short_options ∅ now = None.
Proof.
  intros Hn. assert (shard_ready short_options now [qd_entry (short_request n)] = false) as Hr.
  { apply orb_false_iff. split; [done |]. unfold front_deadline, instant_add. destruct (fits _ _); [| done].
    cbn [qd_entry short_request pd_enqueued_at batch_timeout short_options]. apply Z.leb_gt. lia. }
  unfold take_ready_batch. cbn [rn_shards short_state]. unfold iter, map_to_list_iter. rewrite map_to_list_singleton.
  cbn [List.find]. by rewrite Hr, andb_false_r.
Qed.

Lemma short_enqueue n :
  @enqueue Z Z (rn_shards (short_state n)) (short_request (S n)) short_options
  = (rn_shards (short_state (S n)), [reject_entry (qd_entry (short_request n)) "automatic batch queue is full"]).
Proof.
  unfold enqueue. cbn [rn_shards short_state qd_key short_request]. rewrite lookup_singleton_eq.
  change (reject_overflow ([qd_entry (short_request n)] ++ [qd_entry (short_request (S n))]) (max_queue_length short_options))
    with ([qd_entry (short_request (S n))], [@reject_entry Z Z (qd_entry (short_request n)) "automatic batch queue is full"]).
  cbv beta iota. cbn [rn_shards short_state]. by rewrite insert_singleton_eq.
Qed.

Lemma short_step n : rtc (bstep short_options) (short_state n) (short_state (S n)).
Proof.
  eapply rtc_l; [apply (b_send _ _ (short_request (S n))); [done | done | vm_compute; reflexivity |] |].
  { unfold short_state. cbn [rn_accepted]. rewrite <- list_fmap_compose. intros (i & Hi & Hin)%list_elem_of_fmap. apply elem_of_seq in Hin. simpl in Hi. lia. }
  eapply rtc_l; [apply b_recv with (rest := []); [done | reflexivity] |]. unfold receive, send. cbn [rn_shards].
  rewrite short_enqueue.
  eapply rtc_l; [apply (b_filled _ _ (60 * Z.of_nat (S n))); [done | intros _; apply short_state_waits; lia] |].
  match goal with |- rtc _ ?x ?y => assert (x = y) as -> end; [| apply rtc_refl]. unfold set_phase, short_state.
  cbn [rn_channel rn_shards rn_active rn_flushes rn_phase rn_shutdown rn_senders rn_accepted rn_started rn_answered].
  by rewrite !seq_S, !fmap_app.
Qed.

(** With options that [validate] accepts, a queue that is shorter than a batch starves: requests
    that arrive every 60 ns, faster than the timeout of 100 ns, push each other out, and no
    handler ever runs. *)
Example short_queue_starves :
  batch_validate short_options = Ok tt
  /\ forall n, batch_reach short_options (short_state n)
       /\ rn_started (short_state n) = [] /\ length (rn_accepted (short_state n)) = S n /\ length (rn_answered (short_state n)) = n
       /\ (forall now, now <= 60 * Z.of_nat (S n) -> take_ready_batch (rn_shards (short_state n)) short_options ∅ now = None).
Proof.
  split; [reflexivity |]. intros n. split_and!; [| done | simpl; by rewrite length_fmap, length_seq | simpl; by rewrite length_fmap, length_seq
    | intros now Hn; apply short_state_waits; lia].
  induction n as [|n IH]; [| unfold batch_reach in *; etrans; [exact IH | apply short_step]].
  eapply rtc_l; [apply (b_send _ _ (short_request 0)); [done | done | vm_compute; reflexivity | apply not_elem_of_nil] |].
  eapply rtc_l; [apply (b_filled _ _ 0); [done | intros _; vm_compute; reflexivity] |].
  eapply rtc_l; [apply b_recv with (rest := []); [done | reflexivity] |].
  eapply rtc_l; [apply (b_filled _ _ 0); [done | intros _; vm_compute; reflexivity] |].
  match goal with |- rtc _ ?x ?y => assert (x = y) as -> by (vm_compute; reflexivity) end. apply rtc_refl.
Qed.

Lemma batching_exact_witness :
  batch_reach spin_options spin_state
  /\ accepted_ids spin_state ≡ₚ owed spin_state ++ answered_ids spin_state
  /\ line "b" spin_state `sublist_of` of_key "b" (rn_accepted spin_state).
Proof.
  split; [apply spin_reachable |].
  destruct (batching_exact spin_options ltac:(vm_compute; intuition discriminate) ltac:(reflexivity) spin_state spin_reachable)
    as (_ & Hp & _ & Hl & _).
  split; [exact Hp | apply Hl].
Defined.

Lemma batches_prompt_witness :
  exists deadline, next_deadline (rn_shards spin_state) 10 (rn_active spin_state) = Some deadline /\ deadline <= 15.
Proof.
  destruct (batches_prompt spin_options ltac:(vm_compute; intuition discriminate) ltac:(reflexivity) spin_state spin_reachable)
    as (Hw & _).
  apply (Hw "b" [qd_entry (spin_request "b" 1 5)]); [reflexivity | reflexivity | set_solver | reflexivity].
Defined.

Lemma shutdown_terminates_witness :
  exists w', bstep spin_options (set_phase spin_state Rejecting) w' /\ (work_left w' < work_left (set_phase spin_state Rejecting))%nat.
Proof.
  destruct (shutdown_terminates spin_options ltac:(vm_compute; intuition discriminate) ltac:(reflexivity)
    (set_phase spin_state Rejecting) ltac:(reflexivity)) as (_ & w' & Hs & Hl & _).
  exists w'. split; [exact Hs | exact Hl].
Defined.
End runs.
