(* ===== verification/ReadModels.v ===== *)
(** * Read models ([read_model.rs], [memory/read_model.rs])

    A tracker keeps changes until a strategy has applied them to a read model; a synchronizer takes
    a page of them, runs the strategy and acknowledges the page.  Synchronizers are tasks over a
    shared tracker and the user's read model.  The scheduled strategy, which several of them share,
    is a step relation over its state word. *)

From S2P Require Import Prelude Errors Time Messages Tasks.

Definition MAX_READ_MODEL_PAGE_SIZE : Z := 1024.
Definition DEFAULT_READ_MODEL_PAGE_SIZE : Z := 256.

Definition validate_read_model_page_size (max_count : Z) : CatgaResult unit :=
  if (max_count =? 0) || (MAX_READ_MODEL_PAGE_SIZE <? max_count)
  then fail Validation "read-model page size must be between 1 and MAX_READ_MODEL_PAGE_SIZE"
  else Ok tt.

Inductive ChangeKind := Created | Updated | Deleted.

Record ChangeRecord := mkChange {
  ch_id : string;
  ch_entity_type : string;
  ch_entity_id : string;
  ch_kind : ChangeKind;
  ch_event : Envelope;
  ch_timestamp : SystemTime
}.

#[global] Instance ChangeKind_eq_dec : EqDecision ChangeKind.
Proof. solve_decision. Defined.

Definition change_new (id entity_type entity_id : string) (kind : ChangeKind) (event : Envelope) (now : SystemTime) : ChangeRecord :=
  mkChange id entity_type entity_id kind event now.

(** ** The in-memory stores *)

Section stores.
Context `{!MapIter string}.

Abbreviation MemoryChangeTracker := (gmap string ChangeRecord).

Definition track (t : MemoryChangeTracker) (change : ChangeRecord) : MemoryChangeTracker := <[ch_id change := change]> t.

Definition pending_page (t : MemoryChangeTracker) (max_count : Z) : CatgaResult (list ChangeRecord) :=
  let? _ := validate_read_model_page_size max_count in
  Ok (take (Z.to_nat max_count) (iter t)).*2.

(** One removal of [mark_synced]; the others come between two of them. *)
Definition remove_change (t : MemoryChangeTracker) (id : string) : MemoryChangeTracker := delete id t.

Definition read_model_get {Model} (s : gmap string Model) (id : string) : CatgaResult (option Model) := Ok (s !! id).
Definition read_model_save {Model} (s : gmap string Model) (id : string) (m : Model) : CatgaResult unit * gmap string Model :=
  (Ok tt, <[id := m]> s).
Definition read_model_delete {Model} (s : gmap string Model) (id : string) : CatgaResult unit * gmap string Model :=
  (Ok tt, delete id s).
End stores.

(** ** Strategies *)

Section strategies.
Context {W : Type}.

Definition SyncStrategy : Type := list ChangeRecord -> Task W (CatgaResult unit).

(** [RealtimeSyncStrategy] *)
Fixpoint realtime_execute (action : ChangeRecord -> Task W (CatgaResult unit)) (changes : list ChangeRecord)
    : Task W (CatgaResult unit) :=
  match changes with
  | [] => Done (Ok tt)
  | change :: rest => await? _ := action change in realtime_execute action rest
  end.

(** [changes.chunks(size)]; there are at most as many chunks as elements. *)
Fixpoint chunks_from {A} (fuel : nat) (size : nat) (l : list A) : list (list A) :=
  match fuel, l with
  | _, [] => []
  | O, _ => []
  | S fuel, _ => take size l :: chunks_from fuel size (drop size l)
  end.

Definition chunks {A} (size : nat) (l : list A) : list (list A) := chunks_from (length l) size l.

(** [BatchSyncStrategy] *)
Definition batch_new (batch_size : nat) : option nat := if (batch_size =? 0)%nat then None else Some batch_size.

Fixpoint batches_execute (action : list ChangeRecord -> Task W (CatgaResult unit)) (batches : list (list ChangeRecord))
    : Task W (CatgaResult unit) :=
  match batches with
  | [] => Done (Ok tt)
  | batch :: rest => await? _ := action batch in batches_execute action rest
  end.

Definition batch_execute (batch_size : nat) (action : list ChangeRecord -> Task W (CatgaResult unit)) : SyncStrategy :=
  fun changes => batches_execute action (chunks batch_size changes).
End strategies.
Arguments SyncStrategy : clear implicits.

(** ** The synchronizer *)

(** The tracker, the cells [last_sync_millis] of the synchronizers, the clock and the user's read
    model; [sw_tracked] records the calls of [track]. *)
Record SyncWorld (U : Type) := mkSyncWorld {
  sw_tracker : gmap string ChangeRecord;
  sw_last_sync : gmap nat Z;
  sw_clock : SystemTime;
  sw_user : U;
  sw_tracked : list ChangeRecord
}.
Arguments mkSyncWorld {U}.
Arguments sw_tracker {U}. Arguments sw_last_sync {U}. Arguments sw_clock {U}. Arguments sw_user {U}. Arguments sw_tracked {U}.

(** [sr_name] is the identity of the synchronizer. *)
Record Synchronizer (U : Type) := mkSynchronizer {
  sr_name : nat;
  sr_page_size : Z;
  sr_strategy : SyncStrategy U
}.
Arguments mkSynchronizer {U}. Arguments sr_name {U}. Arguments sr_page_size {U}. Arguments sr_strategy {U}.

Section synchronizer.
Context `{!MapIter string} {U : Type}.

Definition with_page_size (name : nat) (strategy : SyncStrategy U) (page_size : Z) : Synchronizer U :=
  mkSynchronizer name (Z.min page_size MAX_READ_MODEL_PAGE_SIZE) strategy.

Definition synchronizer_new (name : nat) (strategy : SyncStrategy U) : Synchronizer U :=
  with_page_size name strategy DEFAULT_READ_MODEL_PAGE_SIZE.

Definition put_tracker (t : gmap string ChangeRecord) (w : SyncWorld U) : SyncWorld U :=
  mkSyncWorld t (sw_last_sync w) (sw_clock w) (sw_user w) (sw_tracked w).
Definition put_user (u : U) (w : SyncWorld U) : SyncWorld U :=
  mkSyncWorld (sw_tracker w) (sw_last_sync w) (sw_clock w) u (sw_tracked w).
Definition put_last_sync (name : nat) (ms : Z) (w : SyncWorld U) : SyncWorld U :=
  mkSyncWorld (sw_tracker w) (<[name := ms]> (sw_last_sync w)) (sw_clock w) (sw_user w) (sw_tracked w).

Fixpoint mark_synced (ids : list string) : Task (SyncWorld U) (CatgaResult unit) :=
  match ids with
  | [] => Done (Ok tt)
  | id :: ids =>
    await _ := atomically (fun w => (tt, put_tracker (remove_change (sw_tracker w) id) w)) in mark_synced ids
  end.

Definition sync (s : Synchronizer U) : Task (SyncWorld U) (CatgaResult unit) :=
  await? pending := atomically (fun w => (pending_page (sw_tracker w) (sr_page_size s), w)) in
  match pending with
  | [] => Done (Ok tt)
  | _ =>
    await? _ := zoom sw_user put_user (sr_strategy s pending) in
    await? _ := mark_synced (ch_id <$> pending) in
    atomically (fun w => (Ok tt, put_last_sync (sr_name s) (now_unix_millis_or 1 (sw_clock w)) w))
  end.

Definition last_sync_time (s : Synchronizer U) (w : SyncWorld U) : option SystemTime :=
  let millis := default 0 (sw_last_sync w !! sr_name s) in
  if negb (millis =? 0) then Some (from_millis millis) else None.
End synchronizer.

(** ** Chunks *)

Lemma chunks_concat {A} size (l : list A) : (0 < size)%nat -> concat (chunks size l) = l.
Proof.
  intros Hs. unfold chunks. assert (forall fuel, (length l <= fuel)%nat -> concat (chunks_from fuel size l) = l) as H; [| by apply H].
  intros fuel. revert l. induction fuel as [|fuel IH]; intros [|x l] Hl; simpl in *; [done | lia | done |].
  rewrite IH; [apply (take_drop size (x :: l)) |]. destruct size; [lia |]. simpl. rewrite length_drop. lia.
Qed.

Lemma chunks_size {A} size (l : list A) :
  (0 < size)%nat -> Forall (fun c => c <> [] /\ (length c <= size)%nat) (chunks size l).
Proof.
  intros Hs. unfold chunks. generalize (length l) as fuel. intros fuel. revert l.
  induction fuel as [|fuel IH]; intros [|x l]; simpl; try constructor; [| apply IH]. split; [by destruct size; [lia |] |].
  rewrite length_take. lia.
Qed.

(** ** No change is lost *)

Section properties.
Context `{!MapIter string} {U : Type}.

(** What the synchronizers rely on: changes that were applied to the user's read model stay
    applied, and a strategy that reports success has applied all it was given. *)
Context (applied : U -> ChangeRecord -> Prop) (user_step : U -> U -> Prop).

Class UserLaws : Prop := {
  ul_preorder :: PreOrder user_step;
  ul_applied u u' c : user_step u u' -> applied u c -> applied u' c
}.

Class StrategyLaws (strategy : SyncStrategy U) : Prop :=
  sl_execute changes u : rg user_step user_step
    (fun r u' => r = Some (Ok tt) -> Forall (applied u') changes) (strategy changes) u.

Context `{!UserLaws}.

Lemma user_steps u u' : rtc user_step u u' -> user_step u u'.
Proof. intros Hr. induction Hr; [reflexivity | by etrans]. Qed.

(** One action after another *)
Lemma rg_then (P1 P2 : U -> Prop) (t rest : Task U (CatgaResult unit)) u :
  (forall u1 u2, user_step u1 u2 -> P1 u1 -> P1 u2) ->
  rg user_step user_step (fun r u' => r = Some (Ok tt) -> P1 u') t u ->
  (forall u1, rg user_step user_step (fun r u' => r = Some (Ok tt) -> P2 u') rest u1) ->
  rg user_step user_step (fun r u' => r = Some (Ok tt) -> P1 u' /\ P2 u') (await? _ := t in rest) u.
Proof.
  intros Hst Ht Hrest. eapply rg_bind_stable; [exact Ht | | done]. intros [[]|e] u1 Hq; [| done].
  eapply rg_mono; [apply (rg_frame _ _ P1); [done | done | by apply Hq | apply Hrest] |].
  intros r u2 [H2 H1] Hr. split; [done | by apply H2].
Qed.

(** The realtime and the batch strategy keep the contract when the user's action does. *)
Lemma realtime_laws (action : ChangeRecord -> Task U (CatgaResult unit)) :
  (forall c u, rg user_step user_step (fun r u' => r = Some (Ok tt) -> applied u' c) (action c) u) ->
  StrategyLaws (realtime_execute action).
Proof.
  intros Ha changes. induction changes as [|c rest IH]; intros u; [by intros u1 _ _; constructor |].
  eapply rg_mono; [apply (rg_then (fun u' => applied u' c) (fun u' => Forall (applied u') rest)); [| apply Ha | apply IH] |].
  - intros u1 u2. apply ul_applied.
  - intros r u' Hq Hr. by apply Forall_cons, Hq.
Qed.

Lemma batch_laws (action : list ChangeRecord -> Task U (CatgaResult unit)) size :
  (0 < size)%nat ->
  (forall cs u, rg user_step user_step (fun r u' => r = Some (Ok tt) -> Forall (applied u') cs) (action cs) u) ->
  StrategyLaws (batch_execute size action).
Proof.
  intros Hs Ha changes. unfold batch_execute. pose proof (chunks_concat size changes Hs) as Hc.
  revert Hc. generalize (chunks size changes) as batches. intros batches <-.
  induction batches as [|b rest IH]; intros u; [by intros u1 _ _; constructor |].
  eapply rg_mono; [apply (rg_then (fun u' => Forall (applied u') b) (fun u' => Forall (applied u') (concat rest))); [| apply Ha | apply IH] |].
  - intros u1 u2 Hu Hf. eapply Forall_impl; [exact Hf |]. intros c. by apply ul_applied.
  - intros r u' Hq Hr. by apply Forall_app, Hq.
Qed.

(** *** Synchronizers at work *)

Abbreviation world := (SyncWorld U).

(** A change with this identifier was tracked and applied. *)
Definition id_applied (w : world) (id : string) : Prop := exists c, ch_id c = id /\ c ∈ sw_tracked w /\ applied (sw_user w) c.

(** Every pending change was tracked, and every tracked identifier is pending or applied. *)
Record tracker_inv (w : world) : Prop := {
  ti_pending : forall id c, sw_tracker w !! id = Some c -> ch_id c = id /\ c ∈ sw_tracked w;
  ti_tracked : forall c, c ∈ sw_tracked w -> is_Some (sw_tracker w !! ch_id c) \/ id_applied w (ch_id c)
}.

Record sync_evolve (w w' : world) : Prop := {
  se_user : user_step (sw_user w) (sw_user w');
  se_tracked : forall c, c ∈ sw_tracked w -> c ∈ sw_tracked w';
  se_inv : tracker_inv w -> tracker_inv w'
}.

#[local] Instance sync_evolve_preorder : PreOrder sync_evolve.
Proof.
  split; [intros w; by split |]. intros w1 w2 w3 [H1 H2 H3] [H4 H5 H6].
  split; [by etrans | intros c Hc; by apply H5, H2 | intros Hi; by apply H6, H3].
Qed.

Lemma sync_steps w w' : rtc sync_evolve w w' -> sync_evolve w w'.
Proof. intros Hr. induction Hr; [reflexivity | by etrans]. Qed.

Lemma id_applied_evolve w w' id : sync_evolve w w' -> id_applied w id -> id_applied w' id.
Proof. intros [Hu Ht _] (c & Hc & Hin & Ha). exists c. split_and!; [done | by apply Ht | by eapply ul_applied]. Qed.

(** The others: changes are tracked, the clock goes on, the user's read model is used. *)
Inductive sync_surroundings : world -> world -> Prop :=
| ss_track w c :
    sync_surroundings w (mkSyncWorld (track (sw_tracker w) c) (sw_last_sync w) (sw_clock w) (sw_user w) (sw_tracked w ++ [c]))
| ss_clock w now : sync_surroundings w (mkSyncWorld (sw_tracker w) (sw_last_sync w) now (sw_user w) (sw_tracked w))
| ss_user w u : user_step (sw_user w) u -> sync_surroundings w (put_user u w).

Lemma user_evolve w u : user_step (sw_user w) u -> sync_evolve w (put_user u w).
Proof.
  intros Hu. split; [done | done |]. intros [H1 H2]. split; [done |]. intros c Hc. destruct (H2 c Hc) as [|(c' & ? & ? & ?)]; [by left | right].
  exists c'. split_and!; [done | done | by eapply ul_applied].
Qed.

Lemma surroundings_sync_evolve w w' : sync_surroundings w w' -> sync_evolve w w'.
Proof.
  intros [w1 c|w1 now|w1 u Hu]; [| split; [reflexivity | done |]; intros [H1 H2]; by split | by apply user_evolve].
  split; simpl; [reflexivity | intros c' Hc; apply elem_of_app; by left |]. intros [H1 H2]. split; simpl.
  - unfold track. intros id c' [[<- <-]|[_ Hl]]%lookup_insert_Some; [set_solver |]. destruct (H1 _ _ Hl). set_solver.
  - unfold track. intros c' [Hc|Hc]%elem_of_app; [| apply list_elem_of_singleton in Hc as ->; left; rewrite lookup_insert_eq; eauto].
    destruct (decide (ch_id c' = ch_id c)) as [->|Hne]; [left; rewrite lookup_insert_eq; eauto |].
    rewrite lookup_insert_ne by done. destruct (H2 c' Hc) as [|(d & ? & ? & ?)]; [by left | right]. exists d. set_solver.
Qed.

Lemma remove_evolve w id : id_applied w id -> sync_evolve w (put_tracker (remove_change (sw_tracker w) id) w).
Proof.
  intros Ha. split; [reflexivity | done |]. intros [H1 H2]. split; simpl; unfold remove_change.
  - intros k c [_ Hl]%lookup_delete_Some. by apply H1.
  - intros c Hc. destruct (decide (ch_id c = id)) as [->|Hne]; [by right | rewrite lookup_delete_ne by done; by apply H2].
Qed.

Abbreviation E := sync_evolve.

Lemma mark_rg ids w :
  Forall (id_applied w) ids -> rg E E (fun _ _ => True) (mark_synced ids) w.
Proof.
  revert w. induction ids as [|id ids IH]; intros w Hf; [done |]. apply Forall_cons in Hf as [Hid Hids]. simpl.
  intros w1 Hw1%sync_steps. split; [reflexivity |]. intros _.
  assert (E w1 (put_tracker (remove_change (sw_tracker w1) id) w1)) as He by (apply remove_evolve; by eapply id_applied_evolve).
  split; [exact He |]. apply IH. eapply Forall_impl; [exact Hids |]. intros k Hk.
  eapply id_applied_evolve; [| exact Hk]. by etrans.
Qed.

Lemma sync_rg (s : Synchronizer U) w : StrategyLaws (sr_strategy s) -> tracker_inv w -> rg E E (fun _ _ => True) (sync s) w.
Proof.
  intros Hs Hi. unfold sync. eapply (rg_bind _ _ (fun r w1 => match r with
    | Some (Ok pending) => tracker_inv w1 /\ Forall (fun c => c ∈ sw_tracked w1) pending | _ => True end)); [| | done].
  - apply rg_atomically. intros w1 Hw1%sync_steps. split_and!; [reflexivity | reflexivity |]. intros w2 Hw2%sync_steps. simpl.
    unfold pending_page. destruct (validate_read_model_page_size _) as [[]|e]; simpl; [| done].
    pose proof (se_inv _ _ Hw1 Hi) as Hi1. split; [by apply (se_inv _ _ Hw2) |].
    apply Forall_forall. intros c ([k c'] & -> & Hin)%list_elem_of_fmap. apply (se_tracked _ _ Hw2).
    eapply elem_of_sublist, elem_of_iter in Hin; [| apply sublist_take]. by apply (ti_pending _ Hi1 k).
  - intros [pending|e] w1; [| done]. intros [Hi1 Hp]. destruct pending as [|c0 rest]; [done |]. set (pending := c0 :: rest) in *.
    eapply rg_bind_stable; [| | done].
    + apply (rg_frame _ _ (fun w2 => Forall (fun c => c ∈ sw_tracked w2) pending)).
      * intros w2 w3 He Hf. eapply Forall_impl; [exact Hf | apply He].
      * intros w2 w3 He Hf. eapply Forall_impl; [exact Hf | apply He].
      * exact Hp.
      * apply (rg_zoom_part E E user_step sw_user put_user (fun r u => r = Some (Ok tt) -> Forall (applied u) pending)
          (sr_strategy s pending)); [intros w2 w3 He; apply rtc_once, He | done | intros w2 u; apply user_evolve | apply Hs].
    + intros [[]|e] w2 Hq; [| done]. eapply (rg_bind _ _ (fun _ _ => True)); [apply mark_rg | | done].
      * destruct (Hq w2 (rtc_refl _ _)) as [Ha Ht]. specialize (Ha eq_refl). apply Forall_fmap.
        rewrite Forall_forall in *. intros c Hc. exists c. eauto.
      * intros [[]|e] w3 _; [| done]. apply rg_atomically. intros w4 _. split_and!; [reflexivity | | done].
        split; [reflexivity | done |]. intros [H1 H2]. by split.
Qed.

(** C24: Whatever the synchronizers, the callers of [track] and the user of the read model do at once,
    and wherever a synchronizer is dropped: the identifier of every tracked change is pending, or a
    change with it was applied; when identifiers are not used again for another change, every
    tracked change itself is pending or applied. *)
Theorem tracked_until_applied (start : nat -> Synchronizer U) w0 w pool :
  (forall n, StrategyLaws (sr_strategy (start n))) ->
  tracker_inv w0 ->
  rtc (pool_step sync_surroundings (fun n => sync (start n))) (w0, []) (w, pool) ->
  (forall c, c ∈ sw_tracked w -> is_Some (sw_tracker w !! ch_id c) \/ id_applied w (ch_id c))
  /\ ((forall c c', c ∈ sw_tracked w -> c' ∈ sw_tracked w -> ch_id c = ch_id c' -> c = c') ->
      forall c, c ∈ sw_tracked w -> sw_tracker w !! ch_id c = Some c \/ applied (sw_user w) c).
Proof.
  intros Hlaws Hi Hr.
  assert (pool_ok E tracker_inv (fun _ _ _ => True) (w, pool)) as [[H1 H2] _].
  { eapply (pool_sound E sync_surroundings (fun n => sync (start n)) tracker_inv); [| | | exact Hi | exact Hr].
    - apply surroundings_sync_evolve.
    - intros w1 w2 He. apply He.
    - intros n w1 Hw1. by apply sync_rg. }
  simpl in H1, H2. split; [exact H2 |]. intros Huniq c Hc. destruct (H2 c Hc) as [[c' Hc']|(c' & Hid & Hin & Ha)].
  - left. destruct (H1 _ _ Hc') as [Hid Hin]. by rewrite Hc', (Huniq c' c Hin Hc Hid).
  - right. by rewrite <- (Huniq c' c Hin Hc Hid).
Qed.
End properties.

(** ** The scheduled strategy

    Calls of one [ScheduledSyncStrategy] share its state word: the reading of the clock at the
    start of the last successful run, and a busy bit. *)

Definition BUSY : Z := Z.shiftl 1 63.
Definition TIMESTAMP : Z := Z.lxor (int_max u64) BUSY.

(** What a call decides from the word and its clock: it may try to start, with the word and the
    reading, or returns. *)
Definition schedule_check (interval_millis state now : Z) : CatgaResult (Z * Z) :=
  if negb (Z.land state BUSY =? 0) then fail Transient "read-model synchronization is already running"
  else
    let last := Z.land state TIMESTAMP in
    if negb (last =? 0) && (Z.max 0 (now - last) <? interval_millis)
    then fail Transient "read-model synchronization is deferred until its scheduled interval"
    else Ok (state, now).

Inductive ScheduledCall :=
| Loading
| Checked (state now : Z)
| Acting (last now : Z)
| Returned (r : CatgaResult unit)
| DroppedCall (acting : bool).

(** [sc_last_ok] is the reading at the start of the latest successful run, zero before. *)
Record Schedule := mkSchedule { sc_state : Z; sc_calls : list ScheduledCall; sc_last_ok : Z }.

Definition schedule_new : Schedule := mkSchedule 0 [] 0.

(** The empty page returns before the loop. *)
Definition scheduled_call (changes : list ChangeRecord) : ScheduledCall :=
  match changes with [] => Returned (Ok tt) | _ => Loading end.

Inductive sched_step (interval : Z) : Schedule -> Schedule -> Prop :=
| sc_call c changes : sched_step interval c (mkSchedule (sc_state c) (sc_calls c ++ [scheduled_call changes]) (sc_last_ok c))
| sc_load c i now : sc_calls c !! i = Some Loading -> 0 <= now < 2 ^ 63 ->
    sched_step interval c
      (mkSchedule (sc_state c)
        (<[i := match schedule_check interval (sc_state c) now with Ok (s, now) => Checked s now | Err e => Returned (Err e) end]>
           (sc_calls c)) (sc_last_ok c))
| sc_exchange c i state now : sc_calls c !! i = Some (Checked state now) -> sc_state c = state ->
    sched_step interval c
      (mkSchedule (Z.lor state BUSY) (<[i := Acting (Z.land state TIMESTAMP) now]> (sc_calls c)) (sc_last_ok c))
| sc_lost c i state now : sc_calls c !! i = Some (Checked state now) -> sc_state c <> state ->
    sched_step interval c (mkSchedule (sc_state c) (<[i := Loading]> (sc_calls c)) (sc_last_ok c))
| sc_end c i last now result : sc_calls c !! i = Some (Acting last now) ->
    sched_step interval c
      (mkSchedule (if is_ok result then now else last) (<[i := Returned result]> (sc_calls c))
        (if is_ok result then now else sc_last_ok c))
| sc_drop c i call : sc_calls c !! i = Some call -> (forall r, call <> Returned r) -> (forall b, call <> DroppedCall b) ->
    sched_step interval c
      (mkSchedule (sc_state c) (<[i := DroppedCall (match call with Acting _ _ => true | _ => false end)]> (sc_calls c)) (sc_last_ok c)).

(** Whether a call holds the busy bit, or held it when it was dropped *)
Definition holds (call : ScheduledCall) : Z := match call with Acting _ _ | DroppedCall true => 1 | _ => 0 end.

Definition in_time (interval last now : Z) : Prop := last = 0 \/ interval <= Z.max 0 (now - last).

Definition call_ok (interval last_ok : Z) (call : ScheduledCall) : Prop :=
  match call with
  | Checked state now => 0 <= state < 2 ^ 63 /\ 0 <= now < 2 ^ 63 /\ in_time interval state now
  | Acting last now => last = last_ok /\ 0 <= now < 2 ^ 63 /\ in_time interval last now
  | _ => True
  end.

Record sched_inv (interval : Z) (c : Schedule) : Prop := {
  si_range : 0 <= sc_last_ok c < 2 ^ 63;
  si_busy : sumZ holds (sc_calls c) = 0 /\ sc_state c = sc_last_ok c
            \/ sumZ holds (sc_calls c) = 1 /\ sc_state c = Z.lor (sc_last_ok c) BUSY;
  si_calls : Forall (call_ok interval (sc_last_ok c)) (sc_calls c)
}.

Lemma idle_word last : 0 <= last < 2 ^ 63 -> Z.land last BUSY = 0 /\ Z.land last TIMESTAMP = last.
Proof.
  intros Hl. assert (Z.land last TIMESTAMP = last) as Ht.
  { change TIMESTAMP with (Z.ones 63). rewrite Z.land_ones by lia. apply Z.mod_small. lia. }
  split; [| done]. rewrite <- Ht, <- Z.land_assoc. change (Z.land TIMESTAMP BUSY) with 0. apply Z.land_0_r.
Qed.

Lemma busy_word last : Z.land (Z.lor last BUSY) BUSY <> 0.
Proof.
  intros He. apply (f_equal (fun z => Z.testbit z 63)) in He. rewrite Z.land_spec, Z.lor_spec in He.
  change (Z.testbit BUSY 63) with true in He. rewrite orb_true_r in He. done.
Qed.

Lemma holds_nonneg call : 0 <= holds call.
Proof. destruct call as [| | | |[]]; simpl; lia. Qed.

(** A call that goes on without a change of the word *)
Lemma quiet_inv interval c i old new :
  sched_inv interval c -> sc_calls c !! i = Some old -> holds old = holds new -> call_ok interval (sc_last_ok c) new ->
  sched_inv interval (mkSchedule (sc_state c) (<[i := new]> (sc_calls c)) (sc_last_ok c)).
Proof.
  intros [H1 H2 H3] Hi Hh Hok. split; simpl; [done | | by apply Forall_insert].
  rewrite (sumZ_insert _ _ _ _ _ Hi). destruct H2 as [[H2 ?]|[H2 ?]]; [left | right]; (split; [lia | done]).
Qed.

Lemma check_ok interval state last now s now' :
  (state = last \/ state = Z.lor last BUSY) -> 0 <= last < 2 ^ 63 ->
  schedule_check interval state now = Ok (s, now') -> state = last /\ s = state /\ now' = now /\ in_time interval last now.
Proof.
  intros Hs Hl. unfold schedule_check. destruct (Z.eqb_spec (Z.land state BUSY) 0) as [Hz|]; [| done]. simpl.
  destruct Hs as [-> | ->]; [| by apply busy_word in Hz]. destruct (idle_word last Hl) as [_ ->].
  unfold in_time. destruct (Z.eqb_spec last 0); simpl; [intros [= <- <-]; auto |].
  destruct (Z.ltb_spec (Z.max 0 (now - last)) interval); [done | intros [= <- <-]; auto].
Qed.

Lemma exchange_inv interval c i state now :
  sched_inv interval c -> sc_calls c !! i = Some (Checked state now) -> sc_state c = state ->
  sched_inv interval (mkSchedule (Z.lor state BUSY) (<[i := Acting (Z.land state TIMESTAMP) now]> (sc_calls c)) (sc_last_ok c)).
Proof.
  intros [H1 H2 H3] Hi <-. destruct (Forall_lookup_1 _ _ _ _ H3 Hi) as (Hs & Hn & Ht). destruct (idle_word _ Hs) as [Hb Hm].
  destruct H2 as [[H2 He]|[_ He]]; [| rewrite He in Hb; by apply busy_word in Hb]. rewrite Hm, He in *. split; simpl; [done | right |].
  - rewrite (sumZ_insert _ _ _ _ _ Hi). simpl. split; [lia | done].
  - by apply Forall_insert.
Qed.

Lemma end_inv interval c i last now (result : CatgaResult unit) :
  sched_inv interval c -> sc_calls c !! i = Some (Acting last now) ->
  sched_inv interval (mkSchedule (if is_ok result then now else last) (<[i := Returned result]> (sc_calls c))
    (if is_ok result then now else sc_last_ok c)).
Proof.
  intros [H1 H2 H3] Hi. destruct (Forall_lookup_1 _ _ _ _ H3 Hi) as (-> & Hn & _).
  pose proof (sumZ_lookup_le holds holds_nonneg _ _ _ Hi) as Hle. simpl in Hle. destruct H2 as [[H2 _]|[H2 _]]; [lia |].
  split; simpl; [by destruct (is_ok result) | left; rewrite (sumZ_insert _ _ _ _ _ Hi), H2; by destruct (is_ok result) |].
  apply Forall_lookup. intros j call [(-> & <- & _)|[Hne Hj]]%list_lookup_insert_Some; [done |].
  pose proof (sumZ_lookup2_le holds holds_nonneg _ _ _ _ _ Hi Hj Hne) as H4. pose proof (Forall_lookup_1 _ _ _ _ H3 Hj) as Hok.
  destruct call; try done. simpl in H4. lia.
Qed.

Lemma sched_step_inv interval c c' : sched_step interval c c' -> sched_inv interval c -> sched_inv interval c'.
Proof.
  intros Hs Hi. destruct Hs as [c changes|c i now Hl Hn|c i state now Hl He|c i state now Hl He|c i last now r Hl|c i call Hl Hr Hd].
  - destruct Hi as [H1 H2 H3]. split; simpl; [done | | by apply Forall_app; split; [| apply Forall_singleton; destruct changes]].
    rewrite sumZ_app. assert (sumZ holds [scheduled_call changes] = 0) as -> by (by destruct changes). by rewrite Z.add_0_r.
  - pose proof Hi as [H1 H2 H3]. destruct (schedule_check interval (sc_state c) now) as [[s now']|e] eqn:Ec;
      (eapply quiet_inv; [done | exact Hl | done |]); [| done].
    apply (check_ok interval (sc_state c) (sc_last_ok c)) in Ec as (Ee & -> & -> & Ht); [| tauto | done]. simpl. by rewrite Ee.
  - by apply exchange_inv.
  - by eapply quiet_inv.
  - by apply end_inv.
  - eapply quiet_inv; [done | exact Hl | | done]. by destruct call as [| | |r|b]; [| | | destruct (Hr r) | destruct (Hd b)].
Qed.

Definition sched_reach (interval : Z) : Schedule -> Prop := rtc (sched_step interval) schedule_new.

Lemma sched_reach_inv interval c : sched_reach interval c -> sched_inv interval c.
Proof.
  intros Hr. apply (rtc_ind_r (sched_inv interval) _) with (3 := Hr); [| intros y z _ Hs Hi; by eapply sched_step_inv].
  split; simpl; [lia | by left | constructor].
Qed.

(** However many calls share the strategy: one action at most is at work, and it started no
    earlier than an interval after the start of the latest successful one. *)
Theorem scheduled_exclusive interval c :
  sched_reach interval c ->
  (forall i j l n l' n', sc_calls c !! i = Some (Acting l n) -> sc_calls c !! j = Some (Acting l' n') -> i = j)
  /\ (forall i last now, sc_calls c !! i = Some (Acting last now) ->
       last = sc_last_ok c /\ (last = 0 \/ interval <= Z.max 0 (now - last))).
Proof.
  intros Hr. destruct (sched_reach_inv interval c Hr) as [H1 H2 H3]. split.
  - intros i j l n l' n' Hi Hj. destruct (decide (i = j)) as [|Hne]; [done |].
    pose proof (sumZ_lookup2_le holds holds_nonneg _ _ _ _ _ Hi Hj Hne) as H4. simpl in H4. lia.
  - intros i last now Hi. by destruct (Forall_lookup_1 _ _ _ _ H3 Hi) as (-> & _ & ?).
Qed.

(** *** A dropped run *)

Lemma dropped_stays interval c c' i :
  rtc (sched_step interval) c c' -> sc_calls c !! i = Some (DroppedCall true) -> sc_calls c' !! i = Some (DroppedCall true).
Proof.
  intros Hr. induction Hr as [|c c1 c2 Hs _ IH]; [done |]. intros Hi. apply IH.
  destruct Hs as [c changes|c k now Hl Hn|c k state now Hl He|c k state now Hl He|c k last now r Hl|c k call Hl Hrt Hd]; simpl;
    [by apply lookup_app_l_Some | ..]; (rewrite list_lookup_insert_ne; [done |]); intros ->; rewrite Hi in Hl; simplify_eq.
  by destruct (Hd true).
Qed.

(** A call that is dropped while its action runs leaves the busy bit: from then on no call of the
    strategy acts, and every call that looks at the word is refused. *)
Theorem dropped_run_blocks interval c c' i :
  sched_reach interval c -> sc_calls c !! i = Some (DroppedCall true) -> rtc (sched_step interval) c c' ->
  (forall j l n, sc_calls c' !! j <> Some (Acting l n))
  /\ forall now, schedule_check interval (sc_state c') now = fail Transient "read-model synchronization is already running".
Proof.
  intros Hr Hi Hs. pose proof (dropped_stays interval c c' i Hs Hi) as Hi'.
  assert (sched_reach interval c') as Hr' by (unfold sched_reach in *; by etrans).
  destruct (sched_reach_inv interval c' Hr') as [H1 H2 H3].
  pose proof (sumZ_lookup_le holds holds_nonneg _ _ _ Hi') as Hle. simpl in Hle. destruct H2 as [[H2 _]|[H2 He]]; [lia |]. split.
  - intros j l n Hj. destruct (decide (i = j)) as [->|Hne]; [congruence |].
    pose proof (sumZ_lookup2_le holds holds_nonneg _ _ _ _ _ Hi' Hj Hne) as H4. simpl in H4. lia.
  - intros now. unfold schedule_check. rewrite He.
    destruct (Z.eqb_spec (Z.land (Z.lor (sc_last_ok c') BUSY) BUSY) 0) as [Hz|]; [by apply busy_word in Hz | done].
Qed.

(** ** Runs *)

Section runs.

Definition demo_change (id : string) (kind : ChangeKind) (number : Z) : ChangeRecord :=
  change_new id "order" "7" kind (mkEnvelope number "m" [] (MessageMetadata_new number None) None 1 None None) 0.

(** A read model that records what it was given *)
Definition demo_action (c : ChangeRecord) : Task (list ChangeRecord) (CatgaResult unit) :=
  atomically (fun u => (Ok tt, u ++ [c])).

Definition demo_applied (u : list ChangeRecord) (c : ChangeRecord) : Prop := c ∈ u.
Definition demo_step (u u' : list ChangeRecord) : Prop := u `prefix_of` u'.

#[local] Instance demo_user_laws : UserLaws demo_applied demo_step.
Proof.
  split; [unfold demo_step; split; [intros u; reflexivity | intros u1 u2 u3 ? ?; by etrans] |].
  intros u u' c [k ->] Hc. unfold demo_applied in *. apply elem_of_app. by left.
Qed.

Lemma demo_strategy_laws : StrategyLaws demo_applied demo_step (realtime_execute demo_action).
Proof.
  apply (realtime_laws demo_applied demo_step). intros c u. apply rg_atomically. intros u1 _. simpl. split_and!; [done | by eexists |].
  intros u2 Hs%(user_steps demo_applied demo_step) _. eapply (ul_applied demo_applied demo_step); [exact Hs |].
  apply elem_of_app. right. by apply list_elem_of_singleton.
Qed.

Definition demo_synchronizer (n : nat) : Synchronizer (list ChangeRecord) := synchronizer_new n (realtime_execute demo_action).

Definition demo_empty : SyncWorld (list ChangeRecord) := mkSyncWorld ∅ ∅ (1000 * NANOS_PER_MILLI) [] [].

Definition demo_track (c : ChangeRecord) (w : SyncWorld (list ChangeRecord)) : SyncWorld (list ChangeRecord) :=
  mkSyncWorld (track (sw_tracker w) c) (sw_last_sync w) (sw_clock w) (sw_user w) (sw_tracked w ++ [c]).

(** A change is tracked, a synchronizer takes it and applies it; then the change is replaced, and
    the synchronizer goes on to its end. *)
Definition demo_half :=
  foldl (move (fun n => sync (demo_synchronizer n))) (demo_track (demo_change "c" Created 1) demo_empty, [])
    [Start 0%nat; Poll 0 0; Poll 0 0].
Definition demo_end :=
  foldl (move (fun n => sync (demo_synchronizer n))) (demo_track (demo_change "c" Updated 2) (fst demo_half), snd demo_half)
    [Poll 0 0; Poll 0 0].

Lemma demo_run :
  rtc (pool_step (sync_surroundings demo_step) (fun n => sync (demo_synchronizer n))) (demo_empty, []) demo_end.
Proof.
  eapply rtc_l; [apply pool_env, (ss_track _ demo_empty (demo_change "c" Created 1)) |].
  etrans; [apply (moves_steps _ _ [Start 0%nat; Poll 0 0; Poll 0 0]) |].
  rewrite (surjective_pairing demo_half) at 1.
  eapply rtc_l; [eapply pool_env, (ss_track _ (fst demo_half) (demo_change "c" Updated 2)) |].
  apply (moves_steps _ _ [Poll 0 0; Poll 0 0]).
Qed.

(** A change that replaces a pending one of the same identifier while the page of the old one is
    being applied is removed with it: the synchronizer reports success, nothing is pending, and the
    replacement was never applied. *)
Example replaced_change_lost :
  rtc (pool_step (sync_surroundings demo_step) (fun n => sync (demo_synchronizer n))) (demo_empty, []) demo_end
  /\ demo_change "c" Updated 2 ∈ sw_tracked (fst demo_end)
  /\ sw_tracker (fst demo_end) = ∅
  /\ sw_user (fst demo_end) = [demo_change "c" Created 1]
  /\ snd <$> snd demo_end = [Finished (Ok tt)].
Proof. split; [apply demo_run |]. split; [| vm_compute; auto]. vm_compute. right. left. Qed.

(** A page has the order of the hash table, not that of the changes: the update of an order comes
    before its creation. *)
Example page_order_lost :
  pending_page (track (track ∅ (demo_change "b" Created 1)) (demo_change "a" Updated 2)) 256
  = Ok [demo_change "a" Updated 2; demo_change "b" Created 1].
Proof. vm_compute. reflexivity. Qed.

Lemma tracked_until_applied_witness :
  (forall c, c ∈ sw_tracked (fst demo_end) ->
     is_Some (sw_tracker (fst demo_end) !! ch_id c) \/ id_applied demo_applied (fst demo_end) (ch_id c))
  /\ length (sw_tracked (fst demo_end)) = 2%nat.
Proof.
  split; [| vm_compute; reflexivity].
  eapply (proj1 (tracked_until_applied demo_applied demo_step demo_synchronizer demo_empty (fst demo_end) (snd demo_end) _ _ _)).
  Unshelve.
  - intros n. apply demo_strategy_laws.
  - split; [done | intros c []%not_elem_of_nil].
  - rewrite <- surjective_pairing. apply demo_run.
Defined.

(** One call that runs, and one that comes while it does *)
Definition demo_schedule : Schedule := mkSchedule (Z.lor 0 BUSY) [Acting 0 500; Loading] 0.

Lemma demo_schedule_reach : sched_reach 100 demo_schedule.
Proof.
  eapply rtc_l; [apply (sc_call _ _ [demo_change "a" Created 1]) |].
  eapply rtc_l; [apply (sc_load _ _ 0 500); [done | lia] |].
  eapply rtc_l; [apply (sc_exchange _ _ 0 0 500); done |].
  eapply rtc_l; [apply (sc_call _ _ [demo_change "a" Created 1]) |]. apply rtc_refl.
Qed.

Lemma scheduled_exclusive_witness : 0 = sc_last_ok demo_schedule /\ (0 = 0 \/ 100 <= Z.max 0 (500 - 0)).
Proof. apply (proj2 (scheduled_exclusive 100 demo_schedule demo_schedule_reach) 0%nat 0 500). reflexivity. Defined.

Lemma dropped_run_blocks_witness :
  let c := mkSchedule (Z.lor 0 BUSY) [DroppedCall true; Loading] 0 in
  forall now, schedule_check 100 (sc_state c) now = fail Transient "read-model synchronization is already running".
Proof.
  intros c. refine (proj2 (dropped_run_blocks 100 c c 0 _ _ _)).
  - eapply rtc_r; [apply demo_schedule_reach |]. apply (sc_drop _ demo_schedule 0 (Acting 0 500)); [reflexivity | done | done].
  - reflexivity.
  - apply rtc_refl.
Defined.
End runs.
