(* ===== verification/Decimals.v ===== *)
(** * Numbers in text

    The digits of a [u64], as [to_string] and [format!] write them, and [str::parse].  The stores on
    JetStream use them for lease values and for record keys. *)

From S2P Require Import Prelude Ids.

(** The digits of a [u64], and [str::parse] for it *)
Definition display_u64 (v : Z) : list Z := digits_of (count_digits 20 v 1) v.

Fixpoint parse_digits (acc : Z) (bs : list Z) : option Z :=
  match bs with
  | [] => Some acc
  | b :: bs =>
    if (48 <=? b) && (b <=? 57) then
      match checked u64 (acc * 10 + (b - 48)) with Some acc => parse_digits acc bs | None => None end
    else None
  end.

Definition parse_u64 (bs : list Z) : option Z :=
  match bs with
  | [] => None
  | 43 :: [] => None
  | 43 :: rest => parse_digits 0 rest
  | _ => parse_digits 0 bs
  end.

Lemma display_u64_digits v :
  int_min u64 <= v <= int_max u64 ->
  Forall (fun b => 48 <= b <= 57) (display_u64 v) /\ decimal_value (display_u64 v) = v /\ display_u64 v <> [].
Proof.
  intros Hv. int_bounds. unfold display_u64.
  destruct (count_digits_spec 20 v 1) as (Hk & Hlt & _); [change (10 ^ Z.of_nat 21) with 1000000000000000000000; lia | lia |].
  set (k := count_digits 20 v 1) in *. replace (k - 1 + 1)%nat with k in Hlt by lia.
  destruct (digits_of_spec k v) as (Hlen & Hval & Hall); [lia |]. split_and!; [done | done |]. intros He. rewrite He in Hlen. simpl in Hlen. lia.
Qed.

Lemma parse_digits_value bs acc :
  Forall (fun b => 48 <= b <= 57) bs -> 0 <= acc ->
  foldl (fun a b => 10 * a + (b - 48)) acc bs <= int_max u64 ->
  parse_digits acc bs = Some (foldl (fun a b => 10 * a + (b - 48)) acc bs).
Proof.
  intros Hb. revert acc. induction Hb as [|b bs Hb Hbs IH]; intros acc Ha Hm; simpl in *; [done |].
  rewrite (proj2 (andb_true_iff _ _)) by lia.
  assert (forall a, 0 <= a -> a <= foldl (fun a b => 10 * a + (b - 48)) a bs) as Hmono.
  { clear - Hbs. induction Hbs as [|c cs Hc _ IHc]; intros a Ha; simpl; [lia |]. specialize (IHc (10 * a + (c - 48)) ltac:(lia)). lia. }
  specialize (Hmono (10 * acc + (b - 48)) ltac:(lia)). replace (acc * 10 + (b - 48)) with (10 * acc + (b - 48)) by lia.
  rewrite checked_fits by (split; [unfold int_min; simpl; lia | lia]). apply IH; [lia | done].
Qed.

Lemma parse_display v : int_min u64 <= v <= int_max u64 -> parse_u64 (display_u64 v) = Some v.
Proof.
  intros Hv. destruct (display_u64_digits v Hv) as (Hd & Hval & Hne). unfold decimal_value in Hval.
  assert (parse_digits 0 (display_u64 v) = Some v) as Hp by (rewrite parse_digits_value; [by rewrite Hval | done | done | rewrite Hval; lia]).
  unfold parse_u64. destruct (display_u64 v) as [|b bs]; [done |]. apply Forall_cons in Hd as [Hb _].
  destruct b as [|p|p]; try done. repeat (destruct p as [p|p|]; try done; try lia).
Qed.

Lemma display_u64_inj v v' :
  int_min u64 <= v <= int_max u64 -> int_min u64 <= v' <= int_max u64 -> display_u64 v = display_u64 v' -> v = v'.
Proof. intros Hv Hv' He. pose proof (parse_display v Hv) as H1. rewrite He, parse_display in H1 by done. by injection H1. Qed.
