(* ===== verification/Kv.v ===== *)
(** * The key-value buckets of JetStream, as the NATS stores use them
    ([catga-nats/src/kv.rs], [catga-nats/src/record.rs])

    A bucket is a stream of messages; the entry of a key is its latest message, and an update names
    the revision it replaces.  The service is an interface: its operations are tasks of an unknown
    implementation, and the class [KeyValueLaws] states what its documentation promises.  A write
    that reports an error other than a wrong revision may have been stored or not; when it is stored
    later, that is a step of the surroundings.  A read may be answered by a replica that lags behind:
    it shows the bucket as it was at some moment. *)

From S2P Require Import Prelude Errors Time Tasks.

Inductive Operation := Put | Delete | Purge.

#[global] Instance Operation_eq_dec : EqDecision Operation.
Proof. solve_decision. Defined.

Record Entry := mkEntry { e_key : string; e_revision : Z; e_operation : Operation; e_value : list Z; e_created : SystemTime }.

#[global] Instance Entry_eq_dec : EqDecision Entry.
Proof. solve_decision. Defined.

(** [kv::UpdateError], as [is_revision_conflict] tells it *)
Inductive UpdateError := WrongLastSequence | UpdateFailed (text : string).

(** The messages of the bucket in order, the clock, which the service and its clients share, and
    whatever else the service has.  [nw_tokens] lists, for each identifier that was drawn, the payload it was drawn for, which
    the code does not keep. *)
Record NatsWorld (A : Type) := mkNats {
  nw_stream : list Entry;
  nw_tokens : list (list Z);
  nw_clock : SystemTime;
  nw_service : A
}.
Arguments mkNats {A}. Arguments nw_stream {A}. Arguments nw_tokens {A}. Arguments nw_clock {A}. Arguments nw_service {A}.

(** The entry of a key, and the revision that an update has to name *)
Definition latest (key : string) (stream : list Entry) : option Entry := last (filter (fun e => e_key e = key) stream).

Definition revision_of (key : string) (stream : list Entry) : Z := default 0 (e_revision <$> latest key stream).

(** No value: never written, or deleted *)
Definition vacant (key : string) (stream : list Entry) : Prop :=
  match latest key stream with Some e => e_operation e <> Put | None => True end.

Class KeyValue (A : Type) := {
  kv_entry : string -> Task (NatsWorld A) (result string (option Entry));
  kv_update : string -> list Z -> Z -> Task (NatsWorld A) (result UpdateError Z);
  kv_create : string -> list Z -> Task (NatsWorld A) (result string Z);
  kv_delete_expect_revision : string -> option Z -> Task (NatsWorld A) (result string unit);
  kv_keys : Task (NatsWorld A) (result string (list (result string string)))
}.

Section laws.
Context {A : Type}.

Definition set_service (a : A) (w : NatsWorld A) : NatsWorld A := mkNats (nw_stream w) (nw_tokens w) (nw_clock w) a.

(** A message is stored behind the others. *)
Definition written (op : Operation) (key : string) (value : list Z) (w w' : NatsWorld A) : Prop :=
  exists r a, 0 < r /\ Forall (fun e => e_revision e < r) (nw_stream w)
    /\ w' = mkNats (nw_stream w ++ [mkEntry key r op value (nw_clock w)]) (nw_tokens w) (nw_clock w) a.

(** Changes inside the service *)
Definition quiet (R : relation (NatsWorld A)) : Prop := forall w a, R w (set_service a w).

Class KeyValueLaws `{!KeyValue A} : Prop := {
  kl_entry R key w : quiet R ->
    rg R R (fun x w' =>
      match x with
      | Some (Ok found) => exists w1 seen, rtc R w w1 /\ rtc R w1 w' /\ seen `prefix_of` nw_stream w1 /\ found = latest key seen
      | Some (Err _) => True
      | None => False
      end) (kv_entry key) w;
  kl_update R key value revision w : quiet R ->
    (forall w1 w2, rtc R w w1 -> revision_of key (nw_stream w1) = revision -> written Put key value w1 w2 -> R w1 w2) ->
    rg R R (fun x w' =>
      match x with
      | Some (Ok _) => exists w1 w2, rtc R w w1 /\ revision_of key (nw_stream w1) = revision
          /\ written Put key value w1 w2 /\ rtc R w2 w'
      | Some (Err WrongLastSequence) => exists w1, rtc R w w1 /\ rtc R w1 w' /\ revision_of key (nw_stream w1) <> revision
      | Some (Err _) => True
      | None => False
      end) (kv_update key value revision) w;
  kl_create R key value w : quiet R ->
    (forall w1 w2, rtc R w w1 -> vacant key (nw_stream w1) -> written Put key value w1 w2 -> R w1 w2) ->
    rg R R (fun x w' =>
      match x with
      | Some (Ok _) => exists w1 w2, rtc R w w1 /\ vacant key (nw_stream w1) /\ written Put key value w1 w2 /\ rtc R w2 w'
      | Some (Err _) => True
      | None => False
      end) (kv_create key value) w;
  kl_delete R key expected w : quiet R ->
    (forall w1 w2, rtc R w w1 -> (forall r, expected = Some r -> revision_of key (nw_stream w1) = r) ->
       written Delete key [] w1 w2 -> R w1 w2) ->
    rg R R (fun x w' =>
      match x with
      | Some (Ok _) => exists w1 w2, rtc R w w1 /\ (forall r, expected = Some r -> revision_of key (nw_stream w1) = r)
          /\ written Delete key [] w1 w2 /\ rtc R w2 w'
      | Some (Err _) => True
      | None => False
      end) (kv_delete_expect_revision key expected) w;
  kl_keys R w : quiet R -> rg R R (fun x _ => x <> None) kv_keys w
}.
End laws.
Arguments KeyValueLaws A {_}.

(** The [entry] that each store has: an error of the service is transient. *)
Definition entry_or_transient {A} `{!KeyValue A} (key : string) : Task (NatsWorld A) (CatgaResult (option Entry)) :=
  await found := kv_entry key in
  Done (match found with Ok entry => Ok entry | Err text => fail Transient text end).

Definition read_time {A} : Task (NatsWorld A) SystemTime := atomically (fun w => (nw_clock w, w)).

(** ** Record envelopes *)

Definition MAX_CAS_RETRIES : nat := 8.

Definition cas_error (component operation : string) : CatgaError :=
  CatgaError_new Transient ("NATS " +:+ component +:+ " " +:+ operation +:+ " compare-and-set did not stabilize").

Definition PREFIX : list Z := [67; 78; 82; 49].
Definition HEADER_BYTES : nat := length PREFIX + 16.

Record CreatedRecord := mkCreated { cr_token : list Z; cr_value : list Z }.
Record NatsRecord := mkRecord { nr_token : option (list Z); nr_payload : list Z }.

Definition encode_record (token payload : list Z) : list Z := PREFIX ++ token ++ payload.

Definition record_matches (c : CreatedRecord) (r : NatsRecord) : bool := bool_decide (nr_token r = Some (cr_token c)).

Definition with_payload (r : NatsRecord) (payload : list Z) : list Z :=
  match nr_token r with None => payload | Some token => encode_record token payload end.

Definition decode_record (value : list Z) : CatgaResult NatsRecord :=
  if negb (bool_decide (take (length PREFIX) value = PREFIX)) then Ok (mkRecord None value)
  else if (length value <? HEADER_BYTES)%nat then fail Internal "NATS record envelope is incomplete"
  else Ok (mkRecord (Some (take 16 (drop (length PREFIX) value))) (drop HEADER_BYTES value)).

(** [Uuid::new_v4] gives a new identifier of 16 bytes on every call. *)
Section create_record.
Context {A : Type} (uuid : nat -> list Z).

Definition create_record (payload : list Z) : Task (NatsWorld A) CreatedRecord :=
  atomically (fun w =>
    let token := uuid (length (nw_tokens w)) in
    (mkCreated token (encode_record token payload),
     mkNats (nw_stream w) (nw_tokens w ++ [payload]) (nw_clock w) (nw_service w))).
End create_record.

(** ** Lemmas *)

Lemma decode_encode_record token payload :
  length token = 16%nat -> decode_record (encode_record token payload) = Ok (mkRecord (Some token) payload).
Proof.
  intros Ht. unfold decode_record, encode_record. rewrite take_app_length, bool_decide_eq_true_2 by done. cbn [negb].
  rewrite !length_app, Ht. change HEADER_BYTES with (length PREFIX + 16)%nat.
  destruct (Nat.ltb_spec (length PREFIX + (16 + length payload)) (length PREFIX + 16)); [lia |].
  rewrite drop_app_length, <- Ht, take_app_length, <- drop_drop, drop_app_length, drop_app_length. done.
Qed.

Section streams.
Implicit Types l : list Entry.

(** Revisions are positive and grow. *)
Definition stream_ok l : Prop := StronglySorted (fun a b => e_revision a < e_revision b) l /\ Forall (fun e => 0 < e_revision e) l.

Lemma latest_in key l e : latest key l = Some e -> e ∈ l /\ e_key e = key.
Proof. unfold latest. intros He%last_Some_elem_of%list_elem_of_filter. naive_solver. Qed.

Lemma revision_inj l e e' : stream_ok l -> e ∈ l -> e' ∈ l -> e_revision e = e_revision e' -> e = e'.
Proof.
  intros [Hs _]. induction Hs as [|x l Hs IH Hf]; [by intros []%not_elem_of_nil |]. rewrite Forall_forall in Hf.
  rewrite !elem_of_cons. intros [->|He] [->|He'] Hr; [done | specialize (Hf _ He'); lia | specialize (Hf _ He); lia | by apply IH].
Qed.

Lemma stream_snoc l e :
  stream_ok l -> 0 < e_revision e -> Forall (fun x => e_revision x < e_revision e) l -> stream_ok (l ++ [e]).
Proof.
  intros [Hs Hp] He Hl. split; [| by apply Forall_app; split; [| apply Forall_singleton]].
  induction Hs as [|x l Hs IH Hf]; simpl; [repeat constructor |]. apply Forall_cons in Hp as [_ Hp]. apply Forall_cons in Hl as [Hx Hl].
  constructor; [by apply IH |]. apply Forall_app. split; [done | by apply Forall_singleton].
Qed.

Lemma latest_snoc key l e : latest key (l ++ [e]) = if decide (e_key e = key) then Some e else latest key l.
Proof. unfold latest. rewrite filter_app, filter_cons. case_decide; simpl; [apply last_snoc | by rewrite app_nil_r]. Qed.

(** The entry of a key is still the one that was seen when its revision is. *)
Lemma same_revision key l l' e :
  stream_ok l' -> l `prefix_of` l' -> latest key l = Some e -> revision_of key l' = e_revision e -> latest key l' = Some e.
Proof.
  intros Hok [k Hk] He Hr. destruct (latest_in _ _ _ He) as [Hin Hkey]. assert (e ∈ l') as Hin' by (subst; apply elem_of_app; by left).
  pose proof (proj2 Hok) as Hp. rewrite Forall_forall in Hp. specialize (Hp _ Hin'). unfold revision_of in Hr.
  destruct (latest key l') as [e'|] eqn:El; simpl in Hr; [| lia]. destruct (latest_in _ _ _ El) as [Hin2 _].
  f_equal. symmetry. by apply (revision_inj l').
Qed.

(** Revision zero means that the key was never written. *)
Lemma revision_zero key l : stream_ok l -> revision_of key l = 0 -> filter (fun e => e_key e = key) l = [].
Proof.
  intros [_ Hp] Hr. unfold revision_of in Hr. destruct (latest key l) as [e|] eqn:El; simpl in Hr.
  - destruct (latest_in _ _ _ El) as [Hin _]. rewrite Forall_forall in Hp. specialize (Hp _ Hin). lia.
  - by apply last_None in El.
Qed.
End streams.

(** ** The messages of a key *)

Section messages.
Context {A : Type}.
Implicit Types w : NatsWorld A.

Definition messages w (key : string) : list Entry := filter (fun e => e_key e = key) (nw_stream w).

(** [P] holds between each message of a key and the next one. *)
Definition linked (P : Entry -> Entry -> Prop) w : Prop :=
  forall key i a b, messages w key !! i = Some a -> messages w key !! S i = Some b -> P a b.

(** The message after [e], which is not one of the first [n] of the key *)
Definition replaced (n : nat) (op : Operation) (key : string) (e : Entry) (value : list Z) w : Prop :=
  exists i b, (n <= S i)%nat /\ messages w key !! i = Some e /\ messages w key !! S i = Some b /\ e_operation b = op /\ e_value b = value.

Lemma messages_later w w' key i e :
  nw_stream w `prefix_of` nw_stream w' -> messages w key !! i = Some e -> messages w' key !! i = Some e.
Proof. intros [k Hk] He. unfold messages in *. rewrite Hk, filter_app. by apply lookup_app_l_Some. Qed.

Lemma messages_grow w w' key :
  nw_stream w `prefix_of` nw_stream w' -> (length (messages w key) <= length (messages w' key))%nat.
Proof. intros [k Hk]. unfold messages. rewrite Hk, filter_app, length_app. lia. Qed.

Lemma replaced_later n op key e value w w' :
  nw_stream w `prefix_of` nw_stream w' -> replaced n op key e value w -> replaced n op key e value w'.
Proof. intros He (i & b & Hn & H1 & H2 & H3). exists i, b. split_and!; [done | by apply (messages_later w).. | apply H3 | apply H3]. Qed.

Lemma messages_written op key value w w' :
  written op key value w w' ->
  exists e, e_operation e = op /\ e_value e = value /\ e_created e = nw_clock w /\ forall k, messages w' k = if decide (key = k) then messages w k ++ [e] else messages w k.
Proof.
  intros (r & a & _ & _ & ->). exists (mkEntry key r op value (nw_clock w)). split_and!; try done. intros k. unfold messages. simpl.
  rewrite filter_app, filter_cons. simpl. case_decide; [done | by rewrite app_nil_r].
Qed.

Lemma written_grows op key value w w' : written op key value w w' -> nw_stream w `prefix_of` nw_stream w'.
Proof. intros (r & a & _ & _ & ->). simpl. by eexists. Qed.

Lemma written_ok op key value w w' : written op key value w w' -> stream_ok (nw_stream w) -> stream_ok (nw_stream w').
Proof. intros (r & a & Hr & Hall & ->) Hok. by apply stream_snoc. Qed.

Lemma linked_written P op key value w w' :
  written op key value w w' -> linked P w ->
  (forall a b, latest key (nw_stream w) = Some a -> e_operation b = op -> e_value b = value -> e_created b = nw_clock w -> P a b) -> linked P w'.
Proof.
  intros Hw Hl Hnew k i x y. destruct (messages_written _ _ _ _ _ Hw) as (e & Hop & Hv & Hc & Hh).
  rewrite Hh. case_decide as E; [subst k | apply Hl]. intros Hx Hy. apply lookup_app_Some in Hy as [Hy|[Hle Hy]].
  - rewrite lookup_app_l in Hx by (apply lookup_lt_Some in Hy; lia). by eapply (Hl key).
  - apply list_lookup_singleton_Some in Hy as [Hn <-]. rewrite lookup_app_l in Hx by lia. apply Hnew; [| done | done | done].
    unfold latest. rewrite last_lookup. fold (messages w key). by replace (pred _) with i by lia.
Qed.

Lemma replaced_written n op key e value w w' :
  (n <= length (messages w key))%nat -> latest key (nw_stream w) = Some e -> written op key value w w' -> replaced n op key e value w'.
Proof.
  intros Hn Hlat Hw. destruct (messages_written _ _ _ _ _ Hw) as (b & Hop & Hv & _ & Hh). change (last (messages w key) = Some e) in Hlat.
  rewrite last_lookup in Hlat. pose proof (lookup_lt_Some _ _ _ Hlat). exists (pred (length (messages w key))), b.
  rewrite Hh, decide_True by done. split_and!; [lia | by apply lookup_app_l_Some | | done | done].
  rewrite lookup_app_r by lia. by replace (_ - _)%nat with 0%nat by lia.
Qed.
End messages.

(** ** Reads *)

Section reads.
Context {A : Type} `{!KeyValue A} `{!KeyValueLaws A} (R : relation (NatsWorld A)) (key : string).
Hypothesis R_quiet : quiet R.
Hypothesis R_grows : forall w w', R w w' -> nw_stream w `prefix_of` nw_stream w'.

(** The key was seen like this, now or earlier. *)
Definition shown (found : option Entry) (w : NatsWorld A) : Prop :=
  exists seen, seen `prefix_of` nw_stream w /\ found = latest key seen.

Lemma shown_later found w w' : R w w' -> shown found w -> shown found w'.
Proof. intros Hr (seen & Hp & Hf). exists seen. split; [etrans; [done | by apply R_grows] | done]. Qed.

(** A conditional write on the entry that was seen replaces that entry. *)
Lemma shown_latest e w :
  stream_ok (nw_stream w) -> shown (Some e) w -> revision_of key (nw_stream w) = e_revision e -> latest key (nw_stream w) = Some e.
Proof. intros Hok (seen & Hpre & He) Hr. eapply same_revision; [done | exact Hpre | by symmetry | done]. Qed.

Lemma shown_in e w : shown (Some e) w -> e ∈ nw_stream w.
Proof. intros (seen & [k Hk] & He). symmetry in He. apply latest_in in He as [Hin _]. rewrite Hk. apply elem_of_app. by left. Qed.

Lemma grows_rtc w w' : rtc R w w' -> nw_stream w `prefix_of` nw_stream w'.
Proof. intros Hr. induction Hr; [done | etrans; [by apply R_grows | done]]. Qed.

Lemma entry_shown (P : NatsWorld A -> Prop) w :
  (forall w1 w2, R w1 w2 -> P w1 -> P w2) -> P w ->
  rg R R (fun x w' => P w' /\ match x with
    | Some (Ok found) => shown found w' | Some (Err _) => True | None => False end) (kv_entry key) w.
Proof.
  intros HP Hw. eapply rg_mono; [apply (rg_frame _ _ P); [done | done | done | by apply (kl_entry R)] |].
  intros [[found|e]|] w' [Hq Hp]; [| done | done]. split; [done |]. destruct Hq as (w1 & seen & _ & Hr & Hpre & ->).
  exists seen. split; [etrans; [done | by apply grows_rtc] | done].
Qed.

Lemma entry_or_transient_shown (P : NatsWorld A -> Prop) w :
  (forall w1 w2, R w1 w2 -> P w1 -> P w2) -> P w ->
  rg R R (fun x w' => P w' /\ match x with
    | Some (Ok found) => shown found w' | Some (Err _) => True | None => False end) (entry_or_transient key) w.
Proof.
  intros HP Hw. eapply rg_bind_stable; [by apply (entry_shown P) | | by intros w1 [_ []]].
  intros [found|text] w1 Hq w2 Hw2; specialize (Hq w2 Hw2) as [Hp Hs]; done.
Qed.

Lemma time_read (P : NatsWorld A -> Prop) w :
  (forall w1 w2, R w1 w2 -> P w1 -> P w2) -> P w ->
  rg R R (fun x w' => P w' /\ match x with
    | Some now => exists w1, P w1 /\ rtc R w1 w' /\ now = nw_clock w1 | None => False end) read_time w.
Proof.
  intros HP Hw. assert (forall w1 w2, rtc R w1 w2 -> P w1 -> P w2) as Hrtc by (intros w1 w2 Hr; induction Hr; eauto).
  apply rg_atomically. intros w1 Hw1. assert (R w1 w1) as Hrefl by (specialize (R_quiet w1 (nw_service w1)); by destruct w1).
  split_and!; [done | done |]. cbn [fst snd]. intros w2 Hw2. split; [eauto |]. exists w1. eauto.
Qed.

(** An identifier that was drawn *)
Lemma record_drawn (uuid : nat -> list Z) (P : NatsWorld A -> Prop) f w :
  (forall w1, R w1 (mkNats (nw_stream w1) (nw_tokens w1 ++ [f]) (nw_clock w1) (nw_service w1))) ->
  (forall w1 w2, R w1 w2 -> nw_tokens w1 `prefix_of` nw_tokens w2) ->
  (forall w1 w2, R w1 w2 -> P w1 -> P w2) -> P w ->
  rg R R (fun x w' => P w' /\ match x with
    | Some c => exists n, c = mkCreated (uuid n) (encode_record (uuid n) f) /\ nw_tokens w' !! n = Some f | None => False end)
    (create_record uuid f) w.
Proof.
  intros Hdraw Htok HP Hw. assert (forall w1 w2, rtc R w1 w2 -> P w1 -> P w2) as Hrtc by (intros w1 w2 Hr; induction Hr; eauto).
  assert (forall w1 w2, rtc R w1 w2 -> nw_tokens w1 `prefix_of` nw_tokens w2) as Hgrow.
  { intros w1 w2 Hr. induction Hr; [done | etrans; [by apply Htok | done]]. }
  apply rg_atomically. intros w1 Hw1. cbn [fst snd].
  assert (R w1 w1) as Hrefl by (specialize (R_quiet w1 (nw_service w1)); by destruct w1).
  split_and!; [done | apply Hdraw |]. intros w2 Hw2. split; [eapply Hrtc; [exact Hw2 |]; eapply HP; [apply Hdraw | by eapply Hrtc] |].
  exists (length (nw_tokens w1)). split; [done |]. eapply prefix_lookup_Some; [| by apply Hgrow]. simpl.
  by rewrite lookup_app_r, Nat.sub_diag by done.
Qed.
End reads.

(** ** A service

    A bucket on one server: the number that the surroundings choose for a poll says whether the
    request is lost (1), or stored and the answer lost (2). *)

Section single_server.

Abbreviation world := (NatsWorld unit).

Definition next_revision (l : list Entry) : Z := 1 + foldr (fun e r => Z.max (e_revision e) r) 0 l.

Definition store_message (op : Operation) (key : string) (value : list Z) (w : world) : world :=
  mkNats (nw_stream w ++ [mkEntry key (next_revision (nw_stream w)) op value (nw_clock w)]) (nw_tokens w) (nw_clock w) tt.

(** A conditional write, with the answers for a stored message, a refused one and a lost one *)
Definition conditional {B} (allowed : list Entry -> bool) (op : Operation) (key : string) (value : list Z)
    (stored : Z -> B) (refused lost : B) : Task world B :=
  Await id
    (fun c w => if negb (c =? 1)%nat && allowed (nw_stream w) then store_message op key value w else w)
    (fun c w => Done (match c with
                      | 1%nat | 2%nat => lost
                      | _ => if allowed (nw_stream w) then stored (next_revision (nw_stream w)) else refused
                      end)).

#[export] Instance single_server : KeyValue unit := {
  kv_entry key := atomically (fun w => (Ok (latest key (nw_stream w)), w));
  kv_update key value revision :=
    conditional (fun l => revision_of key l =? revision) Put key value Ok (Err WrongLastSequence) (Err (UpdateFailed "timed out"));
  kv_create key value :=
    conditional (fun l => match latest key l with Some e => negb (bool_decide (e_operation e = Put)) | None => true end) Put key value
      Ok (Err "key already exists"%string) (Err "timed out"%string);
  kv_delete_expect_revision key expected :=
    conditional (fun l => match expected with Some r => revision_of key l =? r | None => true end) Delete key []
      (fun _ => Ok tt) (Err "wrong last sequence"%string) (Err "timed out"%string);
  kv_keys := atomically (fun w => (Ok (Ok <$> remove_dups (e_key <$> nw_stream w)), w))
}.

Lemma next_revision_above l : Forall (fun e => e_revision e < next_revision l) l /\ 0 < next_revision l.
Proof.
  unfold next_revision. assert (forall e, e ∈ l -> e_revision e <= foldr (fun e r => Z.max (e_revision e) r) 0 l) as Hle.
  { induction l as [|x l IH]; simpl; [by intros e []%not_elem_of_nil |]. intros e [->|He]%elem_of_cons; [lia |]. specialize (IH e He). lia. }
  split; [apply Forall_forall; intros e He; specialize (Hle e He); lia |]. clear Hle.
  assert (0 <= foldr (fun e r => Z.max (e_revision e) r) 0 l); [| lia]. induction l; simpl; lia.
Qed.

Lemma store_written op key value w : written op key value w (store_message op key value w).
Proof. destruct (next_revision_above (nw_stream w)) as [Hf Hp]. by exists (next_revision (nw_stream w)), tt. Qed.

Lemma quiet_refl (R : relation world) w : quiet R -> R w w.
Proof. intros Hq. specialize (Hq w tt). destruct w as [? ? ? []]. exact Hq. Qed.

Lemma conditional_rg {B} (R : relation world) allowed op key value (stored : Z -> B) refused lost w :
  quiet R -> (forall w1 w2, rtc R w w1 -> allowed (nw_stream w1) = true -> written op key value w1 w2 -> R w1 w2) ->
  rg R R (fun x w' =>
    (exists r w1 w2, x = Some (stored r) /\ rtc R w w1 /\ allowed (nw_stream w1) = true /\ written op key value w1 w2 /\ rtc R w2 w')
    \/ (exists w1, x = Some refused /\ rtc R w w1 /\ allowed (nw_stream w1) = false /\ rtc R w1 w')
    \/ x = Some lost) (conditional allowed op key value stored refused lost) w.
Proof.
  intros Hq Hw w1 Hw1. split; [by apply quiet_refl |]. intros c.
  assert (R w1 (if negb (c =? 1)%nat && allowed (nw_stream w1) then store_message op key value w1 else w1)) as Hr.
  { destruct (negb (c =? 1)%nat && allowed (nw_stream w1)) eqn:E; [| by apply quiet_refl]. bool_prop. apply Hw; [done | done | apply store_written]. }
  split; [exact Hr |]. intros w2 Hw2.
  destruct c as [|[|[|c]]]; [| by right; right | by right; right |]; simpl in *; destruct (allowed (nw_stream w1)) eqn:E;
    [left | right; left | left | right; left].
  - exists (next_revision (nw_stream w1)), w1, (store_message op key value w1). split_and!; try done. apply store_written.
  - by exists w1.
  - exists (next_revision (nw_stream w1)), w1, (store_message op key value w1). split_and!; try done. apply store_written.
  - by exists w1.
Qed.

#[export] Instance single_server_laws : KeyValueLaws unit.
Proof.
  split.
  - intros R key w Hq. apply rg_atomically. intros w1 Hw1. split_and!; [by apply quiet_refl | by apply quiet_refl |].
    intros w2 Hw2. simpl. by exists w1, (nw_stream w1).
  - intros R key value revision w Hq Hw.
    eapply rg_mono; [apply (conditional_rg R); [exact Hq |] |].
    + intros w1 w2 Hr He%Z.eqb_eq. by apply Hw.
    + intros x w' [(r & w1 & w2 & -> & H1 & He%Z.eqb_eq & H2 & H3)|[(w1 & -> & H1 & He%Z.eqb_neq & H2)| -> ]]; [by exists w1, w2 | by exists w1 | done].
  - intros R key value w Hq Hw. assert (forall l, match latest key l with Some e => negb (bool_decide (e_operation e = Put)) | None => true end = true
      -> vacant key l) as Hv by (intros l; unfold vacant; destruct (latest key l); [by intros Hn; bool_prop | done]).
    eapply rg_mono; [apply (conditional_rg R); [exact Hq |] |].
    + intros w1 w2 Hr He. apply Hw; [done | by apply Hv].
    + intros x w' [(r & w1 & w2 & -> & H1 & He & H2 & H3)|[(w1 & -> & _)| -> ]]; [| done | done]. exists w1, w2. eauto.
  - intros R key expected w Hq Hw. assert (forall l, match expected with Some r => revision_of key l =? r | None => true end = true
      -> forall r, expected = Some r -> revision_of key l = r) as Hv by (intros l He r ->; by apply Z.eqb_eq).
    eapply rg_mono; [apply (conditional_rg R); [exact Hq |] |].
    + intros w1 w2 Hr He. apply Hw; [done | by apply Hv].
    + intros x w' [(r & w1 & w2 & -> & H1 & He & H2 & H3)|[(w1 & -> & _)| -> ]]; [| done | done]. exists w1, w2. eauto.
  - intros R w Hq. apply rg_atomically. intros w1 _. split_and!; [by apply quiet_refl | by apply quiet_refl | done].
Qed.
End single_server.
