(* ===== verification/NatsMachines.v ===== *)
(** * State-machine snapshots on JetStream ([catga-nats/src/state_machine.rs])

    The store writes each snapshot as the next message of its key and confirms a write whose answer
    was lost by reading the key again.  It keeps the contract [MachineStoreLaws] of the executor over
    any service with [KeyValueLaws], whatever answers are lost; but two equal writes of which one is
    lost are both reported as stored. *)

From S2P Require Import Prelude Utf8 Errors Time Messages Wire Codec DslProgress Tasks Mediator StateMachines Routing Kv.

Section store.
Context {A S : Type} `{!KeyValue A} (encode_state : S -> CatgaResult (list Z)) (decode_state : list Z -> CatgaResult S)
  (show : MemoryPackError -> string) (show_byte : Z -> string)
  (uuid : nat -> list Z) (hex : list Z -> string) (sha256 : list Z -> list Z).

Abbreviation world := (NatsWorld A).
Abbreviation snapshot := (StateMachineSnapshot S).
Abbreviation encode := (encode_state_machine_snapshot encode_state).
Abbreviation decode := (decode_state_machine_snapshot decode_state show show_byte).

Definition kv_key (instance_id : string) : string := "s" +:+ hex (sha256_digest sha256 (bytes_of_string instance_id)).

Definition machines_entry (key : string) : Task world (CatgaResult (option Entry)) := entry_or_transient key.

(** A write without an answer counts as stored when the key has its value. *)
Definition machines_compare_and_set (key : string) (next : list Z) (revision : Z) : Task world (CatgaResult bool) :=
  await answer := kv_update key next revision in
  match answer with
  | Ok _ => Done (Ok true)
  | Err WrongLastSequence => Done (Ok false)
  | Err (UpdateFailed text) =>
    await found := kv_entry key in
    Done (match found with
          | Ok (Some entry) =>
            if bool_decide (e_operation entry = Put) && bool_decide (e_value entry = next) then Ok true else fail Transient text
          | _ => fail Transient text
          end)
  end.

Definition nats_create (s : snapshot) : Task world (CatgaResult bool) :=
  let key := kv_key (sn_instance_id s) in
  match encode s with
  | Err e => Done (Err e)
  | Ok frame =>
    await record := create_record uuid frame in
    await answer := kv_update key (cr_value record) 0 in
    match answer with
    | Ok _ => Done (Ok true)
    | Err WrongLastSequence => Done (Ok false)
    | Err (UpdateFailed text) =>
      await found := kv_entry key in
      Done (match found with
            | Ok (Some entry) =>
              if bool_decide (e_operation entry = Put) then
                let? stored := decode_record (e_value entry) in
                if record_matches record stored then Ok true else fail Transient text
              else fail Transient text
            | _ => fail Transient text
            end)
    end
  end.

Definition nats_get (instance_id : string) : Task world (CatgaResult (option snapshot)) :=
  await? found := machines_entry (kv_key instance_id) in
  Done (match found with
        | None => Ok None
        | Some entry =>
          if bool_decide (e_operation entry = Put) then
            let? record := decode_record (e_value entry) in
            let? s := decode instance_id (nr_payload record) in
            Ok (Some s)
          else Ok None
        end).

(** The attempts of [update] that are left *)
Fixpoint nats_update_loop (attempts : nat) (key : string) (expected_version : Z) (next : snapshot) (next_value : list Z)
    : Task world (CatgaResult bool) :=
  match attempts with
  | O => Done (fail Transient "NATS state-machine compare-and-set did not stabilize")
  | Datatypes.S attempts =>
    await? found := machines_entry key in
    match found with
    | None => Done (Ok false)
    | Some entry =>
      if negb (bool_decide (e_operation entry = Put)) then Done (Ok false)
      else
        match decode_record (e_value entry) with
        | Err e => Done (Err e)
        | Ok record =>
          match decode (sn_instance_id next) (nr_payload record) with
          | Err e => Done (Err e)
          | Ok current =>
            if negb (sn_version current =? expected_version) then Done (Ok false)
            else
              await? stored := machines_compare_and_set key (with_payload record next_value) (e_revision entry) in
              if (stored : bool) then Done (Ok true) else nats_update_loop attempts key expected_version next next_value
          end
        end
    end
  end.

Definition nats_update (expected_version : Z) (next : snapshot) : Task world (CatgaResult bool) :=
  if negb (sm_is_next_version expected_version (sn_version next)) then Done (Ok false)
  else
    match encode next with
    | Err e => Done (Err e)
    | Ok next_value =>
      nats_update_loop MAX_CAS_RETRIES (kv_key (sn_instance_id next)) expected_version next next_value
    end.

#[export] Instance nats_machines : StateMachineStore (W := world) (S := S) := {
  sms_create := nats_create;
  sms_get := nats_get;
  sms_update := nats_update
}.
End store.

(** ** The contract *)

Lemma omap_total_lookup {X Y} (f : X -> option Y) l i :
  Forall (fun x => is_Some (f x)) l -> omap f l !! i = l !! i ≫= f.
Proof.
  intros Hf. revert i. induction Hf as [|x l [y Hy] _ IH]; intros i; [by destruct i |].
  simpl. rewrite Hy. destruct i as [|i]; simpl; [done | apply IH].
Qed.

Section properties.
Context {A S TypeId K : Type} `{Countable TypeId} `{Countable K} `{!KeyValue A} `{!KeyValueLaws A}.
Context (encode_state : S -> CatgaResult (list Z)) (decode_state : list Z -> CatgaResult S)
  (show : MemoryPackError -> string) (show_byte : Z -> string)
  (uuid : nat -> list Z) (hex : list Z -> string) (sha256 : list Z -> list Z).
Context (Ty : TypeId -> Type) `{!StateMachineState (S := S) (K := K)} (m : StateMachine (W := NatsWorld A) Ty (S := S) (K := K)).

(** A state is read back from its bytes; identifiers are 16 bytes long and differ; the digests of
    the instance names that occur differ. *)
Hypothesis codec_roundtrip : forall x b, encode_state x = Ok b -> decode_state b = Ok x.
Hypothesis uuid_length : forall n, length (uuid n) = 16%nat.
Hypothesis uuid_fresh : forall n n', uuid n = uuid n' -> n = n'.
Hypothesis key_separates : forall id id', kv_key hex sha256 id = kv_key hex sha256 id' -> id = id'.

Abbreviation world := (NatsWorld A).
Abbreviation snapshot := (StateMachineSnapshot S).
Abbreviation encode := (encode_state_machine_snapshot encode_state).
Abbreviation decode := (decode_state_machine_snapshot decode_state show show_byte).
Abbreviation key_of := (kv_key hex sha256).

Definition entries (w : world) (id : string) : list Entry := filter (fun e => e_key e = key_of id) (nw_stream w).

Definition decode_entry (id : string) (e : Entry) : option snapshot :=
  match decode_record (e_value e) with
  | Err _ => None
  | Ok r => match decode id (nr_payload r) with Ok s => Some s | Err _ => None end
  end.

Definition nats_history (w : world) (id : string) : list snapshot := omap (decode_entry id) (entries w id).

Definition storable (s : snapshot) : Prop :=
  sn_version s <= int_max i64 /\ sn_created_at s <= sn_updated_at s
  /\ system_time_ok (sn_created_at s) = true /\ system_time_ok (sn_updated_at s) = true.

(** An entry holds a snapshot of its instance, under an identifier that was drawn. *)
Definition holds (id : string) (i : nat) (n : nat) (e : Entry) (s : snapshot) : Prop :=
  e_operation e = Put /\ (exists f, e_value e = encode_record (uuid n) f /\ encode s = Ok f)
  /\ storable s /\ sn_instance_id s = id /\ sn_version s = Z.of_nat i.

Record nats_inv (w : world) : Prop := {
  ni_stream : stream_ok (nw_stream w);
  ni_clock : system_time_ok (nw_clock w) = true;
  ni_entry : forall id i e, entries w id !! i = Some e -> exists n s, holds id i n e s
    /\ exists e0 f0, entries w id !! 0%nat = Some e0 /\ e_value e0 = encode_record (uuid n) f0 /\ nw_tokens w !! n = Some f0;
  ni_linked : forall id i a b, nats_history w id !! i = Some a -> nats_history w id !! Datatypes.S i = Some b -> event_step Ty m a b
}.

Record nats_evolve (w w' : world) : Prop := {
  ne_inv : nats_inv w -> nats_inv w';
  ne_stream : nw_stream w `prefix_of` nw_stream w';
  ne_tokens : nw_tokens w `prefix_of` nw_tokens w'
}.

#[local] Instance nats_evolve_preorder : PreOrder nats_evolve.
Proof.
  split; [intros w; by split |]. intros w1 w2 w3 [H1 H2 H3] [H4 H5 H6]. split; [auto | by etrans | by etrans].
Qed.

Lemma nats_rtc w w' : rtc nats_evolve w w' -> nats_evolve w w'.
Proof. intros Hr. induction Hr; [reflexivity | by etrans]. Qed.

Lemma entries_prefix w w' id : nats_evolve w w' -> entries w id `prefix_of` entries w' id.
Proof. intros [_ [k Hk] _]. exists (filter (fun e => e_key e = key_of id) k). unfold entries. by rewrite Hk, filter_app. Qed.

Lemma history_prefix w w' id : nats_evolve w w' -> nats_history w id `prefix_of` nats_history w' id.
Proof.
  intros He. destruct (entries_prefix w w' id He) as [k Hk]. exists (omap (decode_entry id) k).
  unfold nats_history. by rewrite Hk, omap_app.
Qed.

Lemma holds_decodes id i n e s : holds id i n e s -> decode_entry id e = Some s.
Proof.
  intros (_ & (f & Hv & Hf) & (H1 & H2 & H3 & H4) & <- & _). unfold decode_entry. rewrite Hv, decode_encode_record by done. simpl.
  by rewrite (snapshot_frame_roundtrip encode_state decode_state show show_byte s f).
Qed.

(** Entries and history run in parallel. *)
Lemma history_lookup w id i : nats_inv w -> nats_history w id !! i = entries w id !! i ≫= decode_entry id.
Proof.
  intros Hi. apply omap_total_lookup, Forall_lookup. intros j e Hj.
  destruct (ni_entry _ Hi _ _ _ Hj) as (n & s & Hh & _). rewrite (holds_decodes _ _ _ _ _ Hh). by eexists.
Qed.

Lemma history_entry w id i s :
  nats_inv w -> nats_history w id !! i = Some s -> exists e n, entries w id !! i = Some e /\ holds id i n e s.
Proof.
  intros Hi. rewrite history_lookup by done. destruct (entries w id !! i) as [e|] eqn:Ee; [| done]. simpl. intros Hd.
  destruct (ni_entry _ Hi _ _ _ Ee) as (n & s' & Hh & _). exists e, n. split; [done |].
  rewrite (holds_decodes _ _ _ _ _ Hh) in Hd. by simplify_eq.
Qed.

Lemma holds_history w id i n e s : nats_inv w -> entries w id !! i = Some e -> holds id i n e s -> nats_history w id !! i = Some s.
Proof. intros Hi He Hh. rewrite history_lookup, He by done. simpl. by eapply holds_decodes. Qed.

Lemma history_length w id : nats_inv w -> length (nats_history w id) = length (entries w id).
Proof.
  intros Hi. apply Nat.le_antisymm; apply Nat.nlt_ge; intros Hl; apply lookup_lt_is_Some in Hl as [x Hx].
  - apply (history_entry _ _ _ _ Hi) in Hx as (e & n & He & _). apply lookup_lt_Some in He. lia.
  - destruct (ni_entry _ Hi _ _ _ Hx) as (n & s & Hh & _). apply (holds_history _ _ _ _ _ _ Hi Hx), lookup_lt_Some in Hh. lia.
Qed.

(** *** Writing the next snapshot *)

Lemma entries_written w w' id id' v :
  written Put (key_of id) v w w' ->
  exists e, e_operation e = Put /\ e_value e = v /\ nw_tokens w' = nw_tokens w /\ nw_clock w' = nw_clock w
    /\ entries w' id' = if decide (id = id') then entries w id' ++ [e] else entries w id'.
Proof.
  intros (r & a & _ & _ & ->). exists (mkEntry (key_of id) r Put v (nw_clock w)). split_and!; try done. unfold entries. simpl.
  rewrite filter_app, filter_cons. simpl. case_decide as E; case_decide as E'; subst; try done.
  - by apply key_separates in E.
  - by rewrite app_nil_r.
Qed.

Lemma snapshot_written w w' id n (s : snapshot) f :
  written Put (key_of id) (encode_record (uuid n) f) w w' ->
  (nats_inv w -> encode s = Ok f /\ storable s /\ sn_instance_id s = id /\ sn_version s = Z.of_nat (length (entries w id))
     /\ match last (nats_history w id) with
        | None => nw_tokens w !! n = Some f
        | Some prev => event_step Ty m prev s
            /\ exists e0 f0, entries w id !! 0%nat = Some e0 /\ e_value e0 = encode_record (uuid n) f0 /\ nw_tokens w !! n = Some f0
        end) ->
  nats_evolve w w'.
Proof.
  intros Hw Hs. split; [| destruct Hw as (r & a & _ & _ & ->); simpl; by eexists | destruct Hw as (r & a & _ & _ & ->); done].
  intros Hi. specialize (Hs Hi). destruct Hs as (Hf & Hst & Hid & Hv & Hlast).
  assert (forall id', exists e, e_operation e = Put /\ e_value e = encode_record (uuid n) f /\ nw_tokens w' = nw_tokens w
    /\ nw_clock w' = nw_clock w /\ entries w' id' = if decide (id = id') then entries w id' ++ [e] else entries w id') as Hent
    by (intros id'; by apply entries_written).
  assert (forall e, e_operation e = Put -> e_value e = encode_record (uuid n) f -> holds id (length (entries w id)) n e s) as Hnew
    by (intros e He Hve; split_and!; [done | by exists f | done | done | done]).
  split.
  - destruct Hw as (r & a & Hr & Hall & ->). by apply stream_snoc, Hall; [apply Hi |].
  - destruct (Hent id) as (e & _ & _ & _ & -> & _). apply Hi.
  - intros id' i e Hl. destruct (Hent id') as (e1 & Hp & Hve & Ht & _ & He'). rewrite Ht. rewrite He' in *. case_decide as E; [subst id' |].
    2: { by apply (ni_entry _ Hi). }
    apply lookup_app_Some in Hl as [Hl|[Hle Hl]].
    + destruct (ni_entry _ Hi _ _ _ Hl) as (n' & s' & Hh & e0 & f0 & Hfst & Hv0 & Ht0). exists n', s'. split; [done |]. exists e0, f0.
      split_and!; [by apply lookup_app_l_Some | done | done].
    + apply list_lookup_singleton_Some in Hl as [Hi0 <-]. replace i with (length (entries w id)) by lia. exists n, s. split; [by apply Hnew |].
      destruct (last (nats_history w id)) as [prev|] eqn:El.
      * destruct Hlast as (_ & e0 & f0 & Hfst & Hv0 & Ht0). exists e0, f0. split_and!; [by apply lookup_app_l_Some | done | done].
      * apply last_None in El. pose proof (history_length w id Hi) as Hlen. rewrite El in Hlen. destruct (entries w id) eqn:Een; [| done].
        by exists e1, f.
  - intros id' i x y. destruct (Hent id') as (e1 & Hp & Hve & _ & _ & He').
    assert (nats_history w' id' = if decide (id = id') then nats_history w id' ++ [s] else nats_history w id') as Hh.
    { unfold nats_history. rewrite He'. case_decide as E; [subst id' | done]. rewrite omap_app. simpl.
      by rewrite (holds_decodes _ _ _ _ _ (Hnew e1 Hp Hve)). }
    rewrite Hh. case_decide as E; [subst id' | by apply (ni_linked _ Hi)]. intros Hx Hy. apply lookup_app_Some in Hy as [Hy|[Hle Hy]].
    + rewrite lookup_app_l in Hx by (apply lookup_lt_Some in Hy; lia). by eapply (ni_linked _ Hi).
    + apply list_lookup_singleton_Some in Hy as [Hi0 <-]. rewrite lookup_app_l in Hx by lia.
      rewrite last_lookup in Hlast. replace (pred _) with i in Hlast by lia. rewrite Hx in Hlast. apply Hlast.
Qed.

(** *** Reading *)

Lemma nats_quiet : quiet nats_evolve.
Proof. intros w a. split; [| done | done]. intros [H1 H2 H3 H4]. by split. Qed.

(** What a read shows *)
Abbreviation shows id := (shown (A := A) (key_of id)).

Lemma shows_later id found w w' : nats_evolve w w' -> shows id found w -> shows id found w'.
Proof. apply (shown_later nats_evolve). apply ne_stream. Qed.

Lemma entry_rg (P : world -> Prop) id w :
  (forall w1 w2, nats_evolve w1 w2 -> P w1 -> P w2) -> P w ->
  rg nats_evolve nats_evolve (fun x w' => P w' /\ match x with
    | Some (Ok found) => shows id found w' | Some (Err _) => True | None => False end) (kv_entry (key_of id)) w.
Proof. apply (entry_shown nats_evolve); [apply nats_quiet | apply ne_stream]. Qed.

Lemma shows_entry id e w :
  nats_inv w -> shows id (Some e) w -> exists i n s, entries w id !! i = Some e /\ holds id i n e s.
Proof.
  intros Hi (seen & [k Hk] & He). symmetry in He. apply latest_in in He as [Hin Hkey].
  assert (e ∈ entries w id) as Hine by (apply list_elem_of_filter; rewrite Hk; split; [done | apply elem_of_app; by left]).
  apply list_elem_of_lookup_1 in Hine as [i Hl]. destruct (ni_entry _ Hi _ _ _ Hl) as (n & s & Hh & _). by exists i, n, s.
Qed.

Lemma machines_entry_rg (P : world -> Prop) id w :
  (forall w1 w2, nats_evolve w1 w2 -> P w1 -> P w2) -> P w ->
  rg nats_evolve nats_evolve (fun x w' => P w' /\ match x with
    | Some (Ok found) => shows id found w' | Some (Err _) => True | None => False end) (machines_entry (key_of id)) w.
Proof. apply (entry_or_transient_shown nats_evolve); [apply nats_quiet | apply ne_stream]. Qed.

Lemma inv_stable w w' : nats_evolve w w' -> nats_inv w -> nats_inv w'.
Proof. intros He. apply He. Qed.

Lemma nats_get_rg id w :
  nats_inv w ->
  rg nats_evolve nats_evolve (fun x w1 => nats_inv w1 /\ forall s, x = Some (Ok (Some s)) -> s ∈ nats_history w1 id)
    (nats_get decode_state show show_byte hex sha256 id) w.
Proof.
  intros Hi. eapply rg_bind_stable; [by apply (machines_entry_rg nats_inv); [apply inv_stable |] | | by intros w1 [_ []]].
  intros [found|e] w1 Hq w2 Hw2; specialize (Hq w2 Hw2) as [Hi2 Hs]; (split; [done |]); intros s E; [| done].
  destruct found as [e|]; [| done]. destruct (shows_entry _ _ _ Hi2 Hs) as (i & n & s' & Hl & Hh).
  pose proof (holds_history _ _ _ _ _ _ Hi2 Hl Hh) as Hhist. pose proof (holds_decodes _ _ _ _ _ Hh) as Hd. destruct Hh as [Hp _].
  rewrite bool_decide_eq_true_2 in E by done. unfold decode_entry in Hd.
  destruct (decode_record (e_value e)) as [r|]; simpl in *; [| done]. destruct (decode id (nr_payload r)); simpl in *; [| done].
  simplify_eq. by eapply list_elem_of_lookup_2.
Qed.

(** *** Creating *)

Lemma draw_rg (P : world -> Prop) f w :
  (forall w1 w2, nats_evolve w1 w2 -> P w1 -> P w2) -> P w ->
  rg nats_evolve nats_evolve (fun x w' => P w' /\ match x with
    | Some c => exists n, c = mkCreated (uuid n) (encode_record (uuid n) f) /\ nw_tokens w' !! n = Some f | None => False end)
    (create_record uuid f) w.
Proof.
  intros HP Hw. apply (record_drawn nats_evolve); [apply nats_quiet | | apply ne_tokens | done | done].
  intros w1. split; [| done | by eexists]. intros [I1 I2 I3 I4]. split; [done | done | | done]. intros id i e Hl.
  destruct (I3 _ _ _ Hl) as (n & s & Hh & e0 & f0 & Hfst & Hv0 & Ht0). exists n, s. split; [done |]. exists e0, f0.
  split_and!; [done | done | by apply lookup_app_l_Some].
Qed.

Lemma uuid_inj_record n f n' f' : encode_record (uuid n) f = encode_record (uuid n') f' -> n = n' /\ f = f'.
Proof.
  unfold encode_record. intros He%app_inv_head. apply app_inj_1 in He as [Hn ->]; [| by rewrite !uuid_length].
  split; [by apply uuid_fresh | done].
Qed.

(** The snapshot of a message is determined by its payload. *)
Lemma payload_snapshot w id i e n f (s : snapshot) :
  nats_inv w -> entries w id !! i = Some e -> e_value e = encode_record (uuid n) f ->
  encode s = Ok f -> storable s -> sn_instance_id s = id ->
  nats_history w id !! i = Some s /\ sn_version s = Z.of_nat i
  /\ exists e0 f0, entries w id !! 0%nat = Some e0 /\ e_value e0 = encode_record (uuid n) f0 /\ nw_tokens w !! n = Some f0.
Proof.
  intros Hi Hl Hv Hf Hst Hid. destruct (ni_entry _ Hi _ _ _ Hl) as (n' & s' & Hh & Hfirst). pose proof Hh as (Hp & (f' & Hv' & Hf') & Hst' & Hid' & Hver).
  rewrite Hv in Hv'. apply uuid_inj_record in Hv' as [<- <-].
  assert (decode id f = Ok s /\ decode id f = Ok s') as [Hd Hd'].
  { destruct Hst as (? & ? & ? & ?), Hst' as (? & ? & ? & ?). rewrite <- Hid at 1. rewrite <- Hid'.
    split; by apply (snapshot_frame_roundtrip encode_state). }
  assert (s' = s) as -> by congruence. split_and!; [by eapply holds_history | done | done].
Qed.

(** The message of a write has its snapshot. *)
Lemma written_history w w' id n (s : snapshot) f :
  nats_inv w' -> written Put (key_of id) (encode_record (uuid n) f) w w' -> encode s = Ok f -> storable s -> sn_instance_id s = id ->
  nats_history w' id !! length (entries w id) = Some s.
Proof.
  intros Hi Hw Hf Hst Hid. destruct (entries_written w w' id id _ Hw) as (e & Hp & Hv & _ & _ & He). rewrite decide_True in He by done.
  eapply (payload_snapshot w' id); [done | | done | done | done | done]. rewrite He. by rewrite lookup_app_r, Nat.sub_diag by done.
Qed.

Lemma nats_create_rg (s : snapshot) w :
  nats_inv w -> sn_version s = 0 -> storable s ->
  rg nats_evolve nats_evolve (fun x w1 => nats_inv w1 /\ (x = Some (Ok true) -> nats_history w1 (sn_instance_id s) !! 0%nat = Some s))
    (nats_create encode_state uuid hex sha256 s) w.
Proof.
  intros Hi Hver Hst. unfold nats_create. destruct (encode s) as [f|e] eqn:Ef.
  2: { intros w1 Hw1%nats_rtc. split; [by apply Hw1 | done]. }
  set (id := sn_instance_id s). eapply rg_bind_stable; [by apply (draw_rg nats_inv f); [apply inv_stable |] | | by intros w1 [_ []]].
  intros c w1 Hq. destruct (Hq w1 (rtc_refl _ _)) as [Hi1 (n & -> & Ht1)]. clear Hq. cbn [cr_value].
  set (P := fun w2 => nats_inv w2 /\ nw_tokens w2 !! n = Some f).
  assert (forall w2 w3, nats_evolve w2 w3 -> P w2 -> P w3) as HP.
  { intros w2 w3 He [H2 H3]. split; [by apply He | eapply prefix_lookup_Some; [exact H3 | apply He]]. }
  assert (forall w2 w3, rtc nats_evolve w1 w2 -> revision_of (key_of id) (nw_stream w2) = 0 ->
    written Put (key_of id) (encode_record (uuid n) f) w2 w3 -> nats_evolve w2 w3 /\ entries w2 id = []) as Hcommit.
  { intros w2 w3 Hr%nats_rtc Hz Hw. pose proof (HP _ _ Hr (conj Hi1 Ht1)) as [Hi2 Ht2].
    assert (entries w2 id = []) as He by (apply revision_zero; [apply Hi2 | done]). split; [| done].
    eapply snapshot_written; [exact Hw |]. intros _. split_and!; [done | done | done | by rewrite He |].
    pose proof (history_length w2 id Hi2) as Hlen. rewrite He in Hlen. destruct (nats_history w2 id); [exact Ht2 | done]. }
  eapply rg_bind_stable; [apply (rg_frame _ _ P); [done | done | done |] | | intros w2 [_ [? _]]; by split].
  { apply (kl_update nats_evolve); [apply nats_quiet |]. intros w2 w3 Hr Hz Hw. by apply Hcommit. }
  intros [r|[|text]] w2 Hq.
  - intros w3 Hw3. destruct (Hq w3 Hw3) as [(wa & wb & Ha & Hz & Hw & Hb%nats_rtc) [Hi3 _]]. split; [done |]. intros _.
    destruct (Hcommit wa wb Ha Hz Hw) as [He Hnil]. assert (nats_inv wa) as Hia by (by apply (nats_rtc _ _ Ha)).
    eapply prefix_lookup_Some; [| by apply history_prefix].
    pose proof (written_history wa wb id n s f ltac:(by apply He) Hw Ef Hst eq_refl) as Hh. by rewrite Hnil in Hh.
  - intros w3 Hw3. destruct (Hq w3 Hw3) as [_ [Hi3 _]]. done.
  - destruct (Hq w2 (rtc_refl _ _)) as [_ HP2]. clear Hq. eapply rg_bind_stable; [by apply (entry_rg P id) | | by intros w3 [_ []]].
    intros [found|e] w3 Hq w4 Hw4; destruct (Hq w4 Hw4) as [[Hi4 Ht4] Hs]; (split; [done |]); [| done].
    destruct found as [e|]; [| done]. destruct (shows_entry _ _ _ Hi4 Hs) as (i & n' & s' & Hl & Hh).
    destruct Hh as (Hp & (f' & Hv & Hf') & Hst' & Hid' & _). rewrite bool_decide_eq_true_2 by done.
    rewrite Hv, decode_encode_record by done. simpl. unfold record_matches. simpl. case_bool_decide as Hm; [| done]. intros _.
    injection Hm as Hm%uuid_fresh. subst n'.
    destruct (payload_snapshot w4 id i e n f' s' Hi4 Hl Hv Hf' Hst' Hid') as (_ & _ & e0 & f0 & Hfst & Hv0 & Ht0).
    rewrite Ht4 in Ht0. injection Ht0 as <-. by apply (payload_snapshot w4 id 0 e0 n f s Hi4 Hfst Hv0 Ef Hst eq_refl).
Qed.

(** *** Updating *)

Section update.
Context (prev next : snapshot) (f : list Z).
Hypothesis Hstep : event_step Ty m prev next.
Hypothesis Hnext : storable next.
Hypothesis Hframe : encode next = Ok f.

Abbreviation instance := (sn_instance_id prev).

Definition known (w : world) : Prop := nats_inv w /\ prev ∈ nats_history w instance.

Definition follows (w : world) : Prop :=
  exists i, nats_history w instance !! i = Some prev /\ nats_history w instance !! Datatypes.S i = Some next.

Lemma known_stable w w' : nats_evolve w w' -> known w -> known w'.
Proof.
  intros He [Hi [i Hp]%list_elem_of_lookup_1]. split; [by apply He |].
  eapply list_elem_of_lookup_2, prefix_lookup_Some; [exact Hp | by apply history_prefix].
Qed.

Lemma known_index w i s :
  known w -> nats_history w instance !! i = Some s -> sn_version s = sn_version prev -> s = prev.
Proof.
  intros [Hi [j Hp]%list_elem_of_lookup_1] Hs Hv.
  destruct (history_entry _ _ _ _ Hi Hp) as (e & n & _ & _ & _ & _ & _ & Hvp).
  destruct (history_entry _ _ _ _ Hi Hs) as (e' & n' & _ & _ & _ & _ & _ & Hvs). assert (i = j) as -> by lia. congruence.
Qed.

(** A message with the next snapshot follows the previous one. *)
Lemma message_follows w i e n :
  known w -> entries w instance !! i = Some e -> e_value e = encode_record (uuid n) f -> follows w.
Proof.
  intros Hk Hl Hv. destruct Hk as [Hi Hin]. pose proof Hstep as (Hid & Hver & _).
  destruct (payload_snapshot w instance i e n f next Hi Hl Hv Hframe Hnext Hid) as (Hh & Hvn & _).
  pose proof Hin as [j Hp]%list_elem_of_lookup_1. destruct (history_entry _ _ _ _ Hi Hp) as (e' & n' & _ & _ & _ & _ & _ & Hvp).
  exists j. split; [done |]. replace (Datatypes.S j) with i by lia. done.
Qed.

(** The entry that an attempt has seen, with its snapshot and identifier *)
Definition at_prev (e : Entry) (n : nat) (w : world) : Prop :=
  known w /\ shows instance (Some e) w /\ exists i, entries w instance !! i = Some e /\ holds instance i n e prev.

Lemma at_prev_stable e n w w' : nats_evolve w w' -> at_prev e n w -> at_prev e n w'.
Proof.
  intros He (Hk & Hs & i & Hl & Hh). split_and!; [by eapply known_stable | by eapply shows_later | exists i].
  split; [| done]. eapply prefix_lookup_Some; [exact Hl | by apply entries_prefix].
Qed.

Lemma commit_evolves e n w w' :
  at_prev e n w -> revision_of (key_of instance) (nw_stream w) = e_revision e ->
  written Put (key_of instance) (encode_record (uuid n) f) w w' -> nats_evolve w w'.
Proof.
  intros (Hk & (seen & Hpre & He) & i & Hl & Hh) Hr Hw. eapply snapshot_written; [exact Hw |]. intros Hi. pose proof Hstep as (Hid & Hver & Hev).
  assert (latest (key_of instance) (nw_stream w) = Some e) as Hlat by (eapply same_revision; [apply Hi | exact Hpre | by symmetry | done]).
  change (last (entries w instance) = Some e) in Hlat. rewrite last_lookup in Hlat.
  pose proof Hh as (_ & (f1 & Hv1 & Hf1) & Hst1 & _ & Hvi).
  destruct (payload_snapshot w instance _ e n f1 prev Hi Hlat Hv1 Hf1 Hst1 eq_refl) as (Hhist & Hvl & Hfirst).
  pose proof (lookup_lt_Some _ _ _ Hlat) as Hlt. pose proof (history_length w instance Hi) as Hlen.
  split_and!; [done | done | done | lia |].
  rewrite last_lookup, Hlen. rewrite Hhist. done.
Qed.

Lemma cas_rg e n w :
  at_prev e n w ->
  rg nats_evolve nats_evolve (fun x w1 => known w1 /\ (x = Some (Ok true) -> follows w1))
    (machines_compare_and_set (key_of instance) (encode_record (uuid n) f) (e_revision e)) w.
Proof.
  intros Hat. eapply rg_bind_stable; [apply (rg_frame _ _ (at_prev e n)); [apply at_prev_stable | apply at_prev_stable | done |] | | intros w1 [_ [? _]]; by split].
  { apply (kl_update nats_evolve); [apply nats_quiet |]. intros w1 w2 Hr%nats_rtc Hz Hw. eapply commit_evolves; [by eapply at_prev_stable | done | done]. }
  intros [r|[|text]] w1 Hq.
  - intros w2 Hw2. destruct (Hq w2 Hw2) as [(wa & wb & Ha%nats_rtc & Hz & Hw & Hb%nats_rtc) [Hk _]]. split; [done |]. intros _.
    pose proof (commit_evolves e n wa wb ltac:(by eapply at_prev_stable) Hz Hw) as He.
    destruct (entries_written wa wb instance instance _ Hw) as (e1 & _ & Hv1 & _ & _ & Hent). rewrite decide_True in Hent by done.
    apply (message_follows w2 (length (entries wa instance)) e1 n Hk); [| done].
    eapply prefix_lookup_Some; [| by apply entries_prefix]. rewrite Hent. by rewrite lookup_app_r, Nat.sub_diag by done.
  - intros w2 Hw2. destruct (Hq w2 Hw2) as [_ [Hk _]]. done.
  - destruct (Hq w1 (rtc_refl _ _)) as [_ [Hk _]]. eapply rg_bind_stable; [by apply (entry_rg known instance); [apply known_stable |] | | by intros w2 [_ []]].
    intros [found|e1] w2 Hq2 w3 Hw3; destruct (Hq2 w3 Hw3) as [Hk3 Hs]; (split; [done |]); [| done].
    destruct found as [e1|]; [| done]. destruct (shows_entry _ _ _ (proj1 Hk3) Hs) as (i & n1 & s1 & Hl & _).
    destruct (bool_decide (e_operation e1 = Put)); simpl; [| done]. case_bool_decide as Hv; [| done]. intros _.
    by apply (message_follows w3 i e1 n Hk3).
Qed.

Lemma nats_update_loop_rg attempts w :
  known w ->
  rg nats_evolve nats_evolve (fun x w1 => nats_inv w1 /\ (x = Some (Ok true) -> follows w1))
    (nats_update_loop decode_state show show_byte attempts (key_of instance) (sn_version prev) next f) w.
Proof.
  assert (forall (x : CatgaResult bool) w, known w -> x <> Ok true ->
    rg nats_evolve nats_evolve (fun x w1 => nats_inv w1 /\ (x = Some (Ok true) -> follows w1)) (Done x) w) as Hno.
  { intros x w1 [Hi1 _] Hx w2 Hw2%nats_rtc. split; [by apply Hw2 |]. by intros [= E]. }
  revert w. induction attempts as [|attempts IH]; intros w Hk; [by apply Hno |]. cbn [nats_update_loop].
  eapply rg_bind_stable; [by apply (machines_entry_rg known instance); [apply known_stable |] | | by intros w1 [_ []]].
  intros [[e|]|e] w1 Hq; destruct (Hq w1 (rtc_refl _ _)) as [Hk1 Hs]; [| by apply Hno | by apply Hno].
  destruct (shows_entry _ _ _ (proj1 Hk1) Hs) as (i & n & cur & Hl & Hh). pose proof Hh as (Hp & (f1 & Hv1 & Hf1) & Hst1 & Hid1 & Hvi).
  rewrite bool_decide_eq_true_2 by done. cbn [negb]. pose proof (holds_decodes _ _ _ _ _ Hh) as Hd. unfold decode_entry in Hd.
  rewrite Hv1, decode_encode_record in * by done. cbn [nr_payload] in *. pose proof Hstep as (Hid & _). rewrite Hid.
  destruct (decode instance f1) as [s1|]; [| by apply Hno]. injection Hd as ->.
  destruct (Z.eqb_spec (sn_version cur) (sn_version prev)) as [Hver|]; [| by apply Hno]. cbn [negb].
  assert (cur = prev) as -> by (by eapply known_index; [| by eapply holds_history; [apply Hk1 | |] |]).
  eapply rg_bind_stable; [apply cas_rg; split_and!; [done | done | by exists i] | | intros w2 [[Hi2 _] _]; done].
  intros [[|]|e2] w2 Hq2; destruct (Hq2 w2 (rtc_refl _ _)) as [Hk2 Hf2]; [| by apply IH | by apply Hno].
  intros w3 Hw3. destruct (Hq2 w3 Hw3) as [[Hi3 _] Hf3]. split; [done |]. intros _. by apply Hf3.
Qed.
End update.

Lemma nats_update_rg prev next w :
  nats_inv w -> prev ∈ nats_history w (sn_instance_id prev) -> event_step Ty m prev next -> storable next ->
  rg nats_evolve nats_evolve (fun x w1 => nats_inv w1 /\ (x = Some (Ok true) -> follows prev next w1))
    (nats_update encode_state decode_state show show_byte hex sha256 (sn_version prev) next) w.
Proof.
  intros Hi Hp Hs Hst. unfold nats_update. assert (forall x : CatgaResult bool, x <> Ok true -> rg nats_evolve nats_evolve
    (fun x w1 => nats_inv w1 /\ (x = Some (Ok true) -> follows prev next w1)) (Done x) w) as Hno.
  { intros x Hx w1 Hw1%nats_rtc. split; [by apply Hw1 |]. by intros [= E]. }
  destruct (sm_is_next_version _ _); cbn [negb]; [| by apply Hno]. destruct (encode next) as [f|e] eqn:Ef; [| by apply Hno].
  pose proof Hs as (Hid & _). rewrite Hid. by apply nats_update_loop_rg.
Qed.

#[local] Instance nats_store : StateMachineStore (W := world) (S := S) :=
  nats_machines encode_state decode_state show show_byte uuid hex sha256.

(** The NATS store keeps the contract of the executor. *)
#[export] Instance nats_machine_laws : MachineStoreLaws Ty nw_clock m nats_inv nats_evolve nats_history storable.
Proof.
  split.
  - intros w. reflexivity.
  - apply inv_stable.
  - intros w w' id He _. by apply history_prefix.
  - intros w id i s Hi Hs. destruct (history_entry _ _ _ _ Hi Hs) as (e & n & _ & _ & _ & _ & Hid & Hv). done.
  - apply nats_get_rg.
  - intros w id s Hi [i Hs]%list_elem_of_lookup_1. destruct (history_entry _ _ _ _ Hi Hs) as (e & n & _ & _ & _ & Hst & _). done.
  - intros w id state Hi. pose proof (ni_clock _ Hi). unfold storable. simpl. split_and!; [done | lia | done | done].
  - intros w prev state next Hi (Hv & Hle & Hc & Hu). unfold sm_next_version. destruct (checked i64 (sn_version prev + 1)) as [v|] eqn:Ev; [| done].
    simpl. intros [= <-]. apply checked_Some in Ev as [-> Hb]. pose proof (ni_clock _ Hi). unfold storable. simpl.
    split_and!; [lia | lia | done | by destruct (Z.max_spec (nw_clock w) (sn_updated_at prev)) as [[_ ->]|[_ ->]]].
  - intros s w. apply nats_create_rg.
  - intros prev next w. apply nats_update_rg.
Qed.

(** Around the executors the service and the clock go on, and writes whose answer was lost are
    stored late: a first snapshot under a drawn identifier, or the outcome of an event on the latest
    snapshot under its revision. *)
Inductive nats_surroundings : world -> world -> Prop :=
| ns_service w clock a : system_time_ok clock = true ->
    nats_surroundings w (mkNats (nw_stream w) (nw_tokens w) clock a)
| ns_late_create w w' n (s : snapshot) f :
    nw_tokens w !! n = Some f -> encode s = Ok f -> storable s -> sn_version s = 0 ->
    revision_of (key_of (sn_instance_id s)) (nw_stream w) = 0 ->
    written Put (key_of (sn_instance_id s)) (encode_record (uuid n) f) w w' -> nats_surroundings w w'
| ns_late_update w w' n e prev next f :
    at_prev prev e n w -> event_step Ty m prev next -> storable next -> encode next = Ok f ->
    revision_of (key_of (sn_instance_id prev)) (nw_stream w) = e_revision e ->
    written Put (key_of (sn_instance_id prev)) (encode_record (uuid n) f) w w' -> nats_surroundings w w'.

Lemma nats_surroundings_evolve w w' : nats_surroundings w w' -> nats_evolve w w'.
Proof.
  intros [w1 clock a Hc|w1 w2 n s f Ht Hf Hst Hv Hz Hw|w1 w2 n e prev next f Hat Hs Hst Hf Hz Hw].
  - split; [| done | done]. intros [I1 I2 I3 I4]. by split.
  - eapply snapshot_written; [exact Hw |]. intros Hi. assert (entries w1 (sn_instance_id s) = []) as He by (apply revision_zero; [apply Hi | done]).
    split_and!; [done | done | done | by rewrite He |].
    pose proof (history_length w1 (sn_instance_id s) Hi) as Hlen. rewrite He in Hlen. by destruct (nats_history w1 (sn_instance_id s)).
  - by eapply commit_evolves.
Qed.

Section events.
Context (categories : forall k, Ty k -> list TypeId).
Hypothesis (Hactions : forall s event cats, respects nats_evolve (handle_erased Ty m s event cats)).

Definition nats_event (l : string * Any Ty) : Task world (CatgaResult (StateMachineResult K)) :=
  executor_handle Ty nw_clock categories m (fst l) (projT1 (snd l)) (projT2 (snd l)).

(** C15: Executors of any number of processes over one bucket, while answers of the service are
    lost, read from a replica that lags, or come true late: the snapshots of an instance are
    numbered from 0 without gaps, each is the outcome of one event handled on the snapshot
    before it, and for an executor that reports a handled event there is a place in that history
    where its event leads from one snapshot to the next with the result it reports, or from the
    initial state to the first snapshot.  That place need not be its own: two executors that
    handle equal events on one snapshot can both report the one snapshot written
    ([equal_writes_both_reported]).  Assumed: the state codec round-trips; write identifiers
    have 16 bytes and are never drawn twice; no two instance identifiers share a key, so their
    SHA-256 digests do not collide; the machine's actions touch the store only as executors do;
    a late write is one an executor has sent, and takes effect only at its expected revision. *)
Theorem nats_events_serialized w0 w pool :
  nats_inv w0 -> rtc (pool_step nats_surroundings nats_event) (w0, []) (w, pool) ->
  (forall id i a b, nats_history w id !! i = Some a -> nats_history w id !! Datatypes.S i = Some b ->
     sn_version a = Z.of_nat i /\ event_step Ty m a b)
  /\ forall i id event r, pool !! i = Some ((id, event), Finished (Ok r)) -> res_handled r = true ->
       recorded_event Ty m nats_history id event (categories (projT1 event) (projT2 event)) r w.
Proof.
  intros Hi0 Hr.
  destruct (pool_sound nats_evolve nats_surroundings nats_event nats_inv
    (fun l => event_done Ty m nats_history (fst l) (snd l) (categories (projT1 (snd l)) (projT2 (snd l))))
    nats_surroundings_evolve inv_stable) with (w := w0) (w' := w) (pool := pool) as [Hi Hpool]; [| done | done |].
  - intros [id [k e]] w1 Hw1. apply (executor_recorded Ty nw_clock m nats_inv nats_evolve nats_history storable Hactions). done.
  - simpl in *. split.
    + intros id i a b Ha Hb. destruct (history_entry _ _ _ _ Hi Ha) as (e & n & _ & _ & _ & _ & _ & Hv). split; [done | by eapply ni_linked].
    + intros i id event r Hl Hh. by apply (Hpool _ _ _ Hl w (rtc_refl _ _)).
Qed.
End events.
End properties.

(** ** Runs

    Orders as in the example of the executor, on a single server. *)

Section runs.

Abbreviation order_world := (NatsWorld unit).

Definition order_encode (o : Order) : CatgaResult (list Z) := Ok [Z.of_nat (fst o); Z.of_nat (snd o)].
Definition order_decode (b : list Z) : CatgaResult Order :=
  match b with [k; n] => Ok (Z.to_nat k, Z.to_nat n) | _ => fail Internal "an order is two numbers" end.

Definition demo_uuid (n : nat) : list Z := Z.of_nat n :: replicate 15 0.
Definition demo_show (_ : MemoryPackError) : string := "malformed".
Definition demo_show_byte (_ : Z) : string := "?".

#[local] Instance demo_store : StateMachineStore (W := order_world) (S := Order) :=
  nats_machines order_encode order_decode demo_show demo_show_byte demo_uuid string_of_bytes id.

Definition nats_add_amount : ErasedTransition (W := order_world) order_ty (S := Order) (K := nat) :=
  TypedTransition order_ty (fun _ => "Amount"%string) tt None None
    (EventSync (fun s n => (Ok tt, (fst s, (snd s + n)%nat)))).

Definition nats_order_machine : StateMachine (W := order_world) order_ty (S := Order) (K := nat) :=
  default_initial_state order_ty (configure_state order_ty (builder order_ty 0%nat) 0%nat (finish order_ty nats_add_amount)) (0, 0)%nat.

Definition nats_order_event : string * Any order_ty -> Task order_world (CatgaResult (StateMachineResult nat)) :=
  nats_event order_encode order_decode demo_show demo_show_byte demo_uuid string_of_bytes id order_ty nats_order_machine (fun _ _ => []).

Definition empty_bucket : order_world := mkNats [] [] 5 tt.

(** An order of 2 is made.  Two events of 3 are read against it; the write of the first is lost,
    that of the second is stored, and the first confirms its own by reading the key. *)
Definition duplicate_run :=
  foldl (move nats_order_event) (empty_bucket, [])
    ([Start (amount 2); Poll 0 0; Poll 0 0; Poll 0 0; Poll 0 0]
     ++ [Start (amount 3); Start (amount 3); Poll 1 0; Poll 2 0; Poll 1 0; Poll 2 0; Poll 1 0; Poll 2 0]
     ++ [Poll 1 1; Poll 2 0; Poll 1 0]).

(** Two equal writes on the same snapshot, of which one is lost, are both reported as stored: the
    three events of 2, 3 and 3 are handled, and the order holds 5. *)
Example equal_writes_both_reported :
  snd <$> snd duplicate_run
  = [Finished (Ok (mkSMResult 0%nat 0%nat true)); Finished (Ok (mkSMResult 0%nat 0%nat true)); Finished (Ok (mkSMResult 0%nat 0%nat true))]
  /\ sn_state <$> nats_history order_decode demo_show demo_show_byte string_of_bytes id (fst duplicate_run) "o" = [(0, 2); (0, 5)]%nat.
Proof. vm_compute. split; reflexivity. Qed.

Lemma nats_order_sync k d : md_states order_ty nats_order_machine !! k = Some d -> sync_state order_ty d.
Proof.
  intros Hd. assert (d = mkState order_ty None None [nats_add_amount]) as ->.
  { destruct (decide (k = 0%nat)) as [->|Hne]; [by vm_compute in Hd; simplify_eq |].
    unfold nats_order_machine, configure_state in Hd. simpl in Hd. by rewrite lookup_insert_ne, lookup_empty in Hd. }
  split; [by intros; eexists.. |]. intros t ->%list_elem_of_singleton s [[] n]. by eexists.
Qed.

Lemma demo_key_separates a b : kv_key string_of_bytes id a = kv_key string_of_bytes id b -> a = b.
Proof.
  unfold kv_key, sha256_digest. simpl. rewrite !string_of_bytes_of_string. intros [= E]. done.
Qed.

Abbreviation order_history := (nats_history order_decode demo_show demo_show_byte string_of_bytes id).

Lemma nats_events_serialized_witness :
  length (snd duplicate_run) = 3%nat
  /\ (forall i a b, order_history (fst duplicate_run) "o" !! i = Some a ->
       order_history (fst duplicate_run) "o" !! Datatypes.S i = Some b ->
       sn_version a = Z.of_nat i /\ event_step order_ty nats_order_machine a b)
  /\ recorded_event order_ty nats_order_machine order_history "o" (snd (amount 3)) [] (mkSMResult 0%nat 0%nat true)
       (fst duplicate_run).
Proof.
  split; [by vm_compute |].
  refine ((fun H => conj (proj1 H "o"%string) (proj2 H 1%nat "o"%string (snd (amount 3)) _ _ _))
    (nats_events_serialized order_encode order_decode demo_show demo_show_byte demo_uuid string_of_bytes id order_ty
    nats_order_machine _ _ _ demo_key_separates (fun _ _ => [])
    (fun s event cats => sync_handle_respects order_ty nats_order_machine _ s event cats nats_order_sync)
    empty_bucket (fst duplicate_run) (snd duplicate_run) _ _)).
  - vm_compute. reflexivity.
  - done.
  - intros [k n] b [= <-]. simpl. by rewrite !Nat2Z.id.
  - done.
  - intros n n' [= E]. lia.
  - split; [split; simpl; [apply SSorted_nil | apply Forall_nil_2] | done | by intros id' [] e | by intros id' [] a b].
  - rewrite <- surjective_pairing. apply moves_steps.
Defined.
End runs.
