(* ===== verification/NatsLeases.v ===== *)
(** * Leases on JetStream ([catga-nats/src/lease.rs])

    A lease is an entry with its owner and expiry in text; it is taken, renewed and released by
    conditional writes.  A lease passes to another owner only when it was released or when its time
    is over by the clock, which the messages are assumed to share. *)

From S2P Require Import Prelude Utf8 Errors Time Decimals Tasks Kv.

(** ** The text of a lease *)

(** [rsplit_once] at a tabulator: the text before and after its last occurrence *)
Fixpoint rsplit_tab (bs : list Z) : option (list Z * list Z) :=
  match bs with
  | [] => None
  | b :: rest =>
    match rsplit_tab rest with
    | Some (before, after) => Some (b :: before, after)
    | None => if b =? 9 then Some ([], rest) else None
    end
  end.

Definition lease_expiry (ttl : Duration) (clock : SystemTime) : Z :=
  saturating u64 (now_unix_millis clock + Z.max 1 (u64_or_max (as_millis ttl))).

Definition lease_value (owner : string) (ttl : Duration) (clock : SystemTime) : list Z :=
  bytes_of_string owner ++ [9] ++ display_u64 (lease_expiry ttl clock).

Definition lease_parse (value : list Z) : option (string * Z) :=
  if utf8_valid value then
    match rsplit_tab value with
    | None => None
    | Some (owner, expiry) => (fun expires => (string_of_bytes owner, expires)) <$> parse_u64 expiry
    end
  else None.

(** ** The store *)

Section store.
Context {A : Type} `{!KeyValue A}.

Abbreviation world := (NatsWorld A).

Definition lease_entry (resource : string) : Task world (CatgaResult (option Entry)) := entry_or_transient resource.

Definition nats_try_acquire (resource owner : string) (ttl : Duration) : Task world (CatgaResult bool) :=
  await now := read_time in
  let value := lease_value owner ttl now in
  await created := kv_create resource value in
  if is_ok created then Done (Ok true)
  else
    await? found := lease_entry resource in
    match found with
    | None => Done (Ok false)
    | Some entry =>
      match lease_parse (e_value entry) with
      | None => Done (Ok false)
      | Some (current_owner, expires) =>
        await now := read_time in
        if negb (String.eqb current_owner owner) && (now_unix_millis now <? expires) then Done (Ok false)
        else
          await answer := kv_update resource value (e_revision entry) in
          Done (Ok (is_ok answer))
      end
    end.

Definition nats_renew (resource owner : string) (ttl : Duration) : Task world (CatgaResult bool) :=
  await? found := lease_entry resource in
  match found with
  | None => Done (Ok false)
  | Some entry =>
    match lease_parse (e_value entry) with
    | None => Done (Ok false)
    | Some (current_owner, expires) =>
      await now := read_time in
      if negb (String.eqb current_owner owner) || (expires <=? now_unix_millis now) then Done (Ok false)
      else
        await later := read_time in
        await answer := kv_update resource (lease_value owner ttl later) (e_revision entry) in
        Done (Ok (is_ok answer))
    end
  end.

Definition nats_release (resource owner : string) : Task world (CatgaResult bool) :=
  await? found := lease_entry resource in
  match found with
  | None => Done (Ok false)
  | Some entry =>
    match lease_parse (e_value entry) with
    | None => Done (Ok false)
    | Some (current_owner, _) =>
      if negb (String.eqb current_owner owner) then Done (Ok false)
      else
        await answer := kv_delete_expect_revision resource (Some (e_revision entry)) in
        Done (Ok (is_ok answer))
    end
  end.
End store.

(** ** Lemmas on the text *)

Lemma utf8_valid_app a b : utf8_valid a = true -> utf8_valid b = true -> utf8_valid (a ++ b) = true.
Proof.
  unfold utf8_valid. destruct (utf8_decode a) as [ca|] eqn:Ea; [| done]. destruct (utf8_decode b) as [cb|] eqn:Eb; [| done].
  intros _ _. apply utf8_encode_decode in Ea as [<- Ha]. apply utf8_encode_decode in Eb as [<- Hb].
  unfold utf8_encode. rewrite <- bind_app. fold (utf8_encode (ca ++ cb)). rewrite utf8_decode_encode; [done |].
  by apply Forall_app.
Qed.

Lemma ascii_valid bs : Forall (fun b => 0 <= b < 128) bs -> utf8_valid bs = true.
Proof.
  intros Hb. assert (utf8_encode bs = bs) as He.
  { induction Hb as [|b bs Hb _ IH]; [done |].
    change (utf8_encode (b :: bs)) with (encode_utf8 b ++ utf8_encode bs). rewrite IH. unfold encode_utf8.
    by rewrite (proj2 (Z.ltb_lt b 128)) by lia. }
  unfold utf8_valid. rewrite <- He, utf8_decode_encode; [done |]. eapply Forall_impl; [exact Hb |]. intros b Hr.
  simpl in Hr. unfold is_scalar. rewrite orb_true_iff, !andb_true_iff, !Z.leb_le, Z.ltb_lt. lia.
Qed.

Lemma rsplit_tab_last before after :
  Forall (fun b => b <> 9) after -> rsplit_tab (before ++ [9] ++ after) = Some (before, after).
Proof.
  intros Ha. assert (rsplit_tab after = None) as Hn.
  { induction Ha as [|b after Hb _ IH]; simpl; [done |]. rewrite IH. by rewrite (proj2 (Z.eqb_neq b 9)). }
  induction before as [|b before IH]; [simpl; by rewrite Hn |]. rewrite <- app_comm_cons. cbn [rsplit_tab]. by rewrite IH.
Qed.

Lemma lease_expiry_range ttl clock : int_min u64 <= lease_expiry ttl clock <= int_max u64.
Proof. by apply saturating_bounds. Qed.

(** A lease is read back as it was written, also when the owner's name contains tabulators. *)
Theorem lease_text_roundtrip owner ttl clock :
  utf8_valid (bytes_of_string owner) = true -> lease_parse (lease_value owner ttl clock) = Some (owner, lease_expiry ttl clock).
Proof.
  intros Ho. unfold lease_parse, lease_value. destruct (display_u64_digits _ (lease_expiry_range ttl clock)) as (Hd & _ & _).
  rewrite utf8_valid_app; [| done |].
  - rewrite rsplit_tab_last; [by rewrite parse_display, string_of_bytes_of_string by apply lease_expiry_range |].
    eapply Forall_impl; [exact Hd |]. simpl. lia.
  - apply ascii_valid, Forall_cons. split; [lia |]. eapply Forall_impl; [exact Hd |]. simpl. lia.
Qed.

(** ** Exclusive leases *)

Lemma now_unix_millis_mono t t' : t <= t' -> now_unix_millis t <= now_unix_millis t'.
Proof.
  intros Ht. unfold now_unix_millis, now_unix_millis_or, duration_since_epoch, u64_or_max, as_millis, checked, fits, NANOS_PER_MILLI.
  int_bounds. destruct (Z.leb_spec 0 t), (Z.leb_spec 0 t'); try lia; repeat case_match; simplify_eq; bool_prop; Z.to_euclidean_division_equations; lia.
Qed.

Section properties.
Context {A : Type} `{!KeyValue A} `{!KeyValueLaws A}.

Abbreviation world := (NatsWorld A).

Definition held_by (owner : string) (e : Entry) : Prop :=
  e_operation e = Put /\ exists expires, lease_parse (e_value e) = Some (owner, expires).

(** The lease [b] was written over [a] when [a] had the same owner, or when its time was over. *)
Definition passes (a b : Entry) : Prop :=
  exists owner expires owner' expires', lease_parse (e_value a) = Some (owner, expires) /\ lease_parse (e_value b) = Some (owner', expires')
    /\ (owner = owner' \/ expires <= now_unix_millis (e_created b)).

Record lease_inv (w : world) : Prop := {
  li_stream : stream_ok (nw_stream w);
  li_deleted : forall e, e ∈ nw_stream w -> e_operation e <> Put -> e_value e = [];
  li_linked : linked (fun a b => e_operation a = Put -> e_operation b = Put -> passes a b) w
}.

Record lease_evolve (w w' : world) : Prop := {
  le_inv : lease_inv w -> lease_inv w';
  le_stream : nw_stream w `prefix_of` nw_stream w';
  le_clock : nw_clock w <= nw_clock w'
}.

#[local] Instance lease_evolve_preorder : PreOrder lease_evolve.
Proof. split; [intros w; by split |]. intros w1 w2 w3 [H1 H2 H3] [H4 H5 H6]. split; [auto | by etrans | lia]. Qed.

Lemma lease_rtc w w' : rtc lease_evolve w w' -> lease_evolve w w'.
Proof. intros Hr. induction Hr; [reflexivity | by etrans]. Qed.

Lemma lease_stable w w' : lease_evolve w w' -> lease_inv w -> lease_inv w'.
Proof. intros He. apply He. Qed.

Lemma lease_quiet : quiet lease_evolve.
Proof. intros w a. split; [| done | done]. intros [H1 H2 H3]. by split. Qed.

(** A message that may be stored: an empty deletion, or a lease over one that passes to it *)
Definition admitted (op : Operation) (resource : string) (value : list Z) (w : world) : Prop :=
  (op <> Put -> value = []) /\
  (op = Put -> forall e, latest resource (nw_stream w) = Some e -> e_operation e = Put ->
     forall b, e_value b = value -> nw_clock w <= e_created b -> passes e b).

Lemma written_lease op resource value w w' :
  written op resource value w w' -> (lease_inv w -> admitted op resource value w) -> lease_evolve w w'.
Proof.
  intros Hw Ha. assert (nw_clock w' = nw_clock w) as Hc by (by destruct Hw as (r & a & _ & _ & ->)).
  split; [| by eapply written_grows | lia]. intros Hi. destruct (Ha Hi) as [Hdel Hput]. split.
  - by eapply written_ok, Hi.
  - destruct Hw as (r & a & _ & _ & ->). simpl. intros x [Hx| ->%list_elem_of_singleton]%elem_of_app Hnp; [by apply (li_deleted _ Hi) | by apply Hdel].
  - eapply linked_written; [exact Hw | apply Hi |].
    intros a b Hla Hop Hv Hcr Hpa Hpb. apply Hput; [congruence | done | done | done | lia].
Qed.

(** *** Conditional writes on an entry that was read *)

Definition ready (op : Operation) (resource : string) (e : Entry) (value : list Z) (w : world) : Prop :=
  lease_inv w /\ shown resource (Some e) w /\ (op <> Put -> value = [])
  /\ (op = Put -> forall b, e_value b = value -> nw_clock w <= e_created b -> passes e b).

Lemma ready_later op resource e value w w' : lease_evolve w w' -> ready op resource e value w -> ready op resource e value w'.
Proof.
  intros He (Hi & Hs & Hd & Hp). split_and!; [by apply He | by eapply (shown_later lease_evolve); [apply le_stream | |] | done |].
  intros Hop b Hb Hc. apply Hp; [done | done | destruct He; lia].
Qed.

Lemma ready_write n op resource e value w w' :
  (n <= length (messages w resource))%nat ->
  ready op resource e value w -> revision_of resource (nw_stream w) = e_revision e -> written op resource value w w' ->
  lease_evolve w w' /\ replaced n op resource e value w'.
Proof.
  intros Hn (Hi & Hs & Hd & Hp) Hr Hw. assert (latest resource (nw_stream w) = Some e) as Hlat by (apply shown_latest; [apply Hi | done | done]).
  split; [| by eapply replaced_written].
  eapply written_lease; [exact Hw |]. intros _. split; [done |]. intros Hop e' He' _. rewrite Hlat in He'. simplify_eq. by apply Hp.
Qed.

Lemma replace_rg n resource e value w :
  (n <= length (messages w resource))%nat -> ready Put resource e value w ->
  rg lease_evolve lease_evolve (fun x w' => lease_inv w' /\ forall r, x = Some (Ok r) -> replaced n Put resource e value w')
    (kv_update resource value (e_revision e)) w.
Proof.
  intros Hn Hw. assert (forall w1 w2, rtc lease_evolve w w1 -> revision_of resource (nw_stream w1) = e_revision e ->
    written Put resource value w1 w2 -> lease_evolve w1 w2 /\ replaced n Put resource e value w2) as Hcommit.
  { intros w1 w2 Hr%lease_rtc Hz Hwr. eapply ready_write; [| by apply (ready_later _ _ _ _ w) | done | done].
    etrans; [exact Hn | apply messages_grow, Hr]. }
  eapply rg_mono; [apply (rg_frame _ _ (ready Put resource e value)); [apply ready_later | apply ready_later | done |] |].
  { apply (kl_update lease_evolve); [apply lease_quiet |]. intros w1 w2 Hr Hz Hwr. by eapply Hcommit. }
  intros x w' [Hq [Hi _]]. split; [done |]. intros r ->. destruct Hq as (w1 & w2 & Hr & Hz & Hwr & Hb%lease_rtc).
  eapply replaced_later; [apply Hb |]. by eapply Hcommit.
Qed.

Lemma delete_rg n resource e w :
  (n <= length (messages w resource))%nat -> ready Delete resource e [] w ->
  rg lease_evolve lease_evolve (fun x w' => lease_inv w' /\ forall r, x = Some (Ok r) -> replaced n Delete resource e [] w')
    (kv_delete_expect_revision resource (Some (e_revision e))) w.
Proof.
  intros Hn Hw. assert (forall w1 w2, rtc lease_evolve w w1 -> revision_of resource (nw_stream w1) = e_revision e ->
    written Delete resource [] w1 w2 -> lease_evolve w1 w2 /\ replaced n Delete resource e [] w2) as Hcommit.
  { intros w1 w2 Hr%lease_rtc Hz Hwr. eapply ready_write; [| by apply (ready_later _ _ _ _ w) | done | done].
    etrans; [exact Hn | apply messages_grow, Hr]. }
  eapply rg_mono; [apply (rg_frame _ _ (ready Delete resource e [])); [apply ready_later | apply ready_later | done |] |].
  { apply (kl_delete lease_evolve); [apply lease_quiet |]. intros w1 w2 Hr Hz Hwr. eapply Hcommit; [done | by apply Hz | done]. }
  intros x w' [Hq [Hi _]]. split; [done |]. intros r ->. destruct Hq as (w1 & w2 & Hr & Hz & Hwr & Hb%lease_rtc).
  eapply replaced_later; [apply Hb |]. eapply Hcommit; [done | by apply Hz | done].
Qed.

(** *** The calls *)

(** An owner is a [&str]. *)
Record Owner := mkOwner { owner_text : string; owner_utf8 : utf8_valid (bytes_of_string owner_text) = true }.

Inductive LeaseCall := TryAcquire (resource : string) (owner : Owner) (ttl : Duration)
                     | Renew (resource : string) (owner : Owner) (ttl : Duration)
                     | Release (resource : string) (owner : Owner).

Definition lease_call (call : LeaseCall) : Task world (CatgaResult bool) :=
  match call with
  | TryAcquire resource owner ttl => nats_try_acquire resource (owner_text owner) ttl
  | Renew resource owner ttl => nats_renew resource (owner_text owner) ttl
  | Release resource owner => nats_release resource (owner_text owner)
  end.

Definition resource_of (call : LeaseCall) : string :=
  match call with TryAcquire resource _ _ | Renew resource _ _ | Release resource _ => resource end.

(** A call, and what it found when it began: the number of messages of its resource, and the
    time.  Noting them changes nothing. *)
Definition noted_call (call : LeaseCall) : Task world (nat * SystemTime * CatgaResult bool) :=
  await start := atomically (fun w => ((length (messages w (resource_of call)), nw_clock w), w)) in
  await result := lease_call call in
  Done (start, result).

(** The lease that a call of [owner] writes for [ttl], from a time between [t0] and now *)
Definition new_lease (owner : Owner) (ttl : Duration) (t0 : SystemTime) (w : world) (e : Entry) : Prop :=
  e_operation e = Put /\ exists t, t0 <= t <= nw_clock w /\ e_value e = lease_value (owner_text owner) ttl t.

(** What a call that reports success has written since it began at [t0], with [n] messages of
    its resource stored *)
Definition succeeded (call : LeaseCall) (n : nat) (t0 : SystemTime) (w : world) : Prop :=
  match call with
  | TryAcquire resource owner ttl => exists i e, (n <= i)%nat /\ messages w resource !! i = Some e /\ new_lease owner ttl t0 w e
  | Renew resource owner ttl => exists i a b expires, (n <= S i)%nat
      /\ messages w resource !! i = Some a /\ messages w resource !! S i = Some b
      /\ e_operation a = Put /\ lease_parse (e_value a) = Some (owner_text owner, expires) /\ now_unix_millis t0 < expires
      /\ new_lease owner ttl t0 w b
  | Release resource owner => exists i a b, (n <= S i)%nat
      /\ messages w resource !! i = Some a /\ messages w resource !! S i = Some b
      /\ held_by (owner_text owner) a /\ e_operation b = Delete
  end.

Definition lease_done (call : LeaseCall) (n : nat) (t0 : SystemTime) (x : option (CatgaResult bool)) (w : world) : Prop :=
  lease_inv w /\ (x = Some (Ok true) -> succeeded call n t0 w).

(** The call that began at [t0] with [n] messages is under way. *)
Definition begun (resource : string) (n : nat) (t0 : SystemTime) (w : world) : Prop :=
  lease_inv w /\ (n <= length (messages w resource))%nat /\ t0 <= nw_clock w.

Lemma begun_later resource n t0 w w' : lease_evolve w w' -> begun resource n t0 w -> begun resource n t0 w'.
Proof.
  intros He (Hi & Hn & Ht). split_and!; [by apply He | | destruct He; lia].
  etrans; [exact Hn | apply messages_grow, He].
Qed.

Lemma lease_entry_rg (P : world -> Prop) resource w :
  (forall w1 w2, lease_evolve w1 w2 -> P w1 -> P w2) -> P w ->
  rg lease_evolve lease_evolve (fun x w' => P w' /\ match x with
    | Some (Ok found) => shown resource found w' | Some (Err _) => True | None => False end) (lease_entry resource) w.
Proof. apply (entry_or_transient_shown lease_evolve); [apply lease_quiet | apply le_stream]. Qed.

Lemma read_time_rg (P : world -> Prop) w :
  (forall w1 w2, lease_evolve w1 w2 -> P w1 -> P w2) -> P w ->
  rg lease_evolve lease_evolve (fun x w' => P w' /\ match x with
    | Some now => now <= nw_clock w' /\ exists w1, P w1 /\ now = nw_clock w1 | None => False end) read_time w.
Proof.
  intros HP Hw. eapply rg_mono; [by apply (time_read lease_evolve lease_quiet P) |].
  intros [now|] w' [Hp Hx]; [| done]. split; [done |]. destruct Hx as (w1 & Hp1 & Hr%lease_rtc & ->). split; [apply Hr | by exists w1].
Qed.

Lemma lease_fails call n t0 (x : CatgaResult bool) w :
  lease_inv w -> x <> Ok true -> rg lease_evolve lease_evolve (lease_done call n t0) (Done x) w.
Proof. intros Hi Hx w1 Hw1%lease_rtc. split; [by apply Hw1 |]. by intros [= ?]. Qed.

(** An entry with a lease is not a deletion. *)
Lemma shown_held resource e w owner expires :
  lease_inv w -> shown resource (Some e) w -> lease_parse (e_value e) = Some (owner, expires) -> held_by owner e.
Proof.
  intros Hi Hs%shown_in Hp. split; [| by exists expires].
  destruct (decide (e_operation e = Put)) as [|Hd]; [done |]. exfalso. by rewrite (li_deleted _ Hi e) in Hp.
Qed.

Lemma new_lease_at (owner : Owner) ttl t0 t w e :
  e_operation e = Put -> e_value e = lease_value (owner_text owner) ttl t -> t0 <= t -> t <= nw_clock w -> new_lease owner ttl t0 w e.
Proof. intros Hp Hv H1 H2. split; [done |]. by exists t. Qed.

Lemma ready_lease resource e (owner : Owner) ttl now current expires w :
  lease_inv w -> shown resource (Some e) w -> lease_parse (e_value e) = Some (current, expires) ->
  (current = owner_text owner \/ expires <= now_unix_millis (nw_clock w)) ->
  ready Put resource e (lease_value (owner_text owner) ttl now) w.
Proof.
  intros Hi Hs Hp Hc. split_and!; [done | done | done |]. intros _ b Hb Hcr%now_unix_millis_mono.
  exists current, expires, (owner_text owner), (lease_expiry ttl now). split_and!; [done | | destruct Hc; [by left | right; lia]].
  rewrite Hb. apply lease_text_roundtrip, owner_utf8.
Qed.

(** A call ends with a conditional write on the entry it has read. *)
Lemma write_lease_rg call n t0 resource e value t w :
  begun resource n t0 w -> ready Put resource e value w -> t <= nw_clock w ->
  (forall w1, t <= nw_clock w1 -> replaced n Put resource e value w1 -> succeeded call n t0 w1) ->
  rg lease_evolve lease_evolve (lease_done call n t0)
    (await answer := kv_update resource value (e_revision e) in Done (Ok (is_ok answer))) w.
Proof.
  intros Hb Hw Ht Hs.
  eapply rg_bind_stable; [apply (rg_frame _ _ (fun w1 => t <= nw_clock w1)); [intros w1 w2 [_ _ Hc]; lia.. | done |] | |].
  { by apply (replace_rg n); [apply Hb |]. }
  2: { intros w1 [[Hi _] _]. by split. }
  intros a w1 Hq w2 Hw2. destruct (Hq w2 Hw2) as [[Hi Hr] Ht2]. split; [done |]. intros E. apply Hs; [done |].
  destruct a as [r|]; [by apply (Hr r) | done].
Qed.

Section call.
Context (resource : string) (owner : Owner) (n : nat) (t0 : SystemTime).

(** An entry was read, and the call is under way. *)
Definition read_lease (e : Entry) (w : world) : Prop := begun resource n t0 w /\ shown resource (Some e) w.

Lemma read_lease_later e w w' : lease_evolve w w' -> read_lease e w -> read_lease e w'.
Proof. intros He [Hb Hs]. split; [by eapply begun_later | by eapply (shown_later lease_evolve); [apply le_stream | |]]. Qed.

(** The time is read in between. *)
Lemma now_rg e w :
  read_lease e w -> rg lease_evolve lease_evolve (fun x w' => read_lease e w' /\ match x with
    | Some now => t0 <= now <= nw_clock w' | None => False end) read_time w.
Proof.
  intros Hw. eapply rg_mono; [by apply (read_time_rg (read_lease e)); [apply read_lease_later |] |].
  intros [now|] w' [HP Hx]; [| done]. split; [done |]. destruct Hx as [? (w1 & [(_ & _ & ?) _] & ->)]. lia.
Qed.

Lemma try_acquire_rg ttl w :
  begun resource n t0 w ->
  rg lease_evolve lease_evolve (lease_done (TryAcquire resource owner ttl) n t0) (nats_try_acquire resource (owner_text owner) ttl) w.
Proof.
  intros Hi. eapply rg_bind_stable; [by apply (read_time_rg (begun resource n t0)); [apply begun_later |] | | by intros w1 [_ []]].
  intros now w1 Hq. destruct (Hq w1 (rtc_refl _ _)) as [Hi1 [Hn1 (w1' & (_ & _ & Ht1) & ->)]]. clear Hq. set (now := nw_clock w1') in *.
  set (P := fun w => begun resource n t0 w /\ now <= nw_clock w).
  assert (forall wa wb, lease_evolve wa wb -> P wa -> P wb) as HP.
  { intros wa wb He [Ha Hb]. split; [by eapply begun_later | destruct He; lia]. }
  eapply rg_bind_stable; [apply (rg_frame _ _ P); [done | done | done |] | | intros w2 [_ [[? _] _]]; by split].
  { apply (kl_create lease_evolve); [apply lease_quiet |]. intros w2 w3 _ Hv Hwr. eapply written_lease; [exact Hwr |]. intros _.
    split; [done |]. intros _ e He Hp. unfold vacant in Hv. by rewrite He in Hv. }
  intros [r|text] w2 Hq; cbn [is_ok].
  - intros w3 Hw3. destruct (Hq w3 Hw3) as [(wa & wb & Ha%lease_rtc & _ & Hwr & Hb%lease_rtc) [Hi3 Hn3]]. split; [apply Hi3 |]. intros _.
    destruct (messages_written _ _ _ _ _ Hwr) as (e & Hop & Hv & _ & Hh). exists (length (messages wa resource)), e.
    split_and!; [by apply (begun_later _ n t0 _ _ Ha) | | by eapply new_lease_at].
    apply (messages_later wb); [apply Hb |]. by rewrite Hh, decide_True, lookup_app_r, Nat.sub_diag by done.
  - destruct (Hq w2 (rtc_refl _ _)) as [_ HP2]. clear Hq.
    eapply rg_bind_stable; [by apply (lease_entry_rg P) | | by intros w3 [_ []]].
    intros [[e|]|err] w3 Hq; destruct (Hq w3 (rtc_refl _ _)) as [[Hi3 Hn3] Hs3]; [| by apply lease_fails; [apply Hi3 |]..]. clear Hq.
    destruct (lease_parse (e_value e)) as [[current expires]|] eqn:Ep; [| by apply lease_fails; [apply Hi3 |]].
    eapply rg_bind_stable; [apply (rg_frame _ _ (fun w => now <= nw_clock w)); [intros wa wb [_ _ Hc]; lia.. | done | by apply (now_rg e)] | | by intros w4 [[_ []] _]].
    intros later w4 Hq. destruct (Hq w4 (rtc_refl _ _)) as [[[Hi4 Hs4] [_ Hnow%now_unix_millis_mono]] Hn4]. clear Hq.
    destruct (negb _ && _) eqn:Ec; [by apply lease_fails; [apply Hi4 |] |]. apply (write_lease_rg _ _ _ _ _ _ now); [done | | done |].
    + eapply ready_lease; [apply Hi4 | done | exact Ep |]. destruct (String.eqb_spec current (owner_text owner)); [by left |].
      simpl in Ec. right. apply Z.ltb_ge in Ec. lia.
    + intros wf Hc (i & b & Hn & _ & Hb & Hop & Hv). exists (S i), b. split_and!; [done | done | by eapply new_lease_at].
Qed.

Lemma renew_rg ttl w :
  begun resource n t0 w ->
  rg lease_evolve lease_evolve (lease_done (Renew resource owner ttl) n t0) (nats_renew resource (owner_text owner) ttl) w.
Proof.
  intros Hi. eapply rg_bind_stable; [by apply (lease_entry_rg (begun resource n t0)); [apply begun_later |] | | by intros w1 [_ []]].
  intros [[e|]|err] w1 Hq; destruct (Hq w1 (rtc_refl _ _)) as [Hi1 Hs1]; [| by apply lease_fails; [apply Hi1 |]..]. clear Hq.
  destruct (lease_parse (e_value e)) as [[current expires]|] eqn:Ep; [| by apply lease_fails; [apply Hi1 |]].
  eapply rg_bind_stable; [by apply (now_rg e) | | by intros w2 [_ []]].
  intros now w2 Hq. destruct (Hq w2 (rtc_refl _ _)) as [[Hi2 Hs2] [Hn2%now_unix_millis_mono _]]. clear Hq.
  destruct (String.eqb_spec current (owner_text owner)) as [->|]; cbn [negb orb]; [| apply lease_fails; [apply Hi2 | done]].
  destruct (Z.leb_spec expires (now_unix_millis now)) as [|Hlive]; [apply lease_fails; [apply Hi2 | done] |].
  eapply rg_bind_stable; [by apply (now_rg e) | | by intros w3 [_ []]].
  intros later w3 Hq. destruct (Hq w3 (rtc_refl _ _)) as [[Hi3 Hs3] [Hl1 Hl2]]. clear Hq. apply (write_lease_rg _ _ _ _ _ _ later); [done | | done |].
  - eapply ready_lease; [apply Hi3 | done | exact Ep | by left].
  - intros wf Hc (i & b & Hn & Ha & Hb & Hop & Hv). destruct (shown_held resource e w3 _ _ (proj1 Hi3) Hs3 Ep) as [Hpe _].
    exists i, e, b, expires. split_and!; [done | done | done | done | done | lia | by eapply new_lease_at].
Qed.

Lemma release_rg w :
  begun resource n t0 w ->
  rg lease_evolve lease_evolve (lease_done (Release resource owner) n t0) (nats_release resource (owner_text owner)) w.
Proof.
  intros Hi. eapply rg_bind_stable; [by apply (lease_entry_rg (begun resource n t0)); [apply begun_later |] | | by intros w1 [_ []]].
  intros [[e|]|err] w1 Hq; destruct (Hq w1 (rtc_refl _ _)) as [Hi1 Hs1]; [| by apply lease_fails; [apply Hi1 |]..]. clear Hq.
  destruct (lease_parse (e_value e)) as [[current expires]|] eqn:Ep; [| by apply lease_fails; [apply Hi1 |]].
  destruct (String.eqb_spec current (owner_text owner)) as [->|]; cbn [negb orb]; [| by apply lease_fails; [apply Hi1 |]].
  destruct Hi1 as (Hi1 & Hn1 & _).
  eapply rg_bind_stable; [apply (delete_rg n); [exact Hn1 | by split_and!] | | intros w2 [? _]; by split].
  intros a w2 Hq w3 Hw3. destruct (Hq w3 Hw3) as [Hi3 Hr]. split; [done |]. intros E. destruct a as [r|]; [| done].
  destruct (Hr r eq_refl) as (i & b & Hn & Ha & Hb & Hop & _). exists i, e, b.
  split_and!; [done | done | done | by apply (shown_held resource e w1 _ expires) | done].
Qed.
End call.

Lemma noted_rg call w :
  lease_inv w -> rg lease_evolve lease_evolve (fun x w' => lease_inv w' /\
    forall n t0, x = Some ((n, t0), Ok true) -> succeeded call n t0 w') (noted_call call) w.
Proof.
  intros Hi. unfold noted_call.
  eapply rg_bind_stable; [apply (rg_atomically _ _ (fun x w' => match x with
    | Some (n, t0) => begun (resource_of call) n t0 w' | None => False end)) | | done].
  { intros w1 Hw1%lease_rtc. split_and!; [reflexivity.. |]. cbn [fst snd]. intros w2 Hw2%lease_rtc.
    eapply begun_later; [exact Hw2 |]. split_and!; [by apply Hw1 | done | done]. }
  intros [n t0] w1 Hq. specialize (Hq w1 (rtc_refl _ _)). simpl in Hq.
  eapply (rg_bind_stable _ _ (lease_done call n t0)).
  - destruct call as [r o ttl|r o ttl|r o]; [by apply try_acquire_rg | by apply renew_rg | by apply release_rg].
  - intros a w2 Hd w3 Hw3. destruct (Hd w3 Hw3) as [Hi3 Hs]. split; [done |]. intros n' t0' [= <- <- ->]. by apply Hs.
  - intros w2 [Hi2 _]. split; [done |]. done.
Qed.

(** Around the calls the service goes on, the clock does not run back, and writes whose answer was
    lost are stored late, under their conditions. *)
Inductive lease_surroundings : world -> world -> Prop :=
| ls_service w clock a : nw_clock w <= clock -> lease_surroundings w (mkNats (nw_stream w) (nw_tokens w) clock a)
| ls_late_create w w' resource (owner : Owner) ttl now :
    vacant resource (nw_stream w) -> written Put resource (lease_value (owner_text owner) ttl now) w w' -> lease_surroundings w w'
| ls_late_update w w' resource (owner : Owner) ttl now e :
    ready Put resource e (lease_value (owner_text owner) ttl now) w -> revision_of resource (nw_stream w) = e_revision e ->
    written Put resource (lease_value (owner_text owner) ttl now) w w' -> lease_surroundings w w'
| ls_late_delete w w' resource (owner : Owner) e :
    held_by (owner_text owner) e -> ready Delete resource e [] w -> revision_of resource (nw_stream w) = e_revision e ->
    written Delete resource [] w w' -> lease_surroundings w w'.

Lemma lease_surroundings_evolve w w' : lease_surroundings w w' -> lease_evolve w w'.
Proof.
  intros [w1 clock a Hc|w1 w2 r o ttl now Hv Hw|w1 w2 r o ttl now e Hre Hz Hw|w1 w2 r o e _ Hre Hz Hw].
  - split; [| done | done]. intros [I1 I2 I3]. by split.
  - eapply written_lease; [exact Hw |]. intros _. split; [done |]. intros _ e He Hp. unfold vacant in Hv. by rewrite He in Hv.
  - by eapply (ready_write 0); [lia | ..].
  - by eapply (ready_write 0); [lia | ..].
Qed.

(** C16: Any number of processes on one bucket, whatever answers are lost, come from a lagging
    replica or come true late: a lease directly follows that of another owner on the same
    resource only when the time of the earlier one was over when it was written.  An acquisition that
    reports success has written, since it began, a lease of its owner that runs for the time to
    live it asked for from a moment since it began; a renewal has written such a lease directly
    over one of the same owner that had not expired when the renewal began; and a release has,
    since it began, deleted a lease of its owner, directly over it.  Assumed: all processes
    read one clock, and it does not run back; the bucket keeps its documented promises; and a
    write that takes effect late is a conditional one of these calls. *)
Theorem nats_lease_exclusive w0 w pool :
  lease_inv w0 -> rtc (pool_step lease_surroundings noted_call) (w0, []) (w, pool) ->
  (forall resource i a b, messages w resource !! i = Some a -> messages w resource !! S i = Some b ->
     e_operation a = Put -> e_operation b = Put -> passes a b)
  /\ forall i call n t0, pool !! i = Some (call, Finished ((n, t0), Ok true)) -> succeeded call n t0 w.
Proof.
  intros Hi0 Hr. destruct (pool_sound lease_evolve lease_surroundings noted_call lease_inv
    (fun call x w => lease_inv w /\ forall n t0, x = Some ((n, t0), Ok true) -> succeeded call n t0 w)
    lease_surroundings_evolve lease_stable) with (w := w0) (w' := w) (pool := pool) as [Hi Hpool]; [| done | done |].
  - intros call w1 Hw1. by apply noted_rg.
  - split; [apply Hi |]. intros i call n t0 Hl. by apply (Hpool _ _ _ Hl w (rtc_refl _ _)).
Qed.
End properties.

(** ** A run

    On a single server [a] takes a lease of a second and the answer is lost; its second attempt
    finds the lease and confirms it.  [b] is refused, and gets the lease when the second is over;
    then [a] can no longer renew it, and [b] releases it. *)

Section runs.

Definition owner_a : Owner := mkOwner "a" eq_refl.
Definition owner_b : Owner := mkOwner "b" eq_refl.

Abbreviation call := (noted_call (A := unit)).

Definition second : Duration := 1000000000.

Definition lease_morning :=
  foldl (move call) (mkNats [] [] 5000000000 tt, [])
    ([Start (TryAcquire "r" owner_a second); Poll 0 0; Poll 0 0; Poll 0 2; Poll 0 0; Poll 0 0; Poll 0 0]
     ++ [Start (TryAcquire "r" owner_b second); Poll 1 0; Poll 1 0; Poll 1 0; Poll 1 0; Poll 1 0]).

Definition lease_noon := (mkNats (nw_stream (fst lease_morning)) [] 7000000000 tt, snd lease_morning).

Definition lease_evening :=
  foldl (move call) lease_noon
    ([Start (TryAcquire "r" owner_b second); Poll 2 0; Poll 2 0; Poll 2 0; Poll 2 0; Poll 2 0; Poll 2 0]
     ++ [Start (Renew "r" owner_a second); Poll 3 0; Poll 3 0; Poll 3 0]
     ++ [Start (Release "r" owner_b); Poll 4 0; Poll 4 0; Poll 4 0]).

Lemma nats_lease_exclusive_witness :
  snd <$> snd lease_evening
  = [Finished (0%nat, 5000000000, Ok true); Finished (2%nat, 5000000000, Ok false); Finished (2%nat, 7000000000, Ok true);
     Finished (3%nat, 7000000000, Ok false); Finished (3%nat, 7000000000, Ok true)]
  /\ (e_operation <$> messages (fst lease_evening) "r" = [Put; Put; Put; Delete])
  /\ (forall i a b, messages (fst lease_evening) "r" !! i = Some a -> messages (fst lease_evening) "r" !! S i = Some b ->
       e_operation a = Put -> e_operation b = Put -> passes a b)
  /\ succeeded (TryAcquire "r" owner_b second) 2 7000000000 (fst lease_evening)
  /\ succeeded (Release "r" owner_b) 3 7000000000 (fst lease_evening).
Proof.
  assert (lease_inv (mkNats [] [] 5000000000 tt)) as Hi.
  { split; [split; simpl; [apply SSorted_nil | apply Forall_nil_2] | by intros e []%not_elem_of_nil | by intros r []]. }
  assert (rtc (pool_step lease_surroundings call) (mkNats [] [] 5000000000 tt, []) (fst lease_evening, snd lease_evening)) as Hr.
  { rewrite <- surjective_pairing. transitivity lease_morning; [apply moves_steps |]. transitivity lease_noon; [| apply moves_steps].
    unfold lease_noon. rewrite (surjective_pairing lease_morning) at 1. apply rtc_once, pool_env.
    apply (ls_service (fst lease_morning) 7000000000 tt). by vm_compute. }
  split; [by vm_compute |]. split; [by vm_compute |]. split; [apply (proj1 (nats_lease_exclusive _ _ _ Hi Hr)) |].
  split; [apply (proj2 (nats_lease_exclusive _ _ _ Hi Hr) 2%nat) | apply (proj2 (nats_lease_exclusive _ _ _ Hi Hr) 4%nat)]; by vm_compute.
Defined.
End runs.
