(* ===== verification/NatsInbox.v ===== *)
(** * Inbox and idempotency records on JetStream
    ([catga-nats/src/idempotency.rs], [catga-nats/src/inbox.rs])

    A record is the latest message of its key, with a tag for its state.  The stores keep the
    contracts [InboxLaws] and [IdempotencyLaws] that the behaviors are proved against, over any
    service with [KeyValueLaws]; so deliveries of a message agree on its response also when the
    consumers share nothing but a bucket.  A claim whose answer is lost is not recognized by its
    owner. *)

From S2P Require Import Prelude Utf8 Errors Time Wire Reliability Claim Decimals Tasks Mediator Behaviors Delivery Kv.

(** ** Records *)

Definition WIRE_CLAIMED : Z := 1.
Definition WIRE_COMPLETED_EMPTY : Z := 2.
Definition WIRE_COMPLETED_RESULT : Z := 3.
Definition WIRE_FAILED : Z := 4.

Definition from_wire_tag (tag : Z) : option ProcessingState :=
  if tag =? WIRE_CLAIMED then Some Claimed
  else if (tag =? WIRE_COMPLETED_EMPTY) || (tag =? WIRE_COMPLETED_RESULT) then Some Completed
  else if tag =? WIRE_FAILED then Some Failed
  else None.

Definition state (value : list Z) : CatgaResult ProcessingState :=
  ok_or (head value ≫= from_wire_tag) (CatgaError_new Internal "NATS idempotency record is malformed").

Definition claimed_with_expiry (expires_at : Z) : list Z := WIRE_CLAIMED :: be_bytes 8 expires_at.

Definition claim_expired (value : list Z) (now : Z) : bool :=
  let bytes := drop 1 value in
  if (length bytes =? 8)%nat then be_value bytes <=? now else true.

(** [HEX], and the name of a record in the bucket *)
Definition hex_digit (n : Z) : Z := if n <? 10 then 48 + n else 87 + n.

Definition record_key (key : string) : string :=
  string_of_bytes (107 :: (bytes_of_string key ≫= fun b => [hex_digit (Z.shiftr b 4); hex_digit (Z.land b 15)])).

Definition RETRIES : nat := 8.

Section store.
Context {A : Type} `{!KeyValue A}.

Abbreviation world := (NatsWorld A).

Definition records_entry (key : string) : Task world (CatgaResult (option Entry)) := entry_or_transient key.

(** ** Idempotency keys *)

Definition unstable (what : string) : CatgaError := CatgaError_new Transient ("NATS " +:+ what +:+ " compare-and-swap did not stabilize").

Fixpoint transition_loop (retries : nat) (key : string) (next : list Z) : Task world (CatgaResult unit) :=
  match retries with
  | O => Done (Err (unstable "idempotency"))
  | S retries =>
    await? found := records_entry key in
    match found with
    | None => Done (fail NotFound "idempotency key is not claimed")
    | Some entry =>
      match state (e_value entry) with
      | Err e => Done (Err e)
      | Ok Claimed =>
        await answer := kv_update key next (e_revision entry) in
        if is_ok answer then Done (Ok tt) else transition_loop retries key next
      | Ok _ => Done (fail Conflict "idempotency key is not currently claimed")
      end
    end
  end.

Definition transition (key : string) (next : list Z) : Task world (CatgaResult unit) :=
  transition_loop RETRIES (record_key key) next.

Fixpoint try_claim_loop (retries : nat) (key : string) : Task world (CatgaResult bool) :=
  match retries with
  | O => Done (Err (unstable "idempotency"))
  | S retries =>
    await? found := records_entry key in
    match found with
    | None =>
      await answer := kv_create key [WIRE_CLAIMED] in
      if is_ok answer then Done (Ok true) else try_claim_loop retries key
    | Some entry =>
      if negb (bool_decide (e_operation entry = Put)) then
        await answer := kv_update key [WIRE_CLAIMED] (e_revision entry) in
        if is_ok answer then Done (Ok true) else try_claim_loop retries key
      else
        match state (e_value entry) with
        | Err e => Done (Err e)
        | Ok Failed =>
          await answer := kv_update key [WIRE_CLAIMED] (e_revision entry) in
          if is_ok answer then Done (Ok true) else try_claim_loop retries key
        | Ok _ => Done (Ok false)
        end
    end
  end.

Definition records_try_claim (key : string) : Task world (CatgaResult bool) := try_claim_loop RETRIES (record_key key).

(** The value of a completed record *)
Definition completed_value (result : Payload) : list Z :=
  match result with
  | Some result => WIRE_COMPLETED_RESULT :: result
  | None => [WIRE_COMPLETED_EMPTY]
  end.

Definition records_complete (key : string) (result : Payload) : Task world (CatgaResult unit) :=
  transition key (completed_value result).

Definition records_fail (key : string) : Task world (CatgaResult unit) := transition key [WIRE_FAILED].

Definition records_state (key : string) : Task world (CatgaResult (option ProcessingState)) :=
  await? found := records_entry (record_key key) in
  Done (match found with
        | None => Ok None
        | Some entry => if negb (bool_decide (e_operation entry = Put)) then Ok None else rmap Some (state (e_value entry))
        end).

Definition records_result (key : string) : Task world (CatgaResult Payload) :=
  await? found := records_entry (record_key key) in
  Done (match found with
        | None => Ok None
        | Some entry => Ok (if bool_decide (head (e_value entry) = Some WIRE_COMPLETED_RESULT) then Some (drop 1 (e_value entry)) else None)
        end).

(** ** Claims with a generation *)

Fixpoint claim_until_loop (retries : nat) (key : string) (value : list Z) (now : Z) : Task world (CatgaResult (option Z)) :=
  match retries with
  | O => Done (Err (unstable "inbox claim"))
  | S retries =>
    await? found := records_entry key in
    match found with
    | None =>
      await answer := kv_create key value in
      match answer with Ok revision => Done (Ok (Some revision)) | Err _ => claim_until_loop retries key value now end
    | Some entry =>
      let take := await answer := kv_update key value (e_revision entry) in
                  match answer with Ok revision => Done (Ok (Some revision)) | Err _ => claim_until_loop retries key value now end in
      if negb (bool_decide (e_operation entry = Put)) then take
      else
        match state (e_value entry) with
        | Err e => Done (Err e)
        | Ok Failed => take
        | Ok Claimed => if claim_expired (e_value entry) now then take else Done (Ok None)
        | Ok _ => Done (Ok None)
        end
    end
  end.

Definition try_claim_until (key : string) (expires_at : Z) : Task world (CatgaResult (option Z)) :=
  await now := read_time in
  claim_until_loop RETRIES (record_key key) (claimed_with_expiry expires_at) (now_unix_millis now).

Definition transition_claim (key : string) (generation : Z) (next : list Z) : Task world (CatgaResult unit) :=
  let key := record_key key in
  await? found := records_entry key in
  match found with
  | None => Done (fail NotFound "inbox message is not claimed")
  | Some entry =>
    if negb (e_revision entry =? generation) then Done (fail Conflict "inbox claim is no longer owned")
    else
      match state (e_value entry) with
      | Err e => Done (Err e)
      | Ok Claimed =>
        await answer := kv_update key next generation in
        Done (if is_ok answer then Ok tt else fail Conflict "inbox claim is no longer owned")
      | Ok _ => Done (fail Conflict "inbox claim is no longer owned")
      end
  end.

Definition complete_claim (key : string) (generation : Z) (result : Payload) : Task world (CatgaResult unit) :=
  transition_claim key generation (completed_value result).

Definition fail_claim (key : string) (generation : Z) : Task world (CatgaResult unit) :=
  transition_claim key generation [WIRE_FAILED].

(** ** Retention *)

Fixpoint cleanup_loop (retention : Duration) (now : SystemTime) (keys : list (result string string)) (budget removed : nat)
    : Task world (CatgaResult nat) :=
  match budget, keys with
  | O, _ | _, [] => Done (Ok removed)
  | S budget, Err text :: _ => Done (fail Transient text)
  | S budget, Ok key :: keys =>
    await? found := records_entry key in
    match found with
    | None => cleanup_loop retention now keys budget removed
    | Some entry =>
      if negb (bool_decide (e_operation entry = Put)) then cleanup_loop retention now keys budget removed
      else
        match state (e_value entry) with
        | Err e => Done (Err e)
        | Ok s =>
          if bool_decide (s = Completed)
             && match duration_since now (e_created entry) with Some age => retention <=? age | None => false end then
            await answer := kv_delete_expect_revision key (Some (e_revision entry)) in
            cleanup_loop retention now keys budget (if is_ok answer then S removed else removed)
          else cleanup_loop retention now keys budget removed
        end
    end
  end.

Definition cleanup_completed_for (retention : Duration) (limit : nat) : Task world (CatgaResult nat) :=
  match validate_retention_cleanup_limit limit with
  | Err e => Done (Err e)
  | Ok _ =>
    if (limit =? 0)%nat then Done (Ok 0%nat)
    else
      await now := read_time in
      await keys := kv_keys in
      match keys with
      | Err text => Done (fail Transient text)
      | Ok keys => cleanup_loop retention now keys limit 0
      end
  end.

(** ** The inbox *)

Definition message_key (message_id : Z) : string := string_of_bytes (display_u64 message_id).

Definition nats_try_claim_for (message_id : Z) (lease : Duration) : Task world (CatgaResult (option InboxClaim)) :=
  await now := read_time in
  match inbox_claim_expires_at lease now with
  | Err e => Done (Err e)
  | Ok expires_at =>
    await? generation := try_claim_until (message_key message_id) expires_at in
    Done (match generation with
          | Some generation => rmap Some (ok_or (InboxClaim_new message_id generation)
              (CatgaError_new Internal "NATS inbox generation is zero"))
          | None => Ok None
          end)
  end.

Definition nats_try_claim (message_id : Z) : Task world (CatgaResult (option InboxClaim)) :=
  nats_try_claim_for message_id DEFAULT_INBOX_CLAIM_LEASE.

Definition nats_inbox_complete (claim : InboxClaim) (result : Payload) : Task world (CatgaResult unit) :=
  complete_claim (message_key (claim_message_id claim)) (claim_generation claim) result.

Definition nats_inbox_fail (claim : InboxClaim) : Task world (CatgaResult unit) :=
  fail_claim (message_key (claim_message_id claim)) (claim_generation claim).

Definition nats_inbox_state (message_id : Z) : Task world (CatgaResult (option ProcessingState)) :=
  records_state (message_key message_id).

Definition nats_inbox_result (message_id : Z) : Task world (CatgaResult Payload) := records_result (message_key message_id).

Definition nats_inbox_cleanup : Duration -> nat -> Task world (CatgaResult nat) := cleanup_completed_for.

(** Next to the bucket a process has what its handlers use. *)
Context {App : Type}.

Definition put_bucket (v : world) (w : world * App) : world * App := (v, snd w).

#[export] Instance nats_inbox : InboxStore (W := world * App) := {
  ib_try_claim_for id lease := zoom fst put_bucket (nats_try_claim_for id lease);
  ib_complete c v := zoom fst put_bucket (nats_inbox_complete c v);
  ib_fail c := zoom fst put_bucket (nats_inbox_fail c);
  ib_result id := zoom fst put_bucket (nats_inbox_result id)
}.

#[export] Instance nats_idempotency : IdempotencyStore (W := world * App) := {
  ip_try_claim key := zoom fst put_bucket (records_try_claim key);
  ip_complete key v := zoom fst put_bucket (records_complete key v);
  ip_fail key := zoom fst put_bucket (records_fail key);
  ip_result key := zoom fst put_bucket (records_result key)
}.
End store.

(** ** Completed records stay

    In a period from [lo] to [hi] that is shorter than every retention in use. *)

Section records.
Context {A : Type} `{!KeyValue A} `{!KeyValueLaws A} (lo hi : SystemTime).

Abbreviation world := (NatsWorld A).

Definition completed (e : Entry) : Prop := e_operation e = Put /\ state (e_value e) = Ok Completed.

Record records_inv (w : world) : Prop := {
  ri_stream : stream_ok (nw_stream w);
  ri_clock : lo <= nw_clock w <= hi;
  ri_created : Forall (fun e => lo <= e_created e) (nw_stream w);
  ri_deleted : Forall (fun e => e_operation e = Put \/ e_value e = []) (nw_stream w);
  ri_final : linked (fun a _ => ~ completed a) w
}.

Record records_evolve (w w' : world) : Prop := {
  re_inv : records_inv w -> records_inv w';
  re_stream : nw_stream w `prefix_of` nw_stream w'
}.

#[local] Instance records_evolve_preorder : PreOrder records_evolve.
Proof. split; [intros w; by split |]. intros w1 w2 w3 [H1 H2] [H3 H4]. split; [auto | by etrans]. Qed.

Lemma records_rtc w w' : rtc records_evolve w w' -> records_evolve w w'.
Proof. intros Hr. induction Hr; [reflexivity | by etrans]. Qed.

Lemma records_stable w w' : records_evolve w w' -> records_inv w -> records_inv w'.
Proof. intros He. apply He. Qed.

Lemma records_quiet : quiet records_evolve.
Proof. intros w a. split; [| done]. intros [H1 H2 H3 H4 H5]. by split. Qed.

Lemma completed_latest w key e :
  records_inv w -> e ∈ nw_stream w -> e_key e = key -> completed e -> latest key (nw_stream w) = Some e.
Proof.
  intros Hi Hin Hk Hc. assert (e ∈ messages w key) as [i Hl]%list_elem_of_lookup_1 by (by apply list_elem_of_filter).
  unfold latest. rewrite last_lookup. fold (messages w key). destruct (messages w key !! S i) as [b|] eqn:E.
  - by destruct (ri_final _ Hi _ _ _ _ Hl E).
  - apply lookup_ge_None in E. pose proof (lookup_lt_Some _ _ _ Hl). by replace (pred _) with i by lia.
Qed.

(** A message may replace anything but a completed record. *)
Lemma record_written key value w w' :
  written Put key value w w' -> (records_inv w -> forall e, latest key (nw_stream w) = Some e -> ~ completed e) -> records_evolve w w'.
Proof.
  intros Hw Hl. split; [| by eapply written_grows]. intros Hi. specialize (Hl Hi). pose proof (ri_clock _ Hi). split.
  - by eapply written_ok, Hi.
  - by destruct Hw as (r & a & _ & _ & ->).
  - destruct Hw as (r & a & _ & _ & ->). apply Forall_app. split; [apply Hi | apply Forall_singleton; simpl; lia].
  - destruct Hw as (r & a & _ & _ & ->). apply Forall_app. split; [apply Hi | apply Forall_singleton; by left].
  - eapply linked_written; [exact Hw | apply Hi |]. intros a b Ha _ _ _. by apply Hl.
Qed.

Definition stored (key : string) (value : list Z) (w : world) : Prop :=
  exists e, e ∈ nw_stream w /\ e_key e = key /\ e_operation e = Put /\ e_value e = value.

Lemma stored_later key value w w' : records_evolve w w' -> stored key value w -> stored key value w'.
Proof. intros [_ [k Hk]] (e & Hin & He). exists e. split; [| done]. rewrite Hk. apply elem_of_app. by left. Qed.

Lemma written_stored key value w w' : written Put key value w w' -> stored key value w'.
Proof.
  intros (r & a & _ & _ & ->). exists (mkEntry key r Put value (nw_clock w)). split_and!; try done. simpl.
  apply elem_of_app. right. by apply list_elem_of_singleton.
Qed.

(** *** Accesses *)

Definition replaceable (key : string) (e : Entry) (w : world) : Prop :=
  records_inv w /\ shown key (Some e) w /\ ~ completed e.

Lemma replaceable_later key e w w' : records_evolve w w' -> replaceable key e w -> replaceable key e w'.
Proof. intros He (Hi & Hs & Hc). split_and!; [by apply He | by eapply (shown_later records_evolve); [apply re_stream | |] | done]. Qed.

Lemma replaceable_write key e value w w' :
  replaceable key e w -> revision_of key (nw_stream w) = e_revision e -> written Put key value w w' -> records_evolve w w'.
Proof.
  intros (Hi & Hs & Hc) Hr Hw. eapply record_written; [exact Hw |]. intros _ e' He'.
  rewrite (shown_latest key e) in He' by (done || apply Hi). by simplify_eq.
Qed.

Lemma update_record_rg key e value w :
  replaceable key e w ->
  rg records_evolve records_evolve (fun x w' => records_inv w' /\ forall r, x = Some (Ok r) -> stored key value w')
    (kv_update key value (e_revision e)) w.
Proof.
  intros Hw. eapply rg_mono; [apply (rg_frame _ _ (replaceable key e)); [apply replaceable_later | apply replaceable_later | done |] |].
  { apply (kl_update records_evolve); [apply records_quiet |]. intros w1 w2 Hr%records_rtc Hz Hwr.
    by eapply (replaceable_write key e); [apply (replaceable_later _ _ w) | |]. }
  intros x w' [Hq [Hi _]]. split; [done |]. intros r ->. destruct Hq as (w1 & w2 & _ & _ & Hwr & Hb%records_rtc).
  eapply stored_later; [exact Hb |]. by eapply written_stored.
Qed.

Lemma create_record_rg key value w :
  records_inv w ->
  rg records_evolve records_evolve (fun x w' => records_inv w' /\ forall r, x = Some (Ok r) -> stored key value w') (kv_create key value) w.
Proof.
  intros Hw. eapply rg_mono; [apply (rg_frame _ _ records_inv); [apply records_stable | apply records_stable | done |] |].
  { apply (kl_create records_evolve); [apply records_quiet |]. intros w1 w2 _ Hv Hwr. eapply record_written; [exact Hwr |].
    intros _ e He [Hp _]. unfold vacant in Hv. by rewrite He in Hv. }
  intros x w' [Hq Hi]. split; [done |]. intros r ->. destruct Hq as (w1 & w2 & _ & _ & Hwr & Hb%records_rtc).
  eapply stored_later; [exact Hb |]. by eapply written_stored.
Qed.

Lemma records_entry_rg key w :
  records_inv w ->
  rg records_evolve records_evolve (fun x w' => records_inv w' /\ match x with
    | Some (Ok found) => shown key found w' | Some (Err _) => True | None => False end) (records_entry key) w.
Proof.
  intros Hw. apply (entry_or_transient_shown records_evolve); [apply records_quiet | apply re_stream | apply records_stable | done].
Qed.

(** A call that ends with [x] whatever happens *)
Lemma ends {B} (Q : option B -> world -> Prop) x w :
  records_inv w -> (forall w1, Q (Some x) w1) -> rg records_evolve records_evolve (fun x w1 => records_inv w1 /\ Q x w1) (Done x) w.
Proof. intros Hi HQ w1 Hw1%records_rtc. split; [by apply Hw1 | apply HQ]. Qed.

(** A read, and what follows for an entry that is shown *)
Lemma after_entry {B} (Q : option B -> world -> Prop) key w (k : CatgaResult (option Entry) -> Task world B) :
  records_inv w ->
  (forall found w1, records_inv w1 -> shown key found w1 -> rg records_evolve records_evolve (fun x w1 => records_inv w1 /\ Q x w1) (k (Ok found)) w1) ->
  (forall e w1, records_inv w1 -> rg records_evolve records_evolve (fun x w1 => records_inv w1 /\ Q x w1) (k (Err e)) w1) ->
  rg records_evolve records_evolve (fun x w1 => records_inv w1 /\ Q x w1) (tbind (records_entry key) k) w.
Proof.
  intros Hi Hok Herr. eapply rg_bind; [by apply records_entry_rg | | by intros w1 [_ []]].
  intros [found|e] w1 [Hi1 Hs]; auto.
Qed.

(** A conditional write, and what follows *)
Lemma after_write {E B C} (Q : option C -> world -> Prop) key value (t : Task world (result E B)) (k : result E B -> Task world C) w :
  rg records_evolve records_evolve (fun x w' => records_inv w' /\ forall r, x = Some (Ok r) -> stored key value w') t w ->
  (forall x w1, records_inv w1 -> (forall r, x = Ok r -> stored key value w1) ->
     rg records_evolve records_evolve (fun x w1 => records_inv w1 /\ Q x w1) (k x) w1) ->
  (forall w1, Q None w1) ->
  rg records_evolve records_evolve (fun x w1 => records_inv w1 /\ Q x w1) (tbind t k) w.
Proof.
  intros Ht Hk Hn. eapply rg_bind; [exact Ht | | by intros w1 [Hi _]].
  intros x w1 [Hi1 Hs]. apply Hk; [done |]. intros r ->. by apply (Hs r).
Qed.

Lemma claimed_open e : state (e_value e) = Ok Claimed -> ~ completed e.
Proof. intros Hs [_ Hc]. congruence. Qed.

Lemma transition_loop_rg retries key value w :
  records_inv w ->
  rg records_evolve records_evolve (fun x w1 => records_inv w1 /\ (x = Some (Ok tt) -> stored key value w1))
    (transition_loop retries key value) w.
Proof.
  revert w. induction retries as [|retries IH]; intros w Hi; [by apply ends |]. cbn [transition_loop].
  apply after_entry; [done | | by intros; apply ends]. intros [e|] w1 Hi1 Hs; [| by apply ends].
  destruct (state (e_value e)) as [[]|] eqn:Es; try (by apply ends).
  apply (after_write _ key value); [apply update_record_rg; split_and!; [done | done | by apply claimed_open] | | done].
  intros [r|err] w2 Hi2 Hst; cbn [is_ok]; [| by apply IH]. intros w3 Hw3%records_rtc. split; [by apply Hw3 |]. intros _.
  eapply stored_later; [exact Hw3 | by apply (Hst r)].
Qed.

Lemma try_claim_loop_rg retries key w :
  records_inv w -> rg records_evolve records_evolve (fun _ w1 => records_inv w1 /\ True) (try_claim_loop retries key) w.
Proof.
  revert w. induction retries as [|retries IH]; intros w Hi; [by apply ends |]. cbn [try_claim_loop].
  apply after_entry; [done | | by intros; apply ends]. intros [e|] w1 Hi1 Hs.
  - assert (~ completed e -> rg records_evolve records_evolve (fun _ w1 => records_inv w1 /\ True)
      (await answer := kv_update key [WIRE_CLAIMED] (e_revision e) in if is_ok answer then Done (Ok true) else try_claim_loop retries key) w1) as Htake.
    { intros Hc. apply (after_write _ key [WIRE_CLAIMED]); [by apply update_record_rg; split_and! | | done].
      intros [r|err] w2 Hi2 _; cbn [is_ok]; [by apply ends | by apply IH]. }
    case_bool_decide as Hp; cbn [negb]; [| apply Htake; by intros [? _]].
    destruct (state (e_value e)) as [[]|] eqn:Es; try (by apply ends). apply Htake. intros [_ Hc]. congruence.
  - apply (after_write _ key [WIRE_CLAIMED]); [by apply create_record_rg | | done].
    intros [r|err] w2 Hi2 _; cbn [is_ok]; [by apply ends | by apply IH].
Qed.

Lemma claim_until_loop_rg retries key value now w :
  records_inv w -> rg records_evolve records_evolve (fun _ w1 => records_inv w1 /\ True) (claim_until_loop retries key value now) w.
Proof.
  revert w. induction retries as [|retries IH]; intros w Hi; [by apply ends |]. cbn [claim_until_loop].
  apply after_entry; [done | | by intros; apply ends]. intros [e|] w1 Hi1 Hs.
  - assert (~ completed e -> rg records_evolve records_evolve (fun _ w1 => records_inv w1 /\ True)
      (await answer := kv_update key value (e_revision e) in
       match answer with Ok revision => Done (Ok (Some revision)) | Err _ => claim_until_loop retries key value now end) w1) as Htake.
    { intros Hc. apply (after_write _ key value); [by apply update_record_rg; split_and! | | done].
      intros [r|err] w2 Hi2 _; [by apply ends | by apply IH]. }
    cbv zeta. case_bool_decide as Hp; cbn [negb]; [| apply Htake; by intros [? _]].
    destruct (state (e_value e)) as [[]|] eqn:Es; try (by apply ends).
    + destruct (claim_expired _ _); [| by apply ends]. by apply Htake, claimed_open.
    + apply Htake. intros [_ Hc]. congruence.
  - apply (after_write _ key value); [by apply create_record_rg | | done].
    intros [r|err] w2 Hi2 _; [by apply ends | by apply IH].
Qed.

Lemma transition_claim_rg key generation value w :
  records_inv w ->
  rg records_evolve records_evolve (fun x w1 => records_inv w1 /\ (x = Some (Ok tt) -> stored (record_key key) value w1))
    (transition_claim key generation value) w.
Proof.
  intros Hi. apply after_entry; [done | | by intros; apply ends]. intros [e|] w1 Hi1 Hs; [| by apply ends].
  destruct (Z.eqb_spec (e_revision e) generation) as [<-|]; cbn [negb]; [| by apply ends].
  destruct (state (e_value e)) as [[]|] eqn:Es; try (by apply ends).
  apply (after_write _ (record_key key) value); [apply update_record_rg; split_and!; [done | done | by apply claimed_open] | | done].
  intros [r|err] w2 Hi2 Hst; cbn [is_ok]; [| by apply ends]. intros w3 Hw3%records_rtc. split; [by apply Hw3 |]. intros _.
  eapply stored_later; [exact Hw3 | by apply (Hst r)].
Qed.

(** Retention removes nothing in the period. *)
Lemma cleanup_loop_rg retention now keys budget removed w :
  hi - lo < retention -> now <= hi -> records_inv w ->
  rg records_evolve records_evolve (fun _ w1 => records_inv w1 /\ True) (cleanup_loop retention now keys budget removed) w.
Proof.
  intros Hr Hn. revert keys removed w. induction budget as [|budget IH]; intros [|[key|text] keys] removed w Hi; try (by apply ends).
  cbn [cleanup_loop]. apply after_entry; [done | | by intros; apply ends]. intros [e|] w1 Hi1 Hs; [| by apply IH].
  case_bool_decide; cbn [negb]; [| by apply IH]. destruct (state (e_value e)); [| by apply ends].
  assert (match duration_since now (e_created e) with Some age => retention <=? age | None => false end = false) as ->.
  { pose proof (ri_created _ Hi1) as Hc. rewrite Forall_forall in Hc. specialize (Hc e (shown_in _ _ _ Hs)). simpl in Hc.
    unfold duration_since. destruct (Z.leb_spec (e_created e) now); [apply Z.leb_gt; lia | done]. }
  rewrite andb_false_r. by apply IH.
Qed.

(** *** The stores *)

Definition keeps_response (key : string) (b : list Z) (w : world) : Prop :=
  exists e, latest (record_key key) (nw_stream w) = Some e /\ e_operation e = Put /\ e_value e = completed_value (Some b).

Lemma response_completed e b : e_operation e = Put -> e_value e = completed_value (Some b) -> completed e.
Proof. intros Hp Hv. split; [done |]. by rewrite Hv. Qed.

Lemma stored_response key b w :
  records_inv w -> stored (record_key key) (completed_value (Some b)) w -> keeps_response key b w.
Proof.
  intros Hi (e & Hin & Hk & Hp & Hv). exists e. split; [| done]. eapply completed_latest; eauto using response_completed.
Qed.

Lemma response_later key b w w' : records_evolve w w' -> records_inv w -> keeps_response key b w -> keeps_response key b w'.
Proof.
  intros He Hi (e & Hl & Hp & Hv). apply stored_response; [by apply He |]. apply (stored_later _ _ w); [done |].
  apply latest_in in Hl as [Hin Hk]. by exists e.
Qed.

Lemma response_unique key b b' w : keeps_response key b w -> keeps_response key b' w -> b = b'.
Proof. intros (e & Hl & _ & Hv) (e' & Hl' & _ & Hv'). rewrite Hl in Hl'. simplify_eq. rewrite Hv in Hv'. by injection Hv'. Qed.

Lemma records_result_rg key w :
  records_inv w ->
  rg records_evolve records_evolve (fun x w1 => records_inv w1 /\ forall b, x = Some (Ok (Some b)) -> keeps_response key b w1)
    (records_result key) w.
Proof.
  intros Hi. apply after_entry; [done | | by intros; apply ends]. intros [e|] w1 Hi1 Hs; [| by apply ends].
  case_bool_decide as Hh; [| by apply ends]. intros w2 Hw2%records_rtc. split; [by apply Hw2 |]. intros b [= <-].
  apply (response_later _ _ w1); [done | done |]. apply stored_response; [done |].
  pose proof (shown_in _ _ _ Hs) as Hin1. destruct Hs as (seen & _ & He). symmetry in He. apply latest_in in He as [_ Hkey]. exists e.
  destruct (e_value e) as [|t v] eqn:Ev; [done |]. injection Hh as ->. split_and!; [done | done | | done].
  pose proof (ri_deleted _ Hi1) as Hd. rewrite Forall_forall in Hd. destruct (Hd e Hin1) as [|Hz]; [done | congruence].
Qed.

Lemma try_claim_for_rg id lease w :
  records_inv w ->
  rg records_evolve records_evolve (fun x w1 => records_inv w1 /\ forall c, x = Some (Ok (Some c)) -> claim_message_id c = id)
    (nats_try_claim_for id lease) w.
Proof.
  intros Hi. eapply rg_bind; [by apply (time_read records_evolve records_quiet records_inv); [apply records_stable |] | | by intros w1 [_ []]].
  intros now w1 [Hi1 _]. destruct (inbox_claim_expires_at lease now) as [expires|]; [| by apply ends].
  eapply (rg_bind _ _ (fun _ => records_inv)); [| | by intros; split].
  - eapply rg_bind; [by apply (time_read records_evolve records_quiet records_inv); [apply records_stable |] | | by intros w2 [_ []]].
    intros later w2 [Hi2 _]. eapply rg_mono; [by apply claim_until_loop_rg | by intros x w3 []].
  - intros [[g|]|e] w2 Hi2; [| by apply ends..]. apply (ends (fun x _ => forall c, x = Some (Ok (Some c)) -> claim_message_id c = id)); [done |].
    intros w3 c. unfold InboxClaim_new. destruct (g =? 0); [done |]. by intros [= <-].
Qed.

Lemma cleanup_rg retention limit w :
  hi - lo < retention -> records_inv w ->
  rg records_evolve records_evolve (fun _ => records_inv) (cleanup_completed_for retention limit) w.
Proof.
  intros Hr Hi. unfold cleanup_completed_for.
  destruct (validate_retention_cleanup_limit limit); [| by intros w1 Hw1%records_rtc; apply Hw1].
  destruct (limit =? 0)%nat; [by intros w1 Hw1%records_rtc; apply Hw1 |].
  eapply rg_bind; [by apply (time_read records_evolve records_quiet records_inv); [apply records_stable |] | | by intros w1 [_ []]].
  intros now w1 [Hi1 (w0 & Hi0 & _ & ->)].
  eapply rg_bind; [apply (rg_frame _ _ records_inv); [apply records_stable | apply records_stable | done | by apply (kl_keys records_evolve), records_quiet] | | by intros w2 []].
  intros [keys|text] w2 [_ Hi2]; [| by intros w3 Hw3%records_rtc; apply Hw3].
  eapply rg_mono; [apply cleanup_loop_rg; [done | apply (ri_clock _ Hi0) | done] | by intros x w3 []].
Qed.
End records.

(** ** The contracts of the behaviors *)

Section laws.
Context {A App : Type} `{!KeyValue A} `{!KeyValueLaws A} (lo hi : SystemTime).

Abbreviation world := (NatsWorld A * App)%type.

Definition bucket_inv (w : world) : Prop := records_inv lo hi (fst w).
Definition bucket_evolve (w w' : world) : Prop := records_evolve lo hi (fst w) (fst w').
Definition key_response (key : string) (b : list Z) (w : world) : Prop := keeps_response key b (fst w).
Definition message_response (id : Z) (b : list Z) (w : world) : Prop := key_response (message_key id) b w.

Lemma bucket_rg {B} (Q : option B -> NatsWorld A -> Prop) (t : Task (NatsWorld A) B) w :
  rg (records_evolve lo hi) (records_evolve lo hi) Q t (fst w) ->
  rg bucket_evolve bucket_evolve (fun x w1 => Q x (fst w1)) (zoom fst put_bucket t) w.
Proof. apply rg_zoom_part; [intros w1 w2 Hr; by apply rtc_once | done | done]. Qed.

#[local] Instance key_recorded_laws : Recorded bucket_inv bucket_evolve key_response.
Proof.
  split; [intros w w' He; apply He | intros k b w w' He Hi; by apply response_later with lo hi | intros k b b' w; apply response_unique].
Qed.

#[local] Instance message_recorded_laws : Recorded bucket_inv bucket_evolve message_response.
Proof.
  split; [intros w w' He; apply He | |].
  - intros k b w w'. apply (rd_later (recorded := key_response) (message_key k)).
  - intros k b b' w. apply (rd_unique (inv := bucket_inv) (R := bucket_evolve) (recorded := key_response) (message_key k)).
Qed.

(** The inbox on JetStream keeps its contract. *)
#[export] Instance nats_inbox_laws : InboxLaws bucket_inv bucket_evolve message_response.
Proof.
  split; [apply _ | ..].
  - intros id lease w Hi. by apply (bucket_rg (fun x w1 => records_inv lo hi w1 /\ forall c, x = Some (Ok (Some c)) -> claim_message_id c = id)), try_claim_for_rg.
  - intros c b w Hi. eapply rg_mono; [by apply bucket_rg, (transition_claim_rg lo hi) |]. intros x w1 [Hi1 Hx]. split; [done |].
    intros E. apply (stored_response lo hi); auto.
  - intros c w Hi. eapply rg_mono; [by apply bucket_rg, (transition_claim_rg lo hi) |]. by intros x w1 [].
  - intros id w Hi. by apply (bucket_rg (fun x w1 => records_inv lo hi w1 /\ forall b, x = Some (Ok (Some b)) -> keeps_response (message_key id) b w1)), records_result_rg.
Qed.

(** So do the idempotency keys. *)
#[export] Instance nats_idempotency_laws : IdempotencyLaws bucket_inv bucket_evolve key_response.
Proof.
  split; [apply _ | ..].
  - intros key w Hi. eapply rg_mono; [by apply bucket_rg, (try_claim_loop_rg lo hi) |]. by intros x w1 [].
  - intros key b w Hi. eapply rg_mono; [by apply bucket_rg, (transition_loop_rg lo hi) |]. intros x w1 [Hi1 Hx]. split; [done |].
    intros E. apply (stored_response lo hi); auto.
  - intros key w Hi. eapply rg_mono; [by apply bucket_rg, (transition_loop_rg lo hi) |]. by intros x w1 [].
  - intros key w Hi. by apply (bucket_rg (fun x w1 => records_inv lo hi w1 /\ forall b, x = Some (Ok (Some b)) -> keeps_response key b w1)), records_result_rg.
Qed.

(** Around the deliveries the service and the applications go on, the clock stays in the period, and
    writes are stored that do not replace a completed record, such as those whose answer was lost. *)
Inductive bucket_surroundings : world -> world -> Prop :=
| bs_service v clock a app : lo <= clock <= hi -> bucket_surroundings (v, app) (mkNats (nw_stream v) (nw_tokens v) clock a, app)
| bs_app v app app' : bucket_surroundings (v, app) (v, app')
| bs_late v v' app key value : (forall e, latest key (nw_stream v) = Some e -> ~ completed e) -> written Put key value v v' ->
    bucket_surroundings (v, app) (v', app).

Lemma bucket_surroundings_evolve w w' : bucket_surroundings w w' -> bucket_evolve w w'.
Proof.
  intros [v clock a app Hc|v app app'|v v' app key value Hl Hw]; unfold bucket_evolve; simpl.
  - split; [| done]. intros [H1 H2 H3 H4 H5]. by split.
  - by split.
  - by eapply record_written.
Qed.

Section agreement.
Context {M Resp : Type} (codec : ResultCodec (R := Resp)) (handler : DispatchCtx -> M -> Task App (CatgaResult Resp))
  (lease : Duration) (message_id : M -> Z).
Hypothesis (Hcodec : forall r b, rc_encode codec r = Ok b -> rc_decode codec b = Ok r).

Definition put_app (a : App) (w : world) : world := (fst w, a).

(** The rest of the pipeline works on the applications. *)
Definition in_application : Next (W := world) M Resp := fun cx m => zoom snd put_app (handler cx m).

(** Deliveries, and runs of retention whose time is longer than the period *)
Inductive InboxCall := Deliver (cx : DispatchCtx) (m : M) | CleanUp (retention : {r : Duration | hi - lo < r}) (limit : nat).

Definition inbox_call (call : InboxCall) : Task world (CatgaResult Resp + CatgaResult nat) :=
  match call with
  | Deliver cx m => await r := InboxBehavior codec lease message_id cx m in_application in Done (inl r)
  | CleanUp retention limit => await r := zoom fst put_bucket (nats_inbox_cleanup (`retention) limit) in Done (inr r)
  end.

Definition call_done (call : InboxCall) (x : option (CatgaResult Resp + CatgaResult nat)) (w : world) : Prop :=
  match call with
  | Deliver cx m => message_id m <> 0 -> forall r, x = Some (inl r) -> answered codec message_response (message_id m) (Some r) w
  | CleanUp _ _ => True
  end.

Lemma in_application_inv cx m w : bucket_inv w -> rg bucket_evolve bucket_evolve (fun _ => bucket_inv) (in_application cx m) w.
Proof.
  intros Hi. apply rg_zoom; [intros w1 v; by split | done | intros w1 w2 He; apply He | done].
Qed.

Lemma inbox_call_rg call w : bucket_inv w -> rg bucket_evolve bucket_evolve (call_done call) (inbox_call call) w.
Proof.
  intros Hi. destruct call as [cx m|retention limit]; cbn [inbox_call call_done].
  - destruct (decide (message_id m = 0)) as [Hz|Hz].
    + eapply (rg_bind _ _ (fun _ => bucket_inv)); [| by intros r w1 _ w2 _ Hne | by intros].
      unfold InboxBehavior. rewrite Hz. by apply (rg_next_result bucket_inv bucket_evolve message_response), in_application_inv.
    + eapply rg_bind_stable; [by apply (inbox_answered bucket_inv bucket_evolve codec message_response); eauto using in_application_inv | | by intros].
      intros r w1 Hq w2 Hw2 _ r' [= <-]. by apply Hq.
  - eapply (rg_bind _ _ (fun _ => bucket_inv)); [| by intros r w1 _ w2 _ | by intros].
    apply (bucket_rg (fun _ => records_inv lo hi)), cleanup_rg; [apply (proj2_sig retention) | done].
Qed.

(** C17: Consumers in any number of processes over one bucket, in a period shorter than the retention: all
    deliveries of a message that succeed give the same response, whatever answers of the service are
    lost, read from a replica that lags or come true late, also when a lease runs out and the handler
    runs again. *)
Theorem nats_inbox_agreement w0 w pool i j cx cx' m m' r r' :
  bucket_inv w0 -> rtc (pool_step bucket_surroundings inbox_call) (w0, []) (w, pool) ->
  pool !! i = Some (Deliver cx m, Finished (inl (Ok r))) -> pool !! j = Some (Deliver cx' m', Finished (inl (Ok r'))) ->
  message_id m = message_id m' -> message_id m <> 0 -> r = r'.
Proof.
  intros Hi0 Hr Hm Hm' E Hz.
  destruct (pool_sound bucket_evolve bucket_surroundings inbox_call bucket_inv call_done bucket_surroundings_evolve
    (fun w w' He Hw => re_inv _ _ _ _ He Hw) inbox_call_rg _ _ _ Hi0 Hr) as [_ Hpool].
  pose proof (Hpool _ _ _ Hm w (rtc_refl _ _) Hz _ eq_refl) as H1.
  assert (message_id m' <> 0) as Hz' by congruence. pose proof (Hpool _ _ _ Hm' w (rtc_refl _ _) Hz' _ eq_refl) as H2. rewrite <- E in H2.
  by apply (answered_agree bucket_inv bucket_evolve codec message_response (message_id m) r r' w).
Qed.
End agreement.
End laws.

(** ** Names of records *)

Lemma hex_digits_inj b b' :
  0 <= b < 256 -> 0 <= b' < 256 -> hex_digit (Z.shiftr b 4) = hex_digit (Z.shiftr b' 4) -> hex_digit (Z.land b 15) = hex_digit (Z.land b' 15) -> b = b'.
Proof.
  intros Hb Hb'. rewrite !Z.shiftr_div_pow2 by lia. change 15 with (Z.ones 4). rewrite !Z.land_ones by lia. change (2 ^ 4) with 16.
  unfold hex_digit. intros H1 H2. pose proof (Z.div_mod b 16 ltac:(lia)). pose proof (Z.div_mod b' 16 ltac:(lia)).
  pose proof (Z.mod_pos_bound b 16 ltac:(lia)). pose proof (Z.mod_pos_bound b' 16 ltac:(lia)).
  destruct (Z.ltb_spec (b / 16) 10), (Z.ltb_spec (b' / 16) 10), (Z.ltb_spec (b mod 16) 10), (Z.ltb_spec (b' mod 16) 10); lia.
Qed.

Lemma is_byte_range b : is_byte b = true <-> 0 <= b < 256.
Proof. unfold is_byte. rewrite andb_true_iff, Z.leb_le, Z.ltb_lt. done. Qed.

Lemma hex_bytes n : 0 <= n < 16 -> is_byte (hex_digit n) = true.
Proof. intros Hn. apply is_byte_range. unfold hex_digit. destruct (Z.ltb_spec n 10); lia. Qed.

(** Different keys have different records, and so do different messages. *)
Theorem record_key_inj key key' : record_key key = record_key key' -> key = key'.
Proof.
  intros He. apply (inj bytes_of_string). pose proof (bytes_of_string_bytes key) as Hk. pose proof (bytes_of_string_bytes key') as Hk'.
  assert (forall bs, Forall (fun b => is_byte b = true) bs ->
    Forall (fun b => is_byte b = true) (107 :: (bs ≫= fun b => [hex_digit (Z.shiftr b 4); hex_digit (Z.land b 15)]))) as Hbytes.
  { intros bs Hbs. constructor; [done |]. apply Forall_bind. eapply Forall_impl; [exact Hbs |]. intros b Hb%is_byte_range.
    assert (0 <= Z.shiftr b 4 < 16) by (rewrite Z.shiftr_div_pow2 by lia; change (2 ^ 4) with 16; Z.to_euclidean_division_equations; lia).
    assert (0 <= Z.land b 15 < 16) by (change 15 with (Z.ones 4); rewrite Z.land_ones by lia; apply Z.mod_pos_bound; lia).
    repeat constructor; by apply hex_bytes. }
  unfold record_key in He. apply (f_equal bytes_of_string) in He. rewrite !bytes_of_string_of_bytes in He by auto. injection He as He.
  clear Hbytes. revert He Hk'. generalize (bytes_of_string key') as bs'. induction Hk as [|b bs Hb _ IH]; intros [|b' bs'] He Hk'; try done.
  apply Forall_cons in Hk' as [Hb' Hk']. injection He as H1 H2 He. f_equal; [| by apply IH].
  apply hex_digits_inj; [by apply is_byte_range | by apply is_byte_range | done | done].
Qed.

Lemma message_keys_distinct id id' :
  int_min u64 <= id <= int_max u64 -> int_min u64 <= id' <= int_max u64 ->
  record_key (message_key id) = record_key (message_key id') -> id = id'.
Proof.
  intros Hid Hid' He%record_key_inj. unfold message_key in He. apply (f_equal bytes_of_string) in He.
  assert (forall v, int_min u64 <= v <= int_max u64 -> Forall (fun b => is_byte b = true) (display_u64 v)) as Hb.
  { intros v Hv. destruct (display_u64_digits v Hv) as (Hd & _). eapply Forall_impl; [exact Hd |]. intros b Hr. apply is_byte_range. simpl in Hr. lia. }
  rewrite !bytes_of_string_of_bytes in He by auto. by apply display_u64_inj.
Qed.

(** ** Runs

    A single server; the handler counts its runs and answers with the count. *)

Section runs.

Abbreviation count_world := (NatsWorld unit * nat)%type.

Definition morning : SystemTime := 1000000000000.
Definition evening : SystemTime := 2000000000000.
Definition count_call : InboxCall (M := Z) morning evening -> Task count_world (CatgaResult nat + CatgaResult nat) :=
  inbox_call morning evening count_codec count_handler (from_millis 100) id.

Definition empty_inbox : count_world := (mkNats [] [] morning tt, 0%nat).

Definition advance (ms : Z) (w : count_world) : count_world :=
  (mkNats (nw_stream (fst w)) (nw_tokens (fst w)) (morning + from_millis ms) tt, snd w).

Definition delivery : Move (InboxCall (M := Z) morning evening) := Start (Deliver morning evening no_ctx 7).
Definition polls (i n : nat) : list (Move (InboxCall (M := Z) morning evening)) := replicate n (Poll i 0).

(** The claim of the first delivery is stored and its answer lost; it finds the message claimed and
    gives up.  When that lease is over a second one claims, when its lease is over a third one does
    and completes; the second is refused when it completes.  A fourth one gets the response of the
    third without running the handler. *)
Definition inbox_first := foldl (move count_call) (empty_inbox, []) ([delivery] ++ polls 0 3 ++ [Poll 0 2] ++ polls 0 2).
Definition inbox_second := foldl (move count_call) (advance 200 (fst inbox_first), snd inbox_first) ([delivery] ++ polls 1 4).
Definition inbox_third := foldl (move count_call) (advance 400 (fst inbox_second), snd inbox_second)
  ([delivery] ++ polls 2 7 ++ polls 1 2 ++ [delivery] ++ polls 3 4).

Lemma clock_advances ms c :
  0 <= ms <= 1000000 -> rtc (pool_step (bucket_surroundings morning evening) count_call) c (advance ms (fst c), snd c).
Proof.
  intros Hms. destruct c as [[v app] pool]. apply rtc_once, pool_env. apply bs_service.
  unfold morning, evening, from_millis, NANOS_PER_MILLI. lia.
Qed.

Lemma inbox_third_steps : rtc (pool_step (bucket_surroundings morning evening) count_call) (empty_inbox, []) inbox_third.
Proof.
  transitivity inbox_first; [apply moves_steps |]. etrans; [apply (clock_advances 200); lia |]. fold inbox_second.
  transitivity inbox_second; [apply moves_steps |]. etrans; [apply (clock_advances 400); lia |]. apply moves_steps.
Qed.

Lemma empty_inbox_inv : bucket_inv morning evening empty_inbox.
Proof.
  unfold bucket_inv, empty_inbox, fst. split.
  - split; [apply SSorted_nil | apply Forall_nil_2].
  - unfold morning, evening. cbn [nw_clock]. lia.
  - apply Forall_nil_2.
  - apply Forall_nil_2.
  - intros key i a b Ha. change ([] !! i = Some a) in Ha. by rewrite lookup_nil in Ha.
Qed.

Lemma nats_inbox_agreement_witness :
  snd <$> snd inbox_third
  = [Finished (inl (fail Conflict "inbox message is already claimed")); Finished (inl (fail Conflict "inbox claim is no longer owned"));
     Finished (inl (Ok 1%nat)); Finished (inl (Ok 1%nat))]
  /\ forall r, snd inbox_third !! 3%nat = Some (Deliver morning evening no_ctx 7, Finished (inl (Ok r))) -> r = 1%nat.
Proof.
  split; [by vm_compute |]. intros r Hr. symmetry.
  apply (nats_inbox_agreement morning evening count_codec count_handler (from_millis 100) id count_codec_ok
    empty_inbox (fst inbox_third) (snd inbox_third) 2%nat 3%nat no_ctx no_ctx 7 7 1%nat r); [| | | exact Hr | done | done].
  - apply empty_inbox_inv.
  - rewrite <- surjective_pairing. apply inbox_third_steps.
  - by vm_compute.
Defined.

(** An idempotency key is claimed and the answer of that write is lost: the caller finds the key
    claimed by somebody else, and so does every later one; nobody handles the message. *)
Example lost_claim_blocks :
  let claim := records_try_claim (A := unit) "key" in
  let lost := foldl (move (fun _ : unit => claim)) (mkNats [] [] morning tt, []) [Start tt; Poll 0 0; Poll 0 2; Poll 0 0] in
  snd lost = [(tt, Finished (Ok false))] /\ fst (run_alone claim (advance 1000000 (fst lost, 0%nat)).1) = Some (Ok false).
Proof. vm_compute. split; reflexivity. Qed.
End runs.
