(* ===== verification/NatsProgress.v ===== *)
(** * Progress of DSL flows on JetStream ([catga-nats/src/dsl_progress.rs])

    Each step of a flow has one key.  Whatever answers are lost, the messages of a key are one
    creation, then updates of which each carries the version after the one before, then at most one
    deletion.  Nothing follows a deletion: the progress of a deleted step cannot be created again. *)

From S2P Require Import Prelude Utf8 Errors Time Wire Codec DslProgress Tasks Routing Kv.

Section store.
Context {A : Type} `{!KeyValue A} `{!Utf8Validator} (uuid : nat -> list Z) (hex : list Z -> string) (sha256 : list Z -> list Z).

Abbreviation world := (NatsWorld A).

Definition step_key (flow_id : string) (step_index : Z) : string :=
  "d" +:+ hex (sha256_concat_digest sha256 [bytes_of_string flow_id; be_bytes 4 step_index]).

Definition map_memorypack (e : MemoryPackError) : CatgaError := CatgaError_new Internal (mp_error_to_string e).

Definition encode_progress (p : DslStepProgress) : CatgaResult (list Z) :=
  match serialize_frame progress_codec p with Ok bytes => Ok bytes | Err e => Err (map_memorypack e) end.

Definition decode_progress (value : list Z) : CatgaResult DslStepProgress :=
  match deserialize_frame progress_codec value with Ok p => Ok p | Err e => Err (map_memorypack e) end.

Definition progress_entry (flow_id : string) (step_index : Z) : Task world (CatgaResult (option Entry)) :=
  entry_or_transient (step_key flow_id step_index).

Definition progress_compare_and_set (key : string) (value : list Z) (revision : Z) : Task world (CatgaResult bool) :=
  await answer := kv_update key value revision in
  match answer with
  | Ok _ => Done (Ok true)
  | Err WrongLastSequence => Done (Ok false)
  | Err (UpdateFailed text) =>
    await found := kv_entry key in
    Done (match found with
          | Ok (Some entry) =>
            if bool_decide (e_operation entry = Put) && bool_decide (e_value entry = value) then Ok true else fail Transient text
          | _ => fail Transient text
          end)
  end.

Definition progress_create (p : DslStepProgress) : Task world (CatgaResult bool) :=
  let key := step_key (p_flow_id p) (p_step_index p) in
  match encode_progress p with
  | Err e => Done (Err e)
  | Ok bytes =>
    await record := create_record uuid bytes in
    await answer := kv_update key (cr_value record) 0 in
    match answer with
    | Ok _ => Done (Ok true)
    | Err WrongLastSequence => Done (Ok false)
    | Err (UpdateFailed text) =>
      await found := kv_entry key in
      Done (match found with
            | Ok (Some entry) =>
              if bool_decide (e_operation entry = Put) then
                let? stored := decode_record (e_value entry) in
                if record_matches record stored then Ok true else fail Transient text
              else fail Transient text
            | _ => fail Transient text
            end)
    end
  end.

Definition progress_update (expected_version : Z) (next : DslStepProgress) : Task world (CatgaResult bool) :=
  if negb (progress_is_next_version expected_version (p_version next)) then Done (Ok false)
  else
    let key := step_key (p_flow_id next) (p_step_index next) in
    await? found := progress_entry (p_flow_id next) (p_step_index next) in
    match found with
    | None => Done (Ok false)
    | Some entry =>
      if negb (bool_decide (e_operation entry = Put)) then Done (Ok false)
      else
        match decode_record (e_value entry) with
        | Err e => Done (Err e)
        | Ok record =>
          match decode_progress (nr_payload record) with
          | Err e => Done (Err e)
          | Ok current =>
            if negb (p_version current =? expected_version) then Done (Ok false)
            else
              match encode_progress next with
              | Err e => Done (Err e)
              | Ok bytes => progress_compare_and_set key (with_payload record bytes) (e_revision entry)
              end
          end
        end
    end.

Definition progress_get (flow_id : string) (step_index : Z) : Task world (CatgaResult (option DslStepProgress)) :=
  await? found := progress_entry flow_id step_index in
  Done (match found with
        | None => Ok None
        | Some entry =>
          if negb (bool_decide (e_operation entry = Put)) then Ok None
          else
            let? record := decode_record (e_value entry) in
            let? p := decode_progress (nr_payload record) in
            Ok (Some p)
        end).

Fixpoint progress_delete_loop (retries : nat) (flow_id : string) (step_index : Z) : Task world (CatgaResult bool) :=
  match retries with
  | O => Done (Err (cas_error "DSL progress" "delete"))
  | S retries =>
    await? found := progress_entry flow_id step_index in
    match found with
    | None => Done (Ok false)
    | Some entry =>
      if negb (bool_decide (e_operation entry = Put)) then Done (Ok false)
      else
        await answer := kv_delete_expect_revision (step_key flow_id step_index) (Some (e_revision entry)) in
        if is_ok answer then Done (Ok true) else progress_delete_loop retries flow_id step_index
    end
  end.

Definition progress_delete (flow_id : string) (step_index : Z) : Task world (CatgaResult bool) :=
  progress_delete_loop MAX_CAS_RETRIES flow_id step_index.
End store.

(** ** The history of a step *)

Section properties.
Context {A : Type} `{!KeyValue A} `{!KeyValueLaws A} `{!Utf8Validator}.
Context (uuid : nat -> list Z) (hex : list Z -> string) (sha256 : list Z -> list Z).
Hypothesis uuid_length : forall n, length (uuid n) = 16%nat.

Abbreviation world := (NatsWorld A).

(** The record [b] carries progress of the version after that of [a], under the same identifier. *)
Definition advances (a b : Entry) : Prop :=
  exists r current next bytes, decode_record (e_value a) = Ok r /\ decode_progress (nr_payload r) = Ok current
    /\ encode_progress next = Ok bytes /\ e_value b = with_payload r bytes /\ progress_is_next_version (p_version current) (p_version next) = true.

Record progress_inv (w : world) : Prop := {
  pi_stream : stream_ok (nw_stream w);
  pi_linked : linked (fun a b => e_operation a = Put /\ (e_operation b = Put -> advances a b)) w
}.

Record progress_evolve (w w' : world) : Prop := {
  pe_inv : progress_inv w -> progress_inv w';
  pe_stream : nw_stream w `prefix_of` nw_stream w';
  pe_tokens : nw_tokens w `prefix_of` nw_tokens w'
}.

#[local] Instance progress_evolve_preorder : PreOrder progress_evolve.
Proof. split; [intros w; by split |]. intros w1 w2 w3 [H1 H2 H3] [H4 H5 H6]. split; [auto | by etrans | by etrans]. Qed.

Lemma progress_rtc w w' : rtc progress_evolve w w' -> progress_evolve w w'.
Proof. intros Hr. induction Hr; [reflexivity | by etrans]. Qed.

Lemma progress_stable w w' : progress_evolve w w' -> progress_inv w -> progress_inv w'.
Proof. intros He. apply He. Qed.

Lemma progress_quiet : quiet progress_evolve.
Proof. intros w a. split; [| done | done]. intros [H1 H2]. by split. Qed.

Lemma progress_written op key value w w' :
  written op key value w w' ->
  (progress_inv w -> forall a, latest key (nw_stream w) = Some a ->
     e_operation a = Put /\ (op = Put -> forall b, e_value b = value -> advances a b)) ->
  progress_evolve w w'.
Proof.
  intros Hw Hl. split; [| by eapply written_grows | by destruct Hw as (r & a & _ & _ & ->)].
  intros Hi. split; [by eapply written_ok, Hi |]. eapply linked_written; [exact Hw | apply Hi |].
  intros a b Ha Hb Hv _. destruct (Hl Hi a Ha) as [Hp Hadv]. split; [done |]. intros Hpb. apply Hadv; congruence.
Qed.

(** *** Conditional writes on an entry that was read *)

Definition current_at (key : string) (e : Entry) (w : world) : Prop := progress_inv w /\ shown key (Some e) w /\ e_operation e = Put.

Lemma current_at_later key e w w' : progress_evolve w w' -> current_at key e w -> current_at key e w'.
Proof. intros He (Hi & Hs & Hc). split_and!; [by apply He | by eapply (shown_later progress_evolve); [apply pe_stream | |] | done]. Qed.

Lemma current_write op key e value w w' :
  current_at key e w -> (op = Put -> forall b, e_value b = value -> advances e b) ->
  revision_of key (nw_stream w) = e_revision e -> written op key value w w' -> progress_evolve w w' /\ replaced 0 op key e value w'.
Proof.
  intros (Hi & Hs & Hp) Ha Hr Hw. assert (latest key (nw_stream w) = Some e) as Hlat by (apply shown_latest; [apply Hi | done | done]).
  split; [| by eapply replaced_written; [lia | |]].
  eapply progress_written; [exact Hw |]. intros _ a Hla. rewrite Hlat in Hla. by simplify_eq.
Qed.

Abbreviation key_of := (step_key hex sha256).

(** What a call that reports success has done *)
Inductive ProgressCall := Create (p : DslStepProgress)
                        | Update (expected_version : Z) (next : DslStepProgress)
                        | Remove (flow_id : string) (step_index : Z).

Definition progress_call (call : ProgressCall) : Task world (CatgaResult bool) :=
  match call with
  | Create p => progress_create uuid hex sha256 p
  | Update expected next => progress_update hex sha256 expected next
  | Remove flow_id step_index => progress_delete hex sha256 flow_id step_index
  end.

Definition progress_kept (call : ProgressCall) (w : world) : Prop :=
  match call with
  | Create p => exists n bytes e, encode_progress p = Ok bytes /\ nw_tokens w !! n = Some bytes
      /\ e ∈ messages w (key_of (p_flow_id p) (p_step_index p)) /\ exists r, decode_record (e_value e) = Ok r /\ nr_token r = Some (uuid n)
  | Update _ next => exists r bytes e, encode_progress next = Ok bytes
      /\ e ∈ messages w (key_of (p_flow_id next) (p_step_index next)) /\ e_value e = with_payload r bytes
  | Remove flow_id step_index => exists i e, messages w (key_of flow_id step_index) !! S i = Some e /\ e_operation e = Delete
  end.

Definition call_kept (call : ProgressCall) (x : option (CatgaResult bool)) (w : world) : Prop :=
  progress_inv w /\ (x = Some (Ok true) -> progress_kept call w).

Lemma call_fails call (x : CatgaResult bool) w :
  progress_inv w -> x <> Ok true -> rg progress_evolve progress_evolve (call_kept call) (Done x) w.
Proof. intros Hi Hx w1 Hw1%progress_rtc. split; [by apply Hw1 |]. by intros [= ?]. Qed.

Lemma message_in key e (w : world) : shown key (Some e) w -> e ∈ messages w key.
Proof.
  intros Hs. apply list_elem_of_filter. split; [| by eapply shown_in]. destruct Hs as (seen & _ & He). symmetry in He. by apply latest_in in He as [_ ?].
Qed.

Lemma message_later key e w w' : progress_evolve w w' -> e ∈ messages w key -> e ∈ messages w' key.
Proof. intros He [i Hl]%list_elem_of_lookup_1. eapply list_elem_of_lookup_2, messages_later; [apply He | exact Hl]. Qed.

Lemma written_message op key value (w w' : world) : written op key value w w' -> exists e, e ∈ messages w' key /\ e_value e = value.
Proof.
  intros Hw. destruct (messages_written _ _ _ _ _ Hw) as (e & _ & Hv & _ & Hh). exists e. split; [| done].
  rewrite Hh, decide_True by done. apply elem_of_app. right. by apply list_elem_of_singleton.
Qed.

Lemma progress_entry_rg (P : world -> Prop) key w :
  (forall w1 w2, progress_evolve w1 w2 -> P w1 -> P w2) -> P w ->
  rg progress_evolve progress_evolve (fun x w' => P w' /\ match x with
    | Some (Ok found) => shown key found w' | Some (Err _) => True | None => False end) (entry_or_transient key) w.
Proof. apply (entry_or_transient_shown progress_evolve); [apply progress_quiet | apply pe_stream]. Qed.

Lemma confirm_rg (P : world -> Prop) key w :
  (forall w1 w2, progress_evolve w1 w2 -> P w1 -> P w2) -> P w ->
  rg progress_evolve progress_evolve (fun x w' => P w' /\ match x with
    | Some (Ok found) => shown key found w' | Some (Err _) => True | None => False end) (kv_entry key) w.
Proof. apply (entry_shown progress_evolve); [apply progress_quiet | apply pe_stream]. Qed.

Lemma progress_create_rg p w :
  progress_inv w -> rg progress_evolve progress_evolve (call_kept (Create p)) (progress_create uuid hex sha256 p) w.
Proof.
  intros Hi. unfold progress_create. destruct (encode_progress p) as [bytes|err] eqn:Eb; [| by apply call_fails].
  set (key := key_of (p_flow_id p) (p_step_index p)).
  eapply rg_bind; [apply (record_drawn progress_evolve); [apply progress_quiet | | apply pe_tokens | apply progress_stable | done] | | by intros w1 [_ []]].
  { intros w1. split; [| done | by eexists]. by intros [H1 H2]. }
  intros c w1 [Hi1 (n & -> & Ht1)]. cbn [cr_value].
  set (P := fun w2 => progress_inv w2 /\ nw_tokens w2 !! n = Some bytes).
  assert (forall w2 w3, progress_evolve w2 w3 -> P w2 -> P w3) as HP.
  { intros w2 w3 He [H2 H3]. split; [by apply He | eapply prefix_lookup_Some; [exact H3 | apply He]]. }
  assert (forall w2 w3, rtc progress_evolve w1 w2 -> revision_of key (nw_stream w2) = 0 ->
    written Put key (encode_record (uuid n) bytes) w2 w3 -> progress_evolve w2 w3) as Hcommit.
  { intros w2 w3 Hr%progress_rtc Hz Hw. eapply progress_written; [exact Hw |]. intros Hi2 a Ha.
    unfold latest in Ha. by rewrite (revision_zero key _ (pi_stream _ Hi2) Hz) in Ha. }
  eapply rg_bind_stable; [apply (rg_frame _ _ P); [done | done | done |] | | intros w2 [_ [? _]]; by split].
  { apply (kl_update progress_evolve); [apply progress_quiet |]. exact Hcommit. }
  intros [r|[|text]] w2 Hq.
  - intros w3 Hw3. destruct (Hq w3 Hw3) as [(wa & wb & _ & _ & Hw & Hb%progress_rtc) [Hi3 Ht3]]. split; [done |]. intros _.
    destruct (written_message _ _ _ _ _ Hw) as (e & He & Hv). exists n, bytes, e.
    split_and!; [done | done | by eapply message_later |]. rewrite Hv, decode_encode_record by done. by eexists.
  - destruct (Hq w2 (rtc_refl _ _)) as [_ [Hi2 _]]. by apply call_fails.
  - destruct (Hq w2 (rtc_refl _ _)) as [_ HP2]. clear Hq. eapply rg_bind_stable; [by apply (confirm_rg P key) | | by intros w3 [_ []]].
    intros [[e|]|e] w3 Hq w4 Hw4; destruct (Hq w4 Hw4) as [[Hi4 Ht4] Hs]; (split; [done |]); [| done | done].
    destruct (bool_decide _); [| done]. destruct (decode_record (e_value e)) as [r|] eqn:Ed; [| done]. simpl. unfold record_matches. simpl.
    case_bool_decide as Hm; [| done]. intros _. exists n, bytes, e. split_and!; [done | done | by apply message_in | by exists r].
Qed.

Lemma progress_update_rg expected next w :
  progress_inv w -> rg progress_evolve progress_evolve (call_kept (Update expected next)) (progress_update hex sha256 expected next) w.
Proof.
  intros Hi. unfold progress_update. destruct (progress_is_next_version _ _) eqn:Ev; cbn [negb]; [| by apply call_fails].
  set (key := key_of (p_flow_id next) (p_step_index next)).
  eapply rg_bind; [by apply (progress_entry_rg progress_inv key); [apply progress_stable |] | | by intros w1 [_ []]].
  intros [[e|]|err] w1 [Hi1 Hs]; [| by apply call_fails | by apply call_fails].
  case_bool_decide as Hp; cbn [negb]; [| by apply call_fails]. destruct (decode_record (e_value e)) as [r|] eqn:Er; [| by apply call_fails].
  destruct (decode_progress (nr_payload r)) as [current|] eqn:Ec; [| by apply call_fails].
  destruct (Z.eqb_spec (p_version current) expected) as [<-|]; cbn [negb]; [| by apply call_fails].
  destruct (encode_progress next) as [bytes|] eqn:Eb; [| by apply call_fails]. set (value := with_payload r bytes).
  assert (Put = Put -> forall b, e_value b = value -> advances e b) as Hadv by (intros _ b Hb; by exists r, current, next, bytes).
  assert (current_at key e w1) as Hcur by done.
  eapply rg_bind_stable; [apply (rg_frame _ _ (current_at key e)); [apply current_at_later | apply current_at_later | done |] | | intros w2 [_ [? _]]; by split].
  { apply (kl_update progress_evolve); [apply progress_quiet |]. intros w2 w3 Hr%progress_rtc Hz Hw.
    eapply (current_write Put key e value); [by apply (current_at_later _ _ w1) | done | done | done]. }
  intros [rev|[|text]] w2 Hq.
  - intros w3 Hw3. destruct (Hq w3 Hw3) as [(wa & wb & _ & _ & Hw & Hb%progress_rtc) [Hi3 _]]. split; [done |]. intros _.
    destruct (written_message _ _ _ _ _ Hw) as (e1 & He & Hv). exists r, bytes, e1. split_and!; [done | by eapply message_later | done].
  - destruct (Hq w2 (rtc_refl _ _)) as [_ [Hi2 _]]. by apply call_fails.
  - destruct (Hq w2 (rtc_refl _ _)) as [_ [Hi2 _]]. clear Hq.
    eapply rg_bind_stable; [by apply (confirm_rg progress_inv key); [apply progress_stable |] | | by intros w3 [_ []]].
    intros [[e1|]|e1] w3 Hq w4 Hw4; destruct (Hq w4 Hw4) as [Hi4 Hs4]; (split; [done |]); [| done | done].
    destruct (bool_decide _); simpl; [| done]. case_bool_decide as Hv; [| done]. intros _.
    exists r, bytes, e1. split_and!; [done | by apply message_in | done].
Qed.

Lemma progress_delete_rg retries flow_id step_index w :
  progress_inv w ->
  rg progress_evolve progress_evolve (call_kept (Remove flow_id step_index)) (progress_delete_loop hex sha256 retries flow_id step_index) w.
Proof.
  revert w. induction retries as [|retries IH]; intros w Hi; [by apply call_fails |]. cbn [progress_delete_loop].
  set (key := key_of flow_id step_index).
  eapply rg_bind; [by apply (progress_entry_rg progress_inv key); [apply progress_stable |] | | by intros w1 [_ []]].
  intros [[e|]|err] w1 [Hi1 Hs]; [| by apply call_fails | by apply call_fails].
  case_bool_decide as Hp; cbn [negb]; [| by apply call_fails]. assert (current_at key e w1) as Hcur by done.
  eapply rg_bind_stable; [apply (rg_frame _ _ (current_at key e)); [apply current_at_later | apply current_at_later | done |] | | intros w2 [_ [? _]]; by split].
  { apply (kl_delete progress_evolve); [apply progress_quiet |]. intros w2 w3 Hr%progress_rtc Hz Hw.
    eapply (current_write Delete key e []); [by apply (current_at_later _ _ w1) | done | by apply Hz | done]. }
  intros [[]|text] w2 Hq; cbn [is_ok].
  - intros w3 Hw3. destruct (Hq w3 Hw3) as [(wa & wb & Ha%progress_rtc & Hz & Hw & Hb%progress_rtc) [Hi3 _]]. split; [done |]. intros _.
    destruct (current_write Delete key e [] wa wb) as [_ Hrep]; [by apply (current_at_later _ _ w1) | done | by apply Hz | done |].
    apply (replaced_later _ _ _ _ _ wb w3) in Hrep; [| apply Hb]. destruct Hrep as (i & b & _ & _ & Hl & Hop & _). by exists i, b.
  - apply IH. apply (Hq w2 (rtc_refl _ _)).
Qed.

(** Around the calls the service and the clock go on, and writes whose answer was lost are stored
    late, under their conditions. *)
Inductive progress_surroundings : world -> world -> Prop :=
| pr_service w clock a : progress_surroundings w (mkNats (nw_stream w) (nw_tokens w) clock a)
| pr_late_create w w' key value : revision_of key (nw_stream w) = 0 -> written Put key value w w' -> progress_surroundings w w'
| pr_late_write w w' op key e value :
    current_at key e w -> (op = Put -> forall b, e_value b = value -> advances e b) ->
    revision_of key (nw_stream w) = e_revision e -> written op key value w w' -> progress_surroundings w w'.

Lemma progress_surroundings_evolve w w' : progress_surroundings w w' -> progress_evolve w w'.
Proof.
  intros [w1 clock a|w1 w2 key value Hz Hw|w1 w2 op key e value Hc Ha Hr Hw].
  - split; [| done | done]. by intros [H1 H2].
  - eapply progress_written; [exact Hw |]. intros Hi a Ha. unfold latest in Ha. by rewrite (revision_zero key _ (pi_stream _ Hi) Hz) in Ha.
  - by eapply current_write.
Qed.

(** C18: Any number of processes over one bucket, whatever answers are lost, come from a lagging
    replica or come true late: each message of a step follows one that is not a deletion, and
    when it is an update it carries progress of the version after the one it replaces, under
    the same record identifier.  So nothing follows a deletion: the progress of a deleted step
    can never be created again.  A creation that reports success has in this history a message
    under an identifier that was drawn for its payload; an update one with its payload, which an
    equal update of another process may have written when its own answer was lost; and a removal
    a deletion, directly over a message that is none.  Assumed: identifiers have 16 bytes, the
    bucket keeps its documented promises, and a write that takes effect late does so under its
    condition. *)
Theorem progress_history w0 w pool :
  progress_inv w0 -> rtc (pool_step progress_surroundings progress_call) (w0, []) (w, pool) ->
  (forall key i a b, messages w key !! i = Some a -> messages w key !! S i = Some b ->
     e_operation a = Put /\ (e_operation b = Put -> advances a b))
  /\ forall i call, pool !! i = Some (call, Finished (Ok true)) -> progress_kept call w.
Proof.
  intros Hi0 Hr. destruct (pool_sound progress_evolve progress_surroundings progress_call progress_inv call_kept
    progress_surroundings_evolve progress_stable) with (w := w0) (w' := w) (pool := pool) as [Hi Hpool]; [| done | done |].
  - intros [p|expected next|flow_id step_index] w1 Hw1; [by apply progress_create_rg | by apply progress_update_rg | by apply progress_delete_rg].
  - split; [apply Hi |]. intros i call Hl. by apply (Hpool _ _ _ Hl w (rtc_refl _ _)).
Qed.
End properties.

(** ** A run

    On a single server a step is saved, and saved again at the next version with the answer lost;
    then its progress is removed, and the flow starts anew. *)

Section runs.

Definition numbered (n : nat) : list Z := Z.of_nat n :: replicate 15 0.

Definition saved : DslStepProgress := progress_new "flow" 0 [1] 5.
Definition saved_again : DslStepProgress := mkProgress "flow" 0 1 ApplicationState [2] 6.

Definition demo_progress : ProgressCall -> Task (NatsWorld unit) (CatgaResult bool) := progress_call numbered string_of_bytes id.

Definition step_run :=
  foldl (move demo_progress) (mkNats [] [] 5 tt, [])
    ([Start (Create saved); Poll 0 0; Poll 0 0] ++ [Start (Update 0 saved_again); Poll 1 0; Poll 1 2; Poll 1 0]
     ++ [Start (Remove "flow" 0); Poll 2 0; Poll 2 0] ++ [Start (Create saved); Poll 3 0; Poll 3 0]).

(** The store has no progress of the step, and refuses to create it. *)
Example deleted_step_not_created :
  snd <$> snd step_run = [Finished (Ok true); Finished (Ok true); Finished (Ok true); Finished (Ok false)]
  /\ fst (run_alone (progress_get string_of_bytes id "flow" 0) (fst step_run)) = Some (Ok None).
Proof. vm_compute. split; reflexivity. Qed.

Lemma progress_history_witness :
  e_operation <$> messages (fst step_run) (step_key string_of_bytes id "flow" 0) = [Put; Put; Delete]
  /\ (forall key i a b, messages (fst step_run) key !! i = Some a -> messages (fst step_run) key !! S i = Some b ->
       e_operation a = Put /\ (e_operation b = Put -> advances a b))
  /\ progress_kept numbered string_of_bytes id (Update 0 saved_again) (fst step_run).
Proof.
  assert (progress_inv (A := unit) (mkNats [] [] 5 tt)) as Hi.
  { split; [split; simpl; [apply SSorted_nil | apply Forall_nil_2] | by intros k []]. }
  assert (rtc (pool_step progress_surroundings demo_progress) (mkNats [] [] 5 tt, []) (fst step_run, snd step_run)) as Hr
    by (rewrite <- surjective_pairing; apply moves_steps).
  split; [by vm_compute |]. split; [apply (proj1 (progress_history numbered string_of_bytes id ltac:(done) _ _ _ Hi Hr)) |].
  apply (proj2 (progress_history numbered string_of_bytes id ltac:(done) _ _ _ Hi Hr) 1%nat). by vm_compute.
Defined.
End runs.
